(* ===== verification/_CoqProject ===== *)
-Q . S2P
Prelude.v
Text.v
Base64.v
Rng.v
FixedTable.v
Timer.v
Policy.v
Raw.v
HttpHead.v
Http1.v
HttpStream.v
HttpChunked.v
HttpSecrecy.v
HttpGuard.v
HttpRewrite.v
Dns.v
Attribution.v
SyncRing.v
Jsonl.v
Ordered.v
BootPlan.v
BootSchedule.v
BootGraph.v
BootRun.v
BootSafety.v
Fields.v
AgentDocument.v
AgentState.v
AgentRuntime.v
AgentHandlers.v
AgentReconcile.v
AgentLoop.v
AgentProtocol.v
AgentInvariant.v
AgentRefine.v
AgentSim.v
AgentStep.v
AgentCorrect.v
AgentSecrecy.v
AgentSafety.v
AgentCommit.v
AgentReport.v
AgentExample.v
Format.v
Secrets.v
JsonAuth.v
HostInput.v
SecretFlow.v
Manifest.v
ManifestValid.v
ManifestSecrets.v
HostSecrets.v
ManifestExample.v
Io.v
FrameStream.v
IoSlot.v
Limits.v
Buffers.v
Drive.v
DriveCorrect.v
GuestLink.v
GuestExact.v
Device.v
Gateway.v
GatewayPolicy.v
TlsHello.v
TlsRoute.v
HttpTotal.v
TlsSession.v
TlsRelay.v
TlsRelayLaws.v
TlsRelaySteps.v
TlsRelayCorrect.v
TlsProxy.v
TlsProxyCorrect.v
TlsUpstream.v
CryptoSession.v
TlsEndToEnd.v
