(* ===== verification/Prelude.v ===== *)
(** * agentdp: a verification library for the agent developer platform

    agentdp runs coding agents in virtual machines.  A server (apps/agentdp-server)
    provisions the machines from a manifest, gives each one a mediated network
    (libs/agentdp-network) that filters what the guest sends and puts the real
    secrets in place of placeholders, and talks over JSON lines
    (core/agentdp-protocol) to a daemon in the guest (apps/agentdp-guest) that
    runs the bootstrap of the machine.  Small libraries carry the rest: base64,
    deterministic random numbers, fixed tables, lock-free queues.

    The library models these parts as pure functions, with the state they
    mutate passed explicitly, and proves what makes each correct.  File names
    below are relative to the src/ directory of the repository.

    ** Conventions

    - Integers are [Z] with their width written out ([wrapping_*], [checked_*],
      [saturating_*] below); list positions are [nat] where they index a slice
      that exists in memory, and [usize] is 64 bits.
    - Bytes are integers below 256 ([are_bytes]); a [str] is the list of its
      code points, with UTF-8 in [Text].
    - A call returns an [outcome]: a value, an error value, a panic (an index
      out of range, an [unreachable!]) or [Timeout], a loop that ran out of the
      fuel the model gives it.  The theorems exclude panics and, where loops
      carry fuel, time-outs.  Code behind [&mut self] that may return early is
      a [stm]: the state reached is returned with the outcome.
    - Loops are structural where the data allows it.  Otherwise the fuel is a
      length or a count the loop cannot exceed, named where the loop is defined
      (the length of the input for the scanners, the number of steps for the
      scheduler, one more than the number of steps for the depth-first search,
      39 digits for a 128-bit decimal).

    ** Files and what they show

    - [Prelude]: integers, outcomes, byte strings, loops, shared lemmas.
      [Text]: the parts of Rust's [str] the parsers use, UTF-8 round trip.
    - [Base64] (libs/agentdp-base64/src/lib.rs): [encode] and [decode] with
      their table-driven fast paths refine the textbook codec on every input,
      never panic, and round trip; a divergence on trailing bits is recorded.
    - [Rng] (libs/agentdp-rand/src/lib.rs): the generator visits every 64-bit
      value once in its period, [below] ends and draws uniformly by rejection,
      [shuffle] permutes, a displayed seed parses back.
    - [FixedTable] (libs/agentdp-ds/src/fixed_table.rs): the slot table refines
      a finite map of bounded size; on its interface, the UDP peers of the
      ingress (ingress/udp.rs) route a response to the last peer of the port.
    - [Timer] (libs/agentdp-network/src/timer.rs): expiry reports each due
      timer once, clears exactly those, and agrees with [next_timeout].
    - [Policy] (libs/agentdp-network/src/policy.rs): the default policy blocks
      exactly the listed CIDR prefixes, and a reload of the secrets reports
      exactly the authorities whose secrets changed.
    - [Raw] (libs/agentdp-network/src/application/raw.rs): replacement
      replaces exactly the occurrences of the needle, and no placeholder is
      left in a substituted header block, basic-auth credentials included.
    - [HttpHead], [Http1] (application/http1.rs and the two substreams it uses)
      model the request filter and the response tracker; on them [HttpStream]
      (outside a tunnel the filter does the same whatever the segments of the
      stream, up to the first it refuses), [HttpChunked] (a chunked body ends
      where RFC 9112 has it end, trailers included), [HttpSecrecy] (what a host
      that is not allowed a secret receives does not depend on it), [HttpGuard]
      (workflow dispatches are refused in every spelling of the path and
      wherever they stand in the stream), [HttpRewrite] (a head whose lines end
      in CRLF announces the length of the rewritten body; two defects recorded).
    - [Dns] (application/dns.rs): parsing ends and never panics, names are read
      exactly as the wire format has them, questions round trip, the addresses
      of an answer follow its aliases, TCP messages are framed.
      [Attribution] (gateway/dns.rs): a host is attributed to an address only
      by a live answer to a question the guest asked.
    - [SyncRing] (libs/agentdp-ds/src/sync/ring.rs): every interleaving of the
      producer and consumer threads is a run of a bounded queue, without races
      on the slots; the buffered producer keeps the order.
    - [Jsonl] (core/agentdp-protocol/src/jsonl.rs): a call returns the next
      frame whatever the chunks of the stream and loses no byte; encoded
      messages are read back.
    - [Ordered]: [BTreeMap] and [BTreeSet] over strings, cycles of finite
      relations.  [BootPlan] (core/agentdp-protocol/src/server_guest/message.rs):
      bootstrap plans and what a valid dependency graph is.
    - [BootGraph] (core/agentdp-core/src/provisioning/bootstrap.rs): the
      server's depth-first search accepts exactly the valid graphs, and a plan
      it accepted splits by placement into plans the guest can order.
    - [BootSchedule] (apps/agentdp-guest/src/system/bootstrap/scheduler.rs): the
      guest orders exactly the valid plans.
    - [BootRun], [BootSafety] (apps/agentdp-guest/src/system/bootstrap.rs): the
      run of a plan against every order in which tasks end and every failure of
      a write or a message: each launch is justified by the state on disk, no
      step runs twice or beside one that shares a resource, the run ends with a
      report that agrees with the disk, a retry resumes what had not passed.

    - [Fields]: assignment to the fields of a record.  The controller of an
      agent (apps/agentdp-server/src/agent/runtime.rs, documents.rs, wait.rs and
      the documents of core/agentdp-core/src/agent):
      [AgentDocument] the documents, their generations and redaction;
      [AgentState] the state of the loop, its tasks and its effects;
      [AgentRuntime] the environment of an iteration and the publication of
      documents; [AgentReconcile] [reconcile] and what it admits;
      [AgentHandlers] the completions and timers; [AgentLoop] the commands, the
      commit, the start and the iteration.
    - [AgentProtocol], [AgentInvariant]: the abstract controller, a step
      relation on claims, phases and tasks in flight, and its invariant.
      [AgentRefine], [AgentSim], [AgentStep], [AgentCorrect]: each part of an
      iteration is a sequence of its steps.  [AgentSafety] draws the
      conclusions: the loop refines the protocol, no two tasks work on the same
      thing, a cleanup has its instance to itself and starts after the phase was
      saved.  [AgentSecrecy]: private keys reach no client, stream or log.
      [AgentCommit]: a request is answered after the save, with the saved
      document.  [AgentReport]: a document says it has converged exactly when
      nothing is left to do; a client that waited has what it waited for.
      [AgentExample]: the smallest agent, on which the theorems are tried.

    - [Format]: numbers as text, classes of characters, lossy UTF-8.
    - [Secrets] (core/agentdp-core/src/provisioning/secrets.rs and
      [runtime_secrets] of qemu/network.rs): placeholders, the bindings of an
      instance and what its network is given of them.
      [JsonAuth] (manifest/plugins/mediated_json_auth.rs): a credential file
      is hidden from the guest, its values can be put back for the
      placeholders, and rotated credentials keep them.
      [HostInput] (provisioning/host_input.rs): what a manifest requires of
      the host, and exactly which environment files are accepted.
      [SecretFlow]: from the environment file through the bindings to the
      filter of [Http1], a host a variable is not declared for learns nothing
      of its value.
    - [Manifest] (core/agentdp-core/src/manifest/mod.rs and manifest/plugins):
      the data of a manifest, its validation and what it requires of the host.
      [ManifestValid]: validation accepts exactly the manifests that satisfy
      the rules, and the host ports of a valid one are all assigned, in range
      and distinct.  [ManifestSecrets]: the variables of a valid manifest and
      the hosts declared for them.  [HostSecrets] (apps/agentdp-server/src/host/seed.rs
      and the credential files of the plugins): every secret the network of an
      instance is given, from the environment file or a credential file, is one
      the manifest declares, for the hosts it declares.  [ManifestExample]: a
      manifest on which these are tried, and two defects of the repository
      paths.

    - The mediated network (libs/agentdp-network), a turn at a time.  [Io]: what
      a nonblocking socket answers, as a script of the environment.  [Limits]
      (network.rs): the capacities of a network and their validation.  [Buffers]
      (buffers/pool.rs, write_queue.rs): the frame and byte pools with their
      reserves, and queues of buffers to write; a frame of the guest can always
      be read and answered, and no byte buffer is lost.  [IoSlot] (readiness.rs,
      reactor/registered.rs): the latch of readiness loses no wake-up.
      [FrameStream] (backends/agentdp-qemu/src/net/stream.rs): length-prefixed
      frames over the socket of QEMU arrive whole, in order and once.
      [Drive] (drive.rs): the budget of a turn and the operations that spend it;
      [DriveCorrect]: what they move is moved exactly, and what stops short has
      its reason on record.  [GuestLink] (guest.rs) and [GuestExact]: the frames
      accepted for the guest are those the session carried and those queued.
      [Device] (gateway/device.rs): the device under the TCP/IP stack neither
      loses nor reorders frames.
    - [Gateway] (gateway/mod.rs, packet.rs, application/classify.rs): what a
      frame of the guest becomes, UDP both ways, admission of TCP connections,
      the polls of the stack.  [GatewayPolicy]: over any history, what leaves
      the guest is allowed, is DNS or goes to an address an unexpired answer
      attributed to an allowed host; and polling ends.
    - TLS of the guest (agentdp-network/src/tls, tls_route of egress/tcp/tls.rs).
      [TlsHello] (sni.rs): the server name of a ClientHello, read exactly when
      its record is complete, against an encoder of the TLS specification.
      [TlsRoute] (intercept.rs, tcp_egress_route of gateway/mod.rs): the
      certificates by name and their cache, the policy of a connection and the
      route of a name; over any history a name is refused, tunnelled or
      intercepted as the policy and the configuration say.
    - The relay of an intercepted connection.  [HttpTotal]: every call of the
      filter of [Http1] gives a result or an error, whatever it is fed.
      [TlsSession] and [TlsRelay] (egress/tcp/tls.rs): the side of the guest and
      [TlsHttp1Proxy], which moves plaintext through the filter between two
      sessions; [TlsRelayLaws] and [TlsRelaySteps] what each operation does,
      [TlsRelayCorrect]: all that the sessions give goes through the filter, in
      order and once, and the server's session is given what the filter puts out.  [TlsProxy] (tls.rs): the connection as a state
      machine, from the bytes of the ClientHello through the handshake to the
      relay, or to a tunnel; [TlsProxyCorrect] its invariant.  [TlsUpstream]
      (egress/tcp/tls_upstream.rs): the session with the server over its
      registered socket.  [CryptoSession] (libs/agentdp-crypto/src/tls.rs): both
      sessions over rustls.  [TlsEndToEnd]: over any history of bytes, closes,
      readiness and turns, the next turn ends, and a server is told exactly what
      the filter of its name makes of the plaintext of the guest.  To say so the
      sessions record what they gave and accepted, in fields no operation reads.

    ** How the parts interact

    [Http1] calls [HttpHead] for heads, [Raw] for substitution and [Policy] for
    the decision; [HttpSecrecy] is proved against the interface of the
    substitution, whatever it is.  [Attribution] calls [Dns] and [Policy].  The
    bootstrap goes from [BootGraph] (server) through the plan of [BootPlan] to
    [BootSchedule] and [BootRun] (guest); [BootGraph.accepted_plan_runs] is the
    composition.  The controller of an agent is proved against the classes
    [AgentDocument.AgentTypes], the data it only carries, and
    [AgentDocument.ManifestRules], what the manifest promises about host ports;
    [Manifest.manifest_types] and [Manifest.manifest_rules] are the instances
    the manifest gives.  [SecretFlow] composes [HostInput], [Secrets] and
    [HttpSecrecy]; [ManifestSecrets] adds the manifest in front.  In the
    network, [Drive] runs on [Buffers], [IoSlot] and [Limits]; [GuestLink] uses
    it over the interface of a session ([GuestLink.GuestFrameSession]), which
    [FrameStream] implements; [Gateway] sits on [Device], [Drive], [Attribution],
    [Policy] and the peers of [FixedTable], over the interfaces [Gateway.Wire]
    (the frames), [Gateway.Stack] (the TCP/IP stack) and [Gateway.TcpProxies].
    The relay is proved against [TlsSession.GuestTls], the session with the
    guest, and [TlsRelay.Upstream], the connection to the server; [TlsUpstream]
    implements the latter over [TlsUpstream.ClientTls], and [CryptoSession] both
    sessions over [CryptoSession.Rustls].  [TlsEndToEnd] composes [TlsRoute],
    which decides, with the proxy, the relay and the filter.  The loops of the
    relay run on the steps of the turn's budget, of which each round takes one,
    or on the bytes queued, of which each takes some; a drain of rustls on the
    bytes of its limit.

    ** The environment

    What is not Rust code of the repository is an argument: the operating
    system's files, sockets and clock, serde (JSON and YAML), SHA-256, the
    source of random bytes, rustls.  Tasks and
    threads are the choices of an adversary: lists of segments, chunks, task
    ends and failures that the theorems quantify over.  A task the controller
    spawned ends with any message of its kind ([AgentRuntime] and
    [AgentCorrect] say which), at any time; the clock, the full queues, the
    reports of the networks and the failing writes of an iteration are a record
    [Env], arbitrary in each iteration.

    ** Not modelled

    Of the controller: the bodies of the tasks it spawns (they drive the
    backend), the tail of the event log, and the commands an agent receives
    before its documents are loaded.  Of the manifest: reading the file, YAML
    and the defaults serde fills in.  Of the network: smoltcp (its frames and its
    stack are interfaces), the sockets of the operating system and mio (their
    answers are arguments), rustls and the generation of certificates, the
    proxies of plain TCP and UDP, the ports of the host, and the order in which
    the event loop calls the components.  Left aside: the
    QEMU backend, the container proxy and the other daemons (processes and HTTP
    over tokio), the rendering of scripts and cloud-init documents (text
    templates), command lines and platform wrappers. *)
From stdpp Require Export prelude list gmap strings.
From Stdlib Require Export ZArith Lia.

(** ** Machine integers

    Rust's fixed-width integers are integers of [Z]; the operators that can
    leave the width say so: [wrapping_*] reduces modulo the width, [checked_*]
    returns an option and [saturating_*] clamps.  [usize] is 64 bits wide, the
    width of every platform the program is built for. *)
Definition u16_max : Z := 65535.
Definition u32_max : Z := 4294967295.
Definition u64_max : Z := 18446744073709551615.
Definition usize_max : Z := u64_max.

Definition u64_modulus : Z := 18446744073709551616.
Definition wrap64 (z : Z) : Z := z mod u64_modulus.
Definition wrapping_add64 (a b : Z) : Z := wrap64 (a + b).
Definition wrapping_sub64 (a b : Z) : Z := wrap64 (a - b).
Definition wrapping_mul64 (a b : Z) : Z := wrap64 (a * b).
Definition saturating_add64 (a b : Z) : Z := Z.min u64_max (a + b).
Definition saturating_sub (a b : Z) : Z := Z.max 0 (a - b).
Definition checked_add_usize (a b : Z) : option Z :=
  if (a + b <=? usize_max)%Z then Some (a + b)%Z else None.

Definition is_u64 (z : Z) : Prop := (0 <= z < u64_modulus)%Z.

#[export] Instance is_u64_dec z : Decision (is_u64 z).
Proof. unfold is_u64. apply _. Defined.

(** ** Results

    A call returns a value ([Ret]), returns an error value ([Fail], Rust's
    [Err]), or panics ([Panic]: an index out of range, an [unreachable!]).
    A loop translated with fuel that runs out yields [Timeout]; the theorems
    show that the fuel the model passes is enough. *)
Inductive outcome (E A : Type) : Type :=
| Ret (a : A)
| Fail (e : E)
| Panic
| Timeout.
Arguments Ret {E A} _.
Arguments Fail {E A} _.
Arguments Panic {E A}.
Arguments Timeout {E A}.

#[export] Instance outcome_ret E : MRet (outcome E) := λ A a, Ret a.
#[export] Instance outcome_bind E : MBind (outcome E) := λ A B f m,
  match m with
  | Ret a => f a
  | Fail e => Fail e
  | Panic => Panic
  | Timeout => Timeout
  end.
#[export] Instance outcome_fmap E : FMap (outcome E) := λ A B f m,
  match m with
  | Ret a => Ret (f a)
  | Fail e => Fail e
  | Panic => Panic
  | Timeout => Timeout
  end.

(** [res.map_err(f)] *)
Definition map_err {E F A} (f : E → F) (m : outcome E A) : outcome F A :=
  match m with
  | Ret a => Ret a
  | Fail e => Fail (f e)
  | Panic => Panic
  | Timeout => Timeout
  end.

(** Code that mutates an object behind [&mut self] and may return early: the
    state reached is returned with the outcome, on the error path too. *)
Definition stm (S E A : Type) : Type := S → outcome E A * S.

#[export] Instance stm_ret S E : MRet (stm S E) := λ A a s, (Ret a, s).
#[export] Instance stm_bind S E : MBind (stm S E) := λ A B f m s,
  match m s with
  | (Ret a, s') => f a s'
  | (Fail e, s') => (Fail e, s')
  | (Panic, s') => (Panic, s')
  | (Timeout, s') => (Timeout, s')
  end.

Definition stm_get {S E} : stm S E S := λ s, (Ret s, s).
Definition stm_modify {S E} (f : S → S) : stm S E unit := λ s, (Ret tt, f s).
Definition stm_fail {S E A} (e : E) : stm S E A := λ s, (Fail e, s).
Definition stm_lift {S E A} (m : outcome E A) : stm S E A := λ s, (m, s).
(** [match call() { Ok(a) => .., Err(e) => .. }] *)
Definition stm_try {S E F A} (m : stm S E A) : stm S F (A + E) := λ s,
  match m s with
  | (Ret a, s') => (Ret (inl a), s')
  | (Fail e, s') => (Ret (inr e), s')
  | (Panic, s') => (Panic, s')
  | (Timeout, s') => (Timeout, s')
  end.
(** A call on a part of the state: [get] borrows it, [put] writes it back *)
Definition stm_zoom {S T E A} (get : S → T) (put : T → S → S) (m : stm T E A) : stm S E A := λ s,
  let (r, t) := m (get s) in (r, put t s).

(** ** Byte strings

    A byte is an integer of [0, 256); a [&[u8]] is a list of them.  Slicing and
    indexing check the bounds as Rust does. *)
Abbreviation bytes := (list Z).

Definition is_byte (b : Z) : Prop := (0 <= b < 256)%Z.

#[export] Instance is_byte_dec b : Decision (is_byte b).
Proof. unfold is_byte. apply _. Defined.

Definition are_bytes (l : bytes) : Prop := Forall is_byte l.

Definition ascii_code (c : Ascii.ascii) : Z := Z.of_N (Ascii.N_of_ascii c).

(** The bytes of an ASCII string literal [b"..."]. *)
Definition bytes_of (s : string) : bytes :=
  ascii_code <$> String.list_ascii_of_string s.

(** The byte literal [b'c']. *)
Definition byte_of (s : string) : Z :=
  match s with String.EmptyString => 0 | String.String c _ => ascii_code c end.

Definition CR : Z := 13.
Definition LF : Z := 10.
Definition crlf : bytes := [CR; LF].
Definition crlfcrlf : bytes := [CR; LF; CR; LF].

Definition zlen {A} (l : list A) : Z := Z.of_nat (length l).

(** [l[i]] *)
Definition index {E A} (l : list A) (i : nat) : outcome E A :=
  match l !! i with Some x => Ret x | None => Panic end.

(** [l[a..b]] *)
Definition slice {E A} (l : list A) (a b : nat) : outcome E (list A) :=
  if (a <=? b)%nat && (b <=? length l)%nat then Ret (take (b - a) (drop a l)) else Panic.

(** [l.get(i)] and [l.get(a..b)] with [usize] positions *)
Definition get_at {A} (l : list A) (i : Z) : option A :=
  if (0 <=? i)%Z && (i <? zlen l)%Z then l !! Z.to_nat i else None.
Definition get_range {A} (l : list A) (a b : Z) : option (list A) :=
  if (0 <=? a)%Z && (a <=? b)%Z && (b <=? zlen l)%Z
  then Some (take (Z.to_nat (b - a)) (drop (Z.to_nat a) l)) else None.

(** [l[i]] and [l[a..b]] with [usize] positions *)
Definition index_z {E A} (l : list A) (i : Z) : outcome E A :=
  match get_at l i with Some x => Ret x | None => Panic end.
Definition slice_z {E A} (l : list A) (a b : Z) : outcome E (list A) :=
  match get_range l a b with Some s => Ret s | None => Panic end.

(** [dst[o..o + src.len()].copy_from_slice(src)] *)
Definition write_slice {E A} (dst : list A) (o : nat) (src : list A) : outcome E (list A) :=
  if (o + length src <=? length dst)%nat
  then Ret (take o dst ++ src ++ drop (o + length src) dst) else Panic.

(** [l.iter().position(p)] *)
Fixpoint position {A} (p : A → bool) (l : list A) : option nat :=
  match l with
  | [] => None
  | x :: l => if p x then Some 0%nat else S <$> position p l
  end.

(** [l.iter().find_map(f)] *)
Fixpoint find_map {A B} (f : A → option B) (l : list A) : option B :=
  match l with
  | [] => None
  | x :: l => match f x with Some y => Some y | None => find_map f l end
  end.

(** [l.starts_with(p)] and [l.ends_with(p)] *)
Fixpoint starts_with (l p : bytes) : bool :=
  match p, l with
  | [], _ => true
  | _ :: _, [] => false
  | y :: p, x :: l => (x =? y)%Z && starts_with l p
  end.
Definition ends_with (l p : bytes) : bool :=
  (length p <=? length l)%nat && bool_decide (drop (length l - length p) l = p).

(** [hay.windows(n).position(|w| w == needle)] for a needle of length [n > 0] *)
Fixpoint find_sub (hay needle : bytes) : option nat :=
  if starts_with hay needle then Some 0%nat
  else match hay with
       | [] => None
       | _ :: hay => S <$> find_sub hay needle
       end.

(** [u16::from_be_bytes] *)
Definition u16_be (hi lo : Z) : Z := Z.lor (Z.shiftl hi 8) lo.
(** [u64::from_be_bytes] of a list of eight bytes; any list is read big-endian *)
Definition be_value (l : bytes) : Z := foldl (λ acc b, Z.lor (Z.shiftl acc 8) b) 0%Z l.
(** [to_le_bytes] of an [n]-byte integer *)
Fixpoint le_bytes (n : nat) (z : Z) : bytes :=
  match n with O => [] | S n => Z.land z 255 :: le_bytes n (Z.shiftr z 8) end.
(** [to_be_bytes] *)
Definition be_bytes (n : nat) (z : Z) : bytes := reverse (le_bytes n z).

(** [l.swap(i, j)] *)
Definition swap_at {E A} (l : list A) (i j : nat) : outcome E (list A) :=
  match l !! i, l !! j with
  | Some x, Some y => Ret (<[i := y]> (<[j := x]> l))
  | _, _ => Panic
  end.

(** [l.chunks(n)] for [n > 0] *)
Fixpoint chunks_go {A} (fuel n : nat) (l : list A) : list (list A) :=
  match fuel, l with
  | S fuel, _ :: _ => take n l :: chunks_go fuel n (drop n l)
  | _, _ => []
  end.
Definition chunks {A} (n : nat) (l : list A) : list (list A) := chunks_go (length l) n l.

(** [l.resize(n, x)] *)
Definition resize {A} (n : nat) (x : A) (l : list A) : list A :=
  take n l ++ replicate (n - length l) x.

(** ** Loops

    [loop { .. }] and [while]: a body that continues with a new state ([inl]) or
    leaves with a result ([inr]).  [iter_until p] runs at most [p] rounds, and
    evaluates no more of them than the loop takes; [iter_nat] is its unary
    specification. *)
Fixpoint iter_until {S A} (p : positive) (step : S → S + A) (s : S) : S + A :=
  match p with
  | xH => step s
  | xO p => match iter_until p step s with
            | inl s => iter_until p step s
            | inr a => inr a
            end
  | xI p => match step s with
            | inl s =>
              match iter_until p step s with
              | inl s => iter_until p step s
              | inr a => inr a
              end
            | inr a => inr a
            end
  end.

Fixpoint iter_nat {S A} (n : nat) (step : S → S + A) (s : S) : S + A :=
  match n with
  | O => inl s
  | Datatypes.S n => match step s with inl s => iter_nat n step s | inr a => inr a end
  end.

(** ** Shared tactics and hints *)
Create HintDb rust.


(** Case analysis on the outcome of a call. *)
Ltac case_outcome m :=
  let H := fresh "Houtcome" in destruct m as [?a|?e| |] eqn:H; simplify_eq/=.

(** Run through the monadic structure of a hypothesis [H : m ≫= k = Ret x]. *)
Ltac invert_ret H :=
  repeat match type of H with
         | (?m ≫= _) = _ => let Hm := fresh "Hrun" in destruct m eqn:Hm; try done; simpl in H
         | (match ?m with _ => _ end) = _ => let Hm := fresh "Hcase" in destruct m eqn:Hm; try done
         end; simplify_eq/=.

(** ** Shared lemmas: integers *)
Section integers.
Local Open Scope Z_scope.

Lemma forall_below (n : Z) (P : Z → Prop) `{!∀ x, Decision (P x)} :
  bool_decide (Forall P (seqZ 0 n)) = true → ∀ x, 0 <= x < n → P x.
Proof.
  intros Hall%bool_decide_eq_true x Hx. rewrite Forall_forall in Hall.
  apply Hall, elem_of_seqZ. lia.
Qed.

Lemma land_low (x n : Z) : 0 <= n → Z.land x (Z.ones n) = x mod 2 ^ n.
Proof. apply Z.land_ones. Qed.

Lemma land_63 x : Z.land x 63 = x mod 64.
Proof. by apply (Z.land_ones x 6). Qed.
Lemma land_15 x : Z.land x 15 = x mod 16.
Proof. by apply (Z.land_ones x 4). Qed.
Lemma land_255 x : Z.land x 255 = x mod 256.
Proof. by apply (Z.land_ones x 8). Qed.

Lemma testbit_high (n x i : Z) : 0 <= x < 2 ^ n → n <= i → Z.testbit x i = false.
Proof.
  intros Hx Hi. destruct (decide (n < 0)).
  { rewrite Z.pow_neg_r in Hx by done. lia. }
  rewrite <-(Z.mod_small x (2 ^ n)) by done. apply Z.mod_pow2_bits_high. lia.
Qed.

(** Or-ing a number into the low bits another one leaves free is addition. *)
Lemma lor_shiftl_add (x y n : Z) :
  0 <= n → 0 <= y < 2 ^ n → Z.lor (Z.shiftl x n) y = x * 2 ^ n + y.
Proof.
  intros Hn Hy. rewrite <-(Z.shiftl_mul_pow2 x n) by done.
  symmetry. apply Z.add_nocarry_lor, Z.bits_inj'. intros i Hi.
  rewrite Z.land_spec, Z.bits_0, Z.shiftl_spec by done.
  destruct (decide (i < n)).
  - by rewrite (Z.testbit_neg_r x) by lia.
  - rewrite (testbit_high n y) by lia. apply andb_false_r.
Qed.

Lemma lor_below (x y n : Z) :
  0 <= n → 0 <= x → 0 <= y → Z.lor x y < 2 ^ n ↔ x < 2 ^ n ∧ y < 2 ^ n.
Proof.
  intros Hn Hx Hy.
  assert (Hsmall : ∀ z, 0 <= z → z < 2 ^ n ↔ Z.shiftr z n = 0).
  { intros z Hz. rewrite Z.shiftr_div_pow2 by done. split; intros H.
    - apply Z.div_small. lia.
    - apply Z.div_small_iff in H; lia. }
  rewrite !Hsmall by (try apply Z.lor_nonneg; lia).
  by rewrite Z.shiftr_lor, Z.lor_eq_0_iff.
Qed.

Lemma below_shiftr (x n : Z) : 0 <= n → 0 <= x → x < 2 ^ n ↔ Z.shiftr x n = 0.
Proof.
  intros Hn Hx. rewrite Z.shiftr_div_pow2 by done. split; intros H.
  - apply Z.div_small. lia.
  - apply Z.div_small_iff in H; lia.
Qed.

Lemma lxor_below (x y n : Z) :
  0 <= n → 0 <= x < 2 ^ n → 0 <= y < 2 ^ n → 0 <= Z.lxor x y < 2 ^ n.
Proof.
  intros Hn Hx Hy. assert (0 <= Z.lxor x y) by (apply Z.lxor_nonneg; lia). split; [done|].
  apply below_shiftr; [done..|]. rewrite Z.shiftr_lxor.
  by rewrite (proj1 (below_shiftr x n ltac:(lia) ltac:(lia))), (proj1 (below_shiftr y n ltac:(lia) ltac:(lia))) by lia.
Qed.

Lemma wrap64_range z : is_u64 (wrap64 z).
Proof. by apply Z.mod_pos_bound. Qed.

Lemma wrap64_id z : is_u64 z → wrap64 z = z.
Proof. apply Z.mod_small. Qed.

Lemma le_bytes_app n m z : 
  le_bytes (n + m) z = le_bytes n z ++ le_bytes m (Z.shiftr z (8 * Z.of_nat n)).
Proof.
  revert z. induction n as [|n IH]; intros z; [done|]. cbn [Nat.add le_bytes app].
  rewrite IH, Z.shiftr_shiftr by lia.
  by replace (8 * Z.of_nat (S n)) with (8 + 8 * Z.of_nat n) by lia.
Qed.

Lemma length_le_bytes n z : length (le_bytes n z) = n.
Proof. revert z. induction n; intros; simpl; auto. Qed.

(** The low [n] bytes ignore what is above them. *)
Lemma le_bytes_low n a z : le_bytes n (a * 2 ^ (8 * Z.of_nat n) + z) = le_bytes n z.
Proof.
  revert a z. induction n as [|n IH]; intros a z; [done|]. cbn [le_bytes].
  replace (a * 2 ^ (8 * Z.of_nat (S n)) + z) with ((a * 2 ^ (8 * Z.of_nat n)) * 256 + z)
    by (rewrite Nat2Z.inj_succ, Z.mul_succ_r, Z.pow_add_r by lia; lia).
  rewrite !land_255, !Z.shiftr_div_pow2 by lia. change (2 ^ 8) with 256.
  rewrite Z.div_add_l, Z.add_comm, Z.mod_add, IH by done. done.
Qed.

Lemma be_value_app l b : is_byte b → be_value (l ++ [b]) = be_value l * 256 + b.
Proof.
  intros Hb. unfold be_value. rewrite foldl_app. simpl.
  by rewrite lor_shiftl_add by (unfold is_byte in Hb; lia).
Qed.

(** An integer is read back from its bytes, most significant first. *)
Lemma be_value_be_bytes n z : 0 <= z < 2 ^ (8 * Z.of_nat n) → be_value (be_bytes n z) = z.
Proof.
  unfold be_bytes. revert z. induction n as [|n IH]; intros z Hz.
  - assert (z = 0) as -> by (cbn in Hz; lia). done.
  - assert (0 <= z / 2 ^ 8 < 2 ^ (8 * Z.of_nat n)) as Hdiv.
    { split; [apply Z.div_pos; lia|]. apply Z.div_lt_upper_bound; [lia|].
      rewrite <-Z.pow_add_r by lia. replace (8 + 8 * Z.of_nat n) with (8 * Z.of_nat (S n)) by lia. lia. }
    cbn [le_bytes]. rewrite reverse_cons, Z.shiftr_div_pow2 by lia.
    rewrite land_255, be_value_app by (apply Z.mod_pos_bound; lia). rewrite IH by done.
    change (2 ^ 8) with 256. pose proof (Z.div_mod z 256 ltac:(lia)). lia.
Qed.

Lemma length_be_bytes n z : length (be_bytes n z) = n.
Proof. unfold be_bytes. by rewrite length_reverse, length_le_bytes. Qed.

Lemma be_bytes_are_bytes n z : are_bytes (be_bytes n z).
Proof.
  unfold are_bytes, be_bytes. apply Forall_reverse. revert z. induction n as [|n IH]; intros z; cbn [le_bytes]; constructor; [|done].
  rewrite land_255. unfold is_byte. apply Z.mod_pos_bound. lia.
Qed.

Lemma lor_nonneg_2 x y : 0 <= x → 0 <= y → 0 <= Z.lor x y.
Proof. intros. by apply Z.lor_nonneg. Qed.
End integers.

#[export] Hint Resolve lor_nonneg_2 wrap64_range : rust.

(** ** Shared lemmas: loops *)
Section loops.
Context {S A : Type} (step : S → S + A).

Lemma iter_nat_add n m s :
  iter_nat (n + m) step s =
  match iter_nat n step s with inl s => iter_nat m step s | inr a => inr a end.
Proof. revert s. induction n as [|n IH]; intros s; simpl; [done|]. by destruct (step s). Qed.

Lemma iter_until_nat p s : iter_until p step s = iter_nat (Pos.to_nat p) step s.
Proof.
  revert s. induction p as [p IH|p IH|]; intros s.
  - rewrite Pos2Nat.inj_xI. simpl. destruct (step s) as [s'|]; [|done].
    rewrite iter_nat_add, Nat.add_0_r, IH. by destruct (iter_nat _ step s').
  - rewrite Pos2Nat.inj_xO. simpl. rewrite iter_nat_add, Nat.add_0_r, IH.
    by destruct (iter_nat _ step s).
  - simpl. by destruct (step s).
Qed.
End loops.

(** ** Shared lemmas: indexing, slicing, writing *)
Section slices.
Context {E A : Type}.
Implicit Types (l dst src : list A).

Lemma index_lookup l i x : l !! i = Some x → @index E A l i = Ret x.
Proof. unfold index. by intros ->. Qed.

Lemma drop_lookup l i x : l !! i = Some x → drop i l = x :: drop (i + 1) l.
Proof. intros. by rewrite Nat.add_1_r, (drop_S _ x). Qed.

Lemma slice_ok l a b :
  (a ≤ b)%nat → (b ≤ length l)%nat → @slice E A l a b = Ret (take (b - a) (drop a l)).
Proof. intros. unfold slice. by rewrite !(proj2 (Nat.leb_le _ _)). Qed.

Lemma write_slice_ok dst o src :
  (o + length src ≤ length dst)%nat →
  @write_slice E A dst o src = Ret (take o dst ++ src ++ drop (o + length src) dst).
Proof. intros. unfold write_slice. by rewrite (proj2 (Nat.leb_le _ _)). Qed.

(** Writing at the end of a filled prefix extends the prefix. *)
Lemma write_slice_prefix (pre rest src : list A) :
  (length src ≤ length rest)%nat →
  @write_slice E A (pre ++ rest) (length pre) src =
    Ret ((pre ++ src) ++ drop (length src) rest).
Proof.
  intros. rewrite write_slice_ok by (rewrite length_app; lia).
  rewrite take_app_length, (drop_app_ge _ _ (_ + _)) by lia.
  by rewrite <-app_assoc, Nat.add_sub'.
Qed.

Lemma slice_app_at (pre mid post : list A) :
  @slice E A (pre ++ mid ++ post) (length pre) (length pre + length mid) = Ret mid.
Proof.
  rewrite slice_ok by (rewrite ?length_app; lia).
  by rewrite Nat.add_sub', drop_app_length, take_app_length.
Qed.
End slices.

(** ** Shared lemmas: lists *)

(** Induction on a list three elements at a time. *)
Lemma list_ind_3 {A} (P : list A → Prop) :
  P [] → (∀ a, P [a]) → (∀ a b, P [a; b]) → (∀ a b c l, P l → P (a :: b :: c :: l)) → ∀ l, P l.
Proof.
  intros H0 H1 H2 H3 l. assert (P l ∧ (∀ a, P (a :: l)) ∧ (∀ a b, P (a :: b :: l))) as [? _]; [|done].
  induction l as [|? ? (? & ? & ?)]; eauto.
Qed.

Lemma list_filter_ext_in {A} (P Q : A → Prop) `{!∀ x, Decision (P x), !∀ x, Decision (Q x)} (l : list A) :
  (∀ x, x ∈ l → P x ↔ Q x) → filter P l = filter Q l.
Proof.
  induction l as [|x l IH]; intros Hext; [done|].
  assert (filter P l = filter Q l) by (apply IH; intros; apply Hext; by right).
  pose proof (Hext x ltac:(by left)).
  destruct (decide (P x)).
  - rewrite !filter_cons_True by naive_solver. by f_equal.
  - rewrite !filter_cons_False by naive_solver. done.
Qed.

(** ** Shared lemmas: searching byte strings *)

Lemma starts_with_spec l p : starts_with l p = true ↔ ∃ rest, l = p ++ rest.
Proof.
  revert l. induction p as [|y p IH]; intros l.
  - split; [intros _; by exists l|by destruct l].
  - destruct l as [|x l]; simpl; [split; [done|by intros [rest Hr]; simplify_eq/=]|].
    rewrite andb_true_iff, IH, Z.eqb_eq. split.
    + intros [-> [rest ->]]. by exists rest.
    + intros [rest ?]; simplify_eq. eauto.
Qed.

(** [needle] is somewhere in [hay]. *)
Definition occurs (needle hay : bytes) : Prop := ∃ pre post, hay = pre ++ needle ++ post.

Lemma find_sub_spec hay needle :
  match find_sub hay needle with
  | Some i => (∃ post, hay = take i hay ++ needle ++ post) ∧ (i + length needle ≤ length hay)%nat ∧
      ∀ j, (j < i)%nat → starts_with (drop j hay) needle = false
  | None => ∀ j, starts_with (drop j hay) needle = false
  end.
Proof.
  induction hay as [|x hay IH]; cbn [find_sub].
  - destruct (starts_with [] needle) eqn:Hs.
    + apply starts_with_spec in Hs as [rest [-> ->]%eq_sym%app_nil]. split_and!; [by exists []|done|lia].
    + intros j. by rewrite drop_nil.
  - destruct (starts_with (x :: hay) needle) eqn:Hs.
    + apply starts_with_spec in Hs as [rest Hr]. split_and!; [by exists rest| |lia].
      rewrite Hr, length_app. lia.
    + destruct (find_sub hay needle) as [i|]; simpl.
      * destruct IH as ([post Hpost] & Hlen & Hmin). split_and!; [exists post; simpl; by f_equal|simpl; lia|].
        intros [|j] Hj; [done|]. apply Hmin. lia.
      * intros [|j]; [done|]. apply IH.
Qed.

Lemma find_sub_occurs hay needle : is_Some (find_sub hay needle) ↔ occurs needle hay.
Proof.
  pose proof (find_sub_spec hay needle) as Hf. destruct (find_sub hay needle) as [i|].
  - destruct Hf as ([post Hpost] & _). split; [|done]. intros _. by exists (take i hay), post.
  - split; [by intros []|]. intros (pre & post & ->). specialize (Hf (length pre)).
    rewrite drop_app_length in Hf. assert (starts_with (needle ++ post) needle = true); [|congruence].
    apply starts_with_spec. by exists post.
Qed.

Lemma find_sub_none hay needle : find_sub hay needle = None ↔ ¬ occurs needle hay.
Proof. rewrite <-find_sub_occurs, eq_None_not_Some. done. Qed.

Lemma starts_with_app l t p : starts_with l p = true → starts_with (l ++ t) p = true.
Proof. rewrite !starts_with_spec. intros [rest ->]. exists (rest ++ t). by rewrite (assoc_L (++)). Qed.

Lemma starts_with_short l t p : (length p ≤ length l)%nat → starts_with (l ++ t) p = starts_with l p.
Proof.
  revert l. induction p as [|y p IH]; intros [|x l] Hl; simpl in *; try done; try lia.
  - by destruct t.
  - f_equal. apply IH. lia.
Qed.

(** An occurrence stays where it is when more bytes arrive. *)
Lemma find_sub_app hay t needle i : find_sub hay needle = Some i → find_sub (hay ++ t) needle = Some i.
Proof.
  revert i. induction hay as [|x hay IH]; intros i; cbn [find_sub app].
  - destruct (starts_with [] needle) eqn:Hs; intros; simplify_eq.
    apply (starts_with_app _ t) in Hs. cbn [app] in Hs. destruct t; cbn [find_sub]; by rewrite Hs.
  - destruct (starts_with (x :: hay) needle) eqn:Hs.
    + intros; simplify_eq. apply (starts_with_app _ t) in Hs. cbn [app] in Hs. by rewrite Hs.
    + destruct (find_sub hay needle) as [i'|] eqn:Hf; cbn [fmap option_fmap option_map]; [|done].
      intros; simplify_eq.
      assert (starts_with (x :: hay ++ t) needle = false) as ->.
      { pose proof (find_sub_spec hay needle) as Hspec. rewrite Hf in Hspec.
        destruct Hspec as (_ & Hlen & _). change (x :: hay ++ t) with ((x :: hay) ++ t).
        rewrite starts_with_short; [done|]. simpl. lia. }
      by rewrite (IH i' eq_refl).
Qed.

(** A byte that is not in the needle separates the occurrences. *)
Lemma occurs_separated needle a x b :
  needle ≠ [] → x ∉ needle → occurs needle (a ++ x :: b) ↔ occurs needle a ∨ occurs needle b.
Proof.
  intros Hne Hx. split.
  - intros (pre & post & Heq). apply eq_sym, app_eq_inv in Heq as [(k & -> & Hk)|(k & -> & Hk)].
    + destruct k as [|y k]; simplify_eq/=.
      * destruct needle as [|y needle]; [done|]. simplify_eq/=. destruct Hx. by left.
      * right. by exists k, post.
    + left. apply app_eq_inv in Hk as [(k2 & -> & Hk2)|(k2 & -> & Hk2)].
      * destruct k2 as [|y k2]; simplify_eq/=; [exists pre, []; by rewrite !app_nil_r|].
        destruct Hx. apply elem_of_app. right. by left.
      * by exists pre, k2.
  - intros [(pre & post & ->)|(pre & post & ->)].
    + exists pre, (post ++ x :: b). by rewrite <-!(assoc_L (++)).
    + exists (a ++ x :: pre), post. by rewrite <-!(assoc_L (++)).
Qed.

Lemma occurs_missing needle x l : x ∈ needle → x ∉ l → ¬ occurs needle l.
Proof. intros Hin Hnot (pre & post & ->). set_solver. Qed.

(** ** Partial correctness of a call

    [safe P m]: [m] does not panic and does not run out of fuel, and when it
    returns a value the value satisfies [P]. *)
Definition safe {E A} (P : A → Prop) (m : outcome E A) : Prop :=
  match m with Ret a => P a | Fail _ => True | Panic | Timeout => False end.

Definition stm_safe {S E A} (P : A → S → Prop) (m : stm S E A) (s : S) : Prop :=
  match m s with
  | (Ret a, s') => P a s'
  | (Fail _, _) => True
  | (Panic, _) | (Timeout, _) => False
  end.

Lemma safe_mono {E A} (P Q : A → Prop) (m : outcome E A) :
  safe P m → (∀ a, P a → Q a) → safe Q m.
Proof. destruct m; simpl; auto. Qed.

Lemma safe_bind {E A B} (P : A → Prop) (Q : B → Prop) (m : outcome E A) (f : A → outcome E B) :
  safe P m → (∀ a, P a → safe Q (f a)) → safe Q (m ≫= f).
Proof. destruct m; simpl; auto. Qed.

Lemma stm_safe_bind {S E A B} (P : A → S → Prop) (Q : B → S → Prop) (m : stm S E A) (f : A → stm S E B) s :
  stm_safe P m s → (∀ a s', P a s' → stm_safe Q (f a) s') → stm_safe Q (m ≫= f) s.
Proof.
  unfold stm_safe, mbind, stm_bind. intros Hm Hf.
  destruct (m s) as [[a|e| |] s']; try done. by apply Hf.
Qed.

Lemma stm_safe_mono {S E A} (P Q : A → S → Prop) (m : stm S E A) s :
  stm_safe P m s → (∀ a s', P a s' → Q a s') → stm_safe Q m s.
Proof. unfold stm_safe. destruct (m s) as [[a|e| |] s']; auto. Qed.

Lemma stm_safe_lift {S E A} (P : A → Prop) (m : outcome E A) (s : S) :
  safe P m → stm_safe (λ a s', P a ∧ s' = s) (stm_lift m) s.
Proof. unfold stm_safe, stm_lift. destruct m; simpl; auto. Qed.

(** [pieces] with [sep] between them. *)
Fixpoint intercalate (sep : bytes) (pieces : list bytes) : bytes :=
  match pieces with
  | [] => []
  | [p] => p
  | p :: ps => p ++ sep ++ intercalate sep ps
  end.

Lemma intercalate_cons sep p ps : ps ≠ [] → intercalate sep (p :: ps) = p ++ sep ++ intercalate sep ps.
Proof. by destruct ps. Qed.

Lemma length_resize {A} n (x : A) l : length (resize n x l) = n.
Proof. unfold resize. rewrite length_app, length_take, length_replicate. lia. Qed.

Lemma occurs_inside needle pre mid post : occurs needle mid → occurs needle (pre ++ mid ++ post).
Proof.
  intros (a & b & ->). exists (pre ++ a), (b ++ post). by rewrite <-!(assoc_L (++)).
Qed.

Lemma position_spec {A} (p : A → bool) l i :
  position p l = Some i → ∃ x, l !! i = Some x ∧ p x = true ∧ ∀ j y, (j < i)%nat → l !! j = Some y → p y = false.
Proof.
  revert i. induction l as [|x l IH]; simpl; [done|]. intros i. destruct (p x) eqn:Hx.
  - intros [= <-]. exists x. split_and!; [done|done|lia].
  - destruct (position p l) as [i'|]; simpl; [|done]. intros [= <-].
    destruct (IH i' eq_refl) as (y & Hy & Hpy & Hmin). exists y. split_and!; [done|done|].
    intros [|j] z Hj Hz; simplify_eq/=; [done|]. apply (Hmin j z); [lia|done].
Qed.

Lemma position_app {A} (p : A → bool) l l' :
  position p (l ++ l') = match position p l with
                         | Some e => Some e
                         | None => (λ e, length l + e)%nat <$> position p l'
                         end.
Proof.
  induction l as [|x l IH]; cbn; [by destruct (position p l')|]. destruct (p x); [done|].
  rewrite IH. destruct (position p l); [done|]. by destruct (position p l').
Qed.

Lemma position_lt {A} (p : A → bool) l i : position p l = Some i → (i < length l)%nat.
Proof. intros (x & Hx & _)%position_spec. by eapply lookup_lt_Some. Qed.

Lemma position_none {A} (p : A → bool) l : position p l = None → ∀ x, x ∈ l → p x = false.
Proof.
  induction l as [|x l IH]; simpl; [intros _ x Hx; by apply elem_of_nil in Hx|].
  destruct (p x) eqn:Hx; [done|]. destruct (position p l); [done|]. intros _ y [->|Hy]%elem_of_cons; auto.
Qed.

(** ** Extensional equality of stateful calls *)
Definition stm_eq {S E A} (m m' : stm S E A) : Prop := ∀ s, m s = m' s.

Lemma stm_bind_ext {S E A B} (m m' : stm S E A) (f f' : A → stm S E B) :
  stm_eq m m' → (∀ a, stm_eq (f a) (f' a)) → stm_eq (m ≫= f) (m' ≫= f').
Proof.
  intros Hm Hf s. unfold mbind, stm_bind. rewrite <-Hm.
  destruct (m s) as [[a|e| |] s']; [apply Hf|done..].
Qed.

#[export] Instance stm_eq_equivalence {S E A} : Equivalence (@stm_eq S E A).
Proof.
  split; [by intros m s|by intros m m' H s|].
  intros m1 m2 m3 H12 H23 s. by rewrite (H12 s).
Qed.

Lemma stm_lift_ext {S E A} (m m' : outcome E A) : m = m' → stm_eq (S:=S) (stm_lift m) (stm_lift m').
Proof. by intros ->. Qed.

#[export] Hint Resolve stm_bind_ext stm_lift_ext : rust.
#[export] Hint Extern 0 (stm_eq ?m ?m) => reflexivity : rust.
