(* ===== verification/Text.v ===== *)
(** * Rust's [str]: the parts of the standard library the program parses with

    A [str] is the list of its code points; [utf8_encode] and [utf8_decode] are
    [as_bytes] and [str::from_utf8].  The parsers of the network crate
    ([http1.rs], [sni.rs], [dns.rs]) and the seed parser of [agentdp-rand] use
    the operations below. *)
From S2P Require Import Prelude.
Local Open Scope Z_scope.

Abbreviation str := (list Z).

Definition is_scalar (c : Z) : bool :=
  (0 <=? c) && (c <? 1114112) && negb ((55296 <=? c) && (c <? 57344)).

(** [c.encode_utf8] *)
Definition utf8_encode_char (c : Z) : bytes :=
  if c <? 128 then [c]
  else if c <? 2048 then [192 + c / 64; 128 + c mod 64]
  else if c <? 65536 then [224 + c / 4096; 128 + c / 64 mod 64; 128 + c mod 64]
  else [240 + c / 262144; 128 + c / 4096 mod 64; 128 + c / 64 mod 64; 128 + c mod 64].

(** [s.as_bytes()] *)
Definition utf8_encode (s : str) : bytes := s ≫= utf8_encode_char.

Definition continuation (b : Z) : bool := (128 <=? b) && (b <? 192).

(** [str::from_utf8(l).ok()]: the well-formed sequences of the Unicode standard
    (no overlong forms, no surrogates, nothing above U+10FFFF). *)
Fixpoint utf8_decode (l : bytes) : option str :=
  match l with
  | [] => Some []
  | b0 :: l =>
    if b0 <? 128 then cons b0 <$> utf8_decode l
    else match l with
    | [] => None
    | b1 :: l =>
      if negb (continuation b1) then None
      else if (194 <=? b0) && (b0 <? 224) then
        cons ((b0 - 192) * 64 + (b1 - 128)) <$> utf8_decode l
      else match l with
      | [] => None
      | b2 :: l =>
        if negb (continuation b2) then None
        else if (224 <=? b0) && (b0 <? 240) then
          let c := (b0 - 224) * 4096 + (b1 - 128) * 64 + (b2 - 128) in
          if (c <? 2048) || negb (is_scalar c) then None else cons c <$> utf8_decode l
        else match l with
        | [] => None
        | b3 :: l =>
          if negb (continuation b3) then None
          else if (240 <=? b0) && (b0 <? 245) then
            let c := (b0 - 240) * 262144 + (b1 - 128) * 4096 + (b2 - 128) * 64 + (b3 - 128) in
            if (c <? 65536) || negb (is_scalar c) then None else cons c <$> utf8_decode l
          else None
        end
      end
    end
  end.

(** [char::is_whitespace]: the code points with the White_Space property. *)
Definition is_whitespace (c : Z) : bool :=
  ((9 <=? c) && (c <=? 13)) || (c =? 32) || (c =? 133) || (c =? 160) || (c =? 5760) ||
  ((8192 <=? c) && (c <=? 8202)) || (c =? 8232) || (c =? 8233) || (c =? 8239) ||
  (c =? 8287) || (c =? 12288).

(** [trim_start], [trim_end] and [trim] *)
Fixpoint trim_start (s : str) : str :=
  match s with
  | [] => []
  | c :: s' => if is_whitespace c then trim_start s' else s
  end.
Definition trim_end (s : str) : str := reverse (trim_start (reverse s)).
Definition trim (s : str) : str := trim_end (trim_start s).

(** [s.trim_end_matches(c)] *)
Fixpoint trim_start_char (c : Z) (s : str) : str :=
  match s with
  | [] => []
  | x :: s' => if x =? c then trim_start_char c s' else s
  end.
Definition trim_end_matches (c : Z) (s : str) : str := reverse (trim_start_char c (reverse s)).

(** [s.split(c)] for a character; never empty *)
Fixpoint split_char (c : Z) (s : str) : list str :=
  match s with
  | [] => [[]]
  | x :: s =>
    if x =? c then [] :: split_char c s
    else match split_char c s with
         | [] => [[x]]
         | p :: ps => (x :: p) :: ps
         end
  end.

(** [s.split_once(c)] *)
Fixpoint split_once (c : Z) (s : str) : option (str * str) :=
  match s with
  | [] => None
  | x :: s => if x =? c then Some ([], s)
              else '(a, b) ← split_once c s; Some (x :: a, b)
  end.

(** [s.rsplit_once(c)] *)
Definition rsplit_once (c : Z) (s : str) : option (str * str) :=
  '(b, a) ← split_once c (reverse s); Some (reverse a, reverse b).

(** [s.split_once(p)] for a non-empty string [p] *)
Definition split_once_str (p s : str) : option (str * str) :=
  i ← find_sub s p; Some (take i s, drop (i + length p) s).

(** [s.split(|c| p(c)).next()] *)
Fixpoint split_first (p : Z → bool) (s : str) : str :=
  match s with
  | [] => []
  | x :: s => if p x then [] else x :: split_first p s
  end.

(** [s.split("\r\n")] *)
Fixpoint split_crlf (s : str) : list str :=
  match s with
  | [] => [[]]
  | x :: s' =>
    let rest := match split_crlf s' with [] => [[x]] | p :: ps => (x :: p) :: ps end in
    match s' with
    | y :: s'' => if (x =? 13) && (y =? 10) then [] :: split_crlf s'' else rest
    | [] => rest
    end
  end.

(** [s.strip_prefix(p)] and [s.starts_with(p)], [p] a string *)
Fixpoint strip_prefix (p s : str) : option str :=
  match p, s with
  | [], _ => Some s
  | _ :: _, [] => None
  | x :: p, y :: s => if x =? y then strip_prefix p s else None
  end.

(** A line loses the carriage return that ends it. *)
Definition strip_cr (s : str) : str :=
  match reverse s with 13 :: r => reverse r | _ => s end.

(** [s.lines()]: a last line is only there when it is not empty, and keeps a
    carriage return that no line feed follows. *)
Fixpoint lines_of (parts : list str) : list str :=
  match parts with
  | [] => []
  | [last] => if bool_decide (last = []) then [] else [last]
  | p :: ps => strip_cr p :: lines_of ps
  end.
Definition lines (s : str) : list str := lines_of (split_char 10 s).

(** [s.split_whitespace()] *)
Fixpoint split_whitespace_go (s word : str) : list str :=
  match s with
  | [] => if bool_decide (word = []) then [] else [word]
  | c :: s =>
    if is_whitespace c
    then if bool_decide (word = []) then split_whitespace_go s []
         else word :: split_whitespace_go s []
    else split_whitespace_go s (word ++ [c])
  end.
Definition split_whitespace (s : str) : list str := split_whitespace_go s [].

(** [c.to_ascii_lowercase()] and [eq_ignore_ascii_case] *)
Definition to_ascii_lowercase (c : Z) : Z := if (65 <=? c) && (c <=? 90) then c + 32 else c.
Definition eq_ignore_ascii_case (a b : list Z) : bool :=
  bool_decide (to_ascii_lowercase <$> a = to_ascii_lowercase <$> b).

(** [(c as char).to_digit(radix)] for a radix of at most 36 *)
Definition to_digit (radix c : Z) : option Z :=
  let d := if (48 <=? c) && (c <=? 57) then c - 48
           else if (97 <=? c) && (c <=? 122) then c - 87
           else if (65 <=? c) && (c <=? 90) then c - 55
           else 36 in
  if d <? radix then Some d else None.

Fixpoint digits_value (radix max acc : Z) (s : str) : option Z :=
  match s with
  | [] => Some acc
  | c :: s =>
    d ← to_digit radix c;
    if acc * radix + d <=? max then digits_value radix max (acc * radix + d) s else None
  end.

(** [T::from_str_radix(s, radix).ok()] for an unsigned type with maximum [max]:
    one leading plus sign is accepted, an empty digit string is not. *)
Definition from_str_radix (radix max : Z) (s : str) : option Z :=
  match s with
  | [] => None
  | [43] => None
  | 43 :: s => digits_value radix max 0 s
  | s => digits_value radix max 0 s
  end.
(** [s.parse::<T>().ok()] *)
Definition parse_uint (max : Z) (s : str) : option Z := from_str_radix 10 max s.

(** ** Lemmas *)

Lemma digits_value_range radix max acc s n :
  0 <= radix → 0 <= acc <= max → digits_value radix max acc s = Some n → 0 <= n <= max.
Proof.
  intros Hr. revert acc. induction s as [|c s IH]; simpl; intros acc Hacc Hn; [by simplify_eq|].
  destruct (to_digit radix c) as [d|] eqn:Hd; simplify_eq/=.
  destruct (Z.leb_spec (acc * radix + d) max); [|done].
  eapply IH; [|done]. unfold to_digit in Hd. repeat case_match; simplify_eq; nia.
Qed.

(** A parsed number is in range. *)
Lemma from_str_radix_range radix max s n :
  0 <= radix → 0 <= max → from_str_radix radix max s = Some n → 0 <= n <= max.
Proof.
  intros. unfold from_str_radix in *.
  repeat case_match; try done; (eapply digits_value_range; [| |eassumption]; lia).
Qed.

Lemma parse_uint_range max s n : 0 <= max → parse_uint max s = Some n → 0 <= n <= max.
Proof. by apply from_str_radix_range. Qed.

Lemma split_once_spec c s a b : split_once c s = Some (a, b) ↔ s = a ++ c :: b ∧ c ∉ a.
Proof.
  revert a b. induction s as [|x s IH]; simpl; intros a b.
  { split; [done|]. intros [H _]. by destruct a. }
  destruct (Z.eqb_spec x c) as [->|Hne].
  - split; [intros; simplify_eq; split; [done|set_solver]|].
    intros [Hs Hc]. destruct a as [|y a]; simplify_eq/=; [done|]. destruct Hc. by left.
  - destruct (split_once c s) as [[a' b']|] eqn:Hs; simpl.
    + split.
      * intros; simplify_eq. destruct (proj1 (IH a' b)) as [-> ?]; [done|].
        split; [done|]. intros [->|]%elem_of_cons; done.
      * intros [Hx Hc]. destruct a as [|y a]; simplify_eq/=.
        assert (Some (a', b') = Some (a, b)) as [= -> ->]; [|done].
        apply IH. split; [done|]. intros ?. apply Hc. by right.
    + split; [done|]. intros [Hx Hc]. destruct a as [|y a]; simplify_eq/=.
      assert (None = Some (a, b)); [|done]. apply IH. split; [done|]. intros ?. apply Hc. by right.
Qed.

(** The pieces of [split] are the string again when joined with the separator. *)
Lemma split_char_nonempty c s : split_char c s ≠ [].
Proof. destruct s; simpl; [done|]. by repeat case_match. Qed.

Fixpoint join (c : Z) (parts : list str) : str :=
  match parts with
  | [] => []
  | [p] => p
  | p :: ps => p ++ c :: join c ps
  end.

Lemma split_char_app c a b : c ∉ a → split_char c (a ++ c :: b) = a :: split_char c b.
Proof.
  induction a as [|x a IH]; intros Hc; cbn [app split_char]; [by rewrite Z.eqb_refl|].
  apply not_elem_of_cons in Hc as [Hx Hc]. by rewrite (proj2 (Z.eqb_neq _ _)), IH by done.
Qed.

Lemma split_char_none c a : c ∉ a → split_char c a = [a].
Proof.
  induction a as [|x a IH]; intros Hc; [done|]. cbn [split_char].
  apply not_elem_of_cons in Hc as [Hx Hc]. by rewrite (proj2 (Z.eqb_neq _ _)), IH by done.
Qed.

Lemma join_split_char c s : join c (split_char c s) = s.
Proof.
  induction s as [|x s IH]; [done|]. simpl.
  destruct (Z.eqb_spec x c) as [->|Hne].
  - destruct (split_char c s) eqn:Hs; [by apply split_char_nonempty in Hs|]. simpl in *. by f_equal.
  - destruct (split_char c s) as [|p [|q ps]] eqn:Hs; [by apply split_char_nonempty in Hs|..];
      simpl in *; by f_equal.
Qed.

Lemma utf8_encode_ascii s : Forall (λ c, 0 <= c < 128) s → utf8_encode s = s.
Proof.
  unfold utf8_encode. induction 1 as [|c s Hc Hs IH]; [done|]. rewrite bind_cons, IH.
  unfold utf8_encode_char. by rewrite (proj2 (Z.ltb_lt _ _)) by lia.
Qed.

Lemma utf8_decode_ascii s : Forall (λ c, 0 <= c < 128) s → utf8_decode s = Some s.
Proof.
  induction 1 as [|c s Hc Hs IH]; [done|]. simpl.
  by rewrite (proj2 (Z.ltb_lt _ _)), IH by lia.
Qed.

Lemma utf8_encode_char_bytes c : is_scalar c = true → are_bytes (utf8_encode_char c).
Proof.
  unfold is_scalar, utf8_encode_char, are_bytes. rewrite !andb_true_iff. intros [[H1 H2] _].
  assert (∀ x, 0 <= x mod 64 < 64) by (intros; by apply Z.mod_pos_bound).
  repeat case_match; rewrite ?Forall_cons; unfold is_byte; split_and!; try done;
    try (Z.div_mod_to_equations; lia).
Qed.

(** A [str] holds scalar values only. *)
Definition is_str (s : str) : Prop := Forall (λ c, is_scalar c = true) s.

(** *** UTF-8 *)

Ltac decide_bools :=
  repeat match goal with
  | |- context[?a <? ?b] => first [rewrite (proj2 (Z.ltb_lt a b)) by lia | rewrite (proj2 (Z.ltb_ge a b)) by lia]
  | |- context[?a <=? ?b] => first [rewrite (proj2 (Z.leb_le a b)) by lia | rewrite (proj2 (Z.leb_gt a b)) by lia]
  end.

Lemma utf8_decode_char c l :
  is_scalar c = true → utf8_decode (utf8_encode_char c ++ l) = cons c <$> utf8_decode l.
Proof.
  intros Hc. assert (Hrange : 0 <= c < 1114112 ∧ ¬ 55296 <= c < 57344).
  { unfold is_scalar in Hc. lia. }
  pose proof (Z.mod_pos_bound c 64 ltac:(lia)). pose proof (Z.mod_pos_bound (c / 64) 64 ltac:(lia)).
  pose proof (Z.mod_pos_bound (c / 4096) 64 ltac:(lia)).
  assert (Hd : c / 4096 = c / 64 / 64 ∧ c / 262144 = c / 64 / 64 / 64).
  { rewrite !Zdiv.Zdiv_Zdiv by lia. done. }
  destruct Hd as [Hd1 Hd2].
  pose proof (Z.div_mod c 64 ltac:(lia)). pose proof (Z.div_mod (c / 64) 64 ltac:(lia)).
  pose proof (Z.div_mod (c / 64 / 64) 64 ltac:(lia)). rewrite Hd1 in *.
  unfold utf8_encode_char, continuation.
  destruct (Z.ltb_spec c 128); [cbn [app utf8_decode]; by decide_bools|].
  destruct (Z.ltb_spec c 2048); [|destruct (Z.ltb_spec c 65536)];
    cbn [app utf8_decode]; unfold continuation; rewrite ?Hd1, ?Hd2; decide_bools; cbn [andb negb].
  - do 2 f_equal. lia.
  - replace ((224 + c / 64 / 64 - 224) * 4096 + (128 + (c / 64) mod 64 - 128) * 64 + (128 + c mod 64 - 128))
      with c by lia.
    rewrite Hc. by decide_bools.
  - replace ((240 + c / 64 / 64 / 64 - 240) * 262144 + (128 + (c / 64 / 64) mod 64 - 128) * 4096 +
      (128 + (c / 64) mod 64 - 128) * 64 + (128 + c mod 64 - 128)) with c by lia.
    rewrite Hc. by decide_bools.
Qed.

Lemma utf8_roundtrip s : is_str s → utf8_decode (utf8_encode s) = Some s.
Proof.
  unfold utf8_encode. induction 1 as [|c s Hc _ IH]; [done|].
  by rewrite bind_cons, utf8_decode_char, IH.
Qed.

(** Decoding yields scalar values, from bytes. *)
Lemma utf8_decode_scalars l s : are_bytes l → utf8_decode l = Some s → is_str s.
Proof.
  remember (length l) as n eqn:Hn. revert l s Hn. induction (lt_wf n) as [n _ IH]. intros l s -> Hl Hs.
  assert (Hcons : ∀ l' c, (length l' < length l)%nat → are_bytes l' → is_scalar c = true →
    cons c <$> utf8_decode l' = Some s → is_str s).
  { intros l' c Hlen Hl' Hc Hd. destruct (utf8_decode l') as [s'|] eqn:Hs'; simplify_eq/=.
    constructor; [done|]. by eapply (IH _ Hlen). }
  destruct l as [|b0 l]; [simpl in Hs; simplify_eq; constructor|].
  apply Forall_cons in Hl as [Hb0 Hl]. unfold is_byte in Hb0. cbn [utf8_decode] in Hs.
  destruct (Z.ltb_spec b0 128).
  { apply (Hcons l b0) in Hs; [done|simpl; lia|done|]. unfold is_scalar. lia. }
  destruct l as [|b1 l]; [done|]. apply Forall_cons in Hl as [_ Hl].
  destruct (continuation b1) eqn:H1; [|done]. cbn [negb] in Hs.
  unfold continuation in H1. apply andb_true_iff in H1 as [? ?].
  destruct ((194 <=? b0) && (b0 <? 224)) eqn:Htwo.
  { apply (Hcons l _) in Hs; [done|simpl; lia|done|]. unfold is_scalar. lia. }
  destruct l as [|b2 l]; [done|]. apply Forall_cons in Hl as [_ Hl].
  destruct (negb (continuation b2)); [done|].
  destruct ((224 <=? b0) && (b0 <? 240)).
  { destruct (_ <? 2048); [done|]. cbn [orb] in Hs. destruct (is_scalar _) eqn:Hsc; [|done]. cbn [negb] in Hs.
    apply (Hcons l _) in Hs; [done|simpl; lia|done|done]. }
  destruct l as [|b3 l]; [done|]. apply Forall_cons in Hl as [_ Hl].
  destruct (negb (continuation b3)); [done|].
  destruct ((240 <=? b0) && (b0 <? 245)); [|done].
  destruct (_ <? 65536); [done|]. cbn [orb] in Hs. destruct (is_scalar _) eqn:Hsc; [|done]. cbn [negb] in Hs.
  apply (Hcons l _) in Hs; [done|simpl; lia|done|done].
Qed.

Lemma utf8_encode_app a b : utf8_encode (a ++ b) = utf8_encode a ++ utf8_encode b.
Proof. unfold utf8_encode. by rewrite bind_app. Qed.
