(* ===== verification/Base64.v ===== *)
(** * Standard padded base64 (src/libs/agentdp-base64/src/lib.rs)

    [encode] and [decode] are the two public functions, with their unrolled
    fast paths, written over caller-owned output buffers; [encoded_len] and
    [decoded_len] size those buffers.  [Base64Ref] is the reference: the
    textbook three-bytes-to-four-sextets encoder and its inverse. *)
From S2P Require Import Prelude.
Local Open Scope Z_scope.

Definition ALPHABET : bytes :=
  bytes_of "ABCDEFGHIJKLMNOPQRSTUVWXYZabcdefghijklmnopqrstuvwxyz0123456789+/".
Definition DECODE_PADDING : Z := 254.
Definition INVALID_ENCODING : Z := 255.

(** The [while i < table.len()] loop that fills the 4096 pairs. *)
Definition build_encode_pair_table : list (Z * Z) :=
  (λ i : nat, (ALPHABET !!! Z.to_nat (Z.land (Z.shiftr (Z.of_nat i) 6) 63),
               ALPHABET !!! Z.to_nat (Z.land (Z.of_nat i) 63))) <$> seq 0 4096.

Fixpoint build_decode_letters (n : nat) (i : nat) (table : list Z) : list Z :=
  match n with
  | O => table
  | S n =>
    let table := <[(Z.to_nat (byte_of "A") + i)%nat := Z.of_nat i]> table in
    let table := <[(Z.to_nat (byte_of "a") + i)%nat := Z.of_nat i + 26]> table in
    build_decode_letters n (S i) table
  end.

Fixpoint build_decode_digits (n : nat) (i : nat) (table : list Z) : list Z :=
  match n with
  | O => table
  | S n =>
    build_decode_digits n (S i) (<[(Z.to_nat (byte_of "0") + i)%nat := Z.of_nat i + 52]> table)
  end.

Definition build_decode_table : list Z :=
  let table := replicate 256 INVALID_ENCODING in
  let table := build_decode_letters 26 0 table in
  let table := build_decode_digits 10 0 table in
  let table := <[Z.to_nat (byte_of "+") := 62]> table in
  let table := <[Z.to_nat (byte_of "/") := 63]> table in
  <[Z.to_nat (byte_of "=") := DECODE_PADDING]> table.

Definition ENCODE_PAIR_TABLE : list (Z * Z) := Eval vm_compute in build_encode_pair_table.
Definition DECODE_TABLE : list Z := Eval vm_compute in build_decode_table.
Definition FAST_BLOCKS : nat := 4.
Definition FAST_INPUT_BYTES : nat := FAST_BLOCKS * 6.
Definition FAST_OUTPUT_BYTES : nat := FAST_BLOCKS * 8.
Definition LOW_SIX_BITS : Z := 63.

(** No call of the crate returns an error value: [E] is empty. *)
Definition encoded_len (input_len : nat) : nat := ((input_len + 2) / 3 * 4)%nat.

Definition decoded_len (input : bytes) : option nat :=
  if negb (length input mod 4 =? 0)%nat then None
  else
    let full_len := (length input / 4 * 3)%nat in
    let padding :=
      match reverse input with
      | 61 :: 61 :: _ => 2%nat
      | 61 :: _ => 1%nat
      | _ => 0%nat
      end in
    Some (full_len - padding)%nat.

Section encode.
Context {E : Type}.

Definition read_u64_be (input : bytes) : outcome E Z :=
  be_value <$> slice input 0 8.

(** The eight [output_chunk[..] = ALPHABET[(input_u64 >> s) & LOW_SIX_BITS]] of
    one 48-bit group. *)
Definition encode_group (input_u64 : Z) : outcome E bytes :=
  let sextet s := index ALPHABET (Z.to_nat (Z.land (Z.shiftr input_u64 s) LOW_SIX_BITS)) in
  c0 ← sextet 58; c1 ← sextet 52; c2 ← sextet 46; c3 ← sextet 40;
  c4 ← sextet 34; c5 ← sextet 28; c6 ← sextet 22; c7 ← sextet 16;
  Ret [c0; c1; c2; c3; c4; c5; c6; c7].

Definition encode_fast_block (input_chunk : bytes) : outcome E bytes :=
  input_u64 ← read_u64_be input_chunk;
  g0 ← encode_group input_u64;
  rest ← slice input_chunk 6 (length input_chunk);
  input_u64 ← read_u64_be rest;
  g1 ← encode_group input_u64;
  rest ← slice input_chunk 12 (length input_chunk);
  input_u64 ← read_u64_be rest;
  g2 ← encode_group input_u64;
  rest ← slice input_chunk 18 (length input_chunk);
  input_u64 ← read_u64_be rest;
  g3 ← encode_group input_u64;
  Ret (g0 ++ g1 ++ g2 ++ g3).

(** [while input_idx <= last_fast_index] *)
Fixpoint encode_fast_loop (fuel : nat) (input : bytes) (last_fast_index : nat)
    (output : bytes) (input_idx output_idx : nat) : outcome E (bytes * nat * nat) :=
  if (input_idx <=? last_fast_index)%nat then
    match fuel with
    | O => Timeout
    | S fuel =>
      input_chunk ← slice input input_idx (input_idx + FAST_INPUT_BYTES + 2);
      block ← encode_fast_block input_chunk;
      output ← write_slice output output_idx block;
      encode_fast_loop fuel input last_fast_index output
        (input_idx + FAST_INPUT_BYTES) (output_idx + FAST_OUTPUT_BYTES)
    end
  else Ret (output, input_idx, output_idx).

(** [while input_idx < full_len] *)
Fixpoint encode_triple_loop (fuel : nat) (input : bytes) (full_len : nat)
    (output : bytes) (input_idx output_idx : nat) : outcome E (bytes * nat * nat) :=
  if (input_idx <? full_len)%nat then
    match fuel with
    | O => Timeout
    | S fuel =>
      byte0 ← index input input_idx;
      byte1 ← index input (input_idx + 1);
      byte2 ← index input (input_idx + 2);
      pair0 ← index ENCODE_PAIR_TABLE
        (Z.to_nat (Z.lor (Z.shiftl byte0 4) (Z.shiftr byte1 4)));
      pair1 ← index ENCODE_PAIR_TABLE
        (Z.to_nat (Z.lor (Z.shiftl (Z.land byte1 15) 8) byte2));
      output ← write_slice output output_idx [pair0.1; pair0.2; pair1.1; pair1.2];
      encode_triple_loop fuel input full_len output (input_idx + 3) (output_idx + 4)
    end
  else Ret (output, input_idx, output_idx).

(** The [match input.len() - full_len]. *)
Definition encode_tail (input : bytes) (full_len : nat) (output : bytes)
    (input_idx output_idx : nat) : outcome E bytes :=
  match (length input - full_len)%nat with
  | 0%nat => Ret output
  | 1%nat =>
    byte0 ← index input input_idx;
    pair ← index ENCODE_PAIR_TABLE (Z.to_nat (Z.shiftl byte0 4));
    write_slice output output_idx [pair.1; pair.2; 61; 61]
  | 2%nat =>
    byte0 ← index input input_idx;
    byte1 ← index input (input_idx + 1);
    pair0 ← index ENCODE_PAIR_TABLE
      (Z.to_nat (Z.lor (Z.shiftl byte0 4) (Z.shiftr byte1 4)));
    pair1 ← index ENCODE_PAIR_TABLE (Z.to_nat (Z.shiftl (Z.land byte1 15) 8));
    write_slice output output_idx [pair0.1; pair0.2; pair1.1; 61]
  | _ => Panic
  end.

(** The returned length and the output buffer after the call. *)
Definition encode (input output : bytes) : outcome E (option nat * bytes) :=
  let needed := encoded_len (length input) in
  if (length output <? needed)%nat then Ret (None, output)
  else
    let last_fast_index := (length input - (FAST_INPUT_BYTES + 2))%nat in
    '(output, input_idx, output_idx) ←
      (if (0 <? last_fast_index)%nat
       then encode_fast_loop (length input) input last_fast_index output 0 0
       else Ret (output, 0%nat, 0%nat));
    let full_len := (length input / 3 * 3)%nat in
    '(output, input_idx, output_idx) ←
      encode_triple_loop (length input) input full_len output input_idx output_idx;
    output ← encode_tail input full_len output input_idx output_idx;
    Ret (Some needed, output).
End encode.

(** Decoding: [None] is the code's [None], a malformed input or an output that
    is too small; the second component is the output buffer after the call. *)
Section decode.
Context {E : Type}.

Definition sextet_of (byte : Z) : outcome E Z := index DECODE_TABLE (Z.to_nat byte).

Definition u8 (z : Z) : Z := z mod 256.

(** The six output bytes of eight alphabet bytes, [None] on a non-alphabet one. *)
Definition decode_chunk_8 (input : bytes) : outcome E (option bytes) :=
  i0 ← index input 0; byte0 ← sextet_of i0;
  i1 ← index input 1; byte1 ← sextet_of i1;
  i2 ← index input 2; byte2 ← sextet_of i2;
  i3 ← index input 3; byte3 ← sextet_of i3;
  i4 ← index input 4; byte4 ← sextet_of i4;
  i5 ← index input 5; byte5 ← sextet_of i5;
  i6 ← index input 6; byte6 ← sextet_of i6;
  i7 ← index input 7; byte7 ← sextet_of i7;
  if 64 <=? Z.lor (Z.lor (Z.lor (Z.lor (Z.lor (Z.lor (Z.lor
       byte0 byte1) byte2) byte3) byte4) byte5) byte6) byte7
  then Ret None
  else
    let accum := Z.lor (Z.lor (Z.lor (Z.lor (Z.lor (Z.lor (Z.lor
      (Z.shiftl byte0 58) (Z.shiftl byte1 52)) (Z.shiftl byte2 46)) (Z.shiftl byte3 40))
      (Z.shiftl byte4 34)) (Z.shiftl byte5 28)) (Z.shiftl byte6 22)) (Z.shiftl byte7 16) in
    Ret (Some (take 6 (be_bytes 8 accum))).

Definition decode_chunk_4 (input : bytes) : outcome E (option bytes) :=
  i0 ← index input 0; byte0 ← sextet_of i0;
  i1 ← index input 1; byte1 ← sextet_of i1;
  i2 ← index input 2; byte2 ← sextet_of i2;
  i3 ← index input 3; byte3 ← sextet_of i3;
  if 64 <=? Z.lor (Z.lor (Z.lor byte0 byte1) byte2) byte3
  then Ret None
  else Ret (Some [Z.lor (u8 (Z.shiftl byte0 2)) (Z.shiftr byte1 4);
                  Z.lor (u8 (Z.shiftl byte1 4)) (Z.shiftr byte2 2);
                  Z.lor (u8 (Z.shiftl byte2 6)) byte3]).

(** The calls [decode_chunk_8(&input_chunk[8k..8k+8], &mut output_chunk[6k..6k+6])?]
    of one unrolled block, for the [k] of [ks]; [o] is where [output_chunk] starts
    in the output.  The [?] leaves the block with the output written so far. *)
Fixpoint decode_groups (ks : list nat) (input_chunk : bytes) (output : bytes) (o : nat)
    : outcome E (option unit * bytes) :=
  match ks with
  | [] => Ret (Some tt, output)
  | k :: ks =>
    chunk ← slice input_chunk (8 * k) (8 * k + 8);
    decoded ← decode_chunk_8 chunk;
    match decoded with
    | None => Ret (None, output)
    | Some six =>
      output ← write_slice output (o + 6 * k) six;
      decode_groups ks input_chunk output o
    end
  end.

(** [while input_idx < input_unrolled_len] *)
Fixpoint decode_unrolled_loop (fuel : nat) (input : bytes) (input_unrolled_len : nat)
    (output : bytes) (input_idx : nat) : outcome E (option nat * bytes) :=
  if (input_idx <? input_unrolled_len)%nat then
    match fuel with
    | O => Timeout
    | S fuel =>
      let output_idx := (input_idx / 4 * 3)%nat in
      input_chunk ← slice input input_idx (input_idx + 32);
      _ ← slice output output_idx (output_idx + 24);
      '(r, output) ← decode_groups [0; 1; 2; 3]%nat input_chunk output output_idx;
      match r with
      | None => Ret (None, output)
      | Some _ => decode_unrolled_loop fuel input input_unrolled_len output (input_idx + 32)
      end
    end
  else Ret (Some input_idx, output).

(** [while input_idx < final_input_idx] *)
Fixpoint decode_quad_loop (fuel : nat) (input : bytes) (final_input_idx : nat)
    (output : bytes) (input_idx : nat) : outcome E (option nat * bytes) :=
  if (input_idx <? final_input_idx)%nat then
    match fuel with
    | O => Timeout
    | S fuel =>
      let output_idx := (input_idx / 4 * 3)%nat in
      chunk ← slice input input_idx (input_idx + 4);
      _ ← slice output output_idx (output_idx + 3);
      decoded ← decode_chunk_4 chunk;
      match decoded with
      | None => Ret (None, output)
      | Some three =>
        output ← write_slice output output_idx three;
        decode_quad_loop fuel input final_input_idx output (input_idx + 4)
      end
    end
  else Ret (Some input_idx, output).

(** The final quantum, where padding is allowed. *)
Definition decode_final (input : bytes) (final_input_idx : nat) (output : bytes)
    : outcome E (option nat * bytes) :=
  let output_idx := (final_input_idx / 4 * 3)%nat in
  i0 ← index input final_input_idx; byte0 ← sextet_of i0;
  i1 ← index input (final_input_idx + 1); byte1 ← sextet_of i1;
  i2 ← index input (final_input_idx + 2); byte2 ← sextet_of i2;
  i3 ← index input (final_input_idx + 3); byte3 ← sextet_of i3;
  if (64 <=? byte0) || (64 <=? byte1) then Ret (None, output)
  else
    let out0 := Z.lor (u8 (Z.shiftl byte0 2)) (Z.shiftr byte1 4) in
    if byte2 =? DECODE_PADDING then
      if negb (byte3 =? DECODE_PADDING) then Ret (None, output)
      else
        output ← write_slice output output_idx [out0];
        Ret (Some (output_idx + 1)%nat, output)
    else if 64 <=? byte2 then Ret (None, output)
    else
      output ← write_slice output output_idx
        [out0; Z.lor (u8 (Z.shiftl byte1 4)) (Z.shiftr byte2 2)];
      if byte3 =? DECODE_PADDING then Ret (Some (output_idx + 2)%nat, output)
      else if 64 <=? byte3 then Ret (None, output)
      else
        output ← write_slice output (output_idx + 2) [Z.lor (u8 (Z.shiftl byte2 6)) byte3];
        Ret (Some (output_idx + 3)%nat, output).

Definition decode (input output : bytes) : outcome E (option nat * bytes) :=
  match decoded_len input with
  | None => Ret (None, output)
  | Some decoded_len =>
    if (length output <? decoded_len)%nat then Ret (None, output)
    else if bool_decide (input = []) then Ret (Some 0%nat, output)
    else
      let final_input_idx := (length input - 4)%nat in
      let input_unrolled_len := (final_input_idx - final_input_idx mod 32)%nat in
      '(r, output) ← decode_unrolled_loop (length input) input input_unrolled_len output 0;
      match r with
      | None => Ret (None, output)
      | Some input_idx =>
        '(r, output) ← decode_quad_loop (length input) input final_input_idx output input_idx;
        match r with
        | None => Ret (None, output)
        | Some _ => decode_final input final_input_idx output
        end
      end
  end.
End decode.

(** ** The reference codec *)

(** The alphabet byte of a sextet, and the table entry of a byte. *)
Definition alpha (x : Z) : Z := ALPHABET !!! Z.to_nat x.
Definition entry (b : Z) : Z := DECODE_TABLE !!! Z.to_nat b.

Fixpoint ref_encode (l : bytes) : bytes :=
  match l with
  | [] => []
  | [a] => [alpha (a / 4); alpha (a mod 4 * 16); 61; 61]
  | [a; b] => [alpha (a / 4); alpha (a mod 4 * 16 + b / 16); alpha (b mod 16 * 4); 61]
  | a :: b :: c :: l =>
    alpha (a / 4) :: alpha (a mod 4 * 16 + b / 16) ::
    alpha (b mod 16 * 4 + c / 64) :: alpha (c mod 64) :: ref_encode l
  end.

(** Four sextets are three bytes. *)
Definition triple (s0 s1 s2 s3 : Z) : bytes :=
  [s0 * 4 + s1 / 16; s1 mod 16 * 16 + s2 / 4; s2 mod 4 * 64 + s3].

Definition ref_final (a b c d : Z) : option bytes :=
  let '(s0, s1, s2, s3) := (entry a, entry b, entry c, entry d) in
  if (64 <=? s0) || (64 <=? s1) then None
  else if (c =? 61) && (d =? 61) then Some (take 1 (triple s0 s1 0 0))
  else if 64 <=? s2 then None
  else if d =? 61 then Some (take 2 (triple s0 s1 s2 0))
  else if 64 <=? s3 then None
  else Some (triple s0 s1 s2 s3).

Definition ref_quad (a b c d : Z) : option bytes :=
  let '(s0, s1, s2, s3) := (entry a, entry b, entry c, entry d) in
  if (64 <=? s0) || (64 <=? s1) || (64 <=? s2) || (64 <=? s3) then None
  else Some (triple s0 s1 s2 s3).

Fixpoint ref_decode (l : bytes) : option bytes :=
  match l with
  | [] => Some []
  | [a; b; c; d] => ref_final a b c d
  | a :: b :: c :: d :: l =>
    three ← ref_quad a b c d;
    rest ← ref_decode l;
    Some (three ++ rest)
  | _ => None
  end.

(** ** Tables *)

Lemma index_total {E A} `{!Inhabited A} (l : list A) (i : nat) :
  (i < length l)%nat → @index E A l i = Ret (l !!! i).
Proof. intros [x Hx]%lookup_lt_is_Some. unfold index. by rewrite Hx, (list_lookup_total_correct _ _ _ Hx). Qed.

Lemma index_ALPHABET {E} x : 0 <= x < 64 → @index E Z ALPHABET (Z.to_nat x) = Ret (alpha x).
Proof. intros Hx. apply index_total. vm_compute (length _). lia. Qed.

Lemma index_pair {E} x :
  0 <= x < 4096 →
  @index E (Z * Z) ENCODE_PAIR_TABLE (Z.to_nat x) = Ret (alpha (x / 64), alpha (x mod 64)).
Proof.
  intros Hx. assert (ENCODE_PAIR_TABLE = build_encode_pair_table) as -> by (vm_compute; reflexivity).
  unfold index, build_encode_pair_table. rewrite list_lookup_fmap, lookup_seq_lt by lia. simpl.
  rewrite Z2Nat.id, land_63, Z.shiftr_div_pow2 by lia.
  rewrite land_63, (Z.mod_small (x / 2 ^ 6)); [done|].
  split; [apply Z.div_pos; lia|]. apply Z.div_lt_upper_bound; lia.
Qed.

Lemma sextet_of_entry {E} b : is_byte b → @sextet_of E b = Ret (entry b).
Proof. intros Hb. apply index_total. vm_compute (length _). unfold is_byte in Hb. lia. Qed.

Lemma entry_range b : is_byte b → 0 <= entry b < 256.
Proof. apply (forall_below 256 (λ b, 0 <= entry b < 256)). by vm_compute. Qed.

Lemma entry_padding b : is_byte b → (entry b =? DECODE_PADDING) = (b =? 61).
Proof. apply (forall_below 256 (λ b, (entry b =? DECODE_PADDING) = (b =? 61))). by vm_compute. Qed.

Lemma entry_alpha x : 0 <= x < 64 → entry (alpha x) = x.
Proof. apply (forall_below 64 (λ x, entry (alpha x) = x)). by vm_compute. Qed.

Lemma alpha_entry b : is_byte b → entry b < 64 → alpha (entry b) = b.
Proof.
  apply (forall_below 256 (λ b, entry b < 64 → alpha (entry b) = b)). by vm_compute.
Qed.

Lemma alpha_byte x : 0 <= x < 64 → is_byte (alpha x) ∧ alpha x ≠ 61.
Proof. apply (forall_below 64 (λ x, is_byte (alpha x) ∧ alpha x ≠ 61)). by vm_compute. Qed.

(** ** The encoder *)

Lemma be_value_8 b0 b1 b2 b3 b4 b5 b6 b7 :
  are_bytes [b0; b1; b2; b3; b4; b5; b6; b7] →
  be_value [b0; b1; b2; b3; b4; b5; b6; b7] =
  ((((((b0 * 256 + b1) * 256 + b2) * 256 + b3) * 256 + b4) * 256 + b5) * 256 + b6) * 256 + b7.
Proof.
  unfold are_bytes. rewrite !Forall_cons. intros. destruct_and!.
  change [b0; b1; b2; b3; b4; b5; b6; b7] with
    ((((((([b0] ++ [b1]) ++ [b2]) ++ [b3]) ++ [b4]) ++ [b5]) ++ [b6]) ++ [b7]).
  rewrite !be_value_app by done. unfold be_value. simpl. by rewrite Z.lor_0_l.
Qed.

Lemma alpha_cons x y l l' : x = y → l = l' → alpha x :: l = alpha y :: l'.
Proof. by intros -> ->. Qed.

Ltac divmod := Z.div_mod_to_equations; lia.
Ltac sextets := repeat apply alpha_cons; [divmod..|done].

Lemma encode_group_ref {E} b0 b1 b2 b3 b4 b5 b6 b7 :
  are_bytes [b0; b1; b2; b3; b4; b5; b6; b7] →
  @encode_group E (be_value [b0; b1; b2; b3; b4; b5; b6; b7]) =
  Ret (ref_encode [b0; b1; b2; b3; b4; b5]).
Proof.
  intros Hb. rewrite be_value_8 by done.
  unfold are_bytes, is_byte in Hb. rewrite !Forall_cons in Hb. destruct_and!.
  unfold encode_group, LOW_SIX_BITS. set (u := _ + b7).
  rewrite !land_63, !Z.shiftr_div_pow2 by lia.
  rewrite !index_ALPHABET by (apply Z.mod_pos_bound; lia). simpl.
  f_equal. subst u. sextets.
Qed.

Lemma encode_fast_block_ref {E} chunk :
  are_bytes chunk → length chunk = 26%nat →
  @encode_fast_block E chunk = Ret (ref_encode (take 24 chunk)).
Proof.
  intros Hb Hlen. do 26 (destruct chunk as [|? chunk]; [done|]). destruct chunk; [|done].
  unfold are_bytes in Hb. rewrite !Forall_cons in Hb. destruct_and!.
  unfold encode_fast_block, read_u64_be.
  cbv [slice Nat.leb length take drop Nat.sub andb fmap outcome_fmap mbind outcome_bind].
  rewrite !encode_group_ref by (unfold are_bytes; rewrite !Forall_cons; eauto 10).
  reflexivity.
Qed.

(** [n] whole triples are encoded to [4 * n] bytes, and what follows to the rest. *)
Lemma ref_encode_app l1 l2 n :
  length l1 = (3 * n)%nat → ref_encode (l1 ++ l2) = ref_encode l1 ++ ref_encode l2.
Proof.
  revert l1. induction n as [|n IH]; intros l1 Hl.
  { by rewrite (nil_length_inv l1) by lia. }
  destruct l1 as [|a [|b [|c l1]]]; simpl in Hl; try lia.
  simpl. by rewrite IH by lia.
Qed.

Lemma length_ref_encode l : length (ref_encode l) = encoded_len (length l).
Proof.
  unfold encoded_len. remember (length l) as n eqn:Hn. revert l Hn.
  induction (lt_wf n) as [n _ IH]. intros [|a [|b [|c l]]] ->; try done.
  simpl ref_encode. simpl length. rewrite (IH (length l)) by (simpl; done || lia).
  replace (S (S (S (length l))) + 2)%nat with (length l + 2 + 1 * 3)%nat by lia.
  rewrite Nat.div_add by done. lia.
Qed.

Lemma length_ref_encode_triples l n : length l = (3 * n)%nat → length (ref_encode l) = (4 * n)%nat.
Proof.
  intros Hl. rewrite length_ref_encode, Hl. unfold encoded_len.
  replace (3 * n + 2)%nat with (2 + n * 3)%nat by lia. rewrite Nat.div_add by done. simpl. lia.
Qed.

(** The output buffer once the first [n] triples of [input] are encoded. *)
Definition filled (input output : bytes) (n : nat) : bytes :=
  ref_encode (take (3 * n) input) ++ drop (4 * n) output.

Lemma filled_step {E} input output n k :
  (3 * (n + k) ≤ length input)%nat → (encoded_len (length input) ≤ length output)%nat →
  @write_slice E Z (filled input output n) (4 * n)
    (ref_encode (take (3 * k) (drop (3 * n) input))) = Ret (filled input output (n + k)).
Proof.
  intros Hn Ho. unfold encoded_len in Ho.
  assert (4 * (n + k) ≤ length output)%nat by
    (pose proof (Nat.div_le_lower_bound (length input + 2) 3 (n + k)); lia).
  assert (Hpre : length (ref_encode (take (3 * n) input)) = (4 * n)%nat)
    by (apply length_ref_encode_triples; rewrite length_take; lia).
  assert (Hsrc : length (ref_encode (take (3 * k) (drop (3 * n) input))) = (4 * k)%nat)
    by (apply length_ref_encode_triples; rewrite length_take, length_drop; lia).
  unfold filled. rewrite <-Hpre at 2.
  rewrite write_slice_prefix by (rewrite length_drop; lia). f_equal.
  rewrite <-(ref_encode_app _ _ n) by (rewrite length_take; lia).
  rewrite take_take_drop, drop_drop, Hsrc. repeat f_equal; lia.
Qed.

Lemma encode_fast_loop_filled {E} fuel input output n :
  are_bytes input → (encoded_len (length input) ≤ length output)%nat →
  (26 < length input)%nat → (3 * n ≤ length input)%nat → (length input ≤ fuel + 3 * n)%nat →
  ∃ n', @encode_fast_loop E fuel input (length input - (FAST_INPUT_BYTES + 2))
          (filled input output n) (3 * n) (4 * n) =
        Ret (filled input output n', 3 * n', 4 * n')%nat ∧ (3 * n' ≤ length input)%nat.
Proof.
  change (FAST_INPUT_BYTES + 2)%nat with 26%nat.
  intros Hb Ho Hlen. revert n. induction fuel as [|fuel IH]; intros n Hn Hfuel; cbn [encode_fast_loop].
  - rewrite (proj2 (Nat.leb_gt _ _)) by lia. eauto.
  - destruct (Nat.leb_spec (3 * n) (length input - 26)) as [Hi|]; [|eauto].
    change FAST_INPUT_BYTES with 24%nat. change FAST_OUTPUT_BYTES with 32%nat.
    rewrite slice_ok by lia. cbn [mbind outcome_bind].
    rewrite encode_fast_block_ref; [|by apply Forall_take, Forall_drop|].
    2: { rewrite length_take, length_drop. lia. }
    cbn [mbind outcome_bind]. rewrite take_take, Nat.min_l by lia.
    rewrite (filled_step _ _ n 8) by lia. cbn [mbind outcome_bind].
    replace (3 * n + 24)%nat with (3 * (n + 8))%nat by lia.
    replace (4 * n + 32)%nat with (4 * (n + 8))%nat by lia.
    apply IH; lia.
Qed.

Lemma pair_index_range a b :
  is_byte a → is_byte b →
  Z.lor (Z.shiftl a 4) (Z.shiftr b 4) = a * 16 + b / 16 ∧
  Z.lor (Z.shiftl (Z.land a 15) 8) b = a mod 16 * 256 + b.
Proof.
  unfold is_byte. intros. rewrite !Z.shiftr_div_pow2, land_15 by lia.
  rewrite !lor_shiftl_add by (change (2 ^ 4) with 16; divmod). done.
Qed.

Lemma index_input {E} (input : bytes) i :
  are_bytes input → (i < length input)%nat →
  ∃ b, @index E Z input i = Ret b ∧ is_byte b ∧ input !! i = Some b.
Proof.
  intros Hb Hi. destruct (lookup_lt_is_Some_2 input i Hi) as [b Heq].
  exists b. split_and!; [by apply index_lookup| |done]. by apply (Forall_lookup_1 _ _ i b Hb).
Qed.

Lemma encode_triple_loop_filled {E} fuel input output n :
  are_bytes input → (encoded_len (length input) ≤ length output)%nat →
  (3 * n ≤ length input)%nat → (length input ≤ fuel + 3 * n)%nat →
  @encode_triple_loop E fuel input (length input / 3 * 3) (filled input output n) (3 * n) (4 * n) =
  let m := (length input / 3)%nat in Ret (filled input output m, 3 * m, 4 * m)%nat.
Proof.
  intros Hb Ho. pose proof (Nat.div_mod (length input) 3 ltac:(done)) as Hdiv.
  pose proof (Nat.mod_upper_bound (length input) 3 ltac:(done)) as Hmod.
  revert n. induction fuel as [|fuel IH]; intros n Hn Hfuel.
  - cbn [encode_triple_loop]. rewrite (proj2 (Nat.ltb_ge _ _)) by lia.
    by replace (length input / 3)%nat with n by lia.
  - cbn [encode_triple_loop]. destruct (Nat.ltb_spec (3 * n) (length input / 3 * 3)) as [Hi|Hi].
    2: { by replace (length input / 3)%nat with n by lia. }
    destruct (@index_input E input (3 * n)) as (a & -> & Ha & Hla); [done|lia|].
    destruct (@index_input E input (3 * n + 1)) as (b & -> & Hb' & Hlb); [done|lia|].
    destruct (@index_input E input (3 * n + 2)) as (c & -> & Hc & Hlc); [done|lia|].
    cbn [mbind outcome_bind]. destruct (pair_index_range a b) as [-> _]; [done..|].
    destruct (pair_index_range b c) as [_ ->]; [done..|]. unfold is_byte in *.
    rewrite !index_pair by divmod. cbn [mbind outcome_bind fst snd].
    assert (take (3 * 1) (drop (3 * n) input) = [a; b; c]) as Htri.
    { replace (3 * n + 2)%nat with (3 * n + 1 + 1)%nat in Hlc by lia.
      by rewrite (drop_lookup _ _ a), (drop_lookup _ _ b), (drop_lookup _ _ c) by done. }
    assert ([alpha ((a * 16 + b / 16) / 64); alpha ((a * 16 + b / 16) mod 64);
             alpha ((b mod 16 * 256 + c) / 64); alpha ((b mod 16 * 256 + c) mod 64)] =
            ref_encode (take (3 * 1) (drop (3 * n) input))) as ->.
    { rewrite Htri. simpl. sextets. }
    rewrite filled_step by lia. cbn [mbind outcome_bind].
    replace (3 * n + 3)%nat with (3 * (n + 1))%nat by lia.
    replace (4 * n + 4)%nat with (4 * (n + 1))%nat by lia.
    apply IH; lia.
Qed.

Lemma encode_tail_filled {E} input output :
  are_bytes input → (encoded_len (length input) ≤ length output)%nat →
  let m := (length input / 3)%nat in
  @encode_tail E input (m * 3) (filled input output m) (3 * m) (4 * m) =
  Ret (ref_encode input ++ drop (encoded_len (length input)) output).
Proof.
  intros Hb Ho m.
  pose proof (Nat.div_mod (length input) 3 ltac:(done)) as Hdiv. fold m in Hdiv.
  pose proof (Nat.mod_upper_bound (length input) 3 ltac:(done)) as Hmod.
  assert (Hpre : length (ref_encode (take (3 * m) input)) = (4 * m)%nat)
    by (apply length_ref_encode_triples; rewrite length_take; lia).
  assert (Hout : ∀ tail, length tail = 4%nat → ref_encode (drop (3 * m) input) = tail →
    encoded_len (length input) = (4 * m + 4)%nat →
    @write_slice E Z (filled input output m) (4 * m) tail =
    Ret (ref_encode input ++ drop (encoded_len (length input)) output)).
  { intros tail Ht Htail Henc. unfold filled. rewrite <-Hpre at 2.
    rewrite write_slice_prefix by (rewrite length_drop; lia).
    assert (ref_encode input = ref_encode (take (3 * m) input) ++ tail) as ->.
    { by rewrite <-Htail, <-(ref_encode_app _ _ m), take_drop by (rewrite length_take; lia). }
    by rewrite drop_drop, Ht, Henc. }
  unfold encode_tail. replace (length input - m * 3)%nat with (length input mod 3)%nat by lia.
  unfold encoded_len in *.
  destruct (length input mod 3)%nat as [|[|[|]]] eqn:Hr; [..|lia].
  - unfold filled. replace (3 * m)%nat with (length input) by lia. rewrite firstn_all.
    replace (length input + 2)%nat with (2 + m * 3)%nat by lia. rewrite Nat.div_add by done.
    by replace ((2 / 3 + m) * 4)%nat with (4 * m)%nat by (simpl; lia).
  - destruct (@index_input E input (3 * m)) as (a & -> & Ha & Hla); [done|lia|].
    cbn [mbind outcome_bind]. unfold is_byte in *. rewrite Z.shiftl_mul_pow2 by lia.
    change (2 ^ 4) with 16. rewrite index_pair by lia. cbn [mbind outcome_bind fst snd].
    apply Hout; [done| |].
    + rewrite (drop_lookup _ _ a), (drop_ge _ (_ + 1)) by (done || lia). simpl.
      sextets.
    + replace (length input + 2)%nat with (0 + (m + 1) * 3)%nat by lia. rewrite Nat.div_add by done. simpl; lia.
  - destruct (@index_input E input (3 * m)) as (a & -> & Ha & Hla); [done|lia|].
    destruct (@index_input E input (3 * m + 1)) as (b & -> & Hb' & Hlb); [done|lia|].
    cbn [mbind outcome_bind]. destruct (pair_index_range a b) as [-> _]; [done..|].
    unfold is_byte in *. rewrite land_15, Z.shiftl_mul_pow2 by lia. change (2 ^ 8) with 256.
    rewrite !index_pair by divmod. cbn [mbind outcome_bind fst snd].
    apply Hout; [done| |].
    + rewrite (drop_lookup _ _ a), (drop_lookup _ _ b), (drop_ge _ (_ + 1 + 1)) by (done || lia). simpl.
      sextets.
    + replace (length input + 2)%nat with (1 + (m + 1) * 3)%nat by lia. rewrite Nat.div_add by done. simpl; lia.
Qed.

(** ** The decoder *)

(** Quanta before the final one: no padding. *)
Fixpoint ref_quads (l : bytes) : option bytes :=
  match l with
  | [] => Some []
  | a :: b :: c :: d :: l => three ← ref_quad a b c d; rest ← ref_quads l; Some (three ++ rest)
  | _ => None
  end.

Lemma ref_quad_length a b c d three : ref_quad a b c d = Some three → length three = 3%nat.
Proof. unfold ref_quad. by case_match; intros; simplify_eq. Qed.

Lemma ref_quads_length l n x :
  length l = (4 * n)%nat → ref_quads l = Some x → length x = (3 * n)%nat.
Proof.
  revert l x. induction n as [|n IH]; intros l x Hl.
  { rewrite (nil_length_inv l) by lia. simpl. by intros [= <-]. }
  destruct l as [|a [|b [|c [|d l]]]]; simpl in Hl; try lia.
  intros (three & Hq%ref_quad_length & (rest & Hr%IH & ?)%bind_Some)%bind_Some; [|lia].
  simplify_eq. rewrite length_app. lia.
Qed.

Lemma ref_quads_app l1 l2 n :
  length l1 = (4 * n)%nat →
  ref_quads (l1 ++ l2) = x ← ref_quads l1; y ← ref_quads l2; Some (x ++ y).
Proof.
  revert l1. induction n as [|n IH]; intros l1 Hl.
  { rewrite (nil_length_inv l1) by lia. simpl. by destruct (ref_quads l2). }
  destruct l1 as [|a [|b [|c [|d l1]]]]; simpl in Hl; try lia.
  simpl. destruct (ref_quad a b c d) as [three|]; [simpl|done].
  rewrite IH by lia. destruct (ref_quads l1); [simpl|done].
  destruct (ref_quads l2); [simpl|done]. by rewrite (assoc_L (++)).
Qed.

Lemma ref_decode_app l1 l2 n :
  length l1 = (4 * n)%nat → l2 ≠ [] →
  ref_decode (l1 ++ l2) = x ← ref_quads l1; y ← ref_decode l2; Some (x ++ y).
Proof.
  revert l1. induction n as [|n IH]; intros l1 Hl Hne.
  { rewrite (nil_length_inv l1) by lia. simpl. by destruct (ref_decode l2). }
  destruct l1 as [|a [|b [|c [|d l1]]]]; simpl in Hl; try lia.
  assert (∃ x l, l1 ++ l2 = x :: l) as (x & l & Hx) by (destruct l1, l2; naive_solver).
  simpl. rewrite Hx. rewrite <-Hx, IH by (done || lia).
  destruct (ref_quad a b c d) as [three|]; [simpl|done].
  destruct (ref_quads l1); [simpl|done].
  destruct (ref_decode l2); [simpl|done]. by rewrite (assoc_L (++)).
Qed.

Lemma entry_cases b : is_byte b → (64 <=? entry b) = false → 0 <= entry b < 64.
Proof. intros Hb%entry_range. lia. Qed.

Lemma lor_test x y : 0 <= x → 0 <= y → (64 <=? Z.lor x y) = (64 <=? x) || (64 <=? y).
Proof.
  intros. pose proof (lor_below x y 6) as H1. change (2 ^ 6) with 64 in H1.
  destruct (Z.leb_spec 64 (Z.lor x y)), (Z.leb_spec 64 x), (Z.leb_spec 64 y); simpl; lia || done.
Qed.

Lemma decode_triple s0 s1 s2 s3 :
  0 <= s0 < 64 → 0 <= s1 < 64 → 0 <= s2 < 64 → 0 <= s3 < 64 →
  [Z.lor (u8 (Z.shiftl s0 2)) (Z.shiftr s1 4); Z.lor (u8 (Z.shiftl s1 4)) (Z.shiftr s2 2);
   Z.lor (u8 (Z.shiftl s2 6)) s3] = triple s0 s1 s2 s3.
Proof.
  intros. unfold u8, triple. rewrite !Z.shiftr_div_pow2, !Z.shiftl_mul_pow2 by lia.
  change (2 ^ 2) with 4; change (2 ^ 4) with 16; change (2 ^ 6) with 64.
  replace (s0 * 4 mod 256) with (Z.shiftl s0 2) by (rewrite Z.shiftl_mul_pow2; divmod).
  replace (s1 * 16 mod 256) with (Z.shiftl (s1 mod 16) 4) by (rewrite Z.shiftl_mul_pow2; divmod).
  replace (s2 * 64 mod 256) with (Z.shiftl (s2 mod 4) 6) by (rewrite Z.shiftl_mul_pow2; divmod).
  rewrite !lor_shiftl_add by divmod. done.
Qed.

Lemma decode_chunk_4_ref {E} chunk :
  are_bytes chunk → length chunk = 4%nat → @decode_chunk_4 E chunk = Ret (ref_quads chunk).
Proof.
  intros Hb Hlen. do 4 (destruct chunk as [|? chunk]; [done|]). destruct chunk; [|done].
  unfold are_bytes in Hb. rewrite !Forall_cons in Hb. destruct_and!.
  unfold decode_chunk_4. cbv [index lookup list_lookup mbind outcome_bind].
  rewrite !sextet_of_entry by done. simpl.
  rewrite !lor_test by (repeat apply lor_nonneg_2; by apply entry_range).
  unfold ref_quad. case_match eqn:Hcase; [done|]. simpl.
  rewrite !orb_false_iff in Hcase. destruct_and!.
  by rewrite decode_triple by (apply entry_cases; done).
Qed.

Lemma triple_bytes s0 s1 s2 s3 :
  0 <= s0 < 64 → 0 <= s1 < 64 → 0 <= s2 < 64 → 0 <= s3 < 64 →
  reverse (le_bytes 3 (s0 * 2 ^ 18 + s1 * 2 ^ 12 + s2 * 2 ^ 6 + s3)) = triple s0 s1 s2 s3.
Proof.
  intros. cbn [le_bytes]. rewrite !land_255, !Z.shiftr_div_pow2 by lia.
  unfold triple. rewrite !reverse_cons, reverse_nil. cbn [app].
  repeat (apply (f_equal2 cons); [divmod|]). done.
Qed.

Lemma decode_accum s0 s1 s2 s3 s4 s5 s6 s7 :
  0 <= s0 < 64 → 0 <= s1 < 64 → 0 <= s2 < 64 → 0 <= s3 < 64 →
  0 <= s4 < 64 → 0 <= s5 < 64 → 0 <= s6 < 64 → 0 <= s7 < 64 →
  take 6 (be_bytes 8 (Z.lor (Z.lor (Z.lor (Z.lor (Z.lor (Z.lor (Z.lor
      (Z.shiftl s0 58) (Z.shiftl s1 52)) (Z.shiftl s2 46)) (Z.shiftl s3 40))
      (Z.shiftl s4 34)) (Z.shiftl s5 28)) (Z.shiftl s6 22)) (Z.shiftl s7 16))) =
  triple s0 s1 s2 s3 ++ triple s4 s5 s6 s7.
Proof.
  intros. rewrite <-!Z.lor_assoc, (Z.shiftl_mul_pow2 s7) by lia.
  rewrite (lor_shiftl_add s6), (lor_shiftl_add s5), (lor_shiftl_add s4), (lor_shiftl_add s3),
    (lor_shiftl_add s2), (lor_shiftl_add s1), (lor_shiftl_add s0) by lia.
  set (t0 := s0 * 2 ^ 18 + s1 * 2 ^ 12 + s2 * 2 ^ 6 + s3).
  set (t1 := s4 * 2 ^ 18 + s5 * 2 ^ 12 + s6 * 2 ^ 6 + s7).
  match goal with |- context [be_bytes 8 ?v] => replace v with ((t0 * 2 ^ 24 + t1) * 2 ^ 16) by lia end.
  unfold be_bytes. rewrite (le_bytes_app 2 6), (le_bytes_app 3 3).
  change (8 * Z.of_nat 2) with 16; change (8 * Z.of_nat 3) with 24.
  pose proof (le_bytes_low 3 t0 t1) as Hlow. change (8 * Z.of_nat 3) with 24 in Hlow.
  rewrite !Z.shiftr_div_pow2, Z.div_mul, Hlow, Z.div_add_l, (Z.div_small t1), Z.add_0_r by lia.
  rewrite !reverse_app, <-(assoc_L (++)). rewrite <-triple_bytes, <-triple_bytes by done. done.
Qed.

Lemma decode_chunk_8_ref {E} chunk :
  are_bytes chunk → length chunk = 8%nat → @decode_chunk_8 E chunk = Ret (ref_quads chunk).
Proof.
  intros Hb Hlen. do 8 (destruct chunk as [|? chunk]; [done|]). destruct chunk; [|done].
  unfold are_bytes in Hb. rewrite !Forall_cons in Hb. destruct_and!.
  unfold decode_chunk_8. cbv [index lookup list_lookup mbind outcome_bind].
  rewrite !sextet_of_entry by done. cbn [mbind outcome_bind].
  rewrite !lor_test by (repeat apply lor_nonneg_2; by apply entry_range).
  cbn [ref_quads]. unfold ref_quad.
  destruct (64 <=? entry z) eqn:?; [done|]; destruct (64 <=? entry z0) eqn:?; [done|];
  destruct (64 <=? entry z1) eqn:?; [done|]; destruct (64 <=? entry z2) eqn:?; [done|];
  destruct (64 <=? entry z3) eqn:?; [done|]; destruct (64 <=? entry z4) eqn:?; [done|];
  destruct (64 <=? entry z5) eqn:?; [done|]; destruct (64 <=? entry z6) eqn:?; [done|].
  cbn [orb mbind option_bind]. by rewrite decode_accum by (apply entry_cases; done).
Qed.

Section decode_proofs.
Context {E : Type} (input output : bytes) (N : nat).
Hypothesis Hbytes : are_bytes input.
Hypothesis Hlen : length input = (4 * N + 4)%nat.
Hypothesis Hroom : (3 * N ≤ length output)%nat.

(** The output buffer once the first [n] quanta of [input] are decoded. *)
Definition decoded (n : nat) (out : bytes) : Prop :=
  ∃ pre, ref_quads (take (4 * n) input) = Some pre ∧ out = pre ++ drop (3 * n) output.

Lemma decoded_length n out : (n ≤ N)%nat → decoded n out → length out = length output.
Proof.
  intros Hn (pre & Hpre & ->).
  apply (ref_quads_length _ n) in Hpre; [|rewrite length_take; lia].
  rewrite length_app, length_drop. lia.
Qed.

Lemma decoded_step n k out x :
  (n + k ≤ N)%nat → decoded n out →
  ref_quads (take (4 * k) (drop (4 * n) input)) = Some x →
  ∃ out', @write_slice E Z out (3 * n) x = Ret out' ∧ decoded (n + k) out'.
Proof.
  intros Hn (pre & Hpre & ->) Hx.
  assert (length pre = (3 * n)%nat) as Hlp
    by (apply (ref_quads_length _ n _) in Hpre; [done|rewrite length_take; lia]).
  assert (length x = (3 * k)%nat) as Hlx
    by (apply (ref_quads_length _ k _) in Hx; [done|rewrite length_take, length_drop; lia]).
  rewrite <-Hlp, write_slice_prefix by (rewrite length_drop; lia).
  eexists. split; [done|]. exists (pre ++ x). split.
  - rewrite Nat.mul_add_distr_l, <-take_take_drop, (ref_quads_app _ _ n) by (rewrite length_take; lia).
    by rewrite Hpre, Hx.
  - rewrite drop_drop. do 2 f_equal. lia.
Qed.

Lemma decoded_fail n k :
  (n + k ≤ N)%nat → ref_quads (take (4 * k) (drop (4 * n) input)) = None →
  ref_decode input = None.
Proof.
  intros Hn Hx.
  rewrite <-(take_drop (4 * n) input), <-(take_drop (4 * k) (drop (4 * n) input)).
  rewrite (ref_decode_app _ _ n); [|rewrite length_take; lia|].
  2: { intros [? Hnil]%app_nil. apply (f_equal length) in Hnil. rewrite !length_drop in Hnil. simpl in Hnil. lia. }
  rewrite (ref_decode_app _ _ k); [|rewrite length_take, length_drop; lia|].
  2: { intros Hnil. apply (f_equal length) in Hnil. rewrite !length_drop in Hnil. simpl in Hnil. lia. }
  rewrite Hx. by destruct (ref_quads (take (4 * n) input)).
Qed.

(** How a decoding step leaves the loop: with the quanta up to [m] decoded, or
    because [input] is malformed. *)
Definition step_result (m : nat) {A} (ok : A) (r : outcome E (option A * bytes)) : Prop :=
  (∃ out, r = Ret (Some ok, out) ∧ decoded m out) ∨
  (∃ out, r = Ret (None, out) ∧ length out = length output ∧ ref_decode input = None).

Lemma decode_groups_spec n j len out :
  (n + 8 ≤ N)%nat → (j + len = 4)%nat → decoded (n + 2 * j) out →
  step_result (n + 8) tt
    (decode_groups (seq j len) (take 32 (drop (4 * n) input)) out (3 * n)).
Proof.
  intros Hn. revert j out. induction len as [|len IH]; intros j out Hj Hdec; cbn [seq decode_groups].
  { replace (n + 8)%nat with (n + 2 * j)%nat by lia. left. eauto. }
  rewrite slice_ok by (rewrite ?length_take, ?length_drop; lia). cbn [mbind outcome_bind].
  assert (take (8 * j + 8 - 8 * j) (drop (8 * j) (take 32 (drop (4 * n) input))) =
          take (4 * 2) (drop (4 * (n + 2 * j)) input)) as ->.
  { rewrite skipn_firstn_comm, take_take, drop_drop. f_equal; [lia|]. f_equal. lia. }
  rewrite decode_chunk_8_ref; [|by apply Forall_take, Forall_drop|rewrite length_take, length_drop; lia].
  cbn [mbind outcome_bind]. destruct (ref_quads _) as [x|] eqn:Hx.
  - destruct (decoded_step (n + 2 * j) 2 out x) as (out' & Hw & ?); [lia|done..|].
    replace (3 * n + 6 * j)%nat with (3 * (n + 2 * j))%nat by lia. rewrite Hw.
    apply (IH (S j)); [lia|]. by replace (n + 2 * S j)%nat with (n + 2 * j + 2)%nat by lia.
  - right. exists out. split_and!; [done| |].
    + apply (decoded_length (n + 2 * j)); [lia|done].
    + apply (decoded_fail (n + 2 * j) 2); [lia|done].
Qed.

Lemma decode_unrolled_loop_spec fuel m n out :
  (8 * m ≤ N)%nat → (n ≤ m)%nat → (m ≤ fuel + n)%nat → decoded (8 * n) out →
  step_result (8 * m) (4 * (8 * m))%nat
    (decode_unrolled_loop fuel input (4 * (8 * m)) out (4 * (8 * n))).
Proof.
  intros Hm. revert n out. induction fuel as [|fuel IH]; intros n out Hn Hfuel Hdec;
    cbn [decode_unrolled_loop].
  { replace n with m in * by lia. rewrite Nat.ltb_irrefl. left. eauto. }
  destruct (Nat.ltb_spec (4 * (8 * n)) (4 * (8 * m))) as [Hlt|].
  2: { replace n with m in * by lia. left. eauto. }
  pose proof (decoded_length (8 * n) out ltac:(lia) Hdec).
  replace (4 * (8 * n) / 4 * 3)%nat with (3 * (8 * n))%nat
    by (rewrite (Nat.mul_comm 4), Nat.div_mul by done; lia).
  rewrite !slice_ok, !Nat.add_sub' by lia. cbn [mbind outcome_bind].
  destruct (decode_groups_spec (8 * n) 0 4 out) as [(out' & Hg & Hdec')|(out' & Hg & ? & ?)];
    [lia|done|by rewrite Nat.add_0_r|..]; cbn [seq] in Hg; rewrite Hg; cbn [mbind outcome_bind].
  - replace (4 * (8 * n) + 32)%nat with (4 * (8 * (n + 1)))%nat by lia.
    apply IH; [lia..|]. by replace (8 * (n + 1))%nat with (8 * n + 8)%nat by lia.
  - right. eauto.
Qed.

Lemma decode_quad_loop_spec fuel n out :
  (n ≤ N)%nat → (N ≤ fuel + n)%nat → decoded n out →
  step_result N (4 * N)%nat (decode_quad_loop fuel input (4 * N) out (4 * n)).
Proof.
  revert n out. induction fuel as [|fuel IH]; intros n out Hn Hfuel Hdec; cbn [decode_quad_loop].
  { replace n with N in * by lia. rewrite Nat.ltb_irrefl. left. eauto. }
  destruct (Nat.ltb_spec (4 * n) (4 * N)) as [Hlt|].
  2: { replace n with N in * by lia. left. eauto. }
  pose proof (decoded_length n out ltac:(lia) Hdec).
  replace (4 * n / 4 * 3)%nat with (3 * n)%nat by (rewrite (Nat.mul_comm 4), Nat.div_mul by done; lia).
  rewrite !slice_ok, !Nat.add_sub' by lia. cbn [mbind outcome_bind].
  rewrite decode_chunk_4_ref; [|by apply Forall_take, Forall_drop|rewrite length_take, length_drop; lia].
  cbn [mbind outcome_bind]. destruct (ref_quads _) as [x|] eqn:Hx.
  - destruct (decoded_step n 1 out x) as (out' & -> & ?); [lia|done..|]. cbn [mbind outcome_bind].
    replace (4 * n + 4)%nat with (4 * (n + 1))%nat by lia. apply IH; [lia..|done].
  - right. exists out. split_and!; [done|done|]. apply (decoded_fail n 1); [lia|done].
Qed.
End decode_proofs.

(** The number of padding bytes of a final quantum [a b c d]. *)
Definition padding (c d : Z) : nat := if d =? 61 then (if c =? 61 then 2 else 1) else 0.

Lemma decoded_len_quanta l a b c d n :
  length l = (4 * n)%nat → decoded_len (l ++ [a; b; c; d]) = Some (3 * n + 3 - padding c d)%nat.
Proof.
  intros Hl. unfold decoded_len.
  assert (length (l ++ [a; b; c; d]) = (n + 1) * 4)%nat as -> by (rewrite length_app; simpl; lia).
  rewrite Nat.Div0.mod_mul, Nat.div_mul, reverse_app by done. cbn [Nat.eqb negb].
  change (reverse [a; b; c; d]) with [d; c; b; a]. cbn [app]. f_equal.
  assert (Hpad : match d :: c :: b :: a :: reverse l with
                 | 61 :: 61 :: _ => 2%nat | 61 :: _ => 1%nat | _ => 0%nat end = padding c d).
  { unfold padding. destruct (Z.eqb_spec d 61) as [->|Hd].
    - destruct (Z.eqb_spec c 61) as [->|Hc]; [done|]. by repeat case_match.
    - by repeat case_match. }
  rewrite Hpad. lia.
Qed.

Lemma ref_final_length a b c d x :
  is_byte c → is_byte d → ref_final a b c d = Some x → length x = (3 - padding c d)%nat.
Proof.
  intros Hc Hd. unfold ref_final, padding. change (entry 61) with 254.
  destruct (Z.eqb_spec c 61) as [->|], (Z.eqb_spec d 61) as [->|]; cbn [andb];
    try change (entry 61) with 254; repeat case_match; intros; by simplify_eq.
Qed.

Lemma decode_final_spec {E} (input output pre l : bytes) N a b c d :
  are_bytes [a; b; c; d] → input = l ++ [a; b; c; d] → length l = (4 * N)%nat →
  length pre = (3 * N)%nat → (3 * N + 3 - padding c d ≤ length output)%nat →
  ∃ r out', @decode_final E input (4 * N) (pre ++ drop (3 * N) output) = Ret (r, out') ∧
    match ref_final a b c d with
    | Some x => r = Some (3 * N + length x)%nat ∧
                out' = (pre ++ x) ++ drop (3 * N + length x) output
    | None => r = None ∧ length out' = length output
    end.
Proof.
  intros Hb -> Hl Hpre Hroom. unfold are_bytes in Hb. rewrite !Forall_cons in Hb. destruct_and!.
  assert (Hwr : ∀ x, (3 * N + length x ≤ length output)%nat →
    @write_slice E Z (pre ++ drop (3 * N) output) (3 * N) x =
      Ret ((pre ++ x) ++ drop (3 * N + length x) output)).
  { intros x Hx. rewrite <-Hpre, write_slice_prefix by (rewrite length_drop; lia).
    by rewrite drop_drop. }
  unfold decode_final. replace (4 * N / 4 * 3)%nat with (3 * N)%nat
    by (rewrite (Nat.mul_comm 4), Nat.div_mul by done; lia).
  assert (Hidx : ∀ i x, [a; b; c; d] !! i = Some x →
    @index E Z (l ++ [a; b; c; d]) (4 * N + i) = Ret x).
  { intros i x Hx. apply index_lookup. by rewrite lookup_app_r, <-Hl, Nat.add_sub' by lia. }
  pose proof (Hidx 0%nat a eq_refl) as Hidx0. rewrite Nat.add_0_r in Hidx0.
  rewrite Hidx0, (Hidx 1%nat b), (Hidx 2%nat c), (Hidx 3%nat d) by done.
  cbn [mbind outcome_bind]. rewrite !sextet_of_entry by done. cbn [mbind outcome_bind].
  rewrite !entry_padding by done. unfold ref_final. unfold padding in Hroom.
  pose proof (entry_cases a). pose proof (entry_cases b).
  pose proof (entry_cases c). pose proof (entry_cases d).
  assert (Hlen : length (pre ++ drop (3 * N) output) = length output)
    by (rewrite length_app, length_drop; repeat case_match; lia).
  destruct (64 <=? entry a) eqn:Ha; [do 2 eexists; by split_and!|].
  destruct (64 <=? entry b) eqn:Hb'; [do 2 eexists; by split_and!|]. cbn [orb].
  destruct (Z.eqb_spec c 61) as [->|Hc]; [destruct (Z.eqb_spec d 61) as [->|Hd]|]; cbn [andb negb].
  - rewrite Hwr by (simpl; lia). rewrite <-(decode_triple (entry a) (entry b) 0 0) by (auto || lia).
    do 2 eexists. split; [done|]. done.
  - change (64 <=? entry 61) with true. cbn [andb]. do 2 eexists; by split_and!.
  - destruct (64 <=? entry c) eqn:Hc'; [do 2 eexists; by split_and!|].
    rewrite Hwr by (destruct (d =? 61); simpl; lia). cbn [mbind outcome_bind].
    destruct (Z.eqb_spec d 61) as [->|Hd].
    + rewrite <-(decode_triple (entry a) (entry b) (entry c) 0) by (auto || lia). do 2 eexists; by split_and!.
    + destruct (64 <=? entry d) eqn:Hd'.
      { do 2 eexists. split; [done|]. split; [done|]. rewrite !length_app, length_drop. simpl. lia. }
      rewrite <-(decode_triple (entry a) (entry b) (entry c) (entry d)) by auto.
      match goal with |- context [write_slice ((pre ++ ?t) ++ ?r) _ ?x] =>
        replace (3 * N + 2)%nat with (length (pre ++ t)) by (rewrite length_app; simpl; lia);
        rewrite (write_slice_prefix (pre ++ t) r x) by (rewrite length_drop; simpl; lia) end.
      do 2 eexists. split; [done|]. rewrite drop_drop, <-(assoc_L (++) pre). simpl. split; [done|].
      do 2 f_equal. lia.
Qed.

Lemma quanta_split (l : bytes) :
  (length l mod 4 = 0)%nat → l ≠ [] →
  ∃ pre a b c d N, l = pre ++ [a; b; c; d] ∧ length pre = (4 * N)%nat.
Proof.
  intros Hmod Hne. pose proof (Nat.div_mod (length l) 4 ltac:(done)) as Hdiv.
  assert (length l ≠ 0)%nat by (by destruct l).
  pose proof (take_drop (length l - 4) l) as Hl.
  assert (length (drop (length l - 4) l) = 4%nat) as Hd by (rewrite length_drop; lia).
  destruct (drop (length l - 4) l) as [|a [|b [|c [|d [|]]]]]; try done.
  exists (take (length l - 4) l), a, b, c, d, (length l / 4 - 1)%nat.
  split; [done|]. rewrite length_take. lia.
Qed.

Lemma ref_decode_ragged n l : length l = n → (n mod 4 ≠ 0)%nat → ref_decode l = None.
Proof.
  revert l. induction (lt_wf n) as [n _ IH]. intros l <- Hmod.
  destruct l as [|a [|b [|c [|d [|e l]]]]]; try done.
  change ((three ← ref_quad a b c d; rest ← ref_decode (e :: l); Some (three ++ rest)) = None).
  rewrite (IH (length (e :: l))); [|simpl; lia|done|].
  - by destruct (ref_quad a b c d).
  - intros H. apply Hmod. change (length (a :: b :: c :: d :: e :: l)) with (4 + length (e :: l))%nat.
    by rewrite <-Nat.Div0.add_mod_idemp_l.
Qed.

(** The decoder on every input, for an output buffer that is large enough. *)
Lemma decode_run {E} input output n :
  are_bytes input → decoded_len input = Some n → (n ≤ length output)%nat →
  ∃ r out', @decode E input output = Ret (r, out') ∧ length out' = length output ∧
    match ref_decode input with
    | Some x => length x = n ∧ r = Some n ∧ out' = x ++ drop n output
    | None => r = None
    end.
Proof.
  intros Hb Hn Hroom. unfold decode. rewrite Hn, (proj2 (Nat.ltb_ge _ _)) by done.
  destruct (decide (input = [])) as [->|Hne].
  { vm_compute in Hn. simplify_eq. rewrite bool_decide_eq_true_2 by done.
    do 2 eexists. split; [done|]. split; [done|]. cbn. by rewrite drop_0. }
  rewrite bool_decide_eq_false_2 by done.
  assert (length input mod 4 = 0)%nat as Hmod.
  { unfold decoded_len in Hn. destruct (Nat.eqb_spec (length input mod 4) 0); done. }
  destruct (quanta_split input) as (pre & a & b & c & d & N & -> & Hpre); [done..|].
  rewrite (decoded_len_quanta _ _ _ _ _ N) in Hn by done. injection Hn as <-.
  assert (Hlen : length (pre ++ [a; b; c; d]) = (4 * N + 4)%nat) by (rewrite length_app, Hpre; done).
  set (input := pre ++ [a; b; c; d]) in *.
  assert (padding c d ≤ 2)%nat by (unfold padding; repeat case_match; lia).
  assert (Hroom' : (3 * N ≤ length output)%nat) by lia.
  rewrite Hlen, Nat.add_sub.
  assert (4 * N - 4 * N mod 32 = 4 * (8 * (N / 8)))%nat as ->.
  { replace 32%nat with (4 * 8)%nat by done. rewrite Nat.Div0.mul_mod_distr_l.
    pose proof (Nat.div_mod N 8 ltac:(done)). lia. }
  pose proof (Nat.Div0.mul_div_le N 8).
  destruct (decode_unrolled_loop_spec (E:=E) input output N Hb Hlen Hroom' (4 * N + 4) (N / 8) 0 output)
    as [(out1 & Hrun & Hd1)|(out1 & Hrun & Hl1 & Hnone)]; [lia..|by exists []| |];
    rewrite (Nat.mul_0_r 8), Nat.mul_0_r in Hrun || idtac; rewrite Hrun; cbn [mbind outcome_bind].
  2: { do 2 eexists. split_and!; [done..|]. by rewrite Hnone. }
  destruct (decode_quad_loop_spec (E:=E) input output N Hb Hlen Hroom' (4 * N + 4) (8 * (N / 8)) out1)
    as [(out2 & -> & Hd2)|(out2 & -> & Hl2 & Hnone)]; [lia..|done| |]; cbn [mbind outcome_bind].
  2: { do 2 eexists. split_and!; [done..|]. by rewrite Hnone. }
  destruct Hd2 as (x & Hx & ->).
  assert (Htake : take (4 * N) input = pre) by (unfold input; by rewrite <-Hpre, take_app_length).
  rewrite Htake in Hx.
  assert (length x = (3 * N)%nat) as Hlx by (by apply (ref_quads_length pre N)).
  apply Forall_app in Hb as [Hb1 Hb2].
  destruct (decode_final_spec (E:=E) input output x pre N a b c d) as (r & out' & Hrun' & Hr); [done..|].
  rewrite Hrun'. do 2 eexists. split; [done|].
  unfold input. rewrite (ref_decode_app pre [a; b; c; d] N Hpre), Hx by done. cbn [mbind option_bind ref_decode].
  unfold are_bytes in Hb2. rewrite !Forall_cons in Hb2. destruct_and!.
  destruct (ref_final a b c d) as [y|] eqn:Hy; cbn [mbind option_bind].
  - apply ref_final_length in Hy; [|done..]. destruct Hr as [-> ->].
    rewrite !length_app, length_drop, Hy, Hlx. split_and!; [lia..|do 2 f_equal; lia|].
    do 2 f_equal. lia.
  - destruct Hr as [-> ?]. done.
Qed.

Lemma decoded_len_none l : decoded_len l = None → ref_decode l = None.
Proof.
  unfold decoded_len. destruct (Nat.eqb_spec (length l mod 4) 0); [done|].
  intros _. by apply (ref_decode_ragged (length l)).
Qed.

Lemma decoded_len_ref l x : are_bytes l → ref_decode l = Some x → decoded_len l = Some (length x).
Proof.
  intros Hb Hx. destruct (decoded_len l) as [n|] eqn:Hn.
  - destruct (decode_run (E:=Empty_set) l (replicate n 0) n) as (r & out' & _ & _ & Hr);
      [done..|by rewrite length_replicate|].
    rewrite Hx in Hr. by destruct Hr as [-> _].
  - apply decoded_len_none in Hn. congruence.
Qed.

Lemma ref_final_encode1 a : is_byte a →
  ref_final (alpha (a / 4)) (alpha (a mod 4 * 16)) 61 61 = Some [a].
Proof.
  intros Ha. unfold is_byte in Ha. unfold ref_final. rewrite !entry_alpha by divmod.
  rewrite !(proj2 (Z.leb_gt _ _)) by divmod. cbn. do 2 f_equal. divmod.
Qed.

Lemma ref_final_encode2 a b : is_byte a → is_byte b →
  ref_final (alpha (a / 4)) (alpha (a mod 4 * 16 + b / 16)) (alpha (b mod 16 * 4)) 61 = Some [a; b].
Proof.
  intros Ha Hb. unfold is_byte in *. unfold ref_final. rewrite !entry_alpha by divmod.
  rewrite !(proj2 (Z.leb_gt _ _)) by divmod.
  rewrite (proj2 (Z.eqb_neq _ 61)) by (apply alpha_byte; divmod). cbn.
  f_equal. repeat (apply (f_equal2 cons); [divmod|]). done.
Qed.

Lemma ref_quad_encode a b c : is_byte a → is_byte b → is_byte c →
  ref_quad (alpha (a / 4)) (alpha (a mod 4 * 16 + b / 16)) (alpha (b mod 16 * 4 + c / 64))
    (alpha (c mod 64)) = Some [a; b; c].
Proof.
  intros Ha Hb Hc. unfold is_byte in *. unfold ref_quad. rewrite !entry_alpha by divmod.
  rewrite !(proj2 (Z.leb_gt _ _)) by divmod. cbn.
  f_equal. repeat (apply (f_equal2 cons); [divmod|]). done.
Qed.

(** On unpadded quanta the final quantum decodes like the others. *)
Lemma ref_final_quad a b c d x : is_byte c → is_byte d →
  ref_quad a b c d = Some x → ref_final a b c d = Some x.
Proof.
  intros Hc Hd. unfold ref_quad, ref_final.
  destruct (64 <=? entry a); [done|]. destruct (64 <=? entry b); [done|]. cbn [orb].
  destruct (Z.eqb_spec c 61) as [->|]; [by change (64 <=? entry 61) with true|]. cbn [andb].
  destruct (64 <=? entry c); [done|]. cbn [orb].
  destruct (Z.eqb_spec d 61) as [->|]; [by change (64 <=? entry 61) with true|]. done.
Qed.

Lemma are_bytes_ref_encode l : are_bytes l → are_bytes (ref_encode l).
Proof.
  unfold are_bytes. assert (H61 : is_byte 61) by done.
  induction l as [|a|a b|a b c l IH] using list_ind_3; cbn [ref_encode]; rewrite ?Forall_cons; [done|..];
    intros Hb; destruct_and!; unfold is_byte in *; split_and!; try done; try (apply alpha_byte; divmod).
  auto.
Qed.

Lemma ref_decode_encode l : are_bytes l → ref_decode (ref_encode l) = Some l.
Proof.
  unfold are_bytes.
  induction l as [|a|a b|a b c l IH] using list_ind_3; rewrite ?Forall_cons;
    intros Hb; destruct_and?; [done| | |].
  - by apply ref_final_encode1.
  - by apply ref_final_encode2.
  - destruct l as [|x l].
    + apply ref_final_quad; [unfold is_byte in *; apply alpha_byte; divmod..|by apply ref_quad_encode].
    + change (a :: b :: c :: x :: l) with ([a; b; c] ++ x :: l) at 1.
      rewrite (ref_encode_app [a; b; c] (x :: l) 1) by done.
      rewrite (ref_decode_app _ _ 1); [|done|by destruct l as [|? []]].
      rewrite IH by done. cbn [ref_encode ref_quads]. by rewrite ref_quad_encode.
Qed.

Lemma triple_are_bytes s0 s1 s2 s3 :
  0 <= s0 < 64 → 0 <= s1 < 64 → 0 <= s2 < 64 → 0 <= s3 < 64 → are_bytes (triple s0 s1 s2 s3).
Proof. intros. unfold triple, are_bytes, is_byte. rewrite !Forall_cons, Forall_nil. divmod. Qed.

Lemma ref_final_bytes a b c d x : are_bytes [a; b; c; d] → ref_final a b c d = Some x → are_bytes x.
Proof.
  unfold are_bytes. rewrite !Forall_cons. intros (Ha & Hb & Hc & Hd & _). unfold ref_final.
  pose proof (entry_cases a Ha). pose proof (entry_cases b Hb).
  pose proof (entry_cases c Hc). pose proof (entry_cases d Hd).
  destruct (64 <=? entry a), (64 <=? entry b); cbn [orb]; try done.
  destruct ((c =? 61) && (d =? 61)).
  { intros Hx. assert (x = take 1 (triple (entry a) (entry b) 0 0)) as -> by congruence.
    apply Forall_take, triple_are_bytes; auto || lia. }
  destruct (64 <=? entry c); [done|]. destruct (d =? 61).
  { intros Hx. assert (x = take 2 (triple (entry a) (entry b) (entry c) 0)) as -> by congruence.
    apply Forall_take, triple_are_bytes; auto || lia. }
  destruct (64 <=? entry d); [done|]. intros [= <-]. apply triple_are_bytes; auto.
Qed.

Lemma ref_quad_bytes a b c d x : are_bytes [a; b; c; d] → ref_quad a b c d = Some x → are_bytes x.
Proof.
  unfold are_bytes. rewrite !Forall_cons. intros (Ha & Hb & Hc & Hd & _). unfold ref_quad.
  pose proof (entry_cases a Ha). pose proof (entry_cases b Hb).
  pose proof (entry_cases c Hc). pose proof (entry_cases d Hd).
  destruct (64 <=? entry a), (64 <=? entry b), (64 <=? entry c), (64 <=? entry d); cbn [orb]; try done.
  intros [= <-]. apply triple_are_bytes; auto.
Qed.

Lemma ref_decode_bytes l x : are_bytes l → ref_decode l = Some x → are_bytes x.
Proof.
  remember (length l) as n eqn:Hn. induction (lt_wf n) as [n _ IH] in l, Hn, x |- *. subst n.
  intros Hb. destruct l as [|a [|b [|c [|d [|e l]]]]]; try done.
  - intros [= <-]. by constructor.
  - by apply ref_final_bytes.
  - change (ref_decode (a :: b :: c :: d :: e :: l)) with
      (three ← ref_quad a b c d; rest ← ref_decode (e :: l); Some (three ++ rest)).
    change (a :: b :: c :: d :: e :: l) with ([a; b; c; d] ++ e :: l) in Hb.
    apply Forall_app in Hb as [Hb1 Hb2].
    destruct (ref_quad a b c d) as [three|] eqn:Hq; [|done]. cbn [mbind option_bind].
    destruct (ref_decode (e :: l)) as [rest|] eqn:Hr; [|done]. intros [= <-].
    apply Forall_app. split; [by eapply ref_quad_bytes|].
    apply (IH (length (e :: l))) with (l := e :: l); [simpl; lia|done..].
Qed.

Lemma encode_run {E} input output :
  are_bytes input → (encoded_len (length input) ≤ length output)%nat →
  @encode E input output =
    Ret (Some (encoded_len (length input)),
         ref_encode input ++ drop (encoded_len (length input)) output).
Proof.
  intros Hb Ho. unfold encode. rewrite (proj2 (Nat.ltb_ge _ _)) by done.
  assert (Hloop : ∃ n, (if (0 <? length input - (FAST_INPUT_BYTES + 2))%nat
     then encode_fast_loop (length input) input (length input - (FAST_INPUT_BYTES + 2)) output 0 0
     else Ret (output, 0%nat, 0%nat)) = @Ret E _ (filled input output n, 3 * n, 4 * n)%nat
     ∧ (3 * n ≤ length input)%nat).
  { destruct (Nat.ltb_spec 0 (length input - (FAST_INPUT_BYTES + 2))) as [Hfast|].
    - change (FAST_INPUT_BYTES + 2)%nat with 26%nat in Hfast.
      apply (encode_fast_loop_filled (length input) input output 0); [done|done|lia..].
    - exists 0%nat. split; [done|lia]. }
  destruct Hloop as (n & -> & Hn). cbn [mbind outcome_bind].
  rewrite encode_triple_loop_filled by (done || lia). cbn [mbind outcome_bind].
  by rewrite encode_tail_filled.
Qed.


(** ** Theorems *)

(** [encode] is the textbook base64 encoder.  On every byte string and every output
    buffer it returns without panicking: [None], with the buffer untouched, when the buffer
    is shorter than [encoded_len]; otherwise the length, with the encoding in front of the
    untouched rest of the buffer.  The word-at-a-time and pair-table paths are covered. *)
Theorem encode_refines {E} (input output : bytes) :
  are_bytes input →
  @encode E input output =
    Ret (if (length output <? encoded_len (length input))%nat then (None, output)
         else (Some (encoded_len (length input)),
               ref_encode input ++ drop (encoded_len (length input)) output)).
Proof.
  intros Hb. destruct (Nat.ltb_spec (length output) (encoded_len (length input))) as [Hsmall|Ho].
  - unfold encode. by rewrite (proj2 (Nat.ltb_lt _ _)).
  - by apply encode_run.
Qed.

Lemma encode_refines_witness :
  are_bytes (bytes_of "Many hands make light work.") ∧
  @encode Empty_set (bytes_of "Many hands make light work.") (replicate 40 0) =
    Ret (Some 36%nat, bytes_of "TWFueSBoYW5kcyBtYWtlIGxpZ2h0IHdvcmsu" ++ replicate 4 0).
Proof.
  split; [by apply (bool_decide_unpack _); vm_compute|].
  rewrite encode_refines; [by vm_compute|]. by apply (bool_decide_unpack _); vm_compute.
Defined.

(** [decode] is the inverse codec.  On every byte string and every output buffer it
    returns without panicking, and leaves the length of the buffer alone.  It reports success
    exactly for the well-formed inputs whose decoding fits the buffer, and then the decoding
    is in front of the untouched rest of the buffer. *)
Theorem decode_refines {E} (input output : bytes) :
  are_bytes input →
  ∃ r output', @decode E input output = Ret (r, output') ∧ length output' = length output ∧
    match ref_decode input with
    | Some x => if (length output <? length x)%nat then r = None ∧ output' = output
                else r = Some (length x) ∧ output' = x ++ drop (length x) output
    | None => r = None
    end.
Proof.
  intros Hb. destruct (decoded_len input) as [n|] eqn:Hn.
  - destruct (Nat.ltb_spec (length output) n) as [Hsmall|Hroom].
    + unfold decode. rewrite Hn, (proj2 (Nat.ltb_lt _ _)) by done.
      do 2 eexists. split_and!; [done..|]. destruct (ref_decode input) as [x|] eqn:Hx; [|done].
      rewrite (decoded_len_ref input x) in Hn by done. simplify_eq.
      by rewrite (proj2 (Nat.ltb_lt _ _)).
    + destruct (decode_run (E:=E) input output n) as (r & out' & Hrun & Hlen & Hr); [done..|].
      exists r, out'. split_and!; [done..|]. destruct (ref_decode input) as [x|]; [|done].
      destruct Hr as (<- & -> & ->). by rewrite (proj2 (Nat.ltb_ge _ _)).
  - apply decoded_len_none in Hn as Hx. unfold decode. rewrite Hn, Hx. eauto.
Qed.

Lemma decode_refines_witness :
  are_bytes (bytes_of "Zm9vYg==") ∧
  ∃ r output', @decode Empty_set (bytes_of "Zm9vYg==") (replicate 6 0) = Ret (r, output') ∧
    r = Some 4%nat ∧ output' = bytes_of "foob" ++ [0; 0].
Proof.
  assert (H : are_bytes (bytes_of "Zm9vYg==")) by (by apply (bool_decide_unpack _); vm_compute).
  split; [done|].
  destruct (decode_refines (E:=Empty_set) (bytes_of "Zm9vYg==") (replicate 6 0) H) as (r & o & Hrun & _ & Hr).
  exists r, o. split; [done|]. vm_compute in Hr. destruct Hr as [-> ->]. done.
Defined.

(** decoding what [encode] wrote gives the input back, for every input, output buffer and
    decode buffer that are large enough. *)
Theorem decode_encode_roundtrip {E} (input output output2 : bytes) :
  are_bytes input → (encoded_len (length input) ≤ length output)%nat →
  (length input ≤ length output2)%nat →
  ∃ written encoded, @encode E input output = Ret (Some written, encoded) ∧
    @decode E (take written encoded) output2 =
      Ret (Some (length input), input ++ drop (length input) output2).
Proof.
  intros Hb Ho Ho2. destruct (decode_run (E:=E) (ref_encode input) output2 (length input))
    as (r & out' & Hrun & _ & Hr); [by apply are_bytes_ref_encode| |done|].
  { apply decoded_len_ref; [by apply are_bytes_ref_encode|by apply ref_decode_encode]. }
  rewrite ref_decode_encode in Hr by done. destruct Hr as (_ & -> & ->).
  exists (encoded_len (length input)), (ref_encode input ++ drop (encoded_len (length input)) output).
  split; [by apply encode_run|]. by rewrite <-length_ref_encode, take_app_length.
Qed.

Lemma decode_encode_roundtrip_witness :
  ∃ written encoded, @encode Empty_set (bytes_of "agentdp") (replicate 12 0) = Ret (Some written, encoded) ∧
    @decode Empty_set (take written encoded) (replicate 7 0) = Ret (Some 7%nat, bytes_of "agentdp").
Proof.
  apply (decode_encode_roundtrip (bytes_of "agentdp") (replicate 12 0) (replicate 7 0));
    [by apply (bool_decide_unpack _); vm_compute|vm_compute; lia..].
Defined.

(** unlike the standard decoder, [decode] does not look at the bits of the last sextet
    that no output byte takes: every final quantum that differs from an accepted one only in
    those bits is accepted, with the same result. *)
Theorem decode_ignores_trailing_bits {E} (a b b' : Z) (output : bytes) :
  is_byte a → is_byte b → is_byte b' → entry a < 64 → entry b < 64 → entry b' < 64 →
  entry b / 16 = entry b' / 16 → (0 < length output)%nat →
  @decode E [a; b; 61; 61] output = @decode E [a; b'; 61; 61] output ∧
  ∃ output', @decode E [a; b'; 61; 61] output = Ret (Some 1%nat, output').
Proof.
  intros Ha Hb Hb' Hea Heb Heb' Hdiv Ho.
  assert (Hall : ∀ c, is_byte c → entry c < 64 →
    @decode E [a; c; 61; 61] output = Ret (Some 1%nat, [entry a * 4 + entry c / 16] ++ drop 1 output)).
  { intros c Hc Hec. destruct (decode_run (E:=E) [a; c; 61; 61] output 1) as (r & o & -> & _ & Hr).
    - unfold are_bytes. by rewrite !Forall_cons.
    - done.
    - lia.
    - unfold ref_decode, ref_final in Hr. rewrite !(proj2 (Z.leb_gt _ _)) in Hr by done.
      cbn in Hr. by destruct Hr as (_ & -> & ->). }
  rewrite (Hall b), (Hall b'), Hdiv by done. eauto.
Qed.

Lemma decode_ignores_trailing_bits_witness :
  bytes_of "Zh==" ≠ bytes_of "Zg==" ∧
  @decode Empty_set (bytes_of "Zh==") [0; 0] = @decode Empty_set (bytes_of "Zg==") [0; 0].
Proof.
  split; [done|].
  apply (decode_ignores_trailing_bits (byte_of "Z") (byte_of "h") (byte_of "g") [0; 0]);
    try (vm_compute; split; done); try (vm_compute; done); vm_compute; lia.
Defined.
