(* ===== verification/Rng.v ===== *)
(** * Deterministic random numbers (src/libs/agentdp-rand/src/lib.rs)

    [Seed], the SplitMix64 generator [DeterministicRng] and everything drawn
    from it.  The rejection loop of [below] has no bound in the code; it runs
    here with the [2 ^ 64] rounds that the period of the generator shows to be
    enough. *)
From S2P Require Import Prelude Text.
Local Open Scope Z_scope.

Definition mix (value : Z) : Z :=
  let value := wrapping_mul64 (Z.lxor value (Z.shiftr value 30)) 0xbf58476d1ce4e5b9 in
  let value := wrapping_mul64 (Z.lxor value (Z.shiftr value 27)) 0x94d049bb133111eb in
  Z.lxor value (Z.shiftr value 31).

Definition gamma : Z := 0x9e3779b97f4a7c15.

(** ** Seeds *)
Record Seed := { seed_value : Z }.

Definition derive (s : Seed) (name : str) : Seed :=
  let state := mix (Z.lxor (seed_value s) gamma) in
  {| seed_value := foldl (λ state byte, mix (Z.lxor state byte)) state (utf8_encode name) |}.

(** The digit of a hexadecimal format, and [{:016x}]. *)
Definition hex_digit (d : Z) : Z := if d <? 10 then 48 + d else 87 + d.
Fixpoint hex_digits (n : nat) (z : Z) : str :=
  match n with
  | O => []
  | S n => hex_digits n (Z.shiftr z 4) ++ [hex_digit (Z.land z 15)]
  end.

(** [Display]; a [u64] never has more than the sixteen digits of the padding. *)
Definition seed_to_string (s : Seed) : str := bytes_of "0x" ++ hex_digits 16 (seed_value s).

Inductive ParseSeedError := parse_seed_error.

(** [FromStr] *)
Definition seed_from_str (value : str) : outcome ParseSeedError Seed :=
  let trimmed := trim value in
  if bool_decide (trimmed = []) then Fail parse_seed_error
  else
    let hex := match strip_prefix (bytes_of "0x") trimmed with
               | Some hex => Some hex
               | None => strip_prefix (bytes_of "0X") trimmed
               end in
    let parsed := match hex with
                  | None => parse_uint u64_max trimmed
                  | Some hex => from_str_radix 16 u64_max hex
                  end in
    match parsed with
    | Some v => Ret {| seed_value := v |}
    | None => Fail parse_seed_error
    end.

(** ** The generator *)
Record DeterministicRng := { rng_state : Z }.

Definition from_seed (s : Seed) : DeterministicRng := {| rng_state := mix (seed_value s) |}.

Definition fork (rng : DeterministicRng) (name : str) : DeterministicRng :=
  from_seed (derive {| seed_value := rng_state rng |} name).

Definition next_u64 (rng : DeterministicRng) : Z * DeterministicRng :=
  let state := wrapping_add64 (rng_state rng) gamma in
  (mix state, {| rng_state := state |}).

Section draws.
Context {E : Type}.

(** One round of the [loop] of [below]. *)
Definition below_round (upper zone : Z) (rng : DeterministicRng)
    : DeterministicRng + (Z * DeterministicRng) :=
  let '(value, rng) := next_u64 rng in
  if value <? zone then inr (value mod upper, rng) else inl rng.

Definition below_zone (upper : Z) : Z := u64_max - u64_max mod upper.

Definition below (upper : Z) : stm DeterministicRng E (option Z) := λ rng,
  if upper =? 0 then (Ret None, rng)
  else
    match iter_until (2 ^ 64) (below_round upper (below_zone upper)) rng with
    | inr (value, rng) => (Ret (Some value), rng)
    | inl rng => (Timeout, rng)
    end.

Definition chance (numerator denominator : Z) : stm DeterministicRng E bool :=
  if denominator =? 0 then mret false
  else if denominator <=? numerator then mret true
  else
    value ← below denominator;
    mret match value with Some value => value <? numerator | None => false end.

(** [for chunk in output.chunks_mut(8)] *)
Fixpoint fill_chunks (output : list bytes) (rng : DeterministicRng) : list bytes * DeterministicRng :=
  match output with
  | [] => ([], rng)
  | chunk :: output =>
    let '(value, rng) := next_u64 rng in
    let '(output, rng) := fill_chunks output rng in
    (take (length chunk) (le_bytes 8 value) :: output, rng)
  end.
Definition fill_bytes (output : bytes) (rng : DeterministicRng) : bytes * DeterministicRng :=
  let '(output, rng) := fill_chunks (chunks 8 output) rng in (concat output, rng).

(** [for index in indices] *)
Fixpoint shuffle_loop {T} (indices : list nat) (values : list T)
    : stm DeterministicRng E (list T) :=
  match indices with
  | [] => mret values
  | index :: indices =>
    selected ← below (Z.of_nat (index + 1));
    match selected with
    | None => shuffle_loop indices values
    | Some selected =>
      values ← stm_lift (swap_at values index (Z.to_nat selected));
      shuffle_loop indices values
    end
  end.
Definition shuffle {T} (values : list T) : stm DeterministicRng E (list T) :=
  shuffle_loop (reverse (seq 1 (length values - 1))) values.

Definition choice {T} (values : list T) : stm DeterministicRng E (option T) :=
  index ← below (zlen values);
  mret match index with Some index => get_at values index | None => None end.
End draws.

(** ** The finalizer is a bijection *)

Definition unxorshift (s y : Z) : Z :=
  Z.lxor (Z.lxor y (Z.shiftr y s)) (Z.shiftr y (s + s)).

Definition unmix (value : Z) : Z :=
  let value := wrapping_mul64 (unxorshift 31 value) 0x319642b2d24d8ec3 in
  let value := wrapping_mul64 (unxorshift 27 value) 0x96de1b173f119089 in
  unxorshift 30 value.

Lemma is_u64_pow z : is_u64 z ↔ 0 <= z < 2 ^ 64.
Proof. done. Qed.

Lemma shiftr_u64 z s : 0 <= s → is_u64 z → is_u64 (Z.shiftr z s).
Proof.
  intros Hs [H1 H2]. split; [by apply Z.shiftr_nonneg|].
  rewrite Z.shiftr_div_pow2 by done. apply Z.div_lt_upper_bound; [lia|].
  assert (0 < 2 ^ s) by lia. nia.
Qed.

Lemma xorshift_u64 z s : 0 <= s → is_u64 z → is_u64 (Z.lxor z (Z.shiftr z s)).
Proof. intros Hs Hz. apply (lxor_below _ _ 64); [done|done|by apply shiftr_u64]. Qed.

Lemma unxorshift_u64 z s : 0 <= s → is_u64 z → is_u64 (unxorshift s z).
Proof.
  intros Hs Hz. apply (lxor_below _ _ 64); [done|by apply xorshift_u64|apply shiftr_u64; [lia|done]].
Qed.

Lemma shiftr_thrice z s : 22 <= s → is_u64 z → Z.shiftr z (s + (s + s)) = 0.
Proof.
  intros Hs [Hz1 Hz2]. apply below_shiftr; [lia|done|].
  eapply Z.lt_le_trans; [exact Hz2|]. apply (Z.pow_le_mono_r 2 64); lia.
Qed.

Ltac lxor_cancel :=
  apply Z.bits_inj'; intros ? _; rewrite !Z.lxor_spec, ?Z.bits_0;
  repeat match goal with |- context [Z.testbit ?z ?n] => destruct (Z.testbit z n) end; done.

Lemma unxorshift_l z s :
  22 <= s → is_u64 z → unxorshift s (Z.lxor z (Z.shiftr z s)) = z.
Proof.
  intros Hs Hz. unfold unxorshift. rewrite !Z.shiftr_lxor, !Z.shiftr_shiftr by lia.
  rewrite shiftr_thrice by done. lxor_cancel.
Qed.

Lemma unxorshift_r z s :
  22 <= s → is_u64 z → Z.lxor (unxorshift s z) (Z.shiftr (unxorshift s z) s) = z.
Proof.
  intros Hs Hz. unfold unxorshift. rewrite !Z.shiftr_lxor, !Z.shiftr_shiftr by lia.
  replace (s + s + s) with (s + (s + s)) by lia. rewrite shiftr_thrice by done. lxor_cancel.
Qed.

Lemma wrapping_mul_inv a b z :
  wrapping_mul64 a b = 1 → is_u64 z → wrapping_mul64 (wrapping_mul64 z a) b = z.
Proof.
  unfold wrapping_mul64, wrap64. intros Hab Hz.
  rewrite Z.mul_mod_idemp_l, <-Z.mul_assoc, <-Z.mul_mod_idemp_r, Hab, Z.mul_1_r by done.
  by apply Z.mod_small.
Qed.

Lemma inverse_1 : wrapping_mul64 0xbf58476d1ce4e5b9 0x96de1b173f119089 = 1.
Proof. by vm_compute. Qed.
Lemma inverse_2 : wrapping_mul64 0x94d049bb133111eb 0x319642b2d24d8ec3 = 1.
Proof. by vm_compute. Qed.
Lemma inverse_1' : wrapping_mul64 0x96de1b173f119089 0xbf58476d1ce4e5b9 = 1.
Proof. by vm_compute. Qed.
Lemma inverse_2' : wrapping_mul64 0x319642b2d24d8ec3 0x94d049bb133111eb = 1.
Proof. by vm_compute. Qed.

Lemma wrapping_mul_u64 a b : is_u64 (wrapping_mul64 a b).
Proof. apply wrap64_range. Qed.

Lemma mix_u64 z : is_u64 (mix z).
Proof. apply xorshift_u64; [done|apply wrapping_mul_u64]. Qed.

Lemma unmix_u64 z : is_u64 (unmix z).
Proof. apply unxorshift_u64; [done|apply wrapping_mul_u64]. Qed.

Lemma unmix_mix z : is_u64 z → unmix (mix z) = z.
Proof.
  intros Hz. unfold unmix, mix. assert (is_u64 (Z.lxor z (Z.shiftr z 30))) by (by apply xorshift_u64).
  set (x := Z.lxor z (Z.shiftr z 30)) in *.
  set (y := wrapping_mul64 x 0xbf58476d1ce4e5b9). assert (is_u64 y) by apply wrapping_mul_u64.
  rewrite unxorshift_l, (wrapping_mul_inv _ _ _ inverse_2), unxorshift_l
    by (done || apply wrapping_mul_u64 || by apply xorshift_u64).
  unfold y. rewrite (wrapping_mul_inv _ _ _ inverse_1) by done. by apply unxorshift_l.
Qed.

Lemma mix_unmix z : is_u64 z → mix (unmix z) = z.
Proof.
  intros Hz. unfold unmix, mix. assert (is_u64 (unxorshift 31 z)) by (by apply unxorshift_u64).
  set (x := unxorshift 31 z) in *.
  set (y := wrapping_mul64 x 0x319642b2d24d8ec3). assert (is_u64 y) by apply wrapping_mul_u64.
  rewrite unxorshift_r, (wrapping_mul_inv _ _ _ inverse_1'), unxorshift_r
    by (done || apply wrapping_mul_u64 || by apply unxorshift_u64).
  unfold y. rewrite (wrapping_mul_inv _ _ _ inverse_2') by done. by apply unxorshift_r.
Qed.

(** ** The stream of the generator *)

(** The state after [k] calls of [next_u64], and what call [k] returns. *)
Definition state_at (rng : DeterministicRng) (k : Z) : Z := wrap64 (rng_state rng + k * gamma).
Definition output_at (rng : DeterministicRng) (k : Z) : Z := mix (state_at rng (k + 1)).

Lemma next_u64_stream rng :
  next_u64 rng = (output_at rng 0, {| rng_state := state_at rng 1 |}).
Proof. done. Qed.

Lemma state_at_next rng j k :
  state_at {| rng_state := state_at rng j |} k = state_at rng (j + k).
Proof.
  unfold state_at, wrap64; simpl. rewrite Zplus_mod_idemp_l. f_equal. lia.
Qed.

Lemma output_at_next rng j k :
  output_at {| rng_state := state_at rng j |} k = output_at rng (j + k).
Proof. unfold output_at. rewrite state_at_next. do 2 f_equal. lia. Qed.

(** The generator after its first step: its [k]-th state is what call [k] mixes. *)
Definition after_one (rng : DeterministicRng) : DeterministicRng := {| rng_state := state_at rng 1 |}.

Lemma output_at_after rng k : output_at rng k = mix (state_at (after_one rng) k).
Proof. unfold output_at, after_one. rewrite state_at_next. do 2 f_equal. lia. Qed.

Definition gamma_inverse : Z := 0xf1de83e19937733d.

(** The step the orbit of [rng] is at [target]. *)
Definition step_of (rng : DeterministicRng) (target : Z) : Z :=
  wrap64 ((target - rng_state rng) * gamma_inverse).

Lemma gamma_inverse_spec : ∃ q, gamma_inverse * gamma = q * u64_modulus + 1.
Proof. exists (gamma_inverse * gamma / u64_modulus). by vm_compute. Qed.

Lemma wrap64_gamma_cancel d : wrap64 (d * (gamma_inverse * gamma)) = wrap64 d.
Proof.
  destruct gamma_inverse_spec as [q ->]. unfold wrap64.
  replace (d * (q * u64_modulus + 1)) with (d + d * q * u64_modulus) by lia.
  by rewrite Z.mod_add.
Qed.

Lemma state_at_step_of rng target : is_u64 target → state_at rng (step_of rng target) = target.
Proof.
  intros Ht. unfold state_at, step_of. unfold wrap64 at 1.
  rewrite <-Zplus_mod_idemp_r. unfold wrap64. rewrite Zmult_mod_idemp_l.
  rewrite <-Z.mul_assoc. fold (wrap64 ((target - rng_state rng) * (gamma_inverse * gamma))).
  rewrite wrap64_gamma_cancel. unfold wrap64. rewrite Zplus_mod_idemp_r, Zplus_minus. by apply Z.mod_small.
Qed.

Lemma step_of_state_at rng k : 0 <= k < u64_modulus → step_of rng (state_at rng k) = k.
Proof.
  intros Hk. unfold state_at, step_of. unfold wrap64 at 1.
  rewrite <-Zmult_mod_idemp_l. unfold wrap64. rewrite Zminus_mod_idemp_l, Zmult_mod_idemp_l.
  replace ((rng_state rng + k * gamma - rng_state rng) * gamma_inverse)
    with (k * (gamma_inverse * gamma)) by lia.
  fold (wrap64 (k * (gamma_inverse * gamma))). rewrite wrap64_gamma_cancel. by apply Z.mod_small.
Qed.

(** ** Rejection sampling *)

Lemma below_zone_spec upper : is_u64 upper → upper ≠ 0 →
  0 < below_zone upper <= u64_max ∧ (upper | below_zone upper).
Proof.
  unfold is_u64, below_zone. intros Hu Hne.
  pose proof (Z.mod_pos_bound u64_max upper ltac:(lia)).
  assert (u64_max mod upper < u64_max).
  { destruct (decide (upper = u64_max)) as [->|]; [done|].
    assert (u64_modulus = u64_max + 1) by done. lia. }
  assert (0 <= u64_max mod upper) by lia. split; [split; lia|]. exists (u64_max / upper).
  pose proof (Z.div_mod u64_max upper ltac:(lia)). lia.
Qed.

Lemma below_rounds upper zone rng n :
  (∃ k, (k < n)%nat ∧ output_at rng (Z.of_nat k) < zone) →
  ∃ k, (k < n)%nat ∧ (∀ j, (j < k)%nat → zone <= output_at rng (Z.of_nat j)) ∧
    output_at rng (Z.of_nat k) < zone ∧
    iter_nat n (below_round upper zone) rng =
      inr (output_at rng (Z.of_nat k) mod upper, {| rng_state := state_at rng (Z.of_nat k + 1) |}).
Proof.
  revert rng. induction n as [|n IH]; intros rng (k & Hk & Hout); [lia|].
  cbn [iter_nat]. unfold below_round at 1. rewrite next_u64_stream.
  destruct (Z.ltb_spec (output_at rng 0) zone) as [Hz|Hz].
  { exists 0%nat. split_and!; [lia|lia|done|done]. }
  destruct k as [|k]; [change (Z.of_nat 0) with 0 in Hout; lia|].
  destruct (IH {| rng_state := state_at rng 1 |}) as (k' & Hk' & Hbefore & Hk'out & ->).
  { exists k. split; [lia|]. rewrite output_at_next. by replace (1 + Z.of_nat k) with (Z.of_nat (S k)) by lia. }
  rewrite output_at_next in Hk'out |- *. rewrite state_at_next.
  exists (S k'). replace (Z.of_nat (S k')) with (1 + Z.of_nat k') by lia. split_and!; [lia| |done|].
  - intros [|j] Hj; [done|]. specialize (Hbefore j ltac:(lia)). rewrite output_at_next in Hbefore.
    by replace (Z.of_nat (S j)) with (1 + Z.of_nat j) by lia.
  - do 3 f_equal; first [lia | f_equal; lia].
Qed.

(** Some round is accepted within a period, whatever the zone. *)
Lemma below_accepts rng zone : 0 < zone →
  ∃ k, (k < Pos.to_nat (2 ^ 64))%nat ∧ output_at rng (Z.of_nat k) < zone.
Proof.
  intros Hz. assert (Hk : is_u64 (step_of (after_one rng) 0)) by apply wrap64_range.
  set (k := step_of (after_one rng) 0) in *. destruct Hk as [Hk1 Hk2].
  exists (Z.to_nat k). split.
  - apply Nat2Z.inj_lt. by rewrite Z2Nat.id, positive_nat_Z.
  - rewrite Z2Nat.id, output_at_after by done. unfold k. by rewrite state_at_step_of.
Qed.

Lemma below_run {E} upper rng : is_u64 upper → upper ≠ 0 →
  ∃ k, (∀ j, (j < k)%nat → below_zone upper <= output_at rng (Z.of_nat j)) ∧
    output_at rng (Z.of_nat k) < below_zone upper ∧
    @below E upper rng = (Ret (Some (output_at rng (Z.of_nat k) mod upper)),
                          {| rng_state := state_at rng (Z.of_nat k + 1) |}).
Proof.
  intros Hu Hne. destruct (below_zone_spec upper Hu Hne) as [[Hz _] _].
  destruct (below_rounds upper (below_zone upper) rng _ (below_accepts rng _ Hz))
    as (k & _ & Hbefore & Hk & Hrun).
  exists k. split_and!; [done..|]. unfold below.
  rewrite (proj2 (Z.eqb_neq _ _)) by done. by rewrite iter_until_nat, Hrun.
Qed.

(** ** Shuffling *)

Lemma swap_at_ok {E' A} (l : list A) i j :
  (i < length l)%nat → (j < length l)%nat →
  ∃ l', @swap_at E' A l i j = Ret l' ∧ l' ≡ₚ l.
Proof.
  intros Hi Hj. unfold swap_at.
  destruct (lookup_lt_is_Some_2 l i Hi) as [x Hx], (lookup_lt_is_Some_2 l j Hj) as [y Hy].
  rewrite Hx, Hy. eexists. split; [done|].
  destruct (decide (i = j)) as [->|Hne].
  - simplify_eq. by rewrite list_insert_insert_eq, list_insert_id.
  - apply Permutation_inj. split; [by rewrite !length_insert|].
    exists (λ k, if decide (k = i) then j else if decide (k = j) then i else k). split.
    + intros a b. repeat case_decide; congruence.
    + intros k. repeat case_decide; subst.
      * by rewrite list_lookup_insert_eq, Hy by (by rewrite length_insert).
      * by rewrite list_lookup_insert_ne, list_lookup_insert_eq, Hx.
      * by rewrite !list_lookup_insert_ne.
Qed.

Lemma below_index {E} rng n : (0 < n)%nat → Z.of_nat n <= u64_max →
  ∃ v rng', @below E (Z.of_nat n) rng = (Ret (Some v), rng') ∧ (Z.to_nat v < n)%nat ∧ 0 <= v < Z.of_nat n.
Proof.
  intros Hn Hmax. assert (Hu : is_u64 (Z.of_nat n)).
  { split; [lia|]. assert (u64_modulus = u64_max + 1) by done. lia. }
  destruct (below_run (E:=E) (Z.of_nat n) rng Hu ltac:(lia)) as (k & _ & _ & Hrun).
  pose proof (Z.mod_pos_bound (output_at rng (Z.of_nat k)) (Z.of_nat n) ltac:(lia)).
  do 2 eexists. split_and!; [done|lia..].
Qed.

Lemma shuffle_loop_permutes {E T} indices (values : list T) rng :
  Forall (λ i, i < length values)%nat indices → zlen values <= u64_max →
  ∃ values' rng', @shuffle_loop E T indices values rng = (Ret values', rng') ∧ values' ≡ₚ values.
Proof.
  revert values rng. induction indices as [|i indices IH]; intros values rng Hi Hmax.
  { by exists values, rng. }
  apply Forall_cons in Hi as [Hi Hrest]. unfold zlen in Hmax. cbn [shuffle_loop].
  destruct (below_index (E:=E) rng (i + 1)) as (v & rng1 & Hrun & Hv & _); [lia..|].
  unfold mbind at 1, stm_bind. rewrite Hrun.
  destruct (swap_at_ok (E':=E) values i (Z.to_nat v)) as (values1 & Hswap & Hperm); [lia..|].
  unfold mbind, stm_bind, stm_lift. rewrite Hswap.
  rewrite <-(Permutation_length Hperm) in Hrest, Hmax.
  destruct (IH values1 rng1) as (values2 & rng2 & -> & Hperm2); [done..|].
  do 2 eexists. split; [done|]. by rewrite Hperm2.
Qed.

(** ** Seeds *)

Lemma digits_value_app radix max acc s1 s2 :
  digits_value radix max acc (s1 ++ s2) =
  acc ← digits_value radix max acc s1; digits_value radix max acc s2.
Proof.
  revert acc. induction s1 as [|c s1 IH]; intros acc; simpl; [done|].
  destruct (to_digit radix c); simpl; [|done]. case_match; [apply IH|done].
Qed.

Lemma to_digit_hex d : 0 <= d < 16 → to_digit 16 (hex_digit d) = Some d.
Proof. apply (forall_below 16 (λ d, to_digit 16 (hex_digit d) = Some d)). by vm_compute. Qed.

Lemma hex_digit_char d : 0 <= d < 16 → is_whitespace (hex_digit d) = false ∧ hex_digit d ≠ 43.
Proof.
  apply (forall_below 16 (λ d, is_whitespace (hex_digit d) = false ∧ hex_digit d ≠ 43)). by vm_compute.
Qed.

Lemma land_15_range z : 0 <= Z.land z 15 < 16.
Proof. rewrite land_15. by apply Z.mod_pos_bound. Qed.

Lemma digits_value_hex n z acc max :
  0 <= acc → acc * 16 ^ Z.of_nat n + z mod 16 ^ Z.of_nat n <= max →
  digits_value 16 max acc (hex_digits n z) = Some (acc * 16 ^ Z.of_nat n + z mod 16 ^ Z.of_nat n).
Proof.
  revert z acc. induction n as [|n IH]; intros z acc Hacc Hmax.
  { simpl. rewrite Z.mod_1_r. f_equal. lia. }
  rewrite Nat2Z.inj_succ, Z.pow_succ_r in Hmax |- * by lia.
  rewrite Z.rem_mul_r in Hmax |- * by lia. cbn [hex_digits].
  rewrite digits_value_app, Z.shiftr_div_pow2 by lia. change (2 ^ 4) with 16.
  pose proof (Z.mod_pos_bound z 16 ltac:(lia)).
  set (p := 16 ^ Z.of_nat n) in *.
  assert (0 < p) by (unfold p; lia).
  pose proof (Z.mod_pos_bound (z / 16) p ltac:(lia)).
  rewrite IH by nia. cbn [mbind option_bind digits_value].
  rewrite to_digit_hex by apply land_15_range. cbn [mbind option_bind].
  rewrite land_15, (proj2 (Z.leb_le _ _)) by nia. f_equal. nia.
Qed.

Lemma trim_no_edges c s d :
  is_whitespace c = false → is_whitespace d = false → trim (c :: s ++ [d]) = c :: s ++ [d].
Proof.
  intros Hc Hd. unfold trim, trim_end. cbn [trim_start]. rewrite Hc.
  rewrite app_comm_cons, reverse_snoc. cbn [trim_start]. rewrite Hd.
  by rewrite <-reverse_snoc, reverse_involutive.
Qed.

Lemma from_str_radix_plain radix max c d s :
  c ≠ 43 → from_str_radix radix max (c :: d :: s) = digits_value radix max 0 (c :: d :: s).
Proof. intros Hc. unfold from_str_radix. by repeat case_match; simplify_eq. Qed.

Lemma hex_digits_cons n z : ∃ d s, 0 <= d < 16 ∧ hex_digits (S n) z = hex_digit d :: s ∧ length s = n.
Proof.
  revert z. induction n as [|n IH]; intros z.
  { exists (Z.land z 15), []. split_and!; [apply land_15_range..|done|done]. }
  destruct (IH (Z.shiftr z 4)) as (d & s & Hd & Hs & Hlen).
  exists d, (s ++ [hex_digit (Z.land z 15)]). split; [done|].
  change (hex_digits (S (S n)) z) with (hex_digits (S n) (Z.shiftr z 4) ++ [hex_digit (Z.land z 15)]).
  rewrite Hs, length_app, Hlen. simpl. split; [done|lia].
Qed.

(** ** Theorems *)

(** the generator has full period.  From every state, every 64-bit value is the result of
    exactly one of the next [2 ^ 64] calls of [next_u64], so no value is favoured and the
    rejection loop of [below] cannot run for ever. *)
Theorem next_u64_full_period (rng : DeterministicRng) (value : Z) :
  is_u64 value →
  ∃ k, 0 <= k < 2 ^ 64 ∧ output_at rng k = value ∧
    ∀ j, 0 <= j < 2 ^ 64 → output_at rng j = value → j = k.
Proof.
  intros Hv. exists (step_of (after_one rng) (unmix value)). split; [apply wrap64_range|].
  rewrite output_at_after. rewrite state_at_step_of by apply unmix_u64. split; [by apply mix_unmix|].
  intros j Hj Hout. rewrite output_at_after in Hout.
  rewrite <-Hout, unmix_mix by apply wrap64_range. by rewrite step_of_state_at.
Qed.

Lemma next_u64_full_period_witness :
  is_u64 42 ∧ ∃ k, 0 <= k < 2 ^ 64 ∧ output_at {| rng_state := 7 |} k = 42.
Proof.
  split; [done|]. destruct (next_u64_full_period {| rng_state := 7 |} 42) as (k & Hk & Hout & _); [done|].
  by exists k.
Defined.

(** [below] returns from every state, and its result is in range and unbiased.  It skips
    the outputs of the generator above a multiple of [upper], and reduces the first one below
    it; for [upper = 0] it draws nothing. *)
Theorem below_spec {E} (upper : Z) (rng : DeterministicRng) :
  is_u64 upper →
  if decide (upper = 0) then @below E upper rng = (Ret None, rng)
  else ∃ k, @below E upper rng =
        (Ret (Some (output_at rng (Z.of_nat k) mod upper)), {| rng_state := state_at rng (Z.of_nat k + 1) |}) ∧
      0 <= output_at rng (Z.of_nat k) mod upper < upper ∧
      (upper | below_zone upper) ∧ output_at rng (Z.of_nat k) < below_zone upper ∧
      ∀ j, (j < k)%nat → below_zone upper <= output_at rng (Z.of_nat j).
Proof.
  intros Hu. case_decide as Hz; [by subst|].
  destruct (below_run (E:=E) upper rng Hu Hz) as (k & Hbefore & Hk & Hrun).
  exists k. split_and!; [done| | |by apply below_zone_spec|done|done];
    apply Z.mod_pos_bound; unfold is_u64 in Hu; lia.
Qed.

Lemma below_spec_witness :
  is_u64 10 ∧ ∃ v rng', @below Empty_set 10 {| rng_state := 1 |} = (Ret (Some v), rng') ∧ 0 <= v < 10.
Proof.
  split; [done|]. destruct (below_spec (E:=Empty_set) 10 {| rng_state := 1 |}) as (k & Hrun & Hv & _); [done|].
  do 2 eexists. split; [exact Hrun|exact Hv].
Defined.

(** [shuffle] never panics, terminates, and returns a permutation of the values. *)
Theorem shuffle_permutes {E T} (values : list T) (rng : DeterministicRng) :
  zlen values <= u64_max →
  ∃ values' rng', @shuffle E T values rng = (Ret values', rng') ∧ values' ≡ₚ values.
Proof.
  intros Hmax. apply shuffle_loop_permutes; [|done].
  apply Forall_reverse, Forall_forall. intros i Hi%elem_of_seq. lia.
Qed.

Lemma shuffle_permutes_witness :
  ∃ values' rng', @shuffle Empty_set Z [1; 2; 3; 4; 5] {| rng_state := 3 |} = (Ret values', rng') ∧
    values' ≡ₚ [1; 2; 3; 4; 5].
Proof. apply shuffle_permutes. by vm_compute. Defined.

(** a seed that is displayed parses back to itself. *)
Theorem seed_roundtrip (s : Seed) :
  is_u64 (seed_value s) → seed_from_str (seed_to_string s) = Ret s.
Proof.
  destruct s as [v]. intros Hv. cbn [seed_value] in Hv. unfold seed_from_str, seed_to_string. cbn [seed_value].
  destruct (hex_digits_cons 14 (Z.shiftr v 4)) as (d & ds & Hd & Hds & _).
  set (z := hex_digit (Z.land v 15)).
  assert (Hhex : hex_digits 16 v = (hex_digit d :: ds) ++ [z])
    by (unfold z; rewrite <-Hds; reflexivity).
  assert (Htrim : trim (bytes_of "0x" ++ hex_digits 16 v) = bytes_of "0x" ++ hex_digits 16 v).
  { rewrite Hhex. apply (trim_no_edges 48 (120 :: hex_digit d :: ds) z); [done|].
    apply hex_digit_char, land_15_range. }
  rewrite Htrim. rewrite bool_decide_eq_false_2 by done.
  change (strip_prefix (bytes_of "0x") (bytes_of "0x" ++ hex_digits 16 v)) with (Some (hex_digits 16 v)).
  assert (Hparse : from_str_radix 16 u64_max (hex_digits 16 v) = Some v).
  { transitivity (digits_value 16 u64_max 0 (hex_digits 16 v)).
    - rewrite Hhex. destruct ds as [|d' ds]; apply from_str_radix_plain; by apply hex_digit_char.
    - rewrite digits_value_hex; change (16 ^ Z.of_nat 16) with u64_modulus;
        rewrite ?Z.mod_small by done; unfold is_u64 in Hv; [f_equal; lia|lia|].
      assert (u64_modulus = u64_max + 1) by done. lia. }
  cbv beta iota zeta. by rewrite Hparse.
Qed.

Lemma seed_roundtrip_witness :
  is_u64 3735928559 ∧ seed_to_string {| seed_value := 3735928559 |} = bytes_of "0x00000000deadbeef" ∧
  seed_from_str (bytes_of "0x00000000deadbeef") = Ret {| seed_value := 3735928559 |}.
Proof.
  split; [done|]. split; [done|]. apply (seed_roundtrip {| seed_value := 3735928559 |}). done.
Defined.
