(* ===== verification/FixedTable.v ===== *)
(** * Fixed-capacity tables (src/libs/agentdp-ds/src/fixed_table.rs)

    A [FixedTable] is a vector of slots searched from the front.  [BoundedMap]
    is what the network crate relies on: a finite map that holds at most
    [capacity] keys; [FixedTable] implements it.  [UdpPeers]
    (agentdp-network/src/ingress/udp.rs) is a client, written and verified
    against the interface alone. *)
From S2P Require Import Prelude.

(** ** The interface *)

(** What an operation on a bounded map answers: [insert] hands the value back
    ([Fail]) when the map is full. *)
Class BoundedMap (T K V : Type) := {
  bm_empty : nat → T;
  bm_insert : K → V → stm T V (option V);
  bm_get : K → T → option V;
  bm_remove : K → T → option V * T;
  bm_len : T → nat;
  bm_capacity : T → nat;
}.
Arguments bm_empty {T K V _} _.
Arguments bm_len {T K V _} _.
Arguments bm_capacity {T K V _} _.

(** The map a table stands for, and the laws of the operations on it. *)
Class BoundedMapLaws (T K V : Type) `{Countable K} `{!BoundedMap T K V} := {
  bm_inv : T → Prop;
  bm_map : T → gmap K V;
  bm_empty_inv n : bm_inv (bm_empty n);
  bm_empty_map n : bm_map (bm_empty n) = ∅;
  bm_empty_capacity n : bm_capacity (bm_empty n) = n;
  bm_get_map t k : bm_inv t → bm_get k t = bm_map t !! k;
  bm_len_map t : bm_inv t → bm_len t = size (bm_map t);
  bm_len_capacity t : bm_inv t → bm_len t ≤ bm_capacity t;
  bm_insert_map t k v : bm_inv t →
    match bm_insert k v t with
    | (Ret old, t') => old = bm_map t !! k ∧ bm_inv t' ∧ bm_map t' = <[k := v]> (bm_map t) ∧
        bm_capacity t' = bm_capacity t
    | (Fail v', t') => v' = v ∧ t' = t ∧ bm_map t !! k = None ∧ bm_len t = bm_capacity t
    | _ => False
    end;
  bm_remove_map t k : bm_inv t →
    let '(r, t') := bm_remove k t in
    r = bm_map t !! k ∧ bm_inv t' ∧ bm_map t' = delete k (bm_map t) ∧ bm_capacity t' = bm_capacity t;
}.

(** ** The implementation *)
Section table.
Context {K V : Type} `{Countable K}.

Record FixedTable := { entries : list (option (K * V)) }.

Inductive FixedTableReserveError := KeyExists | Full.

(** The reservation borrows its table: only its slot and key are kept here. *)
Record FixedTableReservation := { reserved_index : nat; reserved_key : K }.

Definition with_capacity (capacity : nat) : FixedTable := {| entries := replicate capacity None |}.

(** [entries.iter_mut().filter_map(Option::as_mut).find(..)] and the replacement of the
    value found: the old value and the entries after. *)
Fixpoint replace_value (key : K) (value : V) (entries : list (option (K * V)))
    : option (V * list (option (K * V))) :=
  match entries with
  | [] => None
  | Some (existing_key, existing_value) :: entries =>
    if decide (existing_key = key)
    then Some (existing_value, Some (existing_key, value) :: entries)
    else '(old, entries) ← replace_value key value entries;
         Some (old, Some (existing_key, existing_value) :: entries)
  | None :: entries =>
    '(old, entries) ← replace_value key value entries; Some (old, None :: entries)
  end.

(** [entries.iter_mut().find(|entry| entry.is_none())] and the assignment to it. *)
Fixpoint fill_vacant (entry : K * V) (entries : list (option (K * V)))
    : option (list (option (K * V))) :=
  match entries with
  | [] => None
  | None :: entries => Some (Some entry :: entries)
  | Some e :: entries => cons (Some e) <$> fill_vacant entry entries
  end.

Definition insert (key : K) (value : V) : stm FixedTable V (option V) := λ t,
  match replace_value key value (entries t) with
  | Some (old, entries) => (Ret (Some old), {| entries := entries |})
  | None =>
    match fill_vacant (key, value) (entries t) with
    | None => (Fail value, t)
    | Some entries => (Ret None, {| entries := entries |})
    end
  end.

(** [get]; [get_mut] finds the same value. *)
Fixpoint find_value (key : K) (entries : list (option (K * V))) : option V :=
  match entries with
  | [] => None
  | Some (existing_key, value) :: entries =>
    if decide (existing_key = key) then Some value else find_value key entries
  | None :: entries => find_value key entries
  end.
Definition get (key : K) (t : FixedTable) : option V := find_value key (entries t).

(** [get_mut] and an assignment through the reference. *)
Definition get_mut_set (key : K) (value : V) (t : FixedTable) : FixedTable :=
  match replace_value key value (entries t) with
  | Some (_, entries) => {| entries := entries |}
  | None => t
  end.

Definition vacant (entry : option (K * V)) : bool :=
  match entry with None => true | Some _ => false end.

Definition reserve_vacant (key : K) (t : FixedTable)
    : outcome FixedTableReserveError FixedTableReservation :=
  match get key t with
  | Some _ => Fail KeyExists
  | None =>
    match position vacant (entries t) with
    | None => Fail Full
    | Some index => Ret {| reserved_index := index; reserved_key := key |}
    end
  end.

(** [FixedTableReservation::insert]: the [debug_assert!] is on. *)
Definition reservation_insert (r : FixedTableReservation) (value : V)
    : stm FixedTable Empty_set unit := λ t,
  match entries t !! reserved_index r with
  | Some None =>
    (Ret tt, {| entries := <[reserved_index r := Some (reserved_key r, value)]> (entries t) |})
  | _ => (Panic, t)
  end.

Fixpoint take_entry (key : K) (entries : list (option (K * V)))
    : option V * list (option (K * V)) :=
  match entries with
  | [] => (None, [])
  | Some (existing_key, value) :: entries =>
    if decide (existing_key = key) then (Some value, None :: entries)
    else let '(r, entries) := take_entry key entries in
         (r, Some (existing_key, value) :: entries)
  | None :: entries => let '(r, entries) := take_entry key entries in (r, None :: entries)
  end.
Definition remove (key : K) (t : FixedTable) : option V * FixedTable :=
  let '(r, entries) := take_entry key (entries t) in (r, {| entries := entries |}).

(** [iter], [values], [keys_into] *)
Fixpoint occupied (entries : list (option (K * V))) : list (K * V) :=
  match entries with
  | [] => []
  | Some e :: entries => e :: occupied entries
  | None :: entries => occupied entries
  end.
Definition iter (t : FixedTable) : list (K * V) := occupied (entries t).
Definition values (t : FixedTable) : list V := (iter t).*2.
Definition keys_into (t : FixedTable) : list K := (iter t).*1.

Definition len (t : FixedTable) : nat :=
  length (filter (λ e, vacant e = false) (entries t)).
Definition is_empty (t : FixedTable) : bool := forallb vacant (entries t).
Definition capacity (t : FixedTable) : nat := length (entries t).

(** ** The table as a finite map *)

Definition to_map (t : FixedTable) : gmap K V := list_to_map (iter t).

(** No key is in two slots. *)
Definition unique_keys (t : FixedTable) : Prop := NoDup (iter t).*1.

Implicit Types (es : list (option (K * V))) (t : FixedTable).

Lemma find_value_map k es : find_value k es = (list_to_map (occupied es) : gmap K V) !! k.
Proof.
  induction es as [|[[k' v]|] es IH]; simpl; [by rewrite lookup_empty| |done].
  case_decide as Hk; [by subst; rewrite lookup_insert_eq|by rewrite lookup_insert_ne].
Qed.

Lemma get_map k t : get k t = to_map t !! k.
Proof. apply find_value_map. Qed.

Lemma find_value_none k es : find_value k es = None → k ∉ (occupied es).*1.
Proof. rewrite find_value_map. by intros ?%not_elem_of_list_to_map. Qed.

Lemma replace_value_spec k v es :
  match replace_value k v es with
  | Some (old, es') => find_value k es = Some old ∧ length es' = length es ∧
      (occupied es').*1 = (occupied es).*1 ∧
      (list_to_map (occupied es') : gmap K V) = <[k := v]> (list_to_map (occupied es))
  | None => find_value k es = None
  end.
Proof.
  induction es as [|[[k' v']|] es IH]; simpl; [done| |].
  - case_decide as Hk; [subst; split_and!; try done; simpl; by rewrite insert_insert_eq|].
    destruct (replace_value k v es) as [[old es']|]; simpl; [|done].
    destruct IH as (? & ? & ? & Hmap). split_and!; try done; [by f_equal..|].
    rewrite Hmap. by apply insert_insert_ne.
  - destruct (replace_value k v es) as [[old es']|]; simpl; [|done]. naive_solver.
Qed.

Lemma fill_vacant_spec k v es :
  find_value k es = None →
  match fill_vacant (k, v) es with
  | Some es' => length es' = length es ∧ (occupied es').*1 ≡ₚ k :: (occupied es).*1 ∧
      (list_to_map (occupied es') : gmap K V) = <[k := v]> (list_to_map (occupied es))
  | None => length (occupied es) = length es
  end.
Proof.
  induction es as [|[[k' v']|] es IH]; simpl; intros Hk; [done| |done].
  case_decide as Hkk; [done|]. specialize (IH Hk).
  destruct (fill_vacant (k, v) es) as [es'|]; simpl; [|by rewrite IH].
  destruct IH as (? & Hperm & Hmap). split_and!; [by f_equal| |].
  - rewrite Hperm. apply Permutation_swap.
  - rewrite Hmap. by apply insert_insert_ne.
Qed.

Lemma take_entry_spec k es :
  NoDup (occupied es).*1 →
  let '(r, es') := take_entry k es in
  r = find_value k es ∧ length es' = length es ∧ (occupied es').*1 ⊆ (occupied es).*1 ∧
  NoDup (occupied es').*1 ∧
  (list_to_map (occupied es') : gmap K V) = delete k (list_to_map (occupied es)).
Proof.
  induction es as [|[[k' v']|] es IH];
    cbn [take_entry occupied find_value fmap list_fmap fst list_to_map foldr snd].
  - intros _. split_and!; [done..|constructor|]. symmetry. apply delete_empty.
  - intros [Hk' Hnd]%NoDup_cons. case_decide as Hk.
    + subst. cbn [occupied length]. split_and!; try done; [set_solver|].
      rewrite delete_insert_eq, delete_id; [done|]. by apply not_elem_of_list_to_map_1.
    + specialize (IH Hnd). destruct (take_entry k es) as [r es'].
      destruct IH as (-> & Hlen & Hsub & Hnd' & Hmap).
      cbn [occupied length fmap list_fmap fst list_to_map foldr snd]. split_and!; [done|by f_equal|set_solver| |].
      * apply NoDup_cons. split; [set_solver|done].
      * rewrite Hmap. by rewrite delete_insert_ne.
  - intros Hnd. specialize (IH Hnd). destruct (take_entry k es) as [r es'].
    destruct IH as (-> & Hlen & Hsub & Hnd' & Hmap). cbn [occupied length]. split_and!; auto.
Qed.

Lemma len_occupied t : len t = length (iter t).
Proof.
  unfold len, iter. induction (entries t) as [|[e|] es IH]; [done|..].
  - rewrite filter_cons_True by done. simpl. by f_equal.
  - by rewrite filter_cons_False.
Qed.

Lemma occupied_length es : length (occupied es) ≤ length es.
Proof. induction es as [|[e|] es IH]; simpl; lia. Qed.

Lemma len_size t : unique_keys t → len t = size (to_map t).
Proof.
  intros Hu. rewrite len_occupied. unfold to_map. by rewrite map_size_list_to_map.
Qed.

Lemma occupied_replicate n : occupied (replicate n None) = [].
Proof. induction n; simpl; auto. Qed.

Lemma insert_spec t k v :
  unique_keys t →
  match insert k v t with
  | (Ret old, t') => old = to_map t !! k ∧ unique_keys t' ∧ to_map t' = <[k := v]> (to_map t) ∧
      capacity t' = capacity t
  | (Fail v', t') => v' = v ∧ t' = t ∧ to_map t !! k = None ∧ len t = capacity t
  | _ => False
  end.
Proof.
  intros Hu. unfold insert. pose proof (replace_value_spec k v (entries t)) as Hr.
  destruct (replace_value k v (entries t)) as [[old es']|].
  - destruct Hr as (Hold & Hlen & Hkeys & Hmap). unfold unique_keys, to_map, capacity, iter in *. simpl.
    rewrite Hkeys, Hmap, <-find_value_map. done.
  - pose proof (fill_vacant_spec k v (entries t) Hr) as Hf.
    destruct (fill_vacant (k, v) (entries t)) as [es'|].
    + destruct Hf as (Hlen & Hperm & Hmap). unfold unique_keys, to_map, capacity, iter in *. simpl.
      rewrite Hperm, Hmap, <-find_value_map. split_and!; try done.
      apply NoDup_cons. split; [by apply find_value_none|done].
    + rewrite <-get_map, len_occupied. done.
Qed.

Lemma remove_spec t k :
  unique_keys t →
  let '(r, t') := remove k t in
  r = to_map t !! k ∧ unique_keys t' ∧ to_map t' = delete k (to_map t) ∧ capacity t' = capacity t.
Proof.
  intros Hu. unfold remove. pose proof (take_entry_spec k (entries t) Hu) as Ht.
  destruct (take_entry k (entries t)) as [r es'].
  destruct Ht as (-> & Hlen & _ & Hnd & Hmap). split_and!; try done. apply get_map.
Qed.

Lemma get_mut_set_spec t k v :
  unique_keys t →
  unique_keys (get_mut_set k v t) ∧ capacity (get_mut_set k v t) = capacity t ∧
  to_map (get_mut_set k v t) = (if decide (is_Some (to_map t !! k)) then <[k := v]> (to_map t) else to_map t).
Proof.
  intros Hu. unfold get_mut_set. pose proof (replace_value_spec k v (entries t)) as Hr.
  destruct (replace_value k v (entries t)) as [[old es']|].
  - destruct Hr as (Hold & Hlen & Hkeys & Hmap). unfold unique_keys, to_map, capacity, iter in *. simpl.
    rewrite Hkeys, Hmap, <-find_value_map, Hold. rewrite decide_True by eauto. done.
  - split_and!; try done. rewrite <-get_map. unfold get. by rewrite Hr, decide_False by (by intros [? ?]).
Qed.

(** A reservation that succeeds names the slot an [insert] would fill. *)
Lemma position_vacant_fill e es :
  match position vacant es with
  | Some i => es !! i = Some None ∧ fill_vacant e es = Some (<[i := Some e]> es)
  | None => fill_vacant e es = None
  end.
Proof.
  induction es as [|[e'|] es IH]; simpl; [done| |done].
  destruct (position vacant es); simpl; [|by rewrite IH]. destruct IH as [? ->]. done.
Qed.

Lemma reserve_insert t k v :
  match reserve_vacant k t with
  | Ret r => ∃ t', reservation_insert r v t = (Ret tt, t') ∧ insert k v t = (Ret None, t')
  | Fail KeyExists => is_Some (to_map t !! k)
  | Fail Full => to_map t !! k = None ∧ insert k v t = (Fail v, t)
  | _ => False
  end.
Proof.
  unfold reserve_vacant, insert. pose proof (replace_value_spec k v (entries t)) as Hr.
  rewrite <-get_map. destruct (get k t) as [x|] eqn:Hg; [by eexists|]. unfold get in Hg.
  destruct (replace_value k v (entries t)) as [[? ?]|]; [naive_solver|].
  pose proof (position_vacant_fill (k, v) (entries t)) as Hp.
  destruct (position vacant (entries t)) as [i|]; simpl.
  - destruct Hp as [Hi ->]. unfold reservation_insert. simpl. rewrite Hi. eauto.
  - by rewrite Hp.
Qed.
End table.
Arguments FixedTable : clear implicits.

#[export] Instance fixed_table_map {K V} `{Countable K} : BoundedMap (FixedTable K V) K V := {
  bm_empty := with_capacity;
  bm_insert := insert;
  bm_get := get;
  bm_remove := remove;
  bm_len := len;
  bm_capacity := capacity;
}.

#[export] Program Instance fixed_table_laws {K V} `{Countable K} :
  BoundedMapLaws (FixedTable K V) K V := {
  bm_inv := unique_keys;
  bm_map := to_map;
}.
Next Obligation. intros. unfold unique_keys, iter. simpl. rewrite occupied_replicate. constructor. Qed.
Next Obligation. intros. unfold to_map, iter. simpl. by rewrite occupied_replicate. Qed.
Next Obligation. intros. apply length_replicate. Qed.
Next Obligation. intros. apply get_map. Qed.
Next Obligation. intros. by apply len_size. Qed.
Next Obligation. intros. simpl. rewrite len_occupied. apply occupied_length. Qed.
Next Obligation. intros. by apply insert_spec. Qed.
Next Obligation. intros. by apply remove_spec. Qed.

(** ** Runs of operations

    A table and the map it stands for are driven by the same operations; a
    client of the table sees what a client of the map sees. *)
Section runs.
Context {K V : Type} `{Countable K}.

Inductive table_op :=
| OpInsert (k : K) (v : V)
| OpRemove (k : K)
| OpGet (k : K)
| OpSet (k : K) (v : V)
| OpReserve (k : K) (v : V)
| OpLen.

Inductive table_reply :=
| ReplyInsert (r : outcome V (option V))
| ReplyValue (r : option V)
| ReplySet
| ReplyReserve (r : outcome FixedTableReserveError unit)
| ReplyLen (n : nat).

Definition run_op (op : table_op) (t : FixedTable K V) : table_reply * FixedTable K V :=
  match op with
  | OpInsert k v => let '(r, t) := insert k v t in (ReplyInsert r, t)
  | OpRemove k => let '(r, t) := remove k t in (ReplyValue r, t)
  | OpGet k => (ReplyValue (get k t), t)
  | OpSet k v => (ReplySet, get_mut_set k v t)
  | OpReserve k v =>
    match reserve_vacant k t with
    | Ret r =>
      match reservation_insert r v t with
      | (Ret _, t) => (ReplyReserve (Ret tt), t)
      | (_, t) => (ReplyReserve Panic, t)
      end
    | Fail e => (ReplyReserve (Fail e), t)
    | Panic => (ReplyReserve Panic, t)
    | Timeout => (ReplyReserve Timeout, t)
    end
  | OpLen => (ReplyLen (len t), t)
  end.

(** The specification: a map of at most [cap] keys. *)
Definition spec_op (cap : nat) (op : table_op) (m : gmap K V) : table_reply * gmap K V :=
  match op with
  | OpInsert k v =>
    if decide (m !! k = None ∧ size m = cap) then (ReplyInsert (Fail v), m)
    else (ReplyInsert (Ret (m !! k)), <[k := v]> m)
  | OpRemove k => (ReplyValue (m !! k), delete k m)
  | OpGet k => (ReplyValue (m !! k), m)
  | OpSet k v => (ReplySet, if decide (is_Some (m !! k)) then <[k := v]> m else m)
  | OpReserve k v =>
    if decide (is_Some (m !! k)) then (ReplyReserve (Fail KeyExists), m)
    else if decide (size m = cap) then (ReplyReserve (Fail Full), m)
    else (ReplyReserve (Ret tt), <[k := v]> m)
  | OpLen => (ReplyLen (size m), m)
  end.

Fixpoint run {A} (f : table_op → A → table_reply * A) (ops : list table_op) (s : A)
    : list table_reply * A :=
  match ops with
  | [] => ([], s)
  | op :: ops => let '(r, s) := f op s in let '(rs, s) := run f ops s in (r :: rs, s)
  end.

Definition table_related (cap : nat) (t : FixedTable K V) (m : gmap K V) : Prop :=
  unique_keys t ∧ to_map t = m ∧ capacity t = cap.

Lemma table_related_size cap t m : table_related cap t m → len t = size m ∧ size m ≤ cap.
Proof.
  intros (Hu & <- & <-). rewrite <-len_size by done. split; [done|].
  rewrite len_occupied. apply occupied_length.
Qed.

Lemma insert_related cap t m k v :
  table_related cap t m →
  let '(r, t') := insert k v t in
  let '(rs, m') := spec_op cap (OpInsert k v) m in
  ReplyInsert r = rs ∧ table_related cap t' m'.
Proof.
  intros Hrel. destruct (table_related_size cap t m Hrel) as [Hsize Hcap].
  destruct Hrel as (Hu & <- & Hc). pose proof (insert_spec t k v Hu) as Hi.
  cbn [spec_op]. destruct (insert k v t) as [[old|v'| |] t'] eqn:Hrun; [| |done..].
  - destruct Hi as (-> & Hu' & Hm' & Hc'). rewrite decide_False.
    + unfold table_related. rewrite Hm', Hc'. done.
    + intros [Hk Hfull]. unfold insert in Hrun.
      pose proof (replace_value_spec k v (entries t)) as Hr. rewrite <-get_map in Hk. unfold get in Hk.
      destruct (replace_value k v (entries t)) as [[? ?]|]; [naive_solver|].
      pose proof (fill_vacant_spec k v (entries t) Hk) as Hf.
      destruct (fill_vacant (k, v) (entries t)) as [es'|]; [|done].
      destruct Hf as (Hlen & Hperm & _).
      apply Permutation_length in Hperm. rewrite length_cons, !length_fmap in Hperm.
      pose proof (occupied_length es'). rewrite len_occupied in Hsize. unfold iter, capacity in *. lia.
  - destruct Hi as (-> & -> & Hk & Hfull). rewrite decide_True; [done|]. split; [done|]. lia.
Qed.

Lemma run_op_related cap t m op :
  table_related cap t m →
  let '(r, t') := run_op op t in
  let '(rs, m') := spec_op cap op m in
  r = rs ∧ table_related cap t' m'.
Proof.
  intros Hrel. pose proof (table_related_size cap t m Hrel) as [Hsize Hcap].
  destruct op as [k v|k|k|k v|k v|].
  - pose proof (insert_related cap t m k v Hrel) as Hi. unfold run_op. by destruct (insert k v t).
  - destruct Hrel as (Hu & <- & Hc). cbn [run_op spec_op]. pose proof (remove_spec t k Hu) as Hr.
    destruct (remove k t) as [r t']. destruct Hr as (-> & ? & Hm & ?).
    split; [done|]. split_and!; [done|done|congruence].
  - destruct Hrel as (Hu & <- & Hc). split; [by rewrite <-get_map|done].
  - destruct Hrel as (Hu & <- & Hc). pose proof (get_mut_set_spec t k v Hu) as (? & ? & ?).
    split; [done|]. split_and!; [done|done|congruence].
  - pose proof (reserve_insert t k v) as Hr. pose proof (insert_related cap t m k v Hrel) as Hi.
    destruct Hrel as (Hu & <- & Hc). cbn [run_op spec_op] in *.
    destruct (reserve_vacant k t) as [r|[|]| |]; [| | |done..].
    + destruct Hr as (t' & -> & Hins). rewrite Hins in Hi. case_decide; [destruct Hi as [[=] _]|].
      destruct Hi as [[= Hk] ?]. rewrite decide_False by (rewrite <-Hk; by intros [? ?]).
      rewrite decide_False; [done|]. intros ?. naive_solver.
    + rewrite decide_True by done. done.
    + destruct Hr as [Hk Hins]. rewrite Hins in Hi. case_decide as Hd; [|destruct Hi as [[=] _]].
      rewrite decide_False by (rewrite Hk; by intros [? ?]). rewrite decide_True by naive_solver. done.
  - split; [by cbn; rewrite Hsize|done].
Qed.

Lemma run_related cap ops t m :
  table_related cap t m →
  let '(rs, t') := run run_op ops t in
  let '(rs', m') := run (spec_op cap) ops m in
  rs = rs' ∧ table_related cap t' m'.
Proof.
  revert t m. induction ops as [|op ops IH]; intros t m Hrel; [done|]. cbn [run].
  pose proof (run_op_related cap t m op Hrel) as Hop.
  destruct (run_op op t) as [r t1], (spec_op cap op m) as [r' m1]. destruct Hop as [-> Hrel1].
  specialize (IH t1 m1 Hrel1).
  destruct (run run_op ops t1) as [rs t2], (run (spec_op cap) ops m1) as [rs' m2].
  by destruct IH as [-> ?].
Qed.
End runs.
Arguments table_op : clear implicits.

(** ** A client: the host ports UDP peers opened (ingress/udp.rs)

    The peers of the code are a [FixedTable]; the definitions and theorems
    below use it through [BoundedMap] only. *)
Record UdpPeers (T : Type) := { peers : T }.
Arguments peers {T} _.

Section response.
Context {T SocketAddr ByteBuf IpAddr : Type} `{!BoundedMap T Z SocketAddr}.
Context (addr_ip : SocketAddr → IpAddr) (addr_port : SocketAddr → Z) `{!EqDecision IpAddr}.

Record IngressUdpSend := { send_port : Z; send_peer : SocketAddr; send_bytes : ByteBuf }.

Definition host_port_response (dst : SocketAddr) (gateway : IpAddr) (payload : ByteBuf) (u : UdpPeers T)
    : outcome ByteBuf IngressUdpSend :=
  if negb (bool_decide (addr_ip dst = gateway)) then Fail payload
  else match bm_get (addr_port dst) (peers u) with
       | None => Fail payload
       | Some peer => Ret {| send_port := addr_port dst; send_peer := peer; send_bytes := payload |}
       end.

End response.

Section udp_peers.
Context {T SocketAddr : Type} `{!BoundedMap T Z SocketAddr}.

Definition udp_peers_new (max_host_peers : nat) : UdpPeers T := {| peers := bm_empty max_host_peers |}.

Definition can_open_host_port (port : Z) (u : UdpPeers T) : bool :=
  match bm_get port (peers u) with
  | Some _ => true
  | None => bm_len (peers u) <? bm_capacity (peers u)
  end.

Definition open_host_port (port : Z) (peer : SocketAddr) (u : UdpPeers T) : bool * UdpPeers T :=
  if negb (can_open_host_port port u) then (false, u)
  else let '(_replaced, peers) := bm_insert port peer (peers u) in (true, {| peers := peers |}).

Context `{!BoundedMapLaws T Z SocketAddr}.

Definition peers_inv (u : UdpPeers T) : Prop := bm_inv (peers u).

Lemma open_host_port_spec u port peer :
  peers_inv u →
  let '(opened, u') := open_host_port port peer u in
  peers_inv u' ∧ bm_capacity (peers u') = bm_capacity (peers u) ∧
  bm_map (peers u') = (if opened then <[port := peer]> (bm_map (peers u)) else bm_map (peers u)) ∧
  (opened = false ↔ bm_map (peers u) !! port = None ∧ size (bm_map (peers u)) = bm_capacity (peers u)).
Proof.
  unfold peers_inv. intros Hinv. unfold open_host_port, can_open_host_port.
  pose proof (bm_insert_map (peers u) port peer Hinv) as Hi.
  pose proof (bm_len_capacity (peers u) Hinv) as Hcap.
  rewrite bm_get_map, <-bm_len_map by done.
  destruct (bm_map (peers u) !! port) as [old|] eqn:Hport; cbn [negb].
  - destruct (bm_insert port peer (peers u)) as [[r|v| |] t']; [|naive_solver..].
    destruct Hi as (_ & ? & ? & ?). split_and!; try done. naive_solver.
  - destruct (Nat.ltb_spec (bm_len (peers u)) (bm_capacity (peers u))) as [Hlt|Hge]; cbn [negb].
    + destruct (bm_insert port peer (peers u)) as [[r|v| |] t']; [|naive_solver lia..].
      destruct Hi as (_ & ? & ? & ?). split_and!; try done. split; [done|]. intros [_ ?]. lia.
    + split_and!; try done. split; [|done]. intros _. split; [done|lia].
Qed.

(** Opening a sequence of ports, keeping what each call answered. *)
Fixpoint open_ports (opens : list (Z * SocketAddr)) (u : UdpPeers T) : list bool * UdpPeers T :=
  match opens with
  | [] => ([], u)
  | (port, peer) :: opens =>
    let '(b, u) := open_host_port port peer u in
    let '(bs, u) := open_ports opens u in (b :: bs, u)
  end.

(** The peer a port was last opened for, by the calls that answered [true]. *)
Definition last_opened (opens : list (Z * SocketAddr)) (answers : list bool) : gmap Z SocketAddr :=
  foldl (λ m '(o, b), if b : bool then <[o.1 := o.2]> m else m) ∅ (zip opens answers).

Lemma open_ports_spec opens u m :
  peers_inv u → bm_map (peers u) = m →
  let '(answers, u') := open_ports opens u in
  peers_inv u' ∧ bm_capacity (peers u') = bm_capacity (peers u) ∧
  bm_map (peers u') =
    foldl (λ m '(o, b), if b : bool then <[o.1 := o.2]> m else m) m (zip opens answers).
Proof.
  revert u m. induction opens as [|[port peer] opens IH]; intros u m Hinv Hm; [done|]. cbn [open_ports].
  pose proof (open_host_port_spec u port peer Hinv) as Ho.
  destruct (open_host_port port peer u) as [b u1]. destruct Ho as (Hinv1 & Hcap1 & Hm1 & _).
  specialize (IH u1 (if b then <[port := peer]> m else m) Hinv1).
  destruct (open_ports opens u1) as [bs u2]. rewrite Hm in Hm1. specialize (IH Hm1).
  cbn [zip zip_with foldl fst snd]. destruct IH as (? & ? & ?). split_and!; [done|congruence|done].
Qed.
End udp_peers.

(** The routing of responses, for every table that obeys the laws. *)
Lemma udp_peers_route_laws {T SocketAddr ByteBuf IpAddr} `{!BoundedMap T Z SocketAddr}
    `{!BoundedMapLaws T Z SocketAddr} `{!EqDecision IpAddr}
    (addr_ip : SocketAddr → IpAddr) (addr_port : SocketAddr → Z)
    (max_host_peers : nat) (opens : list (Z * SocketAddr)) (dst : SocketAddr) (gateway : IpAddr)
    (payload : ByteBuf) :
  let '(answers, u) := open_ports opens (udp_peers_new (T:=T) max_host_peers) in
  host_port_response addr_ip addr_port dst gateway payload u =
    (if decide (addr_ip dst = gateway) then
       match last_opened opens answers !! addr_port dst with
       | Some peer => Ret {| send_port := addr_port dst; send_peer := peer; send_bytes := payload |}
       | None => Fail payload
       end
     else Fail payload) ∧
  size (last_opened opens answers) ≤ max_host_peers.
Proof.
  pose proof (open_ports_spec opens (udp_peers_new (T:=T) max_host_peers) ∅) as Ho.
  destruct (open_ports opens (udp_peers_new (T:=T) max_host_peers)) as [answers u].
  destruct Ho as (Hinv & Hcap & Hm); [apply bm_empty_inv|apply bm_empty_map|].
  fold (last_opened opens answers) in Hm. unfold host_port_response.
  rewrite bm_get_map, Hm by done. split.
  - case_decide; [by rewrite bool_decide_eq_true_2|by rewrite bool_decide_eq_false_2].
  - rewrite <-Hm, <-bm_len_map by done. etrans; [by apply bm_len_capacity|].
    rewrite Hcap. cbn [udp_peers_new peers]. by rewrite bm_empty_capacity.
Qed.

(** ** Theorems *)

(** C38: a [FixedTable] is a finite map bounded by its capacity.  From an empty table, every
    sequence of operations answers what the same sequence answers on the map: lookups, the
    replaced and removed values, the values handed back when the table is full, the reserve
    errors and the length; and no operation panics. *)
Theorem fixed_table_refines_map {K V} `{Countable K} (cap : nat) (ops : list (table_op K V)) :
  (run run_op ops (with_capacity cap)).1 = (run (spec_op cap) ops ∅).1 ∧
  to_map (run run_op ops (with_capacity cap)).2 = (run (spec_op cap) ops ∅).2.
Proof.
  pose proof (run_related cap ops (with_capacity cap) ∅) as Hr.
  destruct (run run_op ops (with_capacity cap)), (run (spec_op cap) ops ∅).
  destruct Hr as (-> & _ & Hm & _); [|done]. split_and!.
  - unfold unique_keys, iter. simpl. rewrite occupied_replicate. constructor.
  - unfold to_map, iter. simpl. by rewrite occupied_replicate.
  - apply length_replicate.
Qed.

(** a UDP response to the gateway address is routed to the peer that last opened its port,
    and one to any other address or port is handed back; at most [max_host_peers] ports are
    ever open. *)
Theorem udp_peers_route {SocketAddr ByteBuf IpAddr} `{!EqDecision IpAddr}
    (addr_ip : SocketAddr → IpAddr) (addr_port : SocketAddr → Z)
    (max_host_peers : nat) (opens : list (Z * SocketAddr)) (dst : SocketAddr) (gateway : IpAddr)
    (payload : ByteBuf) :
  let '(answers, u) := open_ports opens (udp_peers_new (T:=FixedTable Z SocketAddr) max_host_peers) in
  host_port_response addr_ip addr_port dst gateway payload u =
    (if decide (addr_ip dst = gateway) then
       match last_opened opens answers !! addr_port dst with
       | Some peer => Ret {| send_port := addr_port dst; send_peer := peer; send_bytes := payload |}
       | None => Fail payload
       end
     else Fail payload) ∧
  size (last_opened opens answers) ≤ max_host_peers.
Proof. apply (udp_peers_route_laws (T:=FixedTable Z SocketAddr)). Qed.

Example udp_peers_example :
  (open_ports [(53, 7); (80, 8); (53, 9); (99, 1)]%Z
     (udp_peers_new (T:=FixedTable Z Z) 2)).1 = [true; true; true; false].
Proof. reflexivity. Qed.
