(* ===== verification/Timer.v ===== *)
(** * The timer queue of the network (src/libs/agentdp-network/src/timer.rs)

    One deadline per timer.  An [Instant] and a [Duration] are integers
    (nanoseconds); the clock is the [now] the call sees.  The overflow panic of
    [Instant + Duration] is outside the model. *)
From S2P Require Import Prelude.
Local Open Scope Z_scope.

Definition TIMER_QUEUE_REQUIRED_CAPACITY : nat := 5.

Inductive TimerId := ConnectRetry | Reconnect | GatewayPoll | UdpExpiry | StatusPublish.

#[export] Instance TimerId_eq_dec : EqDecision TimerId.
Proof. solve_decision. Defined.

Definition ALL : list TimerId := [ConnectRetry; Reconnect; GatewayPoll; UdpExpiry; StatusPublish].

Definition timer_index (t : TimerId) : nat :=
  match t with
  | ConnectRetry => 0
  | Reconnect => 1
  | GatewayPoll => 2
  | UdpExpiry => 3
  | StatusPublish => 4
  end.

Abbreviation Instant := Z.
Abbreviation Duration := Z.

(** The array [deadlines: [Option<Instant>; TIMER_QUEUE_REQUIRED_CAPACITY]]. *)
Record TimerQueue := { deadlines : list (option Instant) }.

Record TimerQueueError := { error_capacity : nat; error_required : nat }.

Definition timer_queue_new (capacity : nat) : outcome TimerQueueError TimerQueue :=
  if (capacity <? TIMER_QUEUE_REQUIRED_CAPACITY)%nat
  then Fail {| error_capacity := capacity; error_required := TIMER_QUEUE_REQUIRED_CAPACITY |}
  else Ret {| deadlines := replicate TIMER_QUEUE_REQUIRED_CAPACITY None |}.

(** [self.deadlines[timer.index()]] read and assigned; the array always has a
    slot per timer, so that neither can panic ([well_formed]). *)
Definition slot (timer : TimerId) (q : TimerQueue) : option Instant :=
  default None (deadlines q !! timer_index timer).
Definition set_slot (timer : TimerId) (v : option Instant) (q : TimerQueue) : TimerQueue :=
  {| deadlines := <[timer_index timer := v]> (deadlines q) |}.

Definition schedule_at (timer : TimerId) (deadline : Instant) (q : TimerQueue) : TimerQueue :=
  set_slot timer (Some deadline) q.

Definition schedule_at_if_earlier (timer : TimerId) (deadline : Instant) (q : TimerQueue) : TimerQueue :=
  match slot timer q with
  | None => set_slot timer (Some deadline) q
  | Some current => if deadline <? current then set_slot timer (Some deadline) q else q
  end.

Definition schedule_after (now : Instant) (timer : TimerId) (delay : Duration) (q : TimerQueue) : TimerQueue :=
  schedule_at timer (now + delay) q.

Definition schedule_after_if_earlier (now : Instant) (timer : TimerId) (delay : Duration)
    (q : TimerQueue) : TimerQueue :=
  schedule_at_if_earlier timer (now + delay) q.

Definition clear (timer : TimerId) (q : TimerQueue) : TimerQueue := set_slot timer None q.

(** [iter().flatten().min()] *)
Fixpoint min_deadline (l : list (option Instant)) : option Instant :=
  match l with
  | [] => None
  | None :: l => min_deadline l
  | Some d :: l => Some match min_deadline l with Some m => Z.min d m | None => d end
  end.

Definition saturating_duration_since (d now : Instant) : Duration := Z.max 0 (d - now).

Definition next_timeout (now : Instant) (q : TimerQueue) : option Duration :=
  (λ d, saturating_duration_since d now) <$> min_deadline (deadlines q).

Definition expired (now : Instant) (d : option Instant) : bool :=
  match d with Some d => d <=? now | None => false end.

(** [for timer in TimerId::ALL] *)
Fixpoint pop_loop (now : Instant) (timers : list TimerId) (output : list TimerId) (q : TimerQueue)
    : list TimerId * TimerQueue :=
  match timers with
  | [] => (output, q)
  | timer :: timers =>
    if expired now (slot timer q)
    then pop_loop now timers (output ++ [timer]) (set_slot timer None q)
    else pop_loop now timers output q
  end.
Definition pop_expired (now : Instant) (q : TimerQueue) : list TimerId * TimerQueue :=
  pop_loop now ALL [] q.

Fixpoint pop_next_loop (now : Instant) (timers : list TimerId) (q : TimerQueue)
    : option TimerId * TimerQueue :=
  match timers with
  | [] => (None, q)
  | timer :: timers =>
    if expired now (slot timer q) then (Some timer, set_slot timer None q)
    else pop_next_loop now timers q
  end.
Definition pop_next_expired (now : Instant) (q : TimerQueue) : option TimerId * TimerQueue :=
  pop_next_loop now ALL q.

(** ** Lemmas *)

Definition well_formed (q : TimerQueue) : Prop :=
  length (deadlines q) = TIMER_QUEUE_REQUIRED_CAPACITY.

Lemma timer_index_lt t : (timer_index t < TIMER_QUEUE_REQUIRED_CAPACITY)%nat.
Proof. unfold TIMER_QUEUE_REQUIRED_CAPACITY. destruct t; simpl; lia. Qed.

#[export] Instance timer_index_inj : Inj (=) (=) timer_index.
Proof. by intros [] []. Qed.

Lemma slot_set_slot t t' v q : well_formed q →
  slot t (set_slot t' v q) = if decide (t = t') then v else slot t q.
Proof.
  intros Hq. unfold slot, set_slot. simpl. case_decide as Ht.
  - subst. rewrite list_lookup_insert_eq; [done|]. rewrite Hq. apply timer_index_lt.
  - rewrite list_lookup_insert_ne; [done|]. intros ?%(inj timer_index). congruence.
Qed.

Lemma set_slot_wf t v q : well_formed q → well_formed (set_slot t v q).
Proof. unfold well_formed, set_slot. simpl. by rewrite length_insert. Qed.

Lemma slots_ext q q' : well_formed q → well_formed q' → (∀ t, slot t q = slot t q') → q = q'.
Proof.
  destruct q as [d], q' as [d']. unfold well_formed, slot. simpl. intros H1 H2 Hs.
  do 5 (destruct d as [|? d]; [done|]). destruct d; [|done].
  do 5 (destruct d' as [|? d']; [done|]). destruct d'; [|done].
  pose proof (Hs ConnectRetry). pose proof (Hs Reconnect). pose proof (Hs GatewayPoll).
  pose proof (Hs UdpExpiry). pose proof (Hs StatusPublish). simpl in *. by subst.
Qed.

Lemma schedule_at_if_earlier_slot t d q t' : well_formed q →
  slot t' (schedule_at_if_earlier t d q) =
  if decide (t' = t) then Some match slot t q with Some c => Z.min d c | None => d end else slot t' q.
Proof.
  intros Hq. unfold schedule_at_if_earlier. destruct (slot t q) as [c|] eqn:Hc.
  - destruct (Z.ltb_spec d c).
    + rewrite slot_set_slot by done. case_decide; [|done]. f_equal. lia.
    + case_decide; [|done]. subst. rewrite Hc. f_equal. lia.
  - by rewrite slot_set_slot.
Qed.

Lemma pop_loop_spec now timers output q :
  well_formed q → NoDup timers →
  let '(popped, q') := pop_loop now timers output q in
  well_formed q' ∧
  popped = output ++ filter (λ t, expired now (slot t q) = true) timers ∧
  ∀ t, slot t q' = if decide (t ∈ timers ∧ expired now (slot t q) = true) then None else slot t q.
Proof.
  revert output q. induction timers as [|t ts IH]; intros output q Hq Hnd; cbn [pop_loop].
  { split_and!; [done|by rewrite app_nil_r|]. intros t. rewrite decide_False; [done|set_solver]. }
  apply NoDup_cons in Hnd as [Ht Hnd]. destruct (expired now (slot t q)) eqn:He.
  - specialize (IH (output ++ [t]) (set_slot t None q) (set_slot_wf _ _ _ Hq) Hnd).
    destruct (pop_loop _ _ _ _) as [popped q']. destruct IH as (Hq' & -> & Hs). split_and!; [done| |].
    + rewrite filter_cons_True, <-(assoc_L (++)) by done. simpl. do 2 f_equal.
      apply list_filter_ext_in. intros x Hx. rewrite slot_set_slot, decide_False by (done || by intros ->). done.
    + intros x. rewrite Hs, slot_set_slot by done. destruct (decide (x = t)) as [->|].
      * rewrite decide_False by (by intros [? _]). rewrite decide_True; [done|]. split; [by left|done].
      * apply decide_ext. rewrite elem_of_cons. naive_solver.
  - specialize (IH output q Hq Hnd). destruct (pop_loop _ _ _ _) as [popped q'].
    destruct IH as (Hq' & -> & Hs). split_and!; [done| |].
    + by rewrite filter_cons_False by congruence.
    + intros x. rewrite Hs. apply decide_ext. rewrite elem_of_cons.
      split; [naive_solver|]. intros [[->|?] ?]; [congruence|done].
Qed.

Lemma ALL_nodup : NoDup ALL.
Proof. apply (bool_decide_unpack _). by vm_compute. Qed.

Lemma ALL_complete t : t ∈ ALL.
Proof. destruct t; apply (bool_decide_unpack _); by vm_compute. Qed.

Lemma pop_next_loop_spec now timers q :
  pop_next_loop now timers q =
  match filter (λ t, expired now (slot t q) = true) timers with
  | [] => (None, q)
  | t :: _ => (Some t, set_slot t None q)
  end.
Proof.
  induction timers as [|t ts IH]; [done|]. cbn [pop_next_loop].
  destruct (expired now (slot t q)) eqn:He.
  - by rewrite filter_cons_True.
  - by rewrite filter_cons_False, IH by congruence.
Qed.

Lemma min_deadline_spec l :
  match min_deadline l with
  | Some m => Some m ∈ l ∧ ∀ d, Some d ∈ l → m <= d
  | None => ∀ d, Some d ∉ l
  end.
Proof.
  induction l as [|[d|] l IH]; simpl; [set_solver| |].
  - destruct (min_deadline l) as [m|].
    + destruct IH as [Hm Hmin]. split.
      * destruct (Z.min_spec d m) as [[_ ->]|[_ ->]]; [by left|by right].
      * intros d' [[= ->]|Hd']%elem_of_cons; [lia|]. specialize (Hmin d' Hd'). lia.
    + split; [by left|]. intros d' [[= ->]|Hd']%elem_of_cons; [lia|]. by apply IH in Hd'.
  - destruct (min_deadline l) as [m|].
    + destruct IH as [Hm Hmin]. split; [by right|]. intros d [[=]|Hd]%elem_of_cons. by apply Hmin.
    + intros d [[=]|Hd]%elem_of_cons. by apply IH in Hd.
Qed.

Lemma slot_deadlines q d : well_formed q → Some d ∈ deadlines q ↔ ∃ t, slot t q = Some d.
Proof.
  intros Hq. unfold well_formed in Hq. unfold slot. split.
  - intros [i Hi]%list_elem_of_lookup. pose proof (lookup_lt_Some _ _ _ Hi) as Hlt. rewrite Hq in Hlt.
    assert (∃ t, timer_index t = i) as [t <-].
    { unfold TIMER_QUEUE_REQUIRED_CAPACITY in Hlt. exists (nth i ALL ConnectRetry).
      clear -Hlt. do 5 (destruct i as [|i]; [done|]). lia. }
    exists t. by rewrite Hi.
  - intros [t Ht]. destruct (deadlines q !! timer_index t) as [x|] eqn:Hx; simplify_eq/=.
    by eapply list_elem_of_lookup_2.
Qed.

Lemma next_timeout_zero now q : well_formed q →
  next_timeout now q = Some 0 ↔ ∃ t, expired now (slot t q) = true.
Proof.
  intros Hq. unfold next_timeout. pose proof (min_deadline_spec (deadlines q)) as Hm.
  destruct (min_deadline (deadlines q)) as [m|]; simpl.
  - destruct Hm as [Hin Hmin]. split.
    + intros [= Hz]. apply slot_deadlines in Hin as [t Ht]; [|done]. exists t. rewrite Ht. simpl.
      unfold saturating_duration_since in Hz. lia.
    + intros [t Ht]. destruct (slot t q) as [d|] eqn:Hd; [|done]. simpl in Ht.
      specialize (Hmin d ltac:(apply slot_deadlines; eauto)). f_equal. unfold saturating_duration_since. lia.
  - split; [done|]. intros [t Ht]. destruct (slot t q) as [d|] eqn:Hd; [|done].
    exfalso. apply (Hm d), slot_deadlines; eauto.
Qed.

(** The queues the network can reach. *)
Inductive reachable : TimerQueue → Prop :=
| reach_new capacity q : timer_queue_new capacity = Ret q → reachable q
| reach_schedule now timer delay q : reachable q → reachable (schedule_after now timer delay q)
| reach_schedule_if_earlier now timer delay q :
    reachable q → reachable (schedule_after_if_earlier now timer delay q)
| reach_schedule_at timer deadline q : reachable q → reachable (schedule_at timer deadline q)
| reach_clear timer q : reachable q → reachable (clear timer q)
| reach_pop now q : reachable q → reachable (pop_expired now q).2
| reach_pop_next now q : reachable q → reachable (pop_next_expired now q).2.

Lemma reachable_well_formed q : reachable q → well_formed q.
Proof.
  induction 1 as [capacity q Hnew|now t d q _ IH|now t d q _ IH|t d q _ IH|t q _ IH|now q _ IH|now q _ IH].
  - unfold timer_queue_new in Hnew. case_match; simplify_eq. done.
  - by apply set_slot_wf.
  - unfold schedule_after_if_earlier, schedule_at_if_earlier.
    repeat case_match; by try apply set_slot_wf.
  - by apply set_slot_wf.
  - by apply set_slot_wf.
  - unfold pop_expired. pose proof (pop_loop_spec now ALL [] q IH ALL_nodup) as Hp.
    destruct (pop_loop now ALL [] q). naive_solver.
  - unfold pop_next_expired. rewrite pop_next_loop_spec. case_match; [done|by apply set_slot_wf].
Qed.

(** ** Theorems *)

(** no expiry is lost or reported twice.  On every reachable queue [pop_expired] returns the
    timers whose deadline has passed, each once and in [TimerId::ALL] order, clears exactly
    those, and leaves a queue with a positive timeout; [next_timeout] is zero exactly when
    [pop_expired] has something to return, and [pop_next_expired] takes the first of them. *)
Theorem pop_expired_exact (now : Instant) (q : TimerQueue) :
  reachable q →
  let '(popped, q') := pop_expired now q in
  popped = filter (λ t, expired now (slot t q) = true) ALL ∧
  (∀ t, slot t q' = if expired now (slot t q) then None else slot t q) ∧
  next_timeout now q' ≠ Some 0 ∧
  (next_timeout now q = Some 0 ↔ popped ≠ []) ∧
  pop_next_expired now q = match popped with
                           | [] => (None, q)
                           | t :: _ => (Some t, set_slot t None q)
                           end.
Proof.
  intros Hq%reachable_well_formed. unfold pop_expired.
  pose proof (pop_loop_spec now ALL [] q Hq ALL_nodup) as Hp.
  destruct (pop_loop now ALL [] q) as [popped q']. destruct Hp as (Hq' & -> & Hs). cbn [app].
  assert (Hslot : ∀ t, slot t q' = if expired now (slot t q) then None else slot t q).
  { intros t. rewrite Hs. destruct (expired now (slot t q)) eqn:He.
    - rewrite decide_True; [done|]. split; [apply ALL_complete|done].
    - rewrite decide_False by naive_solver. done. }
  split_and!; [done|done| | |].
  - rewrite next_timeout_zero by done. intros [t Ht]. rewrite Hslot in Ht. destruct (expired now (slot t q)) eqn:He; [done|congruence].
  - rewrite next_timeout_zero by done. split.
    + intros [t Ht] Hnil. assert (t ∈ filter (λ t, expired now (slot t q) = true) ALL) as Hin.
      { apply list_elem_of_filter. split; [done|apply ALL_complete]. }
      rewrite Hnil in Hin. by apply elem_of_nil in Hin.
    + destruct (filter _ ALL) as [|t ts] eqn:Hf; [done|]. intros _. exists t.
      assert (t ∈ filter (λ t, expired now (slot t q) = true) ALL) as Hin by (rewrite Hf; by left).
      by apply list_elem_of_filter in Hin as [? _].
  - apply pop_next_loop_spec.
Qed.

Lemma pop_expired_exact_witness :
  let q := schedule_after 10 UdpExpiry 5 (schedule_after 10 ConnectRetry 2 {| deadlines := replicate 5 None |}) in
  reachable q ∧ (pop_expired 20 q).1 = [ConnectRetry; UdpExpiry].
Proof.
  assert (Hr : reachable (schedule_after 10 UdpExpiry 5
    (schedule_after 10 ConnectRetry 2 {| deadlines := replicate 5 None |}))).
  { do 2 apply reach_schedule. by apply (reach_new 5). }
  split; [exact Hr|]. pose proof (pop_expired_exact 20 _ Hr) as Hp.
  destruct (pop_expired 20 _) as [popped q'] in Hp |- *. destruct Hp as [-> _]. by vm_compute.
Defined.
