(* ===== verification/Policy.v ===== *)
(** * Network policy and mediated secrets (src/libs/agentdp-network/src/policy.rs)

    [EgressPolicy] decides which destinations and authorities a guest may
    reach; [RuntimeSecrets] binds placeholders to secret values, each scoped to
    the authorities that may receive it.  A [BTreeSet] is a [gset]; the
    predicates of [std::net] on addresses are written out from their documented
    ranges. *)
From S2P Require Import Prelude Text.
Local Open Scope Z_scope.

(** ** Addresses *)

(** The four octets of an IPv4 address; the eight 16-bit segments of an IPv6 one. *)
Inductive IpAddr :=
| V4 (a b c d : Z)
| V6 (s0 s1 s2 s3 s4 s5 s6 s7 : Z).

#[export] Instance IpAddr_eq_dec : EqDecision IpAddr.
Proof. solve_decision. Defined.

Definition valid_ip (ip : IpAddr) : Prop :=
  match ip with
  | V4 a b c d => are_bytes [a; b; c; d]
  | V6 s0 s1 s2 s3 s4 s5 s6 s7 => Forall (λ s, 0 <= s < 65536) [s0; s1; s2; s3; s4; s5; s6; s7]
  end.

(** [Ipv4Addr] of [std::net] *)
Definition is_loopback4 (a b c d : Z) : bool := a =? 127.
Definition is_private4 (a b c d : Z) : bool :=
  (a =? 10) || ((a =? 172) && (16 <=? b) && (b <=? 31)) || ((a =? 192) && (b =? 168)).
Definition is_link_local4 (a b c d : Z) : bool := (a =? 169) && (b =? 254).
Definition is_multicast4 (a b c d : Z) : bool := (224 <=? a) && (a <=? 239).
Definition is_broadcast4 (a b c d : Z) : bool := (a =? 255) && (b =? 255) && (c =? 255) && (d =? 255).
Definition is_unspecified4 (a b c d : Z) : bool := (a =? 0) && (b =? 0) && (c =? 0) && (d =? 0).

(** [Ipv6Addr] of [std::net] *)
Definition is_unicast_link_local6 (s0 : Z) : bool := Z.land s0 65472 =? 65152.
Definition is_unique_local6 (s0 : Z) : bool := Z.land s0 65024 =? 64512.
Definition is_multicast6 (s0 : Z) : bool := Z.land s0 65280 =? 65280.
Definition to_ipv4_mapped (ip : IpAddr) : option (Z * Z * Z * Z) :=
  match ip with
  | V6 s0 s1 s2 s3 s4 s5 s6 s7 =>
    if (s0 =? 0) && (s1 =? 0) && (s2 =? 0) && (s3 =? 0) && (s4 =? 0) && (s5 =? 65535)
    then Some (Z.shiftr s6 8, Z.land s6 255, Z.shiftr s7 8, Z.land s7 255)
    else None
  | V4 _ _ _ _ => None
  end.

Definition CLOUD_METADATA_IP : IpAddr := V4 169 254 169 254.

Definition is_cgnat (a b c d : Z) : bool := (a =? 100) && ((64 <=? b) && (b <=? 127)).

(** The [IpAddr::V4] arm of [blocked_destination]. *)
Definition blocked_destination4 (a b c d : Z) : bool :=
  is_loopback4 a b c d || is_private4 a b c d || is_link_local4 a b c d || is_multicast4 a b c d ||
  is_broadcast4 a b c d || is_unspecified4 a b c d || is_cgnat a b c d ||
  bool_decide (V4 a b c d = CLOUD_METADATA_IP).

Definition blocked_destination (destination : IpAddr) : bool :=
  match destination with
  | V4 a b c d => blocked_destination4 a b c d
  | V6 s0 s1 s2 s3 s4 s5 s6 s7 =>
    match to_ipv4_mapped destination with
    | Some (a, b, c, d) => blocked_destination4 a b c d
    | None =>
      bool_decide (destination = V6 0 0 0 0 0 0 0 1) || is_unicast_link_local6 s0 ||
      is_unique_local6 s0 || is_multicast6 s0 || bool_decide (destination = V6 0 0 0 0 0 0 0 0)
    end
  end.

(** ** Authorities *)

Definition normalized_host (host : str) : str := to_ascii_lowercase <$> trim_end_matches 46 host.

(** [Authority(String)]: always a normalized host. *)
Record Authority := { authority_str : str }.
Definition authority_new (host : str) : Authority := {| authority_str := normalized_host host |}.

#[export] Instance Authority_eq_dec : EqDecision Authority.
Proof. solve_decision. Defined.
#[export] Program Instance Authority_countable : Countable Authority :=
  inj_countable' authority_str (λ s, {| authority_str := s |}) _.
Next Obligation. by intros []. Qed.

Inductive Error :=
| BlockedDestination (ip : IpAddr)
| HostNotAllowed (destination : IpAddr) (host : str)
| UnauthorizedSecretHost (host : str)
| UnresolvedSecretPlaceholder.

(** ** Egress policy *)
Record EgressPolicy := {
  allowed_authorities : gset str;
  allow_private_destinations : bool;
}.

Definition default_deny_private : EgressPolicy :=
  {| allowed_authorities := ∅; allow_private_destinations := false |}.
Definition allow_all : EgressPolicy :=
  {| allowed_authorities := ∅; allow_private_destinations := true |}.
Definition with_allowed_authority (authority : str) (p : EgressPolicy) : EgressPolicy :=
  {| allowed_authorities := {[ normalized_host authority ]} ∪ allowed_authorities p;
     allow_private_destinations := allow_private_destinations p |}.

Definition allows_authority (p : EgressPolicy) (a : Authority) : bool :=
  bool_decide (authority_str a ∈ allowed_authorities p).
Definition restricts_authorities (p : EgressPolicy) : bool :=
  negb (bool_decide (allowed_authorities p = ∅)).

Definition check_destination (p : EgressPolicy) (destination : IpAddr) : outcome Error unit :=
  if negb (allow_private_destinations p) && blocked_destination destination
  then Fail (BlockedDestination destination) else Ret tt.

Definition unknown_host : str := bytes_of "<unknown>".

Definition check_destination_authority (p : EgressPolicy) (destination : IpAddr)
    (authority : option Authority) : outcome Error unit :=
  if negb (restricts_authorities p) then Ret tt
  else if match authority with Some a => allows_authority p a | None => false end then Ret tt
  else Fail (HostNotAllowed destination
               match authority with Some a => authority_str a | None => unknown_host end).

(** ** Secrets *)
Record SecretScope := { scope_authorities : gset Authority }.
Definition scope_new (authorities : list str) : SecretScope :=
  {| scope_authorities := list_to_set (authority_new <$> authorities) |}.

Record RuntimeSecret := {
  placeholder : str;
  secret_value : str;
  scope : SecretScope;
}.
#[export] Instance SecretScope_eq_dec : EqDecision SecretScope.
Proof. solve_decision. Defined.
#[export] Instance RuntimeSecret_eq_dec : EqDecision RuntimeSecret.
Proof. solve_decision. Defined.

Definition runtime_secret_new (placeholder value : str) (authorities : list str) : RuntimeSecret :=
  {| placeholder := placeholder; secret_value := value; scope := scope_new authorities |}.

(** [RuntimeSecret::allows_authority] *)
Definition secret_allows (s : RuntimeSecret) (a : Authority) : bool :=
  bool_decide (a ∈ scope_authorities (scope s)).

Record RuntimeSecrets := { bindings : list RuntimeSecret }.
Definition secrets_new : RuntimeSecrets := {| bindings := [] |}.
Definition secrets_insert (s : RuntimeSecret) (ss : RuntimeSecrets) : RuntimeSecrets :=
  {| bindings := bindings ss ++ [s] |}.

Definition binding_for_placeholder (ss : RuntimeSecrets) (p : str) : option RuntimeSecret :=
  snd <$> list_find (λ s, placeholder s = p) (bindings ss).

Definition add_authorities_to (s : RuntimeSecret) (authorities : gset Authority) : gset Authority :=
  authorities ∪ scope_authorities (scope s).

(** One [for] loop of [changed_authorities]: the bindings of [from] that are not the
    binding of their placeholder in [to]. *)
Definition add_changed (from to : RuntimeSecrets) (changed : gset Authority) : gset Authority :=
  foldl (λ changed s,
    if bool_decide (binding_for_placeholder to (placeholder s) ≠ Some s)
    then add_authorities_to s changed else changed) changed (bindings from).

Definition changed_authorities (self next : RuntimeSecrets) : gset Authority :=
  add_changed next self (add_changed self next ∅).

Record NetworkPolicy := { egress : EgressPolicy; secrets : RuntimeSecrets }.

(** ** The reference for blocked destinations: CIDR prefixes *)

(** The address as one number, and whether its [len] first bits (of [width]) are those of
    [base]. *)
Definition ip4_value (a b c d : Z) : Z := ((a * 256 + b) * 256 + c) * 256 + d.
Definition in_prefix (width : Z) (base len n : Z) : bool :=
  n / 2 ^ (width - len) =? base / 2 ^ (width - len).

(** 127.0.0.0/8, 10.0.0.0/8, 172.16.0.0/12, 192.168.0.0/16, 169.254.0.0/16, 224.0.0.0/4,
    255.255.255.255/32, 0.0.0.0/32, 100.64.0.0/10 *)
Definition blocked_prefixes4 : list (Z * Z) :=
  [(ip4_value 127 0 0 0, 8); (ip4_value 10 0 0 0, 8); (ip4_value 172 16 0 0, 12);
   (ip4_value 192 168 0 0, 16); (ip4_value 169 254 0 0, 16); (ip4_value 224 0 0 0, 4);
   (ip4_value 255 255 255 255, 32); (ip4_value 0 0 0 0, 32); (ip4_value 100 64 0 0, 10)].

Definition ip6_value (s0 s1 s2 s3 s4 s5 s6 s7 : Z) : Z :=
  foldl (λ n s, n * 65536 + s) 0 [s0; s1; s2; s3; s4; s5; s6; s7].

(** ::1/128, fe80::/10, fc00::/7, ff00::/8, ::/128, and the blocked IPv4 prefixes under
    ::ffff:0:0/96 *)
Definition blocked_prefixes6 : list (Z * Z) :=
  [(1, 128); (0xfe80 * 2 ^ 112, 10); (0xfc00 * 2 ^ 112, 7); (0xff00 * 2 ^ 112, 8); (0, 128)] ++
  ((λ '(base, len), (0xffff * 2 ^ 32 + base, 96 + len)) <$> blocked_prefixes4).

Definition blocked_reference (ip : IpAddr) : bool :=
  match ip with
  | V4 a b c d => existsb (λ '(base, len), in_prefix 32 base len (ip4_value a b c d)) blocked_prefixes4
  | V6 s0 s1 s2 s3 s4 s5 s6 s7 =>
    existsb (λ '(base, len), in_prefix 128 base len (ip6_value s0 s1 s2 s3 s4 s5 s6 s7)) blocked_prefixes6
  end.

(** ** Lemmas: address ranges *)

Lemma eqb_iff (x y x' y' : Z) : (x = y ↔ x' = y') → (x =? y) = (x' =? y').
Proof. intros H. destruct (Z.eqb_spec x y), (Z.eqb_spec x' y'); tauto. Qed.

Section v4.
Context (a b c d : Z).
Hypothesis Hbytes : are_bytes [a; b; c; d].

Lemma bytes4 : (0 <= a < 256 ∧ 0 <= b < 256) ∧ (0 <= c < 256 ∧ 0 <= d < 256).
Proof. unfold are_bytes, is_byte in Hbytes. rewrite !Forall_cons in Hbytes. tauto. Qed.

Lemma ip4_div_24 : ip4_value a b c d / 2 ^ 24 = a.
Proof. destruct bytes4. unfold ip4_value. Z.div_mod_to_equations; lia. Qed.
Lemma ip4_div_16 : ip4_value a b c d / 2 ^ 16 = a * 256 + b.
Proof. destruct bytes4. unfold ip4_value. Z.div_mod_to_equations; lia. Qed.
Lemma ip4_div_22 : ip4_value a b c d / 2 ^ 22 = a * 4 + b / 64.
Proof.
  destruct bytes4. change (2 ^ 22) with (2 ^ 16 * 64). rewrite <-Z.div_div, ip4_div_16 by done.
  Z.div_mod_to_equations; lia.
Qed.
Lemma ip4_div_20 : ip4_value a b c d / 2 ^ 20 = a * 16 + b / 16.
Proof.
  destruct bytes4. change (2 ^ 20) with (2 ^ 16 * 16). rewrite <-Z.div_div, ip4_div_16 by done.
  Z.div_mod_to_equations; lia.
Qed.
Lemma ip4_div_28 : ip4_value a b c d / 2 ^ 28 = a / 16.
Proof. change (2 ^ 28) with (2 ^ 24 * 16). by rewrite <-Z.div_div, ip4_div_24. Qed.

Lemma eqb_pair (x y x' y' n : Z) : 0 <= y < n → 0 <= y' < n →
  (x * n + y =? x' * n + y') = (x =? x') && (y =? y').
Proof.
  intros. destruct (Z.eqb_spec x x') as [->|]; simpl; [apply eqb_iff; lia|]. apply Z.eqb_neq. nia.
Qed.

Lemma ip4_eqb a' b' c' d' : are_bytes [a'; b'; c'; d'] →
  (ip4_value a b c d =? ip4_value a' b' c' d') = (a =? a') && (b =? b') && (c =? c') && (d =? d').
Proof.
  unfold are_bytes, is_byte. rewrite !Forall_cons. intros (? & ? & ? & ? & _). destruct bytes4 as [[??][??]].
  unfold ip4_value. by rewrite !eqb_pair.
Qed.

Lemma blocked4_cidr :
  blocked_destination4 a b c d =
  existsb (λ '(base, len), in_prefix 32 base len (ip4_value a b c d)) blocked_prefixes4.
Proof.
  destruct bytes4 as [[Ha Hb] [Hc Hd]]. unfold blocked_prefixes4. cbn [existsb].
  unfold in_prefix.
  change (32 - 8) with 24; change (32 - 12) with 20; change (32 - 16) with 16;
    change (32 - 4) with 28; change (32 - 32) with 0; change (32 - 10) with 22.
  rewrite ip4_div_24, ip4_div_20, ip4_div_16, ip4_div_28, ip4_div_22, !Z.pow_0_r, !Z.div_1_r.
  rewrite !ip4_eqb by (apply (bool_decide_unpack _); by vm_compute).
  change (ip4_value 127 0 0 0 / 2 ^ 24) with 127. change (ip4_value 10 0 0 0 / 2 ^ 24) with 10.
  change (ip4_value 172 16 0 0 / 2 ^ 20) with (172 * 16 + 1).
  change (ip4_value 192 168 0 0 / 2 ^ 16) with (192 * 256 + 168).
  change (ip4_value 169 254 0 0 / 2 ^ 16) with (169 * 256 + 254).
  change (ip4_value 224 0 0 0 / 2 ^ 28) with 14.
  change (ip4_value 100 64 0 0 / 2 ^ 22) with (100 * 4 + 1).
  rewrite !eqb_pair by (Z.div_mod_to_equations; lia).
  unfold blocked_destination4, is_loopback4, is_private4, is_link_local4, is_multicast4,
    is_broadcast4, is_unspecified4, is_cgnat, CLOUD_METADATA_IP.
  case_bool_decide as Hmeta; [injection Hmeta as Ea Eb Ec Ed; by rewrite Ea, Eb, Ec, Ed|]. rewrite !orb_false_r.
  replace (b / 16 =? 1) with ((16 <=? b) && (b <=? 31)) by (apply eq_bool_prop_intro; rewrite !Is_true_true, andb_true_iff, Z.eqb_eq, !Z.leb_le; Z.div_mod_to_equations; lia).
  replace (b / 64 =? 1) with ((64 <=? b) && (b <=? 127)) by (apply eq_bool_prop_intro; rewrite !Is_true_true, andb_true_iff, Z.eqb_eq, !Z.leb_le; Z.div_mod_to_equations; lia).
  replace (a / 16 =? 14) with ((224 <=? a) && (a <=? 239)) by (apply eq_bool_prop_intro; rewrite !Is_true_true, andb_true_iff, Z.eqb_eq, !Z.leb_le; Z.div_mod_to_equations; lia).
  by rewrite ?andb_assoc, ?orb_assoc.
Qed.
End v4.

(** *** IPv6 *)

Lemma div_high (hi lo base_hi base_lo k : Z) :
  0 <= k <= 32 → 0 <= lo < 2 ^ 32 → 0 <= base_lo < 2 ^ 32 →
  ((hi * 2 ^ 32 + lo) / 2 ^ k =? (base_hi * 2 ^ 32 + base_lo) / 2 ^ k) =
  (hi =? base_hi) && (lo / 2 ^ k =? base_lo / 2 ^ k).
Proof.
  intros Hk Hlo Hbase.
  assert (Hsplit : 2 ^ 32 = 2 ^ (32 - k) * 2 ^ k) by (rewrite <-Z.pow_add_r by lia; f_equal; lia).
  assert (Hrange : ∀ x, 0 <= x < 2 ^ 32 → 0 <= x / 2 ^ k < 2 ^ (32 - k)).
  { intros x Hx. split; [apply Z.div_pos; lia|]. apply Z.div_lt_upper_bound; lia. }
  rewrite !(Z.mul_comm _ (2 ^ 32)), Hsplit, <-!(Z.mul_comm (2 ^ k)), <-!Z.mul_assoc, !(Z.mul_comm (2 ^ k)).
  rewrite !Z.div_add_l, !(Z.mul_comm (2 ^ (32 - k))) by lia.
  apply eqb_pair; auto.
Qed.

Section v6.
Context (s0 s1 s2 s3 s4 s5 s6 s7 : Z).
Hypothesis Hsegments : Forall (λ s, 0 <= s < 65536) [s0; s1; s2; s3; s4; s5; s6; s7].

Definition high96 : Z := ((((s0 * 65536 + s1) * 65536 + s2) * 65536 + s3) * 65536 + s4) * 65536 + s5.

Lemma segments : (0 <= s0 < 65536 ∧ 0 <= s1 < 65536 ∧ 0 <= s2 < 65536 ∧ 0 <= s3 < 65536) ∧
  (0 <= s4 < 65536 ∧ 0 <= s5 < 65536 ∧ 0 <= s6 < 65536 ∧ 0 <= s7 < 65536).
Proof. rewrite !Forall_cons in Hsegments. tauto. Qed.

Lemma ip6_split : ip6_value s0 s1 s2 s3 s4 s5 s6 s7 = high96 * 2 ^ 32 + (s6 * 65536 + s7).
Proof. unfold ip6_value, high96. simpl foldl. lia. Qed.

Lemma high96_mapped :
  (high96 =? 65535) = (s0 =? 0) && (s1 =? 0) && (s2 =? 0) && (s3 =? 0) && (s4 =? 0) && (s5 =? 65535).
Proof.
  destruct segments as [(?&?&?&?) (?&?&?&?)]. unfold high96.
  change 65535 with (((((0 * 65536 + 0) * 65536 + 0) * 65536 + 0) * 65536 + 0) * 65536 + 65535) at 1.
  rewrite !eqb_pair by lia. f_equal.
Qed.

Lemma ip6_div_112 : ip6_value s0 s1 s2 s3 s4 s5 s6 s7 / 2 ^ 112 = s0.
Proof.
  destruct segments as [(?&?&?&?) (?&?&?&?)]. unfold ip6_value. simpl foldl.
  symmetry. apply (Z.div_unique_pos _ _ _ (ip6_value 0 s1 s2 s3 s4 s5 s6 s7)); unfold ip6_value; simpl foldl; lia.
Qed.

Lemma ip6_prefix len base :
  0 <= len <= 16 → 0 <= base < 65536 →
  in_prefix 128 (base * 2 ^ 112) len (ip6_value s0 s1 s2 s3 s4 s5 s6 s7) = in_prefix 16 base len s0.
Proof.
  intros Hlen Hbase. unfold in_prefix.
  replace (2 ^ (128 - len)) with (2 ^ 112 * 2 ^ (16 - len)) by (rewrite <-Z.pow_add_r by lia; f_equal; lia).
  by rewrite <-!Z.div_div, ip6_div_112, Z.div_mul by lia.
Qed.

Lemma ip6_mapped_prefix base len :
  0 <= len <= 32 → 0 <= base < 2 ^ 32 →
  in_prefix 128 (0xffff * 2 ^ 32 + base) (96 + len) (ip6_value s0 s1 s2 s3 s4 s5 s6 s7) =
  (high96 =? 65535) && in_prefix 32 base len (s6 * 65536 + s7).
Proof.
  intros Hlen Hbase. unfold in_prefix. rewrite ip6_split.
  replace (128 - (96 + len)) with (32 - len) by lia.
  destruct segments as [(?&?&?&?) (?&?&?&?)]. apply div_high; lia.
Qed.
End v6.

Lemma existsb_map {A B} (f : A → B) (p : B → bool) l : existsb p (f <$> l) = existsb (λ x, p (f x)) l.
Proof. induction l as [|x l IH]; csimpl; [done|]. by rewrite IH. Qed.

Lemma existsb_ext_in {A} (p q : A → bool) l : (∀ x, x ∈ l → p x = q x) → existsb p l = existsb q l.
Proof.
  induction l as [|x l IH]; intros Hext; simpl; [done|]. rewrite (Hext x) by by left. f_equal.
  apply IH. intros y ?. apply Hext. by right.
Qed.

Lemma blocked_prefixes4_range : Forall (λ '(base, len), 0 <= len <= 32 ∧ 0 <= base < 2 ^ 32) blocked_prefixes4.
Proof. unfold blocked_prefixes4. repeat (constructor; [vm_compute; intuition congruence|]). constructor. Qed.

Lemma existsb_false {A} (l : list A) : existsb (λ _, false) l = false.
Proof. by induction l. Qed.

Lemma ip4_of_segments s6 s7 : 0 <= s6 < 65536 → 0 <= s7 < 65536 →
  ip4_value (Z.shiftr s6 8) (Z.land s6 255) (Z.shiftr s7 8) (Z.land s7 255) = s6 * 65536 + s7 ∧
  are_bytes [Z.shiftr s6 8; Z.land s6 255; Z.shiftr s7 8; Z.land s7 255].
Proof.
  intros. rewrite !land_255, !Z.shiftr_div_pow2 by done. change (2 ^ 8) with 256.
  unfold ip4_value, are_bytes, is_byte. rewrite !Forall_cons, Forall_nil. Z.div_mod_to_equations; lia.
Qed.

Lemma ip6_exact s0 s1 s2 s3 s4 s5 s6 s7 n :
  Forall (λ s, 0 <= s < 65536) [s0; s1; s2; s3; s4; s5; s6; s7] → 0 <= n < 65536 →
  in_prefix 128 n 128 (ip6_value s0 s1 s2 s3 s4 s5 s6 s7) =
  bool_decide (V6 s0 s1 s2 s3 s4 s5 s6 s7 = V6 0 0 0 0 0 0 0 n).
Proof.
  intros Hs Hn. destruct (segments _ _ _ _ _ _ _ _ Hs) as [(?&?&?&?) (?&?&?&?)].
  unfold in_prefix. change (128 - 128) with 0. rewrite Z.pow_0_r, !Z.div_1_r.
  apply eq_bool_prop_intro. rewrite !Is_true_true, Z.eqb_eq, bool_decide_eq_true.
  unfold ip6_value. simpl foldl. split.
  - intros Hv. assert (s0 = 0 ∧ s1 = 0 ∧ s2 = 0 ∧ s3 = 0) as (-> & -> & -> & ->) by lia.
    assert (s4 = 0 ∧ s5 = 0 ∧ s6 = 0 ∧ s7 = n) as (-> & -> & -> & ->) by lia. done.
  - intros [= -> -> -> -> -> -> -> ->]. lia.
Qed.

(** Masking the high bits of a segment keeps its prefix. *)
Lemma land_high s k : 0 <= s < 2 ^ 16 → 0 <= k <= 16 →
  Z.land s (Z.shiftl (Z.ones (16 - k)) k) = s / 2 ^ k * 2 ^ k.
Proof.
  intros Hs Hk. rewrite <-Z.shiftl_mul_pow2, <-Z.shiftr_div_pow2 by lia.
  apply Z.bits_inj'. intros i Hi. rewrite Z.land_spec, !Z.shiftl_spec by done.
  destruct (decide (i < k)).
  - rewrite !(Z.testbit_neg_r _ (i - k)) by lia. apply andb_false_r.
  - rewrite Z.shiftr_spec by lia. replace (i - k + k) with i by lia.
    destruct (decide (i < 16)).
    + rewrite Z.ones_spec_low by lia. apply andb_true_r.
    + by rewrite (testbit_high 16 s) by lia.
Qed.

Lemma mask_prefix s base k : 0 <= s < 2 ^ 16 → 0 <= k <= 16 → base mod 2 ^ k = 0 →
  (Z.land s (Z.shiftl (Z.ones (16 - k)) k) =? base) = (s / 2 ^ k =? base / 2 ^ k).
Proof.
  intros Hs Hk Hbase. rewrite land_high by done. apply eqb_iff.
  pose proof (Z.div_mod base (2 ^ k) ltac:(lia)). split; [intros <-; by rewrite Z.div_mul by lia|].
  intros ->. lia.
Qed.

Lemma segment_masks s : 0 <= s < 65536 →
  is_unicast_link_local6 s = in_prefix 16 0xfe80 10 s ∧ is_unique_local6 s = in_prefix 16 0xfc00 7 s ∧
  is_multicast6 s = in_prefix 16 0xff00 8 s.
Proof.
  intros Hs. split_and!.
  - by apply (mask_prefix s 0xfe80 6).
  - by apply (mask_prefix s 0xfc00 9).
  - by apply (mask_prefix s 0xff00 8).
Qed.

(** ** Lemmas: secrets *)

Lemma add_changed_spec from to changed a :
  a ∈ add_changed from to changed ↔
  a ∈ changed ∨ ∃ s, s ∈ bindings from ∧ secret_allows s a = true ∧
                     binding_for_placeholder to (placeholder s) ≠ Some s.
Proof.
  unfold add_changed, secret_allows. setoid_rewrite bool_decide_eq_true.
  generalize (bindings from). intros l. revert changed.
  induction l as [|s l IH]; intros changed; simpl; [set_solver|]. rewrite IH.
  case_bool_decide as Hs; unfold add_authorities_to; set_solver.
Qed.

Lemma binding_for_placeholder_in ss p s : binding_for_placeholder ss p = Some s → s ∈ bindings ss.
Proof.
  unfold binding_for_placeholder.
  destruct (list_find _ (bindings ss)) as [[i s']|] eqn:Hf; intros; simplify_eq/=.
  apply list_find_Some in Hf as [Hi _]. by eapply list_elem_of_lookup_2.
Qed.

Lemma changed_authorities_spec self next a :
  a ∈ changed_authorities self next ↔
  ∃ s, secret_allows s a = true ∧
       ((s ∈ bindings self ∧ binding_for_placeholder next (placeholder s) ≠ Some s) ∨
        (s ∈ bindings next ∧ binding_for_placeholder self (placeholder s) ≠ Some s)).
Proof. unfold changed_authorities. rewrite !add_changed_spec. set_solver. Qed.

(** ** Theorems *)

(** the default policy blocks exactly the addresses of the local, private, link-local,
    carrier-grade NAT, multicast, broadcast and unspecified networks, given as CIDR prefixes on
    the address read as one number.  An IPv6 address that maps an IPv4 one is blocked when that
    is; so an IPv6 literal does not get around the IPv4 rules. *)
Theorem check_destination_cidr (destination : IpAddr) :
  valid_ip destination →
  check_destination default_deny_private destination =
    (if blocked_reference destination then Fail (BlockedDestination destination) else Ret tt).
Proof.
  intros Hv. unfold check_destination. cbn [allow_private_destinations default_deny_private negb andb].
  assert (blocked_destination destination = blocked_reference destination) as ->; [|done].
  destruct destination as [a b c d|s0 s1 s2 s3 s4 s5 s6 s7].
  { by apply blocked4_cidr. }
  unfold valid_ip in Hv. pose proof (segments _ _ _ _ _ _ _ _ Hv) as [(?&?&?&?) (?&?&?&?)].
  unfold blocked_reference, blocked_destination, blocked_prefixes6. rewrite existsb_app, existsb_map.
  rewrite (existsb_ext_in (λ x, (let '(base, len) := (let '(base, len) := x in (0xffff * 2 ^ 32 + base, 96 + len)) in
      in_prefix 128 base len (ip6_value s0 s1 s2 s3 s4 s5 s6 s7)))
    (λ x, (high96 s0 s1 s2 s3 s4 s5 =? 65535) && (let '(base, len) := x in in_prefix 32 base len (s6 * 65536 + s7)))).
  2: { intros [base len] Hin. pose proof blocked_prefixes4_range as Hr. rewrite Forall_forall in Hr.
       destruct (Hr _ Hin). by apply ip6_mapped_prefix. }
  destruct (segment_masks s0) as (Hll & Hul & Hmc); [done|].
  cbn [existsb to_ipv4_mapped]. rewrite !ip6_prefix, <-Hll, <-Hul, <-Hmc by (done || lia).
  rewrite !ip6_exact by done. rewrite orb_false_r.
  rewrite <-(high96_mapped s0 s1 s2 s3 s4 s5 s6 s7) by done.
  destruct (high96 s0 s1 s2 s3 s4 s5 =? 65535) eqn:Hmapped.
  - rewrite (high96_mapped s0 s1 s2 s3 s4 s5 s6 s7), !andb_true_iff, !Z.eqb_eq in Hmapped by done.
    destruct_and!; subst. destruct (ip4_of_segments s6 s7) as [<- Hb]; [done..|].
    rewrite (blocked4_cidr _ _ _ _ Hb). rewrite !bool_decide_eq_false_2 by congruence.
    unfold is_unicast_link_local6, is_unique_local6, is_multicast6. cbn [Z.land Z.eqb orb andb].
    apply existsb_ext_in. by intros [base len].
  - rewrite existsb_false, orb_false_r. by rewrite !orb_assoc.
Qed.

Lemma check_destination_cidr_witness :
  valid_ip (V6 0 0 0 0 0 65535 (169 * 256 + 254) (169 * 256 + 254)) ∧
  check_destination default_deny_private (V6 0 0 0 0 0 65535 (169 * 256 + 254) (169 * 256 + 254)) =
    Fail (BlockedDestination (V6 0 0 0 0 0 65535 (169 * 256 + 254) (169 * 256 + 254))).
Proof.
  assert (H : valid_ip (V6 0 0 0 0 0 65535 (169 * 256 + 254) (169 * 256 + 254)))
    by (apply (bool_decide_unpack (Forall _ _)); by vm_compute).
  split; [exact H|]. rewrite check_destination_cidr; [by vm_compute|exact H].
Defined.

(** reloading the secrets disturbs exactly the authorities whose secrets changed: an
    authority is reported when a binding it may use is not the binding of its placeholder on
    the other side, and an authority that is not reported may use the same secrets before and
    after. *)
Theorem changed_authorities_exact (self next : RuntimeSecrets) (a : Authority) :
  (a ∈ changed_authorities self next ↔
    ∃ s, secret_allows s a = true ∧
         ((s ∈ bindings self ∧ binding_for_placeholder next (placeholder s) ≠ Some s) ∨
          (s ∈ bindings next ∧ binding_for_placeholder self (placeholder s) ≠ Some s))) ∧
  (a ∉ changed_authorities self next →
    ∀ s, secret_allows s a = true → s ∈ bindings self ↔ s ∈ bindings next).
Proof.
  split; [apply changed_authorities_spec|]. rewrite changed_authorities_spec. intros Hna s Hs.
  split; intros Hin.
  - apply (binding_for_placeholder_in next (placeholder s)). apply dec_stable. intros ?. naive_solver.
  - apply (binding_for_placeholder_in self (placeholder s)). apply dec_stable. intros ?. naive_solver.
Qed.
