(* ===== verification/HttpHead.v ===== *)
(** * Reading HTTP/1.x message heads

    The pure functions of src/libs/agentdp-network/src/application/http1.rs
    that look at a request or response head, with websocket.rs and grpc.rs: how
    a body is framed, which authority a request is for, and whether it is the
    GitHub workflow dispatch the network policy denies. *)
From S2P Require Import Prelude Text.
Local Open Scope Z_scope.

(** The [io::Error]s of the HTTP/1.x filter that come from reading heads. *)
Inductive HeadError :=
| InvalidUtf8
| EmptyResponse
| MalformedStatusLine
| UnsupportedVersion
| InvalidStatus.

(** ** Header lines *)

Definition header_boundary (data : bytes) : option nat := find_sub data crlfcrlf.

Definition HTTP_1_0 : str := bytes_of "HTTP/1.0".
Definition HTTP_1_1 : str := bytes_of "HTTP/1.1".
Definition is_version (version : list Z) : bool :=
  bool_decide (version = HTTP_1_0) || bool_decide (version = HTTP_1_1).

(** The bytes of the [matches!] of [valid_http_token]. *)
Definition token_byte (b : Z) : bool :=
  bool_decide (b ∈ bytes_of "!#$%&'*+-.^_`|~") || ((48 <=? b) && (b <=? 57)) ||
  ((65 <=? b) && (b <=? 90)) || ((97 <=? b) && (b <=? 122)).
Definition valid_http_token (token : str) : bool :=
  negb (bool_decide (token = [])) && forallb token_byte (utf8_encode token).

Definition looks_like_http1 (b : bytes) : bool :=
  match utf8_decode b with
  | None => false
  | Some text =>
    match lines text with
    | [] => false
    | line :: _ =>
      match split_whitespace line with
      | method :: _target :: version :: _ => valid_http_token method && is_version version
      | _ => false
      end
    end
  end.

(** A line whose name is [expected_name], and its value. *)
Definition header_value_text (headers : str) (expected_name : str) : option str :=
  find_map (λ line,
    '(name, value) ← split_once 58 line;
    if eq_ignore_ascii_case name expected_name then Some (trim value) else None) (lines headers).
Definition header_value (headers : bytes) (expected_name : str) : option str :=
  headers ← utf8_decode headers; header_value_text headers expected_name.

Definition content_length (headers : bytes) : option Z :=
  headers ← utf8_decode headers;
  find_map (λ line,
    '(name, value) ← split_once 58 line;
    if eq_ignore_ascii_case name (bytes_of "content-length")
    then parse_uint usize_max (trim value) else None) (lines headers).

(** Some line named [expected_name] lists [token] among its comma-separated values. *)
Definition header_lists (headers : bytes) (expected_name token : str) : bool :=
  match utf8_decode headers with
  | None => false
  | Some headers =>
    existsb (λ line,
      match split_once 58 line with
      | Some (name, value) =>
        eq_ignore_ascii_case name expected_name &&
        existsb (λ v, eq_ignore_ascii_case (trim v) token) (split_char 44 value)
      | None => false
      end) (lines headers)
  end.
Definition is_chunked (headers : bytes) : bool :=
  header_lists headers (bytes_of "transfer-encoding") (bytes_of "chunked").
Definition is_expect_continue (headers : bytes) : bool :=
  header_lists headers (bytes_of "expect") (bytes_of "100-continue").

Definition is_protocol_upgrade (headers : bytes) : bool :=
  match utf8_decode headers with
  | None => false
  | Some headers =>
    match header_value_text headers (bytes_of "upgrade") with
    | Some value => eq_ignore_ascii_case (trim value) (bytes_of "websocket")
    | None => false
    end
  end.

Definition is_websocket_upgrade_request (b : bytes) : bool :=
  looks_like_http1 b && is_protocol_upgrade b.

(** grpc.rs *)
Definition content_type_is_grpc (value : str) : bool :=
  match split_char 59 value with
  | content_type :: _ => eq_ignore_ascii_case (trim content_type) (bytes_of "application/grpc")
  | [] => false
  end.
Definition is_grpc_request (b : bytes) : bool :=
  looks_like_http1 b &&
  match header_value b (bytes_of "content-type") with
  | Some value => content_type_is_grpc value
  | None => false
  end.

(** websocket.rs *)
Definition is_switching_protocols_response (headers : bytes) : bool :=
  match utf8_decode headers with
  | None => false
  | Some headers =>
    match lines headers with
    | [] => false
    | status_line :: lines =>
      match split_whitespace status_line with
      | version :: status :: _ =>
        bool_decide (version = HTTP_1_1) && bool_decide (status = bytes_of "101") &&
        existsb (λ line,
          match split_once 58 line with
          | Some (name, value) => eq_ignore_ascii_case name (bytes_of "upgrade") &&
                                  eq_ignore_ascii_case (trim value) (bytes_of "websocket")
          | None => false
          end) lines
      | _ => false
      end
    end
  end.

(** ** Body framing *)

Inductive RequestBody :=
| RequestNone
| RequestFixed (length : Z)
| RequestChunked
| RequestUpgrade.

Definition request_body (headers : bytes) : RequestBody :=
  if is_protocol_upgrade headers then RequestUpgrade
  else if is_chunked headers then RequestChunked
  else match content_length headers with
       | Some length => RequestFixed length
       | None => RequestNone
       end.

Inductive Http1ResponseRequest := Head | Connect | Other.
#[export] Instance Http1ResponseRequest_eq_dec : EqDecision Http1ResponseRequest.
Proof. solve_decision. Defined.

Definition response_request (headers : bytes) : Http1ResponseRequest :=
  match utf8_decode headers with
  | None => Other
  | Some headers =>
    match lines headers with
    | [] => Other
    | line :: _ =>
      match split_whitespace line with
      | [] => Other
      | method :: _ =>
        if eq_ignore_ascii_case method (bytes_of "HEAD") then Head
        else if eq_ignore_ascii_case method (bytes_of "CONNECT") then Connect
        else Other
      end
    end
  end.

Definition response_status (headers : bytes) : outcome HeadError Z :=
  match utf8_decode headers with
  | None => Fail InvalidUtf8
  | Some headers =>
    match lines headers with
    | [] => Fail EmptyResponse
    | line :: _ =>
      match split_whitespace line with
      | version :: status :: _ =>
        if negb (is_version version) then Fail UnsupportedVersion
        else match parse_uint u16_max status with
             | Some status => Ret status
             | None => Fail InvalidStatus
             end
      | _ => Fail MalformedStatusLine
      end
    end
  end.

Inductive ResponseBody :=
| ResponseNone
| ResponseFixed (length : Z)
| ResponseChunked
| ResponseCloseDelimited
| ResponseTunnel.

(** The body of a response, and whether the response answers the request. *)
Definition response_body (request : Http1ResponseRequest) (headers : bytes)
    : outcome HeadError (ResponseBody * bool) :=
  status ← response_status headers;
  if status =? 101 then Ret (ResponseTunnel, true)
  else if (100 <=? status) && (status <? 200) then Ret (ResponseNone, false)
  else if bool_decide (request = Head) || (status =? 204) || (status =? 304) then Ret (ResponseNone, true)
  else if bool_decide (request = Connect) && ((200 <=? status) && (status <? 300))
  then Ret (ResponseTunnel, true)
  else if is_chunked headers then Ret (ResponseChunked, true)
  else match content_length headers with
       | Some length => Ret (ResponseFixed length, true)
       | None => Ret (ResponseCloseDelimited, true)
       end.

(** ** The authority of a request *)

Definition normalize_host (host : str) : str := to_ascii_lowercase <$> trim_end_matches 46 host.

Definition normalize_authority (authority : str) : option str :=
  let authority := match rsplit_once 64 authority with
                   | Some (_, host) => host
                   | None => authority
                   end in
  match strip_prefix [91] authority with
  | Some rest =>
    '(host, _) ← split_once 93 rest;
    Some (to_ascii_lowercase <$> trim_end_matches 46 host)
  | None =>
    let host := match split_once 58 authority with
                | Some (host, _) => host
                | None => authority
                end in
    if bool_decide (host = []) then None else Some (normalize_host host)
  end.

Definition path_delimiter (c : Z) : bool := (c =? 47) || (c =? 63) || (c =? 35).

Definition absolute_form_host (target : str) : option str :=
  '(scheme, rest) ← split_once_str (bytes_of "://") target;
  if negb (eq_ignore_ascii_case scheme (bytes_of "http")) &&
     negb (eq_ignore_ascii_case scheme (bytes_of "https")) then None
  else normalize_authority (split_first path_delimiter rest).

Inductive RequestTargetAuthority := OriginForm | AuthorityForm (host : str).

Definition request_target_authority (method target : str) : option RequestTargetAuthority :=
  if eq_ignore_ascii_case method (bytes_of "CONNECT")
  then AuthorityForm <$> normalize_authority target
  else match find_sub target (bytes_of "://") with
       | None => Some OriginForm
       | Some _ => AuthorityForm <$> absolute_form_host target
       end.

(** [for line in lines]: [None] when a second [Host] makes the function return false. *)
Fixpoint host_loop (lines : list str) (host : option str) : option (option str) :=
  match lines with
  | [] => Some host
  | line :: lines =>
    match split_once 58 line with
    | None => host_loop lines host
    | Some (name, value) =>
      if eq_ignore_ascii_case name (bytes_of "host") then
        match host with
        | Some _ => None
        | None => host_loop lines (normalize_authority (trim value))
        end
      else host_loop lines host
    end
  end.

Definition request_authority_matches (headers : bytes) (expected_host : str) : bool :=
  match utf8_decode headers with
  | None => false
  | Some headers =>
    match lines headers with
    | [] => false
    | request_line :: lines =>
      match split_whitespace request_line with
      | [method; target; version] =>
        if negb (valid_http_token method) || negb (is_version version) then false
        else match host_loop lines None with
        | None => false
        | Some host =>
          match request_target_authority method target with
          | None => false
          | Some target_authority =>
            let target_host := match target_authority with
                               | OriginForm => None
                               | AuthorityForm host => Some host
                               end in
            if match host, target_host with
               | Some host, Some target_host => negb (bool_decide (host = target_host))
               | _, _ => false
               end
            then false
            else match (match target_host with Some h => Some h | None => host end) with
                 | Some host => bool_decide (host = normalize_host expected_host)
                 | None => false
                 end
          end
        end
      | _ => false
      end
    end
  end.

(** ** The workflow dispatch guard *)

Definition hex_value (byte : Z) : option Z :=
  if (48 <=? byte) && (byte <=? 57) then Some (byte - 48)
  else if (97 <=? byte) && (byte <=? 102) then Some (byte - 97 + 10)
  else if (65 <=? byte) && (byte <=? 70) then Some (byte - 65 + 10)
  else None.

(** [while index < input.len()], with the rest of both slices as the state. *)
Fixpoint percent_decoded_eq (input expected : bytes) : bool :=
  let next byte rest :=
    match expected with
    | [] => false
    | e :: expected =>
      (to_ascii_lowercase byte =? to_ascii_lowercase e) && percent_decoded_eq rest expected
    end in
  match input with
  | [] => bool_decide (expected = [])
  | b :: rest =>
    if b =? 37 then
      match rest with
      | h :: l :: rest =>
        match hex_value h, hex_value l with
        | Some high, Some low => next (Z.lor (Z.shiftl high 4) low) rest
        | _, _ => false
        end
      | _ => false
      end
    else next b rest
  end.

Definition request_target_path (target : bytes) : option bytes :=
  if starts_with target [47] then Some target
  else
    scheme_end ← find_sub target (bytes_of "://");
    let rest := drop (scheme_end + 3) target in
    match position path_delimiter rest with
    | Some index => if bool_decide (rest !! index = Some 47) then Some (drop index rest) else Some [47]
    | None => Some [47]
    end.

(** [u8::is_ascii_whitespace] *)
Definition is_ascii_whitespace (b : Z) : bool :=
  (b =? 32) || (b =? 9) || (b =? 10) || (b =? 12) || (b =? 13).

(** [line.split(u8::is_ascii_whitespace)] *)
Fixpoint split_ascii_whitespace (s : bytes) : list bytes :=
  match s with
  | [] => [[]]
  | x :: s =>
    if is_ascii_whitespace x then [] :: split_ascii_whitespace s
    else match split_ascii_whitespace s with
         | [] => [[x]]
         | p :: ps => (x :: p) :: ps
         end
  end.

(** [line.strip_suffix(b"\r").unwrap_or(line)] *)
Definition strip_suffix_cr (line : bytes) : bytes :=
  match reverse line with 13 :: r => reverse r | _ => line end.

(** The [loop] that skips empty lines: the request line, [None] when no line feed is left. *)
Fixpoint request_line_loop (fuel : nat) (headers : bytes) : option bytes :=
  match fuel with
  | O => None
  | S fuel =>
    match position (λ b, b =? LF) headers with
    | None => None
    | Some line_len =>
      let line := strip_suffix_cr (take line_len headers) in
      if bool_decide (line = []) then request_line_loop fuel (drop (line_len + 1) headers)
      else Some line
    end
  end.
Definition first_request_line (headers : bytes) : option bytes :=
  request_line_loop (S (length headers)) headers.

Definition workflow_dispatch_path (path : bytes) : bool :=
  let path_end := match position (λ b, (b =? 63) || (b =? 35)) path with
                  | Some i => i
                  | None => length path
                  end in
  match split_char 47 (take path_end path) with
  | [root; repos; owner; repo; actions; workflows; workflow_id; dispatches] =>
    bool_decide (root = []) && percent_decoded_eq repos (bytes_of "repos") &&
    negb (bool_decide (owner = [])) && negb (bool_decide (repo = [])) &&
    percent_decoded_eq actions (bytes_of "actions") &&
    percent_decoded_eq workflows (bytes_of "workflows") &&
    negb (bool_decide (workflow_id = [])) &&
    percent_decoded_eq dispatches (bytes_of "dispatches")
  | _ => false
  end.

Definition is_github_workflow_dispatch_request (headers : bytes) (connection_host : str) : bool :=
  if negb (bool_decide (normalize_host connection_host = bytes_of "api.github.com")) then false
  else match first_request_line headers with
  | None => false
  | Some request_line =>
    match filter (λ part, part ≠ []) (split_ascii_whitespace request_line) with
    | [method; target; version] =>
      if negb (eq_ignore_ascii_case method (bytes_of "POST")) || negb (is_version version) then false
      else match request_target_path target with
           | None => false
           | Some path => workflow_dispatch_path path
           end
    | _ => false
    end
  end.
