(* ===== verification/Http1.v ===== *)
(** * The HTTP/1.x filter (src/libs/agentdp-network/src/application/http1.rs)

    [Http1Filter] sits between the guest and a server it reaches over an
    intercepted connection: it reassembles requests from the bytes as they
    arrive, substitutes the secrets of the authority, and forwards the rest;
    [Http1ResponseTracker] follows the responses to know where they end.  Both
    are state machines over byte strings. *)
From S2P Require Import Prelude Text Policy Raw HttpHead.
Local Open Scope Z_scope.

Definition RELAY_BUF_SIZE : Z := 16384.
Definition MAX_BUFFERED_HTTP_HEADERS : Z := 64 * 1024.
Definition MAX_BUFFERED_HTTP_REQUEST : Z := 1024 * 1024.

(** The errors of the filter. *)
Inductive HttpError :=
| WorkflowDispatchBlocked
| PendingHeadersExceeded
| PendingRequestExceeded
| ResponseHeadersExceeded
| ChunkMetadataExceeded
| BadHead (e : HeadError)
| Policy (e : Error).

(** [map_err(io::Error::other)] on a call that has a state. *)
Definition stm_map_err {S E F A} (f : E → F) (m : stm S E A) : stm S F A := λ s,
  let '(r, s) := m s in (map_err f r, s).

(** ** Chunked bodies *)

Inductive ChunkedState :=
| Size
| Data (remaining : Z)
| DataCr
| DataLf
| Trailer
| Complete.

Record ChunkedParser := { chunk_state : ChunkedState; chunk_line : bytes }.
Definition chunked_parser_default : ChunkedParser := {| chunk_state := Size; chunk_line := [] |}.

Definition ensure_chunk_scratch_limit (line : bytes) : outcome HttpError unit :=
  if MAX_BUFFERED_HTTP_HEADERS <? zlen line then Fail ChunkMetadataExceeded else Ret tt.

Definition parse_chunk_size (line : bytes) : option Z :=
  line ← utf8_decode line;
  match split_char 59 (trim line) with
  | size :: _ => from_str_radix 16 usize_max (trim size)
  | [] => None
  end.

Definition push_byte (byte : Z) : stm ChunkedParser HttpError unit := λ p,
  let to state := (Ret tt, {| chunk_state := state; chunk_line := chunk_line p |}) in
  match chunk_state p with
  | Size =>
    let p := {| chunk_state := Size; chunk_line := chunk_line p ++ [byte] |} in
    match ensure_chunk_scratch_limit (chunk_line p) with
    | Ret _ =>
      if byte =? LF then
        match parse_chunk_size (chunk_line p) with
        | None => (Ret tt, {| chunk_state := Trailer; chunk_line := chunk_line p |})
        | Some size =>
          (Ret tt, {| chunk_state := if size =? 0 then Trailer else Data size; chunk_line := [] |})
        end
      else (Ret tt, p)
    | e => (e, p)
    end
  | Data remaining => if remaining <=? 1 then to DataCr else to (Data (remaining - 1))
  | DataCr => to (if byte =? CR then DataLf else Trailer)
  | DataLf => to (if byte =? LF then Size else Trailer)
  | Trailer =>
    let p := {| chunk_state := Trailer; chunk_line := chunk_line p ++ [byte] |} in
    match ensure_chunk_scratch_limit (chunk_line p) with
    | Ret _ =>
      if ends_with (chunk_line p) crlfcrlf || bool_decide (chunk_line p = crlf)
      then (Ret tt, {| chunk_state := Complete; chunk_line := chunk_line p |})
      else (Ret tt, p)
    | e => (e, p)
    end
  | Complete => (Ret tt, p)
  end.

Definition is_complete (p : ChunkedParser) : bool :=
  match chunk_state p with Complete => true | _ => false end.

(** [for &byte in input], [consumed] bytes of which are behind. *)
Fixpoint consume_loop (consumed : nat) (input : bytes) : stm ChunkedParser HttpError (nat * bool) :=
  match input with
  | [] => mret (consumed, false)
  | byte :: input =>
    _ ← push_byte byte;
    p ← stm_get;
    if is_complete p then mret (S consumed, true) else consume_loop (S consumed) input
  end.
Definition consume (input : bytes) : stm ChunkedParser HttpError (nat * bool) := consume_loop 0 input.

(** ** Substitution in one request *)

Inductive SecretMode := ModeSubstitute | ModeNone.
Inductive BodyMode := Substitute | HeadersOnly | NoSecrets.

Definition body_mode (m : SecretMode) : BodyMode :=
  match m with ModeSubstitute => Substitute | ModeNone => NoSecrets end.
Definition header_mode (m : SecretMode) : BodyMode :=
  match m with ModeSubstitute => HeadersOnly | ModeNone => NoSecrets end.

(** [extend_decimal]: the digits in a buffer of 39 bytes, [fuel] of which are free. *)
Fixpoint decimal_loop (fuel : nat) (value : Z) (digits : bytes) : outcome HttpError bytes :=
  match fuel with
  | O => Panic
  | S fuel =>
    let digits := (48 + value mod 10) :: digits in
    if value / 10 =? 0 then Ret digits else decimal_loop fuel (value / 10) digits
  end.
Definition extend_decimal (output : bytes) (value : Z) : outcome HttpError bytes :=
  digits ← decimal_loop 39 value []; Ret (output ++ digits).

Definition content_length_line (line : str) : bool :=
  match split_once 58 line with
  | Some (name, _) => eq_ignore_ascii_case name (bytes_of "content-length")
  | None => false
  end.

(** [for (index, line) in text.split("\r\n").enumerate()] *)
Fixpoint content_length_loop (first : bool) (lines : list str) (body_len : Z) (scratch : bytes)
    : outcome HttpError bytes :=
  match lines with
  | [] => Ret scratch
  | line :: lines =>
    let scratch := if first then scratch else scratch ++ crlf in
    scratch ← (if content_length_line line
               then extend_decimal (scratch ++ bytes_of "Content-Length: ") body_len
               else Ret (scratch ++ utf8_encode line));
    content_length_loop false lines body_len scratch
  end.

(** The headers after the call; the scratch buffer holds the old ones. *)
Definition update_content_length (headers : bytes) (body_len : Z)
    : stm HeaderRewriteScratch HttpError bytes :=
  match utf8_decode headers with
  | None => mret headers
  | Some text =>
    new ← stm_lift (content_length_loop true (split_crlf text) body_len []);
    _ ← stm_modify (set_rewrite headers);
    mret new
  end.

(** The functions that write to [output] only append to it, after the last step
    that can fail: they return what they append. *)
Definition ensure_and_pass (secrets : RuntimeSecrets) (host : str) (input : bytes)
    : stm HeaderRewriteScratch HttpError bytes :=
  _ ← stm_map_err Policy (stm_lift (ensure_no_placeholders_for_disallowed_host secrets host input));
  mret input.

Definition substitute_http_request_for_host_into (secrets : RuntimeSecrets) (host : str) (input : bytes)
    : stm HeaderRewriteScratch HttpError bytes :=
  match header_boundary input with
  | None => ensure_and_pass secrets host input
  | Some boundary =>
    let body_offset := (boundary + 4)%nat in
    let headers := take body_offset input in
    let body := drop body_offset input in
    new_headers ← stm_map_err Policy (substitute_http_header_bytes_for_host secrets host headers);
    new_body ← stm_map_err Policy (stm_lift (substitute_body_bytes_for_host secrets host body));
    match new_headers, new_body with
    | None, None => mret input
    | _, _ =>
      let headers := default headers new_headers in
      let body := default body new_body in
      headers ← (if (length body =? length input - body_offset)%nat then mret headers
                 else update_content_length headers (zlen body));
      mret (headers ++ body)
    end
  end.

Definition substitute_http_headers_for_host_into (secrets : RuntimeSecrets) (host : str) (input : bytes)
    : stm HeaderRewriteScratch HttpError bytes :=
  match header_boundary input with
  | None => ensure_and_pass secrets host input
  | Some boundary =>
    let body_offset := (boundary + 4)%nat in
    let headers := take body_offset input in
    new_headers ← stm_map_err Policy (substitute_http_header_bytes_for_host secrets host headers);
    mret (default headers new_headers ++ drop body_offset input)
  end.

Definition substitute_http_for_host_into (secrets : RuntimeSecrets) (host : str) (input : bytes)
    (mode : BodyMode) : stm HeaderRewriteScratch HttpError bytes :=
  match mode with
  | Substitute => substitute_http_request_for_host_into secrets host input
  | HeadersOnly => substitute_http_headers_for_host_into secrets host input
  | NoSecrets => stm_map_err Policy (stm_lift (process input []))
  end.

(** ** Responses *)

Inductive ResponseState :=
| RespHeaders
| RespFixed (remaining : Z)
| RespChunked (parser : ChunkedParser)
| RespCloseDelimited
| RespTunnel.

Record Http1ResponseTracker := {
  rpending : bytes;
  requests : list Http1ResponseRequest;
  rstate : ResponseState;
}.

Definition response_tracker_new : Http1ResponseTracker :=
  {| rpending := []; requests := []; rstate := RespHeaders |}.

Definition set_rpending (p : bytes) (t : Http1ResponseTracker) : Http1ResponseTracker :=
  {| rpending := p; requests := requests t; rstate := rstate t |}.
Definition set_requests (r : list Http1ResponseRequest) (t : Http1ResponseTracker) : Http1ResponseTracker :=
  {| rpending := rpending t; requests := r; rstate := rstate t |}.
Definition set_rstate (s : ResponseState) (t : Http1ResponseTracker) : Http1ResponseTracker :=
  {| rpending := rpending t; requests := requests t; rstate := s |}.

Definition expect_response_for (request : Http1ResponseRequest) (t : Http1ResponseTracker)
    : Http1ResponseTracker := set_requests (requests t ++ [request]) t.

Inductive Http1ResponseEof := EofComplete | EofIncomplete | EofTunnel.

Definition response_tracker_eof (t : Http1ResponseTracker) : Http1ResponseEof :=
  match rstate t with
  | RespHeaders => if bool_decide (rpending t = []) && bool_decide (requests t = [])
                   then EofComplete else EofIncomplete
  | RespCloseDelimited => if bool_decide (requests t = []) then EofComplete else EofIncomplete
  | RespTunnel => EofTunnel
  | RespFixed _ | RespChunked _ => EofIncomplete
  end.

(** [length.min(available)] for a [usize] length. *)
Definition take_len (remaining : Z) (available : nat) : nat := Z.to_nat (Z.min remaining (Z.of_nat available)).

(** [while let Some(boundary) = header_boundary(&self.pending)] *)
Fixpoint flush_responses_loop (fuel : nat) : stm Http1ResponseTracker HttpError unit := λ t,
  match header_boundary (rpending t) with
  | None => (Ret tt, t)
  | Some boundary =>
    match fuel with
    | O => (Timeout, t)
    | S fuel =>
      let body_offset := (boundary + 4)%nat in
      let headers := take body_offset (rpending t) in
      let request := match requests t with [] => Other | r :: _ => r end in
      match response_body request headers with
      | Fail e => (Fail (BadHead e), t)
      | Panic => (Panic, t)
      | Timeout => (Timeout, t)
      | Ret (body, consumes_request) =>
        let t := if consumes_request then set_requests (tail (requests t)) t else t in
        let t := set_rpending (drop body_offset (rpending t)) t in
        match body with
        | ResponseNone => flush_responses_loop fuel t
        | ResponseFixed length =>
          let take := take_len length (List.length (rpending t)) in
          let t := set_rpending (drop take (rpending t)) t in
          if Z.of_nat take <? length
          then (Ret tt, set_rstate (RespFixed (length - Z.of_nat take)) t)
          else flush_responses_loop fuel t
        | ResponseChunked =>
          match consume (rpending t) chunked_parser_default with
          | (Ret (take, complete), parser) =>
            let t := set_rpending (drop take (rpending t)) t in
            if complete : bool then flush_responses_loop fuel t
            else (Ret tt, set_rstate (RespChunked parser) t)
          | (Fail e, _) => (Fail e, t)
          | (Panic, _) => (Panic, t)
          | (Timeout, _) => (Timeout, t)
          end
        | ResponseCloseDelimited => (Ret tt, set_rpending [] (set_rstate RespCloseDelimited t))
        | ResponseTunnel => (Ret tt, set_rpending [] (set_rstate RespTunnel t))
        end
      end
    end
  end.
Definition flush_pending_responses : stm Http1ResponseTracker HttpError unit := λ t,
  flush_responses_loop (length (rpending t)) t.

Definition ensure_response_pending_limit (t : Http1ResponseTracker) : outcome HttpError unit :=
  match header_boundary (rpending t) with
  | None => if MAX_BUFFERED_HTTP_HEADERS <? zlen (rpending t) then Fail ResponseHeadersExceeded else Ret tt
  | Some _ => Ret tt
  end.

(** [while cursor < input.len()], on the input from the cursor on. *)
Fixpoint observe_loop (fuel : nat) (input : bytes) : stm Http1ResponseTracker HttpError unit := λ t,
  match input with
  | [] => (Ret tt, t)
  | _ =>
    match fuel with
    | O => (Timeout, t)
    | S fuel =>
      match rstate t with
      | RespHeaders =>
        (_ ← flush_pending_responses;
         t ← stm_get;
         stm_lift (ensure_response_pending_limit t)) (set_rpending (rpending t ++ input) t)
      | RespFixed remaining =>
        let take := take_len remaining (length input) in
        let remaining := remaining - Z.of_nat take in
        observe_loop fuel (drop take input)
          (set_rstate (if remaining =? 0 then RespHeaders else RespFixed remaining) t)
      | RespChunked parser =>
        match consume input parser with
        | (Ret (take, complete), parser) =>
          let t := set_rstate (if complete : bool then RespHeaders else RespChunked parser) t in
          if (take =? 0)%nat then (Ret tt, t) else observe_loop fuel (drop take input) t
        | (Fail e, parser) => (Fail e, set_rstate (RespChunked parser) t)
        | (Panic, _) => (Panic, t)
        | (Timeout, _) => (Timeout, t)
        end
      | RespCloseDelimited | RespTunnel => (Ret tt, t)
      end
    end
  end.
(** [Http1ResponseTracker::observe] *)
Definition observe (input : bytes) : stm Http1ResponseTracker HttpError unit :=
  observe_loop (length input) input.

(** ** The filter *)

Inductive BodyState :=
| Headers
| Fixed (remaining : Z)
| Chunked (parser : ChunkedParser)
| RawBody.

Record Http1Filter := {
  fsecrets : RuntimeSecrets;
  fhost : str;
  pending : bytes;
  header_rewrite : HeaderRewriteScratch;
  body : BodyState;
  upgrade_pending : bool;
  response_tracker : Http1ResponseTracker;
  server_pending : bytes;
}.

Definition http1_filter_new (secrets : RuntimeSecrets) (host : str) : Http1Filter :=
  {| fsecrets := secrets; fhost := host; pending := []; header_rewrite := header_rewrite_scratch_new;
     body := Headers; upgrade_pending := false; response_tracker := response_tracker_new;
     server_pending := [] |}.

Definition set_pending (p : bytes) (f : Http1Filter) : Http1Filter :=
  {| fsecrets := fsecrets f; fhost := fhost f; pending := p; header_rewrite := header_rewrite f;
     body := body f; upgrade_pending := upgrade_pending f; response_tracker := response_tracker f;
     server_pending := server_pending f |}.
Definition set_header_rewrite (h : HeaderRewriteScratch) (f : Http1Filter) : Http1Filter :=
  {| fsecrets := fsecrets f; fhost := fhost f; pending := pending f; header_rewrite := h;
     body := body f; upgrade_pending := upgrade_pending f; response_tracker := response_tracker f;
     server_pending := server_pending f |}.
Definition set_body (b : BodyState) (f : Http1Filter) : Http1Filter :=
  {| fsecrets := fsecrets f; fhost := fhost f; pending := pending f; header_rewrite := header_rewrite f;
     body := b; upgrade_pending := upgrade_pending f; response_tracker := response_tracker f;
     server_pending := server_pending f |}.
Definition set_upgrade_pending (u : bool) (f : Http1Filter) : Http1Filter :=
  {| fsecrets := fsecrets f; fhost := fhost f; pending := pending f; header_rewrite := header_rewrite f;
     body := body f; upgrade_pending := u; response_tracker := response_tracker f;
     server_pending := server_pending f |}.
Definition set_response_tracker (t : Http1ResponseTracker) (f : Http1Filter) : Http1Filter :=
  {| fsecrets := fsecrets f; fhost := fhost f; pending := pending f; header_rewrite := header_rewrite f;
     body := body f; upgrade_pending := upgrade_pending f; response_tracker := t;
     server_pending := server_pending f |}.
Definition set_server_pending (p : bytes) (f : Http1Filter) : Http1Filter :=
  {| fsecrets := fsecrets f; fhost := fhost f; pending := pending f; header_rewrite := header_rewrite f;
     body := body f; upgrade_pending := upgrade_pending f; response_tracker := response_tracker f;
     server_pending := p |}.

(** The state of a call: the filter and the caller's [output]. *)
Definition filter_stm (A : Type) : Type := stm (Http1Filter * bytes) HttpError A.

Definition modify_filter (g : Http1Filter → Http1Filter) : filter_stm unit :=
  stm_modify (λ '(f, out), (g f, out)).
Definition get_filter : filter_stm Http1Filter := λ s, (Ret s.1, s).
Definition append_output (b : bytes) : filter_stm unit := stm_modify (λ '(f, out), (f, copy b out)).
Definition raw_process (input : bytes) : filter_stm unit := λ s,
  match process input s.2 with
  | Ret out => (Ret tt, (s.1, out))
  | Fail e => (Fail (Policy e), s)
  | Panic => (Panic, s)
  | Timeout => (Timeout, s)
  end.

(** [substitute_http_for_host_into(&self.secrets, .., input, mode, output, &mut self.header_rewrite)?] *)
Definition substitute_into (input : bytes) (mode : BodyMode) : filter_stm unit := λ s,
  match substitute_http_for_host_into (fsecrets s.1) (fhost s.1) input mode (header_rewrite s.1) with
  | (Ret b, h) => (Ret tt, (set_header_rewrite h s.1, s.2 ++ b))
  | (Fail e, h) => (Fail e, (set_header_rewrite h s.1, s.2))
  | (Panic, h) => (Panic, (set_header_rewrite h s.1, s.2))
  | (Timeout, h) => (Timeout, (set_header_rewrite h s.1, s.2))
  end.

Definition expect_response (r : Http1ResponseRequest) : filter_stm unit :=
  modify_filter (λ f, set_response_tracker (expect_response_for r (response_tracker f)) f).

Definition drain_pending (n : nat) : filter_stm unit := modify_filter (λ f, set_pending (drop n (pending f)) f).

(** Whether the whole body was there. *)
Definition stream_fixed_request_body (length : Z) (body_offset : nat) (secret_mode : SecretMode)
    : filter_stm bool :=
  f ← get_filter;
  _ ← substitute_into (take body_offset (pending f)) (header_mode secret_mode);
  let available_body := (List.length (pending f) - body_offset)%nat in
  let body_take := take_len length available_body in
  _ ← append_output (take body_take (drop body_offset (pending f)));
  _ ← drain_pending (body_offset + body_take);
  _ ← (if Z.of_nat body_take <? length
       then modify_filter (set_body (Fixed (length - Z.of_nat body_take))) else mret tt);
  mret (Z.of_nat body_take =? length).

(** The [RequestBody::Chunked] arm after the headers went out: whether to go on. *)
Definition flush_chunked_body (body_offset : nat) : filter_stm bool :=
  f ← get_filter;
  '(take, complete, parser) ← (λ s, match consume (drop body_offset (pending f)) chunked_parser_default with
                                    | (Ret (take, complete), parser) => (Ret (take, complete, parser), s)
                                    | (Fail e, _) => (Fail e, s)
                                    | (Panic, _) => (Panic, s)
                                    | (Timeout, _) => (Timeout, s)
                                    end);
  _ ← append_output (List.firstn take (drop body_offset (pending f)));
  _ ← drain_pending (body_offset + take);
  if complete : bool then mret true
  else _ ← modify_filter (set_body (Chunked parser)); mret false.

(** One round of [while let Some(boundary) = header_boundary(&self.pending)]: whether to go on. *)
Definition flush_request (boundary : nat) : filter_stm bool :=
  f ← get_filter;
  let body_offset := (boundary + 4)%nat in
  let headers := take body_offset (pending f) in
  if is_github_workflow_dispatch_request headers (fhost f) then stm_fail WorkflowDispatchBlocked
  else
    let request := response_request headers in
    let secret_mode := if request_authority_matches headers (fhost f)
                       then ModeSubstitute else ModeNone in
    match request_body headers with
    | RequestNone =>
      _ ← expect_response request;
      _ ← substitute_into headers (body_mode secret_mode);
      _ ← drain_pending body_offset;
      mret true
    | RequestFixed length =>
      if length <=? MAX_BUFFERED_HTTP_REQUEST then
        if is_expect_continue headers then
          _ ← expect_response request;
          stream_fixed_request_body length body_offset secret_mode
        else
          let request_len := (body_offset + Z.to_nat length)%nat in
          if (List.length (pending f) <? request_len)%nat then mret false
          else
            _ ← expect_response request;
            _ ← substitute_into (take request_len (pending f)) (body_mode secret_mode);
            _ ← drain_pending request_len;
            mret true
      else
        _ ← expect_response request;
        stream_fixed_request_body length body_offset secret_mode
    | RequestChunked =>
      _ ← expect_response request;
      _ ← substitute_into headers (header_mode secret_mode);
      flush_chunked_body body_offset
    | RequestUpgrade =>
      _ ← expect_response request;
      _ ← substitute_into headers (header_mode secret_mode);
      _ ← drain_pending body_offset;
      _ ← modify_filter (λ f, set_server_pending [] (set_upgrade_pending true f));
      mret false
    end.

Fixpoint flush_loop (fuel : nat) : filter_stm unit :=
  f ← get_filter;
  match header_boundary (pending f) with
  | None => mret tt
  | Some boundary =>
    match fuel with
    | O => stm_lift Timeout
    | S fuel =>
      continue ← flush_request boundary;
      if continue : bool then flush_loop fuel else mret tt
    end
  end.
Definition flush_pending_requests : filter_stm unit :=
  f ← get_filter; flush_loop (length (pending f)).

Definition ensure_pending_limit (pending : bytes) : outcome HttpError unit :=
  match header_boundary pending with
  | None => if MAX_BUFFERED_HTTP_HEADERS <? zlen pending then Fail PendingHeadersExceeded else Ret tt
  | Some _ => if MAX_BUFFERED_HTTP_REQUEST <? zlen pending then Fail PendingRequestExceeded else Ret tt
  end.
Definition ensure_limit : filter_stm unit :=
  f ← get_filter; stm_lift (ensure_pending_limit (pending f)).

(** [while cursor < input.len()], on the input from the cursor on. *)
Fixpoint push_loop (fuel : nat) (input : bytes) : filter_stm unit :=
  match input with
  | [] => mret tt
  | _ =>
    match fuel with
    | O => stm_lift Timeout
    | S fuel =>
      f ← get_filter;
      match body f with
      | Headers =>
        _ ← modify_filter (set_pending (pending f ++ input));
        _ ← flush_pending_requests;
        ensure_limit
      | Fixed remaining =>
        let take := take_len remaining (length input) in
        _ ← append_output (List.firstn take input);
        let remaining := remaining - Z.of_nat take in
        _ ← modify_filter (set_body (if remaining =? 0 then Headers else Fixed remaining));
        push_loop fuel (drop take input)
      | Chunked parser =>
        match consume input parser with
        | (Ret (take, complete), parser) =>
          _ ← append_output (List.firstn take input);
          _ ← modify_filter (set_body (if complete : bool then Headers else Chunked parser));
          if (take =? 0)%nat then mret tt else push_loop fuel (drop take input)
        | (Fail e, parser) => _ ← modify_filter (set_body (Chunked parser)); stm_fail e
        | (Panic, _) => stm_lift Panic
        | (Timeout, _) => stm_lift Timeout
        end
      | RawBody => raw_process input
      end
    end
  end.

(** A public call: [output.clear()], the call, and whether there is output. *)
Definition with_output (m : filter_stm bool) (f : Http1Filter) : outcome HttpError bool * Http1Filter * bytes :=
  let '(r, (f, out)) := m (f, []) in (r, f, out).

Definition has_output : filter_stm bool := λ s, (Ret (negb (bool_decide (s.2 = []))), s).

Definition push_call (input : bytes) : filter_stm bool :=
  f ← get_filter;
  if upgrade_pending f then
    _ ← modify_filter (set_pending (pending f ++ input));
    _ ← ensure_limit;
    mret false
  else
    _ ← push_loop (length input) input;
    has_output.

Definition push (input : bytes) : Http1Filter → outcome HttpError bool * Http1Filter * bytes :=
  with_output (push_call input).

Definition observe_response (input : bytes) (f : Http1Filter) : outcome HttpError unit * Http1Filter :=
  let '(r, t) := observe input (response_tracker f) in (r, set_response_tracker t f).

Definition response_eof (f : Http1Filter) : Http1ResponseEof := response_tracker_eof (response_tracker f).

Definition server_plaintext_call (input : bytes) : filter_stm bool :=
  f ← get_filter;
  if negb (upgrade_pending f) then mret false
  else
    let server_pending := server_pending f ++ input in
    _ ← modify_filter (set_server_pending server_pending);
    if RELAY_BUF_SIZE <? zlen server_pending then
      _ ← modify_filter (λ f, set_server_pending [] (set_upgrade_pending false f));
      mret false
    else match header_boundary server_pending with
    | None => mret false
    | Some boundary =>
      let accepted := is_switching_protocols_response (take boundary server_pending) in
      _ ← modify_filter (λ f, set_server_pending [] (set_upgrade_pending false f));
      _ ← (if accepted then
             _ ← modify_filter (set_body RawBody);
             _ ← raw_process (pending f);
             modify_filter (set_pending [])
           else
             _ ← flush_pending_requests;
             ensure_limit);
      has_output
    end.

Definition observe_server_plaintext (input : bytes)
    : Http1Filter → outcome HttpError bool * Http1Filter * bytes :=
  with_output (server_plaintext_call input).
