(* ===== verification/HttpStream.v ===== *)
(** * The HTTP/1.x filter on streams of bytes

    What [Http1Filter] and [Http1ResponseTracker] do does not depend on how
    the network cuts the stream into segments; without secrets the filter is
    transparent; and the values of the secrets a host may not receive never
    influence what it is sent. *)
From S2P Require Import Prelude Text Policy Raw HttpHead Http1.
Local Open Scope Z_scope.

(** ** The chunk parser *)

Lemma consume_loop_app k a b p :
  consume_loop k (a ++ b) p =
  match consume_loop k a p with
  | (Ret (n, false), p') => consume_loop n b p'
  | r => r
  end.
Proof.
  revert k p. induction a as [|x a IH]; intros k p; [done|]. cbn [app consume_loop].
  unfold mbind, stm_bind, stm_get, mret, stm_ret.
  destruct (push_byte x p) as [[[]|e| |] p']; try done.
  destruct (is_complete p'); [done|]. apply IH.
Qed.

Lemma push_byte_total x p : match push_byte x p with (Ret _, _) | (Fail _, _) => True | _ => False end.
Proof. unfold push_byte, ensure_chunk_scratch_limit. by repeat case_match; simplify_eq. Qed.

Lemma consume_loop_bounds k input p :
  match consume_loop k input p with
  | (Ret (n, c), _) => (k ≤ n ≤ k + length input)%nat ∧ (c = false → n = k + length input)%nat ∧
      (input ≠ [] → k < n)%nat
  | (Fail _, _) => True
  | _ => False
  end.
Proof.
  revert k p. induction input as [|x input IH]; intros k p; cbn [consume_loop].
  { unfold mret, stm_ret. simpl. split_and!; (lia || done). }
  unfold mbind, stm_bind, stm_get, mret, stm_ret. pose proof (push_byte_total x p) as Ht.
  destruct (push_byte x p) as [[[]|e| |] p']; try done.
  destruct (is_complete p'); [simpl; split_and!; [lia..|done|lia]|].
  specialize (IH (S k) p'). destruct (consume_loop (S k) input p') as [[[n c]|e| |] ?]; try done.
  simpl. destruct IH as (? & Hc & _). split_and!; [lia..| |lia]. intros ->. rewrite Hc by done. lia.
Qed.

Lemma consume_loop_shift k input p :
  consume_loop k input p =
  match consume_loop 0 input p with
  | (Ret (n, c), p') => (Ret ((k + n)%nat, c), p')
  | r => r
  end.
Proof.
  revert k p. induction input as [|x input IH]; intros k p; cbn [consume_loop].
  { unfold mret, stm_ret. by rewrite Nat.add_0_r. }
  unfold mbind, stm_bind, stm_get, mret, stm_ret.
  destruct (push_byte x p) as [[[]|e| |] p']; try done.
  destruct (is_complete p'); [by rewrite Nat.add_1_r|].
  rewrite (IH (S k)), (IH 1%nat). destruct (consume_loop 0 input p') as [[[n c]|e| |] ?]; try done.
  do 3 f_equal. lia.
Qed.

Lemma consume_fails input p e p' : consume input p = (Fail e, p') → e = ChunkMetadataExceeded.
Proof.
  unfold consume. generalize 0%nat. revert p. induction input as [|x input IH]; intros p k; [done|].
  cbn [consume_loop]. unfold mbind, stm_bind, stm_get, mret, stm_ret.
  destruct (push_byte x p) as [[[]|e'| |] p1] eqn:Hx; try done; [destruct (is_complete p1); [done|apply IH]|].
  intros [= -> ->]. unfold push_byte, ensure_chunk_scratch_limit in Hx. by repeat case_match; simplify_eq.
Qed.

(** [consume] in two segments. *)
Lemma consume_app a b p :
  consume (a ++ b) p =
  match consume a p with
  | (Ret (_, false), p') =>
    match consume b p' with
    | (Ret (n, c), p'') => (Ret ((length a + n)%nat, c), p'')
    | r => r
    end
  | r => r
  end.
Proof.
  unfold consume. rewrite consume_loop_app. pose proof (consume_loop_bounds 0 a p) as Hb.
  destruct (consume_loop 0 a p) as [[[n []]|e| |] p']; try done.
  destruct Hb as (_ & Hn & _). rewrite (Hn eq_refl), consume_loop_shift. done.
Qed.

Lemma consume_bounds input p :
  match consume input p with
  | (Ret (n, c), _) => (n ≤ length input)%nat ∧ (c = false → n = length input) ∧ (input ≠ [] → 0 < n)%nat
  | (Fail _, _) => True
  | _ => False
  end.
Proof.
  unfold consume. pose proof (consume_loop_bounds 0 input p) as Hb.
  destruct (consume_loop 0 input p) as [[[n c]|e| |] p']; try done. naive_solver lia.
Qed.

(** ** Boundaries *)

Lemma boundary_bound data i : header_boundary data = Some i → (i + 4 ≤ length data)%nat.
Proof.
  intros Hi. pose proof (find_sub_spec data crlfcrlf) as Hs. unfold header_boundary in Hi.
  rewrite Hi in Hs. by destruct Hs as (_ & ? & _).
Qed.

Lemma boundary_app data more i :
  header_boundary data = Some i → header_boundary (data ++ more) = Some i.
Proof. apply find_sub_app. Qed.

Lemma take_len_spec remaining available : 0 <= remaining →
  Z.of_nat (take_len remaining available) = Z.min remaining (Z.of_nat available).
Proof. intros. unfold take_len. lia. Qed.

(** ** The response tracker *)

(** A response in progress has its bytes consumed, and some left to come. *)
Definition tracker_inv (t : Http1ResponseTracker) : Prop :=
  match rstate t with
  | RespHeaders => True
  | RespFixed remaining => 0 < remaining ∧ rpending t = []
  | _ => rpending t = []
  end.

Lemma flush_responses_fuel n m t :
  (length (rpending t) ≤ n)%nat → (length (rpending t) ≤ m)%nat →
  flush_responses_loop n t = flush_responses_loop m t.
Proof.
  revert m t. induction n as [|n IH]; intros m t Hn Hm.
  { assert (header_boundary (rpending t) = None) as Hb.
    { destruct (header_boundary (rpending t)) eqn:Hb; [apply boundary_bound in Hb; lia|done]. }
    by destruct m; cbn [flush_responses_loop]; rewrite Hb. }
  cbn [flush_responses_loop]. destruct (header_boundary (rpending t)) as [i|] eqn:Hb.
  2: { by destruct m; cbn [flush_responses_loop]; rewrite Hb. }
  pose proof (boundary_bound _ _ Hb). destruct m as [|m]; [lia|]. cbn [flush_responses_loop]. rewrite Hb.
  destruct (response_body _ _) as [[bd c]|e| |]; [|done..].
  destruct bd as [|len| | |]; try done.
  - apply IH; destruct c; simpl; rewrite length_drop; lia.
  - case_match; [done|]. apply IH; destruct c; simpl; rewrite !length_drop; lia.
  - destruct (consume _ _) as [[[k []]|e| |] p]; try done.
    apply IH; destruct c; simpl; rewrite !length_drop; lia.
Qed.

(** What the bytes [b] do to a tracker whose flush has just stopped. *)
Definition resume (b : bytes) (t : Http1ResponseTracker) : outcome HttpError unit * Http1ResponseTracker :=
  match rstate t with
  | RespHeaders => flush_pending_responses (set_rpending (rpending t ++ b) t)
  | RespFixed remaining =>
    if Z.of_nat (length b) <? remaining
    then (Ret tt, set_rstate (RespFixed (remaining - Z.of_nat (length b))) t)
    else flush_pending_responses (set_rpending (drop (Z.to_nat remaining) b) (set_rstate RespHeaders t))
  | RespChunked parser =>
    match consume b parser with
    | (Ret (take, complete), parser) =>
      if complete : bool then flush_pending_responses (set_rpending (drop take b) (set_rstate RespHeaders t))
      else (Ret tt, set_rstate (RespChunked parser) t)
    | (Fail e, _) => (Fail e, t)
    | (Panic, _) => (Panic, t)
    | (Timeout, _) => (Timeout, t)
    end
  | RespCloseDelimited | RespTunnel => (Ret tt, t)
  end.

Lemma flush_none n t :
  header_boundary (rpending t) = None → flush_responses_loop n t = (Ret tt, t).
Proof. intros Hb. destruct n; cbn [flush_responses_loop]; by rewrite Hb. Qed.

(** The tracker after a head that calls for [c] and leaves [p]. *)
Definition after_head (c : bool) (rs : list Http1ResponseRequest) (p : bytes) (st : ResponseState)
    : Http1ResponseTracker :=
  {| rpending := p; requests := if c then tail rs else rs; rstate := st |}.

Lemma flush_responses_unfold n p rs i :
  header_boundary p = Some i →
  flush_responses_loop (S n) {| rpending := p; requests := rs; rstate := RespHeaders |} =
  match response_body (match rs with [] => Other | r :: _ => r end) (take (i + 4) p) with
  | Fail e => (Fail (BadHead e), {| rpending := p; requests := rs; rstate := RespHeaders |})
  | Panic => (Panic, {| rpending := p; requests := rs; rstate := RespHeaders |})
  | Timeout => (Timeout, {| rpending := p; requests := rs; rstate := RespHeaders |})
  | Ret (body, c) =>
    let p := drop (i + 4) p in
    match body with
    | ResponseNone => flush_responses_loop n (after_head c rs p RespHeaders)
    | ResponseFixed len =>
      if Z.of_nat (take_len len (length p)) <? len
      then (Ret tt, after_head c rs (drop (take_len len (length p)) p)
                      (RespFixed (len - Z.of_nat (take_len len (length p)))))
      else flush_responses_loop n (after_head c rs (drop (take_len len (length p)) p) RespHeaders)
    | ResponseChunked =>
      match consume p chunked_parser_default with
      | (Ret (take, complete), parser) =>
        if complete : bool then flush_responses_loop n (after_head c rs (drop take p) RespHeaders)
        else (Ret tt, after_head c rs (drop take p) (RespChunked parser))
      | (Fail e, _) => (Fail e, after_head c rs p RespHeaders)
      | (Panic, _) => (Panic, after_head c rs p RespHeaders)
      | (Timeout, _) => (Timeout, after_head c rs p RespHeaders)
      end
    | ResponseCloseDelimited => (Ret tt, after_head c rs [] RespCloseDelimited)
    | ResponseTunnel => (Ret tt, after_head c rs [] RespTunnel)
    end
  end.
Proof.
  intros Hb. cbn [flush_responses_loop rpending requests]. rewrite Hb.
  destruct (response_body _ _) as [[bd c]|e| |]; [|done..].
  destruct c, bd; try done.
Qed.

Lemma content_length_nonneg headers len : content_length headers = Some len → 0 <= len.
Proof.
  unfold content_length. destruct (utf8_decode headers) as [s|]; [|done]. cbn [mbind option_bind].
  induction (lines s) as [|line ls IH]; [done|]. cbn [find_map].
  destruct (split_once 58 line) as [[name value]|]; cbn [mbind option_bind]; [|done].
  destruct (eq_ignore_ascii_case _ _); [|done].
  destruct (parse_uint usize_max (trim value)) eqn:Hp; [|done]. intros; simplify_eq.
  apply parse_uint_range in Hp; [lia|done].
Qed.

Lemma response_fixed_nonneg request headers len c :
  response_body request headers = Ret (ResponseFixed len, c) → 0 <= len.
Proof.
  unfold response_body. destruct (response_status headers); [|done..]. cbn [mbind outcome_bind].
  repeat case_match; intros; simplify_eq. by eapply content_length_nonneg.
Qed.

Lemma flush_resume n p rs t1 b :
  (length p ≤ n)%nat →
  flush_responses_loop n {| rpending := p; requests := rs; rstate := RespHeaders |} = (Ret tt, t1) →
  tracker_inv t1 ∧
  ∀ t2, resume b t1 = (Ret tt, t2) →
    flush_pending_responses {| rpending := p ++ b; requests := rs; rstate := RespHeaders |} = (Ret tt, t2).
Proof.
  revert p rs. induction n as [|n IH]; intros p rs Hn Hrun.
  { destruct p; [|simpl in Hn; lia]. rewrite flush_none in Hrun by done. simplify_eq. done. }
  destruct (header_boundary p) as [i|] eqn:Hb.
  2: { rewrite flush_none in Hrun by done. simplify_eq. done. }
  pose proof (boundary_bound _ _ Hb) as Hi.
  rewrite (flush_responses_unfold _ _ _ _ Hb) in Hrun.
  unfold flush_pending_responses. cbn [rpending].
  destruct (length (p ++ b)) as [|m] eqn:Hm; [rewrite length_app in Hm; lia|].
  rewrite (flush_responses_unfold _ _ _ _ (boundary_app _ b _ Hb)). rewrite take_app_le, drop_app_le by lia.
  rewrite length_app in Hm.
  destruct (response_body _ _) as [[bd c]|e| |] eqn:Hbody; [|done..]. cbv zeta in *.
  set (q := drop (i + 4) p) in *. assert (Hq : (length q + 4 ≤ length p)%nat) by (unfold q; rewrite length_drop; lia).
  (** the flush goes on with what a suffix of [q] leaves *)
  assert (Hgo : ∀ q', (length q' ≤ length q)%nat →
    flush_responses_loop n (after_head c rs q' RespHeaders) = (Ret tt, t1) →
    tracker_inv t1 ∧ ∀ t2, resume b t1 = (Ret tt, t2) →
      flush_responses_loop m (after_head c rs (q' ++ b) RespHeaders) = (Ret tt, t2)).
  { intros q' Hq' Hr. destruct (IH q' (if c then tail rs else rs) ltac:(lia) Hr) as [Hinv Hres].
    split; [done|]. intros t2 Ht2. rewrite <-(Hres t2 Ht2). apply flush_responses_fuel; simpl; rewrite length_app; lia. }
  assert (Hb' : ∀ q', (length q' ≤ length b)%nat →
    flush_responses_loop m (after_head c rs q' RespHeaders) = flush_pending_responses (after_head c rs q' RespHeaders)).
  { intros q' Hq'. apply flush_responses_fuel; simpl; lia. }
  destruct bd as [|len| | |].
  - by apply Hgo.
  - apply response_fixed_nonneg in Hbody as Hlen. rewrite length_app.
    pose proof (take_len_spec len (length q) Hlen). pose proof (take_len_spec len (length q + length b) Hlen).
    destruct (Z.ltb_spec (Z.of_nat (take_len len (length q))) len) as [Hlt|Hge].
    + simplify_eq. assert (take_len len (length q) = length q) as Htl by lia. rewrite Htl, drop_all.
      split; [split; [lia|done]|]. intros t2. unfold resume. cbn [rstate after_head].
      destruct (Z.ltb_spec (Z.of_nat (length b)) (len - Z.of_nat (length q))) as [Hlb|Hlb].
      * rewrite (proj2 (Z.ltb_lt _ _)) by lia.
        assert (take_len len (length q + length b) = length q + length b)%nat as -> by lia.
        rewrite drop_ge by (rewrite length_app; lia). intros [= <-]. unfold after_head, set_rstate. simpl.
        by replace (len - Z.of_nat (length q) - Z.of_nat (length b)) with (len - Z.of_nat (length q + length b)) by lia.
      * rewrite (proj2 (Z.ltb_ge _ _)) by lia. intros Hr.
        rewrite drop_app_ge by lia.
        replace (take_len len (length q + length b) - length q)%nat with (Z.to_nat (len - Z.of_nat (length q))) by lia.
        rewrite Hb' by (rewrite length_drop; lia). exact Hr.
    + assert (take_len len (length q) = Z.to_nat len) as Htl by lia.
      assert (take_len len (length q + length b) = Z.to_nat len) as -> by lia.
      rewrite (proj2 (Z.ltb_ge _ _)) by lia. rewrite Htl in Hrun. rewrite drop_app_le by lia.
      apply Hgo; [rewrite length_drop; lia|done].
  - rewrite consume_app. pose proof (consume_bounds q chunked_parser_default) as Hcb.
    destruct (consume q chunked_parser_default) as [[[k []]|e| |] parser]; try done.
    + destruct Hcb as (Hk & _ & _). rewrite drop_app_le by done. apply Hgo; [rewrite length_drop; lia|done].
    + destruct Hcb as (Hk & Hkl & _). specialize (Hkl eq_refl). simplify_eq. rewrite drop_all.
      split; [done|]. intros t2. unfold resume. cbn [rstate after_head].
      pose proof (consume_bounds b parser) as Hcb2.
      destruct (consume b parser) as [[[k []]|e| |] parser']; try done.
      * intros Hr. rewrite drop_app_ge by lia. replace (length q + k - length q)%nat with k by lia.
        rewrite Hb' by (rewrite length_drop; lia). exact Hr.
      * intros [= <-]. destruct Hcb2 as (_ & Hk2 & _). rewrite (Hk2 eq_refl), drop_ge by (rewrite length_app; lia). done.
  - simplify_eq. by split; [|intros t2 [= <-]].
  - simplify_eq. by split; [|intros t2 [= <-]].
Qed.

Lemma flush_resume_record p t t1 b :
  rstate t = RespHeaders →
  flush_pending_responses (set_rpending p t) = (Ret tt, t1) →
  tracker_inv t1 ∧
  ∀ t2, resume b t1 = (Ret tt, t2) → flush_pending_responses (set_rpending (p ++ b) t) = (Ret tt, t2).
Proof.
  destruct t as [p0 rs st]. simpl. intros ->. unfold flush_pending_responses at 1. simpl. intros Hrun.
  eapply flush_resume in Hrun; [exact Hrun|done].
Qed.

Lemma ensure_response_ok t : rpending t = [] → ensure_response_pending_limit t = Ret tt.
Proof. unfold ensure_response_pending_limit. intros ->. done. Qed.

Lemma set_rpending_nil t : rpending t = [] → set_rpending [] t = t.
Proof. destruct t; simpl. by intros ->. Qed.

(** One [observe] call is a [resume] and the limit check. *)
Lemma observe_headers fuel b t t2 :
  rstate t = RespHeaders → b ≠ [] →
  observe_loop (S fuel) b t = (Ret tt, t2) ↔
  flush_pending_responses (set_rpending (rpending t ++ b) t) = (Ret tt, t2) ∧
  ensure_response_pending_limit t2 = Ret tt.
Proof.
  intros Hst Hb. destruct b as [|x b]; [done|]. cbn [observe_loop]. rewrite Hst.
  unfold mbind, stm_bind, stm_get, stm_lift.
  destruct (flush_pending_responses _) as [[[]|e| |] t1]; try (split; [done|by intros [? _]]).
  split; [by intros [= ? <-]|]. by intros [[= ->] ->].
Qed.

(** The rest of a segment after a body of it ended. *)
Lemma observe_rest fuel b t t2 :
  rstate t = RespHeaders → rpending t = [] → (length b ≤ fuel)%nat →
  observe_loop fuel b t = (Ret tt, t2) ↔
  flush_pending_responses (set_rpending b t) = (Ret tt, t2) ∧ ensure_response_pending_limit t2 = Ret tt.
Proof.
  intros Hst Hp Hfuel. destruct b as [|x b].
  - assert (observe_loop fuel [] t = (Ret tt, t)) as -> by (by destruct fuel).
    rewrite set_rpending_nil by done. unfold flush_pending_responses. rewrite flush_none by (by rewrite Hp).
    split; [intros [= <-]; by rewrite ensure_response_ok|by intros [[= <-] _]].
  - destruct fuel as [|fuel]; [simpl in Hfuel; lia|]. by rewrite observe_headers, Hp.
Qed.

Lemma observe_iff b t t2 :
  tracker_inv t → b ≠ [] →
  observe b t = (Ret tt, t2) ↔ resume b t = (Ret tt, t2) ∧ ensure_response_pending_limit t2 = Ret tt.
Proof.
  intros Hinv Hb. unfold observe, resume. unfold tracker_inv in Hinv.
  assert (∃ fuel, length b = S fuel) as [fuel Hfuel] by (destruct b; [done|by eexists]).
  rewrite Hfuel. destruct (rstate t) as [|r|parser| |] eqn:Hst.
  - by apply observe_headers.
  - destruct Hinv as [Hr Hp]. assert (Hunf : observe_loop (S fuel) b t =
      observe_loop fuel (drop (take_len r (length b)) b)
        (set_rstate (if r - Z.of_nat (take_len r (length b)) =? 0 then RespHeaders
                     else RespFixed (r - Z.of_nat (take_len r (length b)))) t)).
    { destruct b; [done|]. cbn [observe_loop]. by rewrite Hst. }
    rewrite Hunf. pose proof (take_len_spec r (length b) ltac:(lia)) as Htl. rewrite <-Hfuel.
    destruct (Z.ltb_spec (Z.of_nat (length b)) r) as [Hlt|Hge].
    + assert (take_len r (length b) = length b) as -> by lia. rewrite drop_all.
      rewrite (proj2 (Z.eqb_neq _ _)) by lia.
      assert (∀ s, observe_loop fuel [] s = (Ret tt, s)) as -> by (by destruct fuel).
      split; [intros [= <-]; by rewrite ensure_response_ok|by intros [[= <-] _]].
    + assert (take_len r (length b) = Z.to_nat r) as -> by lia.
      rewrite (proj2 (Z.eqb_eq _ _)) by lia. apply observe_rest; [done|done|]. rewrite length_drop. lia.
  - assert (Hunf : observe_loop (S fuel) b t =
      match consume b parser with
      | (Ret (take, complete), parser) =>
        let t := set_rstate (if complete : bool then RespHeaders else RespChunked parser) t in
        if (take =? 0)%nat then (Ret tt, t) else observe_loop fuel (drop take b) t
      | (Fail e, parser) => (Fail e, set_rstate (RespChunked parser) t)
      | (Panic, _) => (Panic, t)
      | (Timeout, _) => (Timeout, t)
      end).
    { destruct b; [done|]. cbn [observe_loop]. by rewrite Hst. }
    rewrite Hunf. pose proof (consume_bounds b parser) as Hcb.
    destruct (consume b parser) as [[[k c]|e| |] parser']; try (split; [done|by intros [? _]]); try done.
    destruct Hcb as (Hk & Hkl & Hpos). specialize (Hpos Hb). cbv zeta.
    rewrite (proj2 (Nat.eqb_neq _ _)) by lia. destruct c.
    + apply observe_rest; [done|done|]. rewrite length_drop. lia.
    + rewrite (Hkl eq_refl), drop_all.
      assert (∀ s, observe_loop fuel [] s = (Ret tt, s)) as -> by (by destruct fuel).
      split; [intros [= <-]; by rewrite ensure_response_ok|by intros [[= <-] _]].
  - assert (observe_loop (S fuel) b t = (Ret tt, t)) as ->.
    { destruct b; [done|]. cbn [observe_loop]. by rewrite Hst. }
    split; [intros [= <-]; by rewrite ensure_response_ok|by intros [[= <-] _]].
  - assert (observe_loop (S fuel) b t = (Ret tt, t)) as ->.
    { destruct b; [done|]. cbn [observe_loop]. by rewrite Hst. }
    split; [intros [= <-]; by rewrite ensure_response_ok|by intros [[= <-] _]].
Qed.

Lemma resume_app a b t t1 t2 :
  tracker_inv t → resume a t = (Ret tt, t1) →
  tracker_inv t1 ∧ (resume b t1 = (Ret tt, t2) → resume (a ++ b) t = (Ret tt, t2)).
Proof.
  intros Hinv Ha. unfold resume in Ha. unfold resume at 2. unfold tracker_inv in Hinv.
  destruct (rstate t) as [|r|parser| |] eqn:Hst.
  - rewrite (assoc_L (++)). eapply flush_resume_record in Ha as [? Hr]; [|done]. split; [done|apply Hr].
  - destruct Hinv as [Hr Hp]. rewrite length_app.
    destruct (Z.ltb_spec (Z.of_nat (length a)) r) as [Hlt|Hge].
    + simplify_eq. split; [split; [simpl; lia|done]|]. unfold resume. cbn [rstate set_rstate].
      destruct (Z.ltb_spec (Z.of_nat (length b)) (r - Z.of_nat (length a))).
      * rewrite (proj2 (Z.ltb_lt _ _)) by lia. intros [= <-].
        by replace (r - Z.of_nat (length a) - Z.of_nat (length b)) with (r - Z.of_nat (length a + length b)) by lia.
      * rewrite (proj2 (Z.ltb_ge _ _)) by lia. rewrite drop_app_ge by lia.
        by replace (Z.to_nat r - length a)%nat with (Z.to_nat (r - Z.of_nat (length a))) by lia.
    + rewrite (proj2 (Z.ltb_ge _ _)) by lia. rewrite drop_app_le by lia.
      eapply flush_resume_record in Ha as [? Hr']; [|done]. split; [done|apply Hr'].
  - rewrite consume_app. pose proof (consume_bounds a parser) as Hcb.
    destruct (consume a parser) as [[[k []]|e| |] parser']; try done.
    + destruct Hcb as (Hk & _ & _). rewrite drop_app_le by lia.
      eapply flush_resume_record in Ha as [? Hr']; [|done]. split; [done|apply Hr'].
    + simplify_eq. split; [done|]. unfold resume. cbn [rstate set_rstate].
      destruct (consume b parser') as [[[k' []]|e| |] parser'']; try done.
      rewrite drop_app_ge by lia. by replace (length a + k' - length a)%nat with k' by lia.
  - simplify_eq. unfold tracker_inv. rewrite Hst. split; [done|]. unfold resume. by rewrite Hst.
  - simplify_eq. unfold tracker_inv. rewrite Hst. split; [done|]. unfold resume. by rewrite Hst.
Qed.

Lemma observe_app a b t t1 t2 :
  tracker_inv t → observe a t = (Ret tt, t1) → observe b t1 = (Ret tt, t2) →
  tracker_inv t1 ∧ observe (a ++ b) t = (Ret tt, t2).
Proof.
  intros Hinv Ha Hb. destruct (decide (a = [])) as [->|Hna].
  { unfold observe in Ha. simpl in Ha. simplify_eq. done. }
  apply observe_iff in Ha as [Ha Hens]; [|done..].
  destruct (resume_app a b t t1 t2 Hinv Ha) as [Hinv1 Hab].
  destruct (decide (b = [])) as [->|Hnb].
  { unfold observe in Hb. simpl in Hb. simplify_eq. rewrite app_nil_r. split; [done|].
    by apply observe_iff. }
  apply observe_iff in Hb as [Hb Hens2]; [|done..]. split; [done|].
  apply observe_iff; [done| |by split; [apply Hab|]]. by destruct a.
Qed.

(** ** The filter: what its calls do to the state *)

Ltac run_filter :=
  cbv beta iota zeta delta [mbind stm_bind stm_get stm_modify stm_fail stm_lift mret stm_ret
    modify_filter get_filter append_output drain_pending expect_response fst snd copy].
Ltac run_filter_in H :=
  cbv beta iota zeta delta [mbind stm_bind stm_get stm_modify stm_fail stm_lift mret stm_ret
    modify_filter get_filter append_output drain_pending expect_response fst snd copy] in H.

(** The call of [substitute_http_for_host_into] on the state of a filter. *)
Definition sub (f : Http1Filter) (input : bytes) (mode : BodyMode) : outcome HttpError bytes * HeaderRewriteScratch :=
  substitute_http_for_host_into (fsecrets f) (fhost f) input mode (header_rewrite f).

Lemma substitute_into_ret f out input mode s' :
  substitute_into input mode (f, out) = (Ret tt, s') ↔
  ∃ s h, sub f input mode = (Ret s, h) ∧ s' = (set_header_rewrite h f, out ++ s).
Proof.
  unfold substitute_into, sub. cbn [fst snd].
  destruct (substitute_http_for_host_into _ _ _ _ _) as [[s|e| |] h]; split; naive_solver.
Qed.

Lemma bind_ret {S E A B} (m : stm S E A) (k : A → stm S E B) s b s2 :
  (m ≫= k) s = (Ret b, s2) ↔ ∃ a s1, m s = (Ret a, s1) ∧ k a s1 = (Ret b, s2).
Proof. unfold mbind, stm_bind. destruct (m s) as [[a|e| |] s1]; naive_solver. Qed.

(** A fixed body that is streamed: the headers, what is there of the body, and the rest. *)
Lemma stream_fixed_ret len off mode f out r s' :
  0 <= len →
  stream_fixed_request_body len off mode (f, out) = (Ret r, s') ↔
  ∃ s h, sub f (take off (pending f)) (header_mode mode) = (Ret s, h) ∧
    let tk := take_len len (length (pending f) - off) in
    let f' := set_pending (drop (off + tk) (pending f)) (set_header_rewrite h f) in
    r = (Z.of_nat tk =? len) ∧
    s' = (if Z.of_nat tk <? len then set_body (Fixed (len - Z.of_nat tk)) f' else f',
          (out ++ s) ++ take tk (drop off (pending f))).
Proof.
  intros Hlen. unfold stream_fixed_request_body. rewrite bind_ret. split.
  - intros (f0 & s0 & [= <- <-] & H). apply bind_ret in H as ([] & s1 & Hsub & H).
    apply substitute_into_ret in Hsub as (s & h & Hsub & ->). exists s, h. split; [done|].
    run_filter_in H. cbv zeta. destruct (_ <? len); simplify_eq; done.
  - intros (s & h & Hsub & Hr). exists f, (f, out). split; [done|]. apply bind_ret.
    exists tt, (set_header_rewrite h f, out ++ s). split; [apply substitute_into_ret; eauto|].
    cbv zeta in Hr. destruct Hr as [-> ->]. run_filter. by destruct (_ <? len).
Qed.

Lemma flush_chunked_ret off f out r s' :
  flush_chunked_body off (f, out) = (Ret r, s') ↔
  ∃ tk parser, consume (drop off (pending f)) chunked_parser_default = (Ret (tk, r), parser) ∧
    let f' := set_pending (drop (off + tk) (pending f)) f in
    s' = (if r then f' else set_body (Chunked parser) f', out ++ take tk (drop off (pending f))).
Proof.
  unfold flush_chunked_body. run_filter.
  destruct (consume _ _) as [[[tk c]|e| |] parser]; cbn; [|split; [done|naive_solver]..].
  split.
  - destruct c; intros; simplify_eq; eauto.
  - intros (tk' & p' & [= <- <- <-] & ->). by destruct c.
Qed.

(** ** One request, with more bytes behind it *)

(** The filter can be left in the middle of a body, in a tunnel, or waiting for the answer to
    an upgrade; only then is what is buffered not the start of a request. *)
Definition filter_inv (f : Http1Filter) : Prop :=
  match body f with
  | Headers => True
  | Fixed remaining => 0 < remaining ∧ pending f = [] ∧ upgrade_pending f = false
  | Chunked _ | RawBody => pending f = [] ∧ upgrade_pending f = false
  end.

Lemma request_fixed_nonneg headers len : request_body headers = RequestFixed len → 0 <= len.
Proof.
  unfold request_body. repeat case_match; intros; simplify_eq. by eapply content_length_nonneg.
Qed.

(** The secret mode of a request. *)
Definition mode_of (headers : bytes) (host : str) : SecretMode :=
  if request_authority_matches headers host then ModeSubstitute else ModeNone.

(** The filter once the response to a request with [headers] is expected. *)
Definition expecting (headers : bytes) (f : Http1Filter) : Http1Filter :=
  set_response_tracker (expect_response_for (response_request headers) (response_tracker f)) f.

(** What one round of the flush does, read off its result. *)
Inductive request_step (headers : bytes) (off : nat) (f : Http1Filter) (out : bytes)
    : bool → Http1Filter * bytes → Prop :=
| step_whole len s h :
    (request_body headers = RequestNone ∧ len = 0%nat ∨
     (∃ n, request_body headers = RequestFixed n ∧ len = Z.to_nat n ∧ n <= MAX_BUFFERED_HTTP_REQUEST ∧
       is_expect_continue headers = false)) →
    (off + len ≤ length (pending f))%nat →
    sub f (take (off + len) (pending f)) (body_mode (mode_of headers (fhost f))) = (Ret s, h) →
    request_step headers off f out true
      (set_pending (drop (off + len) (pending f)) (set_header_rewrite h (expecting headers f)), out ++ s)
| step_buffering n :
    request_body headers = RequestFixed n → n <= MAX_BUFFERED_HTTP_REQUEST →
    is_expect_continue headers = false → (length (pending f) < off + Z.to_nat n)%nat →
    request_step headers off f out false (f, out)
| step_streamed n s h :
    request_body headers = RequestFixed n →
    (n <= MAX_BUFFERED_HTTP_REQUEST → is_expect_continue headers = true) →
    sub f headers (header_mode (mode_of headers (fhost f))) = (Ret s, h) →
    let tk := take_len n (length (pending f) - off) in
    let f' := set_pending (drop (off + tk) (pending f)) (set_header_rewrite h (expecting headers f)) in
    request_step headers off f out (Z.of_nat tk =? n)
      (if Z.of_nat tk <? n then set_body (Fixed (n - Z.of_nat tk)) f' else f',
       (out ++ s) ++ take tk (drop off (pending f)))
| step_chunked s h tk c parser :
    request_body headers = RequestChunked →
    sub f headers (header_mode (mode_of headers (fhost f))) = (Ret s, h) →
    consume (drop off (pending f)) chunked_parser_default = (Ret (tk, c), parser) →
    let f' := set_pending (drop (off + tk) (pending f)) (set_header_rewrite h (expecting headers f)) in
    request_step headers off f out c
      (if c then f' else set_body (Chunked parser) f', (out ++ s) ++ take tk (drop off (pending f)))
| step_upgrade s h :
    request_body headers = RequestUpgrade →
    sub f headers (header_mode (mode_of headers (fhost f))) = (Ret s, h) →
    request_step headers off f out false
      (set_server_pending [] (set_upgrade_pending true
         (set_pending (drop off (pending f)) (set_header_rewrite h (expecting headers f)))), out ++ s).

Lemma flush_request_iff i f out r s' :
  header_boundary (pending f) = Some i →
  flush_request i (f, out) = (Ret r, s') ↔
  is_github_workflow_dispatch_request (take (i + 4) (pending f)) (fhost f) = false ∧
  request_step (take (i + 4) (pending f)) (i + 4) f out r s'.
Proof.
  intros Hb. pose proof (boundary_bound _ _ Hb) as Hi.
  unfold flush_request. rewrite bind_ret.
  set (off := (i + 4)%nat) in *. set (headers := take off (pending f)).
  split.
  - intros (a & s1 & [= <- <-] & Hrun). fold headers in Hrun.
    destruct (is_github_workflow_dispatch_request headers (fhost f)); [done|]. split; [done|].
    cbv zeta in Hrun. fold (mode_of headers (fhost f)) in Hrun.
    destruct (request_body headers) as [|n| |] eqn:Hbody.
    + apply bind_ret in Hrun as ([] & s1 & [= <-] & Hrun).
      apply bind_ret in Hrun as ([] & s2 & Hsub & Hrun). apply substitute_into_ret in Hsub as (s & h & Hsub & ->).
      run_filter_in Hrun. simplify_eq. fold (expecting headers f).
      pose proof (step_whole headers off f out 0 s h) as Hstep. rewrite Nat.add_0_r in Hstep. apply Hstep; auto.
    + destruct (Z.leb_spec n MAX_BUFFERED_HTTP_REQUEST) as [Hmax|Hmax].
      * destruct (is_expect_continue headers) eqn:Hexp.
        -- apply bind_ret in Hrun as ([] & s1 & [= <-] & Hrun).
           apply stream_fixed_ret in Hrun as (s & h & Hsub & -> & ->); [|by eapply request_fixed_nonneg].
           exact (step_streamed headers off f out n s h Hbody (λ _, Hexp) Hsub).
        -- destruct (Nat.ltb_spec (length (pending f)) (off + Z.to_nat n)).
           ++ run_filter_in Hrun. simplify_eq. by eapply step_buffering.
           ++ apply bind_ret in Hrun as ([] & s1 & [= <-] & Hrun).
              apply bind_ret in Hrun as ([] & s2 & Hsub & Hrun).
              apply substitute_into_ret in Hsub as (s & h & Hsub & ->).
              run_filter_in Hrun. simplify_eq. fold (expecting headers f).
              apply (step_whole headers off f out (Z.to_nat n) s h); [right; by exists n|done|exact Hsub].
      * apply bind_ret in Hrun as ([] & s1 & [= <-] & Hrun).
        apply stream_fixed_ret in Hrun as (s & h & Hsub & -> & ->); [|by eapply request_fixed_nonneg].
        apply (step_streamed headers off f out n s h); [done|lia|exact Hsub].
    + apply bind_ret in Hrun as ([] & s1 & [= <-] & Hrun).
      apply bind_ret in Hrun as ([] & s2 & Hsub & Hrun). apply substitute_into_ret in Hsub as (s & h & Hsub & ->).
      apply flush_chunked_ret in Hrun as (tk & parser & Hc & ->).
      exact (step_chunked headers off f out s h tk r parser Hbody Hsub Hc).
    + apply bind_ret in Hrun as ([] & s1 & [= <-] & Hrun).
      apply bind_ret in Hrun as ([] & s2 & Hsub & Hrun). apply substitute_into_ret in Hsub as (s & h & Hsub & ->).
      run_filter_in Hrun. simplify_eq. exact (step_upgrade headers off f out s h Hbody Hsub).
  - intros [Hguard Hstep]. exists f, (f, out). split; [done|]. fold headers. rewrite Hguard. cbv zeta.
    fold (mode_of headers (fhost f)).
    destruct Hstep as [len s h Hcase Hlen Hsub|n Hbody Hmax Hexp Hlen|n s h Hbody Hstream Hsub|s h tk c parser Hbody Hsub Hc|s h Hbody Hsub].
    + destruct Hcase as [[-> ->]|(n & -> & -> & Hmax & Hexp)].
      * apply bind_ret. exists tt, (expecting headers f, out). split; [done|].
        apply bind_ret. exists tt, (set_header_rewrite h (expecting headers f), out ++ s). split.
        { apply substitute_into_ret. exists s, h. rewrite Nat.add_0_r in Hsub. done. }
        rewrite Nat.add_0_r. done.
      * rewrite (proj2 (Z.leb_le _ _)), Hexp, (proj2 (Nat.ltb_ge _ _)) by done.
        apply bind_ret. exists tt, (expecting headers f, out). split; [done|].
        apply bind_ret. exists tt, (set_header_rewrite h (expecting headers f), out ++ s). split; [|done].
        apply substitute_into_ret. by exists s, h.
    + by rewrite Hbody, (proj2 (Z.leb_le _ _)), Hexp, (proj2 (Nat.ltb_lt _ _)).
    + rewrite Hbody. assert (Hrun : (_ ← expect_response (response_request headers);
          stream_fixed_request_body n off (mode_of headers (fhost f))) (f, out) =
        (Ret (Z.of_nat tk =? n), (if Z.of_nat tk <? n then set_body (Fixed (n - Z.of_nat tk)) f' else f',
           (out ++ s) ++ take tk (drop off (pending f))))).
      { apply bind_ret. exists tt, (expecting headers f, out). split; [done|].
        apply stream_fixed_ret; [by eapply request_fixed_nonneg|]. by exists s, h. }
      destruct (Z.leb_spec n MAX_BUFFERED_HTTP_REQUEST); [|done]. by rewrite Hstream.
    + rewrite Hbody. apply bind_ret. exists tt, (expecting headers f, out). split; [done|].
      apply bind_ret. exists tt, (set_header_rewrite h (expecting headers f), out ++ s). split.
      { apply substitute_into_ret. by exists s, h. }
      apply flush_chunked_ret. by exists tk, parser.
    + rewrite Hbody. apply bind_ret. exists tt, (expecting headers f, out). split; [done|].
      apply bind_ret. exists tt, (set_header_rewrite h (expecting headers f), out ++ s). split; [|done].
      apply substitute_into_ret. by exists s, h.
Qed.

(** How the round that stopped a flush goes on when [b] is behind it. *)
Definition stop_extends (headers : bytes) (off : nat) (f : Http1Filter) (out : bytes)
    (f1 : Http1Filter) (out1 b : bytes) : Prop :=
  let fb := set_pending (pending f ++ b) f in
  if upgrade_pending f1
  then body f1 = Headers ∧
       request_step headers off fb out false (set_pending (pending f1 ++ b) f1, out1)
  else match body f1 with
  | Headers => f1 = f ∧ out1 = out
  | Fixed rm =>
    0 < rm ∧ pending f1 = [] ∧
    request_step headers off fb out (rm <=? Z.of_nat (length b))
      (if Z.of_nat (length b) <? rm then set_body (Fixed (rm - Z.of_nat (length b))) f1
       else set_body Headers (set_pending (drop (Z.to_nat rm) b) f1), out1 ++ take (Z.to_nat rm) b)
  | Chunked parser =>
    pending f1 = [] ∧ (∀ k c parser', consume b parser = (Ret (k, c), parser') →
      request_step headers off fb out c
        (if c then set_body Headers (set_pending (drop k b) f1) else set_body (Chunked parser') f1,
         out1 ++ take k b)) ∧
    ∀ e parser', consume b parser = (Fail e, parser') →
      request_body headers = RequestChunked ∧
      (∃ s h, sub f headers (header_mode (mode_of headers (fhost f))) = (Ret s, h)) ∧
      (consume (drop off (pending f ++ b)) chunked_parser_default).1 = Fail e
  | RawBody => False
  end.

Lemma step_extend headers off f out r f1 out1 b :
  body f = Headers → upgrade_pending f = false →
  (0 < off ≤ length (pending f))%nat →
  request_step headers off f out r (f1, out1) →
  if r : bool
  then body f1 = Headers ∧ upgrade_pending f1 = false ∧ (length (pending f1) < length (pending f))%nat ∧
       request_step headers off (set_pending (pending f ++ b) f) out true (set_pending (pending f1 ++ b) f1, out1)
  else stop_extends headers off f out f1 out1 b.
Proof.
  destruct f as [ss hst p hr bd up rt sp]. cbn [body upgrade_pending pending]. intros -> -> Hoff Hstep.
  remember (f1, out1) as s' eqn:Hs'.
  destruct Hstep as [len s h Hcase Hlen Hsub|n Hbody Hmax Hexp Hlen|n s h Hbody Hstream Hsub tk f'|s h tk c parser Hbody Hsub Hc f'|s h Hbody Hsub];
    cbn [pending] in *.
  - injection Hs' as <- <-. cbn. split_and!; [done|done|rewrite length_drop; lia|].
    rewrite <-drop_app_le by done.
    apply (step_whole headers off {| fsecrets := ss; fhost := hst; pending := p ++ b; header_rewrite := hr;
      body := Headers; upgrade_pending := false; response_tracker := rt; server_pending := sp |} out len s h);
      cbn; [done|rewrite length_app; lia|]. rewrite take_app_le by done. exact Hsub.
  - injection Hs' as <- <-. done.
  - pose proof (request_fixed_nonneg _ _ Hbody) as Hn.
    pose proof (take_len_spec n (length p - off) Hn) as Htk. fold tk in Htk.
    set (fb := {| fsecrets := ss; fhost := hst; pending := p ++ b; header_rewrite := hr;
      body := Headers; upgrade_pending := false; response_tracker := rt; server_pending := sp |}).
    pose proof (step_streamed headers off fb out n s h Hbody Hstream Hsub) as Hb. cbn [fb pending] in Hb.
    rewrite length_app in Hb. pose proof (take_len_spec n (length p + length b - off) Hn) as Htk'.
    set (tk' := take_len n (length p + length b - off)) in *.
    rewrite (drop_app_le p b off) in Hb by lia.
    destruct (Z.eqb_spec (Z.of_nat tk) n) as [Heq|Hne].
    + rewrite (proj2 (Z.ltb_ge _ _)) in Hs' by lia. injection Hs' as <- <-.
      cbn [body upgrade_pending pending f' set_pending set_header_rewrite expecting set_response_tracker].
      assert (Htkk : tk' = tk) by lia. rewrite Htkk in Hb.
      rewrite (proj2 (Z.eqb_eq _ _)), (proj2 (Z.ltb_ge _ _)) in Hb by lia.
      rewrite (drop_app_le p b (off + tk)), take_app_le in Hb by (rewrite ?length_drop; lia).
      split_and!; [done|done|rewrite length_drop; lia|exact Hb].
    + assert (Hlt : (Z.of_nat tk <? n) = true) by (apply Z.ltb_lt; lia). rewrite Hlt in Hs'. injection Hs' as <- <-.
      assert (Htkl : tk = (length p - off)%nat) by lia.
      unfold stop_extends, f'. cbn [body upgrade_pending pending set_body set_pending set_header_rewrite expecting set_response_tracker].
      rewrite Htkl. replace (off + (length p - off))%nat with (length p) by lia. rewrite drop_all.
      split_and!; [lia|done|]. rewrite (take_ge (drop off p)) by (rewrite length_drop; lia).
      set (rm := n - Z.of_nat (length p - off)).
      destruct (Z.ltb_spec (Z.of_nat (length b)) rm) as [Hlb|Hlb].
      * rewrite (proj2 (Z.leb_gt _ _)) by done. rewrite (take_ge b) by lia.
        assert (Htkk : tk' = (length p - off + length b)%nat) by lia. rewrite Htkk in Hb.
        rewrite (proj2 (Z.eqb_neq _ _)), (proj2 (Z.ltb_lt _ _)) in Hb by lia.
        rewrite drop_ge, take_ge in Hb by (rewrite ?length_app, ?length_drop; lia).
        replace (rm - Z.of_nat (length b)) with (n - Z.of_nat (length p - off + length b)) by lia.
        rewrite <-(assoc_L (++) (out ++ s)). exact Hb.
      * rewrite (proj2 (Z.leb_le _ _)) by done.
        assert (Htkk : tk' = (length p - off + Z.to_nat rm)%nat) by lia. rewrite Htkk in Hb.
        rewrite (proj2 (Z.eqb_eq _ _)), (proj2 (Z.ltb_ge _ _)) in Hb by lia.
        rewrite (drop_app_ge p b (off + _)) in Hb by lia.
        replace (off + (length p - off + Z.to_nat rm) - length p)%nat with (Z.to_nat rm) in Hb by lia.
        rewrite take_app_ge in Hb by (rewrite length_drop; lia). rewrite length_drop in Hb.
        replace (length p - off + Z.to_nat rm - (length p - off))%nat with (Z.to_nat rm) in Hb by lia.
        rewrite <-(assoc_L (++) (out ++ s)). exact Hb.
  - set (fb := {| fsecrets := ss; fhost := hst; pending := p ++ b; header_rewrite := hr;
      body := Headers; upgrade_pending := false; response_tracker := rt; server_pending := sp |}).
    assert (Hfail : c = false → ∀ e parser', consume b parser = (Fail e, parser') →
      (consume (drop off (p ++ b)) chunked_parser_default).1 = Fail e).
    { intros -> e parser' He. by rewrite (drop_app_le p b off), consume_app, Hc, He by lia. }
    pose proof (λ k c' parser' H, step_chunked headers off fb out s h k c' parser' Hbody Hsub H) as Hb.
    cbn [fb pending] in Hb. rewrite (drop_app_le p b off), consume_app, Hc in Hb by lia.
    pose proof (consume_bounds (drop off p) chunked_parser_default) as Hcb. rewrite Hc in Hcb.
    destruct Hcb as (Htk & Htkl & _). rewrite length_drop in Htk, Htkl. destruct c.
    + injection Hs' as <- <-. specialize (Hb tk true parser eq_refl).
      rewrite drop_app_le, take_app_le in Hb by (rewrite ?length_drop; lia).
      cbn. split_and!; [done|done|rewrite length_drop; lia|exact Hb].
    + injection Hs' as <- <-. unfold stop_extends, f'.
      cbn [body upgrade_pending pending set_body set_pending set_header_rewrite expecting set_response_tracker].
      rewrite (Htkl eq_refl) in *. replace (off + (length p - off))%nat with (length p) in * by lia.
      rewrite drop_all. split_and!; [done| |intros e parser' He; split_and!; [done|by exists s, h|by apply (Hfail eq_refl e parser')]].
      intros k c' parser' Hcb. rewrite Hcb in Hb.
      specialize (Hb _ c' parser' eq_refl). rewrite length_drop in Hb.
      rewrite (take_ge (drop off p)) by (rewrite length_drop; lia).
      replace (off + (length p - off + k))%nat with (length p + k)%nat in Hb by lia.
      rewrite drop_app_ge, take_app_ge in Hb by (rewrite ?length_drop; lia). rewrite length_drop in Hb.
      replace (length p + k - length p)%nat with k in Hb by lia.
      replace (length p - off + k - (length p - off))%nat with k in Hb by lia.
      rewrite <-(assoc_L (++) (out ++ s)).
      destruct c'; [exact Hb|]. pose proof (consume_bounds b parser) as Hbb. rewrite Hcb in Hbb.
      destruct Hbb as (_ & Hk & _). rewrite (Hk eq_refl), drop_all in Hb. rewrite (Hk eq_refl). exact Hb.
  - injection Hs' as <- <-. unfold stop_extends.
    cbn [body upgrade_pending pending set_body set_pending set_header_rewrite expecting set_response_tracker
      set_server_pending set_upgrade_pending].
    split; [done|]. rewrite <-drop_app_le by lia.
    apply (step_upgrade headers off {| fsecrets := ss; fhost := hst; pending := p ++ b; header_rewrite := hr;
      body := Headers; upgrade_pending := false; response_tracker := rt; server_pending := sp |} out s h); done.
Qed.

Lemma request_step_host headers off f out r f1 out1 :
  request_step headers off f out r (f1, out1) → fhost f1 = fhost f.
Proof. remember (f1, out1) as s' eqn:Hs'. destruct 1; simplify_eq; try done; by repeat case_match. Qed.

(** ** The flush, with more bytes behind it *)

Lemma flush_loop_none n f out :
  header_boundary (pending f) = None → flush_loop n (f, out) = (Ret tt, (f, out)).
Proof. intros Hb. destruct n; cbn [flush_loop]; run_filter; by rewrite Hb. Qed.

Lemma flush_loop_unfold n f out i :
  header_boundary (pending f) = Some i →
  flush_loop (S n) (f, out) =
  match flush_request i (f, out) with
  | (Ret true, s) => flush_loop n s
  | (Ret false, s) => (Ret tt, s)
  | (Fail e, s) => (Fail e, s)
  | (Panic, s) => (Panic, s)
  | (Timeout, s) => (Timeout, s)
  end.
Proof.
  intros Hb. cbn [flush_loop]. run_filter. rewrite Hb.
  by destruct (flush_request i (f, out)) as [[[]|e| |] s].
Qed.

(** A round that goes on consumes its request. *)
Lemma flush_request_shrinks i f out f1 out1 :
  header_boundary (pending f) = Some i → body f = Headers → upgrade_pending f = false →
  flush_request i (f, out) = (Ret true, (f1, out1)) →
  body f1 = Headers ∧ upgrade_pending f1 = false ∧ (length (pending f1) < length (pending f))%nat.
Proof.
  intros Hb Hbody Hup Hrun. apply flush_request_iff in Hrun as [_ Hstep]; [|done].
  pose proof (boundary_bound _ _ Hb).
  apply (step_extend _ _ _ _ _ _ _ []) in Hstep; [|done|done|lia]. naive_solver.
Qed.

Lemma flush_loop_fuel n m f out :
  body f = Headers → upgrade_pending f = false →
  (length (pending f) ≤ n)%nat → (length (pending f) ≤ m)%nat →
  flush_loop n (f, out) = flush_loop m (f, out).
Proof.
  revert m f out. induction n as [|n IH]; intros m f out Hbody Hup Hn Hm.
  { assert (header_boundary (pending f) = None) as Hb.
    { destruct (header_boundary (pending f)) eqn:Hb; [apply boundary_bound in Hb; lia|done]. }
    by rewrite !flush_loop_none. }
  destruct (header_boundary (pending f)) as [i|] eqn:Hb; [|by rewrite !flush_loop_none].
  pose proof (boundary_bound _ _ Hb). destruct m as [|m]; [lia|].
  rewrite !(flush_loop_unfold _ _ _ _ Hb).
  destruct (flush_request i (f, out)) as [[[]|e| |] [f1 out1]] eqn:Hrun; try done.
  apply flush_request_shrinks in Hrun as (? & ? & ?); [|done..]. apply IH; [done|done|lia|lia].
Qed.

(** What the bytes [b] do to a filter that has just stopped flushing. *)
Definition filter_resume (b : bytes) (f : Http1Filter) (out : bytes)
    : outcome HttpError unit * (Http1Filter * bytes) :=
  if upgrade_pending f then (Ret tt, (set_pending (pending f ++ b) f, out))
  else match body f with
  | Headers => flush_pending_requests (set_pending (pending f ++ b) f, out)
  | Fixed rm =>
    if Z.of_nat (length b) <? rm
    then (Ret tt, (set_body (Fixed (rm - Z.of_nat (length b))) f, out ++ b))
    else flush_pending_requests
           (set_body Headers (set_pending (drop (Z.to_nat rm) b) f), out ++ take (Z.to_nat rm) b)
  | Chunked parser =>
    match consume b parser with
    | (Ret (k, c), parser) =>
      if c : bool
      then flush_pending_requests (set_body Headers (set_pending (drop k b) f), out ++ take k b)
      else (Ret tt, (set_body (Chunked parser) f, out ++ take k b))
    | (Fail e, _) => (Fail e, (f, out))
    | (Panic, _) => (Panic, (f, out))
    | (Timeout, _) => (Timeout, (f, out))
    end
  | RawBody => (Ret tt, (f, out))
  end.

(** Two calls end alike: with the same result in the same state, or both at metadata of a chunked body
    that exceed the limit. *)
Definition alike {A S} (x y : outcome HttpError A * S) : Prop :=
  x = y ∨ x.1 = Fail ChunkMetadataExceeded ∧ y.1 = Fail ChunkMetadataExceeded.

Lemma flush_request_chunk_fails i f out e :
  header_boundary (pending f) = Some i → let headers := take (i + 4) (pending f) in
  is_github_workflow_dispatch_request headers (fhost f) = false →
  request_body headers = RequestChunked →
  (∃ s h, sub f headers (header_mode (mode_of headers (fhost f))) = (Ret s, h)) →
  (consume (drop (i + 4) (pending f)) chunked_parser_default).1 = Fail e →
  (flush_request i (f, out)).1 = Fail e.
Proof.
  intros Hb headers Hguard Hbody (s & h & Hsub) Hc. unfold flush_request. run_filter. fold headers. rewrite Hguard, Hbody.
  fold (mode_of headers (fhost f)).
  assert (substitute_into headers (header_mode (mode_of headers (fhost f))) (expecting headers f, out) =
    (Ret tt, (set_header_rewrite h (expecting headers f), out ++ s))) as Hs by (apply substitute_into_ret; eauto).
  unfold expecting in Hs. rewrite Hs. unfold flush_chunked_body. run_filter.
  change (pending (set_header_rewrite h (set_response_tracker
    (expect_response_for (response_request headers) (response_tracker f)) f))) with (pending f).
  destruct (consume (drop (i + 4) (pending f)) chunked_parser_default) as [[[]| | |] ?]; simplify_eq/=. done.
Qed.

Lemma flush_resume_filter n f out f1 out1 b :
  body f = Headers → upgrade_pending f = false → (length (pending f) ≤ n)%nat →
  flush_loop n (f, out) = (Ret tt, (f1, out1)) →
  filter_inv f1 ∧ body f1 ≠ RawBody ∧ fhost f1 = fhost f ∧
  alike (flush_pending_requests (set_pending (pending f ++ b) f, out)) (filter_resume b f1 out1).
Proof.
  revert f out. induction n as [|n IH]; intros f out Hbody Hup Hn Hrun.
  { rewrite flush_loop_none in Hrun.
    2: { destruct (header_boundary (pending f)) eqn:Hb; [apply boundary_bound in Hb; lia|done]. }
    simplify_eq. unfold filter_inv, filter_resume. rewrite Hbody, Hup. split_and!; [done..|by left]. }
  destruct (header_boundary (pending f)) as [i|] eqn:Hb.
  2: { rewrite flush_loop_none in Hrun by done. simplify_eq. unfold filter_inv, filter_resume. rewrite Hbody, Hup.
       split_and!; [done..|by left]. }
  pose proof (boundary_bound _ _ Hb) as Hi. rewrite (flush_loop_unfold _ _ _ _ Hb) in Hrun.
  set (fb := set_pending (pending f ++ b) f).
  assert (Hbb : header_boundary (pending fb) = Some i) by by apply boundary_app.
  assert (Hlb : length (pending fb) = (length (pending f) + length b)%nat) by (simpl; by rewrite length_app).
  destruct (length (pending fb)) as [|m] eqn:Hm; [lia|].
  assert (Hunf : ∀ r s, flush_request i (fb, out) = (Ret r, s) →
    flush_pending_requests (fb, out) = if r : bool then flush_loop m s else (Ret tt, s)).
  { intros r s Hr. unfold flush_pending_requests. run_filter. rewrite Hm.
    rewrite (flush_loop_unfold _ _ _ _ Hbb), Hr. by destruct r. }
  assert (Hhead : take (i + 4) (pending fb) = take (i + 4) (pending f)) by (simpl; by rewrite take_app_le by lia).
  destruct (flush_request i (f, out)) as [[r|e| |] [f2 out2]] eqn:Hreq; try done.
  apply flush_request_iff in Hreq as [Hguard Hstep]; [|done].
  pose proof (request_step_host _ _ _ _ _ _ _ Hstep) as Hhost2.
  assert (Hlift : ∀ r s, request_step (take (i + 4) (pending f)) (i + 4) fb out r s →
    flush_request i (fb, out) = (Ret r, s)).
  { intros r' s Hs. apply flush_request_iff; [done|]. by rewrite Hhead. }
  apply (step_extend _ _ _ _ _ _ _ b) in Hstep; [|done|done|lia]. destruct r.
  - destruct Hstep as (Hb2 & Hu2 & Hlen & Hext).
    destruct (IH f2 out2 Hb2 Hu2 ltac:(lia) Hrun) as (Hinv & Hraw & Hhost & Hres). split_and!; [done|done|congruence|].
    rewrite (Hunf _ _ (Hlift _ _ Hext)).
    enough (flush_loop m (set_pending (pending f2 ++ b) f2, out2) =
      flush_pending_requests (set_pending (pending f2 ++ b) f2, out2)) as -> by done.
    unfold flush_pending_requests. run_filter.
    apply flush_loop_fuel; [done|done|simpl; rewrite length_app; lia|done].
  - simplify_eq. unfold stop_extends in Hstep. unfold filter_inv, filter_resume.
    destruct (upgrade_pending f1) eqn:Hu1.
    + destruct Hstep as [-> Hext]. split_and!; [done..|]. left. by rewrite (Hunf _ _ (Hlift _ _ Hext)).
    + destruct (body f1) as [|rm|parser|] eqn:Hb1; try done.
      * destruct Hstep as [-> ->]. split_and!; [done..|by left].
      * destruct Hstep as (Hrm & Hp1 & Hext). split_and!; [done..|]. left.
        rewrite (Hunf _ _ (Hlift _ _ Hext)).
        destruct (Z.ltb_spec (Z.of_nat (length b)) rm).
        -- rewrite (proj2 (Z.leb_gt _ _)) by done. rewrite (take_ge b) by lia. done.
        -- rewrite (proj2 (Z.leb_le _ _)) by done.
           unfold flush_pending_requests. run_filter.
           apply flush_loop_fuel; [done|done|simpl; rewrite length_drop; lia|done].
      * destruct Hstep as (Hp1 & Hext & Hfails). split_and!; [done..|].
        pose proof (consume_bounds b parser) as Hcb.
        destruct (consume b parser) as [[[k c]|e| |] parser'] eqn:Hc; try done.
        -- specialize (Hext k c parser' eq_refl). left. rewrite (Hunf _ _ (Hlift _ _ Hext)).
           destruct c.
           ++ unfold flush_pending_requests. run_filter.
              apply flush_loop_fuel; [done|done|simpl; rewrite length_drop; lia|done].
           ++ destruct Hcb as (_ & Hk & _). rewrite (Hk eq_refl), (take_ge b) by lia. done.
        -- right. apply consume_fails in Hc as He. subst e. split; [|done]. destruct (Hfails _ parser' eq_refl) as (Hchunked & Hsub & Hce).
           unfold flush_pending_requests. run_filter. rewrite Hm, (flush_loop_unfold _ _ _ _ Hbb).
           pose proof (flush_request_chunk_fails i fb out ChunkMetadataExceeded Hbb) as Hf. cbv zeta in Hf. rewrite Hhead in Hf.
           specialize (Hf Hguard Hchunked Hsub Hce). destruct (flush_request i (fb, out)) as [[]]; by simplify_eq/=.
Qed.

(** ** The filter on a segmented stream *)

(** What a call wrote before does not matter. *)
Definition with_prefix {A} (pre : bytes) (r : outcome HttpError A * (Http1Filter * bytes)) : outcome HttpError A * (Http1Filter * bytes) :=
  (r.1, (r.2.1, pre ++ r.2.2)).
Definition framed {A} (m : filter_stm A) : Prop := ∀ pre f out, m (f, pre ++ out) = with_prefix pre (m (f, out)).

Lemma framed_ret {A} (a : A) : framed (mret a).
Proof. done. Qed.
Lemma framed_lift {A} (r : outcome HttpError A) : framed (stm_lift r).
Proof. done. Qed.
Lemma framed_fail {A} (e : HttpError) : framed (stm_fail e : filter_stm A).
Proof. done. Qed.
Lemma framed_get : framed get_filter.
Proof. done. Qed.
Lemma framed_modify g : framed (modify_filter g).
Proof. done. Qed.
Lemma framed_append bs : framed (append_output bs).
Proof. intros pre f out. unfold with_prefix, append_output, stm_modify, copy. simpl. by rewrite (assoc_L (++)). Qed.
Lemma framed_substitute input mode : framed (substitute_into input mode).
Proof.
  intros pre f out. unfold with_prefix, substitute_into. cbn [fst snd].
  destruct (substitute_http_for_host_into _ _ _ _ _) as [[s|e| |] h]; simpl; by rewrite ?(assoc_L (++)).
Qed.
Lemma framed_bind {A B} (m : filter_stm A) (k : A → filter_stm B) : framed m → (∀ a, framed (k a)) → framed (m ≫= k).
Proof.
  intros Hm Hk pre f out. unfold mbind, stm_bind. rewrite Hm. destruct (m (f, out)) as [[a|e| |] [f' out']]; try done. apply Hk.
Qed.
Lemma framed_if {A} (b : bool) (m m' : filter_stm A) : framed m → framed m' → framed (if b then m else m').
Proof. by destruct b. Qed.
Lemma framed_chunks off : framed (flush_chunked_body off).
Proof.
  apply framed_bind; [apply framed_get|]. intros f0. apply framed_bind.
  { intros pre f out. by destruct (consume _ _) as [[[]| | |] ?]. }
  intros [[tk c] parser]. apply framed_bind; [apply framed_append|]. intros _.
  apply framed_bind; [apply framed_modify|]. intros _. apply framed_if; [apply framed_ret|].
  apply framed_bind; [apply framed_modify|]. intros _. apply framed_ret.
Qed.

Create HintDb framed.
#[local] Hint Resolve framed_ret framed_lift framed_fail framed_get framed_modify framed_append framed_substitute framed_chunks : framed.
Ltac framed_step := first [done | solve [auto with framed] | apply framed_bind; [|intros ?] | apply framed_if | case_match].

Lemma framed_request i : framed (flush_request i).
Proof. unfold flush_request, stream_fixed_request_body, expect_response, drain_pending. repeat framed_step. Qed.
#[local] Hint Resolve framed_request : framed.

Lemma framed_flush_loop n : framed (flush_loop n).
Proof.
  induction n as [|n IH]; cbn [flush_loop]; (apply framed_bind; [apply framed_get|]; intros f); repeat framed_step.
Qed.

Lemma framed_flush : framed flush_pending_requests.
Proof. apply framed_bind; [apply framed_get|]. intros f. apply framed_flush_loop. Qed.

Lemma filter_resume_frame b f out pre : filter_resume b f (pre ++ out) = with_prefix pre (filter_resume b f out).
Proof.
  unfold filter_resume. destruct (upgrade_pending f); [done|]. destruct (body f) as [|rm|parser|]; [apply framed_flush| | |done].
  - destruct (_ <? rm); [|rewrite <-(assoc_L (++)); apply framed_flush]. unfold with_prefix. simpl. by rewrite (assoc_L (++)).
  - destruct (consume b parser) as [[[k []]|e| |] parser']; try done; rewrite <-(assoc_L (++)); [apply framed_flush|done].
Qed.

Lemma set_pending_nil f : pending f = [] → set_pending [] f = f.
Proof. destruct f; simpl. by intros ->. Qed.

Lemma push_loop_nil fuel s : push_loop fuel [] s = (Ret tt, s).
Proof. by destruct fuel. Qed.

(** What a call makes of its bytes: it goes on, and checks what it keeps. *)
Definition limited (r : outcome HttpError unit * (Http1Filter * bytes)) : outcome HttpError unit * (Http1Filter * bytes) :=
  match r with (Ret _, s) => (ensure_pending_limit (pending s.1), s) | r => r end.

Lemma limited_ret r s : limited r = (Ret tt, s) ↔ r = (Ret tt, s) ∧ ensure_pending_limit (pending s.1) = Ret tt.
Proof. split; [|by intros [-> ?]; simpl; f_equal]. destruct r as [[[]|e| |] s']; simpl; intros H; by simplify_eq. Qed.

Lemma limited_prefix pre r : limited (with_prefix pre r) = with_prefix pre (limited r).
Proof. by destruct r as [[[]|e| |] s']. Qed.

Lemma limited_alike x y : alike x y → alike (limited x) (limited y).
Proof.
  intros [->|[Hx Hy]]; [by left|]. right. destruct x as [[]], y as [[]]; by simplify_eq/=.
Qed.

Lemma push_headers fuel b f out :
  body f = Headers → b ≠ [] → push_loop (S fuel) b (f, out) = limited (flush_pending_requests (set_pending (pending f ++ b) f, out)).
Proof.
  intros Hst Hb. destruct b as [|x b]; [done|]. cbn [push_loop]. unfold ensure_limit. run_filter. rewrite Hst.
  by destruct (flush_pending_requests _) as [[[]|e| |] [f3 out3]].
Qed.

Lemma push_rest fuel b f out :
  body f = Headers → pending f = [] → (length b ≤ fuel)%nat →
  push_loop fuel b (f, out) = limited (flush_pending_requests (set_pending b f, out)).
Proof.
  intros Hst Hp Hfuel. destruct (decide (b = [])) as [->|Hb].
  - rewrite push_loop_nil, set_pending_nil by done. unfold flush_pending_requests. run_filter.
    rewrite flush_loop_none by (by rewrite Hp). unfold limited. cbn [fst]. by rewrite Hp.
  - destruct fuel as [|fuel]; [destruct b; simpl in Hfuel; [done|lia]|]. by rewrite push_headers, Hp by done.
Qed.

(** [push_loop] is the filter going on, and the check. *)
Lemma push_loop_resume b f out :
  filter_inv f → upgrade_pending f = false → body f ≠ RawBody → b ≠ [] →
  alike (push_loop (length b) b (f, out)) (limited (filter_resume b f out)).
Proof.
  intros Hinv Hup Hraw Hb. unfold filter_resume. rewrite Hup. unfold filter_inv in Hinv.
  assert (∃ fuel, length b = S fuel) as [fuel Hfuel] by (destruct b; [done|by eexists]).
  rewrite Hfuel. destruct (body f) as [|rm|parser|] eqn:Hst; [left; by apply push_headers|..|done].
  - destruct Hinv as (Hrm & Hp & _). pose proof (take_len_spec rm (length b) ltac:(lia)) as Htl. left.
    assert (push_loop (S fuel) b (f, out) = push_loop fuel (drop (take_len rm (length b)) b)
      (set_body (if rm - Z.of_nat (take_len rm (length b)) =? 0 then Headers
                 else Fixed (rm - Z.of_nat (take_len rm (length b)))) f,
       out ++ take (take_len rm (length b)) b)) as ->.
    { destruct b; [done|]. cbn [push_loop]. run_filter. by rewrite Hst. }
    rewrite <-Hfuel. destruct (Z.ltb_spec (Z.of_nat (length b)) rm) as [Hlt|Hge].
    + assert (take_len rm (length b) = length b) as -> by lia.
      rewrite drop_all, push_loop_nil, firstn_all, (proj2 (Z.eqb_neq _ _)) by lia. unfold limited. simpl. by rewrite Hp.
    + assert (take_len rm (length b) = Z.to_nat rm) as -> by lia.
      rewrite (proj2 (Z.eqb_eq _ _)) by lia.
      rewrite push_rest by (simpl; rewrite ?length_drop; done || lia). by destruct f.
  - destruct Hinv as (Hp & _). pose proof (consume_bounds b parser) as Hcb.
    assert (push_loop (S fuel) b (f, out) =
      match consume b parser with
      | (Ret (tk, complete), parser) =>
        let f := set_body (if complete : bool then Headers else Chunked parser) f in
        if (tk =? 0)%nat then (Ret tt, (f, out ++ take tk b))
        else push_loop fuel (drop tk b) (f, out ++ take tk b)
      | (Fail e, parser) => (Fail e, (set_body (Chunked parser) f, out))
      | (Panic, _) => (Panic, (f, out))
      | (Timeout, _) => (Timeout, (f, out))
      end) as ->.
    { destruct b; [done|]. cbn [push_loop]. run_filter. rewrite Hst.
      destruct (consume _ parser) as [[[k c]|e| |] parser']; try done. by destruct (k =? 0)%nat. }
    destruct (consume b parser) as [[[k c]|e| |] parser'] eqn:Hc; try done.
    + left. destruct Hcb as (Hk & Hkl & Hpos). specialize (Hpos Hb). cbv zeta.
      rewrite (proj2 (Nat.eqb_neq _ _)) by lia. destruct c.
      * rewrite push_rest by (simpl; rewrite ?length_drop; done || lia). by destruct f.
      * rewrite (Hkl eq_refl), drop_all, push_loop_nil. unfold limited. simpl. by rewrite Hp.
    + right. by apply consume_fails in Hc as ->.
Qed.

(** Bytes that come in two parts are handled as if they came at once. *)
Lemma filter_resume_app a b f out f1 out1 :
  filter_inv f → body f ≠ RawBody → filter_resume a f out = (Ret tt, (f1, out1)) →
  filter_inv f1 ∧ body f1 ≠ RawBody ∧ fhost f1 = fhost f ∧
  alike (filter_resume (a ++ b) f out) (filter_resume b f1 out1).
Proof.
  intros Hinv Hraw Ha. unfold filter_resume in Ha. unfold filter_resume at 1. unfold filter_inv in Hinv.
  (** a flush of the rest [q] of [a] *)
  assert (Hflush : ∀ g q o, body g = Headers → upgrade_pending g = false →
    flush_pending_requests (set_pending q g, o) = (Ret tt, (f1, out1)) →
    filter_inv f1 ∧ body f1 ≠ RawBody ∧ fhost f1 = fhost g ∧
      alike (flush_pending_requests (set_pending (q ++ b) g, o)) (filter_resume b f1 out1)).
  { intros g q o Hg Hu Hrun. unfold flush_pending_requests in Hrun. run_filter_in Hrun.
    by eapply (flush_resume_filter _ _ _ _ _ b) in Hrun as (? & ? & ? & Hr). }
  destruct (upgrade_pending f) eqn:Hup.
  - assert (body f = Headers) as Hbody by (destruct (body f); destruct_and?; done). simplify_eq.
    unfold filter_inv, filter_resume. simpl. rewrite Hbody, Hup. split_and!; [done..|]. left. by rewrite <-(assoc_L (++)).
  - destruct (body f) as [|rm|parser|] eqn:Hst.
    + rewrite (assoc_L (++)). by apply Hflush.
    + destruct Hinv as (Hrm & Hp & _). rewrite length_app.
      destruct (Z.ltb_spec (Z.of_nat (length a)) rm) as [Hlt|Hge].
      * simplify_eq. unfold filter_inv, filter_resume. cbn. rewrite Hup.
        split_and!; [lia|done|done|done|done|]. left. destruct (Z.ltb_spec (Z.of_nat (length b)) (rm - Z.of_nat (length a))).
        -- rewrite (proj2 (Z.ltb_lt _ _)) by lia. rewrite (assoc_L (++)).
           by replace (rm - Z.of_nat (length a) - Z.of_nat (length b)) with (rm - Z.of_nat (length a + length b)) by lia.
        -- rewrite (proj2 (Z.ltb_ge _ _)) by lia. rewrite drop_app_ge, take_app_ge, (assoc_L (++)) by lia.
           by replace (Z.to_nat rm - length a)%nat with (Z.to_nat (rm - Z.of_nat (length a))) by lia.
      * rewrite (proj2 (Z.ltb_ge _ _)) by lia. rewrite drop_app_le, take_app_le by lia.
        apply (Hflush (set_body Headers f)); [done|done|]. by destruct f.
    + destruct Hinv as (Hp & _). rewrite consume_app. pose proof (consume_bounds a parser) as Hcb.
      destruct (consume a parser) as [[[k []]|e| |] parser']; try done.
      * destruct Hcb as (Hk & _). rewrite drop_app_le, take_app_le by lia.
        apply (Hflush (set_body Headers f)); [done|done|]. by destruct f.
      * destruct Hcb as (Hk & Hkl & _). rewrite (take_ge a) in Ha by (rewrite (Hkl eq_refl); lia). simplify_eq.
        unfold filter_inv, filter_resume. cbn. rewrite Hup. split_and!; [done..|].
        pose proof (consume_bounds b parser') as Hcb.
        destruct (consume b parser') as [[[k' []]|e| |] parser''] eqn:Hc; try done;
          [left; rewrite ?drop_app_ge, take_app_ge, (assoc_L (++)) by lia;
           by replace (length a + k' - length a)%nat with k' by lia..|].
        right. by apply consume_fails in Hc as ->.
    + done.
Qed.

(** [push] over the segments of a read, the outputs one after another. *)
Fixpoint push_all (segments : list bytes) (f : Http1Filter) : option (Http1Filter * bytes) :=
  match segments with
  | [] => Some (f, [])
  | b :: segments =>
    match push b f with
    | (Ret _, f, out) => '(f, more) ← push_all segments f; Some (f, out ++ more)
    | _ => None
    end
  end.

(** [observe] over the segments of a read. *)
Fixpoint observe_all (segments : list bytes) (t : Http1ResponseTracker) : option Http1ResponseTracker :=
  match segments with
  | [] => Some t
  | b :: segments =>
    match observe b t with
    | (Ret _, t) => observe_all segments t
    | _ => None
    end
  end.

(** The end of a call: whether there is output. *)
Definition finish (r : outcome HttpError unit * (Http1Filter * bytes)) : outcome HttpError bool * Http1Filter * bytes :=
  ((λ _, negb (bool_decide (r.2.2 = []))) <$> r.1, r.2.1, r.2.2).

(** A call of [push] is the filter going on, and the check. *)
Lemma push_resume b f :
  filter_inv f → body f ≠ RawBody → b ≠ [] → ∃ x, push b f = finish x ∧ alike x (limited (filter_resume b f [])).
Proof.
  intros Hinv Hraw Hb. unfold push, push_call, with_output, has_output, ensure_limit. run_filter.
  destruct (upgrade_pending f) eqn:Hup.
  - exists (limited (filter_resume b f [])). split; [|by left]. unfold filter_resume. rewrite Hup. cbn [limited fst].
    by destruct (ensure_pending_limit _) as [[]|e| |].
  - exists (push_loop (length b) b (f, [])). split; [by destruct (push_loop _ _ _) as [[[]|e| |] [f1 out1]]|].
    by apply push_loop_resume.
Qed.

Lemma finish_ret x r f' out : finish x = (Ret r, f', out) → x = (Ret tt, (f', out)) ∧ r = negb (bool_decide (out = [])).
Proof. destruct x as [[[]|e| |] [f1 o]]; unfold finish; simpl; intros H; by simplify_eq. Qed.

Lemma alike_accepted {A S} (x y : outcome HttpError A * S) a s : alike x y → x = (Ret a, s) ∨ y = (Ret a, s) → x = (Ret a, s) ∧ y = (Ret a, s).
Proof. intros [->|[Hx Hy]]; [tauto|]. intros [->| ->]; done. Qed.

Lemma alike_trans {A S} (x y z : outcome HttpError A * S) : alike x y → alike y z → alike x z.
Proof. intros [->|[]]; [done|]. intros [<-|[]]; by right. Qed.

Lemma alike_sym {A S} (x y : outcome HttpError A * S) : alike x y → alike y x.
Proof. intros [->|[]]; [by left|by right]. Qed.

Lemma push_ret b f r f' out :
  filter_inv f → body f ≠ RawBody → b ≠ [] → push b f = (Ret r, f', out) →
  filter_resume b f [] = (Ret tt, (f', out)) ∧ ensure_pending_limit (pending f') = Ret tt.
Proof.
  intros Hinv Hraw Hb Hpush. destruct (push_resume b f Hinv Hraw Hb) as (x & Hx & Halike). rewrite Hx in Hpush.
  apply finish_ret in Hpush as [-> _]. apply (alike_accepted _ _ tt (f', out)) in Halike as [_ H]; [|by left].
  by apply limited_ret in H.
Qed.

(** Segments that are accepted, and the filter after them *)
Lemma push_all_resume segments f f1 out :
  filter_inv f → body f ≠ RawBody → Forall (λ b, b ≠ []) segments → push_all segments f = Some (f1, out) →
  filter_inv f1 ∧ body f1 ≠ RawBody ∧ fhost f1 = fhost f ∧
  (segments = [] ∧ f1 = f ∧ out = [] ∨ filter_resume (concat segments) f [] = (Ret tt, (f1, out))).
Proof.
  intros Hinv Hraw Hsegs. revert f out Hinv Hraw.
  induction Hsegs as [|b segments Hb Hsegs IH]; intros f out Hinv Hraw Hall; simpl in Hall; [simplify_eq; split_and!; by auto|].
  destruct (push b f) as [[[r|e| |] f2] out2] eqn:Hpush; try done.
  apply push_ret in Hpush as (Hres & _); [|done..].
  destruct (push_all segments f2) as [[f3 out3]|] eqn:Hrest; simplify_eq/=.
  destruct (filter_resume_app b (concat segments) f [] f2 out2 Hinv Hraw Hres) as (Hinv2 & Hraw2 & Hhost & Happ).
  destruct (IH f2 out3 Hinv2 Hraw2 Hrest) as (Hinv1 & Hraw1 & Hhost1 & Hend). split_and!; [done|done|congruence|]. right.
  destruct Hend as [(-> & -> & ->)|Hend]; [by rewrite !app_nil_r|].
  rewrite <-(app_nil_r out2), filter_resume_frame, Hend in Happ.
  by apply (alike_accepted _ _ tt (f1, out2 ++ out3)) in Happ as [? _]; [|right].
Qed.

(** The next segment is handled as it is when all come at once. *)
Lemma push_next segments b f f1 out :
  filter_inv f → body f ≠ RawBody → Forall (λ b, b ≠ []) segments → b ≠ [] → push_all segments f = Some (f1, out) →
  ∃ x y, push (concat segments ++ b) f = finish x ∧ push b f1 = finish y ∧ alike x (with_prefix out y).
Proof.
  intros Hinv Hraw Hsegs Hb Hall. destruct (push_all_resume segments f f1 out) as (Hinv1 & Hraw1 & _ & Hend); [done..|].
  destruct (push_resume b f1 Hinv1 Hraw1 Hb) as (y & Hy & Hylike).
  destruct Hend as [(-> & -> & ->)|Hend]; [exists y, y; split_and!; [done|done|left; by destruct y as [? []]]|].
  destruct (push_resume (concat segments ++ b) f Hinv Hraw) as (x & Hx & Hxlike); [by destruct (concat segments), b|].
  exists x, y. split_and!; [done|done|]. eapply alike_trans; [done|].
  destruct (filter_resume_app (concat segments) b f [] f1 out Hinv Hraw Hend) as (_ & _ & _ & Happ).
  apply limited_alike in Happ. eapply alike_trans; [done|].
  rewrite <-(app_nil_r out) at 1. rewrite filter_resume_frame, limited_prefix. apply alike_sym in Hylike.
  destruct Hylike as [->|[H1 H2]]; [by left|]. by right.
Qed.

(** ** Segmentation *)

(** how the network cuts the server's bytes into segments does not matter
    to the response tracker: observing them one after another is observing them
    at once. *)
Theorem observe_segments (segments : list bytes) (t t' : Http1ResponseTracker) :
  tracker_inv t → observe_all segments t = Some t' →
  tracker_inv t' ∧ observe (concat segments) t = (Ret tt, t').
Proof.
  revert t. induction segments as [|b segments IH]; intros t Hinv Hall; simpl in *; [by simplify_eq|].
  destruct (observe b t) as [[[]|e| |] t1] eqn:Hb; try done.
  assert (Hnil : observe [] t1 = (Ret tt, t1)) by done.
  destruct (observe_app b [] t t1 t1 Hinv Hb Hnil) as [Hinv1 _].
  destruct (IH t1 Hinv1 Hall) as [? Hrest]. split; [done|]. by eapply observe_app.
Qed.

Lemma observe_segments_witness :
  let response := bytes_of "HTTP/1.1 200 OK" ++ crlf ++ bytes_of "Content-Length: 5" ++ crlfcrlf ++ bytes_of "hello" in
  tracker_inv response_tracker_new ∧
  ∃ t', observe_all [take 7 response; drop 7 response] response_tracker_new = Some t' ∧
    observe (concat [take 7 response; drop 7 response]) response_tracker_new = (Ret tt, t').
Proof.
  intros response. split; [done|]. eexists.
  assert (Hall : observe_all [take 7 response; drop 7 response] response_tracker_new = Some response_tracker_new)
    by (vm_compute; reflexivity).
  split; [exact Hall|]. exact (proj2 (observe_segments _ response_tracker_new _ I Hall)).
Defined.

(** C10: how the network cuts the guest's bytes into segments does not matter to the filter, up to the
    first segment it refuses and outside a tunnel: after segments that were all accepted, the next segment
    is accepted if and only if all of them are accepted when pushed at once, and then the state and the
    bytes sent to the server are the same; and when it is refused, so is the whole, for the same reason
    and, unless the reason is chunk metadata that exceed the limit, in the same state and with the same
    bytes put out.  (The limits on an incomplete head apply after each segment, so a segment in the middle
    can be refused although the whole would be accepted.  In a tunnel the bytes are not parsed any more,
    and are looked at segment by segment.) *)
Theorem push_segments (segments : list bytes) (b : bytes) (f f1 : Http1Filter) (out : bytes) :
  filter_inv f → body f ≠ RawBody → Forall (λ b, b ≠ []) segments → b ≠ [] →
  push_all segments f = Some (f1, out) →
  filter_inv f1 ∧ body f1 ≠ RawBody ∧
  let '(r, f2, more) := push b f1 in
  match r with
  | Ret _ => push (concat segments ++ b) f = (Ret (negb (bool_decide (out ++ more = []))), f2, out ++ more)
  | Fail ChunkMetadataExceeded => (push (concat segments ++ b) f).1.1 = r
  | _ => push (concat segments ++ b) f = (r, f2, out ++ more)
  end.
Proof.
  intros Hinv Hraw Hsegs Hb Hall. destruct (push_all_resume segments f f1 out) as (Hinv1 & Hraw1 & _); [done..|].
  split_and!; [done|done|]. destruct (push_next segments b f f1 out) as (x & y & -> & -> & Halike); [done..|].
  unfold finish. destruct Halike as [->|[Hx Hy]].
  - destruct y as [[[]|[]| |] [f2 more]]; done.
  - rewrite Hx. destruct y as [[] [f2 more]]; by simplify_eq/=.
Qed.

Lemma push_segments_witness :
  let request := bytes_of "POST / HTTP/1.1" ++ crlf ++ bytes_of "Host: h" ++ crlf ++
    bytes_of "Content-Length: 2" ++ crlfcrlf ++ bytes_of "ok" in
  let f := http1_filter_new secrets_new (bytes_of "h") in
  filter_inv f ∧ body f ≠ RawBody ∧
  ∃ f', push (take 20 request ++ drop 20 request) f = (Ret true, f', request).
Proof.
  intros request f. split; [exact I|]. split; [discriminate|].
  assert (Hall : push_all [take 20 request] f = Some (set_pending (take 20 request) f, [])) by (vm_compute; reflexivity).
  destruct (push_segments [take 20 request] (drop 20 request) f _ [] I ltac:(discriminate) ltac:(by repeat constructor)
    ltac:(discriminate) Hall) as (_ & _ & Hpush).
  assert (Hlast : push (drop 20 request) (set_pending (take 20 request) f) =
    (Ret true, set_response_tracker {| rpending := []; requests := [Other]; rstate := RespHeaders |} f, request))
    by (vm_compute; reflexivity).
  rewrite Hlast in Hpush. eexists. exact Hpush.
Defined.
