(* ===== verification/HttpChunked.v ===== *)
(** * Chunked bodies
      (src/libs/agentdp-network/src/http1.rs, [ChunkedParser])

    The wire form of a chunked body, defined on its own: sizes as strings of hexadecimal digits with
    their value, chunk extensions, trailer fields.  The parser of [Http1] finds the end of every such
    body. *)
From S2P Require Import Prelude Text Http1 HttpStream.
Local Open Scope Z_scope.

(** ** The wire form *)

Definition hex_lower : bytes := bytes_of "0123456789abcdef".
Definition hex_upper : bytes := bytes_of "0123456789ABCDEF".

(** The character stands for the value. *)
Definition hex_digit (c d : Z) : Prop := 0 <= d ∧ (hex_lower !! Z.to_nat d = Some c ∨ hex_upper !! Z.to_nat d = Some c).

(** The string of digits, the most significant first, stands for the number. *)
Inductive hex_number : bytes → Z → Prop :=
| hex_one c d : hex_digit c d → hex_number [c] d
| hex_snoc s n c d : hex_number s n → hex_digit c d → hex_number (s ++ [c]) (16 * n + d).

(** Blanks before an extension or the end of a line *)
Definition blank (c : Z) : Prop := c = 32 ∨ c = 9.

(** What may follow the size and its blanks: nothing, or a semicolon and any text on one line *)
Inductive chunk_ext : bytes → Prop :=
| no_ext : chunk_ext []
| some_ext (text : str) : is_str text → LF ∉ text → chunk_ext (59 :: utf8_encode text).

(** The size line of [n] bytes, without the line feed that ends it *)
Inductive size_line : bytes → Z → Prop :=
| size_line_intro digits n blanks ext cr :
    hex_number digits n → n <= usize_max → Forall blank blanks → chunk_ext ext → cr = [] ∨ cr = [CR] →
    zlen (digits ++ blanks ++ ext ++ cr) < MAX_BUFFERED_HTTP_HEADERS →
    size_line (digits ++ blanks ++ ext ++ cr) n.

(** A chunk: its size line, the data and a line end *)
Definition chunk_frame (c : bytes * bytes) : bytes := c.1 ++ [LF] ++ c.2 ++ crlf.
Definition wf_chunk (c : bytes * bytes) : Prop := size_line c.1 (zlen c.2) ∧ c.2 ≠ [].

(** The trailer: fields on lines of their own, and an empty line *)
Definition wf_field (field : bytes) : Prop := field ≠ [] ∧ LF ∉ field.
Definition field_lines (fields : list bytes) : bytes := concat ((λ field, field ++ crlf) <$> fields).

Definition chunked_body (chunks : list (bytes * bytes)) (last : bytes) (fields : list bytes) : bytes :=
  concat (chunk_frame <$> chunks) ++ last ++ [LF] ++ field_lines fields ++ crlf.

(** ** Size lines are read *)

Lemma hex_digit_bounds c d : hex_digit c d → 48 <= c < 128 ∧ c ≠ 59 ∧ is_whitespace c = false ∧ c ≠ 43 ∧ d < 16.
Proof.
  intros [Hd H]. assert (Z.to_nat d < 16)%nat as Hlt by (destruct H as [H|H]; apply lookup_lt_Some in H; exact H).
  rewrite <-(Z2Nat.id d) by done. generalize dependent (Z.to_nat d). intros k H Hk.
  do 16 (destruct k as [|k]; [destruct H as [H|H]; vm_compute in H; simplify_eq; split_and!; done|]). lia.
Qed.

Lemma hex_digit_read c d : hex_digit c d → to_digit 16 c = Some d.
Proof.
  intros [Hd H]. assert (Z.to_nat d < 16)%nat as Hlt by (destruct H as [H|H]; apply lookup_lt_Some in H; exact H).
  rewrite <-(Z2Nat.id d) by done. generalize dependent (Z.to_nat d). intros k H Hk.
  do 16 (destruct k as [|k]; [destruct H as [H|H]; vm_compute in H; simplify_eq; reflexivity|]). lia.
Qed.

Lemma hex_number_digits s n : hex_number s n → s ≠ [] ∧ 0 <= n ∧ Forall (λ c, ∃ d, hex_digit c d) s.
Proof.
  induction 1 as [c d Hc|s n c d _ (Hs & Hn & Hall) Hc].
  - split_and!; [done|by destruct Hc|]. repeat constructor. by exists d.
  - split_and!; [by destruct s|destruct Hc; lia|]. apply Forall_app. split; [done|]. repeat constructor. by exists d.
Qed.

Lemma chunk_digits_app radix max acc a b :
  digits_value radix max acc (a ++ b) = v ← digits_value radix max acc a; digits_value radix max v b.
Proof.
  revert acc. induction a as [|c a IH]; intros acc; [done|]. cbn [app digits_value].
  destruct (to_digit radix c) as [d|]; [|done]. cbn. destruct (_ <=? _); [apply IH|done].
Qed.

Lemma hex_number_read s n max : hex_number s n → n <= max → digits_value 16 max 0 s = Some n.
Proof.
  intros Hs. revert max. induction Hs as [c d Hc|s n c d Hs IH Hc]; intros max Hmax.
  - cbn. rewrite (hex_digit_read c d Hc). cbn. by rewrite (proj2 (Z.leb_le _ _)).
  - apply hex_digit_read in Hc as Hr. destruct Hc as [Hd _]. apply hex_number_digits in Hs as (_ & Hn & _).
    rewrite chunk_digits_app, IH by lia. cbn. rewrite Hr. cbn. rewrite (proj2 (Z.leb_le _ _)) by lia. f_equal. lia.
Qed.

Lemma from_str_radix_hex s n : hex_number s n → n <= usize_max → from_str_radix 16 usize_max s = Some n.
Proof.
  intros Hs Hn. apply hex_number_read with (max := usize_max) in Hs as Hv; [|done].
  apply hex_number_digits in Hs as (Hne & _ & Hall). unfold from_str_radix. destruct Hall as [|c s [d Hc] _]; [done|].
  apply hex_digit_bounds in Hc as (? & _ & _ & ? & _).
  destruct s; do 6 (destruct c as [|[c|c|]|]; try done); by destruct c.
Qed.

Lemma trim_start_head c s : is_whitespace c = false → trim_start (c :: s) = c :: s.
Proof. simpl. by intros ->. Qed.

Lemma trim_start_blanks a s : Forall (λ c, is_whitespace c = true) a → trim_start (a ++ s) = trim_start s.
Proof. induction 1 as [|c a Hc _ IH]; [done|]. simpl. by rewrite Hc. Qed.

Lemma trim_start_kept s c t : is_whitespace c = false → ∃ s', trim_start (s ++ c :: t) = s' ++ c :: t.
Proof.
  intros Hc. induction s as [|x s (s' & IH)]; [exists []; by rewrite app_nil_l, trim_start_head|]. simpl.
  destruct (is_whitespace x); [by exists s'|by exists (x :: s)].
Qed.

(** The end of a text is trimmed after the last character that is not blank. *)
Lemma trim_end_kept s c t : is_whitespace c = false → ∃ t', trim_end (s ++ c :: t) = s ++ c :: t'.
Proof.
  intros Hc. unfold trim_end. rewrite reverse_app, reverse_cons, <-(assoc_L (++)). cbn [app].
  destruct (trim_start_kept (reverse t) c (reverse s) Hc) as (t' & ->).
  exists (reverse t'). by rewrite reverse_app, reverse_cons, !reverse_involutive, <-(assoc_L (++)).
Qed.

Lemma trim_end_blanks s t : Forall (λ c, is_whitespace c = true) t → trim_end (s ++ t) = trim_end s.
Proof. intros Ht. unfold trim_end. rewrite reverse_app, trim_start_blanks; [done|]. by apply Forall_reverse. Qed.

Lemma trim_word s : Forall (λ c, is_whitespace c = false) s → trim s = s.
Proof.
  intros Hs. unfold trim, trim_end. destruct s as [|c s]; [done|].
  rewrite trim_start_head by (by apply Forall_cons in Hs as [? _]). apply Forall_reverse in Hs.
  destruct (reverse (c :: s)) as [|x r] eqn:Hr; [by apply (f_equal reverse) in Hr; rewrite reverse_involutive in Hr|].
  rewrite trim_start_head by (by apply Forall_cons in Hs as [? _]). by rewrite <-Hr, reverse_involutive.
Qed.

Lemma trim_word_blanks s t :
  s ≠ [] → Forall (λ c, is_whitespace c = false) s → Forall (λ c, is_whitespace c = true) t → trim (s ++ t) = s.
Proof.
  intros Hne Hs Ht. unfold trim. destruct s as [|c s]; [done|]. cbn [app].
  rewrite trim_start_head by (by apply Forall_cons in Hs as [? _]). change (c :: s ++ t) with ((c :: s) ++ t).
  rewrite trim_end_blanks by done. pose proof (trim_word (c :: s) Hs) as Hw. unfold trim in Hw.
  by rewrite trim_start_head in Hw by (by apply Forall_cons in Hs as [? _]).
Qed.

Lemma blank_white blanks : Forall blank blanks → Forall (λ c, is_whitespace c = true) blanks.
Proof. intros H. eapply Forall_impl; [exact H|]. by intros c [->| ->]. Qed.

Lemma hex_number_word digits n : hex_number digits n → digits ≠ [] ∧ Forall (λ c, is_whitespace c = false) digits ∧
  (59 ∉ digits) ∧ (LF ∉ digits) ∧ Forall (λ c, 0 <= c < 128) digits.
Proof.
  intros (Hne & _ & Hall)%hex_number_digits.
  assert (Forall (λ c, 48 <= c < 128 ∧ c ≠ 59 ∧ is_whitespace c = false) digits) as H.
  { eapply Forall_impl; [exact Hall|]. intros c (d & Hc). apply hex_digit_bounds in Hc. naive_solver. }
  rewrite Forall_forall in H. split_and!; [done|apply Forall_forall; naive_solver|..|apply Forall_forall].
  - intros Hin%H. naive_solver.
  - intros Hin%H. unfold LF in Hin. lia.
  - intros c Hin%H. lia.
Qed.

(** What is left of a size line when it is trimmed and cut at the first semicolon *)
Lemma trim_size_line digits blanks text more :
  digits ≠ [] → Forall (λ c, is_whitespace c = false) digits → 59 ∉ digits → Forall blank blanks →
  text = [] ∨ head text = Some 59 → Forall (λ c, is_whitespace c = true) more →
  ∃ size rest, split_char 59 (trim (digits ++ blanks ++ text ++ more)) = size :: rest ∧ trim size = digits.
Proof.
  intros Hne Hw Hsemi Hblanks Htext Hmore. pose proof (blank_white blanks Hblanks) as Hb.
  assert (59 ∉ blanks) as Hnb by (intros Hin; rewrite Forall_forall in Hblanks; destruct (Hblanks _ Hin); lia).
  destruct Htext as [->|Htext].
  - rewrite trim_word_blanks by (done || by apply Forall_app). rewrite split_char_none by done.
    exists digits, []. split; [done|by apply trim_word].
  - destruct text as [|x text]; simplify_eq/=. unfold trim.
    destruct digits as [|c digits]; [done|]. cbn [app]. rewrite trim_start_head by (by apply Forall_cons in Hw as [? _]).
    destruct (trim_end_kept ((c :: digits) ++ blanks) 59 (text ++ more)) as (t & Ht); [done|].
    rewrite <-(assoc_L (++)) in Ht. cbn [app] in Ht. rewrite Ht.
    exists ((c :: digits) ++ blanks), (split_char 59 t). split; [|by apply trim_word_blanks].
    assert (59 ∉ (c :: digits) ++ blanks) as Hno by (apply not_elem_of_app; split; [exact Hsemi|exact Hnb]).
    rewrite <-(split_char_app _ _ _ Hno).
    done.
Qed.

Lemma utf8_encode_lf text : LF ∉ text → is_str text → LF ∉ utf8_encode text.
Proof.
  intros Hlf Hstr Hin. unfold utf8_encode in Hin. apply list_elem_of_bind in Hin as (c & Hc & Hin).
  unfold is_str in Hstr. rewrite Forall_forall in Hstr. pose proof (Hstr c Hin) as Hs. unfold is_scalar in Hs.
  rewrite !andb_true_iff in Hs. destruct Hs as [[H0 _] _]. apply Z.leb_le in H0.
  unfold utf8_encode_char, LF in *. destruct (c <? 128) eqn:H1.
  { apply list_elem_of_singleton in Hc. by subst. }
  apply Z.ltb_ge in H1.
  revert Hc.
  repeat case_match; rewrite ?elem_of_cons, elem_of_nil; intros Hc; Z.div_mod_to_equations; lia.
Qed.

(** A size line is read as the number it stands for. *)
Lemma size_line_read line n : size_line line n →
  (LF ∉ line) ∧ zlen line < MAX_BUFFERED_HTTP_HEADERS ∧ parse_chunk_size (line ++ [LF]) = Some n.
Proof.
  destruct 1 as [digits n blanks ext cr Hdigits Hn Hblanks Hext Hcr Hlen].
  destruct (hex_number_word digits n Hdigits) as (Hne & Hw & Hsemi & Hlf & Hasc).
  assert (LF ∉ blanks) as Hlfb by (intros Hin; rewrite Forall_forall in Hblanks; destruct (Hblanks _ Hin); unfold LF in *; lia).
  assert (LF ∉ cr) as Hlfc by (by destruct Hcr as [->| ->]; unfold LF, CR; rewrite ?elem_of_cons, elem_of_nil; lia).
  assert (∃ text, (text = [] ∨ head text = Some 59) ∧ is_str text ∧ ext = utf8_encode text ∧ LF ∉ ext)
    as (text & Htext & Hstr & -> & Hlfe).
  { destruct Hext as [|text Hstr Hlft]; [exists []; split_and!; [by left|by apply Forall_nil|done|apply not_elem_of_nil]|].
    exists (59 :: text). split_and!; [by right|apply Forall_cons; by split|done|].
    apply not_elem_of_cons. split; [unfold LF; lia|by apply utf8_encode_lf]. }
  assert (is_str (digits ++ blanks ++ text ++ cr ++ [LF]) ∧
    (digits ++ blanks ++ utf8_encode text ++ cr) ++ [LF] = utf8_encode (digits ++ blanks ++ text ++ cr ++ [LF])) as [Hs Henc].
  { assert (∀ l, Forall (λ c, 0 <= c < 128) l → is_str l) as Hascii.
    { intros l Hl. eapply Forall_impl; [exact Hl|]. intros c Hc. unfold is_scalar. cbn beta in Hc. decide_bools. done. }
    assert (Forall (λ c, 0 <= c < 128) blanks) by (eapply Forall_impl; [exact Hblanks|]; intros c [->| ->]; lia).
    assert (Forall (λ c, 0 <= c < 128) (cr ++ [LF])) as Hcrlf by (destruct Hcr as [->| ->]; repeat constructor; unfold CR, LF; lia).
    split; [unfold is_str; rewrite !Forall_app; rewrite Forall_app in Hcrlf; destruct Hcrlf; split_and!; try done; by apply Hascii|].
    rewrite !utf8_encode_app, <-!utf8_encode_app, (utf8_encode_app digits), (utf8_encode_app blanks), (utf8_encode_app text).
    rewrite (utf8_encode_ascii digits), (utf8_encode_ascii blanks), (utf8_encode_ascii (cr ++ [LF])) by done.
    by rewrite <-!(assoc_L (++)). }
  split_and!; [rewrite !not_elem_of_app; tauto|done|].
  unfold parse_chunk_size. rewrite Henc, utf8_roundtrip by done. cbn [mbind option_bind].
  destruct (trim_size_line digits blanks text (cr ++ [LF]) Hne Hw Hsemi Hblanks Htext) as (size & rest & -> & ->).
  { destruct Hcr as [->| ->]; by repeat constructor. }
  by apply from_str_radix_hex.
Qed.

(** ** The parser on the wire form *)

Definition line_parser (line : bytes) : ChunkedParser := {| chunk_state := Size; chunk_line := line |}.
Definition trailer_parser (line : bytes) : ChunkedParser := {| chunk_state := Trailer; chunk_line := line |}.

Lemma within_limit line : zlen line <= MAX_BUFFERED_HTTP_HEADERS → ensure_chunk_scratch_limit line = Ret tt.
Proof. intros. unfold ensure_chunk_scratch_limit. by rewrite (proj2 (Z.ltb_ge _ _)). Qed.

(** Bytes that do not end the line are gathered. *)
Lemma consume_line_prefix (parser : bytes → ChunkedParser) limit l line rest k :
  (∀ x line, x ≠ LF → zlen line + 1 <= limit → push_byte x (parser line) = (Ret tt, parser (line ++ [x]))) →
  (∀ line, is_complete (parser line) = false) →
  LF ∉ l → zlen line + zlen l <= limit →
  consume_loop k (l ++ rest) (parser line) = consume_loop (k + length l) rest (parser (line ++ l)).
Proof.
  intros Hpush Hopen. revert line k. induction l as [|x l IH]; intros line k Hlf Hlen.
  { by rewrite Nat.add_0_r, app_nil_r. }
  apply not_elem_of_cons in Hlf as [Hx Hl]. unfold zlen in *. simpl in Hlen.
  cbn [app consume_loop]. unfold mbind, stm_bind, stm_get. rewrite Hpush by (done || lia). rewrite Hopen.
  rewrite IH by (done || rewrite length_app; simpl; lia).
  rewrite <-(assoc_L (++)). simpl. by rewrite Nat.add_succ_r.
Qed.

Lemma push_size_byte x line : x ≠ LF → zlen line + 1 <= MAX_BUFFERED_HTTP_HEADERS →
  push_byte x (line_parser line) = (Ret tt, line_parser (line ++ [x])).
Proof.
  intros Hx Hlen. unfold push_byte. cbn [chunk_state chunk_line line_parser].
  rewrite within_limit by (unfold zlen in *; rewrite length_app; simpl; lia). by rewrite (proj2 (Z.eqb_neq x LF)).
Qed.

Lemma ends_with_last l x p y : ends_with (l ++ [x]) (p ++ [y]) = true → x = y.
Proof.
  unfold ends_with. rewrite andb_true_iff, Nat.leb_le, bool_decide_eq_true, !length_app. simpl. intros [Hlen Hd].
  assert (last (drop (length l + 1 - (length p + 1)) (l ++ [x])) = Some x) as Hlast.
  { rewrite drop_app_le by lia. apply last_snoc. }
  rewrite Hd, last_snoc in Hlast. by simplify_eq.
Qed.

Lemma push_trailer_byte x line : x ≠ LF → zlen line + 1 <= MAX_BUFFERED_HTTP_HEADERS →
  push_byte x (trailer_parser line) = (Ret tt, trailer_parser (line ++ [x])).
Proof.
  intros Hx Hlen. unfold push_byte. cbn [chunk_state chunk_line trailer_parser].
  rewrite within_limit by (unfold zlen in *; rewrite length_app; simpl; lia).
  destruct (ends_with (line ++ [x]) crlfcrlf) eqn:He.
  { change crlfcrlf with ([CR; LF; CR] ++ [LF]) in He. by apply ends_with_last in He. }
  rewrite bool_decide_eq_false_2; [done|]. intros H. change crlf with ([CR] ++ [LF]) in H.
  apply app_inj_2 in H as [_ H]; [|done]. by simplify_eq.
Qed.

Lemma consume_size_line line n rest k :
  size_line line n →
  consume_loop k (line ++ LF :: rest) (line_parser []) =
  consume_loop (k + S (length line)) rest {| chunk_state := if n =? 0 then Trailer else Data n; chunk_line := [] |}.
Proof.
  intros (Hlf & Hlen & Hparse)%size_line_read.
  rewrite (consume_line_prefix line_parser MAX_BUFFERED_HTTP_HEADERS) by (done || apply push_size_byte || (unfold zlen in *; simpl; lia)).
  cbn [app consume_loop]. unfold mbind at 1, stm_bind at 1. unfold push_byte.
  cbn [chunk_state chunk_line line_parser].
  rewrite within_limit by (unfold zlen in *; rewrite length_app; simpl; lia).
  rewrite Z.eqb_refl, Hparse. unfold mbind, stm_bind, stm_get.
  replace (S (k + length line)) with (k + S (length line))%nat by lia.
  by destruct (n =? 0).
Qed.

Lemma consume_data data rest k line :
  data ≠ [] →
  consume_loop k (data ++ rest) {| chunk_state := Data (zlen data); chunk_line := line |} =
  consume_loop (k + length data) rest {| chunk_state := DataCr; chunk_line := line |}.
Proof.
  revert k. induction data as [|x data IH]; intros k Hne; [done|].
  cbn [app consume_loop]. unfold mbind, stm_bind, stm_get, push_byte. cbn [chunk_state chunk_line].
  unfold zlen. destruct data as [|y data].
  - cbn. by rewrite Nat.add_1_r.
  - rewrite (proj2 (Z.leb_gt _ _)) by (simpl; lia). cbn [is_complete chunk_state].
    replace (Z.of_nat (length (x :: y :: data)) - 1) with (zlen (y :: data)) by (unfold zlen; simpl; lia).
    rewrite IH by done. f_equal. simpl. lia.
Qed.

Lemma consume_chunk c rest k :
  wf_chunk c →
  consume_loop k (chunk_frame c ++ rest) (line_parser []) =
  consume_loop (k + length (chunk_frame c)) rest (line_parser []).
Proof.
  destruct c as [line data]. intros [Hsize Hne]. unfold chunk_frame. cbn [fst snd] in *.
  rewrite <-!(assoc_L (++)). cbn [app]. rewrite (consume_size_line _ _ _ _ Hsize).
  assert (zlen data ≠ 0) by (unfold zlen; destruct data; simpl; [done|lia]).
  rewrite (proj2 (Z.eqb_neq _ _)) by done. rewrite consume_data by done.
  cbn [app crlf consume_loop]. unfold mbind, stm_bind, stm_get, push_byte, CR, LF.
  cbn [chunk_state chunk_line]. cbn. fold (line_parser []). f_equal.
  rewrite length_app. simpl. rewrite length_app. simpl. lia.
Qed.

Lemma consume_chunks chunks rest k :
  Forall wf_chunk chunks →
  consume_loop k (concat (chunk_frame <$> chunks) ++ rest) (line_parser []) =
  consume_loop (k + length (concat (chunk_frame <$> chunks))) rest (line_parser []).
Proof.
  intros Hc. revert k. induction Hc as [|c chunks Hc _ IH]; intros k; csimpl; [by rewrite Nat.add_0_r|].
  rewrite <-(assoc_L (++)), consume_chunk, IH by done. f_equal. rewrite length_app. lia.
Qed.

(** The end of a line in the trailer: the trailer is complete with the empty line only. *)
Lemma consume_trailer_end line rest k :
  zlen line + 2 <= MAX_BUFFERED_HTTP_HEADERS →
  consume_loop k (crlf ++ rest) (trailer_parser line) =
  if ends_with (line ++ crlf) crlfcrlf || bool_decide (line = []) then
    (Ret (k + 2, true)%nat, {| chunk_state := Complete; chunk_line := line ++ crlf |})
  else consume_loop (k + 2) rest (trailer_parser (line ++ crlf)).
Proof.
  intros Hlen. change (crlf ++ rest) with ([CR] ++ LF :: rest).
  rewrite (consume_line_prefix trailer_parser MAX_BUFFERED_HTTP_HEADERS)
    by (done || apply push_trailer_byte || (unfold zlen in *; simpl; lia) || (by apply not_elem_of_cons; split; [|apply not_elem_of_nil])).
  cbn [consume_loop]. unfold mbind, stm_bind, stm_get, push_byte. cbn [chunk_state chunk_line trailer_parser].
  rewrite <-(assoc_L (++)). change ([CR] ++ [LF]) with crlf.
  rewrite within_limit by (unfold zlen in *; rewrite length_app; simpl; lia).
  assert (bool_decide (line ++ crlf = crlf) = bool_decide (line = [])) as ->.
  { apply bool_decide_ext. split; [|by intros ->]. intros H. apply (f_equal length) in H. rewrite length_app in H.
    by destruct line; [|simpl in H; lia]. }
  change (length [CR]) with 1%nat. replace (k + 2)%nat with (S (k + 1)) by lia.
  by destruct (ends_with _ _ || _).
Qed.

Lemma ends_with_suffix l p : ends_with l p = true ↔ ∃ l', l = l' ++ p.
Proof.
  unfold ends_with. rewrite andb_true_iff, Nat.leb_le, bool_decide_eq_true. split.
  - intros [_ Hd]. exists (take (length l - length p) l). rewrite <-Hd at 2. by rewrite take_drop.
  - intros (l' & ->). rewrite length_app. split; [lia|]. by rewrite Nat.add_sub, drop_app_length.
Qed.

Lemma field_open line field : wf_field field → ends_with ((line ++ field) ++ crlf) crlfcrlf = false.
Proof.
  intros [Hne Hlf]. apply not_true_iff_false. intros (l' & Hl)%ends_with_suffix.
  change crlfcrlf with ([CR] ++ [LF] ++ crlf) in Hl. rewrite !(assoc_L (++)) in Hl. apply app_inv_tail in Hl.
  destruct (exists_last Hne) as (field' & x & ->). rewrite (assoc_L (++)) in Hl. apply app_inj_2 in Hl as [_ Hl]; [|done].
  apply not_elem_of_app in Hlf as [_ Hx]. simplify_eq. by destruct Hx; left.
Qed.

Lemma consume_fields fields line rest k :
  Forall wf_field fields → line = [] ∨ ends_with line crlf = true →
  zlen line + zlen (field_lines fields) + 2 <= MAX_BUFFERED_HTTP_HEADERS →
  (consume_loop k (field_lines fields ++ crlf ++ rest) (trailer_parser line)).1 =
  Ret (k + length (field_lines fields) + 2, true)%nat.
Proof.
  intros Hf. revert line k. induction Hf as [|field fields Hfield _ IH]; intros line k Hline Hlen.
  - cbn [field_lines fmap list_fmap concat app]. unfold field_lines, zlen in Hlen. simpl in Hlen.
    rewrite consume_trailer_end by (unfold zlen; lia). rewrite Nat.add_0_r.
    destruct Hline as [->|(l & ->)%ends_with_suffix]; [by rewrite orb_true_r|].
    rewrite (proj2 (ends_with_suffix _ _)); [done|]. exists l. by rewrite <-(assoc_L (++)).
  - unfold field_lines in Hlen |- *. cbn [fmap list_fmap concat] in Hlen |- *. fold (field_lines fields) in Hlen |- *.
    rewrite <-!(assoc_L (++)). unfold zlen in Hlen. rewrite !length_app in Hlen. simpl in Hlen.
    rewrite (consume_line_prefix trailer_parser MAX_BUFFERED_HTTP_HEADERS)
      by (done || apply push_trailer_byte || apply Hfield || (unfold zlen in *; lia)).
    rewrite consume_trailer_end by (unfold zlen; rewrite length_app; lia).
    rewrite field_open by done. rewrite bool_decide_eq_false_2; [|by destruct Hfield; destruct line, field].
    cbn [orb]. rewrite IH.
    + f_equal. f_equal. rewrite !length_app. simpl. lia.
    + right. apply ends_with_suffix. by exists (line ++ field).
    + unfold zlen. rewrite !length_app. simpl. lia.
Qed.

(** A parser that is complete after [n] bytes is not before. *)
Lemma consume_loop_open input n p j k :
  (consume_loop j input p).1 = Ret ((j + n)%nat, true) → (k < n)%nat →
  (consume_loop j (take k input) p).1 = Ret ((j + k)%nat, false).
Proof.
  revert p j k n. induction input as [|x input IH]; intros p j k n Hrun Hk; [done|].
  destruct k as [|k]; [cbn; by rewrite Nat.add_0_r|]. destruct n as [|n]; [lia|].
  cbn [take consume_loop] in *. unfold mbind, stm_bind, stm_get, mret, stm_ret in *.
  destruct (push_byte x p) as [[[]|e| |] p']; [|done..]. destruct (is_complete p').
  - simpl in Hrun. simplify_eq. lia.
  - rewrite <-Nat.add_succ_comm in Hrun |- *. apply (IH p' (S j) k n); [done|lia].
Qed.


