(* ===== verification/HttpSecrecy.v ===== *)
(** * What the HTTP/1.x filter may tell a server

    The values of the secrets a host may not receive never influence what the
    filter sends it, accepts or rejects: two filters whose secrets differ only
    in those values cannot be told apart. *)
From S2P Require Import Prelude Text Policy Raw HttpHead Http1 HttpStream.
Local Open Scope Z_scope.

(** ** The substitution of one request *)

Lemma stm_map_err_ext {S E F A} (g : E → F) (m m' : stm S E A) :
  stm_eq m m' → stm_eq (stm_map_err g m) (stm_map_err g m').
Proof. intros Hm s. unfold stm_map_err. by rewrite (Hm s). Qed.

#[export] Hint Resolve stm_map_err_ext : rust.

Lemma ensure_and_pass_same host ss ss' input :
  same_for (authority_new host) ss ss' →
  stm_eq (ensure_and_pass ss host input) (ensure_and_pass ss' host input).
Proof.
  intros Hss. apply stm_bind_ext; [|done].
  apply stm_map_err_ext, stm_lift_ext. by apply (ensure_proper host ss ss').
Qed.

Lemma substitute_http_same host ss ss' input mode :
  same_for (authority_new host) ss ss' →
  stm_eq (substitute_http_for_host_into ss host input mode) (substitute_http_for_host_into ss' host input mode).
Proof.
  intros Hss. destruct mode; cbn [substitute_http_for_host_into]; [..|done].
  - unfold substitute_http_request_for_host_into.
    destruct (header_boundary input); [|by apply ensure_and_pass_same].
    apply stm_bind_ext; [by apply stm_map_err_ext, header_bytes_same|]. intros new.
    apply stm_bind_ext; [|done].
    apply stm_map_err_ext, stm_lift_ext. by apply (substitute_body_proper host ss ss').
  - unfold substitute_http_headers_for_host_into.
    destruct (header_boundary input); [|by apply ensure_and_pass_same].
    apply stm_bind_ext; [by apply stm_map_err_ext, header_bytes_same|done].
Qed.

(** ** Calls that cannot tell two sets of secrets apart *)

Definition with_secrets (ss : RuntimeSecrets) (f : Http1Filter) : Http1Filter :=
  {| fsecrets := ss; fhost := fhost f; pending := pending f; header_rewrite := header_rewrite f;
     body := body f; upgrade_pending := upgrade_pending f; response_tracker := response_tracker f;
     server_pending := server_pending f |}.

Section blind.
Context (host : str) (ss ss' : RuntimeSecrets) (Hss : same_for (authority_new host) ss ss').

Definition holds (f : Http1Filter) : Prop := fsecrets f = ss ∧ fhost f = host.

(** The call does the same on the filter with the other secrets, and leaves secrets and host alone. *)
Definition blind {A} (m : filter_stm A) : Prop := ∀ f out, holds f →
  let '(r, (f1, out1)) := m (f, out) in
  holds f1 ∧ m (with_secrets ss' f, out) = (r, (with_secrets ss' f1, out1)).

Lemma blind_bind {A B} (m : filter_stm A) (k : A → filter_stm B) :
  blind m → (∀ a, blind (k a)) → blind (m ≫= k).
Proof.
  intros Hm Hk f out Hf. specialize (Hm f out Hf). unfold mbind, stm_bind.
  destruct (m (f, out)) as [r [f1 out1]]. destruct Hm as [Hf1 ->].
  destruct r; [apply (Hk _ _ _ Hf1)|done..].
Qed.

(** Reading the filter: the rest may not look at its secrets. *)
Lemma blind_get {A} (k : Http1Filter → filter_stm A) :
  (∀ f, k (with_secrets ss' f) = k f) → (∀ f, fhost f = host → blind (k f)) → blind (f ← get_filter; k f).
Proof.
  intros Heq Hk f out Hf. unfold mbind, stm_bind, get_filter. cbn [fst]. rewrite Heq.
  by apply (Hk f (proj2 Hf) f out Hf).
Qed.

Lemma blind_ret {A} (a : A) : blind (mret a).
Proof. by intros f out Hf. Qed.
Lemma blind_lift {A} (r : outcome HttpError A) : blind (stm_lift r).
Proof. by intros f out Hf. Qed.
Lemma blind_fail {A} e : blind (stm_fail (A:=A) e).
Proof. by intros f out Hf. Qed.
Lemma blind_append b : blind (append_output b).
Proof. by intros f out Hf. Qed.
Lemma blind_has_output : blind has_output.
Proof. by intros f out Hf. Qed.
Lemma blind_raw b : blind (raw_process b).
Proof. intros f out Hf. unfold raw_process. cbn [fst snd]. by destruct (process b out). Qed.

Lemma blind_modify (g : Http1Filter → Http1Filter) :
  (∀ f, g (with_secrets ss' f) = with_secrets ss' (g f)) →
  (∀ f, fsecrets (g f) = fsecrets f ∧ fhost (g f) = fhost f) → blind (modify_filter g).
Proof.
  intros Hg Hkeep f out [Hs Hh]. unfold modify_filter, stm_modify. destruct (Hkeep f).
  split; [split; congruence|]. by rewrite Hg.
Qed.

Lemma blind_substitute input mode : blind (substitute_into input mode).
Proof.
  intros f out [Hs Hh]. unfold substitute_into. cbn [fst snd with_secrets fsecrets fhost header_rewrite].
  rewrite Hs, Hh, <-(substitute_http_same host ss ss' input mode Hss (header_rewrite f)).
  by destruct (substitute_http_for_host_into _ _ _ _ _) as [[] h].
Qed.

Ltac blind_step :=
  first
  [ apply blind_ret | apply blind_lift | apply blind_fail | apply blind_append | apply blind_has_output
  | apply blind_raw | apply blind_substitute
  | apply blind_modify; [by intros []|by intros []]
  | apply blind_get; [by intros []|intros f Hhost]
  | apply blind_bind; [|intros ?]
  | progress case_match
  | assumption ].
Ltac blind := repeat blind_step.

Lemma blind_stream_fixed n off mode : blind (stream_fixed_request_body n off mode).
Proof. unfold stream_fixed_request_body. blind. Qed.

Lemma blind_chunked off : blind (flush_chunked_body off).
Proof.
  unfold flush_chunked_body. apply blind_get; [by intros []|]. intros f Hf. apply blind_bind.
  - intros g out Hg. by destruct (consume _ _) as [[[]|e| |] ?].
  - intros [[take complete] parser]. blind.
Qed.

Lemma blind_flush_request i : blind (flush_request i).
Proof.
  unfold flush_request. apply blind_get; [by intros []|]. intros f Hf. cbv zeta.
  destruct (is_github_workflow_dispatch_request _ _); [blind|].
  destruct (request_body _); unfold expect_response, drain_pending;
    repeat first [apply blind_stream_fixed | apply blind_chunked | blind_step].
Qed.

Lemma blind_flush_loop n : blind (flush_loop n).
Proof.
  induction n as [|n IH]; cbn [flush_loop]; apply blind_get; try (by intros []); intros f Hf.
  - blind.
  - destruct (header_boundary (pending f)); [|blind].
    apply blind_bind; [apply blind_flush_request|]. intros []; [exact IH|blind].
Qed.

Lemma blind_flush : blind flush_pending_requests.
Proof. unfold flush_pending_requests. apply blind_get; [by intros []|]. intros f Hf. apply blind_flush_loop. Qed.

Lemma blind_ensure_limit : blind ensure_limit.
Proof. unfold ensure_limit. blind. Qed.

Lemma blind_push_loop fuel input : blind (push_loop fuel input).
Proof.
  revert input. induction fuel as [|fuel IH]; intros input; (destruct input as [|x input]; [apply blind_ret|]);
    cbn [push_loop]; [apply blind_lift|].
  apply blind_get; [by intros []|]. intros f Hf. destruct (body f) as [|n|parser|].
  - apply blind_bind; [blind|]. intros _. apply blind_bind; [apply blind_flush|]. intros _. apply blind_ensure_limit.
  - cbv zeta. apply blind_bind; [blind|]. intros _. apply blind_bind; [blind|]. intros _. apply IH.
  - destruct (consume _ _) as [[[take complete]|e| |] p]; [|blind..].
    apply blind_bind; [blind|]. intros _. apply blind_bind; [blind|]. intros _.
    destruct (take =? 0)%nat; [blind|apply IH].
  - blind.
Qed.

(** A public call that is blind gives the same answer and the same output. *)
Lemma blind_with_output m f :
  blind m → holds f →
  with_output m (with_secrets ss' f) =
  let '(r, f1, out) := with_output m f in (r, with_secrets ss' f1, out).
Proof.
  intros Hm Hf. specialize (Hm f [] Hf). unfold with_output.
  destruct (m (f, [])) as [r [f1 out1]]. by destruct Hm as [_ ->].
Qed.

Lemma blind_push input :
  blind (push_call input).
Proof.
  unfold push_call.
  apply blind_get; [by intros []|]. intros f Hf.
  repeat first [apply blind_ensure_limit | apply blind_push_loop | blind_step].
Qed.

Lemma blind_server input :
  blind (server_plaintext_call input).
Proof.
  unfold server_plaintext_call.
  apply blind_get; [by intros []|]. intros f Hf. cbv zeta.
  repeat first [apply blind_ensure_limit | apply blind_flush | blind_step].
Qed.
End blind.

(** The bytes a connection hands to its filter. *)
Inductive event :=
| FromGuest (input : bytes)
| ServerPlaintext (input : bytes)
| ServerResponse (input : bytes).

(** What an observer of the connection sees of one call: its result and what is sent. *)
Definition filter_event (e : event) (f : Http1Filter) : outcome HttpError bool * Http1Filter * bytes :=
  match e with
  | FromGuest input => push input f
  | ServerPlaintext input => observe_server_plaintext input f
  | ServerResponse input => let '(r, f) := observe_response input f in ((λ _, false) <$> r, f, [])
  end.

(** The calls up to the first one that fails. *)
Fixpoint filter_trace (events : list event) (f : Http1Filter) : list (outcome HttpError bool * bytes) :=
  match events with
  | [] => []
  | e :: events =>
    let '(r, f, out) := filter_event e f in
    (r, out) :: match r with Ret _ => filter_trace events f | _ => [] end
  end.

Lemma filter_event_same host ss ss' e f :
  same_for (authority_new host) ss ss' → fsecrets f = ss ∧ fhost f = host →
  filter_event e (with_secrets ss' f) =
    (let '(r, f1, out) := filter_event e f in (r, with_secrets ss' f1, out)) ∧
  (let '(r, f1, out) := filter_event e f in fsecrets f1 = ss ∧ fhost f1 = host).
Proof.
  intros Hss Hf. destruct e as [input|input|input].
  - pose proof (blind_push host ss ss' Hss input f [] Hf) as Hb.
    split; [by eapply blind_with_output; [eapply blind_push|]|].
    cbn [filter_event]. unfold push, with_output.
    destruct (push_call input (f, [])) as [r [f1 out1]]. apply Hb.
  - pose proof (blind_server host ss ss' Hss input f [] Hf) as Hb.
    split; [by eapply blind_with_output; [eapply blind_server|]|].
    cbn [filter_event]. unfold observe_server_plaintext, with_output.
    destruct (server_plaintext_call input (f, [])) as [r [f1 out1]]. apply Hb.
  - unfold filter_event, observe_response. cbn [with_secrets response_tracker].
    by destruct (observe input (response_tracker f)) as [[] t].
Qed.

Lemma filter_trace_same (host : str) (ss ss' : RuntimeSecrets) (events : list event) :
  same_for (authority_new host) ss ss' →
  filter_trace events (http1_filter_new ss' host) = filter_trace events (http1_filter_new ss host).
Proof.
  intros Hss. change (http1_filter_new ss' host) with (with_secrets ss' (http1_filter_new ss host)).
  assert (Hf : fsecrets (http1_filter_new ss host) = ss ∧ fhost (http1_filter_new ss host) = host) by done.
  revert Hf. generalize (http1_filter_new ss host) as f.
  induction events as [|e events IH]; intros f Hf; [done|]. cbn [filter_trace].
  destruct (filter_event_same host ss ss' e f Hss Hf) as [-> Hf1].
  destruct (filter_event e f) as [[r f1] out]. f_equal. destruct r; [by apply IH|done..].
Qed.

(** C8: the values of the secrets a host may not receive influence nothing an
    observer of its connections can see - not one byte sent, not one result -
    whatever the guest and the server send, in whatever segments. *)
Theorem filter_noninterference (host : str) (ss ss' : RuntimeSecrets) (events : list event) :
  same_for (authority_new host) ss ss' →
  filter_trace events (http1_filter_new ss' host) = filter_trace events (http1_filter_new ss host).
Proof. apply filter_trace_same. Qed.

Lemma filter_noninterference_witness :
  let host := bytes_of "other.example.com" in
  let secrets v := secrets_insert (runtime_secret_new (bytes_of "AGENTDP_SECRET_TOKEN") v
                     [bytes_of "api.example.com"]) secrets_new in
  let request := bytes_of "GET /?t=x HTTP/1.1" ++ crlf ++ bytes_of "Host: other.example.com" ++ crlfcrlf in
  same_for (authority_new host) (secrets (bytes_of "one")) (secrets (bytes_of "two")) ∧
  filter_trace [FromGuest request] (http1_filter_new (secrets (bytes_of "one")) host) = [(Ret true, request)] ∧
  filter_trace [FromGuest request] (http1_filter_new (secrets (bytes_of "two")) host) = [(Ret true, request)].
Proof.
  intros host secrets request.
  assert (Hss : same_for (authority_new host) (secrets (bytes_of "one")) (secrets (bytes_of "two"))).
  { constructor; [|constructor]. split; [reflexivity|]. split; [reflexivity|]. intros Ha. vm_compute in Ha. discriminate Ha. }
  assert (H1 : filter_trace [FromGuest request] (http1_filter_new (secrets (bytes_of "one")) host) = [(Ret true, request)])
    by (vm_compute; reflexivity).
  split; [exact Hss|]. split; [exact H1|].
  rewrite (filter_noninterference host (secrets (bytes_of "one")) (secrets (bytes_of "two")) [FromGuest request] Hss).
  exact H1.
Defined.
