(* ===== verification/HttpGuard.v ===== *)
(** * The workflow dispatch guard of the HTTP/1.x filter

    A guest may not start GitHub workflows: whatever the case, the percent
    encoding, the form of the target or the blank lines in front of it, a
    dispatch request to api.github.com is refused before one byte of it is
    sent, and nothing else is taken for one. *)
From S2P Require Import Prelude Text Policy Raw HttpHead Http1 HttpStream.
Local Open Scope Z_scope.

(** ** Percent encoding *)

(** The bytes a percent-encoded string stands for. *)
Fixpoint percent_decode (input : bytes) : option bytes :=
  match input with
  | [] => Some []
  | b :: rest =>
    if b =? 37 then
      match rest with
      | h :: l :: rest =>
        high ← hex_value h; low ← hex_value l;
        cons (16 * high + low) <$> percent_decode rest
      | _ => None
      end
    else cons b <$> percent_decode rest
  end.

(** [input] is the percent encoding of some spelling of the ASCII word [w]. *)
Definition encodes (w : string) (input : bytes) : Prop :=
  ∃ decoded, percent_decode input = Some decoded ∧ eq_ignore_ascii_case decoded (bytes_of w) = true.

Lemma hex_value_range b h : hex_value b = Some h → 0 <= h < 16.
Proof. unfold hex_value. repeat case_match; intros; simplify_eq; lia. Qed.

Lemma eq_ignore_cons a x e y :
  eq_ignore_ascii_case (a :: x) (e :: y) = (to_ascii_lowercase a =? to_ascii_lowercase e) && eq_ignore_ascii_case x y.
Proof.
  unfold eq_ignore_ascii_case. csimpl. destruct (Z.eqb_spec (to_ascii_lowercase a) (to_ascii_lowercase e)) as [->|Hne].
  - rewrite andb_true_l. apply bool_decide_ext. split; [congruence|by intros ->].
  - apply bool_decide_eq_false. congruence.
Qed.

Lemma percent_decoded_eq_spec input expected :
  percent_decoded_eq input expected = true ↔
  ∃ decoded, percent_decode input = Some decoded ∧ eq_ignore_ascii_case decoded expected = true.
Proof.
  remember (length input) as n eqn:Hn. revert input expected Hn.
  induction (lt_wf n) as [n _ IH]. intros input expected ->.
  destruct input as [|b rest].
  { cbn. unfold eq_ignore_ascii_case. rewrite bool_decide_eq_true. split.
    - intros ->. by exists [].
    - intros (d & [= <-] & Hd). apply bool_decide_eq_true in Hd. symmetry in Hd. by apply fmap_nil_inv in Hd. }
  (** one decoded byte *)
  assert (Hnext : ∀ v r, (length r < length (b :: rest))%nat →
    match expected with
    | [] => false
    | e :: expected => (to_ascii_lowercase v =? to_ascii_lowercase e) && percent_decoded_eq r expected
    end = true ↔
    ∃ decoded, cons v <$> percent_decode r = Some decoded ∧ eq_ignore_ascii_case decoded expected = true).
  { intros v r Hr. destruct expected as [|e expected].
    - split; [done|]. intros (d & Hd & Heq). destruct (percent_decode r); simplify_eq/=.
    - rewrite andb_true_iff, (IH _ Hr) by done. split.
      + intros (Hv & d & Hd & Heq). exists (v :: d). by rewrite Hd, eq_ignore_cons, Hv.
      + intros (d & Hd & Heq). destruct (percent_decode r) as [d'|]; simplify_eq/=.
        rewrite eq_ignore_cons, andb_true_iff in Heq. naive_solver. }
  cbn [percent_decoded_eq percent_decode]. destruct (b =? 37); [|apply Hnext; simpl; lia].
  destruct rest as [|h [|l rest]]; try (split; [done|naive_solver]).
  destruct (hex_value h) as [high|] eqn:Hh; cbn [mbind option_bind]; [|split; [done|naive_solver]].
  destruct (hex_value l) as [low|] eqn:Hl; cbn [mbind option_bind]; [|split; [done|naive_solver]].
  apply hex_value_range in Hh, Hl.
  rewrite (lor_shiftl_add high low 4) by (simpl; lia). change (2 ^ 4) with 16.
  rewrite (Z.mul_comm high). apply Hnext. simpl. lia.
Qed.

(** ** Paths *)

(** The slash-separated segments of a path, a tail that is not part of it aside. *)
Definition dispatch_path (path : bytes) : Prop :=
  ∃ repos owner repo actions workflows id dispatches tail,
    path = [47] ++ repos ++ [47] ++ owner ++ [47] ++ repo ++ [47] ++ actions ++ [47] ++ workflows ++
           [47] ++ id ++ [47] ++ dispatches ++ tail ∧
    Forall (λ s, Forall (λ c, path_delimiter c = false) s)
      [repos; owner; repo; actions; workflows; id; dispatches] ∧
    (tail = [] ∨ ∃ c more, tail = c :: more ∧ (c = 63 ∨ c = 35)) ∧
    encodes "repos" repos ∧ owner ≠ [] ∧ repo ≠ [] ∧ encodes "actions" actions ∧
    encodes "workflows" workflows ∧ id ≠ [] ∧ encodes "dispatches" dispatches.

Lemma split_char_pieces c s : Forall (λ p, c ∉ p) (split_char c s).
Proof.
  induction s as [|x s IH]; cbn [split_char]; [constructor; [set_solver|constructor]|].
  destruct (Z.eqb_spec x c); [constructor; [set_solver|done]|].
  destruct IH; (constructor; [|done]); set_solver.
Qed.

Lemma elem_of_join c x p ps : p ∈ ps → x ∈ p → x ∈ join c ps.
Proof.
  induction ps as [|q ps IH]; [by intros ?%elem_of_nil|].
  assert (Hj : ∀ y, (y ∈ q ∨ y ∈ join c ps) → y ∈ join c (q :: ps)).
  { intros y Hy. destruct ps as [|r ps]; [by destruct Hy as [|?%elem_of_nil]|].
    change (y ∈ q ++ c :: join c (r :: ps)). apply elem_of_app. destruct Hy; [by left|right; by right]. }
  intros [->|Hp]%elem_of_cons Hx; apply Hj; [by left|right; by apply IH].
Qed.

Lemma delimiter_free s c : Forall (λ c, path_delimiter c = false) s → path_delimiter c = true → c ∉ s.
Proof. rewrite Forall_forall. intros Hs Hc Hin. apply Hs in Hin. congruence. Qed.

Lemma position_middle {A} (p : A → bool) a x b :
  Forall (λ y, p y = false) a → p x = true → position p (a ++ x :: b) = Some (length a).
Proof. induction 1 as [|y a Hy Ha IH]; intros Hx; cbn [app position]; [by rewrite Hx|]. by rewrite Hy, IH. Qed.

Lemma position_all {A} (p : A → bool) a : Forall (λ y, p y = false) a → position p a = None.
Proof. induction 1 as [|y a Hy Ha IH]; cbn [position]; [done|]. by rewrite Hy, IH. Qed.

(** The end of the path is where the query or the fragment starts. *)
Definition query_start (b : Z) : bool := (b =? 63) || (b =? 35).

Lemma path_prefix a tail :
  Forall (λ c, query_start c = false) a → (tail = [] ∨ ∃ c more, tail = c :: more ∧ (c = 63 ∨ c = 35)) →
  take (default (length (a ++ tail)) (position query_start (a ++ tail))) (a ++ tail) = a.
Proof.
  intros Ha [->|(c & more & -> & Hc)].
  - rewrite app_nil_r, position_all by done. by apply take_ge.
  - rewrite position_middle; [by apply take_app_length|done|]. by destruct Hc as [->| ->].
Qed.

Lemma workflow_dispatch_path_spec path : workflow_dispatch_path path = true ↔ dispatch_path path.
Proof.
  unfold workflow_dispatch_path.
  assert (Hend : (match position (λ b, (b =? 63) || (b =? 35)) path with Some i => i | None => length path end) =
    default (length path) (position query_start path)) by (change (λ b, (b =? 63) || (b =? 35)) with query_start; by destruct (position query_start path)).
  rewrite Hend. clear Hend. split.
  - set (n := default (length path) (position query_start path)).
    assert (Htail : drop n path = [] ∨ ∃ c more, drop n path = c :: more ∧ (c = 63 ∨ c = 35)).
    { unfold n. destruct (position query_start path) as [i|] eqn:Hi; cbn; [|left; apply drop_all].
      right. apply position_spec in Hi as (c & Hc & Hq & _). exists c, (drop (S i) path).
      split; [by apply drop_S|]. unfold query_start in Hq. lia. }
    assert (Hq : Forall (λ c, query_start c = false) (take n path)).
    { apply Forall_forall. intros c (j & Hj)%list_elem_of_lookup. apply lookup_take_Some in Hj as [Hj Hlt].
      unfold n in Hlt. destruct (position query_start path) as [i|] eqn:Hi; cbn in Hlt.
      - apply position_spec in Hi as (_ & _ & _ & Hmin). by eapply Hmin.
      - eapply position_none; [done|]. by eapply list_elem_of_lookup_2. }
    pose proof (join_split_char 47 (take n path)) as Hjoin.
    pose proof (split_char_pieces 47 (take n path)) as Hpieces.
    destruct (split_char 47 (take n path)) as [|root [|repos [|owner [|repo [|actions [|workflows [|id [|dispatches [|? ?]]]]]]]]];
      try done.
    rewrite !andb_true_iff, !negb_true_iff, !bool_decide_eq_false, bool_decide_eq_true, !percent_decoded_eq_spec.
    intros [[[[[[[-> Hr] Ho] Hrp] Ha] Hw] Hi] Hd].
    exists repos, owner, repo, actions, workflows, id, dispatches, (drop n path). cbn [join] in Hjoin.
    split_and!; try done.
    + rewrite <-(take_drop n path) at 1. rewrite <-Hjoin. by repeat (cbn [app]; rewrite <-?(assoc_L (++))).
    + rewrite <-Hjoin in Hq. apply Forall_forall. intros s Hs. apply Forall_forall. intros c Hc.
      rewrite Forall_forall in Hpieces. specialize (Hpieces s ltac:(by right)).
      rewrite Forall_forall in Hq. specialize (Hq c).
      assert (query_start c = false) as Hqc.
      { apply Hq. apply (elem_of_join 47 c s ([] :: [repos; owner; repo; actions; workflows; id; dispatches]));
          [by right|done]. }
      unfold query_start in Hqc. unfold path_delimiter.
      destruct (Z.eqb_spec c 47) as [->|]; [done|]. cbn. done.
  - intros (repos & owner & repo & actions & workflows & id & dispatches & tail & Hpath & Hfree & Htail & Hr & Ho & Hrp & Ha & Hw & Hi & Hd).
    set (a := [47] ++ repos ++ [47] ++ owner ++ [47] ++ repo ++ [47] ++ actions ++ [47] ++ workflows ++
           [47] ++ id ++ [47] ++ dispatches).
    assert (path = a ++ tail) as -> by (rewrite Hpath; unfold a; by rewrite <-!(assoc_L (++))).
    rewrite !Forall_cons in Hfree. destruct Hfree as (F1 & F2 & F3 & F4 & F5 & F6 & F7 & _).
    rewrite path_prefix; [|unfold a|done].
    2: { assert (Hw' : ∀ s, Forall (λ c, path_delimiter c = false) s → Forall (λ c, query_start c = false) s).
         { intros s Hs. eapply Forall_impl; [exact Hs|]. unfold path_delimiter, query_start. intros c Hc.
           by destruct (c =? 63), (c =? 35), (c =? 47). }
         rewrite !Forall_app. split_and!; auto; by repeat constructor. }
    unfold a. cbn [app]. change (47 :: repos ++ ?x) with ([] ++ 47 :: repos ++ x).
    rewrite !split_char_app by (first [by apply (delimiter_free _ 47)|set_solver]).
    rewrite split_char_none by (by apply (delimiter_free _ 47)).
    rewrite !(proj2 (percent_decoded_eq_spec _ _)) by done.
    by rewrite (bool_decide_eq_false_2 (owner = [])), (bool_decide_eq_false_2 (repo = [])),
      (bool_decide_eq_false_2 (id = [])) by done.
Qed.

(** ** The request line *)

Definition words (line : bytes) : list bytes := filter (λ part, part ≠ []) (split_ascii_whitespace line).

Definition blank (s : bytes) : Prop := Forall (λ b, is_ascii_whitespace b = true) s.
Definition solid (s : bytes) : Prop := s ≠ [] ∧ Forall (λ b, is_ascii_whitespace b = false) s.

Lemma split_ascii_cons x s : is_ascii_whitespace x = true → split_ascii_whitespace (x :: s) = [] :: split_ascii_whitespace s.
Proof. intros Hx. cbn [split_ascii_whitespace]. by rewrite Hx. Qed.

Lemma words_blank w s : blank w → words (w ++ s) = words s.
Proof.
  unfold words. induction 1 as [|x w Hx Hw IH]; [done|]. cbn [app].
  rewrite split_ascii_cons, filter_cons_False by (done || naive_solver). exact IH.
Qed.

Lemma split_ascii_solid m s :
  Forall (λ b, is_ascii_whitespace b = false) m →
  split_ascii_whitespace (m ++ s) =
  match split_ascii_whitespace s with [] => [m] | p :: ps => (m ++ p) :: ps end.
Proof.
  induction 1 as [|x m Hx Hm IH]; cbn [app].
  - destruct s as [|y s]; [done|]. cbn [split_ascii_whitespace]. by repeat case_match.
  - cbn [split_ascii_whitespace]. rewrite Hx, IH. by destruct (split_ascii_whitespace s).
Qed.

Lemma words_solid m w s : solid m → blank w → w ≠ [] → words (m ++ w ++ s) = m :: words s.
Proof.
  intros [Hne Hm] Hw Hwne. destruct Hw as [|x w Hx Hw]; [done|]. unfold words. cbn [app].
  rewrite split_ascii_solid, split_ascii_cons, app_nil_r, filter_cons_True by done.
  f_equal. by apply (words_blank w).
Qed.

Lemma words_last m w : solid m → blank w → words (m ++ w) = [m].
Proof.
  intros Hm Hw. destruct w as [|x w].
  - destruct Hm as [Hne Hm]. unfold words. rewrite split_ascii_solid by done.
    cbn [split_ascii_whitespace]. by rewrite app_nil_r, filter_cons_True by done.
  - rewrite <-(app_nil_r (x :: w)), words_solid by done. done.
Qed.

(** A carriage return at the end of the line changes no word of it. *)
Lemma words_strip_cr line : words (strip_suffix_cr line) = words line.
Proof.
  unfold strip_suffix_cr. destruct (reverse line) as [|x r] eqn:Hr; [done|].
  assert (line = reverse r ++ [x]) as -> by (rewrite <-(reverse_involutive line), Hr; apply reverse_cons).
  destruct (decide (x = 13)) as [->|Hx].
  - generalize (reverse r) as l. intros l. induction l as [|y l IH]; [done|]. unfold words in *. cbn [app split_ascii_whitespace].
    destruct (is_ascii_whitespace y); [exact IH|].
    assert (Hsplit : ∀ l, ∃ p ps, split_ascii_whitespace l = p :: ps ∧
      (split_ascii_whitespace (l ++ [13]) = p :: ps ++ [[]])).
    { clear. induction l as [|z l (p & ps & H1 & H2)]; [by exists [], []|]. cbn [app split_ascii_whitespace].
      rewrite H1, H2. destruct (is_ascii_whitespace z); eauto. }
    destruct (Hsplit l) as (p & ps & -> & ->).
    rewrite !filter_cons_True, filter_app by done. by rewrite filter_cons_False, app_nil_r by naive_solver.
  - repeat (case_match; try done).
Qed.

(** A target that asks for [path], in origin form or in absolute form. *)
Definition target_of (path target : bytes) : Prop :=
  starts_with path [47] = true ∧
  (target = path ∨
   ∃ scheme authority, target = scheme ++ bytes_of "://" ++ authority ++ path ∧
     starts_with target [47] = false ∧ ¬ occurs (bytes_of "://") (scheme ++ bytes_of ":/") ∧
     Forall (λ c, path_delimiter c = false) authority).

(** A line that asks to dispatch a workflow. *)
Definition dispatch_line (line : bytes) : Prop :=
  ∃ w0 method w1 target w2 version w3 path,
    line = w0 ++ method ++ w1 ++ target ++ w2 ++ version ++ w3 ∧
    blank w0 ∧ blank w1 ∧ blank w2 ∧ blank w3 ∧ w1 ≠ [] ∧ w2 ≠ [] ∧
    solid method ∧ solid target ∧ solid version ∧
    eq_ignore_ascii_case method (bytes_of "POST") = true ∧ is_version version = true ∧
    target_of path target ∧ dispatch_path path.

(** A head whose first line that is not empty asks to dispatch a workflow. *)
Definition dispatch_head (head : bytes) : Prop :=
  ∃ empty line more, head = concat empty ++ line ++ LF :: more ∧
    Forall (λ l, l = [LF] ∨ l = crlf) empty ∧ (LF ∉ line) ∧ dispatch_line line.

Lemma find_sub_first pre needle post :
  needle ≠ [] → ¬ occurs needle (pre ++ take (length needle - 1) needle) →
  find_sub (pre ++ needle ++ post) needle = Some (length pre).
Proof.
  intros Hne Hno. pose proof (find_sub_spec (pre ++ needle ++ post) needle) as Hs.
  assert (Hat : starts_with (drop (length pre) (pre ++ needle ++ post)) needle = true).
  { rewrite drop_app_length. apply starts_with_spec. by exists post. }
  destruct (find_sub _ needle) as [i|]; [|by rewrite (Hs (length pre)) in Hat].
  destruct Hs as ((post' & Hi) & Hlen & Hmin). f_equal.
  destruct (Nat.lt_trichotomy i (length pre)) as [Hlt|[Heq|Hgt]]; [|done|by rewrite (Hmin _ Hgt) in Hat].
  destruct Hno. apply (f_equal (take (length pre + (length needle - 1)))) in Hi.
  assert (Hl : (0 < length needle)%nat) by (destruct needle; [done|simpl; lia]).
  rewrite (take_app_add pre) in Hi.
  rewrite (take_app_le needle) in Hi by lia. rewrite Hi.
  rewrite take_app_ge by (rewrite length_take; lia).
  rewrite (take_app_ge needle) by (rewrite length_take; lia).
  by eexists _, _.
Qed.

Lemma target_of_path path target : target_of path target → request_target_path target = Some path.
Proof.
  intros [Hp [->|(scheme & authority & Ht & Hs & Hno & Ha)]]; unfold request_target_path; [by rewrite Hp|].
  rewrite Hs, Ht, find_sub_first by done. cbn [mbind option_bind].
  replace (length scheme + 3)%nat with (length (scheme ++ bytes_of "://")) by (rewrite length_app; done).
  rewrite (assoc_L (++) scheme), drop_app_length.
  destruct path as [|x path]; [done|]. cbn [starts_with] in Hp.
  apply andb_true_iff in Hp as [->%Z.eqb_eq _].
  rewrite position_middle by done. rewrite list_lookup_middle, bool_decide_eq_true_2 by done.
  by rewrite drop_app_length.
Qed.

Lemma request_line_skips empty line more :
  Forall (λ l, l = [LF] ∨ l = crlf) empty → LF ∉ line → strip_suffix_cr line ≠ [] →
  first_request_line (concat empty ++ line ++ LF :: more) = Some (strip_suffix_cr line).
Proof.
  intros Hempty Hline Hne. unfold first_request_line.
  set (fuel := S (length (concat empty ++ line ++ LF :: more))).
  assert (Hfuel : (length (concat empty ++ line ++ LF :: more) < fuel)%nat) by (unfold fuel; lia).
  revert Hfuel. generalize fuel. clear fuel.
  assert (Hpos : ∀ a b, LF ∉ a → position (λ b, b =? LF) (a ++ LF :: b) = Some (length a)).
  { intros a b Ha. apply position_middle; [|done]. apply Forall_forall. intros x Hx.
    apply Z.eqb_neq. by intros ->. }
  induction Hempty as [|l empty Hl Hempty IH]; intros [|fuel] Hfuel; try lia; cbn [concat request_line_loop].
  - cbn [app]. rewrite Hpos, take_app_length by done. by rewrite bool_decide_eq_false_2.
  - rewrite <-(assoc_L (++)). cbn [concat] in Hfuel. rewrite <-(assoc_L (++)) in Hfuel.
    rewrite length_app in Hfuel.
    destruct Hl as [-> | ->].
    + change ([LF] ++ concat empty ++ line ++ LF :: more) with ([] ++ LF :: concat empty ++ line ++ LF :: more).
      rewrite Hpos by set_solver. cbn. apply IH. simpl in Hfuel. lia.
    + change (crlf ++ concat empty ++ line ++ LF :: more) with ([CR] ++ LF :: concat empty ++ line ++ LF :: more).
      rewrite Hpos by (apply not_elem_of_cons; split; [done|apply not_elem_of_nil]). cbn. apply IH. simpl in Hfuel. lia.
Qed.

(** A head that asks to dispatch a workflow is recognised. *)
Lemma dispatch_recognised head host :
  normalize_host host = bytes_of "api.github.com" → dispatch_head head →
  is_github_workflow_dispatch_request head host = true.
Proof.
  intros Hhost (empty & line & more & -> & Hempty & Hlf & Hline).
  destruct Hline as (w0 & method & w1 & target & w2 & version & w3 & path & Hline & B0 & B1 & B2 & B3 & N1 & N2 &
    Sm & St & Sv & Hpost & Hver & Htarget & Hpath).
  assert (Hwords : words line = [method; target; version]).
  { rewrite Hline, words_blank, words_solid, words_solid, words_last by done. done. }
  unfold is_github_workflow_dispatch_request. rewrite bool_decide_eq_true_2 by done. cbn [negb].
  rewrite request_line_skips; [|done|done|].
  2: { intros He. pose proof (words_strip_cr line) as Hw. rewrite He, Hwords in Hw. done. }
  change (filter (λ part, part ≠ []) (split_ascii_whitespace (strip_suffix_cr line)))
    with (words (strip_suffix_cr line)).
  rewrite words_strip_cr, Hwords, Hpost, Hver. cbn [negb orb].
  rewrite (target_of_path _ _ Htarget). by apply workflow_dispatch_path_spec.
Qed.

(** ** Theorems *)

(** A filter that stands before a dispatch head refuses it. *)
Lemma dispatch_refused (f : Http1Filter) (input head rest : bytes) :
  normalize_host (fhost f) = bytes_of "api.github.com" →
  body f = Headers → upgrade_pending f = false → input ≠ [] →
  pending f ++ input = head ++ rest → header_boundary head = Some (length head - 4)%nat →
  dispatch_head head →
  push input f = (Fail WorkflowDispatchBlocked, set_pending (pending f ++ input) f, []).
Proof.
  intros Hhost Hbody Hup Hne Hinput Hb Hhead.
  pose proof (boundary_bound _ _ Hb) as Hlen.
  unfold push, with_output, push_call. run_filter. rewrite Hup.
  destruct input as [|x input]; [done|]. cbn [length push_loop]. run_filter. rewrite Hbody.
  unfold flush_pending_requests. run_filter. cbn [pending set_pending].
  assert (Hb' : header_boundary (pending (set_pending (pending f ++ x :: input) f)) = Some (length head - 4)%nat).
  { cbn [pending set_pending]. rewrite Hinput. by apply boundary_app. }
  assert (∃ n, length (pending f ++ x :: input) = S n) as [n ->].
  { rewrite length_app. exists (length (pending f) + length input)%nat. simpl. lia. }
  rewrite (flush_loop_unfold _ _ _ _ Hb').
  assert (flush_request (length head - 4) (set_pending (pending f ++ x :: input) f, []) =
    (Fail WorkflowDispatchBlocked, (set_pending (pending f ++ x :: input) f, []))) as ->; [|done].
  unfold flush_request. run_filter. cbn [pending set_pending fhost].
  replace (length head - 4 + 4)%nat with (length head) by lia.
  by rewrite Hinput, take_app_length, dispatch_recognised.
Qed.

(** The stream comes to a dispatch head where the filter expects a request: what stands before it, cut in any
    way, is accepted and puts [out] out; then come the head and anything. *)
Inductive dispatch_ahead (f : Http1Filter) (stream : bytes) : Http1Filter → bytes → Prop :=
| dispatch_ahead_intro segments input f1 out head rest :
    stream = concat segments ++ input → Forall (λ b, b ≠ []) segments → input ≠ [] →
    push_all segments f = Some (f1, out) → body f1 = Headers → upgrade_pending f1 = false →
    pending f1 ++ input = head ++ rest → header_boundary head = Some (length head - 4)%nat → dispatch_head head →
    dispatch_ahead f stream (set_pending (pending f1 ++ input) f1) out.

Lemma dispatch_ahead_refused f stream f2 out :
  normalize_host (fhost f) = bytes_of "api.github.com" → filter_inv f → body f ≠ RawBody →
  dispatch_ahead f stream f2 out → stream ≠ [] ∧ push stream f = (Fail WorkflowDispatchBlocked, f2, out).
Proof.
  intros Hhost Hinv Hraw [segments input f1 out' head rest -> Hsegs Hne Hall Hbody Hup Hinput Hb Hhead].
  split; [by destruct (concat segments)|].
  destruct (push_all_resume segments f f1 out') as (_ & _ & Hhost1 & _); [done..|].
  destruct (push_next segments input f f1 out') as (x & y & -> & Hy & Halike); [done..|].
  rewrite (dispatch_refused f1 input head rest) in Hy; [|by rewrite Hhost1|done..].
  assert (y = (Fail WorkflowDispatchBlocked, (set_pending (pending f1 ++ input) f1, []))) as ->.
  { destruct y as [[[]| | |] []]; unfold finish in Hy; by simplify_eq/=. }
  destruct Halike as [->|[_ Hend]]; [|done]. unfold finish, with_prefix. simpl. by rewrite app_nil_r.
Qed.

(** What is pending may as well come now. *)
Lemma push_pending f input :
  filter_inv f → upgrade_pending f = false → input ≠ [] → push input f = push (pending f ++ input) (set_pending [] f).
Proof.
  intros Hinv Hup Hne. unfold filter_inv in Hinv.
  assert (body f = Headers ∨ pending f = []) as [Hbody|Hp].
  { destruct (body f); [by left|right; by destruct_and?..]. }
  2: { by rewrite Hp, set_pending_nil. }
  unfold push, with_output, push_call. run_filter. cbn [upgrade_pending set_pending]. rewrite Hup.
  destruct input as [|x input]; [done|].
  assert (∃ n, length (pending f ++ x :: input) = S n) as [n ->].
  { rewrite length_app. exists (length (pending f) + length input)%nat. simpl. lia. }
  cbn [length]. rewrite !push_headers by (done || by destruct (pending f)). by destruct f.
Qed.

(** The server has answered in full, and does not switch protocols. *)
Definition refuses_upgrade (response : bytes) (f : Http1Filter) : Prop :=
  zlen (server_pending f ++ response) <= RELAY_BUF_SIZE ∧
  ∃ i, header_boundary (server_pending f ++ response) = Some i ∧
    is_switching_protocols_response (take i (server_pending f ++ response)) = false.

(** The filter that goes on with requests, without what is pending *)
Definition before_pending (f : Http1Filter) : Http1Filter := set_pending [] (set_server_pending [] (set_upgrade_pending false f)).

(** C6: a workflow dispatch to api.github.com is refused before one byte of it is sent, however the request
    is spelled - the case of the words, percent encoding, an absolute target, blank lines in front, other
    headers - and wherever a request can stand: first or behind other requests, in the same segment or over
    several.  The push that completes its head fails with the block, having put out nothing but what the
    bytes before the head put out; and when it waits behind an upgrade, the answer of the server that refuses
    the upgrade fails so. *)
Theorem workflow_dispatch_denied (f f2 : Http1Filter) (input out : bytes) :
  normalize_host (fhost f) = bytes_of "api.github.com" → filter_inv f → body f ≠ RawBody →
  (upgrade_pending f = false → input ≠ [] → dispatch_ahead (set_pending [] f) (pending f ++ input) f2 out →
   push input f = (Fail WorkflowDispatchBlocked, f2, out)) ∧
  (upgrade_pending f = true → refuses_upgrade input f → dispatch_ahead (before_pending f) (pending f) f2 out →
   observe_server_plaintext input f = (Fail WorkflowDispatchBlocked, f2, out)).
Proof.
  intros Hhost Hinv Hraw. split.
  - intros Hup Hne Hahead. rewrite push_pending by done.
    apply dispatch_ahead_refused in Hahead as [_ ?]; [done|done| |done].
    unfold filter_inv in *. cbn [body set_pending upgrade_pending pending]. by destruct (body f); destruct_and?.
  - intros Hup (Hlen & i & Hi & Hsw) Hahead.
    assert (body f = Headers) as Hbody by (unfold filter_inv in Hinv; destruct (body f); destruct_and?; congruence).
    apply dispatch_ahead_refused in Hahead as [Hne Hpush]; [|done|unfold filter_inv, before_pending; cbn [body set_pending set_server_pending set_upgrade_pending]; by rewrite Hbody|done].
    unfold observe_server_plaintext, server_plaintext_call, with_output, has_output, ensure_limit. run_filter. rewrite Hup. cbn [negb].
    rewrite (proj2 (Z.ltb_ge _ _)), Hi, Hsw by done.
    unfold push, push_call, with_output, has_output in Hpush. run_filter_in Hpush. cbn [upgrade_pending before_pending set_pending set_server_pending set_upgrade_pending] in Hpush.
    destruct (pending f) as [|x stream] eqn:Hp; [done|]. cbn [length] in Hpush. rewrite push_headers in Hpush by done.
    assert (set_pending (pending (before_pending f) ++ x :: stream) (before_pending f) =
      set_server_pending [] (set_upgrade_pending false (set_server_pending (server_pending f ++ input) f))) as Heq.
    { destruct f. cbn in Hp. by subst. }
    rewrite Heq in Hpush. destruct (flush_pending_requests _) as [[[]|e| |] [f3 out3]]; [|by simplify_eq/=..].
    simpl in Hpush. by destruct (ensure_pending_limit _) as [[]|e| |].
Qed.

(** A dispatch behind a harmless request, in one push, and behind an upgrade that the server refuses *)
Definition dispatch_example : bytes :=
  crlf ++ bytes_of "post https://x/REPOS/o/r/%61ctions/workflows/ci.yml/dispatches?x HTTP/1.1" ++ crlf ++ bytes_of "Host: y" ++ crlfcrlf.
Definition harmless : bytes := bytes_of "GET / HTTP/1.1" ++ crlf ++ bytes_of "Host: api.github.com" ++ crlfcrlf.
Definition upgrade_request : bytes :=
  bytes_of "GET / HTTP/1.1" ++ crlf ++ bytes_of "Connection: upgrade" ++ crlf ++ bytes_of "Upgrade: websocket" ++ crlfcrlf.
Definition github : Http1Filter := http1_filter_new secrets_new (bytes_of "API.github.com.").
Definition github_upgrading : Http1Filter := (push (upgrade_request ++ harmless ++ dispatch_example) github).1.2.
Definition refusal : bytes := bytes_of "HTTP/1.1 400 no" ++ crlfcrlf.

Lemma dispatch_example_head : dispatch_head dispatch_example.
Proof.
  exists [crlf], (bytes_of "post https://x/REPOS/o/r/%61ctions/workflows/ci.yml/dispatches?x HTTP/1.1" ++ [CR]),
    (bytes_of "Host: y" ++ crlfcrlf). split; [reflexivity|]. split; [by repeat constructor; right|].
  split; [apply (bool_decide_unpack _); by vm_compute|].
  exists [], (bytes_of "post"), [32], (bytes_of "https://x/REPOS/o/r/%61ctions/workflows/ci.yml/dispatches?x"), [32],
    (bytes_of "HTTP/1.1"), [CR], (bytes_of "/REPOS/o/r/%61ctions/workflows/ci.yml/dispatches?x").
  split; [reflexivity|]. do 4 (split; [apply (bool_decide_unpack (Forall _ _)); by vm_compute|]).
  do 2 (split; [discriminate|]).
  do 3 (split; [split; [discriminate|apply (bool_decide_unpack (Forall _ _)); by vm_compute]|]).
  do 2 (split; [by vm_compute|]). split.
  - split; [reflexivity|]. right. exists (bytes_of "https"), (bytes_of "x"). split; [reflexivity|].
    split; [reflexivity|]. split; [by apply find_sub_none|apply (bool_decide_unpack (Forall _ _)); by vm_compute].
  - apply workflow_dispatch_path_spec. by vm_compute.
Qed.

(** After any segments that leave the filter without anything pending *)
Lemma dispatch_example_ahead f segments f1 out :
  Forall (λ b, b ≠ []) segments → push_all segments f = Some (f1, out) → body f1 = Headers → upgrade_pending f1 = false →
  pending f1 = [] → dispatch_ahead f (concat segments ++ dispatch_example) (set_pending dispatch_example f1) out.
Proof.
  intros Hsegs Hall Hbody Hup Hp.
  change dispatch_example with ([] ++ dispatch_example) at 2. rewrite <-Hp.
  apply (dispatch_ahead_intro _ _ segments dispatch_example f1 out dispatch_example []); try done.
  - by rewrite Hp, app_nil_r.
  - apply dispatch_example_head.
Qed.

Lemma workflow_dispatch_denied_witness :
  (∃ f2, push (harmless ++ dispatch_example) github = (Fail WorkflowDispatchBlocked, f2, harmless)) ∧
  (∃ f2, observe_server_plaintext refusal github_upgrading = (Fail WorkflowDispatchBlocked, f2, harmless)).
Proof.
  assert (Hharmless : Forall (λ b : bytes, b ≠ []) [harmless]) by (by repeat constructor).
  split.
  - destruct (push_all [harmless] github) as [[f1 out]|] eqn:Hall; [|by vm_compute in Hall].
    assert (Hstate : out = harmless ∧ body f1 = Headers ∧ upgrade_pending f1 = false ∧ pending f1 = []).
    { vm_compute in Hall. injection Hall as <- <-. by vm_compute. }
    destruct Hstate as (-> & H1 & H2 & H3). exists (set_pending dispatch_example f1).
    pose proof (dispatch_example_ahead github [harmless] f1 harmless Hharmless Hall H1 H2 H3) as Hahead.
    cbn [concat] in Hahead. rewrite app_nil_r in Hahead.
    apply (proj1 (workflow_dispatch_denied github (set_pending dispatch_example f1) (harmless ++ dispatch_example) harmless
      ltac:(by vm_compute) I ltac:(discriminate)) eq_refl ltac:(discriminate)).
    exact Hahead.
  - destruct (push_all [harmless] (before_pending github_upgrading)) as [[f1 out]|] eqn:Hall; [|by vm_compute in Hall].
    assert (Hstate : out = harmless ∧ body f1 = Headers ∧ upgrade_pending f1 = false ∧ pending f1 = []).
    { vm_compute in Hall. injection Hall as <- <-. by vm_compute. }
    destruct Hstate as (-> & H1 & H2 & H3). exists (set_pending dispatch_example f1).
    pose proof (dispatch_example_ahead _ [harmless] f1 harmless Hharmless Hall H1 H2 H3) as Hahead.
    cbn [concat] in Hahead. rewrite app_nil_r in Hahead.
    assert (Hpending : pending github_upgrading = harmless ++ dispatch_example) by (by vm_compute).
    assert (Hrefuses : refuses_upgrade refusal github_upgrading) 
      by (split; [apply Z.leb_le; vm_compute; reflexivity|exists 15%nat; split; vm_compute; reflexivity]).
    assert (Hinv : filter_inv github_upgrading) by (by vm_compute).
    assert (Hraw : body github_upgrading ≠ RawBody) by (by vm_compute).
    assert (Hhost : normalize_host (fhost github_upgrading) = bytes_of "api.github.com") by (by vm_compute).
    assert (Hup : upgrade_pending github_upgrading = true) by (by vm_compute).
    apply (proj2 (workflow_dispatch_denied github_upgrading (set_pending dispatch_example f1) refusal harmless Hhost Hinv Hraw) Hup Hrefuses).
    rewrite Hpending. exact Hahead.
Defined.

(** the guard takes exactly the dispatch paths for one: eight segments,
    the fixed ones spelled in any case and percent encoding, the owner, the
    repository and the workflow not empty, a query or a fragment aside. *)
Theorem dispatch_path_exact (path : bytes) : workflow_dispatch_path path = true ↔ dispatch_path path.
Proof. apply workflow_dispatch_path_spec. Qed.
