(* ===== verification/HttpRewrite.v ===== *)
(** * Rewriting the head of an HTTP/1.x request

    When a substitution changes the length of a body the filter rewrites the
    [Content-Length] of the head.  The head it writes announces the new length;
    the proof needs that every line ends with a carriage return and a line feed,
    and the last section shows what happens to one that does not. *)
From S2P Require Import Prelude Text Policy Raw HttpHead Http1.
Local Open Scope Z_scope.

(** ** Lines *)

(** Every line feed comes after a carriage return. *)
Definition crlf_lines (s : str) : Prop := Forall (λ l, LF ∉ l) (split_crlf s).

Lemma split_crlf_nonempty s : split_crlf s ≠ [].
Proof. destruct s as [|x [|y s]]; cbn [split_crlf]; [done|done|]. by repeat case_match. Qed.

Lemma intercalate_split_crlf s : intercalate crlf (split_crlf s) = s.
Proof.
  remember (length s) as n eqn:Hn. revert s Hn. induction (lt_wf n) as [n _ IH]. intros s ->.
  destruct s as [|x s']; [done|].
  assert (Hrest : intercalate crlf (match split_crlf s' with [] => [[x]] | p :: ps => (x :: p) :: ps end) = x :: s').
  { pose proof (IH (length s') ltac:(simpl; lia) s' eq_refl) as H.
    destruct (split_crlf s') as [|p [|q ps]] eqn:Hs; [by apply split_crlf_nonempty in Hs|..]; simpl in *; congruence. }
  destruct s' as [|y s'']; [exact Hrest|].
  destruct ((x =? 13) && (y =? 10)) eqn:Hxy.
  - apply andb_true_iff in Hxy as [->%Z.eqb_eq ->%Z.eqb_eq].
    change (split_crlf (13 :: 10 :: s'')) with ([] :: split_crlf s'').
    rewrite intercalate_cons by apply split_crlf_nonempty. by rewrite (IH (length s'') ltac:(simpl; lia) s'' eq_refl).
  - change (split_crlf (x :: y :: s'')) with
      (if (x =? 13) && (y =? 10) then [] :: split_crlf s''
       else match split_crlf (y :: s'') with [] => [[x]] | p :: ps => (x :: p) :: ps end).
    rewrite Hxy. exact Hrest.
Qed.

Lemma split_lf_app a b : LF ∉ a → split_char 10 (a ++ LF :: b) = a :: split_char 10 b.
Proof.
  induction a as [|x a IH]; intros Ha; cbn [app split_char]; [done|].
  apply not_elem_of_cons in Ha as [Hx Ha]. by rewrite (proj2 (Z.eqb_neq _ _)), IH by done.
Qed.
Lemma split_lf_none a : LF ∉ a → split_char 10 a = [a].
Proof.
  induction a as [|x a IH]; intros Ha; [done|]. cbn [split_char].
  apply not_elem_of_cons in Ha as [Hx Ha]. by rewrite (proj2 (Z.eqb_neq _ _)), IH by done.
Qed.

Lemma strip_cr_app p : strip_cr (p ++ [CR]) = p.
Proof. unfold strip_cr. rewrite reverse_app. cbn. apply reverse_involutive. Qed.

(** The last piece, when it is empty, is not a line. *)
Definition drop_last_empty (ps : list str) : list str :=
  match reverse ps with [] :: r => reverse r | _ => ps end.

Lemma drop_last_empty_cons p ps : ps ≠ [] → drop_last_empty (p :: ps) = p :: drop_last_empty ps.
Proof.
  intros Hne. unfold drop_last_empty. rewrite reverse_cons.
  destruct (reverse ps) as [|q r] eqn:Hr; [apply (f_equal reverse) in Hr; by rewrite reverse_involutive in Hr|].
  cbn. destruct q; [|done]. by rewrite reverse_app.
Qed.

(** The lines of a text that ends its lines properly are its pieces. *)
Lemma lines_intercalate ps :
  ps ≠ [] → Forall (λ p, LF ∉ p) ps → lines (intercalate crlf ps) = drop_last_empty ps.
Proof.
  intros Hne Hps. unfold lines. induction Hps as [|p ps Hp Hps IH]; [done|].
  destruct (decide (ps = [])) as [->|Hne'].
  - cbn [intercalate]. rewrite split_lf_none by done. cbn [lines_of]. by destruct p.
  - rewrite intercalate_cons, drop_last_empty_cons by done. cbn [crlf app].
    change (p ++ CR :: LF :: ?x) with (p ++ [CR] ++ LF :: x). rewrite (assoc_L (++)).
    rewrite split_lf_app.
    2: { rewrite not_elem_of_app. split; [done|]. apply not_elem_of_cons. split; [done|apply not_elem_of_nil]. }
    rewrite <-IH by done. cbn [lines_of].
    destruct (split_char 10 (intercalate crlf ps)) eqn:Hs; [by apply split_char_nonempty in Hs|].
    by rewrite strip_cr_app.
Qed.

(** ** Decimal numbers *)

Definition is_digit (c : Z) : Prop := 48 <= c <= 57.

Lemma to_digit_decimal d : 0 <= d < 10 → to_digit 10 (48 + d) = Some d.
Proof.
  intros Hd. unfold to_digit.
  assert ((48 <=? 48 + d) && (48 + d <=? 57) = true) as -> by lia.
  replace (48 + d - 48) with d by lia. by rewrite (proj2 (Z.ltb_lt _ _)) by lia.
Qed.

(** The digits of a number are read back, whatever was read before them. *)
Lemma decimal_loop_spec fuel v digits :
  0 <= v < 10 ^ Z.of_nat fuel → (0 < fuel)%nat →
  ∃ l, decimal_loop fuel v digits = Ret (l ++ digits) ∧ l ≠ [] ∧ Forall is_digit l ∧
    ∀ max acc rest, 0 <= acc → acc * 10 ^ Z.of_nat (length l) + v <= max →
      digits_value 10 max acc (l ++ rest) = digits_value 10 max (acc * 10 ^ Z.of_nat (length l) + v) rest.
Proof.
  revert v digits. induction fuel as [|fuel IH]; intros v digits Hv Hf; [lia|]. cbn [decimal_loop].
  pose proof (Z.mod_pos_bound v 10 ltac:(lia)) as Hm. pose proof (Z.div_mod v 10 ltac:(lia)) as Hdm.
  assert (Hlast : is_digit (48 + v mod 10)) by (unfold is_digit; lia).
  destruct (Z.eqb_spec (v / 10) 0) as [Hz|Hnz].
  - exists [48 + v mod 10]. split_and!; [done|done|by constructor|].
    intros max acc rest Hacc Hmax. cbn [app digits_value length] in *. rewrite to_digit_decimal by done. cbn [mbind option_bind].
    change (10 ^ Z.of_nat 1) with 10 in *. replace (v mod 10) with v by lia.
    by rewrite (proj2 (Z.leb_le _ _)) by lia.
  - assert (0 <= v / 10) by (apply Z.div_pos; lia).
    destruct (IH (v / 10) (48 + v mod 10 :: digits)) as (l & Hl & Hne & Hd & Hval).
    { rewrite Nat2Z.inj_succ, Z.pow_succ_r in Hv by lia. lia. }
    { destruct fuel; [|lia]. change (10 ^ Z.of_nat 1) with 10 in Hv. lia. }
    exists (l ++ [48 + v mod 10]). rewrite Hl. split_and!.
    + by rewrite <-(assoc_L (++)).
    + by destruct l.
    + apply Forall_app. auto.
    + intros max acc rest Hacc Hmax. rewrite length_app in *. cbn [length] in *.
      rewrite Nat2Z.inj_add, Z.pow_add_r in * by lia. change (10 ^ Z.of_nat 1) with 10 in *.
      rewrite <-(assoc_L (++)). rewrite Hval by lia. cbn [app digits_value].
      rewrite to_digit_decimal by done. cbn [mbind option_bind].
      replace ((acc * 10 ^ Z.of_nat (length l) + v / 10) * 10 + v mod 10) with
        (acc * (10 ^ Z.of_nat (length l) * 10) + v) by lia.
      by rewrite (proj2 (Z.leb_le _ _)) by lia.
Qed.

(** The decimal text of a [usize]: what [extend_decimal] writes. *)
Lemma decimal_text v :
  0 <= v <= usize_max →
  ∃ l, (∀ out, extend_decimal out v = Ret (out ++ l)) ∧ Forall is_digit l ∧
    trim (32 :: l) = l ∧ parse_uint usize_max l = Some v.
Proof.
  intros Hv. destruct (decimal_loop_spec 39 v []) as (l & Hl & Hne & Hd & Hval).
  { unfold usize_max, u64_max in Hv. change (10 ^ Z.of_nat 39) with 1000000000000000000000000000000000000000. lia. }
  { lia. }
  exists l. split_and!; [|done|..].
  { intros out. unfold extend_decimal. rewrite Hl. cbn [mbind outcome_bind]. by rewrite app_nil_r. }
  assert (Hnw : ∀ c, is_digit c → is_whitespace c = false) by (intros c ?; unfold is_digit, is_whitespace in *; lia).
  assert (Hstart : ∀ s, Forall is_digit s → trim_start s = s).
  { intros s [|c s' Hc _]; [done|]. cbn [trim_start]. by rewrite Hnw. }
  { unfold trim. cbn [trim_start]. rewrite Hstart by done. unfold trim_end.
    rewrite Hstart, reverse_involutive by (by apply Forall_reverse). done. }
  specialize (Hval usize_max 0 []). rewrite app_nil_r, Z.mul_0_l in Hval. specialize (Hval ltac:(lia) ltac:(lia)).
  unfold parse_uint, from_str_radix. destruct Hd as [|c l' Hc Hd]; [done|].
  assert (c ≠ 43) by (unfold is_digit in Hc; lia). repeat (case_match; try done).
Qed.

(** ** The rewritten head *)

(** What becomes of a line. *)
Definition announce (digits : str) (line : str) : str :=
  if content_length_line line then bytes_of "Content-Length: " ++ digits else line.

Lemma digits_ascii l : Forall is_digit l → Forall (λ c, 0 <= c < 128) l.
Proof. intros Hl. eapply Forall_impl; [exact Hl|]. unfold is_digit. lia. Qed.

Lemma announce_str digits line : Forall is_digit digits → is_str line → is_str (announce digits line).
Proof.
  intros Hd Hl. unfold announce. destruct (content_length_line line); [|done]. apply Forall_app. split.
  - apply (bool_decide_unpack (Forall _ _)). by vm_compute.
  - eapply Forall_impl; [exact Hd|]. unfold is_digit, is_scalar. intros. lia.
Qed.

Lemma announce_lf digits line : Forall is_digit digits → LF ∉ line → LF ∉ announce digits line.
Proof.
  intros Hd Hl. unfold announce. destruct (content_length_line line); [|done]. rewrite not_elem_of_app. split.
  - apply (bool_decide_unpack _). by vm_compute.
  - intros Hin. rewrite Forall_forall in Hd. apply Hd in Hin. unfold is_digit, LF in Hin. lia.
Qed.

Lemma content_length_loop_spec digits n ps first scratch :
  (∀ out, extend_decimal out n = Ret (out ++ digits)) → Forall is_digit digits → ps ≠ [] →
  content_length_loop first ps n scratch =
  Ret (scratch ++ (if first then [] else crlf) ++ utf8_encode (intercalate crlf (announce digits <$> ps))).
Proof.
  intros Hdec Hd. revert first scratch. induction ps as [|p ps IH]; intros first scratch Hne; [done|].
  cbn [content_length_loop].
  assert (Hline : ∀ out, (if content_length_line p
    then extend_decimal (out ++ bytes_of "Content-Length: ") n else Ret (out ++ utf8_encode p)) =
    Ret (E:=HttpError) (out ++ utf8_encode (announce digits p))).
  { intros out. unfold announce. destruct (content_length_line p); [|done].
    rewrite Hdec, <-(assoc_L (++)), utf8_encode_app, (utf8_encode_ascii digits) by (by apply digits_ascii). done. }
  rewrite Hline. cbn [mbind outcome_bind]. destruct (decide (ps = [])) as [->|Hps].
  - cbn [content_length_loop fmap list_fmap intercalate]. destruct first; cbn [app]; by rewrite ?(assoc_L (++)).
  - rewrite IH by done. cbn [fmap list_fmap]. rewrite intercalate_cons by (by destruct ps).
    rewrite !utf8_encode_app. change (utf8_encode crlf) with crlf.
    destruct first; cbn [app]; by rewrite ?(assoc_L (++)).
Qed.

Lemma intercalate_str ps : Forall is_str ps → is_str (intercalate crlf ps).
Proof.
  induction 1 as [|p ps Hp Hps IH]; [constructor|]. destruct ps as [|q ps]; [done|].
  rewrite intercalate_cons by done. apply Forall_app. split; [done|]. apply Forall_app. split; [|done].
  by repeat constructor.
Qed.

Lemma intercalate_str_inv ps : is_str (intercalate crlf ps) → Forall is_str ps.
Proof.
  induction ps as [|p [|q ps] IH]; intros Hs; [constructor|by constructor|].
  rewrite intercalate_cons in Hs by done. apply Forall_app in Hs as [Hp Hs]. apply Forall_app in Hs as [_ Hs].
  constructor; [done|by apply IH].
Qed.

Lemma drop_last_announce digits ps :
  drop_last_empty (announce digits <$> ps) = announce digits <$> drop_last_empty ps.
Proof.
  induction ps as [|p ps IH]; [done|]. destruct (decide (ps = [])) as [->|Hne].
  - assert (Hone : ∀ q, drop_last_empty [q] = if decide (q = []) then [] else [q]) by (by intros []).
    cbn [fmap list_fmap]. rewrite !Hone. unfold announce.
    destruct p as [|x p]; [by vm_compute|].
    rewrite !decide_False; [done|done|by destruct (content_length_line (x :: p))].
  - cbn [fmap list_fmap]. rewrite !drop_last_empty_cons by (done || by destruct ps). cbn [fmap list_fmap]. by f_equal.
Qed.

(** C32: when the body of a request changes its length, a head that has a
    [Content-Length] and whose lines end with a carriage return and a line feed
    announces the new one: every [Content-Length] line is rewritten to it, every
    other line is kept, and reading the rewritten head gives the new length.
    (With a bare line feed it does not: [bare_line_feed_keeps_stale_length].) *)
Theorem update_content_length_announces (headers : bytes) (text : str) (m n : Z) (scratch : HeaderRewriteScratch) :
  are_bytes headers → utf8_decode headers = Some text → crlf_lines text →
  content_length headers = Some m → 0 <= n <= usize_max →
  ∃ new text', update_content_length headers n scratch = (Ret new, set_rewrite headers scratch) ∧
    utf8_decode new = Some text' ∧ content_length new = Some n ∧
    ∃ digits, parse_uint usize_max digits = Some n ∧ lines text' = announce digits <$> lines text.
Proof.
  intros Hbytes Htext Hlines Hcl Hn. destruct (decimal_text n Hn) as (digits & Hdec & Hd & Htrim & Hparse).
  set (ps := split_crlf text) in *.
  assert (Hstr : Forall is_str ps).
  { apply intercalate_str_inv. unfold ps. rewrite intercalate_split_crlf. by eapply utf8_decode_scalars. }
  set (text' := intercalate crlf (announce digits <$> ps)).
  assert (Hstr' : is_str text').
  { apply intercalate_str, Forall_fmap. eapply Forall_impl; [exact Hstr|]. intros p Hp. by apply announce_str. }
  assert (Hnew : utf8_decode (utf8_encode text') = Some text') by by apply utf8_roundtrip.
  assert (Hl : lines text = drop_last_empty ps).
  { rewrite <-(intercalate_split_crlf text) at 1. by apply lines_intercalate; [apply split_crlf_nonempty|]. }
  assert (Hl' : lines text' = announce digits <$> lines text).
  { unfold text'. rewrite lines_intercalate, drop_last_announce, Hl; [done|..].
    - pose proof (split_crlf_nonempty text) as Hne. fold ps in Hne. by destruct ps.
    - apply Forall_fmap. eapply Forall_impl; [exact Hlines|]. intros p Hp. by apply announce_lf. }
  exists (utf8_encode text'), text'. split_and!.
  - unfold update_content_length. rewrite Htext. unfold mbind, stm_bind, stm_lift, stm_modify, mret, stm_ret.
    rewrite (content_length_loop_spec digits n) by (done || apply split_crlf_nonempty). done.
  - done.
  - unfold content_length in Hcl |- *. rewrite Htext in Hcl. rewrite Hnew. cbn [mbind option_bind] in *. rewrite Hl'.
    revert Hcl. generalize (lines text) as ls. clear - Htrim Hparse.
    induction ls as [|line ls IH]; [done|]. cbn [fmap list_fmap find_map].
    unfold announce at 1. unfold content_length_line.
    destruct (split_once 58 line) as [[name value]|] eqn:Hs; cbn [mbind option_bind].
    + destruct (eq_ignore_ascii_case name (bytes_of "content-length")) eqn:He.
      * intros _. assert (split_once 58 (bytes_of "Content-Length: " ++ digits) =
          Some (bytes_of "Content-Length", 32 :: digits)) as -> by done.
        cbn [mbind option_bind]. rewrite Htrim, Hparse. by vm_compute (eq_ignore_ascii_case _ _).
      * rewrite Hs. cbn [mbind option_bind]. rewrite He. exact IH.
    + rewrite Hs. exact IH.
  - by exists digits.
Qed.

Lemma update_content_length_announces_witness :
  let headers := bytes_of "POST / HTTP/1.1" ++ crlf ++ bytes_of "content-length: 3" ++ crlfcrlf in
  utf8_decode headers = Some headers ∧ crlf_lines headers ∧ content_length headers = Some 3 ∧
  ∃ new, (update_content_length headers 12 header_rewrite_scratch_new).1 = Ret new ∧ content_length new = Some 12.
Proof.
  intros headers.
  assert (Hb : are_bytes headers) by (apply (bool_decide_unpack (Forall _ _)); by vm_compute).
  assert (Hl : crlf_lines headers) by (apply (bool_decide_unpack (Forall _ _)); by vm_compute).
  assert (Hd : utf8_decode headers = Some headers) by (vm_compute; reflexivity).
  assert (Hc : content_length headers = Some 3) by (vm_compute; reflexivity).
  destruct (update_content_length_announces headers headers 3 12 header_rewrite_scratch_new Hb Hd Hl Hc)
    as (new & text' & Hnew & _ & Hcl & _); [by vm_compute|].
  split; [exact Hd|]. split; [exact Hl|]. split; [exact Hc|]. exists new. split; [by rewrite Hnew|exact Hcl].
Defined.

(** ** Where the program differs from what it means to do *)

(** A [Content-Length] behind a bare line feed is read when the body is framed, and is not
    rewritten when the substitution changes the body: the server is told 20 bytes and gets 6. *)
Lemma bare_line_feed_keeps_stale_length :
  let host := bytes_of "api.example.com" in
  let head := bytes_of "POST / HTTP/1.1" ++ crlf ++ bytes_of "Host: api.example.com" ++ crlf ++
    bytes_of "X: y" ++ [LF] ++ bytes_of "Content-Length: 20" ++ crlfcrlf in
  request_authority_matches head host = true ∧ request_body head = RequestFixed 20 ∧
  ∃ f, push (head ++ bytes_of "AGENTDP_SECRET_TOKEN") (http1_filter_new example_secrets host) =
    (Ret true, f, head ++ bytes_of "s3cret").
Proof. cbv zeta. split; [by vm_compute|]. split; [by vm_compute|]. eexists. vm_compute. reflexivity. Qed.

(** In a tunnel the placeholder prefix is looked for in every segment by itself: split across two
    segments it goes through. *)
Lemma tunnel_prefix_split :
  let f := set_body RawBody (http1_filter_new secrets_new (bytes_of "h")) in
  (push (bytes_of "AGENTDP_SECRET_TOKEN") f).1.1 = Fail (Policy UnresolvedSecretPlaceholder) ∧
  push (bytes_of "AGENTDP_SEC") f = (Ret true, f, bytes_of "AGENTDP_SEC") ∧
  push (bytes_of "RET_TOKEN") f = (Ret true, f, bytes_of "RET_TOKEN").
Proof. cbv zeta. split_and!; vm_compute; reflexivity. Qed.
