(* ===== verification/Dns.v ===== *)
(** * DNS messages (src/libs/agentdp-network/src/application/dns.rs)

    The part of the wire format the network reads to learn which addresses
    belong to which host: questions, and the address records of an answer that
    the chain of aliases leads to, over UDP payloads and over the length-framed
    TCP stream.  Compression pointers are followed, at most sixteen of them. *)
From S2P Require Import Prelude Text Policy.
Local Open Scope Z_scope.

(** A Rust function to [Option] that indexes or loops: [None] is [Fail tt].  The
    offsets are at most a few bytes past the end of a slice or below 2^14, so
    the [checked_add]s cannot overflow and are additions of [nat]. *)
Abbreviation partial A := (outcome unit A).
Definition none {A} : partial A := Fail tt.
Definition some {A} (o : option A) : partial A :=
  match o with Some x => Ret x | None => none end.

Definition TCP_DNS_PENDING_LIMIT : nat := 16.
Definition TCP_DNS_FRAME_BUFFER_CAPACITY : nat := 4096.

(** ** Names *)

(** [scan_dns_name], with the labels the closure is called on instead of the
    closure, and their number as their count. *)
Fixpoint scan_loop (fuel : nat) (payload : bytes) (cursor : nat) (end_offset : option nat)
    (jumps : Z) (labels : list str) : partial (list str * nat) :=
  match fuel with
  | O => Timeout
  | S fuel =>
    length ← some (payload !! cursor);
    if length =? 0 then
      if bool_decide (labels = []) then none
      else Ret (labels, default (cursor + 1)%nat end_offset)
    else if Z.land length 192 =? 192 then
      next ← some (payload !! (cursor + 1)%nat);
      let end_offset := Some (default (cursor + 2)%nat end_offset) in
      let cursor := Z.to_nat (Z.lor (Z.shiftl (Z.land length 63) 8) next) in
      if 16 <? jumps + 1 then none
      else scan_loop fuel payload cursor end_offset (jumps + 1) labels
    else if negb (Z.land length 192 =? 0) then none
    else
      let cursor := (cursor + 1)%nat in
      let end_ := (cursor + Z.to_nat length)%nat in
      if (List.length payload <? end_)%nat then none
      else
        label ← slice payload cursor end_;
        label ← some (utf8_decode label);
        scan_loop fuel payload end_ end_offset jumps (labels ++ [label])
  end.

(** Between two jumps the cursor only moves forward. *)
Definition scan_fuel (payload : bytes) : nat := 18 * (length payload + 2).
Definition scan_dns_name (payload : bytes) (offset : nat) : partial (list str * nat) :=
  scan_loop (scan_fuel payload) payload offset None 0 [].

(** The closure of [read_dns_name]. *)
Definition push_label (name label : str) : str :=
  (if bool_decide (name = []) then name else name ++ [46]) ++ (to_ascii_lowercase <$> label).

Definition read_dns_name (payload : bytes) (offset : nat) : partial (str * nat) :=
  '(labels, offset) ← scan_dns_name payload offset;
  let name := foldl push_label [] labels in
  if bool_decide (name = []) then none else Ret (name, offset).

(** ** Questions *)

Record DnsQuestion := { q_id : Z; q_host : str; q_qtype : Z; q_qclass : Z }.
#[export] Instance DnsQuestion_eq_dec : EqDecision DnsQuestion.
Proof. solve_decision. Defined.

Record DnsQuestionParts := { p_id : Z; p_qtype : Z; p_qclass : Z }.

(** [u16::from_be_bytes([payload[i], payload[i + 1]])] *)
Definition read_u16 {E} (payload : bytes) (i : nat) : outcome E Z :=
  hi ← index payload i; lo ← index payload (i + 1); Ret (u16_be hi lo).

Definition dns_question_parts (payload : bytes) : partial DnsQuestionParts :=
  if (length payload <? 12)%nat then none
  else
    questions ← read_u16 payload 4;
    if questions =? 0 then none
    else
      '(_, offset) ← scan_dns_name payload 12;
      if (length payload <? offset + 4)%nat then none
      else
        id ← read_u16 payload 0;
        qtype ← read_u16 payload offset;
        qclass ← read_u16 payload (offset + 2);
        Ret {| p_id := id; p_qtype := qtype; p_qclass := qclass |}.

Definition dns_question (payload : bytes) : partial DnsQuestion :=
  parts ← dns_question_parts payload;
  '(host, _) ← read_dns_name payload 12;
  Ret {| q_id := p_id parts; q_host := host; q_qtype := p_qtype parts; q_qclass := p_qclass parts |}.

(** ** Answers *)

Record DnsRecord := {
  r_name : str;
  r_type : Z;
  r_class : Z;
  r_ttl : Z;
  r_data : bytes;
  r_data_offset : nat;
}.

(** [for _ in 0..questions]: the offset behind them. *)
Fixpoint skip_questions (questions : nat) (payload : bytes) (offset : nat) : partial nat :=
  match questions with
  | O => Ret offset
  | S questions =>
    '(_, next) ← read_dns_name payload offset;
    skip_questions questions payload (next + 4)
  end.

(** One round of [for _ in 0..answers]: a record and the offset behind it. *)
Definition read_record (payload : bytes) (offset : nat) : partial (DnsRecord * nat) :=
  '(name, offset) ← read_dns_name payload offset;
  let header_end := (offset + 10)%nat in
  if (length payload <? header_end)%nat then none
  else
    record_type ← read_u16 payload offset;
    class ← read_u16 payload (offset + 2);
    ttl_hi ← read_u16 payload (offset + 4);
    ttl_lo ← read_u16 payload (offset + 6);
    let ttl := Z.lor (Z.shiftl ttl_hi 16) ttl_lo in
    len ← read_u16 payload (offset + 8);
    let data_end := (header_end + Z.to_nat len)%nat in
    if (length payload <? data_end)%nat then none
    else
      data ← slice payload header_end data_end;
      Ret ({| r_name := name; r_type := record_type; r_class := class; r_ttl := Z.max ttl 1;
              r_data := data; r_data_offset := header_end |}, data_end).

(** A record that cannot be read ends the loop, with what was read before it. *)
Fixpoint read_records (answers : nat) (payload : bytes) (offset : nat) (records : list DnsRecord)
    : partial (list DnsRecord) :=
  match answers with
  | O => Ret records
  | S answers =>
    match read_record payload offset with
    | Ret (record, offset) => read_records answers payload offset (records ++ [record])
    | Fail _ => Ret records
    | Panic => Panic
    | Timeout => Timeout
    end
  end.

Definition dns_answer_records (payload : bytes) : partial (list DnsRecord) :=
  if (length payload <? 12)%nat then Ret []
  else
    questions ← read_u16 payload 4;
    answers ← read_u16 payload 6;
    match skip_questions (Z.to_nat questions) payload 12 with
    | Ret offset => read_records (Z.to_nat answers) payload offset []
    | Fail _ => Ret []
    | Panic => Panic
    | Timeout => Timeout
    end.

Record AddressRecord := { a_addr : IpAddr; a_ttl : Z }.

Definition address_record (record : DnsRecord) : option AddressRecord :=
  match r_data record with
  | [a; b; c; d] =>
    if r_type record =? 1 then Some {| a_addr := V4 a b c d; a_ttl := r_ttl record |} else None
  | [a; b; c; d; e; f; g; h; i; j; k; l; m; n; o; p] =>
    if r_type record =? 28
    then Some {| a_addr := V6 (u16_be a b) (u16_be c d) (u16_be e f) (u16_be g h) (u16_be i j)
                             (u16_be k l) (u16_be m n) (u16_be o p); a_ttl := r_ttl record |}
    else None
  | _ => None
  end.

Definition dns_primary_question_hosts (payload : bytes) : partial (list str) :=
  match dns_question payload with
  | Ret question => Ret [q_host question]
  | Fail _ => Ret []
  | Panic => Panic
  | Timeout => Timeout
  end.

(** The aliases of the answer: [filter(..).filter_map(..)] on the records. *)
Fixpoint cname_edges (payload : bytes) (records : list DnsRecord) : partial (list (str * str)) :=
  match records with
  | [] => Ret []
  | record :: records =>
    if (r_type record =? 5) && (r_class record =? 1) then
      match read_dns_name payload (r_data_offset record) with
      | Ret (target, _) => edges ← cname_edges payload records; Ret ((r_name record, target) :: edges)
      | Fail _ => cname_edges payload records
      | Panic => Panic
      | Timeout => Timeout
      end
    else cname_edges payload records
  end.

(** [for (name, target) in &cname_edges]: the names accepted, and whether there is a new one. *)
Fixpoint follow_edges (edges : list (str * str)) (accepted_names : list str) (changed : bool) : list str * bool :=
  match edges with
  | [] => (accepted_names, changed)
  | (name, target) :: edges =>
    if bool_decide (name ∈ accepted_names) && negb (bool_decide (target ∈ accepted_names))
    then follow_edges edges (accepted_names ++ [target]) true
    else follow_edges edges accepted_names changed
  end.

(** [loop]: until a pass over the edges changes nothing. *)
Fixpoint accept_loop (fuel : nat) (edges : list (str * str)) (accepted_names : list str) : partial (list str) :=
  match fuel with
  | O => Timeout
  | S fuel =>
    let '(accepted_names, changed) := follow_edges edges accepted_names false in
    if changed : bool then accept_loop fuel edges accepted_names else Ret accepted_names
  end.

Definition accepted_records (accepted_names : list str) (records : list DnsRecord) : list AddressRecord :=
  omap (λ record, if (r_class record =? 1) && bool_decide (r_name record ∈ accepted_names)
                  then address_record record else None) records.

Definition dns_addresses_with_ttl (payload : bytes) : partial (list AddressRecord) :=
  accepted_names ← dns_primary_question_hosts payload;
  records ← dns_answer_records payload;
  edges ← cname_edges payload records;
  accepted_names ← accept_loop (S (length edges)) edges accepted_names;
  Ret (accepted_records accepted_names records).

Record DnsAddressRecords := { addresses : list IpAddr; ttl : Z }.

(** [iter().min()] *)
Definition min_list (l : list Z) : option Z :=
  match l with [] => None | x :: l => Some (foldl Z.min x l) end.

Definition dns_address_records (payload : bytes) : partial DnsAddressRecords :=
  records ← dns_addresses_with_ttl payload;
  Ret {| addresses := a_addr <$> records; ttl := default 60 (min_list (a_ttl <$> records)) |}.

Record DnsResolution := { host : str; resolved : DnsAddressRecords }.

(** ** The TCP stream *)

(** [DnsTcpFrames] is its buffer.  The messages in the buffer from [offset] on. *)
Fixpoint frames_loop (fuel : nat) (buffer : bytes) (offset : nat) : partial (list bytes * nat) :=
  match fuel with
  | O => Timeout
  | S fuel =>
    if (2 <=? length buffer - offset)%nat then
      len ← read_u16 buffer offset;
      let start := (offset + 2)%nat in
      let end_ := (start + Z.to_nat len)%nat in
      if (length buffer <? end_)%nat then Ret ([], offset)
      else
        message ← slice buffer start end_;
        '(messages, offset) ← frames_loop fuel buffer end_;
        Ret (message :: messages, offset)
    else Ret ([], offset)
  end.

(** The messages [f] is called on, and the buffer left. *)
Definition for_each_message (buffer bytes : bytes) : partial (list Prelude.bytes * Prelude.bytes) :=
  if (TCP_DNS_FRAME_BUFFER_CAPACITY <? length buffer + length bytes)%nat then Ret ([], [])
  else
    let buffer := buffer ++ bytes in
    '(messages, offset) ← frames_loop (S (length buffer)) buffer 0;
    Ret (messages, drop offset buffer).

Record TcpDnsTracker := { guest : bytes; upstream : bytes; pending : list DnsQuestion }.
Definition tcp_dns_tracker_default : TcpDnsTracker := {| guest := []; upstream := []; pending := [] |}.

Definition push_pending (pending : list DnsQuestion) (question : DnsQuestion) : list DnsQuestion :=
  if bool_decide (question ∈ pending) then pending
  else (if (length pending =? TCP_DNS_PENDING_LIMIT)%nat then tail pending else pending) ++ [question].

Definition remove_pending (pending : list DnsQuestion) (question : DnsQuestion) : option (DnsQuestion * list DnsQuestion) :=
  index ← position (λ p, bool_decide (p = question)) pending;
  question ← pending !! index;
  Some (question, delete index pending).

(** The closure of [record_queries] on each message. *)
Fixpoint record_messages (messages : list bytes) (pending : list DnsQuestion) : partial (list DnsQuestion) :=
  match messages with
  | [] => Ret pending
  | message :: messages =>
    match dns_question message with
    | Ret question => record_messages messages (push_pending pending question)
    | Fail _ => record_messages messages pending
    | Panic => Panic
    | Timeout => Timeout
    end
  end.

Definition record_queries (bytes : bytes) (t : TcpDnsTracker) : partial TcpDnsTracker :=
  '(messages, guest) ← for_each_message (guest t) bytes;
  pending ← record_messages messages (pending t);
  Ret {| guest := guest; upstream := upstream t; pending := pending |}.

(** The closure of [response]: the first answer to a pending question. *)
Fixpoint answer_messages (messages : list bytes) (pending : list DnsQuestion)
    : partial (option DnsResolution * list DnsQuestion) :=
  match messages with
  | [] => Ret (None, pending)
  | message :: messages =>
    match dns_question message with
    | Ret question =>
      match remove_pending pending question with
      | None => answer_messages messages pending
      | Some (question, pending) =>
        records ← dns_address_records message;
        Ret (Some {| host := q_host question; resolved := records |}, pending)
      end
    | Fail _ => answer_messages messages pending
    | Panic => Panic
    | Timeout => Timeout
    end
  end.

Definition response (bytes : bytes) (t : TcpDnsTracker) : partial (option DnsResolution * TcpDnsTracker) :=
  '(messages, upstream) ← for_each_message (upstream t) bytes;
  '(resolution, pending) ← answer_messages messages (pending t);
  Ret (resolution, {| guest := guest t; upstream := upstream; pending := pending |}).

(** ** Nothing panics, every loop ends *)

Definition is_label (l : str) : Prop := l ≠ [].

Lemma read_u16_safe {E} payload i : (i + 2 ≤ length payload)%nat → safe (E:=E) (λ _, True) (read_u16 payload i).
Proof.
  intros Hi. unfold read_u16, index.
  destruct (lookup_lt_is_Some_2 payload i ltac:(lia)) as [hi ->].
  by destruct (lookup_lt_is_Some_2 payload (i + 1)%nat ltac:(lia)) as [lo ->].
Qed.

Lemma utf8_decode_nonempty l s : utf8_decode l = Some s → l ≠ [] → s ≠ [].
Proof.
  intros Hd Hne ->. destruct l as [|b0 l]; [done|]. cbn [utf8_decode] in Hd.
  repeat (case_match; try done); by destruct (utf8_decode _).
Qed.

(** What is left to do of a scan: the jumps, and the bytes in front of the cursor. *)
Definition scan_measure (payload : bytes) (cursor : nat) (jumps : Z) : nat :=
  Z.to_nat (17 - jumps) * (length payload + 2) + (length payload + 1 - cursor).

Lemma scan_loop_safe fuel payload cursor end_offset jumps labels :
  are_bytes payload → (0 <= jumps <= 16) → (scan_measure payload cursor jumps < fuel)%nat →
  (∀ e, end_offset = Some e → (e ≤ length payload)%nat) → Forall is_label labels →
  safe (λ r, r.1 ≠ [] ∧ Forall is_label r.1 ∧ (r.2 ≤ length payload)%nat)
    (scan_loop fuel payload cursor end_offset jumps labels).
Proof.
  intros Hb. revert cursor end_offset jumps labels.
  induction fuel as [|fuel IH]; intros cursor end_offset jumps labels Hj Hfuel Hend Hl; [lia|]. cbn [scan_loop].
  destruct (payload !! cursor) as [len|] eqn:Hlen; [|done]. cbn [some mbind outcome_bind].
  pose proof (lookup_lt_Some _ _ _ Hlen) as Hc.
  assert (Hbl : is_byte len) by (by eapply Forall_lookup_1).
  destruct (Z.eqb_spec len 0) as [->|Hnz].
  { case_bool_decide; [done|]. cbn. split_and!; [done|done|].
    destruct end_offset as [e|]; cbn; [by apply Hend|lia]. }
  destruct (Z.land len 192 =? 192).
  { destruct (payload !! (cursor + 1)%nat) as [next|] eqn:Hnext; [|done]. cbn [some mbind outcome_bind].
    apply lookup_lt_Some in Hnext. destruct (Z.ltb_spec 16 (jumps + 1)); [done|].
    apply IH; [lia| |intros e [= <-]|done].
    - unfold scan_measure in *. replace (Z.to_nat (17 - jumps)) with (S (Z.to_nat (17 - (jumps + 1)))) in Hfuel by lia.
      lia.
    - destruct end_offset as [e|]; cbn; [by apply Hend|lia]. }
  destruct (negb _); [done|].
  destruct (Nat.ltb_spec (length payload) (cursor + 1 + Z.to_nat len)); [done|].
  rewrite slice_ok by lia. cbn [mbind outcome_bind].
  destruct (utf8_decode _) as [label|] eqn:Hd; [|done]. cbn [some mbind outcome_bind].
  apply IH; [done| |done|].
  - unfold scan_measure, is_byte in *. lia.
  - apply Forall_app. split; [done|]. constructor; [|done]. eapply utf8_decode_nonempty; [done|].
    intros Hnil. apply (f_equal length) in Hnil. rewrite length_take, length_drop in Hnil. simpl in Hnil.
    unfold is_byte in Hbl. lia.
Qed.

Lemma scan_fuel_enough payload offset : (scan_measure payload offset 0 < scan_fuel payload)%nat.
Proof. unfold scan_measure, scan_fuel. change (Z.to_nat (17 - 0)) with 17%nat. lia. Qed.

Section message.
Context (payload : bytes) (Hbytes : are_bytes payload).

Lemma scan_safe offset :
  safe (λ r, r.1 ≠ [] ∧ Forall is_label r.1 ∧ (r.2 ≤ length payload)%nat) (scan_dns_name payload offset).
Proof. apply scan_loop_safe; [done|lia|apply scan_fuel_enough|done|done]. Qed.

Lemma push_labels_nonempty labels name :
  name ≠ [] → foldl push_label name labels ≠ [].
Proof.
  revert name. induction labels as [|l labels IH]; intros name Hn; [done|]. cbn [foldl]. apply IH.
  unfold push_label. rewrite bool_decide_eq_false_2 by done. by destruct name.
Qed.

Lemma name_nonempty labels : labels ≠ [] → Forall is_label labels → foldl push_label [] labels ≠ [].
Proof.
  intros Hne Hl. destruct Hl as [|l labels Hl _]; [done|]. cbn [foldl].
  apply push_labels_nonempty. unfold push_label. cbn. by destruct l.
Qed.

(** Reading a name is scanning it. *)
Lemma read_name_scan offset :
  read_dns_name payload offset = '(labels, o) ← scan_dns_name payload offset; Ret (foldl push_label [] labels, o).
Proof.
  unfold read_dns_name. pose proof (scan_safe offset) as Hs.
  destruct (scan_dns_name payload offset) as [[labels o]|[]| |]; cbn [mbind outcome_bind]; [|done..].
  destruct Hs as (Hne & Hl & _). cbn in Hne, Hl. by rewrite bool_decide_eq_false_2 by (by apply name_nonempty).
Qed.

Lemma read_name_safe offset : safe (λ r, (r.2 ≤ length payload)%nat) (read_dns_name payload offset).
Proof.
  rewrite read_name_scan. pose proof (scan_safe offset) as Hs.
  destruct (scan_dns_name payload offset) as [[labels o]|[]| |]; cbn; [|done..]. by destruct Hs as (_ & _ & ?).
Qed.

Lemma parts_safe : safe (λ _, True) (dns_question_parts payload).
Proof.
  unfold dns_question_parts. destruct (Nat.ltb_spec (length payload) 12); [done|].
  eapply safe_bind; [apply read_u16_safe; lia|]. intros questions _. destruct (questions =? 0); [done|].
  eapply safe_bind; [apply scan_safe|]. intros [labels o] (_ & _ & Ho). cbn in Ho.
  destruct (Nat.ltb_spec (length payload) (o + 4)); [done|].
  do 3 (eapply safe_bind; [apply read_u16_safe; lia|intros ? _]). done.
Qed.

Lemma question_safe : safe (λ _, True) (dns_question payload).
Proof.
  unfold dns_question. eapply safe_bind; [apply parts_safe|]. intros parts _.
  eapply safe_bind; [apply read_name_safe|]. by intros [].
Qed.

Lemma skip_questions_safe n offset : safe (λ _, True) (skip_questions n payload offset).
Proof.
  revert offset. induction n as [|n IH]; intros offset; [done|]. cbn [skip_questions].
  eapply safe_bind; [apply read_name_safe|]. intros [name next] _. apply IH.
Qed.

Lemma read_record_safe offset : safe (λ _, True) (read_record payload offset).
Proof.
  unfold read_record. eapply safe_bind; [apply read_name_safe|]. intros [name o] Ho. cbn in Ho.
  destruct (Nat.ltb_spec (length payload) (o + 10)); [done|].
  do 5 (eapply safe_bind; [apply read_u16_safe; lia|intros ? _]).
  destruct (Nat.ltb_spec (length payload) (o + 10 + Z.to_nat a3)); [done|].
  by rewrite slice_ok by lia.
Qed.

Lemma read_records_ret n offset records : ∃ r, read_records n payload offset records = Ret r.
Proof.
  revert offset records. induction n as [|n IH]; intros offset records; cbn [read_records]; [by eexists|].
  pose proof (read_record_safe offset) as Hs.
  destruct (read_record payload offset) as [[record o]|[]| |]; [apply IH|by eexists|done..].
Qed.

Lemma answer_records_ret : ∃ r, dns_answer_records payload = Ret r.
Proof.
  unfold dns_answer_records. destruct (Nat.ltb_spec (length payload) 12); [by eexists|].
  pose proof (read_u16_safe (E:=unit) payload 4 ltac:(lia)) as H4.
  pose proof (read_u16_safe (E:=unit) payload 6 ltac:(lia)) as H6.
  assert (Hret : ∀ i, (i + 2 ≤ length payload)%nat → ∃ v, read_u16 (E:=unit) payload i = Ret v).
  { intros i Hi. unfold read_u16, index. destruct (lookup_lt_is_Some_2 payload i ltac:(lia)) as [hi ->].
    destruct (lookup_lt_is_Some_2 payload (i + 1)%nat ltac:(lia)) as [lo ->]. by eexists. }
  destruct (Hret 4%nat) as [q ->]; [lia|]. destruct (Hret 6%nat) as [a ->]; [lia|]. cbn [mbind outcome_bind].
  pose proof (skip_questions_safe (Z.to_nat q) 12) as Hs.
  destruct (skip_questions _ _ _) as [o|[]| |]; [apply read_records_ret|by eexists|done..].
Qed.

Lemma cname_edges_ret records :
  ∃ edges, cname_edges payload records = Ret edges ∧ (length edges ≤ length records)%nat.
Proof.
  induction records as [|r records (edges & He & Hlen)]; [by exists []|]. cbn [cname_edges].
  destruct ((r_type r =? 5) && (r_class r =? 1)); [|exists edges; split; [done|simpl; lia]].
  pose proof (read_name_safe (r_data_offset r)) as Hs.
  destruct (read_dns_name _ _) as [[target o]|[]| |]; [|exists edges; split; [done|simpl; lia]|done..].
  rewrite He. eexists. split; [done|]. simpl. lia.
Qed.

Lemma primary_hosts_ret :
  ∃ hosts, dns_primary_question_hosts payload = Ret hosts ∧
    hosts = match dns_question payload with Ret q => [q_host q] | _ => [] end.
Proof.
  unfold dns_primary_question_hosts. pose proof question_safe as Hs.
  destruct (dns_question payload) as [q|[]| |]; [by eexists..|done|done].
Qed.
End message.

(** ** The names an answer speaks of *)

(** The alias relation of an answer. *)
Definition alias (edges : list (str * str)) (name target : str) : Prop := (name, target) ∈ edges.

(** The targets that are still to be accepted. *)
Definition missing (edges : list (str * str)) (accepted : list str) : nat :=
  length (filter (λ e, e.2 ∉ accepted) edges).

Lemma missing_mono edges accepted accepted' :
  accepted ⊆ accepted' → (missing edges accepted' ≤ missing edges accepted)%nat.
Proof.
  intros Hsub. unfold missing. induction edges as [|e edges IH]; [done|].
  destruct (decide (e.2 ∈ accepted')).
  - rewrite (filter_cons_False _ e edges) by naive_solver. rewrite filter_cons. case_decide; simpl; lia.
  - rewrite !filter_cons_True by set_solver. simpl. lia.
Qed.

Lemma missing_strict edges accepted accepted' name target :
  accepted ⊆ accepted' → (name, target) ∈ edges → target ∈ accepted' → target ∉ accepted →
  (missing edges accepted' < missing edges accepted)%nat.
Proof.
  intros Hsub Hin Hnew Hold. apply list_elem_of_split in Hin as (e1 & e2 & ->). unfold missing.
  rewrite !filter_app, !length_app.
  pose proof (missing_mono e1 _ _ Hsub) as H1. pose proof (missing_mono e2 _ _ Hsub) as H2. unfold missing in H1, H2.
  rewrite (filter_cons_False (λ e, e.2 ∉ accepted')) by naive_solver.
  rewrite (filter_cons_True (λ e, e.2 ∉ accepted)) by done. simpl. lia.
Qed.

Section aliases.
Context (edges : list (str * str)) (start : list str).

Definition reachable (n : str) : Prop := ∃ s, s ∈ start ∧ rtc (alias edges) s n.

(** One pass over some of the edges. *)
Lemma follow_edges_spec es accepted changed :
  (∀ e, e ∈ es → e ∈ edges) → (∀ n, n ∈ accepted → reachable n) →
  let '(accepted', changed') := follow_edges es accepted changed in
  accepted ⊆ accepted' ∧ (∀ n, n ∈ accepted' → reachable n) ∧
  (changed' = false → changed = false ∧ accepted' = accepted ∧
     ∀ name target, (name, target) ∈ es → name ∈ accepted → target ∈ accepted) ∧
  (changed' = true → changed = true ∨ (missing edges accepted' < missing edges accepted)%nat).
Proof.
  revert accepted changed. induction es as [|[name target] es IH]; intros accepted changed Hes Hreach; cbn [follow_edges].
  { split_and!; [done|done| |by left]. intros ->. split_and!; [done|done|]. by intros ?? ?%elem_of_nil. }
  case_bool_decide as Hname; [|cbn [andb]].
  - case_bool_decide as Htarget; cbn [andb negb].
    + specialize (IH accepted changed ltac:(intros; apply Hes; by right) Hreach).
      destruct (follow_edges es accepted changed) as [accepted' changed']. destruct IH as (Hsub & Hr & Hf & Ht).
      split_and!; [done|done| |done]. intros Hc. destruct (Hf Hc) as (? & ? & Hcl). split_and!; [done|done|].
      intros n t [[= -> ->]|Hin]%elem_of_cons Hn; [done|by eapply Hcl].
    + assert (Hin : (name, target) ∈ edges) by (apply Hes; by left).
      specialize (IH (accepted ++ [target]) true ltac:(intros; apply Hes; by right)).
      destruct (follow_edges es (accepted ++ [target]) true) as [accepted' changed'].
      destruct IH as (Hsub & Hr & Hf & Ht).
      { intros n [Hn| ->%list_elem_of_singleton]%elem_of_app; [by apply Hreach|].
        destruct (Hreach name Hname) as (s & Hs & Hrtc). exists s. split; [done|]. by eapply rtc_r. }
      split_and!; [set_solver|done| |].
      * intros Hc. by destruct (Hf Hc).
      * intros _. right. eapply missing_strict; [set_solver|exact Hin|set_solver|done].
  - specialize (IH accepted changed ltac:(intros; apply Hes; by right) Hreach).
    destruct (follow_edges es accepted changed) as [accepted' changed']. destruct IH as (Hsub & Hr & Hf & Ht).
    split_and!; [done|done| |done]. intros Hc. destruct (Hf Hc) as (? & ? & Hcl). split_and!; [done|done|].
    intros n t [[= -> ->]|Hin]%elem_of_cons Hn; [done|by eapply Hcl].
Qed.

Lemma accept_loop_spec fuel accepted :
  (missing edges accepted < fuel)%nat → start ⊆ accepted → (∀ n, n ∈ accepted → reachable n) →
  ∃ final, accept_loop fuel edges accepted = Ret final ∧ ∀ n, n ∈ final ↔ reachable n.
Proof.
  revert accepted. induction fuel as [|fuel IH]; intros accepted Hfuel Hstart Hreach; [lia|]. cbn [accept_loop].
  pose proof (follow_edges_spec edges accepted false ltac:(done) Hreach) as Hs.
  destruct (follow_edges edges accepted false) as [accepted' changed]. destruct Hs as (Hsub & Hr & Hf & Ht).
  destruct changed.
  - destruct (Ht eq_refl) as [|Hm]; [done|]. apply IH; [lia|set_solver|done].
  - destruct (Hf eq_refl) as (_ & -> & Hcl). exists accepted. split; [done|]. intros n. split; [apply Hreach|].
    intros (s & Hs & Hrtc). apply Hstart in Hs. revert Hs.
    induction Hrtc as [|x y z Hxy _ IHr]; intros Hx; [done|]. apply IHr. by eapply Hcl.
Qed.
End aliases.

Lemma accepted_names_reachable edges start :
  ∃ final, accept_loop (S (length edges)) edges start = Ret final ∧
    ∀ n, n ∈ final ↔ reachable edges start n.
Proof.
  apply accept_loop_spec; [|done|].
  - unfold missing. pose proof (length_filter (λ e, e.2 ∉ start) edges). lia.
  - intros n Hn. exists n. by split.
Qed.

(** ** What a name is *)

(** At [offset] the payload holds [labels] and ends at [end_], through [jumps]
    compression pointers. *)
Inductive name_at (payload : bytes) : nat → nat → list str → nat → Prop :=
| name_root offset :
    payload !! offset = Some 0 → name_at payload 0 offset [] (offset + 1)
| name_label jumps offset len label labels end_ :
    payload !! offset = Some len → 0 < len < 64 → (offset + 1 + Z.to_nat len ≤ length payload)%nat →
    utf8_decode (take (Z.to_nat len) (drop (offset + 1) payload)) = Some label →
    name_at payload jumps (offset + 1 + Z.to_nat len) labels end_ →
    name_at payload jumps offset (label :: labels) end_
| name_pointer jumps offset hi lo labels end_ :
    payload !! offset = Some hi → 192 <= hi → payload !! (offset + 1)%nat = Some lo →
    name_at payload jumps (Z.to_nat ((hi - 192) * 256 + lo)) labels end_ →
    name_at payload (S jumps) offset labels (offset + 2).

Lemma top_bits b : is_byte b →
  (b = 0 ∧ Z.land b 192 = 0) ∨ (0 < b < 64 ∧ Z.land b 192 = 0) ∨
  (192 <= b ∧ Z.land b 192 = 192 ∧ Z.land b 63 = b - 192) ∨ (64 <= b < 192 ∧ Z.land b 192 ≠ 0 ∧ Z.land b 192 ≠ 192).
Proof.
  apply (forall_below 256 (λ b, (b = 0 ∧ Z.land b 192 = 0) ∨ (0 < b < 64 ∧ Z.land b 192 = 0) ∨
    (192 <= b ∧ Z.land b 192 = 192 ∧ Z.land b 63 = b - 192) ∨
    (64 <= b < 192 ∧ Z.land b 192 ≠ 0 ∧ Z.land b 192 ≠ 192))). by vm_compute.
Qed.

Lemma pointer_target hi lo : is_byte hi → is_byte lo → 192 <= hi →
  Z.lor (Z.shiftl (Z.land hi 63) 8) lo = (hi - 192) * 256 + lo.
Proof.
  intros Hhi Hlo H. unfold is_byte in Hlo. rewrite lor_shiftl_add by (simpl; lia).
  destruct (top_bits hi Hhi) as [(? & ?)|[(? & ?)|[(_ & _ & ->)|(? & ?)]]]; lia.
Qed.

Section names.
Context (payload : bytes) (Hbytes : are_bytes payload).

Lemma scan_loop_sound fuel cursor end_offset jumps labels ls e :
  scan_loop fuel payload cursor end_offset jumps labels = Ret (ls, e) →
  ∃ k ls' e', name_at payload k cursor ls' e' ∧ ls = labels ++ ls' ∧ ls ≠ [] ∧
    e = default e' end_offset ∧ (k = 0%nat ∨ jumps + Z.of_nat k <= 16).
Proof.
  revert cursor end_offset jumps labels. induction fuel as [|fuel IH]; intros cursor end_offset jumps labels; [done|].
  cbn [scan_loop]. destruct (payload !! cursor) as [len|] eqn:Hlen; [|done]. cbn [some mbind outcome_bind].
  assert (Hb : is_byte len) by (by eapply Forall_lookup_1).
  destruct (top_bits len Hb) as [(-> & _)|[(Hr & H192)|[(Hr & H192 & _)|(Hr & Hn0 & Hn192)]]].
  - rewrite Z.eqb_refl. case_bool_decide; [done|]. intros [= <- <-].
    exists 0%nat, [], (cursor + 1)%nat. split_and!; [by constructor|by rewrite app_nil_r|done|done|by left].
  - rewrite (proj2 (Z.eqb_neq len 0)), H192 by lia. cbn [Z.eqb negb].
    destruct (Nat.ltb_spec (length payload) (cursor + 1 + Z.to_nat len)) as [|Hfit]; [done|].
    rewrite slice_ok by lia. cbn [mbind outcome_bind].
    replace (cursor + 1 + Z.to_nat len - (cursor + 1))%nat with (Z.to_nat len) by lia.
    destruct (utf8_decode _) as [label|] eqn:Hd; [|done]. cbn [some mbind outcome_bind].
    intros (k & ls' & e' & Hn & -> & Hne & -> & Hk)%IH.
    exists k, (label :: ls'), e'. split_and!; [by econstructor|by rewrite <-(assoc_L (++))|done|done|done].
  - rewrite (proj2 (Z.eqb_neq len 0)), H192 by lia. cbn [Z.eqb Pos.eqb].
    destruct (payload !! (cursor + 1)%nat) as [next|] eqn:Hnext; [|done]. cbn [some mbind outcome_bind].
    assert (Hb' : is_byte next) by (by eapply Forall_lookup_1).
    rewrite pointer_target by done. destruct (Z.ltb_spec 16 (jumps + 1)); [done|].
    intros (k & ls' & e' & Hn & -> & Hne & -> & Hk)%IH.
    exists (S k), ls', (cursor + 2)%nat. split_and!; [by econstructor|done|done| |right; lia].
    by destruct end_offset.
  - rewrite (proj2 (Z.eqb_neq len 0)), (proj2 (Z.eqb_neq _ 192)), (proj2 (Z.eqb_neq _ 0)) by (done || lia). done.
Qed.

Lemma scan_loop_complete k cursor ls' e' :
  name_at payload k cursor ls' e' → ∀ fuel end_offset jumps labels,
  0 <= jumps → jumps + Z.of_nat k <= 16 → (scan_measure payload cursor jumps < fuel)%nat → labels ++ ls' ≠ [] →
  scan_loop fuel payload cursor end_offset jumps labels = Ret (labels ++ ls', default e' end_offset).
Proof.
  induction 1 as [cursor Hlen|k cursor len label ls' e' Hlen Hr Hfit Hd Hn IH|k cursor hi lo ls' e' Hhi Hr Hlo Hn IH];
    intros fuel end_offset jumps labels Hj Hk Hfuel Hne; (destruct fuel as [|fuel]; [lia|]); cbn [scan_loop].
  - rewrite Hlen. cbn. rewrite app_nil_r in *. by rewrite bool_decide_eq_false_2.
  - rewrite Hlen. cbn [some mbind outcome_bind]. assert (Hb : is_byte len) by (by eapply Forall_lookup_1).
    destruct (top_bits len Hb) as [(? & _)|[(_ & ->)|[(? & _)|(? & _)]]]; [lia| |lia|lia].
    rewrite (proj2 (Z.eqb_neq len 0)) by lia. cbn [Z.eqb negb].
    rewrite (proj2 (Nat.ltb_ge _ _)), slice_ok by lia. cbn [mbind outcome_bind].
    replace (cursor + 1 + Z.to_nat len - (cursor + 1))%nat with (Z.to_nat len) by lia.
    rewrite Hd. cbn [some mbind outcome_bind].
    rewrite IH; [by rewrite <-(assoc_L (++))|done|done|unfold scan_measure in *; lia|by destruct labels].
  - rewrite Hhi. cbn [some mbind outcome_bind]. assert (Hb : is_byte hi) by (by eapply Forall_lookup_1).
    assert (Hb' : is_byte lo) by (by eapply Forall_lookup_1).
    destruct (top_bits hi Hb) as [(? & _)|[(? & _)|[(_ & -> & _)|(? & _)]]]; [lia|lia| |lia].
    rewrite (proj2 (Z.eqb_neq hi 0)) by lia. cbn [Z.eqb Pos.eqb].
    rewrite Hlo. cbn [some mbind outcome_bind]. rewrite pointer_target by done.
    rewrite (proj2 (Z.ltb_ge _ _)) by lia. rewrite IH; [by destruct end_offset|lia|lia| |done].
    unfold scan_measure in *. replace (Z.to_nat (17 - jumps)) with (S (Z.to_nat (17 - (jumps + 1)))) in Hfuel by lia.
    lia.
Qed.

Lemma scan_iff offset labels e :
  scan_dns_name payload offset = Ret (labels, e) ↔
  labels ≠ [] ∧ ∃ k, (k ≤ 16)%nat ∧ name_at payload k offset labels e.
Proof.
  unfold scan_dns_name. split.
  - intros (k & ls & e' & Hn & -> & Hne & -> & Hk)%scan_loop_sound. cbn in *. split; [done|].
    exists k. split; [lia|done].
  - intros (Hne & k & Hk & Hn).
    rewrite (scan_loop_complete _ _ _ _ Hn) by (done || lia || apply scan_fuel_enough). done.
Qed.
End names.

(** ** Writing a query *)

(** A label a query can hold, and its wire form. *)
Definition wf_label (l : str) : Prop :=
  is_str l ∧ (0 < length (utf8_encode l) < 64)%nat.
Definition wire_label (l : str) : bytes := zlen (utf8_encode l) :: utf8_encode l.
Definition wire_name (labels : list str) : bytes := concat (wire_label <$> labels) ++ [0].

(** A name with dots between its labels. *)
Definition dotted (labels : list str) : str := foldl push_label [] labels.

Lemma name_at_wire pre labels post :
  Forall wf_label labels →
  name_at (pre ++ wire_name labels ++ post) 0 (length pre) labels (length (pre ++ wire_name labels)).
Proof.
  intros Hl. unfold wire_name. revert pre. induction Hl as [|l labels [Hstr Hlen] _ IH]; intros pre; csimpl.
  - replace (length (pre ++ [0])) with (length pre + 1)%nat by (rewrite length_app; done).
    apply name_root. by rewrite lookup_app_r, Nat.sub_diag by lia.
  - set (len := zlen (utf8_encode l)). unfold wire_label. fold len. rewrite <-!(assoc_L (++)). csimpl.
    assert (Hlen' : Z.to_nat len = length (utf8_encode l)) by (unfold len, zlen; lia).
    specialize (IH (pre ++ len :: utf8_encode l)). rewrite <-!(assoc_L (++)) in IH. csimpl in IH.
    replace (length (pre ++ len :: utf8_encode l)) with (length pre + 1 + Z.to_nat len)%nat in IH
      by (rewrite length_app; simpl; lia).
    eapply (name_label _ _ _ len); [|unfold len, zlen; lia| | |].
    + by rewrite list_lookup_middle.
    + rewrite length_app. simpl. rewrite length_app, Hlen'. lia.
    + rewrite <-(utf8_roundtrip l Hstr). f_equal.
      change (pre ++ len :: ?x) with (pre ++ [len] ++ x). rewrite (assoc_L (++)).
      rewrite (drop_app_length' (pre ++ [len])) by (rewrite length_app; simpl; lia).
      by rewrite Hlen', take_app_length.
    + exact IH.
Qed.

(** A message: twelve bytes of header, a question, and what follows. *)
Definition query (header : bytes) (labels : list str) (qtype qclass : Z) (rest : bytes) : bytes :=
  header ++ wire_name labels ++ [qtype / 256; qtype mod 256; qclass / 256; qclass mod 256] ++ rest.

Lemma u16_split v : 0 <= v < 65536 → u16_be (v / 256) (v mod 256) = v.
Proof.
  intros Hv. unfold u16_be. pose proof (Z.mod_pos_bound v 256 ltac:(lia)).
  rewrite lor_shiftl_add by (simpl; lia). change (2 ^ 8) with 256.
  pose proof (Z.div_mod v 256 ltac:(lia)). lia.
Qed.

Lemma read_u16_at {E} pre hi lo post : read_u16 (E:=E) (pre ++ hi :: lo :: post) (length pre) = Ret (u16_be hi lo).
Proof.
  unfold read_u16, index. rewrite (list_lookup_middle pre (lo :: post) hi (length pre)) by done. cbn [mbind outcome_bind].
  rewrite lookup_app_r by lia. by replace (length pre + 1 - length pre)%nat with 1%nat by lia.
Qed.

Lemma wire_name_bytes labels : Forall wf_label labels → are_bytes (wire_name labels).
Proof.
  intros Hl. unfold are_bytes, wire_name. apply Forall_app. split; [|by repeat constructor].
  induction Hl as [|l labels [Hs Hlen] _ IH]; csimpl; [constructor|].
  constructor; [unfold is_byte, zlen; lia|]. apply Forall_app. split; [|done].
  clear -Hs. unfold utf8_encode. induction Hs as [|c l Hc _ IH]; [constructor|].
  rewrite bind_cons. apply Forall_app. split; [by apply utf8_encode_char_bytes|done].
Qed.

(** ** The TCP stream *)

Definition frame (message : bytes) : bytes := be_bytes 2 (zlen message) ++ message.

Lemma be_bytes_2 v : 0 <= v < 65536 → be_bytes 2 v = [v / 256; v mod 256].
Proof.
  intros Hv. unfold be_bytes. cbn [le_bytes]. rewrite !land_255, Z.shiftr_div_pow2 by lia. change (2 ^ 8) with 256.
  rewrite (Z.mod_small (v / 256)); [done|]. split; [apply Z.div_pos; lia|apply Z.div_lt_upper_bound; lia].
Qed.

(** Nothing at the front of [rest] is a whole message. *)
Definition incomplete (rest : bytes) : Prop :=
  match rest with
  | hi :: lo :: body => zlen body < u16_be hi lo
  | _ => True
  end.

Definition wire (messages : list bytes) : bytes := concat (frame <$> messages).
Lemma wire_cons m ms : wire (m :: ms) = frame m ++ wire ms.
Proof. done. Qed.
Definition fits (message : bytes) : Prop := zlen message < 65536.

Lemma frame_cons message : fits message → frame message = zlen message / 256 :: zlen message mod 256 :: message.
Proof. intros Hm. unfold frame, fits in *. rewrite be_bytes_2; [done|]. unfold zlen in *. lia. Qed.

(** A stream is cut into messages in one way only. *)
Lemma wire_unique ms ms' rest rest' :
  Forall fits ms → Forall fits ms' → incomplete rest → incomplete rest' →
  wire ms ++ rest = wire ms' ++ rest' → ms = ms' ∧ rest = rest'.
Proof.
  assert (Hwhole : ∀ m more, fits m → ¬ incomplete (frame m ++ more)).
  { intros m more Hm. rewrite frame_cons by done. cbn [app incomplete].
    rewrite u16_split by (unfold fits, zlen in *; lia). unfold zlen. rewrite length_app. lia. }
  intros Hms. revert ms'. induction Hms as [|m ms Hm Hms IH]; intros ms' Hms' Hr Hr' Heq;
    destruct Hms' as [|m' ms' Hm' Hms']; rewrite ?wire_cons in Heq.
  - done.
  - destruct (Hwhole m' (wire ms' ++ rest') Hm'). rewrite (assoc_L (++)). by rewrite <-Heq.
  - destruct (Hwhole m (wire ms ++ rest) Hm). rewrite (assoc_L (++)). by rewrite Heq.
  - rewrite <-!(assoc_L (++)), !frame_cons in Heq by done. cbn [app] in Heq. injection Heq as Hhi Hlo Hrest.
    assert (Hlen : length m = length m').
    { pose proof (Z.div_mod (zlen m) 256 ltac:(lia)). pose proof (Z.div_mod (zlen m') 256 ltac:(lia)).
      unfold zlen in *. lia. }
    apply app_inj_1 in Hrest as [-> Hrest]; [|done].
    destruct (IH ms' Hms' Hr Hr' Hrest) as [-> ->]. done.
Qed.

Lemma frames_loop_spec fuel buffer offset :
  are_bytes buffer → (offset ≤ length buffer)%nat → (length buffer - offset < fuel)%nat →
  ∃ messages o, frames_loop fuel buffer offset = Ret (messages, o) ∧
    drop offset buffer = wire messages ++ drop o buffer ∧ incomplete (drop o buffer) ∧ Forall fits messages ∧
    Forall are_bytes messages.
Proof.
  intros Hb. revert offset. induction fuel as [|fuel IH]; intros offset Ho Hfuel; [lia|]. cbn [frames_loop].
  destruct (Nat.leb_spec 2 (length buffer - offset)) as [Htwo|Hshort].
  2: { exists [], offset. split_and!; [done|done| |done|done].
       destruct (drop offset buffer) as [|x [|y l]] eqn:Hd; try done.
       apply (f_equal length) in Hd. rewrite length_drop in Hd. simpl in Hd. lia. }
  destruct (drop offset buffer) as [|hi [|lo body]] eqn:Hd.
  1,2: apply (f_equal length) in Hd; rewrite length_drop in Hd; simpl in Hd; lia.
  assert (Hbuf : buffer = take offset buffer ++ hi :: lo :: body) by (by rewrite <-Hd, take_drop).
  assert (Hread : read_u16 (E:=unit) buffer offset = Ret (u16_be hi lo)).
  { rewrite Hbuf at 1. replace offset with (length (take offset buffer)) at 2 by (rewrite length_take; lia).
    apply read_u16_at. }
  rewrite Hread. cbn [mbind outcome_bind].
  assert (Hhl : is_byte hi ∧ is_byte lo).
  { rewrite Hbuf in Hb. apply Forall_app in Hb as [_ Hb]. by apply Forall_cons in Hb as [? [? _]%Forall_cons]. }
  assert (Hv : 0 <= u16_be hi lo < 65536).
  { unfold u16_be, is_byte in *. rewrite lor_shiftl_add by (simpl; lia). change (2 ^ 8) with 256. lia. }
  assert (Hlb : length buffer = (offset + 2 + length body)%nat).
  { apply (f_equal length) in Hd. rewrite length_drop in Hd. simpl in Hd. lia. }
  destruct (Nat.ltb_spec (length buffer) (offset + 2 + Z.to_nat (u16_be hi lo))) as [Hmore|Hwhole].
  - exists [], offset. rewrite Hd. split_and!; [done|done| |done|done]. cbn. unfold zlen. lia.
  - rewrite slice_ok by lia. cbn [mbind outcome_bind].
    set (n := Z.to_nat (u16_be hi lo)) in *.
    destruct (IH (offset + 2 + n)%nat) as (messages & o & Hrun & Hwire & Hinc & Hfit & Hbytes); [lia|lia|].
    rewrite Hrun. cbn [mbind outcome_bind].
    assert (Hd2 : drop (offset + 2) buffer = body).
    { rewrite <-(drop_drop buffer 2 offset), Hd || rewrite drop_drop. done. }
    replace (offset + 2 + n - (offset + 2))%nat with n by lia. rewrite Hd2.
    assert (Hz : zlen (take n body) = u16_be hi lo) by (unfold zlen; rewrite length_take; lia).
    assert (Hfits : fits (take n body)) by (unfold fits; lia).
    exists (take n body :: messages), o. split_and!; [done| |done|by constructor|].
    + rewrite wire_cons, <-(assoc_L (++)), <-Hwire, frame_cons, Hz by done.
      assert (Hbody : drop (offset + 2 + n) buffer = drop n body) by (by rewrite <-Hd2, drop_drop).
      rewrite Hbody. cbn [app]. rewrite take_drop.
      assert (Hhilo : u16_be hi lo / 256 = hi ∧ u16_be hi lo mod 256 = lo).
      { unfold u16_be, is_byte in *. rewrite lor_shiftl_add by (simpl; lia). change (2 ^ 8) with 256.
        split; symmetry; [apply (Z.div_unique _ 256 hi lo)|apply (Z.mod_unique _ 256 hi lo)]; lia. }
      by destruct Hhilo as [-> ->].
    + constructor; [|done]. apply Forall_take. rewrite <-Hd2. by apply Forall_drop.
Qed.

(** What a call hands to its closure, and what it keeps. *)
Lemma for_each_spec buffer bytes :
  are_bytes (buffer ++ bytes) → (length buffer + length bytes ≤ TCP_DNS_FRAME_BUFFER_CAPACITY)%nat →
  ∃ messages rest, for_each_message buffer bytes = Ret (messages, rest) ∧
    buffer ++ bytes = wire messages ++ rest ∧ incomplete rest ∧ Forall fits messages ∧ Forall are_bytes messages.
Proof.
  intros Hb Hlen. unfold for_each_message. rewrite (proj2 (Nat.ltb_ge _ _)) by done.
  destruct (frames_loop_spec (S (length (buffer ++ bytes))) (buffer ++ bytes) 0 Hb) as (ms & o & -> & Hw & ? & ? & ?);
    [lia|lia|]. cbn [mbind outcome_bind]. by exists ms, (drop o (buffer ++ bytes)).
Qed.

(** The messages of the segments of a stream, and what is left buffered. *)
Fixpoint feed (segments : list bytes) (buffer : bytes) : partial (list bytes * bytes) :=
  match segments with
  | [] => Ret ([], buffer)
  | segment :: segments =>
    '(ms, buffer) ← for_each_message buffer segment;
    '(more, buffer) ← feed segments buffer;
    Ret (ms ++ more, buffer)
  end.

Lemma wire_app ms ms' : wire (ms ++ ms') = wire ms ++ wire ms'.
Proof. unfold wire. by rewrite fmap_app, concat_app. Qed.

(** The stream is whole messages and an incomplete rest. *)
Definition kept (stream rest : bytes) : Prop := incomplete rest ∧ ∃ messages, Forall fits messages ∧ stream = wire messages ++ rest.

(** Every segment finds room beside the incomplete message it arrives after. *)
Definition room_for (stream : bytes) (segments : list bytes) : Prop :=
  ∀ before segment after rest, segments = before ++ segment :: after → kept (stream ++ concat before) rest →
    (length rest + length segment ≤ TCP_DNS_FRAME_BUFFER_CAPACITY)%nat.

Lemma feed_spec segments stream buffer :
  are_bytes (buffer ++ concat segments) → kept stream buffer → room_for stream segments →
  ∃ messages rest, feed segments buffer = Ret (messages, rest) ∧
    buffer ++ concat segments = wire messages ++ rest ∧ incomplete rest ∧ Forall fits messages.
Proof.
  revert stream buffer. induction segments as [|s segments IH]; intros stream buffer Hb Hkept Hroom; cbn [feed concat] in *.
  { exists [], buffer. rewrite app_nil_r. by destruct Hkept. }
  rewrite (assoc_L (++)) in Hb. apply Forall_app in Hb as [Hb1 Hb2].
  destruct (for_each_spec buffer s Hb1) as (ms & rest & -> & Hw & Hr & Hf & Hfb).
  { apply (Hroom [] s segments); [done|]. cbn [concat]. by rewrite app_nil_r. }
  cbn [mbind outcome_bind]. destruct (IH (stream ++ s) rest) as (ms' & rest' & -> & Hw' & Hr' & Hf').
  - rewrite Hw in Hb1. apply Forall_app in Hb1 as [_ ?]. by apply Forall_app.
  - destruct Hkept as (_ & old & Hold & ->). split; [done|]. exists (old ++ ms). split; [by apply Forall_app|].
    by rewrite <-(assoc_L (++)), Hw, wire_app, (assoc_L (++)).
  - intros before s' after rest' -> Hk. apply (Hroom (s :: before) s' after); [done|]. cbn [concat]. by rewrite (assoc_L (++)).
  - cbn [mbind outcome_bind]. exists (ms ++ ms'), rest'. split_and!; [done| |done|by apply Forall_app].
    by rewrite (assoc_L (++)), Hw, wire_app, <-!(assoc_L (++)), Hw'.
Qed.

Lemma feed_app segments segments' buffer :
  feed (segments ++ segments') buffer =
  '(ms, buffer) ← feed segments buffer; '(more, buffer) ← feed segments' buffer; Ret (ms ++ more, buffer).
Proof.
  revert buffer. induction segments as [|s segments IH]; intros buffer; cbn [feed app].
  { cbn [mbind outcome_bind]. by destruct (feed segments' buffer) as [[]| | |]. }
  destruct (for_each_message buffer s) as [[ms b]| | |]; [|done..]. cbn [mbind outcome_bind]. rewrite IH.
  destruct (feed segments b) as [[more b']| | |]; [|done..]. cbn [mbind outcome_bind].
  destruct (feed segments' b') as [[]| | |]; [|done..]. cbn [mbind outcome_bind]. by rewrite (assoc_L (++)).
Qed.

Lemma cname_edges_spec payload records edges name target :
  cname_edges payload records = Ret edges →
  (name, target) ∈ edges ↔ ∃ r o, r ∈ records ∧ r_type r = 5 ∧ r_class r = 1 ∧ r_name r = name ∧
    read_dns_name payload (r_data_offset r) = Ret (target, o).
Proof.
  revert edges. induction records as [|r records IH]; intros edges; cbn [cname_edges].
  { intros [= <-]. split; [by intros ?%elem_of_nil|]. by intros (r & o & ?%elem_of_nil & _). }
  assert (Hskip : ∀ edges', cname_edges payload records = Ret edges' →
    ¬ (r_type r = 5 ∧ r_class r = 1 ∧ ∃ o, read_dns_name payload (r_data_offset r) = Ret (target, o) ∧ r_name r = name) →
    (name, target) ∈ edges' ↔ ∃ r' o, r' ∈ r :: records ∧ r_type r' = 5 ∧ r_class r' = 1 ∧ r_name r' = name ∧
      read_dns_name payload (r_data_offset r') = Ret (target, o)).
  { intros edges' He Hno. rewrite (IH _ He). split.
    - intros (r' & o & ? & ?). exists r', o. split; [by right|done].
    - intros (r' & o & [->|Hin]%elem_of_cons & H1 & H2 & H3 & H4); [destruct Hno; eauto|]. by exists r', o. }
  destruct ((r_type r =? 5) && (r_class r =? 1)) eqn:Htc.
  2: { intros He. apply Hskip; [done|]. intros (H1 & H2 & _). rewrite H1, H2 in Htc. done. }
  apply andb_true_iff in Htc as [H5%Z.eqb_eq H1%Z.eqb_eq].
  destruct (read_dns_name payload (r_data_offset r)) as [[t o]|[]| |] eqn:Hread; [| |done..].
  2: { intros He. apply Hskip; [done|]. by intros (_ & _ & o & ? & _). }
  destruct (cname_edges payload records) as [edges'| | |] eqn:He; [|done..]. cbn [mbind outcome_bind]. intros [= <-].
  rewrite elem_of_cons. split.
  - intros [[= -> ->]|Hin]; [exists r, o; split; [by left|done]|].
    apply (IH _ eq_refl) in Hin as (r' & o' & ? & ?). exists r', o'. split; [by right|done].
  - intros (r' & o' & [->|Hin]%elem_of_cons & ? & ? & <- & Hr'); [left; congruence|].
    right. apply (IH _ eq_refl). by exists r', o'.
Qed.

Lemma min_list_spec l :
  match min_list l with
  | Some m => m ∈ l ∧ Forall (λ x, m <= x) l
  | None => l = []
  end.
Proof.
  destruct l as [|x l]; [done|]. cbn [min_list].
  assert (Hf : ∀ x l, foldl Z.min x l ∈ x :: l ∧ foldl Z.min x l <= x ∧ Forall (λ y, foldl Z.min x l <= y) l).
  { clear. intros x l. revert x. induction l as [|y l IH]; intros x; cbn [foldl].
    { split_and!; [by left|lia|constructor]. }
    destruct (IH (Z.min x y)) as (Hin & Hle & Hall). split_and!.
    - apply elem_of_cons in Hin as [->|Hin]; [|by right; right].
      destruct (Z.min_spec x y) as [[_ ->]|[_ ->]]; [by left|right; by left].
    - lia.
    - constructor; [lia|done]. }
  destruct (Hf x l) as (? & ? & ?). split; [done|by constructor].
Qed.

(** ** Theorems *)

Lemma address_records_ret payload : are_bytes payload → ∃ r, dns_address_records payload = Ret r.
Proof.
  intros Hb. unfold dns_address_records, dns_addresses_with_ttl.
  destruct (primary_hosts_ret payload Hb) as (hosts & -> & _). destruct (answer_records_ret payload Hb) as [rs ->].
  cbn [mbind outcome_bind]. destruct (cname_edges_ret payload Hb rs) as (es & -> & _). cbn [mbind outcome_bind].
  destruct (accepted_names_reachable es hosts) as (final & -> & _). by eexists.
Qed.

(** C40: whatever the bytes are - truncated, with compression pointers that form
    a cycle, with aliases that form one - reading a question and reading the
    addresses of an answer end without panicking. *)
Theorem dns_parsing_total (payload : bytes) :
  are_bytes payload →
  ((∃ q, dns_question payload = Ret q) ∨ dns_question payload = none) ∧
  ∃ r, dns_address_records payload = Ret r.
Proof.
  intros Hb. split.
  - pose proof (question_safe payload Hb) as Hs. destruct (dns_question payload) as [q|[]| |]; eauto; done.
  - by apply address_records_ret.
Qed.

Lemma dns_parsing_total_witness :
  let loop := replicate 4 0 ++ [0; 1; 0; 1] ++ replicate 4 0 ++ [192; 12] in
  are_bytes loop ∧ ∃ r, dns_address_records loop = Ret r.
Proof.
  intros loop. assert (Hb : are_bytes loop) by (apply (bool_decide_unpack (Forall _ _)); by vm_compute).
  split; [exact Hb|]. exact (proj2 (dns_parsing_total loop Hb)).
Defined.

(** C36: the name scanner implements the wire format: it reads exactly the names
    that labels of one to sixty-three bytes of UTF-8 and at most sixteen
    compression pointers make up, and reports where the name ends in place. *)
Theorem scan_dns_name_exact (payload : bytes) (offset : nat) (labels : list str) (end_ : nat) :
  are_bytes payload →
  scan_dns_name payload offset = Ret (labels, end_) ↔
  labels ≠ [] ∧ ∃ jumps, (jumps ≤ 16)%nat ∧ name_at payload jumps offset labels end_.
Proof. intros Hb. by apply scan_iff. Qed.

Lemma scan_dns_name_exact_witness :
  let payload := [1; 97; 192; 4; 1; 98; 0] in
  are_bytes payload ∧ scan_dns_name payload 0 = Ret ([[97]; [98]], 4%nat).
Proof.
  intros payload. assert (Hb : are_bytes payload) by (apply (bool_decide_unpack (Forall _ _)); by vm_compute).
  split; [exact Hb|]. apply (scan_dns_name_exact payload 0 _ _ Hb). split; [discriminate|].
  exists 1%nat. split; [lia|].
  apply (name_label payload 1 0 1 [97] [[98]] 4); [reflexivity|lia|simpl; lia|reflexivity|].
  apply (name_pointer payload 0 2 192 4 [[98]] 7); [reflexivity|lia|reflexivity|].
  apply (name_label payload 0 4 1 [98] [] 7); [reflexivity|lia|simpl; lia|reflexivity|].
  apply (name_root payload 6). reflexivity.
Defined.

(** a query is read back: from its header, its labels and what follows, the
    question has the identifier, the lower-case dotted name, the type and the
    class that were written. *)
Theorem dns_question_roundtrip (id0 id1 : Z) (flags counts rest : bytes) (labels : list str) (qtype qclass : Z) :
  length flags = 2%nat → length counts = 6%nat → are_bytes (id0 :: id1 :: flags ++ [0; 1] ++ counts ++ rest) →
  labels ≠ [] → Forall wf_label labels → 0 <= qtype < 65536 → 0 <= qclass < 65536 →
  dns_question (query (id0 :: id1 :: flags ++ [0; 1] ++ counts) labels qtype qclass rest) =
  Ret {| q_id := u16_be id0 id1; q_host := dotted labels; q_qtype := qtype; q_qclass := qclass |}.
Proof.
  intros Hf Hc Hb Hne Hl Ht Hq.
  destruct flags as [|f0 [|f1 [|]]]; try done. destruct counts as [|c0 [|c1 [|c2 [|c3 [|c4 [|c5 [|]]]]]]]; try done.
  cbn [app] in *. set (header := [id0; id1; f0; f1; 0; 1; c0; c1; c2; c3; c4; c5]) in *.
  set (tail := [qtype / 256; qtype mod 256; qclass / 256; qclass mod 256] ++ rest).
  assert (Hpayload : are_bytes (query header labels qtype qclass rest)).
  { unfold query, are_bytes in *. apply (Forall_app _ header rest) in Hb as [Hh Hr]. rewrite !Forall_app.
    pose proof (Z.mod_pos_bound qtype 256 ltac:(lia)). pose proof (Z.mod_pos_bound qclass 256 ltac:(lia)).
    split_and!; [done|by apply wire_name_bytes| |done].
    repeat constructor; unfold is_byte; try lia; try (apply Z.div_pos; lia); apply Z.div_lt_upper_bound; lia. }
  assert (Hscan : scan_dns_name (query header labels qtype qclass rest) 12 =
    Ret (labels, length (header ++ wire_name labels))).
  { apply scan_iff; [done|]. split; [done|]. exists 0%nat. split; [lia|].
    apply (name_at_wire header labels tail Hl). }
  assert (Hat : ∀ n a hi lo b, query header labels qtype qclass rest = a ++ hi :: lo :: b → n = length a →
    read_u16 (E:=unit) (query header labels qtype qclass rest) n = Ret (u16_be hi lo)).
  { intros n a hi lo b -> ->. apply read_u16_at. }
  unfold dns_question, dns_question_parts. rewrite (read_name_scan _ Hpayload), Hscan.
  assert (Hlen : length (query header labels qtype qclass rest) =
    (length (header ++ wire_name labels) + 4 + length rest)%nat).
  { unfold query. rewrite !length_app. simpl. lia. }
  assert (Hlh : (12 ≤ length (header ++ wire_name labels))%nat) by (rewrite length_app; simpl; lia).
  rewrite (proj2 (Nat.ltb_ge _ _)) by lia.
  rewrite (Hat 4%nat [id0; id1; f0; f1] 0 1 ([c0; c1; c2; c3; c4; c5] ++ wire_name labels ++ tail) eq_refl eq_refl).
  cbn [mbind outcome_bind]. change (u16_be 0 1 =? 0) with false. cbv iota.
  rewrite (proj2 (Nat.ltb_ge _ _)) by lia.
  rewrite (Hat 0%nat [] id0 id1 ([f0; f1; 0; 1; c0; c1; c2; c3; c4; c5] ++ wire_name labels ++ tail) eq_refl eq_refl).
  cbn [mbind outcome_bind].
  rewrite (Hat (length (header ++ wire_name labels)) (header ++ wire_name labels) (qtype / 256) (qtype mod 256) (qclass / 256 :: qclass mod 256 :: rest))
    by (done || (unfold query; by rewrite (assoc_L (++) header))).
  cbn [mbind outcome_bind].
  rewrite (Hat (length (header ++ wire_name labels) + 2)%nat ((header ++ wire_name labels) ++ [qtype / 256; qtype mod 256]) (qclass / 256) (qclass mod 256) rest)
    by (first [by rewrite (length_app (header ++ _))|unfold query; by rewrite <-!(assoc_L (++))]).
  cbn [mbind outcome_bind]. by rewrite !u16_split by done.
Qed.

Lemma dns_question_roundtrip_witness :
  dns_question (query (7 :: 9 :: [1; 0] ++ [0; 1] ++ replicate 6 0) [bytes_of "API"; bytes_of "example"] 28 1 []) =
  Ret {| q_id := 1801; q_host := bytes_of "api.example"; q_qtype := 28; q_qclass := 1 |}.
Proof.
  refine (dns_question_roundtrip 7 9 [1; 0] (replicate 6 0) [] [bytes_of "API"; bytes_of "example"] 28 1 _ _ _ _ _ _ _);
    try reflexivity; try discriminate; try lia.
  - apply (bool_decide_unpack (Forall _ _)). by vm_compute.
  - repeat constructor; try (apply (bool_decide_unpack (Forall _ _)); by vm_compute); vm_compute; lia.
Defined.

(** The alias records of an answer, read off its wire form. *)
Definition alias_record (payload : bytes) (records : list DnsRecord) (name target : str) : Prop :=
  ∃ r o, r ∈ records ∧ r_type r = 5 ∧ r_class r = 1 ∧ r_name r = name ∧
    read_dns_name payload (r_data_offset r) = Ret (target, o).

(** The record [r] is an address the answer gives to the question [q]. *)
Definition answers (payload : bytes) (records : list DnsRecord) (q : DnsQuestion) (r : DnsRecord) (a : AddressRecord) : Prop :=
  r ∈ records ∧ r_class r = 1 ∧ rtc (alias_record payload records) (q_host q) (r_name r) ∧ address_record r = Some a.

(** C35: an address is taken from an answer exactly when an A or AAAA record of
    class IN gives it to a name that the chain of CNAME records, in whatever
    order they come and however they loop, leads to from the host of the
    question; the time to live is the least of theirs. *)
Theorem dns_addresses_follow_aliases (payload : bytes) (q : DnsQuestion) :
  are_bytes payload → dns_question payload = Ret q →
  ∃ records r, dns_answer_records payload = Ret records ∧ dns_address_records payload = Ret r ∧
    (∀ ip, ip ∈ addresses r ↔ ∃ rec a, answers payload records q rec a ∧ a_addr a = ip) ∧
    ∀ rec a, answers payload records q rec a → ttl r <= a_ttl a.
Proof.
  intros Hb Hq. destruct (answer_records_ret payload Hb) as [records Hrec].
  destruct (cname_edges_ret payload Hb records) as (edges & Hedges & _).
  destruct (accepted_names_reachable edges [q_host q]) as (final & Hfinal & Hreach).
  exists records. eexists. split; [done|]. split.
  { unfold dns_address_records, dns_addresses_with_ttl, dns_primary_question_hosts.
    rewrite Hq, Hrec. cbn [mbind outcome_bind]. rewrite Hedges. cbn [mbind outcome_bind]. by rewrite Hfinal. }
  assert (Hrtc : ∀ n, n ∈ final ↔ rtc (alias_record payload records) (q_host q) n).
  { intros n. rewrite Hreach. unfold reachable. split.
    - intros (s & ->%list_elem_of_singleton & Hr). revert Hr. apply rtc_subrel. intros x y Hxy.
      by apply (cname_edges_spec payload records edges).
    - intros Hr. exists (q_host q). split; [by left|]. revert Hr. apply rtc_subrel. intros x y Hxy.
      by apply (cname_edges_spec payload records edges). }
  assert (Hin : ∀ a, a ∈ accepted_records final records ↔ ∃ rec, answers payload records q rec a).
  { intros a. unfold accepted_records, answers. rewrite list_elem_of_omap. split.
    - intros (rec & Hrec' & Ha). destruct (Z.eqb_spec (r_class rec) 1); [|done]. cbn [andb] in Ha.
      case_bool_decide; [|done]. exists rec. by rewrite <-Hrtc.
    - intros (rec & Hrec' & Hc & Hr & Ha). exists rec. split; [done|].
      by rewrite Hc, bool_decide_eq_true_2 by (by apply Hrtc). }
  split.
  - intros ip. cbn [addresses]. rewrite list_elem_of_fmap. setoid_rewrite Hin. naive_solver.
  - intros rec a Ha. cbn [ttl]. pose proof (min_list_spec (a_ttl <$> accepted_records final records)) as Hm.
    assert (Hain : a_ttl a ∈ a_ttl <$> accepted_records final records).
    { apply list_elem_of_fmap. exists a. split; [done|]. apply Hin. by exists rec. }
    destruct (min_list _) as [m|]; cbn [default from_option id].
    + destruct Hm as [_ Hall]. rewrite Forall_forall in Hall. by apply Hall.
    + rewrite Hm in Hain. by apply elem_of_nil in Hain.
Qed.

(** An answer with the address in front of the alias that leads to it. *)
Definition example_answer : bytes :=
  [0; 7; 129; 128; 0; 1; 0; 2; 0; 0; 0; 0; 1; 97; 0; 0; 1; 0; 1] ++
  [1; 98; 0; 0; 1; 0; 1; 0; 0; 0; 9; 0; 4; 10; 0; 0; 1] ++ [192; 12; 0; 5; 0; 1; 0; 0; 0; 60; 0; 2; 192; 19].

Lemma dns_addresses_follow_aliases_witness :
  are_bytes example_answer ∧ ∃ q, dns_question example_answer = Ret q ∧
  ∃ records r, dns_answer_records example_answer = Ret records ∧ dns_address_records example_answer = Ret r ∧
    (∀ ip, ip ∈ addresses r ↔ ∃ rec a, answers example_answer records q rec a ∧ a_addr a = ip).
Proof.
  assert (Hb : are_bytes example_answer) by (apply (bool_decide_unpack (Forall _ _)); by vm_compute).
  assert (Hq : dns_question example_answer = Ret {| q_id := 7; q_host := [97]; q_qtype := 1; q_qclass := 1 |})
    by (vm_compute; reflexivity).
  split; [exact Hb|]. eexists. split; [exact Hq|].
  destruct (dns_addresses_follow_aliases _ _ Hb Hq) as (records & r & H1 & H2 & H3 & _).
  exists records, r. split; [exact H1|]. split; [exact H2|exact H3].
Defined.

Example example_answer_address :
  dns_address_records example_answer = Ret {| addresses := [V4 10 0 0 1]; ttl := 9 |}.
Proof. vm_compute. reflexivity. Qed.

(** C34: over TCP the messages are cut out of the stream as they were framed, however long it is and
    however the network cuts it into segments, as long as every segment finds room in the buffer of
    4096 bytes beside the incomplete message it arrives after: what is handed on is the unique sequence
    of whole messages the stream starts with, and what is kept is the incomplete rest.  A segment that
    finds no room is lost, and with it what was kept. *)
Theorem dns_tcp_stream_framed (segments : list bytes) :
  are_bytes (concat segments) → room_for [] segments →
  ∃ messages rest, feed segments [] = Ret (messages, rest) ∧
    (∀ messages' rest', Forall fits messages' → incomplete rest' →
      concat segments = wire messages' ++ rest' ↔ messages' = messages ∧ rest' = rest) ∧
    ∀ segment, (TCP_DNS_FRAME_BUFFER_CAPACITY < length rest + length segment)%nat →
      feed (segments ++ [segment]) [] = Ret (messages, []).
Proof.
  intros Hb Hroom. destruct (feed_spec segments [] [] Hb) as (ms & rest & Hrun & Hw & Hinc & Hf); [|done|].
  { split; [done|]. by exists []. }
  exists ms, rest. split_and!; [done| |].
  - intros ms' rest' Hf' Hinc'. cbn [app] in Hw. rewrite Hw. split; [|by intros [-> ->]].
    intros Heq. destruct (wire_unique ms ms' rest rest' Hf Hf' Hinc Hinc' Heq) as [-> ->]. done.
  - intros segment Hlong%Nat.ltb_lt. rewrite feed_app, Hrun. cbn [mbind outcome_bind feed]. unfold for_each_message.
    rewrite Hlong. cbn [mbind outcome_bind]. by rewrite !app_nil_r.
Qed.

(** Segments of whole messages always find room. *)
Lemma room_for_whole groups : Forall (Forall fits) groups →
  Forall (λ ms, (length (wire ms) ≤ TCP_DNS_FRAME_BUFFER_CAPACITY)%nat) groups → room_for [] (wire <$> groups).
Proof.
  intros Hfits Hlen before segment after rest Heq (Hinc & ms & Hms & Hstream).
  apply fmap_app_inv in Heq as (groups1 & groups2 & -> & Heq & ->).
  destruct groups2 as [|g groups2]; [done|]. simplify_eq/=.
  apply Forall_app in Hfits as [Hf1 _]. apply Forall_app in Hlen as [_ [Hg _]%Forall_cons].
  assert (Hw : concat (wire <$> groups1) = wire (concat groups1) ++ []).
  { rewrite app_nil_r. clear. induction groups1 as [|g gs IH]; [done|]. cbn [fmap list_fmap concat]. by rewrite IH, wire_app. }
  rewrite Hw in Hstream. apply wire_unique in Hstream as [_ <-]; [|by apply Forall_concat|done..]. simpl. lia.
Qed.

Lemma dns_tcp_stream_framed_witness :
  let groups := [[replicate 2100 7; [9]]; [replicate 2100 8]] in
  (TCP_DNS_FRAME_BUFFER_CAPACITY < length (concat (wire <$> groups)))%nat ∧
  ∃ messages, feed (wire <$> groups) [] = Ret (messages, []) ∧ messages = concat groups ∧
    feed ((wire <$> groups) ++ [replicate 5000 0]) [] = Ret (messages, []).
Proof.
  intros groups. split; [by apply Nat.ltb_lt; vm_compute|].
  destruct (dns_tcp_stream_framed (wire <$> groups)) as (ms & rest & Hrun & Hu & Hlost).
  - apply (bool_decide_unpack (Forall _ _)). by vm_compute.
  - apply room_for_whole; apply (bool_decide_unpack (Forall _ _)); by vm_compute.
  - destruct (proj1 (Hu (concat groups) [] ltac:(apply (bool_decide_unpack (Forall _ _)); by vm_compute) I)
      ltac:(by vm_compute)) as [<- <-].
    exists (concat groups). split; [exact Hrun|]. split; [reflexivity|]. apply Hlost. by apply Nat.ltb_lt; vm_compute.
Defined.
