(* ===== verification/Attribution.v ===== *)
(** * DNS attribution (src/libs/agentdp-network/src/gateway/dns.rs)

    [DnsAttribution] remembers which hosts an address belongs to: the host of a
    question the guest asked, for the addresses of the answer, for the time to
    live of the answer.  The policy reads it to decide whether a connection to
    an address is one to an allowed authority. *)
From S2P Require Import Prelude Text Policy Dns.
Local Open Scope Z_scope.

(** [dns_attribution_capacity] on the three limits it adds. *)
Definition dns_attribution_capacity (tcp_proxy_limit udp_proxy_limit ingress_udp_peer_limit : Z) : Z :=
  saturating_add64 (saturating_add64 tcp_proxy_limit udp_proxy_limit) ingress_udp_peer_limit.

(** Instants and durations are integers; [clock.now()] is an argument. *)
Record DnsAttributionRecord := { ar_address : IpAddr; ar_host : str; ar_expires : Z }.

Record DnsAttribution := {
  at_pending : list DnsQuestion;
  at_records : list DnsAttributionRecord;
  at_capacity : nat;
}.

Definition dns_attribution_new (capacity : nat) : DnsAttribution :=
  {| at_pending := []; at_records := []; at_capacity := capacity |}.

Definition set_pending (p : list DnsQuestion) (t : DnsAttribution) : DnsAttribution :=
  {| at_pending := p; at_records := at_records t; at_capacity := at_capacity t |}.
Definition set_records (r : list DnsAttributionRecord) (t : DnsAttribution) : DnsAttribution :=
  {| at_pending := at_pending t; at_records := r; at_capacity := at_capacity t |}.

Definition record_query (payload : bytes) (t : DnsAttribution) : partial DnsAttribution :=
  match dns_question payload with
  | Ret question =>
    if bool_decide (question ∈ at_pending t) then Ret t
    else if (length (at_pending t) <? at_capacity t)%nat
    then Ret (set_pending (at_pending t ++ [question]) t) else Ret t
  | Fail _ => Ret t
  | Panic => Panic
  | Timeout => Timeout
  end.

(** [iter_mut().find(..)] and the assignment: [None] when there is no such record. *)
Fixpoint refresh (address : IpAddr) (host : str) (expires : Z) (records : list DnsAttributionRecord)
    : option (list DnsAttributionRecord) :=
  match records with
  | [] => None
  | r :: records =>
    if bool_decide (ar_address r = address) && bool_decide (ar_host r = host)
    then Some ({| ar_address := ar_address r; ar_host := ar_host r; ar_expires := expires |} :: records)
    else cons r <$> refresh address host expires records
  end.

(** [for address in addresses] *)
Fixpoint record_addresses (addresses : list IpAddr) (host : str) (expires : Z) (capacity : nat)
    (records : list DnsAttributionRecord) : list DnsAttributionRecord :=
  match addresses with
  | [] => records
  | address :: addresses =>
    let records :=
      match refresh address host expires records with
      | Some records => records
      | None =>
        if (length records <? capacity)%nat
        then records ++ [{| ar_address := address; ar_host := host; ar_expires := expires |}] else records
      end in
    record_addresses addresses host expires capacity records
  end.

Definition record (host : str) (addresses : list IpAddr) (ttl now : Z) (t : DnsAttribution) : DnsAttribution :=
  let expires := now + Z.max ttl 1 in
  set_records (record_addresses addresses (normalized_host host) expires (at_capacity t) (at_records t)) t.

Definition record_response (payload : bytes) (now : Z) (t : DnsAttribution) : partial DnsAttribution :=
  match dns_question payload with
  | Ret question =>
    match remove_pending (at_pending t) question with
    | None => Ret t
    | Some (question, pending) =>
      records ← dns_address_records payload;
      Ret (record (q_host question) (addresses records) (ttl records) now (set_pending pending t))
    end
  | Fail _ => Ret t
  | Panic => Panic
  | Timeout => Timeout
  end.

(** [self.records.retain(|record| record.expires > now)] *)
Definition retain_live (now : Z) (t : DnsAttribution) : DnsAttribution :=
  set_records (filter (λ r, now < ar_expires r) (at_records t)) t.

Definition hosts_of (address : IpAddr) (t : DnsAttribution) : list str :=
  ar_host <$> filter (λ r, ar_address r = address) (at_records t).

Definition hosts_for_ip (address : IpAddr) (now : Z) (t : DnsAttribution) : list str * DnsAttribution :=
  let t := retain_live now t in (hosts_of address t, t).

Definition has_allowed_authority_for_ip (address : IpAddr) (policy : EgressPolicy) (now : Z) (t : DnsAttribution)
    : bool * DnsAttribution :=
  if negb (restricts_authorities policy) then (true, t)
  else let t := retain_live now t in
       (existsb (λ host, allows_authority policy (authority_new host)) (hosts_of address t), t).

(** ** Histories *)

(** What the gateway tells the attribution table. *)
Inductive event :=
| Query (payload : bytes)
| Response (payload : bytes) (now : Z)
| Resolved (host : str) (addresses : list IpAddr) (ttl now : Z)
| Lookup (address : IpAddr) (now : Z).

Definition apply_event (e : event) (t : DnsAttribution) : partial DnsAttribution :=
  match e with
  | Query payload => record_query payload t
  | Response payload now => record_response payload now t
  | Resolved host addresses ttl now => Ret (record host addresses ttl now t)
  | Lookup address now => Ret (hosts_for_ip address now t).2
  end.

Fixpoint run_events (events : list event) (t : DnsAttribution) : partial DnsAttribution :=
  match events with
  | [] => Ret t
  | e :: events => t ← apply_event e t; run_events events t
  end.

(** [address] was given to [host] until [expires] by an answer to a question the guest had asked,
    or by a resolution of the TCP tracker. *)
Definition justified (history : list event) (address : IpAddr) (host : str) (expires : Z) : Prop :=
  (∃ before payload now after q r query,
     history = before ++ Response payload now :: after ∧ dns_question payload = Ret q ∧
     Query query ∈ before ∧ dns_question query = Ret q ∧ dns_address_records payload = Ret r ∧
     address ∈ addresses r ∧ host = normalized_host (q_host q) ∧ expires = now + Z.max (ttl r) 1) ∨
  (∃ h addrs ttl now, Resolved h addrs ttl now ∈ history ∧ address ∈ addrs ∧ host = normalized_host h ∧
     expires = now + Z.max ttl 1).

Lemma justified_app history more address host expires :
  justified history address host expires → justified (history ++ more) address host expires.
Proof.
  intros [(b & p & n & a & q & r & qy & -> & ?)|(h & addrs & t & n & Hin & ?)]; [left|right].
  - exists b, p, n, (a ++ more), q, r, qy. by rewrite <-(assoc_L (++)).
  - exists h, addrs, t, n. split; [set_solver|done].
Qed.

(** What the table holds after a history. *)
Definition attribution_inv (history : list event) (t : DnsAttribution) : Prop :=
  (∀ q, q ∈ at_pending t → ∃ query, Query query ∈ history ∧ dns_question query = Ret q) ∧
  (∀ r, r ∈ at_records t → justified history (ar_address r) (ar_host r) (ar_expires r)) ∧
  NoDup (at_pending t) ∧ NoDup ((λ r, (ar_address r, ar_host r)) <$> at_records t) ∧
  (length (at_pending t) ≤ at_capacity t)%nat ∧ (length (at_records t) ≤ at_capacity t)%nat.

Lemma refresh_spec address host expires records :
  match refresh address host expires records with
  | Some records' =>
      (λ r, (ar_address r, ar_host r)) <$> records' = (λ r, (ar_address r, ar_host r)) <$> records ∧
      length records' = length records ∧
      ∀ r, r ∈ records' → r ∈ records ∨ r = {| ar_address := address; ar_host := host; ar_expires := expires |}
  | None => (address, host) ∉ (λ r, (ar_address r, ar_host r)) <$> records
  end.
Proof.
  induction records as [|r records IH]; cbn [refresh]; [apply not_elem_of_nil|].
  destruct (bool_decide (ar_address r = address) && bool_decide (ar_host r = host)) eqn:Hm.
  - apply andb_true_iff in Hm as [<-%bool_decide_eq_true <-%bool_decide_eq_true].
    split_and!; [done|done|]. intros x [->|Hx]%elem_of_cons; [by right|left; by right].
  - destruct (refresh address host expires records) as [records'|]; cbn [fmap option_fmap option_map].
    + destruct IH as (Hk & Hl & Hin). csimpl. split_and!; [by f_equal|by f_equal|].
      intros x [->|Hx]%elem_of_cons; [left; by left|]. destruct (Hin x Hx); [left; by right|by right].
    + csimpl. apply not_elem_of_cons. split; [|done]. intros [= -> ->].
      by rewrite !bool_decide_eq_true_2 in Hm.
Qed.

Lemma record_addresses_spec addresses host expires capacity records :
  let records' := record_addresses addresses host expires capacity records in
  (NoDup ((λ r, (ar_address r, ar_host r)) <$> records) → NoDup ((λ r, (ar_address r, ar_host r)) <$> records')) ∧
  ((length records ≤ capacity)%nat → (length records' ≤ capacity)%nat) ∧
  ∀ r, r ∈ records' → r ∈ records ∨ ar_address r ∈ addresses ∧ ar_host r = host ∧ ar_expires r = expires.
Proof.
  revert records. induction addresses as [|a addresses IH]; intros records; [by split_and!; [..|left]|].
  cbn [record_addresses]. cbv zeta in *. pose proof (refresh_spec a host expires records) as Hr.
  destruct (refresh a host expires records) as [records1|].
  - destruct Hr as (Hk & Hl & Hin). destruct (IH records1) as (IH1 & IH2 & IH3). rewrite Hk in IH1. rewrite Hl in IH2.
    split_and!; [done|done|]. intros r [Hold|(? & ? & ?)]%IH3; [|right; split_and!; [by right|done|done]].
    destruct (Hin r Hold) as [?| ->]; [by left|right]. split_and!; [by left|done|done].
  - destruct (Nat.ltb_spec (length records) capacity).
    + destruct (IH (records ++ [{| ar_address := a; ar_host := host; ar_expires := expires |}])) as (IH1 & IH2 & IH3).
      split_and!.
      * intros Hnd. apply IH1. rewrite fmap_app. apply NoDup_app. split_and!; [done| |apply NoDup_singleton].
        intros x Hx ->%list_elem_of_singleton. done.
      * intros _. apply IH2. rewrite length_app. simpl. lia.
      * intros r [Hold|(? & ? & ?)]%IH3; [|right; split_and!; [by right|done|done]].
        apply elem_of_app in Hold as [Hold| ->%list_elem_of_singleton]; [by left|right]. split_and!; [by left|done|done].
    + destruct (IH records) as (IH1 & IH2 & IH3). split_and!; [done|done|].
      intros r [Hold|(? & ? & ?)]%IH3; [by left|right; split_and!; [by right|done|done]].
Qed.

Lemma remove_pending_spec pending q q' rest :
  remove_pending pending q = Some (q', rest) → q' = q ∧ q ∈ pending ∧ ∃ i, rest = delete i pending ∧ (length rest < length pending)%nat.
Proof.
  unfold remove_pending. destruct (position _ pending) as [i|] eqn:Hp; [|done]. cbn [mbind option_bind].
  apply position_spec in Hp as (x & Hx & Heq%bool_decide_eq_true & _). rewrite Hx. cbn [mbind option_bind].
  intros [= <- <-]. subst x. split_and!; [done|by eapply list_elem_of_lookup_2|]. exists i. split; [done|].
  pose proof (length_delete pending i (ex_intro _ _ Hx)). pose proof (lookup_lt_Some _ _ _ Hx). lia.
Qed.

Lemma attribution_step history t e :
  attribution_inv history t → are_bytes (match e with Query p | Response p _ => p | _ => [] end) →
  ∃ t', apply_event e t = Ret t' ∧ attribution_inv (history ++ [e]) t' ∧ at_capacity t' = at_capacity t.
Proof.
  intros (Hp & Hr & Hnp & Hnr & Hlp & Hlr) Hb.
  (** what the history justified stays justified *)
  assert (Hkeep : attribution_inv (history ++ [e]) t).
  { split_and!; try done.
    - intros q Hq. destruct (Hp q Hq) as (qy & ? & ?). exists qy. split; [set_solver|done].
    - intros r Hin. by apply justified_app, Hr. }
  (** recording addresses that the last event justifies *)
  assert (Hrecord : ∀ host addrs ttl now t0, attribution_inv (history ++ [e]) t0 →
    (∀ a, a ∈ addrs → justified (history ++ [e]) a (normalized_host host) (now + Z.max ttl 1)) →
    attribution_inv (history ++ [e]) (record host addrs ttl now t0)).
  { intros host addrs ttl now t0 (Hp0 & Hr0 & ? & Hnr0 & ? & Hlr0) Hj. unfold record.
    destruct (record_addresses_spec addrs (normalized_host host) (now + Z.max ttl 1) (at_capacity t0) (at_records t0))
      as (H1 & H2 & H3).
    split_and!; cbn; auto. intros r [Hin|(Ha & -> & ->)]%H3; [by apply Hr0|by apply Hj]. }
  destruct e as [payload|payload now|host addrs ttl now|address now]; cbn [apply_event].
  - unfold record_query. pose proof (question_safe payload Hb) as Hs.
    destruct (dns_question payload) as [q|[]| |] eqn:Hq; [|by eexists|done..].
    case_bool_decide as Hin; [by eexists|].
    destruct (Nat.ltb_spec (length (at_pending t)) (at_capacity t)); [|by eexists].
    eexists. split; [done|]. split; [|done]. destruct Hkeep as (Kp & Kr & _). split_and!; cbn; try done.
    + intros q' [Hq'| ->%list_elem_of_singleton]%elem_of_app; [by apply Kp|].
      exists payload. split; [set_solver|done].
    + apply NoDup_app. split_and!; [done| |apply NoDup_singleton]. by intros x Hx ->%list_elem_of_singleton.
    + rewrite length_app. simpl. lia.
  - unfold record_response. pose proof (question_safe payload Hb) as Hs.
    destruct (dns_question payload) as [q|[]| |] eqn:Hq; [|by eexists|done..].
    destruct (remove_pending (at_pending t) q) as [[q' rest]|] eqn:Hrem; [|by eexists].
    apply remove_pending_spec in Hrem as (-> & Hin & i & -> & Hlen).
    destruct (address_records_ret payload Hb) as [r Hrec]. rewrite Hrec. cbn [mbind outcome_bind].
    eexists. split; [done|]. split; [|done]. apply Hrecord.
    + destruct Hkeep as (Kp & Kr & _). split_and!; cbn; try done; [| |lia].
      * intros x Hx. apply Kp. by eapply elem_of_sublist; [|apply sublist_delete].
      * eapply sublist_NoDup; [exact Hnp|apply sublist_delete].
    + intros a Ha. left. destruct (Hp q Hin) as (qy & Hqy & Hqq).
      by exists history, payload, now, [], q, r, qy.
  - eexists. split; [done|]. split; [|done]. apply Hrecord; [done|].
    intros a Ha. right. exists host, addrs, ttl, now. split; [set_solver|done].
  - eexists. split; [done|]. split; [|done]. destruct Hkeep as (Kp & Kr & _). split_and!; cbn; try done.
    + intros r Hin. apply list_elem_of_filter in Hin as [_ Hin]. by apply Kr.
    + eapply sublist_NoDup; [exact Hnr|apply fmap_sublist, sublist_filter].
    + pose proof (length_filter (λ r, now < ar_expires r) (at_records t)). lia.
Qed.

Lemma run_events_inv events history t :
  attribution_inv history t → Forall (λ e, are_bytes (match e with Query p | Response p _ => p | _ => [] end)) events →
  ∃ t', run_events events t = Ret t' ∧ attribution_inv (history ++ events) t' ∧ at_capacity t' = at_capacity t.
Proof.
  intros Hinv Hb. revert history t Hinv. induction Hb as [|e events He _ IH]; intros history t Hinv; cbn [run_events].
  { exists t. by rewrite app_nil_r. }
  destruct (attribution_step history t e Hinv He) as (t1 & -> & Hinv1 & Hc). cbn [mbind outcome_bind].
  destruct (IH _ _ Hinv1) as (t' & -> & Hinv' & Hc'). exists t'. split; [done|].
  rewrite <-(assoc_L (++)) in Hinv'. split; [done|congruence].
Qed.

(** While there is room, every address is recorded. *)
Lemma record_addresses_complete addresses host expires capacity records :
  (length records + length addresses ≤ capacity)%nat →
  (∀ x, x ∈ records → ar_host x = host → ar_expires x = expires → x ∈ record_addresses addresses host expires capacity records) ∧
  ∀ a, a ∈ addresses →
    {| ar_address := a; ar_host := host; ar_expires := expires |} ∈ record_addresses addresses host expires capacity records.
Proof.
  revert records. induction addresses as [|a addresses IH]; intros records Hroom; cbn [record_addresses].
  { split; [done|]. by intros a ?%elem_of_nil. }
  cbn [length] in Hroom. set (new := {| ar_address := a; ar_host := host; ar_expires := expires |}).
  set (records1 := match refresh a host expires records with Some r => r | None => _ end).
  assert (H1 : (length records1 ≤ length records + 1)%nat ∧ new ∈ records1 ∧
    ∀ x, x ∈ records → ar_host x = host → ar_expires x = expires → x ∈ records1).
  { unfold records1. pose proof (refresh_spec a host expires records) as Hs.
    assert (Hkeep : ∀ rs rs', refresh a host expires rs = Some rs' → new ∈ rs' ∧
      ∀ x, x ∈ rs → ar_host x = host → ar_expires x = expires → x ∈ rs').
    { clear. induction rs as [|r rs IH]; intros rs'; cbn [refresh]; [done|].
      destruct (bool_decide (ar_address r = a) && bool_decide (ar_host r = host)) eqn:Hm.
      - apply andb_true_iff in Hm as [Ha%bool_decide_eq_true Hh%bool_decide_eq_true]. intros [= <-].
        rewrite Ha, Hh. split; [by left|]. intros x [->|Hx]%elem_of_cons ? He; [|by right].
        apply elem_of_cons. left. destruct r; cbn in *; congruence.
      - destruct (refresh a host expires rs) as [rs1|]; [|done]. intros [= <-].
        destruct (IH rs1 eq_refl) as [Hn Hk]. split; [by right|].
        intros x [->|Hx]%elem_of_cons ? ?; [by left|]. right. by apply Hk. }
    destruct (refresh a host expires records) as [rs|] eqn:Hr.
    - destruct Hs as (_ & Hl & _). destruct (Hkeep _ _ Hr) as [? ?]. split_and!; [lia|done|done].
    - rewrite (proj2 (Nat.ltb_lt _ _)) by lia. rewrite length_app. split_and!; [simpl; lia|set_solver|set_solver]. }
  destruct H1 as (Hl & Hnew & Hkeep). destruct (IH records1) as [IH1 IH2]; [lia|]. split.
  - intros x Hx Hh He. apply IH1; auto.
  - intros b [->|Hb]%elem_of_cons; [by apply IH1|by apply IH2].
Qed.

(** ** Theorems *)


