(* ===== verification/SyncRing.v ===== *)
(** * The lock-free ring (src/libs/agentdp-ds/src/sync/ring.rs)

    One producer and one consumer share a circular array of slots: the producer
    fills slots it has reserved and publishes them by advancing [tail]; the
    consumer reads the published ones in place and gives them back by advancing
    [head].  Both cursors are 64-bit counters that wrap around.

    The operations come first, each a function of the shared [Inner] and of the
    cursor the side caches; then the two sides run concurrently, one access to a
    shared variable at a time.  A side owns the cursor it writes, so loading it
    is no step of its own.  The orderings of the accesses (acquire and release)
    are not modelled: the memory is sequentially consistent. *)
From S2P Require Import Prelude.
Local Open Scope Z_scope.

Section ring.
Context {T : Type} (default_item : T).

Record Inner := {
  slots : list T;
  capacity : Z;
  mask : Z;
  head : Z;
  tail : Z;
  producer_alive : bool;
  consumer_alive : bool;
}.

Definition set_slots (l : list T) (r : Inner) : Inner :=
  {| slots := l; capacity := capacity r; mask := mask r; head := head r; tail := tail r;
     producer_alive := producer_alive r; consumer_alive := consumer_alive r |}.
Definition set_head (h : Z) (r : Inner) : Inner :=
  {| slots := slots r; capacity := capacity r; mask := mask r; head := h; tail := tail r;
     producer_alive := producer_alive r; consumer_alive := consumer_alive r |}.
Definition set_tail (t : Z) (r : Inner) : Inner :=
  {| slots := slots r; capacity := capacity r; mask := mask r; head := head r; tail := t;
     producer_alive := producer_alive r; consumer_alive := consumer_alive r |}.
Definition drop_producer (r : Inner) : Inner :=
  {| slots := slots r; capacity := capacity r; mask := mask r; head := head r; tail := tail r;
     producer_alive := false; consumer_alive := consumer_alive r |}.
Definition drop_consumer (r : Inner) : Inner :=
  {| slots := slots r; capacity := capacity r; mask := mask r; head := head r; tail := tail r;
     producer_alive := producer_alive r; consumer_alive := false |}.

Inductive TryReserveError := Full | ReserveDisconnected.
Inductive TryReadError := Empty | ReadDisconnected.

(** [usize::next_power_of_two] of a positive number *)
Definition next_power_of_two (n : Z) : Z := 2 ^ Z.log2_up n.

(** The two halves that share it start with cursors of zero. *)
Definition bounded (capacity : Z) : Inner :=
  let capacity := Z.max capacity 1 in
  let physical_capacity := next_power_of_two capacity in
  {| slots := replicate (Z.to_nat physical_capacity) default_item; capacity := capacity;
     mask := physical_capacity - 1; head := 0; tail := 0; producer_alive := true; consumer_alive := true |}.

Definition ring_index (sequence mask : Z) : nat := Z.to_nat (Z.land sequence mask).

(** ** The producer, whose state is [cached_head] *)

(** [reserve_len] once the consumer was seen to be alive. *)
Definition reserve_cursor (len : Z) (r : Inner) (cached_head : Z) : outcome TryReserveError Z * Z :=
  let tail := tail r in
  if capacity r <? wrapping_sub64 (wrapping_add64 tail len) cached_head then
    let cached_head := head r in
    if capacity r <? wrapping_sub64 (wrapping_add64 tail len) cached_head
    then (Fail Full, cached_head) else (Ret tail, cached_head)
  else (Ret tail, cached_head).

Definition reserve_len (len : Z) (r : Inner) (cached_head : Z) : outcome TryReserveError Z * Z :=
  if negb (consumer_alive r) then (Fail ReserveDisconnected, cached_head)
  else reserve_cursor len r cached_head.

Definition contiguous_available (r : Inner) (cached_head tail : Z) : Z :=
  let used := wrapping_sub64 tail cached_head in
  let available := saturating_sub (capacity r) used in
  let contiguous := zlen (slots r) - Z.of_nat (ring_index tail (mask r)) in
  Z.min available contiguous.

(** [try_reserve_batch]: the tail and the length of the batch. *)
Definition try_reserve_batch (max : Z) (r : Inner) (cached_head : Z) : outcome TryReserveError (Z * Z) * Z :=
  let max := Z.max max 1 in
  let '(reserved, cached_head) := reserve_len 1 r cached_head in
  ((tail ← reserved; Ret (tail, Z.min (contiguous_available r cached_head tail) max)), cached_head).

(** [slot_mut_with] and [slot_with]: the index panics out of range. *)
Definition write_slot (sequence : Z) (v : T) (r : Inner) : outcome Empty_set Inner :=
  let index := ring_index sequence (mask r) in
  if (index <? length (slots r))%nat then Ret (set_slots (<[index := v]> (slots r)) r) else Panic.
Definition read_slot (sequence : Z) (r : Inner) : outcome Empty_set T :=
  index (slots r) (ring_index sequence (mask r)).

(** [ReservedBatch::fill] with a function of the index. *)
Fixpoint fill_from (i n : nat) (tail : Z) (write : nat → T) (r : Inner) : outcome Empty_set Inner :=
  match n with
  | O => Ret r
  | S n => r ← write_slot (wrapping_add64 tail (Z.of_nat i)) (write i) r; fill_from (S i) n tail write r
  end.
Definition fill (tail len : Z) (write : nat → T) (r : Inner) : outcome Empty_set Inner :=
  fill_from 0 (Z.to_nat len) tail write r.

Definition commit (tail len : Z) (r : Inner) : Inner := set_tail (wrapping_add64 tail len) r.
(** [ReservedBatch::commit_len] *)
Definition commit_len (tail batch_len len : Z) (r : Inner) : Inner := commit tail (Z.min len batch_len) r.

(** ** The buffered producer *)

Record BufferedProducer := {
  producer_cached_head : Z;
  batch_size : Z;
  reserved_tail : Z;
  reserved_len : Z;
  written : Z;
}.

Definition into_buffered (cached_head batch_size : Z) : BufferedProducer :=
  {| producer_cached_head := cached_head; batch_size := Z.max batch_size 1; reserved_tail := 0; reserved_len := 0;
     written := 0 |}.

Definition flush (r : Inner) (b : BufferedProducer) : Inner * BufferedProducer :=
  ((if 0 <? written b then commit (reserved_tail b) (written b) r else r),
   {| producer_cached_head := producer_cached_head b; batch_size := batch_size b; reserved_tail := 0;
      reserved_len := 0; written := 0 |}).

Definition reserve_batch (r : Inner) (b : BufferedProducer) : outcome TryReserveError unit * BufferedProducer :=
  let '(reserved, cached_head) := reserve_len 1 r (producer_cached_head b) in
  let keep := {| producer_cached_head := cached_head; batch_size := batch_size b; reserved_tail := reserved_tail b;
                 reserved_len := reserved_len b; written := written b |} in
  match reserved with
  | Ret tail =>
    (Ret tt, {| producer_cached_head := cached_head; batch_size := batch_size b; reserved_tail := tail;
                reserved_len := Z.min (contiguous_available r cached_head tail) (batch_size b); written := 0 |})
  | Fail e => (Fail e, keep)
  | Panic => (Panic, keep)
  | Timeout => (Timeout, keep)
  end.

(** [write_with] of a closure that stores [v]. *)
Definition write_with (v : T) (r : Inner) (b : BufferedProducer)
    : outcome TryReserveError unit * Inner * BufferedProducer :=
  let '(reserved, r, b) :=
    if written b =? reserved_len b then
      let '(r, b) := flush r b in let '(reserved, b) := reserve_batch r b in (reserved, r, b)
    else (Ret tt, r, b) in
  match reserved with
  | Ret _ =>
    match write_slot (wrapping_add64 (reserved_tail b) (written b)) v r with
    | Ret r =>
      let b := {| producer_cached_head := producer_cached_head b; batch_size := batch_size b;
                  reserved_tail := reserved_tail b; reserved_len := reserved_len b; written := written b + 1 |} in
      let '(r, b) := if written b =? reserved_len b then flush r b else (r, b) in
      (Ret tt, r, b)
    | _ => (Panic, r, b)
    end
  | Fail e => (Fail e, r, b)
  | Panic => (Panic, r, b)
  | Timeout => (Timeout, r, b)
  end.

(** ** The consumer, whose state is [cached_tail] *)

(** The batch of a consumer that sees slots between [head] and [cached_tail]. *)
Definition read_batch (max : Z) (r : Inner) (cached_tail : Z) : Z * Z :=
  let head := head r in
  let available := wrapping_sub64 cached_tail head in
  let contiguous := zlen (slots r) - Z.of_nat (ring_index head (mask r)) in
  (head, Z.min (Z.min available contiguous) (Z.max max 1)).

(** [try_read_batch]: the head and the length of the batch. *)
Definition try_read_batch (max : Z) (r : Inner) (cached_tail : Z) : outcome TryReadError (Z * Z) * Z :=
  if cached_tail =? head r then
    let cached_tail := tail r in
    if cached_tail =? head r then
      if producer_alive r then (Fail Empty, cached_tail)
      else
        let cached_tail := tail r in
        if cached_tail =? head r then (Fail ReadDisconnected, cached_tail)
        else (Ret (read_batch max r cached_tail), cached_tail)
    else (Ret (read_batch max r cached_tail), cached_tail)
  else (Ret (read_batch max r cached_tail), cached_tail).

(** [ReadBatch::get] *)
Definition batch_get (head len index : Z) (r : Inner) : outcome Empty_set (option T) :=
  if len <=? index then Ret None else Some <$> read_slot (wrapping_add64 head index) r.

(** [ReadBatch::for_each], with the items instead of the closure. *)
Fixpoint for_each_from (i n : nat) (head : Z) (r : Inner) : outcome Empty_set (list T) :=
  match n with
  | O => Ret []
  | S n => v ← read_slot (wrapping_add64 head (Z.of_nat i)) r; vs ← for_each_from (S i) n head r; Ret (v :: vs)
  end.
Definition for_each (head len : Z) (r : Inner) : outcome Empty_set (list T) := for_each_from 0 (Z.to_nat len) head r.

Definition release (head len : Z) (r : Inner) : Inner := set_head (wrapping_add64 head len) r.

(** ** Two threads *)

Inductive producer_pc :=
| ProducerIdle
| ProducerSawConsumer                (* [consumer_alive] was loaded and is true *)
| ProducerReserved (tail len : Z)    (* between a reservation and its commit *)
| ProducerDropped.

Inductive consumer_pc :=
| ConsumerIdle
| ConsumerSawEmpty                   (* [tail] was loaded and is [head] *)
| ConsumerSawDropped                 (* [producer_alive] was loaded and is false *)
| ConsumerReading (head len : Z)     (* between a read batch and its release *)
| ConsumerDropped.

Record ring := {
  inner : Inner;
  cached_head : Z;
  cached_tail : Z;
  ppc : producer_pc;
  cpc : consumer_pc;
}.

Definition ring_new (capacity : Z) : ring :=
  {| inner := bounded capacity; cached_head := 0; cached_tail := 0; ppc := ProducerIdle; cpc := ConsumerIdle |}.

(** What the outside sees of a step. *)
Inductive label :=
| Silent
| ReserveFailed (e : TryReserveError)
| Committed (items : list T)
| Read (position : Z) (item : T)     (* the item at a position of the batch *)
| ReadFailed (e : TryReadError)
| Released (len : Z)
| DroppedProducer
| DroppedConsumer.

(** One access of the producer to the shared state. *)
Inductive producer_step : ring → label → ring → Prop :=
| step_consumer_alive r ch ct c :
    consumer_alive r = true →
    producer_step {| inner := r; cached_head := ch; cached_tail := ct; ppc := ProducerIdle; cpc := c |} Silent
         {| inner := r; cached_head := ch; cached_tail := ct; ppc := ProducerSawConsumer; cpc := c |}
| step_consumer_gone r ch ct c :
    consumer_alive r = false →
    producer_step {| inner := r; cached_head := ch; cached_tail := ct; ppc := ProducerIdle; cpc := c |}
         (ReserveFailed ReserveDisconnected)
         {| inner := r; cached_head := ch; cached_tail := ct; ppc := ProducerIdle; cpc := c |}
| step_reserve max r ch ct c tail ch' :
    reserve_cursor 1 r ch = (Ret tail, ch') →
    producer_step {| inner := r; cached_head := ch; cached_tail := ct; ppc := ProducerSawConsumer; cpc := c |} Silent
         {| inner := r; cached_head := ch'; cached_tail := ct;
            ppc := ProducerReserved tail (Z.min (contiguous_available r ch' tail) (Z.max max 1)); cpc := c |}
| step_full r ch ct c e ch' :
    reserve_cursor 1 r ch = (Fail e, ch') →
    producer_step {| inner := r; cached_head := ch; cached_tail := ct; ppc := ProducerSawConsumer; cpc := c |} (ReserveFailed e)
         {| inner := r; cached_head := ch'; cached_tail := ct; ppc := ProducerIdle; cpc := c |}
| step_write r ch ct c tail len i v r' :
    0 <= i < len → write_slot (wrapping_add64 tail i) v r = Ret r' →
    producer_step {| inner := r; cached_head := ch; cached_tail := ct; ppc := ProducerReserved tail len; cpc := c |} Silent
         {| inner := r'; cached_head := ch; cached_tail := ct; ppc := ProducerReserved tail len; cpc := c |}
| step_commit r ch ct c tail len n items :
    0 <= n → for_each_from 0 (Z.to_nat (Z.min n len)) tail r = Ret items →
    producer_step {| inner := r; cached_head := ch; cached_tail := ct; ppc := ProducerReserved tail len; cpc := c |}
         (Committed items)
         {| inner := commit_len tail len n r; cached_head := ch; cached_tail := ct; ppc := ProducerIdle; cpc := c |}
| step_producer_drop r ch ct c :
    producer_step {| inner := r; cached_head := ch; cached_tail := ct; ppc := ProducerIdle; cpc := c |} DroppedProducer
         {| inner := drop_producer r; cached_head := ch; cached_tail := ct; ppc := ProducerDropped; cpc := c |}.

(** One access of the consumer. *)
Inductive consumer_step : ring → label → ring → Prop :=
| step_read_cached max r ch ct p :
    (ct =? head r) = false →
    consumer_step {| inner := r; cached_head := ch; cached_tail := ct; ppc := p; cpc := ConsumerIdle |} Silent
         {| inner := r; cached_head := ch; cached_tail := ct; ppc := p;
            cpc := let '(h, len) := read_batch max r ct in ConsumerReading h len |}
| step_read_tail max r ch ct p :
    (ct =? head r) = true → (tail r =? head r) = false →
    consumer_step {| inner := r; cached_head := ch; cached_tail := ct; ppc := p; cpc := ConsumerIdle |} Silent
         {| inner := r; cached_head := ch; cached_tail := tail r; ppc := p;
            cpc := let '(h, len) := read_batch max r (tail r) in ConsumerReading h len |}
| step_saw_empty r ch ct p :
    (ct =? head r) = true → (tail r =? head r) = true →
    consumer_step {| inner := r; cached_head := ch; cached_tail := ct; ppc := p; cpc := ConsumerIdle |} Silent
         {| inner := r; cached_head := ch; cached_tail := tail r; ppc := p; cpc := ConsumerSawEmpty |}
| step_empty r ch ct p :
    producer_alive r = true →
    consumer_step {| inner := r; cached_head := ch; cached_tail := ct; ppc := p; cpc := ConsumerSawEmpty |} (ReadFailed Empty)
         {| inner := r; cached_head := ch; cached_tail := ct; ppc := p; cpc := ConsumerIdle |}
| step_producer_gone r ch ct p :
    producer_alive r = false →
    consumer_step {| inner := r; cached_head := ch; cached_tail := ct; ppc := p; cpc := ConsumerSawEmpty |} Silent
         {| inner := r; cached_head := ch; cached_tail := ct; ppc := p; cpc := ConsumerSawDropped |}
| step_read_last max r ch ct p :
    (tail r =? head r) = false →
    consumer_step {| inner := r; cached_head := ch; cached_tail := ct; ppc := p; cpc := ConsumerSawDropped |} Silent
         {| inner := r; cached_head := ch; cached_tail := tail r; ppc := p;
            cpc := let '(h, len) := read_batch max r (tail r) in ConsumerReading h len |}
| step_disconnected r ch ct p :
    (tail r =? head r) = true →
    consumer_step {| inner := r; cached_head := ch; cached_tail := ct; ppc := p; cpc := ConsumerSawDropped |}
         (ReadFailed ReadDisconnected)
         {| inner := r; cached_head := ch; cached_tail := tail r; ppc := p; cpc := ConsumerIdle |}
| step_read r ch ct p head len i v :
    0 <= i < len → read_slot (wrapping_add64 head i) r = Ret v →
    consumer_step {| inner := r; cached_head := ch; cached_tail := ct; ppc := p; cpc := ConsumerReading head len |} (Read i v)
         {| inner := r; cached_head := ch; cached_tail := ct; ppc := p; cpc := ConsumerReading head len |}
| step_release r ch ct p head len :
    consumer_step {| inner := r; cached_head := ch; cached_tail := ct; ppc := p; cpc := ConsumerReading head len |}
         (Released len)
         {| inner := release head len r; cached_head := ch; cached_tail := ct; ppc := p; cpc := ConsumerIdle |}
| step_consumer_drop r ch ct p :
    consumer_step {| inner := r; cached_head := ch; cached_tail := ct; ppc := p; cpc := ConsumerIdle |} DroppedConsumer
         {| inner := drop_consumer r; cached_head := ch; cached_tail := ct; ppc := p; cpc := ConsumerDropped |}.

Inductive step : ring → label → ring → Prop :=
| by_producer s l s' : producer_step s l s' → step s l s'
| by_consumer s l s' : consumer_step s l s' → step s l s'.

Inductive steps : ring → list label → ring → Prop :=
| steps_nil s : steps s [] s
| steps_snoc s1 trace s2 l s3 : steps s1 trace s2 → step s2 l s3 → steps s1 (trace ++ [l]) s3.

(** ** The queue it implements *)

(** A bounded queue whose front is read in place before it is removed. *)
Record queue := {
  items : list T;
  bound : Z;
  sender : bool;
  receiver : bool;
}.
Definition queue_new (capacity : Z) : queue :=
  {| items := []; bound := Z.max capacity 1; sender := true; receiver := true |}.

Inductive queue_step : queue → label → queue → Prop :=
| queue_silent q : queue_step q Silent q
| queue_full l b s r :
    zlen l = b →
    queue_step {| items := l; bound := b; sender := s; receiver := r |} (ReserveFailed Full)
               {| items := l; bound := b; sender := s; receiver := r |}
| queue_no_receiver l b s :
    queue_step {| items := l; bound := b; sender := s; receiver := false |} (ReserveFailed ReserveDisconnected)
               {| items := l; bound := b; sender := s; receiver := false |}
| queue_commit l b r more :
    zlen (l ++ more) <= b →
    queue_step {| items := l; bound := b; sender := true; receiver := r |} (Committed more)
               {| items := l ++ more; bound := b; sender := true; receiver := r |}
| queue_read l b s r i v :
    0 <= i → l !! Z.to_nat i = Some v →
    queue_step {| items := l; bound := b; sender := s; receiver := r |} (Read i v)
               {| items := l; bound := b; sender := s; receiver := r |}
| queue_empty q : queue_step q (ReadFailed Empty) q
| queue_disconnected b r :
    queue_step {| items := []; bound := b; sender := false; receiver := r |} (ReadFailed ReadDisconnected)
               {| items := []; bound := b; sender := false; receiver := r |}
| queue_release l b s r n :
    0 < n <= zlen l →
    queue_step {| items := l; bound := b; sender := s; receiver := r |} (Released n)
               {| items := drop (Z.to_nat n) l; bound := b; sender := s; receiver := r |}
| queue_drop_sender l b s r :
    queue_step {| items := l; bound := b; sender := s; receiver := r |} DroppedProducer
               {| items := l; bound := b; sender := false; receiver := r |}
| queue_drop_receiver l b s r :
    queue_step {| items := l; bound := b; sender := s; receiver := r |} DroppedConsumer
               {| items := l; bound := b; sender := s; receiver := false |}.

Inductive queue_steps : queue → list label → queue → Prop :=
| queue_steps_nil q : queue_steps q [] q
| queue_steps_snoc q1 trace q2 l q3 :
    queue_steps q1 trace q2 → queue_step q2 l q3 → queue_steps q1 (trace ++ [l]) q3.

(** ** Cursors *)

(** The cursor that has counted [n] items. *)
Definition cursor (n : nat) : Z := wrap64 (Z.of_nat n).

Lemma cursor_add n m : wrapping_add64 (cursor n) (Z.of_nat m) = cursor (n + m).
Proof. unfold wrapping_add64, cursor, wrap64. by rewrite Zplus_mod_idemp_l, Nat2Z.inj_add. Qed.

Lemma cursor_sub n m : (m ≤ n)%nat → Z.of_nat n - Z.of_nat m < u64_modulus → wrapping_sub64 (cursor n) (cursor m) = Z.of_nat n - Z.of_nat m.
Proof.
  intros Hle Hlt. unfold wrapping_sub64, cursor, wrap64. rewrite <-Zminus_mod. apply Z.mod_small. lia.
Qed.

Lemma cursor_eq n m : (m ≤ n)%nat → Z.of_nat n - Z.of_nat m < u64_modulus → (cursor n =? cursor m) = (n =? m)%nat.
Proof.
  intros Hle Hlt. destruct (Nat.eqb_spec n m) as [->|Hne]; [apply Z.eqb_refl|]. apply Z.eqb_neq. intros Heq.
  pose proof (cursor_sub n m Hle Hlt) as Hs. rewrite Heq in Hs. unfold wrapping_sub64 in Hs.
  rewrite Z.sub_diag in Hs. change (wrap64 0) with 0 in Hs. lia.
Qed.

Lemma ring_index_cursor n k : (k ≤ 63)%nat → ring_index (cursor n) (2 ^ Z.of_nat k - 1) = (n mod 2 ^ k)%nat.
Proof.
  intros Hk. unfold ring_index, cursor, wrap64.
  replace (2 ^ Z.of_nat k - 1) with (Z.ones (Z.of_nat k)) by (rewrite Z.ones_equiv; lia).
  rewrite Z.land_ones by lia.
  assert (Hdiv : u64_modulus = 2 ^ Z.of_nat k * 2 ^ (64 - Z.of_nat k)).
  { rewrite <-Z.pow_add_r by lia. by replace (Z.of_nat k + (64 - Z.of_nat k)) with 64 by lia. }
  rewrite Hdiv, Z.rem_mul_r by (try apply Z.pow_pos_nonneg; lia || (apply Z.pow_nonzero; lia)).
  rewrite (Z.mul_comm (2 ^ Z.of_nat k)), Z.mod_add by (apply Z.pow_nonzero; lia).
  rewrite Z.mod_mod by (apply Z.pow_nonzero; lia).
  rewrite <-(Nat2Z.inj_pow 2 k : _ = 2 ^ _), <-Nat2Z.inj_mod. apply Nat2Z.id.
Qed.

(** Positions less than a lap apart have different slots. *)
Lemma mod_distinct (n a b : nat) : (a < b)%nat → (b - a < n)%nat → (a mod n ≠ b mod n)%nat.
Proof.
  intros Hab Hn Heq. pose proof (Nat.div_mod a n ltac:(lia)). pose proof (Nat.div_mod b n ltac:(lia)).
  assert (Hq : (b - a = n * (b / n - a / n))%nat) by (rewrite Nat.mul_sub_distr_l; lia).
  destruct (b / n - a / n)%nat; lia.
Qed.

(** Within a contiguous stretch the slots follow one another. *)
Lemma mod_contiguous (n a i : nat) : (a mod n + i < n)%nat → ((a + i) mod n = a mod n + i)%nat.
Proof.
  intros Hi. rewrite (Nat.div_mod a n) at 1 by lia.
  rewrite <-Nat.add_assoc, Nat.mul_comm, Nat.add_comm, Nat.Div0.mod_add. by apply Nat.mod_small.
Qed.

(** ** The invariant *)

(** [k] is the logarithm of the number of slots, [R] the number of items released so far, [CH] and
    [CT] the numbers the cached cursors stand for. *)
Record geometry (q : queue) (r : Inner) (k R : nat) : Prop := {
  geo_k : (k ≤ 63)%nat;
  geo_slots : length (slots r) = (2 ^ k)%nat;
  geo_mask : mask r = 2 ^ Z.of_nat k - 1;
  geo_bound : capacity r = bound q;
  geo_capacity : 1 <= bound q <= 2 ^ Z.of_nat k;
  geo_head : head r = cursor R;
  geo_tail : tail r = cursor (R + length (items q));
  geo_items : ∀ i v, items q !! i = Some v → slots r !! ((R + i) mod 2 ^ k)%nat = Some v;
  geo_sender : producer_alive r = sender q;
  geo_receiver : consumer_alive r = receiver q;
}.

Record caches (q : queue) (s : ring) (R CH CT : nat) : Prop := {
  cache_head : cached_head s = cursor CH;
  cache_tail : cached_tail s = cursor CT;
  cache_order : (CH ≤ R ≤ CT)%nat ∧ (CT ≤ R + length (items q))%nat;
  cache_room : Z.of_nat (R + length (items q)) <= Z.of_nat CH + bound q;
}.

Definition producer_ok (q : queue) (s : ring) (k R CH : nat) : Prop :=
  match ppc s with
  | ProducerReserved t len =>
    sender q = true ∧ t = cursor (R + length (items q)) ∧ 0 < len ∧
    Z.of_nat (R + length (items q)) + len <= Z.of_nat CH + bound q ∧
    Z.of_nat ((R + length (items q)) mod 2 ^ k) + len <= 2 ^ Z.of_nat k
  | ProducerDropped => sender q = false
  | _ => sender q = true
  end.

Definition consumer_ok (q : queue) (s : ring) (k R CT : nat) : Prop :=
  match cpc s with
  | ConsumerReading h len =>
    h = cursor R ∧ 0 < len ∧ Z.of_nat R + len <= Z.of_nat CT ∧ Z.of_nat (R mod 2 ^ k) + len <= 2 ^ Z.of_nat k
  | ConsumerSawDropped => sender q = false
  | ConsumerDropped => receiver q = false
  | _ => True
  end.

Definition ring_inv (q : queue) (s : ring) : Prop := ∃ k R CH CT,
  geometry q (inner s) k R ∧ caches q s R CH CT ∧ producer_ok q s k R CH ∧ consumer_ok q s k R CT.

Lemma pow_nat_Z k : Z.of_nat (2 ^ k) = 2 ^ Z.of_nat k.
Proof. by rewrite Nat2Z.inj_pow. Qed.

Lemma pow_bound k : (k ≤ 63)%nat → 2 ^ Z.of_nat k < u64_modulus.
Proof.
  intros Hk. change u64_modulus with (2 ^ 64). apply Z.pow_lt_mono_r; lia.
Qed.

Lemma pow_positive k : (0 < 2 ^ k)%nat.
Proof. apply Nat.neq_0_lt_0, Nat.pow_nonzero. lia. Qed.

Lemma ring_inv_new capacity : capacity <= 2 ^ 63 → ring_inv (queue_new capacity) (ring_new capacity).
Proof.
  intros Hc. set (c := Z.max capacity 1). assert (Hc1 : 1 <= c <= 2 ^ 63) by lia.
  set (k := Z.to_nat (Z.log2_up c)).
  assert (Hl : 0 <= Z.log2_up c <= 63).
  { split; [apply Z.log2_up_nonneg|]. replace 63 with (Z.log2_up (2 ^ 63)) by (apply Z.log2_up_pow2; lia).
    apply Z.log2_up_le_mono. lia. }
  assert (Hk : Z.of_nat k = Z.log2_up c) by (unfold k; lia).
  assert (Hpow : next_power_of_two c = 2 ^ Z.of_nat k) by (unfold next_power_of_two; by rewrite Hk).
  assert (Hle : c <= 2 ^ Z.of_nat k).
  { rewrite Hk. destruct (decide (c = 1)) as [->|]; [done|]. apply Z.log2_up_spec. lia. }
  exists k, 0%nat, 0%nat, 0%nat. split_and!.
  - split; cbn; fold c; rewrite ?Hpow; try done; try lia.
    rewrite length_replicate, <-pow_nat_Z. lia.
  - split; cbn; try done; lia.
  - done.
  - done.
Qed.

Section geometry.
Context (q : queue) (r : Inner) (k R : nat) (G : geometry q r k R).

Lemma geo_index n : ring_index (cursor n) (mask r) = (n mod 2 ^ k)%nat.
Proof. destruct G. rewrite geo_mask0. by apply ring_index_cursor. Qed.

Lemma geo_index_lt n : (n mod 2 ^ k < length (slots r))%nat.
Proof. destruct G. rewrite geo_slots0. apply Nat.mod_upper_bound, Nat.pow_nonzero. lia. Qed.

Lemma geo_cap : bound q < u64_modulus.
Proof. destruct G. pose proof (pow_bound k geo_k0). lia. Qed.

(** What a reservation finds: room for [n] more, or the queue full. *)
Lemma reserve_cursor_spec CH :
  (CH ≤ R)%nat → Z.of_nat (R + length (items q)) <= Z.of_nat CH + bound q →
  match reserve_cursor 1 r (cursor CH) with
  | (Ret t, ch') => t = cursor (R + length (items q)) ∧
      ∃ CH', ch' = cursor CH' ∧ (CH ≤ CH' ≤ R)%nat ∧ Z.of_nat (R + length (items q)) + 1 <= Z.of_nat CH' + bound q
  | (Fail e, ch') => e = Full ∧ ch' = cursor R ∧ zlen (items q) = bound q
  | _ => False
  end.
Proof.
  intros Hle Hroom. pose proof geo_cap as Hcap. destruct G. unfold reserve_cursor.
  rewrite geo_tail0, geo_head0, geo_bound0. change 1 with (Z.of_nat 1). rewrite cursor_add.
  assert (Hsub : ∀ c, (c ≤ R)%nat → Z.of_nat (R + length (items q)) <= Z.of_nat c + bound q →
    wrapping_sub64 (cursor (R + length (items q) + 1)) (cursor c) = Z.of_nat (R + length (items q) + 1) - Z.of_nat c).
  { intros c Hc Hr. pose proof (pow_bound k geo_k0). assert (2 ^ Z.of_nat k <= 2 ^ 63) by (apply Z.pow_le_mono_r; lia).
    apply cursor_sub; [lia|]. unfold u64_modulus. change (2 ^ 63) with 9223372036854775808 in *. lia. }
  rewrite (Hsub CH), (Hsub R) by lia.
  destruct (Z.ltb_spec (bound q) (Z.of_nat (R + length (items q) + 1) - Z.of_nat CH)).
  - destruct (Z.ltb_spec (bound q) (Z.of_nat (R + length (items q) + 1) - Z.of_nat R)).
    + split_and!; [done|done|]. unfold zlen. lia.
    + split; [done|]. exists R. split_and!; [done|lia|lia|lia].
  - split; [done|]. exists CH. split_and!; [done|lia|lia|lia].
Qed.

Lemma contiguous_available_spec CH :
  (CH ≤ R)%nat → Z.of_nat (R + length (items q)) + 1 <= Z.of_nat CH + bound q →
  let n := contiguous_available r (cursor CH) (cursor (R + length (items q))) in
  0 < n ∧ Z.of_nat (R + length (items q)) + n <= Z.of_nat CH + bound q ∧
  Z.of_nat ((R + length (items q)) mod 2 ^ k) + n <= 2 ^ Z.of_nat k.
Proof.
  intros Hle Hroom. pose proof geo_cap as Hcap. cbv zeta. unfold contiguous_available, saturating_sub.
  rewrite geo_index, cursor_sub by lia. pose proof (geo_index_lt (R + length (items q))) as Hlt.
  destruct G. rewrite geo_slots0 in Hlt. unfold zlen. rewrite geo_slots0, pow_nat_Z, geo_bound0.
  pose proof (pow_nat_Z k). lia.
Qed.

Lemma read_batch_spec max CT :
  (R < CT ≤ R + length (items q))%nat → Z.of_nat (length (items q)) <= bound q →
  let '(h, len) := read_batch max r (cursor CT) in
  h = cursor R ∧ 0 < len ∧ Z.of_nat R + len <= Z.of_nat CT ∧ Z.of_nat (R mod 2 ^ k) + len <= 2 ^ Z.of_nat k.
Proof.
  intros Hct Hlen. pose proof geo_cap as Hcap. unfold read_batch.
  pose proof (geo_index_lt R) as Hlt. pose proof (geo_index R) as Hidx. destruct G. rewrite geo_head0.
  rewrite Hidx. rewrite cursor_sub by lia. rewrite geo_slots0 in Hlt. unfold zlen. rewrite geo_slots0, pow_nat_Z.
  pose proof (pow_nat_Z k). split_and!; [done|lia|lia|lia].
Qed.
End geometry.

(** ** Every step is a step of the queue *)

(** The slot of a reserved item is none of the slots of the items in the queue. *)
Lemma reserved_slot_free q r k R i j :
  geometry q r k R → (i < length (items q))%nat →
  Z.of_nat (R + length (items q) + j) < Z.of_nat R + bound q →
  ((R + i) mod 2 ^ k ≠ (R + length (items q) + j) mod 2 ^ k)%nat.
Proof.
  intros G Hi Hj. destruct G. pose proof (pow_nat_Z k). apply mod_distinct; lia.
Qed.

Lemma geometry_write q r k R CH len i v r' :
  geometry q r k R → (CH ≤ R)%nat → 0 <= i < len →
  Z.of_nat (R + length (items q)) + len <= Z.of_nat CH + bound q →
  write_slot (wrapping_add64 (cursor (R + length (items q))) i) v r = Ret r' → geometry q r' k R.
Proof.
  intros G Hch Hi Hroom. unfold write_slot.
  replace i with (Z.of_nat (Z.to_nat i)) by lia. rewrite cursor_add.
  rewrite (geo_index _ _ _ _ G), (proj2 (Nat.ltb_lt _ _)) by (eapply geo_index_lt; exact G). intros [= <-].
  destruct G. split; cbn; try done.
  - by rewrite length_insert.
  - intros n w Hn. rewrite list_lookup_insert_ne; [by apply geo_items0|].
    apply not_eq_sym, (reserved_slot_free q r k R); [done| |lia]. by eapply lookup_lt_Some.
Qed.

(** The items of a contiguous stretch of slots. *)
Lemma for_each_from_items q r k R a n i l :
  geometry q r k R → for_each_from i n (cursor a) r = Ret l →
  length l = n ∧ ∀ j v, l !! j = Some v → slots r !! ((a + i + j) mod 2 ^ k)%nat = Some v.
Proof.
  intros G. revert i l. induction n as [|n IH]; intros i l; cbn [for_each_from].
  { intros [= <-]. split; [done|]. intros j v Hj. by rewrite lookup_nil in Hj. }
  rewrite cursor_add. unfold read_slot, index. rewrite (geo_index _ _ _ _ G).
  destruct (slots r !! _) as [v|] eqn:Hv; [|done]. cbn [mbind outcome_bind].
  destruct (for_each_from (S i) n (cursor a) r) as [l'|[]| |] eqn:Hl; [|done..]. cbn [mbind outcome_bind].
  intros [= <-]. destruct (IH _ _ Hl) as [Hlen Hitems]. split; [simpl; lia|].
  intros [|j] w; cbn; [intros [= <-]; by rewrite Nat.add_0_r|]. intros Hw.
  replace (a + i + S j)%nat with (a + S i + j)%nat by lia. by apply Hitems.
Qed.

Lemma geometry_commit q r k R CH n more :
  geometry q r k R → (CH ≤ R)%nat →
  Z.of_nat (R + length (items q)) + Z.of_nat n <= Z.of_nat CH + bound q →
  for_each_from 0 n (cursor (R + length (items q))) r = Ret more →
  geometry {| items := items q ++ more; bound := bound q; sender := sender q; receiver := receiver q |}
    (commit (cursor (R + length (items q))) (Z.of_nat n) r) k R ∧ length more = n.
Proof.
  intros G Hch Hroom Hmore. destruct (for_each_from_items _ _ _ _ _ _ _ _ G Hmore) as [Hlen Hitems].
  split; [|done]. destruct G. split; cbn; try done.
  - rewrite cursor_add, length_app, Hlen. f_equal. lia.
  - intros i v Hi. apply lookup_app_Some in Hi as [Hi|[Hge Hi]]; [by apply geo_items0|].
    apply Hitems in Hi. rewrite Nat.add_0_r in Hi.
    by replace (R + i)%nat with (R + length (items q) + (i - length (items q)))%nat by lia.
Qed.

Lemma geometry_release q r k R n :
  geometry q r k R → (n ≤ length (items q))%nat →
  geometry {| items := drop n (items q); bound := bound q; sender := sender q; receiver := receiver q |}
    (release (cursor R) (Z.of_nat n) r) k (R + n).
Proof.
  intros G Hn. destruct G. split; cbn; try done.
  - apply cursor_add.
  - rewrite length_drop, geo_tail0. f_equal. lia.
  - intros i v Hi. rewrite lookup_drop in Hi. apply geo_items0 in Hi.
    by replace (R + n + i)%nat with (R + (n + i))%nat by lia.
Qed.

Lemma geometry_flags q r k R b c :
  geometry q r k R →
  geometry {| items := items q; bound := bound q; sender := b; receiver := c |}
    {| slots := slots r; capacity := capacity r; mask := mask r; head := head r; tail := tail r;
       producer_alive := b; consumer_alive := c |} k R.
Proof. intros G. by destruct G. Qed.

Lemma producer_simulated q s l s' :
  ring_inv q s → producer_step s l s' → ∃ q', queue_step q l q' ∧ ring_inv q' s'.
Proof.
  intros (k & R & CH & CT & G & C & P & K) Hstep.
  destruct Hstep as [r ch ct c Ha|r ch ct c Ha|max r ch ct c t ch' Hres|r ch ct c e ch' Hres
    |r ch ct c t len i v r' Hi Hw|r ch ct c t len n more Hn Hmore|r ch ct c];
    destruct q as [its b sd rc]; destruct C as [Eh Et (Hch & Hct) Hroom]; unfold producer_ok in P; cbn in *; subst ch ct.
  - eexists. split; [constructor|]. exists k, R, CH, CT. by split_and!.
  - rewrite (geo_receiver _ _ _ _ G) in Ha. cbn in Ha. subst rc. eexists. split; [constructor|].
    exists k, R, CH, CT. by split_and!.
  - pose proof (reserve_cursor_spec _ _ _ _ G CH ltac:(lia) Hroom) as Hs. rewrite Hres in Hs.
    destruct Hs as (-> & CH' & -> & Hch' & Hroom').
    pose proof (contiguous_available_spec _ _ _ _ G CH' ltac:(lia) Hroom') as (H1 & H2 & H3). cbn in H1, H2, H3.
    eexists. split; [constructor|]. exists k, R, CH', CT. split_and!; [done| |..|done].
    + split; cbn; try done; lia.
    + unfold producer_ok. cbn. split_and!; [done|done|lia|lia|lia].
  - pose proof (reserve_cursor_spec _ _ _ _ G CH ltac:(lia) Hroom) as Hs. rewrite Hres in Hs.
    destruct Hs as (-> & -> & Hfull). eexists. split; [by constructor|]. exists k, R, R, CT.
    split_and!; [done|split; cbn; try done; unfold zlen in *; lia|done|done].
  - destruct P as (? & -> & ? & ? & ?). eexists. split; [constructor|]. exists k, R, CH, CT.
    split_and!; [|done|done|done].
    eapply (geometry_write _ _ _ _ CH len i); [exact G|lia|done| |exact Hw]. cbn. lia.
  - destruct P as (-> & -> & Hlen & Hr & Hc). set (m := Z.min n len) in *.
    destruct (geometry_commit _ r k R CH (Z.to_nat m) more G ltac:(lia) ltac:(cbn; lia) Hmore) as [G' Hl].
    cbn in G', Hl. rewrite Z2Nat.id in G' by lia.
    eexists. split; [constructor; unfold zlen; rewrite length_app; lia|].
    exists k, R, CH, CT. split_and!; [exact G'| |done|done]. split; cbn; try done; rewrite length_app; lia.
  - eexists. split; [constructor|]. exists k, R, CH, CT.
    split_and!; [|done|done|].
    { cbn. unfold drop_producer. rewrite (geo_receiver _ _ _ _ G). exact (geometry_flags _ _ _ _ false rc G). }
    unfold consumer_ok in *. cbn in *. destruct c; done.
Qed.

(** A batch that is read when the consumer sees [CT'] items. *)
Lemma reading_ok q r k R CH CT' max p c :
  geometry q r k R → (CH ≤ R)%nat → Z.of_nat (R + length (items q)) <= Z.of_nat CH + bound q →
  (R ≤ CT' ≤ R + length (items q))%nat → (cursor CT' =? head r) = false →
  producer_ok q {| inner := r; cached_head := cursor CH; cached_tail := c; ppc := p; cpc := ConsumerIdle |} k R CH →
  ring_inv q {| inner := r; cached_head := cursor CH; cached_tail := cursor CT'; ppc := p;
                cpc := let '(h, len) := read_batch max r (cursor CT') in ConsumerReading h len |}.
Proof.
  intros G Hch Hroom Hct Hne P. pose proof (geo_cap _ _ _ _ G) as Hcap.
  rewrite (geo_head _ _ _ _ G), cursor_eq in Hne by lia. apply Nat.eqb_neq in Hne.
  pose proof (read_batch_spec _ _ _ _ G max CT' ltac:(lia) ltac:(lia)) as Hb.
  destruct (read_batch max r (cursor CT')) as [h len]. destruct Hb as (-> & ? & ? & ?).
  exists k, R, CH, CT'. split_and!; [done|split; cbn; try done; lia|done|]. unfold consumer_ok. cbn. by split_and!.
Qed.

(** The consumer has seen all there is when [tail] is [head]. *)
Lemma tail_is_head q r k R :
  geometry q r k R → Z.of_nat (length (items q)) <= bound q → (tail r =? head r) = true → items q = [].
Proof.
  intros G Hlen Heq. pose proof (geo_cap _ _ _ _ G) as Hcap.
  rewrite (geo_head _ _ _ _ G), (geo_tail _ _ _ _ G), cursor_eq in Heq by lia.
  apply Nat.eqb_eq in Heq. apply nil_length_inv. lia.
Qed.

Lemma consumer_simulated q s l s' :
  ring_inv q s → consumer_step s l s' → ∃ q', queue_step q l q' ∧ ring_inv q' s'.
Proof.
  intros (k & R & CH & CT & G & C & P & K) Hstep.
  destruct Hstep as [max r ch ct p Hne|max r ch ct p Heq Hne|r ch ct p Heq Hemp|r ch ct p Ha|r ch ct p Ha
    |max r ch ct p Hne|r ch ct p Hemp|r ch ct p h len i v Hi Hr|r ch ct p h len|r ch ct p];
    destruct q as [its b sd rc]; destruct C as [Eh Et (Hch & Hct) Hroom]; unfold consumer_ok in K; cbn in *; subst ch ct.
  - eexists. split; [constructor|]. eapply (reading_ok _ _ _ _ _ _ _ _ 0); [exact G|lia|done|cbn; lia|done|exact P].
  - eexists. split; [constructor|]. rewrite (geo_tail _ _ _ _ G) in Hne |- *. eapply (reading_ok _ _ _ _ _ _ _ _ 0); [exact G|lia|done|cbn; lia|exact Hne|exact P].
  - eexists. split; [constructor|]. rewrite (geo_tail _ _ _ _ G). cbn. exists k, R, CH, (R + length its)%nat.
    split_and!; [done|split; cbn; try done; lia|done|done].
  - eexists. split; [constructor|]. exists k, R, CH, CT. by split_and!.
  - eexists. split; [constructor|]. exists k, R, CH, CT. split_and!; [done|done|done|].
    rewrite (geo_sender _ _ _ _ G) in Ha. done.
  - eexists. split; [constructor|]. rewrite (geo_tail _ _ _ _ G) in Hne |- *. eapply (reading_ok _ _ _ _ _ _ _ _ 0); [exact G|lia|done|cbn; lia|exact Hne|exact P].
  - apply (tail_is_head _ _ _ _ G) in Hemp as Hnil; [|cbn; lia]. cbn in Hnil. subst its sd.
    eexists. split; [constructor|]. rewrite (geo_tail _ _ _ _ G). cbn. exists k, R, CH, (R + 0)%nat.
    split_and!; [done|split; cbn in *; try done; lia|done|done].
  - destruct K as (-> & ? & ? & ?). destruct (lookup_lt_is_Some_2 its (Z.to_nat i)) as [w Hw]; [lia|].
    assert (v = w) as ->.
    { revert Hr. replace i with (Z.of_nat (Z.to_nat i)) at 1 by lia. rewrite cursor_add. unfold read_slot, index.
      rewrite (geo_index _ _ _ _ G), (geo_items _ _ _ _ G (Z.to_nat i) w) by done. by intros [= ->]. }
    eexists. split; [constructor; [lia|exact Hw]|]. exists k, R, CH, CT. split_and!; [done|done|done|].
    unfold consumer_ok. cbn. by split_and!.
  - destruct K as (-> & ? & ? & ?). eexists. split; [constructor; unfold zlen; lia|].
    exists k, (R + Z.to_nat len)%nat, CH, CT. split_and!; [| | |done].
    + replace len with (Z.of_nat (Z.to_nat len)) at 2 by lia. exact (geometry_release _ _ _ _ (Z.to_nat len) G ltac:(cbn; lia)).
    + split; cbn; try done; rewrite ?length_drop; lia.
    + unfold producer_ok in *. cbn in *. rewrite length_drop.
      by replace (R + Z.to_nat len + (length its - Z.to_nat len))%nat with (R + length its)%nat by lia.
  - eexists. split; [constructor|]. exists k, R, CH, CT. split_and!; [|done|done|done].
    cbn. unfold drop_consumer. rewrite (geo_sender _ _ _ _ G). exact (geometry_flags _ _ _ _ sd false G).
Qed.

Lemma ring_simulated capacity trace s :
  capacity <= 2 ^ 63 → steps (ring_new capacity) trace s →
  ∃ q, queue_steps (queue_new capacity) trace q ∧ ring_inv q s.
Proof.
  intros Hc Hs. remember (ring_new capacity) as s0 eqn:Hs0. induction Hs as [s|s1 trace s2 l s3 Hs IH Hl].
  - subst s. exists (queue_new capacity). split; [constructor|by apply ring_inv_new].
  - destruct (IH Hs0) as (q & Hq & Hinv).
    assert (∃ q', queue_step q l q' ∧ ring_inv q' s3) as (q' & Hq' & Hinv').
    { destruct Hl; [by eapply producer_simulated|by eapply consumer_simulated]. }
    exists q'. split; [by econstructor|done].
Qed.

(** ** Calls that are not interrupted *)

Lemma for_each_from_spec q r k R i n :
  geometry q r k R → (i + n ≤ length (items q))%nat →
  for_each_from i n (cursor R) r = Ret (take n (drop i (items q))).
Proof.
  intros G. revert i. induction n as [|n IH]; intros i Hn; cbn [for_each_from]; [done|].
  destruct (lookup_lt_is_Some_2 (items q) i) as [v Hv]; [lia|].
  rewrite cursor_add. unfold read_slot, index. rewrite (geo_index _ _ _ _ G), (geo_items _ _ _ _ G i v Hv).
  cbn [mbind outcome_bind]. rewrite IH by lia. cbn [mbind outcome_bind]. by rewrite (drop_S _ v _ Hv).
Qed.

Lemma try_reserve_exact q s max :
  ring_inv q s →
  match try_reserve_batch max (inner s) (cached_head s) with
  | (Fail ReserveDisconnected, _) => receiver q = false
  | (Fail Full, _) => receiver q = true ∧ zlen (items q) = bound q
  | (Ret (_, len), _) => receiver q = true ∧ 0 < len <= Z.max max 1 ∧ zlen (items q) + len <= bound q
  | _ => False
  end.
Proof.
  intros (k & R & CH & CT & G & [Eh _ Hord Hroom] & _ & _). unfold try_reserve_batch, reserve_len. rewrite Eh.
  rewrite (geo_receiver _ _ _ _ G). destruct (receiver q); cbn [negb]; [|done].
  pose proof (reserve_cursor_spec _ _ _ _ G CH ltac:(lia) Hroom) as Hs.
  destruct (reserve_cursor 1 (inner s) (cursor CH)) as [[t|e| |] ch']; cbn [mbind outcome_bind]; [| |done..].
  - destruct Hs as (-> & CH' & -> & ? & Hr).
    destruct (contiguous_available_spec _ _ _ _ G CH' ltac:(lia) Hr) as (? & ? & ?).
    unfold zlen. split_and!; [done|lia|lia|lia].
  - destruct Hs as (-> & _ & ?). done.
Qed.

Lemma try_read_exact q s max :
  ring_inv q s →
  match try_read_batch max (inner s) (cached_tail s) with
  | (Fail Empty, _) => items q = [] ∧ sender q = true
  | (Fail ReadDisconnected, _) => items q = [] ∧ sender q = false
  | (Ret (head, len), _) =>
      0 < len <= Z.max max 1 ∧ len <= zlen (items q) ∧ for_each head len (inner s) = Ret (take (Z.to_nat len) (items q))
  | _ => False
  end.
Proof.
  intros (k & R & CH & CT & G & [_ Et Hord Hroom] & _ & _). pose proof (geo_cap _ _ _ _ G) as Hcap.
  assert (Hread : ∀ CT', (R ≤ CT' ≤ R + length (items q))%nat → (cursor CT' =? head (inner s)) = false →
    let '(h, len) := read_batch max (inner s) (cursor CT') in
    0 < len <= Z.max max 1 ∧ len <= zlen (items q) ∧ for_each h len (inner s) = Ret (take (Z.to_nat len) (items q))).
  { intros CT' Hct Hne. rewrite (geo_head _ _ _ _ G), cursor_eq in Hne by lia. apply Nat.eqb_neq in Hne.
    pose proof (read_batch_spec _ _ _ _ G max CT' ltac:(lia) ltac:(lia)) as Hb.
    assert (Hmax : (read_batch max (inner s) (cursor CT')).2 <= Z.max max 1) by (unfold read_batch; cbn; lia).
    destruct (read_batch max (inner s) (cursor CT')) as [h len]. cbn in Hmax. destruct Hb as (-> & ? & ? & ?).
    unfold zlen. split_and!; [lia|lia|lia|]. unfold for_each. rewrite (for_each_from_spec q _ k R) by (done || lia). done. }
  unfold try_read_batch. rewrite Et. destruct (cursor CT =? head (inner s)) eqn:Hc; [|by apply Hread; [lia|]].
  destruct (tail (inner s) =? head (inner s)) eqn:Ht.
  - apply (tail_is_head _ _ _ _ G) in Ht as Hnil; [|lia]. rewrite (geo_sender _ _ _ _ G).
    by destruct (sender q).
  - rewrite (geo_tail _ _ _ _ G) in Ht |- *. by apply Hread; [lia|].
Qed.

(** *** The buffered producer *)

(** [pend] has been written and not yet been published. *)
Definition buffered_ok (q : queue) (r : Inner) (b : BufferedProducer) (k R CH : nat) (pend : list T) : Prop :=
  geometry q r k R ∧ producer_cached_head b = cursor CH ∧ (CH ≤ R)%nat ∧
  Z.of_nat (R + length (items q)) <= Z.of_nat CH + bound q ∧ 1 <= batch_size b ∧
  written b = Z.of_nat (length pend) ∧
  (pend = [] ∧ reserved_len b = 0 ∨
   written b < reserved_len b ∧ reserved_tail b = cursor (R + length (items q)) ∧
   Z.of_nat (R + length (items q)) + reserved_len b <= Z.of_nat CH + bound q ∧
   ∀ j v, pend !! j = Some v → slots r !! ((R + length (items q) + j) mod 2 ^ k)%nat = Some v).

Definition with_items (l : list T) (q : queue) : queue :=
  {| items := l; bound := bound q; sender := sender q; receiver := receiver q |}.

(** Publishing what is pending. *)
Lemma publish q r k R CH pend :
  geometry q r k R → (CH ≤ R)%nat → Z.of_nat (R + length (items q) + length pend) <= Z.of_nat CH + bound q →
  (∀ j v, pend !! j = Some v → slots r !! ((R + length (items q) + j) mod 2 ^ k)%nat = Some v) →
  geometry (with_items (items q ++ pend) q) (commit (cursor (R + length (items q))) (Z.of_nat (length pend)) r) k R.
Proof.
  intros G Hch Hroom Hpend. destruct G. split; cbn; try done.
  - rewrite cursor_add, length_app. f_equal. lia.
  - intros i v Hi. apply lookup_app_Some in Hi as [Hi|[Hge Hi]]; [by apply geo_items0|].
    apply Hpend in Hi. by replace (R + i)%nat with (R + length (items q) + (i - length (items q)))%nat by lia.
Qed.

Lemma flush_spec q r b k R CH pend :
  buffered_ok q r b k R CH pend →
  let '(r', b') := flush r b in buffered_ok (with_items (items q ++ pend) q) r' b' k R CH [] ∧ reserved_len b' = 0.
Proof.
  intros (G & Hc & Hch & Hroom & Hbs & Hw & Hp). unfold flush. split; [|done].
  destruct pend as [|v pend].
  - rewrite Hw, app_nil_r. cbn. split_and!; try done; [|by left]. by destruct q.
  - destruct Hp as [[? _]|(Hlt & Ht & Hr & Hslots)]; [done|].
    rewrite (proj2 (Z.ltb_lt 0 (written b))) by (rewrite Hw; simpl; lia).
    rewrite Ht, Hw. split_and!; cbn; try done; [| |by left].
    + apply (publish q r k R CH); [done|done|lia|done].
    + rewrite length_app. cbn in *. lia.
Qed.

(** Writing into a reservation that is not full. *)
Lemma write_reserved q r b k R CH pend v :
  buffered_ok q r b k R CH pend → written b < reserved_len b →
  ∃ r', write_slot (wrapping_add64 (reserved_tail b) (written b)) v r = Ret r' ∧ geometry q r' k R ∧
    ∀ j w, (pend ++ [v]) !! j = Some w → slots r' !! ((R + length (items q) + j) mod 2 ^ k)%nat = Some w.
Proof.
  intros (G & Hc & Hch & Hroom & Hbs & Hw & Hp) Hlt.
  destruct Hp as [[-> Hz]|(_ & Ht & Hr & Hslots)]; [rewrite Hw in Hlt; simpl in Hlt; lia|].
  rewrite Ht, Hw, cursor_add.
  assert (Hwrite : write_slot (cursor (R + length (items q) + length pend)) v r =
    Ret (set_slots (<[((R + length (items q) + length pend) mod 2 ^ k)%nat := v]> (slots r)) r)).
  { unfold write_slot. rewrite (geo_index _ _ _ _ G).
    rewrite (proj2 (Nat.ltb_lt _ _)) by (by eapply geo_index_lt). done. }
  eexists. split; [exact Hwrite|]. split.
  - eapply (geometry_write q r k R CH (reserved_len b) (Z.of_nat (length pend)) v); [done|done|lia|done|].
    by rewrite cursor_add.
  - intros j w Hj. cbn. pose proof (pow_nat_Z k).
    pose proof (geo_capacity _ _ _ _ G). pose proof (geo_slots _ _ _ _ G).
    apply lookup_app_Some in Hj as [Hj|[Hge Hj]].
    + pose proof (lookup_lt_Some _ _ _ Hj). rewrite list_lookup_insert_ne; [by apply Hslots|].
      apply not_eq_sym, mod_distinct; lia.
    + apply list_lookup_singleton_Some in Hj as [Hj <-].
      replace j with (length pend) by lia. apply list_lookup_insert_eq. eapply geo_index_lt. exact G.
Qed.

Lemma write_with_reserved q r b k R CH pend v :
  buffered_ok q r b k R CH pend → written b < reserved_len b →
  let '(res, r', b') := write_with v r b in
  res = Ret tt ∧ ∃ q' pend', buffered_ok q' r' b' k R CH pend' ∧ items q' ++ pend' = items q ++ pend ++ [v] ∧
    bound q' = bound q ∧ sender q' = sender q ∧ receiver q' = receiver q.
Proof.
  intros B Hlt. destruct (write_reserved q r b k R CH pend v B Hlt) as (r1 & Hw1 & G1 & Hslots).
  destruct B as (G & Hc & Hch & Hroom & Hbs & Hw & Hp). unfold write_with.
  rewrite (proj2 (Z.eqb_neq _ _)) by lia. rewrite Hw1.
  destruct Hp as [[-> Hz]|(_ & Ht & Hr & _)]; [rewrite Hw in Hlt; simpl in Hlt; lia|].
  set (b1 := {| producer_cached_head := producer_cached_head b; batch_size := batch_size b;
    reserved_tail := reserved_tail b; reserved_len := reserved_len b; written := written b + 1 |}).
  cbn [written reserved_len b1]. destruct (Z.eqb_spec (written b + 1) (reserved_len b)) as [Heq|Hne].
  - unfold flush. cbn [written b1 reserved_tail]. rewrite (proj2 (Z.ltb_lt 0 _)) by lia. split; [done|].
    exists (with_items (items q ++ pend ++ [v]) q), []. rewrite app_nil_r.
    split; [split_and!; try done; [| |by left]|done].
    + rewrite Ht. replace (written b + 1) with (Z.of_nat (length (pend ++ [v]))) by (rewrite length_app; simpl; lia).
      apply (publish q r1 k R CH); [done|done| |done]. rewrite length_app. simpl. lia.
    + cbn. rewrite !length_app. simpl. lia.
  - split; [done|]. exists q, (pend ++ [v]). split; [split_and!; try done|done].
    + cbn. rewrite length_app. simpl. lia.
    + right. cbn. split_and!; [lia|done|done|done].
Qed.

(** One item goes through the buffered producer: it is behind all that went before. *)
Lemma write_with_spec q r b k R CH pend v :
  buffered_ok q r b k R CH pend →
  let '(res, r', b') := write_with v r b in
  match res with
  | Ret _ => ∃ q' CH' pend', buffered_ok q' r' b' k R CH' pend' ∧ items q' ++ pend' = items q ++ pend ++ [v] ∧
      bound q' = bound q ∧ sender q' = sender q ∧ receiver q' = receiver q
  | Fail e => pend = [] ∧ r' = r ∧ (∃ CH', buffered_ok q r' b' k R CH' []) ∧
      match e with Full => zlen (items q) = bound q | ReserveDisconnected => receiver q = false end
  | _ => False
  end.
Proof.
  intros B. pose proof B as (G & Hc & Hch & Hroom & Hbs & Hw & Hp).
  destruct Hp as [[-> Hz]|(Hlt & _)].
  2: { pose proof (write_with_reserved q r b k R CH pend v B Hlt) as Hs.
       destruct (write_with v r b) as [[res r'] b']. destruct Hs as [-> (q' & pend' & ?)]. by exists q', CH, pend'. }
  unfold write_with. rewrite Hw, Hz. change (Z.of_nat (length (@nil T)) =? 0) with true.
  assert (Hflush : flush r b = (r, {| producer_cached_head := producer_cached_head b; batch_size := batch_size b;
    reserved_tail := 0; reserved_len := 0; written := 0 |})) by (unfold flush; by rewrite Hw).
  cbv iota. rewrite Hflush.
  unfold reserve_batch, reserve_len. cbn [producer_cached_head batch_size]. rewrite (geo_receiver _ _ _ _ G), Hc.
  destruct (receiver q) eqn:Hrec; cbn [negb].
  2: { split; [done|]. split; [done|]. split; [|done]. exists CH. split_and!; try done. by left. }
  pose proof (reserve_cursor_spec _ _ _ _ G CH Hch Hroom) as Hs.
  destruct (reserve_cursor 1 r (cursor CH)) as [[t|e| |] ch']; [| |done..].
  2: { destruct Hs as (-> & -> & Hfull). split; [done|]. split; [done|]. split; [|done]. exists R. unfold zlen in Hfull.
       split_and!; try done; cbn; try lia. by left. }
  destruct Hs as (-> & CH' & -> & Hch' & Hroom').
  destruct (contiguous_available_spec _ _ _ _ G CH' ltac:(lia) Hroom') as (Hn & Hn2 & Hn3).
  set (b1 := {| producer_cached_head := cursor CH'; batch_size := batch_size b; reserved_tail := cursor (R + length (items q));
    reserved_len := Z.min (contiguous_available r (cursor CH') (cursor (R + length (items q)))) (batch_size b); written := 0 |}).
  assert (B1 : buffered_ok q r b1 k R CH' []).
  { split_and!; try done; cbn; [lia|lia|]. right. split_and!; [lia|done|lia|]. intros j w Hj. by rewrite lookup_nil in Hj. }
  assert (Hlt : written b1 < reserved_len b1) by (cbn; lia).
  pose proof (write_with_reserved q r b1 k R CH' [] v B1 Hlt) as Hrun. unfold write_with in Hrun.
  rewrite (proj2 (Z.eqb_neq (written b1) (reserved_len b1))) in Hrun by lia.
  destruct (write_slot (wrapping_add64 (reserved_tail b1) (written b1)) v r) as [r1|[]| |] eqn:Hws;
    cbv beta iota in Hrun; [|by destruct Hrun..].
  destruct (_ =? _) in Hrun |- *; cbn in Hrun |- *; destruct Hrun as [_ (q' & pend' & Hq')]; rewrite Hrec in Hq'; exists q', CH', pend'; exact Hq'.
Qed.

(** Items written one after another by [write_with], while none of the calls fails. *)
Fixpoint write_all (vs : list T) (r : Inner) (b : BufferedProducer) : outcome TryReserveError unit * Inner * BufferedProducer :=
  match vs with
  | [] => (Ret tt, r, b)
  | v :: vs =>
    match write_with v r b with
    | (Ret _, r, b) => write_all vs r b
    | e => e
    end
  end.

Lemma write_all_spec vs q r b k R CH pend r' b' :
  buffered_ok q r b k R CH pend → write_all vs r b = (Ret tt, r', b') →
  ∃ q' CH' pend', buffered_ok q' r' b' k R CH' pend' ∧ items q' ++ pend' = items q ++ pend ++ vs ∧
    bound q' = bound q ∧ sender q' = sender q ∧ receiver q' = receiver q.
Proof.
  revert q r b CH pend. induction vs as [|v vs IH]; intros q r b CH pend B; cbn [write_all].
  { intros [= <- <-]. exists q, CH, pend. by rewrite app_nil_r. }
  pose proof (write_with_spec q r b k R CH pend v B) as Hs. destruct (write_with v r b) as [[res r1] b1].
  destruct res as [[]|e| |]; [|done..]. destruct Hs as (q1 & CH1 & pend1 & B1 & Hi & E1 & E2 & E3). intros Hrun.
  destruct (IH _ _ _ _ _ B1 Hrun) as (q2 & CH2 & pend2 & B2 & Hi2 & ? & ? & ?).
  exists q2, CH2, pend2. split_and!; [done| |congruence..].
  by rewrite Hi2, (assoc_L (++)), Hi, <-!(assoc_L (++)).
Qed.

(** ** Theorems *)

(** C12: the ring implements a bounded queue: every run of the two sides, however
    their accesses interleave and however often the cursors wrap around, is a
    run of a queue - items are read in the order they were committed, none is
    lost, repeated or read before it is committed, no more than the capacity are
    in flight, [Full] is only reported of a full queue, and [Disconnected] to the
    consumer only when the producer is gone and everything has been read. *)
Theorem ring_refines_queue (capacity : Z) (trace : list label) (s : ring) :
  capacity <= 2 ^ 63 → steps (ring_new capacity) trace s →
  ∃ q, queue_steps (queue_new capacity) trace q.
Proof. intros Hc Hs. destruct (ring_simulated capacity trace s Hc Hs) as (q & Hq & _). by exists q. Qed.

(** C37: the two sides never touch the same slot: while the producer holds a
    reservation and the consumer a batch, the slots of the one are none of the
    other's, and all of them exist. *)
Theorem ring_race_free (capacity : Z) (trace : list label) (s : ring) (t n h m i j : Z) :
  capacity <= 2 ^ 63 → steps (ring_new capacity) trace s →
  ppc s = ProducerReserved t n → cpc s = ConsumerReading h m → 0 <= i < n → 0 <= j < m →
  let written := ring_index (wrapping_add64 t i) (mask (inner s)) in
  let read := ring_index (wrapping_add64 h j) (mask (inner s)) in
  written ≠ read ∧ (written < length (slots (inner s)))%nat ∧ (read < length (slots (inner s)))%nat.
Proof.
  intros Hc Hs Hp Hr Hi Hj. destruct (ring_simulated capacity trace s Hc Hs) as (q & _ & k & R & CH & CT & G & C & P & K).
  unfold producer_ok in P. unfold consumer_ok in K. rewrite Hp in P. rewrite Hr in K.
  destruct P as (_ & -> & _ & Hroom & _), K as (-> & _ & Hct & _). destruct C as [_ _ [Hord Hord2] _].
  replace i with (Z.of_nat (Z.to_nat i)) by lia. replace j with (Z.of_nat (Z.to_nat j)) by lia.
  cbv zeta. rewrite !cursor_add, !(geo_index _ _ _ _ G).
  split_and!; [|by eapply geo_index_lt..]. apply not_eq_sym.
  eapply (reserved_slot_free q (inner s)); [exact G|lia|lia].
Qed.

(** calls that run by themselves do what the queue allows, no less: in every
    reachable state a reservation fails only when the queue is full or the
    consumer gone, a read fails only when the queue is empty, telling whether the
    producer is gone, and the batch read is the front of the queue. *)
Theorem ring_calls_exact (capacity : Z) (trace : list label) (s : ring) (max : Z) :
  capacity <= 2 ^ 63 → steps (ring_new capacity) trace s →
  ∃ q, queue_steps (queue_new capacity) trace q ∧
  match try_reserve_batch max (inner s) (cached_head s) with
  | (Fail ReserveDisconnected, _) => receiver q = false
  | (Fail Full, _) => receiver q = true ∧ zlen (items q) = bound q
  | (Ret (_, len), _) => receiver q = true ∧ 0 < len <= Z.max max 1 ∧ zlen (items q) + len <= bound q
  | _ => False
  end ∧
  match try_read_batch max (inner s) (cached_tail s) with
  | (Fail Empty, _) => items q = [] ∧ sender q = true
  | (Fail ReadDisconnected, _) => items q = [] ∧ sender q = false
  | (Ret (head, len), _) =>
      0 < len <= Z.max max 1 ∧ len <= zlen (items q) ∧ for_each head len (inner s) = Ret (take (Z.to_nat len) (items q))
  | _ => False
  end.
Proof.
  intros Hc Hs. destruct (ring_simulated capacity trace s Hc Hs) as (q & Hq & Hinv). exists q.
  split_and!; [done|by apply try_reserve_exact|by apply try_read_exact].
Qed.

(** the buffered producer keeps the order: items written one by one and
    flushed are behind what was in the ring, in the order they were written,
    whatever the size of its batches. *)
Theorem buffered_producer_order (capacity size : Z) (trace : list label) (s : ring) (vs : list T)
    (r : Inner) (b : BufferedProducer) :
  capacity <= 2 ^ 63 → steps (ring_new capacity) trace s →
  write_all vs (inner s) (into_buffered (cached_head s) size) = (Ret tt, r, b) →
  ∃ q, queue_steps (queue_new capacity) trace q ∧
    let r := (flush r b).1 in
    wrapping_sub64 (tail r) (head r) = zlen (items q ++ vs) ∧
    for_each_from 0 (length (items q ++ vs)) (head r) r = Ret (items q ++ vs).
Proof.
  intros Hc Hs Hrun. destruct (ring_simulated capacity trace s Hc Hs) as (q & Hq & k & R & CH & CT & G & [Eh _ Hord Hroom] & _).
  exists q. split; [done|].
  assert (B : buffered_ok q (inner s) (into_buffered (cached_head s) size) k R CH []).
  { split_and!; try done; cbn; try lia. by left. }
  destruct (write_all_spec _ _ _ _ _ _ _ _ _ _ B Hrun) as (q1 & CH1 & pend & B1 & Hi & Hbd & _).
  pose proof (flush_spec _ _ _ _ _ _ _ B1) as Hf. destruct (flush r b) as [r2 b2]. destruct Hf as [(G2 & _ & Hch & Hroom2 & _) _].
  cbn [app] in Hi. assert (Hitems : items (with_items (items q1 ++ pend) q1) = items q ++ vs) by done.
  pose proof (geo_cap _ _ _ _ G2) as Hcap. cbn in Hroom2, Hcap. cbv zeta. cbn [fst].
  rewrite (geo_head _ _ _ _ G2), (geo_tail _ _ _ _ G2), Hitems. rewrite <-Hitems in *. cbn in *.
  split.
  - rewrite cursor_sub by lia. unfold zlen. lia.
  - rewrite (for_each_from_spec _ _ _ _ 0 _ G2) by (cbn; lia). cbn. f_equal. by apply take_ge.
Qed.
End ring.

(** A run: one item is committed, and the consumer starts to read it. *)
Definition example_trace : list (@label Z) := [Silent; Silent; Silent; Committed [7]; Silent; Silent; Read 0 7].

Definition example_state : ring :=
  {| inner := {| slots := [7; 0]; capacity := 2; mask := 1; head := 0; tail := 1; producer_alive := true;
                 consumer_alive := true |};
     cached_head := 0; cached_tail := 1; ppc := ProducerSawConsumer; cpc := ConsumerReading 0 1 |}.

Lemma example_run : steps (ring_new 0 2) example_trace example_state.
Proof.
  unfold example_trace.
  change [Silent; Silent; Silent; Committed [7]; Silent; Silent; Read 0 7] with
    (((((((([] ++ [Silent]) ++ [Silent]) ++ [Silent]) ++ [Committed [7]]) ++ [Silent]) ++ [Silent]) ++ [Read 0 7]) : list (@label Z)).
  repeat eapply steps_snoc; [apply steps_nil|..].
  - apply by_producer, step_consumer_alive. reflexivity.
  - apply by_producer. apply (step_reserve 1). reflexivity.
  - apply by_producer. apply (step_write _ _ _ _ _ _ 0 7); [vm_compute; split; congruence|reflexivity].
  - apply by_producer. apply (step_commit _ _ _ _ _ _ 1); [lia|reflexivity].
  - apply by_producer, step_consumer_alive. reflexivity.
  - apply by_consumer. apply (step_read_tail 5); reflexivity.
  - apply by_consumer. apply (step_read _ _ _ _ _ _ 0); [vm_compute; split; congruence|reflexivity].
Qed.

Lemma ring_refines_queue_witness :
  steps (ring_new 0 2) example_trace example_state ∧ ∃ q, queue_steps (queue_new 2) example_trace q.
Proof.
  split; [exact example_run|].
  exact (ring_refines_queue 0 2 example_trace example_state ltac:(lia) example_run).
Defined.

(** The producer reserves the slot behind the one the consumer reads. *)
Definition example_both : ring :=
  {| inner := inner example_state; cached_head := 0; cached_tail := 1; ppc := ProducerReserved 1 1;
     cpc := ConsumerReading 0 1 |}.
Lemma example_both_run : steps (ring_new 0 2) (example_trace ++ [Silent]) example_both.
Proof.
  eapply steps_snoc; [exact example_run|]. apply by_producer. apply (step_reserve 1). reflexivity.
Qed.

Lemma ring_race_free_witness :
  steps (ring_new 0 2) (example_trace ++ [Silent]) example_both ∧
  ring_index (wrapping_add64 1 0) 1 ≠ ring_index (wrapping_add64 0 0) 1.
Proof.
  split; [exact example_both_run|].
  exact (proj1 (ring_race_free 0 2 (example_trace ++ [Silent]) example_both 1 1 0 1 0 0 ltac:(lia) example_both_run
    eq_refl eq_refl ltac:(lia) ltac:(lia))).
Defined.

Lemma ring_calls_exact_witness :
  steps (ring_new 0 2) example_trace example_state ∧
  ∃ q, queue_steps (queue_new 2) example_trace q ∧
    for_each 0 1 (inner example_state) = Ret (take 1 (items q)).
Proof.
  split; [exact example_run|].
  destruct (ring_calls_exact 0 2 example_trace example_state 5 ltac:(lia) example_run) as (q & Hq & _ & Hread).
  exists q. split; [exact Hq|]. exact (proj2 (proj2 Hread)).
Defined.

Lemma buffered_producer_order_witness :
  ∃ r b, write_all [5; 6] (inner (ring_new 0 3)) (into_buffered 0 4) = (Ret tt, r, b) ∧
  ∃ q, queue_steps (queue_new 3) [] q ∧
    for_each_from 0 (length (items q ++ [5; 6])) (head (flush r b).1) (flush r b).1 = Ret (items q ++ [5; 6]).
Proof.
  eexists _, _. split; [vm_compute; reflexivity|].
  match goal with |- ∃ q, _ ∧ for_each_from _ _ (head (flush ?r ?b).1) _ = _ =>
    destruct (buffered_producer_order 0 3 4 [] (ring_new 0 3) [5; 6] r b ltac:(lia) (steps_nil _)) as (q & Hq & _ & Hr);
      [vm_compute; reflexivity|]
  end.
  exists q. split; [exact Hq|exact Hr].
Defined.
