(* ===== verification/Jsonl.v ===== *)
(** * The JSON-lines transport (src/core/agentdp-protocol/src/jsonl.rs)

    Every protocol message of the program (client and server, server and guest)
    travels as one line.  [JsonLineReader] cuts lines out of the chunks a
    stream yields, keeps what is left for the next call, and refuses lines
    above a limit. *)
From S2P Require Import Prelude.
Local Open Scope Z_scope.

Definition DEFAULT_MAX_LINE_BYTES : Z := usize_max.

Inductive Error :=
| ReadFailed | FrameTooLong (max_line_bytes : Z) | EncodeFailed | DecodeFailed | ResultDecodeFailed | MissingResult.

Inductive ReadJsonLine (T : Type) := Value (value : T) | Eof.
Arguments Value {T} _.
Arguments Eof {T}.

Record JsonLineReader := { pending : bytes; max_line_bytes : Z }.

Definition reader_new (max_line_bytes : Z) : JsonLineReader := {| pending := []; max_line_bytes := max_line_bytes |}.
Definition reader_default : JsonLineReader := reader_new DEFAULT_MAX_LINE_BYTES.
Definition buffered_len (r : JsonLineReader) : Z := zlen (pending r).

Definition set_pending (p : bytes) (r : JsonLineReader) : JsonLineReader :=
  {| pending := p; max_line_bytes := max_line_bytes r |}.

Definition is_newline (b : Z) : bool := b =? LF.

Definition extend (bytes : bytes) (r : JsonLineReader) : JsonLineReader := set_pending (pending r ++ bytes) r.

Definition validate_next_frame_size (r : JsonLineReader) : outcome Error unit :=
  let frame_len := match position is_newline (pending r) with
                   | Some e => Z.of_nat e + 1
                   | None => zlen (pending r)
                   end in
  if max_line_bytes r <? frame_len then Fail (FrameTooLong (max_line_bytes r)) else Ret tt.

(** [take_line] and [take_eof]: what they append to [line], and the flag *)
Definition take_line (r : JsonLineReader) : option bytes * JsonLineReader :=
  match position is_newline (pending r) with
  | None => (None, r)
  | Some e => (Some (take (S e) (pending r)), set_pending (drop (S e) (pending r)) r)
  end.

Definition take_eof (r : JsonLineReader) : option bytes * JsonLineReader :=
  match pending r with
  | [] => (None, r)
  | p => (Some p, set_pending [] r)
  end.

(** What successive calls of [reader.read] yield: bytes ([Chunk []] is the end of the stream) or an
    error.  A list that ends is a stream that is still open: the call that awaits it stays suspended,
    or is dropped by its caller; either way the reader keeps what it has. *)
Inductive read_result := Chunk (bytes : bytes) | ReadError.

(** The loop of [read_line]: the line ([None] is [Ok(false)]), the reader and the rest of the stream *)
Fixpoint read_loop (r : JsonLineReader) (stream : list read_result)
    : outcome Error (option bytes) * JsonLineReader * list read_result :=
  match stream with
  | [] => (Timeout, r, [])
  | ReadError :: stream => (Fail ReadFailed, r, stream)
  | Chunk [] :: stream =>
    match validate_next_frame_size r with
    | Ret _ => let '(line, r) := take_eof r in (Ret line, r, stream)
    | Fail e => (Fail e, r, stream)
    | _ => (Panic, r, stream)
    end
  | Chunk buffer :: stream =>
    let r := extend buffer r in
    match validate_next_frame_size r with
    | Ret _ =>
      match take_line r with
      | (Some line, r) => (Ret (Some line), r, stream)
      | (None, r) => read_loop r stream
      end
    | Fail e => (Fail e, r, stream)
    | _ => (Panic, r, stream)
    end
  end.

Definition read_line (r : JsonLineReader) (stream : list read_result)
    : outcome Error (option bytes) * JsonLineReader * list read_result :=
  match validate_next_frame_size r with
  | Ret _ =>
    match take_line r with
    | (Some line, r) => (Ret (Some line), r, stream)
    | (None, r) => read_loop r stream
    end
  | Fail e => (Fail e, r, stream)
  | _ => (Panic, r, stream)
  end.

(** ** Messages *)
Section message.
(** [serde_json::to_writer] and [serde_json::from_slice] at the type of the message *)
Context {T : Type} (to_writer : T → option bytes) (from_slice : bytes → option T).

Definition encode (value : T) : outcome Error bytes :=
  match to_writer value with
  | Some json => Ret (json ++ [LF])
  | None => Fail EncodeFailed
  end.

(** [encode_into] clears the buffer first *)
Definition encode_into (value : T) (line : bytes) : outcome Error bytes :=
  match to_writer value with
  | Some json => Ret ([] ++ json ++ [LF])
  | None => Fail EncodeFailed
  end.

Definition decode (line : bytes) : outcome Error T :=
  match from_slice line with
  | Some value => Ret value
  | None => Fail DecodeFailed
  end.

Definition read (r : JsonLineReader) (stream : list read_result)
    : outcome Error (ReadJsonLine T) * JsonLineReader * list read_result :=
  let '(res, r, stream) := read_line r stream in
  (match res with
   | Ret (Some line) => Value <$> decode line
   | Ret None => Ret Eof
   | Fail e => Fail e
   | Panic => Panic
   | Timeout => Timeout
   end, r, stream).

(** A client's loop: read messages until the end of the stream, an error, or a stream that stays open.
    [fuel] bounds the number of messages. *)
Fixpoint read_messages (fuel : nat) (r : JsonLineReader) (stream : list read_result)
    : list T * outcome Error unit * JsonLineReader :=
  match fuel with
  | O => ([], Timeout, r)
  | S fuel =>
    match read r stream with
    | (Ret (Value value), r, stream) =>
      let '(values, res, r) := read_messages fuel r stream in (value :: values, res, r)
    | (Ret Eof, r, _) => ([], Ret tt, r)
    | (Fail e, r, _) => ([], Fail e, r)
    | (Panic, r, _) => ([], Panic, r)
    | (Timeout, r, _) => ([], Timeout, r)
    end
  end.
End message.

(** ** What a call returns *)

(** The bytes that arrive before the stream ends, fails or stays silent, and what happens then *)
Fixpoint arrived (stream : list read_result) : bytes :=
  match stream with
  | Chunk (b :: buffer) :: stream => (b :: buffer) ++ arrived stream
  | _ => []
  end.
Fixpoint ending (stream : list read_result) : list read_result :=
  match stream with
  | Chunk (_ :: _) :: stream => ending stream
  | _ => stream
  end.

Definition received (stream : list read_result) : bytes :=
  stream ≫= λ r, match r with Chunk buffer => buffer | ReadError => [] end.

(** The next frame of the bytes [data]: up to and including the first newline, or what is left at the end *)
Definition next_frame (max : Z) (data : bytes) (ending : list read_result) : outcome Error (option bytes) :=
  match position is_newline data with
  | Some e => if max <? Z.of_nat e + 1 then Fail (FrameTooLong max) else Ret (Some (take (S e) data))
  | None =>
    if max <? zlen data then Fail (FrameTooLong max)
    else match ending with
         | [] => Timeout
         | ReadError :: _ => Fail ReadFailed
         | Chunk _ :: _ => Ret (match data with [] => None | _ => Some data end)
         end
  end.

Definition line_of (res : outcome Error (option bytes)) : bytes :=
  match res with Ret (Some line) => line | _ => [] end.

(** What a call that returned [res] leaves, [stream'] being the rest of the stream. *)
Definition left_over (r : JsonLineReader) (stream : list read_result) (res : outcome Error (option bytes))
    (r' : JsonLineReader) (stream' : list read_result) : Prop :=
  (max_line_bytes r' = max_line_bytes r ∧ (res = Ret None → pending r' = [])) ∧
  (∃ consumed, stream = consumed ++ stream' ∧ line_of res ++ pending r' = pending r ++ received consumed) ∧
  (is_Some (position is_newline (pending r ++ arrived stream)) →
   ending stream' = ending stream ∧
   line_of res ++ pending r' ++ arrived stream' = pending r ++ arrived stream).

(** One round on the bytes at hand: they decide, or more must be read. *)
Lemma on_hand r rest stream :
  match validate_next_frame_size r with
  | Ret _ =>
    match take_line r with
    | (Some line, r') => next_frame (max_line_bytes r) (pending r ++ rest) stream = Ret (Some line) ∧
        max_line_bytes r' = max_line_bytes r ∧ line ++ pending r' = pending r
    | (None, r') => r' = r ∧ position is_newline (pending r) = None ∧ zlen (pending r) ≤ max_line_bytes r
    end
  | Fail e => next_frame (max_line_bytes r) (pending r ++ rest) stream = Fail e
  | _ => False
  end.
Proof.
  unfold validate_next_frame_size, take_line, next_frame. rewrite position_app.
  destruct (position is_newline (pending r)) as [e|] eqn:He; cbn.
  - destruct (Z.ltb_spec (max_line_bytes r) (Z.of_nat e + 1)); [done|].
    apply position_lt in He. split; [|split; [done|apply take_drop]].
    rewrite take_app_le by lia. done.
  - destruct (Z.ltb_spec (max_line_bytes r) (zlen (pending r))) as [Hlt|Hle]; [|done].
    destruct (position is_newline rest) as [e|]; cbn.
    + destruct (Z.ltb_spec (max_line_bytes r) (Z.of_nat (length (pending r) + e) + 1)); [done|].
      unfold zlen in Hlt. lia.
    + destruct (Z.ltb_spec (max_line_bytes r) (zlen (pending r ++ rest))) as [|Hle]; [done|].
      unfold zlen in *. rewrite length_app in Hle. lia.
Qed.

Lemma read_loop_spec r stream :
  position is_newline (pending r) = None → zlen (pending r) ≤ max_line_bytes r →
  let '(res, r', stream') := read_loop r stream in
  res = next_frame (max_line_bytes r) (pending r ++ arrived stream) (ending stream) ∧
  left_over r stream res r' stream'.
Proof.
  revert r. induction stream as [|[buffer|] stream IH]; intros r Hpos Hlen; cbn [read_loop].
  - cbn [arrived ending]. rewrite app_nil_r. unfold next_frame, left_over. rewrite Hpos. destruct (Z.ltb_spec (max_line_bytes r) (zlen (pending r))); [lia|].
    cbn. rewrite !app_nil_r. split; [done|]. split; [split; [done|try done]|]. split; [exists []; cbn; by rewrite app_nil_r|]. rewrite Hpos. by intros [].
  - destruct buffer as [|b buffer]; cbn [arrived ending].
    + rewrite app_nil_r. pose proof (on_hand r [] [Chunk []]) as Hhand. unfold take_line in Hhand. rewrite Hpos in Hhand.
      unfold left_over. cbn [arrived]. rewrite app_nil_r, Hpos.
      destruct (validate_next_frame_size r) as [[]|e| |] eqn:Hval; try done.
      * unfold next_frame. rewrite Hpos.
        destruct (Z.ltb_spec (max_line_bytes r) (zlen (pending r))) as [|_]; [lia|].
        unfold take_eof. destruct (pending r) as [|p0 p] eqn:Hp.
        -- split; [done|]. split; [split; [done|try done]|]. split; [exists [Chunk []]; split; [done|by rewrite Hp]|by intros []].
        -- split; [done|]. split; [split; [done|try done]|]. split; [exists [Chunk []]; split; [done|]|by intros []].
           cbn. by rewrite !app_nil_r.
      * unfold validate_next_frame_size in Hval. rewrite Hpos in Hval.
        destruct (Z.ltb_spec (max_line_bytes r) (zlen (pending r))); [lia|done].
    + set (r1 := extend (b :: buffer) r).
      pose proof (on_hand r1 (arrived stream) (ending stream)) as Hhand.
      assert (pending r1 ++ arrived stream = pending r ++ (b :: buffer) ++ arrived stream) as Hdata.
      { unfold r1, extend. cbn. by rewrite <-(assoc_L (++)). }
      rewrite Hdata in Hhand. unfold left_over. cbn [arrived]. change (ending (Chunk (b :: buffer) :: stream)) with (ending stream).
      destruct (validate_next_frame_size r1) as [[]|e| |]; try done.
      * destruct (take_line r1) as [[line|] r2].
        -- destruct Hhand as (Hres & Hmax & Hpend). split; [done|]. split; [split; [done|try done]|]. split.
           ++ exists [Chunk (b :: buffer)]. split; [done|]. cbn. rewrite app_nil_r. exact Hpend.
           ++ intros _. split; [done|]. cbn [line_of]. rewrite (assoc_L (++)), Hpend. exact Hdata.
        -- destruct Hhand as (-> & Hpos1 & Hlen1). specialize (IH r1 Hpos1 Hlen1).
           destruct (read_loop r1 stream) as [[res r3] stream3]. rewrite Hdata in IH.
           destruct IH as (Hres & Hmax & (consumed & -> & Hcons) & Hline). split; [done|]. split; [exact Hmax|]. split.
           ++ exists (Chunk (b :: buffer) :: consumed). split; [done|]. rewrite Hcons. unfold r1, extend. cbn.
              by rewrite <-(assoc_L (++)).
           ++ intros Hsome. rewrite Hdata in Hline. by apply Hline.
      * split; [done|]. split; [split; [done|try done]|]. split; [|intros _; split; [done|by rewrite <-Hdata]].
        exists [Chunk (b :: buffer)]. split; [done|]. cbn. by rewrite app_nil_r.
  - cbn [arrived ending]. rewrite app_nil_r. unfold next_frame, left_over. rewrite Hpos.
    destruct (Z.ltb_spec (max_line_bytes r) (zlen (pending r))); [lia|].
    split; [done|]. split; [done|]. cbn [arrived]. rewrite !app_nil_r, Hpos. split; [|by intros []].
    exists [ReadError]. cbn. by rewrite app_nil_r.
Qed.

Lemma read_line_spec r stream :
  let '(res, r', stream') := read_line r stream in
  res = next_frame (max_line_bytes r) (pending r ++ arrived stream) (ending stream) ∧
  left_over r stream res r' stream'.
Proof.
  unfold read_line. pose proof (on_hand r (arrived stream) (ending stream)) as Hhand.
  destruct (validate_next_frame_size r) as [[]|e| |]; try done.
  - destruct (take_line r) as [[line|] r2].
    + destruct Hhand as (-> & Hmax & Hpend). split; [done|]. split; [split; [done|try done]|]. split.
      * exists []. split; [done|]. cbn. by rewrite app_nil_r.
      * intros _. split; [done|]. cbn. by rewrite (assoc_L (++)), Hpend.
    + destruct Hhand as (-> & Hpos & Hlen). by apply read_loop_spec.
  - split; [done|]. split; [split; [done|try done]|]. split; [exists []; cbn; by rewrite app_nil_r|]. done.
Qed.

(** [read_line] returns the next frame of the bytes it holds and the stream still yields, the same
    however the stream cuts them: a line that fits the limit, what is left at the end, or an error when
    the frame is above the limit.  Whatever it returns, and also when it is dropped while it waits, it
    has neither lost nor invented a byte of what it took from the stream. *)
Theorem read_line_exact r stream :
  let '(res, r', stream') := read_line r stream in
  res = next_frame (max_line_bytes r) (pending r ++ arrived stream) (ending stream) ∧
  max_line_bytes r' = max_line_bytes r ∧
  ∃ consumed, stream = consumed ++ stream' ∧ line_of res ++ pending r' = pending r ++ received consumed.
Proof.
  pose proof (read_line_spec r stream) as Hspec. destruct (read_line r stream) as [[res r'] stream'].
  destruct Hspec as (Hres & [Hmax _] & Hcons & _). done.
Qed.

Lemma position_line json rest : LF ∉ json → position is_newline ((json ++ [LF]) ++ rest) = Some (length json).
Proof.
  intros Hnot. rewrite <-(assoc_L (++)), position_app. destruct (position is_newline json) as [e|] eqn:He.
  - apply position_spec in He as (x & Hx & Hlf & _). apply Z.eqb_eq in Hlf. subst.
    destruct Hnot. by eapply list_elem_of_lookup_2.
  - cbn. by rewrite Nat.add_0_r.
Qed.

(** C39: The messages of a stream of encoded lines are read back in order, whatever the chunks the stream
    yields, when each line fits the limit.  Of [serde_json] it needs that compact JSON holds no newline
    and that parsing ignores one at the end. *)
Theorem jsonl_roundtrip {T} (to_writer : T → option bytes) (from_slice : bytes → option T) max values lines stream fuel :
  (∀ v json, to_writer v = Some json → (LF ∉ json) ∧ from_slice (json ++ [LF]) = Some v) →
  0 ≤ max → Forall2 (λ v line, encode to_writer v = Ret line ∧ zlen line ≤ max) values lines →
  arrived stream = concat lines → head (ending stream) = Some (Chunk []) → (length values < fuel)%nat →
  read_messages from_slice fuel (reader_new max) stream = (values, Ret tt, reader_new max).
Proof.
  intros Hserde Hpos Hlines Harrived Hend Hfuel.
  assert (pending (reader_new max) ++ arrived stream = concat lines) as Hdata by exact Harrived.
  assert (max_line_bytes (reader_new max) = max) as Hmax by done.
  cut (∃ r', read_messages from_slice fuel (reader_new max) stream = (values, Ret tt, r') ∧
    pending r' = [] ∧ max_line_bytes r' = max).
  { intros ([p m] & -> & Hp & Hm). cbn in *. by subst. }
  clear Harrived. revert stream fuel Hend Hfuel Hdata Hmax. generalize (reader_new max) as r.
  induction Hlines as [|v line values lines (Henc & Hlen) _ IH]; intros r stream [|fuel] Hend Hfuel Hdata Hmax;
    try (cbn in Hfuel; lia); cbn [read_messages]; unfold read;
    pose proof (read_line_spec r stream) as Hspec; destruct (read_line r stream) as [[res r'] stream'];
    destruct Hspec as (-> & [Hmax' Hnone] & _ & Hline); rewrite Hmax, Hdata in *.
  - unfold next_frame in *. cbn [concat position] in *.
    destruct (Z.ltb_spec max (zlen (@nil Z))) as [Hneg|_]; [unfold zlen in Hneg; cbn in Hneg; lia|].
    destruct (ending stream) as [|[b|] rest]; simplify_eq/=. exists r'. split; [done|]. split; [|done]. by apply Hnone.
  - unfold encode in Henc. destruct (to_writer v) as [json|] eqn:Hjson; [|done]. injection Henc as <-.
    destruct (Hserde v json Hjson) as [Hlf Hdec].
    cbn [concat] in *. unfold next_frame in *. rewrite position_line in * by done.
    rewrite (proj2 (Z.ltb_ge _ _)) in * by (unfold zlen in Hlen; rewrite length_app in Hlen; cbn in Hlen; lia).
    rewrite take_app_length' in * by (rewrite length_app; cbn; lia).
    destruct (Hline ltac:(done)) as [Hend' Hrest]. cbn [line_of] in Hrest. apply app_inv_head in Hrest.
    unfold decode. rewrite Hdec. cbn.
    destruct (IH r' stream' fuel) as (r'' & -> & ? & ?); [by rewrite Hend'|cbn in Hfuel; lia|done|by rewrite Hmax'|].
    by exists r''.
Qed.

(** A codec on byte strings without newlines, and three ways to cut the same stream *)
Definition plain_to_writer (v : bytes) : option bytes := if bool_decide (LF ∈ v) then None else Some v.
Definition plain_from_slice (line : bytes) : option bytes := Some (take (length line - 1) line).

Lemma jsonl_roundtrip_witness :
  read_messages plain_from_slice 3 (reader_new 4) [Chunk (bytes_of "ab"); Chunk [LF; 99]; Chunk [100; 101; LF]; Chunk []] =
    ([bytes_of "ab"; bytes_of "cde"], Ret tt, reader_new 4).
Proof.
  apply (jsonl_roundtrip plain_to_writer plain_from_slice 4 [bytes_of "ab"; bytes_of "cde"]
    [bytes_of "ab" ++ [LF]; bytes_of "cde" ++ [LF]]).
  - intros v json. unfold plain_to_writer, plain_from_slice. case_bool_decide as Hin; [done|]. intros [= <-].
    split; [done|]. rewrite length_app, take_app_length' by (cbn; lia). done.
  - lia.
  - repeat constructor; vm_compute; congruence.
  - reflexivity.
  - reflexivity.
  - cbn. lia.
Defined.
