(* ===== verification/Ordered.v ===== *)
(** * Rust's ordered collections and finite dependency graphs

    [BTreeMap<String, V>] and [BTreeSet<String>] as stdpp's [gmap] and [gset]
    over strings with the enumeration their iterators give (by key, the order
    of [String]: bytewise, which is the order of the code points), and the
    facts on finite relations the bootstrap graphs share. *)
From S2P Require Import Prelude Text.
From stdpp Require Export sorting relations.
Local Open Scope Z_scope.

(** ** The order of [String] *)
Fixpoint str_leb (a b : str) : bool :=
  match a, b with
  | [], _ => true
  | _ :: _, [] => false
  | x :: a, y :: b => (x <? y) || ((x =? y) && str_leb a b)
  end.

Definition str_le (a b : str) : Prop := str_leb a b = true.

#[export] Instance str_le_dec : RelDecision str_le.
Proof. intros a b. unfold str_le. apply _. Defined.

Lemma str_le_cons x y a b : str_le (x :: a) (y :: b) ↔ x < y ∨ (x = y ∧ str_le a b).
Proof.
  unfold str_le. cbn. rewrite orb_true_iff, andb_true_iff, Z.ltb_lt, Z.eqb_eq. done.
Qed.

#[export] Instance str_le_total : Total str_le.
Proof.
  intros a. induction a as [|x a IH]; intros [|y b]; [by left|by left|by right|].
  rewrite !str_le_cons. destruct (Z.lt_trichotomy x y) as [|[->|]]; [by auto| |by auto].
  destruct (IH b); auto.
Qed.

#[export] Instance str_le_trans : Transitive str_le.
Proof.
  intros a. induction a as [|x a IH]; intros [|y b] [|z c]; try done.
  rewrite !str_le_cons. intros [?|[-> ?]] [?|[-> ?]]; [lia|lia|lia|]. right. eauto.
Qed.

Lemma str_le_antisymm a b : str_le a b → str_le b a → a = b.
Proof.
  revert b. induction a as [|x a IH]; intros [|y b]; try done.
  rewrite !str_le_cons. intros [?|[-> ?]] [?|[? ?]]; [lia|lia|lia|]. f_equal. eauto.
Qed.

#[export] Instance str_le_anti_symm : AntiSymm (=) str_le.
Proof. intros a b. apply str_le_antisymm. Qed.

(** ** [BTreeSet<String>] *)

(** [set.iter()] *)
Definition set_sorted (s : gset str) : list str := merge_sort str_le (elements s).

(** [set.first()] *)
Definition set_first (s : gset str) : option str := head (set_sorted s).

Lemma elem_of_set_sorted s x : x ∈ set_sorted s ↔ x ∈ s.
Proof. unfold set_sorted. by rewrite merge_sort_Permutation, elem_of_elements. Qed.

Lemma set_first_some s x : set_first s = Some x → x ∈ s ∧ ∀ y, y ∈ s → str_le x y.
Proof.
  unfold set_first. intros Hx.
  pose proof (StronglySorted_merge_sort str_le (elements s)) as Hsorted.
  assert (Hin : ∀ y, y ∈ s ↔ y ∈ merge_sort str_le (elements s)).
  { intros y. by rewrite <-elem_of_set_sorted. }
  unfold set_sorted in Hx. destruct (merge_sort str_le (elements s)) as [|z l]; simplify_eq/=.
  inversion_clear Hsorted as [|? ? _ Hall]. rewrite Forall_forall in Hall. split.
  - apply Hin. left.
  - intros y Hy%Hin. apply elem_of_cons in Hy as [->|Hy]; [|by apply Hall].
    destruct (total str_le x x); done.
Qed.

Lemma set_first_none s : set_first s = None → s = ∅.
Proof.
  unfold set_first. intros Hnone. apply set_eq. intros x. rewrite <-elem_of_set_sorted.
  destruct (set_sorted s); [|done]. set_solver.
Qed.

(** ** [BTreeMap<String, V>] *)
Section map.
Context {V : Type}.

Definition key_le (a b : str * V) : Prop := str_le a.1 b.1.

#[export] Instance key_le_dec : RelDecision key_le.
Proof. intros a b. unfold key_le. apply _. Defined.

(** [map.iter()] and [map.values()] *)
Definition map_sorted (m : gmap str V) : list (str * V) := merge_sort key_le (map_to_list m).
Definition map_values (m : gmap str V) : list V := snd <$> map_sorted m.

Lemma elem_of_map_sorted m k v : (k, v) ∈ map_sorted m ↔ m !! k = Some v.
Proof. unfold map_sorted. by rewrite merge_sort_Permutation, elem_of_map_to_list. Qed.

Lemma elem_of_map_values m v : v ∈ map_values m ↔ ∃ k, m !! k = Some v.
Proof.
  unfold map_values. rewrite list_elem_of_fmap. split.
  - intros ([k w] & -> & Hin%elem_of_map_sorted). by exists k.
  - intros (k & Hk%elem_of_map_sorted). by exists (k, v).
Qed.

#[export] Instance key_le_total : Total key_le.
Proof. intros a b. apply str_le_total. Qed.

#[export] Instance key_le_trans : Transitive key_le.
Proof. intros a b c. apply str_le_trans. Qed.

Lemma map_sorted_keys_sorted m : StronglySorted str_le (fst <$> map_sorted m).
Proof.
  unfold map_sorted. pose proof (StronglySorted_merge_sort key_le (map_to_list m)) as Hsorted.
  induction Hsorted as [|x l Hl IH Hx]; [constructor|]. rewrite fmap_cons. constructor; [done|]. by apply Forall_fmap.
Qed.
End map.

(** Iterating over two maps with the same keys goes through them together. *)
Lemma map_sorted_Forall2 {V W : Type} (R : V → W → Prop) (m1 : gmap str V) (m2 : gmap str W) :
  map_relation (λ _, R) (λ _ _, False) (λ _ _, False) m1 m2 → Forall2 R (map_values m1) (map_values m2).
Proof.
  intros Hm. assert (fst <$> map_sorted m1 = fst <$> map_sorted m2) as Hkeys.
  { apply (StronglySorted_unique str_le); [apply map_sorted_keys_sorted..|].
    unfold map_sorted. rewrite !merge_sort_Permutation. apply NoDup_Permutation; [apply NoDup_fst_map_to_list..|].
    intros k. rewrite !list_elem_of_fmap. specialize (Hm k).
    split; intros ([k' v] & -> & Hk%elem_of_map_to_list); cbn [fst] in *; rewrite Hk in Hm.
    - destruct (m2 !! k') as [w|] eqn:Hw; [|done]. exists (k', w). by rewrite elem_of_map_to_list.
    - destruct (m1 !! k') as [w|] eqn:Hw; [|done]. exists (k', w). by rewrite elem_of_map_to_list. }
  unfold map_values.
  assert (∀ k v, (k, v) ∈ map_sorted m1 → m1 !! k = Some v) as H1 by (intros; by apply elem_of_map_sorted).
  assert (∀ k v, (k, v) ∈ map_sorted m2 → m2 !! k = Some v) as H2 by (intros; by apply elem_of_map_sorted).
  revert Hkeys H1 H2. generalize (map_sorted m1), (map_sorted m2). intros l1.
  induction l1 as [|[k v] l1 IH]; intros [|[k' w] l2] Hkeys H1 H2; simplify_eq/=; constructor.
  - specialize (Hm k'). by rewrite (H1 k' v), (H2 k' w) in Hm by left.
  - apply IH; [done|intros; apply H1; by right|intros; apply H2; by right].
Qed.

(** ** [BTreeMap] over integers: [map.keys()] and [map.iter()] *)
Definition keys_sorted {V} (m : gmap Z V) : list Z := merge_sort Z.le (elements (dom m)).
Definition entries_sorted {V} (m : gmap Z V) : list (Z * V) :=
  omap (λ k, pair k <$> m !! k) (keys_sorted m).

Lemma elem_of_keys_sorted {V} (m : gmap Z V) k : k ∈ keys_sorted m ↔ is_Some (m !! k).
Proof. unfold keys_sorted. by rewrite merge_sort_Permutation, elem_of_elements, elem_of_dom. Qed.

Lemma NoDup_keys_sorted {V} (m : gmap Z V) : NoDup (keys_sorted m).
Proof. unfold keys_sorted. rewrite merge_sort_Permutation. apply NoDup_elements. Qed.

Lemma elem_of_entries_sorted {V} (m : gmap Z V) k v : (k, v) ∈ entries_sorted m ↔ m !! k = Some v.
Proof.
  unfold entries_sorted. rewrite list_elem_of_omap. split.
  - intros (k' & _ & Hv). destruct (m !! k') eqn:Hk; by simplify_eq/=.
  - intros Hk. exists k. split; [apply elem_of_keys_sorted; eauto|]. by rewrite Hk.
Qed.

Lemma NoDup_entries_sorted {V} (m : gmap Z V) : NoDup (entries_sorted m).
Proof.
  apply (NoDup_fmap_1 fst). assert (Hkeys : (entries_sorted m).*1 = keys_sorted m); [|rewrite Hkeys; apply NoDup_keys_sorted].
  unfold entries_sorted. assert (Hin : Forall (λ k, is_Some (m !! k)) (keys_sorted m)).
  { apply Forall_forall. intros k. by rewrite elem_of_keys_sorted. }
  induction Hin as [|k ks [v Hk] _ IH]; [done|]. cbn. rewrite Hk. cbn. by rewrite IH.
Qed.

(** The entries that satisfy a predicate, counted in the list or in the map *)
Lemma length_filter_entries {V} (p : V → bool) (m : gmap Z V) :
  length (filter (λ v, p v = true) (entries_sorted m).*2) = size (filter (λ e, p e.2 = true) m).
Proof.
  rewrite <-length_map_to_list.
  assert (Hperm : map_to_list (filter (λ e, p e.2 = true) m) ≡ₚ filter (λ e, p e.2 = true) (entries_sorted m)).
  { apply NoDup_Permutation; [apply NoDup_map_to_list|apply NoDup_filter, NoDup_entries_sorted|]. intros [k v].
    rewrite elem_of_map_to_list, map_lookup_filter_Some, list_elem_of_filter, elem_of_entries_sorted. apply (comm and). }
  rewrite Hperm. clear Hperm. induction (entries_sorted m) as [|[k v] l IH]; [done|]. cbn [fmap list_fmap].
  rewrite !filter_cons. cbn [snd]. case_decide; cbn; by rewrite IH.
Qed.

(** ** [Iterator::find] *)
Definition find_first {A} (p : A → bool) (l : list A) : option A :=
  find_map (λ x, if p x then Some x else None) l.

Lemma find_first_some {A} (p : A → bool) l x : find_first p l = Some x → x ∈ l ∧ p x = true.
Proof.
  unfold find_first. induction l as [|y l IH]; cbn; [done|].
  destruct (p y) eqn:Hy; [intros; simplify_eq; split; [left|done]|].
  intros (? & ?)%IH. split; [by right|done].
Qed.

Lemma find_first_none {A} (p : A → bool) l : find_first p l = None ↔ ∀ x, x ∈ l → p x = false.
Proof.
  unfold find_first. induction l as [|y l IH]; cbn; [set_solver|].
  destruct (p y) eqn:Hy; [|rewrite IH; set_solver].
  split; [done|]. intros H. specialize (H y ltac:(left)). congruence.
Qed.

(** ** Finite relations *)
Section relation.
Context {A : Type} `{!EqDecision A} (R : relation A).

(** In a finite set where every element has a successor there is a cycle. *)
Lemma endless_path (U p : list A) x n :
  (∀ y, y ∈ U → ∃ z, z ∈ U ∧ R y z) →
  NoDup (x :: p) → (x :: p) ⊆ U → (∀ z, z ∈ p → tc R z x) → (length U < length p + n)%nat →
  ∃ z, z ∈ U ∧ tc R z z.
Proof.
  intros Hsucc. revert x p. induction n as [|n IH]; intros x p Hnd Hsub Hp Hlen.
  { pose proof (NoDup_submseteq _ _ Hnd Hsub) as Hle%submseteq_length. cbn in Hle. lia. }
  destruct (Hsucc x) as (y & Hy & Hxy); [apply Hsub; left|].
  destruct (decide (y = x)) as [->|Hne].
  { exists x. split; [done|]. by apply tc_once. }
  destruct (decide (y ∈ p)) as [Hyp|Hyp].
  { exists y. split; [done|]. apply tc_r with x; auto. }
  apply (IH y (x :: p)).
  - constructor; [|done]. set_solver.
  - set_solver.
  - intros z [->|Hz]%elem_of_cons; [by apply tc_once|]. apply tc_r with x; auto.
  - cbn. lia.
Qed.

Lemma endless_cycle (U : list A) :
  U ≠ [] → (∀ y, y ∈ U → ∃ z, z ∈ U ∧ R y z) → ∃ z, z ∈ U ∧ tc R z z.
Proof.
  intros Hne Hsucc. destruct U as [|x U]; [done|].
  apply (endless_path (x :: U) [] x (2 + length U)); cbn; [done| | | |lia].
  - apply NoDup_singleton.
  - set_solver.
  - set_solver.
Qed.

(** A set closed under the relation keeps its paths inside. *)
Lemma tc_closed (P : A → Prop) x y :
  (∀ x y, P x → R x y → P y) → P x → tc R x y → P y.
Proof. intros Hclosed Hx. induction 1; eauto. Qed.

Lemma tc_mono (R' : relation A) x y : (∀ x y, R x y → R' x y) → tc R x y → tc R' x y.
Proof.
  intros Hsub. induction 1 as [a b Hab|a b c Hab _ IH]; [by apply tc_once, Hsub|].
  apply tc_l with b; [by apply Hsub|done].
Qed.

(** An element added after all its successors closes no cycle. *)
Lemma acyclic_extend (P : A → Prop) x :
  (∀ a b, P a → R a b → P b) → (∀ a, P a → ¬ tc R a a) → ¬ P x → (∀ b, R x b → P b) →
  ∀ a, P a ∨ a = x → ¬ tc R a a.
Proof.
  intros Hclosed Hac Hx Hsucc a [Ha| ->]; [by apply Hac|]. intros Htc.
  apply Hx. inversion Htc as [? ? Hstep|? y ? Hstep Hrest]; subst; [by apply Hsucc|].
  apply (tc_closed P y x); eauto.
Qed.
End relation.
