(* ===== verification/BootPlan.v ===== *)
(** * The bootstrap plan (src/core/agentdp-protocol/src/server_guest/message.rs)

    The steps the server renders and the guest runs, and what makes the
    dependency graph of a plan runnable. *)
From S2P Require Import Prelude Text Ordered.

Inductive BootstrapStepPhase := System | User.

Inductive BootstrapStepResource :=
| AgentHome | CodeDir | GuestTooling | Mise | NpmGlobal | PackageManager | Systemd | UserDb.

#[export] Instance phase_eq_dec : EqDecision BootstrapStepPhase.
Proof. solve_decision. Defined.
#[export] Instance resource_eq_dec : EqDecision BootstrapStepResource.
Proof. solve_decision. Defined.

Record BootstrapStep := {
  st_id : str;
  st_label : str;
  st_phase : BootstrapStepPhase;
  st_depends_on : list str;
  st_resources : list BootstrapStepResource;
  st_script : str;
  st_working_directory : str;
  st_timeout_seconds : Z;
}.

#[export] Instance step_eq_dec : EqDecision BootstrapStep.
Proof. solve_decision. Defined.

Record BootstrapPlan := {
  bp_plan_version : Z;
  bp_user : str;
  bp_home : str;
  bp_code_dir : str;
  bp_steps : list BootstrapStep;
}.

Definition step_ids (steps : list BootstrapStep) : list str := st_id <$> steps.

(** ** Runnable graphs *)

(** The step called [a] depends on [b]. *)
Definition depends (steps : list BootstrapStep) (a b : str) : Prop :=
  ∃ s, s ∈ steps ∧ st_id s = a ∧ b ∈ st_depends_on s.

Record valid_graph (steps : list BootstrapStep) : Prop := {
  vg_unique : NoDup (step_ids steps);
  vg_known : ∀ a b, depends steps a b → b ∈ step_ids steps;
  vg_phase : ∀ s t, s ∈ steps → t ∈ steps → st_phase s = System → st_id t ∈ st_depends_on s →
             st_phase t = System;
  vg_acyclic : ∀ a, ¬ tc (depends steps) a a;
}.

(** Every step of [l] comes after the steps it depends on. *)
Definition dependencies_first (l : list BootstrapStep) : Prop :=
  ∀ before s after, l = before ++ s :: after → st_depends_on s ⊆ step_ids before.

Lemma elem_of_step_ids steps x : x ∈ step_ids steps ↔ ∃ s, s ∈ steps ∧ st_id s = x.
Proof. unfold step_ids. rewrite list_elem_of_fmap. naive_solver. Qed.

Lemma step_unique steps s t :
  NoDup (step_ids steps) → s ∈ steps → t ∈ steps → st_id s = st_id t → s = t.
Proof.
  unfold step_ids. intros Hnd Hs Ht Heq.
  apply list_elem_of_lookup in Hs as [i Hi]. apply list_elem_of_lookup in Ht as [j Hj].
  assert (i = j) as ->; [|congruence].
  apply (NoDup_lookup _ i j (st_id s) Hnd); rewrite list_lookup_fmap; [by rewrite Hi|].
  by rewrite Hj, Heq.
Qed.

Lemma dependencies_first_nil : dependencies_first [].
Proof. intros before s after Heq. by destruct before. Qed.

Lemma dependencies_first_snoc l s :
  dependencies_first l → st_depends_on s ⊆ step_ids l → dependencies_first (l ++ [s]).
Proof.
  intros Hl Hs before t after Heq. destruct after as [|u after _] using rev_ind.
  - apply app_inj_tail in Heq as [-> ->]. done.
  - rewrite app_comm_cons, app_assoc in Heq. apply app_inj_tail in Heq as [-> _].
    by eapply Hl.
Qed.

(** An order that puts dependencies first has room for no cycle. *)
Lemma dependencies_first_acyclic steps l :
  NoDup (step_ids l) → l ≡ₚ steps → dependencies_first l → ∀ a, ¬ tc (depends steps) a a.
Proof.
  intros Hnd Hperm Hl.
  assert (Hgen : ∀ n a, a ∈ step_ids (take n l) → ¬ tc (depends steps) a a).
  { induction n as [|n IH]; [cbn; set_solver|]. intros a Ha.
    destruct (l !! n) as [s|] eqn:Hs; [|by apply IH; rewrite take_ge in Ha |- *;
      apply lookup_ge_None in Hs; try lia].
    rewrite (take_S_r _ _ _ Hs) in Ha. unfold step_ids in Ha. rewrite fmap_app in Ha.
    assert (Hdep : ∀ before t after b, l = before ++ t :: after → depends steps (st_id t) b →
              b ∈ step_ids before).
    { intros before t after b Heq (t' & Ht' & Hid & Hb). rewrite <-Hperm in Ht'.
      assert (t' = t) as -> by (eapply step_unique; eauto; rewrite Heq; set_solver).
      by eapply Hl. }
    apply (acyclic_extend _ (λ x, x ∈ step_ids (take n l)) (st_id s)).
    - intros x y Hx Hxy. apply elem_of_step_ids in Hx as (t & Ht & <-).
      apply list_elem_of_split in Ht as (l1 & l2 & Ht).
      pose proof (take_drop n l) as Htd. rewrite Ht, <-(assoc_L (++)) in Htd. cbn in Htd.
      rewrite Ht. unfold step_ids. rewrite fmap_app, elem_of_app. left.
      by apply (Hdep l1 t (l2 ++ drop n l)).
    - intros x Hx. by apply IH.
    - intros Hin. apply elem_of_step_ids in Hin as (t & Ht & Hid).
      pose proof (take_drop_middle l n s Hs) as Hl'. rewrite <-Hl' in Hnd.
      unfold step_ids in Hnd. rewrite fmap_app, NoDup_app in Hnd. destruct Hnd as (_ & Hnd & _).
      apply (Hnd (st_id s)); [|left]. rewrite <-Hid. by apply list_elem_of_fmap_2.
    - intros b Hb. eapply Hdep; [|done]. symmetry. by apply take_drop_middle.
    - unfold step_ids. set_solver. }
  intros a Hac. assert (a ∈ step_ids steps) as Ha.
  { inversion Hac as [? ? (s & ? & ? & _)|? ? ? (s & ? & ? & _)]; subst; apply elem_of_step_ids; eauto. }
  apply (Hgen (length l) a); [|done]. rewrite firstn_all. apply elem_of_step_ids in Ha as (s & Hs & <-).
  apply elem_of_step_ids. exists s. by rewrite Hperm.
Qed.
