(* ===== verification/BootSchedule.v ===== *)
(** * The guest's bootstrap scheduler
      (src/apps/agentdp-guest/src/system/bootstrap/scheduler.rs)

    [ordered_steps] is Kahn's algorithm with two ready sets, so that the steps
    of the system phase come before those of the user phase.  The scheduler
    walks that order and starts a step when its dependencies have passed and
    no running step holds one of its resources. *)
From S2P Require Import Prelude Text Ordered BootPlan.

(** The messages of [ordered_steps]; [Disappeared] are the three of look-ups that cannot fail. *)
Inductive OrderError :=
| DuplicateStep (step : str)
| UnknownDependency (step dependency : str)
| SystemDependsOnUser (step dependency : str)
| Disappeared (step : str)
| DependencyCycle.

(** [for step in &plan.steps { steps_by_id.insert(..) }] *)
Fixpoint index_steps (steps : list BootstrapStep) (steps_by_id : gmap str BootstrapStep)
    : outcome OrderError (gmap str BootstrapStep) :=
  match steps with
  | [] => Ret steps_by_id
  | step :: steps =>
    match steps_by_id !! st_id step with
    | Some _ => Fail (DuplicateStep (st_id step))
    | None => index_steps steps (<[st_id step := step]> steps_by_id)
    end
  end.

(** [for dependency in &step.depends_on] *)
Fixpoint link_dependencies (steps_by_id : gmap str BootstrapStep) (step : BootstrapStep) (depends_on : list str)
    (dependents : gmap str (list str)) : outcome OrderError (gmap str (list str)) :=
  match depends_on with
  | [] => Ret dependents
  | dependency :: depends_on =>
    match steps_by_id !! dependency with
    | None => Fail (UnknownDependency (st_id step) dependency)
    | Some dependency_step =>
      if bool_decide (st_phase step = System) && bool_decide (st_phase dependency_step = User)
      then Fail (SystemDependsOnUser (st_id step) dependency)
      else link_dependencies steps_by_id step depends_on
             (<[dependency := from_option id [] (dependents !! dependency) ++ [st_id step]]> dependents)
    end
  end.

(** The second [for step in &plan.steps] *)
Fixpoint link_steps (steps_by_id : gmap str BootstrapStep) (steps : list BootstrapStep)
    (dependents : gmap str (list str)) (remaining_dependencies : gmap str nat)
    : outcome OrderError (gmap str (list str) * gmap str nat) :=
  match steps with
  | [] => Ret (dependents, remaining_dependencies)
  | step :: steps =>
    dependents ← link_dependencies steps_by_id step (st_depends_on step) dependents;
    link_steps steps_by_id steps dependents
      (<[st_id step := length (st_depends_on step)]> remaining_dependencies)
  end.

(** [ready_system] and [ready_user] *)
Abbreviation ready_sets := (gset str * gset str)%type.

Definition ready_insert (step : BootstrapStep) (ready : ready_sets) : ready_sets :=
  match st_phase step with
  | System => ({[st_id step]} ∪ ready.1, ready.2)
  | User => (ready.1, {[st_id step]} ∪ ready.2)
  end.

Definition pop_first (values : gset str) : option (str * gset str) :=
  value ← set_first values; Some (value, values ∖ {[value]}).

Definition pop_next_ready (ready : ready_sets) : option (str * ready_sets) :=
  match pop_first ready.1 with
  | Some (value, rest) => Some (value, (rest, ready.2))
  | None =>
    match pop_first ready.2 with
    | Some (value, rest) => Some (value, (ready.1, rest))
    | None => None
    end
  end.

(** The third [for step in &plan.steps] *)
Fixpoint initial_ready (steps : list BootstrapStep) (ready : ready_sets) : ready_sets :=
  match steps with
  | [] => ready
  | step :: steps =>
    initial_ready steps (match st_depends_on step with [] => ready_insert step ready | _ :: _ => ready end)
  end.

(** [for dependent in dependents.get(&step_id).into_iter().flatten()] *)
Fixpoint release (steps_by_id : gmap str BootstrapStep) (dependents : list str) (remaining : gmap str nat)
    (ready : ready_sets) : outcome OrderError (gmap str nat * ready_sets) :=
  match dependents with
  | [] => Ret (remaining, ready)
  | dependent :: dependents =>
    match remaining !! dependent with
    | None => Fail (Disappeared dependent)
    | Some count =>
      let count := (count - 1)%nat in
      let remaining := <[dependent := count]> remaining in
      if (count =? 0)%nat then
        match steps_by_id !! dependent with
        | None => Fail (Disappeared dependent)
        | Some step => release steps_by_id dependents remaining (ready_insert step ready)
        end
      else release steps_by_id dependents remaining ready
    end
  end.

(** [while let Some(step_id) = pop_next_ready(..)] *)
Fixpoint order_loop (fuel : nat) (steps_by_id : gmap str BootstrapStep) (dependents : gmap str (list str))
    (remaining : gmap str nat) (ready : ready_sets) (ordered : list BootstrapStep)
    : outcome OrderError (list BootstrapStep) :=
  match pop_next_ready ready with
  | None => Ret ordered
  | Some (step_id, ready) =>
    match fuel with
    | O => Timeout
    | S fuel =>
      match steps_by_id !! step_id with
      | None => Fail (Disappeared step_id)
      | Some step =>
        '(remaining, ready) ← release steps_by_id (from_option id [] (dependents !! step_id)) remaining ready;
        order_loop fuel steps_by_id dependents remaining ready (ordered ++ [step])
      end
    end
  end.

(** Every step is popped once, so the loop makes one round per step. *)
Definition ordered_steps (steps : list BootstrapStep) : outcome OrderError (list BootstrapStep) :=
  steps_by_id ← index_steps steps ∅;
  '(dependents, remaining_dependencies) ← link_steps steps_by_id steps ∅ ∅;
  ordered ← order_loop (length steps) steps_by_id dependents remaining_dependencies
              (initial_ready steps (∅, ∅)) [];
  if (length ordered =? length steps)%nat then Ret ordered else Fail DependencyCycle.

(** ** The scheduler *)
Record BootstrapScheduler := {
  sc_steps : list BootstrapStep;
  sc_running : gset str;
  sc_max_parallelism : nat;
  sc_stopping : bool;
}.

(** [bootstrap_parallelism()] is the number the operating system gives, at least one. *)
Definition scheduler_new (max_parallelism : nat) (plan : BootstrapPlan) : outcome OrderError BootstrapScheduler :=
  steps ← ordered_steps (bp_steps plan);
  Ret {| sc_steps := steps; sc_running := ∅; sc_max_parallelism := max_parallelism; sc_stopping := false |}.

Definition can_start (s : BootstrapScheduler) : bool :=
  negb (sc_stopping s) && (size (sc_running s) <? sc_max_parallelism s)%nat.

Definition mark_running (step : BootstrapStep) (s : BootstrapScheduler) : BootstrapScheduler :=
  {| sc_steps := sc_steps s; sc_running := {[st_id step]} ∪ sc_running s;
     sc_max_parallelism := sc_max_parallelism s; sc_stopping := sc_stopping s |}.

Definition mark_finished (step : BootstrapStep) (s : BootstrapScheduler) : BootstrapScheduler :=
  {| sc_steps := sc_steps s; sc_running := sc_running s ∖ {[st_id step]};
     sc_max_parallelism := sc_max_parallelism s; sc_stopping := sc_stopping s |}.

Definition stop (s : BootstrapScheduler) : BootstrapScheduler :=
  {| sc_steps := sc_steps s; sc_running := sc_running s;
     sc_max_parallelism := sc_max_parallelism s; sc_stopping := true |}.

Definition is_drained (s : BootstrapScheduler) : bool := bool_decide (sc_running s = ∅).
Definition is_stopping (s : BootstrapScheduler) : bool := sc_stopping s.

(** The state of the steps is read through [step_passed] alone. *)
Definition dependencies_passed (step_passed : str → bool) (step : BootstrapStep) : bool :=
  forallb step_passed (st_depends_on step).

Definition phase_ready (step_passed : str → bool) (s : BootstrapScheduler) (step : BootstrapStep) : bool :=
  bool_decide (st_phase step = System) ||
  forallb (λ candidate, step_passed (st_id candidate))
    (filter (λ candidate, st_phase candidate = System) (sc_steps s)).

Definition resources_available (s : BootstrapScheduler) (step : BootstrapStep) : bool :=
  match st_resources step with
  | [] => true
  | _ :: _ =>
    negb (existsb (λ candidate, existsb (λ resource, bool_decide (resource ∈ st_resources step)) (st_resources candidate))
            (filter (λ candidate, st_id candidate ∈ sc_running s) (sc_steps s)))
  end.

Definition step_ready (step_passed : str → bool) (s : BootstrapScheduler) (step : BootstrapStep) : bool :=
  negb (step_passed (st_id step)) && negb (bool_decide (st_id step ∈ sc_running s)) &&
  phase_ready step_passed s step && dependencies_passed step_passed step && resources_available s step.

Definition next_ready (step_passed : str → bool) (s : BootstrapScheduler) : option BootstrapStep :=
  find_first (step_ready step_passed s) (sc_steps s).

(** ** Indexing and linking *)
Definition occurrences (x : str) (l : list str) : nat := length (filter (λ y, y = x) l).

(** The dependencies of [s] that are not in [P]. *)
Definition missing (P : list str) (s : BootstrapStep) : list str := filter (λ d, d ∉ P) (st_depends_on s).

Definition indexes (steps : list BootstrapStep) (m : gmap str BootstrapStep) : Prop :=
  ∀ k s, m !! k = Some s ↔ s ∈ steps ∧ st_id s = k.

Lemma occurrences_app x l1 l2 : occurrences x (l1 ++ l2) = (occurrences x l1 + occurrences x l2)%nat.
Proof. unfold occurrences. by rewrite filter_app, length_app. Qed.

Lemma occurrences_cons x y l : occurrences x (y :: l) = ((if decide (y = x) then 1 else 0) + occurrences x l)%nat.
Proof. unfold occurrences. rewrite filter_cons. by destruct (decide (y = x)). Qed.

Lemma occurrences_positive x l : (0 < occurrences x l)%nat ↔ x ∈ l.
Proof.
  induction l as [|y l IH]; [cbn; set_solver by lia|]. rewrite occurrences_cons, elem_of_cons, <-IH.
  destruct (decide (y = x)); naive_solver lia.
Qed.

Lemma index_steps_spec steps pre m :
  indexes pre m → NoDup (step_ids pre) →
  match index_steps steps m with
  | Ret m' => indexes (pre ++ steps) m' ∧ NoDup (step_ids (pre ++ steps))
  | Fail (DuplicateStep x) => (1 < occurrences x (step_ids (pre ++ steps)))%nat
  | _ => False
  end.
Proof.
  revert pre m. induction steps as [|s steps IH]; intros pre m Hm Hnd; cbn [index_steps].
  { by rewrite app_nil_r. }
  destruct (m !! st_id s) as [t|] eqn:Ht.
  - apply Hm in Ht as (Ht & Hid). unfold step_ids. rewrite fmap_app, fmap_cons, occurrences_app, occurrences_cons, decide_True by done.
    assert (0 < occurrences (st_id s) (st_id <$> pre))%nat; [|lia].
    apply occurrences_positive. rewrite <-Hid. by apply list_elem_of_fmap_2.
  - assert (st_id s ∉ step_ids pre) as Hfresh.
    { intros (t & Hin & Hid)%elem_of_step_ids. assert (m !! st_id s = Some t) by (by apply Hm). congruence. }
    specialize (IH (pre ++ [s]) (<[st_id s:=s]> m)). rewrite <-(assoc_L (++)) in IH. apply IH.
    + intros k t. destruct (decide (st_id s = k)) as [<-|Hne].
      * rewrite lookup_insert_eq. split; [intros; simplify_eq; split; [set_solver|done]|].
        intros (Hin & Hid). rewrite elem_of_app, list_elem_of_singleton in Hin.
        destruct Hin as [Hin| ->]; [|done]. destruct Hfresh. apply elem_of_step_ids. eauto.
      * rewrite lookup_insert_ne by done. rewrite (Hm k t), elem_of_app, list_elem_of_singleton.
        naive_solver.
    + unfold step_ids. rewrite fmap_app, NoDup_app. split; [done|]. split; [|apply NoDup_singleton].
      cbn. set_solver.
Qed.

(** What [link_steps] has built once it went through [done]: [dependents[d]] names every step as
    often as the step lists [d]. *)
Definition linked (dependents : gmap str (list str)) (done : list (str * str)) : Prop :=
  ∀ d x, occurrences x (from_option id [] (dependents !! d)) =
         length (filter (λ p, p = (x, d)) done).

Definition edges (steps : list BootstrapStep) : list (str * str) :=
  steps ≫= λ s, (λ d, (st_id s, d)) <$> st_depends_on s.

Lemma link_dependencies_spec m step deps dependents l :
  linked dependents l →
  match link_dependencies m step deps dependents with
  | Ret dependents' => linked dependents' (l ++ ((λ d, (st_id step, d)) <$> deps)) ∧
      Forall (λ d, ∃ t, m !! d = Some t ∧ (st_phase step = System → st_phase t = System)) deps
  | Fail (UnknownDependency x d) => x = st_id step ∧ d ∈ deps ∧ m !! d = None
  | Fail (SystemDependsOnUser x d) => ∃ t, x = st_id step ∧ d ∈ deps ∧ m !! d = Some t ∧ st_phase step = System ∧ st_phase t = User
  | _ => False
  end.
Proof.
  revert dependents l. induction deps as [|d deps IH]; intros dependents l Hl; cbn [link_dependencies fmap list_fmap].
  { rewrite app_nil_r. auto. }
  destruct (m !! d) as [t|] eqn:Ht; [|split_and!; [done|by left|done]].
  destruct (bool_decide (st_phase step = System) && bool_decide (st_phase t = User)) eqn:Hph.
  { apply andb_true_iff in Hph as (?%bool_decide_eq_true & ?%bool_decide_eq_true).
    exists t. split_and!; [done|by left|done..]. }
  specialize (IH (<[d:=from_option id [] (dependents !! d) ++ [st_id step]]> dependents) (l ++ [(st_id step, d)])).
  rewrite <-(assoc_L (++)) in IH. cbn [app] in IH.
  assert (linked (<[d:=from_option id [] (dependents !! d) ++ [st_id step]]> dependents) (l ++ [(st_id step, d)])) as Hl'.
  { intros d' x. rewrite filter_app, length_app, filter_cons, filter_nil.
    destruct (decide (d = d')) as [<-|Hne].
    - rewrite lookup_insert_eq. cbn [from_option id]. rewrite occurrences_app, Hl, occurrences_cons.
      cbn. by repeat case_decide; simplify_eq.
    - rewrite lookup_insert_ne by done. rewrite Hl.
      destruct (decide _); simplify_eq. cbn. lia. }
  specialize (IH Hl').
  destruct (link_dependencies _ _ _ _) as [a|[]| |]; try done.
  - destruct IH as [? Hall]. split; [done|]. constructor; [|done]. exists t. split; [done|]. intros Hs.
    rewrite bool_decide_true in Hph by done. cbn in Hph. apply bool_decide_eq_false in Hph.
    by destruct (st_phase t).
  - destruct IH as (? & ? & ?). split_and!; [done|by right|done].
  - destruct IH as (u & ? & ? & ?). exists u. split_and!; [done|by right|naive_solver..].
Qed.

Lemma link_steps_spec m steps dependents remaining l pre :
  linked dependents l → NoDup (step_ids (pre ++ steps)) →
  (∀ s, s ∈ pre → remaining !! st_id s = Some (length (st_depends_on s))) →
  match link_steps m steps dependents remaining with
  | Ret (dependents', remaining') => linked dependents' (l ++ edges steps) ∧
      (∀ s, s ∈ pre ++ steps → remaining' !! st_id s = Some (length (st_depends_on s))) ∧
      Forall (λ s, Forall (λ d, ∃ t, m !! d = Some t ∧ (st_phase s = System → st_phase t = System)) (st_depends_on s)) steps
  | Fail (UnknownDependency x d) => ∃ s, s ∈ steps ∧ x = st_id s ∧ d ∈ st_depends_on s ∧ m !! d = None
  | Fail (SystemDependsOnUser x d) =>
      ∃ s t, s ∈ steps ∧ x = st_id s ∧ d ∈ st_depends_on s ∧ m !! d = Some t ∧ st_phase s = System ∧ st_phase t = User
  | _ => False
  end.
Proof.
  revert dependents remaining l pre. induction steps as [|s steps IH];
    intros dependents remaining l pre Hl Hnd Hpre; cbn [link_steps].
  { cbn. rewrite !app_nil_r. auto. }
  pose proof (link_dependencies_spec m s (st_depends_on s) dependents l Hl) as Hs.
  destruct (link_dependencies _ _ _ _) as [dependents'|[]| |]; cbn [mbind outcome_bind]; try done.
  - destruct Hs as [Hl' Hall].
    specialize (IH dependents' (<[st_id s:=length (st_depends_on s)]> remaining) _ (pre ++ [s]) Hl').
    rewrite <-!(assoc_L (++)) in IH. cbn [app] in IH.
    assert (∀ t, t ∈ pre ++ [s] →
      <[st_id s:=length (st_depends_on s)]> remaining !! st_id t = Some (length (st_depends_on t))) as Hpre'.
    { intros t. rewrite elem_of_app, list_elem_of_singleton. intros [Ht| ->]; [|by rewrite lookup_insert_eq].
      rewrite lookup_insert_ne; [by apply Hpre|]. intros Heq. unfold step_ids in Hnd.
      rewrite fmap_app, NoDup_app in Hnd. destruct Hnd as (_ & Hd & _).
      apply (Hd (st_id t)); [by apply list_elem_of_fmap_2|]. rewrite <-Heq. left. }
    specialize (IH Hnd Hpre').
    destruct (link_steps _ _ _ _) as [[d' r']|[]| |]; try done.
    + destruct IH as (? & ? & ?). split_and!; [done|done|by constructor].
    + destruct IH as (t & ? & ?). exists t. split; [by right|done].
    + destruct IH as (t & u & ? & ?). exists t, u. split; [by right|done].
  - destruct Hs as (? & ? & ?). exists s. split; [left|done].
  - destruct Hs as (t & ? & ?). exists s, t. split; [left|done].
Qed.

Lemma filter_edge_own s d : length (filter (λ p, p = (st_id s, d)) ((λ d, (st_id s, d)) <$> st_depends_on s)) =
  occurrences d (st_depends_on s).
Proof.
  generalize (st_id s), (st_depends_on s). intros x l. unfold occurrences.
  induction l as [|y l IH]; [done|]. cbn [fmap list_fmap]. rewrite !filter_cons.
  destruct (decide (y = d)) as [->|]; destruct (decide ((x, _) = (x, d))); simplify_eq; cbn; auto.
Qed.

Lemma filter_edge_other x s d : x ≠ st_id s →
  filter (λ p, p = (x, d)) ((λ d, (st_id s, d)) <$> st_depends_on s) = [].
Proof.
  intros Hne. generalize (st_depends_on s). intros l. induction l as [|y l IH]; [done|].
  cbn [fmap list_fmap]. rewrite filter_cons. destruct (decide _); [simplify_eq|done].
Qed.

Lemma edges_occurrences steps s d : NoDup (step_ids steps) → s ∈ steps →
  length (filter (λ p, p = (st_id s, d)) (edges steps)) = occurrences d (st_depends_on s).
Proof.
  unfold edges. induction steps as [|t steps IH]; [set_solver|]. cbn.
  rewrite filter_app, length_app. intros (Hnew & Hnd)%NoDup_cons [->|Hs]%elem_of_cons.
  - rewrite filter_edge_own. cut (filter (λ p, p = (st_id t, d)) (steps ≫= λ s, (λ d, (st_id s, d)) <$> st_depends_on s) = []).
    { intros ->. cbn. lia. }
    clear -Hnew. induction steps as [|u steps IH]; [done|]. cbn in Hnew |- *.
    rewrite filter_app, filter_edge_other, IH by set_solver. done.
  - rewrite filter_edge_other; [by rewrite IH|]. intros Heq. apply Hnew. rewrite <-Heq. by apply list_elem_of_fmap_2.
Qed.

Definition ready_of (ph : BootstrapStepPhase) (r : ready_sets) : gset str :=
  match ph with System => r.1 | User => r.2 end.

Lemma elem_of_ready_insert s r ph x :
  x ∈ ready_of ph (ready_insert s r) ↔ x ∈ ready_of ph r ∨ (st_id s = x ∧ st_phase s = ph).
Proof.
  unfold ready_insert, ready_of. destruct (st_phase s), ph; cbn;
    rewrite ?elem_of_union, ?elem_of_singleton; naive_solver.
Qed.

Lemma initial_ready_spec steps ready ph x :
  x ∈ ready_of ph (initial_ready steps ready) ↔
  x ∈ ready_of ph ready ∨ ∃ s, s ∈ steps ∧ st_id s = x ∧ st_phase s = ph ∧ st_depends_on s = [].
Proof.
  revert ready. induction steps as [|s steps IH]; intros ready; cbn [initial_ready].
  { split; [by left|]. intros [?|(? & ?%not_elem_of_nil & _)]; done. }
  rewrite IH. destruct (st_depends_on s) eqn:Hdeps; rewrite ?elem_of_ready_insert.
  - split.
    + intros [[?|[? ?]]|(t & ? & ?)]; [by left| |]; right; [exists s|exists t];
        (split; [rewrite elem_of_cons; auto|done]).
    + intros [?|(t & [->|?]%elem_of_cons & ? & ? & ?)]; [by left; left|by left; right|by right; exists t].
  - split.
    + intros [?|(t & ? & ?)]; [by left|]. right. exists t. split; [by right|done].
    + intros [?|(t & [->|?]%elem_of_cons & ? & ? & ?)]; [by left|congruence|by right; exists t].
Qed.

Lemma pop_first_spec s :
  match pop_first s with
  | Some (x, rest) => x ∈ s ∧ rest = s ∖ {[x]} ∧ ∀ y, y ∈ s → str_le x y
  | None => s = ∅
  end.
Proof.
  unfold pop_first. destruct (set_first s) as [x|] eqn:Hx; cbn.
  - apply set_first_some in Hx. naive_solver.
  - by apply set_first_none.
Qed.

Lemma pop_next_ready_spec r :
  match pop_next_ready r with
  | Some (x, r') => ∃ ph, x ∈ ready_of ph r ∧ (ph = User → r.1 = ∅) ∧
      ∀ ph' y, y ∈ ready_of ph' r' ↔ y ∈ ready_of ph' r ∧ (ph' = ph → y ≠ x)
  | None => ∀ ph, ready_of ph r = ∅
  end.
Proof.
  unfold pop_next_ready.
  pose proof (pop_first_spec r.1) as H1. pose proof (pop_first_spec r.2) as H2.
  destruct (pop_first r.1) as [[x rest]|].
  - destruct H1 as (Hx & -> & _). exists System. split_and!; [done|done|].
    intros [] y; cbn; rewrite ?elem_of_difference, ?elem_of_singleton; naive_solver.
  - destruct (pop_first r.2) as [[x rest]|]; [|by intros []].
    destruct H2 as (Hx & -> & _). exists User. split_and!; [done|done|].
    intros [] y; cbn; rewrite ?elem_of_difference, ?elem_of_singleton; naive_solver.
Qed.

Lemma release_spec steps m dependents remaining ready (c : BootstrapStep → nat) :
  indexes steps m → NoDup (step_ids steps) →
  dependents ⊆ step_ids steps →
  (∀ s, s ∈ steps → remaining !! st_id s = Some (c s)) →
  (∀ s, s ∈ steps → (occurrences (st_id s) dependents ≤ c s)%nat) →
  ∃ remaining' ready', release m dependents remaining ready = Ret (remaining', ready') ∧
    (∀ s, s ∈ steps → remaining' !! st_id s = Some (c s - occurrences (st_id s) dependents)%nat) ∧
    ∀ ph x, x ∈ ready_of ph ready' ↔ x ∈ ready_of ph ready ∨
      ∃ s, s ∈ steps ∧ st_id s = x ∧ st_phase s = ph ∧ x ∈ dependents ∧ c s = occurrences x dependents.
Proof.
  intros Hm Hnd. revert remaining ready c. induction dependents as [|x dependents IH];
    intros remaining ready c Hsub Hrem Hocc; cbn [release].
  { exists remaining, ready. split_and!; [done| |].
    - intros s Hs. rewrite Hrem by done. cbn. f_equal. lia.
    - intros ph x. split; [by left|]. intros [?|(? & _ & _ & _ & ?%not_elem_of_nil & _)]; done. }
  destruct (proj1 (elem_of_step_ids steps x)) as (s & Hs & <-); [apply Hsub; left|].
  assert (occurrences (st_id s) (st_id s :: dependents) = S (occurrences (st_id s) dependents)) as Hself.
  { rewrite occurrences_cons. by rewrite decide_True. }
  pose proof (Hocc s Hs) as Hcs. rewrite Hself in Hcs.
  rewrite (Hrem s Hs).
  set (c' := λ t, if decide (st_id s = st_id t) then (c t - 1)%nat else c t).
  assert (∀ t, t ∈ steps → st_id t = st_id s → t = s) as Huniq by (intros; by eapply step_unique).
  assert (∀ t, t ∈ steps → <[st_id s:=(c s - 1)%nat]> remaining !! st_id t = Some (c' t)) as Hrem'.
  { intros t Ht. unfold c'. case_decide as Heq.
    - rewrite (Huniq t Ht (eq_sym Heq)). by rewrite lookup_insert_eq.
    - rewrite lookup_insert_ne by congruence. by apply Hrem. }
  assert (∀ t, t ∈ steps → (occurrences (st_id t) dependents ≤ c' t)%nat) as Hocc'.
  { intros t Ht. specialize (Hocc t Ht). rewrite occurrences_cons in Hocc. unfold c'.
    repeat case_decide; try congruence; lia. }
  assert (∀ t, t ∈ steps → (c' t - occurrences (st_id t) dependents =
     c t - occurrences (st_id t) (st_id s :: dependents))%nat) as Hres.
  { intros t Ht. rewrite occurrences_cons. unfold c'. repeat case_decide; try congruence; lia. }
  assert (m !! st_id s = Some s) as Hms by (by apply Hm).
  assert (dependents ⊆ step_ids steps) as Hsub' by (intros y Hy; apply Hsub; by right).
  assert (∀ t y, t ∈ steps → st_id t = y → y ≠ st_id s →
     (y ∈ st_id s :: dependents ∧ c t = occurrences y (st_id s :: dependents)) ↔
     (y ∈ dependents ∧ c' t = occurrences y dependents)) as Hother.
  { intros t y Ht <- Hne. unfold c'. rewrite occurrences_cons, elem_of_cons, !decide_False by congruence.
    naive_solver. }
  destruct (Nat.eqb_spec (c s - 1) 0) as [Hzero|Hnz].
  - rewrite Hms. destruct (IH (<[st_id s:=(c s - 1)%nat]> remaining) (ready_insert s ready) c')
      as (r' & q' & -> & Hr' & Hq'); [done..|].
    exists r', q'. split_and!; [done|by intros; rewrite Hr', Hres|].
    intros ph y. rewrite Hq', elem_of_ready_insert.
    destruct (decide (y = st_id s)) as [->|Hne].
    + assert (c s = occurrences (st_id s) (st_id s :: dependents)) by lia.
      split.
      * intros [[?|[_ Hph]]|(t & Ht & Hid & Hph & _)]; [by left| |];
          right; exists s; [|rewrite (Huniq t Ht Hid) in Hph]; (split_and!; [done..|left|done]).
      * intros [?|(t & Ht & Hid & Hph & _)]; [by left; left|]. rewrite (Huniq t Ht Hid) in Hph. left. right. done.
    + split.
      * intros [[?|[? _]]|(t & Ht & Hid & Hph & Hrest)]; [by left|congruence|].
        right. exists t. split_and!; [done..|by apply (Hother t)|by apply (Hother t)].
      * intros [?|(t & Ht & Hid & Hph & Hrest)]; [by left; left|].
        right. exists t. split_and!; [done..|by apply (Hother t)|by apply (Hother t)].
  - destruct (IH (<[st_id s:=(c s - 1)%nat]> remaining) ready c')
      as (r' & q' & -> & Hr' & Hq'); [done..|].
    exists r', q'. split_and!; [done|by intros; rewrite Hr', Hres|].
    intros ph y. rewrite Hq'.
    destruct (decide (y = st_id s)) as [->|Hne].
    + assert (occurrences (st_id s) dependents = 0%nat → st_id s ∉ dependents).
      { intros Hz Hin%occurrences_positive. lia. }
      split.
      * intros [?|(t & Ht & Hid & Hph & Hin & Hc)]; [by left|]. right. exists t.
        split_and!; [done..|by right|]. rewrite occurrences_cons, decide_True by done.
        unfold c' in Hc. rewrite decide_True in Hc by congruence. rewrite (Huniq t Ht Hid) in Hc |- *.
        cut (c s ≠ 0)%nat; [lia|]. lia.
      * intros [?|(t & Ht & Hid & Hph & Hin & Hc)]; [by left|]. right. exists t.
        rewrite occurrences_cons, decide_True in Hc by congruence. rewrite (Huniq t Ht Hid) in Hc.
        split_and!; [done..| |].
        -- apply occurrences_positive. lia.
        -- unfold c'. rewrite decide_True by congruence. rewrite (Huniq t Ht Hid). lia.
    + split; (intros [?|(t & Ht & Hid & Hph & Hrest)]; [by left|]; right; exists t;
        split_and!; [done..|by apply (Hother t)|by apply (Hother t)]).
Qed.

(** ** Ordering *)
Lemma missing_snoc P s x : x ∉ P →
  (length (missing (P ++ [x]) s) = length (missing P s) - occurrences x (st_depends_on s))%nat ∧
  (occurrences x (st_depends_on s) ≤ length (missing P s))%nat.
Proof.
  intros Hx. unfold missing, occurrences.
  assert (length (filter (λ d, d ∉ P) (st_depends_on s)) =
          length (filter (λ d, d ∉ P ++ [x]) (st_depends_on s)) + length (filter (λ y, y = x) (st_depends_on s)))%nat;
    [|lia].
  induction (st_depends_on s) as [|d l IH]; [done|]. rewrite !filter_cons.
  destruct (decide (d = x)) as [->|Hne].
  - rewrite (decide_True (P:=x ∉ P)) by done. rewrite (decide_False (P:=x ∉ P ++ [x])) by set_solver.
    cbn. lia.
  - destruct (decide (d ∉ P)); [rewrite (decide_True (P:=d ∉ P ++ [x])) by set_solver|
      rewrite (decide_False (P:=d ∉ P ++ [x])) by set_solver]; cbn; lia.
Qed.

Lemma missing_nil P s : missing P s = [] ↔ st_depends_on s ⊆ P.
Proof.
  unfold missing. split.
  - intros Hnil d Hd. destruct (decide (d ∈ P)) as [|Hn]; [done|].
    assert (d ∈ filter (λ d, d ∉ P) (st_depends_on s)) as Hin by (by apply list_elem_of_filter).
    rewrite Hnil in Hin. by apply not_elem_of_nil in Hin.
  - intros Hsub. destruct (filter _ _) as [|d l] eqn:Hf; [done|].
    assert (d ∈ filter (λ d, d ∉ P) (st_depends_on s)) as [? ?]%list_elem_of_filter by (rewrite Hf; left).
    naive_solver.
Qed.

Record ordering (steps ordered : list BootstrapStep) (remaining : gmap str nat) (ready : ready_sets) : Prop := {
  od_steps : ordered ⊆ steps;
  od_nodup : NoDup (step_ids ordered);
  od_remaining : ∀ s, s ∈ steps → remaining !! st_id s = Some (length (missing (step_ids ordered) s));
  od_ready : ∀ ph x, x ∈ ready_of ph ready ↔
    (∃ s, s ∈ steps ∧ st_id s = x ∧ st_phase s = ph ∧ x ∉ step_ids ordered ∧ missing (step_ids ordered) s = []);
  od_first : dependencies_first ordered;
  od_phases : ∃ sys usr, ordered = sys ++ usr ∧ Forall (λ s, st_phase s = System) sys ∧
    Forall (λ s, st_phase s = User) usr ∧ (usr ≠ [] → ready_of System ready = ∅);
}.

Section order.
Context (steps : list BootstrapStep) (m : gmap str BootstrapStep) (dependents : gmap str (list str)).
Context (Hm : indexes steps m) (Hnd : NoDup (step_ids steps)) (Hlinked : linked dependents (edges steps)).
Context (Hknown : ∀ s d, s ∈ steps → d ∈ st_depends_on s →
  ∃ t, m !! d = Some t ∧ (st_phase s = System → st_phase t = System)).

Lemma dependents_occurrences d s : s ∈ steps →
  occurrences (st_id s) (from_option id [] (dependents !! d)) = occurrences d (st_depends_on s).
Proof. intros Hs. rewrite Hlinked. by apply edges_occurrences. Qed.

Lemma dependents_known d : from_option id [] (dependents !! d) ⊆ step_ids steps.
Proof.
  intros x Hx%occurrences_positive. rewrite Hlinked in Hx.
  destruct (filter _ _) as [|p l] eqn:Hf; [cbn in Hx; lia|].
  assert (p ∈ filter (λ p, p = (x, d)) (edges steps)) as [-> Hin]%list_elem_of_filter by (rewrite Hf; left).
  unfold edges in Hin. apply list_elem_of_bind in Hin as (s & (? & ? & _)%list_elem_of_fmap & Hs).
  simplify_eq. by apply list_elem_of_fmap_2.
Qed.

(** One round: [s] is taken from the ready sets and its dependents are released. *)
Lemma ordering_step ordered remaining ready ph s ready1 :
  ordering steps ordered remaining ready → s ∈ steps → st_id s ∈ ready_of ph ready →
  (ph = User → ready.1 = ∅) →
  (∀ ph' y, y ∈ ready_of ph' ready1 ↔ y ∈ ready_of ph' ready ∧ (ph' = ph → y ≠ st_id s)) →
  ∃ remaining2 ready2,
    release m (from_option id [] (dependents !! st_id s)) remaining ready1 = Ret (remaining2, ready2) ∧
    ordering steps (ordered ++ [s]) remaining2 ready2.
Proof.
  intros [Hsub Hndo Hrem Hready Hfirst (sys & usr & Hord & Hsys & Husr & Hempty)] Hs Hin Hph Hready1.
  assert (∀ t, t ∈ steps → st_id t = st_id s → t = s) as Huniq by (intros; by apply (step_unique steps)).
  apply Hready in Hin as (s' & Hs' & Hid & Hphase & Hnew & Hmiss). rewrite (Huniq s' Hs' Hid) in Hphase, Hmiss.
  assert (step_ids (ordered ++ [s]) = step_ids ordered ++ [st_id s]) as Hids.
  { unfold step_ids. by rewrite fmap_app. }
  destruct (release_spec steps m (from_option id [] (dependents !! st_id s)) remaining ready1
    (λ t, length (missing (step_ids ordered) t)) Hm Hnd (dependents_known _) Hrem) as (r2 & q2 & Hrel & Hr2 & Hq2).
  { intros t Ht. rewrite dependents_occurrences by done. by apply missing_snoc. }
  exists r2, q2. split; [done|].
  assert (∀ ph' x, x ∈ ready_of ph' q2 ↔ ∃ t, t ∈ steps ∧ st_id t = x ∧ st_phase t = ph' ∧
    x ∉ step_ids (ordered ++ [s]) ∧ missing (step_ids (ordered ++ [s])) t = []) as Hq.
  { intros ph' x. rewrite Hq2, Hready1, Hready, Hids. split.
    - intros [[(t & Ht & <- & Htp & Htn & Htm) Hne]|(t & Ht & <- & Htp & Hin & Hc)]; exists t; (split_and!; [done..| |]).
      + rewrite elem_of_app, list_elem_of_singleton. intros [?|Heq]; [done|].
        rewrite (Huniq t Ht Heq) in Htp, Hne. naive_solver.
      + rewrite missing_nil in Htm |- *. set_solver.
      + pose proof Hin as Hpos%occurrences_positive.
        rewrite dependents_occurrences in Hpos by done. apply occurrences_positive in Hpos.
        rewrite elem_of_app, list_elem_of_singleton. intros [Hold|Heq].
        * apply elem_of_step_ids in Hold as (t' & Ht' & Hid').
          assert (t' = t) as -> by (apply (step_unique steps); auto).
          apply list_elem_of_split in Ht' as (l1 & l2 & Hsplit).
          pose proof (Hfirst _ _ _ Hsplit _ Hpos). apply Hnew. rewrite Hsplit. unfold step_ids. rewrite fmap_app.
          set_solver.
        * rewrite (Huniq t Ht Heq) in Hpos. apply Hnew. rewrite missing_nil in Hmiss. by apply Hmiss.
      + apply length_zero_iff_nil. rewrite (proj1 (missing_snoc _ _ _ Hnew)).
        rewrite dependents_occurrences in Hc by done. lia.
    - intros (t & Ht & <- & Htp & Htn & Htm). rewrite elem_of_app, list_elem_of_singleton in Htn.
      pose proof (missing_snoc (step_ids ordered) t (st_id s) Hnew) as [Hlen Hle].
      rewrite Htm in Hlen. cbn in Hlen.
      destruct (decide (st_id s ∈ st_depends_on t)) as [Hdep|Hdep].
      + right. exists t. rewrite dependents_occurrences by done. split_and!; [done..| |lia].
        apply occurrences_positive. rewrite dependents_occurrences by done. by apply occurrences_positive.
      + left. split; [|naive_solver]. exists t. split_and!; [done..|naive_solver|].
        apply length_zero_iff_nil.
        assert (¬ (0 < occurrences (st_id s) (st_depends_on t))%nat) by (by rewrite occurrences_positive). lia. }
  split.
  - set_solver.
  - rewrite Hids. apply NoDup_app. split; [done|]. split; [set_solver|apply NoDup_singleton].
  - intros t Ht. rewrite Hr2 by done. rewrite Hids, (proj1 (missing_snoc _ _ _ Hnew)).
    by rewrite dependents_occurrences.
  - done.
  - apply dependencies_first_snoc; [done|]. by apply missing_nil.
  - destruct ph.
    + assert (usr = []) as ->.
      { destruct usr as [|u usr]; [done|].
        assert (st_id s ∈ ready_of System ready) as Habs; [|rewrite Hempty in Habs by done; set_solver].
        apply Hready. exists s. done. }
      exists (ordered ++ [s]), []. rewrite app_nil_r in Hord. subst. rewrite app_nil_r.
      split_and!; [done| |done|done]. apply Forall_app. split; [done|]. by constructor.
    + exists sys, (usr ++ [s]). subst. rewrite (assoc_L (++)).
      split_and!; [done|done|apply Forall_app; split; [done|by constructor]|].
      intros _. apply set_eq. intros x. split; [|set_solver].
      intros (t & Ht & <- & Htp & Htn & Htm)%Hq. exfalso.
      assert (st_id t ∈ ready_of System ready) as Habs; [|cbn in Habs; rewrite Hph in Habs by done; set_solver].
      apply Hready. exists t. split_and!; [done..|rewrite Hids in Htn; set_solver|].
      rewrite missing_nil in Htm |- *. intros d Hd. specialize (Htm d Hd). rewrite Hids, elem_of_app, list_elem_of_singleton in Htm.
      destruct Htm as [?| ->]; [done|].
      destruct (Hknown t (st_id s) Ht Hd) as (u & Hu & Hup). apply Hm in Hu as [Hu Huid].
      rewrite (Huniq u Hu Huid) in Hup. rewrite Hup in Hphase by done. done.
Qed.

Lemma order_loop_spec fuel ordered remaining ready :
  ordering steps ordered remaining ready → (length steps ≤ length ordered + fuel)%nat →
  ∃ l r q, order_loop fuel m dependents remaining ready ordered = Ret l ∧
    ordering steps l r q ∧ ∀ ph, ready_of ph q = ∅.
Proof.
  revert ordered remaining ready. induction fuel as [|fuel IH]; intros ordered remaining ready Hord Hfuel;
    cbn [order_loop]; pose proof (pop_next_ready_spec ready) as Hpop;
    destruct (pop_next_ready ready) as [[x ready1]|]; [| |destruct Hpop as (ph & Hx & Hph & Hready1)|];
    try (by exists ordered, remaining, ready).
  - exfalso. destruct Hpop as (ph & Hx & _). apply (od_ready _ _ _ _ Hord) in Hx as (s & Hs & <- & _ & Hnew & _).
    assert (NoDup (step_ids (ordered ++ [s]))) as Hnd'.
    { unfold step_ids. rewrite fmap_app. apply NoDup_app. split; [apply Hord|]. split; [|apply NoDup_singleton].
      cbn. fold (step_ids ordered). set_solver. }
    assert (step_ids (ordered ++ [s]) ⊆ step_ids steps) as Hsub.
    { intros y (t & Ht & <-)%elem_of_step_ids. apply list_elem_of_fmap_2.
      rewrite elem_of_app, list_elem_of_singleton in Ht. destruct Ht as [Ht| ->]; [|done].
      by apply (od_steps _ _ _ _ Hord). }
    pose proof (NoDup_submseteq _ _ Hnd' Hsub) as Hle%submseteq_length.
    unfold step_ids in Hle. rewrite !length_fmap, length_app in Hle. cbn in Hle. lia.
  - pose proof Hx as (s & Hs & <- & _)%(od_ready _ _ _ _ Hord).
    rewrite (proj2 (Hm (st_id s) s)) by done.
    destruct (ordering_step ordered remaining ready ph s ready1) as (r2 & q2 & -> & Hord2); [done..|].
    cbn [mbind outcome_bind]. apply IH; [done|]. rewrite length_app. cbn. lia.
Qed.

(** When nothing is ready, what was not ordered depends on itself. *)
Lemma unordered_cycle l r q :
  ordering steps l r q → (∀ ph, ready_of ph q = ∅) → length l ≠ length steps → ∃ a, tc (depends steps) a a.
Proof.
  intros Hord Hempty Hlen.
  destruct (endless_cycle (depends steps) (filter (λ x, x ∉ step_ids l) (step_ids steps))) as (a & _ & Ha);
    [| |by exists a].
  - intros Hnil. apply Hlen. apply Permutation_length, NoDup_Permutation; [eapply NoDup_fmap_1, Hord|by eapply NoDup_fmap_1|].
    intros s. split; [apply Hord|]. intros Hs. destruct (decide (st_id s ∈ step_ids l)) as [Hin|Hnew].
    + apply elem_of_step_ids in Hin as (t & Ht & Hid).
      assert (t = s) as <-; [|done]. apply (step_unique steps); [done|by apply Hord|done..].
    + assert (st_id s ∈ filter (λ x, x ∉ step_ids l) (step_ids steps)) as Hin;
        [|rewrite Hnil in Hin; by apply not_elem_of_nil in Hin].
      apply list_elem_of_filter. split; [done|]. by apply list_elem_of_fmap_2.
  - intros y [Hnew (s & Hs & <-)%elem_of_step_ids]%list_elem_of_filter.
    destruct (missing (step_ids l) s) as [|d rest] eqn:Hmiss.
    + exfalso. assert (st_id s ∈ ready_of (st_phase s) q) as Hin; [|rewrite Hempty in Hin; set_solver].
      apply (od_ready _ _ _ _ Hord). exists s. done.
    + assert (d ∈ missing (step_ids l) s) as [Hd Hdep]%list_elem_of_filter by (rewrite Hmiss; left).
      exists d. split; [|by exists s]. apply list_elem_of_filter. split; [done|].
      destruct (Hknown s d Hs Hdep) as (t & [Ht <-]%Hm & _). by apply list_elem_of_fmap_2.
Qed.
End order.

(** ** The order of a plan *)

(** What is wrong with a plan that is refused. *)
Definition order_fault (steps : list BootstrapStep) (e : OrderError) : Prop :=
  match e with
  | DuplicateStep x => (1 < occurrences x (step_ids steps))%nat
  | UnknownDependency x d => depends steps x d ∧ d ∉ step_ids steps
  | SystemDependsOnUser x d => ∃ s t, s ∈ steps ∧ t ∈ steps ∧ st_id s = x ∧ st_id t = d ∧ d ∈ st_depends_on s ∧
      st_phase s = System ∧ st_phase t = User
  | Disappeared _ => False
  | DependencyCycle => ∃ a, tc (depends steps) a a
  end.

Definition systems_first (l : list BootstrapStep) : Prop :=
  ∃ sys usr, l = sys ++ usr ∧ Forall (λ s, st_phase s = System) sys ∧ Forall (λ s, st_phase s = User) usr.

Lemma occurrences_nodup x l : NoDup l → (occurrences x l ≤ 1)%nat.
Proof.
  induction 1 as [|y l Hy Hl IH]; [cbn; lia|]. rewrite occurrences_cons.
  destruct (decide (y = x)) as [->|]; [|lia]. rewrite <-occurrences_positive in Hy. lia.
Qed.

Lemma order_fault_invalid steps e : order_fault steps e → ¬ valid_graph steps.
Proof.
  intros Hf [Hnd Hknown Hphase Hac]. destruct e as [x|x d|x d|x|]; cbn in Hf.
  - pose proof (occurrences_nodup x _ Hnd). lia.
  - destruct Hf as [Hd Hn]. by apply Hn, (Hknown x).
  - destruct Hf as (s & t & Hs & Ht & <- & <- & Hd & Hsys & Husr).
    rewrite (Hphase s t) in Husr by done. done.
  - done.
  - destruct Hf as [a Ha]. by apply (Hac a).
Qed.

Lemma indexes_known steps m d : indexes steps m → m !! d = None ↔ d ∉ step_ids steps.
Proof.
  intros Hm. split.
  - intros Hnone (t & Ht & Hid)%elem_of_step_ids. rewrite (proj2 (Hm d t)) in Hnone; done.
  - intros Hn. destruct (m !! d) as [t|] eqn:Ht; [|done]. apply Hm in Ht as [Ht <-].
    destruct Hn. by apply list_elem_of_fmap_2.
Qed.

Lemma ordered_steps_spec steps :
  match ordered_steps steps with
  | Ret l => valid_graph steps ∧ l ≡ₚ steps ∧ dependencies_first l ∧ systems_first l
  | Fail e => order_fault steps e ∧ ¬ valid_graph steps
  | Panic | Timeout => False
  end.
Proof.
  assert (∀ e, order_fault steps e → order_fault steps e ∧ ¬ valid_graph steps) as Hfault.
  { intros e He. split; [done|]. by eapply order_fault_invalid. }
  unfold ordered_steps.
  pose proof (index_steps_spec steps [] ∅ ltac:(intros ??; rewrite lookup_empty; set_solver) ltac:(constructor)) as Hi.
  destruct (index_steps steps ∅) as [m|[]| |]; try done; cbn [mbind outcome_bind app] in *; [|by apply Hfault].
  destruct Hi as [Hm Hnd].
  pose proof (link_steps_spec m steps ∅ ∅ [] [] ltac:(intros ??; by rewrite lookup_empty) Hnd ltac:(set_solver)) as Hl.
  destruct (link_steps _ _ _ _) as [[dependents remaining]|[]| |]; try done; cbn [mbind outcome_bind app] in *.
  - destruct Hl as (Hlinked & Hrem & Hknown).
    assert (∀ s d, s ∈ steps → d ∈ st_depends_on s →
      ∃ t, m !! d = Some t ∧ (st_phase s = System → st_phase t = System)) as Hknown'.
    { intros s d Hs Hd. rewrite Forall_forall in Hknown. specialize (Hknown s Hs). rewrite Forall_forall in Hknown. auto. }
    assert (∀ s, missing (step_ids []) s = st_depends_on s) as Hmiss.
    { intros s. unfold missing. cbn. induction (st_depends_on s) as [|d l IH]; [done|].
      rewrite filter_cons, decide_True by apply not_elem_of_nil. by rewrite IH. }
    destruct (order_loop_spec steps m dependents Hm Hnd Hlinked Hknown' (length steps) [] remaining
      (initial_ready steps (∅, ∅))) as (l & r & q & -> & Hord & Hempty).
    + split; [set_solver|constructor| | |apply dependencies_first_nil|].
      * intros s Hs. rewrite Hmiss. by apply Hrem.
      * intros ph x. rewrite initial_ready_spec. setoid_rewrite Hmiss.
        split; [intros [Hx|(s & Hs)]|intros (s & Hs)]; [by destruct ph; set_solver| |].
        -- exists s. destruct Hs as (? & ? & ? & ?). split_and!; [done..|apply not_elem_of_nil|done].
        -- right. exists s. destruct Hs as (? & ? & ? & ? & ?). done.
      * by exists [], [].
    + cbn. lia.
    + cbn [mbind outcome_bind]. destruct (Nat.eqb_spec (length l) (length steps)) as [Hlen|Hlen].
      * assert (l ≡ₚ steps) as Hperm.
        { apply submseteq_length_Permutation; [|lia]. apply NoDup_submseteq; [|apply Hord].
          eapply NoDup_fmap_1, Hord. }
        destruct (od_phases _ _ _ _ Hord) as (sys & usr & ? & ? & ? & _).
        split_and!; [|done|apply Hord|by exists sys, usr].
        split; [done| | |by apply (dependencies_first_acyclic steps l); [apply Hord|done|apply Hord]].
        -- intros a b (s & Hs & <- & Hb). destruct (Hknown' s b Hs Hb) as (t & [Ht <-]%Hm & _).
           by apply list_elem_of_fmap_2.
        -- intros s t Hs Ht Hsys Hd. destruct (Hknown' s _ Hs Hd) as (t' & [Ht' Hid]%Hm & Hp).
           rewrite (step_unique steps t' t) in Hp by done. auto.
      * apply Hfault. by eapply unordered_cycle.
  - apply Hfault. destruct Hl as (s & Hs & -> & Hd & Hn). split; [by exists s|].
    by apply (indexes_known steps m).
  - apply Hfault. destruct Hl as (s & t & Hs & -> & Hd & [Ht <-]%Hm & ?). by exists s, t.
Qed.

(** [ordered_steps] accepts exactly the plans whose dependency graph is valid: ids are distinct,
    dependencies exist, no system step depends on a user step, and there is no cycle.  The order it
    returns is a permutation of the plan in which every step follows its dependencies and the system
    steps come first; a refused plan has the fault the error names, and the ordering always ends. *)
Theorem ordered_steps_correct steps :
  match ordered_steps steps with
  | Ret l => valid_graph steps ∧ l ≡ₚ steps ∧ dependencies_first l ∧ systems_first l
  | Fail e => order_fault steps e ∧ ¬ valid_graph steps
  | Panic | Timeout => False
  end.
Proof. apply ordered_steps_spec. Qed.
