(* ===== verification/BootGraph.v ===== *)
(** * The dependency graph of the rendered bootstrap
      (src/core/agentdp-core/src/provisioning/bootstrap.rs)

    The server validates the graph of the steps it renders with a depth-first
    search, and splits the plan by where its steps run.  What it accepts, the
    guest's scheduler accepts. *)
From S2P Require Import Prelude Text Ordered BootPlan BootSchedule.

Inductive BootstrapStepPlacement := Base | Instance_.
#[export] Instance placement_eq_dec : EqDecision BootstrapStepPlacement.
Proof. solve_decision. Defined.

Record RenderedBootstrapStep := {
  rs_spec : BootstrapStep;
  rs_placement : BootstrapStepPlacement;
  rs_contents : str;
}.

Definition rs_id (step : RenderedBootstrapStep) : str := st_id (rs_spec step).

Inductive BootstrapGraphError :=
| DuplicateStep (step : str)
| MissingDependency (step dependency : str)
| InvalidPhaseDependency (step dependency : str)
| Cycle (step : str).

(** [visiting] and [visited] *)
Abbreviation visit_sets := (gset str * gset str)%type.

(** [for dependency in &rendered_step.depends_on] of [visit_step] *)
Fixpoint visit_dependencies (visit : str → visit_sets → outcome BootstrapGraphError visit_sets)
    (steps : gmap str RenderedBootstrapStep) (step : str) (depends_on : list str) (sets : visit_sets)
    : outcome BootstrapGraphError visit_sets :=
  match depends_on with
  | [] => Ret sets
  | dependency :: depends_on =>
    match steps !! dependency with
    | None => Fail (MissingDependency step dependency)
    | Some _ =>
      sets ← visit dependency sets;
      visit_dependencies visit steps step depends_on sets
    end
  end.

(** [visiting] grows with the depth, so [fuel] above the number of steps is enough. *)
Fixpoint visit_step (fuel : nat) (steps : gmap str RenderedBootstrapStep) (step : str) (sets : visit_sets)
    : outcome BootstrapGraphError visit_sets :=
  match fuel with
  | O => Timeout
  | S fuel =>
    if bool_decide (step ∈ sets.2) then Ret sets
    else if bool_decide (step ∈ sets.1) then Fail (Cycle step)
    else
      match steps !! step with
      | None => Fail (MissingDependency step step)
      | Some rendered_step =>
        sets ← visit_dependencies (visit_step fuel steps) steps step (st_depends_on (rs_spec rendered_step))
                 ({[step]} ∪ sets.1, sets.2);
        Ret (sets.1 ∖ {[step]}, {[step]} ∪ sets.2)
      end
  end.

(** The three loops of [validate_graph] *)
Fixpoint index_rendered (steps : list RenderedBootstrapStep) (m : gmap str RenderedBootstrapStep)
    : outcome BootstrapGraphError (gmap str RenderedBootstrapStep) :=
  match steps with
  | [] => Ret m
  | step :: steps =>
    match m !! rs_id step with
    | Some _ => Fail (DuplicateStep (rs_id step))
    | None => index_rendered steps (<[rs_id step := step]> m)
    end
  end.

Definition user_step (m : gmap str RenderedBootstrapStep) (dependency : str) : bool :=
  match m !! dependency with
  | Some dependency => bool_decide (st_phase (rs_spec dependency) = User)
  | None => false
  end.

Fixpoint check_phases (m : gmap str RenderedBootstrapStep) (steps : list RenderedBootstrapStep)
    : outcome BootstrapGraphError unit :=
  match steps with
  | [] => Ret tt
  | step :: steps =>
    match find_first (λ dependency, bool_decide (st_phase (rs_spec step) = System) && user_step m dependency)
            (st_depends_on (rs_spec step)) with
    | Some dependency => Fail (InvalidPhaseDependency (rs_id step) dependency)
    | None => check_phases m steps
    end
  end.

Fixpoint visit_steps (fuel : nat) (m : gmap str RenderedBootstrapStep) (steps : list RenderedBootstrapStep)
    (sets : visit_sets) : outcome BootstrapGraphError visit_sets :=
  match steps with
  | [] => Ret sets
  | step :: steps => sets ← visit_step fuel m (rs_id step) sets; visit_steps fuel m steps sets
  end.

Definition validate_graph (steps : list RenderedBootstrapStep) : outcome BootstrapGraphError unit :=
  m ← index_rendered steps ∅;
  _ ← check_phases m steps;
  _ ← visit_steps (S (length steps)) m steps (∅, ∅);
  Ret tt.

(** ** Plans *)
Section plan.
(** The checkouts and health checks of a plan are data the graph does not look at. *)
Context {RepoCheckout HealthcheckPlan : Type}.

Record RenderedBootstrapPlan := {
  rp_packages : list str;
  rp_repos : list RepoCheckout;
  rp_shell : list str;
  rp_healthchecks : list HealthcheckPlan;
  rp_steps : list RenderedBootstrapStep;
}.

Definition plan_new (packages : list str) (repos : list RepoCheckout) (shell : list str)
    (healthchecks : list HealthcheckPlan) (steps : list RenderedBootstrapStep)
    : outcome BootstrapGraphError RenderedBootstrapPlan :=
  _ ← validate_graph steps;
  Ret {| rp_packages := packages; rp_repos := repos; rp_shell := shell; rp_healthchecks := healthchecks;
         rp_steps := steps |}.

Definition include_if {T} (include : bool) (value : list T) : list T := if include then value else [].

Definition retain_dependencies (step_ids : gset str) (step : RenderedBootstrapStep) : RenderedBootstrapStep :=
  {| rs_spec :=
       {| st_id := st_id (rs_spec step); st_label := st_label (rs_spec step); st_phase := st_phase (rs_spec step);
          st_depends_on := filter (λ dependency, dependency ∈ step_ids) (st_depends_on (rs_spec step));
          st_resources := st_resources (rs_spec step); st_script := st_script (rs_spec step);
          st_working_directory := st_working_directory (rs_spec step);
          st_timeout_seconds := st_timeout_seconds (rs_spec step) |};
     rs_placement := rs_placement step; rs_contents := rs_contents step |}.

Definition for_placement (plan : RenderedBootstrapPlan) (placement : BootstrapStepPlacement)
    : outcome BootstrapGraphError RenderedBootstrapPlan :=
  let placed := filter (λ step, rs_placement step = placement) (rp_steps plan) in
  let step_ids := list_to_set (rs_id <$> placed) in
  let steps := retain_dependencies step_ids <$> placed in
  let base := bool_decide (placement = Base) in
  let instance := bool_decide (placement = Instance_) in
  plan_new (include_if base (rp_packages plan)) (include_if instance (rp_repos plan))
    (include_if instance (rp_shell plan)) (include_if instance (rp_healthchecks plan)) steps.
End plan.
Arguments RenderedBootstrapPlan : clear implicits.

(** [bootstrap_step_spec] *)
Definition bootstrap_step_spec (id label : str) (phase : BootstrapStepPhase) (depends_on : list str)
    (resources : list BootstrapStepResource) (timeout_seconds : Z) : BootstrapStep :=
  {| st_script := bytes_of "steps/" ++ id ++ bytes_of ".sh"; st_id := id; st_label := label; st_phase := phase;
     st_depends_on := depends_on; st_resources := resources; st_working_directory := bytes_of "/";
     st_timeout_seconds := timeout_seconds |}.

(** ** The search *)
Definition specs (steps : list RenderedBootstrapStep) : list BootstrapStep := rs_spec <$> steps.

Definition graph_fault (steps : list BootstrapStep) (e : BootstrapGraphError) : Prop :=
  match e with
  | DuplicateStep x => (1 < occurrences x (step_ids steps))%nat
  | MissingDependency x d => depends steps x d ∧ d ∉ step_ids steps
  | InvalidPhaseDependency x d => ∃ s t, s ∈ steps ∧ t ∈ steps ∧ st_id s = x ∧ st_id t = d ∧ d ∈ st_depends_on s ∧
      st_phase s = System ∧ st_phase t = User
  | Cycle x => tc (depends steps) x x
  end.

Section search.
Context (steps : list BootstrapStep) (m : gmap str RenderedBootstrapStep).
Context (Hm : ∀ k, (∃ r, m !! k = Some r) ↔ k ∈ step_ids steps).
Context (Hdeps : ∀ k r, m !! k = Some r → ∀ d, d ∈ st_depends_on (rs_spec r) ↔ depends steps k d).

Abbreviation R := (depends steps).
Abbreviation K := (list_to_set (C:=gset str) (step_ids steps)).

Record visit_inv (visiting visited : gset str) : Prop := {
  vi_known : visiting ∪ visited ⊆ K;
  vi_disjoint : visiting ## visited;
  vi_closed : ∀ x y, x ∈ visited → R x y → y ∈ visited;
  vi_acyclic : ∀ x, x ∈ visited → ¬ tc R x x;
}.

Definition visit_post (visiting visited : gset str) (targets : list str)
    (res : outcome BootstrapGraphError visit_sets) : Prop :=
  match res with
  | Ret (visiting', visited') => visiting' = visiting ∧ visit_inv visiting visited' ∧ visited ⊆ visited' ∧
      ∀ x, x ∈ targets → x ∈ visited'
  | Fail (MissingDependency x d) => R x d ∧ d ∉ step_ids steps
  | Fail (Cycle x) => tc R x x
  | _ => False
  end.

Lemma visit_dependencies_ok (visit : str → visit_sets → outcome BootstrapGraphError visit_sets) visiting step deps visited :
  (∀ d, d ∈ deps → R step d) →
  (∀ d visited, R step d → d ∈ step_ids steps → visit_inv visiting visited →
     visit_post visiting visited [d] (visit d (visiting, visited))) →
  visit_inv visiting visited →
  visit_post visiting visited deps (visit_dependencies visit m step deps (visiting, visited)).
Proof.
  intros Hsub Hvisit. revert visited. induction deps as [|d deps IH]; intros visited Hinv; cbn [visit_dependencies].
  { split_and!; [done|done|done|]. by intros x ?%not_elem_of_nil. }
  assert (R step d) as Hd by (apply Hsub; left).
  destruct (m !! d) as [r|] eqn:Hr.
  - assert (d ∈ step_ids steps) as Hin by (apply Hm; eauto).
    specialize (Hvisit d visited Hd Hin Hinv). destruct (visit d (visiting, visited)) as [[v1 v2]|[]| |]; try done.
    cbn [mbind outcome_bind]. destruct Hvisit as (-> & Hinv' & Hgrow & Hdone).
    assert (∀ x, x ∈ deps → R step x) as Hsub' by (intros x Hx; apply Hsub; by right).
    specialize (IH Hsub' v2 Hinv'). destruct (visit_dependencies _ _ _ _ _) as [[w1 w2]|[]| |]; try done.
    destruct IH as (-> & Hinv2 & Hgrow2 & Hdone2). split_and!; [done|done|set_solver|].
    intros x [->|Hx]%elem_of_cons; [|by apply Hdone2]. apply Hgrow2, Hdone. left.
  - split; [done|]. intros Hin. apply Hm in Hin as [r' Hr']. congruence.
Qed.

Lemma visit_step_ok fuel step visiting visited :
  step ∈ step_ids steps → visit_inv visiting visited → (∀ v, v ∈ visiting → tc R v step) →
  (size K < size visiting + fuel)%nat →
  visit_post visiting visited [step] (visit_step fuel m step (visiting, visited)).
Proof.
  revert step visiting visited. induction fuel as [|fuel IH]; intros step visiting visited Hstep Hinv Hpath Hfuel;
    cbn [visit_step].
  { exfalso. assert (visiting ⊆ K) as Hsub by (pose proof (vi_known _ _ Hinv); set_solver).
    apply subseteq_size in Hsub. lia. }
  cbn [fst snd]. case_bool_decide as Hvisited.
  { split_and!; [done|done|done|]. by intros x ->%list_elem_of_singleton. }
  case_bool_decide as Hvisiting; [by apply Hpath|].
  destruct (proj2 (Hm step) Hstep) as [r Hr]. rewrite Hr.
  assert (visit_inv ({[step]} ∪ visiting) visited) as Hinv'.
  { destruct Hinv as [Hk Hd ??]. split; [|set_solver|done|done]. intros x. rewrite !elem_of_union, elem_of_singleton.
    intros [[->|?]|?]; [by apply elem_of_list_to_set|apply Hk; set_solver..]. }
  pose proof (visit_dependencies_ok (visit_step fuel m) ({[step]} ∪ visiting) step (st_depends_on (rs_spec r)) visited) as Hvd.
  assert (∀ d, d ∈ st_depends_on (rs_spec r) → R step d) as Hsub by (intros d; by apply Hdeps).
  specialize (Hvd Hsub).
  assert (∀ d visited, R step d → d ∈ step_ids steps → visit_inv ({[step]} ∪ visiting) visited →
     visit_post ({[step]} ∪ visiting) visited [d] (visit_step fuel m d ({[step]} ∪ visiting, visited))) as Hrec.
  { intros d visited' Hd Hin Hinv2. apply IH; [done|done| |].
    - intros v [->%elem_of_singleton|Hv]%elem_of_union; [by apply tc_once|]. apply tc_r with step; [by apply Hpath|done].
    - rewrite size_union, size_singleton by set_solver. lia. }
  specialize (Hvd Hrec Hinv').
  destruct (visit_dependencies _ _ _ _ _) as [[v1 v2]|[]| |]; try done. cbn [mbind outcome_bind].
  destruct Hvd as (-> & Hinv2 & Hgrow & Hdone). cbn [fst snd].
  assert (step ∉ v2) as Hnew by (pose proof (vi_disjoint _ _ Hinv2); set_solver).
  assert (∀ b, R step b → b ∈ v2) as Hall by (intros b Hb; apply Hdone; by apply (Hdeps step r)).
  split_and!; [set_solver| |set_solver|].
  - destruct Hinv2 as [Hk2 Hd2 Hc2 Ha2]. split.
    + intros x Hx. apply Hk2. set_solver.
    + set_solver.
    + intros x y. rewrite !elem_of_union, !elem_of_singleton. intros [->|Hx] Hxy; [right; by apply Hall|].
      right. by eapply Hc2.
    + intros x Hx. apply (acyclic_extend R (λ x, x ∈ v2) step); [exact Hc2|exact Ha2|done|exact Hall|].
      set_solver.
  - intros x ->%list_elem_of_singleton. set_solver.
Qed.

Lemma visit_steps_ok fuel rendered visited :
  (∀ r, r ∈ rendered → rs_id r ∈ step_ids steps) → visit_inv ∅ visited → (size K < fuel)%nat →
  visit_post ∅ visited (rs_id <$> rendered) (visit_steps fuel m rendered (∅, visited)).
Proof.
  intros Hsub Hinv Hfuel. revert visited Hinv. induction rendered as [|r rendered IH]; intros visited Hinv; cbn [visit_steps].
  { split_and!; [done|done|done|]. by intros x ?%not_elem_of_nil. }
  pose proof (visit_step_ok fuel (rs_id r) ∅ visited) as Hvisit.
  assert (rs_id r ∈ step_ids steps) as Hr by (apply Hsub; left).
  specialize (Hvisit Hr Hinv ltac:(set_solver) ltac:(lia)).
  destruct (visit_step _ _ _ _) as [[v1 v2]|[]| |]; try done. cbn [mbind outcome_bind].
  destruct Hvisit as (-> & Hinv' & Hgrow & Hdone).
  assert (∀ x, x ∈ rendered → rs_id x ∈ step_ids steps) as Hsub' by (intros x Hx; apply Hsub; by right).
  specialize (IH Hsub' v2 Hinv'). destruct (visit_steps _ _ _ _) as [[w1 w2]|[]| |]; try done.
  destruct IH as (-> & Hinv2 & Hgrow2 & Hdone2). split_and!; [done|done|set_solver|].
  cbn [fmap list_fmap]. intros x [->|Hx]%elem_of_cons; [|by apply Hdone2]. apply Hgrow2, Hdone. left.
Qed.
End search.

(** ** Validation *)
Lemma index_rendered_spec steps pre m :
  (∀ k r, m !! k = Some r ↔ r ∈ pre ∧ rs_id r = k) → NoDup (rs_id <$> pre) →
  match index_rendered steps m with
  | Ret m' => (∀ k r, m' !! k = Some r ↔ r ∈ pre ++ steps ∧ rs_id r = k) ∧ NoDup (rs_id <$> pre ++ steps)
  | Fail (DuplicateStep x) => (1 < occurrences x (rs_id <$> pre ++ steps))%nat
  | _ => False
  end.
Proof.
  revert pre m. induction steps as [|s steps IH]; intros pre m Hm Hnd; cbn [index_rendered].
  { by rewrite app_nil_r. }
  destruct (m !! rs_id s) as [t|] eqn:Ht.
  - apply Hm in Ht as (Ht & Hid). rewrite fmap_app, fmap_cons, occurrences_app, occurrences_cons, decide_True by done.
    assert (0 < occurrences (rs_id s) (rs_id <$> pre))%nat; [|lia].
    apply occurrences_positive. rewrite <-Hid. by apply list_elem_of_fmap_2.
  - assert (rs_id s ∉ rs_id <$> pre) as Hfresh.
    { intros (t & Hid & Hin)%list_elem_of_fmap. assert (m !! rs_id s = Some t) by (by apply Hm). congruence. }
    specialize (IH (pre ++ [s]) (<[rs_id s:=s]> m)). rewrite <-(assoc_L (++)) in IH. apply IH.
    + intros k t. destruct (decide (rs_id s = k)) as [<-|Hne].
      * rewrite lookup_insert_eq. split; [intros; simplify_eq; split; [set_solver|done]|].
        intros (Hin & Hid). rewrite elem_of_app, list_elem_of_singleton in Hin.
        destruct Hin as [Hin| ->]; [|done]. destruct Hfresh. rewrite <-Hid. by apply list_elem_of_fmap_2.
      * rewrite lookup_insert_ne by done. rewrite (Hm k t), elem_of_app, list_elem_of_singleton. naive_solver.
    + rewrite fmap_app, NoDup_app. split; [done|]. split; [|apply NoDup_singleton]. cbn. set_solver.
Qed.

Lemma check_phases_spec m steps :
  match check_phases m steps with
  | Ret _ => ∀ s d, s ∈ steps → st_phase (rs_spec s) = System → d ∈ st_depends_on (rs_spec s) → user_step m d = false
  | Fail (InvalidPhaseDependency x d) => ∃ s, s ∈ steps ∧ rs_id s = x ∧ st_phase (rs_spec s) = System ∧
      d ∈ st_depends_on (rs_spec s) ∧ user_step m d = true
  | _ => False
  end.
Proof.
  induction steps as [|s steps IH]; cbn [check_phases]; [by intros s d ?%not_elem_of_nil|].
  destruct (find_first _ _) as [d|] eqn:Hfind.
  - apply find_first_some in Hfind as [Hd [?%bool_decide_eq_true Huser]%andb_true_iff]. exists s. split; [left|done].
  - rewrite find_first_none in Hfind. destruct (check_phases m steps) as [[]|[]| |]; try done.
    + intros t d [->|Ht]%elem_of_cons Hsys Hd; [|by apply (IH t)]. specialize (Hfind d Hd). by rewrite bool_decide_true in Hfind.
    + destruct IH as (t & ? & ?). exists t. split; [by right|done].
Qed.

Lemma specs_ids steps : step_ids (specs steps) = rs_id <$> steps.
Proof. unfold step_ids, specs. by rewrite <-list_fmap_compose. Qed.

Lemma graph_fault_invalid steps e : graph_fault steps e → ¬ valid_graph steps.
Proof.
  intros Hf [Hnd Hknown Hphase Hac]. destruct e as [x|x d|x d|x]; cbn in Hf.
  - pose proof (occurrences_nodup x _ Hnd). lia.
  - destruct Hf as [Hd Hn]. by apply Hn, (Hknown x).
  - destruct Hf as (s & t & Hs & Ht & <- & <- & Hd & Hsys & Husr). by rewrite (Hphase s t) in Husr.
  - by apply (Hac x).
Qed.

Lemma validate_graph_spec steps :
  match validate_graph steps with
  | Ret _ => valid_graph (specs steps)
  | Fail e => graph_fault (specs steps) e ∧ ¬ valid_graph (specs steps)
  | Panic | Timeout => False
  end.
Proof.
  assert (∀ e, graph_fault (specs steps) e → graph_fault (specs steps) e ∧ ¬ valid_graph (specs steps)) as Hfault.
  { intros e He. split; [done|]. by eapply graph_fault_invalid. }
  unfold validate_graph.
  pose proof (index_rendered_spec steps [] ∅ ltac:(intros ??; rewrite lookup_empty; set_solver) ltac:(constructor)) as Hi.
  destruct (index_rendered steps ∅) as [m|[]| |]; try done; cbn [mbind outcome_bind app] in *;
    [|apply Hfault; cbn; by rewrite specs_ids].
  destruct Hi as [Hm Hnd].
  assert (∀ r, r ∈ steps → rs_spec r ∈ specs steps) as Hspec by (intros; by apply list_elem_of_fmap_2).
  pose proof (check_phases_spec m steps) as Hp.
  destruct (check_phases m steps) as [[]|[]| |]; try done; cbn [mbind outcome_bind app] in *.
  2:{ apply Hfault. destruct Hp as (s & Hs & Hid & Hsys & Hd & Huser). unfold user_step in Huser.
      destruct (m !! dependency) as [t|] eqn:Ht; [|done]. apply bool_decide_eq_true in Huser.
      apply Hm in Ht as [Ht Htid]. exists (rs_spec s), (rs_spec t). split_and!; auto. }
  assert (∀ k, (∃ r, m !! k = Some r) ↔ k ∈ step_ids (specs steps)) as Hdom.
  { intros k. rewrite specs_ids, list_elem_of_fmap. setoid_rewrite Hm. naive_solver. }
  assert (∀ k r, m !! k = Some r → ∀ d, d ∈ st_depends_on (rs_spec r) ↔ depends (specs steps) k d) as Hdeps.
  { intros k r [Hr <-]%Hm d. split; [intros Hd; exists (rs_spec r); auto|].
    intros (s & (t & -> & Ht)%list_elem_of_fmap & Hid & Hd).
    assert (m !! rs_id r = Some t) as Hlook by (by apply Hm). rewrite (proj2 (Hm (rs_id r) r)) in Hlook by done.
    by simplify_eq. }
  pose proof (visit_steps_ok (specs steps) m Hdom Hdeps (S (length steps)) steps ∅) as Hv.
  assert (∀ r, r ∈ steps → rs_id r ∈ step_ids (specs steps)) as Hsub.
  { intros r Hr. rewrite specs_ids. by apply list_elem_of_fmap_2. }
  specialize (Hv Hsub). assert (visit_inv (specs steps) ∅ ∅) as Hinv by (split; set_solver).
  specialize (Hv Hinv). rewrite size_list_to_set in Hv by by rewrite specs_ids.
  rewrite specs_ids, length_fmap in Hv. specialize (Hv ltac:(lia)).
  destruct (visit_steps _ _ _ _) as [[v1 v2]|[]| |]; try done; cbn [mbind outcome_bind];
    [|by apply Hfault..].
  destruct Hv as (_ & Hinv2 & _ & Hdone). split.
  - by rewrite specs_ids.
  - intros a b Hab. pose proof Hab as (s & (r & -> & Hr)%list_elem_of_fmap & <- & _).
    assert (b ∈ v2) as Hb.
    { eapply (vi_closed _ _ _ Hinv2); [|exact Hab]. apply Hdone. by apply (list_elem_of_fmap_2 rs_id). }
    pose proof (vi_known _ _ _ Hinv2 b ltac:(set_solver)) as Hk. by apply elem_of_list_to_set in Hk.
  - intros s t (r & -> & Hr)%list_elem_of_fmap (r' & -> & Hr')%list_elem_of_fmap Hsys Hd.
    specialize (Hp r _ Hr Hsys Hd). unfold user_step in Hp. rewrite (proj2 (Hm (st_id (rs_spec r')) r')) in Hp by done.
    apply bool_decide_eq_false in Hp. by destruct (st_phase (rs_spec r')).
  - intros a Ha. assert (a ∈ rs_id <$> steps) as Hin.
    { rewrite <-specs_ids. apply elem_of_step_ids.
      inversion Ha as [? ? (s & ? & ? & _)|? ? ? (s & ? & ? & _)]; subst; eauto. }
    apply (vi_acyclic _ _ _ Hinv2 a); [|done]. by apply Hdone.
Qed.

(** C27: The depth-first search of [validate_graph] accepts exactly the plans whose dependency graph is
    valid, names what is wrong with the others, and always ends. *)
Theorem validate_graph_correct steps :
  match validate_graph steps with
  | Ret _ => valid_graph (specs steps)
  | Fail e => graph_fault (specs steps) e ∧ ¬ valid_graph (specs steps)
  | Panic | Timeout => False
  end.
Proof. apply validate_graph_spec. Qed.

(** ** What the server accepts, the guest runs *)
Lemma valid_graph_placed steps placement :
  valid_graph (specs steps) →
  let placed := filter (λ step, rs_placement step = placement) steps in
  valid_graph (specs (retain_dependencies (list_to_set (rs_id <$> placed)) <$> placed)).
Proof.
  intros [Hnd Hknown Hphase Hac] placed. set (ids := list_to_set (C:=gset str) (rs_id <$> placed)).
  assert (∀ s, s ∈ specs (retain_dependencies ids <$> placed) → ∃ r, r ∈ placed ∧ r ∈ steps ∧ st_id s = rs_id r ∧
    st_phase s = st_phase (rs_spec r) ∧ ∀ d, d ∈ st_depends_on s ↔ d ∈ ids ∧ d ∈ st_depends_on (rs_spec r)) as Hs.
  { intros s (r' & -> & (r & -> & Hr)%list_elem_of_fmap)%list_elem_of_fmap. exists r. split; [done|].
    split; [by apply list_elem_of_filter in Hr as [_ ?]|]. split_and!; [done..|]. intros d. cbn. by rewrite list_elem_of_filter. }
  assert (step_ids (specs (retain_dependencies ids <$> placed)) = rs_id <$> placed) as Hids.
  { rewrite specs_ids, <-list_fmap_compose. done. }
  assert (∀ a b, depends (specs (retain_dependencies ids <$> placed)) a b → depends (specs steps) a b ∧ b ∈ ids) as Hdep.
  { intros a b (s & (r & _ & Hr & Hid & _ & Hd)%Hs & <- & [Hb Hb']%Hd). split; [|done].
    exists (rs_spec r). split; [by apply list_elem_of_fmap_2|done]. }
  split.
  - rewrite Hids. rewrite specs_ids in Hnd. eapply sublist_NoDup; [exact Hnd|]. apply fmap_sublist, sublist_filter.
  - intros a b [_ Hb]%Hdep. rewrite Hids. by apply elem_of_list_to_set in Hb.
  - intros s t (r & _ & Hr & _ & -> & Hd)%Hs (r' & _ & Hr' & -> & -> & _)%Hs Hsys [_ Hin]%Hd.
    apply (Hphase (rs_spec r) (rs_spec r')); [by apply list_elem_of_fmap_2..|done|done].
  - intros a Htc. apply (Hac a). eapply tc_mono; [|exact Htc]. intros x y Hxy. by destruct (Hdep _ _ Hxy).
Qed.

(** C29: A plan that [RenderedBootstrapPlan::new] accepted splits by placement without an error, into
    plans that keep the steps of the placement with their dependencies among them, and whose graph the
    guest's scheduler orders. *)
Theorem accepted_plan_runs {RepoCheckout HealthcheckPlan} packages (repos : list RepoCheckout) shell
    (healthchecks : list HealthcheckPlan) steps plan placement :
  plan_new packages repos shell healthchecks steps = Ret plan →
  ∃ plan' order, for_placement plan placement = Ret plan' ∧
    rs_id <$> rp_steps plan' = rs_id <$> filter (λ step, rs_placement step = placement) steps ∧
    (∀ a b, depends (specs (rp_steps plan')) a b ↔
       depends (specs steps) a b ∧
       a ∈ rs_id <$> filter (λ step, rs_placement step = placement) steps ∧
       b ∈ rs_id <$> filter (λ step, rs_placement step = placement) steps) ∧
    ordered_steps (specs (rp_steps plan')) = Ret order.
Proof.
  unfold plan_new. pose proof (validate_graph_spec steps) as Hv.
  destruct (validate_graph steps) as [[]|e| |]; cbn [mbind outcome_bind]; [|done..]. intros [= <-].
  unfold for_placement, plan_new. cbn [rp_steps].
  set (placed := filter (λ step, rs_placement step = placement) steps).
  set (steps' := retain_dependencies (list_to_set (rs_id <$> placed)) <$> placed).
  pose proof (valid_graph_placed steps placement Hv) as Hvalid. cbn zeta in Hvalid. fold placed steps' in Hvalid.
  pose proof (validate_graph_spec steps') as Hv'.
  destruct (validate_graph steps') as [[]|e| |]; [|by destruct Hv'|done..].
  pose proof (ordered_steps_spec (specs steps')) as Hord.
  destruct (ordered_steps (specs steps')) as [order|e| |] eqn:Horder; [|by destruct Hord|done..].
  eexists _, order. split; [done|]. cbn [rp_steps]. split_and!; [|intros a b|done].
  - unfold steps'. by rewrite <-list_fmap_compose.
  - split.
    + intros (s & (r' & -> & (r & -> & Hr)%list_elem_of_fmap)%list_elem_of_fmap & <- & [Hb Hb']%list_elem_of_filter).
      split; [|split; [by apply (list_elem_of_fmap_2 rs_id)|by apply elem_of_list_to_set in Hb]].
      exists (rs_spec r). split; [|done]. apply list_elem_of_filter in Hr as [_ Hr]. by apply list_elem_of_fmap_2.
    + intros ((s & (r & -> & Hr)%list_elem_of_fmap & <- & Hb) & (r' & Hid & Hr')%list_elem_of_fmap & Hbin).
      assert (r = r') as <-.
      { apply list_elem_of_filter in Hr' as [_ Hr']. pose proof (vg_unique _ Hv) as Hnd. rewrite specs_ids in Hnd.
        apply list_elem_of_lookup in Hr as [i Hi]. apply list_elem_of_lookup in Hr' as [j Hj].
        assert (i = j); [|congruence].
        apply (NoDup_lookup _ i j (rs_id r) Hnd); rewrite list_lookup_fmap; [by rewrite Hi|]. rewrite Hj. cbn. by f_equal. }
      exists (rs_spec (retain_dependencies (list_to_set (rs_id <$> placed)) r)).
      split; [by apply list_elem_of_fmap_2, list_elem_of_fmap_2|]. split; [done|]. cbn.
      apply list_elem_of_filter. split; [by apply elem_of_list_to_set|done].
Qed.

Section witness.
Let step (id : string) (placement : BootstrapStepPlacement) (deps : list string) :=
  {| rs_spec := bootstrap_step_spec (bytes_of id) [] System (bytes_of <$> deps) [PackageManager] 30;
     rs_placement := placement; rs_contents := [] |}.

Lemma accepted_plan_runs_witness :
  ∃ plan plan' order,
    plan_new (RepoCheckout:=unit) (HealthcheckPlan:=unit) [] [] [] []
      [step "repos" Instance_ ["packages"]; step "packages" Base ["user"]; step "user" Base []] = Ret plan ∧
    for_placement plan Base = Ret plan' ∧ rs_id <$> rp_steps plan' = bytes_of <$> ["packages"; "user"] ∧
    ordered_steps (specs (rp_steps plan')) = Ret order.
Proof.
  destruct (plan_new (RepoCheckout:=unit) (HealthcheckPlan:=unit) [] [] [] []
    [step "repos" Instance_ ["packages"]; step "packages" Base ["user"]; step "user" Base []]) as [plan|e| |] eqn:Hplan;
    [|exfalso; vm_compute in Hplan; discriminate..].
  destruct (accepted_plan_runs _ _ _ _ _ _ Base Hplan) as (plan' & order & Hfor & Hids & _ & Hord).
  exists plan, plan', order. split; [done|]. split; [done|]. split; [|done]. rewrite Hids. vm_compute. reflexivity.
Defined.
End witness.
