(* ===== verification/BootRun.v ===== *)
(** * Running the bootstrap plan in the guest
      (src/apps/agentdp-guest/src/system/bootstrap.rs)

    [BootstrapExecutor::run] loads the state file, reports what an earlier run
    left failed or interrupted, and otherwise starts the steps the scheduler
    offers, each as a task of its own, until every step has passed or one has
    failed and the running ones are drained.

    The state file and the message sink are the world of the run: its trace is
    the list of what was written, emitted and spawned, in order, and any write
    or emission may fail.  What the tasks send, and when, is the environment:
    the list of what [tokio::select!] yields. *)
From S2P Require Import Prelude Text Ordered BootPlan BootSchedule.
Local Open Scope Z_scope.

(** ** Messages (src/core/agentdp-protocol/src/server_guest/message.rs) *)
Inductive BootstrapLifecycleStatus := LifecyclePending | LifecycleRunning | LifecyclePassed | LifecycleFailed.
Inductive BootstrapStepStatus := StepPassed | StepFailed.
Inductive BootstrapOutputStream := Stdout | Stderr.

Record BootstrapStatusReport := {
  sr_plan_id : str;
  sr_plan_hash : str;
  sr_attempt_epoch : Z;
  sr_phase : BootstrapStepPhase;
  sr_status : BootstrapLifecycleStatus;
  sr_current_step : option str;
  sr_completed_steps : list str;
  sr_failed_step : option str;
  sr_pending_steps : list str;
}.

Record BootstrapFailed := {
  bf_attempt_epoch : Z;
  bf_step : str;
  bf_exit_status : Z;
  bf_duration_ms : Z;
  bf_message : str;
  bf_stdout_tail : str;
  bf_stderr_tail : str;
}.

(** The messages of the bootstrap; the three others carry no bootstrap state. *)
Inductive GuestMessageKind :=
| Hello
| BootstrapStatus (report : BootstrapStatusReport)
| BootstrapStepStarted (step label : str) (phase : BootstrapStepPhase) (attempt : Z)
| BootstrapOutput (step : str) (stream : BootstrapOutputStream) (chunk : str)
| BootstrapStepFinished (step : str) (status : BootstrapStepStatus) (exit_status duration_ms : Z)
| BootstrapFinishedMessage (plan_hash : str) (attempt_epoch : Z)
| BootstrapFailedMessage (failed : BootstrapFailed)
| CommandResult
| ErrorMessage.

(** ** The persisted state *)
Inductive StepRecordStatus := Pending | Running | Passed | Failed.
#[export] Instance step_record_status_eq_dec : EqDecision StepRecordStatus.
Proof. solve_decision. Defined.

Record StepRecord := {
  rc_id : str;
  rc_phase : BootstrapStepPhase;
  rc_status : StepRecordStatus;
  rc_attempt : Z;
  rc_exit_status : option Z;
  rc_duration_ms : option Z;
  rc_message : option str;
  rc_stdout_tail : option str;
  rc_stderr_tail : option str;
}.

Record BootstrapState := {
  bs_plan_hash : str;
  bs_attempt_epoch : Z;
  bs_steps : gmap str StepRecord;
}.

Definition fresh_state (plan_hash : str) : BootstrapState :=
  {| bs_plan_hash := plan_hash; bs_attempt_epoch := 0; bs_steps := ∅ |}.

Definition set_steps (steps : gmap str StepRecord) (s : BootstrapState) : BootstrapState :=
  {| bs_plan_hash := bs_plan_hash s; bs_attempt_epoch := bs_attempt_epoch s; bs_steps := steps |}.

Definition has_status (status : StepRecordStatus) (r : StepRecord) : bool := bool_decide (rc_status r = status).

Definition step_passed (s : BootstrapState) (step : str) : bool :=
  match bs_steps s !! step with Some record => has_status Passed record | None => false end.

Definition all_steps_passed (s : BootstrapState) (steps : list BootstrapStep) : bool :=
  forallb (λ step, step_passed s (st_id step)) steps.

Definition failed_step_record (s : BootstrapState) : option StepRecord :=
  find_first (has_status Failed) (map_values (bs_steps s)).
Definition failed_step (s : BootstrapState) : option str := rc_id <$> failed_step_record s.
Definition failed_step_phase (s : BootstrapState) : option BootstrapStepPhase := rc_phase <$> failed_step_record s.

(** [interrupted_step_mut]: the key of the record, for the caller writes through the reference. *)
Definition interrupted_step (s : BootstrapState) : option (str * StepRecord) :=
  find_first (λ p, has_status Running p.2) (map_sorted (bs_steps s)).

Definition reset_record (r : StepRecord) : StepRecord :=
  {| rc_id := rc_id r; rc_phase := rc_phase r; rc_status := Pending; rc_attempt := rc_attempt r;
     rc_exit_status := None; rc_duration_ms := None; rc_message := None;
     rc_stdout_tail := None; rc_stderr_tail := None |}.

Definition unfinished (r : StepRecord) : bool := has_status Running r || has_status Failed r.

(** [state.prepare_retry]: the flag and the state *)
Definition state_prepare_retry (attempt_epoch : Z) (s : BootstrapState) : bool * BootstrapState :=
  let found_failure := existsb unfinished (map_values (bs_steps s)) in
  let steps := (λ r, if unfinished r then reset_record r else r) <$> bs_steps s in
  (found_failure,
   {| bs_plan_hash := bs_plan_hash s;
      bs_attempt_epoch := if found_failure then attempt_epoch else bs_attempt_epoch s;
      bs_steps := steps |}).

Definition replace_record (r : StepRecord) (s : BootstrapState) : BootstrapState :=
  set_steps (<[rc_id r := r]> (bs_steps s)) s.

(** [attempt] is a [u32]; the release build wraps. *)
Definition start_step (step : BootstrapStep) (s : BootstrapState) : Z * BootstrapState :=
  let attempt := (from_option rc_attempt 0 (bs_steps s !! st_id step) + 1) mod (u32_max + 1) in
  (attempt,
   replace_record {| rc_id := st_id step; rc_phase := st_phase step; rc_status := Running; rc_attempt := attempt;
     rc_exit_status := None; rc_duration_ms := None; rc_message := None;
     rc_stdout_tail := None; rc_stderr_tail := None |} s).

Definition current_attempt (s : BootstrapState) (step : str) : Z := from_option rc_attempt 1 (bs_steps s !! step).

Definition mark_passed (step : BootstrapStep) (exit_status duration_ms : Z) (s : BootstrapState) : BootstrapState :=
  replace_record {| rc_id := st_id step; rc_phase := st_phase step; rc_status := Passed;
    rc_attempt := current_attempt s (st_id step);
    rc_exit_status := Some exit_status; rc_duration_ms := Some duration_ms; rc_message := None;
    rc_stdout_tail := None; rc_stderr_tail := None |} s.

Definition mark_failed (step : BootstrapStep) (exit_status duration_ms : Z) (message stdout_tail stderr_tail : str)
    (s : BootstrapState) : BootstrapFailed * BootstrapState :=
  ({| bf_attempt_epoch := bs_attempt_epoch s; bf_step := st_id step; bf_exit_status := exit_status;
      bf_duration_ms := duration_ms; bf_message := message; bf_stdout_tail := stdout_tail;
      bf_stderr_tail := stderr_tail |},
   replace_record {| rc_id := st_id step; rc_phase := st_phase step; rc_status := Failed;
     rc_attempt := current_attempt s (st_id step);
     rc_exit_status := Some exit_status; rc_duration_ms := Some duration_ms; rc_message := Some message;
     rc_stdout_tail := Some stdout_tail; rc_stderr_tail := Some stderr_tail |} s).

Definition bootstrap_failed_event (attempt_epoch : Z) (r : StepRecord) : BootstrapFailed :=
  {| bf_attempt_epoch := attempt_epoch; bf_step := rc_id r;
     bf_exit_status := from_option id (-1) (rc_exit_status r);
     bf_duration_ms := from_option id 0 (rc_duration_ms r);
     bf_message := from_option id (bytes_of "bootstrap step failed") (rc_message r);
     bf_stdout_tail := from_option id [] (rc_stdout_tail r);
     bf_stderr_tail := from_option id [] (rc_stderr_tail r) |}.

(** ** The world of a run *)
Inductive effect :=
| Saved (s : BootstrapState)
| Emitted (m : GuestMessageKind)
| Spawned (step : BootstrapStep).

(** [io_faults] decides, write by write and emission by emission, which fail; they succeed when it ends. *)
Record Io := { io_trace : list effect; io_faults : list bool }.

Inductive GuestError :=
| IoFailed
| StateUnreadable
| StateMalformed
| OrderingFailed (e : OrderError)
| EpochMismatch (attempt_epoch current : Z)
| NothingToRetry
| NoRunnableSteps
| StoppedWithoutFailure
| StepError
| TaskFailed.

Definition fallible (e : effect) : stm Io GuestError unit := λ io,
  match io_faults io with
  | true :: faults => (Fail IoFailed, {| io_trace := io_trace io; io_faults := faults |})
  | _ => (Ret tt, {| io_trace := io_trace io ++ [e]; io_faults := tail (io_faults io) |})
  end.

(** [state.save]: the file is replaced atomically. *)
Definition save (s : BootstrapState) : stm Io GuestError unit := fallible (Saved s).
Definition emit (m : GuestMessageKind) : stm Io GuestError unit := fallible (Emitted m).
(** [tasks.spawn] *)
Definition spawn (step : BootstrapStep) : stm Io GuestError unit :=
  stm_modify (λ io, {| io_trace := io_trace io ++ [Spawned step]; io_faults := io_faults io |}).

(** What [fs::read_to_string] and [serde_json::from_str] make of the state file. *)
Inductive state_file := NotFound | Unreadable | Malformed | Contents (s : BootstrapState).

Definition load (file : state_file) (plan_hash : str) : outcome GuestError BootstrapState :=
  match file with
  | NotFound => Ret (fresh_state plan_hash)
  | Unreadable => Fail StateUnreadable
  | Malformed => Fail StateMalformed
  | Contents state =>
    Ret (if bool_decide (bs_plan_hash state = plan_hash) then state else fresh_state plan_hash)
  end.

(** ** The executor *)
Record BootstrapExecutor := { ex_plan : BootstrapPlan; ex_plan_id : str; ex_plan_hash : str }.

(** [format!("{byte:02x}")] *)
Definition hex_digit (n : Z) : Z := if n <? 10 then 48 + n else 87 + n.
Definition hex (bytes : bytes) : str := bytes ≫= λ byte, [hex_digit (byte / 16); hex_digit (byte mod 16)].

Section plan_hash.
(** [Sha256::digest] and [serde_json::to_vec] *)
Context (sha256 : bytes → bytes) (to_vec : BootstrapPlan → option bytes).

Definition plan_hash (plan : BootstrapPlan) : str :=
  bytes_of "sha256:" ++ hex (sha256 (from_option id [] (to_vec plan))).

Definition executor_new (plan : BootstrapPlan) (plan_id : str) : BootstrapExecutor :=
  {| ex_plan := plan; ex_plan_id := plan_id; ex_plan_hash := plan_hash plan |}.
End plan_hash.

Definition pending_steps (ex : BootstrapExecutor) (s : BootstrapState) : list str :=
  st_id <$> filter (λ step, step_passed s (st_id step) = false) (bp_steps (ex_plan ex)).
Definition completed_steps (ex : BootstrapExecutor) (s : BootstrapState) : list str :=
  st_id <$> filter (λ step, step_passed s (st_id step) = true) (bp_steps (ex_plan ex)).

Definition status_phase (ex : BootstrapExecutor) (s : BootstrapState) : BootstrapStepPhase :=
  match failed_step_phase s with
  | Some phase => phase
  | None =>
    match find_first (λ step, negb (step_passed s (st_id step))) (bp_steps (ex_plan ex)) with
    | Some step => st_phase step
    | None => if existsb (λ step, bool_decide (st_phase step = User)) (bp_steps (ex_plan ex)) then User else System
    end
  end.

Definition emit_status (ex : BootstrapExecutor) (s : BootstrapState) (status : BootstrapLifecycleStatus)
    (current_step : option BootstrapStep) : stm Io GuestError unit :=
  emit (BootstrapStatus
    {| sr_plan_id := ex_plan_id ex; sr_plan_hash := ex_plan_hash ex; sr_attempt_epoch := bs_attempt_epoch s;
       sr_phase := from_option st_phase (status_phase ex s) current_step;
       sr_status := status;
       sr_current_step := st_id <$> current_step;
       sr_completed_steps := completed_steps ex s;
       sr_failed_step := failed_step s;
       sr_pending_steps := pending_steps ex s |}).

(** [executor.prepare_retry] *)
Definition prepare_retry (ex : BootstrapExecutor) (file : state_file) (attempt_epoch : Z) : stm Io GuestError bool :=
  state ← stm_lift (load file (ex_plan_hash ex));
  if attempt_epoch =? bs_attempt_epoch state then mret false
  else if negb (attempt_epoch =? saturating_add64 (bs_attempt_epoch state) 1)
  then stm_fail (EpochMismatch attempt_epoch (bs_attempt_epoch state))
  else
    let '(found_failure, state) := state_prepare_retry attempt_epoch state in
    if negb found_failure then stm_fail NothingToRetry
    else _ ← save state; mret true.

Definition report_existing_failure (ex : BootstrapExecutor) (s : BootstrapState) : stm Io GuestError bool :=
  match failed_step_record s with
  | None => mret false
  | Some failed =>
    _ ← emit_status ex s LifecycleFailed None;
    _ ← emit (BootstrapFailedMessage (bootstrap_failed_event (bs_attempt_epoch s) failed));
    mret true
  end.

Definition interrupted_record (r : StepRecord) : StepRecord :=
  {| rc_id := rc_id r; rc_phase := rc_phase r; rc_status := Failed; rc_attempt := rc_attempt r;
     rc_exit_status := Some (-1); rc_duration_ms := rc_duration_ms r;
     rc_message := Some (bytes_of "bootstrap step was interrupted before completion");
     rc_stdout_tail := rc_stdout_tail r; rc_stderr_tail := rc_stderr_tail r |}.

Definition mark_interrupted_step (ex : BootstrapExecutor) (s : BootstrapState)
    : stm Io GuestError (bool * BootstrapState) :=
  match interrupted_step s with
  | None => mret (false, s)
  | Some (key, interrupted) =>
    let interrupted := interrupted_record interrupted in
    let s' := set_steps (<[key := interrupted]> (bs_steps s)) s in
    _ ← save s';
    _ ← emit_status ex s' LifecycleFailed None;
    _ ← emit (BootstrapFailedMessage (bootstrap_failed_event (bs_attempt_epoch s) interrupted));
    mret (true, s')
  end.

(** ** Running the steps *)
Record StepOutput := {
  so_exit_status : Z;
  so_timed_out : bool;
  so_duration_ms : Z;
  so_stdout_tail : str;
  so_stderr_tail : str;
}.

(** [None] is an error of the step's executor. *)
Inductive BootstrapTaskEvent :=
| Message (m : GuestMessageKind)
| Finished (step : BootstrapStep) (output : option StepOutput).

Inductive BootstrapRunStatus := RunCompleted | RunFailed (failed : BootstrapFailed).

(** The local variables of [run_steps]; [rn_tasks] are the spawned tasks whose end is not handled. *)
Record Run := {
  rn_state : BootstrapState;
  rn_scheduler : BootstrapScheduler;
  rn_failure : option BootstrapFailed;
  rn_tasks : list BootstrapStep;
}.

(** Decimal digits, as [Display] of an integer writes them. *)
Fixpoint digits (fuel : nat) (n : Z) (acc : str) : str :=
  match fuel with
  | O => acc
  | S fuel => let acc := 48 + n mod 10 :: acc in if n / 10 =? 0 then acc else digits fuel (n / 10) acc
  end.
Definition display (n : Z) : str := if n <? 0 then 45 :: digits 20 (- n) [] else digits 20 n [].

Definition failure_message (step : BootstrapStep) (output : StepOutput) : str :=
  if so_timed_out output
  then bytes_of "bootstrap step " ++ st_id step ++ bytes_of " timed out after " ++
       display (st_timeout_seconds step) ++ bytes_of " seconds"
  else bytes_of "bootstrap step " ++ st_id step ++ bytes_of " exited with status " ++ display (so_exit_status output).

(** The body of [while scheduler.can_start()] once a step is ready *)
Definition launch_step (ex : BootstrapExecutor) (step : BootstrapStep) (r : Run) : stm Io GuestError Run :=
  let '(attempt, state) := start_step step (rn_state r) in
  _ ← save state;
  _ ← emit_status ex state LifecycleRunning (Some step);
  _ ← emit (BootstrapStepStarted (st_id step) (st_label step) (st_phase step) attempt);
  _ ← spawn step;
  mret {| rn_state := state; rn_scheduler := mark_running step (rn_scheduler r);
          rn_failure := rn_failure r; rn_tasks := rn_tasks r ++ [step] |}.

(** [while scheduler.can_start()]: every round starts another step. *)
Fixpoint start_steps (fuel : nat) (ex : BootstrapExecutor) (r : Run) : stm Io GuestError Run :=
  if negb (can_start (rn_scheduler r)) then mret r
  else match next_ready (step_passed (rn_state r)) (rn_scheduler r) with
       | None => mret r
       | Some step =>
         match fuel with
         | O => stm_lift Timeout
         | S fuel => r ← launch_step ex step r; start_steps fuel ex r
         end
       end.

Definition finish_passed_step (ex : BootstrapExecutor) (step : BootstrapStep) (output : StepOutput)
    (s : BootstrapState) : stm Io GuestError BootstrapState :=
  let s := mark_passed step (so_exit_status output) (so_duration_ms output) s in
  _ ← save s;
  _ ← emit (BootstrapStepFinished (st_id step) StepPassed (so_exit_status output) (so_duration_ms output));
  _ ← emit_status ex s (match failed_step_record s with Some _ => LifecycleFailed | None => LifecycleRunning end) None;
  mret s.

Definition finish_failed_step (ex : BootstrapExecutor) (step : BootstrapStep) (output : StepOutput)
    (s : BootstrapState) : stm Io GuestError (BootstrapFailed * BootstrapState) :=
  let '(failed, s) := mark_failed step (so_exit_status output) (so_duration_ms output)
    (failure_message step output) (so_stdout_tail output) (so_stderr_tail output) s in
  _ ← save s;
  _ ← emit_status ex s LifecycleFailed None;
  mret (failed, s).

Definition remove_task (step : BootstrapStep) (tasks : list BootstrapStep) : list BootstrapStep :=
  filter (λ t, st_id t ≠ st_id step) tasks.

(** [handle_task_event] and [failure.get_or_insert(failed)] *)
Definition handle_task_event (ex : BootstrapExecutor) (event : BootstrapTaskEvent) (r : Run) : stm Io GuestError Run :=
  match event with
  | Message m => _ ← emit m; mret r
  | Finished step output =>
    let scheduler := mark_finished step (rn_scheduler r) in
    let tasks := remove_task step (rn_tasks r) in
    match output with
    | None => stm_fail StepError
    | Some output =>
      if (so_exit_status output =? 0) && negb (so_timed_out output) then
        state ← finish_passed_step ex step output (rn_state r);
        mret {| rn_state := state; rn_scheduler := scheduler; rn_failure := rn_failure r; rn_tasks := tasks |}
      else
        '(failed, state) ← finish_failed_step ex step output (rn_state r);
        mret {| rn_state := state; rn_scheduler := stop scheduler;
                rn_failure := Some (from_option id failed (rn_failure r)); rn_tasks := tasks |}
    end
  end.

(** [drain_task_messages]: [queued] is what the channel holds. *)
Fixpoint drain_task_messages (queued : list BootstrapTaskEvent) : stm Io GuestError unit :=
  match queued with
  | [] => mret tt
  | Message m :: queued => _ ← emit m; drain_task_messages queued
  | Finished _ _ :: queued => drain_task_messages queued
  end.

(** One round of [loop] up to [select!]: what it returns, with the state, or the run that waits. *)
Definition round (ex : BootstrapExecutor) (queued : list BootstrapTaskEvent) (r : Run)
    : stm Io GuestError (BootstrapRunStatus * BootstrapState + Run) :=
  r ← start_steps (length (sc_steps (rn_scheduler r))) ex r;
  if all_steps_passed (rn_state r) (sc_steps (rn_scheduler r)) then
    _ ← drain_task_messages queued; mret (inl (RunCompleted, rn_state r))
  else if is_drained (rn_scheduler r) then
    if is_stopping (rn_scheduler r) then
      _ ← drain_task_messages queued;
      match rn_failure r with
      | Some failed => mret (inl (RunFailed failed, rn_state r))
      | None => stm_fail StoppedWithoutFailure
      end
    else stm_fail NoRunnableSteps
  else mret (inr r).

(** What [tokio::select!] yields: an event, or a task joined (or panicked). *)
Inductive select_branch :=
| Received (event : BootstrapTaskEvent)
| Joined (ok : bool).

Definition select (ex : BootstrapExecutor) (branch : select_branch) (r : Run) : stm Io GuestError Run :=
  match branch with
  | Received event => handle_task_event ex event r
  | Joined true => mret r
  | Joined false => stm_fail TaskFailed
  end.

(** What the environment does next: a running task sends a message, the [i]-th running task ends
    (counting round), or a task is joined. *)
Inductive choice :=
| TaskSends (m : GuestMessageKind)
| TaskEnds (i : nat) (output : option StepOutput)
| TaskJoins (ok : bool).

Definition resolve (tasks : list BootstrapStep) (c : choice) : select_branch :=
  match c with
  | TaskSends m => Received (Message m)
  | TaskEnds i output =>
    match tasks !! (i mod length tasks)%nat with
    | Some step => Received (Finished step output)
    | None => Joined true
    end
  | TaskJoins ok => Joined ok
  end.

(** The loop on the choices of the environment; it waits for ever when they end. *)
Fixpoint run_loop (ex : BootstrapExecutor) (queued : list BootstrapTaskEvent) (choices : list choice) (r : Run)
    : stm Io GuestError (BootstrapRunStatus * BootstrapState) :=
  next ← round ex queued r;
  match next with
  | inl status => mret status
  | inr r =>
    match choices with
    | [] => stm_lift Timeout
    | c :: choices => r ← select ex (resolve (rn_tasks r) c) r; run_loop ex queued choices r
    end
  end.

Definition run_steps (ex : BootstrapExecutor) (queued : list BootstrapTaskEvent) (choices : list choice)
    (state : BootstrapState) (scheduler : BootstrapScheduler)
    : stm Io GuestError (BootstrapRunStatus * BootstrapState) :=
  run_loop ex queued choices
    {| rn_state := state; rn_scheduler := scheduler; rn_failure := None; rn_tasks := [] |}.

Definition run_state (ex : BootstrapExecutor) (queued : list BootstrapTaskEvent) (choices : list choice)
    (state : BootstrapState) (scheduler : BootstrapScheduler) : stm Io GuestError unit :=
  _ ← emit_status ex state LifecyclePending None;
  reported ← report_existing_failure ex state;
  if (reported : bool) then mret tt
  else
    '(interrupted, state) ← mark_interrupted_step ex state;
    if (interrupted : bool) then mret tt
    else
      '(status, state) ← run_steps ex queued choices state scheduler;
      match status with
      | RunFailed failed =>
        _ ← emit_status ex state LifecycleFailed None;
        emit (BootstrapFailedMessage failed)
      | RunCompleted =>
        _ ← emit_status ex state LifecyclePassed None;
        emit (BootstrapFinishedMessage (ex_plan_hash ex) (bs_attempt_epoch state))
      end.

(** [BootstrapExecutor::run]; [bootstrap_parallelism()] is a [NonZeroUsize], or one. *)
Definition run (parallelism : positive) (ex : BootstrapExecutor) (file : state_file)
    (queued : list BootstrapTaskEvent) (choices : list choice) : stm Io GuestError unit :=
  scheduler ← stm_lift (map_err OrderingFailed (scheduler_new (Pos.to_nat parallelism) (ex_plan ex)));
  state ← stm_lift (load file (ex_plan_hash ex));
  run_state ex queued choices state scheduler.
