(* ===== verification/BootSafety.v ===== *)
(** * What a bootstrap run does, whatever the tasks and the disk do

    The traces of [run]: every launch is justified by the state on disk, no
    step is launched twice, and a run whose tasks end reports the bootstrap as
    finished or failed. *)
From S2P Require Import Prelude Text Ordered BootPlan BootSchedule BootRun.

(** ** Weakest preconditions over traces

    [wp m tr Q X]: from any world with trace [tr], [m] returns a value that
    satisfies [Q] with the trace it leaves, or ends otherwise ([Some] error, or
    [None] when it waits for ever) within [X]; it never panics. *)
Definition wp {A} (m : stm Io GuestError A) (tr : list effect) (Q : A → list effect → Prop)
    (X : option GuestError → list effect → Prop) : Prop :=
  ∀ faults, match m {| io_trace := tr; io_faults := faults |} with
            | (Ret a, io) => Q a (io_trace io)
            | (Fail e, io) => X (Some e) (io_trace io)
            | (Timeout, io) => X None (io_trace io)
            | (Panic, _) => False
            end.

Section wp.
Context {A B : Type}.

Lemma wp_bind (m : stm Io GuestError A) (f : A → stm Io GuestError B) tr Q X :
  wp m tr (λ a tr', wp (f a) tr' Q X) X → wp (m ≫= f) tr Q X.
Proof.
  intros Hm faults. specialize (Hm faults). unfold mbind, stm_bind.
  destruct (m _) as [[a|e| |] [tr' faults']]; cbn in *; try done. apply Hm.
Qed.

Lemma wp_mono (m : stm Io GuestError A) tr (Q Q' : A → list effect → Prop) (X X' : option GuestError → list effect → Prop) :
  wp m tr Q X → (∀ a tr', Q a tr' → Q' a tr') → (∀ e tr', X e tr' → X' e tr') → wp m tr Q' X'.
Proof.
  intros Hm HQ HX faults. specialize (Hm faults). destruct (m _) as [[a|e| |] io]; auto.
Qed.

Lemma wp_ret (a : A) tr (Q : A → list effect → Prop) X : Q a tr → wp (mret a) tr Q X.
Proof. by intros HQ faults. Qed.

Lemma wp_fail e tr (Q : A → list effect → Prop) (X : option GuestError → list effect → Prop) :
  X (Some e) tr → wp (stm_fail e) tr Q X.
Proof. by intros HX faults. Qed.

Lemma wp_wait tr (Q : A → list effect → Prop) (X : option GuestError → list effect → Prop) :
  X None tr → wp (stm_lift Timeout) tr Q X.
Proof. by intros HX faults. Qed.
End wp.

Lemma wp_fallible e tr (Q : unit → list effect → Prop) (X : option GuestError → list effect → Prop) :
  X (Some IoFailed) tr → Q tt (tr ++ [e]) → wp (fallible e) tr Q X.
Proof. intros HX HQ faults. unfold fallible. by destruct faults as [|[] faults]. Qed.

Lemma wp_spawn step tr (Q : unit → list effect → Prop) X : Q tt (tr ++ [Spawned step]) → wp (spawn step) tr Q X.
Proof. by intros HQ faults. Qed.

(** ** Traces *)

(** The state on disk after a trace *)
Definition disk_of (init : BootstrapState) (tr : list effect) : BootstrapState :=
  foldl (λ disk e, match e with Saved s => s | _ => disk end) init tr.

Definition launched (tr : list effect) : list str :=
  omap (λ e, match e with Spawned step => Some (st_id step) | _ => None end) tr.

Definition record_is (status : StepRecordStatus) (s : BootstrapState) (x : str) : Prop :=
  ∃ r, bs_steps s !! x = Some r ∧ rc_status r = status.

Definition record_isb (status : StepRecordStatus) (s : BootstrapState) (x : str) : bool :=
  match bs_steps s !! x with Some r => has_status status r | None => false end.

(** Two steps that must not run at the same time *)
Definition shares (s t : BootstrapStep) : Prop := ∃ r, r ∈ st_resources s ∧ r ∈ st_resources t.

(** What must be on disk when the script of [step] starts *)
Record justified_launch (steps : list BootstrapStep) (max_parallelism : nat) (disk : BootstrapState)
    (step : BootstrapStep) : Prop := {
  jl_planned : step ∈ steps;
  jl_recorded : record_is Running disk (st_id step);
  jl_dependencies : ∀ d, d ∈ st_depends_on step → record_is Passed disk d;
  jl_phase : st_phase step = User → ∀ t, t ∈ steps → st_phase t = System → record_is Passed disk (st_id t);
  jl_exclusive : ∀ t, t ∈ steps → t ≠ step → record_is Running disk (st_id t) → ¬ shares t step;
  jl_parallel : (length (filter (λ t, record_isb Running disk (st_id t) = true) steps) ≤ max_parallelism)%nat;
}.

Lemma disk_of_app init tr tr' : disk_of init (tr ++ tr') = disk_of (disk_of init tr) tr'.
Proof. apply foldl_app. Qed.

Lemma launched_app tr tr' : launched (tr ++ tr') = launched tr ++ launched tr'.
Proof. apply omap_app. Qed.

Lemma record_isb_spec status s x : record_isb status s x = true ↔ record_is status s x.
Proof.
  unfold record_isb, record_is, has_status. destruct (bs_steps s !! x) as [r|].
  - rewrite bool_decide_eq_true. naive_solver.
  - naive_solver.
Qed.

Lemma step_passed_spec s x : step_passed s x = true ↔ record_is Passed s x.
Proof. apply (record_isb_spec Passed). Qed.

Lemma record_is_replace status s r x :
  record_is status (replace_record r s) x ↔
  if decide (x = rc_id r) then rc_status r = status else record_is status s x.
Proof.
  unfold record_is, replace_record. cbn. case_decide as Hx.
  - rewrite Hx, lookup_insert_eq. naive_solver.
  - by rewrite lookup_insert_ne.
Qed.

Lemma record_is_unique status status' s x : record_is status s x → record_is status' s x → status = status'.
Proof. unfold record_is. naive_solver. Qed.

Lemma failed_step_record_none s : failed_step_record s = None ↔ ∀ x, ¬ record_is Failed s x.
Proof.
  unfold failed_step_record, has_status. rewrite find_first_none. split.
  - intros Hall x (r & Hr & Hst). specialize (Hall r). rewrite elem_of_map_values in Hall.
    rewrite bool_decide_eq_false in Hall. naive_solver.
  - intros Hno r (k & Hk)%elem_of_map_values. apply bool_decide_eq_false. intros Hst. apply (Hno k). by exists r.
Qed.

Lemma interrupted_step_none s : interrupted_step s = None ↔ ∀ x, ¬ record_is Running s x.
Proof.
  unfold interrupted_step, has_status. rewrite find_first_none. split.
  - intros Hall x (r & Hr & Hst). specialize (Hall (x, r)). rewrite elem_of_map_sorted, bool_decide_eq_false in Hall.
    naive_solver.
  - intros Hno [k r] Hk%elem_of_map_sorted. apply bool_decide_eq_false. intros Hst. apply (Hno k). by exists r.
Qed.

Lemma all_steps_passed_spec s l : all_steps_passed s l = true ↔ ∀ t, t ∈ l → record_is Passed s (st_id t).
Proof.
  unfold all_steps_passed. rewrite forallb_forall. setoid_rewrite <-list_elem_of_In. setoid_rewrite step_passed_spec. done.
Qed.

(** ** The scheduler's choice *)
Lemma resources_available_spec sched step : resources_available sched step = true ↔
  ∀ t, t ∈ sc_steps sched → st_id t ∈ sc_running sched → ¬ shares t step.
Proof.
  unfold resources_available, shares.
  assert (negb (existsb (λ candidate, existsb (λ resource, bool_decide (resource ∈ st_resources step)) (st_resources candidate))
            (filter (λ candidate, st_id candidate ∈ sc_running sched) (sc_steps sched))) = true ↔
    ∀ t, t ∈ sc_steps sched → st_id t ∈ sc_running sched → ¬ ∃ r, r ∈ st_resources t ∧ r ∈ st_resources step) as Hgen.
  { rewrite negb_true_iff, <-not_true_iff_false, existsb_exists. split.
    - intros Hno t Ht Hrun (r & Hr1 & Hr2). apply Hno. exists t. split.
      + apply list_elem_of_In, list_elem_of_filter. done.
      + apply existsb_exists. exists r. split; [by apply list_elem_of_In|by apply bool_decide_eq_true].
    - intros Hall (t & Ht%list_elem_of_In & Hex). apply list_elem_of_filter in Ht as [Hrun Ht].
      apply existsb_exists in Hex as (r & Hr1%list_elem_of_In & Hr2%bool_decide_eq_true).
      apply (Hall t Ht Hrun). by exists r. }
  destruct (st_resources step) as [|r l]; [|done]. split; [|done].
  intros _ t _ _ (r & _ & Hr). by apply not_elem_of_nil in Hr.
Qed.

Lemma step_ready_spec s sched step : step_ready (step_passed s) sched step = true ↔
  ¬ record_is Passed s (st_id step) ∧ st_id step ∉ sc_running sched ∧
  (st_phase step = User → ∀ t, t ∈ sc_steps sched → st_phase t = System → record_is Passed s (st_id t)) ∧
  (∀ d, d ∈ st_depends_on step → record_is Passed s d) ∧
  (∀ t, t ∈ sc_steps sched → st_id t ∈ sc_running sched → ¬ shares t step).
Proof.
  unfold step_ready, phase_ready, dependencies_passed.
  rewrite !andb_true_iff, !negb_true_iff, bool_decide_eq_false, orb_true_iff, bool_decide_eq_true, resources_available_spec.
  rewrite <-not_true_iff_false, step_passed_spec, !forallb_forall.
  setoid_rewrite <-list_elem_of_In. setoid_rewrite list_elem_of_filter. setoid_rewrite step_passed_spec.
  destruct (st_phase step); naive_solver.
Qed.

(** ** The invariant of a run *)
Lemma filter_length_lt {A} (P Q : A → Prop) `{!∀ x, Decision (P x), !∀ x, Decision (Q x)} x l :
  (∀ y, P y → Q y) → x ∈ l → Q x → ¬ P x → (length (filter P l) < length (filter Q l))%nat.
Proof.
  intros HPQ Hx HQ HP.
  assert (∀ k, length (filter P k) ≤ length (filter Q k))%nat as Hle.
  { intros k. induction k as [|y k IH]; [done|]. rewrite !filter_cons.
    destruct (decide (P y)), (decide (Q y)); cbn; naive_solver lia. }
  induction l as [|y l IH]; [set_solver|]. rewrite !filter_cons.
  apply elem_of_cons in Hx as [->|Hx].
  - rewrite decide_False, decide_True by done. cbn. specialize (Hle l). lia.
  - destruct (decide (P y)), (decide (Q y)); cbn; naive_solver lia.
Qed.

Section run.
Context (ex : BootstrapExecutor) (steps : list BootstrapStep) (max_parallelism : nat) (init : BootstrapState).
Context (Hnodup : NoDup (step_ids steps)).

Definition trace_ok (tr : list effect) : Prop :=
  ∀ before step after, tr = before ++ Spawned step :: after →
    justified_launch steps max_parallelism (disk_of init before) step ∧
    ¬ record_is Passed init (st_id step) ∧ st_id step ∉ launched before.

Definition quiet (e : effect) : Prop := match e with Spawned _ => False | _ => True end.

Lemma trace_ok_quiet tr e : trace_ok tr → quiet e → trace_ok (tr ++ [e]).
Proof.
  intros Htr He before step after Heq. destruct after as [|e' after _] using rev_ind.
  - by apply app_inj_tail in Heq as [-> ->].
  - rewrite app_comm_cons, app_assoc in Heq. apply app_inj_tail in Heq as [-> _]. by eapply Htr.
Qed.

Lemma trace_ok_spawn tr step :
  trace_ok tr → justified_launch steps max_parallelism (disk_of init tr) step →
  ¬ record_is Passed init (st_id step) → st_id step ∉ launched tr → trace_ok (tr ++ [Spawned step]).
Proof.
  intros Htr ??? before step' after Heq. destruct after as [|e' after _] using rev_ind.
  - by apply app_inj_tail in Heq as [-> [= ->]].
  - rewrite app_comm_cons, app_assoc in Heq. apply app_inj_tail in Heq as [-> _]. by eapply Htr.
Qed.

Record run_ok (r : Run) (tr : list effect) : Prop := {
  ro_steps : sc_steps (rn_scheduler r) = steps;
  ro_max : sc_max_parallelism (rn_scheduler r) = max_parallelism;
  ro_planned : rn_tasks r ⊆ steps;
  ro_tasks : NoDup (step_ids (rn_tasks r));
  ro_running : ∀ x, x ∈ sc_running (rn_scheduler r) ↔ x ∈ step_ids (rn_tasks r);
  ro_records : ∀ x, record_is Running (rn_state r) x ↔ x ∈ step_ids (rn_tasks r);
  ro_failed : sc_stopping (rn_scheduler r) = false → ∀ x, ¬ record_is Failed (rn_state r) x;
  ro_failure : sc_stopping (rn_scheduler r) = true →
    is_Some (rn_failure r) ∧ ∃ x, record_is Failed (rn_state r) x;
  ro_kept : ∀ x, record_is Passed init x → record_is Passed (rn_state r) x;
  ro_disk : disk_of init tr = rn_state r;
  ro_trace : trace_ok tr;
  ro_launched : ∀ x, x ∈ launched tr → x ∈ step_ids (rn_tasks r) ∨
    record_is Passed (rn_state r) x ∨ record_is Failed (rn_state r) x;
}.

(** Effects that change neither the disk nor what was launched leave the invariant alone. *)
Lemma run_ok_emit r tr m : run_ok r tr → run_ok r (tr ++ [Emitted m]).
Proof.
  intros []. split; try done.
  - by rewrite disk_of_app.
  - by apply trace_ok_quiet.
  - intros x. rewrite launched_app, app_nil_r. auto.
Qed.

Lemma running_size r tr : run_ok r tr → size (sc_running (rn_scheduler r)) = length (rn_tasks r).
Proof.
  intros Hr. transitivity (length (step_ids (rn_tasks r))); [|by unfold step_ids; rewrite length_fmap].
  rewrite <-(size_list_to_set (C:=gset str)) by apply Hr. f_equal. apply set_eq. intros x.
  rewrite elem_of_list_to_set. apply Hr.
Qed.

Lemma running_records_bound r tr :
  run_ok r tr → (length (filter (λ t, record_isb Running (rn_state r) (st_id t) = true) steps) ≤ length (rn_tasks r))%nat.
Proof.
  intros Hr. apply submseteq_length, NoDup_submseteq.
  - apply NoDup_filter. by eapply NoDup_fmap_1.
  - intros t [Hrun%record_isb_spec Ht]%list_elem_of_filter. apply (ro_records _ _ Hr) in Hrun.
    apply elem_of_step_ids in Hrun as (t' & Ht' & Hid).
    assert (t' = t) as <-; [|done]. apply (step_unique steps); [done|by apply (ro_planned _ _ Hr)|done..].
Qed.

Lemma elem_of_step_ids_snoc l s x : x ∈ step_ids (l ++ [s]) ↔ x ∈ step_ids l ∨ x = st_id s.
Proof. unfold step_ids. rewrite fmap_app, elem_of_app. cbn. by rewrite list_elem_of_singleton. Qed.

Lemma tasks_lookup r tr x : run_ok r tr → x ∈ step_ids (rn_tasks r) → ∃ t, t ∈ steps ∧ t ∈ rn_tasks r ∧ st_id t = x.
Proof. intros Hr (t & Ht & <-)%elem_of_step_ids. exists t. split; [by apply (ro_planned _ _ Hr)|done]. Qed.

(** *** Launching *)
Lemma launch_step_ok step r tr (X : option GuestError → list effect → Prop) :
  run_ok r tr → can_start (rn_scheduler r) = true → step ∈ steps →
  step_ready (step_passed (rn_state r)) (rn_scheduler r) step = true →
  (∀ tr', trace_ok tr' → X (Some IoFailed) tr') →
  wp (launch_step ex step r) tr
    (λ r' tr', run_ok r' tr' ∧ rn_tasks r' = rn_tasks r ++ [step] ∧
       (∀ x, x ≠ st_id step → ∀ st, record_is st (rn_state r') x ↔ record_is st (rn_state r) x)) X.
Proof.
  intros Hr Hcan Hstep Hready HX. apply step_ready_spec in Hready as (Hnp & Hnr & Hph & Hdeps & Hres).
  unfold can_start in Hcan. apply andb_true_iff in Hcan as [Hns%negb_true_iff Hsize%Nat.ltb_lt].
  rewrite (running_size r tr Hr), (ro_max _ _ Hr) in Hsize. rewrite (ro_running _ _ Hr) in Hnr.
  rewrite (ro_steps _ _ Hr) in Hph, Hres.
  unfold launch_step, start_step.
  set (state := replace_record _ (rn_state r)).
  assert (∀ st x, record_is st state x ↔ if decide (x = st_id step) then Running = st else record_is st (rn_state r) x)
    as Hstate by (intros; apply record_is_replace).
  assert (∀ x, record_is Passed (rn_state r) x → record_is Passed state x) as Hkeep.
  { intros x Hx. apply Hstate. case_decide; [by subst|done]. }
  assert (∀ x, record_is Running state x ↔ x ∈ step_ids (rn_tasks r ++ [step])) as Hrunning.
  { intros x. rewrite Hstate, elem_of_step_ids_snoc, <-(ro_records _ _ Hr). case_decide; naive_solver. }
  set (r' := {| rn_state := state; rn_scheduler := mark_running step (rn_scheduler r);
                rn_failure := rn_failure r; rn_tasks := rn_tasks r ++ [step] |}).
  assert (justified_launch steps max_parallelism state step) as Hjust.
  { split; [done| |auto|auto| |].
    - apply Hstate. by rewrite decide_True.
    - intros t Ht Hne Hrun%Hrunning. apply Hres; [done|]. apply (ro_running _ _ Hr).
      rewrite elem_of_step_ids_snoc in Hrun. destruct Hrun as [|Heq]; [done|].
      destruct Hne. by apply (step_unique steps).
    - transitivity (length (rn_tasks r ++ [step])); [|rewrite length_app; cbn; lia].
      apply submseteq_length, NoDup_submseteq; [apply NoDup_filter; by eapply NoDup_fmap_1|].
      intros t [Hrun%record_isb_spec Ht]%list_elem_of_filter. apply Hrunning in Hrun.
      apply elem_of_step_ids in Hrun as (t' & Ht' & Hid).
      assert (t' = t) as <-; [|done]. apply (step_unique steps); [done| |done..].
      rewrite elem_of_app, list_elem_of_singleton in Ht'. destruct Ht' as [Ht'| ->]; [by apply (ro_planned _ _ Hr)|done]. }
  assert (st_id step ∉ launched tr) as Hnew.
  { intros [?|[?|Hf]]%(ro_launched _ _ Hr); [done..|]. by apply (ro_failed _ _ Hr Hns) in Hf. }
  pose proof (ro_trace _ _ Hr) as Htr.
  apply wp_bind, wp_fallible; [by apply HX|]. apply wp_bind, wp_fallible; [by apply HX, trace_ok_quiet|].
  apply wp_bind, wp_fallible; [by apply HX, trace_ok_quiet; [apply trace_ok_quiet|]|].
  apply wp_bind, wp_spawn, wp_ret. fold r'. split; [|split; [done|]].
  - split; cbn.
    + apply Hr.
    + apply Hr.
    + intros t. rewrite elem_of_app, list_elem_of_singleton. intros [?| ->]; [by apply (ro_planned _ _ Hr)|done].
    + unfold step_ids. rewrite fmap_app. apply NoDup_app. split; [apply Hr|]. split; [|apply NoDup_singleton].
      cbn. set_solver.
    + intros x. rewrite elem_of_step_ids_snoc, elem_of_union, elem_of_singleton, (ro_running _ _ Hr). naive_solver.
    + done.
    + intros _ x Hf%Hstate. case_decide; [done|]. by apply (ro_failed _ _ Hr Hns x).
    + congruence.
    + intros x Hx. apply Hkeep. by apply (ro_kept _ _ Hr).
    + rewrite !disk_of_app. done.
    + apply trace_ok_spawn; [by repeat apply trace_ok_quiet|..].
      * rewrite !disk_of_app. done.
      * intros Hx%(ro_kept _ _ Hr). done.
      * rewrite !launched_app. cbn. by rewrite !app_nil_r.
    + intros x. rewrite !launched_app. cbn. rewrite !app_nil_r, elem_of_app, list_elem_of_singleton, elem_of_step_ids_snoc.
      intros [Hx| ->]; [|by left; right].
      destruct (ro_launched _ _ Hr x Hx) as [?|[?|Hf]]; [by left; left|right; left; by apply Hkeep|].
      by apply (ro_failed _ _ Hr Hns) in Hf.
  - intros x Hx st. cbn. rewrite Hstate. by rewrite decide_False.
Qed.

(** *** The steps that have not ended *)
Definition ended (s : BootstrapState) (t : BootstrapStep) : bool :=
  record_isb Passed s (st_id t) || record_isb Failed s (st_id t).
Definition open_steps (s : BootstrapState) : nat := length (filter (λ t, ended s t = false) steps).

Lemma ended_spec s t : ended s t = true ↔ record_is Passed s (st_id t) ∨ record_is Failed s (st_id t).
Proof. unfold ended. by rewrite orb_true_iff, !record_isb_spec. Qed.

Lemma open_steps_ext s s' :
  (∀ t, t ∈ steps → ended s t = ended s' t) → open_steps s = open_steps s'.
Proof.
  intros Heq. unfold open_steps. f_equal. apply list_filter_ext_in. intros t Ht. by rewrite Heq.
Qed.

Lemma start_steps_ok fuel r tr (X : option GuestError → list effect → Prop) :
  run_ok r tr → (length steps ≤ length (rn_tasks r) + fuel)%nat → (∀ tr', trace_ok tr' → X (Some IoFailed) tr') →
  wp (start_steps fuel ex r) tr
    (λ r' tr', run_ok r' tr' ∧ open_steps (rn_state r') = open_steps (rn_state r) ∧
       (can_start (rn_scheduler r') = false ∨ next_ready (step_passed (rn_state r')) (rn_scheduler r') = None)) X.
Proof.
  revert r tr. induction fuel as [|fuel IH]; intros r tr Hr Hfuel HX; cbn [start_steps];
    (destruct (can_start (rn_scheduler r)) eqn:Hcan; cbn [negb]; [|apply wp_ret; by auto]);
    (destruct (next_ready _ _) as [step|] eqn:Hnext; [|apply wp_ret; by auto]);
    apply find_first_some in Hnext as [Hstep Hready]; rewrite (ro_steps _ _ Hr) in Hstep.
  - exfalso. apply step_ready_spec in Hready as (_ & Hnr & _). apply Hnr, (ro_running _ _ Hr).
    assert (rn_tasks r ≡ₚ steps) as Hperm.
    { apply submseteq_length_Permutation; [|lia]. apply NoDup_submseteq; [eapply NoDup_fmap_1|]; apply Hr. }
    apply elem_of_step_ids. exists step. by rewrite Hperm.
  - apply wp_bind. eapply wp_mono; [by apply launch_step_ok| |done].
    intros r' tr' (Hr' & Htasks & Hsame). eapply wp_mono; [apply IH; [done| |done]| |done].
    { rewrite Htasks, length_app. cbn. lia. }
    intros r'' tr'' (Hr'' & Hopen & Hend). split; [done|]. split; [|done]. rewrite Hopen.
    apply open_steps_ext. intros t Ht. destruct (decide (st_id t = st_id step)) as [Heq|Hne].
    + assert (t = step) as -> by by apply (step_unique steps).
      apply step_ready_spec in Hready as (Hnp & _).
      assert (ended (rn_state r) step = false) as ->.
      { apply not_true_iff_false. rewrite ended_spec. intros [?|Hf]; [done|].
        unfold can_start in Hcan. apply andb_true_iff in Hcan as [Hns%negb_true_iff _].
        by apply (ro_failed _ _ Hr Hns) in Hf. }
      apply not_true_iff_false. rewrite ended_spec.
      assert (record_is Running (rn_state r') (st_id step)) as Hrun.
      { apply (ro_records _ _ Hr'). rewrite Htasks. apply elem_of_step_ids_snoc. by right. }
      intros [Hx|Hx]; pose proof (record_is_unique _ _ _ _ Hrun Hx); done.
    + apply eq_bool_prop_intro. rewrite !Is_true_true, !ended_spec, !Hsame by done. done.
Qed.

(** *** Ending *)
Lemma remove_task_spec step l x : x ∈ step_ids (remove_task step l) ↔ x ∈ step_ids l ∧ x ≠ st_id step.
Proof.
  unfold remove_task. rewrite !elem_of_step_ids. setoid_rewrite list_elem_of_filter. naive_solver.
Qed.

(** The state after a step has ended: its record is [status], the others are as they were. *)
Lemma end_step_ok (stopping : bool) step status failure r tr tr' s' :
  run_ok r tr → step ∈ rn_tasks r →
  (∀ x st, record_is st s' x ↔ if decide (x = st_id step) then status = st else record_is st (rn_state r) x) →
  status = Passed ∨ status = Failed →
  disk_of init tr' = s' → trace_ok tr' → launched tr' = launched tr →
  (stopping = true ↔ sc_stopping (rn_scheduler r) = true ∨ status = Failed) →
  (stopping = true → is_Some failure) →
  let r' := {| rn_state := s';
               rn_scheduler := {| sc_steps := sc_steps (rn_scheduler r);
                                  sc_running := sc_running (rn_scheduler r) ∖ {[st_id step]};
                                  sc_max_parallelism := sc_max_parallelism (rn_scheduler r);
                                  sc_stopping := stopping |};
               rn_failure := failure; rn_tasks := remove_task step (rn_tasks r) |} in
  run_ok r' tr' ∧ (open_steps s' < open_steps (rn_state r))%nat.
Proof.
  intros Hr Hstep Hs' Hstatus Hdisk Htr' Hlaunched Hstop Hfail r'.
  assert (step ∈ steps) as Hin by by apply (ro_planned _ _ Hr).
  assert (record_is Running (rn_state r) (st_id step)) as Hrunning.
  { apply (ro_records _ _ Hr). by apply list_elem_of_fmap_2. }
  split.
  - split; cbn.
    + apply Hr.
    + apply Hr.
    + intros t [_ Ht]%list_elem_of_filter. by apply (ro_planned _ _ Hr).
    + unfold remove_task, step_ids. apply (sublist_NoDup _ (step_ids (rn_tasks r))); [apply Hr|].
      apply fmap_sublist, sublist_filter.
    + intros x. rewrite remove_task_spec, <-(ro_running _ _ Hr). set_solver.
    + intros x. rewrite Hs', remove_task_spec, <-(ro_records _ _ Hr).
      case_decide; [destruct Hstatus; naive_solver|naive_solver].
    + intros Hns x Hx%Hs'. subst stopping. case_decide.
      * assert (false = true); [|done]. apply (proj2 Hstop). by right.
      * refine (ro_failed _ _ Hr _ x Hx). destruct (sc_stopping (rn_scheduler r)); [|done].
        symmetry. apply (proj2 Hstop). by left.
    + intros ->. split; [auto|]. destruct (proj1 Hstop eq_refl) as [Hold| ->].
      * destruct (ro_failure _ _ Hr Hold) as [_ [x Hx]]. exists x. apply Hs'. case_decide; [|done].
        subst. by pose proof (record_is_unique _ _ _ _ Hx Hrunning).
      * exists (st_id step). apply Hs'. by rewrite decide_True.
    + intros x Hx%(ro_kept _ _ Hr). apply Hs'. case_decide; [|done]. subst.
      by pose proof (record_is_unique _ _ _ _ Hx Hrunning).
    + done.
    + done.
    + intros x. rewrite Hlaunched, !Hs', remove_task_spec. intros Hx%(ro_launched _ _ Hr).
      case_decide; [destruct Hstatus; auto|]. naive_solver.
  - unfold open_steps. apply (filter_length_lt (λ t, ended s' t = false) (λ t, ended (rn_state r) t = false) step).
    + intros t. rewrite <-!not_true_iff_false, !ended_spec, !Hs'. case_decide as Heq; [|done].
      destruct Hstatus; naive_solver.
    + done.
    + apply not_true_iff_false. rewrite ended_spec.
      intros [Hx|Hx]; by pose proof (record_is_unique _ _ _ _ Hx Hrunning).
    + rewrite not_false_iff_true, ended_spec, !Hs'. case_decide; [destruct Hstatus; auto|done].
Qed.

(** *** Events *)

(** The errors the environment causes *)
Definition environment_error (e : GuestError) : Prop := e = IoFailed ∨ e = StepError ∨ e = TaskFailed.

Section events.
Context (X : option GuestError → list effect → Prop).
Context (HX : ∀ e tr, environment_error e → trace_ok tr → X (Some e) tr).

Lemma X_io tr : trace_ok tr → X (Some IoFailed) tr.
Proof. apply HX. by left. Qed.

Lemma finished_ok step output r tr :
  run_ok r tr → step ∈ rn_tasks r →
  wp (handle_task_event ex (Finished step output) r) tr
    (λ r' tr', run_ok r' tr' ∧ (open_steps (rn_state r') < open_steps (rn_state r))%nat) X.
Proof.
  intros Hr Hstep. pose proof (ro_trace _ _ Hr) as Htr. cbn [handle_task_event].
  destruct output as [output|]; [|apply wp_fail, HX; [by right; left|done]].
  destruct ((so_exit_status output =? 0)%Z && negb (so_timed_out output)).
  - unfold finish_passed_step, mark_passed. set (s' := replace_record _ (rn_state r)).
    apply wp_bind, wp_bind, wp_fallible; [by apply X_io|].
    apply wp_bind, wp_fallible; [by apply X_io, trace_ok_quiet|].
    apply wp_bind, wp_fallible; [by apply X_io, trace_ok_quiet; [apply trace_ok_quiet|]|].
    apply wp_ret, wp_ret. cbn [rn_state].
    apply (end_step_ok (sc_stopping (rn_scheduler r)) step Passed (rn_failure r) r tr); try done.
    + intros x st. apply record_is_replace.
    + by left.
    + by rewrite !disk_of_app.
    + by repeat apply trace_ok_quiet.
    + rewrite !launched_app. cbn. by rewrite !app_nil_r.
    + naive_solver.
    + intros Hst. by apply (ro_failure _ _ Hr).
  - unfold finish_failed_step, mark_failed. set (s' := replace_record _ (rn_state r)).
    apply wp_bind, wp_bind, wp_fallible; [by apply X_io|].
    apply wp_bind, wp_fallible; [by apply X_io, trace_ok_quiet|].
    apply wp_ret, wp_ret. cbn [rn_state].
    apply (end_step_ok true step Failed _ r tr); try done.
    + intros x st. apply record_is_replace.
    + by right.
    + by rewrite !disk_of_app.
    + by repeat apply trace_ok_quiet.
    + rewrite !launched_app. cbn. by rewrite !app_nil_r.
    + naive_solver.
Qed.

Definition is_end (c : choice) : bool := match c with TaskEnds _ _ => true | _ => false end.
Definition ends (choices : list choice) : nat := length (filter (λ c, is_end c = true) choices).

Lemma select_ok c r tr :
  run_ok r tr → rn_tasks r ≠ [] →
  wp (select ex (resolve (rn_tasks r) c) r) tr
    (λ r' tr', run_ok r' tr' ∧
       (open_steps (rn_state r') + (if is_end c then 1 else 0) ≤ open_steps (rn_state r))%nat) X.
Proof.
  intros Hr Htasks. pose proof (ro_trace _ _ Hr) as Htr. destruct c as [m|i output|[]]; cbn [resolve is_end].
  - apply wp_bind, wp_fallible; [by apply X_io|]. apply wp_ret. split; [by apply run_ok_emit|lia].
  - destruct (lookup_lt_is_Some_2 (rn_tasks r) (i mod length (rn_tasks r))%nat) as [step Hstep].
    { apply Nat.mod_upper_bound. by destruct (rn_tasks r). }
    rewrite Hstep. eapply wp_mono; [apply finished_ok; [done|by eapply list_elem_of_lookup_2]| |done].
    intros r' tr' [? ?]. split; [done|lia].
  - apply wp_ret. split; [done|lia].
  - apply wp_fail, HX; [by right; right|done].
Qed.

Lemma drain_ok queued tr (Q : unit → list effect → Prop) :
  trace_ok tr →
  (∀ tr', trace_ok tr' → disk_of init tr' = disk_of init tr → Q tt tr') →
  wp (drain_task_messages queued) tr Q X.
Proof.
  revert tr. induction queued as [|[m|step output] queued IH]; intros tr Htr HQ; cbn [drain_task_messages].
  - apply wp_ret. by apply HQ.
  - apply wp_bind, wp_fallible; [by apply X_io|]. apply IH; [by apply trace_ok_quiet|].
    intros tr' Htr' Hdisk. apply HQ; [done|]. by rewrite Hdisk, disk_of_app.
  - by apply IH.
Qed.

(** *** Rounds *)
Context (Hfirst : dependencies_first steps) (Hsystems : systems_first steps) (Hmax : (0 < max_parallelism)%nat).

(** With nothing running, the first step of the order that has not passed is ready. *)
Lemma some_step_ready r tr :
  run_ok r tr → rn_tasks r = [] → (∃ t, t ∈ steps ∧ ¬ record_is Passed (rn_state r) (st_id t)) →
  next_ready (step_passed (rn_state r)) (rn_scheduler r) ≠ None.
Proof.
  intros Hr Htasks Hopen Hnone.
  assert (∀ x, x ∉ sc_running (rn_scheduler r)) as Hidle.
  { intros x. rewrite (ro_running _ _ Hr), Htasks. apply not_elem_of_nil. }
  assert (∃ before step after, steps = before ++ step :: after ∧ ¬ record_is Passed (rn_state r) (st_id step) ∧
    ∀ t, t ∈ before → record_is Passed (rn_state r) (st_id t)) as (before & step & after & Heq & Hstep & Hbefore).
  { clear -Hopen. induction steps as [|t l IH]; [destruct Hopen as (t & Ht & _); by apply not_elem_of_nil in Ht|].
    destruct (record_isb Passed (rn_state r) (st_id t)) eqn:Ht.
    - apply record_isb_spec in Ht. destruct IH as (before & step & after & -> & Hs & Hb).
      { destruct Hopen as (u & [->|Hu]%elem_of_cons & Hn); [done|]. by exists u. }
      exists (t :: before), step, after. split; [done|]. split; [done|]. by intros u [->|Hu]%elem_of_cons; auto.
    - apply not_true_iff_false in Ht. rewrite record_isb_spec in Ht. exists [], t, l.
      split; [done|]. split; [done|]. by intros u ?%not_elem_of_nil. }
  unfold next_ready in Hnone. rewrite find_first_none in Hnone.
  assert (step ∈ sc_steps (rn_scheduler r)) as Hin by (rewrite (ro_steps _ _ Hr), Heq; set_solver).
  specialize (Hnone step Hin). apply not_true_iff_false in Hnone. apply Hnone, step_ready_spec.
  split; [done|]. split; [apply Hidle|]. split; [|split; [|by intros t _ Ht%Hidle]].
  - intros Huser t Ht Hsys. rewrite (ro_steps _ _ Hr) in Ht. apply Hbefore.
    destruct Hsystems as (sys & usr & Hsplit & Hallsys & Hallusr). rewrite Forall_forall in Hallsys, Hallusr.
    assert (t ∈ sys) as Htsys.
    { rewrite Hsplit, elem_of_app in Ht. destruct Ht as [|Ht]; [done|]. by rewrite (Hallusr t Ht) in Hsys. }
    rewrite Heq in Hsplit. apply app_eq_inv in Hsplit as [(k & -> & _)|(k & -> & Hk)]; [set_solver|].
    destruct k as [|u k]; [by rewrite app_nil_r in Htsys|]. injection Hk as <- _.
    rewrite (Hallsys step) in Huser by set_solver. done.
  - intros d Hd. pose proof (Hfirst before step after Heq d Hd) as (t & Ht & <-)%elem_of_step_ids. auto.
Qed.

Definition run_result (result : BootstrapRunStatus * BootstrapState) (tr : list effect) : Prop :=
  trace_ok tr ∧ disk_of init tr = result.2 ∧
  match result.1 with
  | RunCompleted => ∀ t, t ∈ steps → record_is Passed result.2 (st_id t)
  | RunFailed _ => ∃ x, record_is Failed result.2 x
  end.

Lemma round_ok queued r tr :
  run_ok r tr →
  wp (round ex queued r) tr
    (λ next tr', match next with
     | inl result => run_result result tr'
     | inr r' => run_ok r' tr' ∧ rn_tasks r' ≠ [] ∧ open_steps (rn_state r') = open_steps (rn_state r)
     end) X.
Proof.
  intros Hr. unfold round. apply wp_bind.
  eapply wp_mono; [apply start_steps_ok; [done|rewrite (ro_steps _ _ Hr); lia|apply X_io]| |done].
  intros r' tr' (Hr' & Hopen & Hend). cbn beta. rewrite (ro_steps _ _ Hr').
  destruct (all_steps_passed (rn_state r') steps) eqn:Hall.
  { apply wp_bind, drain_ok; [apply Hr'|]. intros tr2 Htr2 Hdisk. apply wp_ret. split; [done|]. cbn.
    split; [by rewrite Hdisk, (ro_disk _ _ Hr')|]. by apply all_steps_passed_spec. }
  destruct (is_drained (rn_scheduler r')) eqn:Hdrained.
  - assert (rn_tasks r' = []) as Hidle.
    { apply bool_decide_eq_true in Hdrained. destruct (rn_tasks r') as [|t l] eqn:Ht; [done|].
      assert (st_id t ∈ sc_running (rn_scheduler r')) as Habs; [|rewrite Hdrained in Habs; set_solver].
      apply (ro_running _ _ Hr'). rewrite Ht. left. }
    destruct (is_stopping (rn_scheduler r')) eqn:Hstop; unfold is_stopping in Hstop.
    + destruct (ro_failure _ _ Hr' Hstop) as [[failed ->] Hfailed].
      apply wp_bind, drain_ok; [apply Hr'|]. intros tr2 Htr2 Hdisk. apply wp_ret. split; [done|]. cbn.
      by rewrite Hdisk, (ro_disk _ _ Hr').
    + exfalso. destruct Hend as [Hcan|Hnone].
      * unfold can_start in Hcan. rewrite Hstop, (running_size _ _ Hr'), Hidle, (ro_max _ _ Hr') in Hcan.
        cbn [length negb andb] in Hcan. apply Nat.ltb_ge in Hcan. lia.
      * apply (some_step_ready r' tr' Hr' Hidle); [|done].
        apply not_true_iff_false in Hall. rewrite all_steps_passed_spec in Hall.
        destruct (decide (Forall (λ t, record_isb Passed (rn_state r') (st_id t) = true) steps)) as [Hy|Hn].
        -- destruct Hall. intros t Ht. rewrite Forall_forall in Hy. by apply record_isb_spec, Hy.
        -- apply not_Forall_Exists in Hn; [|apply _]. apply Exists_exists in Hn as (t & Ht & Hn).
           exists t. split; [done|]. by rewrite <-record_isb_spec.
  - apply wp_ret. split; [done|]. split; [|done]. intros Hidle.
    apply bool_decide_eq_false in Hdrained. apply Hdrained, set_eq. intros x.
    rewrite (ro_running _ _ Hr'), Hidle. cbn. set_solver.
Qed.

Lemma run_loop_ok queued choices r tr :
  run_ok r tr →
  ((ends choices < open_steps (rn_state r))%nat → ∀ tr', trace_ok tr' → X None tr') →
  wp (run_loop ex queued choices r) tr run_result X.
Proof.
  revert r tr. induction choices as [|c choices IH]; intros r tr Hr HN; cbn [run_loop];
    (apply wp_bind; eapply wp_mono; [by apply round_ok| |done]);
    intros [result|r'] tr' Hnext; try (by apply wp_ret); destruct Hnext as (Hr' & Htasks & Hopen).
  - apply wp_wait, HN; [|apply Hr']. rewrite <-Hopen. unfold open_steps.
    destruct (rn_tasks r') as [|t l] eqn:Ht; [done|].
    assert (t ∈ filter (λ t, ended (rn_state r') t = false) steps) as Hin.
    { apply list_elem_of_filter. split; [|apply (ro_planned _ _ Hr'); rewrite Ht; left].
      apply not_true_iff_false. rewrite ended_spec.
      assert (record_is Running (rn_state r') (st_id t)) as Hrun by (apply (ro_records _ _ Hr'); rewrite Ht; left).
      intros [Hx|Hx]; by pose proof (record_is_unique _ _ _ _ Hx Hrun). }
    destruct (filter _ steps); [by apply not_elem_of_nil in Hin|cbn; lia].
  - apply wp_bind. eapply wp_mono; [by apply select_ok| |done].
    intros r'' tr'' [Hr'' Hlt]. cbn beta. apply IH; [done|].
    intros Hfew. apply HN. unfold ends in *. rewrite filter_cons.
    destruct (decide (is_end c = true)) as [Hc|Hc]; [rewrite Hc in Hlt; cbn; lia|lia].
Qed.
End events.
End run.

(** ** Whole runs *)

Lemma scheduler_new_spec max_parallelism plan :
  match scheduler_new max_parallelism plan with
  | Ret sched => ∃ steps, sched = {| sc_steps := steps; sc_running := ∅; sc_max_parallelism := max_parallelism; sc_stopping := false |} ∧
      valid_graph (bp_steps plan) ∧ steps ≡ₚ bp_steps plan ∧ NoDup (step_ids steps) ∧
      dependencies_first steps ∧ systems_first steps
  | Fail e => order_fault (bp_steps plan) e ∧ ¬ valid_graph (bp_steps plan)
  | Panic | Timeout => False
  end.
Proof.
  unfold scheduler_new. pose proof (ordered_steps_spec (bp_steps plan)) as Hord.
  destruct (ordered_steps _) as [steps|e| |]; cbn; [|done..].
  destruct Hord as (Hvalid & Hperm & Hfirst & Hsys). exists steps. split_and!; try done.
  unfold step_ids. rewrite Hperm. apply Hvalid.
Qed.

(** The message a run ends with, and what the state on disk says then *)
Definition reported (ex : BootstrapExecutor) (disk : BootstrapState) (m : GuestMessageKind) : Prop :=
  (m = BootstrapFinishedMessage (ex_plan_hash ex) (bs_attempt_epoch disk) ∧
   ∀ step, step ∈ bp_steps (ex_plan ex) → record_is Passed disk (st_id step)) ∨
  (∃ failed, m = BootstrapFailedMessage failed ∧ ∃ x, record_is Failed disk x).

Section whole.
Context (ex : BootstrapExecutor) (steps : list BootstrapStep) (max_parallelism : nat) (init : BootstrapState).
Context (Hnodup : NoDup (step_ids steps)) (Hfirst : dependencies_first steps) (Hsystems : systems_first steps).
Context (Hperm : steps ≡ₚ bp_steps (ex_plan ex)) (Hmax : (0 < max_parallelism)%nat).

Abbreviation ok := (trace_ok steps max_parallelism init).

Lemma trace_ok_nil : ok [].
Proof. intros before step after Heq. by destruct before. Qed.

(** Whatever ends a run, its launches are justified. *)
Definition run_ends (choices : list choice) (e : option GuestError) (tr : list effect) : Prop :=
  ok tr ∧ match e with Some e => environment_error e | None => (ends choices < length steps)%nat end.

Definition run_reports (_ : unit) (tr : list effect) : Prop :=
  ok tr ∧ ∃ before m, tr = before ++ [Emitted m] ∧ reported ex (disk_of init tr) m.

Lemma run_ends_io choices tr : ok tr → run_ends choices (Some IoFailed) tr.
Proof. intros Htr. split; [done|by left]. Qed.
Hint Resolve run_ends_io trace_ok_quiet trace_ok_nil : core.

Lemma emit_two_ok choices m1 m2 tr :
  ok tr → reported ex (disk_of init tr) m2 →
  wp (_ ← emit m1; emit m2) tr run_reports (run_ends choices).
Proof.
  intros Htr Hrep. apply wp_bind, wp_fallible; [by auto|]. apply wp_fallible; [by apply run_ends_io, trace_ok_quiet|].
  split; [by repeat apply trace_ok_quiet|]. exists (tr ++ [Emitted m1]), m2. split; [done|]. by rewrite !disk_of_app.
Qed.

Lemma run_state_ok queued choices :
  wp (run_state ex queued choices init {| sc_steps := steps; sc_running := ∅;
        sc_max_parallelism := max_parallelism; sc_stopping := false |}) [] run_reports (run_ends choices).
Proof.
  unfold run_state. apply wp_bind, wp_fallible; [by auto|].
  assert (∀ m, ok ([] ++ [Emitted m])) as Hstart by (intros m; by apply trace_ok_quiet).
  apply wp_bind. unfold report_existing_failure. destruct (failed_step_record init) as [failed|] eqn:Hfailed.
  { assert (∃ x, record_is Failed init x) as Hx.
    { unfold failed_step_record in Hfailed. apply find_first_some in Hfailed as [(x & Hx)%elem_of_map_values Hst].
      exists x, failed. split; [done|]. by apply bool_decide_eq_true in Hst. }
    apply wp_bind, wp_fallible; [by auto|]. apply wp_bind, wp_fallible; [by apply run_ends_io, trace_ok_quiet|].
    apply wp_ret, wp_ret. split; [by repeat apply trace_ok_quiet|].
    eexists _, _. split; [done|]. right. eexists. split; [done|]. by rewrite !disk_of_app. }
  apply wp_ret. apply wp_bind. unfold mark_interrupted_step.
  destruct (interrupted_step init) as [[key interrupted]|] eqn:Hint.
  { set (s' := set_steps _ init).
    apply wp_bind, wp_fallible; [by auto|]. apply wp_bind, wp_fallible; [by apply run_ends_io, trace_ok_quiet|].
    apply wp_bind, wp_fallible; [by apply run_ends_io, trace_ok_quiet; [apply trace_ok_quiet|]|].
    apply wp_ret, wp_ret. split; [by repeat apply trace_ok_quiet|].
    eexists _, _. split; [done|]. right. eexists. split; [done|]. rewrite !disk_of_app. cbn.
    exists key, (interrupted_record interrupted). split; [|done]. cbn. by rewrite lookup_insert_eq. }
  apply wp_ret. apply wp_bind.
  eapply wp_mono; [apply (run_loop_ok ex steps max_parallelism init Hnodup (run_ends choices))| |done]; try done.
  - split; cbn; try done; try set_solver.
    + constructor.
    + intros x. split; [|by intros ?%not_elem_of_nil]. intros Hx. by apply interrupted_step_none in Hx.
    + intros _ x. by apply failed_step_record_none.
  - intros Hlt tr Htr. split; [done|]. eapply Nat.lt_le_trans; [done|]. apply length_filter.
  - intros [status state] tr (Htr & Hdisk & Hstatus). cbn in Hdisk, Hstatus. rewrite <-Hdisk.
    destruct status as [|failed]; apply emit_two_ok; try done; [left|right].
    + split; [done|]. intros step Hstep. rewrite Hdisk. apply Hstatus. by rewrite Hperm.
    + exists failed. split; [done|]. by rewrite Hdisk.
Qed.
End whole.

Lemma run_wp parallelism ex file queued choices faults :
  match ordered_steps (bp_steps (ex_plan ex)), load file (ex_plan_hash ex) with
  | Ret steps, Ret init =>
    match run parallelism ex file queued choices {| io_trace := []; io_faults := faults |} with
    | (Ret _, io) => run_reports ex steps (Pos.to_nat parallelism) init tt (io_trace io)
    | (Fail e, io) => run_ends steps (Pos.to_nat parallelism) init choices (Some e) (io_trace io)
    | (Timeout, io) => run_ends steps (Pos.to_nat parallelism) init choices None (io_trace io)
    | (Panic, _) => False
    end
  | Fail e, _ => run parallelism ex file queued choices {| io_trace := []; io_faults := faults |} =
      (Fail (OrderingFailed e), {| io_trace := []; io_faults := faults |})
  | Ret _, Fail e => run parallelism ex file queued choices {| io_trace := []; io_faults := faults |} =
      (Fail e, {| io_trace := []; io_faults := faults |})
  | _, _ => False
  end.
Proof.
  pose proof (ordered_steps_spec (bp_steps (ex_plan ex))) as Hord. unfold run, scheduler_new.
  destruct (ordered_steps _) as [steps|e| |]; [|done..].
  destruct Hord as (Hvalid & Hperm & Hfirst & Hsystems).
  destruct (load file (ex_plan_hash ex)) as [init|e| |] eqn:Hload;
    [|done|by destruct file; cbn in Hload; repeat case_match..].
  assert (NoDup (step_ids steps)) as Hnd by (unfold step_ids; rewrite Hperm; apply Hvalid).
  pose proof (run_state_ok ex steps (Pos.to_nat parallelism) init Hnd Hfirst Hsystems Hperm ltac:(lia)
    queued choices faults) as Hrun.
  unfold mbind, stm_bind, stm_lift. cbn. destruct (run_state _ _ _ _ _ _) as [[[]|e| |] io]; done.
Qed.

(** C11: Whatever the tasks do, whatever fails to be written or sent, and whatever an earlier run left in
    the state file: a step's script is started only when the state on disk records the step as running,
    its dependencies and (for a user step) all system steps as passed, and no other running step that
    shares a resource with it, with at most [parallelism] running; no step is started twice in a run,
    and none that had passed before it.  A plan that is refused or a state that cannot be read starts
    nothing. *)
Theorem bootstrap_launches_justified parallelism ex file queued choices faults :
  let trace := io_trace (run parallelism ex file queued choices {| io_trace := []; io_faults := faults |}).2 in
  match ordered_steps (bp_steps (ex_plan ex)), load file (ex_plan_hash ex) with
  | Ret steps, Ret state => trace_ok steps (Pos.to_nat parallelism) state trace
  | _, _ => trace = []
  end.
Proof.
  cbn zeta. pose proof (run_wp parallelism ex file queued choices faults) as Hrun.
  destruct (ordered_steps _) as [steps|e| |]; [|by rewrite Hrun|done..].
  destruct (load _ _) as [state|e| |]; [|by rewrite Hrun|done..].
  destruct (run _ _ _ _ _ _) as [[u|e| |] io]; [apply Hrun..|done|apply Hrun].
Qed.

(** C28: A run of the bootstrap ends with a report that agrees with the state on disk: finished, when
    every step of the plan is recorded as passed, or failed, when some step is recorded as failed.  It
    returns an error only when the plan's graph is invalid, the state cannot be loaded, a write or a
    message fails or a task is lost: the scheduler never runs out of runnable steps.  It waits for ever
    only when fewer tasks end than the plan has steps. *)
Theorem bootstrap_run_reports parallelism ex file queued choices faults :
  match run parallelism ex file queued choices {| io_trace := []; io_faults := faults |} with
  | (Ret _, io) => ∃ state before m, load file (ex_plan_hash ex) = Ret state ∧
      io_trace io = before ++ [Emitted m] ∧ reported ex (disk_of state (io_trace io)) m
  | (Fail e, _) => environment_error e ∨ load file (ex_plan_hash ex) = Fail e ∨
      ∃ fault, e = OrderingFailed fault ∧ order_fault (bp_steps (ex_plan ex)) fault
  | (Timeout, _) => (ends choices < length (bp_steps (ex_plan ex)))%nat
  | (Panic, _) => False
  end.
Proof.
  pose proof (run_wp parallelism ex file queued choices faults) as Hrun.
  pose proof (ordered_steps_spec (bp_steps (ex_plan ex))) as Hord.
  destruct (ordered_steps _) as [steps|e| |]; [|rewrite Hrun; right; right; exists e; naive_solver|done..].
  destruct (load _ _) as [state|e| |]; [|rewrite Hrun; auto|done..].
  destruct Hord as (_ & Hperm & _).
  destruct (run _ _ _ _ _ _) as [[u|e| |] io].
  - destruct Hrun as (_ & before & m & Htr & Hrep). exists state, before, m. by rewrite Htr in Hrep |- *.
  - left. apply Hrun.
  - done.
  - rewrite <-Hperm. apply Hrun.
Qed.

(** ** Retrying *)

Lemma state_prepare_retry_spec epoch s :
  let '(found, s') := state_prepare_retry epoch s in
  (found = true ↔ ∃ x, record_is Running s x ∨ record_is Failed s x) ∧
  bs_attempt_epoch s' = (if found then epoch else bs_attempt_epoch s) ∧
  ∀ x, ¬ record_is Running s' x ∧ ¬ record_is Failed s' x ∧ (record_is Passed s' x ↔ record_is Passed s x).
Proof.
  unfold state_prepare_retry, unfinished, has_status. split; [|split; [done|]].
  - rewrite existsb_exists. split.
    + intros (r & (x & Hx)%list_elem_of_In%elem_of_map_values & Hst). exists x.
      rewrite orb_true_iff, !bool_decide_eq_true in Hst. destruct Hst; [left|right]; by exists r.
    + intros (x & Hx). assert (∃ r, bs_steps s !! x = Some r ∧ (rc_status r = Running ∨ rc_status r = Failed)) as (r & Hr & Hst).
      { destruct Hx as [(r & ? & ?)|(r & ? & ?)]; exists r; auto. }
      exists r. rewrite orb_true_iff, !bool_decide_eq_true. split; [|done].
      apply list_elem_of_In, elem_of_map_values. by exists x.
  - intros x. unfold record_is. cbn. rewrite lookup_fmap.
    destruct (bs_steps s !! x) as [r|]; cbn; [|split_and!; [by intros (? & ? & _)..|done]].
    assert (rc_status (if unfinished r then reset_record r else r) ≠ Running ∧
            rc_status (if unfinished r then reset_record r else r) ≠ Failed ∧
            (rc_status (if unfinished r then reset_record r else r) = Passed ↔ rc_status r = Passed)) as (H1 & H2 & H3).
    { unfold unfinished, has_status. destruct (rc_status r) eqn:Hst; repeat case_bool_decide; try done; cbn; rewrite ?Hst; (split; [congruence|split; [congruence|split; congruence]]). }
    split; [by intros (? & [= <-] & ?)|]. split; [by intros (? & [= <-] & ?)|].
    split; intros (? & [= <-] & ?); eexists; (split; [done|by apply H3]).
Qed.

(** [prepare_retry] takes the epoch that follows the state's and nothing else, and only when a step
    failed or was interrupted: then those steps are pending again and the passed ones are kept, on disk
    before it returns.  The same epoch again changes nothing; every refusal leaves the disk as it was. *)
Theorem retry_resumes ex file epoch faults :
  match prepare_retry ex file epoch {| io_trace := []; io_faults := faults |}, load file (ex_plan_hash ex) with
  | (Ret true, io), Ret state => ∃ state', io_trace io = [Saved state'] ∧
      epoch = saturating_add64 (bs_attempt_epoch state) 1 ∧ epoch ≠ bs_attempt_epoch state ∧ bs_attempt_epoch state' = epoch ∧
      (∃ x, record_is Running state x ∨ record_is Failed state x) ∧
      ∀ x, ¬ record_is Running state' x ∧ ¬ record_is Failed state' x ∧
           (record_is Passed state' x ↔ record_is Passed state x)
  | (Ret false, io), Ret state => io_trace io = [] ∧ epoch = bs_attempt_epoch state
  | (Fail IoFailed, io), Ret _ => io_trace io = [] ∧ ∃ rest, faults = true :: rest
  | (Fail e, io), Ret state => io_trace io = [] ∧ epoch ≠ bs_attempt_epoch state ∧
      (e = EpochMismatch epoch (bs_attempt_epoch state) ∧ epoch ≠ saturating_add64 (bs_attempt_epoch state) 1 ∨
       e = NothingToRetry ∧ ∀ x, ¬ record_is Running state x ∧ ¬ record_is Failed state x)
  | (Fail e, io), Fail e' => io_trace io = [] ∧ e = e'
  | _, _ => False
  end.
Proof.
  unfold prepare_retry, stm_lift, mbind, stm_bind at 1.
  destruct (load file (ex_plan_hash ex)) as [state|e| |] eqn:Hload;
    [|by destruct e|by destruct file; cbn in Hload; repeat case_match..].
  destruct (Z.eqb_spec epoch (bs_attempt_epoch state)) as [Heq|Hne]; [done|].
  destruct (Z.eqb_spec epoch (saturating_add64 (bs_attempt_epoch state) 1)) as [Hnext|Hnn]; cbn [negb];
    [|cbn; split; [done|]; split; [done|by left]].
  pose proof (state_prepare_retry_spec epoch state) as Hspec.
  destruct (state_prepare_retry epoch state) as [found state']. destruct Hspec as (Hfound & Hepoch & Hrec).
  destruct found; cbn [negb].
  - unfold stm_bind, save, fallible. cbn. destruct faults as [|[] faults]; cbn; [|by eauto|];
      (exists state'; split_and!; [done..|by apply Hfound|done]).
  - cbn. split; [done|]. split; [done|]. right. split; [done|]. intros x.
    assert (¬ ∃ x, record_is Running state x ∨ record_is Failed state x) as Hno by (rewrite <-Hfound; done).
    naive_solver.
Qed.

(** ** A run *)
Section example.
Let step (id : string) (phase : BootstrapStepPhase) (deps : list string) (resources : list BootstrapStepResource) :=
  {| st_id := bytes_of id; st_label := bytes_of id; st_phase := phase; st_depends_on := bytes_of <$> deps;
     st_resources := resources; st_script := []; st_working_directory := []; st_timeout_seconds := 30 |}.
Let example_plan :=
  {| bp_plan_version := 1; bp_user := []; bp_home := []; bp_code_dir := [];
     bp_steps := [step "user.tools" User ["system.b"] [Mise]; step "system.b" System ["system.a"] [PackageManager];
                  step "system.a" System [] []; step "system.c" System [] [PackageManager]] |}.
Let passed := Some {| so_exit_status := 0; so_timed_out := false; so_duration_ms := 1; so_stdout_tail := []; so_stderr_tail := [] |}.

(** [system.c] holds the package manager while [system.a] ends, so [system.b] waits for it. *)
Example bootstrap_runs :
  let '(result, io) := run 2 {| ex_plan := example_plan; ex_plan_id := []; ex_plan_hash := [] |} NotFound []
    [TaskEnds 0 passed; TaskSends Hello; TaskEnds 0 passed; TaskEnds 0 passed; TaskEnds 0 passed]
    {| io_trace := []; io_faults := [] |} in
  result = Ret tt ∧ launched (io_trace io) = bytes_of <$> ["system.a"; "system.c"; "system.b"; "user.tools"].
Proof. vm_compute. done. Qed.
End example.
