(* ===== verification/Fields.v ===== *)
(** * Assignment to the fields of a record

    Rust assigns to a field of a struct through [&mut]; the model builds the new
    value.  [r <| f := v |>] is [r] after [r.f = v], [r <| f ::= g |>] applies
    [g] to the field, and [r <| f; g := v |>] assigns to a field of a field.  A
    record type declares its [Eta] expansion; the update of each field is
    derived from it. *)
From S2P Require Import Prelude.

Class Eta (R : Type) := eta : R → R.
Class Field {R T : Type} (f : R → T) := modify : (T → T) → R → R.
Arguments modify {R T} f {_} _ _ : assert.

Ltac derive_field f :=
  let g := fresh "g" in let r := fresh "r" in
  intros g r;
  let e := eval hnf in (eta r) in
  lazymatch eval pattern (f r) in e with
  | ?k _ => let t := eval cbv beta in (k (g (f r))) in exact t
  end.
#[export] Hint Extern 0 (Field ?f) => derive_field f : typeclass_instances.

Declare Scope field_scope.
Delimit Scope field_scope with field.
Open Scope field_scope.
Notation "r <| f := v |>" := (modify f (λ _, v) r)
  (at level 1, f constr at level 200, v constr at level 200, format "r  <|  f  :=  v  |>") : field_scope.
Notation "r <| f ::= g |>" := (modify f g r)
  (at level 1, f constr at level 200, g constr at level 200, format "r  <|  f  ::=  g  |>") : field_scope.
Notation "r <| f1 ; f2 := v |>" := (modify f1 (modify f2 (λ _, v)) r)
  (at level 1, f1 constr at level 200, f2 constr at level 200, v constr at level 200) : field_scope.
Notation "r <| f1 ; f2 ::= g |>" := (modify f1 (modify f2 g) r)
  (at level 1, f1 constr at level 200, f2 constr at level 200, g constr at level 200) : field_scope.
Notation "r <| f1 ; f2 ; f3 := v |>" := (modify f1 (modify f2 (modify f3 (λ _, v))) r)
  (at level 1, f1 constr at level 200, f2 constr at level 200, f3 constr at level 200, v constr at level 200) : field_scope.
Notation "r <| f1 ; f2 ; f3 ::= g |>" := (modify f1 (modify f2 (modify f3 g)) r)
  (at level 1, f1 constr at level 200, f2 constr at level 200, f3 constr at level 200, g constr at level 200) : field_scope.
