(* ===== verification/AgentDocument.v ===== *)
(** * The documents of an agent
      (src/core/agentdp-core/src/agent/status.rs, document.rs, and
      src/apps/agentdp-server/src/agent/wait.rs)

    What a user wants of an agent and what the server has made of it are two
    documents, one for the agent and one for each instance, each with a [spec]
    and a [status].  A change of the desired state raises the generation; the
    status says which generation has been observed.

    The template of the manifest, the state of the backend, its control channel
    and the seed files are data of other components: [AgentTypes] names them,
    and [ManifestRules] is what the manifest component promises.  The [kind]
    fields, which have one value each, are left out. *)
From S2P Require Import Prelude Text Ordered Fields BootPlan BootRun.
Local Open Scope Z_scope.

(** ** Interfaces *)
Class AgentTypes := {
  AgentSpec : Type;
  AgentSpec_eq_dec :: EqDecision AgentSpec;
  BackendState : Type;
  BackendState_eq_dec :: EqDecision BackendState;
  TailscaleServeState : Type;
  TailscaleServeState_eq_dec :: EqDecision TailscaleServeState;
  HealthcheckPlan : Type;
  HealthcheckPlan_eq_dec :: EqDecision HealthcheckPlan;
  InstanceControl : Type;
  SeedFile : Type;
}.

(** ** The manifest, as far as the documents look into it *)
Inductive AgentPhase := PhaseRunning | PhasePaused.
Inductive NetworkProtocol := Tcp | Udp.
Inductive NetworkAllow := AllowHosts (hosts : list str) | AllowAll.
Record GuestPort := { gp_guest : Z; gp_host : option Z; gp_protocol : NetworkProtocol }.

Section manifest.
Context `{AgentTypes}.

Record AgentDeploymentSpec := {
  dep_phase : AgentPhase;
  dep_replicas : Z;
  dep_template : AgentSpec;
}.

Record AgentManifest := {
  mf_api_version : str;
  mf_name : str;
  mf_spec : AgentDeploymentSpec;
}.
#[global] Instance eta_deployment : Eta AgentDeploymentSpec := λ r,
  Build_AgentDeploymentSpec (dep_phase r) (dep_replicas r) (dep_template r).
#[global] Instance eta_manifest : Eta AgentManifest := λ r,
  Build_AgentManifest (mf_api_version r) (mf_name r) (mf_spec r).
End manifest.

Definition lit : string → str := bytes_of.

Definition AGENTDP_API_VERSION : str := lit "agentdp.dev/v1alpha1".

Class ManifestRules `{AgentTypes} := {
  (** [manifest.validate()]: the messages, none when it succeeds *)
  validate : AgentManifest → list str;
  (** [spec.network.ports] and [spec.network.allow] *)
  network_ports : AgentSpec → gmap str GuestPort;
  network_allow : AgentSpec → NetworkAllow;
  (** [current.host_input_requirements().has_same_mediated_auth_bindings(&next)] *)
  same_mediated_auth_bindings : AgentSpec → AgentSpec → bool;
}.

(** ** Status of an instance (status.rs) *)
Inductive PortProtocolState := PortTcp | PortUdp.
Record PortMappingState := { pm_guest : Z; pm_host : option Z; pm_protocol : PortProtocolState }.

Inductive NetworkModeState := ModeUser | ModeMediated.
Inductive NetworkAllowState := StateAll | StatePublic | StateHosts (hosts : list str).

Record AgentInstanceNetworkStatus := {
  ns_state : str;
  ns_ready : bool;
  ns_host_ports : gmap str PortMappingState;
  ns_transport : option str;
  ns_generation : option Z;
  ns_started_unix_seconds : Z;
  ns_last_state_change_unix_seconds : Z;
  ns_last_transport_connect_unix_seconds : option Z;
  ns_last_guest_frame_unix_seconds : option Z;
  ns_last_host_frame_unix_seconds : option Z;
  ns_guest_frames_received : Z;
  ns_guest_bytes_received : Z;
  ns_host_frames_sent : Z;
  ns_host_bytes_sent : Z;
  ns_session_disconnects : Z;
  ns_connect_errors : Z;
  ns_egress_errors : Z;
  ns_network_event_drops : Z;
  ns_last_error : option str;
}.
#[export] Instance eta_network_status : Eta AgentInstanceNetworkStatus := λ r,
  Build_AgentInstanceNetworkStatus (ns_state r) (ns_ready r) (ns_host_ports r) (ns_transport r)
    (ns_generation r) (ns_started_unix_seconds r) (ns_last_state_change_unix_seconds r)
    (ns_last_transport_connect_unix_seconds r) (ns_last_guest_frame_unix_seconds r)
    (ns_last_host_frame_unix_seconds r) (ns_guest_frames_received r) (ns_guest_bytes_received r)
    (ns_host_frames_sent r) (ns_host_bytes_sent r) (ns_session_disconnects r) (ns_connect_errors r)
    (ns_egress_errors r) (ns_network_event_drops r) (ns_last_error r).

(** [AgentInstanceNetworkStatus::default] *)
Definition network_status_default : AgentInstanceNetworkStatus := {|
  ns_state := lit "starting"; ns_ready := false; ns_host_ports := ∅; ns_transport := None;
  ns_generation := None; ns_started_unix_seconds := 0; ns_last_state_change_unix_seconds := 0;
  ns_last_transport_connect_unix_seconds := None; ns_last_guest_frame_unix_seconds := None;
  ns_last_host_frame_unix_seconds := None; ns_guest_frames_received := 0; ns_guest_bytes_received := 0;
  ns_host_frames_sent := 0; ns_host_bytes_sent := 0; ns_session_disconnects := 0; ns_connect_errors := 0;
  ns_egress_errors := 0; ns_network_event_drops := 0; ns_last_error := None |}.

Record NetworkState := {
  nw_mode : NetworkModeState;
  nw_allow : NetworkAllowState;
  nw_ipv6_enabled : bool;
  nw_ports : gmap str PortMappingState;
  nw_runtime : option AgentInstanceNetworkStatus;
}.
#[export] Instance eta_network_state : Eta NetworkState := λ r,
  Build_NetworkState (nw_mode r) (nw_allow r) (nw_ipv6_enabled r) (nw_ports r) (nw_runtime r).

(** [NetworkAllowState::from] *)
Definition allow_state (allow : NetworkAllow) : NetworkAllowState :=
  match allow with
  | AllowAll => StateAll
  | AllowHosts [] => StatePublic
  | AllowHosts hosts => StateHosts hosts
  end.

Record GuestAccessState := { ga_user : str; ga_private_key : str; ga_public_key : str }.
#[export] Instance eta_guest_access : Eta GuestAccessState := λ r,
  Build_GuestAccessState (ga_user r) (ga_private_key r) (ga_public_key r).

Record ServiceStatus := { sv_url : option str; sv_host_port : Z; sv_guest_port : Z }.
Record HealthcheckStatus := {
  hc_name : str; hc_kind : str; hc_status : str; hc_reason : option str; hc_command : option str;
  hc_exit_status : option Z; hc_target : option str; hc_host : option str; hc_elapsed_ms : Z;
}.
Record ReadinessResult := {
  rr_ready : bool; rr_services : gmap str ServiceStatus; rr_healthchecks : list HealthcheckStatus;
}.
Record ReadinessState := { rd_ready : bool; rd_last_success_unix_seconds : Z; rd_result : ReadinessResult }.

Record ReconciliationState := {
  rc_stale : bool; rc_observed_status : str; rc_observed_pid : option Z; rc_reason : option str;
}.

Record AgentInstanceBootstrapState := {
  bt_attempt_epoch : option Z; bt_failure_count : Z; bt_last_failure_unix_seconds : Z;
  bt_next_retry_unix_seconds : Z; bt_last_error : str;
}.

Inductive AgentInstanceCredentialPhase := CredentialReady | RefreshFailed | Expired.
Record AgentInstanceCredentialState := {
  cr_phase : AgentInstanceCredentialPhase; cr_expires_at_unix_seconds : option Z;
  cr_last_refresh_at : option str; cr_last_error : option str;
}.

Inductive AgentInstanceHostInputsPhase := InputsPending | InputsReady | InputsFailed.
Record AgentInstanceHostInputsState := {
  hi_observed_generation : Z;
  hi_phase : AgentInstanceHostInputsPhase;
  hi_last_error : option str;
  hi_credentials : gmap str AgentInstanceCredentialState;
}.
#[export] Instance eta_host_inputs : Eta AgentInstanceHostInputsState := λ r,
  Build_AgentInstanceHostInputsState (hi_observed_generation r) (hi_phase r) (hi_last_error r) (hi_credentials r).

Definition host_inputs_default : AgentInstanceHostInputsState :=
  {| hi_observed_generation := 0; hi_phase := InputsPending; hi_last_error := None; hi_credentials := ∅ |}.

#[export] Instance host_inputs_phase_eq_dec : EqDecision AgentInstanceHostInputsPhase.
Proof. solve_decision. Defined.
#[export] Instance credential_phase_eq_dec : EqDecision AgentInstanceCredentialPhase.
Proof. solve_decision. Defined.

(** [AgentInstanceHostInputsState::is_ready_for] *)
Definition is_ready_for (self : AgentInstanceHostInputsState) (generation : Z) : bool :=
  (hi_observed_generation self =? generation)
  && bool_decide (hi_phase self = InputsReady)
  && bool_decide (map_Forall (λ _ credential, cr_phase credential ≠ Expired) (hi_credentials self)).

Definition inputs_mark_pending (self : AgentInstanceHostInputsState) : AgentInstanceHostInputsState :=
  self <| hi_phase := InputsPending |> <| hi_last_error := None |>.

Definition inputs_mark_ready (generation : Z) (self : AgentInstanceHostInputsState) : AgentInstanceHostInputsState :=
  self <| hi_observed_generation := generation |> <| hi_phase := InputsReady |> <| hi_last_error := None |>.

Definition inputs_record_failure (generation : Z) (error : str) (self : AgentInstanceHostInputsState) :
    AgentInstanceHostInputsState :=
  self <| hi_observed_generation := generation |> <| hi_phase := InputsFailed |> <| hi_last_error := Some error |>.

Inductive AgentInstanceTransitionKind := Materialize | Reconcile | Start | Stop | Delete.
Record AgentInstanceTransitionWorkStatus := {
  tw_kind : AgentInstanceTransitionKind; tw_started_unix_seconds : option Z; tw_message : option str;
}.
Record AgentInstanceBootstrapStepStatus := {
  bx_step : str; bx_label : option str; bx_phase : option BootstrapStepPhase;
  bx_current : option Z; bx_total : option Z; bx_status : option BootstrapLifecycleStatus;
}.
Inductive AgentInstanceBootstrapWorkPhase := WorkRunning | WorkBackingOff | WorkFailed.
Record AgentInstanceBootstrapWorkStatus := {
  bw_phase : AgentInstanceBootstrapWorkPhase; bw_current_step : option AgentInstanceBootstrapStepStatus;
  bw_last_error : option str; bw_failure_count : option Z; bw_next_retry_unix_seconds : option Z;
}.
#[export] Instance eta_bootstrap_work : Eta AgentInstanceBootstrapWorkStatus := λ r,
  Build_AgentInstanceBootstrapWorkStatus (bw_phase r) (bw_current_step r) (bw_last_error r)
    (bw_failure_count r) (bw_next_retry_unix_seconds r).

(** [sessions.active] is the one field of [AgentInstanceSessionsWorkStatus]. *)
Record AgentInstanceWorkStatus := {
  iw_transition : option AgentInstanceTransitionWorkStatus;
  iw_bootstrap : option AgentInstanceBootstrapWorkStatus;
  iw_sessions_active : Z;
}.
#[export] Instance eta_work_status : Eta AgentInstanceWorkStatus := λ r,
  Build_AgentInstanceWorkStatus (iw_transition r) (iw_bootstrap r) (iw_sessions_active r).

Definition work_status_default : AgentInstanceWorkStatus :=
  {| iw_transition := None; iw_bootstrap := None; iw_sessions_active := 0 |}.

Inductive AgentInstancePhase :=
| Materialized | Starting | Running | Stopping | Stopped | Deleting | Deleted | PhaseFailed.
Inductive AgentInstanceTarget := TargetActive | TargetInactive | TargetDeleting.
#[export] Instance instance_phase_eq_dec : EqDecision AgentInstancePhase.
Proof. solve_decision. Defined.
#[export] Instance instance_target_eq_dec : EqDecision AgentInstanceTarget.
Proof. solve_decision. Defined.

Section status.
Context `{AgentTypes}.

Record AgentInstanceStatus := {
  is_phase : AgentInstancePhase;
  is_observed_generation : Z;
  is_materialized_agent_base : str;
  is_materialized_template : AgentSpec;
  is_created_at : str;
  is_ready_at : option str;
  is_bootstrap : option AgentInstanceBootstrapState;
  is_network : NetworkState;
  is_healthchecks : list HealthcheckPlan;
  is_guest_access : option GuestAccessState;
  is_readiness : option ReadinessState;
  is_host_inputs : AgentInstanceHostInputsState;
  is_work : AgentInstanceWorkStatus;
  is_reconciliation : option ReconciliationState;
  is_tailscale_serve : option TailscaleServeState;
  is_backend : BackendState;
}.
#[global] Instance eta_instance_status : Eta AgentInstanceStatus := λ r,
  Build_AgentInstanceStatus (is_phase r) (is_observed_generation r) (is_materialized_agent_base r)
    (is_materialized_template r) (is_created_at r) (is_ready_at r) (is_bootstrap r) (is_network r)
    (is_healthchecks r) (is_guest_access r) (is_readiness r) (is_host_inputs r) (is_work r)
    (is_reconciliation r) (is_tailscale_serve r) (is_backend r).

Definition clear_readiness (self : AgentInstanceStatus) : AgentInstanceStatus :=
  self <| is_readiness := None |> <| is_ready_at := None |>.

Definition mark_ready (now : str) (readiness : ReadinessState) (self : AgentInstanceStatus) : AgentInstanceStatus :=
  self <| is_ready_at := Some now |> <| is_bootstrap := None |> <| is_readiness := Some readiness |>.

Definition record_bootstrap_failure (failure : AgentInstanceBootstrapState) (self : AgentInstanceStatus) :
    AgentInstanceStatus :=
  (clear_readiness self) <| is_bootstrap := Some failure |>.

(** [mark_observed_generation], without the flag no caller uses *)
Definition mark_observed_generation (generation : Z) (self : AgentInstanceStatus) : AgentInstanceStatus :=
  if is_observed_generation self =? generation then self else self <| is_observed_generation := generation |>.

(** ** The instance document (document.rs) *)
Record AgentInstanceMetadata := { im_agent : str; im_id : Z; im_name : str }.

Record AgentInstanceSpec := {
  sp_desired_generation : Z;
  sp_agent_base : str;
  sp_template : AgentSpec;
  sp_target : AgentInstanceTarget;
}.
#[global] Instance eta_instance_spec : Eta AgentInstanceSpec := λ r,
  Build_AgentInstanceSpec (sp_desired_generation r) (sp_agent_base r) (sp_template r) (sp_target r).

Record AgentInstanceDocument := {
  id_api_version : str;
  id_metadata : AgentInstanceMetadata;
  id_spec : AgentInstanceSpec;
  id_status : AgentInstanceStatus;
}.
#[global] Instance eta_instance_document : Eta AgentInstanceDocument := λ r,
  Build_AgentInstanceDocument (id_api_version r) (id_metadata r) (id_spec r) (id_status r).

(** [AgentInstanceDocument::new]; the clock is an argument *)
Definition instance_document_new (now : str) (agent : str) (id : Z) (instance : str) (desired_generation : Z)
    (agent_base : str) (template : AgentSpec) (target : AgentInstanceTarget) (phase : AgentInstancePhase)
    (network : NetworkState) (healthchecks : list HealthcheckPlan) (guest_access : option GuestAccessState)
    (backend : BackendState) : AgentInstanceDocument :=
  {| id_api_version := AGENTDP_API_VERSION;
     id_metadata := {| im_agent := agent; im_id := id; im_name := instance |};
     id_spec := {| sp_desired_generation := desired_generation; sp_agent_base := agent_base;
                   sp_template := template; sp_target := target |};
     id_status := {|
       is_phase := phase; is_observed_generation := 0; is_materialized_agent_base := agent_base;
       is_materialized_template := template; is_created_at := now; is_ready_at := None;
       is_bootstrap := None; is_network := network; is_healthchecks := healthchecks;
       is_guest_access := guest_access; is_readiness := None; is_host_inputs := host_inputs_default;
       is_work := work_status_default; is_reconciliation := None; is_tailscale_serve := None;
       is_backend := backend |} |}.

(** [format!("{}/{}", agent, name)] *)
Definition instance_name (self : AgentInstanceDocument) : str :=
  im_agent (id_metadata self) ++ lit "/" ++ im_name (id_metadata self).
End status.

(** ** Status of the agent (status.rs) *)
Inductive AgentStatusPhase := StatusRunning | StatusPaused | StatusDeleting | StatusDeleted.
Record ReplicaStatus := { rs_desired : Z; rs_ready : Z; rs_active : Z; rs_stopped : Z; rs_deleting : Z }.
#[export] Instance eta_replica_status : Eta ReplicaStatus := λ r,
  Build_ReplicaStatus (rs_desired r) (rs_ready r) (rs_active r) (rs_stopped r) (rs_deleting r).

Inductive AgentBasePhase := BaseMissing | BaseBuilding | BaseReady | BaseFailed.
Record AgentBaseStatus := {
  ab_desired_key : option str;
  ab_ready_key : option str;
  ab_phase : AgentBasePhase;
  ab_message : option str;
  ab_last_error : option str;
}.
#[export] Instance eta_base_status : Eta AgentBaseStatus := λ r,
  Build_AgentBaseStatus (ab_desired_key r) (ab_ready_key r) (ab_phase r) (ab_message r) (ab_last_error r).

Definition base_status_default : AgentBaseStatus :=
  {| ab_desired_key := None; ab_ready_key := None; ab_phase := BaseMissing; ab_message := None; ab_last_error := None |}.

#[export] Instance agent_phase_eq_dec : EqDecision AgentPhase.
Proof. solve_decision. Defined.
#[export] Instance agent_status_phase_eq_dec : EqDecision AgentStatusPhase.
Proof. solve_decision. Defined.
#[export] Instance base_phase_eq_dec : EqDecision AgentBasePhase.
Proof. solve_decision. Defined.

Section document.
Context `{ManifestRules}.

Record AgentStatus := {
  as_observed_generation : Z;
  as_phase : AgentStatusPhase;
  as_replicas : ReplicaStatus;
  as_reconciling : bool;
  as_deleted : bool;
  as_agent_base : AgentBaseStatus;
  as_instances : gmap Z AgentInstanceStatus;
}.
#[global] Instance eta_agent_status : Eta AgentStatus := λ r,
  Build_AgentStatus (as_observed_generation r) (as_phase r) (as_replicas r) (as_reconciling r)
    (as_deleted r) (as_agent_base r) (as_instances r).

Record AgentDocumentMetadata := { dm_name : str; dm_generation : Z; dm_deletion_requested : bool }.
#[global] Instance eta_document_metadata : Eta AgentDocumentMetadata := λ r,
  Build_AgentDocumentMetadata (dm_name r) (dm_generation r) (dm_deletion_requested r).

Record AgentDocumentSpec := { ds_source_manifest : str; ds_deployment : AgentDeploymentSpec }.
#[global] Instance eta_document_spec : Eta AgentDocumentSpec := λ r,
  Build_AgentDocumentSpec (ds_source_manifest r) (ds_deployment r).

Record AgentDocument := {
  ad_api_version : str;
  ad_metadata : AgentDocumentMetadata;
  ad_spec : AgentDocumentSpec;
  ad_status : AgentStatus;
}.
#[global] Instance eta_agent_document : Eta AgentDocument := λ r,
  Build_AgentDocument (ad_api_version r) (ad_metadata r) (ad_spec r) (ad_status r).

(** ** The agent document (document.rs) *)
Definition agent_status_phase (phase : AgentPhase) (deleting deleted : bool) : AgentStatusPhase :=
  if deleted then StatusDeleted
  else if deleting then StatusDeleting
  else match phase with PhaseRunning => StatusRunning | PhasePaused => StatusPaused end.

Definition generation (self : AgentDocument) : Z := dm_generation (ad_metadata self).
Definition deletion_requested (self : AgentDocument) : bool := dm_deletion_requested (ad_metadata self).
Definition replicas (self : AgentDocument) : Z := dep_replicas (ds_deployment (ad_spec self)).
Definition phase (self : AgentDocument) : AgentPhase := dep_phase (ds_deployment (ad_spec self)).
Definition template (self : AgentDocument) : AgentSpec := dep_template (ds_deployment (ad_spec self)).
Definition desired_agent_base_key (self : AgentDocument) : option str := ab_desired_key (as_agent_base (ad_status self)).
Definition ready_agent_base_key (self : AgentDocument) : option str := ab_ready_key (as_agent_base (ad_status self)).

(** [AgentDocument::from_manifest]; an error is the list of messages *)
Definition from_manifest (source_manifest agent : str) (manifest : AgentManifest) : outcome (list str) AgentDocument :=
  match validate manifest with
  | [] => Ret {|
      ad_api_version := AGENTDP_API_VERSION;
      ad_metadata := {| dm_name := agent; dm_generation := 1; dm_deletion_requested := false |};
      ad_spec := {| ds_source_manifest := source_manifest; ds_deployment := mf_spec manifest |};
      ad_status := {|
        as_observed_generation := 0;
        as_phase := agent_status_phase (dep_phase (mf_spec manifest)) false false;
        as_replicas := {| rs_desired := dep_replicas (mf_spec manifest);
                          rs_ready := 0; rs_active := 0; rs_stopped := 0; rs_deleting := 0 |};
        as_reconciling := true;
        as_deleted := false;
        as_agent_base := base_status_default;
        as_instances := ∅ |} |}
  | errors => Fail errors
  end.

#[global] Instance deployment_eq_dec : EqDecision AgentDeploymentSpec.
Proof. solve_decision. Defined.

Definition has_same_desired_state (self other : AgentDocument) : bool :=
  bool_decide (dm_name (ad_metadata self) = dm_name (ad_metadata other))
  && Bool.eqb (deletion_requested self) (deletion_requested other)
  && bool_decide (ds_deployment (ad_spec self) = ds_deployment (ad_spec other)).

Definition refresh_status_projection (deleted : bool) (self : AgentDocument) : AgentDocument :=
  self <| ad_status; as_phase := agent_status_phase (phase self) (deletion_requested self) deleted |>
       <| ad_status; as_deleted := deleted |>
       <| ad_status; as_replicas; rs_desired := replicas self |>
       <| ad_status; as_reconciling :=
            negb (as_observed_generation (ad_status self) =? generation self) |>.

(** [AgentDocument::from_manifest_after_existing] *)
Definition from_manifest_after_existing (source_manifest agent : str) (manifest : AgentManifest)
    (existing : AgentDocument) : outcome (list str) AgentDocument :=
  document ← from_manifest source_manifest agent manifest;
  if has_same_desired_state existing document then
    mret (document <| ad_metadata := ad_metadata existing |> <| ad_status := ad_status existing |>)
  else
    let preserve_agent_base := bool_decide (template existing = template document) in
    let document := document <| ad_metadata; dm_generation := saturating_add64 (generation existing) 1 |>
                             <| ad_status := ad_status existing |> in
    let document := if preserve_agent_base then document
                    else document <| ad_status; as_agent_base := base_status_default |> in
    mret (refresh_status_projection false document).

(** [mark_agent_base_*], without the flag no caller uses *)
Definition mark_agent_base_desired (key : str) (self : AgentDocument) : AgentDocument :=
  let base := as_agent_base (ad_status self) in
  if bool_decide (ab_desired_key base = Some key) && bool_decide (ab_phase base = BaseBuilding)
     && bool_decide (ab_last_error base = None)
  then self
  else self <| ad_status; as_agent_base := {|
         ab_desired_key := Some key; ab_ready_key := None; ab_phase := BaseBuilding;
         ab_message := None; ab_last_error := None |} |>.

Definition mark_agent_base_ready (key : str) (self : AgentDocument) : AgentDocument :=
  let base := as_agent_base (ad_status self) in
  if negb (bool_decide (ab_desired_key base = Some key)) || negb (bool_decide (ab_ready_key base = Some key))
     || negb (bool_decide (ab_phase base = BaseReady)) || negb (bool_decide (ab_last_error base = None))
  then self <| ad_status; as_agent_base := {|
         ab_desired_key := Some key; ab_ready_key := Some key; ab_phase := BaseReady;
         ab_message := None; ab_last_error := None |} |>
  else self.

Definition mark_agent_base_failed (message : str) (self : AgentDocument) : AgentDocument :=
  let base := as_agent_base (ad_status self) in
  if bool_decide (ab_phase base = BaseFailed) && bool_decide (ab_last_error base = Some message)
  then self
  else self <| ad_status; as_agent_base ::= λ base, base <| ab_phase := BaseFailed |> <| ab_last_error := Some message |> |>.

Definition mark_deletion_requested_if_changed (self : AgentDocument) : AgentDocument :=
  if deletion_requested self then self
  else self <| ad_metadata; dm_deletion_requested := true |>
            <| ad_metadata; dm_generation ::= λ g, saturating_add64 g 1 |>.

(** [AgentDocument::manifest] *)
Definition manifest (self : AgentDocument) : AgentManifest :=
  {| mf_api_version := AGENTDP_API_VERSION; mf_name := dm_name (ad_metadata self);
     mf_spec := ds_deployment (ad_spec self) |}.

Definition set_replicas_if_changed (replicas' : Z) (self : AgentDocument) : outcome (list str) AgentDocument :=
  if replicas self =? replicas' then Ret self
  else match validate ((manifest self) <| mf_spec; dep_replicas := replicas' |>) with
       | [] => Ret (self <| ad_spec; ds_deployment; dep_replicas := replicas' |>
                         <| ad_metadata; dm_generation ::= λ g, saturating_add64 g 1 |>)
       | errors => Fail errors
       end.

Definition mark_observed_generation_if_changed (self : AgentDocument) : AgentDocument :=
  if as_observed_generation (ad_status self) =? generation self then self
  else self <| ad_status; as_observed_generation := generation self |>.
End document.

(** ** Host ports (document.rs) *)
Inductive PortRequestError :=
| ManifestInvalid (messages : list str)
| HostPortOverflow (name : str) (host instance : Z).

Definition port_protocol_state (protocol : NetworkProtocol) : PortProtocolState :=
  match protocol with Tcp => PortTcp | Udp => PortUdp end.

Definition assigned_host_port (name : str) (host : option Z) (instance_id : Z) : outcome PortRequestError (option Z) :=
  match host with
  | None => Ret None
  | Some host =>
    if host + instance_id <=? u32_max then
      if host + instance_id <=? u16_max then Ret (Some (host + instance_id))
      else Fail (HostPortOverflow name host instance_id)
    else Fail (HostPortOverflow name host instance_id)
  end.

(** [iter.map(f).collect::<Result<BTreeMap, _>>()]: the first error ends it *)
Fixpoint collect_ports (ports : list (str * GuestPort)) (instance_id : Z) :
    outcome PortRequestError (gmap str PortMappingState) :=
  match ports with
  | [] => Ret ∅
  | (name, port) :: ports =>
    host ← assigned_host_port name (gp_host port) instance_id;
    rest ← collect_ports ports instance_id;
    mret (<[name := {| pm_guest := gp_guest port; pm_host := host;
                       pm_protocol := port_protocol_state (gp_protocol port) |}]> rest)
  end.

Section ports.
Context `{ManifestRules}.

Definition assign_port_mappings (manifest : AgentManifest) (instance_id : Z) :
    outcome PortRequestError (gmap str PortMappingState) :=
  match validate manifest with
  | [] => collect_ports (map_sorted (network_ports (dep_template (mf_spec manifest)))) instance_id
  | errors => Fail (ManifestInvalid errors)
  end.
End ports.

(** ** Waiting for a document (wait.rs) *)
Inductive AgentWaitCondition := WaitAccepted | WaitObserved | WaitReady | WaitPaused | WaitStopped | WaitDeleted.
Inductive AgentWaitStatusResult :=
| Satisfied | Pending | Superseded | WaitTimedOut | WaitResultDeleted | WaitFailed.

Section wait.
Context `{ManifestRules}.

Definition condition_satisfied (document : AgentDocument) (gen : Z) (condition : AgentWaitCondition) : bool :=
  let status := ad_status document in
  let observed := as_observed_generation status =? gen in
  match condition with
  | WaitAccepted => generation document =? gen
  | WaitObserved => observed
  | WaitReady => observed && (rs_ready (as_replicas status) =? rs_desired (as_replicas status))
                 && negb (as_reconciling status)
  | WaitPaused => observed && bool_decide (as_phase status = StatusPaused)
                  && (rs_active (as_replicas status) =? 0) && negb (as_reconciling status)
  | WaitStopped => observed && (rs_active (as_replicas status) =? 0) && negb (as_reconciling status)
  | WaitDeleted => observed && as_deleted status
  end.

Definition base_failure_blocks_condition (document : AgentDocument) (condition : AgentWaitCondition) : bool :=
  if bool_decide (ab_phase (as_agent_base (ad_status document)) = BaseFailed) then
    match condition with
    | WaitReady => true
    | WaitObserved => bool_decide (as_phase (ad_status document) = StatusRunning)
                      && (0 <? rs_desired (as_replicas (ad_status document)))
    | WaitAccepted | WaitPaused | WaitStopped | WaitDeleted => false
    end
  else false.

Definition spec_generation_failed (gen : Z) (self : AgentInstanceStatus) : bool :=
  (is_observed_generation self =? gen) && bool_decide (is_phase self = PhaseFailed).

Definition failed_for_generation (document : AgentDocument) (gen : Z) (condition : AgentWaitCondition) : bool :=
  base_failure_blocks_condition document condition
  || existsb (spec_generation_failed gen) ((map_to_list (as_instances (ad_status document))).*2).

Definition wait_status (document : AgentDocument) (gen : Z) (condition : AgentWaitCondition) : AgentWaitStatusResult :=
  if gen <? generation document then Superseded
  else if generation document <? gen then Pending
  else if condition_satisfied document gen condition then Satisfied
  else if as_deleted (ad_status document) then WaitResultDeleted
  else if failed_for_generation document gen condition then WaitFailed
  else Pending.
End wait.

(** ** Equality of documents

    Documents are compared field by field, to decide whether a change needs to
    be saved and published. *)
#[export] Instance port_protocol_state_eq_dec : EqDecision PortProtocolState.
Proof. solve_decision. Defined.
#[export] Instance port_mapping_state_eq_dec : EqDecision PortMappingState.
Proof. solve_decision. Defined.
#[export] Instance network_mode_state_eq_dec : EqDecision NetworkModeState.
Proof. solve_decision. Defined.
#[export] Instance network_allow_state_eq_dec : EqDecision NetworkAllowState.
Proof. solve_decision. Defined.
#[export] Instance instance_network_status_eq_dec : EqDecision AgentInstanceNetworkStatus.
Proof. solve_decision. Defined.
#[export] Instance network_state_eq_dec : EqDecision NetworkState.
Proof. solve_decision. Defined.
#[export] Instance guest_access_state_eq_dec : EqDecision GuestAccessState.
Proof. solve_decision. Defined.
#[export] Instance service_status_eq_dec : EqDecision ServiceStatus.
Proof. solve_decision. Defined.
#[export] Instance healthcheck_status_eq_dec : EqDecision HealthcheckStatus.
Proof. solve_decision. Defined.
#[export] Instance readiness_result_eq_dec : EqDecision ReadinessResult.
Proof. solve_decision. Defined.
#[export] Instance readiness_state_eq_dec : EqDecision ReadinessState.
Proof. solve_decision. Defined.
#[export] Instance reconciliation_state_eq_dec : EqDecision ReconciliationState.
Proof. solve_decision. Defined.
#[export] Instance bootstrap_state_eq_dec : EqDecision AgentInstanceBootstrapState.
Proof. solve_decision. Defined.
#[export] Instance credential_state_eq_dec : EqDecision AgentInstanceCredentialState.
Proof. solve_decision. Defined.
#[export] Instance host_inputs_state_eq_dec : EqDecision AgentInstanceHostInputsState.
Proof. solve_decision. Defined.
#[export] Instance transition_kind_eq_dec : EqDecision AgentInstanceTransitionKind.
Proof. solve_decision. Defined.
#[export] Instance transition_work_eq_dec : EqDecision AgentInstanceTransitionWorkStatus.
Proof. solve_decision. Defined.
#[export] Instance step_phase_eq_dec : EqDecision BootstrapStepPhase.
Proof. solve_decision. Defined.
#[export] Instance lifecycle_status_eq_dec : EqDecision BootstrapLifecycleStatus.
Proof. solve_decision. Defined.
#[export] Instance bootstrap_step_status_eq_dec : EqDecision AgentInstanceBootstrapStepStatus.
Proof. solve_decision. Defined.
#[export] Instance bootstrap_work_phase_eq_dec : EqDecision AgentInstanceBootstrapWorkPhase.
Proof. solve_decision. Defined.
#[export] Instance bootstrap_work_status_eq_dec : EqDecision AgentInstanceBootstrapWorkStatus.
Proof. solve_decision. Defined.
#[export] Instance instance_work_status_eq_dec : EqDecision AgentInstanceWorkStatus.
Proof. solve_decision. Defined.
#[export] Instance replica_status_eq_dec : EqDecision ReplicaStatus.
Proof. solve_decision. Defined.
#[export] Instance base_status_eq_dec : EqDecision AgentBaseStatus.
Proof. solve_decision. Defined.

Section equality.
Context `{ManifestRules}.
#[global] Instance instance_status_eq_dec : EqDecision AgentInstanceStatus.
Proof. solve_decision. Defined.
#[global] Instance instance_metadata_eq_dec : EqDecision AgentInstanceMetadata.
Proof. solve_decision. Defined.
#[global] Instance instance_spec_eq_dec : EqDecision AgentInstanceSpec.
Proof. solve_decision. Defined.
#[global] Instance instance_document_eq_dec : EqDecision AgentInstanceDocument.
Proof. solve_decision. Defined.
#[global] Instance agent_status_eq_dec : EqDecision AgentStatus.
Proof. solve_decision. Defined.
#[global] Instance document_metadata_eq_dec : EqDecision AgentDocumentMetadata.
Proof. solve_decision. Defined.
#[global] Instance document_spec_eq_dec : EqDecision AgentDocumentSpec.
Proof. solve_decision. Defined.
#[global] Instance agent_document_eq_dec : EqDecision AgentDocument.
Proof. solve_decision. Defined.
End equality.
