(* ===== verification/AgentState.v ===== *)
(** * The state of a running agent
      (src/apps/agentdp-server/src/agent/runtime.rs, documents.rs, and the
      events of src/core/agentdp-core/src/agent/event.rs and status.rs)

    The loop of an agent owns its document, the state of its base, the state of
    every instance, and the work it has admitted.  What runs outside the loop is
    the environment: the tasks it spawns ([Task], with the values moved into
    them), the channels it answers on (numbers), the clock.

    Handles ([context], [layout], [backend], [tailscale], [input], the writers
    of the event logs and the network runtimes) have no state the loop reads;
    what they deliver is an argument of the operations in [AgentRuntime]. *)
From S2P Require Import Prelude Text Ordered Fields BootRun AgentDocument.
From stdpp Require Import pretty.
Local Open Scope Z_scope.

(** ** Time: instants in nanoseconds, the Unix clock in seconds *)
Record Clock := { now : Z; unix_seconds : Z; rfc3339_utc_now : str }.

Definition from_secs (s : Z) : Z := s * 1000000000.
Definition as_secs (d : Z) : Z := d / 1000000000.

Definition RECENT_EVENT_CAPACITY : nat := 128.
Definition AGENT_RECONCILE_INTERVAL : Z := from_secs 5.
Definition HOST_INPUT_RECONCILE_INTERVAL : Z := from_secs (15 * 60).
Definition HOST_CREDENTIAL_RECOVERY_INTERVAL : Z := from_secs 1.
Definition HOST_INPUT_RECONCILE_RETRY_DELAY : Z := from_secs 15.
Definition HOST_INPUT_RECONCILE_RETRY_MAX_DELAY : Z := from_secs (5 * 60).
Definition INSTANCE_CREATE_RETRY_DELAY : Z := from_secs 15.
Definition INSTANCE_CREATE_RETRY_MAX_DELAY : Z := from_secs (5 * 60).
Definition INSTANCE_DELETE_RETRY_DELAY : Z := from_secs 1.
Definition INSTANCE_BOOTSTRAP_RETRY_DELAY : Z := from_secs 15.
Definition INSTANCE_BOOTSTRAP_RETRY_MAX_DELAY : Z := from_secs (5 * 60).

(** [retry_delay]; [Duration::saturating_mul] does not saturate below 256 times
    the longest delay *)
Definition retry_delay (initial max failure_count : Z) : Z :=
  let exponent := Z.min (saturating_sub failure_count 1) 8 in
  Z.min (initial * Z.shiftl 1 exponent) max.

Definition host_input_reconcile_retry_delay (failure_count : Z) : Z :=
  retry_delay HOST_INPUT_RECONCILE_RETRY_DELAY HOST_INPUT_RECONCILE_RETRY_MAX_DELAY failure_count.
Definition instance_create_retry_delay (failure_count : Z) : Z :=
  retry_delay INSTANCE_CREATE_RETRY_DELAY INSTANCE_CREATE_RETRY_MAX_DELAY failure_count.
Definition bootstrap_retry_delay (failure_count : Z) : Z :=
  let exponent := Z.min (saturating_sub failure_count 1) 8 in
  Z.min (INSTANCE_BOOTSTRAP_RETRY_DELAY * Z.shiftl 1 exponent) INSTANCE_BOOTSTRAP_RETRY_MAX_DELAY.

(** [failure_count.saturating_add(1)] of a [u16] and of a [u32] *)
Definition bump16 (n : Z) : Z := Z.min u16_max (n + 1).
Definition bump32 (n : Z) : Z := Z.min u32_max (n + 1).

(** ** Events (event.rs, status.rs) *)
Inductive AgentInstanceNetworkEventKind :=
| LifecycleStateChanged (state : str)
| TelemetrySnapshot
| TransportConnectFailed (transport error : str)
| TransportGuestConnected (transport : str) (generation : Z)
| TransportGuestDisconnected (generation : Z) (reason : str)
| TransportRegisterFailed (transport error : str)
| EgressError (message : str)
| EgressProxyClosed
| DnsResolved
| HostPortBound (name : str) (protocol : PortProtocolState) (guest host : Z)
| HostPortError (message : str)
| ReactorError (message : str).

Record AgentInstanceNetworkEvent := {
  ne_sequence : Z; ne_unix_millis : Z; ne_dropped_events_before : Z; ne_event : AgentInstanceNetworkEventKind;
}.

Inductive EventLevel := Info | Warn | ErrorLevel | Verbose.
Inductive SessionKind := Exec | Shell.
Inductive OperationResult := Succeeded | OperationFailed (error : str).
Record SessionResultSummary := { sn_exit_status : option Z; sn_result : OperationResult }.

Inductive BootstrapEvent :=
| BootstrapDiagnostic (level : EventLevel) (message : str)
| StepStarted (step : AgentInstanceBootstrapStepStatus)
| StepFinished (step : str) (status : BootstrapStepStatus) (exit_status duration_ms : Z)
| StepFailed (step : str) (status : BootstrapStepStatus) (exit_status duration_ms : Z) (message : str).

(** The events of an instance the loop emits; the others of the enum are not
    constructed by the server. *)
Inductive AgentInstanceEvent :=
| EvBootstrapStarted
| EvBootstrapFinished (result : OperationResult)
| SessionStarted (session : SessionKind)
| SessionFinished (session : SessionKind) (result : SessionResultSummary)
| NetworkEvent (event : AgentInstanceNetworkEvent).

Inductive AgentInstanceEventSource := SourceBootstrap | SourceNetwork | SourceSession (kind : SessionKind).
Record AgentInstanceEventEnvelope := {
  ie_sequence : Z; ie_timestamp : str; ie_generation : Z; ie_work_epoch : option Z;
  ie_source : AgentInstanceEventSource; ie_event : AgentInstanceEvent;
}.

Inductive AgentEventSource := Controller | SourceAgentBase | SourceInstance (id : Z).

(** ** What the backend answers (apps/agentdp-server/src/backend/mod.rs) *)
Record ProcessStatus := { ps_pid : option Z; ps_status : str; ps_message : option str }.
Record StartOutput := { so_process : ProcessStatus; so_host_ports : gmap str PortMappingState }.
Record StopOutput := { sto_process_status : str; sto_terminated_pid : option Z }.
Record ReconcileOutput := {
  ro_stale : bool; ro_mark_stopped : bool; ro_backend_changed : bool;
  ro_process : ProcessStatus; ro_host_ports : gmap str PortMappingState;
}.
Record ReconcileHostInputsOutput := {
  ho_files_updated : Z; ho_file_failures : Z; ho_file_errors : list (str * str);
}.
Record CommandOutput := { co_status : Z; co_stdout : str; co_stderr : str }.

(** ** Errors of the requests *)
Inductive Error :=
| AgentContext
| PortRequest (error : PortRequestError)
| PersistedStateIdentityMismatch (expected actual : str)
| PersistedStateUnavailable (name message : str)
| PersistState (message : str)
| OperationInProgress (name operation : str)
| InstanceNotFound (name : str)
| InvalidStatus (name status : str)
| InvalidLogLines
| InvalidLogFilter
| EmptyExecCommand
| InvalidExecTimeout
| MediatedAuthBindingsChanged.

Record TaskAttempt := { ta_work_id : Z; ta_generation : Z }.
Record BootstrapTaskFailure := { bf_attempt_epoch : option Z; bf_error : str }.

(** The rest of a preparation is input of the build alone. *)
Record AgentBasePreparation := { bp_key : str }.

Inductive BootstrapSource := FromAgentBase | FromInstance (id : Z).

Section state.
Context `{ManifestRules}.

(** [AgentManifestContext]: a manifest with the path it was read from *)
Record AgentManifestContext := { mc_source_path : str; mc_value : AgentManifest }.

(** [manifest_context]: [from_value] wants an absolute path, [AgentName::parse]
    an identifier *)
Definition identifier_byte (b : Z) : bool :=
  ((48 <=? b) && (b <=? 57)) || ((65 <=? b) && (b <=? 90)) || ((97 <=? b) && (b <=? 122))
  || (b =? 46) || (b =? 95) || (b =? 45).
Definition validate_identifier (value : str) : bool := negb (bool_decide (value = [])) && forallb identifier_byte value.
Definition is_absolute (path : str) : bool := starts_with path (lit "/").
Definition manifest_context (document : AgentDocument) : option AgentManifestContext :=
  if is_absolute (ds_source_manifest (ad_spec document)) && validate_identifier (dm_name (ad_metadata document))
  then Some {| mc_source_path := ds_source_manifest (ad_spec document); mc_value := manifest document |}
  else None.

Inductive AgentEvent :=
| DesiredStateAccepted (generation : Z)
| ScaleAccepted (generation replicas : Z)
| DeleteAccepted (generation : Z)
| AgentBaseStarted (key : str)
| AgentBaseReady (key : str)
| AgentBaseFailed (key error : str)
| InstanceCreated (instance_id : Z)
| InstanceDeleted (instance_id : Z)
| EvBootstrap (event : BootstrapEvent)
| InstanceEvent (event : AgentInstanceEventEnvelope)
| DocumentChanged (document : AgentDocument)
| Diagnostic (level : EventLevel) (message : str).

Record AgentEventEnvelope := {
  ae_sequence : Z; ae_timestamp : str; ae_generation : Z; ae_source : AgentEventSource; ae_event : AgentEvent;
}.

Inductive AgentStreamItem := StreamDocument (document : AgentDocument) | StreamEvent (event : AgentEventEnvelope).

Record ReconcileRuntimeSecretsOutput := {
  rs_secret_files : list SeedFile; rs_credentials : gmap str AgentInstanceCredentialState;
}.
Record InstanceBackendOutcome (T : Type) := { bo_backend : BackendState; bo_result : T + str }.
Record InstanceStopOutcome := {
  st_backend : BackendState; st_tailscale_serve : option TailscaleServeState; st_result : StopOutput + str;
}.

Inductive WorkCompletion :=
| BasePrepared (work_id generation : Z) (preparation : AgentBasePreparation)
| BaseBuilt (work_id generation : Z) (key : str)
| BaseFailedWork (work_id generation : Z) (error : str)
| BaseStopped (work_id : Z)
| BaseStopTimedOut (work_id : Z)
| InstanceCreatedWork (id work_id generation : Z) (document : AgentInstanceDocument + str)
| InstanceStarted (id work_id generation : Z) (outcome : InstanceBackendOutcome StartOutput)
| InstanceReconciled (id work_id generation : Z) (outcome : InstanceBackendOutcome ReconcileOutput)
| BootstrapStarted (id work_id generation : Z)
| BootstrapEventWork (source : BootstrapSource) (work_id generation : Z) (event : BootstrapEvent)
| BootstrapFinished (id work_id generation : Z) (control : option InstanceControl)
    (result : option TailscaleServeState + BootstrapTaskFailure)
| TailscaleServeReconciled (id work_id generation : Z) (result : option TailscaleServeState + str)
| RuntimeSecretsReconciled (id generation work_id : Z) (outcome : InstanceBackendOutcome ReconcileRuntimeSecretsOutput)
| HostInputsReconciled (id generation work_id : Z) (control : option InstanceControl)
    (result : ReconcileHostInputsOutput + str)
| InstanceStopped (id work_id generation : Z) (control : option InstanceControl) (outcome : InstanceStopOutcome)
| InstanceDeleteRuntimeStopped (id work_id generation : Z) (control : option InstanceControl)
    (outcome : InstanceStopOutcome)
| InstanceDeletedWork (id work_id : Z)
| InstanceDeleteTimedOut (id work_id : Z) (error : str)
| ExecFinished (id work_id : Z) (command : list str) (output : CommandOutput).

(** ** The tasks the loop spawns, with what is moved into them *)
Inductive Task :=
| PrepareBase (document : AgentDocument) (work_id generation : Z)
| BuildBase (document : AgentDocument) (attempt : TaskAttempt) (preparation : AgentBasePreparation)
| StopBase (document : AgentDocument) (work_id : Z)
| CreateInstance (document : AgentDocument) (id : Z) (agent_base : str) (attempt : TaskAttempt)
| StartInstance (agent_document : AgentDocument) (document : AgentInstanceDocument) (id : Z) (attempt : TaskAttempt)
| ReconcileInstance (agent_document : AgentDocument) (document : AgentInstanceDocument) (id : Z) (attempt : TaskAttempt)
| ReconcileRuntimeSecrets (agent_document : AgentDocument) (document : AgentInstanceDocument) (id generation work_id : Z)
| ReconcileHostInputs (control : option InstanceControl) (agent_document : AgentDocument)
    (document : AgentInstanceDocument) (secret_files : list SeedFile) (id generation work_id : Z)
| StopInstance (control : option InstanceControl) (agent : str) (document : AgentInstanceDocument) (id : Z) (attempt : TaskAttempt)
| StopInstanceForDelete (control : option InstanceControl) (document : AgentInstanceDocument) (id work_id : Z)
| RemoveInstanceFiles (agent : str) (id work_id : Z)
| BootstrapInstance (agent_document : AgentDocument) (control : option InstanceControl)
    (document : AgentInstanceDocument) (id : Z) (attempt : TaskAttempt)
| ReconcileTailscaleServe (agent_document : AgentDocument) (document : AgentInstanceDocument) (id : Z) (attempt : TaskAttempt)
| ExecCommand (document : AgentInstanceDocument) (id work_id : Z) (command : list str) (timeout_seconds : Z)
| ReadLog (document : AgentInstanceDocument) (id lines respond : Z)
| ShellCommand (document : AgentInstanceDocument) (respond : Z).
End state.
Arguments Build_InstanceBackendOutcome {_ _} _ _.
Arguments bo_backend {_ _} _.
Arguments bo_result {_ _} _.

(** ** The text of a number and of a phase ([Display]) *)
Definition display (n : Z) : str := bytes_of (pretty (Z.to_N n)).
Definition display_phase (phase : AgentInstancePhase) : str :=
  lit match phase with
      | Materialized => "materialized" | Starting => "starting" | Running => "running" | Stopping => "stopping"
      | Stopped => "stopped" | Deleting => "deleting" | Deleted => "deleted" | PhaseFailed => "failed"
      end.
Definition display_port_request_error (error : PortRequestError) : str :=
  match error with
  | ManifestInvalid messages =>
    lit "manifest host port plan is invalid:" ++ [LF]
    ++ (messages ≫= λ message, lit "- " ++ message ++ [LF])
  | HostPortOverflow name host instance =>
    lit "network port " ++ name ++ lit " host base " ++ display host ++ lit " overflows for instance " ++ display instance
  end.

(** ** The state machines of the loop (runtime.rs) *)
Inductive AgentBaseState :=
| Missing
| Preparing (work_id : Z)
| Building (work_id generation : Z) (key : str)
| Ready (key : str)
| Failed (generation : Z) (key : option str)
| BaseStopping (work_id : Z)
| BaseIsStopped.

(** [AgentBaseState::has_provisioned_resources] *)
Definition has_provisioned_resources (self : AgentBaseState) : bool :=
  match self with
  | Building _ _ _ | Ready _ | BaseStopping _ | BaseIsStopped | Failed _ (Some _) => true
  | _ => false
  end.

Record ReconcileSchedule := { rs_next_at : Z; rs_active_work_id : option Z; rs_failure_count : Z }.
#[export] Instance eta_reconcile_schedule : Eta ReconcileSchedule := λ r,
  Build_ReconcileSchedule (rs_next_at r) (rs_active_work_id r) (rs_failure_count r).

Definition schedule_new (c : Clock) : ReconcileSchedule :=
  {| rs_next_at := now c; rs_active_work_id := None; rs_failure_count := 0 |}.

Inductive RuntimeRepairState := RepairIdle | RepairDue | RepairBackoff.
Inductive AgentInstanceWorkKind :=
| WorkReconciling | WorkRepairing | WorkStarting | WorkBootstrapping | WorkStopping | WorkDeleting.
#[export] Instance repair_state_eq_dec : EqDecision RuntimeRepairState.
Proof. solve_decision. Defined.
#[export] Instance work_kind_eq_dec : EqDecision AgentInstanceWorkKind.
Proof. solve_decision. Defined.

Definition allows_auxiliary_work (self : RuntimeRepairState) : bool := bool_decide (self = RepairIdle).

Record AgentInstanceWork := { wk_id : Z; wk_kind : AgentInstanceWorkKind; wk_input_generation : Z }.

(** [respond] is the channel of the caller. *)
Record ForegroundSession := { fs_work_id : Z; fs_respond : Z }.

Section instance.
Context `{ManifestRules}.

(** ** The documents of an instance (documents.rs) *)
Record AgentInstanceDocuments := {
  private : AgentInstanceDocument;
  persisted : option AgentInstanceDocument;
  public : AgentInstanceDocument;
}.
#[global] Instance eta_instance_documents : Eta AgentInstanceDocuments := λ r,
  Build_AgentInstanceDocuments (private r) (persisted r) (public r).

Definition REDACTED_PRIVATE_KEY : str := lit "<redacted>".

(** [if let Some(guest_access) = &mut status.guest_access { .. }] *)
Definition redact (status : AgentInstanceStatus) : AgentInstanceStatus :=
  status <| is_guest_access ::= fmap (λ access, access <| ga_private_key := REDACTED_PRIVATE_KEY |>) |>.

Definition instance_documents_new (private : AgentInstanceDocument) (persisted : option AgentInstanceDocument) :
    AgentInstanceDocuments :=
  {| private := private; persisted := persisted; public := private <| id_status ::= redact |> |}.

Definition instance_documents_write (private : AgentInstanceDocument) (self : AgentInstanceDocuments) :
    AgentInstanceDocuments :=
  instance_documents_new private (persisted self).

Definition instance_dirty (self : AgentInstanceDocuments) : bool := bool_decide (persisted self ≠ Some (private self)).

(** ** An instance *)
Record StartingAgentInstanceState := {
  si_work_id : Z;
  si_generation : Z;
  si_retry_at : option Z;
  si_failure_count : Z;
  si_event_sequence : Z;
}.
#[global] Instance eta_starting_instance : Eta StartingAgentInstanceState := λ r,
  Build_StartingAgentInstanceState (si_work_id r) (si_generation r) (si_retry_at r) (si_failure_count r) (si_event_sequence r).

(** [StartingAgentInstanceState::new] *)
Definition starting_new (work_id generation : Z) : StartingAgentInstanceState :=
  {| si_work_id := work_id; si_generation := generation; si_retry_at := None; si_failure_count := 0;
     si_event_sequence := 1 |}.

Record RunningAgentInstanceState := {
  ri_documents : AgentInstanceDocuments;
  ri_event_sequence : Z;
  ri_bootstrap_retry : option Z;
  ri_cleanup_retry : option Z;
  ri_work : option AgentInstanceWork;
  ri_control : option InstanceControl;
  ri_runtime_secrets : ReconcileSchedule;
  ri_runtime_repair : RuntimeRepairState;
  ri_secret_host_files : option (list SeedFile);
  ri_host_inputs : ReconcileSchedule;
  ri_session : option ForegroundSession;
}.
#[global] Instance eta_running_instance : Eta RunningAgentInstanceState := λ r,
  Build_RunningAgentInstanceState (ri_documents r) (ri_event_sequence r) (ri_bootstrap_retry r) (ri_cleanup_retry r)
    (ri_work r) (ri_control r) (ri_runtime_secrets r) (ri_runtime_repair r) (ri_secret_host_files r)
    (ri_host_inputs r) (ri_session r).

(** [instance.documents.private] and its parts *)
Definition doc (self : RunningAgentInstanceState) : AgentInstanceDocument := private (ri_documents self).
Definition spec (self : RunningAgentInstanceState) : AgentInstanceSpec := id_spec (doc self).
Definition status (self : RunningAgentInstanceState) : AgentInstanceStatus := id_status (doc self).

(** Assignments to fields of [instance.documents.private.status] and [.spec] *)
Definition update_status (f : AgentInstanceStatus → AgentInstanceStatus) (self : RunningAgentInstanceState) :
    RunningAgentInstanceState :=
  self <| ri_documents ::= λ documents, documents <| private; id_status ::= f |> |>.
Definition update_spec (f : AgentInstanceSpec → AgentInstanceSpec) (self : RunningAgentInstanceState) :
    RunningAgentInstanceState :=
  self <| ri_documents ::= λ documents, documents <| private; id_spec ::= f |> |>.

Definition readiness_ready (status : AgentInstanceStatus) : bool :=
  match is_readiness status with Some state => rd_ready state | None => false end.

Definition bootstrap_retry_deadline (c : Clock) (document : AgentInstanceDocument) : option Z :=
  if readiness_ready (id_status document) then None
  else bootstrap ← is_bootstrap (id_status document);
       Some (now c + from_secs (saturating_sub (bt_next_retry_unix_seconds bootstrap) (unix_seconds c))).

(** [RunningAgentInstanceState::new] *)
Definition running_instance_new (c : Clock) (document : AgentInstanceDocument)
    (persisted : option AgentInstanceDocument) (event_sequence : Z) : RunningAgentInstanceState :=
  {| ri_documents := instance_documents_new document persisted;
     ri_event_sequence := event_sequence;
     ri_bootstrap_retry := bootstrap_retry_deadline c document;
     ri_cleanup_retry := None;
     ri_work := None;
     ri_control := None;
     ri_runtime_secrets := schedule_new c;
     ri_runtime_repair := RepairIdle;
     ri_secret_host_files := None;
     ri_host_inputs := schedule_new c;
     ri_session := None |}.

Definition blocks_instance_transition (self : RunningAgentInstanceState) : bool :=
  bool_decide (is_Some (ri_work self)) || bool_decide (is_Some (rs_active_work_id (ri_runtime_secrets self)))
  || bool_decide (is_Some (rs_active_work_id (ri_host_inputs self))) || bool_decide (is_Some (ri_session self)).

Definition bootstrap_retry_wake (self : RunningAgentInstanceState) : option Z :=
  if blocks_instance_transition self || negb (allows_auxiliary_work (ri_runtime_repair self))
     || negb (bool_decide (sp_target (spec self) = TargetActive)) || readiness_ready (status self)
  then None else ri_bootstrap_retry self.

Inductive AgentInstanceState :=
| StartingInstance (starting : StartingAgentInstanceState)
| RunningInstance (running : RunningAgentInstanceState).

Definition running_ref (self : AgentInstanceState) : option RunningAgentInstanceState :=
  match self with StartingInstance _ => None | RunningInstance running => Some running end.

(** ** The agent *)
Record AgentDocuments := {
  agent_private : AgentDocument;
  agent_persisted : option AgentDocument;
  agent_public : AgentDocument;
}.
#[global] Instance eta_agent_documents : Eta AgentDocuments := λ r,
  Build_AgentDocuments (agent_private r) (agent_persisted r) (agent_public r).

Definition redact_agent (document : AgentDocument) : AgentDocument :=
  document <| ad_status; as_instances ::= fmap redact |>.

(** [AgentDocuments::new] *)
Definition agent_documents_new (private : AgentDocument) (persisted : option AgentDocument) : AgentDocuments :=
  {| agent_private := private; agent_persisted := persisted; agent_public := redact_agent private |}.

Definition agent_dirty (self : AgentDocuments) : bool :=
  bool_decide (agent_persisted self ≠ Some (agent_private self)).

(** A response that waits for the commit; the sender is the number of its channel. *)
Inductive PendingResponse :=
| RespondAgentDocument (respond : Z)
| RespondInstanceDocument (id respond : Z)
| RespondListItems (respond : Z)
| RespondOpenStream (replay_from_generation : option Z) (items : Z) (respond : option Z).

Record AgentInstanceListItem := {
  li_name : str; li_agent : str; li_instance : str; li_instance_id : Z; li_status : str;
  li_stale : bool; li_stale_reason : option str; li_process_status : option str;
  li_process_message : option str; li_pid : option Z; li_ready : option bool;
}.
Record AgentInstanceExecResult := {
  er_name : str; er_command : list str; er_exit_status : Z; er_stdout : str; er_stderr : str;
}.

(** What the loop sends on the channels it was given, appends to the event logs
    and does to the files of the agent. *)
Inductive Effect :=
| SentDocument (respond : Z) (result : AgentDocument + Error)
| SentInstance (respond : Z) (result : AgentInstanceDocument + Error)
| SentItems (respond : Z) (result : list AgentInstanceListItem + Error)
| SentOpened (respond : Z) (result : unit + Error)
| SentExec (respond : Z) (result : AgentInstanceExecResult + Error)
| SentError (respond : Z) (error : Error)
| SentStream (items : Z) (item : AgentStreamItem)
| AppendedInstanceEvent (id : Z) (event : AgentInstanceEventEnvelope)
| AppendedEvent (event : AgentEventEnvelope)
| SavedAgent (document : AgentDocument)
| SavedInstance (id : Z) (document : AgentInstanceDocument)
| RemovedAgentDirectory.

(** [RunningAgentState]: the last two fields are the environment's, the local
    task set to which [spawn_local] adds, and the effects so far, newest first. *)
Record RunningAgentState := {
  ag_agent : str;
  ag_documents : AgentDocuments;
  ag_pending_responses : list PendingResponse;
  ag_recent_events : list AgentEventEnvelope;
  ag_event_sequence : Z;
  ag_base : AgentBaseState;
  ag_instances : gmap Z AgentInstanceState;
  ag_streams : list Z;
  ag_next_reconcile : Z;
  ag_next_work_id : Z;
  ag_tasks : list Task;
  ag_effects : list Effect;
}.
#[global] Instance eta_running_agent : Eta RunningAgentState := λ r,
  Build_RunningAgentState (ag_agent r) (ag_documents r) (ag_pending_responses r) (ag_recent_events r)
    (ag_event_sequence r) (ag_base r) (ag_instances r) (ag_streams r) (ag_next_reconcile r) (ag_next_work_id r)
    (ag_tasks r) (ag_effects r).

(** [self.documents.private] *)
Definition document (self : RunningAgentState) : AgentDocument := agent_private (ag_documents self).
Definition update_document (f : AgentDocument → AgentDocument) (self : RunningAgentState) : RunningAgentState :=
  self <| ag_documents; agent_private ::= f |>.

(** [self.instances.get(&id).and_then(running_ref)], and assignments through
    [get_mut(&id).and_then(running_mut)] *)
Definition running_instance (self : RunningAgentState) (id : Z) : option RunningAgentInstanceState :=
  ag_instances self !! id ≫= running_ref.
Definition update_instance (id : Z) (f : RunningAgentInstanceState → RunningAgentInstanceState)
    (self : RunningAgentState) : RunningAgentState :=
  self <| ag_instances ::= alter (λ state, match state with
                                           | StartingInstance starting => StartingInstance starting
                                           | RunningInstance instance => RunningInstance (f instance)
                                           end) id |>.

(** [tokio::task::spawn_local] *)
Definition spawn (task : Task) (self : RunningAgentState) : RunningAgentState := self <| ag_tasks ::= cons task |>.
(** [sender.try_send], [events.append], [fs::write] *)
Definition effect (effect : Effect) (self : RunningAgentState) : RunningAgentState := self <| ag_effects ::= cons effect |>.
End instance.
