(* ===== verification/AgentRuntime.v ===== *)
(** * The loop of an agent
      (src/apps/agentdp-server/src/agent/runtime.rs and documents.rs)

    One iteration takes an input (a command, the completion of a task, or a
    timer), handles it, refreshes what it knows of the networks, reconciles, and
    commits: documents are published and requests are answered after they were
    saved.  Reconciling spawns tasks; their completions are later inputs.

    [Env] is what an iteration meets: the clock (read once per iteration), which
    streams still accept an item, what the networks report, which writes of
    state files fail. *)
From S2P Require Import Prelude Text Ordered Fields BootRun AgentDocument AgentState.
Local Open Scope Z_scope.

Section runtime.
Context `{ManifestRules}.

Record Env := {
  clock : Clock;
  accepts : Z → AgentStreamItem → bool;
  network_events : Z → list AgentInstanceNetworkEvent;
  network_observation : Z → option AgentInstanceNetworkStatus;
  write_error : option Z → option str;
}.
Context (env : Env).

Definition instant_now : Z := now (clock env).

(** ** Events *)
(** [publish]: a stream that does not accept the item is dropped *)
Definition publish (item : AgentStreamItem) (self : RunningAgentState) : RunningAgentState :=
  let self := foldl (λ self items, effect (SentStream items item) self) self
                (filter (λ items, accepts env items item = true) (ag_streams self)) in
  self <| ag_streams ::= filter (λ items, accepts env items item = true) |>.

Definition emit (source : AgentEventSource) (event : AgentEvent) (self : RunningAgentState) : RunningAgentState :=
  match event with
  | DocumentChanged _ => self
  | _ =>
    let envelope := {| ae_sequence := ag_event_sequence self;
                       ae_timestamp := rfc3339_utc_now (clock env);
                       ae_generation := generation (document self);
                       ae_source := source; ae_event := event |} in
    let self := self <| ag_event_sequence ::= λ sequence, saturating_add64 sequence 1 |> in
    let self := effect (AppendedEvent envelope) self in
    let self := self <| ag_recent_events ::= λ recent,
      let recent := recent ++ [envelope] in drop (length recent - RECENT_EVENT_CAPACITY) recent |> in
    publish (StreamEvent envelope) self
  end.

Definition should_forward_instance_event (event : AgentInstanceEvent) : bool :=
  match event with NetworkEvent _ => false | _ => true end.

Definition emit_instance_event (id : Z) (source : AgentInstanceEventSource) (event : AgentInstanceEvent)
    (self : RunningAgentState) : RunningAgentState :=
  match running_instance self id with
  | None => self
  | Some instance =>
    let envelope := {| ie_sequence := ri_event_sequence instance;
                       ie_timestamp := rfc3339_utc_now (clock env);
                       ie_generation := generation (document self);
                       ie_work_epoch := None; ie_source := source; ie_event := event |} in
    let self := update_instance id
      (λ instance, instance <| ri_event_sequence ::= λ sequence, saturating_add64 sequence 1 |>) self in
    let self := effect (AppendedInstanceEvent id envelope) self in
    if should_forward_instance_event event then emit (SourceInstance id) (InstanceEvent envelope) self else self
  end.

Definition emit_warning (source : AgentEventSource) (message : str) (self : RunningAgentState) : RunningAgentState :=
  emit source (Diagnostic Warn message) self.

(** ** Work of an instance *)
Definition allocate_work_id (self : RunningAgentState) : Z * RunningAgentState :=
  (ag_next_work_id self, self <| ag_next_work_id ::= λ next, next + 1 |>).

Definition transition_work (kind : AgentInstanceTransitionKind) : AgentInstanceTransitionWorkStatus :=
  {| tw_kind := kind; tw_started_unix_seconds := Some (unix_seconds (clock env)); tw_message := None |}.

Definition bootstrap_running : AgentInstanceBootstrapWorkStatus :=
  {| bw_phase := WorkRunning; bw_current_step := None; bw_last_error := None; bw_failure_count := None;
     bw_next_retry_unix_seconds := None |}.

Definition work_status (work : AgentInstanceWorkKind) (session_active : bool) : AgentInstanceWorkStatus :=
  let status := work_status_default <| iw_sessions_active := if session_active then 1 else 0 |> in
  match work with
  | WorkReconciling | WorkRepairing => status <| iw_transition := Some (transition_work Reconcile) |>
  | WorkStarting => status <| iw_transition := Some (transition_work Start) |>
  | WorkStopping => status <| iw_transition := Some (transition_work Stop) |>
  | WorkDeleting => status <| iw_transition := Some (transition_work Delete) |>
  | WorkBootstrapping => status <| iw_bootstrap := Some bootstrap_running |>
  end.

Definition session_active (instance : RunningAgentInstanceState) : bool := bool_decide (is_Some (ri_session instance)).

Definition admit_instance_work (id input_generation : Z) (kind : AgentInstanceWorkKind)
    (instance : RunningAgentInstanceState) : RunningAgentInstanceState :=
  update_status (λ status, status <| is_work := work_status kind (session_active instance) |>)
    (instance <| ri_work := Some {| wk_id := id; wk_kind := kind; wk_input_generation := input_generation |} |>).

Definition clear_instance_work (instance : RunningAgentInstanceState) : RunningAgentInstanceState :=
  update_status (λ status, status <| is_work; iw_transition := None |> <| is_work; iw_bootstrap := None |>
                                  <| is_work; iw_sessions_active := if session_active instance then 1 else 0 |>)
    (instance <| ri_work := None |>).

Definition is_cleanup_phase (phase : AgentInstancePhase) : bool :=
  match phase with Deleting | Deleted => true | _ => false end.

Definition refresh_instance_observed_generation (instance : RunningAgentInstanceState) : RunningAgentInstanceState :=
  if bool_decide (is_Some (ri_work instance)) then instance
  else
    let desired_generation := sp_desired_generation (spec instance) in
    let converged :=
      match sp_target (spec instance) with
      | TargetActive =>
        bool_decide (is_phase (status instance) = Running)
        && match is_reconciliation (status instance) with Some state => negb (rc_stale state) | None => false end
        && is_ready_for (is_host_inputs (status instance)) desired_generation
      | TargetInactive => bool_decide (is_phase (status instance) = Stopped)
      | TargetDeleting => false
      end in
    if converged then update_status (mark_observed_generation desired_generation) instance else instance.

Definition cleanup_phase_persisted (instance : RunningAgentInstanceState) (phase : AgentInstancePhase) : bool :=
  match persisted (ri_documents instance) with
  | Some document => bool_decide (is_phase (id_status document) = phase)
  | None => false
  end.

Definition mark_instance_transition_failed (error : str) (instance : RunningAgentInstanceState) : RunningAgentInstanceState :=
  update_status (λ status,
    (clear_readiness (status <| is_phase := PhaseFailed |>))
      <| is_reconciliation := Some {| rc_stale := true; rc_observed_status := lit "failed"; rc_observed_pid := None;
                                      rc_reason := Some error |} |>) instance.

Definition should_reconcile_runtime_secrets (instance : RunningAgentInstanceState) : bool :=
  bool_decide (rs_active_work_id (ri_runtime_secrets instance) = None)
  && bool_decide (rs_active_work_id (ri_host_inputs instance) = None)
  && match ri_work instance with Some work => bool_decide (wk_kind work = WorkBootstrapping) | None => true end
  && bool_decide (sp_target (spec instance) = TargetActive)
  && bool_decide (is_phase (status instance) = Running).

Definition should_reconcile_host_inputs (instance : RunningAgentInstanceState) : bool :=
  negb (bool_decide (is_Some (rs_active_work_id (ri_host_inputs instance)))
        || bool_decide (is_Some (rs_active_work_id (ri_runtime_secrets instance)))
        || negb (allows_auxiliary_work (ri_runtime_repair instance))
        || bool_decide (¬ is_Some (ri_secret_host_files instance))
        || bool_decide (is_Some (ri_work instance))
        || bool_decide (is_Some (ri_session instance))
        || negb (bool_decide (sp_target (spec instance) = TargetActive))
        || negb (bool_decide (is_phase (status instance) = Running))).

(** [for (name, mapping) in host_ports]: the entries do not interfere *)
Definition apply_bound_host_ports (host_ports : gmap str PortMappingState) (network : NetworkState) : NetworkState :=
  network <| nw_ports ::= map_imap (λ name configured,
    Some (match host_ports !! name with
          | Some mapping => {| pm_guest := pm_guest configured; pm_host := pm_host mapping;
                               pm_protocol := pm_protocol configured |}
          | None => configured
          end)) |>.

Definition set_port_host (name : str) (host : option Z) (network : NetworkState) : NetworkState :=
  network <| nw_ports ::= alter (λ configured, {| pm_guest := pm_guest configured; pm_host := host;
                                                  pm_protocol := pm_protocol configured |}) name |>.
End runtime.
