(* ===== verification/AgentHandlers.v ===== *)
(** * The inputs of the loop of an agent
      (src/apps/agentdp-server/src/agent/runtime.rs)

    [handle_work_completion]: every completion is checked against the work the
    loop has admitted, by its id, kind and generation, before it changes the
    state. *)
From S2P Require Import Prelude Text Ordered Fields BootRun AgentDocument AgentState AgentRuntime.
Local Open Scope Z_scope.

Section handlers.
Context `{ManifestRules} (env : Env).

(** ** The base *)
Definition handle_base_completion (completion : WorkCompletion) (self : RunningAgentState) : RunningAgentState :=
  match completion with
  | BasePrepared work_id gen preparation =>
    match ag_base self with
    | Preparing active =>
      if negb (active =? work_id) then self
      else if negb (gen =? generation (document self)) then self <| ag_base := Missing |>
      else
        let key := bp_key preparation in
        let self := update_document (mark_agent_base_desired key) self in
        let self := self <| ag_base := Building work_id gen key |> in
        let self := spawn (BuildBase (document self) {| ta_work_id := work_id; ta_generation := gen |} preparation) self in
        emit env SourceAgentBase (AgentBaseStarted key) self
    | _ => self
    end
  | BaseBuilt work_id gen key =>
    match ag_base self with
    | Building active_work active active_key =>
      if negb ((active_work =? work_id) && (active =? gen) && bool_decide (active_key = key)) then self
      else if deletion_requested (document self) then
        (update_document (mark_agent_base_ready key) self) <| ag_base := Ready key |>
      else if negb (gen =? generation (document self)) then self <| ag_base := Missing |>
      else
        let self := (update_document (mark_agent_base_ready key) self) <| ag_base := Ready key |> in
        emit env SourceAgentBase (AgentBaseReady key) self
    | _ => self
    end
  | BaseFailedWork work_id gen error =>
    let failed (failed_key : option str) :=
      if negb (gen =? generation (document self)) then self <| ag_base := Missing |>
      else
        let self := self <| ag_base := Failed gen failed_key |> in
        let self := update_document (mark_agent_base_failed error) self in
        emit env SourceAgentBase (AgentBaseFailed (default (lit "unknown") failed_key) error) self in
    match ag_base self with
    | Preparing active => if active =? work_id then failed (desired_agent_base_key (document self)) else self
    | Building active _ key => if active =? work_id then failed (Some key) else self
    | _ => self
    end
  | BaseStopped work_id =>
    match ag_base self with
    | BaseStopping active => if active =? work_id then self <| ag_base := BaseIsStopped |> else self
    | _ => self
    end
  | BaseStopTimedOut work_id =>
    match ag_base self with
    | BaseStopping active =>
      if active =? work_id then
        emit_warning env SourceAgentBase (lit "agent base stop timed out; delete continued after bounded cleanup")
          (self <| ag_base := BaseIsStopped |>)
      else self
    | _ => self
    end
  | _ => self
  end.

(** ** Instances *)
(** [instance.work.is_some_and(|work| work.id == work_id && work.kind == kind && work.input_generation == generation)] *)
Definition owns_work (instance : RunningAgentInstanceState) (work_id : Z) (kind : AgentInstanceWorkKind) (gen : Z) : bool :=
  match ri_work instance with
  | Some work => (wk_id work =? work_id) && bool_decide (wk_kind work = kind) && (wk_input_generation work =? gen)
  | None => false
  end.

Definition relevant (instance : RunningAgentInstanceState) (gen : Z) : bool :=
  gen =? sp_desired_generation (spec instance).

Definition set_instance (id : Z) (instance : RunningAgentInstanceState) : RunningAgentState → RunningAgentState :=
  update_instance id (λ _, instance).

Definition delete_retry_message (id : Z) (error : str) : str :=
  display id ++ lit ": instance delete timed out; cleanup will retry: " ++ error.

Definition complete_instance_delete_runtime (id work_id gen : Z) (control : option InstanceControl)
    (outcome : InstanceStopOutcome) (self : RunningAgentState) : RunningAgentState :=
  match running_instance self id with
  | None => self
  | Some instance =>
    if negb (owns_work instance work_id WorkDeleting gen) then self
    else
      let instance := instance <| ri_control := control |> in
      let instance := update_status (λ status, status <| is_backend := st_backend outcome |>
                                                     <| is_tailscale_serve := st_tailscale_serve outcome |>) instance in
      match st_result outcome with
      | inl _ =>
        let instance := (clear_instance_work instance) <| ri_cleanup_retry := None |> in
        set_instance id (update_status (λ status, status <| is_phase := Deleted |>) instance) self
      | inr error =>
        let instance := (clear_instance_work instance)
          <| ri_cleanup_retry := Some (instant_now env + INSTANCE_DELETE_RETRY_DELAY) |> in
        emit_warning env (SourceInstance id) (delete_retry_message id error) (set_instance id instance self)
      end
  end.

Definition complete_instance_delete (id work_id : Z) (error : option str) (self : RunningAgentState) : RunningAgentState :=
  match running_instance self id with
  | None => self
  | Some instance =>
    match ri_work instance with
    | Some work =>
      if negb ((wk_id work =? work_id) && bool_decide (wk_kind work = WorkDeleting)) then self
      else match error with
      | Some error =>
        let instance := (clear_instance_work instance)
          <| ri_cleanup_retry := Some (instant_now env + INSTANCE_DELETE_RETRY_DELAY) |> in
        emit_warning env (SourceInstance id) (delete_retry_message id error) (set_instance id instance self)
      | None => emit env Controller (InstanceDeleted id) (self <| ag_instances ::= base.delete id |>)
      end
    | None => self
    end
  end.

Definition complete_instance_create (id work_id gen : Z) (created : AgentInstanceDocument + str)
    (self : RunningAgentState) : RunningAgentState :=
  match ag_instances self !! id with
  | Some (StartingInstance pending) =>
    if negb (si_work_id pending =? work_id) then self
    else
      let current := gen =? generation (document self) in
      match created with
      | inl created =>
        let instance := running_instance_new (clock env) created None (si_event_sequence pending) in
        let self := self <| ag_instances ::= <[id := RunningInstance instance]> |> in
        if current then emit env Controller (InstanceCreated id) self else self
      | inr error =>
        if negb current then self <| ag_instances ::= base.delete id |>
        else
          let failures := bump16 (si_failure_count pending) in
          let pending := pending <| si_failure_count := failures |>
            <| si_retry_at := Some (instant_now env + instance_create_retry_delay failures) |> in
          emit_warning env Controller (display id ++ lit ": failed to create instance: " ++ error)
            (self <| ag_instances ::= <[id := StartingInstance pending]> |>)
      end
  | _ => self
  end.

Definition observed (stale : bool) (process : ProcessStatus) : ReconciliationState :=
  {| rc_stale := stale; rc_observed_status := ps_status process; rc_observed_pid := ps_pid process;
     rc_reason := ps_message process |}.

Definition cleaning_up (instance : RunningAgentInstanceState) : bool :=
  bool_decide (sp_target (spec instance) = TargetDeleting) || is_cleanup_phase (is_phase (status instance)).

Definition complete_instance_start (id work_id gen : Z) (outcome : InstanceBackendOutcome StartOutput)
    (self : RunningAgentState) : RunningAgentState :=
  match running_instance self id with
  | None => self
  | Some instance =>
    if negb (owns_work instance work_id WorkStarting gen) then self
    else
      let relevant := relevant instance gen in
      let cleaning_up := cleaning_up instance in
      let instance := update_status (λ status, status <| is_backend := bo_backend outcome |>) instance in
      let instance :=
        match bo_result outcome with
        | inl started =>
          if negb cleaning_up then
            let instance := if relevant then update_status (λ status,
                status <| is_network ::= apply_bound_host_ports (so_host_ports started) |>) instance else instance in
            update_status (λ status,
              (clear_readiness (status <| is_phase := Running |>))
                <| is_reconciliation := if relevant then Some (observed false (so_process started)) else None |>) instance
          else
            (update_status (λ status, (clear_readiness status) <| is_reconciliation := None |>) instance)
              <| ri_cleanup_retry := None |>
        | inr error =>
          if relevant && negb cleaning_up then mark_instance_transition_failed error instance else instance
        end in
      set_instance id (clear_instance_work instance) self
  end.

Definition complete_instance_reconcile (id work_id gen : Z) (outcome : InstanceBackendOutcome ReconcileOutput)
    (self : RunningAgentState) : RunningAgentState :=
  match running_instance self id with
  | None => self
  | Some instance =>
    let repairing := owns_work instance work_id WorkRepairing gen in
    if negb (owns_work instance work_id WorkReconciling gen || repairing) then self
    else
      let relevant := relevant instance gen in
      let instance := update_status (λ status, status <| is_backend := bo_backend outcome |>) instance in
      let instance := match bo_result outcome with
                      | inl _ => if repairing then instance <| ri_runtime_repair := RepairIdle |> else instance
                      | inr _ => instance
                      end in
      let stop (status : AgentInstanceStatus) (reconciled : ReconcileOutput) :=
        if ro_mark_stopped reconciled then clear_readiness (status <| is_phase := Stopped |>) else status in
      let instance :=
        match bo_result outcome with
        | inl reconciled =>
          if relevant then update_status (λ status,
            stop (status <| is_network ::= apply_bound_host_ports (ro_host_ports reconciled) |>
                         <| is_reconciliation := Some (observed (ro_stale reconciled) (ro_process reconciled)) |>)
                 reconciled) instance
          else update_status (λ status, (stop status reconciled) <| is_reconciliation := None |>) instance
        | inr error =>
          if relevant && negb repairing then mark_instance_transition_failed error instance else instance
        end in
      set_instance id (clear_instance_work instance) self
  end.

Definition complete_instance_stop (id work_id gen : Z) (control : option InstanceControl)
    (outcome : InstanceStopOutcome) (self : RunningAgentState) : RunningAgentState :=
  match running_instance self id with
  | None => self
  | Some instance =>
    if negb (owns_work instance work_id WorkStopping gen) then self
    else
      let relevant := relevant instance gen in
      let instance := instance <| ri_control := control |> in
      let instance := update_status (λ status, status <| is_backend := st_backend outcome |>
                                                     <| is_tailscale_serve := st_tailscale_serve outcome |>) instance in
      let instance :=
        match st_result outcome with
        | inl stopped => update_status (λ status,
            (clear_readiness (status <| is_phase := Stopped |>))
              <| is_reconciliation := Some {| rc_stale := false; rc_observed_status := sto_process_status stopped;
                                              rc_observed_pid := None; rc_reason := None |} |>) instance
        | inr error => if relevant then mark_instance_transition_failed error instance else instance
        end in
      set_instance id (clear_instance_work instance) self
  end.

Definition handle_instance_completion (completion : WorkCompletion) (self : RunningAgentState) : RunningAgentState :=
  match completion with
  | InstanceCreatedWork id work_id gen created => complete_instance_create id work_id gen created self
  | InstanceStarted id work_id gen outcome => complete_instance_start id work_id gen outcome self
  | InstanceReconciled id work_id gen outcome => complete_instance_reconcile id work_id gen outcome self
  | InstanceStopped id work_id gen control outcome => complete_instance_stop id work_id gen control outcome self
  | InstanceDeleteRuntimeStopped id work_id gen control outcome =>
    complete_instance_delete_runtime id work_id gen control outcome self
  | InstanceDeletedWork id work_id => complete_instance_delete id work_id None self
  | InstanceDeleteTimedOut id work_id error => complete_instance_delete id work_id (Some error) self
  | _ => self
  end.
End handlers.

Section bootstrap.
Context `{ManifestRules} (env : Env).

(** ** Bootstrap *)
Definition ready_result (document : AgentInstanceDocument) : ReadinessResult :=
  {| rr_ready := true;
     rr_services := omap (λ port, (λ host, {| sv_url := None; sv_host_port := host; sv_guest_port := pm_guest port |})
                                    <$> pm_host port) (nw_ports (is_network (id_status document)));
     rr_healthchecks := [] |}.

Definition set_bootstrap_work (work : AgentInstanceBootstrapWorkStatus) : RunningAgentInstanceState → RunningAgentInstanceState :=
  update_status (λ status, status <| is_work; iw_bootstrap := Some work |>).

Definition next_failure_count (status : AgentInstanceStatus) : Z :=
  match is_bootstrap status with Some state => bump32 (bt_failure_count state) | None => 1 end.

(** The arm of [BootstrapFinished] with an [Err] for the desired generation *)
Definition bootstrap_failed (failure : BootstrapTaskFailure) (instance : RunningAgentInstanceState) :
    RunningAgentInstanceState :=
  let failure_count := next_failure_count (status instance) in
  let observed_attempt_epoch := match bf_attempt_epoch failure with
                                | Some epoch => Some epoch
                                | None => is_bootstrap (status instance) ≫= bt_attempt_epoch
                                end in
  let delay := bootstrap_retry_delay failure_count in
  let next_retry := saturating_add64 (unix_seconds (clock env)) (as_secs delay) in
  let instance := update_status (record_bootstrap_failure {|
      bt_attempt_epoch := observed_attempt_epoch; bt_failure_count := failure_count;
      bt_last_failure_unix_seconds := unix_seconds (clock env); bt_next_retry_unix_seconds := next_retry;
      bt_last_error := bf_error failure |}) instance in
  let instance := instance <| ri_bootstrap_retry := Some (instant_now env + delay) |> in
  let instance := set_bootstrap_work {|
      bw_phase := WorkBackingOff; bw_current_step := None; bw_last_error := Some (bf_error failure);
      bw_failure_count := Some failure_count; bw_next_retry_unix_seconds := Some next_retry |} instance in
  instance <| ri_work := None |>.

Definition bootstrap_finished (id work_id gen : Z) (control : option InstanceControl)
    (result : option TailscaleServeState + BootstrapTaskFailure) (self : RunningAgentState) : RunningAgentState :=
  match running_instance self id with
  | None => self
  | Some instance =>
    if negb (owns_work instance work_id WorkBootstrapping gen) then self
    else
      let instance := instance <| ri_control := control |> in
      if negb (relevant instance gen) then
        let instance := match result with
                        | inl serve => update_status (λ status, status <| is_tailscale_serve := serve |>) instance
                        | inr _ => instance
                        end in
        set_instance id ((clear_instance_work instance) <| ri_bootstrap_retry := None |>) self
      else
        match result with
        | inr failure =>
          emit_instance_event env id SourceBootstrap (EvBootstrapFinished (OperationFailed (bf_error failure)))
            (set_instance id (bootstrap_failed failure instance) self)
        | inl serve =>
          let instance := update_status (λ status, status <| is_tailscale_serve := serve |>) instance in
          let instance := update_status (mark_ready (rfc3339_utc_now (clock env)) {|
              rd_ready := true; rd_last_success_unix_seconds := unix_seconds (clock env);
              rd_result := ready_result (doc instance) |}) instance in
          let instance := clear_instance_work (instance <| ri_bootstrap_retry := None |>) in
          emit_instance_event env id SourceBootstrap (EvBootstrapFinished Succeeded) (set_instance id instance self)
        end
  end.

Definition apply_bootstrap_event (source : BootstrapSource) (work_id gen : Z) (event : BootstrapEvent)
    (self : RunningAgentState) : RunningAgentState :=
  match source with
  | FromAgentBase =>
    let owns_event := match ag_base self with
                      | Preparing active | Building active _ _ => active =? work_id
                      | _ => false
                      end in
    if owns_event && (gen =? generation (document self)) then emit env SourceAgentBase (EvBootstrap event) self else self
  | FromInstance id =>
    match running_instance self id with
    | None => self
    | Some instance =>
      if negb (relevant instance gen) || negb (owns_work instance work_id WorkBootstrapping gen) then self
      else
        let instance :=
          match event with
          | BootstrapDiagnostic _ _ => instance
          | StepStarted step => set_bootstrap_work {|
              bw_phase := WorkRunning; bw_current_step := Some step; bw_last_error := None; bw_failure_count := None;
              bw_next_retry_unix_seconds := None |} instance
          | StepFinished _ _ _ _ => update_status (λ status, status
              <| is_work; iw_bootstrap ::= fmap (λ bootstrap, bootstrap <| bw_current_step := None |>) |>) instance
          | StepFailed _ _ _ _ message => set_bootstrap_work {|
              bw_phase := WorkFailed; bw_current_step := None; bw_last_error := Some message;
              bw_failure_count := Some (next_failure_count (status instance));
              bw_next_retry_unix_seconds := None |} instance
          end in
        emit env (SourceInstance id) (EvBootstrap event) (set_instance id instance self)
    end
  end.

Definition handle_bootstrap_completion (completion : WorkCompletion) (self : RunningAgentState) : RunningAgentState :=
  match completion with
  | BootstrapStarted id work_id gen =>
    match running_instance self id with
    | None => self
    | Some instance =>
      if relevant instance gen && owns_work instance work_id WorkBootstrapping gen then
        emit_instance_event env id SourceBootstrap EvBootstrapStarted
          (set_instance id (set_bootstrap_work bootstrap_running instance) self)
      else self
    end
  | BootstrapEventWork source work_id gen event => apply_bootstrap_event source work_id gen event self
  | BootstrapFinished id work_id gen control result => bootstrap_finished id work_id gen control result self
  | _ => self
  end.

(** ** Tailscale, runtime secrets, host inputs, sessions *)
Definition handle_tailscale_completion (completion : WorkCompletion) (self : RunningAgentState) : RunningAgentState :=
  match completion with
  | TailscaleServeReconciled id work_id gen result =>
    match running_instance self id with
    | None => self
    | Some instance =>
      if negb (owns_work instance work_id WorkReconciling gen) then self
      else
        match result with
        | inl serve =>
          let instance := update_status (λ status, status <| is_tailscale_serve := serve |>) instance in
          set_instance id (clear_instance_work instance) self
        | inr error =>
          let self := set_instance id (clear_instance_work instance) self in
          if relevant instance gen
          then emit_warning env (SourceInstance id) (display id ++ lit ": failed to reconcile Tailscale serve: " ++ error) self
          else self
        end
    end
  | _ => self
  end.

Definition credentials_ready (credentials : gmap str AgentInstanceCredentialState) : bool :=
  bool_decide (map_Forall (λ _ credential, cr_phase credential = CredentialReady) credentials).

Definition handle_runtime_secrets_completion (completion : WorkCompletion) (self : RunningAgentState) : RunningAgentState :=
  match completion with
  | RuntimeSecretsReconciled id gen work_id outcome =>
    match running_instance self id with
    | None => self
    | Some instance =>
      if negb (bool_decide (rs_active_work_id (ri_runtime_secrets instance) = Some work_id)) then self
      else
        let instance := instance <| ri_runtime_secrets; rs_active_work_id := None |> in
        if negb (relevant instance gen) then
          set_instance id (instance <| ri_runtime_secrets; rs_next_at := instant_now env |>) self
        else
          match bo_result outcome with
          | inl output =>
            let instance := update_status (λ status,
              status <| is_backend := bo_backend outcome |> <| is_host_inputs; hi_credentials := rs_credentials output |>) instance in
            let instance := instance <| ri_runtime_repair := RepairIdle |> in
            let instance := instance <| ri_secret_host_files := Some (rs_secret_files output) |> in
            let instance := instance <| ri_runtime_secrets; rs_failure_count := 0 |> in
            let instance := instance <| ri_runtime_secrets; rs_next_at := instant_now env +
              (if credentials_ready (rs_credentials output) then HOST_INPUT_RECONCILE_INTERVAL
               else HOST_CREDENTIAL_RECOVERY_INTERVAL) |> in
            set_instance id (instance <| ri_host_inputs; rs_next_at := instant_now env |>) self
          | inr error =>
            let failures := bump16 (rs_failure_count (ri_runtime_secrets instance)) in
            let instance := instance <| ri_runtime_repair := RepairDue |> in
            let instance := instance <| ri_runtime_secrets; rs_failure_count := failures |> in
            let instance := instance <| ri_runtime_secrets; rs_next_at :=
              instant_now env + host_input_reconcile_retry_delay failures |> in
            let instance := update_status (λ status, status <| is_host_inputs ::=
              inputs_record_failure gen (lit "runtime secret refresh failed: " ++ error) |>) instance in
            emit_warning env (SourceInstance id) (display id ++ lit ": failed to refresh runtime secrets (attempt "
              ++ display failures ++ lit "): " ++ error) (set_instance id instance self)
          end
    end
  | _ => self
  end.

(** [file_errors.iter().map(..).collect::<Vec<_>>().join("; ")] *)
Definition join_file_errors (errors : list (str * str)) : str :=
  intercalate (lit "; ") ((λ failure, failure.1 ++ lit ": " ++ failure.2) <$> errors).

Definition host_inputs_failed (gen : Z) (error : str) (instance : RunningAgentInstanceState) : RunningAgentInstanceState :=
  let failures := bump16 (rs_failure_count (ri_host_inputs instance)) in
  let instance := instance <| ri_host_inputs; rs_failure_count := failures |> in
  let instance := instance <| ri_host_inputs; rs_next_at := instant_now env + host_input_reconcile_retry_delay failures |> in
  update_status (λ status, status <| is_host_inputs ::= inputs_record_failure gen error |>) instance.

Definition handle_host_inputs_completion (completion : WorkCompletion) (self : RunningAgentState) : RunningAgentState :=
  match completion with
  | HostInputsReconciled id gen work_id control result =>
    match running_instance self id with
    | None => self
    | Some instance =>
      if negb (bool_decide (rs_active_work_id (ri_host_inputs instance) = Some work_id)) then self
      else
        let instance := instance <| ri_host_inputs; rs_active_work_id := None |> <| ri_control := control |> in
        if negb (relevant instance gen) then
          set_instance id (instance <| ri_host_inputs; rs_next_at := instant_now env |>) self
        else
          match result with
          | inl output =>
            if 0 <? ho_file_failures output then
              let error := join_file_errors (ho_file_errors output) in
              let instance := host_inputs_failed gen (lit "guest file writes failed: " ++ error) instance in
              emit_warning env (SourceInstance id) (display id ++ lit ": host input guest file writes failed: "
                ++ display (ho_file_failures output) ++ lit ": " ++ error) (set_instance id instance self)
            else
              let instance := instance <| ri_host_inputs; rs_failure_count := 0 |> in
              let instance := instance <| ri_host_inputs; rs_next_at := instant_now env + HOST_INPUT_RECONCILE_INTERVAL |> in
              let instance := update_status (λ status, status <| is_host_inputs ::= inputs_mark_ready gen |>) instance in
              let self := set_instance id instance self in
              if 0 <? ho_files_updated output then
                emit env (SourceInstance id) (Diagnostic Info (display id ++ lit ": wrote host input file updates: "
                  ++ display (ho_files_updated output))) self
              else self
          | inr error =>
            let instance := host_inputs_failed gen (lit "host input reconciliation failed: " ++ error) instance in
            emit_warning env (SourceInstance id) (display id ++ lit ": failed to reconcile host inputs (attempt "
              ++ display (rs_failure_count (ri_host_inputs instance)) ++ lit "): " ++ error) (set_instance id instance self)
          end
    end
  | _ => self
  end.

(** [u64::try_from(output.status).unwrap_or(1)] *)
Definition exit_status (status : Z) : Z := if 0 <=? status then status else 1.

(** [format!("{}", status)] of a signed integer *)
Definition display_signed (n : Z) : str := if 0 <=? n then display n else lit "-" ++ display (- n).

Definition handle_exec_completion (completion : WorkCompletion) (self : RunningAgentState) : RunningAgentState :=
  match completion with
  | ExecFinished id work_id command output =>
    match running_instance self id with
    | None => self
    | Some instance =>
      match ri_session instance with
      | Some session =>
        if negb (fs_work_id session =? work_id) then self
        else
          let instance := instance <| ri_session := None |> in
          let instance := update_status (λ status, status <| is_work; iw_sessions_active := 0 |>) instance in
          let self := set_instance id instance self in
          let self := effect (SentExec (fs_respond session) (inl {|
              er_name := instance_name (doc instance); er_command := command;
              er_exit_status := exit_status (co_status output);
              er_stdout := co_stdout output; er_stderr := co_stderr output |})) self in
          emit_instance_event env id (SourceSession Exec) (SessionFinished Exec {|
              sn_exit_status := Some (exit_status (co_status output));
              sn_result := if co_status output =? 0 then Succeeded
                           else OperationFailed (lit "command exited with status " ++ display_signed (co_status output)) |}) self
      | None => self
      end
    end
  | _ => self
  end.

(** [handle_work_completion] *)
Definition handle_work_completion (completion : WorkCompletion) : RunningAgentState → RunningAgentState :=
  match completion with
  | BasePrepared _ _ _ | BaseBuilt _ _ _ | BaseFailedWork _ _ _ | BaseStopped _ | BaseStopTimedOut _ =>
    handle_base_completion env completion
  | InstanceCreatedWork _ _ _ _ | InstanceReconciled _ _ _ _ | InstanceStarted _ _ _ _ | InstanceStopped _ _ _ _ _
  | InstanceDeleteRuntimeStopped _ _ _ _ _ | InstanceDeletedWork _ _ | InstanceDeleteTimedOut _ _ _ =>
    handle_instance_completion env completion
  | BootstrapStarted _ _ _ | BootstrapEventWork _ _ _ _ | BootstrapFinished _ _ _ _ _ =>
    handle_bootstrap_completion completion
  | TailscaleServeReconciled _ _ _ _ => handle_tailscale_completion completion
  | RuntimeSecretsReconciled _ _ _ _ => handle_runtime_secrets_completion completion
  | HostInputsReconciled _ _ _ _ _ => handle_host_inputs_completion completion
  | ExecFinished _ _ _ _ => handle_exec_completion completion
  end.
End bootstrap.
