(* ===== verification/AgentReconcile.v ===== *)
(** * Reconciling an agent
      (src/apps/agentdp-server/src/agent/runtime.rs)

    [reconcile] projects the desired state on the instances, then admits the work
    that brings the base and the instances nearer to it: at most one transition
    of an instance at a time, cleanup before everything else. *)
From S2P Require Import Prelude Text Ordered Fields BootRun AgentDocument AgentState AgentRuntime AgentHandlers.
Local Open Scope Z_scope.

Section reconcile.
Context `{ManifestRules} (env : Env).

(** [for id in ids { f(id) }] *)
Definition for_ids (f : Z → RunningAgentState → RunningAgentState) (ids : list Z) (self : RunningAgentState) :
    RunningAgentState :=
  foldl (λ self id, f id self) self ids.

Definition instance_ids (self : RunningAgentState) : list Z := keys_sorted (ag_instances self).

(** [project_instance_desired_state] *)
Definition project_instance_desired_state (instance : RunningAgentInstanceState) (document : AgentDocument)
    (id : Z) (target : AgentInstanceTarget) : RunningAgentInstanceState * option str :=
  if bool_decide (is_phase (status instance) = Deleted) then (instance, None)
  else
    let agent_base := default (sp_agent_base (spec instance))
                        (match desired_agent_base_key document with
                         | Some key => Some key
                         | None => ready_agent_base_key document
                         end) in
    let generation_changed := negb (sp_desired_generation (spec instance) =? generation document) in
    let desired_changed := generation_changed
      || negb (bool_decide (sp_agent_base (spec instance) = agent_base))
      || negb (bool_decide (sp_template (spec instance) = template document))
      || negb (bool_decide (sp_target (spec instance) = target)) in
    let stale_materialization := negb (bool_decide (is_materialized_agent_base (status instance) = agent_base))
      || negb (bool_decide (is_materialized_template (status instance) = template document)) in
    let entering_cleanup := stale_materialization && negb (is_cleanup_phase (is_phase (status instance))) in
    if negb desired_changed && negb entering_cleanup then (instance, None)
    else
      let instance :=
        if desired_changed then
          update_spec (λ _, {| sp_desired_generation := generation document; sp_agent_base := agent_base;
                               sp_template := template document; sp_target := target |})
            (instance <| ri_runtime_repair := RepairIdle |>)
        else instance in
      let instance :=
        if generation_changed then
          update_status (λ status, status <| is_host_inputs ::= inputs_mark_pending |>)
            (instance <| ri_runtime_secrets; rs_next_at := instant_now env |>
                      <| ri_runtime_secrets; rs_failure_count := 0 |>
                      <| ri_secret_host_files := None |>
                      <| ri_host_inputs; rs_next_at := instant_now env |>
                      <| ri_host_inputs; rs_failure_count := 0 |>)
        else instance in
      let instance :=
        if entering_cleanup then
          (update_status (λ status, status <| is_phase := Deleting |>) instance) <| ri_cleanup_retry := None |>
        else instance in
      let instance := update_status (λ status, (clear_readiness status)
        <| is_reconciliation := None |>
        <| is_network; nw_allow := allow_state (network_allow (dep_template (mf_spec (manifest document)))) |>
        <| is_network; nw_runtime := None |>) instance in
      let assigned := assign_port_mappings (manifest document) id in
      let instance := match assigned with
                      | Ret ports => update_status (λ status, status <| is_network; nw_ports := ports |>) instance
                      | _ => instance
                      end in
      let warning := match assigned with
                     | Fail error => Some (display id ++ lit ": failed to assign host ports: " ++ display_port_request_error error)
                     | _ => None
                     end in
      let instance := update_status (λ status, status <| is_observed_generation ::=
        λ observed, Z.min observed (saturating_sub (generation document) 1) |>) instance in
      (instance <| ri_bootstrap_retry := None |>, warning).

(** The target of an instance *)
Definition instance_target (document : AgentDocument) (id : Z) : AgentInstanceTarget :=
  if deletion_requested document then TargetDeleting
  else if bool_decide (phase document = PhasePaused) || (replicas document =? 0) || (replicas document <=? id)
  then TargetInactive else TargetActive.

(** The body of the loop of [project_instance_desired_states] for one instance,
    which collects the warnings *)
Definition project_instance (document : AgentDocument) (warnings : list (Z * str)) (id : Z) (self : RunningAgentState) :
    list (Z * str) * RunningAgentState :=
  match running_instance self id with
  | None => (warnings, self)
  | Some instance =>
    let '(instance, warning) := project_instance_desired_state instance document id (instance_target document id) in
    (match warning with Some message => warnings ++ [(id, message)] | None => warnings end,
     set_instance id (refresh_instance_observed_generation instance) self)
  end.

Definition project_instance_desired_states (self : RunningAgentState) : RunningAgentState :=
  let '(warnings, self) := foldl (λ '(warnings, self'), λ id, project_instance (document self) warnings id self')
                             ([], self) (instance_ids self) in
  foldl (λ self '(id, message), emit_warning env (SourceInstance id) message self) self warnings.

(** ** One instance *)
Definition start_task (task : TaskAttempt → Task) (kind : AgentInstanceWorkKind) (id work_id : Z)
    (instance : RunningAgentInstanceState) (self : RunningAgentState) : RunningAgentState :=
  let gen := sp_desired_generation (spec instance) in
  spawn (task {| ta_work_id := work_id; ta_generation := gen |})
    (set_instance id (admit_instance_work env work_id gen kind instance) self).

(** The document a task takes with it is the one after the admission. *)
Definition admitted (work_id : Z) (kind : AgentInstanceWorkKind) (instance : RunningAgentInstanceState) : AgentInstanceDocument :=
  doc (admit_instance_work env work_id (sp_desired_generation (spec instance)) kind instance).

Definition reconcile_instance_bootstrap (id : Z) (self : RunningAgentState) : RunningAgentState :=
  let '(work_id, self) := allocate_work_id self in
  match running_instance self id with
  | None => self
  | Some instance =>
    let due := match ri_bootstrap_retry instance with Some retry_at => retry_at <=? instant_now env | None => true end in
    if negb due then self
    else
      let instance := instance <| ri_bootstrap_retry := None |> in
      let ssh_port_ready := match nw_ports (is_network (status instance)) !! lit "ssh" with
                            | Some mapping => bool_decide (is_Some (pm_host mapping))
                            | None => false
                            end in
      if bool_decide (is_Some (is_guest_access (status instance))) && negb ssh_port_ready
      then set_instance id instance self
      else
        start_task (BootstrapInstance (document self) (ri_control instance) (admitted work_id WorkBootstrapping instance) id)
          WorkBootstrapping id work_id (instance <| ri_control := None |>) self
  end.

Definition reconcile_active_instance (id : Z) (self : RunningAgentState) : RunningAgentState :=
  let '(work_id, self) := allocate_work_id self in
  match running_instance self id with
  | None => self
  | Some instance =>
    let gen := sp_desired_generation (spec instance) in
    let running := bool_decide (is_phase (status instance) = Running) in
    if bool_decide (ri_runtime_repair instance = RepairDue) && running then
      let instance := instance <| ri_runtime_repair := RepairBackoff |> in
      start_task (ReconcileInstance (document self) (admitted work_id WorkRepairing instance) id) WorkRepairing id work_id instance self
    else if bool_decide (ri_runtime_repair instance = RepairBackoff) && running then self
    else if running && bool_decide (is_reconciliation (status instance) = None) then
      start_task (ReconcileInstance (document self) (admitted work_id WorkReconciling instance) id)
        WorkReconciling id work_id instance self
    else if negb running then
      let instance := instance <| ri_control := None |> in
      start_task (StartInstance (document self) (admitted work_id WorkStarting instance) id) WorkStarting id work_id instance self
    else if negb (readiness_ready (status instance)) then reconcile_instance_bootstrap id self
    else if is_ready_for (is_host_inputs (status instance)) gen
            && negb (is_observed_generation (status instance) =? gen) then
      start_task (ReconcileTailscaleServe (document self) (admitted work_id WorkReconciling instance) id)
        WorkReconciling id work_id instance self
    else self
  end.

Definition reconcile_inactive_instance (id : Z) (self : RunningAgentState) : RunningAgentState :=
  let '(work_id, self) := allocate_work_id self in
  match running_instance self id with
  | None => self
  | Some instance =>
    if bool_decide (is_phase (status instance) = Stopped) then
      set_instance id (refresh_instance_observed_generation instance) self
    else
      start_task (StopInstance (ri_control instance) (dm_name (ad_metadata (document self)))
          (admitted work_id WorkStopping instance) id)
        WorkStopping id work_id (instance <| ri_control := None |>) self
  end.

Definition reconcile_deleting_instance (id : Z) (self : RunningAgentState) : RunningAgentState :=
  let '(work_id, self) := allocate_work_id self in
  match running_instance self id with
  | None => self
  | Some instance =>
    let cleanup_phase := is_phase (status instance) in
    let waiting := match ri_cleanup_retry instance with Some retry => instant_now env <? retry | None => false end in
    if negb (cleanup_phase_persisted instance cleanup_phase) || waiting then self
    else
      let instance := instance <| ri_cleanup_retry := None |> in
      let gen := sp_desired_generation (spec instance) in
      if bool_decide (cleanup_phase = Deleting) then
        let admitted := admit_instance_work env work_id gen WorkDeleting instance in
        spawn (StopInstanceForDelete (ri_control admitted) (doc admitted) id work_id)
          (set_instance id (admitted <| ri_control := None |>) self)
      else
        (* the document is not touched: saving it would recreate the directory *)
        let instance := instance <| ri_work :=
          Some {| wk_id := work_id; wk_kind := WorkDeleting; wk_input_generation := gen |} |> in
        spawn (RemoveInstanceFiles (ag_agent self) id work_id) (set_instance id instance self)
  end.

Definition reconcile_instance (id : Z) (self : RunningAgentState) : RunningAgentState :=
  match running_instance self id with
  | None => self
  | Some instance =>
    if blocks_instance_transition instance then self
    else if is_cleanup_phase (is_phase (status instance)) then reconcile_deleting_instance id self
    else match sp_target (spec instance) with
         | TargetActive => reconcile_active_instance id self
         | TargetInactive => reconcile_inactive_instance id self
         | TargetDeleting => reconcile_deleting_instance id self
         end
  end.

(** ** All instances *)
Definition retrying (state : AgentInstanceState) : bool :=
  match state with
  | StartingInstance starting => bool_decide (is_Some (si_retry_at starting))
  | RunningInstance _ => false
  end.

Definition drop_retrying_starting_instances (should_drop : Z → bool) (self : RunningAgentState) : RunningAgentState :=
  self <| ag_instances ::= filter (λ entry, should_drop entry.1 && retrying entry.2 = false) |>.

Definition mark_deleting (id : Z) (self : RunningAgentState) : RunningAgentState :=
  update_instance id (λ instance,
    if is_cleanup_phase (is_phase (status instance)) then instance
    else update_status (λ status, (clear_readiness (status <| is_phase := Deleting |>)) <| is_reconciliation := None |>)
           instance) self.

Definition reconcile_deletion (self : RunningAgentState) : RunningAgentState :=
  let self := drop_retrying_starting_instances (λ _, true) self in
  let self := for_ids (λ id self, reconcile_instance id (mark_deleting id self)) (instance_ids self) self in
  if bool_decide (ag_instances self = ∅) then
    let '(work_id, self) := allocate_work_id self in
    match ag_base self with
    | Ready _ => spawn (StopBase (document self) work_id) (self <| ag_base := BaseStopping work_id |>)
    | Missing | BaseIsStopped =>
      update_document mark_observed_generation_if_changed (update_document (refresh_status_projection true) self)
    | _ => self
    end
  else self.

Definition reconcile_inactive_instances (self : RunningAgentState) : RunningAgentState :=
  let self := drop_retrying_starting_instances (λ _, true) self in
  for_ids reconcile_instance (instance_ids self) self.

Definition in_cleanup (self : RunningAgentState) (id : Z) : bool :=
  match running_instance self id with
  | Some instance => is_cleanup_phase (is_phase (status instance))
  | None => false
  end.

Definition reconcile_cleanup_instances (self : RunningAgentState) : RunningAgentState :=
  for_ids reconcile_instance (filter (λ id, in_cleanup self id = true) (instance_ids self)) self.

Definition reconcile_base (self : RunningAgentState) : RunningAgentState :=
  let doc := document self in
  let '(work_id, self) := allocate_work_id self in
  let prepare := spawn (PrepareBase doc work_id (generation doc)) (self <| ag_base := Preparing work_id |>) in
  match ag_base self with
  | Missing | BaseIsStopped => prepare
  | Failed failed key =>
    if negb (failed =? generation doc) || negb (bool_decide (key = desired_agent_base_key doc)) then prepare else self
  | _ => self
  end.

Definition agent_base_ready_for_document (self : RunningAgentState) : bool :=
  match ag_base self, ready_agent_base_key (document self), desired_agent_base_key (document self) with
  | Ready ready_key, Some document_key, Some desired_key =>
    bool_decide (ready_key = document_key) && bool_decide (document_key = desired_key)
  | _, _, _ => false
  end.

(** The body of the loop of [reconcile_active_instances] for one slot *)
Definition admit_slot (agent_base : str) (document : AgentDocument) (id : Z) (self : RunningAgentState) : RunningAgentState :=
  let '(work_id, self) := allocate_work_id self in
  let create (starting : StartingAgentInstanceState) (self : RunningAgentState) :=
    spawn (CreateInstance document id agent_base {| ta_work_id := work_id; ta_generation := generation document |})
      (self <| ag_instances ::= <[id := StartingInstance starting]> |>) in
  match ag_instances self !! id with
  | Some (RunningInstance _) => self
  | Some (StartingInstance starting) =>
    if negb (si_generation starting =? generation document) then
      match si_retry_at starting with
      | None => self
      | Some _ => create (starting <| si_generation := generation document |> <| si_failure_count := 0 |>
                                   <| si_retry_at := None |> <| si_work_id := work_id |>) self
      end
    else
      match si_retry_at starting with
      | Some retry =>
        if instant_now env <? retry then self
        else create (starting <| si_retry_at := None |> <| si_work_id := work_id |>) self
      | None => self
      end
  | None => create (starting_new work_id (generation document)) self
  end.

Definition reconcile_active_instances (self : RunningAgentState) : RunningAgentState :=
  let doc := document self in
  match ready_agent_base_key doc with
  | None => self
  | Some agent_base =>
    let self := for_ids (admit_slot agent_base doc) (seqZ 0 (replicas doc)) self in
    let self := drop_retrying_starting_instances (λ id, replicas doc <=? id) self in
    for_ids reconcile_instance (instance_ids self) self
  end.

(** ** Runtime secrets and host inputs *)
Definition reconcile_instance_runtime_secrets (agent_document : AgentDocument) (id : Z) (self : RunningAgentState) :
    RunningAgentState :=
  let '(work_id, self) := allocate_work_id self in
  match running_instance self id with
  | None => self
  | Some instance =>
    if negb (should_reconcile_runtime_secrets instance) || (instant_now env <? rs_next_at (ri_runtime_secrets instance))
    then self
    else
      set_instance id (instance <| ri_runtime_secrets; rs_active_work_id := Some work_id |>)
        (spawn (ReconcileRuntimeSecrets agent_document (doc instance) id
                  (sp_desired_generation (spec instance)) work_id) self)
  end.

Definition reconcile_runtime_secrets (self : RunningAgentState) : RunningAgentState :=
  for_ids (reconcile_instance_runtime_secrets (document self)) (instance_ids self) self.

Definition reconcile_instance_host_inputs (id : Z) (self : RunningAgentState) : RunningAgentState :=
  let '(work_id, self) := allocate_work_id self in
  match running_instance self id with
  | None => self
  | Some instance =>
    if negb (should_reconcile_host_inputs instance) || (instant_now env <? rs_next_at (ri_host_inputs instance)) then self
    else match ri_secret_host_files instance with
    | None => self
    | Some secret_files =>
      let control := ri_control instance in
      let instance := instance <| ri_control := None |> in
      let self := spawn (ReconcileHostInputs control (document self) (doc instance) secret_files id
                           (sp_desired_generation (spec instance)) work_id) self in
      set_instance id (instance <| ri_host_inputs; rs_active_work_id := Some work_id |>) self
    end
  end.

Definition reconcile_host_inputs (self : RunningAgentState) : RunningAgentState :=
  for_ids reconcile_instance_host_inputs (instance_ids self) self.

(** ** [reconcile] *)
Definition reconcile (self : RunningAgentState) : RunningAgentState :=
  let self := if ag_next_reconcile self <=? instant_now env
              then self <| ag_next_reconcile := instant_now env + AGENT_RECONCILE_INTERVAL |> else self in
  let self := project_instance_desired_states self in
  let self := reconcile_runtime_secrets self in
  let self :=
    if deletion_requested (document self) then reconcile_deletion self
    else if bool_decide (phase (document self) = PhasePaused) || (replicas (document self) =? 0)
    then reconcile_inactive_instances self
    else
      let self := reconcile_base (reconcile_cleanup_instances self) in
      if agent_base_ready_for_document self then reconcile_active_instances self else self in
  reconcile_host_inputs self.
End reconcile.
