(* ===== verification/AgentLoop.v ===== *)
(** * The loop of an agent: commands, commit, start
      (src/apps/agentdp-server/src/agent/runtime.rs and documents.rs) *)
From S2P Require Import Prelude Text Ordered Fields BootRun AgentDocument AgentState AgentRuntime AgentHandlers AgentReconcile.
Local Open Scope Z_scope.

(** The requests for logs and commands, as far as the loop looks at them; the
    contents of a filter are for the reader of the log. *)
Inductive LogFile := LogEvents | LogSerial | LogQemu.
Record AgentInstanceLogsParams := { lp_file : LogFile; lp_lines : Z; lp_filter : bool }.
Record AgentInstanceExecParams := { ep_command : list str; ep_timeout_seconds : option Z }.
#[export] Instance log_file_eq_dec : EqDecision LogFile.
Proof. solve_decision. Defined.

Section commands.
Context `{ManifestRules} (env : Env).

Inductive AgentCommand :=
| Apply (manifest : AgentManifestContext) (respond : Z)
| Scale (replicas respond : Z)
| DeleteAgent (respond : Z)
| OpenStream (replay_from_generation : option Z) (items respond : Z)
| InstanceStatus (instance respond : Z)
| InstanceLogs (instance : Z) (params : AgentInstanceLogsParams) (respond : Z)
| InstanceExec (instance : Z) (params : AgentInstanceExecParams) (respond : Z)
| InstanceShell (instance respond : Z)
| ListItems (respond : Z)
| Document (respond : Z).

(** ** [AgentDocuments::write] (documents.rs) *)
Definition write_running (self : AgentInstanceState) : AgentInstanceState :=
  match self with
  | StartingInstance starting => StartingInstance starting
  | RunningInstance instance =>
    RunningInstance (instance <| ri_documents ::= λ documents, instance_documents_write (private documents) documents |>)
  end.

(** A counter of the loop over the instances *)
Definition count (p : RunningAgentInstanceState → bool) (instances : list RunningAgentInstanceState) : Z :=
  foldl (λ n instance, if p instance then bump16 n else n) 0 instances.

Definition public_status (instance : RunningAgentInstanceState) : AgentInstanceStatus :=
  id_status (public (ri_documents instance)).

Definition is_ready_instance (generation : Z) (instance : RunningAgentInstanceState) : bool :=
  bool_decide (sp_target (spec instance) = TargetActive)
  && (is_observed_generation (public_status instance) =? generation)
  && readiness_ready (public_status instance)
  && is_ready_for (is_host_inputs (public_status instance)) generation.

Definition instance_observed (generation : Z) (state : AgentInstanceState) : bool :=
  match state with
  | StartingInstance _ => false
  | RunningInstance instance =>
    (is_observed_generation (status instance) =? generation)
    && (negb (bool_decide (sp_target (spec instance) = TargetActive))
        || is_ready_for (is_host_inputs (status instance)) generation)
  end.

Definition base_released (base : AgentBaseState) : bool :=
  match base with BaseIsStopped | Missing | Failed _ _ => true | _ => false end.

Definition agent_documents_write (private : AgentDocument) (base : AgentBaseState)
    (instances : gmap Z AgentInstanceState) (self : AgentDocuments) : AgentDocuments :=
  let running := omap running_ref instances in
  let values := (entries_sorted running).*2 in
  let active := count (λ instance, bool_decide (is_phase (public_status instance) = Running)) values in
  let stopped := count (λ instance, negb (bool_decide (is_phase (public_status instance) = Running))) values in
  let deleting := count (λ instance, is_cleanup_phase (is_phase (public_status instance))) values in
  let ready := count (is_ready_instance (generation private)) values in
  let deleted := deletion_requested private && bool_decide (instances = ∅) && base_released base in
  let instances_observed := bool_decide (map_Forall (λ _ state, instance_observed (generation private) state = true) instances) in
  let inactive_converged :=
    (bool_decide (phase private = PhasePaused) || (replicas private =? 0)) && (active =? 0) && (deleting =? 0)
    && instances_observed in
  let running_converged :=
    negb (deletion_requested private) && bool_decide (phase private = PhaseRunning) && (active =? replicas private)
    && bool_decide (ready_agent_base_key private = desired_agent_base_key private) && instances_observed in
  let observed := deleted || inactive_converged || running_converged in
  let private := if observed then mark_observed_generation_if_changed private else private in
  let private := private
    <| ad_status; as_phase := if deleted then StatusDeleted
                              else if deletion_requested private then StatusDeleting
                              else if bool_decide (phase private = PhasePaused) then StatusPaused
                              else StatusRunning |>
    <| ad_status; as_deleted := deleted |>
    <| ad_status; as_reconciling := negb observed |>
    <| ad_status; as_replicas := {| rs_desired := replicas private; rs_ready := ready; rs_active := active;
                                    rs_stopped := stopped; rs_deleting := deleting |} |>
    <| ad_status; as_instances := public_status <$> running |> in
  agent_documents_new private (agent_persisted self).

(** [self.documents.write(document, &self.base, &mut self.instances)] *)
Definition write_documents (document : AgentDocument) (self : RunningAgentState) : RunningAgentState :=
  let self := self <| ag_instances ::= fmap write_running |> in
  self <| ag_documents ::= agent_documents_write document (ag_base self) (ag_instances self) |>.

(** ** Requests *)
Definition instance_not_found (self : RunningAgentState) (id : Z) : Error :=
  InstanceNotFound (ag_agent self ++ lit "/" ++ display id).

Definition instance_document (self : RunningAgentState) (id : Z) : AgentInstanceDocument + Error :=
  match running_instance self id with
  | Some instance => inl (public (ri_documents instance))
  | None => inr (instance_not_found self id)
  end.

Definition open_stream (replay_from_generation : option Z) (items : Z) (self : RunningAgentState) : RunningAgentState :=
  let self := effect (SentStream items (StreamDocument (agent_public (ag_documents self)))) self in
  let self :=
    match replay_from_generation with
    | Some gen => foldl (λ self event, effect (SentStream items (StreamEvent event)) self) self
                    (filter (λ event, gen <= ae_generation event) (ag_recent_events self))
    | None => self
    end in
  self <| ag_streams ::= λ streams, streams ++ [items] |>.

Definition list_item (instance : RunningAgentInstanceState) : AgentInstanceListItem :=
  let document := public (ri_documents instance) in
  let status := id_status document in
  let reconciliation := is_reconciliation status in
  let stale := match reconciliation with Some state => rc_stale state | None => false end in
  {| li_name := instance_name document; li_agent := im_agent (id_metadata document);
     li_instance := im_name (id_metadata document); li_instance_id := im_id (id_metadata document);
     li_status := display_phase (is_phase status); li_stale := stale;
     li_stale_reason := reconciliation ≫= (λ state, if stale then rc_reason state else None);
     li_process_status := rc_observed_status <$> reconciliation;
     li_process_message := reconciliation ≫= rc_reason;
     li_pid := reconciliation ≫= rc_observed_pid;
     li_ready := (λ readiness, rd_ready readiness
                               && is_ready_for (is_host_inputs status) (sp_desired_generation (id_spec document)))
                 <$> is_readiness status |}.

Definition list_items (self : RunningAgentState) : list AgentInstanceListItem :=
  list_item <$> (entries_sorted (omap running_ref (ag_instances self))).*2.

Definition start_instance_logs (id : Z) (params : AgentInstanceLogsParams) (respond : Z) (self : RunningAgentState) :
    RunningAgentState :=
  if lp_lines params =? 0 then effect (SentError respond InvalidLogLines) self
  else if lp_filter params && negb (bool_decide (lp_file params = LogEvents)) then effect (SentError respond InvalidLogFilter) self
  else match running_instance self id with
       | None => effect (SentError respond (instance_not_found self id)) self
       | Some instance => spawn (ReadLog (doc instance) id (lp_lines params) respond) self
       end.

Definition start_instance_shell (id respond : Z) (self : RunningAgentState) : RunningAgentState :=
  match running_instance self id with
  | None => effect (SentError respond (instance_not_found self id)) self
  | Some instance =>
    match manifest_context (document self) with
    | None => effect (SentError respond AgentContext) self
    | Some _ => spawn (ShellCommand (doc instance) respond) self
    end
  end.

Definition start_exec_command (id : Z) (command : list str) (timeout_seconds respond : Z) (self : RunningAgentState) :
    RunningAgentState :=
  match manifest_context (document self) with
  | None => effect (SentError respond AgentContext) self
  | Some _ =>
    let '(work_id, self) := allocate_work_id self in
    match running_instance self id with
    | None => effect (SentError respond (instance_not_found self id)) self
    | Some instance =>
      let name := ag_agent self ++ lit "/" ++ display id in
      if bool_decide (is_Some (ri_session instance)) then
        effect (SentError respond (OperationInProgress name (lit "foreground session"))) self
      else if negb (bool_decide (is_phase (status instance) = Running)) then
        effect (SentError respond (InvalidStatus name (display_phase (is_phase (status instance))))) self
      else
        let task := ExecCommand (doc instance) id work_id command timeout_seconds in
        let instance := instance <| ri_session := Some {| fs_work_id := work_id; fs_respond := respond |} |> in
        let instance := update_status (λ status, status <| is_work; iw_sessions_active := 1 |>) instance in
        spawn task (emit_instance_event env id (SourceSession Exec) (SessionStarted Exec) (set_instance id instance self))
    end
  end.

Definition start_instance_exec (id : Z) (params : AgentInstanceExecParams) (respond : Z) (self : RunningAgentState) :
    RunningAgentState :=
  match ep_command params with
  | [] => effect (SentError respond EmptyExecCommand) self
  | command =>
    match ep_timeout_seconds params with
    | None => start_exec_command id command (5 * 60) respond self
    | Some timeout =>
      if timeout =? 0 then effect (SentError respond InvalidExecTimeout) self
      else start_exec_command id command timeout respond self
    end
  end.

(** ** [apply_manifest] *)
Definition has_provisioned_state (self : RunningAgentState) : bool :=
  negb (bool_decide (ag_instances self = ∅)) || has_provisioned_resources (ag_base self).

Definition validate_mediated_auth_bindings (next : AgentManifest) (self : RunningAgentState) : outcome Error unit :=
  if as_deleted (ad_status (document self)) || negb (has_provisioned_state self) then Ret tt
  else if same_mediated_auth_bindings (template (document self)) (dep_template (mf_spec next)) then Ret tt
  else Fail MediatedAuthBindingsChanged.

Definition reset_schedules (instance : RunningAgentInstanceState) : RunningAgentInstanceState :=
  instance <| ri_runtime_secrets; rs_next_at := instant_now env |> <| ri_runtime_secrets; rs_failure_count := 0 |>
           <| ri_secret_host_files := None |>
           <| ri_host_inputs; rs_next_at := instant_now env |> <| ri_host_inputs; rs_failure_count := 0 |>.

Definition base_in_progress (base : AgentBaseState) : bool :=
  match base with Preparing _ | Building _ _ _ | BaseStopping _ => true | _ => false end.

Definition apply_manifest (manifest : AgentManifestContext) : stm RunningAgentState Error unit :=
  self ← stm_get;
  _ ← stm_lift (validate_mediated_auth_bindings (mc_value manifest) self);
  let previous_generation := generation (document self) in
  updated ← stm_lift (map_err (λ errors, PortRequest (ManifestInvalid errors))
    (if as_deleted (ad_status (document self))
     then from_manifest (mc_source_path manifest) (ag_agent self) (mc_value manifest)
     else from_manifest_after_existing (mc_source_path manifest) (ag_agent self) (mc_value manifest) (document self)));
  if bool_decide (document self = updated) then mret tt
  else
    let self := write_documents updated self in
    let generation_changed := negb (generation updated =? previous_generation) in
    let self := if generation_changed then self <| ag_instances ::= fmap (λ state, match state with
        | StartingInstance starting => StartingInstance starting
        | RunningInstance instance => RunningInstance (reset_schedules instance)
        end) |> else self in
    let no_base_key := bool_decide (desired_agent_base_key updated = None)
                       && bool_decide (ready_agent_base_key updated = None) in
    let self := if (generation_changed || no_base_key) && negb (base_in_progress (ag_base self))
                then self <| ag_base := Missing |> else self in
    stm_modify (λ _, emit env Controller (DesiredStateAccepted (generation updated)) self).

Definition push_response (response : PendingResponse) (self : RunningAgentState) : RunningAgentState :=
  self <| ag_pending_responses ::= λ pending, pending ++ [response] |>.

(** ** [handle_command] *)
Definition handle_command (command : AgentCommand) (self : RunningAgentState) : RunningAgentState :=
  match command with
  | Apply manifest respond =>
    match apply_manifest manifest self with
    | (Fail error, self) => effect (SentDocument respond (inr error)) self
    | (_, self) => push_response (RespondAgentDocument respond) self
    end
  | OpenStream replay items respond => push_response (RespondOpenStream replay items (Some respond)) self
  | InstanceStatus instance respond => push_response (RespondInstanceDocument instance respond) self
  | InstanceLogs instance params respond => start_instance_logs instance params respond self
  | InstanceExec instance params respond => start_instance_exec instance params respond self
  | InstanceShell instance respond => start_instance_shell instance respond self
  | ListItems respond => push_response (RespondListItems respond) self
  | Document respond => push_response (RespondAgentDocument respond) self
  | Scale replicas respond =>
    match set_replicas_if_changed replicas (document self) with
    | Ret updated =>
      let self := update_document (λ _, updated) self in
      push_response (RespondAgentDocument respond)
        (emit env Controller (ScaleAccepted (generation (document self)) replicas) self)
    | Fail errors => effect (SentDocument respond (inr (PortRequest (ManifestInvalid errors)))) self
    | _ => self
    end
  | DeleteAgent respond =>
    let self := update_document mark_deletion_requested_if_changed self in
    push_response (RespondAgentDocument respond) (emit env Controller (DeleteAccepted (generation (document self))) self)
  end.
End commands.

Section commit.
Context `{ManifestRules} (env : Env).

(** ** What the networks report *)
(** [apply_network_event]; the flag it returns is not used *)
Definition apply_network_event (event : AgentInstanceNetworkEvent) (network : NetworkState) : NetworkState :=
  let event_seconds := ne_unix_millis event / 1000 in
  match ne_event event with
  | TelemetrySnapshot | EgressProxyClosed | DnsResolved => network
  | kind =>
    let runtime := default network_status_default (nw_runtime network) in
    let runtime := runtime <| ns_network_event_drops ::= λ drops, saturating_add64 drops (ne_dropped_events_before event) |> in
    let runtime :=
      match kind with
      | LifecycleStateChanged state =>
        runtime <| ns_state := state |> <| ns_ready := bool_decide (state = lit "traffic-observed") |>
                <| ns_last_state_change_unix_seconds := event_seconds |>
      | TransportGuestConnected transport gen =>
        runtime <| ns_transport := Some transport |> <| ns_generation := Some gen |>
                <| ns_last_transport_connect_unix_seconds := Some event_seconds |>
      | TransportGuestDisconnected gen reason =>
        runtime <| ns_generation := Some gen |> <| ns_last_error := Some reason |>
      | TransportConnectFailed _ error | TransportRegisterFailed _ error => runtime <| ns_last_error := Some error |>
      | EgressError message | HostPortError message | ReactorError message => runtime <| ns_last_error := Some message |>
      | HostPortBound name protocol guest host =>
        runtime <| ns_host_ports ::= <[name := {| pm_guest := guest; pm_host := Some host; pm_protocol := protocol |}]> |>
      | TelemetrySnapshot | EgressProxyClosed | DnsResolved => runtime
      end in
    let network := network <| nw_runtime := Some runtime |> in
    match kind with
    | HostPortBound name _ _ host => set_port_host name (Some host) network
    | _ => network
    end
  end.

Definition refresh_instance_observations (id : Z) (self : RunningAgentState) : RunningAgentState :=
  match running_instance self id with
  | None => self
  | Some _ =>
    let self := foldl (λ self event,
        emit_instance_event env id SourceNetwork (NetworkEvent event)
          (update_instance id (update_status (λ status, status <| is_network ::= apply_network_event event |>)) self))
      self (network_events env id) in
    match network_observation env id with
    | Some observed =>
      update_instance id (update_status (λ status, status
        <| is_network ::= λ network, (apply_bound_host_ports (ns_host_ports observed) network) <| nw_runtime := Some observed |> |>)) self
    | None => self
    end
  end.

Definition refresh_runtime_observations (self : RunningAgentState) : RunningAgentState :=
  for_ids refresh_instance_observations (instance_ids self) self.

(** ** [persist_to] (documents.rs)

    The agent's document is saved when it differs from the one last saved, then
    those of the instances, in order, until a write fails.  (The file of the
    agent is not written again when its contents are the same.) *)
Definition persist_instance (id : Z) : stm RunningAgentState str unit := λ self,
  match running_instance self id with
  | None => (Ret tt, self)
  | Some instance =>
    if negb (instance_dirty (ri_documents instance)) then (Ret tt, self)
    else match write_error env (Some id) with
         | Some error => (Fail error, self)
         | None =>
           (Ret tt, update_instance id (λ instance, instance <| ri_documents; persisted := Some (doc instance) |>)
                      (effect (SavedInstance id (doc instance)) self))
         end
  end.

Fixpoint persist_instances (ids : list Z) : stm RunningAgentState str unit :=
  match ids with
  | [] => mret tt
  | id :: ids => _ ← persist_instance id; persist_instances ids
  end.

Definition persist_agent : stm RunningAgentState str unit := λ self,
  if negb (agent_dirty (ag_documents self)) then (Ret tt, self)
  else match write_error env None with
       | Some error => (Fail error, self)
       | None => (Ret tt, effect (SavedAgent (document self)) self <| ag_documents; agent_persisted := Some (document self) |>)
       end.

Definition persist_to : stm RunningAgentState str unit := λ self,
  (_ ← persist_agent; persist_instances (instance_ids self)) self.

(** ** Responses *)
(** [committed_result] *)
Definition committed_result {A} (persist_error : option str) (value : A + Error) : A + Error :=
  match persist_error with Some message => inr (PersistState message) | None => value end.

Definition answer_response (persist_error : option str) (response : PendingResponse) (self : RunningAgentState) : RunningAgentState :=
  match response with
  | RespondAgentDocument respond =>
    effect (SentDocument respond (committed_result persist_error (inl (agent_public (ag_documents self))))) self
  | RespondInstanceDocument id respond =>
    effect (SentInstance respond (committed_result persist_error (instance_document self id))) self
  | RespondListItems respond =>
    effect (SentItems respond (committed_result persist_error (inl (list_items self)))) self
  | RespondOpenStream replay items respond =>
    let self := if bool_decide (persist_error = None) then open_stream replay items self else self in
    match respond with
    | Some respond => effect (SentOpened respond (committed_result persist_error (inl tt))) self
    | None => self
    end
  end.

Definition answer_pending_responses (persist_error : option str) (self : RunningAgentState) : RunningAgentState :=
  foldl (λ self response, answer_response persist_error response self)
    (self <| ag_pending_responses := [] |>) (ag_pending_responses self).

(** ** [commit_state], which never ends the loop *)
Definition publish_document (document_changed : bool) (self : RunningAgentState) : RunningAgentState :=
  let self :=
    if document_changed then
      let public := agent_public (ag_documents self) in
      emit env Controller (DocumentChanged public) (publish env (StreamDocument public) self)
    else self in
  answer_pending_responses None self.

Definition commit_documents (self : RunningAgentState) : RunningAgentState :=
  let document_changed := agent_dirty (ag_documents self) in
  if as_deleted (ad_status (document self)) then
    publish_document document_changed
      (effect RemovedAgentDirectory self <| ag_documents; agent_persisted := Some (document self) |>)
  else
    match persist_to self with
    | (Fail error, self) =>
      answer_pending_responses (Some error)
        (emit env Controller (Diagnostic ErrorLevel (lit "failed to persist agent state: " ++ error)) self)
    | (_, self) => publish_document document_changed self
    end.

Definition commit_state (self : RunningAgentState) : RunningAgentState :=
  commit_documents (write_documents (document self) self).

(** ** One iteration of the loop of a running agent *)
Inductive AgentInput :=
| Load
| Command (command : AgentCommand)
| Work (completion : WorkCompletion).

Definition handle_input (input : option AgentInput) : RunningAgentState → RunningAgentState :=
  match input with
  | None | Some Load => id
  | Some (Command command) => handle_command env command
  | Some (Work completion) => handle_work_completion env completion
  end.

Definition iteration (input : option AgentInput) (self : RunningAgentState) : RunningAgentState :=
  commit_state (reconcile env (refresh_runtime_observations (handle_input input self))).

(** ** [next_wake] *)
Definition earlier (deadline : option Z) (retry : Z) : option Z :=
  Some (match deadline with Some current => Z.min current retry | None => retry end).

Definition instance_wake (deadline : option Z) (state : AgentInstanceState) : option Z :=
  match state with
  | StartingInstance starting =>
    match si_retry_at starting with Some retry => earlier deadline retry | None => deadline end
  | RunningInstance instance =>
    let deadline := match bootstrap_retry_wake instance with Some retry => earlier deadline retry | None => deadline end in
    let deadline := if should_reconcile_runtime_secrets instance
                    then earlier deadline (rs_next_at (ri_runtime_secrets instance)) else deadline in
    let deadline := if should_reconcile_host_inputs instance
                    then earlier deadline (rs_next_at (ri_host_inputs instance)) else deadline in
    let cleanup_phase := is_phase (status instance) in
    if negb (blocks_instance_transition instance) && is_cleanup_phase cleanup_phase
       && cleanup_phase_persisted instance cleanup_phase
    then earlier deadline (default (instant_now env) (ri_cleanup_retry instance)) else deadline
  end.

Definition next_wake (self : RunningAgentState) : option Z :=
  foldl instance_wake (Some (ag_next_reconcile self)) (entries_sorted (ag_instances self)).*2.

(** ** Starting an agent *)
Record StartingAgentState := { sa_agent : str; sa_pending_streams : list (option Z * Z) }.

(** [reset_loaded_instance_runtime_status] *)
Definition reset_loaded_instance_runtime_status (document : AgentInstanceDocument) : AgentInstanceDocument :=
  let document := document <| id_status; is_work := work_status_default |> in
  if bool_decide (is_phase (id_status document) = Running) then
    document <| id_status ::= λ status, (clear_readiness status)
      <| is_reconciliation := None |> <| is_network; nw_runtime := None |> <| is_tailscale_serve := None |> |>
  else document.

(** [StartingAgentState::start]: [loaded] are the state files of the instances
    with the sequence their event logs have reached, when the agent was on disk *)
Definition start (document : AgentDocument) (loaded : option (gmap Z (AgentInstanceDocument * Z))) (event_sequence : Z)
    (self : StartingAgentState) : RunningAgentState :=
  let instances := (λ '(document, sequence),
    let document := reset_loaded_instance_runtime_status document in
    RunningInstance (running_instance_new (clock env) document (Some document) sequence)) <$> default ∅ loaded in
  {| ag_agent := sa_agent self;
     ag_documents := agent_documents_new document (if bool_decide (is_Some loaded) then Some document else None);
     ag_pending_responses := (λ '(replay, items), RespondOpenStream replay items None) <$> sa_pending_streams self;
     ag_recent_events := [];
     ag_event_sequence := if bool_decide (is_Some loaded) then event_sequence else 1;
     ag_base := if bool_decide (is_Some loaded)
                then match ready_agent_base_key document with Some key => Ready key | None => Missing end
                else Missing;
     ag_instances := instances;
     ag_streams := [];
     ag_next_reconcile := instant_now env;
     ag_next_work_id := 0;
     ag_tasks := [];
     ag_effects := [] |}.

(** The first [Apply] of an agent that is not on disk
    ([StartingAgentState::handle_input]) *)
Definition start_applied (manifest : AgentManifestContext) (respond : Z) (self : StartingAgentState) :
    outcome Error RunningAgentState :=
  document ← map_err (λ errors, PortRequest (ManifestInvalid errors))
               (from_manifest (mc_source_path manifest) (sa_agent self) (mc_value manifest));
  let running := start document None 1 self in
  mret (push_response (RespondAgentDocument respond)
          (emit env Controller (DesiredStateAccepted (generation (AgentState.document running))) running)).
End commit.
