(* ===== verification/AgentProtocol.v ===== *)
(** * The protocol between the loop of an agent and its tasks

    What the loop must respect, without the documents: a base, for each instance
    the work that holds it, its phase and the phase last saved, and the tasks in
    flight.  [protocol_step] is the specification of the controller; the next
    file shows that the loop refines it.  The invariant says that what the state
    claims and what is in flight are the same. *)
From S2P Require Import Prelude Text Ordered Fields BootRun AgentDocument AgentState AgentRuntime.
Local Open Scope Z_scope.

Section protocol.
Context `{ManifestRules}.

(** ** Who a task works for *)
Inductive Slot :=
| SlotBase
| SlotTransition (id : Z)
| SlotSecrets (id : Z)
| SlotInputs (id : Z)
| SlotSession (id : Z).
#[global] Instance slot_eq_dec : EqDecision Slot.
Proof. solve_decision. Defined.

Definition task_slot (task : Task) : option Slot :=
  match task with
  | PrepareBase _ _ _ | BuildBase _ _ _ | StopBase _ _ => Some SlotBase
  | CreateInstance _ id _ _ | StartInstance _ _ id _ | ReconcileInstance _ _ id _ | StopInstance _ _ _ id _
  | StopInstanceForDelete _ _ id _ | RemoveInstanceFiles _ id _ | BootstrapInstance _ _ _ id _
  | ReconcileTailscaleServe _ _ id _ => Some (SlotTransition id)
  | ReconcileRuntimeSecrets _ _ id _ _ => Some (SlotSecrets id)
  | ReconcileHostInputs _ _ _ _ id _ _ => Some (SlotInputs id)
  | ExecCommand _ id _ _ _ => Some (SlotSession id)
  | ReadLog _ _ _ _ | ShellCommand _ _ => None
  end.

Definition task_work_id (task : Task) : Z :=
  match task with
  | PrepareBase _ w _ | StopBase _ w | ReconcileRuntimeSecrets _ _ _ _ w | ReconcileHostInputs _ _ _ _ _ _ w
  | StopInstanceForDelete _ _ _ w | RemoveInstanceFiles _ _ w | ExecCommand _ _ w _ _ => w
  | BuildBase _ attempt _ | CreateInstance _ _ _ attempt | StartInstance _ _ _ attempt | ReconcileInstance _ _ _ attempt
  | StopInstance _ _ _ _ attempt | BootstrapInstance _ _ _ _ attempt | ReconcileTailscaleServe _ _ _ attempt =>
    ta_work_id attempt
  | ReadLog _ _ _ _ | ShellCommand _ _ => 0
  end.

Definition slot_tasks (slot : Slot) (tasks : list Task) : list Task :=
  filter (λ task, task_slot task = Some slot) tasks.

(** ** What holds an instance *)
Record RunningClaims := {
  rc_work : option AgentInstanceWork;
  rc_secrets : option Z;
  rc_inputs : option Z;
  rc_session : option Z;
  rc_phase : AgentInstancePhase;
  rc_persisted : option AgentInstancePhase;
}.
#[global] Instance eta_running_claims : Eta RunningClaims := λ r,
  Build_RunningClaims (rc_work r) (rc_secrets r) (rc_inputs r) (rc_session r) (rc_phase r) (rc_persisted r).

Inductive Claims :=
| ClaimStarting (work_id : Z) (retrying : bool)
| ClaimRunning (claims : RunningClaims).

Definition running_claims (instance : RunningAgentInstanceState) : RunningClaims := {|
  rc_work := ri_work instance;
  rc_secrets := rs_active_work_id (ri_runtime_secrets instance);
  rc_inputs := rs_active_work_id (ri_host_inputs instance);
  rc_session := fs_work_id <$> ri_session instance;
  rc_phase := is_phase (status instance);
  rc_persisted := (λ document, is_phase (id_status document)) <$> persisted (ri_documents instance) |}.

Definition claims (state : AgentInstanceState) : Claims :=
  match state with
  | StartingInstance starting => ClaimStarting (si_work_id starting) (bool_decide (is_Some (si_retry_at starting)))
  | RunningInstance instance => ClaimRunning (running_claims instance)
  end.

Definition idle (rc : RunningClaims) : Prop :=
  rc_work rc = None ∧ rc_secrets rc = None ∧ rc_inputs rc = None ∧ rc_session rc = None.

(** The state of the protocol *)
Record Protocol := { pr_base : AgentBaseState; pr_instances : gmap Z Claims; pr_tasks : list Task }.

Definition protocol (self : RunningAgentState) : Protocol :=
  {| pr_base := ag_base self; pr_instances := claims <$> ag_instances self; pr_tasks := ag_tasks self |}.

(** ** The task that does a piece of work *)
Inductive does (id : Z) : AgentInstanceWork → Task → Prop :=
| does_reconcile w g ad d : does id {| wk_id := w; wk_kind := WorkReconciling; wk_input_generation := g |}
    (ReconcileInstance ad d id {| ta_work_id := w; ta_generation := g |})
| does_tailscale w g ad d : does id {| wk_id := w; wk_kind := WorkReconciling; wk_input_generation := g |}
    (ReconcileTailscaleServe ad d id {| ta_work_id := w; ta_generation := g |})
| does_repair w g ad d : does id {| wk_id := w; wk_kind := WorkRepairing; wk_input_generation := g |}
    (ReconcileInstance ad d id {| ta_work_id := w; ta_generation := g |})
| does_start w g ad d : does id {| wk_id := w; wk_kind := WorkStarting; wk_input_generation := g |}
    (StartInstance ad d id {| ta_work_id := w; ta_generation := g |})
| does_bootstrap w g ad c d : does id {| wk_id := w; wk_kind := WorkBootstrapping; wk_input_generation := g |}
    (BootstrapInstance ad c d id {| ta_work_id := w; ta_generation := g |})
| does_stop w g c a d : does id {| wk_id := w; wk_kind := WorkStopping; wk_input_generation := g |}
    (StopInstance c a d id {| ta_work_id := w; ta_generation := g |}).

Definition deleting_work (w g : Z) : AgentInstanceWork :=
  {| wk_id := w; wk_kind := WorkDeleting; wk_input_generation := g |}.

(** ** The steps *)
Inductive base_admits : AgentBaseState → AgentBaseState → list Task → Prop :=
| admit_prepare b doc w g :
    match b with Missing | BaseIsStopped | Failed _ _ => True | _ => False end →
    base_admits b (Preparing w) [PrepareBase doc w g]
| admit_stop key doc w : base_admits (Ready key) (BaseStopping w) [StopBase doc w]
| admit_reset b :
    match b with Preparing _ | Building _ _ _ | BaseStopping _ => False | _ => True end →
    base_admits b Missing [].

Inductive base_ends : AgentBaseState → Task → AgentBaseState → list Task → Prop :=
| end_prepared doc w g p doc' :
    base_ends (Preparing w) (PrepareBase doc w g) (Building w g (bp_key p))
      [BuildBase doc' {| ta_work_id := w; ta_generation := g |} p]
| end_prepare_lost doc w g b :
    match b with Missing | Failed _ _ => True | _ => False end →
    base_ends (Preparing w) (PrepareBase doc w g) b []
| end_build doc w g p b :
    match b with Missing | Failed _ _ => True | Ready key => key = bp_key p | _ => False end →
    base_ends (Building w g (bp_key p)) (BuildBase doc {| ta_work_id := w; ta_generation := g |} p) b []
| end_stop doc w : base_ends (BaseStopping w) (StopBase doc w) BaseIsStopped [].

Inductive instance_admits (id : Z) : option Claims → option Claims → list Task → Prop :=
| admit_create doc key w g :
    instance_admits id None (Some (ClaimStarting w false))
      [CreateInstance doc id key {| ta_work_id := w; ta_generation := g |}]
| admit_recreate w0 doc key w g :
    instance_admits id (Some (ClaimStarting w0 true)) (Some (ClaimStarting w false))
      [CreateInstance doc id key {| ta_work_id := w; ta_generation := g |}]
| admit_drop w : instance_admits id (Some (ClaimStarting w true)) None []
| admit_work rc work task :
    idle rc → is_cleanup_phase (rc_phase rc) = false → does id work task →
    instance_admits id (Some (ClaimRunning rc)) (Some (ClaimRunning (rc <| rc_work := Some work |>))) [task]
| admit_cleanup_stop rc w c d :
    idle rc → rc_phase rc = Deleting → rc_persisted rc = Some Deleting →
    instance_admits id (Some (ClaimRunning rc))
      (Some (ClaimRunning (rc <| rc_work := Some (deleting_work w (sp_desired_generation (id_spec d))) |>)))
      [StopInstanceForDelete c d id w]
| admit_cleanup_remove rc w g agent :
    idle rc → rc_phase rc = Deleted → rc_persisted rc = Some Deleted →
    instance_admits id (Some (ClaimRunning rc)) (Some (ClaimRunning (rc <| rc_work := Some (deleting_work w g) |>)))
      [RemoveInstanceFiles agent id w]
| admit_secrets rc ad d g w :
    rc_secrets rc = None → rc_inputs rc = None → rc_phase rc = Running →
    match rc_work rc with Some work => wk_kind work = WorkBootstrapping | None => True end →
    instance_admits id (Some (ClaimRunning rc)) (Some (ClaimRunning (rc <| rc_secrets := Some w |>)))
      [ReconcileRuntimeSecrets ad d id g w]
| admit_inputs rc c ad d files g w :
    idle rc → rc_phase rc = Running →
    instance_admits id (Some (ClaimRunning rc)) (Some (ClaimRunning (rc <| rc_inputs := Some w |>)))
      [ReconcileHostInputs c ad d files id g w]
| admit_session rc d command timeout w :
    rc_session rc = None → rc_phase rc = Running →
    instance_admits id (Some (ClaimRunning rc)) (Some (ClaimRunning (rc <| rc_session := Some w |>)))
      [ExecCommand d id w command timeout]
| admit_deleting rc :
    is_cleanup_phase (rc_phase rc) = false →
    instance_admits id (Some (ClaimRunning rc)) (Some (ClaimRunning (rc <| rc_phase := Deleting |>))) []
| admit_saved rc :
    instance_admits id (Some (ClaimRunning rc)) (Some (ClaimRunning (rc <| rc_persisted := Some (rc_phase rc) |>))) [].

Inductive instance_ends (id : Z) : Claims → Task → option Claims → Prop :=
| end_created doc key w g rc :
    idle rc →
    instance_ends id (ClaimStarting w false) (CreateInstance doc id key {| ta_work_id := w; ta_generation := g |})
      (Some (ClaimRunning rc))
| end_create_failed doc key w g :
    instance_ends id (ClaimStarting w false) (CreateInstance doc id key {| ta_work_id := w; ta_generation := g |})
      (Some (ClaimStarting w true))
| end_create_stale doc key w g :
    instance_ends id (ClaimStarting w false) (CreateInstance doc id key {| ta_work_id := w; ta_generation := g |}) None
| end_work rc work task phase :
    rc_work rc = Some work → does id work task → phase = rc_phase rc ∨ is_cleanup_phase phase = false →
    instance_ends id (ClaimRunning rc) task (Some (ClaimRunning (rc <| rc_work := None |> <| rc_phase := phase |>)))
| end_cleanup_stop rc w c d phase :
    rc_work rc = Some (deleting_work w (sp_desired_generation (id_spec d))) →
    phase = rc_phase rc ∨ phase = Deleted →
    instance_ends id (ClaimRunning rc) (StopInstanceForDelete c d id w)
      (Some (ClaimRunning (rc <| rc_work := None |> <| rc_phase := phase |>)))
| end_cleanup_removed rc w g agent :
    rc_work rc = Some (deleting_work w g) →
    instance_ends id (ClaimRunning rc) (RemoveInstanceFiles agent id w) None
| end_cleanup_remove_failed rc w g agent :
    rc_work rc = Some (deleting_work w g) →
    instance_ends id (ClaimRunning rc) (RemoveInstanceFiles agent id w) (Some (ClaimRunning (rc <| rc_work := None |>)))
| end_secrets rc ad d g w :
    rc_secrets rc = Some w →
    instance_ends id (ClaimRunning rc) (ReconcileRuntimeSecrets ad d id g w) (Some (ClaimRunning (rc <| rc_secrets := None |>)))
| end_inputs rc c ad d files g w :
    rc_inputs rc = Some w →
    instance_ends id (ClaimRunning rc) (ReconcileHostInputs c ad d files id g w) (Some (ClaimRunning (rc <| rc_inputs := None |>)))
| end_session rc d command timeout w :
    rc_session rc = Some w →
    instance_ends id (ClaimRunning rc) (ExecCommand d id w command timeout) (Some (ClaimRunning (rc <| rc_session := None |>))).

Definition set_claims (id : Z) (state : option Claims) (instances : gmap Z Claims) : gmap Z Claims :=
  partial_alter (λ _, state) id instances.

Inductive protocol_step : Protocol → Protocol → Prop :=
| step_base_admits b b' new m ts :
    base_admits b b' new →
    protocol_step {| pr_base := b; pr_instances := m; pr_tasks := ts |}
                  {| pr_base := b'; pr_instances := m; pr_tasks := new ++ ts |}
| step_base_ends b task b' new m l r :
    base_ends b task b' new →
    protocol_step {| pr_base := b; pr_instances := m; pr_tasks := l ++ task :: r |}
                  {| pr_base := b'; pr_instances := m; pr_tasks := new ++ l ++ r |}
| step_instance_admits id c new b m ts :
    instance_admits id (m !! id) c new →
    protocol_step {| pr_base := b; pr_instances := m; pr_tasks := ts |}
                  {| pr_base := b; pr_instances := set_claims id c m; pr_tasks := new ++ ts |}
| step_instance_ends id c task c' b m l r :
    m !! id = Some c → instance_ends id c task c' →
    protocol_step {| pr_base := b; pr_instances := m; pr_tasks := l ++ task :: r |}
                  {| pr_base := b; pr_instances := set_claims id c' m; pr_tasks := l ++ r |}
| step_free task b m ts :
    task_slot task = None →
    protocol_step {| pr_base := b; pr_instances := m; pr_tasks := ts |}
                  {| pr_base := b; pr_instances := m; pr_tasks := task :: ts |}
| step_free_ends task b m l r :
    task_slot task = None →
    protocol_step {| pr_base := b; pr_instances := m; pr_tasks := l ++ task :: r |}
                  {| pr_base := b; pr_instances := m; pr_tasks := l ++ r |}.
End protocol.
