(* ===== verification/AgentInvariant.v ===== *)
(** * The invariant of the protocol: what is claimed is what is in flight *)
From S2P Require Import Prelude Text Ordered Fields BootRun AgentDocument AgentState AgentRuntime AgentProtocol.
Local Open Scope Z_scope.

Section invariant.
Context `{ManifestRules}.

Definition base_ok (base : AgentBaseState) (tasks : list Task) : Prop :=
  match base with
  | Preparing w => ∃ doc g, tasks = [PrepareBase doc w g]
  | Building w g key => ∃ doc p, tasks = [BuildBase doc {| ta_work_id := w; ta_generation := g |} p] ∧ bp_key p = key
  | BaseStopping w => ∃ doc, tasks = [StopBase doc w]
  | _ => tasks = []
  end.

(** A task of the cleanup has the instance to itself, and the phase that
    justifies it was saved. *)
Definition cleans (id : Z) (rc : RunningClaims) (work : AgentInstanceWork) (task : Task) : Prop :=
  rc_secrets rc = None ∧ rc_inputs rc = None ∧ rc_session rc = None ∧
  ((∃ c d w, work = deleting_work w (sp_desired_generation (id_spec d)) ∧ task = StopInstanceForDelete c d id w ∧
             rc_phase rc = Deleting ∧ rc_persisted rc = Some Deleting) ∨
   (∃ w g agent, work = deleting_work w g ∧ task = RemoveInstanceFiles agent id w ∧
             rc_phase rc = Deleted ∧ rc_persisted rc = Some Deleted)).

Definition work_ok (id : Z) (rc : RunningClaims) (tasks : list Task) : Prop :=
  match rc_work rc with
  | None => tasks = []
  | Some work => ∃ task, tasks = [task] ∧ (does id work task ∨ cleans id rc work task)
  end.

Definition secrets_ok (id : Z) (active : option Z) (tasks : list Task) : Prop :=
  match active with None => tasks = [] | Some w => ∃ ad d g, tasks = [ReconcileRuntimeSecrets ad d id g w] end.
Definition inputs_ok (id : Z) (active : option Z) (tasks : list Task) : Prop :=
  match active with None => tasks = [] | Some w => ∃ c ad d files g, tasks = [ReconcileHostInputs c ad d files id g w] end.
Definition session_ok (id : Z) (active : option Z) (tasks : list Task) : Prop :=
  match active with None => tasks = [] | Some w => ∃ d command timeout, tasks = [ExecCommand d id w command timeout] end.

Definition claims_ok (id : Z) (claims : option Claims) (transition secrets inputs session : list Task) : Prop :=
  match claims with
  | None => transition = [] ∧ secrets = [] ∧ inputs = [] ∧ session = []
  | Some (ClaimStarting w retrying) =>
    (if retrying : bool then transition = []
     else ∃ doc key g, transition = [CreateInstance doc id key {| ta_work_id := w; ta_generation := g |}]) ∧
    secrets = [] ∧ inputs = [] ∧ session = []
  | Some (ClaimRunning rc) =>
    work_ok id rc transition ∧ secrets_ok id (rc_secrets rc) secrets ∧ inputs_ok id (rc_inputs rc) inputs ∧
    session_ok id (rc_session rc) session
  end.

Definition claims_at (id : Z) (claims : option Claims) (tasks : list Task) : Prop :=
  claims_ok id claims (slot_tasks (SlotTransition id) tasks) (slot_tasks (SlotSecrets id) tasks)
    (slot_tasks (SlotInputs id) tasks) (slot_tasks (SlotSession id) tasks).

Definition protocol_ok (p : Protocol) : Prop :=
  base_ok (pr_base p) (slot_tasks SlotBase (pr_tasks p)) ∧
  ∀ id, claims_at id (pr_instances p !! id) (pr_tasks p).

(** ** Tasks of a slot *)
Lemma slot_tasks_cons s task tasks :
  slot_tasks s (task :: tasks) = if decide (task_slot task = Some s) then task :: slot_tasks s tasks else slot_tasks s tasks.
Proof. unfold slot_tasks. by rewrite filter_cons. Qed.

Lemma slot_tasks_app s l r : slot_tasks s (l ++ r) = slot_tasks s l ++ slot_tasks s r.
Proof. unfold slot_tasks. by rewrite filter_app. Qed.

Lemma slot_tasks_other s task l r :
  task_slot task ≠ Some s → slot_tasks s (l ++ task :: r) = slot_tasks s (l ++ r).
Proof. intros Hne. by rewrite !slot_tasks_app, slot_tasks_cons, decide_False. Qed.

(** The only task of a slot is the one found in it, and nothing is left
    without it. *)
Lemma slot_tasks_only s task t0 l r :
  task_slot task = Some s → slot_tasks s (l ++ task :: r) = [t0] → t0 = task ∧ slot_tasks s (l ++ r) = [].
Proof.
  intros Hs. rewrite !slot_tasks_app, slot_tasks_cons, decide_True by done.
  destruct (slot_tasks s l) as [|x l'], (slot_tasks s r) as [|y r']; cbn; intros; simplify_eq/=; try done;
    by destruct l'.
Qed.

Lemma slot_tasks_occupied s task l r : task_slot task = Some s → slot_tasks s (l ++ task :: r) ≠ [].
Proof.
  intros Hs. rewrite slot_tasks_app, slot_tasks_cons, decide_True by done. by destruct (slot_tasks s l).
Qed.

Definition slot_instance (slot : Slot) : option Z :=
  match slot with
  | SlotBase => None
  | SlotTransition id | SlotSecrets id | SlotInputs id | SlotSession id => Some id
  end.

(** What the four slots of an instance hold does not depend on the tasks of
    others. *)
Definition same_slots (owner : option Z) (tasks tasks' : list Task) : Prop :=
  ∀ s, slot_instance s ≠ owner → slot_tasks s tasks' = slot_tasks s tasks.

Lemma claims_at_same id owner claims tasks tasks' :
  owner ≠ Some id → same_slots owner tasks tasks' → claims_at id claims tasks → claims_at id claims tasks'.
Proof.
  intros Howner Hsame. unfold claims_at.
  rewrite !Hsame by (cbn; congruence). done.
Qed.

Lemma same_slots_new owner new tasks :
  Forall (λ task, ∃ s, task_slot task = Some s ∧ slot_instance s = owner) new → same_slots owner tasks (new ++ tasks).
Proof.
  intros Hnew s Hs. rewrite slot_tasks_app.
  assert (slot_tasks s new = []) as ->; [|done].
  induction Hnew as [|task new (s' & Hs' & Hi) _ IH]; [done|].
  rewrite slot_tasks_cons, decide_False; [done|]. intros ?. simplify_eq.
Qed.

Lemma same_slots_removed owner task s l r :
  task_slot task = Some s → slot_instance s = owner → same_slots owner (l ++ task :: r) (l ++ r).
Proof. intros Hs Hi s' Hs'. rewrite (slot_tasks_other s' task); [done|]. intros ?. simplify_eq. Qed.

(** ** The steps preserve the invariant *)
Lemma does_slot id work task : does id work task → task_slot task = Some (SlotTransition id).
Proof. by destruct 1. Qed.

Lemma admits_slots id c c' new :
  instance_admits id c c' new → Forall (λ task, ∃ s, task_slot task = Some s ∧ slot_instance s = Some id) new.
Proof.
  destruct 1; repeat constructor; cbn; try (eexists; split; done).
  eexists. split; [by eapply does_slot|done].
Qed.

Lemma ends_slot id c task c' :
  instance_ends id c task c' → ∃ s, task_slot task = Some s ∧ slot_instance s = Some id.
Proof.
  destruct 1; cbn; try (eexists; split; done).
  eexists. split; [by eapply does_slot|done].
Qed.

Lemma slot_tasks_task s task tasks :
  slot_tasks s ([task] ++ tasks) = if decide (task_slot task = Some s) then task :: slot_tasks s tasks else slot_tasks s tasks.
Proof. apply slot_tasks_cons. Qed.

(** Decide which slot of the instance the new task is in. *)
Local Ltac place_task :=
  repeat match goal with
    | |- context [decide (?a = ?b)] =>
      first [rewrite (decide_True (P := a = b)) by done | rewrite (decide_False (P := a = b)) by done]
    end.

Lemma idle_work id rc tasks : idle rc → work_ok id rc tasks → tasks = [].
Proof. intros (Hw & _). unfold work_ok. by rewrite Hw. Qed.

(** What was admitted beside another piece of work leaves it as it was. *)
Lemma work_ok_other id rc rc' tasks :
  work_ok id rc tasks → rc_work rc' = rc_work rc →
  (∀ work task, rc_work rc = Some work → cleans id rc work task → cleans id rc' work task) →
  work_ok id rc' tasks.
Proof.
  unfold work_ok. intros Hok -> Hcl. destruct (rc_work rc) as [work|]; [|done].
  destruct Hok as (task & -> & [Hd|Hc]); exists task; eauto.
Qed.

(** A cleanup keeps every other work away. *)
Lemma cleans_phase id rc work task : cleans id rc work task → is_cleanup_phase (rc_phase rc) = true.
Proof. intros (_ & _ & _ & [(?&?&?&_&_&->&_)|(?&?&?&_&_&->&_)]); done. Qed.

Lemma cleans_kind id rc work task : cleans id rc work task → wk_kind work = WorkDeleting.
Proof. intros (_ & _ & _ & [(?&?&?&->&_)|(?&?&?&->&_)]); done. Qed.

Lemma admits_ok id c c' new tasks :
  instance_admits id c c' new → claims_at id c tasks → claims_at id c' (new ++ tasks).
Proof.
  unfold claims_at. intros Hadmit Hok.
  destruct Hadmit as [doc key w g|w0 doc key w g|w|rc work task Hidle Hphase Hdoes|rc w c d Hidle Hphase Hsaved
    |rc w g agent Hidle Hphase Hsaved|rc ad d g w Hse Hin Hphase Hwork|rc c ad d files g w Hidle Hphase
    |rc d command timeout w Hss Hphase|rc Hphase|rc];
    rewrite ?slot_tasks_task; cbn [task_slot]; try rewrite (does_slot _ _ _ Hdoes); place_task; cbn in Hok |- *;
    destruct Hok as (Hw & Hs & Hi & Hn);
    try (apply idle_work in Hw as ->; [|done]; unfold work_ok, cleans; cbn; split; [|done]; destruct Hidle as (_ & -> & -> & ->)).
  all: try (by eauto 10).
  all: try (by rewrite Hw, Hs, Hi, Hn; eauto 10).
  - eexists. split; [done|]. right. split_and!; [done..|]. left. eauto 10.
  - eexists. split; [done|]. right. split_and!; [done..|]. right. eauto 10.
  - rewrite Hse in Hs. rewrite Hs. split_and!; [|cbn; eauto|done|done].
    apply (work_ok_other id rc); [done..|]. intros work task Hwk Hc. rewrite Hwk in Hwork.
    pose proof (cleans_kind _ _ _ _ Hc). congruence.
  - destruct Hidle as (Hwk & _ & Hin & _). rewrite Hin in Hi. rewrite Hi. split_and!; [|done|cbn; eauto 10|done].
    unfold work_ok in *. cbn. by rewrite Hwk in *.
  - rewrite Hss in Hn. rewrite Hn. split_and!; [|done|done|cbn; eauto 10].
    apply (work_ok_other id rc); [done..|]. intros work task Hwk Hc%cleans_phase. by rewrite Hphase in Hc.
  - split_and!; [|done..]. apply (work_ok_other id rc); [done..|].
    intros work task Hwk Hc%cleans_phase. congruence.
  - split_and!; [|done..]. apply (work_ok_other id rc); [done..|].
    intros work task _ (? & ? & ? & [(?&?&?&?&?&Hp&?)|(?&?&?&?&?&Hp&?)]); split_and!; try done; [left|right]; cbn; rewrite Hp; eauto 10.
Qed.

Lemma does_not_cleans id work task rc work' : does id work task → ¬ cleans id rc work' task.
Proof. intros Hd (_ & _ & _ & [(?&?&?&_&->&_)|(?&?&?&_&->&_)]); inversion Hd. Qed.

(** The work of an instance is done by the task that holds its slot. *)
Lemma work_ends id rc work task l r :
  rc_work rc = Some work → work_ok id rc (slot_tasks (SlotTransition id) (l ++ task :: r)) →
  task_slot task = Some (SlotTransition id) →
  slot_tasks (SlotTransition id) (l ++ r) = [] ∧ (does id work task ∨ cleans id rc work task).
Proof.
  unfold work_ok. intros -> (t0 & Honly & Hdo) Hslot.
  by destruct (slot_tasks_only _ _ _ _ _ Hslot Honly) as [-> ?].
Qed.

(** The task that ends is the one of its slot. *)
Lemma ends_ok id c task c' l r :
  instance_ends id c task c' → claims_at id (Some c) (l ++ task :: r) → claims_at id c' (l ++ r).
Proof.
  unfold claims_at. intros Hend Hok.
  assert (Hother : ∀ s, task_slot task ≠ Some s → slot_tasks s (l ++ r) = slot_tasks s (l ++ task :: r)).
  { intros s Hs. symmetry. by apply slot_tasks_other. }
  destruct Hend as [doc key w g rc (Hrw & Hrs & Hri & Hrn)|doc key w g|doc key w g|rc work task phase Hwk Hdoes Hphase
    |rc w c d phase Hwk Hphase|rc w g agent Hwk|rc w g agent Hwk|rc ad d g w Hwk|rc c ad d files g w Hwk|rc d command timeout w Hwk];
    cbn [claims_ok] in *; destruct Hok as (Hw & Hs & Hi & Hn).
  1-3: destruct Hw as (? & ? & ? & [_ Hw]%slot_tasks_only); [|done];
    rewrite Hw, !Hother by done; unfold work_ok; rewrite ?Hrw, ?Hrs, ?Hri, ?Hrn; done.
  1-4: pose proof (work_ends _ _ _ _ _ _ Hwk Hw) as Hdo; destruct Hdo as [-> Hdo]; [first [done|by eapply does_slot]|].
  1: rewrite !Hother by (rewrite (does_slot _ _ _ Hdoes); done); done.
  1: rewrite !Hother by done; done.
  2: rewrite !Hother by done; done.
  1: destruct Hdo as [Hdo|(Hrs & Hri & Hrn & _)]; [by inversion Hdo|]; rewrite Hrs, Hri, Hrn in *;
    rewrite !Hother by done; cbn in *; by rewrite Hs, Hi, Hn.
  - rewrite Hwk in Hs. destruct Hs as (? & ? & ? & [_ Hs]%slot_tasks_only); [|done].
    rewrite Hs, !Hother by done. split_and!; [|done..]. apply (work_ok_other id rc); [done..|].
    intros work task _ (? & ? & ? & ?). by rewrite Hwk in *.
  - rewrite Hwk in Hi. destruct Hi as (? & ? & ? & ? & ? & [_ Hi]%slot_tasks_only); [|done].
    rewrite Hi, !Hother by done. split_and!; [|done..]. apply (work_ok_other id rc); [done..|].
    intros work task _ (? & ? & ? & ?). by rewrite Hwk in *.
  - rewrite Hwk in Hn. destruct Hn as (? & ? & ? & [_ Hn]%slot_tasks_only); [|done].
    rewrite Hn, !Hother by done. split_and!; [|done..]. apply (work_ok_other id rc); [done..|].
    intros work task _ (? & ? & ? & ?). by rewrite Hwk in *.
Qed.

Lemma base_admits_ok b b' new tasks :
  base_admits b b' new → base_ok b (slot_tasks SlotBase tasks) → base_ok b' (slot_tasks SlotBase (new ++ tasks)).
Proof.
  intros Hadmit Hok. destruct Hadmit as [b doc w g Hb|key doc w|b Hb]; rewrite ?slot_tasks_task; cbn [task_slot];
    try rewrite decide_True by done.
  - destruct b; try done; rewrite Hok; cbn; eauto.
  - rewrite Hok. cbn. eauto.
  - by destruct b.
Qed.

Lemma base_ends_ok b task b' new l r :
  base_ends b task b' new → base_ok b (slot_tasks SlotBase (l ++ task :: r)) → base_ok b' (slot_tasks SlotBase (new ++ l ++ r)).
Proof.
  intros Hend Hok.
  assert (Hempty : slot_tasks SlotBase (l ++ r) = []).
  { destruct Hend; cbn in Hok;
      [destruct Hok as (? & ? & Hok)|destruct Hok as (? & ? & Hok)|destruct Hok as (? & ? & Hok & _)|destruct Hok as [? Hok]];
      by apply slot_tasks_only in Hok as [_ ?]. }
  destruct Hend as [doc w g p doc'|doc w g b Hb|doc w g p b Hb|doc w]; rewrite ?slot_tasks_task; cbn [task_slot app];
    rewrite ?decide_True by done; rewrite Hempty; try by destruct b.
  - cbn. eauto.
  - done.
Qed.

Lemma base_slots b b' new : base_admits b b' new → Forall (λ task, ∃ s, task_slot task = Some s ∧ slot_instance s = None) new.
Proof. destruct 1; repeat constructor; eexists; split; done. Qed.

Lemma base_end_slots b task b' new :
  base_ends b task b' new →
  task_slot task = Some SlotBase ∧ Forall (λ task, ∃ s, task_slot task = Some s ∧ slot_instance s = None) new.
Proof. destruct 1; split; try done; repeat constructor; eexists; split; done. Qed.

Lemma slot_tasks_free s task l r : task_slot task = None → slot_tasks s (l ++ task :: r) = slot_tasks s (l ++ r).
Proof. intros Hs. apply slot_tasks_other. by rewrite Hs. Qed.

Theorem protocol_step_ok p p' : protocol_step p p' → protocol_ok p → protocol_ok p'.
Proof.
  intros Hstep [Hbase Hinst]. destruct Hstep as [b b' new m ts Hadmit|b task b' new m l r Hend|id c new b m ts Hadmit
    |id c task c' b m l r Hc Hend|task b m ts Hfree|task b m l r Hfree];
    cbn [pr_base pr_instances pr_tasks] in *; (split; cbn [pr_base pr_instances pr_tasks]).
  - by eapply base_admits_ok.
  - intros id. eapply (claims_at_same id None); [done| |apply Hinst]. by eapply same_slots_new, base_slots.
  - by eapply base_ends_ok.
  - intros id. destruct (base_end_slots _ _ _ _ Hend) as [Hs Hnew].
    eapply (claims_at_same id None); [done|by apply same_slots_new|].
    eapply (claims_at_same id None); [done|by eapply same_slots_removed|apply Hinst].
  - by rewrite (same_slots_new (Some id) new ts (admits_slots _ _ _ _ Hadmit) SlotBase).
  - intros j. unfold set_claims. destruct (decide (j = id)) as [->|Hne].
    + rewrite lookup_partial_alter_eq. by eapply admits_ok.
    + rewrite lookup_partial_alter_ne by done. eapply (claims_at_same j (Some id)); [congruence| |apply Hinst].
      by eapply same_slots_new, admits_slots.
  - destruct (ends_slot _ _ _ _ Hend) as (s & Hs & Hi). by rewrite (same_slots_removed (Some id) task s l r Hs Hi SlotBase).
  - intros j. unfold set_claims. destruct (decide (j = id)) as [->|Hne].
    + rewrite lookup_partial_alter_eq. eapply ends_ok; [done|]. rewrite <-Hc. apply Hinst.
    + rewrite lookup_partial_alter_ne by done. destruct (ends_slot _ _ _ _ Hend) as (s & Hs & Hi).
      eapply (claims_at_same j (Some id)); [congruence| |apply Hinst]. by eapply same_slots_removed.
  - change (task :: ts) with ([] ++ task :: ts). by rewrite slot_tasks_free.
  - intros id. specialize (Hinst id). unfold claims_at in *.
    change (task :: ts) with ([] ++ task :: ts). by rewrite !slot_tasks_free.
  - by rewrite slot_tasks_free in Hbase.
  - intros id. specialize (Hinst id). unfold claims_at in *. by rewrite !slot_tasks_free in Hinst.
Qed.
End invariant.
