(* ===== verification/AgentRefine.v ===== *)
(** * The loop of an agent refines the protocol

    The relation between the two ([sim]) and its closure lemmas: what a change
    of the loop's state is in the protocol. *)
From S2P Require Import Prelude Text Ordered Fields BootRun AgentDocument AgentState AgentRuntime AgentHandlers.
From S2P Require Import AgentReconcile AgentLoop AgentProtocol AgentInvariant.
Local Open Scope Z_scope.

Section refine.
Context `{ManifestRules}.

(** ** The tasks: what they send while they run, and what they end with *)
Inductive sends : Task → WorkCompletion → Prop :=
| send_prepare_event doc w g event : sends (PrepareBase doc w g) (BootstrapEventWork FromAgentBase w g event)
| send_build_event doc w g p event :
    sends (BuildBase doc {| ta_work_id := w; ta_generation := g |} p) (BootstrapEventWork FromAgentBase w g event)
| send_bootstrap_started ad c d id w g :
    sends (BootstrapInstance ad c d id {| ta_work_id := w; ta_generation := g |}) (BootstrapStarted id w g)
| send_bootstrap_event ad c d id w g event :
    sends (BootstrapInstance ad c d id {| ta_work_id := w; ta_generation := g |})
      (BootstrapEventWork (FromInstance id) w g event).

(** The instance document a create task makes ([spawn_create_instance]): what
    the backend and the host say is arbitrary, the rest comes from the document
    the task was given. *)
Definition created_document (doc : AgentDocument) (id : Z) (key : str) (g : Z) (created : AgentInstanceDocument) : Prop :=
  ∃ now mode ipv6 healthchecks guest_access backend ports,
    assign_port_mappings (manifest doc) id = Ret ports ∧
    created = instance_document_new now (dm_name (ad_metadata doc)) id (lit "replica-" ++ display id) g key
      (template doc) TargetActive Materialized
      {| nw_mode := mode; nw_allow := allow_state (network_allow (template doc)); nw_ipv6_enabled := ipv6;
         nw_ports := ports; nw_runtime := None |}
      healthchecks guest_access backend.

Inductive ends_with : Task → option WorkCompletion → Prop :=
| end_base_prepared doc w g p : ends_with (PrepareBase doc w g) (Some (BasePrepared w g p))
| end_base_not_prepared doc w g error : ends_with (PrepareBase doc w g) (Some (BaseFailedWork w g error))
| end_base_built doc w g p :
    ends_with (BuildBase doc {| ta_work_id := w; ta_generation := g |} p) (Some (BaseBuilt w g (bp_key p)))
| end_base_not_built doc w g p error :
    ends_with (BuildBase doc {| ta_work_id := w; ta_generation := g |} p) (Some (BaseFailedWork w g error))
| end_base_stopped doc w : ends_with (StopBase doc w) (Some (BaseStopped w))
| end_base_stop_timed_out doc w : ends_with (StopBase doc w) (Some (BaseStopTimedOut w))
| end_instance_created doc id key w g created :
    match created with inl document => created_document doc id key g document | inr _ => True end →
    ends_with (CreateInstance doc id key {| ta_work_id := w; ta_generation := g |})
      (Some (InstanceCreatedWork id w g created))
| end_instance_started ad d id w g outcome :
    ends_with (StartInstance ad d id {| ta_work_id := w; ta_generation := g |}) (Some (InstanceStarted id w g outcome))
| end_instance_reconciled ad d id w g outcome :
    ends_with (ReconcileInstance ad d id {| ta_work_id := w; ta_generation := g |}) (Some (InstanceReconciled id w g outcome))
| end_secrets_reconciled ad d id g w outcome :
    ends_with (ReconcileRuntimeSecrets ad d id g w) (Some (RuntimeSecretsReconciled id g w outcome))
| end_inputs_reconciled c ad d files id g w c' result :
    ends_with (ReconcileHostInputs c ad d files id g w) (Some (HostInputsReconciled id g w c' result))
| end_instance_stopped c agent d id w g c' outcome :
    ends_with (StopInstance c agent d id {| ta_work_id := w; ta_generation := g |}) (Some (InstanceStopped id w g c' outcome))
| end_delete_stopped c d id w c' outcome :
    ends_with (StopInstanceForDelete c d id w)
      (Some (InstanceDeleteRuntimeStopped id w (sp_desired_generation (id_spec d)) c' outcome))
| end_files_removed agent id w : ends_with (RemoveInstanceFiles agent id w) (Some (InstanceDeletedWork id w))
| end_files_not_removed agent id w error :
    ends_with (RemoveInstanceFiles agent id w) (Some (InstanceDeleteTimedOut id w error))
| end_bootstrap ad c d id w g c' result :
    ends_with (BootstrapInstance ad c d id {| ta_work_id := w; ta_generation := g |}) (Some (BootstrapFinished id w g c' result))
| end_tailscale ad d id w g result :
    ends_with (ReconcileTailscaleServe ad d id {| ta_work_id := w; ta_generation := g |})
      (Some (TailscaleServeReconciled id w g result))
| end_exec d id w command timeout output :
    ends_with (ExecCommand d id w command timeout) (Some (ExecFinished id w command output))
| end_log d id lines respond : ends_with (ReadLog d id lines respond) None
| end_shell d respond : ends_with (ShellCommand d respond) None.

(** ** The agent and its tasks *)
(** The task between [l] and [r] is no longer in flight. *)
Definition without (l r : list Task) (self : RunningAgentState) : RunningAgentState := self <| ag_tasks := l ++ r |>.

Inductive world_step : RunningAgentState → RunningAgentState → Prop :=
| world_timer env self : world_step self (iteration env None self)
| world_command env command self : world_step self (iteration env (Some (Command command)) self)
| world_message env self task completion :
    task ∈ ag_tasks self → sends task completion → world_step self (iteration env (Some (Work completion)) self)
| world_completion env self l task r completion :
    ag_tasks self = l ++ task :: r → ends_with task (Some completion) →
    world_step self (iteration env (Some (Work completion)) (without l r self))
| world_silent self l task r :
    ag_tasks self = l ++ task :: r → ends_with task None → world_step self (without l r self).

(** An agent starts from what is on disk, whatever it is, or from its first
    [Apply]. *)
Inductive initial : RunningAgentState → Prop :=
| initial_loaded env document loaded sequence starting : initial (start env document (Some loaded) sequence starting)
| initial_applied env manifest respond starting self :
    start_applied env manifest respond starting = Ret self → initial self.

Definition reachable (self : RunningAgentState) : Prop := ∃ self0, initial self0 ∧ rtc world_step self0 self.

(** ** Frames: what an operation leaves alone *)
Definition sim (self self' : RunningAgentState) : Prop := rtc protocol_step (protocol self) (protocol self').

#[global] Instance sim_preorder : PreOrder sim.
Proof. split; [intros self; apply rtc_refl|]. intros s1 s2 s3 H12 H23. unfold sim in *. by etrans. Qed.

(** The operation changes neither the protocol nor the document. *)
Definition frame (self self' : RunningAgentState) : Prop :=
  ag_base self' = ag_base self ∧ ag_instances self' = ag_instances self ∧ ag_tasks self' = ag_tasks self ∧
  ag_documents self' = ag_documents self.

#[global] Instance frame_preorder : PreOrder frame.
Proof. split; [done|]. intros s1 s2 s3 (? & ? & ? & ?) (? & ? & ? & ?). unfold frame. split_and!; congruence. Qed.

Lemma frame_protocol self self' : frame self self' → protocol self' = protocol self.
Proof. intros (? & ? & ? & ?). unfold protocol. congruence. Qed.

Lemma frame_sim self self' : frame self self' → sim self self'.
Proof. intros Hf%frame_protocol. unfold sim. by rewrite Hf. Qed.

Lemma frame_effect effect' self : frame self (effect effect' self).
Proof. done. Qed.

Lemma frame_effects {A} (f : A → Effect) l self : frame self (foldl (λ self x, effect (f x) self) self l).
Proof. revert self. induction l as [|x l IH]; intros self; cbn [foldl]; [done|]. etrans; [|apply IH]. done. Qed.

Lemma frame_publish env item self : frame self (publish env item self).
Proof. unfold publish. etrans; [by apply (frame_effects (λ items, SentStream items item))|]. done. Qed.

Lemma frame_emit env source event self : frame self (emit env source event self).
Proof. unfold emit. destruct event; try done; (etrans; [|apply frame_publish]); done. Qed.

(** ** One instance *)
Lemma running_instance_some self id instance :
  running_instance self id = Some instance ↔ ag_instances self !! id = Some (RunningInstance instance).
Proof.
  unfold running_instance. destruct (ag_instances self !! id) as [[starting|running]|]; cbn; split; intros; by simplify_eq.
Qed.

Lemma set_instance_some self id instance instance' :
  running_instance self id = Some instance →
  ag_instances (set_instance id instance' self) = <[id := RunningInstance instance']> (ag_instances self).
Proof.
  rewrite running_instance_some. intros Hi. unfold set_instance, update_instance. cbn.
  apply map_eq. intros j. destruct (decide (j = id)) as [->|Hne].
  - by rewrite lookup_alter_eq, lookup_insert_eq, Hi.
  - by rewrite lookup_alter_ne, lookup_insert_ne.
Qed.

Lemma modify_instances_ext self f g :
  f (ag_instances self) = g (ag_instances self) → self <| ag_instances ::= f |> = self <| ag_instances ::= g |>.
Proof. unfold modify. by intros ->. Qed.

Lemma modify_instances_same self f : f (ag_instances self) = ag_instances self → self <| ag_instances ::= f |> = self.
Proof. destruct self. unfold modify. cbn. by intros ->. Qed.

Lemma update_instance_some self id f instance :
  running_instance self id = Some instance → update_instance id f self = set_instance id (f instance) self.
Proof.
  rewrite running_instance_some. intros Hi. apply modify_instances_ext.
  apply map_eq. intros j. destruct (decide (j = id)) as [->|Hne]; [|by rewrite !lookup_alter_ne].
  by rewrite !lookup_alter_eq, Hi.
Qed.

Lemma update_instance_none self id f : running_instance self id = None → update_instance id f self = self.
Proof.
  unfold running_instance. intros Hi. apply modify_instances_same.
  apply map_eq. intros j. destruct (decide (j = id)) as [->|Hne]; [|by rewrite lookup_alter_ne].
  rewrite lookup_alter_eq. destruct (_ !! id) as [[starting|running]|]; done.
Qed.

Lemma lookup_claims self id : pr_instances (protocol self) !! id = claims <$> ag_instances self !! id.
Proof. cbn. apply lookup_fmap. Qed.

(** The claims of one instance are replaced. *)
Lemma protocol_insert self id state :
  claims <$> <[id := state]> (ag_instances self) = set_claims id (Some (claims state)) (pr_instances (protocol self)).
Proof.
  unfold set_claims. cbn. rewrite fmap_insert. apply map_eq. intros j. destruct (decide (j = id)) as [->|Hne].
  - by rewrite lookup_insert_eq, lookup_partial_alter_eq.
  - by rewrite lookup_insert_ne, lookup_partial_alter_ne.
Qed.

Lemma protocol_delete self id :
  claims <$> base.delete id (ag_instances self) = set_claims id None (pr_instances (protocol self)).
Proof. unfold set_claims. cbn. by rewrite fmap_delete. Qed.

(** An instance is touched without any effect on its claims. *)
Lemma protocol_set_same self id instance instance' :
  running_instance self id = Some instance → running_claims instance' = running_claims instance →
  protocol (set_instance id instance' self) = protocol self.
Proof.
  intros Hi Hsame. unfold protocol at 1. rewrite (set_instance_some _ _ _ _ Hi), protocol_insert. unfold protocol, set_claims. cbn.
  f_equal. apply map_eq. intros j. destruct (decide (j = id)) as [->|Hne].
  - rewrite lookup_partial_alter_eq, lookup_fmap. apply running_instance_some in Hi. rewrite Hi. cbn. by rewrite Hsame.
  - by rewrite lookup_partial_alter_ne.
Qed.

Lemma protocol_update_same self id f :
  (∀ instance, running_claims (f instance) = running_claims instance) → protocol (update_instance id f self) = protocol self.
Proof.
  intros Hf. destruct (running_instance self id) as [instance|] eqn:Hi.
  - rewrite (update_instance_some _ _ _ _ Hi). by eapply protocol_set_same.
  - by rewrite update_instance_none.
Qed.

(** Work is admitted for an instance. *)
Lemma sim_admits self self' id state' new :
  instance_admits id (claims <$> ag_instances self !! id) (Some (claims state')) new →
  ag_base self' = ag_base self → ag_instances self' = <[id := state']> (ag_instances self) →
  ag_tasks self' = new ++ ag_tasks self → sim self self'.
Proof.
  intros Hadmit Hb Hi Ht. apply rtc_once. unfold protocol at 2. rewrite Hb, Hi, Ht, protocol_insert.
  apply step_instance_admits. by rewrite lookup_claims.
Qed.

Lemma sim_admits_running self self' id instance instance' new :
  running_instance self id = Some instance →
  instance_admits id (Some (ClaimRunning (running_claims instance))) (Some (ClaimRunning (running_claims instance'))) new →
  ag_base self' = ag_base self → ag_instances self' = <[id := RunningInstance instance']> (ag_instances self) →
  ag_tasks self' = new ++ ag_tasks self → sim self self'.
Proof.
  intros Hi%running_instance_some Hadmit Hb Hi' Ht. eapply (sim_admits _ _ id (RunningInstance instance')); try done.
  by rewrite Hi.
Qed.

(** The task of an instance ends. *)
Lemma sim_ends self self' id state state' task l r :
  ag_tasks self = l ++ task :: r → ag_instances self !! id = Some state →
  instance_ends id (claims state) task (claims <$> state') →
  ag_base self' = ag_base self → ag_instances self' = partial_alter (λ _, state') id (ag_instances self) →
  ag_tasks self' = l ++ r → sim self self'.
Proof.
  intros Htasks Hstate Hend Hb Hi Ht. apply rtc_once. unfold protocol. rewrite Hb, Hi, Ht, Htasks.
  replace (claims <$> partial_alter (λ _, state') id (ag_instances self))
    with (set_claims id (claims <$> state') (claims <$> ag_instances self)).
  { apply (step_instance_ends id (claims state) task); [|done]. by rewrite lookup_fmap, Hstate. }
  unfold set_claims. apply map_eq. intros j. destruct (decide (j = id)) as [->|Hne].
  - by rewrite lookup_partial_alter_eq, lookup_fmap, lookup_partial_alter_eq.
  - by rewrite lookup_partial_alter_ne, !lookup_fmap, lookup_partial_alter_ne.
Qed.
End refine.
#[export] Hint Resolve frame_effect frame_publish frame_emit : rust.
