(* ===== verification/AgentSim.v ===== *)
(** * The completions of tasks are steps of the protocol

    The invariant of the protocol says which claim a task in flight stands for;
    with it every handler finds the work it expects. *)
From S2P Require Import Prelude Text Ordered Fields BootRun AgentDocument AgentState AgentRuntime AgentHandlers.
From S2P Require Import AgentReconcile AgentLoop AgentProtocol AgentInvariant AgentRefine.
Local Open Scope Z_scope.

Section claims.
Context `{ManifestRules} (env : Env).

Lemma sim_frame self self' self'' : sim self self' → frame self' self'' → sim self self''.
Proof. intros Hs Hf%frame_sim. by etrans. Qed.

Lemma sim_emit self self' source event : sim self self' → sim self (emit env source event self').
Proof. intros Hs. eapply sim_frame; [done|apply frame_emit]. Qed.

Lemma sim_emit_warning self self' source message : sim self self' → sim self (emit_warning env source message self').
Proof. apply sim_emit. Qed.

Lemma protocol_emit_instance_event id source event self :
  protocol (emit_instance_event env id source event self) = protocol self.
Proof.
  unfold emit_instance_event. destruct (running_instance self id) as [instance|]; [|done].
  set (self1 := update_instance id _ self).
  assert (Hp : protocol self1 = protocol self) by (by apply protocol_update_same).
  destruct (should_forward_instance_event event); [|done].
  by rewrite (frame_protocol _ _ (frame_emit _ _ _ _)).
Qed.

Lemma sim_emit_instance self self' id source event : sim self self' → sim self (emit_instance_event env id source event self').
Proof. unfold sim. by rewrite protocol_emit_instance_event. Qed.

(** ** The claim behind a task in flight *)
Section claim.
Context (self : RunningAgentState) (l r : list Task) (task : Task).
Context (Hok : protocol_ok (protocol self)) (Htasks : ag_tasks self = l ++ task :: r).

Lemma claim_at id : claims_at id (claims <$> ag_instances self !! id) (l ++ task :: r).
Proof. destruct Hok as [_ Hi]. specialize (Hi id). cbn in Hi. by rewrite lookup_fmap, Htasks in Hi. Qed.

Lemma base_claim : base_ok (ag_base self) (slot_tasks SlotBase (l ++ task :: r)).
Proof. destruct Hok as [Hb _]. cbn in Hb. by rewrite Htasks in Hb. Qed.

(** An occupied slot of an instance has its claim. *)
Lemma transition_claim id :
  task_slot task = Some (SlotTransition id) →
  (∃ starting doc key g, ag_instances self !! id = Some (StartingInstance starting) ∧ si_retry_at starting = None ∧
     task = CreateInstance doc id key {| ta_work_id := si_work_id starting; ta_generation := g |}) ∨
  (∃ instance work, running_instance self id = Some instance ∧ ri_work instance = Some work ∧
     (does id work task ∨ cleans id (running_claims instance) work task)).
Proof.
  intros Hslot. pose proof (claim_at id) as Hat. unfold claims_at in Hat.
  destruct (ag_instances self !! id) as [[starting|instance]|] eqn:Hi; cbn in Hat.
  - left. destruct Hat as [Hat _]. destruct (si_retry_at starting) eqn:Hretry; cbn in Hat.
    { by apply slot_tasks_occupied in Hat. }
    destruct Hat as (doc & key & g & [Heq _]%slot_tasks_only); [|done]. eauto 10.
  - right. destruct Hat as [Hw _]. unfold work_ok in Hw. cbn in Hw. destruct (ri_work instance) as [work|] eqn:Hwork.
    + exists instance, work. destruct Hw as (t0 & [-> _]%slot_tasks_only & Hdo); [|done].
      split_and!; [by apply running_instance_some|done|done].
    + by apply slot_tasks_occupied in Hw.
  - destruct Hat as [Hat _]. by apply slot_tasks_occupied in Hat.
Qed.

Lemma transition_running id :
  task_slot task = Some (SlotTransition id) →
  match task with CreateInstance _ _ _ _ => False | _ => True end →
  ∃ instance work, running_instance self id = Some instance ∧ ri_work instance = Some work ∧
     (does id work task ∨ cleans id (running_claims instance) work task).
Proof. intros Hslot Hnot. destruct (transition_claim id Hslot) as [(? & ? & ? & ? & _ & _ & ->)|?]; done. Qed.

Lemma running_claims_at id instance :
  ag_instances self !! id = Some (RunningInstance instance) →
  secrets_ok id (rs_active_work_id (ri_runtime_secrets instance)) (slot_tasks (SlotSecrets id) (l ++ task :: r)) ∧
  inputs_ok id (rs_active_work_id (ri_host_inputs instance)) (slot_tasks (SlotInputs id) (l ++ task :: r)) ∧
  session_ok id (fs_work_id <$> ri_session instance) (slot_tasks (SlotSession id) (l ++ task :: r)).
Proof. intros Hi. pose proof (claim_at id) as Hat. rewrite Hi in Hat. apply Hat. Qed.

(** Only a running instance has anything in the other slots. *)
Lemma side_running id s :
  task_slot task = Some s → slot_instance s = Some id → s ≠ SlotTransition id →
  ∃ instance, ag_instances self !! id = Some (RunningInstance instance).
Proof.
  intros Hslot Hid Hne. pose proof (claim_at id) as Hat. unfold claims_at in Hat.
  pose proof (slot_tasks_occupied s task l r Hslot) as Hocc.
  destruct (ag_instances self !! id) as [[starting|instance]|] eqn:Hi; [|by eauto|];
    cbn in Hat; destruct Hat as (_ & ? & ? & ?); destruct s; simplify_eq/=.
Qed.

Lemma secrets_claim ad d id g w :
  task = ReconcileRuntimeSecrets ad d id g w →
  ∃ instance, running_instance self id = Some instance ∧ rs_active_work_id (ri_runtime_secrets instance) = Some w.
Proof.
  intros Ht. destruct (side_running id (SlotSecrets id)) as [instance Hi]; [by rewrite Ht|done..|].
  exists instance. split; [by apply running_instance_some|].
  destruct (running_claims_at id instance Hi) as (Hs & _). destruct (rs_active_work_id _) as [w'|]; cbn in Hs.
  - destruct Hs as (? & ? & ? & [Heq _]%slot_tasks_only); [congruence|by rewrite Ht].
  - apply slot_tasks_occupied in Hs; [done|by rewrite Ht].
Qed.

Lemma inputs_claim c ad d files id g w :
  task = ReconcileHostInputs c ad d files id g w →
  ∃ instance, running_instance self id = Some instance ∧ rs_active_work_id (ri_host_inputs instance) = Some w.
Proof.
  intros Ht. destruct (side_running id (SlotInputs id)) as [instance Hi]; [by rewrite Ht|done..|].
  exists instance. split; [by apply running_instance_some|].
  destruct (running_claims_at id instance Hi) as (_ & Hs & _). destruct (rs_active_work_id _) as [w'|]; cbn in Hs.
  - destruct Hs as (? & ? & ? & ? & ? & [Heq _]%slot_tasks_only); [congruence|by rewrite Ht].
  - apply slot_tasks_occupied in Hs; [done|by rewrite Ht].
Qed.

Lemma session_claim d id w command timeout :
  task = ExecCommand d id w command timeout →
  ∃ instance session, running_instance self id = Some instance ∧ ri_session instance = Some session ∧ fs_work_id session = w.
Proof.
  intros Ht. destruct (side_running id (SlotSession id)) as [instance Hi]; [by rewrite Ht|done..|].
  destruct (running_claims_at id instance Hi) as (_ & _ & Hs). apply running_instance_some in Hi.
  destruct (ri_session instance) as [session|] eqn:Hsession; cbn in Hs.
  - exists instance, session. destruct Hs as (? & ? & ? & [Heq _]%slot_tasks_only); [|by rewrite Ht].
    split_and!; [done..|congruence].
  - apply slot_tasks_occupied in Hs; [done|by rewrite Ht].
Qed.

(** The end of a task of an instance *)
Lemma sim_set_ends id instance instance' :
  running_instance self id = Some instance →
  instance_ends id (ClaimRunning (running_claims instance)) task (Some (ClaimRunning (running_claims instance'))) →
  sim self (set_instance id instance' (without l r self)).
Proof.
  intros Hi Hend. pose proof Hi as Hi'. apply running_instance_some in Hi'.
  apply (sim_ends _ _ id (RunningInstance instance) (Some (RunningInstance instance')) task l r); try done.
  by rewrite (set_instance_some _ _ instance).
Qed.

Lemma sim_work_ends id instance work instance' :
  running_instance self id = Some instance → ri_work instance = Some work → does id work task →
  running_claims instance' = (running_claims instance) <| rc_work := None |> <| rc_phase := is_phase (status instance') |> →
  is_phase (status instance') = is_phase (status instance) ∨ is_cleanup_phase (is_phase (status instance')) = false →
  sim self (set_instance id instance' (without l r self)).
Proof. intros Hi Hw Hd Hrc Hp. apply (sim_set_ends id instance); [done|]. rewrite Hrc. by apply (end_work _ _ work). Qed.
End claim.

(** ** Steps of the base *)
Lemma sim_base_admits self self' b' new :
  base_admits (ag_base self) b' new → ag_base self' = b' → ag_instances self' = ag_instances self →
  ag_tasks self' = new ++ ag_tasks self → sim self self'.
Proof. intros Ha Hb Hi Ht. apply rtc_once. unfold protocol. rewrite Hb, Hi, Ht. by apply step_base_admits. Qed.

Lemma sim_base_ends self self' task b' new l r :
  ag_tasks self = l ++ task :: r → base_ends (ag_base self) task b' new → ag_base self' = b' →
  ag_instances self' = ag_instances self → ag_tasks self' = new ++ l ++ r → sim self self'.
Proof. intros Hl He Hb Hi Ht. apply rtc_once. unfold protocol. rewrite Hb, Hi, Ht, Hl. by apply step_base_ends. Qed.
End claims.

Section completions.
Context `{ManifestRules} (env : Env) (self : RunningAgentState) (l r : list Task).
Context (Hok : protocol_ok (protocol self)).

(** A task of the base finds the base as it left it. *)
Lemma prepare_claim doc w g : ag_tasks self = l ++ PrepareBase doc w g :: r → ag_base self = Preparing w.
Proof.
  intros Ht. pose proof (base_claim self l r _ Hok Ht) as Hb.
  destruct (ag_base self); cbn in Hb; try (by apply slot_tasks_occupied in Hb);
    repeat match type of Hb with ex _ => let x := fresh in destruct Hb as [x Hb] | _ ∧ _ => destruct Hb as [Hb _] end;
    by apply slot_tasks_only in Hb as [? _]; simplify_eq.
Qed.

Lemma build_claim doc attempt p :
  ag_tasks self = l ++ BuildBase doc attempt p :: r → ag_base self = Building (ta_work_id attempt) (ta_generation attempt) (bp_key p).
Proof.
  intros Ht. pose proof (base_claim self l r _ Hok Ht) as Hb.
  destruct (ag_base self); cbn in Hb; try (by apply slot_tasks_occupied in Hb);
    repeat match type of Hb with ex _ => let x := fresh in destruct Hb as [x Hb] | _ ∧ _ => let Hk := fresh in destruct Hb as [Hb Hk] end;
    by apply slot_tasks_only in Hb as [? _]; simplify_eq.
Qed.

Lemma stop_base_claim doc w : ag_tasks self = l ++ StopBase doc w :: r → ag_base self = BaseStopping w.
Proof.
  intros Ht. pose proof (base_claim self l r _ Hok Ht) as Hb.
  destruct (ag_base self); cbn in Hb; try (by apply slot_tasks_occupied in Hb);
    repeat match type of Hb with ex _ => let x := fresh in destruct Hb as [x Hb] | _ ∧ _ => destruct Hb as [Hb _] end;
    by apply slot_tasks_only in Hb as [? _]; simplify_eq.
Qed.

(** The base is given, its task is over. *)
Lemma sim_base_over self' task b' :
  ag_tasks self = l ++ task :: r → base_ends (ag_base self) task b' [] → ag_base self' = b' →
  ag_instances self' = ag_instances self → ag_tasks self' = l ++ r → sim self self'.
Proof. intros. by eapply (sim_base_ends self self' task b' []). Qed.

Local Ltac base_over Ht Hb :=
  repeat first [apply sim_emit_warning | apply sim_emit];
  eapply (sim_base_over _ _ _ Ht); [|reflexivity..]; rewrite Hb; by constructor.

Lemma base_completion_steps task completion :
  ag_tasks self = l ++ task :: r → ends_with task (Some completion) → task_slot task = Some SlotBase →
  sim self (handle_work_completion env completion (without l r self)).
Proof.
  intros Ht Hend Hslot. destruct task; try done; inversion Hend; subst; cbn [handle_work_completion handle_base_completion];
    change (ag_base (without l r self)) with (ag_base self);
    [pose proof (prepare_claim _ _ _ Ht) as Hb|pose proof (prepare_claim _ _ _ Ht) as Hb
    |pose proof (build_claim _ _ _ Ht) as Hb|pose proof (build_claim _ _ _ Ht) as Hb
    |pose proof (stop_base_claim _ _ Ht) as Hb|pose proof (stop_base_claim _ _ Ht) as Hb];
    rewrite Hb; cbn [ta_work_id ta_generation bp_key]; rewrite ?Z.eqb_refl, ?bool_decide_eq_true_2 by done; cbn [negb andb].
  - case_match; [base_over Ht Hb|]. apply sim_emit.
    eapply (sim_base_ends _ _ _ _ [_] _ _ Ht); [|reflexivity..]. rewrite Hb. by constructor.
  - case_match; base_over Ht Hb.
  - repeat case_match; base_over Ht Hb.
  - case_match; base_over Ht Hb.
  - base_over Ht Hb.
  - base_over Ht Hb.
Qed.

(** ** Completions of instances *)
(** The handler finds the work its task was admitted for. *)
Lemma owns_does id instance work task kind :
  ri_work instance = Some work → does id work task → wk_kind work = kind →
  owns_work instance (task_work_id task) kind (wk_input_generation work) = true.
Proof. intros Hw Hd <-. unfold owns_work. rewrite Hw, bool_decide_eq_true_2 by done. destruct Hd; cbn; by rewrite !Z.eqb_refl. Qed.

Local Ltac not_ours := match goal with Hc : cleans _ _ _ _ |- _ =>
  destruct Hc as (_ & _ & _ & [(?&?&?&_&?&_)|(?&?&?&_&?&_)]); done end.

(** What a task without a claim of the cleanup has claimed *)
Lemma work_claim task id :
  ag_tasks self = l ++ task :: r → task_slot task = Some (SlotTransition id) →
  match task with CreateInstance _ _ _ _ | StopInstanceForDelete _ _ _ _ | RemoveInstanceFiles _ _ _ => False | _ => True end →
  ∃ instance work, running_instance self id = Some instance ∧ ri_work instance = Some work ∧ does id work task.
Proof.
  intros Ht Hs Hkind. destruct (transition_running self l r task Hok Ht id Hs) as (instance & work & Hi & Hw & [Hd|Hc]);
    [by destruct task|by eauto|].
  destruct Hc as (_ & _ & _ & [(?&?&?&_&->&_)|(?&?&?&_&->&_)]); done.
Qed.

Local Ltac find_work Ht id :=
  let Hs := fresh in let Hi := fresh "Hi" in let Hw := fresh "Hw" in let Hd := fresh "Hd" in
  destruct (work_claim _ id Ht eq_refl I) as (instance & work & Hi & Hw & Hd);
  change (running_instance (without l r self) id) with (running_instance self id); rewrite Hi;
  inversion Hd; subst; unfold owns_work, AgentHandlers.relevant; rewrite Hw; cbn [wk_id wk_kind wk_input_generation];
  rewrite ?Z.eqb_refl;
  repeat first [rewrite bool_decide_eq_true_2 by done | rewrite bool_decide_eq_false_2 by done]; cbn [negb andb orb].

Local Ltac work_over Ht Hi Hw Hd :=
  apply (sim_work_ends self l r _ Ht _ _ _ _ Hi Hw Hd); [reflexivity|]; first [left; reflexivity|right; reflexivity].

Lemma start_completion_steps ad d id w g outcome :
  ag_tasks self = l ++ StartInstance ad d id {| ta_work_id := w; ta_generation := g |} :: r →
  sim self (complete_instance_start id w g outcome (without l r self)).
Proof.
  intros Ht. unfold complete_instance_start. find_work Ht id.
  destruct (bo_result outcome); [destruct (cleaning_up instance), (_ =? _)|destruct (_ && _)]; work_over Ht Hi Hw Hd.
Qed.

Lemma reconcile_completion_steps ad d id w g outcome :
  ag_tasks self = l ++ ReconcileInstance ad d id {| ta_work_id := w; ta_generation := g |} :: r →
  sim self (complete_instance_reconcile id w g outcome (without l r self)).
Proof.
  intros Ht. unfold complete_instance_reconcile. find_work Ht id;
    (destruct (bo_result outcome) as [o|]; [destruct (_ =? _), (ro_mark_stopped o) eqn:Hs|destruct (_ =? _)]);
    cbn; try rewrite Hs; work_over Ht Hi Hw Hd.
Qed.

Lemma stop_completion_steps c agent d id w g c' outcome :
  ag_tasks self = l ++ StopInstance c agent d id {| ta_work_id := w; ta_generation := g |} :: r →
  sim self (complete_instance_stop id w g c' outcome (without l r self)).
Proof.
  intros Ht. unfold complete_instance_stop. find_work Ht id.
  destruct (st_result outcome) as [o|]; [|destruct (_ =? _)]; work_over Ht Hi Hw Hd.
Qed.

Lemma bootstrap_completion_steps ad c d id w g c' result :
  ag_tasks self = l ++ BootstrapInstance ad c d id {| ta_work_id := w; ta_generation := g |} :: r →
  sim self (bootstrap_finished env id w g c' result (without l r self)).
Proof.
  intros Ht. unfold bootstrap_finished. find_work Ht id.
  destruct (_ =? _), result as [serve|failure]; cbn [negb]; try apply sim_emit_instance; work_over Ht Hi Hw Hd.
Qed.

Lemma tailscale_completion_steps ad d id w g result :
  ag_tasks self = l ++ ReconcileTailscaleServe ad d id {| ta_work_id := w; ta_generation := g |} :: r →
  sim self (handle_tailscale_completion env (TailscaleServeReconciled id w g result) (without l r self)).
Proof.
  intros Ht. cbn [handle_tailscale_completion]. find_work Ht id.
  destruct result; [|destruct (_ =? _); [apply sim_emit_warning|]]; work_over Ht Hi Hw Hd.
Qed.

Lemma create_completion_steps doc id key w g created :
  ag_tasks self = l ++ CreateInstance doc id key {| ta_work_id := w; ta_generation := g |} :: r →
  sim self (complete_instance_create env id w g created (without l r self)).
Proof.
  intros Ht. destruct (transition_claim self l r _ Hok Ht id) as [(starting & ? & ? & ? & Hi & Hretry & Heq)|(? & ? & _ & _ & Hd)];
    [done| |by destruct Hd as [Hd|Hd]; [inversion Hd|not_ours]].
  simplify_eq. unfold complete_instance_create. change (ag_instances (without l r self)) with (ag_instances self).
  rewrite Hi, Z.eqb_refl. cbn [negb]. destruct created as [created|error]; destruct (_ =? _); cbn [negb];
    try (first [apply sim_emit_warning|apply sim_emit]);
    (eapply (sim_ends _ _ id _ _ _ l r Ht Hi); [|reflexivity..]); cbn; rewrite Hretry.
  1-2: by apply end_created.
  - by apply end_create_failed.
  - by apply end_create_stale.
Qed.

(** The claim of a task of the cleanup *)
Lemma delete_claim task id :
  ag_tasks self = l ++ task :: r → task_slot task = Some (SlotTransition id) →
  match task with StopInstanceForDelete _ _ _ _ | RemoveInstanceFiles _ _ _ => True | _ => False end →
  ∃ instance work, running_instance self id = Some instance ∧ ri_work instance = Some work ∧
    cleans id (running_claims instance) work task.
Proof.
  intros Ht Hs Hkind. destruct (transition_running self l r task Hok Ht id Hs) as (instance & work & Hi & Hw & [Hd|Hc]);
    [by destruct task|by destruct Hd|by eauto].
Qed.

Lemma delete_stopped_completion_steps c d id w c' outcome :
  ag_tasks self = l ++ StopInstanceForDelete c d id w :: r →
  sim self (complete_instance_delete_runtime env id w (sp_desired_generation (id_spec d)) c' outcome (without l r self)).
Proof.
  intros Ht. destruct (delete_claim _ id Ht eq_refl I) as (instance & work & Hi & Hw & _ & _ & _ & [(c0&d0&w0&->&Heq&_)|(?&?&?&_&?&_)]);
    [|done]. simplify_eq. unfold complete_instance_delete_runtime.
  change (running_instance (without l r self) id) with (running_instance self id). rewrite Hi.
  unfold owns_work. rewrite Hw. cbn [deleting_work wk_id wk_kind wk_input_generation]. rewrite !Z.eqb_refl, bool_decide_eq_true_2 by done.
  cbn [negb andb]. destruct (st_result outcome); [|apply sim_emit_warning];
    (apply (sim_set_ends self l r _ Ht id instance); [done|]).
  - by apply (end_cleanup_stop id (running_claims instance) _ _ _ Deleted); [|right].
  - by apply (end_cleanup_stop id (running_claims instance) _ _ _ (rc_phase (running_claims instance))); [|left].
Qed.

Lemma delete_completion_steps agent id w error :
  ag_tasks self = l ++ RemoveInstanceFiles agent id w :: r →
  sim self (complete_instance_delete env id w error (without l r self)).
Proof.
  intros Ht. destruct (delete_claim _ id Ht eq_refl I) as (instance & work & Hi & Hw & _ & _ & _ & [(?&?&?&_&?&_)|(w0&g&a0&->&Heq&_)]);
    [done|]. simplify_eq. unfold complete_instance_delete.
  change (running_instance (without l r self) id) with (running_instance self id). rewrite Hi, Hw.
  cbn [deleting_work wk_id wk_kind]. rewrite Z.eqb_refl, bool_decide_eq_true_2 by done.
  cbn [negb andb]. destruct error; [apply sim_emit_warning|apply sim_emit].
  - apply (sim_set_ends self l r _ Ht id instance); [done|].
    by apply (end_cleanup_remove_failed id (running_claims instance) _ g).
  - apply running_instance_some in Hi.
    apply (sim_ends _ _ id (RunningInstance instance) None _ l r Ht Hi); [|done..].
    by apply (end_cleanup_removed id (running_claims instance) _ g).
Qed.

Lemma secrets_completion_steps ad d id g w outcome :
  ag_tasks self = l ++ ReconcileRuntimeSecrets ad d id g w :: r →
  sim self (handle_runtime_secrets_completion env (RuntimeSecretsReconciled id g w outcome) (without l r self)).
Proof.
  intros Ht. destruct (secrets_claim self l r _ Hok Ht _ _ _ _ _ eq_refl) as (instance & Hi & Hw).
  cbn [handle_runtime_secrets_completion].
  change (running_instance (without l r self) id) with (running_instance self id). rewrite Hi, Hw, bool_decide_eq_true_2 by done.
  cbn [negb]. destruct (AgentHandlers.relevant _ _); cbn [negb]; [destruct (bo_result outcome); [|apply sim_emit_warning]|];
    (apply (sim_set_ends self l r _ Ht id instance); [done|]);
    by apply (end_secrets id (running_claims instance) ad d g w).
Qed.

Lemma inputs_completion_steps c ad d files id g w c' result :
  ag_tasks self = l ++ ReconcileHostInputs c ad d files id g w :: r →
  sim self (handle_host_inputs_completion env (HostInputsReconciled id g w c' result) (without l r self)).
Proof.
  intros Ht. destruct (inputs_claim self l r _ Hok Ht _ _ _ _ _ _ _ eq_refl) as (instance & Hi & Hw).
  cbn [handle_host_inputs_completion].
  change (running_instance (without l r self) id) with (running_instance self id). rewrite Hi, Hw, bool_decide_eq_true_2 by done.
  cbn [negb]. destruct (AgentHandlers.relevant _ _); cbn [negb];
    [destruct result as [output|error]; [destruct (0 <? ho_file_failures output), (0 <? ho_files_updated output)|]|];
    repeat first [apply sim_emit_warning|apply sim_emit];
    (apply (sim_set_ends self l r _ Ht id instance); [done|]);
    by apply (end_inputs id (running_claims instance) c ad d files g w).
Qed.

Lemma session_completion_steps d id w command timeout output :
  ag_tasks self = l ++ ExecCommand d id w command timeout :: r →
  sim self (handle_exec_completion env (ExecFinished id w command output) (without l r self)).
Proof.
  intros Ht. destruct (session_claim self l r _ Hok Ht _ _ _ _ _ eq_refl) as (instance & session & Hi & Hs & Hw).
  cbn [handle_exec_completion].
  change (running_instance (without l r self) id) with (running_instance self id). rewrite Hi, Hs, Hw, Z.eqb_refl.
  cbn [negb]. apply sim_emit_instance. eapply sim_frame; [|apply frame_effect].
  apply (sim_set_ends self l r _ Ht id instance); [done|].
  apply (end_session id (running_claims instance) d command timeout w). cbn. by rewrite Hs, <-Hw.
Qed.

(** ** Every completion *)
Theorem completion_steps task completion :
  ag_tasks self = l ++ task :: r → ends_with task (Some completion) →
  sim self (handle_work_completion env completion (without l r self)).
Proof.
  intros Ht Hend. destruct (decide (task_slot task = Some SlotBase)); [by eapply base_completion_steps|].
  inversion Hend; subst; try done; cbn [handle_work_completion handle_instance_completion handle_bootstrap_completion].
  - by eapply create_completion_steps.
  - by eapply start_completion_steps.
  - by eapply reconcile_completion_steps.
  - by eapply secrets_completion_steps.
  - by eapply inputs_completion_steps.
  - by eapply stop_completion_steps.
  - by eapply delete_stopped_completion_steps.
  - by eapply delete_completion_steps.
  - by eapply delete_completion_steps.
  - by eapply bootstrap_completion_steps.
  - by eapply tailscale_completion_steps.
  - by eapply session_completion_steps.
Qed.
End completions.

(** ** What a task sends while it runs *)
Section messages.
Context `{ManifestRules} (env : Env).

Lemma protocol_bootstrap_event source w g event self :
  protocol (apply_bootstrap_event env source w g event self) = protocol self.
Proof.
  destruct source as [|id]; cbn [apply_bootstrap_event].
  - destruct (_ && _); [|done]. apply frame_protocol, frame_emit.
  - destruct (running_instance self id) as [instance|] eqn:Hi; [|done].
    destruct (_ || _); [done|]. rewrite (frame_protocol _ _ (frame_emit _ _ _ _)).
    apply (protocol_set_same _ _ instance); [done|]. by destruct event.
Qed.

Lemma message_steps task completion self : sends task completion → sim self (handle_work_completion env completion self).
Proof.
  destruct 1; cbn [handle_work_completion handle_bootstrap_completion]; unfold sim; try by rewrite protocol_bootstrap_event.
  destruct (running_instance self id) as [instance|] eqn:Hi; [|done]. destruct (_ && _); [|done].
  rewrite protocol_emit_instance_event, (protocol_set_same _ _ instance); done.
Qed.
End messages.
