(* ===== verification/AgentStep.v ===== *)
(** * The reconciler, the commands and the commit are steps of the protocol

    What the reconciler admits depends on the phase and the target of an
    instance; between its parts the instances are [settled]: one that is to be
    deleted is in a phase of the cleanup. *)
From S2P Require Import Prelude Text Ordered Fields BootRun AgentDocument AgentState AgentRuntime AgentHandlers.
From S2P Require Import AgentReconcile AgentLoop AgentProtocol AgentInvariant AgentRefine AgentSim.
Local Open Scope Z_scope.

Section settled.
Context `{ManifestRules} (env : Env).

Definition settled_instance (instance : RunningAgentInstanceState) : Prop :=
  sp_target (spec instance) = TargetDeleting → is_cleanup_phase (is_phase (status instance)) = true.

Definition settled (self : RunningAgentState) : Prop :=
  ∀ id instance, running_instance self id = Some instance → settled_instance instance.

Definition settled_at (self : RunningAgentState) (id : Z) : Prop :=
  ∀ instance, running_instance self id = Some instance → settled_instance instance.

(** An operation that takes steps of the protocol, keeps settled instances
    settled and leaves the document *)
Definition progress (self self' : RunningAgentState) : Prop :=
  sim self self' ∧ (settled self → settled self') ∧ document self' = document self.

#[global] Instance progress_preorder : PreOrder progress.
Proof.
  split; [by intros self|]. intros s1 s2 s3 (? & ? & ?) (? & ? & ?). split_and!; [by etrans|by auto|congruence].
Qed.

Lemma for_ids_sim (f : Z → RunningAgentState → RunningAgentState) ids self :
  (∀ id self, sim self (f id self) ∧ document (f id self) = document self) →
  sim self (for_ids f ids self) ∧ document (for_ids f ids self) = document self.
Proof.
  intros Hf. revert self. unfold for_ids. induction ids as [|id ids IH]; intros self; cbn [foldl]; [done|].
  destruct (Hf id self) as [? Hd], (IH (f id self)) as [? Hd']. split; [by etrans|congruence].
Qed.

Lemma for_ids_progress (f : Z → RunningAgentState → RunningAgentState) ids self :
  (∀ id self, settled self → progress self (f id self)) → settled self → progress self (for_ids f ids self).
Proof.
  intros Hf. revert self. unfold for_ids. induction ids as [|id ids IH]; intros self Hs; cbn [foldl]; [done|].
  etrans; [by apply Hf|]. apply IH. by apply (Hf id self).
Qed.

Lemma same_progress self self' :
  ag_base self' = ag_base self → ag_instances self' = ag_instances self → ag_tasks self' = ag_tasks self →
  document self' = document self → progress self self'.
Proof.
  intros Hb Hi Ht Hd. split_and!; [|intros Hs id instance; unfold running_instance; rewrite Hi; apply Hs|done].
  unfold sim, protocol. by rewrite Hb, Hi, Ht.
Qed.

Lemma running_set_instance self id instance instance' j :
  running_instance self id = Some instance →
  running_instance (set_instance id instance' self) j = if decide (j = id) then Some instance' else running_instance self j.
Proof.
  intros Hi. unfold running_instance at 1. rewrite (set_instance_some _ _ _ _ Hi). case_decide as Hj.
  - subst. by rewrite lookup_insert_eq.
  - by rewrite lookup_insert_ne.
Qed.

Lemma settled_set self id instance instance' :
  running_instance self id = Some instance → settled self → settled_instance instance' → settled (set_instance id instance' self).
Proof.
  intros Hi Hs Hs' j k. rewrite (running_set_instance _ _ _ _ _ Hi). case_decide; intros; simplify_eq; [done|by eapply Hs].
Qed.

(** An instance is given work, and its target and phase are kept. *)
Lemma progress_admits self id instance instance' task :
  running_instance self id = Some instance →
  instance_admits id (Some (ClaimRunning (running_claims instance))) (Some (ClaimRunning (running_claims instance'))) [task] →
  (settled_instance instance → settled_instance instance') →
  progress self (spawn task (set_instance id instance' self)).
Proof.
  intros Hi Hadmit Hset. split_and!; [|intros Hs; by apply (settled_set self id instance); eauto|done].
  by apply (sim_admits_running _ _ id instance instance' [task]); [..|apply (set_instance_some self id instance)|].
Qed.

Lemma progress_spawned self id instance instance' task :
  running_instance self id = Some instance →
  instance_admits id (Some (ClaimRunning (running_claims instance))) (Some (ClaimRunning (running_claims instance'))) [task] →
  (settled_instance instance → settled_instance instance') →
  progress self (set_instance id instance' (spawn task self)).
Proof. exact (progress_admits self id instance instance' task). Qed.

Lemma progress_same self id instance instance' :
  running_instance self id = Some instance → running_claims instance' = running_claims instance →
  (settled_instance instance → settled_instance instance') → progress self (set_instance id instance' self).
Proof.
  intros Hi Hsame Hset. split_and!; [|intros Hs; by apply (settled_set self id instance); eauto|done].
  unfold sim. by rewrite (protocol_set_same _ _ instance).
Qed.

Lemma progress_allocated self self' : progress (self <| ag_next_work_id ::= λ next, next + 1 |>) self' → progress self self'.
Proof. intros Hp. etrans; [|done]. by apply same_progress. Qed.

Lemma blocks_idle instance : blocks_instance_transition instance = false → idle (running_claims instance).
Proof.
  unfold blocks_instance_transition, idle. cbn. rewrite !orb_false_iff, !bool_decide_eq_false. intros [[[Hw Hs] Hi] Hn].
  destruct (ri_work instance), (rs_active_work_id (ri_runtime_secrets instance)), (rs_active_work_id (ri_host_inputs instance)),
    (ri_session instance); first [done|exfalso; eauto].
Qed.

(** ** One instance *)
(** Work of a transition is admitted for an idle instance. *)
Lemma progress_start_task self id w instance0 instance task kind :
  running_instance self id = Some instance0 →
  running_claims instance = running_claims instance0 → spec instance = spec instance0 →
  idle (running_claims instance0) → is_cleanup_phase (is_phase (status instance0)) = false →
  does id {| wk_id := w; wk_kind := kind; wk_input_generation := sp_desired_generation (spec instance) |}
       (task {| ta_work_id := w; ta_generation := sp_desired_generation (spec instance) |}) →
  progress self (start_task env task kind id w instance self).
Proof.
  intros Hi Hsame Hspec Hidle Hphase Hdoes. unfold start_task. apply (progress_admits _ id instance0); [done| |].
  - change (running_claims (admit_instance_work env w (sp_desired_generation (spec instance)) kind instance)) with
      ((running_claims instance) <| rc_work := Some {| wk_id := w; wk_kind := kind;
                                      wk_input_generation := sp_desired_generation (spec instance) |} |>).
    rewrite Hsame. by apply admit_work.
  - assert (is_phase (status instance) = is_phase (status instance0)) as Hp by apply (f_equal rc_phase Hsame).
    unfold settled_instance. change (spec (admit_instance_work _ _ _ _ _)) with (spec instance).
    change (is_phase (status (admit_instance_work env w (sp_desired_generation (spec instance)) kind instance)))
      with (is_phase (status instance)). by rewrite Hspec, Hp.
Qed.

Section one.
Context (self : RunningAgentState) (id : Z) (instance : RunningAgentInstanceState).
Context (Hi : running_instance self id = Some instance) (Hidle : idle (running_claims instance)).

Lemma progress_bootstrap :
  is_cleanup_phase (is_phase (status instance)) = false → progress self (reconcile_instance_bootstrap env id self).
Proof.
  intros Hphase. unfold reconcile_instance_bootstrap. cbn [allocate_work_id]. apply progress_allocated.
  set (self' := self <| ag_next_work_id ::= _ |>). change (running_instance self' id) with (running_instance self id). rewrite Hi.
  match goal with |- progress _ (if negb ?due then _ else _) => destruct due; [|done] end. cbn [negb].
  destruct (_ && _); [by apply (progress_same _ _ instance)|].
  apply (progress_start_task _ _ _ instance); try done. constructor.
Qed.
End one.

Local Ltac allocated self id Hi :=
  cbn [allocate_work_id]; apply progress_allocated;
  change (running_instance (self <| ag_next_work_id ::= λ next, next + 1 |>) id) with (running_instance self id); rewrite Hi.

Lemma progress_active self id instance :
  running_instance self id = Some instance → idle (running_claims instance) →
  is_cleanup_phase (is_phase (status instance)) = false → progress self (reconcile_active_instance env id self).
Proof.
  intros Hi Hidle Hphase. unfold reconcile_active_instance. allocated self id Hi.
  repeat case_match; try done; try (by apply (progress_bootstrap _ _ instance));
    (apply (progress_start_task _ _ _ instance); try done); constructor.
Qed.

Lemma running_refresh_observed instance :
  running_claims (refresh_instance_observed_generation instance) = running_claims instance ∧
  spec (refresh_instance_observed_generation instance) = spec instance.
Proof.
  unfold refresh_instance_observed_generation. case_bool_decide; [done|]. case_match; [|done].
  split; [|done]. unfold running_claims.
  change (is_phase (status (update_status ?f instance))) with (is_phase (f (status instance))).
  unfold mark_observed_generation. cbn. by destruct (_ =? _).
Qed.

Lemma settled_same instance instance' :
  running_claims instance' = running_claims instance → spec instance' = spec instance →
  settled_instance instance → settled_instance instance'.
Proof. unfold settled_instance. intros Hp%(f_equal rc_phase) ->. change (is_phase (status instance') = is_phase (status instance)) in Hp. by rewrite Hp. Qed.

Lemma progress_refresh self id instance :
  running_instance self id = Some instance → progress self (set_instance id (refresh_instance_observed_generation instance) self).
Proof.
  intros Hi. destruct (running_refresh_observed instance) as [Hc Hs].
  apply (progress_same _ _ instance); [done..|]. by apply settled_same.
Qed.

Lemma progress_inactive self id instance :
  running_instance self id = Some instance → idle (running_claims instance) →
  is_cleanup_phase (is_phase (status instance)) = false → progress self (reconcile_inactive_instance env id self).
Proof.
  intros Hi Hidle Hphase. unfold reconcile_inactive_instance. allocated self id Hi.
  case_bool_decide; [by apply progress_refresh|].
  apply (progress_start_task _ _ _ instance); try done. constructor.
Qed.

(** The cleanup admits work only after its phase was saved. *)
Lemma progress_deleting self id instance :
  running_instance self id = Some instance → idle (running_claims instance) →
  is_cleanup_phase (is_phase (status instance)) = true → progress self (reconcile_deleting_instance env id self).
Proof.
  intros Hi Hidle Hphase. unfold reconcile_deleting_instance. allocated self id Hi.
  destruct (cleanup_phase_persisted instance (is_phase (status instance))) eqn:Hsaved; [|done]. cbn [negb orb].
  assert (Hp : rc_persisted (running_claims instance) = Some (is_phase (status instance))).
  { revert Hsaved. unfold cleanup_phase_persisted. cbn. destruct (persisted (ri_documents instance)); [|done].
    intros Hp%bool_decide_eq_true. cbn. by rewrite Hp. }
  match goal with |- progress _ (if ?waiting then _ else _) => destruct waiting; [done|] end.
  case_bool_decide as Hdel; (apply (progress_admits _ _ instance); [done| |done]).
  - match goal with |- instance_admits _ _ _ [StopInstanceForDelete ?c ?d _ ?w] =>
      apply (admit_cleanup_stop id (running_claims instance) w c d) end; [done..|]. by rewrite Hp, Hdel.
  - assert (is_phase (status instance) = Deleted) as Hd
      by (by destruct (is_phase (status instance))).
    apply (admit_cleanup_remove id (running_claims instance)); [done..|]. by rewrite Hp, Hd.
Qed.

Lemma progress_instance id self : settled_at self id → progress self (reconcile_instance env id self).
Proof.
  intros Hset. unfold reconcile_instance. destruct (running_instance self id) as [instance|] eqn:Hi; [|done].
  destruct (blocks_instance_transition instance) eqn:Hb; [done|]. apply blocks_idle in Hb.
  destruct (is_cleanup_phase (is_phase (status instance))) eqn:Hphase; [by apply (progress_deleting _ _ instance)|].
  destruct (sp_target (spec instance)) eqn:Ht.
  - by apply (progress_active _ _ instance).
  - by apply (progress_inactive _ _ instance).
  - specialize (Hset instance Hi Ht). congruence.
Qed.

(** ** The projection of the desired state *)
Lemma project_claims instance document id target instance' warning :
  project_instance_desired_state env instance document id target = (instance', warning) →
  running_claims instance' = running_claims instance ∨
  (is_cleanup_phase (is_phase (status instance)) = false ∧
   running_claims instance' = (running_claims instance) <| rc_phase := Deleting |>).
Proof.
  unfold project_instance_desired_state. case_bool_decide; [intros; simplify_eq; by left|].
  set (generation_changed := negb (sp_desired_generation (spec instance) =? generation document)).
  set (changed := generation_changed || _ || _ || _). set (stale := negb _ || negb _).
  destruct (assign_port_mappings (manifest document) id);
    destruct (is_cleanup_phase (is_phase (status instance))) eqn:Hp, stale, changed, generation_changed; cbn [negb andb];
    intros; simplify_eq; first [by left|by right].
Qed.

Lemma project_settled instance document id target instance' warning :
  project_instance_desired_state env instance document id target = (instance', warning) →
  target ≠ TargetDeleting → settled_instance instance'.
Proof.
  unfold project_instance_desired_state. case_bool_decide as Hd; [intros; simplify_eq; intros _; by rewrite Hd|].
  set (generation_changed := negb (sp_desired_generation (spec instance) =? generation document)).
  set (changed := generation_changed || _ || _ || _). set (stale := negb _ || negb _).
  assert (Hsame : changed = false → sp_target (spec instance) = target).
  { unfold changed. rewrite orb_false_iff, negb_false_iff, bool_decide_eq_true. by intros [_ ?]. }
  clearbody changed. intros Hproject Htarget Hdeleting. exfalso. apply Htarget. rewrite <-Hdeleting. revert Hproject Hsame. clear.
  destruct (assign_port_mappings (manifest document) id);
    destruct (is_cleanup_phase (is_phase (status instance))), stale, changed, generation_changed; cbn [negb andb];
    intros; simplify_eq; first [done|symmetry; by apply Hsame].
Qed.

(** One instance is projected. *)
Lemma project_instance_steps document warnings id self warnings' self' :
  project_instance env document warnings id self = (warnings', self') →
  sim self self' ∧ AgentState.document self' = AgentState.document self ∧
  (∀ j, deletion_requested document = false → settled_at self j ∨ j = id → settled_at self' j).
Proof.
  unfold project_instance. destruct (running_instance self id) as [instance|] eqn:Hi;
    [|intros; simplify_eq; split_and!; [done..|]; intros j _ [?| ->]; [done|]; by intros ? ?; simplify_eq].
  destruct (project_instance_desired_state _ _ _ _ _) as [projected warning] eqn:Hproject. intros; simplify_eq.
  destruct (running_refresh_observed projected) as [Hc Hspec]. split_and!; [|done|].
  - destruct (project_claims _ _ _ _ _ _ Hproject) as [Hsame|[Hphase Hdel]].
    + unfold sim. rewrite (protocol_set_same _ _ instance); [done..|congruence].
    + apply (sim_admits_running _ _ id instance (refresh_instance_observed_generation projected) []); [done| |done| |done].
      * rewrite Hc, Hdel. by apply admit_deleting.
      * by apply (set_instance_some self id instance).
  - intros j Hdel Hj k. rewrite (running_set_instance _ _ _ _ _ Hi). case_decide as Hjd.
    + intros [= <-]. apply (settled_same projected); [done..|].
      eapply project_settled; [done|]. unfold instance_target. rewrite Hdel. by destruct (_ || _).
    + destruct Hj as [Hj|]; [apply Hj|done].
Qed.

Lemma project_loop_steps document ids warnings self warnings' self' :
  foldl (λ '(warnings, self'), λ id, project_instance env document warnings id self') (warnings, self) ids = (warnings', self') →
  sim self self' ∧ AgentState.document self' = AgentState.document self ∧
  (deletion_requested document = false → (∀ j, j ∈ ids ∨ settled_at self j) → settled self').
Proof.
  revert warnings self. induction ids as [|id ids IH]; intros warnings self; cbn [foldl].
  - intros; simplify_eq. split_and!; [done..|]. intros _ Hj j instance. destruct (Hj j) as [[]%not_elem_of_nil|Hs]. apply Hs.
  - destruct (project_instance env document warnings id self) as [warnings1 self1] eqn:Hone. intros Hloop.
    destruct (project_instance_steps _ _ _ _ _ _ Hone) as (Hsim & Hd & Hs). destruct (IH _ _ Hloop) as (Hsim' & Hd' & Hs').
    split_and!; [by etrans|congruence|]. intros Hdel Hj. apply Hs'; [done|]. intros j.
    destruct (Hj j) as [[->|?]%elem_of_cons|?]; [right; apply Hs|left|right; apply Hs]; eauto.
Qed.

Lemma instance_ids_spec self id : id ∈ instance_ids self ↔ is_Some (ag_instances self !! id).
Proof. apply elem_of_keys_sorted. Qed.

Lemma frame_warnings (warnings : list (Z * str)) self :
  frame self (foldl (λ self '(id, message), emit_warning env (SourceInstance id) message self) self warnings).
Proof.
  revert self. induction warnings as [|[id message] warnings IH]; intros self; cbn [foldl]; [done|].
  etrans; [|apply IH]. apply frame_emit.
Qed.

Lemma frame_settled self self' : frame self self' → settled self → settled self'.
Proof. intros (_ & Hi & _) Hs id instance. unfold running_instance. rewrite Hi. apply Hs. Qed.

Lemma frame_document self self' : frame self self' → document self' = document self.
Proof. intros (_ & _ & _ & Hd). unfold document. by rewrite Hd. Qed.

Lemma project_steps self :
  sim self (project_instance_desired_states env self) ∧
  document (project_instance_desired_states env self) = document self ∧
  (deletion_requested (document self) = false → settled (project_instance_desired_states env self)).
Proof.
  unfold project_instance_desired_states. destruct (foldl _ _ _) as [warnings self'] eqn:Hloop.
  destruct (project_loop_steps _ _ _ _ _ _ Hloop) as (Hsim & Hd & Hs). pose proof (frame_warnings warnings self') as Hf.
  split_and!; [by eapply sim_frame|by rewrite (frame_document _ _ Hf)|].
  intros Hdel. apply (frame_settled _ _ Hf), Hs; [done|]. intros j.
  destruct (ag_instances self !! j) as [state|] eqn:Hj; [left; by apply instance_ids_spec|right].
  intros instance. unfold running_instance. by rewrite Hj.
Qed.

(** ** Instances that never ran *)
Lemma progress_instances self instances' :
  sim self (self <| ag_instances := instances' |>) →
  (∀ id instance, instances' !! id = Some (RunningInstance instance) → running_instance self id = Some instance) →
  progress self (self <| ag_instances := instances' |>).
Proof. intros Hsim Hsame. split_and!; [done| |done]. intros Hs id instance ?%running_instance_some. by eapply Hs, Hsame. Qed.

(** What is dropped is a creation that waits for its retry. *)
Lemma drop_steps (P : Z * AgentInstanceState → Prop) `{∀ x, Decision (P x)} (ids : list Z) self :
  (∀ id state, ag_instances self !! id = Some state → ¬ P (id, state) → id ∈ ids ∧ retrying state = true) →
  sim self (self <| ag_instances ::= filter P |>).
Proof.
  revert self. induction ids as [|id ids IH]; intros self Hdrop.
  - rewrite modify_instances_same; [done|]. apply map_filter_id. intros id state Hi. apply dec_stable. intros Hn.
    by destruct (Hdrop id state Hi Hn) as [[]%not_elem_of_nil _].
  - destruct (ag_instances self !! id) as [state|] eqn:Hi; [destruct (decide (P (id, state))) as [HP|HP]|].
    + apply IH. intros j state' Hj Hn. destruct (Hdrop j state' Hj Hn) as [[->|?]%elem_of_cons Hr]; [|done]. by simplify_eq.
    + destruct (Hdrop id state Hi HP) as [_ Hr].
      etrans; [|etrans; [apply (IH (self <| ag_instances ::= base.delete id |>))|]].
      * apply rtc_once. unfold protocol at 2. cbn [ag_base ag_instances ag_tasks].
        change (ag_instances self <| ag_instances ::= base.delete id |>) with (base.delete id (ag_instances self)).
        rewrite protocol_delete. apply (step_instance_admits id None []). rewrite lookup_claims, Hi.
        destruct state as [starting|instance]; [|done]. cbn in *. rewrite Hr. constructor.
      * intros j state' Hj Hn. change (base.delete id (ag_instances self) !! j = Some state') in Hj.
        apply lookup_delete_Some in Hj as [Hne Hj]. destruct (Hdrop j state' Hj Hn) as [[->|?]%elem_of_cons ?]; done.
      * unfold sim. replace (protocol (self <| ag_instances ::= base.delete id |>) <| ag_instances ::= filter P |>)
          with (protocol (self <| ag_instances ::= filter P |>)); [done|].
        unfold protocol. cbn. rewrite map_filter_delete_not; [done|]. intros y Hy. by simplify_eq.
    + apply IH. intros j state' Hj Hn. destruct (Hdrop j state' Hj Hn) as [[->|?]%elem_of_cons Hr]; [|done]. by simplify_eq.
Qed.

Lemma progress_drop should_drop self : progress self (drop_retrying_starting_instances should_drop self).
Proof.
  unfold drop_retrying_starting_instances.
  apply (progress_instances self (filter _ (ag_instances self))).
  - apply (drop_steps _ (instance_ids self)). intros id state Hi Hn. split; [by apply instance_ids_spec|].
    cbn in Hn. destruct (should_drop id), (retrying state); done.
  - intros id instance [Hi _]%map_lookup_filter_Some. by apply running_instance_some.
Qed.

Lemma progress_slot base document id self : progress self (admit_slot env base document id self).
Proof.
  unfold admit_slot. cbn [allocate_work_id]. apply progress_allocated.
  set (self' := self <| ag_next_work_id ::= _ |>).
  assert (Hcreate : ∀ w starting g,
    instance_admits id (claims <$> ag_instances self' !! id) (Some (ClaimStarting w false))
      [CreateInstance document id base {| ta_work_id := w; ta_generation := g |}] →
    si_work_id starting = w → si_retry_at starting = None → (∀ instance, ag_instances self' !! id ≠ Some (RunningInstance instance)) →
    progress self' (spawn (CreateInstance document id base {| ta_work_id := w; ta_generation := g |})
                      (self' <| ag_instances ::= <[id := StartingInstance starting]> |>))).
  { intros w starting g Hadmit Hw Hr Hnot. split_and!; [| |done].
    - eapply (sim_admits _ _ id (StartingInstance starting) [_]); [|reflexivity..]. cbn. by rewrite Hw, Hr.
    - intros Hs j instance Hj%running_instance_some.
      change (<[id := StartingInstance starting]> (ag_instances self') !! j = Some (RunningInstance instance)) in Hj.
      apply lookup_insert_Some in Hj as [[_ ?]|[_ Hj]]; [done|].
      apply (Hs j), running_instance_some, Hj. }
  destruct (ag_instances self' !! id) as [[starting|instance]|] eqn:Hi; [|done|].
  - destruct (si_generation starting =? generation document); cbn [negb]; destruct (si_retry_at starting) eqn:Hr; try done.
    + destruct (_ <? _); [done|]. apply Hcreate; [|done|done|congruence]. cbn. rewrite Hr. by eapply admit_recreate.
    + apply Hcreate; [|done..]. cbn. rewrite Hr. by eapply admit_recreate.
  - apply Hcreate; [|done..]. constructor.
Qed.

(** ** Work beside the transitions *)
Lemma should_secrets instance :
  should_reconcile_runtime_secrets instance = true →
  rs_active_work_id (ri_runtime_secrets instance) = None ∧ rs_active_work_id (ri_host_inputs instance) = None ∧
  is_phase (status instance) = Running ∧ match ri_work instance with Some work => wk_kind work = WorkBootstrapping | None => True end.
Proof.
  unfold should_reconcile_runtime_secrets. rewrite !andb_true_iff, !bool_decide_eq_true. intros [[[[? ?] Hw] ?] ?].
  split_and!; try done. destruct (ri_work instance); [|done]. by apply bool_decide_eq_true in Hw.
Qed.

Lemma should_inputs instance :
  should_reconcile_host_inputs instance = true → idle (running_claims instance) ∧ is_phase (status instance) = Running.
Proof.
  unfold should_reconcile_host_inputs, idle. rewrite negb_true_iff, !orb_false_iff, !bool_decide_eq_false, !negb_false_iff, !bool_decide_eq_true.
  cbn. intros (((((((? & ?) & _) & _) & ?) & ?) & _) & Hp). split; [|done].
  destruct (ri_work instance), (rs_active_work_id (ri_runtime_secrets instance)), (rs_active_work_id (ri_host_inputs instance)),
    (ri_session instance); first [done|exfalso; eauto].
Qed.

Lemma progress_secrets document id self : progress self (reconcile_instance_runtime_secrets env document id self).
Proof.
  unfold reconcile_instance_runtime_secrets. cbn [allocate_work_id]. apply progress_allocated.
  destruct (running_instance _ id) as [instance|] eqn:Hi; [|done].
  destruct (should_reconcile_runtime_secrets instance) eqn:Hs; [|done]. cbn [negb orb]. destruct (_ <? _); [done|].
  destruct (should_secrets _ Hs) as (? & ? & ? & ?).
  apply (progress_spawned _ id instance); [done| |done]. by apply (admit_secrets id (running_claims instance)).
Qed.

Lemma progress_inputs id self : progress self (reconcile_instance_host_inputs env id self).
Proof.
  unfold reconcile_instance_host_inputs. cbn [allocate_work_id]. apply progress_allocated.
  destruct (running_instance _ id) as [instance|] eqn:Hi; [|done].
  destruct (should_reconcile_host_inputs instance) eqn:Hs; [|done]. cbn [negb orb]. destruct (_ <? _); [done|].
  destruct (ri_secret_host_files instance); [|done]. destruct (should_inputs _ Hs) as [? ?].
  apply (progress_spawned _ id instance); [done| |done]. by apply (admit_inputs id (running_claims instance)).
Qed.

Lemma progress_base self : progress self (reconcile_base self).
Proof.
  unfold reconcile_base. cbn [allocate_work_id].
  assert (Hprepare : ∀ w, match ag_base self with Missing | BaseIsStopped | Failed _ _ => True | _ => False end →
    progress self (spawn (PrepareBase (document self) w (generation (document self)))
      (self <| ag_next_work_id ::= λ next, next + 1 |> <| ag_base := Preparing w |>))).
  { intros w Hb. split_and!; [|by intros Hs|done].
    eapply (sim_base_admits _ _ _ [_]); [|reflexivity..]. by constructor. }
  change (ag_base (self <| ag_next_work_id ::= λ next, next + 1 |>)) with (ag_base self).
  destruct (ag_base self); try (by apply same_progress); try (by apply Hprepare).
  destruct (_ || _); [by apply Hprepare|by apply same_progress].
Qed.

(** ** Deletion *)
Lemma mark_deleting_steps id self :
  sim self (mark_deleting id self) ∧ document (mark_deleting id self) = document self ∧ settled_at (mark_deleting id self) id.
Proof.
  unfold mark_deleting. destruct (running_instance self id) as [instance|] eqn:Hi.
  - rewrite (update_instance_some _ _ _ _ Hi). destruct (is_cleanup_phase (is_phase (status instance))) eqn:Hp.
    + split_and!; [|done|].
      * unfold sim. by rewrite (protocol_set_same _ _ instance).
      * intros k. rewrite (running_set_instance _ _ _ _ _ Hi), decide_True by done. by intros [= <-] _.
    + split_and!; [|done|].
      * eapply (sim_admits_running _ _ id instance _ []); [done| |done|by apply (set_instance_some self id instance)|done].
        by apply admit_deleting.
      * intros k. rewrite (running_set_instance _ _ _ _ _ Hi), decide_True by done. by intros [= <-] _.
  - rewrite update_instance_none by done. split_and!; [done..|]. intros k. by rewrite Hi.
Qed.

Lemma deletion_steps self : sim self (reconcile_deletion env self).
Proof.
  unfold reconcile_deletion. etrans; [apply (progress_drop (λ _, true) self)|].
  set (self1 := drop_retrying_starting_instances _ self).
  etrans; [apply (for_ids_sim (λ id self, reconcile_instance env id (mark_deleting id self)) (instance_ids self1) self1)|].
  { intros id s. destruct (mark_deleting_steps id s) as (Hsim & Hd & Hset).
    destruct (progress_instance id _ Hset) as (Hsim' & _ & Hd'). split; [by etrans|congruence]. }
  set (self2 := for_ids _ _ _). case_bool_decide; [|reflexivity]. cbn [allocate_work_id].
  change (ag_base (self2 <| ag_next_work_id ::= λ next, next + 1 |>)) with (ag_base self2).
  destruct (ag_base self2) eqn:Hb; try apply rtc_refl.
  eapply (sim_base_admits _ _ _ [_]); [|reflexivity..]. rewrite Hb. constructor.
Qed.

(** ** [reconcile] *)
Lemma progress_in_ids (f : Z → RunningAgentState → RunningAgentState) ids self :
  (∀ id self, progress self (f id self)) → progress self (for_ids f ids self).
Proof.
  intros Hf. revert self. unfold for_ids. induction ids as [|id ids IH]; intros self; cbn [foldl]; [done|].
  by etrans; [apply Hf|apply IH].
Qed.

Lemma progress_all (ids : list Z) self : settled self → progress self (for_ids (reconcile_instance env) ids self).
Proof. apply for_ids_progress. intros id s Hs. apply progress_instance. exact (Hs id). Qed.

Lemma progress_then self self1 self2 :
  progress self self1 → (settled self1 → progress self1 self2) → settled self → progress self self2.
Proof. intros H1 H2 Hs. etrans; [done|]. by apply H2, H1. Qed.

Lemma progress_inactive_instances self : settled self → progress self (reconcile_inactive_instances env self).
Proof. apply (progress_then _ _ _ (progress_drop (λ _, true) self)), progress_all. Qed.

Lemma progress_active_instances self : settled self → progress self (reconcile_active_instances env self).
Proof.
  intros Hs. unfold reconcile_active_instances. destruct (ready_agent_base_key (document self)) as [base|]; [|done].
  apply (progress_then _ (for_ids (admit_slot env base (document self)) (seqZ 0 (replicas (document self))) self)); [| |done].
  { apply progress_in_ids. intros. apply progress_slot. }
  apply (progress_then _ _ _ (progress_drop (λ id, replicas (document self) <=? id) _)), progress_all.
Qed.

Theorem reconcile_steps self : sim self (reconcile env self).
Proof.
  unfold reconcile. set (self0 := if ag_next_reconcile self <=? instant_now env then _ else _).
  assert (Hf : frame self self0) by (by unfold self0; destruct (_ <=? _)). etrans; [by apply frame_sim|].
  destruct (project_steps self0) as (Hsim & Hd & Hset). etrans; [exact Hsim|].
  set (self1 := project_instance_desired_states env self0) in *.
  etrans; [apply (progress_in_ids (reconcile_instance_runtime_secrets env (document self1)));
    intros; apply progress_secrets|].
  fold (reconcile_runtime_secrets env self1).
  assert (Hp : progress self1 (reconcile_runtime_secrets env self1)).
  { apply progress_in_ids. intros. apply progress_secrets. }
  set (self2 := reconcile_runtime_secrets env self1) in *. destruct Hp as (_ & Hs2 & Hd2).
  etrans; [|apply (progress_in_ids (reconcile_instance_host_inputs env)); intros; apply progress_inputs].
  destruct (deletion_requested (document self2)) eqn:Hdel; [apply deletion_steps|].
  assert (Hsettled : settled self2) by (apply Hs2, Hset; congruence).
  destruct (_ || _); [by apply progress_inactive_instances|].
  set (self3 := reconcile_base (reconcile_cleanup_instances env self2)).
  assert (Hp : progress self2 self3) by (etrans; [by apply progress_all|apply progress_base]).
  etrans; [apply Hp|]. destruct (agent_base_ready_for_document self3); [|done].
  apply progress_active_instances. by apply Hp.
Qed.
End settled.
