(* ===== verification/AgentCorrect.v ===== *)
(** * The loop of an agent: what holds in every state it reaches

    [world_step] is an iteration of the loop beside the tasks it has spawned:
    a command, a timer, or the end of a task with a message of its kind.  Every
    one is a sequence of steps of the protocol, so what the protocol keeps
    holds in every state the agent reaches. *)
From S2P Require Import Prelude Text Ordered Fields BootRun AgentDocument AgentState AgentRuntime AgentHandlers.
From S2P Require Import AgentReconcile AgentLoop AgentProtocol AgentInvariant AgentRefine AgentSim AgentStep.
Local Open Scope Z_scope.

Section loop.
Context `{ManifestRules} (env : Env).

(** ** Commands *)
Lemma sim_same self self' :
  ag_base self' = ag_base self → claims <$> ag_instances self' = claims <$> ag_instances self → ag_tasks self' = ag_tasks self →
  sim self self'.
Proof. intros Hb Hi Ht. unfold sim, protocol. by rewrite Hb, Hi, Ht. Qed.

Lemma claims_fmap (f : AgentInstanceState → AgentInstanceState) (instances : gmap Z AgentInstanceState) :
  (∀ state, claims (f state) = claims state) → claims <$> (f <$> instances) = claims <$> instances.
Proof. intros Hf. rewrite <-map_fmap_compose. apply map_fmap_ext. intros id state _. apply Hf. Qed.

Lemma write_steps document self : sim self (write_documents document self).
Proof. apply sim_same; [done| |done]. apply claims_fmap. by intros [starting|instance]. Qed.

Lemma sim_free task self : task_slot task = None → sim self (spawn task self).
Proof. intros Hfree. apply rtc_once. by apply step_free. Qed.

(** The base starts again, unless a task is at work on it. *)
Lemma sim_reset self : base_in_progress (ag_base self) = false → sim self (self <| ag_base := Missing |>).
Proof.
  intros Hb. eapply (sim_base_admits _ _ _ []); [|reflexivity..]. constructor. by destruct (ag_base self).
Qed.

Lemma apply_steps manifest self : sim self (apply_manifest env manifest self).2.
Proof.
  unfold apply_manifest, mbind, stm_bind, stm_get, stm_lift. cbn beta iota zeta.
  destruct (validate_mediated_auth_bindings (mc_value manifest) self) as [[]| | |]; try reflexivity. cbn beta iota.
  match goal with |- context [map_err ?f ?m] => destruct (map_err f m) as [updated| | |]; try reflexivity end. cbn beta iota.
  case_bool_decide; [reflexivity|]. unfold stm_modify. cbn [snd]. apply sim_emit.
  set (self1 := write_documents updated self).
  set (self2 := if negb (generation updated =? _) then _ else self1).
  assert (H12 : sim self1 self2).
  { unfold self2. destruct (negb _); [|reflexivity]. apply sim_same; [done| |done].
    apply (claims_fmap (λ state, match state with StartingInstance starting => StartingInstance starting | RunningInstance instance => RunningInstance (reset_schedules env instance) end)). by intros [starting|instance]. }
  etrans; [apply write_steps|]. etrans; [exact H12|].
  match goal with |- sim _ (if ?reset then _ else _) => destruct reset eqn:Hreset; [|reflexivity] end.
  apply sim_reset. apply andb_true_iff in Hreset as [_ Hb]. by apply negb_true_iff in Hb.
Qed.

Lemma protocol_spawn task self self' : protocol self' = protocol self → protocol (spawn task self') = protocol (spawn task self).
Proof. unfold protocol. cbn. by intros [= -> -> ->]. Qed.

Lemma command_steps command self : sim self (handle_command env command self).
Proof.
  destruct command as [manifest respond|replicas respond|respond|replay items respond|id respond|id params respond
    |id params respond|id respond|respond|respond]; cbn [handle_command]; try (by apply frame_sim).
  - pose proof (apply_steps manifest self) as Hs. destruct (apply_manifest env manifest self) as [[[]|error| |] self']; cbn in Hs;
      (etrans; [exact Hs|]); by apply frame_sim.
  - destruct (set_replicas_if_changed replicas (document self)) as [updated|errors| |]; try (by apply frame_sim).
    etrans; [|apply frame_sim; done]. apply sim_emit. apply rtc_refl.
  - etrans; [|apply frame_sim; done]. apply sim_emit. apply rtc_refl.
  - unfold start_instance_logs. repeat case_match; try (by apply frame_sim). by apply sim_free.
  - unfold start_instance_exec, start_exec_command.
    assert (Hexec : ∀ command timeout, sim self (start_exec_command env id command timeout respond self)).
    { intros command timeout. unfold start_exec_command. destruct (manifest_context _); [|by apply frame_sim].
      cbn [allocate_work_id]. set (self1 := self <| ag_next_work_id ::= _ |>).
      destruct (running_instance self1 id) as [instance|] eqn:Hi; [|by apply frame_sim].
      case_bool_decide as Hsession; [by apply frame_sim|]. case_bool_decide as Hphase; [|by apply frame_sim]. cbn [negb].
      unfold sim. erewrite protocol_spawn by apply protocol_emit_instance_event.
      eapply (sim_admits_running self1 _ id instance _ [_]); [done| |done|by apply (set_instance_some self1 id instance)|done].
      apply (admit_session id (running_claims instance)); [|done]. cbn. destruct (ri_session instance); [exfalso; eauto|done]. }
    destruct (ep_command params); [by apply frame_sim|]. destruct (ep_timeout_seconds params); [|apply Hexec].
    destruct (_ =? _); [by apply frame_sim|apply Hexec].
  - unfold start_instance_shell. repeat case_match; try (by apply frame_sim). by apply sim_free.
Qed.

(** ** Observations *)
Lemma observations_steps id self : sim self (refresh_instance_observations env id self).
Proof.
  unfold refresh_instance_observations. destruct (running_instance self id) as [instance|]; [|reflexivity].
  set (observe := λ (self : RunningAgentState) event, emit_instance_event _ _ _ _ _).
  assert (Hevents : ∀ events s, protocol (foldl observe s events) = protocol s).
  { induction events as [|event events IH]; intros s; cbn [foldl]; [done|]. rewrite IH. unfold observe.
    rewrite protocol_emit_instance_event. by apply protocol_update_same. }
  unfold sim. destruct (network_observation env id); [rewrite protocol_update_same by done|]; by rewrite Hevents.
Qed.

Lemma refresh_steps self : sim self (refresh_runtime_observations env self).
Proof.
  unfold refresh_runtime_observations, for_ids. generalize (instance_ids self). intros ids. revert self.
  induction ids as [|id ids IH]; intros self; cbn [foldl]; [reflexivity|]. etrans; [apply observations_steps|apply IH].
Qed.

(** ** The commit *)
(** Saving a document is a step: the phase saved is the phase of the instance. *)
Lemma persist_instance_steps id self : sim self (persist_instance env id self).2.
Proof.
  unfold persist_instance. destruct (running_instance self id) as [instance|] eqn:Hi; [|reflexivity].
  destruct (instance_dirty _); [|reflexivity]. cbn [negb]. destruct (write_error env (Some id)); [reflexivity|]. cbn [snd].
  set (self1 := effect _ self). rewrite (update_instance_some self1 id _ instance Hi).
  eapply (sim_admits_running self _ id instance _ []); [done| |done|by apply (set_instance_some self1 id instance)|done].
  apply (admit_saved id (running_claims instance)).
Qed.

Lemma persist_instances_steps ids self : sim self (persist_instances env ids self).2.
Proof.
  revert self. induction ids as [|id ids IH]; intros self; cbn [persist_instances]; [reflexivity|].
  unfold mbind, stm_bind. pose proof (persist_instance_steps id self) as Hone.
  destruct (persist_instance env id self) as [[[]|error| |] self1]; cbn in Hone |- *; [|done..]. etrans; [exact Hone|apply IH].
Qed.

Lemma persist_steps self : sim self (persist_to env self).2.
Proof.
  unfold persist_to, mbind, stm_bind. assert (Hagent : sim self (persist_agent env self).2).
  { unfold persist_agent. destruct (negb _); [reflexivity|]. destruct (write_error env None); apply rtc_refl. }
  destruct (persist_agent env self) as [[[]|error| |] self1]; cbn in Hagent |- *; [|done..].
  etrans; [exact Hagent|]. apply persist_instances_steps.
Qed.

Lemma frame_open_stream replay items self : frame self (open_stream replay items self).
Proof. unfold open_stream. destruct replay; [|done]. etrans; [|done]. etrans; [|apply (frame_effects (λ event, SentStream items (StreamEvent event)))]. done. Qed.

Lemma frame_answer error response self : frame self (answer_response error response self).
Proof.
  destruct response as [respond|id respond|respond|replay items respond]; try done. cbn [answer_response].
  case_bool_decide; destruct respond; try done; [etrans; [|apply frame_effect]|]; apply frame_open_stream.
Qed.

Lemma frame_answers error self : frame self (answer_pending_responses error self).
Proof.
  unfold answer_pending_responses. generalize (ag_pending_responses self). intros responses.
  set (self0 := self <| ag_pending_responses := [] |>). assert (Hf : frame self self0) by done. etrans; [exact Hf|]. clearbody self0. clear.
  revert self0. induction responses as [|response responses IH]; intros self; cbn [foldl]; [done|].
  etrans; [apply frame_answer|apply IH].
Qed.

Lemma frame_publish_document changed self : frame self (publish_document env changed self).
Proof.
  unfold publish_document. etrans; [|apply frame_answers]. destruct changed; [|done].
  etrans; [apply frame_publish|apply frame_emit].
Qed.

Lemma commit_steps self : sim self (commit_state env self).
Proof.
  unfold commit_state, commit_documents. etrans; [apply (write_steps (document self))|]. set (self1 := write_documents _ _).
  destruct (as_deleted _).
  - eapply sim_frame; [|apply frame_publish_document]. apply rtc_refl.
  - pose proof (persist_steps self1) as Hs. destruct (persist_to env self1) as [[[]|error| |] self2]; cbn in Hs;
        [eapply sim_frame; [done|apply frame_publish_document]|eapply sim_frame; [by apply sim_emit|apply frame_answers]
      |eapply sim_frame; [done|apply frame_publish_document]..].
Qed.

Lemma iteration_steps input self :
  sim self (handle_input env input self) → sim self (iteration env input self).
Proof.
  intros Hs. unfold iteration. etrans; [exact Hs|]. etrans; [apply refresh_steps|]. etrans; [apply reconcile_steps|apply commit_steps].
Qed.
End loop.

Section correct.
Context `{ManifestRules}.

(** ** Every step of the agent and its tasks is a sequence of steps of the protocol *)
Lemma world_steps self self' : protocol_ok (protocol self) → world_step self self' → sim self self'.
Proof.
  intros Hok Hstep. destruct Hstep as [env self|env command self|env self task completion Hin Hsend
    |env self l task r completion Ht Hend|self l task r Ht Hend].
  - by apply iteration_steps.
  - apply iteration_steps, command_steps.
  - eapply iteration_steps, message_steps. done.
  - unfold iteration. assert (Hs : sim self (handle_input env (Some (Work completion)) (without l r self))) by by eapply completion_steps.
    etrans; [exact Hs|]. etrans; [apply refresh_steps|]. etrans; [apply reconcile_steps|apply commit_steps].
  - apply rtc_once. unfold protocol. cbn. rewrite Ht. apply step_free_ends. by inversion Hend.
Qed.

Lemma frame_push response self self' : frame self self' → frame self (push_response response self').
Proof. done. Qed.

Lemma initial_ok self : initial self → protocol_ok (protocol self).
Proof.
  assert (Hstart : ∀ env document loaded sequence starting, protocol_ok (protocol (start env document loaded sequence starting))).
  { intros env document loaded sequence starting. split.
    - cbn. by repeat case_match.
    - intros id. cbn. rewrite lookup_fmap, lookup_fmap. destruct (_ !! id) as [[document' n]|]; cbn; done. }
  destruct 1 as [env document loaded sequence starting|env manifest respond starting self Hs]; [apply Hstart|].
  unfold start_applied in Hs. match type of Hs with (?m ≫= _) = _ => destruct m as [document| | |] end; try done.
  set (running := start env document None 1 starting).
  set (self' := push_response (RespondAgentDocument respond)
                  (emit env Controller (DesiredStateAccepted (generation (AgentState.document running))) running)).
  assert (self = self') as -> by (by injection Hs).
  rewrite (frame_protocol running self'); [apply Hstart|]. apply frame_push, frame_emit.
Qed.

Lemma sim_ok self self' : sim self self' → protocol_ok (protocol self) → protocol_ok (protocol self').
Proof. unfold sim. induction 1 as [|p1 p2 p3 Hstep _ IH]; [done|]. intros Hok. apply IH. by eapply protocol_step_ok. Qed.

Lemma reachable_ok self : reachable self → protocol_ok (protocol self).
Proof.
  intros (self0 & Hinit%initial_ok & Hsteps). induction Hsteps as [|s1 s2 s3 Hstep _ IH]; [done|].
  apply IH. eapply sim_ok; [by eapply world_steps|done].
Qed.
End correct.
