(* ===== verification/AgentSecrecy.v ===== *)
(** * What the loop of an agent lets out is redacted

    The private key of an instance is in its document, the one the loop works
    on.  Whatever is sent to a client, published on a stream, logged or saved in
    the document of the agent is redacted. *)
From S2P Require Import Prelude Text Ordered Fields BootRun AgentDocument AgentState AgentRuntime AgentHandlers.
From S2P Require Import AgentReconcile AgentLoop AgentProtocol AgentInvariant AgentRefine AgentSim AgentStep AgentCorrect.
Local Open Scope Z_scope.

Section redaction.
Context `{ManifestRules}.

Definition redacted_status (status : AgentInstanceStatus) : Prop :=
  match is_guest_access status with Some access => ga_private_key access = REDACTED_PRIVATE_KEY | None => True end.
Definition redacted_document (document : AgentInstanceDocument) : Prop := redacted_status (id_status document).
Definition redacted_agent (document : AgentDocument) : Prop :=
  map_Forall (λ _, redacted_status) (as_instances (ad_status document)).

Definition redacted_item (item : AgentStreamItem) : Prop :=
  match item with
  | StreamDocument document => redacted_agent document
  | StreamEvent envelope => match ae_event envelope with DocumentChanged document => redacted_agent document | _ => True end
  end.

(** The document of an instance itself is only written to its state file. *)
Definition redacted_effect (effect : Effect) : Prop :=
  match effect with
  | SentDocument _ (inl document) | SavedAgent document => redacted_agent document
  | SentInstance _ (inl document) => redacted_document document
  | SentStream _ item => redacted_item item
  | AppendedEvent envelope => redacted_item (StreamEvent envelope)
  | _ => True
  end.

(** The documents a state shows *)
Definition redacts (self : RunningAgentState) : Prop :=
  redacted_agent (agent_public (ag_documents self)) ∧
  (∀ id instance, running_instance self id = Some instance → redacted_document (public (ri_documents instance))) ∧
  Forall (λ envelope, redacted_item (StreamEvent envelope)) (ag_recent_events self) ∧
  Forall redacted_effect (ag_effects self).

Lemma redact_redacts status : redacted_status (redact status).
Proof. unfold redacted_status, redact. cbn. by destruct (is_guest_access status). Qed.

Lemma redact_agent_redacts document : redacted_agent (redact_agent document).
Proof.
  unfold redacted_agent. cbn. intros id status Hi. apply lookup_fmap_Some in Hi as (status' & <- & _). apply redact_redacts.
Qed.

(** An operation lets nothing out. *)
Definition discreet (self self' : RunningAgentState) : Prop := redacts self → redacts self'.
#[global] Instance discreet_preorder : PreOrder discreet.
Proof. split; [intros self Hs; exact Hs|]. intros s1 s2 s3 H12 H23 Hs. by apply H23, H12. Qed.

(** The parts of the state that show nothing *)
Lemma discreet_same self self1 self2 :
  agent_public (ag_documents self2) = agent_public (ag_documents self1) → ag_instances self2 = ag_instances self1 →
  ag_recent_events self2 = ag_recent_events self1 → ag_effects self2 = ag_effects self1 →
  discreet self self1 → discreet self self2.
Proof.
  unfold discreet, redacts, running_instance. intros -> -> -> -> Hs Hself. by apply Hs.
Qed.

Lemma discreet_effect self self1 e : redacted_effect e → discreet self self1 → discreet self (effect e self1).
Proof. intros He Hs (? & ? & ? & ?)%Hs. split_and!; try done. by constructor. Qed.

Lemma discreet_effects {A} (f : A → Effect) l self self1 :
  Forall (λ x, redacted_effect (f x)) l → discreet self self1 → discreet self (foldl (λ self x, effect (f x) self) self1 l).
Proof.
  intros Hl. revert self1. induction Hl as [|x l Hx _ IH]; intros self1 Hs; cbn [foldl]; [done|].
  by apply IH, discreet_effect.
Qed.

Context (env : Env).

Lemma discreet_publish self self1 item : redacted_item item → discreet self self1 → discreet self (publish env item self1).
Proof.
  intros Hitem Hs. unfold publish. eapply discreet_same; [reflexivity..|].
  apply discreet_effects; [|done]. by apply Forall_true.
Qed.

Lemma discreet_emit self self1 source event : discreet self self1 → discreet self (emit env source event self1).
Proof.
  intros Hs. unfold emit. set (envelope := Build_AgentEventEnvelope _ _ _ _ _).
  destruct event; try done; (apply discreet_publish; [done|]); intros Hself;
    (destruct (Hs Hself) as (? & ? & Hrecent & ?); split_and!; [done..| |by constructor]);
    (apply Forall_drop, Forall_app; split; [done|by constructor]).
Qed.

Lemma discreet_warning self self1 source message : discreet self self1 → discreet self (emit_warning env source message self1).
Proof. apply discreet_emit. Qed.

Lemma discreet_update self self1 id f :
  (∀ instance, redacted_document (public (ri_documents instance)) → redacted_document (public (ri_documents (f instance)))) →
  discreet self self1 → discreet self (update_instance id f self1).
Proof.
  intros Hf Hs Hself. destruct (Hs Hself) as (? & Hi & ? & ?). split_and!; try done. intros j instance.
  destruct (running_instance self1 id) as [instance0|] eqn:Hid.
  - rewrite (update_instance_some _ _ _ _ Hid), (running_set_instance _ _ _ _ _ Hid). case_decide; [|apply Hi].
    intros [= <-]. by apply Hf, (Hi id).
  - rewrite update_instance_none by done. apply Hi.
Qed.

Lemma discreet_set self self1 id instance instance' :
  running_instance self1 id = Some instance → public (ri_documents instance') = public (ri_documents instance) →
  discreet self self1 → discreet self (set_instance id instance' self1).
Proof.
  intros Hid Hsame Hs Hself. destruct (Hs Hself) as (? & Hi & ? & ?). split_and!; try done. intros j k.
  rewrite (running_set_instance _ _ _ _ _ Hid). case_decide; [|apply Hi]. intros [= <-]. rewrite Hsame. by apply (Hi id).
Qed.

Lemma discreet_instances self self1 instances' :
  (∀ id instance, instances' !! id = Some (RunningInstance instance) →
     running_instance self1 id = Some instance ∨ redacted_document (public (ri_documents instance))) →
  discreet self self1 → discreet self (self1 <| ag_instances := instances' |>).
Proof.
  intros Hnew Hs Hself. destruct (Hs Hself) as (? & Hi & ? & ?). split_and!; try done.
  intros id instance Hid%running_instance_some. destruct (Hnew id instance Hid) as [?|]; [by eapply Hi|done].
Qed.

Lemma discreet_insert self self1 id state :
  match state with StartingInstance _ => True | RunningInstance instance => redacted_document (public (ri_documents instance)) end →
  discreet self self1 → discreet self (self1 <| ag_instances ::= <[id := state]> |>).
Proof.
  intros Hstate. apply (discreet_instances self self1 (<[id := state]> (ag_instances self1))).
  intros j instance [[_ ->]|[_ ?]]%lookup_insert_Some; [by right|]. left. by apply running_instance_some.
Qed.

Lemma discreet_delete self self1 id : discreet self self1 → discreet self (self1 <| ag_instances ::= base.delete id |>).
Proof.
  apply (discreet_instances self self1 (base.delete id (ag_instances self1))).
  intros j instance [_ ?]%lookup_delete_Some. left. by apply running_instance_some.
Qed.

Lemma discreet_filter self self1 (P : Z * AgentInstanceState → Prop) `{∀ x, Decision (P x)} :
  discreet self self1 → discreet self (self1 <| ag_instances ::= filter P |>).
Proof.
  apply (discreet_instances self self1 (filter P (ag_instances self1))).
  intros j instance [? _]%map_lookup_filter_Some. left. by apply running_instance_some.
Qed.

Lemma discreet_fmap self self1 (f : RunningAgentInstanceState → RunningAgentInstanceState) :
  (∀ instance, redacted_document (public (ri_documents instance)) → redacted_document (public (ri_documents (f instance)))) →
  discreet self self1 → discreet self (self1 <| ag_instances ::= fmap (λ state,
    match state with StartingInstance starting => StartingInstance starting | RunningInstance instance => RunningInstance (f instance) end) |>).
Proof.
  intros Hf Hs Hself. destruct (Hs Hself) as (? & Hi & ? & ?). split_and!; try done.
  intros id instance Hid%running_instance_some. cbn in Hid. rewrite lookup_fmap in Hid.
  apply fmap_Some in Hid as ([starting|instance0] & Hid & [= ->]). apply Hf, (Hi id), running_instance_some, Hid.
Qed.

Lemma discreet_emit_instance self self1 id source event :
  discreet self self1 → discreet self (emit_instance_event env id source event self1).
Proof.
  intros Hs. unfold emit_instance_event. destruct (running_instance self1 id); [|done].
  assert (Hs' : ∀ e, redacted_effect e → discreet self (effect e
    (update_instance id (λ instance, instance <| ri_event_sequence ::= λ sequence, saturating_add64 sequence 1 |>) self1))).
  { intros e He. apply discreet_effect; [done|]. by apply discreet_update. }
  destruct (should_forward_instance_event event); [apply discreet_emit|]; by apply Hs'.
Qed.

Lemma discreet_for_ids (f : Z → RunningAgentState → RunningAgentState) ids self :
  (∀ id self, discreet self (f id self)) → discreet self (for_ids f ids self).
Proof.
  intros Hf. revert self. unfold for_ids. induction ids as [|id ids IH]; intros self; cbn [foldl]; [done|].
  etrans; [apply Hf|apply IH].
Qed.
End redaction.

(** An operation is peeled off layer by layer. *)
Ltac discreet_layer :=
  lazymatch goal with
  | |- discreet ?self ?self => reflexivity
  | |- discreet _ (emit _ _ _ _) => apply discreet_emit
  | |- discreet _ (emit_warning _ _ _ _) => apply discreet_warning
  | |- discreet _ (emit_instance_event _ _ _ _ _) => apply discreet_emit_instance
  | |- discreet _ (effect _ _) => apply discreet_effect; [done|]
  | |- discreet _ (set_instance _ _ _) => eapply discreet_set; [eassumption|reflexivity|]
  | |- discreet _ (update_instance _ _ _) => apply discreet_update; [done|]
  | |- discreet _ (_ <| ag_instances ::= <[_ := _]> |>) => apply discreet_insert; [try done|]
  | |- discreet _ (_ <| ag_instances ::= base.delete _ |>) => apply discreet_delete
  | |- discreet _ (_ <| ag_instances ::= filter _ |>) => apply discreet_filter
  | |- discreet ?self (spawn _ ?self1) => apply (discreet_same self self1); [reflexivity..|]
  | |- discreet ?self (modify _ _ ?self1) => apply (discreet_same self self1); [reflexivity..|]
  | |- discreet ?self (update_document _ ?self1) => apply (discreet_same self self1); [reflexivity..|]
  end.

Section loop.
Context `{ManifestRules} (env : Env).

Lemma discreet_base_completion completion self : discreet self (handle_base_completion env completion self).
Proof.
  unfold handle_base_completion. destruct completion; try reflexivity; repeat case_match; repeat discreet_layer.
Qed.

Lemma discreet_instance_completion completion self : discreet self (handle_instance_completion env completion self).
Proof.
  destruct completion; try reflexivity; cbn [handle_instance_completion].
  - unfold complete_instance_create. repeat case_match; repeat discreet_layer; apply redact_redacts.
  - unfold complete_instance_start. repeat case_match; repeat discreet_layer.
  - unfold complete_instance_reconcile. repeat case_match; repeat discreet_layer.
  - unfold complete_instance_stop. repeat case_match; repeat discreet_layer.
  - unfold complete_instance_delete_runtime. repeat case_match; repeat discreet_layer.
  - unfold complete_instance_delete. repeat case_match; repeat discreet_layer.
  - unfold complete_instance_delete. repeat case_match; repeat discreet_layer.
Qed.

Lemma discreet_completion completion self : discreet self (handle_work_completion env completion self).
Proof.
  destruct completion; cbn [handle_work_completion]; try apply discreet_base_completion; try apply discreet_instance_completion;
    cbn [handle_bootstrap_completion].
  - repeat case_match; repeat discreet_layer.
  - unfold apply_bootstrap_event. repeat case_match; repeat discreet_layer.
  - unfold bootstrap_finished. repeat case_match; repeat discreet_layer.
  - unfold handle_tailscale_completion. repeat case_match; repeat discreet_layer.
  - unfold handle_runtime_secrets_completion. repeat case_match; repeat discreet_layer.
  - unfold handle_host_inputs_completion. repeat case_match; repeat discreet_layer.
  - unfold handle_exec_completion. repeat case_match; repeat discreet_layer.
Qed.

(** ** The reconciler *)
Lemma discreet_start_task self self1 task kind id w instance instance' :
  running_instance self1 id = Some instance' → public (ri_documents instance) = public (ri_documents instance') →
  discreet self self1 → discreet self (start_task env task kind id w instance self1).
Proof.
  intros Hi Hsame Hs. unfold start_task. discreet_layer. by eapply discreet_set.
Qed.

Local Ltac reconciles :=
  repeat case_match; repeat first [discreet_layer | eapply discreet_start_task; [eassumption|reflexivity|]].

Lemma discreet_bootstrap id self : discreet self (reconcile_instance_bootstrap env id self).
Proof. unfold reconcile_instance_bootstrap. cbn [allocate_work_id]. reconciles. Qed.

Lemma project_public instance document id target :
  public (ri_documents (project_instance_desired_state env instance document id target).1) = public (ri_documents instance).
Proof. unfold project_instance_desired_state. repeat case_match; reflexivity. Qed.

Lemma refresh_public instance :
  public (ri_documents (refresh_instance_observed_generation instance)) = public (ri_documents instance).
Proof. unfold refresh_instance_observed_generation. by repeat case_match. Qed.

Lemma discreet_active id self : discreet self (reconcile_active_instance env id self).
Proof.
  unfold reconcile_active_instance. cbn [allocate_work_id]. reconciles.
  etrans; [|apply discreet_bootstrap]. by repeat discreet_layer.
Qed.

Lemma discreet_inactive id self : discreet self (reconcile_inactive_instance env id self).
Proof.
  unfold reconcile_inactive_instance. cbn [allocate_work_id]. reconciles.
  eapply discreet_set; [eassumption|apply refresh_public|]. by repeat discreet_layer.
Qed.

Lemma discreet_deleting id self : discreet self (reconcile_deleting_instance env id self).
Proof. unfold reconcile_deleting_instance. cbn [allocate_work_id]. reconciles. Qed.

Lemma discreet_instance id self : discreet self (reconcile_instance env id self).
Proof.
  unfold reconcile_instance. repeat case_match; try reflexivity; auto using discreet_active, discreet_inactive, discreet_deleting.
Qed.

Lemma discreet_project self : discreet self (project_instance_desired_states env self).
Proof.
  unfold project_instance_desired_states. generalize (instance_ids self), (document self). intros ids doc0.
  assert (Hloop : ∀ warnings s, discreet s (foldl (λ '(warnings, self'), λ id, project_instance env doc0 warnings id self') (warnings, s) ids).2).
  { induction ids as [|id ids IH]; intros warnings s; cbn [foldl]; [reflexivity|].
    destruct (project_instance env doc0 warnings id s) as [warnings1 s1] eqn:Hone. etrans; [|apply IH].
    unfold project_instance in Hone. destruct (running_instance s id) as [instance|] eqn:Hi; [|by simplify_eq].
    pose proof (project_public instance doc0 id (instance_target doc0 id)) as Hp.
    destruct (project_instance_desired_state _ _ _ _ _) as [projected warning]. simplify_eq.
    eapply discreet_set; [done| |reflexivity]. by rewrite refresh_public. }
  specialize (Hloop [] self). destruct (foldl _ _ _) as [warnings s]. cbn in Hloop. etrans; [exact Hloop|].
  clear. revert s. induction warnings as [|[id message] warnings IH]; intros s; cbn [foldl]; [reflexivity|].
  etrans; [|apply IH]. by discreet_layer.
Qed.

Lemma discreet_deletion self : discreet self (reconcile_deletion env self).
Proof.
  unfold reconcile_deletion. set (self1 := for_ids _ _ _).
  assert (Hs : discreet self self1).
  { unfold self1. etrans; [|apply discreet_for_ids].
    - unfold drop_retrying_starting_instances. by repeat discreet_layer.
    - intros id s. etrans; [|apply discreet_instance]. unfold mark_deleting. apply discreet_update; [|reflexivity].
      intros instance Hi. by case_match. }
  clearbody self1. case_match; [|done]. cbn [allocate_work_id]. case_match; (etrans; [exact Hs|]); by repeat discreet_layer.
Qed.

Lemma discreet_slot base document id self : discreet self (admit_slot env base document id self).
Proof. unfold admit_slot. cbn [allocate_work_id]. reconciles. Qed.

Lemma discreet_active_instances self : discreet self (reconcile_active_instances env self).
Proof.
  unfold reconcile_active_instances. case_match; [|reflexivity].
  etrans; [|apply discreet_for_ids, discreet_instance]. unfold drop_retrying_starting_instances. discreet_layer.
  apply discreet_for_ids, discreet_slot.
Qed.

Lemma discreet_reconcile self : discreet self (reconcile env self).
Proof.
  unfold reconcile. etrans; [|apply discreet_for_ids].
  2:{ intros id s. unfold reconcile_instance_host_inputs. cbn [allocate_work_id]. reconciles. }
  set (self1 := reconcile_runtime_secrets env _).
  assert (Hs : discreet self self1).
  { unfold self1, reconcile_runtime_secrets. etrans; [|apply discreet_for_ids].
    - etrans; [|apply discreet_project]. case_match; by repeat discreet_layer.
    - intros id s. unfold reconcile_instance_runtime_secrets. cbn [allocate_work_id]. reconciles. }
  etrans; [exact Hs|]. clearbody self1.
  case_match; [apply discreet_deletion|]. case_match.
  - unfold reconcile_inactive_instances. etrans; [|apply discreet_for_ids, discreet_instance].
    unfold drop_retrying_starting_instances. by repeat discreet_layer.
  - assert (Hbase : discreet self1 (reconcile_base (reconcile_cleanup_instances env self1))).
    { assert (Hcleanup : discreet self1 (reconcile_cleanup_instances env self1)) by apply discreet_for_ids, discreet_instance.
      etrans; [exact Hcleanup|]. unfold reconcile_base. cbn [allocate_work_id]. repeat case_match; by repeat discreet_layer. }
    etrans; [exact Hbase|]. case_match; [apply discreet_active_instances|reflexivity].
Qed.

(** ** Commands *)
Lemma discreet_write document self : discreet self (write_documents document self).
Proof.
  assert (Hs : discreet self (self <| ag_instances ::= fmap write_running |>)).
  { apply (discreet_fmap _ _ (λ instance, instance <| ri_documents ::= λ documents, instance_documents_write (private documents) documents |>));
      [|reflexivity]. intros instance _. apply redact_redacts. }
  intros (_ & ? & ? & ?)%Hs. split_and!; try done. apply redact_agent_redacts.
Qed.

Lemma discreet_apply manifest self : discreet self (apply_manifest env manifest self).2.
Proof.
  unfold apply_manifest, mbind, stm_bind, stm_get, stm_lift. cbn beta iota zeta.
  destruct (validate_mediated_auth_bindings (mc_value manifest) self) as [[]| | |]; try reflexivity. cbn beta iota.
  match goal with |- context [map_err ?f ?m] => destruct (map_err f m) as [updated| | |]; try reflexivity end. cbn beta iota.
  case_bool_decide; [reflexivity|]. unfold stm_modify. cbn [snd]. apply discreet_emit.
  etrans; [apply (discreet_write updated)|]. set (self1 := write_documents updated self).
  set (self2 := if negb (generation updated =? _) then _ else self1).
  assert (Hs : discreet self1 self2).
  { unfold self2. case_match; [|reflexivity]. by apply (discreet_fmap _ _ (reset_schedules env)). }
  etrans; [exact Hs|]. clearbody self2. match goal with |- discreet _ (if ?reset then _ else _) => destruct reset end;
    by repeat discreet_layer.
Qed.

Lemma discreet_command command self : discreet self (handle_command env command self).
Proof.
  destruct command as [manifest respond|replicas respond|respond|replay items respond|id respond|id params respond
    |id params respond|id respond|respond|respond]; cbn [handle_command]; unfold push_response; try by repeat discreet_layer.
  - pose proof (discreet_apply manifest self) as Hs. destruct (apply_manifest env manifest self) as [[[]|error| |] self']; cbn in Hs;
      (etrans; [exact Hs|]); by repeat discreet_layer.
  - repeat case_match; by repeat discreet_layer.
  - unfold start_instance_logs. repeat case_match; by repeat discreet_layer.
  - unfold start_instance_exec, start_exec_command. cbn [allocate_work_id]. repeat case_match; by repeat discreet_layer.
  - unfold start_instance_shell. repeat case_match; by repeat discreet_layer.
Qed.

(** ** Observations and the commit *)
Lemma discreet_observations self : discreet self (refresh_runtime_observations env self).
Proof.
  apply discreet_for_ids. intros id s. unfold refresh_instance_observations. case_match; [|reflexivity].
  set (observe := λ (self : RunningAgentState) event, emit_instance_event _ _ _ _ _).
  assert (Hevents : ∀ events s, discreet s (foldl observe s events)).
  { induction events as [|event events IH]; intros s'; cbn [foldl]; [reflexivity|]. etrans; [|apply IH].
    unfold observe. by repeat discreet_layer. }
  case_match; [discreet_layer|]; apply Hevents.
Qed.

Lemma discreet_persist_instances ids self : discreet self (persist_instances env ids self).2.
Proof.
  revert self. induction ids as [|id ids IH]; intros self; cbn [persist_instances]; [reflexivity|]. unfold mbind, stm_bind.
  assert (Hone : discreet self (persist_instance env id self).2).
  { unfold persist_instance. repeat case_match; cbn [snd]; by repeat discreet_layer. }
  destruct (persist_instance env id self) as [[[]|error| |] self1]; cbn in Hone |- *; [|done..]. etrans; [exact Hone|apply IH].
Qed.

(** The document of the agent is built from what the instances show. *)
Lemma write_redacts document self : redacts self → redacted_agent (AgentState.document (write_documents document self)).
Proof.
  intros (_ & Hi & _). intros id status Hs. cbn in Hs. rewrite lookup_fmap, lookup_omap, lookup_fmap in Hs.
  destruct (ag_instances self !! id) as [[starting|instance]|] eqn:Hid; try done. cbn in Hs.
  injection Hs as <-. apply redact_redacts.
Qed.

Lemma discreet_persist self : redacted_agent (document self) → discreet self (persist_to env self).2.
Proof.
  intros Hd. unfold persist_to, mbind, stm_bind. assert (Hagent : discreet self (persist_agent env self).2).
  { unfold persist_agent. repeat case_match; cbn [snd]; try reflexivity.
    apply (discreet_same self (effect (SavedAgent (document self)) self)); [reflexivity..|]. by apply discreet_effect; [|reflexivity]. }
  destruct (persist_agent env self) as [[[]|error| |] self1]; cbn in Hagent |- *; [|done..].
  etrans; [exact Hagent|]. apply discreet_persist_instances.
Qed.

Lemma discreet_answer error response self : discreet self (answer_response error response self).
Proof.
  intros Hs. pose proof Hs as (Hpublic & Hi & Hrecent & _). revert Hs.
  change (discreet self (answer_response error response self)).
  destruct response as [respond|id respond|respond|replay items respond]; cbn [answer_response].
  - apply discreet_effect; [|reflexivity]. by destruct error.
  - apply discreet_effect; [|reflexivity]. destruct error; [done|]. unfold instance_document. cbn.
    destruct (running_instance self id) eqn:Hid; [by eapply Hi|done].
  - apply discreet_effect; [|reflexivity]. by destruct error.
  - assert (Hopen : discreet self (if bool_decide (error = None) then open_stream replay items self else self)).
    { case_bool_decide; [|reflexivity]. unfold open_stream. eapply discreet_same; [reflexivity..|].
      destruct replay; [apply discreet_effects|]; [|by apply discreet_effect..].
      apply Forall_forall. intros envelope [_ Hin]%list_elem_of_filter. by apply (proj1 (Forall_forall _ _) Hrecent). }
    destruct respond; [by apply discreet_effect; [destruct error|]|done].
Qed.

Lemma discreet_answers error self : discreet self (answer_pending_responses error self).
Proof.
  unfold answer_pending_responses. set (self0 := self <| ag_pending_responses := [] |>).
  assert (Hs : discreet self self0) by by unfold self0; repeat discreet_layer. etrans; [exact Hs|]. clearbody self0.
  generalize (ag_pending_responses self). intros responses. clear Hs. revert self0.
  induction responses as [|response responses IH]; intros self0; cbn [foldl]; [reflexivity|].
  etrans; [apply discreet_answer|apply IH].
Qed.

Lemma discreet_publish_document changed self : discreet self (publish_document env changed self).
Proof.
  unfold publish_document. etrans; [|apply discreet_answers]. destruct changed; [|reflexivity].
  apply discreet_emit. intros Hs. pose proof Hs as (Hpublic & _). revert Hs. by apply discreet_publish.
Qed.

Lemma discreet_commit self : discreet self (commit_state env self).
Proof.
  intros Hs. unfold commit_state, commit_documents. pose proof (discreet_write (document self) self Hs) as Hw.
  pose proof (write_redacts (document self) self Hs) as Hd. set (self1 := write_documents _ _) in *. clearbody self1.
  revert Hw. match goal with |- redacts ?s → redacts ?s' => change (discreet s s') end. destruct (as_deleted _).
  - etrans; [|apply discreet_publish_document]. by repeat discreet_layer.
  - pose proof (discreet_persist self1 Hd) as Hp. destruct (persist_to env self1) as [[[]|error| |] self2]; cbn in Hp;
      (etrans; [exact Hp|]); try apply discreet_publish_document. etrans; [|apply discreet_answers]. by discreet_layer.
Qed.

Lemma discreet_iteration input self : discreet self (iteration env input self).
Proof.
  unfold iteration. etrans; [|apply discreet_commit]. etrans; [|apply discreet_reconcile]. etrans; [|apply discreet_observations].
  destruct input as [[|command|completion]|]; cbn [handle_input]; try reflexivity; [apply discreet_command|apply discreet_completion].
Qed.
End loop.

Section secrecy.
Context `{ManifestRules}.

Lemma discreet_world self self' : world_step self self' → discreet self self'.
Proof.
  destruct 1 as [env self|env command self|env self task completion Hin Hsend|env self l task r completion Ht Hend|self l task r Ht Hend];
    try apply discreet_iteration; [|by unfold without; repeat discreet_layer].
  etrans; [|apply discreet_iteration]. unfold without. by repeat discreet_layer.
Qed.

Lemma initial_redacts self : initial self → redacts self.
Proof.
  assert (Hstart : ∀ env document loaded sequence starting, redacts (start env document loaded sequence starting)).
  { intros env document loaded sequence starting. split_and!; [apply redact_agent_redacts| |done|done].
    intros id instance Hi%running_instance_some. cbn in Hi. rewrite lookup_fmap in Hi.
    apply fmap_Some in Hi as ([document' n] & _ & [= ->]). apply redact_redacts. }
  destruct 1 as [env document loaded sequence starting|env manifest respond starting self Hs]; [apply Hstart|].
  unfold start_applied in Hs. match type of Hs with (?m ≫= _) = _ => destruct m as [document| | |] end; try done.
  set (running := start env document None 1 starting).
  set (self' := push_response (RespondAgentDocument respond)
                  (emit env Controller (DesiredStateAccepted (generation (AgentState.document running))) running)).
  assert (self = self') as -> by (by injection Hs). unfold self', push_response.
  assert (Hd : discreet running self') by by unfold self', push_response; repeat discreet_layer. apply Hd, Hstart.
Qed.

Lemma reachable_redacts self : reachable self → redacts self.
Proof.
  intros (self0 & Hinit%initial_redacts & Hsteps). induction Hsteps as [|s1 s2 s3 Hstep _ IH]; [done|].
  apply IH. by eapply discreet_world.
Qed.

(** C21: Everything a reachable agent has sent, published, logged or saved beside its
    instances is redacted. *)
Theorem private_keys_stay self : reachable self → Forall redacted_effect (ag_effects self).
Proof. by intros (_ & _ & _ & He)%reachable_redacts. Qed.
End secrecy.
