(* ===== verification/AgentSafety.v ===== *)
(** * What holds in every state an agent reaches

    The claims of the state and the tasks in flight are the same, so no two tasks
    work on the same thing, and a cleanup is alone with its instance. *)
From S2P Require Import Prelude Text Ordered Fields BootRun AgentDocument AgentState AgentRuntime AgentHandlers.
From S2P Require Import AgentReconcile AgentLoop AgentProtocol AgentInvariant AgentRefine AgentSim AgentStep AgentCorrect.
Local Open Scope Z_scope.

Section safety.
Context `{ManifestRules}.

(** ** Refinement *)
(** C4: Whatever happens to a reachable agent is a sequence of steps of the protocol. *)
Theorem loop_refines_protocol self self' : reachable self → world_step self self' → rtc protocol_step (protocol self) (protocol self').
Proof. intros Hreach Hstep. by apply world_steps; [apply reachable_ok|]. Qed.

(** ** Exclusion *)
(** The work in flight for a slot *)
Definition in_flight (slot : Slot) (self : RunningAgentState) : list Z := task_work_id <$> slot_tasks slot (ag_tasks self).

(** The work the state has admitted for it *)
Definition claimed (slot : Slot) (self : RunningAgentState) : list Z :=
  match slot with
  | SlotBase => match ag_base self with Preparing w | Building w _ _ | BaseStopping w => [w] | _ => [] end
  | SlotTransition id =>
    match ag_instances self !! id with
    | Some (StartingInstance starting) => if retrying (StartingInstance starting) then [] else [si_work_id starting]
    | Some (RunningInstance instance) => option_list (wk_id <$> ri_work instance)
    | None => []
    end
  | SlotSecrets id => option_list (running_instance self id ≫= λ instance, rs_active_work_id (ri_runtime_secrets instance))
  | SlotInputs id => option_list (running_instance self id ≫= λ instance, rs_active_work_id (ri_host_inputs instance))
  | SlotSession id => option_list (running_instance self id ≫= λ instance, fs_work_id <$> ri_session instance)
  end.

Lemma does_work_id id work task : does id work task → task_work_id task = wk_id work.
Proof. by destruct 1. Qed.

Lemma cleans_work_id id rc work task : cleans id rc work task → task_work_id task = wk_id work.
Proof. intros (_ & _ & _ & [(?&?&?&->&->&_)|(?&?&?&->&->&_)]); done. Qed.

Lemma exclusive slot self : protocol_ok (protocol self) → in_flight slot self = claimed slot self.
Proof.
  intros [Hbase Hinst]. unfold in_flight, claimed, running_instance. destruct slot as [|id|id|id|id].
  { cbn [protocol pr_base pr_tasks] in Hbase. destruct (ag_base self); cbn [base_ok] in Hbase;
      repeat match type of Hbase with ex _ => let x := fresh in destruct Hbase as [x Hbase] | _ ∧ _ => destruct Hbase as [Hbase _] end;
      by rewrite Hbase. }
  all: specialize (Hinst id); rewrite lookup_claims in Hinst; cbn [pr_tasks protocol] in Hinst; unfold claims_at in Hinst;
    destruct (ag_instances self !! id) as [[starting|instance]|]; cbn in Hinst |- *; destruct Hinst as (Ht & Hs & Hi & Hn).
  all: try (by rewrite ?Ht, ?Hs, ?Hi, ?Hn).
  - destruct (bool_decide _); [by rewrite Ht|]. by destruct Ht as (doc0 & key & g & ->).
  - unfold work_ok in Ht. cbn in Ht. destruct (ri_work instance) as [work|]; [|by rewrite Ht].
    destruct Ht as (task & -> & [Hd|Hc]); cbn; [by rewrite (does_work_id _ _ _ Hd)|by rewrite (cleans_work_id _ _ _ _ Hc)].
  - destruct (rs_active_work_id (ri_runtime_secrets instance)); cbn in Hs; [|by rewrite Hs]. by destruct Hs as (? & ? & ? & ->).
  - destruct (rs_active_work_id (ri_host_inputs instance)); cbn in Hi; [|by rewrite Hi]. by destruct Hi as (? & ? & ? & ? & ? & ->).
  - destruct (ri_session instance); cbn in Hn; [|by rewrite Hn]. by destruct Hn as (? & ? & ? & ->).
Qed.

(** C9: What the state claims is exactly what is in flight, so no two tasks of a
    slot ever run. *)
Theorem tasks_exclusive self slot :
  reachable self → in_flight slot self = claimed slot self ∧ (length (in_flight slot self) <= 1)%nat.
Proof.
  intros Hok%reachable_ok. rewrite (exclusive slot self Hok). split; [done|].
  assert (Hopt : ∀ m : option Z, (length (option_list m) <= 1)%nat) by (intros [|]; cbn; lia).
  unfold claimed. destruct slot; repeat case_match; first [apply Hopt|cbn; lia].
Qed.

(** ** Cleanup *)
Definition instance_tasks (id : Z) (tasks : list Task) : list Task :=
  filter (λ task, task_slot task ≫= slot_instance = Some id) tasks.

Lemma instance_tasks_alone id tasks :
  slot_tasks (SlotSecrets id) tasks = [] → slot_tasks (SlotInputs id) tasks = [] → slot_tasks (SlotSession id) tasks = [] →
  instance_tasks id tasks = slot_tasks (SlotTransition id) tasks.
Proof.
  unfold instance_tasks. induction tasks as [|task tasks IH]; [done|]. rewrite !slot_tasks_cons, filter_cons.
  intros Hs Hi Hn. repeat case_decide; simplify_eq; try (by f_equal; apply IH); try (by apply IH).
  - destruct (task_slot task) as [[]|] eqn:?; cbn in *; simplify_eq; congruence.
  - destruct (task_slot task) as [[]|] eqn:?; cbn in *; simplify_eq; congruence.
Qed.

(** What justifies the removal of an instance *)
Definition cleanup_phase (task : Task) : option (Z * AgentInstancePhase) :=
  match task with
  | StopInstanceForDelete _ _ id _ => Some (id, Deleting)
  | RemoveInstanceFiles _ id _ => Some (id, Deleted)
  | _ => None
  end.

(** C7: A task that stops or removes a deleted instance is the only task of that
    instance, and the phase that justifies it was saved. *)
Theorem cleanup_alone self task id phase :
  reachable self → task ∈ ag_tasks self → cleanup_phase task = Some (id, phase) →
  instance_tasks id (ag_tasks self) = [task] ∧
  ∃ instance, running_instance self id = Some instance ∧ is_phase (status instance) = phase ∧
    (λ document, is_phase (id_status document)) <$> persisted (ri_documents instance) = Some phase.
Proof.
  intros Hok%reachable_ok (l & r & Ht)%list_elem_of_split Hphase.
  destruct (transition_running self l r task Hok Ht id) as (instance & work & Hi & Hw & Hdo); [by destruct task; simplify_eq/=|by destruct task|].
  assert (Hc : cleans id (running_claims instance) work task) by (destruct Hdo as [Hd|Hc]; [by destruct Hd|done]).
  pose proof Hi as Hat. apply running_instance_some in Hat. pose proof (claim_at self l r task Hok Ht id) as Hclaim.
  rewrite Hat in Hclaim. destruct Hclaim as (Hwork & Hs & Hin & Hn). cbn [rc_secrets rc_inputs rc_session running_claims] in Hs, Hin, Hn.
  destruct Hc as (Hrs & Hri & Hrn & Hcase). cbn in Hrs, Hri, Hrn. rewrite Hrs in Hs. rewrite Hri in Hin. rewrite Hrn in Hn. split.
  - rewrite Ht, instance_tasks_alone by done. unfold work_ok in Hwork. cbn [rc_work running_claims] in Hwork. rewrite Hw in Hwork.
    destruct Hwork as (t0 & Honly & _). rewrite Honly. f_equal.
    apply slot_tasks_only in Honly as [? _]; [done|]. by destruct task; simplify_eq/=.
  - exists instance. split; [done|].
    destruct Hcase as [(c & d & w & -> & -> & Hp & Hsaved)|(w & g & agent & -> & -> & Hp & Hsaved)]; simplify_eq/=; done.
Qed.
End safety.
