(* ===== verification/AgentCommit.v ===== *)
(** * What a commit promises: answers after the save, and what they report

    A request is answered with the document that was saved, never with one that
    was not; and a document that says it has converged has. *)
From S2P Require Import Prelude Text Ordered Fields BootRun AgentDocument AgentState AgentRuntime AgentHandlers.
From S2P Require Import AgentReconcile AgentLoop AgentProtocol AgentInvariant AgentRefine AgentSim AgentStep AgentCorrect.
Local Open Scope Z_scope.

Section effects.
Context `{ManifestRules}.

(** ** The effects an operation adds *)
Definition adds (P : Effect → Prop) (self self' : RunningAgentState) : Prop :=
  ∃ effects, ag_effects self' = effects ++ ag_effects self ∧ Forall P effects.

#[global] Instance adds_preorder P : PreOrder (adds P).
Proof.
  split; [by exists []|]. intros s1 s2 s3 (e1 & Heq1 & H1) (e2 & Heq2 & H2).
  exists (e2 ++ e1). rewrite Heq2, Heq1, app_assoc. split; [done|]. by apply Forall_app.
Qed.

Lemma adds_effect P e self : P e → adds P self (effect e self).
Proof. intros He. exists [e]. split; [done|]. by constructor. Qed.

Lemma adds_effects {A} P (f : A → Effect) l self :
  Forall (λ x, P (f x)) l → adds P self (foldl (λ self x, effect (f x) self) self l).
Proof.
  intros Hl. revert self. induction Hl as [|x l Hx _ IH]; intros self; cbn [foldl]; [reflexivity|].
  etrans; [by apply adds_effect|apply IH].
Qed.

Lemma adds_unique P self self' effects :
  adds P self self' → ag_effects self' = effects ++ ag_effects self → Forall P effects.
Proof. intros (e & -> & He) Heq. by apply app_inv_tail in Heq as ->. Qed.

Context (env : Env).

Lemma adds_publish P item self : (∀ items, P (SentStream items item)) → adds P self (publish env item self).
Proof.
  intros HP. unfold publish. etrans; [apply (adds_effects P (λ items, SentStream items item))|].
  - by apply Forall_true.
  - exists []. done.
Qed.

Lemma adds_emit P source event self :
  (∀ items envelope, P (SentStream items (StreamEvent envelope))) → (∀ envelope, P (AppendedEvent envelope)) →
  adds P self (emit env source event self).
Proof.
  intros Hs Ha. unfold emit. set (envelope := Build_AgentEventEnvelope _ _ _ _ _).
  assert (Hone : ∀ s, adds P s (publish env (StreamEvent envelope) s)) by (intros s; by apply adds_publish).
  destruct event; try reflexivity; (etrans; [|apply Hone]); exists [AppendedEvent envelope]; (split; [done|by constructor]).
Qed.

(** ** Saving *)
Definition instances_saved (ids : list Z) (self : RunningAgentState) : Prop :=
  ∀ id instance, id ∈ ids → running_instance self id = Some instance → persisted (ri_documents instance) = Some (doc instance).

(** Every document of the agent is on disk. *)
Definition saved (self : RunningAgentState) : Prop :=
  agent_persisted (ag_documents self) = Some (document self) ∧
  ∀ id instance, running_instance self id = Some instance → persisted (ri_documents instance) = Some (doc instance).

(** What is shown is what is worked on, redacted. *)
Definition shows (self : RunningAgentState) : Prop :=
  agent_public (ag_documents self) = redact_agent (document self) ∧
  ∀ id instance, running_instance self id = Some instance →
    public (ri_documents instance) = (doc instance) <| id_status ::= redact |>.

Lemma write_shows document self : shows (write_documents document self).
Proof.
  split; [done|]. intros id instance Hi%running_instance_some. cbn in Hi. rewrite lookup_fmap in Hi.
  apply fmap_Some in Hi as ([starting|instance0] & _ & [= ->]). done.
Qed.

(** A document is saved, or nothing is done. *)
Lemma persist_instance_spec id self :
  match persist_instance env id self with
  | (Ret _, self') =>
    adds (λ e, ∃ id document, e = SavedInstance id document) self self' ∧ ag_documents self' = ag_documents self ∧
    instances_saved [id] self' ∧ (∀ ids, instances_saved ids self → instances_saved ids self') ∧ (shows self → shows self') ∧
    ag_pending_responses self' = ag_pending_responses self ∧ (∀ j, is_Some (running_instance self' j) → is_Some (running_instance self j))
  | (Fail error, self') => write_error env (Some id) = Some error ∧ self' = self
  | _ => False
  end.
Proof.
  unfold persist_instance. destruct (running_instance self id) as [instance|] eqn:Hi.
  2:{ split_and!; try done. intros j instance ->%list_elem_of_singleton. congruence. }
  unfold instance_dirty. case_bool_decide as Hdirty; cbn [negb].
  - destruct (write_error env (Some id)) eqn:Hw; [done|]. set (self1 := effect _ self).
    rewrite (update_instance_some self1 id _ instance Hi).
    assert (Hrun : ∀ j, running_instance (set_instance id (instance <| ri_documents; persisted := Some (doc instance) |>) self1) j =
      if decide (j = id) then Some (instance <| ri_documents; persisted := Some (doc instance) |>) else running_instance self j).
    { intros j. by rewrite (running_set_instance self1 id instance _ j Hi). }
    split_and!; try done.
    + exists [SavedInstance id (doc instance)]. split; [done|]. constructor; [by eauto|done].
    + intros j k ->%list_elem_of_singleton. rewrite Hrun, decide_True by done. by intros [= <-].
    + intros ids Hids j k Hj. rewrite Hrun. case_decide; [by intros [= <-]|by apply Hids].
    + intros [? Hshow]. split; [done|]. intros j k. rewrite Hrun. case_decide; [|apply Hshow].
      intros [= <-]. apply (Hshow id _ Hi).
    + intros j. rewrite Hrun. case_decide; [subst; eauto|done].
  - split_and!; try done. intros j k ->%list_elem_of_singleton Hk. by simplify_eq.
Qed.

Lemma instances_saved_cons id ids self : instances_saved [id] self → instances_saved ids self → instances_saved (id :: ids) self.
Proof.
  intros H1 H2 j instance [->|Hj]%elem_of_cons; [apply H1; by apply list_elem_of_singleton|by apply H2].
Qed.

(** Either every instance is saved, or a write failed. *)
Lemma persist_instances_spec ids self :
  match persist_instances env ids self with
  | (Ret _, self') =>
    adds (λ e, ∃ id document, e = SavedInstance id document) self self' ∧ ag_documents self' = ag_documents self ∧
    instances_saved ids self' ∧ (∀ ids', instances_saved ids' self → instances_saved ids' self') ∧ (shows self → shows self') ∧
    ag_pending_responses self' = ag_pending_responses self ∧ (∀ j, is_Some (running_instance self' j) → is_Some (running_instance self j))
  | (Fail error, self') =>
    (∃ id, write_error env (Some id) = Some error) ∧ adds (λ e, ∃ id document, e = SavedInstance id document) self self' ∧
    ag_pending_responses self' = ag_pending_responses self
  | _ => False
  end.
Proof.
  revert self. induction ids as [|id ids IH]; intros self; cbn [persist_instances].
  { cbn. split_and!; try done. intros j instance []%not_elem_of_nil. }
  unfold mbind, stm_bind. pose proof (persist_instance_spec id self) as Hone.
  destruct (persist_instance env id self) as [[[]|error| |] self1]; [|destruct Hone as [? ->]; split_and!; [by eauto|reflexivity|done]|done..].
  destruct Hone as (Ha & Hd & Hsaved & Hkeep & Hshow & Hpend & Hdom). specialize (IH self1).
  destruct (persist_instances env ids self1) as [[[]|error| |] self2]; [| |done..].
  - destruct IH as (Ha' & Hd' & Hsaved' & Hkeep' & Hshow' & Hpend' & Hdom').
    split_and!; [by etrans|congruence|apply instances_saved_cons; auto|auto|auto|congruence|auto].
  - destruct IH as (? & Ha' & Hpend'). split_and!; [done|by etrans|congruence].
Qed.

Lemma persist_spec self :
  match persist_to env self with
  | (Ret _, self') =>
    adds (λ e, (∃ document, e = SavedAgent document) ∨ ∃ id document, e = SavedInstance id document) self self' ∧
    saved self' ∧ (shows self → shows self') ∧ ag_pending_responses self' = ag_pending_responses self ∧ document self' = document self
  | (Fail error, self') =>
    (∃ id, write_error env id = Some error) ∧
    adds (λ e, (∃ document, e = SavedAgent document) ∨ ∃ id document, e = SavedInstance id document) self self' ∧
    ag_pending_responses self' = ag_pending_responses self
  | _ => False
  end.
Proof.
  unfold persist_to, mbind, stm_bind.
  assert (Hmono : ∀ s s', adds (λ e, ∃ id document, e = SavedInstance id document) s s' →
    adds (λ e, (∃ document, e = SavedAgent document) ∨ ∃ id document, e = SavedInstance id document) s s').
  { intros s s' (es & Heq & Hes). exists es. split; [done|]. eapply Forall_impl; [exact Hes|]. by right. }
  assert (Hagent : match persist_agent env self with
    | (Ret _, self') => adds (λ e, (∃ document, e = SavedAgent document) ∨ ∃ id document, e = SavedInstance id document) self self' ∧
        agent_persisted (ag_documents self') = Some (document self') ∧ ag_instances self' = ag_instances self ∧ (shows self → shows self') ∧
        ag_pending_responses self' = ag_pending_responses self ∧ document self' = document self
    | (Fail error, self') => write_error env None = Some error ∧ self' = self
    | _ => False end).
  { unfold persist_agent, agent_dirty. case_bool_decide as Hdirty; cbn [negb].
    - destruct (write_error env None); [done|]. split_and!; try done.
      exists [SavedAgent (document self)]. split; [done|]. constructor; [by eauto|done].
    - split_and!; try done; reflexivity. }
  destruct (persist_agent env self) as [[[]|error| |] self1]; [|destruct Hagent as [? ->]; split_and!; [by eauto|reflexivity|done]|done..].
  destruct Hagent as (Ha & Hp & Hi & Hshow & Hpend & Hdoc). pose proof (persist_instances_spec (instance_ids self) self1) as Hs.
  cbn beta iota. destruct (persist_instances env (instance_ids self) self1) as [[[]|error| |] self2]; [| |done..].
  - destruct Hs as (Ha' & Hd' & Hsaved & _ & Hshow' & Hpend' & Hdom).
    assert (Hdoc' : document self2 = document self1) by (unfold document; congruence).
    split_and!; [etrans; [exact Ha|by apply Hmono]| |auto|congruence|congruence].
    split; [congruence|]. intros id instance Hid. apply (Hsaved id); [|done].
    destruct (Hdom id) as [instance1 Hid1%running_instance_some]; [by eauto|]. apply instance_ids_spec. rewrite <-Hi. eauto.
  - destruct Hs as ([id Hw] & Ha' & Hpend'). split_and!; [by eauto|etrans; [exact Ha|by apply Hmono]|congruence].
Qed.

(** ** Answers *)
(** A successful answer carries the saved document, redacted. *)
Definition answer_ok (self : RunningAgentState) (e : Effect) : Prop :=
  match e with
  | SentDocument _ (inl sent) | SentStream _ (StreamDocument sent) =>
    agent_persisted (ag_documents self) = Some (document self) ∧ sent = redact_agent (document self)
  | SentInstance _ (inl sent) =>
    ∃ id instance, running_instance self id = Some instance ∧ persisted (ri_documents instance) = Some (doc instance) ∧
      sent = (doc instance) <| id_status ::= redact |>
  | _ => True
  end.

(** Nobody is told that anything has succeeded. *)
Definition refused (e : Effect) : Prop :=
  match e with
  | SentDocument _ (inl _) | SentInstance _ (inl _) | SentItems _ (inl _) | SentOpened _ (inl _)
  | SentStream _ (StreamDocument _) => False
  | _ => True
  end.

Lemma answer_ok_frame self self' e : frame self self' → answer_ok self e → answer_ok self' e.
Proof.
  intros (_ & Hi & _ & Hd). unfold answer_ok, document, running_instance. by rewrite Hi, Hd.
Qed.

Lemma answers_adds (P : Effect → Prop) error self :
  (∀ response s, frame self s → adds P s (answer_response error response s)) → adds P self (answer_pending_responses error self).
Proof.
  intros Hone. unfold answer_pending_responses. set (self0 := self <| ag_pending_responses := [] |>).
  assert (Hf : frame self self0) by done. assert (Ha : adds P self self0) by by exists []. etrans; [exact Ha|]. clear Ha.
  clearbody self0. generalize (ag_pending_responses self). intros responses. revert self0 Hf.
  induction responses as [|response responses IH]; intros self0 Hf; cbn [foldl]; [reflexivity|].
  etrans; [by apply Hone|]. apply IH. etrans; [exact Hf|]. apply frame_answer.
Qed.

Lemma no_pending error self : ag_pending_responses (answer_pending_responses error self) = [].
Proof.
  unfold answer_pending_responses. set (self0 := self <| ag_pending_responses := [] |>).
  assert (Hnone : ag_pending_responses self0 = []) by done. clearbody self0. revert self0 Hnone.
  induction (ag_pending_responses self) as [|response responses IH]; intros self0 Hnone; cbn [foldl]; [done|]. apply IH.
  destruct response as [respond|id respond|respond|replay items respond]; cbn; try done.
  assert (Hstream : ∀ l s, ag_pending_responses (foldl (λ self event, effect (SentStream items (StreamEvent event)) self) s l) =
    ag_pending_responses s) by (induction l as [|event l IHl]; intros s; cbn [foldl]; [done|by rewrite IHl]).
  case_bool_decide; destruct respond, replay; cbn; rewrite ?Hstream; done.
Qed.

(** When everything is saved, the answers carry what was saved. *)
Lemma answer_saved self response s :
  shows self → agent_persisted (ag_documents self) = Some (document self) →
  (∀ id instance, running_instance self id = Some instance → persisted (ri_documents instance) = Some (doc instance)) →
  frame self s → adds (answer_ok self) s (answer_response None response s).
Proof.
  intros [Hpublic Hinstances] Hagent Hsaved (_ & Hi & _ & Hd).
  assert (Hdocument : answer_ok self (SentDocument 0 (inl (agent_public (ag_documents s))))) by (by rewrite Hd).
  destruct response as [respond|id respond|respond|replay items respond]; cbn [answer_response].
  - by apply adds_effect.
  - apply adds_effect. cbn. unfold instance_document, running_instance. rewrite Hi.
    destruct (ag_instances self !! id ≫= running_ref) as [instance|] eqn:Hid; [|done].
    exists id, instance. split_and!; [done|by eapply Hsaved|by eapply Hinstances].
  - by apply adds_effect.
  - rewrite bool_decide_eq_true_2 by done. cbn [committed_result].
    assert (Hopen : adds (answer_ok self) s (open_stream replay items s)).
    { unfold open_stream. set (s1 := effect (SentStream items _) s).
      assert (H1 : adds (answer_ok self) s s1) by by apply adds_effect.
      destruct replay as [g|]; [etrans; [exact H1|]|by exists [SentStream items (StreamDocument (agent_public (ag_documents s)))]; split; [|constructor]].
      destruct (adds_effects (answer_ok self) (λ event, SentStream items (StreamEvent event))
        (filter (λ event, g <= ae_generation event) (ag_recent_events s1)) s1) as (es & Heq & Hes); [by apply Forall_true|].
      by exists es. }
    destruct respond; [etrans; [exact Hopen|by apply adds_effect]|done].
Qed.

Lemma answer_refused self error response : adds refused self (answer_response (Some error) response self).
Proof.
  destruct response as [respond|id respond|respond|replay items respond]; cbn [answer_response committed_result];
    try by apply adds_effect.
  rewrite bool_decide_eq_false_2 by done. destruct respond; [by apply adds_effect|reflexivity].
Qed.

Lemma publish_adds changed self :
  saved self → shows self → adds (answer_ok self) self (publish_document env changed self).
Proof.
  intros [Hagent Hsaved] Hshows. unfold publish_document.
  set (self1 := if changed then _ else self).
  assert (H1 : adds (answer_ok self) self self1 ∧ frame self self1).
  { unfold self1. destruct changed; [|split; [reflexivity|done]]. split.
    - etrans; [|by apply adds_emit]. apply adds_publish. intros items. split; [done|]. apply Hshows.
    - etrans; [apply frame_publish|apply frame_emit]. }
  destruct H1 as [Ha Hf]. etrans; [exact Ha|]. apply answers_adds. intros response s Hs.
  apply answer_saved; [done..|]. by etrans.
Qed.

Lemma write_effects document self : ag_effects (write_documents document self) = ag_effects self.
Proof. done. Qed.

Lemma deleted_empty document self :
  as_deleted (ad_status (AgentState.document (write_documents document self))) = true → ag_instances (write_documents document self) = ∅.
Proof.
  intros Hdel. change (deletion_requested document && bool_decide (ag_instances (write_documents document self) = ∅)
    && base_released (ag_base self) = true) in Hdel.
  rewrite !andb_true_iff in Hdel. by destruct Hdel as [[_ Hempty%bool_decide_eq_true] _].
Qed.

Lemma frame_saved self self' : frame self self' → saved self → saved self'.
Proof. intros (_ & Hi & _ & Hd). unfold saved, document, running_instance. by rewrite Hi, Hd. Qed.

Lemma frame_shows self self' : frame self self' → shows self → shows self'.
Proof. intros (_ & Hi & _ & Hd). unfold shows, document, running_instance. by rewrite Hi, Hd. Qed.

(** The end of a commit that succeeds *)
Lemma publish_ok changed self1 self effects :
  saved self → shows self → adds (answer_ok self) self1 self →
  ag_effects (publish_document env changed self) = effects ++ ag_effects self1 →
  let self' := publish_document env changed self in
  ag_pending_responses self' = [] ∧
  ((saved self' ∧ shows self' ∧ Forall (answer_ok self') effects) ∨
   ((∃ id error, write_error env id = Some error) ∧ Forall refused effects)).
Proof.
  intros Hsaved Hshows Ha Heq self'. pose proof (frame_publish_document env changed self) as Hf.
  split; [apply no_pending|]. left. split_and!; [by eapply frame_saved|by eapply frame_shows|].
  assert (Hall : Forall (answer_ok self) effects).
  { eapply adds_unique; [|exact Heq]. etrans; [exact Ha|]. by apply publish_adds. }
  eapply Forall_impl; [exact Hall|]. intros e. by apply answer_ok_frame.
Qed.

(** The commit of documents that were just written *)
Lemma commit_written self1 effects :
  shows self1 → (as_deleted (ad_status (document self1)) = true → ag_instances self1 = ∅) →
  let self' := commit_documents env self1 in
  ag_effects self' = effects ++ ag_effects self1 →
  ag_pending_responses self' = [] ∧
  ((saved self' ∧ shows self' ∧ Forall (answer_ok self') effects) ∨
   ((∃ id error, write_error env id = Some error) ∧ Forall refused effects)).
Proof.
  intros Hshows Hempty self' Heq. unfold self', commit_documents in *. clear self'.
  set (document_changed := agent_dirty (ag_documents self1)) in *.
  destruct (as_deleted (ad_status (document self1))) eqn:Hdel.
  - set (self2 := effect RemovedAgentDirectory self1 <| ag_documents; agent_persisted := Some (document self1) |>) in *.
    assert (Hnone : ∀ id, running_instance self2 id = None).
    { intros id. unfold running_instance. change (ag_instances self2) with (ag_instances self1).
      assert (ag_instances self1 = ∅) as -> by exact (Hempty eq_refl). by rewrite lookup_empty. }
    assert (Hsaved2 : saved self2) by (split; [done|]; intros id instance; by rewrite Hnone).
    assert (Hshows2 : shows self2) by (split; [apply Hshows|]; intros id instance; by rewrite Hnone).
    assert (Ha : adds (answer_ok self2) self1 self2) by (exists [RemovedAgentDirectory]; split; [done|by constructor]).
    by eapply (publish_ok _ self1).
  - pose proof (persist_spec self1) as Hp. destruct (persist_to env self1) as [[[]|error| |] self2]; [| |done..].
    + destruct Hp as (Hsaves & Hsaved & Hkeep & _ & _). apply (publish_ok _ self1); [done|by apply Hkeep| |done].
      destruct Hsaves as (es & Hes & Hall). exists es. split; [done|]. eapply Forall_impl; [exact Hall|].
      by intros e [[document ->]|(id & document & ->)].
    + destruct Hp as ([id Hfail] & (es & Hes & Hall) & _). split; [apply no_pending|]. right. split; [by eauto|].
      eapply adds_unique; [|exact Heq]. etrans; [|etrans; [|apply answers_adds; intros; apply answer_refused]].
      * exists es. split; [done|]. eapply Forall_impl; [exact Hall|]. by intros e [[document ->]|(id' & document & ->)].
      * by apply adds_emit.
Qed.

#[local] Opaque commit_documents.

(** C20: A commit that succeeds leaves every document saved and every request
    answered with a saved document; one that fails answers nothing but errors,
    because a write failed. *)
Theorem commit_before_answer self effects :
  let self' := commit_state env self in
  ag_effects self' = effects ++ ag_effects self →
  ag_pending_responses self' = [] ∧
  ((saved self' ∧ shows self' ∧ Forall (answer_ok self') effects) ∨
   ((∃ id error, write_error env id = Some error) ∧ Forall refused effects)).
Proof.
  intros self' Heq. unfold self', commit_state in *. clear self'.
  rewrite <-(write_effects (document self) self) in Heq. by apply commit_written; [apply write_shows|apply deleted_empty|].
Qed.
End effects.
