(* ===== verification/AgentReport.v ===== *)
(** * What a published document tells its reader

    A document that says nothing is left to do has converged, and a client whose
    wait for a generation is answered has what it waited for
    (src/apps/agentdp-server/src/agent/documents.rs, wait.rs). *)
From S2P Require Import Prelude Text Ordered Fields BootRun AgentDocument AgentState AgentRuntime AgentHandlers.
From S2P Require Import AgentReconcile AgentLoop AgentRefine.
Local Open Scope Z_scope.

Section report.
Context `{ManifestRules}.

(** A counter saturates at the width of its type. *)
Lemma count_spec p l : count p l = Z.min u16_max (Z.of_nat (length (filter (λ instance, p instance = true) l))).
Proof.
  unfold count. assert (Hfrom : ∀ n, 0 <= n <= u16_max →
    foldl (λ n instance, if p instance then bump16 n else n) n l = Z.min u16_max (n + Z.of_nat (length (filter (λ instance, p instance = true) l)))).
  { induction l as [|instance l IH]; intros n Hn; cbn [foldl]; [cbn; lia|]. rewrite filter_cons.
    destruct (p instance); [rewrite decide_True by done|rewrite decide_False by done].
    - rewrite IH by (unfold bump16; lia). cbn [length]. unfold bump16. lia.
    - by apply IH. }
  rewrite Hfrom; [done|]. unfold u16_max. lia.
Qed.

(** The running instances of which something holds *)
Definition number (p : RunningAgentInstanceState → bool) (self : RunningAgentState) : Z :=
  Z.of_nat (size (filter (λ entry, p entry.2 = true) (omap running_ref (ag_instances self)))).

Definition is_running (instance : RunningAgentInstanceState) : bool := bool_decide (is_phase (status instance) = Running).

(** An instance that serves a generation *)
Definition instance_ready (gen : Z) (instance : RunningAgentInstanceState) : bool :=
  bool_decide (sp_target (spec instance) = TargetActive)
  && (is_observed_generation (status instance) =? gen)
  && readiness_ready (status instance)
  && is_ready_for (is_host_inputs (status instance)) gen.

(** Nothing is left to do for an instance. *)
Definition settled_for (gen : Z) (state : AgentInstanceState) : Prop :=
  ∃ instance, state = RunningInstance instance ∧ is_observed_generation (status instance) = gen ∧
    (sp_target (spec instance) = TargetActive → is_ready_for (is_host_inputs (status instance)) gen = true).

Lemma instance_observed_spec gen state : instance_observed gen state = true ↔ settled_for gen state.
Proof.
  unfold settled_for. destruct state as [starting|instance]; cbn; [split; [done|by intros (? & ? & _)]|].
  rewrite andb_true_iff, orb_true_iff, Z.eqb_eq, negb_true_iff, bool_decide_eq_false. split.
  - intros [Hg Hin]. exists instance. split_and!; [done..|]. intros Ht. by destruct Hin.
  - intros (? & [= <-] & Hg & Hin). split; [done|]. destruct (decide (sp_target (spec instance) = TargetActive)); auto.
Qed.

(** The public documents are those just written. *)
Lemma number_public document self p q :
  (∀ instance, public (ri_documents instance) = (doc instance) <| id_status ::= redact |> → p instance = q instance) →
  number p (write_documents document self) = number q (write_documents document self).
Proof.
  intros Hpq. unfold number. do 2 f_equal. apply map_filter_ext. intros id instance Hi.
  rewrite lookup_omap in Hi. cbn in Hi. rewrite lookup_fmap in Hi.
  destruct (ag_instances self !! id) as [[starting|instance0]|]; cbn in Hi; try done. injection Hi as <-.
  cbn [snd]. by rewrite Hpq.
Qed.

(** A counter of the loop over the documents just written *)
Lemma count_number document self p q :
  (∀ instance, public (ri_documents instance) = (doc instance) <| id_status ::= redact |> → p instance = q instance) →
  count p (entries_sorted (omap running_ref (ag_instances (write_documents document self)))).*2 =
  Z.min u16_max (number q (write_documents document self)).
Proof. intros Hpq. rewrite <-(number_public document self p q Hpq), count_spec, length_filter_entries. done. Qed.

Lemma number_none p self : number p self = 0 ↔ ∀ id instance, running_instance self id = Some instance → p instance = false.
Proof.
  unfold number. rewrite <-Nat2Z.inj_0, Nat2Z.inj_iff, map_size_empty_iff. split.
  - intros Hempty id instance Hi. destruct (p instance) eqn:Hp; [exfalso|done].
    assert (Hin : filter (λ entry, p entry.2 = true) (omap running_ref (ag_instances self)) !! id = Some instance).
    { apply map_lookup_filter_Some. split; [by rewrite lookup_omap|done]. }
    by rewrite Hempty, lookup_empty in Hin.
  - intros Hall. apply map_empty. intros id. apply map_lookup_filter_None. right. intros instance Hi. cbn.
    rewrite lookup_omap in Hi. by rewrite (Hall id instance Hi).
Qed.

Lemma number_saturates p self : Z.min u16_max (number p self) = 0 ↔ number p self = 0.
Proof. unfold number, u16_max. lia. Qed.

(** The counters of the status *)
Lemma written_replicas document self :
  let self' := write_documents document self in
  as_replicas (ad_status (AgentState.document self')) = {|
    rs_desired := replicas document;
    rs_ready := Z.min u16_max (number (instance_ready (generation document)) self');
    rs_active := Z.min u16_max (number is_running self');
    rs_stopped := Z.min u16_max (number (λ instance, negb (is_running instance)) self');
    rs_deleting := Z.min u16_max (number (λ instance, is_cleanup_phase (is_phase (status instance))) self') |}.
Proof.
  intros self'. unfold self'. clear self'.
  rewrite <-(count_number document self (is_ready_instance (generation document)) (instance_ready (generation document))),
    <-(count_number document self (λ instance, bool_decide (is_phase (public_status instance) = Running)) is_running),
    <-(count_number document self (λ instance, negb (bool_decide (is_phase (public_status instance) = Running)))),
    <-(count_number document self (λ instance, is_cleanup_phase (is_phase (public_status instance)))).
  - cbn. f_equal. match goal with |- context [if ?b then mark_observed_generation_if_changed _ else _] => destruct b end; [|done].
    unfold mark_observed_generation_if_changed. by destruct (_ =? _).
  - intros instance Hp. unfold public_status. by rewrite Hp.
  - intros instance Hp. unfold public_status. by rewrite Hp.
  - intros instance Hp. unfold public_status, is_running. by rewrite Hp.
  - intros instance Hp. unfold is_ready_instance, public_status. by rewrite Hp.
Qed.

Lemma written_observed document self id state :
  ag_instances (write_documents document self) !! id = Some state →
  ∃ state0, ag_instances self !! id = Some state0 ∧ state = write_running state0.
Proof. cbn. rewrite lookup_fmap. intros (state0 & -> & Hi)%fmap_Some. eauto. Qed.

(** A document that says it has nothing left to do has converged. *)
Definition converged (document : AgentDocument) (self : RunningAgentState) : Prop :=
  (deletion_requested document = true ∧ ag_instances self = ∅ ∧ base_released (ag_base self) = true) ∨
  ((∀ id state, ag_instances self !! id = Some state → settled_for (generation document) state) ∧
   (((phase document = PhasePaused ∨ replicas document = 0) ∧
     ∀ id instance, running_instance self id = Some instance →
       is_phase (status instance) ≠ Running ∧ is_cleanup_phase (is_phase (status instance)) = false) ∨
    (deletion_requested document = false ∧ phase document = PhaseRunning ∧
     Z.min u16_max (number is_running self) = replicas document ∧
     ready_agent_base_key document = desired_agent_base_key document))).

Lemma written_document document self :
  let d := AgentState.document (write_documents document self) in
  ad_metadata d = ad_metadata document ∧ ad_spec d = ad_spec document ∧
  as_agent_base (ad_status d) = as_agent_base (ad_status document).
Proof.
  cbn. match goal with |- context [if ?b then mark_observed_generation_if_changed _ else _] => destruct b end; [|done].
  unfold mark_observed_generation_if_changed. by destruct (_ =? _).
Qed.

Lemma converged_written document self self' :
  converged (AgentState.document (write_documents document self)) self' ↔ converged document self'.
Proof.
  destruct (written_document document self) as (Hm & Hs & Hb). unfold converged, generation, deletion_requested, phase, replicas,
    ready_agent_base_key, desired_agent_base_key. by rewrite Hm, Hs, Hb.
Qed.

(** The status says that nothing is left to do exactly when the agent has
    converged. *)
Theorem converged_exact document self :
  let self' := write_documents document self in
  as_reconciling (ad_status (AgentState.document self')) = false ↔ converged (AgentState.document self') self'.
Proof.
  intros self'. unfold self'. rewrite converged_written.
  change (as_reconciling (ad_status (AgentState.document (write_documents document self)))) with
    (let values := (entries_sorted (omap running_ref (ag_instances (write_documents document self)))).*2 in
     let active := count (λ instance, bool_decide (is_phase (public_status instance) = Running)) values in
     let deleting := count (λ instance, is_cleanup_phase (is_phase (public_status instance))) values in
     let observed := bool_decide (map_Forall (λ _ state, instance_observed (generation document) state = true)
                                    (ag_instances (write_documents document self))) in
     negb ((deletion_requested document && bool_decide (ag_instances (write_documents document self) = ∅) && base_released (ag_base self))
       || ((bool_decide (phase document = PhasePaused) || (replicas document =? 0)) && (active =? 0) && (deleting =? 0) && observed)
       || (negb (deletion_requested document) && bool_decide (phase document = PhaseRunning) && (active =? replicas document)
           && bool_decide (ready_agent_base_key document = desired_agent_base_key document) && observed))).
  cbn zeta. rewrite (count_number document self _ is_running), (count_number document self _ (λ instance, is_cleanup_phase (is_phase (status instance))));
    [|intros instance Hp; unfold public_status, is_running; by rewrite Hp..].
  unfold converged. rewrite negb_false_iff, !orb_true_iff, !andb_true_iff, !orb_true_iff, !negb_true_iff, !bool_decide_eq_true, !Z.eqb_eq.
  unfold map_Forall. setoid_rewrite instance_observed_spec. rewrite !number_saturates, !number_none.
  change (ag_base (write_documents document self)) with (ag_base self).
  split.
  - intros [[[[Hd He] Hb]|[[[Hp Ha] Hdel] Hall]]|[[[[Hd Hp] Ha] Hb] Hall]].
    + by left.
    + right. split; [done|]. left. split; [done|]. intros id instance Hi. split; [|by eapply Hdel].
      specialize (Ha id instance Hi). by apply bool_decide_eq_false in Ha.
    + right. split; [done|]. by right.
  - intros [(Hd & He & Hb)|[Hall [[Hp Hi]|(Hd & Hp & Ha & Hb)]]].
    + left. by left.
    + left. right. split_and!; [done| | |done].
      * intros id instance Hid. apply bool_decide_eq_false. by apply (Hi id instance Hid).
      * intros id instance Hid. by apply (Hi id instance Hid).
    + by right.
Qed.

(** ** Waiting *)
(** A wait is answered for the generation it asks for, and no other. *)
Lemma wait_satisfied document gen condition :
  wait_status document gen condition = Satisfied ↔ generation document = gen ∧ condition_satisfied document gen condition = true.
Proof.
  unfold wait_status. destruct (Z.ltb_spec gen (generation document)); [split; [done|lia]|].
  destruct (Z.ltb_spec (generation document) gen); [split; [done|lia]|].
  destruct (condition_satisfied document gen condition); [split; [|done]; lia|].
  split; [by repeat case_match|by intros []].
Qed.

Lemma public_ready document gen :
  wait_status (redact_agent document) gen WaitReady = Satisfied ↔
  generation document = gen ∧ rs_ready (as_replicas (ad_status document)) = rs_desired (as_replicas (ad_status document)) ∧
  (as_observed_generation (ad_status document) = gen ∧ as_reconciling (ad_status document) = false).
Proof.
  rewrite wait_satisfied. unfold condition_satisfied. rewrite !andb_true_iff, !Z.eqb_eq, negb_true_iff.
  change (generation (redact_agent document)) with (generation document). cbn. tauto.
Qed.

Lemma write_public document self :
  agent_public (ag_documents (write_documents document self)) = redact_agent (AgentState.document (write_documents document self)).
Proof. reflexivity. Qed.
#[local] Opaque write_documents.

(** A client that is told its generation is ready has as many ready instances as
    it asked for, and nothing else is going on. *)
Theorem ready_wait_holds document self gen :
  let self' := write_documents document self in
  wait_status (agent_public (ag_documents self')) gen WaitReady = Satisfied →
  generation document = gen ∧ converged document self' ∧
  Z.min u16_max (number (instance_ready gen) self') = replicas document.
Proof.
  intros self'. unfold self'. clear self'. rewrite write_public, public_ready. intros (Hg & Hready & _ & Hrec).
  destruct (written_document document self) as (Hm & _ & _). unfold generation in Hg. rewrite Hm in Hg.
  change (generation document = gen) in Hg. subst gen. split; [done|].
  rewrite written_replicas in Hready. split; [|exact Hready].
  rewrite <-(converged_written document self). by apply converged_exact.
Qed.
End report.
