(* ===== verification/AgentExample.v ===== *)
(** * An agent to try the theorems on

    One instance, no template: the smallest manifest there is.  The theorems
    about every reachable state are applied to states this agent reaches. *)
From S2P Require Import Prelude Text Ordered Fields BootRun AgentDocument AgentState AgentRuntime AgentHandlers.
From S2P Require Import AgentReconcile AgentLoop AgentProtocol AgentRefine AgentSafety AgentSecrecy AgentCommit AgentReport.
Local Open Scope Z_scope.

#[local] Instance unit_types : AgentTypes := {|
  AgentSpec := unit; BackendState := unit; TailscaleServeState := unit; HealthcheckPlan := unit;
  InstanceControl := unit; SeedFile := unit |}.
#[local] Instance unit_rules : ManifestRules := {|
  validate _ := []; network_ports _ := ∅; network_allow _ := AllowAll; same_mediated_auth_bindings _ _ := true |}.

Definition example_env : Env := {|
  clock := {| now := from_secs 100; unix_seconds := 100; rfc3339_utc_now := lit "1970-01-01T00:01:40Z" |};
  accepts _ _ := true; network_events _ := []; network_observation _ := None; write_error _ := None |}.

Definition example_manifest (replicas : Z) : AgentManifest := {|
  mf_api_version := AGENTDP_API_VERSION; mf_name := lit "demo";
  mf_spec := {| dep_phase := PhaseRunning; dep_replicas := replicas; dep_template := tt |} |}.

Definition example_base : AgentBaseStatus :=
  {| ab_desired_key := Some (lit "key"); ab_ready_key := Some (lit "key"); ab_phase := BaseReady; ab_message := None; ab_last_error := None |}.

(** The document of the agent on disk, with a generation and a request to delete it *)
Definition example_document (generation : Z) (deleting : bool) : AgentDocument := {|
  ad_api_version := AGENTDP_API_VERSION;
  ad_metadata := {| dm_name := lit "demo"; dm_generation := generation; dm_deletion_requested := deleting |};
  ad_spec := {| ds_source_manifest := lit "/demo.yaml"; ds_deployment := mf_spec (example_manifest 1) |};
  ad_status := {|
    as_observed_generation := 0; as_phase := StatusRunning;
    as_replicas := {| rs_desired := 1; rs_ready := 0; rs_active := 0; rs_stopped := 0; rs_deleting := 0 |};
    as_reconciling := true; as_deleted := false; as_agent_base := example_base; as_instances := ∅ |} |}.

Definition example_access : GuestAccessState := {| ga_user := lit "agent"; ga_private_key := lit "secret"; ga_public_key := lit "public" |}.

(** The document of its instance, in a phase *)
Definition example_instance (phase : AgentInstancePhase) : AgentInstanceDocument :=
  instance_document_new (lit "now") (lit "demo") 0 (lit "replica-0") 1 (lit "key") tt TargetActive phase
    {| nw_mode := ModeUser; nw_allow := StateAll; nw_ipv6_enabled := false; nw_ports := ∅; nw_runtime := None |}
    [] (Some example_access) tt.

Definition example_start (deleting : bool) (phase : AgentInstancePhase) : RunningAgentState :=
  start example_env (example_document 1 deleting) (Some {[0 := (example_instance phase, 1)]}) 1
    {| sa_agent := lit "demo"; sa_pending_streams := [(None, 7)] |}.

Definition example_next (self : RunningAgentState) : RunningAgentState := iteration example_env None self.

Lemma example_reachable deleting phase : reachable (example_start deleting phase).
Proof. exists (example_start deleting phase). split; [constructor|apply rtc_refl]. Qed.

Lemma example_next_reachable self : reachable self → reachable (example_next self).
Proof. intros (self0 & Hinit & Hsteps). exists self0. split; [done|]. eapply rtc_r; [done|constructor]. Qed.

(** The loop starts its instance. *)
Lemma loop_refines_protocol_witness :
  let self := example_start false Materialized in
  ag_tasks self = [] ∧ length (ag_tasks (example_next self)) = 1%nat ∧
  rtc protocol_step (protocol self) (protocol (example_next self)).
Proof.
  split; [reflexivity|]. split; [vm_compute; reflexivity|].
  apply loop_refines_protocol; [apply example_reachable|constructor].
Defined.

Lemma tasks_exclusive_witness :
  let self := example_next (example_start false Materialized) in
  claimed (SlotTransition 0) self = [3] ∧ in_flight (SlotTransition 0) self = claimed (SlotTransition 0) self.
Proof.
  split; [vm_compute; reflexivity|].
  apply tasks_exclusive. apply example_next_reachable, example_reachable.
Defined.

(** A deletion that was saved stops its instance. *)
Lemma cleanup_alone_witness :
  let self := example_next (example_start true Deleting) in
  let task := default (ShellCommand (example_instance Deleting) 0) (head (ag_tasks self)) in
  cleanup_phase task = Some (0, Deleting) ∧ instance_tasks 0 (ag_tasks self) = [task].
Proof.
  split; [vm_compute; reflexivity|]. eapply (cleanup_alone _ _ 0 Deleting).
  - apply example_next_reachable, example_reachable.
  - apply head_Some_elem_of. vm_compute. reflexivity.
  - vm_compute. reflexivity.
Defined.

(** The keys an agent has saved, and the documents it has streamed *)
Definition saved_keys (self : RunningAgentState) : list str :=
  omap (λ e, match e with
             | SavedInstance _ document => ga_private_key <$> is_guest_access (id_status document)
             | _ => None
             end) (ag_effects self).
Definition streamed (self : RunningAgentState) : list AgentDocument :=
  omap (λ e, match e with SentStream _ (StreamDocument document) => Some document | _ => None end) (ag_effects self).

(** The stream that was open is sent a document, without the key that is saved. *)
Lemma private_keys_stay_witness :
  let self := example_next (example_start false Materialized) in
  saved_keys self = [lit "secret"] ∧ length (streamed self) = 1%nat ∧ Forall redacted_effect (ag_effects self).
Proof.
  split; [vm_compute; reflexivity|]. split; [vm_compute; reflexivity|].
  apply private_keys_stay. apply example_next_reachable, example_reachable.
Defined.

(** The stream that waits at the start is opened after the first save. *)
Lemma commit_before_answer_witness :
  let self := example_start false Running in
  let self' := commit_state example_env self in
  ag_pending_responses self' = [] ∧ length (streamed self') = 1%nat ∧
  ((saved self' ∧ shows self' ∧ Forall (answer_ok self') (ag_effects self')) ∨
   ((∃ id error, write_error example_env id = Some error) ∧ Forall refused (ag_effects self'))).
Proof.
  assert (Heq : ag_effects (commit_state example_env (example_start false Running)) =
    ag_effects (commit_state example_env (example_start false Running)) ++ ag_effects (example_start false Running)).
  { by rewrite app_nil_r. }
  destruct (commit_before_answer example_env (example_start false Running) _ Heq) as [Hpending Hcommit].
  split; [exact Hpending|]. split; [vm_compute; reflexivity|exact Hcommit].
Defined.

(** An instance that serves generation 1 *)
Definition ready_instance : AgentInstanceDocument :=
  (example_instance Running)
    <| id_status; is_observed_generation := 1 |>
    <| id_status; is_host_inputs := inputs_mark_ready 1 host_inputs_default |>
    <| id_status ::= mark_ready (lit "now") {| rd_ready := true; rd_last_success_unix_seconds := 100;
                                            rd_result := {| rr_ready := true; rr_services := ∅; rr_healthchecks := [] |} |} |>.

Definition ready_agent : RunningAgentState :=
  (example_start false Running)
    <| ag_instances := {[0 := RunningInstance (running_instance_new (clock example_env) ready_instance None 1)]} |>.

Lemma ready_wait_holds_witness :
  wait_status (agent_public (ag_documents (write_documents (example_document 1 false) ready_agent))) 1 WaitReady = Satisfied ∧
  Z.min u16_max (number (instance_ready 1) (write_documents (example_document 1 false) ready_agent)) = 1.
Proof.
  assert (Hw : wait_status (agent_public (ag_documents (write_documents (example_document 1 false) ready_agent))) 1 WaitReady
    = Satisfied) by (vm_compute; reflexivity).
  split; [exact Hw|]. apply (ready_wait_holds (example_document 1 false) ready_agent 1 Hw).
Defined.
