(* ===== verification/Format.v ===== *)
(** * Rust's text formatting: numbers, letter case, lossy decoding

    What the manifest and the provisioning code print and scan with, over the
    strings of [Text]. *)
From S2P Require Import Prelude Text.
Local Open Scope Z_scope.

(** [`s`] in a message *)
Definition quoted (s : str) : str := [96] ++ s ++ [96].

(** ** [n.to_string()] and [format!("{n}")] of an unsigned integer

    Twenty digits are enough for 64 bits. *)
Fixpoint decimal_digits (fuel : nat) (v : Z) : str :=
  match fuel with
  | O => []
  | S fuel => (if v <? 10 then [] else decimal_digits fuel (v / 10)) ++ [48 + v mod 10]
  end.
Definition to_string (v : Z) : str := decimal_digits 20 v.

(** ** Character classes *)
Definition is_ascii_digit (c : Z) : bool := (48 <=? c) && (c <=? 57).
Definition is_ascii_alphabetic (c : Z) : bool := ((65 <=? c) && (c <=? 90)) || ((97 <=? c) && (c <=? 122)).
Definition is_ascii_alphanumeric (c : Z) : bool := is_ascii_alphabetic c || is_ascii_digit c.
Definition to_ascii_uppercase (c : Z) : Z := if (97 <=? c) && (c <=? 122) then c - 32 else c.

(** [s.bytes().take_while(p).count()] *)
Fixpoint count_while (p : Z → bool) (s : str) : nat :=
  match s with
  | [] => 0
  | c :: s => if p c then S (count_while p s) else 0
  end.

(** ** [String::from_utf8_lossy]

    A byte that cannot continue a sequence ends it: the bytes before it are
    replaced by U+FFFD, and decoding resumes at that byte. *)
Definition replacement_character : Z := 65533.

(** The second bytes the Unicode standard allows after a first byte *)
Definition second_of_three (b0 b1 : Z) : bool :=
  ((b0 =? 224) && (160 <=? b1) && (b1 <=? 191)) || ((225 <=? b0) && (b0 <=? 236) && continuation b1) ||
  ((b0 =? 237) && (128 <=? b1) && (b1 <=? 159)) || ((238 <=? b0) && (b0 <=? 239) && continuation b1).
Definition second_of_four (b0 b1 : Z) : bool :=
  ((b0 =? 240) && (144 <=? b1) && (b1 <=? 191)) || ((241 <=? b0) && (b0 <=? 243) && continuation b1) ||
  ((b0 =? 244) && (128 <=? b1) && (b1 <=? 143)).

Fixpoint from_utf8_lossy (l : bytes) : str :=
  match l with
  | [] => []
  | b0 :: l =>
    if b0 <? 128 then b0 :: from_utf8_lossy l
    else if (194 <=? b0) && (b0 <=? 223) then
      match l with
      | b1 :: l' => if continuation b1 then (b0 - 192) * 64 + (b1 - 128) :: from_utf8_lossy l'
                    else replacement_character :: from_utf8_lossy l
      | [] => [replacement_character]
      end
    else if (224 <=? b0) && (b0 <=? 239) then
      match l with
      | b1 :: l' =>
        if second_of_three b0 b1 then
          match l' with
          | b2 :: l'' =>
            if continuation b2 then (b0 - 224) * 4096 + (b1 - 128) * 64 + (b2 - 128) :: from_utf8_lossy l''
            else replacement_character :: from_utf8_lossy l'
          | [] => [replacement_character]
          end
        else replacement_character :: from_utf8_lossy l
      | [] => [replacement_character]
      end
    else if (240 <=? b0) && (b0 <=? 244) then
      match l with
      | b1 :: l' =>
        if second_of_four b0 b1 then
          match l' with
          | b2 :: l'' =>
            if continuation b2 then
              match l'' with
              | b3 :: l3 =>
                if continuation b3
                then (b0 - 240) * 262144 + (b1 - 128) * 4096 + (b2 - 128) * 64 + (b3 - 128) :: from_utf8_lossy l3
                else replacement_character :: from_utf8_lossy l''
              | [] => [replacement_character]
              end
            else replacement_character :: from_utf8_lossy l'
          | [] => [replacement_character]
          end
        else replacement_character :: from_utf8_lossy l
      | [] => [replacement_character]
      end
    else replacement_character :: from_utf8_lossy l
  end.

(** ** Lemmas *)

(** The number a text of digits stands for *)
Definition decimal_value (s : str) : Z := foldl (λ acc c, acc * 10 + (c - 48)) 0 s.

Lemma decimal_digits_value fuel v : 0 <= v < 10 ^ Z.of_nat fuel → decimal_value (decimal_digits fuel v) = v.
Proof.
  unfold decimal_value. revert v. induction fuel as [|fuel IH]; intros v Hv.
  { change (10 ^ Z.of_nat 0) with 1 in Hv. simpl. lia. }
  cbn [decimal_digits]. rewrite foldl_app. cbn [foldl]. destruct (Z.ltb_spec v 10).
  - cbn [foldl]. rewrite Z.mod_small by lia. lia.
  - rewrite IH; [pose proof (Z.div_mod v 10); lia|].
    rewrite Nat2Z.inj_succ, Z.pow_succ_r in Hv by lia. split; [apply Z.div_pos; lia|apply Z.div_lt_upper_bound; lia].
Qed.

Lemma decimal_digits_digits fuel v : 0 <= v → Forall (λ c, 48 <= c <= 57) (decimal_digits fuel v).
Proof.
  revert v. induction fuel as [|fuel IH]; intros v Hv; [constructor|]. cbn [decimal_digits].
  apply Forall_app. split.
  - destruct (v <? 10); [constructor|]. apply IH, Z.div_pos; lia.
  - constructor; [|constructor]. pose proof (Z.mod_pos_bound v 10). lia.
Qed.

Lemma to_string_inj v w : 0 <= v <= u64_max → 0 <= w <= u64_max → to_string v = to_string w → v = w.
Proof.
  intros Hv Hw Heq. unfold u64_max in *. rewrite <-(decimal_digits_value 20 v), <-(decimal_digits_value 20 w) by (simpl; lia).
  by f_equal.
Qed.

Lemma to_string_no v c : 0 <= v → ¬ 48 <= c <= 57 → c ∉ to_string v.
Proof. intros Hv Hc Hin. pose proof (decimal_digits_digits 20 v Hv) as Hall. rewrite Forall_forall in Hall. by apply Hc, Hall. Qed.

(** What is valid UTF-8 loses nothing. *)
Lemma from_utf8_lossy_valid l s : are_bytes l → utf8_decode l = Some s → from_utf8_lossy l = s.
Proof.
  remember (length l) as n eqn:Hn. revert l s Hn. induction (lt_wf n) as [n _ IH]. intros l s -> Hl Hs.
  assert (Hcons : ∀ l' c, (length l' < length l)%nat → are_bytes l' →
    cons c <$> utf8_decode l' = Some s → c :: from_utf8_lossy l' = s).
  { intros l' c Hlen Hl' Hd. destruct (utf8_decode l') as [s'|] eqn:Hs'; simplify_eq/=.
    f_equal. by eapply (IH _ Hlen). }
  destruct l as [|b0 l]; [by simpl in *; simplify_eq|].
  apply Forall_cons in Hl as [Hb0 Hl]. unfold is_byte in Hb0. cbn [utf8_decode from_utf8_lossy] in *.
  destruct (Z.ltb_spec b0 128); [by apply Hcons; [simpl; lia|..]|].
  destruct l as [|b1 l]; [done|]. apply Forall_cons in Hl as [Hb1 Hl].
  destruct (continuation b1) eqn:Hc1; [|done]. cbn [negb] in Hs.
  assert (128 <= b1 < 192) by (unfold continuation in Hc1; lia).
  destruct ((194 <=? b0) && (b0 <? 224)) eqn:Htwo.
  { replace ((194 <=? b0) && (b0 <=? 223)) with true by lia. by apply Hcons; [simpl; lia|..]. }
  replace ((194 <=? b0) && (b0 <=? 223)) with false by lia.
  destruct l as [|b2 l]; [done|]. apply Forall_cons in Hl as [Hb2 Hl].
  destruct (continuation b2) eqn:Hc2; [|done]. cbn [negb] in Hs.
  assert (128 <= b2 < 192) by (unfold continuation in Hc2; lia).
  destruct ((224 <=? b0) && (b0 <? 240)) eqn:Hthree.
  { replace ((224 <=? b0) && (b0 <=? 239)) with true by lia.
    destruct (Z.ltb_spec ((b0 - 224) * 4096 + (b1 - 128) * 64 + (b2 - 128)) 2048); [done|].
    cbn [orb] in Hs. destruct (is_scalar _) eqn:Hsc; [|done]. unfold is_scalar in Hsc.
    assert (second_of_three b0 b1 = true) as -> by (unfold second_of_three; rewrite Hc1; lia).
    by apply Hcons; [simpl; lia|..]. }
  replace ((224 <=? b0) && (b0 <=? 239)) with false by lia.
  destruct l as [|b3 l]; [done|]. apply Forall_cons in Hl as [Hb3 Hl].
  destruct (continuation b3) eqn:Hc3; [|done]. cbn [negb] in Hs.
  assert (128 <= b3 < 192) by (unfold continuation in Hc3; lia).
  destruct ((240 <=? b0) && (b0 <? 245)) eqn:Hfour; [|done].
  replace ((240 <=? b0) && (b0 <=? 244)) with true by lia.
  destruct (Z.ltb_spec ((b0 - 240) * 262144 + (b1 - 128) * 4096 + (b2 - 128) * 64 + (b3 - 128)) 65536); [done|].
  cbn [orb] in Hs. destruct (is_scalar _) eqn:Hsc; [|done]. unfold is_scalar in Hsc.
  assert (second_of_four b0 b1 = true) as -> by (unfold second_of_four; rewrite Hc1; lia).
  by apply Hcons; [simpl; lia|..].
Qed.

Lemma count_while_spec p s :
  Forall (λ c, p c = true) (take (count_while p s) s) ∧
  match drop (count_while p s) s with [] => True | c :: _ => p c = false end.
Proof.
  induction s as [|c s [IH1 IH2]]; simpl; [by split|]. destruct (p c) eqn:Hc; simpl.
  - split; [by constructor|done].
  - by split; [constructor|].
Qed.

Lemma count_while_app p a b :
  Forall (λ c, p c = true) a → match b with [] => True | c :: _ => p c = false end →
  count_while p (a ++ b) = length a.
Proof.
  induction 1 as [|c a Hc Ha IH]; intros Hb; simpl; [destruct b as [|c b]; simpl; [done|by rewrite Hb]|].
  rewrite Hc. f_equal. by apply IH.
Qed.
