(* ===== verification/Secrets.v ===== *)
(** * Host secrets and their placeholders
      (src/core/agentdp-core/src/provisioning/secrets.rs, and what the network
      of an instance is given of them, src/apps/agentdp-server/src/qemu/network.rs)

    The guest never sees a secret: it is given a placeholder, which the network
    replaces by the value for the hosts the secret is allowed for.  The random
    bytes of a placeholder come from the operating system: [fill n] is what its
    [n]-th call returns. *)
From S2P Require Import Prelude Text Ordered Format Policy Raw.
Local Open Scope Z_scope.

(** What a random source that fails reports is left out. *)
Inductive SecretError :=
| EmptySecretName
| EmptySecretValue (name : str)
| RandomPlaceholder.

Inductive SecretValue := Present (value : str) | Redacted.

Record SecretBinding := {
  sb_name : str;
  sb_placeholder : str;
  sb_value : SecretValue;
  sb_allowed_hosts : gset str;
}.

(** The hosts of a binding are compared in lower case (in [Policy] a host also
    loses the dot that ends it). *)
Definition lower_host (host : str) : str := to_ascii_lowercase <$> host.

Definition hex_digit (value : Z) : Z :=
  if (0 <=? value) && (value <=? 9) then 48 + value
  else if (10 <=? value) && (value <=? 15) then 65 + (value - 10)
  else 63.

Definition hex_byte (byte : Z) : str := [hex_digit (Z.shiftr byte 4); hex_digit (Z.land byte 15)].

(** A byte of the name in a placeholder *)
Definition placeholder_byte (byte : Z) : Z :=
  if ((65 <=? byte) && (byte <=? 90)) || ((48 <=? byte) && (byte <=? 57)) then byte
  else if (97 <=? byte) && (byte <=? 122) then to_ascii_uppercase byte
  else 95.

(** [format!("AGENTDP_SECRET_{normalized}_{suffix}")] *)
Definition placeholder_text (name : str) (bytes : bytes) : str :=
  bytes_of "AGENTDP_SECRET_" ++ (placeholder_byte <$> utf8_encode name) ++ [95] ++ (bytes ≫= hex_byte).

Section bindings.
Variable fill : nat → option bytes.

Definition placeholder_for (name : str) : stm nat SecretError str := λ n,
  match fill n with
  | Some bytes => (Ret (placeholder_text name bytes), S n)
  | None => (Fail RandomPlaceholder, S n)
  end.

Definition new_with_placeholder (name : str) (placeholder : option str) (value : str) (allowed_hosts : list str) :
    stm nat SecretError SecretBinding :=
  if bool_decide (trim name = []) then stm_fail EmptySecretName
  else if bool_decide (value = []) then stm_fail (EmptySecretValue name)
  else
    placeholder ← match placeholder with
                  | Some placeholder =>
                    if bool_decide (placeholder = []) then stm_fail (EmptySecretValue name) else mret placeholder
                  | None => placeholder_for name
                  end;
    mret {| sb_placeholder := placeholder; sb_name := name; sb_value := Present value;
            sb_allowed_hosts := list_to_set (lower_host <$> allowed_hosts) |}.

(** [SecretBinding::new] *)
Definition secret_binding_new (name value : str) (allowed_hosts : list str) : stm nat SecretError SecretBinding :=
  new_with_placeholder name None value allowed_hosts.
End bindings.

Definition allows_host (self : SecretBinding) (host : str) : bool :=
  bool_decide (lower_host host ∈ sb_allowed_hosts self).

Definition binding_value (self : SecretBinding) : option str :=
  match sb_value self with Present value => Some value | Redacted => None end.

Definition binding_redacted (self : SecretBinding) : SecretBinding :=
  {| sb_name := sb_name self; sb_placeholder := sb_placeholder self; sb_value := Redacted;
     sb_allowed_hosts := sb_allowed_hosts self |}.

(** ** The bindings of an instance, by placeholder *)
Abbreviation SecretBindings := (gmap str SecretBinding).

Definition bindings_insert (binding : SecretBinding) (self : SecretBindings) : SecretBindings :=
  <[sb_placeholder binding := binding]> self.

(** [self.extend(bindings)]: those of [bindings] replace those of [self]. *)
Definition bindings_extend (self bindings : SecretBindings) : SecretBindings := bindings ∪ self.

Definition bindings_redacted (self : SecretBindings) : SecretBindings := binding_redacted <$> self.

Definition contains_placeholder (self : SecretBindings) (placeholder : str) : bool :=
  bool_decide (is_Some (self !! placeholder)).

(** [self.iter()] *)
Definition bindings_iter (self : SecretBindings) : list SecretBinding := map_values self.

(** The length is that of the UTF-8 text. *)
Definition max_placeholder_len (self : SecretBindings) : Z :=
  foldr (λ binding len, Z.max (zlen (utf8_encode (sb_placeholder binding))) len) 0 (bindings_iter self).

Definition placeholder_for_name (self : SecretBindings) (name : str) : option str :=
  sb_placeholder <$> find_first (λ binding, bool_decide (sb_name binding = name)) (bindings_iter self).

Definition guest_env_contents (self : SecretBindings) : bytes :=
  utf8_encode (bindings_iter self ≫= λ binding, sb_name binding ++ [61] ++ sb_placeholder binding ++ [10]).

(** A quote at both ends, in two positions *)
Definition unquote_env_value (value : str) : str :=
  let quoted_by q := bool_decide (head value = Some q) && bool_decide (last value = Some q) in
  if (quoted_by 34 || quoted_by 39) && (2 <=? length value)%nat
  then take (length value - 2) (drop 1 value) else value.

Section from_env.
Variable fill : nat → option bytes.

Fixpoint from_env_lines (lines : list str) (allowed_hosts : list str) (bindings : SecretBindings) :
    stm nat SecretError SecretBindings :=
  match lines with
  | [] => mret bindings
  | line :: lines =>
    let line := trim line in
    if bool_decide (line = []) || bool_decide (head line = Some 35) then from_env_lines lines allowed_hosts bindings
    else match split_once 61 line with
    | None => from_env_lines lines allowed_hosts bindings
    | Some (name, value) =>
      binding ← secret_binding_new fill (trim name) (unquote_env_value (trim value)) allowed_hosts;
      from_env_lines lines allowed_hosts (bindings_insert binding bindings)
    end
  end.

Definition from_env_bytes (contents : bytes) (allowed_hosts : list str) : stm nat SecretError SecretBindings :=
  from_env_lines (lines (from_utf8_lossy contents)) allowed_hosts ∅.
End from_env.

(** ** What the network of an instance is given *)
Definition runtime_secrets (secrets : SecretBindings) : RuntimeSecrets :=
  foldl (λ runtime binding,
    match binding_value binding with
    | Some value =>
      secrets_insert (runtime_secret_new (sb_placeholder binding) value (elements (sb_allowed_hosts binding))) runtime
    | None => runtime
    end) secrets_new (bindings_iter secrets).

(** ** Placeholders *)

Lemma hex_digit_class v : hex_digit v = 63 ∨ 48 <= hex_digit v <= 57 ∨ 65 <= hex_digit v <= 70.
Proof. unfold hex_digit. repeat case_match; lia. Qed.

Lemma hex_digit_inj v w : 0 <= v < 16 → 0 <= w < 16 → hex_digit v = hex_digit w → v = w.
Proof. unfold hex_digit. intros. repeat case_match; lia. Qed.

Lemma hex_byte_inj a b : is_byte a → is_byte b → hex_byte a = hex_byte b → a = b.
Proof.
  unfold is_byte, hex_byte. rewrite !land_15, !Z.shiftr_div_pow2 by lia. change (2 ^ 4) with 16.
  intros Ha Hb [= H1 H2]. apply hex_digit_inj in H1, H2; try apply Z.mod_pos_bound; try done;
    try (split; [apply Z.div_pos|apply Z.div_lt_upper_bound]; lia).
  pose proof (Z.div_mod a 16). pose proof (Z.div_mod b 16). lia.
Qed.

Lemma hex_bytes_inj a b : are_bytes a → are_bytes b → a ≫= hex_byte = b ≫= hex_byte → a = b.
Proof.
  intros Ha. revert b. induction Ha as [|x a Hx Ha IH]; intros [|y b] Hb Heq; try done.
  apply Forall_cons in Hb as [Hy Hb]. rewrite !bind_cons in Heq.
  apply app_inj_1 in Heq as [Hxy Heq]; [|done]. f_equal; [by apply hex_byte_inj|by apply IH].
Qed.

Lemma length_hex_bytes a : length (a ≫= hex_byte) = (2 * length a)%nat.
Proof. induction a as [|x a IH]; [done|]. rewrite bind_cons, length_app, IH. simpl. lia. Qed.

(** The random bytes can be read off a placeholder. *)
Lemma placeholder_text_inj name name' a b :
  are_bytes a → are_bytes b → length a = length b → placeholder_text name a = placeholder_text name' b → a = b.
Proof.
  unfold placeholder_text. intros Ha Hb Hlen Heq. apply app_inv_head in Heq. rewrite !(assoc_L (++)) in Heq.
  apply app_inj_2 in Heq as [_ Heq]; [by apply hex_bytes_inj|]. rewrite !length_hex_bytes. lia.
Qed.

Definition placeholder_char (c : Z) : Prop := c = 95 ∨ c = 63 ∨ 48 <= c <= 57 ∨ 65 <= c <= 90.

Lemma placeholder_text_chars name a : Forall placeholder_char (placeholder_text name a).
Proof.
  unfold placeholder_text, placeholder_char. rewrite !Forall_app. split_and!.
  - apply (bool_decide_unpack (Forall (λ c, c = 95 ∨ c = 63 ∨ 48 <= c <= 57 ∨ 65 <= c <= 90) _)). vm_compute. exact I.
  - apply Forall_fmap, Forall_forall. intros c _. unfold compose, placeholder_byte, to_ascii_uppercase.
    repeat case_match; lia.
  - repeat constructor.
  - apply Forall_bind, Forall_forall. intros c _. unfold hex_byte.
    constructor; [|constructor; [|constructor]];
      match goal with |- context[hex_digit ?v] => pose proof (hex_digit_class v) end; lia.
Qed.

(** A placeholder is found by the check that lets no placeholder out. *)
Lemma placeholder_text_prefix name a : starts_with (utf8_encode (placeholder_text name a)) SECRET_PLACEHOLDER_PREFIX = true.
Proof.
  rewrite utf8_encode_ascii.
  - apply starts_with_spec. unfold placeholder_text, SECRET_PLACEHOLDER_PREFIX. eauto.
  - eapply Forall_impl; [apply placeholder_text_chars|]. unfold placeholder_char. lia.
Qed.

(** ** The invariant of the bindings: each is found by its placeholder *)
Definition well_keyed (self : SecretBindings) : Prop := map_Forall (λ placeholder b, sb_placeholder b = placeholder) self.

Lemma well_keyed_empty : well_keyed ∅.
Proof. apply map_Forall_empty. Qed.

Lemma well_keyed_insert binding self : well_keyed self → well_keyed (bindings_insert binding self).
Proof. intros Hself. by apply map_Forall_insert_2. Qed.

Lemma well_keyed_extend self other : well_keyed self → well_keyed other → well_keyed (bindings_extend self other).
Proof. intros Hself Hother. by apply map_Forall_union_2. Qed.

Lemma well_keyed_redacted self : well_keyed self → well_keyed (bindings_redacted self).
Proof.
  intros Hself p b. unfold bindings_redacted. rewrite lookup_fmap, fmap_Some. intros (b' & Hb & ->). by apply Hself in Hb.
Qed.

Create HintDb secrets.
#[export] Hint Resolve well_keyed_empty well_keyed_insert well_keyed_extend well_keyed_redacted : secrets.

(** ** The network is given exactly the live bindings *)
Definition runtime_secret_of (b : SecretBinding) : option RuntimeSecret :=
  (λ value, runtime_secret_new (sb_placeholder b) value (elements (sb_allowed_hosts b))) <$> binding_value b.

Lemma runtime_secrets_bindings secrets : bindings (runtime_secrets secrets) = omap runtime_secret_of (bindings_iter secrets).
Proof.
  unfold runtime_secrets. generalize (bindings_iter secrets) as l.
  enough (∀ l acc, bindings (foldl _ acc l) = bindings acc ++ omap runtime_secret_of l) as Henough
    by (intros l; apply (Henough l secrets_new)).
  induction l as [|b l IH]; intros acc; simpl; [by rewrite app_nil_r|].
  rewrite IH. unfold runtime_secret_of. destruct (binding_value b); simpl; [|done].
  by rewrite <-(assoc_L (++)).
Qed.

Lemma runtime_secrets_exact secrets s :
  s ∈ bindings (runtime_secrets secrets) ↔
  ∃ key b value, secrets !! key = Some b ∧ sb_value b = Present value ∧
    s = runtime_secret_new (sb_placeholder b) value (elements (sb_allowed_hosts b)).
Proof.
  rewrite runtime_secrets_bindings, list_elem_of_omap. unfold runtime_secret_of, binding_value, bindings_iter.
  setoid_rewrite elem_of_map_values. split.
  - intros (b & (key & Hb) & Hs). exists key, b. destruct (sb_value b) as [value|]; simplify_eq/=. eauto.
  - intros (key & b & value & Hb & Hv & ->). exists b. split; [eauto|]. by rewrite Hv.
Qed.
