(* ===== verification/JsonAuth.v ===== *)
(** * Credentials in JSON files
      (src/core/agentdp-core/src/manifest/plugins/mediated_json_auth.rs, with the
      types it shares with src/core/agentdp-core/src/provisioning/host_input.rs)

    The file with the credentials of a tool is copied to the guest with every
    secret replaced by a placeholder.  serde_json reads and prints the file: its
    [Value] is the tree below, with the entries of an object in the order they
    are visited. *)
From S2P Require Import Prelude Text Ordered Format Secrets.
Local Open Scope Z_scope.

(** ** Types of host_input.rs *)

(** The error a file is rejected with carries the label and the materializer; the
    error of serde_json is left out. *)
Inductive HostInputError :=
| Materialize (label materializer : str)
| ConflictingCustomEnvAuth (name : str)
| MissingCustomEnvAuth (names : str)
| SecretFailed (error : SecretError).

Record MaterializedHostInput := { mi_contents : bytes; mi_secrets : SecretBindings }.

(** [MaterializationContext]: the bindings an earlier run left, if there are any *)
Abbreviation MaterializationContext := (option SecretBindings).

Definition context_placeholder (context : MaterializationContext) (name : str) : option str :=
  secrets ← context; placeholder_for_name secrets name.

Inductive ManagedHostCredential := ManagedCodex.

(** ** The transform *)
Record MediatedJsonAuthTransform := {
  mt_name : str;
  mt_prefix : str;
  mt_hosts : list str;
  mt_normalize_expiry : bool;
  mt_jwt_access_token_placeholder : bool;
  mt_omit_refresh_token : bool;
  mt_managed_credential : option ManagedHostCredential;
}.

Definition JWT_PLACEHOLDER_HEADER : str := bytes_of "eyJhbGciOiJub25lIiwidHlwIjoiSldUIn0".
Definition JWT_PLACEHOLDER_PAYLOAD : str :=
  bytes_of "eyJzdWIiOiJhZ2VudGRwLW1lZGlhdGVkIiwiZW1haWwiOiJhZ2VudGRwQGV4YW1wbGUuaW52YWxpZCIsImV4cCI6NDEwMjQ0NDgwMCwiaWF0IjowLCJpc3MiOiJhZ2VudGRwLW1lZGlhdGVkIn0".

Definition jwt_placeholder_for (signature : str) : str :=
  JWT_PLACEHOLDER_HEADER ++ [46] ++ JWT_PLACEHOLDER_PAYLOAD ++ [46] ++ signature.

Definition looks_like_jwt (value : str) : bool := (length (split_char 46 value) =? 3)%nat.

Definition auth_secret_keys : list str :=
  [bytes_of "token"; bytes_of "tokens"; bytes_of "access_token"; bytes_of "refresh_token"; bytes_of "id_token"; bytes_of "api_key"].

Definition is_auth_secret_key (key : str) : bool :=
  let key := to_ascii_lowercase <$> key in
  bool_decide (key ∈ auth_secret_keys) || ends_with key (bytes_of "_token") || ends_with key (bytes_of "token").

Definition auth_expiry_keys : list str :=
  [bytes_of "expires"; bytes_of "expires_at"; bytes_of "expiresAt"; bytes_of "expiry"; bytes_of "expiration";
   bytes_of "expiration_time"; bytes_of "expirationTime"].

Definition is_auth_expiry_key (key : str) : bool := bool_decide (key ∈ auth_expiry_keys).

Definition NON_EXPIRING_UNIX_SECONDS : Z := 4102444800.

Definition secret_name_component (input : str) : str :=
  (λ ch, if is_ascii_alphanumeric ch then to_ascii_uppercase ch else 95) <$> input.

Section json.
Context {JsonNumber : Type} (number_from : Z → JsonNumber).

Inductive Value :=
| JNull
| JBool (b : bool)
| JNumber (n : JsonNumber)
| JString (s : str)
| JArray (values : list Value)
| JObject (object : list (str * Value)).

(** The value after the change, when it is changed *)
Definition normalize_expiry_value (value : Value) : option Value :=
  match value with
  | JNumber _ => Some (JNumber (number_from NON_EXPIRING_UNIX_SECONDS))
  | JString _ => Some (JString (to_string NON_EXPIRING_UNIX_SECONDS))
  | _ => None
  end.

Section materialize.
Variable fill : nat → option bytes.
Variable self : MediatedJsonAuthTransform.
Variable context : MaterializationContext.

(** The calls of the random source so far, and the bindings found so far *)
Abbreviation run := (stm (nat * SecretBindings) HostInputError).

Definition with_random {A} (m : stm nat SecretError A) : run A := λ s,
  let '(outcome, n) := m s.1 in (map_err SecretFailed outcome, (n, s.2)).

Definition auth_placeholder (name_path : str) (jwt_placeholder : bool) : run (option str) :=
  match context_placeholder context name_path with
  | Some placeholder =>
    mret (Some (if jwt_placeholder && negb (looks_like_jwt placeholder) then jwt_placeholder_for placeholder else placeholder))
  | None =>
    if negb jwt_placeholder then mret None
    else binding ← with_random (secret_binding_new fill name_path (bytes_of "placeholder-value") []);
         mret (Some (jwt_placeholder_for (sb_placeholder binding)))
  end.

(** A string that is a secret: its binding is kept, the placeholder takes its place. *)
Definition placeholderize_secret (secret name_path : str) : run Value :=
  let jwt_placeholder := ends_with name_path (bytes_of "_ID_TOKEN")
    || (mt_jwt_access_token_placeholder self && ends_with name_path (bytes_of "_ACCESS_TOKEN")) in
  placeholder ← auth_placeholder name_path jwt_placeholder;
  binding ← with_random (new_with_placeholder fill name_path placeholder secret (mt_hosts self));
  stm_modify (λ s, (s.1, bindings_insert binding s.2));;
  mret (JString (sb_placeholder binding)).

Definition omitted (key : str) : bool :=
  mt_omit_refresh_token self && eq_ignore_ascii_case key (bytes_of "refresh_token").

(** The new value of an entry whose key says its value is left out, or is an expiry *)
Definition fixed_child (key : str) (child : Value) : option Value :=
  if omitted key then Some (JString [])
  else if mt_normalize_expiry self && is_auth_expiry_key key then normalize_expiry_value child
  else None.

Fixpoint placeholderize_auth_value (value : Value) (sensitive_context : bool) (name_path : str) : run Value :=
  match value with
  | JObject object =>
    object' ← (fix go object :=
      match object with
      | [] => mret []
      | (key, child) :: object =>
        child' ← match fixed_child key child with
                 | Some child' => mret child'
                 | None => placeholderize_auth_value child (sensitive_context || is_auth_secret_key key)
                             (name_path ++ [95] ++ secret_name_component key)
                 end;
        object' ← go object;
        mret ((key, child') :: object')
      end) object;
    mret (JObject object')
  | JArray values =>
    values' ← (fix go index values :=
      match values with
      | [] => mret []
      | child :: values =>
        child' ← placeholderize_auth_value child sensitive_context (name_path ++ [95] ++ to_string index);
        values' ← go (index + 1) values;
        mret (child' :: values')
      end) 0 values;
    mret (JArray values')
  | JString secret =>
    if sensitive_context && negb (bool_decide (secret = [])) then placeholderize_secret secret name_path
    else mret value
  | _ => mret value
  end.

Variable from_slice : bytes → option Value.
Variable to_vec_pretty : Value → option bytes.

(** [materialize], from the [n]-th call of the random source on *)
Definition json_materialize (label : str) (contents : bytes) : stm nat HostInputError MaterializedHostInput := λ n,
  match from_slice contents with
  | None => (Fail (Materialize label (mt_name self)), n)
  | Some json =>
    match placeholderize_auth_value json false (mt_prefix self) (n, ∅) with
    | (Ret json, (n, secrets)) =>
      match to_vec_pretty json with
      | Some contents => (Ret {| mi_contents := contents; mi_secrets := secrets |}, n)
      | None => (Fail (Materialize label (mt_name self)), n)
      end
    | (Fail e, (n, _)) => (Fail e, n)
    | (Panic, (n, _)) => (Panic, n)
    | (Timeout, (n, _)) => (Timeout, n)
    end
  end.
End materialize.
End json.

(** ** Induction on JSON values *)
Section induction.
Context {JsonNumber : Type} (P : Value (JsonNumber := JsonNumber) → Prop).
Hypothesis P_null : P JNull.
Hypothesis P_bool : ∀ b, P (JBool b).
Hypothesis P_number : ∀ n, P (JNumber n).
Hypothesis P_string : ∀ s, P (JString s).
Hypothesis P_array : ∀ values, Forall P values → P (JArray values).
Hypothesis P_object : ∀ object, Forall (P ∘ snd) object → P (JObject object).

Fixpoint Value_nested_ind (v : Value) : P v :=
  match v with
  | JNull => P_null
  | JBool b => P_bool b
  | JNumber n => P_number n
  | JString s => P_string s
  | JArray values => P_array values
      ((fix go values := match values return Forall P values with
        | [] => Forall_nil_2 _
        | v :: values => Forall_cons_2 _ _ _ (Value_nested_ind v) (go values)
        end) values)
  | JObject object => P_object object
      ((fix go object := match object return Forall (P ∘ snd) object with
        | [] => Forall_nil_2 _
        | (k, v) :: object => Forall_cons_2 _ (k, v) _ (Value_nested_ind v) (go object)
        end) object)
  end.
End induction.

(** ** What the guest is given does not depend on the secrets *)
Section secrecy.
Context {JsonNumber : Type} (number_from : Z → JsonNumber).
Variable fill : nat → option bytes.
Variable self : MediatedJsonAuthTransform.
Variable context : MaterializationContext.

Abbreviation Value := (Value (JsonNumber := JsonNumber)).
Abbreviation fixed_child := (fixed_child number_from self).
Abbreviation placeholderize := (placeholderize_auth_value number_from fill self context).

(** The file with every secret blotted out: the same text for all of them *)
Fixpoint erase (sensitive_context : bool) (value : Value) : Value :=
  match value with
  | JObject object =>
    JObject ((fix go object :=
      match object with
      | [] => []
      | (key, child) :: object =>
        (key, match fixed_child key child with
              | Some child' => child'
              | None => erase (sensitive_context || is_auth_secret_key key) child
              end) :: go object
      end) object)
  | JArray values => JArray (erase sensitive_context <$> values)
  | JString secret => if sensitive_context && negb (bool_decide (secret = [])) then JString [42] else value
  | _ => value
  end.

(** Two runs that differ in the values of the bindings they keep *)
Definition forget {A} (r : outcome HostInputError A * (nat * SecretBindings)) :=
  (r.1, (r.2.1, bindings_redacted r.2.2)).

Definition alike {A} (f g : stm (nat * SecretBindings) HostInputError A) : Prop :=
  ∀ n m m', bindings_redacted m = bindings_redacted m' → forget (f (n, m)) = forget (g (n, m')).

Lemma alike_ret {A} (a : A) : alike (mret a) (mret a).
Proof. intros n m m' Hm. unfold forget, mret, stm_ret. simpl. by rewrite Hm. Qed.

Lemma alike_bind {A B} (f g : stm _ _ A) (h k : A → stm _ _ B) :
  alike f g → (∀ a, alike (h a) (k a)) → alike (f ≫= h) (g ≫= k).
Proof.
  intros Hf Hh n m m' Hm. specialize (Hf n m m' Hm). unfold forget, mbind, stm_bind in *.
  destruct (f (n, m)) as [[a| e| |] [n1 m1]], (g (n, m')) as [[a'| e'| |] [n1' m1']]; simplify_eq/=; try congruence.
  by apply Hh.
Qed.

Lemma alike_random {A} (r : stm nat SecretError A) : alike (with_random r) (with_random r).
Proof. intros n m m' Hm. unfold forget, with_random. simpl. destruct (r n). simpl. by rewrite Hm. Qed.

Lemma alike_auth_placeholder name_path jwt :
  alike (auth_placeholder fill context name_path jwt) (auth_placeholder fill context name_path jwt).
Proof.
  unfold auth_placeholder. destruct (context_placeholder context name_path); [apply alike_ret|].
  destruct jwt; [|apply alike_ret]. apply alike_bind; [apply alike_random|intros; apply alike_ret].
Qed.

Definition with_value (value : str) (b : SecretBinding) : SecretBinding :=
  {| sb_name := sb_name b; sb_placeholder := sb_placeholder b; sb_value := Present value;
     sb_allowed_hosts := sb_allowed_hosts b |}.

(** A binding depends on its value in the value only. *)
Lemma new_with_placeholder_value name placeholder value value' hosts n :
  value ≠ [] → value' ≠ [] →
  new_with_placeholder fill name placeholder value' hosts n =
    let '(o, n') := new_with_placeholder fill name placeholder value hosts n in (with_value value' <$> o, n').
Proof.
  intros Hv Hv'. unfold new_with_placeholder. destruct (bool_decide (trim name = [])); [done|].
  rewrite (bool_decide_eq_false_2 (value = [])), (bool_decide_eq_false_2 (value' = [])) by done.
  unfold mbind, stm_bind. destruct placeholder as [p|]; [by destruct (bool_decide (p = []))|].
  unfold placeholder_for. by destruct (fill n).
Qed.

Lemma alike_placeholderize_secret secret secret' name_path :
  secret ≠ [] → secret' ≠ [] →
  alike (placeholderize_secret (JsonNumber := JsonNumber) fill self context secret name_path)
        (placeholderize_secret fill self context secret' name_path).
Proof.
  intros Hs Hs'. unfold placeholderize_secret. apply alike_bind; [apply alike_auth_placeholder|]. intros placeholder n m m' Hm.
  unfold forget, mbind, stm_bind, with_random, stm_modify, mret, stm_ret. cbn [fst snd].
  rewrite (new_with_placeholder_value _ _ secret secret') by done.
  destruct (new_with_placeholder fill name_path placeholder secret (mt_hosts self) n) as [[b|e| |] n']; simpl; try by rewrite Hm.
  unfold bindings_insert, bindings_redacted in *. by rewrite !fmap_insert, Hm.
Qed.

Lemma fixed_child_fixed key child child' : fixed_child key child = Some child' → fixed_child key child' = Some child'.
Proof.
  unfold JsonAuth.fixed_child. destruct (omitted self key); [done|]. destruct (_ && _); [|done].
  by destruct child; intros ?; simplify_eq/=.
Qed.

Lemma fixed_child_erase key sensitive child : fixed_child key child = None → fixed_child key (erase sensitive child) = None.
Proof.
  unfold JsonAuth.fixed_child. destruct (omitted self key); [done|]. destruct (_ && _); [|done].
  by destruct child.
Qed.

(** The guest's file and what is known of the bindings are those of the blotted file. *)
Lemma placeholderize_erased value sensitive name_path :
  alike (placeholderize value sensitive name_path) (placeholderize (erase sensitive value) sensitive name_path).
Proof.
  revert sensitive name_path. induction value as [|b|x|s|values IH|object IH] using Value_nested_ind; intros sensitive name_path;
    cbn [placeholderize_auth_value erase]; [apply alike_ret..| | |].
  - destruct sensitive; [|apply alike_ret]. cbn [andb]. case_bool_decide as Hs; [subst; apply alike_ret|]. cbn [negb].
    by apply alike_placeholderize_secret.
  - apply alike_bind; [|intros; apply alike_ret]. generalize 0 as index.
    induction IH as [|v values Hv Hvs IH]; intros index; [apply alike_ret|]. rewrite fmap_cons.
    apply alike_bind; [apply Hv|]. intros v'. apply alike_bind; [apply IH|]. intros; apply alike_ret.
  - apply alike_bind; [|intros; apply alike_ret].
    induction IH as [|[key v] object Hv Hvs IH]; [apply alike_ret|].
    apply alike_bind; [|intros v'; apply alike_bind; [apply IH|intros; apply alike_ret]].
    destruct (fixed_child key v) as [v'|] eqn:Hfixed.
    + rewrite (fixed_child_fixed _ _ _ Hfixed). apply alike_ret.
    + rewrite fixed_child_erase by done. apply Hv.
Qed.
End secrecy.

(** ** Every secret is kept, and a later run finds its placeholder *)
Section faithful.
Context {JsonNumber : Type} (number_from : Z → JsonNumber).
Variable fill : nat → option bytes.
Variable self : MediatedJsonAuthTransform.

Abbreviation Value := (Value (JsonNumber := JsonNumber)).
Abbreviation fixed_child := (fixed_child number_from self).
Abbreviation placeholderize := (placeholderize_auth_value number_from fill self).

(** The random source: sixteen bytes a call, never twice the same *)
Definition fresh_draws : Prop :=
  (∀ i b, fill i = Some b → length b = 16%nat ∧ are_bytes b) ∧ ∀ i j b, fill i = Some b → fill j = Some b → i = j.

(** A placeholder made of the [i]-th draw *)
Definition drawn (i : nat) (p : str) : Prop :=
  ∃ name b, fill i = Some b ∧ (p = placeholder_text name b ∨ p = jwt_placeholder_for (placeholder_text name b)).

Definition drawn_below (n : nat) (m : SecretBindings) : Prop :=
  ∀ p b, m !! p = Some b → sb_placeholder b = p ∧ ∃ i, (i < n)%nat ∧ drawn i p.

Lemma placeholder_text_no_dot name b : 46 ∉ placeholder_text name b.
Proof.
  intros Hin. pose proof (placeholder_text_chars name b) as Hall. rewrite Forall_forall in Hall.
  apply Hall in Hin. unfold placeholder_char in Hin. lia.
Qed.

Lemma jwt_has_dot s : 46 ∈ jwt_placeholder_for s.
Proof. unfold jwt_placeholder_for. rewrite !elem_of_app. right. left. by left. Qed.

Lemma drawn_inj i j p : fresh_draws → drawn i p → drawn j p → i = j.
Proof.
  intros [Hbytes Hfresh] (name & b & Hi & Hp) (name' & b' & Hj & Hp').
  destruct (Hbytes i b Hi) as [Hlen Hb], (Hbytes j b' Hj) as [Hlen' Hb'].
  assert (placeholder_text name b = placeholder_text name' b') as Heq.
  { destruct Hp as [->| ->], Hp' as [Heq|Heq]; [done|..].
    - destruct (placeholder_text_no_dot name b). rewrite Heq. apply jwt_has_dot.
    - destruct (placeholder_text_no_dot name' b'). rewrite <-Heq. apply jwt_has_dot.
    - unfold jwt_placeholder_for in Heq. by do 4 apply app_inv_head in Heq. }
  apply placeholder_text_inj in Heq; [|done..|lia]. subst. by apply (Hfresh i j b').
Qed.

Lemma jwt_placeholder_looks s : 46 ∉ s → looks_like_jwt (jwt_placeholder_for s) = true.
Proof.
  intros Hs. unfold looks_like_jwt, jwt_placeholder_for. cbn [app].
  rewrite split_char_app by (apply (bool_decide_unpack (46 ∉ JWT_PLACEHOLDER_HEADER)); by vm_compute).
  rewrite split_char_app by (apply (bool_decide_unpack (46 ∉ JWT_PLACEHOLDER_PAYLOAD)); by vm_compute).
  by rewrite split_char_none.
Qed.

(** The bindings have distinct names. *)
Definition names_unique (m : SecretBindings) : Prop :=
  ∀ p q b c, m !! p = Some b → m !! q = Some c → sb_name b = sb_name c → p = q.

Lemma placeholder_for_name_unique m p b :
  names_unique m → m !! p = Some b → sb_placeholder b = p → placeholder_for_name m (sb_name b) = Some p.
Proof.
  intros Hunique Hb <-. unfold placeholder_for_name.
  destruct (find_first _ _) as [c|] eqn:Hfind; simpl.
  - apply find_first_some in Hfind as [Hc%elem_of_map_values Hname%bool_decide_eq_true]. destruct Hc as [q Hc].
    pose proof (Hunique q _ c b Hc Hb Hname) as ->. by simplify_eq.
  - pose proof (proj1 (find_first_none _ _) Hfind b) as Hnone. cbn beta in Hnone.
    rewrite bool_decide_eq_true_2 in Hnone by done. discriminate Hnone. apply elem_of_map_values. eauto.
Qed.

Lemma names_unique_redacted m : names_unique m → names_unique (bindings_redacted m).
Proof.
  intros Hm q q' b c. unfold bindings_redacted. rewrite !lookup_fmap, !fmap_Some.
  intros (b' & Hb' & ->) (c' & Hc' & ->) Hname. exact (Hm q q' b' c' Hb' Hc' Hname).
Qed.

Lemma placeholder_for_name_redacted m p b :
  names_unique m → m !! p = Some b → sb_placeholder b = p → placeholder_for_name (bindings_redacted m) (sb_name b) = Some p.
Proof.
  intros Hm Hb Hp. apply (placeholder_for_name_unique (bindings_redacted m) p (binding_redacted b)); [by apply names_unique_redacted| |done].
  unfold bindings_redacted. by rewrite lookup_fmap, Hb.
Qed.

(** What the run makes of the file, apart from the secrets *)
Fixpoint settle (value : Value) : Value :=
  match value with
  | JObject object =>
    JObject ((fix go object :=
      match object with
      | [] => []
      | (key, child) :: object =>
        (key, match fixed_child key child with Some child' => child' | None => settle child end) :: go object
      end) object)
  | JArray values => JArray (settle <$> values)
  | _ => value
  end.

(** The transform has nothing to omit and nothing to normalise in the file. *)
Fixpoint settled (value : Value) : Prop :=
  match value with
  | JObject object =>
    (fix go object :=
      match object with
      | [] => True
      | (key, child) :: object => match fixed_child key child with Some child' => child' = child | None => settled child end ∧ go object
      end) object
  | JArray values => (fix go values := match values with [] => True | value :: values => settled value ∧ go values end) values
  | _ => True
  end.

Lemma settle_settled value : settled value → settle value = value.
Proof.
  induction value as [|b|x|s|values IH|object IH] using Value_nested_ind; cbn [settle settled]; intros Hset; [done..| |]; f_equal.
  - induction IH as [|v values Hv Hvs IH]; [done|]. destruct Hset as [H1 H2]. rewrite fmap_cons, Hv, IH; done.
  - induction IH as [|[key v] object Hv Hvs IH]; [done|]. destruct Hset as [H1 H2]. rewrite IH by done. do 2 f_equal.
    cbn [snd] in Hv. destruct (fixed_child key v); auto.
Qed.

(** The placeholders of the guest's file replaced by the values of their bindings *)
Fixpoint restore (m : SecretBindings) (value : Value) : Value :=
  match value with
  | JObject object => JObject ((λ entry, (entry.1, restore m entry.2)) <$> object)
  | JArray values => JArray (restore m <$> values)
  | JString s => match m !! s ≫= binding_value with Some value => JString value | None => value end
  | _ => value
  end.

(** No string that stays in the file reads like a placeholder. *)
Fixpoint unambiguous (sensitive_context : bool) (value : Value) : Prop :=
  match value with
  | JObject object =>
    (fix go object :=
      match object with
      | [] => True
      | (key, child) :: object =>
        match fixed_child key child with
        | Some _ => True
        | None => unambiguous (sensitive_context || is_auth_secret_key key) child
        end ∧ go object
      end) object
  | JArray values =>
    (fix go values :=
      match values with [] => True | child :: values => unambiguous sensitive_context child ∧ go values end) values
  | JString s => sensitive_context = true ∧ s ≠ [] ∨ ∀ i, ¬ drawn i s
  | _ => True
  end.

Lemma drawn_below_mono n n' m : (n ≤ n')%nat → drawn_below n m → drawn_below n' m.
Proof. intros Hn Hm p b Hb. destruct (Hm p b Hb) as (? & i & ? & ?). split; [done|]. exists i. split; [lia|done]. Qed.

(** A run from any state keeps the bindings it was given and draws on; whatever is bound
    later, its result is [good] for the bindings, and [again], which knows the bindings,
    gives the same result without drawing, and the same bindings but for their values. *)
Definition faithful {A} (f : stm (nat * SecretBindings) HostInputError A)
    (again : SecretBindings → stm (nat * SecretBindings) HostInputError A) (good : SecretBindings → A → Prop) : Prop :=
  ∀ n m out n' m', drawn_below n m → f (n, m) = (Ret out, (n', m')) →
  (n ≤ n')%nat ∧ m ⊆ m' ∧ drawn_below n' m' ∧
  ∀ k final, m' ⊆ final → drawn_below k final →
    good final out ∧
    (names_unique final → ∀ n2 m2, ∃ m2', again final (n2, m2) = (Ret out, (n2, m2')) ∧
      (bindings_redacted m2 = bindings_redacted m → bindings_redacted m2' = bindings_redacted m')).

Lemma faithful_ret {A} (a : A) (good : SecretBindings → A → Prop) :
  (∀ k final, drawn_below k final → good final a) → faithful (mret a) (λ _, mret a) good.
Proof.
  intros Hgood n m out n' m' Hm Hrun. unfold mret, stm_ret in *. simplify_eq. split_and!; [done..|].
  intros k final _ Hfinal. split; [by eapply Hgood|]. eauto.
Qed.

Abbreviation run := (stm (nat * SecretBindings) HostInputError).

Lemma faithful_bind {A B : Type} (f : run A) (again : SecretBindings → run A) (h : A → run B) (hagain : SecretBindings → A → run B)
    (good : SecretBindings → A → Prop) (good' : A → SecretBindings → B → Prop) (good'' : SecretBindings → B → Prop) :
  faithful f again good → (∀ a, faithful (h a) (λ final, hagain final a) (good' a)) →
  (∀ final a b, good final a → good' a final b → good'' final b) →
  faithful (f ≫= h) (λ final, again final ≫= hagain final) good''.
Proof.
  intros Hf Hh Hgood n m out n' m' Hm Hrun. unfold mbind, stm_bind in *.
  destruct (f (n, m)) as [[a|e| |] [n1 m1]] eqn:Hfirst; simplify_eq/=.
  destruct (Hf _ _ _ _ _ Hm Hfirst) as (Hn1 & Hm1 & Hb1 & H1).
  destruct (Hh _ _ _ _ _ _ Hb1 Hrun) as (Hn2 & Hm2 & Hb2 & H2).
  split_and!; [lia|by trans m1|done|]. intros k final Hfinal Hk.
  destruct (H1 k final) as [Hg1 Ha1]; [by trans m'|done|]. destruct (H2 k final Hfinal Hk) as [Hg2 Ha2].
  split; [by eapply Hgood|]. intros Hunique n2 m2. destruct (Ha1 Hunique n2 m2) as (m2' & -> & Hsame).
  destruct (Ha2 Hunique n2 m2') as (m2'' & -> & Hsame'). eauto.
Qed.

Lemma faithful_map {A B : Type} (h : A → B) (f : run A) (again : SecretBindings → run A)
    (good : SecretBindings → A → Prop) (good' : SecretBindings → B → Prop) :
  faithful f again good → (∀ final a, good final a → good' final (h a)) →
  faithful (a ← f; mret (h a)) (λ final, a ← again final; mret (h a)) good'.
Proof.
  intros Hf Hgood. eapply (faithful_bind f again _ _ good (λ a _ b, b = h a)); [done|intros a; by apply faithful_ret|].
  intros final a b Ha ->. by apply Hgood.
Qed.

Lemma faithful_map2 {A B C : Type} (h : A → B → C) (f : run A) (again : SecretBindings → run A)
    (g : run B) (gagain : SecretBindings → run B) (good1 : SecretBindings → A → Prop)
    (good2 : SecretBindings → B → Prop) (good : SecretBindings → C → Prop) :
  faithful f again good1 → faithful g gagain good2 → (∀ final a b, good1 final a → good2 final b → good final (h a b)) →
  faithful (a ← f; b ← g; mret (h a b)) (λ final, a ← again final; b ← gagain final; mret (h a b)) good.
Proof.
  intros Hf Hg Hgood.
  eapply (faithful_bind f again _ (λ final a, b ← gagain final; mret (h a b)) good1 (λ a final c, ∃ b, good2 final b ∧ c = h a b)); [done| |].
  - intros a. apply (faithful_map (h a) g gagain good2); [done|eauto].
  - intros final a c Ha (b & Hb & ->). by apply Hgood.
Qed.

(** The placeholder of a secret that has none yet *)
Lemma placeholderize_secret_fresh secret name_path n m out n' m' :
  placeholderize_secret fill self None secret name_path (n, m) = (Ret out, (n', m')) →
  ∃ p, drawn n p ∧ out = JString (JsonNumber := JsonNumber) p ∧ n' = S n ∧ trim name_path ≠ [] ∧ p ≠ [] ∧
    m' = <[p := {| sb_name := name_path; sb_placeholder := p; sb_value := Present secret;
                   sb_allowed_hosts := list_to_set (lower_host <$> mt_hosts self) |}]> m ∧
    (ends_with name_path (bytes_of "_ID_TOKEN")
     || (mt_jwt_access_token_placeholder self && ends_with name_path (bytes_of "_ACCESS_TOKEN")) = true → looks_like_jwt p = true).
Proof.
  unfold placeholderize_secret, auth_placeholder, context_placeholder, secret_binding_new. cbn [mbind option_bind].
  destruct (ends_with name_path _ || _); cbn [negb];
    unfold mbind, stm_bind, with_random, new_with_placeholder, mret, stm_ret, stm_fail, stm_modify, placeholder_for; cbn [fst snd];
    (destruct (decide (trim name_path = [])) as [?|Hname]; [by rewrite bool_decide_eq_true_2 by done|]);
    rewrite !(bool_decide_eq_false_2 (trim name_path = [])) by done.
  - cbn [bool_decide]. rewrite (bool_decide_eq_false_2 (bytes_of "placeholder-value" = [])) by done. unfold mbind, stm_bind.
    destruct (fill n) as [b|] eqn:Hfill; [|done]. simpl.
    case_bool_decide; [done|]. intros ?; simplify_eq/=. eexists. split_and!; [|done..|]; [by exists name_path, b; auto|].
    intros _. apply jwt_placeholder_looks, placeholder_text_no_dot.
  - case_bool_decide; [done|]. unfold mbind, stm_bind. destruct (fill n) as [b|] eqn:Hfill; [|done]. simpl.
    intros ?; simplify_eq/=. eexists. split_and!; [|done..|done]. by exists name_path, b; auto.
Qed.

Hypothesis Hfresh : fresh_draws.

Lemma faithful_secret secret name_path :
  secret ≠ [] →
  faithful (placeholderize_secret fill self None secret name_path)
    (λ final, placeholderize_secret fill self (Some (bindings_redacted final)) secret name_path)
    (λ final out, restore final out = (JString secret : Value)).
Proof.
  intros Hsecret n m out n' m' Hm Hrun.
  destruct (placeholderize_secret_fresh _ _ _ _ _ _ _ Hrun) as (p & Hp & -> & -> & Hname & Hne & -> & Hjwt). clear Hrun.
  assert (m !! p = None) as Hnone.
  { destruct (m !! p) as [b|] eqn:Hb; [|done]. destruct (Hm p b Hb) as (_ & i & Hi & Hdrawn).
    rewrite (drawn_inj i n p) in Hi by done. lia. }
  split_and!; [lia|by apply insert_subseteq| |].
  - intros q b. rewrite lookup_insert_Some. intros [[<- <-]|[_ Hb]]; [split; [done|]; exists n; split; [lia|done]|].
    by apply (drawn_below_mono n (S n) m ltac:(lia) Hm q b Hb).
  - intros k final Hfinal Hk.
    assert (∀ b, (<[p := b]> m : SecretBindings) ⊆ final → final !! p = Some b) as Hlook.
    { intros b Hsub. eapply lookup_weaken; [|done]. apply lookup_insert_eq. }
    apply Hlook in Hfinal. split; [simpl; by rewrite Hfinal|].
    intros Hunique n2 m2. unfold placeholderize_secret, auth_placeholder, context_placeholder. cbn [mbind option_bind].
    assert (placeholder_for_name (bindings_redacted final) name_path = Some p) as ->.
    { by apply (placeholder_for_name_redacted final p _ Hunique Hfinal). }
    destruct (ends_with name_path _ || _) eqn:Hj; [rewrite Hjwt by done|]; cbn [andb negb];
      unfold mbind, stm_bind, with_random, new_with_placeholder, mret, stm_ret, stm_modify; cbn [fst snd];
      rewrite (bool_decide_eq_false_2 (trim name_path = [])), (bool_decide_eq_false_2 (secret = [])) by done;
      unfold mbind, stm_bind; rewrite (bool_decide_eq_false_2 (p = [])) by done; simpl;
      (eexists; split; [done|]); intros Hsame; unfold bindings_insert, bindings_redacted in *; by rewrite !fmap_insert, Hsame.
Qed.

Lemma drawn_head i p : drawn i p → head p = Some 65 ∨ head p = Some 101.
Proof. intros (name & b & _ & [->| ->]); [by left|by right]. Qed.

Lemma restore_public final k s :
  drawn_below k final → (∀ i, ¬ drawn i s) → restore final (JString s : Value) = JString s.
Proof.
  intros Hfinal Hs. cbn [restore]. destruct (final !! s) as [b|] eqn:Hb; [|done].
  destruct (Hfinal s b Hb) as (_ & i & _ & Hi). by destruct (Hs i).
Qed.

Lemma restore_fixed key child child' final k :
  fixed_child key child = Some child' → drawn_below k final → restore final child' = child'.
Proof.
  intros Hfixed Hfinal.
  assert (∀ s, head s ≠ Some 65 → head s ≠ Some 101 → restore final (JString s : Value) = JString s) as Htext.
  { intros s H1 H2. eapply restore_public; [done|]. by intros i [?|?]%drawn_head. }
  unfold JsonAuth.fixed_child in Hfixed. destruct (omitted self key); [simplify_eq; by apply Htext|].
  destruct (_ && _); [|done]. destruct child; simplify_eq/=; [done|]. by apply Htext.
Qed.

Lemma faithful_value value sensitive name_path :
  unambiguous sensitive value →
  faithful (placeholderize None value sensitive name_path)
    (λ final, placeholderize (Some (bindings_redacted final)) value sensitive name_path)
    (λ final out, restore final out = settle value).
Proof.
  revert sensitive name_path. induction value as [|b|x|s|values IH|object IH] using Value_nested_ind; intros sensitive name_path;
    cbn [placeholderize_auth_value settle unambiguous]; intros Hsafe; [by apply faithful_ret..| | |].
  - destruct (sensitive && negb (bool_decide (s = []))) eqn:Hs.
    + apply andb_true_iff in Hs as [_ Hs%negb_true_iff%bool_decide_eq_false]. by apply faithful_secret.
    + apply faithful_ret. intros k final Hfinal. destruct Hsafe as [[-> Hne]|Hs']; [|by eapply restore_public].
      by rewrite bool_decide_eq_false_2 in Hs.
  - apply (faithful_map JArray _ _ (λ final out, restore final <$> out = settle <$> values)); [|intros final a Ha; cbn [restore]; by rewrite Ha].
    generalize 0 as index. revert Hsafe. induction IH as [|v values Hv Hvs IH]; intros Hsafe index; [by apply faithful_ret|].
    destruct Hsafe as [Hsafe Hrest]. eapply (faithful_map2 cons); [apply Hv, Hsafe|apply IH, Hrest|].
    intros final v' vs' Hv' Hvs'. cbn beta in *. by rewrite !fmap_cons, Hv', Hvs'.
  - apply (faithful_map JObject _ _ (λ final out, (λ entry, (entry.1, restore final entry.2)) <$> out =
      (fix go object := match object with
        | [] => []
        | (key, child) :: object =>
          (key, match fixed_child key child with Some child' => child' | None => settle child end) :: go object
        end) object)); [|intros final a Ha; cbn [restore]; by rewrite Ha].
    revert Hsafe. induction IH as [|[key v] object Hv Hvs IH]; intros Hsafe; [by apply faithful_ret|].
    destruct Hsafe as [Hsafe Hrest].
    eapply (faithful_map2 (λ child' object', (key, child') :: object') _ _ _ _
      (λ final out, restore final out = match fixed_child key v with Some child' => child' | None => settle v end));
      [|apply IH, Hrest|intros final v' vs' Hv' Hvs'; cbn beta in *; rewrite fmap_cons, Hvs'; cbn [fst snd]; by rewrite Hv'].
    destruct (fixed_child key v) as [v'|] eqn:Hfixed; [|apply Hv, Hsafe].
    apply faithful_ret. intros k final Hfinal. by eapply restore_fixed.
Qed.

(** From no bindings at all: the values put back give the file, and a run with the bindings
    gives the same file and the same bindings. *)
Lemma placeholderize_faithful value name_path n out n' m :
  unambiguous false value → placeholderize None value false name_path (n, ∅) = (Ret out, (n', m)) →
  restore m out = settle value ∧
  (names_unique m → ∀ n2, ∃ m2, placeholderize (Some (bindings_redacted m)) value false name_path (n2, ∅) = (Ret out, (n2, m2)) ∧
    bindings_redacted m2 = bindings_redacted m).
Proof.
  intros Hsafe Hrun. destruct (faithful_value value false name_path Hsafe n ∅ out n' m) as (_ & _ & Hm & Hgood); [|done|].
  { intros p b Hb. by rewrite lookup_empty in Hb. }
  destruct (Hgood n' m) as [Hrestore Hagain]; [done|done|]. split; [done|]. intros Hunique n2.
  destruct (Hagain Hunique n2 ∅) as (m2 & Hm2 & Hsame). eauto.
Qed.
End faithful.

(** ** Materializing a file *)
Section properties.
Context {JsonNumber : Type} (number_from : Z → JsonNumber).
Context (fill : nat → option bytes) (self : MediatedJsonAuthTransform) (label : str).
Context (from_slice : bytes → option (Value (JsonNumber := JsonNumber))).
Context (to_vec_pretty : Value (JsonNumber := JsonNumber) → option bytes).

(** What the guest is given and what is known of a binding without its value *)
Definition guest_view (input : MaterializedHostInput) : bytes * SecretBindings :=
  (mi_contents input, bindings_redacted (mi_secrets input)).

Abbreviation materialize context := (json_materialize number_from fill self context from_slice to_vec_pretty label).

Lemma json_materialize_alike context contents contents' value value' n :
  from_slice contents = Some value → from_slice contents' = Some value' →
  erase number_from self false value = erase number_from self false value' →
  guest_view <$> (materialize context contents n).1 = guest_view <$> (materialize context contents' n).1 ∧
  (materialize context contents n).2 = (materialize context contents' n).2.
Proof.
  intros Hread Hread' Heq. unfold json_materialize. rewrite Hread, Hread'.
  pose proof (placeholderize_erased number_from fill self context value false (mt_prefix self) n ∅ ∅ eq_refl) as H1.
  pose proof (placeholderize_erased number_from fill self context value' false (mt_prefix self) n ∅ ∅ eq_refl) as H2.
  rewrite Heq, <-H2 in H1. clear H2. unfold forget in H1.
  destruct (placeholderize_auth_value number_from fill self context value false (mt_prefix self) (n, ∅)) as [[o| | |] [n1 m1]],
    (placeholderize_auth_value number_from fill self context value' false (mt_prefix self) (n, ∅)) as [[o'| | |] [n2 m2]];
    simplify_eq/=; try done.
  destruct (to_vec_pretty _); [|done]. split; [|done]. unfold guest_view. simpl. by do 2 f_equal.
Qed.

(** two credential files that differ in their secrets only are materialized alike: the
    guest is given the same file, and the bindings differ in nothing but their values. *)
Theorem credentials_hidden context contents contents' value value' n :
  from_slice contents = Some value → from_slice contents' = Some value' →
  erase number_from self false value = erase number_from self false value' →
  guest_view <$> (materialize context contents n).1 = guest_view <$> (materialize context contents' n).1.
Proof. intros Hread Hread' Heq. by apply (json_materialize_alike context contents contents' value value' n). Qed.

(** C26: no secret is lost: when the values of the bindings are put back for the placeholders
    in the guest's file, it is the file of the host as the transform settles it, with the refresh
    tokens it omits blanked and the expiry times it fixes set; so it is the very file of the host when
    there is nothing of the kind in it.  The random draws are fresh, and no value that stays in the file
    reads like a placeholder. *)
Theorem credentials_restored contents value n input n' :
  fresh_draws fill → from_slice contents = Some value → unambiguous number_from fill self false value →
  materialize None contents n = (Ret input, n') →
  ∃ guest, to_vec_pretty guest = Some (mi_contents input) ∧ restore (mi_secrets input) guest = settle number_from self value ∧
    (settled number_from self value → restore (mi_secrets input) guest = value).
Proof.
  intros Hfresh Hread Hsafe Hrun. unfold json_materialize in Hrun. rewrite Hread in Hrun.
  destruct (placeholderize_auth_value _ _ _ _ _ _ _ _) as [[out|e| |] [n1 m]] eqn:Hvalue; simplify_eq/=.
  destruct (to_vec_pretty out) as [text|] eqn:Hprint; simplify_eq/=.
  assert (restore m out = settle number_from self value) as Hback by (by eapply placeholderize_faithful).
  exists out. split_and!; [done..|]. intros Hset. rewrite Hback. by apply settle_settled.
Qed.

(** C25: when the credentials change on the host, the file of the guest stays: materialized
    again with the bindings of the first time, a file that differs from the first in its secrets only
    gives the guest the same contents and the same placeholders, provided that the names of the
    secrets of the first file are distinct, that the random draws were fresh, and that no value that
    stays in the file reads like a placeholder.  (Without the first, [colliding_names_lose_a_secret].) *)
Theorem credentials_rotate contents contents' value value' n first n' n2 :
  fresh_draws fill → from_slice contents = Some value → from_slice contents' = Some value' →
  unambiguous number_from fill self false value →
  erase number_from self false value = erase number_from self false value' →
  materialize None contents n = (Ret first, n') → names_unique (mi_secrets first) →
  ∃ second, materialize (Some (bindings_redacted (mi_secrets first))) contents' n2 = (Ret second, n2) ∧
    guest_view second = guest_view first.
Proof.
  intros Hfresh Hread Hread' Hsafe Heq Hrun Hunique.
  assert (∃ second, materialize (Some (bindings_redacted (mi_secrets first))) contents n2 = (Ret second, n2) ∧
    guest_view second = guest_view first) as (second & Hsecond & Hview).
  { unfold json_materialize in *. rewrite Hread in *.
    destruct (placeholderize_auth_value _ _ _ None _ _ _ _) as [[out|e| |] [n1 m]] eqn:Hvalue; simplify_eq/=.
    destruct (to_vec_pretty out) as [text|] eqn:Hprint; simplify_eq/=.
    destruct (placeholderize_faithful number_from fill self Hfresh value _ _ _ _ _ Hsafe Hvalue) as [_ Hagain].
    destruct (Hagain Hunique n2) as (m2 & -> & Hsame). rewrite Hprint. eexists. split; [done|].
    unfold guest_view. simpl. by rewrite Hsame. }
  destruct (json_materialize_alike (Some (bindings_redacted (mi_secrets first))) contents contents' value value' n2) as [Ho Hn]; [done..|].
  rewrite Hsecond in Ho, Hn. destruct (materialize _ contents' n2) as [[second'| | |] k]; simplify_eq/=.
  exists second'. split; [done|]. unfold guest_view in *. congruence.
Qed.
End properties.

(** ** A file of credentials *)
Definition example_fill (i : nat) : option bytes := if (i <? 256)%nat then Some (Z.of_nat i :: replicate 15 0) else None.

Lemma example_fresh : fresh_draws example_fill.
Proof.
  unfold example_fill. split.
  - intros i b. destruct (Nat.ltb_spec i 256); [|done]. intros [= <-]. split; [done|].
    constructor; [unfold is_byte; lia|]. apply (bool_decide_unpack (are_bytes (replicate 15 0))). by vm_compute.
  - intros i j b. destruct (Nat.ltb_spec i 256), (Nat.ltb_spec j 256); intros; simplify_eq. lia.
Qed.

Definition example_transform : MediatedJsonAuthTransform := {|
  mt_name := bytes_of "codex-auth"; mt_prefix := bytes_of "CODEX_AUTH"; mt_hosts := [bytes_of "api.openai.com"];
  mt_normalize_expiry := true; mt_jwt_access_token_placeholder := true; mt_omit_refresh_token := true;
  mt_managed_credential := Some ManagedCodex |}.

Definition example_credentials (access key : str) : Value (JsonNumber := Z) :=
  JObject [(bytes_of "account", JString (bytes_of "me"));
    (bytes_of "tokens", JObject [(bytes_of "access_token", JString access); (bytes_of "refresh_token", JString (bytes_of "old"));
      (bytes_of "expires_at", JNumber 1700000000)]);
    (bytes_of "api_key", JString key)].

(** The strings of a value, in order *)
Fixpoint value_text (value : Value (JsonNumber := Z)) : bytes :=
  match value with
  | JObject object => object ≫= λ entry, entry.1 ++ [58] ++ value_text entry.2
  | JArray values => values ≫= value_text
  | JString s => [34] ++ s ++ [34]
  | JNumber n => to_string n
  | _ => []
  end.

Definition example_read (contents : bytes) : option (Value (JsonNumber := Z)) :=
  match contents with [] => Some (example_credentials (bytes_of "first") (bytes_of "key")) | _ => Some (example_credentials (bytes_of "second") (bytes_of "new key")) end.

Abbreviation example_materialize context contents n :=
  (json_materialize id example_fill example_transform context example_read (Some ∘ value_text) (bytes_of "Codex auth") contents n).

Lemma example_settles : fresh_draws example_fill ∧ unambiguous id example_fill example_transform false (example_credentials (bytes_of "first") (bytes_of "key")).
Proof.
  split; [apply example_fresh|].
  assert (∀ s, head s ≠ Some 65 → head s ≠ Some 101 → ∀ i, ¬ drawn example_fill i s) as Hpublic.
  { intros s H1 H2 i [?|?]%drawn_head; congruence. }
  cbn [unambiguous example_credentials]. repeat case_match; simplify_eq/=; split_and!; try done; try (left; split; [reflexivity|done]).
  all: right; by apply Hpublic.
Qed.

(** What the first file becomes *)
Definition example_input : MaterializedHostInput :=
  match (example_materialize None [] 0%nat).1 with Ret input => input | _ => {| mi_contents := []; mi_secrets := ∅ |} end.

Lemma example_returns : match example_materialize None [] 0%nat with (Ret _, n) => (n =? 2)%nat | _ => false end = true.
Proof. vm_compute. reflexivity. Qed.

Lemma example_materialized : example_materialize None [] 0%nat = (Ret example_input, 2%nat).
Proof.
  unfold example_input. pose proof example_returns as Hreturns.
  destruct (example_materialize None [] 0%nat) as [[input| | |] n]; try done. by apply Nat.eqb_eq in Hreturns as ->.
Qed.

Lemma example_names : names_unique (mi_secrets example_input).
Proof.
  assert (bool_decide (map_Forall (λ p b, map_Forall (λ q c, sb_name b = sb_name c → p = q) (mi_secrets example_input))
    (mi_secrets example_input)) = true) as Hall%bool_decide_eq_true by (vm_compute; reflexivity).
  intros p q b c Hb Hc. exact (Hall p b Hb q c Hc).
Qed.

#[local] Opaque example_input.

Lemma credentials_hidden_witness :
  (example_materialize None [] 0%nat).1 = Ret example_input ∧
  guest_view <$> (example_materialize None [] 0%nat).1 = guest_view <$> (example_materialize None [1] 0%nat).1.
Proof.
  split; [rewrite example_materialized; reflexivity|].
  apply (credentials_hidden id example_fill example_transform (bytes_of "Codex auth") example_read (Some ∘ value_text) None [] [1]
    (example_credentials (bytes_of "first") (bytes_of "key")) (example_credentials (bytes_of "second") (bytes_of "new key")) 0);
    vm_compute; reflexivity.
Defined.

Lemma credentials_restored_witness :
  ∃ guest, Some (value_text guest) = Some (mi_contents example_input) ∧
    restore (mi_secrets example_input) guest =
    settle id example_transform (example_credentials (bytes_of "first") (bytes_of "key")).
Proof.
  destruct (credentials_restored id example_fill example_transform (bytes_of "Codex auth") example_read (Some ∘ value_text) []
    (example_credentials (bytes_of "first") (bytes_of "key")) 0 example_input 2) as (guest & Hguest & Hback & _);
    [exact (proj1 example_settles)|reflexivity|exact (proj2 example_settles)|exact example_materialized|].
  exists guest. by split.
Defined.

Lemma credentials_rotate_witness :
  ∃ second, example_materialize (Some (bindings_redacted (mi_secrets example_input))) [1] 7%nat = (Ret second, 7%nat) ∧
    guest_view second = guest_view example_input.
Proof.
  apply (credentials_rotate id example_fill example_transform (bytes_of "Codex auth") example_read (Some ∘ value_text) [] [1]
    (example_credentials (bytes_of "first") (bytes_of "key")) (example_credentials (bytes_of "second") (bytes_of "new key")) 0 example_input 2 7);
    [exact (proj1 example_settles)|reflexivity|reflexivity|exact (proj2 example_settles)|vm_compute; reflexivity|exact example_materialized|exact example_names].
Defined.

(** ** Names that collide

    Two keys that differ in punctuation only give their secrets one name.  The first time
    each has its placeholder; a later run finds the placeholder of the first for both, and
    the binding of the second secret replaces that of the first. *)
Definition colliding_credentials : Value (JsonNumber := Z) :=
  JObject [(bytes_of "a-token", JString (bytes_of "one")); (bytes_of "a_token", JString (bytes_of "two"))].

Definition colliding_run (context : MaterializationContext) (n : nat) : MaterializedHostInput :=
  match (json_materialize id example_fill example_transform context (λ _, Some colliding_credentials)
    (Some ∘ value_text) (bytes_of "Codex auth") [] n).1 with
  | Ret input => input
  | _ => {| mi_contents := []; mi_secrets := ∅ |}
  end.

Theorem colliding_names_lose_a_secret :
  let first := colliding_run None 0 in
  let second := colliding_run (Some (bindings_redacted (mi_secrets first))) 2 in
  binding_value <$> bindings_iter (mi_secrets first) = [Some (bytes_of "one"); Some (bytes_of "two")] ∧
  binding_value <$> bindings_iter (mi_secrets second) = [Some (bytes_of "two")].
Proof. split; vm_compute; reflexivity. Qed.
