(* ===== verification/HostInput.v ===== *)
(** * What a manifest asks of the host
      (src/core/agentdp-core/src/provisioning/host_input.rs)

    The plugins and the secrets of a manifest require variables of the [.env]
    file and credential files of the host.  A mediated variable reaches the guest
    as a placeholder, with the hosts its value is allowed for; a copied one as it
    is.  [materialize_custom_env] makes the guest's [.env] of the host's. *)
From S2P Require Import Prelude Text Ordered Format Secrets JsonAuth.
Local Open Scope Z_scope.

(** ** Files *)
Inductive HostInputTransformRef := TransformCopy | TransformPlugin (transform : MediatedJsonAuthTransform).

Definition transform_name (self : HostInputTransformRef) : str :=
  match self with TransformCopy => bytes_of "copy" | TransformPlugin transform => mt_name transform end.

(** [MediatedJsonAuthTransform::produces_secrets] is true. *)
Definition transform_produces_secrets (self : HostInputTransformRef) : bool :=
  match self with TransformCopy => false | TransformPlugin _ => true end.

Definition transform_managed_credential (self : HostInputTransformRef) : option ManagedHostCredential :=
  match self with TransformCopy => None | TransformPlugin transform => mt_managed_credential transform end.

(** [HomeRelative] and [AgentHomeRelative] are the only sources and guest paths. *)
Record HostInputFileSource := {
  path_env : option str;
  home_env : option str;
  home_relative_path : str;
  default_home_relative_path : str;
}.
#[export] Instance host_input_file_source_eq_dec : EqDecision HostInputFileSource.
Proof. solve_decision. Defined.

Record HostInputFile := {
  hf_label : str;
  hf_source : HostInputFileSource;
  hf_guest_path : str;
  hf_permissions : str;
  hf_transform : HostInputTransformRef;
}.

(** [==] compares the transforms by name. *)
Definition host_input_file_eqb (self other : HostInputFile) : bool :=
  bool_decide (hf_label self = hf_label other) && bool_decide (hf_source self = hf_source other)
  && bool_decide (hf_guest_path self = hf_guest_path other) && bool_decide (hf_permissions self = hf_permissions other)
  && bool_decide (transform_name (hf_transform self) = transform_name (hf_transform other)).

Definition produces_secrets (self : HostInputFile) : bool := transform_produces_secrets (hf_transform self).
Definition managed_credential (self : HostInputFile) : option ManagedHostCredential :=
  transform_managed_credential (hf_transform self).

(** [HostInputFile::materialize] *)
Definition file_materialize {JsonNumber : Type} (number_from : Z → JsonNumber) (fill : nat → option bytes)
    (from_slice : bytes → option (Value (JsonNumber := JsonNumber)))
    (to_vec_pretty : Value (JsonNumber := JsonNumber) → option bytes)
    (self : HostInputFile) (contents : bytes) (context : MaterializationContext) :
    stm nat HostInputError MaterializedHostInput :=
  match hf_transform self with
  | TransformCopy => mret {| mi_contents := contents; mi_secrets := ∅ |}
  | TransformPlugin transform =>
    json_materialize number_from fill transform context from_slice to_vec_pretty (hf_label self) contents
  end.

(** ** Requirements *)
Record MediatedEnvSecret := { me_guest_name : str; me_allowed_hosts : gset str }.
#[export] Instance mediated_env_secret_eq_dec : EqDecision MediatedEnvSecret.
Proof. solve_decision. Defined.

Record HostInputRequirements := {
  mediated_env_secrets : gmap str MediatedEnvSecret;
  required_mediated_env_groups : list (gset str);
  copied_env_names : gset str;
  files : list HostInputFile;
}.

Definition requirements_default : HostInputRequirements :=
  {| mediated_env_secrets := ∅; required_mediated_env_groups := []; copied_env_names := ∅; files := [] |}.

(** [map.entry(source).or_insert_with(guest).allowed_hosts.extend(hosts)] *)
Definition allow_hosts_of (source guest : str) (hosts : gset str) (secrets : gmap str MediatedEnvSecret) :
    gmap str MediatedEnvSecret :=
  let entry := default {| me_guest_name := guest; me_allowed_hosts := ∅ |} (secrets !! source) in
  <[source := {| me_guest_name := me_guest_name entry; me_allowed_hosts := me_allowed_hosts entry ∪ hosts |}]> secrets.

Definition allow_mediated_secret_hosts (names hosts : list str) (self : HostInputRequirements) : HostInputRequirements :=
  let names : gset str := list_to_set names in
  {| mediated_env_secrets :=
       foldl (λ secrets name, allow_hosts_of name name (list_to_set hosts) secrets) (mediated_env_secrets self) (set_sorted names);
     required_mediated_env_groups := required_mediated_env_groups self ++ [names];
     copied_env_names := copied_env_names self; files := files self |}.

Definition allow_mediated_secret_hosts_dynamic (source_name guest_name : str) (hosts : list str)
    (self : HostInputRequirements) : HostInputRequirements :=
  {| mediated_env_secrets := allow_hosts_of source_name guest_name (list_to_set hosts) (mediated_env_secrets self);
     required_mediated_env_groups := required_mediated_env_groups self ++ [{[ source_name ]}];
     copied_env_names := copied_env_names self; files := files self |}.

Definition copy_custom_env (names : list str) (self : HostInputRequirements) : HostInputRequirements :=
  {| mediated_env_secrets := mediated_env_secrets self; required_mediated_env_groups := required_mediated_env_groups self;
     copied_env_names := copied_env_names self ∪ list_to_set names; files := files self |}.

Definition add_file (file : HostInputFile) (self : HostInputRequirements) : HostInputRequirements :=
  {| mediated_env_secrets := mediated_env_secrets self; required_mediated_env_groups := required_mediated_env_groups self;
     copied_env_names := copied_env_names self; files := files self ++ [file] |}.

Definition mediated_secret_allowed_hosts (self : HostInputRequirements) : list str :=
  set_sorted (⋃ (me_allowed_hosts <$> map_values (mediated_env_secrets self))).

Definition mediated_secret_allowed_hosts_for (name : str) (self : HostInputRequirements) : list str :=
  match mediated_env_secrets self !! name with Some secret => set_sorted (me_allowed_hosts secret) | None => [] end.

Definition mediated_secret_guest_name_for (name : str) (self : HostInputRequirements) : option str :=
  me_guest_name <$> mediated_env_secrets self !! name.

Definition copies_custom_env (self : HostInputRequirements) : bool := negb (bool_decide (copied_env_names self = ∅)).
Definition copies_custom_env_name (name : str) (self : HostInputRequirements) : bool := bool_decide (name ∈ copied_env_names self).

Definition has_mediated_secret_inputs (self : HostInputRequirements) : bool :=
  negb (bool_decide (mediated_env_secrets self = ∅)) || existsb produces_secrets (files self).
Definition has_mediated_env_secret_inputs (self : HostInputRequirements) : bool :=
  negb (bool_decide (mediated_env_secrets self = ∅)).

(** [Vec::dedup]: of equal neighbours one is kept *)
Fixpoint dedup_neighbours {A} `{EqDecision A} (l : list A) : list A :=
  match l with
  | [] => []
  | x :: l' => match l' with
               | y :: _ => if decide (x = y) then dedup_neighbours l' else x :: dedup_neighbours l'
               | [] => [x]
               end
  end.

(** [groups.sort(); groups.dedup()]: sets are compared as the lists of their elements. *)
Fixpoint strs_leb (a b : list str) : bool :=
  match a, b with
  | [], _ => true
  | _ :: _, [] => false
  | x :: a, y :: b => if decide (x = y) then strs_leb a b else str_leb x y
  end.
Definition group_le (a b : gset str) : Prop := strs_leb (set_sorted a) (set_sorted b) = true.
#[export] Instance group_le_dec : RelDecision group_le.
Proof. intros a b. unfold group_le. apply _. Defined.
Definition sorted_groups (groups : list (gset str)) : list (gset str) := dedup_neighbours (merge_sort group_le groups).

(** [Iterator::eq] of the files that produce secrets *)
Fixpoint files_eqb (a b : list HostInputFile) : bool :=
  match a, b with
  | [], [] => true
  | x :: a, y :: b => host_input_file_eqb x y && files_eqb a b
  | _, _ => false
  end.

Definition has_same_mediated_auth_bindings (self other : HostInputRequirements) : bool :=
  bool_decide (size (mediated_env_secrets self) = size (mediated_env_secrets other))
  && forallb (λ '(source, secret),
       match mediated_env_secrets other !! source with
       | Some other => bool_decide (me_guest_name secret = me_guest_name other)
       | None => false
       end) (map_sorted (mediated_env_secrets self))
  && bool_decide (sorted_groups (required_mediated_env_groups self) = sorted_groups (required_mediated_env_groups other))
  && files_eqb (List.filter produces_secrets (files self)) (List.filter produces_secrets (files other)).

(** ** The host's environment file *)
Record CustomEnvAssignment := { ca_prefix : str; ca_name : str; ca_value : str }.

Definition export_prefix : str := bytes_of "export ".

Definition parse_custom_env_assignment (line : str) : option CustomEnvAssignment :=
  let trimmed := trim line in
  let '(prefix, assignment) :=
    match Text.strip_prefix (bytes_of "export") trimmed with
    | Some rest => match rest with
                   | c :: _ => if is_whitespace c then (export_prefix, trim_start rest) else ([], trimmed)
                   | [] => ([], trimmed)
                   end
    | None => ([], trimmed)
    end in
  '(name, value) ← split_once 61 assignment;
  let name := trim name in
  if bool_decide (name = []) then None else Some {| ca_prefix := prefix; ca_name := name; ca_value := value |}.

(** [names.join(", ")] *)
Definition join_names (names : gset str) : str := intercalate (bytes_of ", ") (set_sorted names).

Section custom_env.
Variable fill : nat → option bytes.
Variable self : HostInputRequirements.
Variable context : MaterializationContext.

(** The guest's file, the bindings, and the names materialized so far *)
Record EnvProgress := { guest_env : bytes; env_secrets : SecretBindings; materialized_mediated_names : gset str }.

(** A line of the host's file *)
Definition env_line (line : str) (acc : EnvProgress) : stm nat HostInputError EnvProgress :=
  let verbatim := {| guest_env := guest_env acc ++ utf8_encode line ++ [10]; env_secrets := env_secrets acc;
                     materialized_mediated_names := materialized_mediated_names acc |} in
  match parse_custom_env_assignment line with
  | None => mret verbatim
  | Some assignment =>
    let name := ca_name assignment in
    let mediated := mediated_env_secrets self !! name in
    if copies_custom_env_name name self && bool_decide (is_Some mediated) then stm_fail (ConflictingCustomEnvAuth name)
    else match mediated with
    | None => mret verbatim
    | Some mediated =>
      let guest_name := me_guest_name mediated in
      binding ← λ n, let '(o, n') := new_with_placeholder fill guest_name (context_placeholder context guest_name)
                       (unquote_env_value (trim (ca_value assignment))) (set_sorted (me_allowed_hosts mediated)) n in
                     (map_err SecretFailed o, n');
      mret {| guest_env := guest_env acc ++ utf8_encode (ca_prefix assignment) ++ utf8_encode guest_name ++ [61]
                ++ utf8_encode (sb_placeholder binding) ++ [10];
              env_secrets := bindings_insert binding (env_secrets acc);
              materialized_mediated_names := {[ name ]} ∪ materialized_mediated_names acc |}
    end
  end.

Fixpoint env_lines (lines : list str) (acc : EnvProgress) : stm nat HostInputError EnvProgress :=
  match lines with
  | [] => mret acc
  | line :: lines => acc ← env_line line acc; env_lines lines acc
  end.

(** The groups of which no name was materialized *)
Definition missing_group (names : gset str) : option (gset str) :=
  find_first (λ group, bool_decide (group ## names)) (required_mediated_env_groups self).

Definition materialize_custom_env (contents : bytes) : stm nat HostInputError MaterializedHostInput :=
  acc ← env_lines (lines (from_utf8_lossy contents)) {| guest_env := []; env_secrets := ∅; materialized_mediated_names := ∅ |};
  match missing_group (materialized_mediated_names acc) with
  | Some group => stm_fail (MissingCustomEnvAuth (join_names group))
  | None => mret {| mi_contents := guest_env acc; mi_secrets := env_secrets acc |}
  end.
End custom_env.

(** ** The guest's environment file does not depend on the secrets *)
Section custom_env_properties.
Variable fill : nat → option bytes.
Variable self : HostInputRequirements.
Variable context : MaterializationContext.

Abbreviation env_line := (env_line fill self context).
Abbreviation env_lines := (env_lines fill self context).

(** What may be known of a line: all of it, or for a mediated variable its name and
    whether it has a value *)
Inductive PublicLine :=
| Verbatim (line : str)
| Mediated (prefix name : str) (empty : bool).

Definition assigned_value (a : CustomEnvAssignment) : str := unquote_env_value (trim (ca_value a)).

Definition public_line (line : str) : PublicLine :=
  match parse_custom_env_assignment line with
  | Some a => if bool_decide (is_Some (mediated_env_secrets self !! ca_name a))
              then Mediated (ca_prefix a) (ca_name a) (bool_decide (assigned_value a = []))
              else Verbatim line
  | None => Verbatim line
  end.

Definition public_progress (acc : EnvProgress) : bytes * SecretBindings * gset str :=
  (guest_env acc, bindings_redacted (env_secrets acc), materialized_mediated_names acc).

(** A line either stays as it is or is an assignment to a mediated variable. *)
Lemma public_line_cases line :
  public_line line = Verbatim line ∧ (∀ acc n, env_line line acc n =
    (Ret {| guest_env := guest_env acc ++ utf8_encode line ++ [10]; env_secrets := env_secrets acc;
            materialized_mediated_names := materialized_mediated_names acc |}, n)) ∨
  ∃ a m, parse_custom_env_assignment line = Some a ∧ mediated_env_secrets self !! ca_name a = Some m ∧
    public_line line = Mediated (ca_prefix a) (ca_name a) (bool_decide (assigned_value a = [])).
Proof.
  unfold public_line, HostInput.env_line. destruct (parse_custom_env_assignment line) as [a|]; [|by left].
  destruct (mediated_env_secrets self !! ca_name a) as [m|] eqn:Hm.
  - right. exists a, m. rewrite bool_decide_eq_true_2 by eauto. done.
  - left. rewrite bool_decide_eq_false_2 by (by intros []). split; [done|]. intros acc n. by rewrite andb_false_r.
Qed.

Lemma new_with_empty_value name placeholder hosts n :
  ∃ e, new_with_placeholder fill name placeholder [] hosts n = (Fail e, n) ∧
    e = if bool_decide (trim name = []) then EmptySecretName else EmptySecretValue name.
Proof. unfold new_with_placeholder. destruct (bool_decide (trim name = [])); eauto. Qed.

Lemma env_line_alike line line' acc acc' n :
  public_line line = public_line line' → public_progress acc = public_progress acc' →
  public_progress <$> (env_line line acc n).1 = public_progress <$> (env_line line' acc' n).1 ∧
  (env_line line acc n).2 = (env_line line' acc' n).2.
Proof.
  intros Hline Hacc. unfold public_progress in Hacc. injection Hacc as Henv Hsecrets Hnames.
  destruct (public_line_cases line) as [[Hpub Hrun]|(a & m & Hparse & Hm & Hpub)],
    (public_line_cases line') as [[Hpub' Hrun']|(a' & m' & Hparse' & Hm' & Hpub')]; rewrite Hpub, Hpub' in Hline; simplify_eq.
  - rewrite Hrun, Hrun'. simpl. unfold public_progress. simpl. by rewrite Henv, Hsecrets, Hnames.
  - match goal with H : ca_name a = ca_name a', H' : ca_prefix a = ca_prefix a' |- _ => rename H into Hname; rename H' into Hprefix end.
    rewrite Hname in Hm. simplify_eq. unfold HostInput.env_line. rewrite Hparse, Hparse', Hname, Hm, Hprefix.
    destruct (_ && _); [done|]. unfold mbind, stm_bind. fold (assigned_value a) (assigned_value a').
    assert (assigned_value a = [] ↔ assigned_value a' = []) as Hiff.
    { match goal with H : bool_decide (assigned_value a = []) = _ |- _ => rename H into Hb end. split; intros Hv;
        [apply (bool_decide_eq_true_1 (assigned_value a' = [])); rewrite <-Hb
        |apply (bool_decide_eq_true_1 (assigned_value a = [])); rewrite Hb]; by apply bool_decide_eq_true_2. }
    destruct (decide (assigned_value a' = [])) as [Hempty|Hne].
    + assert (assigned_value a = []) as Hempty' by (by apply Hiff).
      rewrite Hempty, Hempty'. by destruct (new_with_empty_value (me_guest_name m) (context_placeholder context (me_guest_name m))
        (set_sorted (me_allowed_hosts m)) n) as (e & -> & _).
    + assert (assigned_value a ≠ []) as Hne' by (by rewrite Hiff).
      rewrite (new_with_placeholder_value fill _ _ (assigned_value a') (assigned_value a)) by done.
      destruct (new_with_placeholder _ _ _ (assigned_value a') _ n) as [[b|e| |] n']; simpl; [|done..].
      split; [|done]. unfold public_progress, bindings_insert, bindings_redacted in *. simpl. by rewrite Henv, Hnames, !fmap_insert, Hsecrets.
Qed.

Lemma env_lines_alike lines lines' acc acc' n :
  public_line <$> lines = public_line <$> lines' → public_progress acc = public_progress acc' →
  public_progress <$> (env_lines lines acc n).1 = public_progress <$> (env_lines lines' acc' n).1 ∧
  (env_lines lines acc n).2 = (env_lines lines' acc' n).2.
Proof.
  revert lines' acc acc' n. induction lines as [|line lines IH]; intros [|line' lines'] acc acc' n Hlines Hacc; try done.
  { split; [|done]. cbn. by rewrite Hacc. }
  rewrite !fmap_cons in Hlines. injection Hlines as Hline Hlines. cbn [HostInput.env_lines]. unfold mbind, stm_bind.
  destruct (env_line_alike line line' acc acc' n Hline Hacc) as [Ho Hn].
  destruct (env_line line acc n) as [[a|e| |] k], (env_line line' acc' n) as [[a'|e'| |] k']; cbn [fst snd fmap outcome_fmap] in *;
    simplify_eq; try done. apply IH; [done|]. unfold public_progress in *. congruence.
Qed.
End custom_env_properties.

(** two environment files that differ in the values of mediated variables only are
    materialized alike: the guest is given the same file and the same placeholders. *)
Theorem environment_hidden (fill : nat → option bytes) (self : HostInputRequirements) (context : MaterializationContext)
    (contents contents' : bytes) (n : nat) :
  public_line self <$> lines (from_utf8_lossy contents) = public_line self <$> lines (from_utf8_lossy contents') →
  guest_view <$> (materialize_custom_env fill self context contents n).1 =
  guest_view <$> (materialize_custom_env fill self context contents' n).1.
Proof.
  unfold materialize_custom_env. generalize (lines (from_utf8_lossy contents)), (lines (from_utf8_lossy contents')).
  intros l l' Hlines. unfold mbind, stm_bind.
  destruct (env_lines_alike fill self context l l' {| guest_env := []; env_secrets := ∅; materialized_mediated_names := ∅ |}
    {| guest_env := []; env_secrets := ∅; materialized_mediated_names := ∅ |} n Hlines eq_refl) as [Ho Hn].
  destruct (env_lines _ _ _ l _ _) as [[a|e| |] k], (env_lines _ _ _ l' _ _) as [[a'|e'| |] k'];
    cbn [fst snd fmap outcome_fmap] in *; try done; [|by simplify_eq].
  injection Ho as Henv Hsecrets Hnames. rewrite Hnames.
  destruct (missing_group _ _); [done|]. cbn [mret stm_ret fst fmap outcome_fmap]. unfold guest_view. cbn [mi_contents mi_secrets].
  by rewrite Henv, Hsecrets.
Qed.

(** ** Which environment files are accepted *)
Section accepted.
Variable fill : nat → option bytes.
Variable self : HostInputRequirements.
Variable context : MaterializationContext.

(** A line assigns a value to a mediated variable. *)
Definition assigns (line : str) (a : CustomEnvAssignment) (m : MediatedEnvSecret) : Prop :=
  parse_custom_env_assignment line = Some a ∧ mediated_env_secrets self !! ca_name a = Some m.

(** It can be bound: the variable is not copied as well, and neither its name in the guest
    nor its value is empty. *)
Definition bindable (a : CustomEnvAssignment) (m : MediatedEnvSecret) : Prop :=
  ca_name a ∉ copied_env_names self ∧ trim (me_guest_name m) ≠ [] ∧ assigned_value a ≠ [].

Definition assigned_names (lines : list str) (names : gset str) (name : str) : Prop :=
  name ∈ names ∨ ∃ line a m, line ∈ lines ∧ assigns line a m ∧ ca_name a = name.

Hypothesis Hfill : ∀ n, is_Some (fill n).
Hypothesis Hcontext : ∀ name p, context_placeholder context name = Some p → p ≠ [].

Lemma env_line_accepted line acc n :
  (∃ acc' n', env_line fill self context line acc n = (Ret acc', n')) ↔ ∀ a m, assigns line a m → bindable a m.
Proof using Hfill Hcontext.
  unfold env_line, assigns, bindable. destruct (parse_custom_env_assignment line) as [a|]; [|split; [by intros _ a m []|eauto]].
  destruct (mediated_env_secrets self !! ca_name a) as [m|] eqn:Hm.
  2:{ rewrite (bool_decide_eq_false_2 (is_Some None)) by (by intros []). rewrite andb_false_r.
      split; [|eauto]. intros _ a' m' [[= <-] Hm']. congruence. }
  rewrite (bool_decide_eq_true_2 (is_Some (Some m))) by eauto. rewrite andb_true_r. unfold copies_custom_env_name.
  case_bool_decide as Hcopied.
  { split; [by intros (? & ? & ?)|]. intros Hall. destruct (Hall a m) as [? _]; [split; [done|congruence]|done]. }
  fold (assigned_value a). unfold mbind, stm_bind, new_with_placeholder, stm_fail.
  case_bool_decide as Hname.
  { split; [by intros (? & ? & ?)|]. intros Hall. destruct (Hall a m) as (_ & ? & _); [split; [done|congruence]|done]. }
  case_bool_decide as Hvalue.
  { split; [by intros (? & ? & ?)|]. intros Hall. destruct (Hall a m) as (_ & _ & ?); [split; [done|congruence]|done]. }
  split; [intros _ a' m' [[= <-] Hm']; by simplify_eq|]. intros _.
  destruct (context_placeholder context (me_guest_name m)) as [p|] eqn:Hp.
  - apply Hcontext in Hp. unfold mbind, stm_bind. rewrite bool_decide_eq_false_2 by done. cbn. eauto.
  - unfold mbind, stm_bind, placeholder_for. destruct (Hfill n) as [b ->]. cbn. eauto.
Qed.

Lemma env_line_names line acc n acc' n' :
  env_line fill self context line acc n = (Ret acc', n') →
  ∀ name, name ∈ materialized_mediated_names acc' ↔ assigned_names [line] (materialized_mediated_names acc) name.
Proof.
  unfold env_line, assigned_names, assigns. intros Hrun name. setoid_rewrite list_elem_of_singleton.
  destruct (parse_custom_env_assignment line) as [a|] eqn:Hparse; [|injection Hrun as <- <-; cbn [materialized_mediated_names]; naive_solver].
  destruct (mediated_env_secrets self !! ca_name a) as [m|] eqn:Hm.
  - destruct (_ && _); [done|]. unfold mbind, stm_bind in Hrun.
    destruct (new_with_placeholder _ _ _ _ _ _) as [[b|e| |] k]; [|done..]. injection Hrun as <- <-.
    cbn [materialized_mediated_names]. rewrite elem_of_union, elem_of_singleton. naive_solver.
  - destruct (_ && _) eqn:Hc; [apply andb_true_iff in Hc as [_ Hc%bool_decide_eq_true]; by destruct Hc|].
    injection Hrun as <- <-. cbn [materialized_mediated_names]. naive_solver.
Qed.

Lemma env_lines_accepted lines acc n :
  (∃ acc' n', env_lines fill self context lines acc n = (Ret acc', n')) ↔
  ∀ line a m, line ∈ lines → assigns line a m → bindable a m.
Proof using Hfill Hcontext.
  revert acc n. induction lines as [|line lines IH]; intros acc n; cbn [env_lines].
  { split; [by intros _ line a m ?%not_elem_of_nil|]. eauto. }
  pose proof (env_line_accepted line acc n) as Hline. unfold mbind, stm_bind.
  setoid_rewrite elem_of_cons. destruct (env_line fill self context line acc n) as [[acc1|e| |] n1].
  - rewrite IH. assert (∀ a m, assigns line a m → bindable a m) as Hok by (apply Hline; eauto). naive_solver.
  - split; [by intros (? & ? & ?)|]. intros Hall. destruct (proj2 Hline) as (? & ? & ?); [eauto|done].
  - split; [by intros (? & ? & ?)|]. intros Hall. destruct (proj2 Hline) as (? & ? & ?); [eauto|done].
  - split; [by intros (? & ? & ?)|]. intros Hall. destruct (proj2 Hline) as (? & ? & ?); [eauto|done].
Qed.

Lemma env_lines_names lines acc n acc' n' :
  env_lines fill self context lines acc n = (Ret acc', n') →
  ∀ name, name ∈ materialized_mediated_names acc' ↔ assigned_names lines (materialized_mediated_names acc) name.
Proof.
  revert acc n. induction lines as [|line lines IH]; intros acc n; cbn [env_lines].
  { intros [= <- <-] name. unfold assigned_names. split; [by left|]. intros [?|(l & a & m & Hl & _)]; [done|by apply not_elem_of_nil in Hl]. }
  unfold mbind, stm_bind. destruct (env_line fill self context line acc n) as [[acc1|e| |] n1] eqn:Hline; [|done..].
  intros Hrun name. rewrite (IH _ _ Hrun name). unfold assigned_names at 1.
  rewrite (env_line_names _ _ _ _ _ Hline name). unfold assigned_names.
  setoid_rewrite elem_of_cons. setoid_rewrite elem_of_nil. naive_solver.
Qed.
End accepted.

(** an environment file is accepted exactly when every mediated variable it assigns can
    be bound, and of each group a plugin or secret requires one variable at least is
    assigned. *)
Theorem environment_accepted (fill : nat → option bytes) (self : HostInputRequirements) (context : MaterializationContext)
    (contents : bytes) (n : nat) :
  (∀ i, is_Some (fill i)) → (∀ name p, context_placeholder context name = Some p → p ≠ []) →
  (∃ input n', materialize_custom_env fill self context contents n = (Ret input, n')) ↔
  (∀ line a m, line ∈ lines (from_utf8_lossy contents) → assigns self line a m → bindable self a m) ∧
  ∀ group, group ∈ required_mediated_env_groups self →
    ∃ line a m, line ∈ lines (from_utf8_lossy contents) ∧ assigns self line a m ∧ ca_name a ∈ group.
Proof.
  intros Hfill Hcontext. unfold materialize_custom_env. generalize (lines (from_utf8_lossy contents)). intros l.
  rewrite <-(env_lines_accepted fill self context Hfill Hcontext l {| guest_env := []; env_secrets := ∅; materialized_mediated_names := ∅ |} n).
  unfold mbind, stm_bind. destruct (env_lines _ _ _ l _ _) as [[acc|e| |] k] eqn:Hrun.
  2-4: split; [by intros (? & ? & ?)|by intros [(? & ? & ?) _]].
  pose proof (env_lines_names fill self context _ _ _ _ _ Hrun) as Hnames.
  assert (∀ group, ¬ group ## materialized_mediated_names acc ↔
    ∃ line a m, line ∈ l ∧ assigns self line a m ∧ ca_name a ∈ group) as Hgroup.
  { intros group. unfold assigned_names in Hnames. cbn [materialized_mediated_names] in Hnames.
    rewrite elem_of_disjoint. split.
    - intros Hnot. destruct (decide (set_Exists (λ x, x ∈ materialized_mediated_names acc) group)) as [(x & Hx & Hin)|Hnone].
      + apply Hnames in Hin as [?|(line & a & m & Hl & Ha & <-)]; [set_solver|eauto 6].
      + destruct Hnot. intros x Hx Hin. apply Hnone. by exists x.
    - intros (line & a & m & Hl & Ha & Hin) Hdisj. apply (Hdisj (ca_name a)); [done|]. apply Hnames. right. eauto 6. }
  destruct (missing_group self _) as [group|] eqn:Hmissing.
  - apply find_first_some in Hmissing as [Hin Hdisj%bool_decide_eq_true].
    split; [by intros (? & ? & ?)|]. intros [_ Hall]. by destruct (proj2 (Hgroup group) (Hall group Hin)).
  - split; [|cbn; eauto]. intros _. split; [eauto|]. intros group Hin. apply Hgroup.
    apply (bool_decide_eq_false_1 (group ## materialized_mediated_names acc)). by apply (proj1 (find_first_none _ _) Hmissing).
Qed.

(** ** An example: a token that is mediated, a name that is copied *)
Definition example_requirements : HostInputRequirements :=
  allow_mediated_secret_hosts [bytes_of "GITHUB_TOKEN"; bytes_of "GH_TOKEN"] [bytes_of "github.com"]
    (copy_custom_env [bytes_of "GIT_NAME"] requirements_default).

Definition example_env_file (token : string) : bytes :=
  bytes_of "# my tokens" ++ [10] ++ bytes_of "export GH_TOKEN='" ++ bytes_of token ++ bytes_of "'" ++ [10] ++ bytes_of "GIT_NAME=me" ++ [10].

Lemma environment_hidden_witness :
  public_line example_requirements <$> lines (from_utf8_lossy (example_env_file "abc")) =
    [Verbatim (bytes_of "# my tokens"); Mediated export_prefix (bytes_of "GH_TOKEN") false; Verbatim (bytes_of "GIT_NAME=me")] ∧
  guest_view <$> (materialize_custom_env example_fill example_requirements None (example_env_file "abc") 0%nat).1 =
  guest_view <$> (materialize_custom_env example_fill example_requirements None (example_env_file "xyz 12") 0%nat).1.
Proof. split; [vm_compute; reflexivity|]. apply environment_hidden. vm_compute. reflexivity. Defined.

Lemma environment_accepted_witness :
  ∃ input n', materialize_custom_env (λ _, Some [1; 2]) example_requirements None (example_env_file "abc") 0%nat = (Ret input, n').
Proof.
  apply environment_accepted; [intros i; exists [1; 2]; reflexivity|intros name p Hp; discriminate Hp|]. split.
  - intros line a m Hin [Hparse Hm].
    assert (lines (from_utf8_lossy (example_env_file "abc")) =
      [bytes_of "# my tokens"; bytes_of "export GH_TOKEN='abc'"; bytes_of "GIT_NAME=me"]) as Hlines by (vm_compute; reflexivity).
    rewrite Hlines in Hin. rewrite !elem_of_cons, elem_of_nil in Hin. destruct Hin as [->|[->|[->|[]]]].
    + vm_compute in Hparse. discriminate Hparse.
    + vm_compute in Hparse. injection Hparse as <-. vm_compute in Hm. injection Hm as <-.
      split; [apply (bool_decide_eq_true_1 (_ ∉ _)); vm_compute; reflexivity|]. split; intros H; vm_compute in H; discriminate H.
    + vm_compute in Hparse. injection Hparse as <-. vm_compute in Hm. discriminate Hm.
  - intros group Hin. assert (group = list_to_set [bytes_of "GITHUB_TOKEN"; bytes_of "GH_TOKEN"]) as ->
      by (cbn in Hin; by apply list_elem_of_singleton in Hin).
    exists (bytes_of "export GH_TOKEN='abc'"), {| ca_prefix := export_prefix; ca_name := bytes_of "GH_TOKEN"; ca_value := bytes_of "'abc'" |},
      {| me_guest_name := bytes_of "GH_TOKEN"; me_allowed_hosts := {[ bytes_of "github.com" ]} |}.
    split; [apply (bool_decide_eq_true_1 (_ ∈ _)); vm_compute; reflexivity|].
    split; [split; [vm_compute; reflexivity|apply (bool_decide_eq_true_1 (_ = _)); vm_compute; reflexivity]|].
    apply (bool_decide_eq_true_1 (_ ∈ _)). vm_compute. reflexivity.
Defined.
