(* ===== verification/SecretFlow.v ===== *)
(** * From the environment file of the host to the wire

    The values in the environment file become bindings ([HostInput]), the bindings
    the secrets of the network ([Secrets]), and the filter of the network puts them
    into the requests of the guest ([Http1], [HttpSecrecy]).  A host that a
    variable is not allowed for learns nothing of its value, from the file to the
    last byte. *)
From S2P Require Import Prelude Text Ordered Format Policy Raw Http1 HttpSecrecy Secrets JsonAuth HostInput.
Local Open Scope Z_scope.

(** ** From the environment file to the bindings *)
Section bindings.
Context (fill : nat → option bytes) (self : HostInputRequirements) (context : MaterializationContext).

(** A binding is made of a line that assigns to a mediated variable. *)
Definition bound_by (lines : list str) (b : SecretBinding) : Prop :=
  ∃ line a m, line ∈ lines ∧ assigns self line a m ∧ sb_name b = me_guest_name m ∧ sb_value b = Present (assigned_value a) ∧
    sb_allowed_hosts b = list_to_set (lower_host <$> set_sorted (me_allowed_hosts m)).

Lemma new_with_placeholder_binding name placeholder value hosts n b n' :
  new_with_placeholder fill name placeholder value hosts n = (Ret b, n') →
  sb_name b = name ∧ sb_value b = Present value ∧ sb_allowed_hosts b = list_to_set (lower_host <$> hosts).
Proof.
  unfold new_with_placeholder. destruct (bool_decide _); [done|]. destruct (bool_decide _); [done|]. unfold mbind, stm_bind.
  destruct placeholder as [p|]; [destruct (bool_decide _); [done|]; by intros [= <- _]|].
  unfold placeholder_for. destruct (fill n); [|done]. by intros [= <- _].
Qed.

Lemma env_line_bindings line acc n acc' n' :
  env_line fill self context line acc n = (Ret acc', n') →
  ∀ key b, env_secrets acc' !! key = Some b → env_secrets acc !! key = Some b ∨ bound_by [line] b.
Proof.
  unfold env_line. destruct (parse_custom_env_assignment line) as [a|] eqn:Hparse; [|intros [= <- _]; by left].
  destruct (_ && _); [done|]. destruct (mediated_env_secrets self !! ca_name a) as [m|] eqn:Hm; [|intros [= <- _]; by left].
  unfold mbind, stm_bind. destruct (new_with_placeholder _ _ _ _ _ _) as [[b0|e| |] k] eqn:Hnew; [|done..].
  intros [= <- _] key b. cbn [env_secrets]. unfold bindings_insert. rewrite lookup_insert_Some. intros [[_ <-]|[_ Hb]]; [right|by left].
  apply new_with_placeholder_binding in Hnew as (Hname & Hvalue & Hhosts).
  exists line, a, m. split; [by left|]. split; [done|]. done.
Qed.

Lemma env_lines_bindings lines acc n acc' n' :
  env_lines fill self context lines acc n = (Ret acc', n') →
  ∀ key b, env_secrets acc' !! key = Some b → env_secrets acc !! key = Some b ∨ bound_by lines b.
Proof.
  revert acc n. induction lines as [|line lines IH]; intros acc n; cbn [env_lines]; [intros [= <- _]; by left|].
  unfold mbind, stm_bind. destruct (env_line fill self context line acc n) as [[acc1|e| |] n1] eqn:Hline; [|done..].
  intros Hrun key b Hb. destruct (IH _ _ Hrun key b Hb) as [Hb'|(l & a & m & Hl & Hrest)].
  - destruct (env_line_bindings _ _ _ _ _ Hline key b Hb') as [?|(l & a & m & Hl & Hrest)]; [by left|right].
    exists l, a, m. split; [|done]. apply list_elem_of_singleton in Hl as ->. by left.
  - right. exists l, a, m. split; [by right|done].
Qed.

Lemma materialize_bindings contents n input n' :
  materialize_custom_env fill self context contents n = (Ret input, n') →
  ∀ key b, mi_secrets input !! key = Some b → bound_by (lines (from_utf8_lossy contents)) b.
Proof.
  unfold materialize_custom_env, mbind, stm_bind.
  destruct (env_lines _ _ _ _ _ _) as [[acc|e| |] k] eqn:Hrun; [|done..]. destruct (missing_group _ _); [done|].
  intros [= <- _] key b Hb. destruct (env_lines_bindings _ _ _ _ _ Hrun key b Hb) as [Hnone|]; [|done]. cbn [env_secrets] in Hnone. discriminate Hnone.
Qed.
End bindings.

(** ** The hosts a value is released to *)
Lemma trim_start_char_lower host :
  trim_start_char 46 (to_ascii_lowercase <$> host) = to_ascii_lowercase <$> trim_start_char 46 host.
Proof.
  induction host as [|c host IH]; [done|]. rewrite fmap_cons. cbn [trim_start_char].
  assert ((to_ascii_lowercase c =? 46) = (c =? 46)) as -> by (unfold to_ascii_lowercase; case_match; lia).
  by destruct (c =? 46).
Qed.

Lemma authority_lower host : authority_new (lower_host host) = authority_new host.
Proof.
  unfold authority_new, lower_host, normalized_host, trim_end_matches. f_equal.
  rewrite <-fmap_reverse, trim_start_char_lower, <-fmap_reverse, <-list_fmap_compose. apply list_fmap_ext. intros i c _.
  unfold compose, to_ascii_lowercase. repeat case_match; lia.
Qed.

Lemma runtime_secret_scope b value hosts authority :
  sb_allowed_hosts b = list_to_set (lower_host <$> set_sorted hosts) →
  secret_allows (runtime_secret_new (sb_placeholder b) value (elements (sb_allowed_hosts b))) authority = true ↔
  ∃ host, host ∈ hosts ∧ authority = authority_new host.
Proof.
  intros ->. unfold secret_allows, runtime_secret_new, scope_new. cbn [scope scope_authorities].
  rewrite bool_decide_eq_true, elem_of_list_to_set, list_elem_of_fmap. setoid_rewrite elem_of_elements.
  setoid_rewrite elem_of_list_to_set. setoid_rewrite list_elem_of_fmap. setoid_rewrite elem_of_set_sorted. split.
  - intros (h & -> & host & -> & Hin). exists host. by rewrite authority_lower.
  - intros (host & Hin & ->). exists (lower_host host). rewrite authority_lower. eauto.
Qed.

(** ** Two environment files a host cannot tell apart *)
Section flow.
Context (fill : nat → option bytes) (self : HostInputRequirements) (context : MaterializationContext) (host : str).

Definition releases (hosts : gset str) : Prop := ∃ h, h ∈ hosts ∧ authority_new h = authority_new host.

(** Two lines with the same public part, and the same value if the host may receive it *)
Definition same_line (line line' : str) : Prop :=
  public_line self line = public_line self line' ∧
  ∀ a a' m, assigns self line a m → assigns self line' a' m → releases (me_allowed_hosts m) → assigned_value a = assigned_value a'.

Definition same_binding (b b' : SecretBinding) : Prop :=
  binding_redacted b = binding_redacted b' ∧
  ∃ v v', sb_value b = Present v ∧ sb_value b' = Present v' ∧ (releases (sb_allowed_hosts b) → v = v').

Definition same_bindings : SecretBindings → SecretBindings → Prop :=
  map_relation (λ _, same_binding) (λ _ _, False) (λ _ _, False).

Definition same_progress (acc acc' : EnvProgress) : Prop :=
  guest_env acc = guest_env acc' ∧ materialized_mediated_names acc = materialized_mediated_names acc' ∧
  same_bindings (env_secrets acc) (env_secrets acc').

Lemma same_bindings_insert b b' m m' :
  same_binding b b' → same_bindings m m' → same_bindings (bindings_insert b m) (bindings_insert b' m').
Proof.
  intros Hb Hm k. assert (sb_placeholder b = sb_placeholder b') as Hp by (destruct Hb as [Hb _]; by injection Hb).
  unfold bindings_insert. rewrite Hp. destruct (decide (k = sb_placeholder b')) as [->|Hne].
  - by rewrite !lookup_insert_eq.
  - rewrite !lookup_insert_ne by done. apply Hm.
Qed.

Lemma releases_lower hosts : releases (list_to_set (lower_host <$> set_sorted hosts)) → releases hosts.
Proof.
  intros (h & Hin & Hh). apply elem_of_list_to_set, list_elem_of_fmap in Hin as (h' & -> & Hin).
  exists h'. rewrite <-elem_of_set_sorted. split; [done|]. by rewrite <-authority_lower.
Qed.

Lemma env_line_same line line' acc acc' n r k r' k' :
  same_line line line' → same_progress acc acc' →
  env_line fill self context line acc n = (Ret r, k) → env_line fill self context line' acc' n = (Ret r', k') →
  same_progress r r' ∧ k = k'.
Proof.
  intros [Hpub Hvalue] (Henv & Hnames & Hsecrets) Hr Hr'.
  destruct (public_line_cases fill self context line) as [[Hline Hrun]|(a & m & Hparse & Hm & Hline)],
    (public_line_cases fill self context line') as [[Hline' Hrun']|(a' & m' & Hparse' & Hm' & Hline')]; rewrite Hline, Hline' in Hpub; [|done..|].
  - injection Hpub as <-. rewrite Hrun in Hr. rewrite Hrun' in Hr'. simplify_eq/=. split; [|done].
    unfold same_progress. cbn. by rewrite Henv.
  - injection Hpub as Hprefix Hname _. rewrite Hname in Hm. assert (m = m') as -> by congruence. specialize (Hvalue a a' m').
    unfold env_line in Hr, Hr'. rewrite Hparse, Hname, Hm', Hprefix in Hr. rewrite Hparse', Hm' in Hr'.
    destruct (_ && _); [done|]. unfold mbind, stm_bind in Hr, Hr'. fold (assigned_value a) in Hr. fold (assigned_value a') in Hr'.
    assert (assigned_value a ≠ []) as Hne.
    { intros Hnil. rewrite Hnil in Hr. by destruct (new_with_empty_value fill (me_guest_name m')
        (context_placeholder context (me_guest_name m')) (set_sorted (me_allowed_hosts m')) n) as (e & Heq & _); rewrite Heq in Hr. }
    assert (assigned_value a' ≠ []) as Hne'.
    { intros Hnil. rewrite Hnil in Hr'. by destruct (new_with_empty_value fill (me_guest_name m')
        (context_placeholder context (me_guest_name m')) (set_sorted (me_allowed_hosts m')) n) as (e & Heq & _); rewrite Heq in Hr'. }
    rewrite (new_with_placeholder_value fill _ _ (assigned_value a) (assigned_value a')) in Hr' by done.
    destruct (new_with_placeholder _ _ _ (assigned_value a) _ n) as [[b|e| |] n1] eqn:Hnew; [|done..].
    apply new_with_placeholder_binding in Hnew as (_ & Hv & Hhosts). injection Hr as <- <-. injection Hr' as <- <-.
    split; [|done]. unfold same_progress. cbn [guest_env materialized_mediated_names env_secrets].
    rewrite Henv, Hnames. split_and!; [done..|].
    apply same_bindings_insert; [|done]. split; [done|]. exists (assigned_value a), (assigned_value a').
    split_and!; [done|done|]. rewrite Hhosts. intros Hrel%releases_lower.
    apply Hvalue; [split; [done|by rewrite Hname]|by split|done].
Qed.

Lemma env_lines_same lines lines' acc acc' n r k r' k' :
  Forall2 same_line lines lines' → same_progress acc acc' →
  env_lines fill self context lines acc n = (Ret r, k) → env_lines fill self context lines' acc' n = (Ret r', k') →
  same_progress r r'.
Proof.
  intros Hlines. revert acc acc' n. induction Hlines as [|line line' lines lines' Hline _ IH]; intros acc acc' n Hacc; cbn [env_lines].
  { intros [= <- _] [= <- _]. done. }
  unfold mbind, stm_bind.
  destruct (env_line fill self context line acc n) as [[a|e| |] j] eqn:Ha; [|done..].
  destruct (env_line fill self context line' acc' n) as [[a'|e'| |] j'] eqn:Ha'; [|done..].
  destruct (env_line_same _ _ _ _ _ _ _ _ _ Hline Hacc Ha Ha') as [Hnext ->]. by apply IH.
Qed.

Lemma same_bindings_secrets m m' : same_bindings m m' → same_for (authority_new host) (runtime_secrets m) (runtime_secrets m').
Proof.
  intros Hm. unfold same_for. rewrite !runtime_secrets_bindings. apply map_sorted_Forall2 in Hm. unfold bindings_iter.
  induction Hm as [|b b' l l' (Hred & v & v' & Hv & Hv' & Heq) _ IH]; [constructor|].
  cbn [omap list_omap].
  assert (∀ b v, sb_value b = Present v →
    runtime_secret_of b = Some (runtime_secret_new (sb_placeholder b) v (elements (sb_allowed_hosts b)))) as Hlive.
  { intros c w Hw. unfold runtime_secret_of, binding_value. by rewrite Hw. }
  rewrite (Hlive b v Hv), (Hlive b' v' Hv'). constructor; [|done].
  injection Hred as Hname Hp Hhosts. split_and!; [done|cbn; by rewrite Hhosts|]. cbn. intros Hallows. apply Heq.
  unfold secret_allows in Hallows. apply bool_decide_eq_true in Hallows. cbn in Hallows.
  apply elem_of_list_to_set, list_elem_of_fmap in Hallows as (h & Hh & Hin%elem_of_elements). exists h. by split.
Qed.
End flow.

(** C5: from the environment file to the wire: when two environment files differ in the
    values of variables that are not allowed for a host, the guest is given the same file and
    the connections to this host carry the same bytes, whatever the guest and the host send. *)
Theorem undeclared_host_learns_nothing (fill : nat → option bytes) (self : HostInputRequirements)
    (context : MaterializationContext) (host : str) (contents contents' : bytes) (n : nat)
    (input input' : MaterializedHostInput) (k k' : nat) (events : list event) :
  Forall2 (same_line self host) (lines (from_utf8_lossy contents)) (lines (from_utf8_lossy contents')) →
  materialize_custom_env fill self context contents n = (Ret input, k) →
  materialize_custom_env fill self context contents' n = (Ret input', k') →
  mi_contents input = mi_contents input' ∧
  filter_trace events (http1_filter_new (runtime_secrets (mi_secrets input')) host) =
  filter_trace events (http1_filter_new (runtime_secrets (mi_secrets input)) host).
Proof.
  intros Hlines. unfold materialize_custom_env, mbind, stm_bind.
  destruct (env_lines _ _ _ (lines (from_utf8_lossy contents)) _ _) as [[acc|e| |] j] eqn:Hrun; [|done..].
  destruct (env_lines _ _ _ (lines (from_utf8_lossy contents')) _ _) as [[acc'|e'| |] j'] eqn:Hrun'; [|done..].
  edestruct env_lines_same as (Henv & Hnames & Hsecrets); [exact Hlines| |exact Hrun|exact Hrun'|].
  { split_and!; [done..|]. intros key. cbn [env_secrets]. by rewrite lookup_empty. }
  destruct (missing_group self (materialized_mediated_names acc)); [done|].
  destruct (missing_group self (materialized_mediated_names acc')); [done|].
  intros [= <- _] [= <- _]. split; [done|]. apply filter_trace_same, same_bindings_secrets, Hsecrets.
Qed.

Lemma undeclared_host_learns_nothing_witness :
  let host := bytes_of "evil.example" in
  let file token := example_env_file token in
  let secrets token := match (materialize_custom_env example_fill example_requirements None (file token) 0%nat).1 with
                       | Ret input => mi_secrets input | _ => ∅ end in
  let request := bytes_of "GET / HTTP/1.1" ++ crlf ++ bytes_of "Host: evil.example" ++ crlfcrlf in
  filter_trace [FromGuest request] (http1_filter_new (runtime_secrets (secrets "xyz 12")) host) =
  filter_trace [FromGuest request] (http1_filter_new (runtime_secrets (secrets "abc")) host).
Proof.
  intros host file secrets request.
  assert (∀ token, match materialize_custom_env example_fill example_requirements None (file token) 0%nat with
    | (Ret _, _) => true | _ => false end = true → ∃ input k,
    materialize_custom_env example_fill example_requirements None (file token) 0%nat = (Ret input, k) ∧ secrets token = mi_secrets input) as Hrun.
  { intros token Hok. unfold secrets. destruct (materialize_custom_env _ _ _ _ _) as [[input|e| |] k]; [|done..]. by exists input, k. }
  destruct (Hrun "abc"%string) as (input & k & Hr & ->); [vm_compute; reflexivity|].
  destruct (Hrun "xyz 12"%string) as (input' & k' & Hr' & ->); [vm_compute; reflexivity|].
  eapply (undeclared_host_learns_nothing example_fill example_requirements None host (file "abc") (file "xyz 12") 0 input input' k k');
    [|exact Hr|exact Hr'].
  assert (lines (from_utf8_lossy (file "abc")) =
    [bytes_of "# my tokens"; bytes_of "export GH_TOKEN='abc'"; bytes_of "GIT_NAME=me"]) as -> by (vm_compute; reflexivity).
  assert (lines (from_utf8_lossy (file "xyz 12")) =
    [bytes_of "# my tokens"; bytes_of "export GH_TOKEN='xyz 12'"; bytes_of "GIT_NAME=me"]) as -> by (vm_compute; reflexivity).
  assert (∀ line, parse_custom_env_assignment line = None ∨ (∃ a, parse_custom_env_assignment line = Some a ∧
    mediated_env_secrets example_requirements !! ca_name a = None) → same_line example_requirements host line line) as Hplain.
  { intros line Hline. split; [done|]. intros a a' m [Ha Hm] [Ha' _]. congruence. }
  constructor; [apply Hplain; left; vm_compute; reflexivity|].
  constructor; [|constructor; [|constructor]].
  - split; [vm_compute; reflexivity|]. intros a a' m [Ha Hm] _ (h & Hin & Hh). exfalso.
    assert (mediated_env_secrets example_requirements !! bytes_of "GH_TOKEN" =
      Some {| me_guest_name := bytes_of "GH_TOKEN"; me_allowed_hosts := {[ bytes_of "github.com" ]} |}) as Htoken
      by (apply (bool_decide_eq_true_1 (_ = _)); vm_compute; reflexivity).
    assert (ca_name <$> parse_custom_env_assignment (bytes_of "export GH_TOKEN='abc'") = Some (bytes_of "GH_TOKEN")) as Hname
      by (vm_compute; reflexivity).
    rewrite Ha in Hname. injection Hname as Hname. rewrite Hname, Htoken in Hm. injection Hm as <-.
    assert (h = bytes_of "github.com") as -> by (cbn [me_allowed_hosts] in Hin; by apply elem_of_singleton in Hin). vm_compute in Hh. discriminate Hh.
  - apply Hplain. right. exists {| ca_prefix := []; ca_name := bytes_of "GIT_NAME"; ca_value := bytes_of "me" |}.
    split; vm_compute; reflexivity.
Defined.
