(* ===== verification/Manifest.v ===== *)
(** * The manifest of an agent and its validation
      (src/core/agentdp-core/src/manifest/mod.rs and manifest/plugins)

    [agent_manifest_validate] returns the messages [AgentManifest::validate]
    collects, in their order: none for a valid manifest.  Reading the YAML is
    serde's; the checks the types make (widths of integers, unknown fields) are
    in the types below. *)
From S2P Require Import Prelude Text Ordered Format Secrets JsonAuth HostInput.
From S2P Require Import AgentDocument.
Local Open Scope Z_scope.

(** ** Data *)
Inductive GuestOs := Archlinux | Rocky9.
Inductive NetworkMode := NetworkMediated | NetworkUser.
Inductive NetworkIpv6 := Ipv6Auto | Ipv6Enabled | Ipv6Disabled.
Inductive CaSource := CaAuto | CaNone | CaPath (path : str).

Record UserLinux := { ul_uid : option Z; ul_gid : option Z; ul_group : option str; ul_groups : list str }.
Inductive UserOptions := LinuxOptions (linux : UserLinux).
Record User := { user_name : str; user_options : UserOptions }.
Record Resources := { cpus : Z; memory : str; storage : str }.
Record Ca := { ca_source : CaSource; ca_extra_env_vars : list str }.
Record HostAlias := { alias_address : str; alias_names : list str }.

Record Network := {
  net_mode : NetworkMode;
  net_ipv6 : NetworkIpv6;
  net_ca : Ca;
  net_ports : gmap str GuestPort;
  net_allow : NetworkAllow;
  net_host_aliases : list HostAlias;
}.

Record Repo := { repo_name : option str; repo_url : str; repo_path : option str; repo_upstream : option str }.

Inductive Healthcheck :=
| HealthCommand (name command : str) (timeout : option str)
| HealthTcp (name target : str) (timeout : option str)
| HealthHttp (name method url : str) (timeout : option str).

Record Bootstrap := {
  package_update : bool;
  packages : list str;
  repos : list Repo;
  shell : list str;
  healthchecks : list Healthcheck;
}.

Record Secret := { secret_env : str; secret_from_env : option str; secret_allow_hosts : list str }.

(** *** Plugins *)
Inductive AuthMode := AuthMediated | AuthCopyFromHost.
(** [ClaudeAuthSource] and [CodexAuthSource], which are alike *)
Inductive AuthSource := SourceHostAuth | SourceEnv.
Inductive CodexSession := SessionGuestd | SessionNone.
Inductive RouteMode := RouteDirect | RouteProxy.

(** [install] has one value. *)
Record Playwright := {
  browser_package : str;
  executable_path : str;
  npm_packages : list str;
  mcp_package : str;
  viewport : str;
  codex_mcp : bool;
  claude_mcp : bool;
}.
Record Browser := { playwright : option Playwright }.
Record Claude := { claude_yolo : bool; claude_auth : AuthMode; claude_auth_source : option AuthSource }.
Record CodeServer := {
  cs_settings : option str;
  cs_extensions : list str;
  cs_remove_extensions : list str;
  cs_trusted_domains : list str;
  cs_restart_after_bootstrap : bool;
}.
Record Codex := {
  codex_yolo : bool;
  codex_version : str;
  codex_session : CodexSession;
  codex_auth : AuthMode;
  codex_auth_source : option AuthSource;
}.
Record Docker := { docker_compose : bool; docker_buildx : bool; docker_healthcheck : bool }.
Record DotNet := { dotnet_from_mise : bool; dotnet_tools : list str }.
Record GitUser := { git_name_from_env : str; git_email_from_env : str }.
Record GitDefaults := { init_default_branch : option str; autocrlf : option bool }.
Record Git := { git_user : option GitUser; git_defaults : GitDefaults }.
Record GitHub := { github_auth : AuthMode; setup_git : bool }.
Record Go := { go_from_mise : bool; go_tools : list str }.
Record Mise := { mise_packages : list str }.
Record Node := { node_from_mise : bool; node_corepack : bool }.
Record Podman := { podman_compose : bool; docker_api : bool }.
Record Route := {
  route_service : str;
  route_host_template : option str;
  route_path : option str;
  route_mode : RouteMode;
}.
Record TailscaleServe := { routes : list Route }.

(** [AgentHost] has no fields. *)
Record Plugins := {
  agent_host : bool;
  docker : option Docker;
  dotnet : option DotNet;
  git : option Git;
  go : option Go;
  mise : option Mise;
  node : option Node;
  podman : option Podman;
  browser : option Browser;
  claude : option Claude;
  codex : option Codex;
  github : option GitHub;
  tailscale_serve : option TailscaleServe;
  code_server : option CodeServer;
}.

Record AgentSpec := {
  image_os : GuestOs;
  user : User;
  resources : Resources;
  network : Network;
  bootstrap : Bootstrap;
  secrets : list Secret;
  plugins : Plugins;
}.

(** ** What the plugins and secrets ask of the host *)
Definition auth_file_permissions : str := lit "0600".

Definition CLAUDE_AUTH_HOSTS : list str := [lit "api.anthropic.com"; lit "console.anthropic.com"; lit "claude.ai"].
Definition CLAUDE_AUTH_TRANSFORM : MediatedJsonAuthTransform := {|
  mt_name := lit "claude-auth"; mt_prefix := lit "CLAUDE_AUTH"; mt_hosts := CLAUDE_AUTH_HOSTS;
  mt_normalize_expiry := false; mt_jwt_access_token_placeholder := false; mt_omit_refresh_token := false;
  mt_managed_credential := None |}.
Definition claude_auth_file (transform : HostInputTransformRef) : HostInputFile := {|
  hf_label := lit "Claude auth";
  hf_source := {| path_env := Some (lit "AGENTDP_CLAUDE_AUTH_PATH"); home_env := Some (lit "CLAUDE_CONFIG_DIR");
                  home_relative_path := lit ".credentials.json"; default_home_relative_path := lit ".claude/.credentials.json" |};
  hf_guest_path := lit ".claude/.credentials.json"; hf_permissions := auth_file_permissions; hf_transform := transform |}.
Definition claude_env_names : list str := [lit "ANTHROPIC_API_KEY"; lit "CLAUDE_CODE_OAUTH_TOKEN"].

Definition claude_requirements (self : Claude) (requirements : HostInputRequirements) : HostInputRequirements :=
  match claude_auth self with
  | AuthMediated =>
    match default SourceHostAuth (claude_auth_source self) with
    | SourceHostAuth => add_file (claude_auth_file (TransformPlugin CLAUDE_AUTH_TRANSFORM)) requirements
    | SourceEnv => allow_mediated_secret_hosts claude_env_names CLAUDE_AUTH_HOSTS requirements
    end
  | AuthCopyFromHost => add_file (claude_auth_file TransformCopy) (copy_custom_env claude_env_names requirements)
  end.

Definition CODEX_AUTH_HOSTS : list str := [lit "api.openai.com"; lit "chatgpt.com"].
Definition CODEX_AUTH_TRANSFORM : MediatedJsonAuthTransform := {|
  mt_name := lit "codex-auth"; mt_prefix := lit "CODEX_AUTH"; mt_hosts := CODEX_AUTH_HOSTS;
  mt_normalize_expiry := true; mt_jwt_access_token_placeholder := true; mt_omit_refresh_token := true;
  mt_managed_credential := Some ManagedCodex |}.
Definition codex_auth_file (transform : HostInputTransformRef) : HostInputFile := {|
  hf_label := lit "Codex auth";
  hf_source := {| path_env := Some (lit "AGENTDP_CODEX_AUTH_PATH"); home_env := Some (lit "CODEX_HOME");
                  home_relative_path := lit "auth.json"; default_home_relative_path := lit ".codex/auth.json" |};
  hf_guest_path := lit ".codex/auth.json"; hf_permissions := auth_file_permissions; hf_transform := transform |}.
Definition codex_env_names : list str := [lit "OPENAI_API_KEY"; lit "CODEX_API_KEY"].

Definition codex_requirements (self : Codex) (requirements : HostInputRequirements) : HostInputRequirements :=
  match codex_auth self with
  | AuthMediated =>
    match default SourceHostAuth (codex_auth_source self) with
    | SourceHostAuth => add_file (codex_auth_file (TransformPlugin CODEX_AUTH_TRANSFORM)) requirements
    | SourceEnv => allow_mediated_secret_hosts codex_env_names CODEX_AUTH_HOSTS requirements
    end
  | AuthCopyFromHost => add_file (codex_auth_file TransformCopy) (copy_custom_env codex_env_names requirements)
  end.

Definition github_env_names : list str := [lit "GITHUB_TOKEN"; lit "GH_TOKEN"; lit "GITHUB_PAT"].
Definition github_requirements (self : GitHub) (requirements : HostInputRequirements) : HostInputRequirements :=
  match github_auth self with
  | AuthMediated =>
    allow_mediated_secret_hosts github_env_names
      [lit "api.github.com"; lit "github.com"; lit "objects.githubusercontent.com"] requirements
  | AuthCopyFromHost => copy_custom_env github_env_names requirements
  end.

Definition git_requirements (self : Git) (requirements : HostInputRequirements) : HostInputRequirements :=
  match git_user self with
  | None => requirements
  | Some user => copy_custom_env [git_name_from_env user; git_email_from_env user] requirements
  end.

(** [if let Some(plugin) = .. { plugin.host_input_requirements(&mut requirements) }] *)
Definition with_plugin {A} (f : A → HostInputRequirements → HostInputRequirements) (plugin : option A)
    (requirements : HostInputRequirements) : HostInputRequirements :=
  match plugin with Some plugin => f plugin requirements | None => requirements end.

Definition plugins_host_input_requirements (self : Plugins) : HostInputRequirements :=
  with_plugin git_requirements (git self) (with_plugin github_requirements (github self)
    (with_plugin codex_requirements (codex self) (with_plugin claude_requirements (claude self) requirements_default))).

Definition source_env_name (self : Secret) : str := default (secret_env self) (secret_from_env self).

Definition host_input_requirements (self : AgentSpec) : HostInputRequirements :=
  foldl (λ requirements secret,
    allow_mediated_secret_hosts_dynamic (source_env_name secret) (secret_env secret) (secret_allow_hosts secret) requirements)
    (plugins_host_input_requirements (plugins self)) (secrets self).

(** ** Checks of single values *)

(** [format!("{field}[{index}]")] *)
Definition indexed (field : str) (index : nat) : str := field ++ [91] ++ to_string (Z.of_nat index) ++ [93].

Definition validate_non_empty (field value : str) : list str :=
  if bool_decide (trim value = []) then [field ++ lit " must not be empty"] else [].

Definition validate_non_empty_values (field : str) (values : list str) : list str :=
  concat (imap (λ index value, validate_non_empty (indexed field index) value) values).

Definition identifier_byte (byte : Z) : bool :=
  is_ascii_alphanumeric byte || bool_decide (byte ∈ [46; 95; 45]).

Definition validate_identifier (field value : str) : list str :=
  validate_non_empty field value ++
  (if forallb identifier_byte (utf8_encode value) then []
   else [field ++ lit " may contain only ASCII letters, digits, '.', '_', and '-'"]).

Definition env_name_byte (byte : Z) : bool := is_ascii_alphanumeric byte || (byte =? 95).

Definition validate_env_name (field value : str) : list str :=
  validate_non_empty field value ++
  match utf8_encode value with
  | [] => []
  | first :: rest =>
    if (is_ascii_alphabetic first || (first =? 95)) && forallb env_name_byte rest then []
    else [field ++ lit " must be a shell environment name using ASCII letters, digits, and '_' and must not start with a digit"]
  end.

(** The digits at the start, and whether they are a positive 64-bit number *)
Definition positive_number (number : str) : bool :=
  match parse_uint u64_max number with Some parsed => negb (parsed =? 0) | None => false end.

Definition size_suffixes : list str :=
  [lit ""; lit "K"; lit "M"; lit "G"; lit "T"; lit "KB"; lit "MB"; lit "GB"; lit "TB"; lit "KIB"; lit "MIB"; lit "GIB"; lit "TIB"].

Definition validate_size (field value : str) : list str :=
  let value := trim value in
  let digit_count := count_while is_ascii_digit value in
  validate_non_empty field value ++
  if (digit_count =? 0)%nat then [field ++ lit " must start with a positive integer"]
  else
    let number := take digit_count value in
    let suffix := to_ascii_uppercase <$> drop digit_count value in
    (if positive_number number then [] else [field ++ lit " must be greater than zero"]) ++
    (if bool_decide (suffix ∈ size_suffixes) then [] else [field ++ lit " has unsupported size suffix: " ++ suffix]).

Definition duration_suffixes : list str := [lit "s"; lit "m"; lit "h"].

Definition validate_duration (field value : str) : list str :=
  let value := trim value in
  let digit_count := count_while is_ascii_digit value in
  validate_non_empty field value ++
  if (digit_count =? 0)%nat then [field ++ lit " must start with a positive integer"]
  else
    (if positive_number (take digit_count value) then [] else [field ++ lit " must be greater than zero"]) ++
    (if bool_decide (drop digit_count value ∈ duration_suffixes) then [] else [field ++ lit " must use an s, m, or h suffix"]).

Definition validate_relative_path (field value : str) : list str :=
  validate_non_empty field value ++
  if bool_decide (head value = Some 47) then [field ++ lit " must be relative"]
  else if bool_decide (92 ∈ value) then [field ++ lit " must use '/' separators"]
  else if existsb (λ component, bool_decide (component = lit "..")) (split_char 47 value)
  then [field ++ lit " must not contain '..'"] else [].

Definition validate_tcp_target (field value : str) : list str :=
  validate_non_empty field value ++
  match rsplit_once 58 value with
  | None => [field ++ lit " must be host:port"]
  | Some (host, port) =>
    (if bool_decide (trim host = []) then [field ++ lit " host must not be empty"] else []) ++
    match parse_uint u16_max port with
    | Some port => if port =? 0 then [field ++ lit " port must be greater than zero"] else []
    | None => [field ++ lit " port must be a number from 1 to 65535"]
    end
  end.

Definition http_token_byte (byte : Z) : bool :=
  is_ascii_alphanumeric byte || bool_decide (byte ∈ bytes_of "!#$%&'*+-.^_`|~").

Definition validate_http_method (field value : str) : list str :=
  validate_non_empty field value ++
  (if forallb http_token_byte (utf8_encode value) then [] else [field ++ lit " must be an HTTP token"]).

Definition validate_http_url (field value : str) : list str :=
  validate_non_empty field value ++
  match Text.strip_prefix (lit "http://") value with
  | None => [field ++ lit " must start with http://"]
  | Some rest =>
    let authority := match split_once 47 rest with Some (authority, _) => authority | None => rest end in
    validate_tcp_target (field ++ lit " authority") authority
  end.

(** ** The parts of the manifest *)
Definition CA_ENV_VARS_KEY : str := lit "AGENTDP_CA_ENV_VARS".

Definition ca_is_active (self : Ca) (network_mode : NetworkMode) : bool :=
  match ca_source self, network_mode with
  | CaAuto, NetworkMediated => true
  | CaAuto, NetworkUser => false
  | CaNone, _ => false
  | CaPath _, _ => true
  end.

Definition generates_mediated_ca (self : Ca) (network_mode : NetworkMode) : bool :=
  match ca_source self, network_mode with CaAuto, NetworkMediated => true | _, _ => false end.

Definition ca_source_path (self : Ca) : option str := match ca_source self with CaPath path => Some path | _ => None end.

Definition ca_validate (self : Ca) (network_mode : NetworkMode) : list str :=
  match ca_source_path self with
  | Some path =>
    validate_relative_path (lit "network.ca.source") path ++
    match network_mode with
    | NetworkMediated =>
      [lit "network.ca.source path is only supported with spec.network.mode: user; mediated mode generates its own CA"]
    | NetworkUser => []
    end
  | None => []
  end ++
  concat (imap (λ index name,
    validate_env_name (indexed (lit "network.ca.extra_env_vars") index) name ++
    (if bool_decide (name = CA_ENV_VARS_KEY)
     then [indexed (lit "network.ca.extra_env_vars") index ++ lit " cannot use reserved env var " ++ CA_ENV_VARS_KEY]
     else [])) (ca_extra_env_vars self)).

Definition guest_port_validate (self : GuestPort) (mode : NetworkMode) (name : str) : list str :=
  let field := lit "network.ports." ++ name in
  (if gp_guest self =? 0 then [field ++ lit ".guest must be greater than zero"] else []) ++
  (if bool_decide (gp_host self = Some 0) then [field ++ lit ".host must be greater than zero"] else []) ++
  match mode, gp_host self with
  | NetworkUser, None => [field ++ lit ".host is required when using user networking"]
  | _, _ => []
  end.

Definition network_allow_validate (self : NetworkAllow) : list str :=
  match self with AllowHosts hosts => validate_non_empty_values (lit "network.allow") hosts | AllowAll => [] end.

Definition host_alias_validate (self : HostAlias) (index : nat) : list str :=
  let field := indexed (lit "network.host_aliases") index in
  validate_non_empty (field ++ lit ".address") (alias_address self) ++
  validate_non_empty_values (field ++ lit ".names") (alias_names self).

Definition network_validate (self : Network) : list str :=
  (if bool_decide (net_ports self = ∅) then [lit "network.ports must declare at least one named guest port"] else []) ++
  ca_validate (net_ca self) (net_mode self) ++
  concat ((λ '(name, port), validate_identifier (lit "network.ports key") name ++ guest_port_validate port (net_mode self) name)
    <$> map_sorted (net_ports self)) ++
  network_allow_validate (net_allow self) ++
  concat (imap (λ index alias, host_alias_validate alias index) (net_host_aliases self)).

(** The replicas of a port from [replica] on, [remaining] of them: the messages and the
    host ports assigned so far *)
Fixpoint assign_replicas (name : str) (replicas base replica : Z) (remaining : nat) (assigned : gset Z) : list str * gset Z :=
  match remaining with
  | O => ([], assigned)
  | S remaining =>
    let exceeds := lit "network.ports." ++ name ++ lit ".host range exceeds 65535 for replicas: " ++ to_string replicas in
    if (base + replica <=? u32_max) && (base + replica <=? u16_max) then
      let host := base + replica in
      let overlap := if decide (host ∈ assigned)
        then [lit "network.ports." ++ name ++ lit ".host assigns overlapping host port " ++ to_string host
              ++ lit " across configured replicas"] else [] in
      let '(errors, assigned) := assign_replicas name replicas base (replica + 1) remaining ({[ host ]} ∪ assigned) in
      (overlap ++ errors, assigned)
    else ([exceeds], assigned)
  end.

Fixpoint assign_ports (ports : list (str * GuestPort)) (replicas : Z) (assigned : gset Z) : list str :=
  match ports with
  | [] => []
  | (name, port) :: ports =>
    match gp_host port with
    | None => assign_ports ports replicas assigned
    | Some base =>
      let '(errors, assigned) := assign_replicas name replicas base 0 (Z.to_nat replicas) assigned in
      errors ++ assign_ports ports replicas assigned
    end
  end.

Definition validate_host_port_plan (self : Network) (replicas : Z) : list str :=
  assign_ports (map_sorted (net_ports self)) replicas ∅.

Definition optional {A} (f : A → list str) (x : option A) : list str := match x with Some x => f x | None => [] end.

Definition user_linux_validate (self : UserLinux) : list str :=
  (if bool_decide (ul_uid self = Some 0) then [lit "user.linux.uid must not be 0"] else []) ++
  (if bool_decide (ul_gid self = Some 0) then [lit "user.linux.gid must not be 0"] else []) ++
  optional (validate_identifier (lit "user.linux.group")) (ul_group self) ++
  validate_non_empty_values (lit "user.linux.groups") (ul_groups self) ++
  concat (imap (λ index group, validate_identifier (indexed (lit "user.linux.groups") index) group) (ul_groups self)).

Definition os_name (self : GuestOs) : str := match self with Archlinux => lit "archlinux" | Rocky9 => lit "rocky9" end.

Definition guest_os_matches (self : UserOptions) (os : GuestOs) : bool :=
  match self, os with LinuxOptions _, (Archlinux | Rocky9) => true end.

Definition user_options_validate (self : UserOptions) (os : GuestOs) : list str :=
  (if guest_os_matches self os then [] else [lit "user OS section is not valid for image.os " ++ os_name os]) ++
  match self with LinuxOptions linux => user_linux_validate linux end.

Definition user_validate (self : User) (os : GuestOs) : list str :=
  validate_identifier (lit "user.name") (user_name self) ++
  (if bool_decide (user_name self = lit "root") then [lit "user.name must not be root"] else []) ++
  user_options_validate (user_options self) os.

Definition resources_validate (self : Resources) : list str :=
  (if cpus self =? 0 then [lit "resources.cpus must be greater than zero"] else []) ++
  validate_size (lit "resources.memory") (memory self) ++
  validate_size (lit "resources.storage") (storage self).

(** *** Repositories *)

(** [s.strip_suffix(p)] *)
Definition strip_suffix (p s : str) : option str := if ends_with s p then Some (take (length s - length p) s) else None.

Definition normalize_relative_path (value : str) : str :=
  let components := filter (λ component, component ≠ [] ∧ component ≠ [46]) (split_char 47 value) in
  if bool_decide (components = []) then [46] else Text.join 47 components.

Definition repo_name_from_url (url : str) : str :=
  let trimmed := trim_end_matches 47 url in
  let last := reverse (split_first (λ c, (c =? 47) || (c =? 58)) (reverse trimmed)) in
  let name := if bool_decide (last = []) then lit "repo" else last in
  default name (strip_suffix (lit ".git") name).

Definition checkout_name (self : Repo) : str := default (repo_name_from_url (repo_url self)) (repo_name self).

Definition checkout_path (self : Repo) : str := normalize_relative_path (default (checkout_name self) (repo_path self)).

Definition repo_validate (self : Repo) (index : nat) : list str :=
  let field := indexed (lit "bootstrap.repos") index in
  optional (validate_identifier (field ++ lit ".name")) (repo_name self) ++
  validate_non_empty (field ++ lit ".url") (repo_url self) ++
  optional (validate_relative_path (field ++ lit ".path")) (repo_path self) ++
  optional (validate_non_empty (field ++ lit ".upstream")) (repo_upstream self).

(** [paths.insert(path, index)] returns the index it replaces. *)
Fixpoint unique_paths (repos : list Repo) (index : nat) (paths : gmap str nat) : list str :=
  match repos with
  | [] => []
  | repo :: repos =>
    let path := checkout_path repo in
    match paths !! path with
    | Some first_index =>
      [indexed (lit "bootstrap.repos") index ++ lit " resolves to duplicate checkout path " ++ quoted path
       ++ lit " first declared by " ++ indexed (lit "bootstrap.repos") first_index]
    | None => []
    end ++ unique_paths repos (S index) (<[path := index]> paths)
  end.
Definition validate_unique_repo_paths (repos : list Repo) : list str := unique_paths repos 0 ∅.

(** *** Health checks *)
Definition healthcheck_name (self : Healthcheck) : str :=
  match self with HealthCommand name _ _ | HealthTcp name _ _ | HealthHttp name _ _ _ => name end.
Definition healthcheck_timeout (self : Healthcheck) : option str :=
  match self with HealthCommand _ _ timeout | HealthTcp _ _ timeout | HealthHttp _ _ _ timeout => timeout end.

Definition healthcheck_validate (self : Healthcheck) (index : nat) : list str :=
  let field := indexed (lit "bootstrap.healthchecks") index in
  validate_identifier (field ++ lit ".name") (healthcheck_name self) ++
  match self with
  | HealthCommand _ command _ => validate_non_empty (field ++ lit ".command") command
  | HealthTcp _ target _ => validate_tcp_target (field ++ lit ".target") target
  | HealthHttp _ method url _ =>
    validate_http_method (field ++ lit ".method") method ++ validate_http_url (field ++ lit ".url") url
  end ++
  optional (validate_duration (field ++ lit ".timeout")) (healthcheck_timeout self).

Definition bootstrap_validate (self : Bootstrap) : list str :=
  validate_non_empty_values (lit "bootstrap.packages") (packages self) ++
  validate_non_empty_values (lit "bootstrap.shell") (shell self) ++
  concat (imap (λ index repo, repo_validate repo index) (repos self)) ++
  validate_unique_repo_paths (repos self) ++
  concat (imap (λ index healthcheck, healthcheck_validate healthcheck index) (healthchecks self)).

(** *** Secrets *)

(** A variable a plugin copies or mediates *)
Definition plugin_owned (plugin_requirements : HostInputRequirements) (name : str) : bool :=
  copies_custom_env_name name plugin_requirements
  || negb (bool_decide (mediated_secret_allowed_hosts_for name plugin_requirements = [])).

Definition secret_validate (self : Secret) (index : nat) (source_names guest_names : gset str)
    (plugin_requirements : HostInputRequirements) : list str :=
  let field := indexed (lit "secrets") index in
  let source := source_env_name self in
  validate_env_name (field ++ lit ".env") (secret_env self) ++
  optional (validate_env_name (field ++ lit ".from_env")) (secret_from_env self) ++
  validate_non_empty_values (field ++ lit ".allow_hosts") (secret_allow_hosts self) ++
  (if bool_decide (secret_allow_hosts self = []) then [field ++ lit ".allow_hosts must declare at least one host"] else []) ++
  (if decide (source ∈ source_names) then [lit "secrets source env " ++ quoted source ++ lit " is declared more than once"] else []) ++
  (if decide (secret_env self ∈ guest_names)
   then [lit "secrets guest env " ++ quoted (secret_env self) ++ lit " is declared more than once"] else []) ++
  ([source; secret_env self] ≫= λ name,
    if plugin_owned plugin_requirements name
    then [field ++ lit " uses plugin-owned env " ++ quoted name ++ lit "; configure that plugin auth mode instead"] else []).

Fixpoint secrets_loop (secrets : list Secret) (index : nat) (source_names guest_names : gset str)
    (plugin_requirements : HostInputRequirements) : list str :=
  match secrets with
  | [] => []
  | secret :: secrets =>
    secret_validate secret index source_names guest_names plugin_requirements ++
    secrets_loop secrets (S index) ({[ source_env_name secret ]} ∪ source_names) ({[ secret_env secret ]} ∪ guest_names)
      plugin_requirements
  end.

Definition validate_secrets (secrets : list Secret) (network_mode : NetworkMode)
    (plugin_requirements : HostInputRequirements) : list str :=
  match network_mode with
  | NetworkUser => if bool_decide (secrets = []) then [] else [lit "secrets require spec.network.mode to be mediated"]
  | NetworkMediated => []
  end ++
  secrets_loop secrets 0 ∅ ∅ plugin_requirements.

Definition validate_ca_secret_compatibility (network : Network) (secrets : list Secret)
    (plugin_requirements : HostInputRequirements) : list str :=
  match net_mode network, ca_source (net_ca network) with
  | NetworkMediated, CaNone =>
    if negb (bool_decide (secrets = [])) || has_mediated_secret_inputs plugin_requirements
    then [lit "network.ca.source: none cannot be used with mediated secrets"] else []
  | _, _ => []
  end.

(** *** Plugins *)
Definition playwright_validate (self : Playwright) : list str :=
  validate_non_empty (lit "plugins.browser.playwright.browser_package") (browser_package self) ++
  validate_non_empty (lit "plugins.browser.playwright.executable_path") (executable_path self) ++
  validate_non_empty_values (lit "plugins.browser.playwright.npm_packages") (npm_packages self) ++
  validate_non_empty (lit "plugins.browser.playwright.mcp_package") (mcp_package self) ++
  validate_non_empty (lit "plugins.browser.playwright.viewport") (viewport self).

Definition browser_validate (self : Browser) : list str := optional playwright_validate (playwright self).
Definition codex_validate (self : Codex) : list str := validate_non_empty (lit "plugins.codex.version") (codex_version self).
Definition dotnet_validate (self : DotNet) : list str := validate_non_empty_values (lit "plugins.dotnet.tools") (dotnet_tools self).
Definition go_validate (self : Go) : list str := validate_non_empty_values (lit "plugins.go.tools") (go_tools self).
Definition mise_validate (self : Mise) : list str := validate_non_empty_values (lit "plugins.mise.packages") (mise_packages self).

Definition git_user_validate (self : GitUser) : list str :=
  validate_env_name (lit "plugins.git.user.name.from_env") (git_name_from_env self) ++
  validate_env_name (lit "plugins.git.user.email.from_env") (git_email_from_env self).
Definition git_validate (self : Git) : list str :=
  optional git_user_validate (git_user self) ++
  optional (validate_identifier (lit "plugins.git.defaults.init_default_branch")) (init_default_branch (git_defaults self)).

Definition code_server_validate (self : CodeServer) : list str :=
  optional (validate_relative_path (lit "plugins.code_server.settings")) (cs_settings self) ++
  validate_non_empty_values (lit "plugins.code_server.extensions") (cs_extensions self) ++
  validate_non_empty_values (lit "plugins.code_server.remove_extensions") (cs_remove_extensions self) ++
  validate_non_empty_values (lit "plugins.code_server.trusted_domains") (cs_trusted_domains self).

Definition route_validate (self : Route) (index : nat) (network : Network) : list str :=
  let field := indexed (lit "plugins.tailscale_serve.routes") index in
  validate_identifier (field ++ lit ".service") (route_service self) ++
  (if decide (is_Some (net_ports network !! route_service self)) then []
   else [field ++ lit ".service references unknown network port " ++ quoted (route_service self)]) ++
  optional (validate_non_empty (field ++ lit ".host_template")) (route_host_template self) ++
  optional (λ path, validate_non_empty (field ++ lit ".path") path ++
    (if bool_decide (head path = Some 47) then [] else [field ++ lit ".path must start with '/'"])) (route_path self).

Definition tailscale_serve_validate (self : TailscaleServe) (network : Network) : list str :=
  (if bool_decide (routes self = []) then [lit "plugins.tailscale_serve.routes must declare at least one route"] else []) ++
  concat (imap (λ index route, route_validate route index network) (routes self)).

Definition SERVICE : str := lit "agent_host".

Definition agent_host_validate (network : Network) : list str :=
  match net_ports network !! SERVICE with
  | Some port =>
    match gp_protocol port with
    | Tcp => []
    | Udp => [lit "plugins.agent_host requires network port " ++ quoted SERVICE ++ lit " to use TCP"]
    end
  | None => [lit "plugins.agent_host requires network port " ++ quoted SERVICE]
  end.

Definition plugins_validate (self : Plugins) (network : Network) : list str :=
  optional codex_validate (codex self) ++
  match claude self, codex self with
  | Some _, Some codex =>
    match codex_session codex with
    | SessionGuestd => [lit "plugins.claude and plugins.codex cannot both be enabled: both manage the agent tmux session"]
    | SessionNone => []
    end
  | _, _ => []
  end ++
  optional mise_validate (mise self) ++ optional dotnet_validate (dotnet self) ++ optional go_validate (go self) ++
  optional git_validate (git self) ++ optional browser_validate (browser self) ++
  optional code_server_validate (code_server self) ++
  optional (λ serve, tailscale_serve_validate serve network) (tailscale_serve self) ++
  (if agent_host self then
     agent_host_validate network ++
     match codex self with
     | Some codex =>
       match codex_session codex with
       | SessionNone => []
       | SessionGuestd =>
         [lit "plugins.agent_host requires plugins.codex.session to be " ++ quoted (lit "none")
          ++ lit " so only Agent Host owns Codex sessions"]
       end
     | None => [lit "plugins.agent_host requires plugins.codex"]
     end
   else []).

(** ** The whole manifest *)
Definition agent_spec_validate (self : AgentSpec) : list str :=
  let host_input_requirements := plugins_host_input_requirements (plugins self) in
  user_validate (user self) (image_os self) ++
  resources_validate (resources self) ++
  network_validate (network self) ++
  bootstrap_validate (bootstrap self) ++
  validate_secrets (secrets self) (net_mode (network self)) host_input_requirements ++
  validate_ca_secret_compatibility (network self) (secrets self) host_input_requirements ++
  plugins_validate (plugins self) (network self).

(** *** The plan of a health check (src/core/agentdp-core/src/provisioning/bootstrap.rs) *)
Inductive HealthcheckKind := KindCommand (command : str) | KindTcp (target : str) | KindHttp (method url : str).
Record HealthcheckPlan := { hp_name : str; hp_kind : HealthcheckKind; hp_timeout : option str }.

Definition healthcheck_plan (healthcheck : Healthcheck) : HealthcheckPlan :=
  {| hp_name := healthcheck_name healthcheck;
     hp_kind := match healthcheck with
                | HealthCommand _ command _ => KindCommand command
                | HealthTcp _ target _ => KindTcp target
                | HealthHttp _ method url _ => KindHttp method url
                end;
     hp_timeout := healthcheck_timeout healthcheck |}.

(** ** Equality of manifests *)
Ltac solve_eq := solve [solve_decision].
#[export] Instance guest_os_eq_dec : EqDecision GuestOs. Proof. solve_eq. Defined.
#[export] Instance network_mode_eq_dec : EqDecision NetworkMode. Proof. solve_eq. Defined.
#[export] Instance network_ipv6_eq_dec : EqDecision NetworkIpv6. Proof. solve_eq. Defined.
#[export] Instance ca_source_eq_dec : EqDecision CaSource. Proof. solve_eq. Defined.
#[export] Instance user_linux_eq_dec : EqDecision UserLinux. Proof. solve_eq. Defined.
#[export] Instance user_options_eq_dec : EqDecision UserOptions. Proof. solve_eq. Defined.
#[export] Instance user_eq_dec : EqDecision User. Proof. solve_eq. Defined.
#[export] Instance resources_eq_dec : EqDecision Resources. Proof. solve_eq. Defined.
#[export] Instance ca_eq_dec : EqDecision Ca. Proof. solve_eq. Defined.
#[export] Instance host_alias_eq_dec : EqDecision HostAlias. Proof. solve_eq. Defined.
#[export] Instance network_protocol_eq_dec : EqDecision NetworkProtocol. Proof. solve_eq. Defined.
#[export] Instance guest_port_eq_dec : EqDecision GuestPort. Proof. solve_eq. Defined.
#[export] Instance network_allow_eq_dec : EqDecision NetworkAllow. Proof. solve_eq. Defined.
#[export] Instance network_eq_dec : EqDecision Network. Proof. solve_eq. Defined.
#[export] Instance repo_eq_dec : EqDecision Repo. Proof. solve_eq. Defined.
#[export] Instance healthcheck_eq_dec : EqDecision Healthcheck. Proof. solve_eq. Defined.
#[export] Instance bootstrap_eq_dec : EqDecision Bootstrap. Proof. solve_eq. Defined.
#[export] Instance secret_eq_dec : EqDecision Secret. Proof. solve_eq. Defined.
#[export] Instance auth_mode_eq_dec : EqDecision AuthMode. Proof. solve_eq. Defined.
#[export] Instance auth_source_eq_dec : EqDecision AuthSource. Proof. solve_eq. Defined.
#[export] Instance codex_session_eq_dec : EqDecision CodexSession. Proof. solve_eq. Defined.
#[export] Instance route_mode_eq_dec : EqDecision RouteMode. Proof. solve_eq. Defined.
#[export] Instance playwright_eq_dec : EqDecision Playwright. Proof. solve_eq. Defined.
#[export] Instance browser_eq_dec : EqDecision Browser. Proof. solve_eq. Defined.
#[export] Instance claude_eq_dec : EqDecision Claude. Proof. solve_eq. Defined.
#[export] Instance code_server_eq_dec : EqDecision CodeServer. Proof. solve_eq. Defined.
#[export] Instance codex_eq_dec : EqDecision Codex. Proof. solve_eq. Defined.
#[export] Instance docker_eq_dec : EqDecision Docker. Proof. solve_eq. Defined.
#[export] Instance dotnet_eq_dec : EqDecision DotNet. Proof. solve_eq. Defined.
#[export] Instance git_user_eq_dec : EqDecision GitUser. Proof. solve_eq. Defined.
#[export] Instance git_defaults_eq_dec : EqDecision GitDefaults. Proof. solve_eq. Defined.
#[export] Instance git_eq_dec : EqDecision Git. Proof. solve_eq. Defined.
#[export] Instance github_eq_dec : EqDecision GitHub. Proof. solve_eq. Defined.
#[export] Instance go_eq_dec : EqDecision Go. Proof. solve_eq. Defined.
#[export] Instance mise_eq_dec : EqDecision Mise. Proof. solve_eq. Defined.
#[export] Instance node_eq_dec : EqDecision Node. Proof. solve_eq. Defined.
#[export] Instance podman_eq_dec : EqDecision Podman. Proof. solve_eq. Defined.
#[export] Instance route_eq_dec : EqDecision Route. Proof. solve_eq. Defined.
#[export] Instance tailscale_serve_eq_dec : EqDecision TailscaleServe. Proof. solve_eq. Defined.
#[export] Instance plugins_eq_dec : EqDecision Plugins. Proof. solve_eq. Defined.
#[export] Instance agent_spec_eq_dec : EqDecision AgentSpec. Proof. solve_eq. Defined.
#[export] Instance healthcheck_kind_eq_dec : EqDecision HealthcheckKind. Proof. solve_eq. Defined.
#[export] Instance healthcheck_plan_eq_dec : EqDecision HealthcheckPlan. Proof. solve_eq. Defined.

(** ** The manifest as the controller sees it

    The state of the backend, of the tailscale service, of the control channel and
    the seed files are data the controller only carries. *)
Section rules.
Context {BackendState TailscaleServeState InstanceControl SeedFile : Type}.
Context `{EqDecision BackendState, EqDecision TailscaleServeState}.

#[export] Instance manifest_types : AgentTypes := {|
  AgentDocument.AgentSpec := AgentSpec;
  AgentDocument.BackendState := BackendState;
  AgentDocument.TailscaleServeState := TailscaleServeState;
  AgentDocument.HealthcheckPlan := HealthcheckPlan;
  AgentDocument.InstanceControl := InstanceControl;
  AgentDocument.SeedFile := SeedFile;
|}.

Definition deployment_spec_validate (self : AgentDeploymentSpec) : list str :=
  agent_spec_validate (dep_template self) ++
  validate_host_port_plan (network (dep_template self)) (dep_replicas self).

(** [AgentManifest::validate] *)
Definition agent_manifest_validate (self : AgentManifest) : list str :=
  (if bool_decide (mf_api_version self = AGENTDP_API_VERSION) then []
   else [lit "apiVersion must be agentdp.dev/v1alpha1, got " ++ mf_api_version self]) ++
  validate_identifier (lit "metadata.name") (mf_name self) ++
  ((λ message, lit "spec." ++ message) <$> deployment_spec_validate (mf_spec self)).

#[export] Instance manifest_rules : ManifestRules := {|
  validate := agent_manifest_validate;
  network_ports spec := net_ports (network spec);
  network_allow spec := net_allow (network spec);
  same_mediated_auth_bindings current next :=
    has_same_mediated_auth_bindings (host_input_requirements current) (host_input_requirements next);
|}.
End rules.
