(* ===== verification/ManifestValid.v ===== *)
(** * What a valid manifest is

    [valid_manifest] says it without messages; [manifest_validate_exact] shows that
    validation accepts exactly these manifests.  What other components rely on
    follows: every replica has its host ports, every secret its hosts. *)
From S2P Require Import Prelude Text Ordered Format Secrets JsonAuth HostInput.
From S2P Require Import AgentDocument Manifest.
Local Open Scope Z_scope.

(** ** Collecting messages *)
Lemma check_nil (b : bool) (m : str) : (if b then [] else [m]) = [] ↔ b = true.
Proof. by destruct b. Qed.

Lemma check_not_nil (b : bool) (m : str) : (if b then [m] else []) = [] ↔ b = false.
Proof. by destruct b. Qed.

Lemma decide_nil (P : Prop) `{Decision P} (m : str) : (if decide P then [] else [m]) = [] ↔ P.
Proof. by destruct (decide P). Qed.

Lemma decide_not_nil (P : Prop) `{Decision P} (m : str) : (if decide P then [m] else []) = [] ↔ ¬ P.
Proof. destruct (decide P); naive_solver. Qed.

Lemma optional_nil {A} (f : A → list str) x : optional f x = [] ↔ ∀ y, x = Some y → f y = [].
Proof. destruct x; naive_solver. Qed.

Lemma concat_nil {A} (l : list (list A)) : concat l = [] ↔ Forall (λ x, x = []) l.
Proof.
  induction l as [|x l IH]; simpl; [by split|]. rewrite app_nil, IH, Forall_cons. done.
Qed.

Lemma concat_imap_nil {A} (f : nat → A → list str) (P : A → Prop) l :
  (∀ i x, f i x = [] ↔ P x) → concat (imap f l) = [] ↔ Forall P l.
Proof.
  intros Hf. rewrite concat_nil. revert f Hf. induction l as [|x l IH]; intros f Hf; simpl; [by split|].
  rewrite !Forall_cons, Hf, (IH (f ∘ S)); [done|]. intros i y. apply Hf.
Qed.

Lemma and_congr (A B C D : Prop) : (A ↔ C) → (B ↔ D) → A ∧ B ↔ C ∧ D.
Proof. naive_solver. Qed.

Ltac messages := rewrite ?app_nil, ?check_nil, ?check_not_nil, ?optional_nil, ?bool_decide_eq_true, ?bool_decide_eq_false.

(** ** Single values *)

(** Something other than white space *)
Definition not_blank (value : str) : Prop := ∃ c, c ∈ value ∧ is_whitespace c = false.

Definition identifier (value : str) : Prop := value ≠ [] ∧ Forall (λ c, identifier_byte c = true) value.

Definition env_name (value : str) : Prop :=
  ∃ first rest, value = first :: rest ∧ (is_ascii_alphabetic first || (first =? 95)) = true ∧
    Forall (λ c, env_name_byte c = true) rest.

(** A positive 64-bit number before a suffix, white space around them *)
Definition quantity (suffix_ok : str → Prop) (value : str) : Prop :=
  ∃ number suffix, trim value = number ++ suffix ∧ number ≠ [] ∧ Forall (λ c, is_ascii_digit c = true) number ∧
    0 < decimal_value number <= u64_max ∧ suffix_ok suffix.

Definition size_text : str → Prop := quantity (λ suffix, to_ascii_uppercase <$> suffix ∈ size_suffixes).
Definition duration_text : str → Prop := quantity (λ suffix, suffix ∈ duration_suffixes).

Definition relative_path (value : str) : Prop :=
  not_blank value ∧ head value ≠ Some 47 ∧ 92 ∉ value ∧ [46; 46] ∉ split_char 47 value.

Definition tcp_target (value : str) : Prop :=
  ∃ host port p, value = host ++ 58 :: port ∧ 58 ∉ port ∧ not_blank host ∧ parse_uint u16_max port = Some p ∧ 0 < p.

Definition http_url (value : str) : Prop :=
  ∃ authority rest, value = lit "http://" ++ authority ++ rest ∧ 47 ∉ authority ∧
    (rest = [] ∨ head rest = Some 47) ∧ tcp_target authority.

Definition http_token (value : str) : Prop := value ≠ [] ∧ Forall (λ c, http_token_byte c = true) value.

Lemma trim_start_nil s : trim_start s = [] ↔ Forall (λ c, is_whitespace c = true) s.
Proof.
  induction s as [|c s IH]; simpl; [by split|]. rewrite Forall_cons.
  destruct (is_whitespace c); [rewrite IH; naive_solver|naive_solver].
Qed.

Lemma trim_start_suffix s : ∃ pre, s = pre ++ trim_start s ∧ Forall (λ c, is_whitespace c = true) pre.
Proof.
  induction s as [|c s (pre & Hs & Hpre)]; simpl; [by exists []|]. destruct (is_whitespace c) eqn:Hc.
  - exists (c :: pre). split; [by rewrite Hs at 1|by constructor].
  - by exists [].
Qed.

Lemma trim_nil s : trim s = [] ↔ Forall (λ c, is_whitespace c = true) s.
Proof.
  unfold trim, trim_end. rewrite <-(reverse_involutive []), (inj_iff reverse), reverse_nil, trim_start_nil, Forall_reverse.
  destruct (trim_start_suffix s) as (pre & Hs & Hpre). rewrite Hs at 2. rewrite Forall_app. naive_solver.
Qed.

Lemma not_blank_trim s : trim s ≠ [] ↔ not_blank s.
Proof.
  rewrite trim_nil. unfold not_blank. split.
  - intros Hs. apply not_Forall_Exists in Hs; [|apply _]. apply Exists_exists in Hs as (c & Hc & Hw).
    exists c. split; [done|]. by apply not_true_is_false.
  - intros (c & Hc & Hw) Hall. rewrite Forall_forall in Hall. by rewrite Hall in Hw.
Qed.

Lemma validate_non_empty_exact field value : validate_non_empty field value = [] ↔ not_blank value.
Proof. unfold validate_non_empty. messages. apply not_blank_trim. Qed.

Lemma validate_non_empty_values_exact field values : validate_non_empty_values field values = [] ↔ Forall not_blank values.
Proof. apply concat_imap_nil. intros. apply validate_non_empty_exact. Qed.

(** A class of ASCII characters can be checked on the bytes of the text. *)
Lemma forallb_utf8 (p : Z → bool) s :
  (∀ c, p c = true → c < 128) → forallb p (utf8_encode s) = true ↔ Forall (λ c, p c = true) s.
Proof.
  intros Hp. unfold utf8_encode. rewrite <-Is_true_true, forallb_True. induction s as [|c s IH]; [by split; constructor|].
  rewrite bind_cons, Forall_app, Forall_cons, IH.
  enough (Forall p (utf8_encode_char c) ↔ p c = true) as -> by done.
  unfold utf8_encode_char. destruct (Z.ltb_spec c 128).
  { rewrite Forall_singleton. apply Is_true_true. }
  assert (∀ b l, 128 <= b → Forall p (b :: l) ↔ p c = true) as Hhigh.
  { intros b l Hb. rewrite Forall_cons, Is_true_true. split; [intros [Hb' _]|intros Hc']; apply Hp in Hb' || apply Hp in Hc'; lia. }
  repeat case_match; apply Hhigh; try lia.
  - assert (0 <= c / 64) by (apply Z.div_pos; lia). lia.
  - assert (0 <= c / 4096) by (apply Z.div_pos; lia). lia.
  - assert (0 <= c / 262144) by (apply Z.div_pos; lia). lia.
Qed.

Lemma alphanumeric_ascii c : is_ascii_alphanumeric c = true → c < 128 ∧ is_whitespace c = false.
Proof. unfold is_ascii_alphanumeric, is_ascii_alphabetic, is_ascii_digit, is_whitespace. lia. Qed.

Lemma identifier_ascii c : identifier_byte c = true → c < 128 ∧ is_whitespace c = false.
Proof.
  unfold identifier_byte. rewrite orb_true_iff, bool_decide_eq_true. intros [?|Hin]; [by apply alphanumeric_ascii|].
  rewrite !elem_of_cons, elem_of_nil in Hin. destruct Hin as [->|[->|[->|[]]]]; by split.
Qed.

Lemma env_name_ascii c : env_name_byte c = true → c < 128 ∧ is_whitespace c = false.
Proof. unfold env_name_byte. rewrite orb_true_iff, Z.eqb_eq. intros [?| ->]; [by apply alphanumeric_ascii|by split]. Qed.

Lemma http_token_ascii c : http_token_byte c = true → c < 128 ∧ is_whitespace c = false.
Proof.
  unfold http_token_byte. rewrite orb_true_iff, bool_decide_eq_true. intros [?|Hin]; [by apply alphanumeric_ascii|].
  assert (Forall (λ c, c < 128 ∧ is_whitespace c = false) (bytes_of "!#$%&'*+-.^_`|~")) as Hall
    by (apply (bool_decide_eq_true_1 (Forall _ _)); vm_compute; reflexivity).
  rewrite Forall_forall in Hall. by apply Hall.
Qed.

(** Text of a class without white space is not blank exactly when it is not empty. *)
Lemma class_text (p : Z → bool) s :
  (∀ c, p c = true → c < 128 ∧ is_whitespace c = false) →
  not_blank s ∧ forallb p (utf8_encode s) = true ↔ s ≠ [] ∧ Forall (λ c, p c = true) s.
Proof.
  intros Hp. rewrite forallb_utf8 by (intros; by apply Hp). split; intros [Hs Hall]; (split; [|done]).
  - destruct Hs as (c & Hc & _). by intros ->; apply not_elem_of_nil in Hc.
  - destruct s as [|c s]; [done|]. exists c. split; [by left|]. apply Forall_cons in Hall as [Hc _]. by apply Hp.
Qed.

Lemma validate_identifier_exact field value : validate_identifier field value = [] ↔ identifier value.
Proof.
  unfold validate_identifier. messages. rewrite validate_non_empty_exact. apply class_text, identifier_ascii.
Qed.

Lemma validate_http_method_exact field value : validate_http_method field value = [] ↔ http_token value.
Proof.
  unfold validate_http_method. messages. rewrite validate_non_empty_exact. apply class_text, http_token_ascii.
Qed.

Lemma validate_env_name_exact field value : validate_env_name field value = [] ↔ env_name value.
Proof.
  unfold validate_env_name. rewrite app_nil, validate_non_empty_exact. unfold env_name.
  assert (∀ c, (is_ascii_alphabetic c || (c =? 95)) = true → env_name_byte c = true) as Hfirst.
  { intros c. unfold env_name_byte, is_ascii_alphanumeric. destruct (is_ascii_alphabetic c); [done|].
    cbn [orb]. intros ->. apply orb_true_r. }
  assert (∀ c, env_name_byte c = true → c < 128) as Hascii by (intros; by apply env_name_ascii).
  destruct value as [|c rest].
  { split; [|by intros (? & ? & ? & _)]. intros [(c & Hc & _) _]. by apply not_elem_of_nil in Hc. }
  unfold utf8_encode. rewrite bind_cons. fold (utf8_encode rest). destruct (Z.ltb_spec c 128) as [Hc|Hc].
  - unfold utf8_encode_char. rewrite (proj2 (Z.ltb_lt c 128)) by done. cbn [app]. rewrite check_nil, andb_true_iff, forallb_utf8 by done.
    split; [naive_solver|]. intros (first & rest' & [= <- <-] & Hf & Hr). split; [|done].
    exists c. split; [by left|]. by apply env_name_ascii, Hfirst.
  - assert (∃ b l, utf8_encode_char c = b :: l ∧ 128 <= b) as (b & l & -> & Hb).
    { unfold utf8_encode_char. rewrite (proj2 (Z.ltb_ge c 128)) by done.
      assert (0 <= c / 64 ∧ 0 <= c / 4096 ∧ 0 <= c / 262144) as (? & ? & ?) by (split_and!; apply Z.div_pos; lia).
      repeat case_match; eexists _, _; (split; [done|lia]). }
    cbn [app]. rewrite check_nil, andb_true_iff. split.
    + intros [_ [Hf%Hfirst%Hascii _]]. lia.
    + intros (first & rest' & [= <- <-] & Hf%Hfirst%Hascii & _). lia.
Qed.

(** *** Numbers *)
Lemma digits_value_decimal max acc s :
  Forall (λ c, is_ascii_digit c = true) s → 0 <= acc <= max →
  digits_value 10 max acc s =
    let v := foldl (λ acc c, acc * 10 + (c - 48)) acc s in if v <=? max then Some v else None.
Proof.
  intros Hs. revert acc. induction Hs as [|c s Hc Hs IH]; intros acc Hacc; cbn [digits_value foldl].
  { by rewrite (proj2 (Z.leb_le acc max)) by lia. }
  assert (48 <= c <= 57) by (unfold is_ascii_digit in Hc; lia).
  unfold to_digit. rewrite (proj2 (andb_true_iff _ _)) by lia. rewrite (proj2 (Z.ltb_lt (c - 48) 10)) by lia.
  cbn [mbind option_bind]. destruct (Z.leb_spec (acc * 10 + (c - 48)) max) as [Hle|Hgt]; [apply IH; lia|].
  assert (∀ s v, Forall (λ c, is_ascii_digit c = true) s → 0 <= v → v <= foldl (λ acc c, acc * 10 + (c - 48)) v s) as Hmono.
  { clear. intros s v Hs. revert v. induction Hs as [|c s Hc Hs IH]; intros v Hv; simpl; [lia|].
    unfold is_ascii_digit in Hc. etrans; [|apply IH]; lia. }
  specialize (Hmono s (acc * 10 + (c - 48)) Hs ltac:(lia)). cbv zeta. by rewrite (proj2 (Z.leb_gt _ _)) by lia.
Qed.

Lemma positive_number_exact number :
  number ≠ [] → Forall (λ c, is_ascii_digit c = true) number →
  positive_number number = true ↔ 0 < decimal_value number <= u64_max.
Proof.
  intros Hne Hd. unfold positive_number, parse_uint.
  assert (from_str_radix 10 u64_max number = digits_value 10 u64_max 0 number) as ->.
  { destruct number as [|c l]; [done|]. apply Forall_cons in Hd as [Hc _]. unfold is_ascii_digit in Hc.
    unfold from_str_radix. destruct (decide (c = 43)); [lia|]. by repeat case_match; simplify_eq. }
  rewrite digits_value_decimal by (done || unfold u64_max; lia). fold (decimal_value number). cbv zeta.
  assert (0 <= decimal_value number) as Hpos.
  { unfold decimal_value. assert (∀ v, 0 <= v → 0 <= foldl (λ acc c, acc * 10 + (c - 48)) v number) as Hall; [|by apply Hall].
    clear Hne. induction Hd as [|c l Hc Hl IH]; intros v Hv; simpl; [done|]. unfold is_ascii_digit in Hc. apply IH. lia. }
  destruct (Z.leb_spec (decimal_value number) u64_max); [|split; [done|lia]].
  rewrite negb_true_iff, Z.eqb_neq. lia.
Qed.

(** The digits at the start of a text are its number. *)
Lemma quantity_exact (suffix_ok : str → Prop) value :
  (∀ c suffix, suffix_ok (c :: suffix) → is_ascii_digit c = false) →
  let n := count_while is_ascii_digit (trim value) in
  (n ≠ 0%nat ∧ positive_number (take n (trim value)) = true ∧ suffix_ok (drop n (trim value))) ↔ quantity suffix_ok value.
Proof.
  intros Hsuffix. cbv zeta. unfold quantity. set (v := trim value).
  destruct (count_while_spec is_ascii_digit v) as [Htake Hdrop]. split.
  - intros (Hn & Hpos & Hok). exists (take (count_while is_ascii_digit v) v), (drop (count_while is_ascii_digit v) v).
    assert (take (count_while is_ascii_digit v) v ≠ []) as Hne.
    { destruct v as [|c v]; [done|]. by destruct (count_while is_ascii_digit (c :: v)). }
    split_and!; [by rewrite take_drop|done|done|by apply positive_number_exact..|done].
  - intros (number & suffix & Hv & Hne & Hd & Hpos & Hok). rewrite Hv.
    rewrite count_while_app; [|done|destruct suffix; [done|by eapply Hsuffix]].
    rewrite take_app_length, drop_app_length. split_and!; [by destruct number|by apply positive_number_exact|done].
Qed.

Lemma digits_not_blank s : count_while is_ascii_digit s ≠ 0%nat → not_blank s.
Proof.
  destruct s as [|c s]; simpl; [done|]. destruct (is_ascii_digit c) eqn:Hc; [|done]. intros _.
  exists c. split; [by left|]. unfold is_ascii_digit in Hc. unfold is_whitespace. lia.
Qed.

Lemma validate_size_exact field value : validate_size field value = [] ↔ size_text value.
Proof.
  unfold size_text. rewrite <-quantity_exact.
  2:{ intros c suffix Hin. destruct (is_ascii_digit c) eqn:Hc; [|done]. exfalso.
      assert (Forall (λ s, match s with [] => True | c :: _ => 65 <= c end) size_suffixes) as Hall
        by (repeat (apply Forall_cons; split; [vm_compute; first [exact I|discriminate]|]); apply Forall_nil; exact I).
      rewrite Forall_forall in Hall. apply Hall in Hin. cbn in Hin. unfold is_ascii_digit in Hc. unfold to_ascii_uppercase in Hin.
      case_match; lia. }
  unfold validate_size. cbv zeta. rewrite app_nil. destruct (Nat.eqb_spec (count_while is_ascii_digit (trim value)) 0) as [->|Hn]; [naive_solver|].
  messages. rewrite validate_non_empty_exact. split; [naive_solver|]. intros (_ & Hpos & Hin). split; [|done].
  by apply digits_not_blank.
Qed.

Lemma validate_duration_exact field value : validate_duration field value = [] ↔ duration_text value.
Proof.
  unfold duration_text. rewrite <-quantity_exact.
  2:{ intros c suffix Hin. unfold duration_suffixes in Hin. rewrite !elem_of_cons, elem_of_nil in Hin.
      by destruct Hin as [[= -> _]|[[= -> _]|[[= -> _]|[]]]]. }
  unfold validate_duration. cbv zeta. rewrite app_nil. destruct (Nat.eqb_spec (count_while is_ascii_digit (trim value)) 0) as [->|Hn]; [naive_solver|].
  messages. rewrite validate_non_empty_exact. split; [naive_solver|]. intros (_ & Hpos & Hin). split; [|done].
  by apply digits_not_blank.
Qed.

(** *** Paths and targets *)
Lemma existsb_component (component : str) l :
  existsb (λ x, bool_decide (x = component)) l = false ↔ component ∉ l.
Proof.
  rewrite <-not_true_iff_false, <-Is_true_true, existb_True, Exists_exists. split.
  - intros Hnot Hin. apply Hnot. exists component. split; [done|]. by apply bool_decide_spec.
  - intros Hnot (x & Hin & Hx%bool_decide_spec). by subst.
Qed.

Lemma validate_relative_path_exact field value : validate_relative_path field value = [] ↔ relative_path value.
Proof.
  unfold validate_relative_path, relative_path. rewrite app_nil, validate_non_empty_exact.
  case_bool_decide as Hhead; [naive_solver|]. case_bool_decide as Hslash; [naive_solver|].
  rewrite check_not_nil, existsb_component. change (lit "..") with [46; 46]. naive_solver.
Qed.

Lemma split_once_none (c : Z) (s : str) : split_once c s = None ↔ c ∉ s.
Proof.
  induction s as [|x s IH]; [split; [intros _; apply not_elem_of_nil|done]|]. cbn [split_once].
  destruct (Z.eqb_spec x c) as [->|Hx]; [split; [done|intros Hn; destruct Hn; by left]|].
  rewrite not_elem_of_cons, <-IH. destruct (split_once c s) as [[a b]|]; cbn; naive_solver.
Qed.

Lemma rsplit_once_spec c s a b : rsplit_once c s = Some (a, b) ↔ s = a ++ c :: b ∧ c ∉ b.
Proof.
  unfold rsplit_once. split.
  - destruct (split_once c (reverse s)) as [[b' a']|] eqn:Hs; cbn; [|done]. intros [= <- <-].
    apply split_once_spec in Hs as [Hs Hb]. rewrite elem_of_reverse. split; [|done].
    rewrite <-(reverse_involutive s), Hs, reverse_app, reverse_cons. by rewrite <-(assoc_L (++)).
  - intros [-> Hb]. assert (split_once c (reverse (a ++ c :: b)) = Some (reverse b, reverse a)) as ->.
    { apply split_once_spec. rewrite elem_of_reverse. split; [|done]. by rewrite reverse_app, reverse_cons, <-(assoc_L (++)). }
    cbn. by rewrite !reverse_involutive.
Qed.

Lemma rsplit_once_none c s : rsplit_once c s = None ↔ c ∉ s.
Proof.
  unfold rsplit_once. rewrite <-(elem_of_reverse c s), <-split_once_none. by destruct (split_once c (reverse s)) as [[]|].
Qed.

Lemma validate_tcp_target_exact field value : validate_tcp_target field value = [] ↔ tcp_target value.
Proof.
  unfold validate_tcp_target, tcp_target. rewrite app_nil, validate_non_empty_exact.
  destruct (rsplit_once 58 value) as [[host port]|] eqn:Hs.
  - apply rsplit_once_spec in Hs as [-> Hport]. messages. rewrite not_blank_trim. split.
    + intros (_ & Hhost & Hp). destruct (parse_uint u16_max port) as [p|] eqn:Hparse; [|done].
      apply parse_uint_range in Hparse as ?; [|done]. destruct (Z.eqb_spec p 0); [done|].
      exists host, port, p. split_and!; [done..|lia].
    + intros (host' & port' & p & Heq & Hport' & Hhost & Hp & Hpos).
      assert (rsplit_once 58 (host ++ 58 :: port) = Some (host', port')) as Hs by (by apply rsplit_once_spec).
      rewrite (proj2 (rsplit_once_spec 58 _ host port)) in Hs by done. simplify_eq. rewrite Hp.
      rewrite (proj2 (Z.eqb_neq p 0)) by lia. split_and!; [|done..].
      destruct Hhost as (c & Hc & Hw). exists c. split; [|done]. apply elem_of_app. by left.
  - apply rsplit_once_none in Hs. split; [by intros [_ ?]|]. intros (host & port & p & -> & _). destruct Hs. apply elem_of_app. right. by left.
Qed.

Lemma strip_prefix_spec p s r : Text.strip_prefix p s = Some r ↔ s = p ++ r.
Proof.
  revert s. induction p as [|x p IH]; intros s; cbn [Text.strip_prefix app]; [naive_solver|].
  destruct s as [|y s]; [naive_solver|]. destruct (Z.eqb_spec x y) as [->|Hne]; [rewrite IH|]; naive_solver.
Qed.

Lemma http_prefix_not_blank s : not_blank (lit "http://" ++ s).
Proof. exists 104. by split; [left|]. Qed.

Lemma validate_http_url_exact field value : validate_http_url field value = [] ↔ http_url value.
Proof.
  unfold validate_http_url, http_url. rewrite app_nil, validate_non_empty_exact.
  destruct (Text.strip_prefix (lit "http://") value) as [rest|] eqn:Hs.
  - apply strip_prefix_spec in Hs as ->. cbv zeta. rewrite validate_tcp_target_exact. split.
    + intros [_ Htarget]. destruct (split_once 47 rest) as [[authority path]|] eqn:Hrest.
      * apply split_once_spec in Hrest as [-> Ha]. exists authority, (47 :: path). split_and!; [done|done|by right|done].
      * apply split_once_none in Hrest. exists rest, []. rewrite app_nil_r. split_and!; [done|done|by left|done].
    + intros (authority & rest' & Heq & Ha & Hrest & Htarget). split; [apply http_prefix_not_blank|].
      apply app_inv_head in Heq as ->. destruct Hrest as [->|Hrest].
      * rewrite app_nil_r. by rewrite (proj2 (split_once_none 47 authority)) by done.
      * destruct rest' as [|c rest']; [done|]. injection Hrest as ->. by rewrite (proj2 (split_once_spec 47 _ authority rest')) by done.
  - split; [by intros [_ ?]|]. intros (authority & rest & -> & _).
    by rewrite (proj2 (strip_prefix_spec _ _ (authority ++ rest))) in Hs by done.
Qed.

(** ** The plan of host ports *)

(** Every replica of every port with a host port has one of its own, of sixteen bits. *)
Definition port_plan (ports : list (str * GuestPort)) (replicas : Z) : Prop :=
  (∀ name port base replica, (name, port) ∈ ports → gp_host port = Some base → 0 <= replica < replicas →
     base + replica <= u16_max) ∧
  ∀ name port base replica name' port' base' replica',
    (name, port) ∈ ports → gp_host port = Some base → 0 <= replica < replicas →
    (name', port') ∈ ports → gp_host port' = Some base' → 0 <= replica' < replicas →
    name ≠ name' → base + replica ≠ base' + replica'.

Lemma assign_replicas_exact name replicas base replica remaining assigned :
  let r := assign_replicas name replicas base replica remaining assigned in
  (r.1 = [] ↔ ∀ k, replica <= k < replica + Z.of_nat remaining → base + k <= u16_max ∧ base + k ∉ assigned) ∧
  (r.1 = [] → ∀ h, h ∈ r.2 ↔ h ∈ assigned ∨ base + replica <= h < base + replica + Z.of_nat remaining).
Proof.
  cbv zeta. revert replica assigned. induction remaining as [|remaining IH]; intros replica assigned; cbn [assign_replicas].
  { split; [split; [intros _ k Hk; lia|done]|]. intros _ h. naive_solver lia. }
  destruct ((base + replica <=? u32_max) && (base + replica <=? u16_max)) eqn:Hfit.
  - assert (base + replica <= u16_max) by lia.
    specialize (IH (replica + 1) ({[base + replica]} ∪ assigned)).
    destruct (assign_replicas name replicas base (replica + 1) remaining ({[base + replica]} ∪ assigned)) as [errors assigned'].
    cbn [fst snd] in *. destruct IH as [IH1 IH2]. rewrite app_nil, decide_not_nil. split.
    + rewrite IH1. split.
      * intros [Hnot Hall] k Hk. destruct (decide (k = replica)) as [->|Hne]; [done|].
        destruct (Hall k ltac:(lia)) as [? Hk']. split; [done|]. intros Hin. apply Hk'. set_solver.
      * intros Hall. split; [by apply Hall; lia|]. intros k Hk. destruct (Hall k ltac:(lia)) as [? Hk'].
        split; [done|]. rewrite elem_of_union, elem_of_singleton. intros [?|?]; [lia|done].
    + intros [_ Hnil] h. rewrite (IH2 Hnil h), elem_of_union, elem_of_singleton. destruct (decide (h ∈ assigned)); [naive_solver|].
      split; [intros [[?|?]|?]; [right; lia|done|right; lia]|]. intros [?|?]; [done|].
      destruct (decide (h = base + replica)); [left; by left|right; lia].
  - cbn [fst snd]. split; [|done]. split; [done|]. intros Hall. destruct (Hall replica ltac:(lia)) as [Hle _].
    unfold u32_max, u16_max in *. lia.
Qed.

Lemma assign_ports_exact ports replicas assigned :
  0 <= replicas → NoDup (fst <$> ports) →
  assign_ports ports replicas assigned = [] ↔
  (∀ name port base replica, (name, port) ∈ ports → gp_host port = Some base → 0 <= replica < replicas →
     base + replica ∉ assigned) ∧ port_plan ports replicas.
Proof.
  intros Hreplicas. revert assigned. induction ports as [|[name port] ports IH]; intros assigned Hnd; cbn [assign_ports].
  { unfold port_plan. split; [|done]. intros _. split; [|split]; intros until 1; by match goal with H : _ ∈ [] |- _ => apply not_elem_of_nil in H end. }
  rewrite fmap_cons in Hnd. apply NoDup_cons in Hnd as [Hfresh Hnd].
  assert (∀ name' port', (name', port') ∈ ports → name' ≠ name) as Hother.
  { intros name' port' Hin ->. apply Hfresh. apply (list_elem_of_fmap_2 fst) in Hin. done. }
  destruct (gp_host port) as [base|] eqn:Hbase.
  - destruct (assign_replicas_exact name replicas base 0 (Z.to_nat replicas) assigned) as [Hok Hafter].
    destruct (assign_replicas name replicas base 0 (Z.to_nat replicas) assigned) as [errors assigned']. cbn [fst snd] in *.
    rewrite app_nil, (IH assigned' Hnd). rewrite Z2Nat.id in Hok, Hafter by done. unfold port_plan. split.
    + intros [Hnil (Hdisj & Hle & Hsep)]. rewrite Hok in Hnil.
      assert (∀ h, h ∈ assigned' ↔ h ∈ assigned ∨ base + 0 <= h < base + 0 + replicas) as Hin by (apply Hafter, Hok, Hnil).
      split; [|split].
      * intros n p b r Hp Hb Hr. apply elem_of_cons in Hp as [[= -> ->]|Hp]; [simplify_eq; apply Hnil; lia|].
        intros Hin'. eapply Hdisj; [done..|]. apply Hin. by left.
      * intros n p b r Hp Hb Hr. apply elem_of_cons in Hp as [[= -> ->]|Hp]; [simplify_eq; apply Hnil; lia|eauto].
      * intros n p b r n' p' b' r' Hp Hb Hr Hp' Hb' Hr' Hne.
        apply elem_of_cons in Hp as [[= -> ->]|Hp]; apply elem_of_cons in Hp' as [[= -> ->]|Hp']; simplify_eq; [| |by apply (Hsep n p b r n' p' b' r')].
        -- intros Heq. eapply (Hdisj n' p' b' r'); [done..|]. apply Hin. right. lia.
        -- intros Heq. eapply (Hdisj n p b r); [done..|]. apply Hin. right. lia.
    + intros (Hdisj & Hle & Hsep).
      assert (errors = []) as Hnil.
      { apply Hok. intros k Hk. split; [eapply Hle; [left|done|lia]|eapply Hdisj; [left|done|lia]]. }
      split; [done|]. split; [|split].
      * intros n p b r Hp Hb Hr Hin. apply (Hafter Hnil) in Hin as [Hin|Hin].
        -- eapply Hdisj; [right; exact Hp|done|done|done].
        -- eapply (Hsep n p b r name port base (b + r - base)); [right; exact Hp|done|done|left|done|lia| |lia].
           by eapply Hother.
      * intros n p b r Hp. eapply Hle. by right.
      * intros n p b r n' p' b' r' Hp Hb Hr Hp'. eapply Hsep; [right; exact Hp|done|done|right; exact Hp'].
  - rewrite (IH assigned Hnd). unfold port_plan. split.
    + intros (Hdisj & Hle & Hsep). split; [|split].
      * intros n p b r Hp Hb. apply elem_of_cons in Hp as [[= -> ->]|Hp]; [congruence|eauto].
      * intros n p b r Hp Hb. apply elem_of_cons in Hp as [[= -> ->]|Hp]; [congruence|eauto].
      * intros n p b r n' p' b' r' Hp Hb Hr Hp' Hb'.
        apply elem_of_cons in Hp as [[= -> ->]|Hp]; apply elem_of_cons in Hp' as [[= -> ->]|Hp']; [congruence..|eauto].
    + intros (Hdisj & Hle & Hsep). split; [|split].
      * intros n p b r Hp. eapply Hdisj. by right.
      * intros n p b r Hp. eapply Hle. by right.
      * intros n p b r n' p' b' r' Hp Hb Hr Hp'. eapply Hsep; [right; exact Hp|done|done|right; exact Hp'].
Qed.

Lemma NoDup_map_sorted {V} (m : gmap str V) : NoDup (fst <$> map_sorted m).
Proof. unfold map_sorted. rewrite merge_sort_Permutation. apply NoDup_fst_map_to_list. Qed.

Lemma validate_host_port_plan_exact self replicas :
  0 <= replicas → validate_host_port_plan self replicas = [] ↔ port_plan (map_sorted (net_ports self)) replicas.
Proof.
  intros Hreplicas. unfold validate_host_port_plan. rewrite assign_ports_exact by (done || apply NoDup_map_sorted).
  split; [by intros [_ ?]|]. intros Hplan. split; [|done]. intros. apply not_elem_of_empty.
Qed.

(** ** The parts of a valid manifest *)
Definition all_some {A} (P : A → Prop) (x : option A) : Prop := ∀ y, x = Some y → P y.

Definition valid_ca (self : Ca) (mode : NetworkMode) : Prop :=
  (∀ path, ca_source self = CaPath path → relative_path path ∧ mode = NetworkUser) ∧
  Forall (λ name, env_name name ∧ name ≠ CA_ENV_VARS_KEY) (ca_extra_env_vars self).

Definition valid_port (mode : NetworkMode) (name : str) (port : GuestPort) : Prop :=
  identifier name ∧ gp_guest port ≠ 0 ∧ gp_host port ≠ Some 0 ∧ (mode = NetworkUser → is_Some (gp_host port)).

Definition valid_network (self : Network) : Prop :=
  net_ports self ≠ ∅ ∧ valid_ca (net_ca self) (net_mode self) ∧ map_Forall (valid_port (net_mode self)) (net_ports self) ∧
  (∀ hosts, net_allow self = AllowHosts hosts → Forall not_blank hosts) ∧
  Forall (λ alias, not_blank (alias_address alias) ∧ Forall not_blank (alias_names alias)) (net_host_aliases self).

Definition valid_user_linux (self : UserLinux) : Prop :=
  ul_uid self ≠ Some 0 ∧ ul_gid self ≠ Some 0 ∧ all_some identifier (ul_group self) ∧ Forall identifier (ul_groups self).

Definition valid_user (self : User) : Prop :=
  identifier (user_name self) ∧ user_name self ≠ lit "root" ∧
  match user_options self with LinuxOptions linux => valid_user_linux linux end.

Definition valid_resources (self : Resources) : Prop := cpus self ≠ 0 ∧ size_text (memory self) ∧ size_text (storage self).

Definition valid_repo (self : Repo) : Prop :=
  all_some identifier (repo_name self) ∧ not_blank (repo_url self) ∧ all_some relative_path (repo_path self) ∧
  all_some not_blank (repo_upstream self).

Definition valid_healthcheck (self : Healthcheck) : Prop :=
  identifier (healthcheck_name self) ∧
  match self with
  | HealthCommand _ command _ => not_blank command
  | HealthTcp _ target _ => tcp_target target
  | HealthHttp _ method url _ => http_token method ∧ http_url url
  end ∧ all_some duration_text (healthcheck_timeout self).

Definition valid_bootstrap (self : Bootstrap) : Prop :=
  Forall not_blank (packages self) ∧ Forall not_blank (shell self) ∧ Forall valid_repo (repos self) ∧
  NoDup (checkout_path <$> repos self) ∧ Forall valid_healthcheck (healthchecks self).

(** A variable no plugin copies or mediates *)
Definition unowned (requirements : HostInputRequirements) (name : str) : Prop :=
  name ∉ copied_env_names requirements ∧
  ∀ secret, mediated_env_secrets requirements !! name = Some secret → me_allowed_hosts secret = ∅.

Definition valid_secret (requirements : HostInputRequirements) (self : Secret) : Prop :=
  env_name (secret_env self) ∧ all_some env_name (secret_from_env self) ∧
  Forall not_blank (secret_allow_hosts self) ∧ secret_allow_hosts self ≠ [] ∧
  unowned requirements (source_env_name self) ∧ unowned requirements (secret_env self).

Definition valid_secrets (requirements : HostInputRequirements) (mode : NetworkMode) (secrets : list Secret) : Prop :=
  (secrets ≠ [] → mode = NetworkMediated) ∧ Forall (valid_secret requirements) secrets ∧
  NoDup (source_env_name <$> secrets) ∧ NoDup (secret_env <$> secrets).

(** Mediated secrets need the certificate authority of the network. *)
Definition valid_ca_secrets (network : Network) (secrets : list Secret) (requirements : HostInputRequirements) : Prop :=
  net_mode network = NetworkMediated → ca_source (net_ca network) = CaNone →
  secrets = [] ∧ has_mediated_secret_inputs requirements = false.

Definition valid_playwright (self : Playwright) : Prop :=
  not_blank (browser_package self) ∧ not_blank (executable_path self) ∧ Forall not_blank (npm_packages self) ∧
  not_blank (mcp_package self) ∧ not_blank (viewport self).

Definition valid_code_server (self : CodeServer) : Prop :=
  all_some relative_path (cs_settings self) ∧ Forall not_blank (cs_extensions self) ∧
  Forall not_blank (cs_remove_extensions self) ∧ Forall not_blank (cs_trusted_domains self).

Definition valid_git (self : Git) : Prop :=
  all_some (λ user, env_name (git_name_from_env user) ∧ env_name (git_email_from_env user)) (git_user self) ∧
  all_some identifier (init_default_branch (git_defaults self)).

Definition valid_route (network : Network) (self : Route) : Prop :=
  identifier (route_service self) ∧ is_Some (net_ports network !! route_service self) ∧
  all_some not_blank (route_host_template self) ∧ all_some (λ path, head path = Some 47) (route_path self).

Definition valid_plugins (self : Plugins) (network : Network) : Prop :=
  all_some (λ codex, not_blank (codex_version codex)) (codex self) ∧
  (∀ x codex', claude self = Some x → codex self = Some codex' → codex_session codex' = SessionNone) ∧
  all_some (λ mise, Forall not_blank (mise_packages mise)) (mise self) ∧
  all_some (λ dotnet, Forall not_blank (dotnet_tools dotnet)) (dotnet self) ∧
  all_some (λ go, Forall not_blank (go_tools go)) (go self) ∧
  all_some valid_git (git self) ∧
  all_some (λ browser, all_some valid_playwright (playwright browser)) (browser self) ∧
  all_some valid_code_server (code_server self) ∧
  all_some (λ serve, routes serve ≠ [] ∧ Forall (valid_route network) (routes serve)) (tailscale_serve self) ∧
  (agent_host self = true →
    (∃ port, net_ports network !! SERVICE = Some port ∧ gp_protocol port = Tcp) ∧
    ∃ codex', codex self = Some codex' ∧ codex_session codex' = SessionNone).

Definition valid_agent_spec (self : AgentSpec) : Prop :=
  let requirements := plugins_host_input_requirements (plugins self) in
  valid_user (user self) ∧ valid_resources (resources self) ∧ valid_network (network self) ∧
  valid_bootstrap (bootstrap self) ∧ valid_secrets requirements (net_mode (network self)) (secrets self) ∧
  valid_ca_secrets (network self) (secrets self) requirements ∧ valid_plugins (plugins self) (network self).

(** *** They are what is checked *)
Lemma optional_exact {A} (f : A → list str) (P : A → Prop) x :
  (∀ y, f y = [] ↔ P y) → optional f x = [] ↔ all_some P x.
Proof. intros Hf. rewrite optional_nil. unfold all_some. by setoid_rewrite Hf. Qed.

Lemma ca_validate_exact self mode : ca_validate self mode = [] ↔ valid_ca self mode.
Proof.
  unfold ca_validate, valid_ca. rewrite app_nil. apply and_congr.
  - unfold ca_source_path. destruct (ca_source self) as [| |path]; [naive_solver..|].
    rewrite app_nil, validate_relative_path_exact. destruct mode; naive_solver.
  - apply concat_imap_nil. intros i name. messages. by rewrite validate_env_name_exact.
Qed.

Lemma guest_port_validate_exact self mode name :
  identifier name ∧ guest_port_validate self mode name = [] ↔ valid_port mode name self.
Proof.
  unfold guest_port_validate, valid_port. messages. rewrite Z.eqb_neq.
  apply and_congr; [done|]. apply and_congr; [done|]. apply and_congr; [done|].
  destruct mode, (gp_host self); unfold is_Some; naive_solver.
Qed.

Lemma network_validate_exact self : network_validate self = [] ↔ valid_network self.
Proof.
  unfold network_validate, valid_network. rewrite !app_nil, check_not_nil, bool_decide_eq_false, ca_validate_exact, concat_nil.
  apply and_congr; [done|]. apply and_congr; [done|]. apply and_congr; [|apply and_congr].
  - rewrite Forall_fmap, Forall_forall, map_Forall_to_list, Forall_forall. unfold compose. split.
    + intros Hall [name port] Hin. apply guest_port_validate_exact. rewrite <-(validate_identifier_exact (lit "network.ports key")), <-app_nil.
      apply (Hall (name, port)). by rewrite elem_of_map_sorted, <-elem_of_map_to_list.
    + intros Hall [name port] Hin. rewrite app_nil, validate_identifier_exact. apply guest_port_validate_exact.
      apply (Hall (name, port)). by rewrite elem_of_map_to_list, <-elem_of_map_sorted.
  - unfold network_allow_validate. destruct (net_allow self) as [hosts|]; [rewrite validate_non_empty_values_exact|]; naive_solver.
  - apply concat_imap_nil. intros i alias. unfold host_alias_validate.
    by rewrite app_nil, validate_non_empty_exact, validate_non_empty_values_exact.
Qed.

Lemma identifier_not_blank value : identifier value → not_blank value.
Proof.
  intros [Hne Hall]. destruct value as [|c value]; [done|]. apply Forall_cons in Hall as [Hc _].
  exists c. split; [by left|by apply identifier_ascii].
Qed.

Lemma user_validate_exact self os : user_validate self os = [] ↔ valid_user self.
Proof.
  unfold user_validate, valid_user, user_options_validate. destruct (user_options self) as [linux].
  assert (guest_os_matches (LinuxOptions linux) os = true) as -> by (by destruct os). cbn [app].
  unfold user_linux_validate, valid_user_linux. rewrite !app_nil, !check_not_nil, !bool_decide_eq_false,
    (optional_exact _ identifier) by (intros; apply validate_identifier_exact).
  rewrite validate_identifier_exact, validate_non_empty_values_exact.
  rewrite (concat_imap_nil _ identifier) by (intros; apply validate_identifier_exact).
  assert (Forall identifier (ul_groups linux) → Forall not_blank (ul_groups linux))
    by (intros Hall; eapply Forall_impl; [done|apply identifier_not_blank]).
  naive_solver.
Qed.

Lemma resources_validate_exact self : resources_validate self = [] ↔ valid_resources self.
Proof.
  unfold resources_validate, valid_resources. by rewrite !app_nil, check_not_nil, Z.eqb_neq, !validate_size_exact.
Qed.

Lemma unique_paths_exact repos index paths :
  unique_paths repos index paths = [] ↔ NoDup (checkout_path <$> repos) ∧ ∀ repo, repo ∈ repos → paths !! checkout_path repo = None.
Proof.
  revert index paths. induction repos as [|repo repos IH]; intros index paths; cbn [unique_paths].
  { split; [|done]. intros _. split; [constructor|]. by intros repo Hin%not_elem_of_nil. }
  rewrite app_nil, IH, fmap_cons, NoDup_cons. setoid_rewrite elem_of_cons. rewrite list_elem_of_fmap. split.
  - intros (Hnone & Hnd & Hall). destruct (paths !! checkout_path repo) eqn:Hpath; [done|]. split; [split; [|done]|].
    + intros (repo' & Heq & Hin). specialize (Hall repo' Hin). rewrite <-Heq, lookup_insert_eq in Hall. done.
    + intros repo' [->|Hin]; [done|]. specialize (Hall repo' Hin). by apply lookup_insert_None in Hall as [? _].
  - intros ([Hnot Hnd] & Hall). rewrite (Hall repo) by (by left). split; [done|]. split; [done|]. intros repo' Hin.
    rewrite lookup_insert_ne; [apply Hall; by right|]. intros Heq. apply Hnot. eauto.
Qed.

Lemma bootstrap_validate_exact self : bootstrap_validate self = [] ↔ valid_bootstrap self.
Proof.
  unfold bootstrap_validate, valid_bootstrap. rewrite !app_nil, !validate_non_empty_values_exact.
  apply and_congr; [done|]. apply and_congr; [done|]. apply and_congr; [|apply and_congr].
  - apply concat_imap_nil. intros i repo. unfold repo_validate, valid_repo.
    by rewrite !app_nil, validate_non_empty_exact, !(optional_exact _ _ _ (λ y, validate_identifier_exact _ y)),
      !(optional_exact _ _ _ (λ y, validate_relative_path_exact _ y)), !(optional_exact _ _ _ (λ y, validate_non_empty_exact _ y)).
  - unfold validate_unique_repo_paths. rewrite unique_paths_exact. split; [by intros [? _]|]. intros. split; [done|].
    intros. apply lookup_empty.
  - apply concat_imap_nil. intros i check. unfold healthcheck_validate, valid_healthcheck.
    rewrite !app_nil, validate_identifier_exact, (optional_exact _ _ _ (λ y, validate_duration_exact _ y)).
    destruct check; rewrite ?app_nil, ?validate_non_empty_exact, ?validate_tcp_target_exact, ?validate_http_method_exact, ?validate_http_url_exact; done.
Qed.

Lemma plugin_owned_exact requirements name : plugin_owned requirements name = false ↔ unowned requirements name.
Proof.
  unfold plugin_owned, unowned, copies_custom_env_name, mediated_secret_allowed_hosts_for.
  rewrite orb_false_iff, bool_decide_eq_false, negb_false_iff, bool_decide_eq_true. apply and_congr; [done|].
  destruct (mediated_env_secrets requirements !! name) as [secret|]; [|naive_solver].
  split.
  - intros Hnil s [= <-]. apply set_eq. intros x. rewrite <-elem_of_set_sorted, Hnil. set_solver.
  - intros Hs. rewrite (Hs secret) by done. reflexivity.
Qed.

Lemma secret_validate_exact self index sources guests requirements :
  secret_validate self index sources guests requirements = [] ↔
  valid_secret requirements self ∧ source_env_name self ∉ sources ∧ secret_env self ∉ guests.
Proof.
  unfold secret_validate, valid_secret. rewrite !app_nil, validate_env_name_exact, validate_non_empty_values_exact,
    (optional_exact _ _ _ (λ y, validate_env_name_exact _ y)), check_not_nil, bool_decide_eq_false, !decide_not_nil.
  rewrite <-!plugin_owned_exact. cbn [mbind list_bind]. rewrite !app_nil, !check_not_nil. naive_solver.
Qed.

Lemma secrets_loop_exact secrets index sources guests requirements :
  secrets_loop secrets index sources guests requirements = [] ↔
  Forall (valid_secret requirements) secrets ∧
  (NoDup (source_env_name <$> secrets) ∧ ∀ s, s ∈ secrets → source_env_name s ∉ sources) ∧
  NoDup (secret_env <$> secrets) ∧ ∀ s, s ∈ secrets → secret_env s ∉ guests.
Proof.
  revert index sources guests. induction secrets as [|secret secrets IH]; intros index sources guests; cbn [secrets_loop].
  { split; [|done]. intros _. repeat split; try constructor; by intros s Hin%not_elem_of_nil. }
  rewrite app_nil, secret_validate_exact, IH, Forall_cons, !fmap_cons, !NoDup_cons, !list_elem_of_fmap.
  setoid_rewrite elem_of_cons. setoid_rewrite elem_of_union. setoid_rewrite elem_of_singleton. naive_solver.
Qed.

Lemma validate_secrets_exact secrets mode requirements :
  validate_secrets secrets mode requirements = [] ↔ valid_secrets requirements mode secrets.
Proof.
  unfold validate_secrets, valid_secrets. rewrite app_nil, secrets_loop_exact. apply and_congr.
  - destruct mode; [naive_solver|]. rewrite check_nil, bool_decide_eq_true. destruct secrets; naive_solver.
  - split; [naive_solver|].
    intros (? & ? & ?). split_and!; try done; intros; apply not_elem_of_empty.
Qed.

Lemma validate_ca_secret_compatibility_exact network secrets requirements :
  validate_ca_secret_compatibility network secrets requirements = [] ↔ valid_ca_secrets network secrets requirements.
Proof.
  unfold validate_ca_secret_compatibility, valid_ca_secrets. destruct (net_mode network); [|naive_solver].
  destruct (ca_source (net_ca network)); [naive_solver| |naive_solver].
  rewrite check_not_nil, orb_false_iff, negb_false_iff, bool_decide_eq_true. naive_solver.
Qed.

Lemma route_validate_exact self index network : route_validate self index network = [] ↔ valid_route network self.
Proof.
  unfold route_validate, valid_route. rewrite !app_nil, validate_identifier_exact, decide_nil,
    (optional_exact _ _ _ (λ y, validate_non_empty_exact _ y)).
  apply and_congr; [done|]. apply and_congr; [done|]. apply and_congr; [done|]. apply optional_exact. intros path.
  rewrite app_nil, validate_non_empty_exact, check_nil, bool_decide_eq_true. split; [by intros [_ ?]|].
  intros Hhead. split; [|done]. exists 47. split; [|done]. destruct path as [|c path]; [done|]. injection Hhead as ->. by left.
Qed.

Lemma agent_host_validate_exact network :
  agent_host_validate network = [] ↔ ∃ port, net_ports network !! SERVICE = Some port ∧ gp_protocol port = Tcp.
Proof.
  unfold agent_host_validate. destruct (net_ports network !! SERVICE) as [port|]; [|split; [done|by intros (? & ? & _)]].
  destruct (gp_protocol port) eqn:Hp; split; try done; [eauto|]. intros (port' & [= <-] & Hp'). congruence.
Qed.

Lemma plugins_validate_exact self network : plugins_validate self network = [] ↔ valid_plugins self network.
Proof.
  unfold plugins_validate, valid_plugins. rewrite !app_nil. apply and_congr; [|apply and_congr; [|apply and_congr; [|apply and_congr;
    [|apply and_congr; [|apply and_congr; [|apply and_congr; [|apply and_congr; [|apply and_congr]]]]]]]].
  - apply optional_exact. intros. apply validate_non_empty_exact.
  - destruct (claude self) as [x|], (codex self) as [c|]; [|naive_solver..]. destruct (codex_session c) eqn:Hs; [|naive_solver].
    split; [done|]. intros Hall. by rewrite (Hall x c) in Hs.
  - apply optional_exact. intros. apply validate_non_empty_values_exact.
  - apply optional_exact. intros. apply validate_non_empty_values_exact.
  - apply optional_exact. intros. apply validate_non_empty_values_exact.
  - apply optional_exact. intros g. unfold git_validate, valid_git. rewrite app_nil,
      (optional_exact _ _ (init_default_branch (git_defaults g)) (λ y, validate_identifier_exact _ y)). apply and_congr; [|done].
    apply optional_exact. intros u. unfold git_user_validate. by rewrite app_nil, !validate_env_name_exact.
  - apply optional_exact. intros b. apply optional_exact. intros p. unfold playwright_validate, valid_playwright.
    by rewrite !app_nil, !validate_non_empty_exact, validate_non_empty_values_exact.
  - apply optional_exact. intros cs. unfold code_server_validate, valid_code_server.
    by rewrite !app_nil, !validate_non_empty_values_exact, (optional_exact _ _ _ (λ y, validate_relative_path_exact _ y)).
  - apply optional_exact. intros serve. unfold tailscale_serve_validate. rewrite app_nil, check_not_nil, bool_decide_eq_false.
    apply and_congr; [done|]. apply concat_imap_nil. intros. apply route_validate_exact.
  - destruct (agent_host self); [|by split]. rewrite app_nil, agent_host_validate_exact.
    assert (∀ c (m n : str), match c with Some codex => match codex_session codex with SessionNone => [] | SessionGuestd => [m] end
      | None => [n] end = [] ↔ ∃ codex', c = Some codex' ∧ codex_session codex' = SessionNone) as ->; [|naive_solver].
    intros [c|] m n; [destruct (codex_session c) eqn:Hc|]; split; try done; [|by exists c|]; intros (c' & Heq & Hc'); congruence.
Qed.

Lemma agent_spec_validate_exact self : agent_spec_validate self = [] ↔ valid_agent_spec self.
Proof.
  unfold agent_spec_validate, valid_agent_spec. by rewrite !app_nil, user_validate_exact, resources_validate_exact,
    network_validate_exact, bootstrap_validate_exact, validate_secrets_exact, validate_ca_secret_compatibility_exact,
    plugins_validate_exact.
Qed.

(** ** The theorems *)
Section manifest.
Context {BackendState TailscaleServeState InstanceControl SeedFile : Type}.
Context `{EqDecision BackendState, EqDecision TailscaleServeState}.

#[local] Existing Instance manifest_types.
Abbreviation Manifest := (AgentManifest (H := manifest_types (BackendState := BackendState)
  (TailscaleServeState := TailscaleServeState) (InstanceControl := InstanceControl) (SeedFile := SeedFile))).

Definition template_ports (self : Manifest) : gmap str GuestPort := net_ports (network (dep_template (mf_spec self))).

Definition valid_manifest (self : Manifest) : Prop :=
  mf_api_version self = AGENTDP_API_VERSION ∧ identifier (mf_name self) ∧
  valid_agent_spec (dep_template (mf_spec self)) ∧ port_plan (map_sorted (template_ports self)) (dep_replicas (mf_spec self)).

Lemma agent_manifest_validate_exact (self : Manifest) :
  0 <= dep_replicas (mf_spec self) → agent_manifest_validate self = [] ↔ valid_manifest self.
Proof.
  intros Hreplicas. unfold agent_manifest_validate, valid_manifest, deployment_spec_validate.
  rewrite !app_nil, check_nil, bool_decide_eq_true, validate_identifier_exact.
  apply and_congr; [done|]. apply and_congr; [done|].
  assert (∀ l : list str, (λ message, lit "spec." ++ message) <$> l = [] ↔ l = []) as -> by (by intros []).
  by rewrite app_nil, agent_spec_validate_exact, validate_host_port_plan_exact.
Qed.

(** C24: validation accepts exactly the valid manifests: it has no message for a manifest
    that meets every rule and one at least for every other. *)
Theorem manifest_validate_exact (self : Manifest) :
  0 <= dep_replicas (mf_spec self) → agent_manifest_validate self = [] ↔ valid_manifest self.
Proof. apply agent_manifest_validate_exact. Qed.

(** The widths of the manifest's integers *)
Definition typed_ports (self : Manifest) : Prop :=
  0 <= dep_replicas (mf_spec self) <= u16_max ∧
  map_Forall (λ _ port, ∀ base, gp_host port = Some base → 0 <= base <= u16_max) (template_ports self).

(** The mapping of a port for a replica *)
Definition replica_mapping (replica : Z) (port : GuestPort) : PortMappingState :=
  {| pm_guest := gp_guest port; pm_host := (λ base, base + replica) <$> gp_host port;
     pm_protocol := port_protocol_state (gp_protocol port) |}.

Lemma collect_ports_exact (ports : list (str * GuestPort)) replica :
  (∀ name port base, (name, port) ∈ ports → gp_host port = Some base → base + replica <= u16_max) →
  collect_ports ports replica = Ret (replica_mapping replica <$> (list_to_map ports : gmap str GuestPort)).
Proof.
  induction ports as [|[name port] ports IH]; intros Hfit; cbn [collect_ports]; [rewrite list_to_map_nil; by rewrite fmap_empty|].
  assert (assigned_host_port name (gp_host port) replica = Ret ((λ base, base + replica) <$> gp_host port)) as ->.
  { unfold assigned_host_port. destruct (gp_host port) as [base|] eqn:Hbase; [|done].
    assert (base + replica <= u16_max) by (eapply Hfit; [left|done]). unfold u16_max, u32_max in *.
    rewrite !(proj2 (Z.leb_le _ _)) by lia. done. }
  cbn [mbind outcome_bind]. rewrite IH by (intros; eapply Hfit; [by right|done]).
  rewrite list_to_map_cons, fmap_insert. done.
Qed.

Lemma map_sorted_to_map {V} (m : gmap str V) : list_to_map (map_sorted m) = m.
Proof.
  rewrite <-(list_to_map_to_list m) at 2. apply list_to_map_proper; [apply NoDup_map_sorted|].
  apply merge_sort_Permutation.
Qed.

(** C23: the replicas of a valid manifest all have their host ports: the assignment never
    fails, gives each port of the manifest the host port of the replica, a number from 1 to
    65535, and no two replicas or ports the same one. *)
Theorem valid_host_ports_assigned (self : Manifest) :
  typed_ports self → validate self = [] →
  (∀ replica, 0 <= replica < dep_replicas (mf_spec self) →
    assign_port_mappings self replica = Ret (replica_mapping replica <$> template_ports self)) ∧
  (∀ replica name port host, 0 <= replica < dep_replicas (mf_spec self) → template_ports self !! name = Some port →
    pm_host (replica_mapping replica port) = Some host → 1 <= host <= u16_max) ∧
  ∀ replica name port replica' name' port' host,
    0 <= replica < dep_replicas (mf_spec self) → template_ports self !! name = Some port →
    pm_host (replica_mapping replica port) = Some host →
    0 <= replica' < dep_replicas (mf_spec self) → template_ports self !! name' = Some port' →
    pm_host (replica_mapping replica' port') = Some host → replica = replica' ∧ name = name'.
Proof.
  intros [Hreplicas Hwidth] Hvalid. pose proof Hvalid as (_ & _ & Hspec & Hle & Hsep)%agent_manifest_validate_exact; [|lia].
  assert (∀ name port, (name, port) ∈ map_sorted (template_ports self) ↔ template_ports self !! name = Some port) as Hin
    by (intros; apply elem_of_map_sorted).
  setoid_rewrite Hin in Hle. setoid_rewrite Hin in Hsep. split_and!.
  - intros replica Hr. unfold assign_port_mappings. rewrite Hvalid. cbn [network_ports manifest_rules].
    fold (template_ports self). rewrite collect_ports_exact, map_sorted_to_map; [done|]. intros name port base Hport%Hin Hbase. by eapply Hle.
  - intros replica name port host Hr Hport. cbn. intros (base & Hbase & ->)%fmap_Some.
    pose proof (Hwidth name port Hport base Hbase). pose proof (Hle _ _ _ _ Hport Hbase Hr).
    destruct Hspec as (_ & _ & (_ & _ & Hports & _) & _). destruct (Hports name port Hport) as (_ & _ & Hzero & _).
    assert (base ≠ 0) by congruence. lia.
  - intros replica name port replica' name' port' host Hr Hport. cbn. intros (base & Hbase & ->)%fmap_Some Hr' Hport' (base' & Hbase' & Heq)%fmap_Some.
    destruct (decide (name = name')) as [->|Hne].
    + simplify_eq. split; [lia|done].
    + by destruct (Hsep name port base replica name' port' base' replica').
Qed.
End manifest.
