(* ===== verification/ManifestSecrets.v ===== *)
(** * The secrets of a valid manifest and where they may go

    From the manifest to the network: a variable of the host's environment file
    that the manifest declares as a secret, or a plugin mediates, becomes a
    binding for the hosts declared for it; the network of the instance releases
    its value to these hosts only ([HttpSecrecy]). *)
From S2P Require Import Prelude Text Ordered Format Policy Secrets JsonAuth HostInput SecretFlow.
From S2P Require Import AgentDocument Manifest ManifestValid.
Local Open Scope Z_scope.

(** ** What is required of the host *)

Lemma allow_hosts_of_lookup source guest hosts secrets name :
  allow_hosts_of source guest hosts secrets !! name =
    if decide (name = source)
    then Some {| me_guest_name := default guest (me_guest_name <$> secrets !! source);
                 me_allowed_hosts := default ∅ (me_allowed_hosts <$> secrets !! source) ∪ hosts |}
    else secrets !! name.
Proof.
  unfold allow_hosts_of. destruct (decide (name = source)) as [->|Hne].
  - rewrite lookup_insert_eq. by destruct (secrets !! source).
  - by rewrite lookup_insert_ne.
Qed.

(** No plugin mediates a variable without naming a host. *)
Definition hosts_named (self : HostInputRequirements) : Prop :=
  map_Forall (λ _ secret, me_allowed_hosts secret ≠ ∅) (mediated_env_secrets self).

Lemma allow_mediated_hosts_named names hosts self :
  hosts ≠ [] → hosts_named self → hosts_named (allow_mediated_secret_hosts names hosts self).
Proof.
  intros Hhosts. unfold hosts_named, allow_mediated_secret_hosts. cbn [mediated_env_secrets].
  generalize (set_sorted (list_to_set names : gset str)), (mediated_env_secrets self). intros l.
  induction l as [|name l IH]; intros secrets Hself; [done|]. cbn [foldl]. apply IH.
  intros name' secret'. rewrite allow_hosts_of_lookup. destruct (decide (name' = name)); [|apply Hself].
  intros [= <-]. cbn. destruct hosts as [|h hosts]; [done|]. set_solver.
Qed.

Lemma copy_custom_env_hosts_named names self : hosts_named self → hosts_named (copy_custom_env names self).
Proof. done. Qed.

Lemma add_file_hosts_named file self : hosts_named self → hosts_named (add_file file self).
Proof. done. Qed.

Lemma plugins_hosts_named self : hosts_named (plugins_host_input_requirements self).
Proof.
  assert (∀ A (f : A → _ → _) plugin requirements, (∀ x r, hosts_named r → hosts_named (f x r)) →
    hosts_named requirements → hosts_named (with_plugin f plugin requirements)) as Hwith by (intros A f [x|] r Hf Hr; eauto).
  unfold plugins_host_input_requirements. repeat apply Hwith.
  - intros g r Hr. unfold git_requirements. by destruct (git_user g).
  - intros g r Hr. unfold github_requirements. destruct (github_auth g); [by apply allow_mediated_hosts_named|done].
  - intros c r Hr. unfold codex_requirements. destruct (codex_auth c); [|done].
    destruct (default _ _); [done|by apply allow_mediated_hosts_named].
  - intros c r Hr. unfold claude_requirements. destruct (claude_auth c); [|done].
    destruct (default _ _); [done|by apply allow_mediated_hosts_named].
  - apply map_Forall_empty.
Qed.

Definition declared (secret : Secret) : MediatedEnvSecret :=
  {| me_guest_name := secret_env secret; me_allowed_hosts := list_to_set (secret_allow_hosts secret) |}.

Lemma declared_requirements (secrets : list Secret) requirements :
  NoDup (source_env_name <$> secrets) →
  (∀ secret, secret ∈ secrets → mediated_env_secrets requirements !! source_env_name secret = None) →
  let after := foldl (λ requirements secret,
    allow_mediated_secret_hosts_dynamic (source_env_name secret) (secret_env secret) (secret_allow_hosts secret) requirements)
    requirements secrets in
  copied_env_names after = copied_env_names requirements ∧
  (∀ secret, secret ∈ secrets → mediated_env_secrets after !! source_env_name secret = Some (declared secret)) ∧
  (∀ name, name ∉ source_env_name <$> secrets → mediated_env_secrets after !! name = mediated_env_secrets requirements !! name).
Proof.
  cbv zeta. revert requirements. induction secrets as [|secret secrets IH]; intros requirements Hnd Hnone; cbn [foldl].
  { split_and!; [done| |done]. by intros s Hin%not_elem_of_nil. }
  rewrite fmap_cons in Hnd. apply NoDup_cons in Hnd as [Hfresh Hnd].
  set (next := allow_mediated_secret_hosts_dynamic (source_env_name secret) (secret_env secret) (secret_allow_hosts secret) requirements).
  assert (∀ name, mediated_env_secrets next !! name =
    if decide (name = source_env_name secret) then Some (declared secret) else mediated_env_secrets requirements !! name) as Hnext.
  { intros name. unfold next, allow_mediated_secret_hosts_dynamic. cbn [mediated_env_secrets]. rewrite allow_hosts_of_lookup.
    destruct (decide _); [|done]. rewrite (Hnone secret) by (by left). unfold declared. cbn. by rewrite (left_id_L ∅ (∪)). }
  destruct (IH next) as (Hcopied & Hin & Hout); [done| |].
  { intros s Hs. rewrite Hnext, decide_False; [apply Hnone; by right|]. intros Heq. apply Hfresh. rewrite <-Heq. by apply (list_elem_of_fmap_2 source_env_name). }
  split_and!; [by rewrite Hcopied| |].
  - intros s [->|Hs]%elem_of_cons; [|by apply Hin]. by rewrite Hout, Hnext, decide_True by done.
  - intros name. rewrite fmap_cons, not_elem_of_cons. intros [Hne Hnot]. rewrite Hout by done. by rewrite Hnext, decide_False by done.
Qed.

(** The requirements of a valid manifest: those of the plugins, and each declared secret
    with its name in the guest and its hosts *)
Lemma valid_requirements (spec : AgentSpec) :
  valid_agent_spec spec →
  copied_env_names (host_input_requirements spec) = copied_env_names (plugins_host_input_requirements (plugins spec)) ∧
  (∀ secret, secret ∈ secrets spec →
    mediated_env_secrets (host_input_requirements spec) !! source_env_name secret = Some (declared secret)) ∧
  ∀ name, name ∉ source_env_name <$> secrets spec →
    mediated_env_secrets (host_input_requirements spec) !! name =
    mediated_env_secrets (plugins_host_input_requirements (plugins spec)) !! name.
Proof.
  intros (_ & _ & _ & _ & (_ & Hsecrets & Hsources & _) & _). apply declared_requirements; [done|].
  intros secret Hin. rewrite Forall_forall in Hsecrets. destruct (Hsecrets secret Hin) as (_ & _ & _ & _ & [_ Hunowned] & _).
  destruct (mediated_env_secrets _ !! _) as [m|] eqn:Hm; [|done]. destruct (plugins_hosts_named (plugins spec) _ _ Hm). by apply Hunowned.
Qed.

(** The hosts of the variable that a line assigns to are those that the manifest declares for it, or
    that a plugin mediates it for. *)
Definition variable_hosts (spec : AgentSpec) (name : str) (hosts : gset str) : Prop :=
  (∃ secret, secret ∈ secrets spec ∧ name = source_env_name secret ∧ hosts = list_to_set (secret_allow_hosts secret)) ∨
  name ∉ source_env_name <$> secrets spec ∧
  ∃ m, mediated_env_secrets (plugins_host_input_requirements (plugins spec)) !! name = Some m ∧ hosts = me_allowed_hosts m.

(** What the bindings of the environment file of a valid manifest are *)
Lemma valid_env_bindings (fill : nat → option bytes) (spec : AgentSpec) (context : MaterializationContext)
    (contents : bytes) (n : nat) (input : MaterializedHostInput) (n' : nat) :
  valid_agent_spec spec →
  materialize_custom_env fill (host_input_requirements spec) context contents n = (Ret input, n') →
  ∀ key b, mi_secrets input !! key = Some b →
  ∃ line a hosts, line ∈ lines (from_utf8_lossy contents) ∧ parse_custom_env_assignment line = Some a ∧
    sb_value b = Present (assigned_value a) ∧ sb_allowed_hosts b = list_to_set (lower_host <$> set_sorted hosts) ∧
    variable_hosts spec (ca_name a) hosts.
Proof.
  intros Hvalid Hrun key b Hb. destruct (valid_requirements spec Hvalid) as (_ & Hdeclared & Hplugins).
  destruct (materialize_bindings _ _ _ _ _ _ _ Hrun key b Hb) as (line & a & m & Hline & [Hparse Hm] & _ & Hv & Hhosts).
  exists line, a, (me_allowed_hosts m). split_and!; [done..|].
  destruct (decide (ca_name a ∈ source_env_name <$> secrets spec)) as [Hin|Hnot].
  - left. apply list_elem_of_fmap in Hin as (secret & Hname & Hin). exists secret. split_and!; [done..|].
    rewrite Hname, (Hdeclared secret Hin) in Hm. by simplify_eq.
  - right. split; [done|]. exists m. split; [|done]. by rewrite <-Hplugins.
Qed.
