(* ===== verification/HostSecrets.v ===== *)
(** * What the host gives the network of an instance
      (src/apps/agentdp-server/src/host/seed.rs, [collect_runtime_secrets])

    When the network of an instance starts, and when credentials have changed, the server reads the
    credential files and the environment file that the manifest asks for, gives the guest the files
    with placeholders, and the network the bindings.  The environment variables, the paths and the
    files of the host are those of the operating system: the model takes them as a [Host].  The files
    without secrets ([collect_home_seed] and the like) are not modelled. *)
From S2P Require Import Prelude Text Ordered Format Policy Secrets JsonAuth HostInput SecretFlow.
From S2P Require Import AgentDocument Manifest ManifestValid ManifestSecrets.
Local Open Scope Z_scope.

Record SeedFile := { sf_path : str; sf_contents : bytes; sf_permissions : str; sf_owner : option str }.

Inductive SeedError :=
| MissingManifestParent (path : str)
| SeedReadFile (path : str)
| MissingHostInputFile (label path hint : str)
| SeedHostInput (error : HostInputError).

(** The operating system: [None] for an I/O error of [try_exists] and [read] *)
Record Host := {
  var_os : str → option str;
  path_join : str → str → str;
  path_parent : str → option str;
  target_windows : bool;
  try_exists : str → option bool;
  read : str → option bytes;
}.

Record RuntimeFiles := { rs_live : SecretBindings; rs_stored : SecretBindings; rs_files : list SeedFile }.

(** The home of the agent in the guest, [AGENT_HOME] *)
Definition AGENT_HOME : str := bytes_of "/data/home".

Section seed.
Context {JsonNumber : Type} (number_from : Z → JsonNumber).
Context (fill : nat → option bytes).
Context (from_slice : bytes → option (Value (JsonNumber := JsonNumber))).
Context (to_vec_pretty : Value (JsonNumber := JsonNumber) → option bytes).
Context (host : Host).

(** [std::env::var_os(name).filter(|path| !path.is_empty())] *)
Definition nonempty_var (name : str) : option str :=
  path ← var_os host name; if bool_decide (path = []) then None else Some path.

Definition host_home_dir : str :=
  match (if target_windows host then nonempty_var (bytes_of "USERPROFILE") else None) with
  | Some path => path
  | None => default (bytes_of ".") (nonempty_var (bytes_of "HOME"))
  end.

Definition resolve_host_input_file_source (source : HostInputFileSource) : str :=
  match path_env source ≫= nonempty_var with
  | Some path => path
  | None => match home_env source ≫= nonempty_var with
            | Some home => path_join host home (home_relative_path source)
            | None => path_join host host_home_dir (default_home_relative_path source)
            end
  end.

Definition missing_host_input_file_hint (source : HostInputFileSource) : str :=
  match path_env source with
  | Some name => bytes_of "; create the source file or set " ++ name
  | None => []
  end.

Definition resolve_host_input_guest_path (guest_path agent_home : str) : str :=
  trim_end_matches 47 agent_home ++ [47] ++ guest_path.

Definition read_file (path : str) : stm nat SeedError bytes :=
  match read host path with Some contents => mret contents | None => stm_fail (SeedReadFile path) end.

Definition host_input {A} (m : stm nat HostInputError A) : stm nat SeedError A := λ n,
  let '(outcome, n) := m n in (map_err SeedHostInput outcome, n).

Definition materialize_host_input_file (requirement : HostInputFile) (context : MaterializationContext) (path : str) :
    stm nat SeedError MaterializedHostInput :=
  match try_exists host path with
  | None => stm_fail (SeedReadFile path)
  | Some false =>
    stm_fail (MissingHostInputFile (hf_label requirement) path (missing_host_input_file_hint (hf_source requirement)))
  | Some true =>
    contents ← read_file path;
    host_input (file_materialize number_from fill from_slice to_vec_pretty requirement contents context)
  end.

(** The files and the secrets collected so far *)
Definition Collecting : Type := list SeedFile * SecretBindings.

Definition collect_host_input_file (requirement : HostInputFile) (context : MaterializationContext) (acc : Collecting) :
    stm nat SeedError Collecting :=
  let path := resolve_host_input_file_source (hf_source requirement) in
  materialized ← materialize_host_input_file requirement context path;
  mret (acc.1 ++ [{| sf_path := resolve_host_input_guest_path (hf_guest_path requirement) AGENT_HOME;
                     sf_contents := mi_contents materialized; sf_permissions := hf_permissions requirement; sf_owner := None |}],
        bindings_extend acc.2 (mi_secrets materialized)).

Fixpoint collect_host_input_files (requirements : list HostInputFile) (context : MaterializationContext) (acc : Collecting) :
    stm nat SeedError Collecting :=
  match requirements with
  | [] => mret acc
  | requirement :: requirements =>
    acc ← collect_host_input_file requirement context acc;
    collect_host_input_files requirements context acc
  end.

Definition collect_secret_host_input_files (requirements : HostInputRequirements) : MaterializationContext → Collecting →
    stm nat SeedError Collecting :=
  collect_host_input_files (List.filter produces_secrets (files requirements)).

Definition seed_custom_env (manifest_dir : str) (requirements : HostInputRequirements) (context : MaterializationContext) :
    stm nat SeedError (option MaterializedHostInput) :=
  let path := path_join host manifest_dir (bytes_of ".env") in
  match try_exists host path with
  | None => stm_fail (SeedReadFile path)
  | Some false => mret None
  | Some true =>
    contents ← read_file path;
    materialized ← host_input (materialize_custom_env fill requirements context contents);
    mret (Some materialized)
  end.

Definition materialize_required_custom_env (manifest_dir : str) (requirements : HostInputRequirements)
    (context : MaterializationContext) (label : str) : stm nat SeedError MaterializedHostInput :=
  materialized ← seed_custom_env manifest_dir requirements context;
  match materialized with
  | Some materialized => mret materialized
  | None => stm_fail (MissingHostInputFile label (path_join host manifest_dir (bytes_of ".env")) [])
  end.

(** Of files with the same path the last one stays; they come in the order of their paths. *)
Definition dedupe_by_path (files : list SeedFile) : list SeedFile :=
  map_values (foldl (λ by_path file, <[sf_path file := file]> by_path) ∅ files).

Definition collect_runtime_secrets (manifest_path : str) (spec : AgentSpec) (existing_secrets : SecretBindings) :
    stm nat SeedError RuntimeFiles :=
  match path_parent host manifest_path with
  | None => stm_fail (MissingManifestParent manifest_path)
  | Some manifest_dir =>
    let requirements := host_input_requirements spec in
    let materialization := Some existing_secrets in
    '(files, live) ← collect_secret_host_input_files requirements materialization ([], ∅);
    live ← (if has_mediated_env_secret_inputs requirements then
              materialized ← materialize_required_custom_env manifest_dir requirements materialization (bytes_of "runtime custom env");
              mret (bindings_extend live (mi_secrets materialized))
            else mret live);
    mret {| rs_live := live; rs_stored := bindings_redacted live; rs_files := dedupe_by_path files |}
  end.
End seed.

(** ** What the bindings of a credential file are *)
Section json_bindings.
Context {JsonNumber : Type} (number_from : Z → JsonNumber) (fill : nat → option bytes).
Context (self : MediatedJsonAuthTransform) (context : MaterializationContext).

(** A string of the file is a secret: it is not empty, it stands under a key that names a secret, and
    under none whose value is left out or is an expiry time. *)
Fixpoint secret_in (sensitive : bool) (value : Value (JsonNumber := JsonNumber)) (s : str) : Prop :=
  match value with
  | JObject object =>
    (fix go object :=
      match object with
      | [] => False
      | (key, child) :: object =>
        fixed_child number_from self key child = None ∧ secret_in (sensitive || is_auth_secret_key key) child s ∨ go object
      end) object
  | JArray values => (fix go values := match values with [] => False | value :: values => secret_in sensitive value s ∨ go values end) values
  | JString t => sensitive = true ∧ t ≠ [] ∧ s = t
  | _ => False
  end.

(** A binding for the hosts of the transform *)
Definition scoped (P : str → Prop) (b : SecretBinding) : Prop :=
  sb_allowed_hosts b = list_to_set (lower_host <$> mt_hosts self) ∧ ∃ s, sb_value b = Present s ∧ P s.

(** A run adds scoped bindings only. *)
Definition adds_scoped {A} (P : str → Prop) (m : stm (nat * SecretBindings) HostInputError A) : Prop :=
  ∀ n secrets a n' secrets', m (n, secrets) = (Ret a, (n', secrets')) →
  ∀ key b, secrets' !! key = Some b → secrets !! key = Some b ∨ scoped P b.

Lemma scoped_mono (P Q : str → Prop) b : (∀ s, P s → Q s) → scoped P b → scoped Q b.
Proof. intros Himp (Hh & s & Hv & Hs). split; [done|]. eauto. Qed.

Lemma adds_scoped_ret {A} P (a : A) : adds_scoped P (mret a).
Proof. intros n m a' n' m' [= <- <- <-] key b Hb. by left. Qed.

Lemma adds_scoped_bind {A B : Type} (P Q R : str → Prop) (m : stm (nat * SecretBindings) HostInputError A) (k : A → stm (nat * SecretBindings) HostInputError B) :
  (∀ s, P s → R s) → (∀ s, Q s → R s) → adds_scoped P m → (∀ a, adds_scoped Q (k a)) → adds_scoped R (m ≫= k).
Proof.
  intros HP HQ Hm Hk n secrets b n' secrets'. unfold mbind, stm_bind.
  destruct (m (n, secrets)) as [[a|e| |] [n1 secrets1]] eqn:Hrun; [|done..]. intros Hrest key b' Hb.
  destruct (Hk a _ _ _ _ _ Hrest key b' Hb) as [Hb'|Hs]; [|right; exact (scoped_mono Q R _ HQ Hs)].
  destruct (Hm _ _ _ _ _ Hrun key b' Hb') as [?|Hs]; [by left|right; exact (scoped_mono P R _ HP Hs)].
Qed.

Lemma adds_scoped_random {A} P (m : stm nat SecretError A) : adds_scoped P (with_random m).
Proof. intros n secrets a n' secrets'. unfold with_random. destruct (m _) as [o k]. intros [= _ _ <-] key b Hb. by left. Qed.

Lemma adds_scoped_placeholder P name_path jwt : adds_scoped P (auth_placeholder fill context name_path jwt).
Proof.
  unfold auth_placeholder. destruct (context_placeholder _ _); [apply adds_scoped_ret|]. destruct (negb jwt); [apply adds_scoped_ret|].
  eapply (adds_scoped_bind P P); [done|done|apply adds_scoped_random|]. intros binding. apply adds_scoped_ret.
Qed.

Lemma adds_scoped_secret (secret name_path : str) :
  adds_scoped (eq secret) (placeholderize_secret (JsonNumber := JsonNumber) fill self context secret name_path).
Proof.
  unfold placeholderize_secret. eapply (adds_scoped_bind (eq secret) (eq secret)); [done|done|apply adds_scoped_placeholder|].
  intros placeholder n secrets a n' secrets'. unfold mbind, stm_bind, with_random.
  destruct (new_with_placeholder fill name_path placeholder secret (mt_hosts self) _) as [[b0|e| |] k] eqn:Hnew; [|done..].
  cbn. intros [= _ _ <-] key b Hb. unfold bindings_insert in Hb. apply lookup_insert_Some in Hb as [[_ <-]|[_ Hb]]; [right|by left].
  apply new_with_placeholder_binding in Hnew as (_ & Hvalue & Hhosts). split; [done|]. eauto.
Qed.

Lemma adds_scoped_mono {A} (P Q : str → Prop) (m : stm (nat * SecretBindings) HostInputError A) :
  (∀ s, P s → Q s) → adds_scoped P m → adds_scoped Q m.
Proof.
  intros Himp Hm n secrets a n' secrets' Hrun key b Hb. destruct (Hm _ _ _ _ _ Hrun key b Hb) as [?|Hs]; [by left|right].
  exact (scoped_mono P Q b Himp Hs).
Qed.

Lemma adds_scoped_map {A B : Type} (P : str → Prop) (m : stm (nat * SecretBindings) HostInputError A) (g : A → B) :
  adds_scoped P m → adds_scoped P (a ← m; mret (g a)).
Proof. intros Hm. apply (adds_scoped_bind P P P); [done|done|done|]. intros a. apply adds_scoped_ret. Qed.

Lemma adds_scoped_two {A B C : Type} (P Q : str → Prop) (m : stm (nat * SecretBindings) HostInputError A)
    (m' : stm (nat * SecretBindings) HostInputError B) (g : A → B → C) :
  adds_scoped P m → adds_scoped Q m' → adds_scoped (λ s, P s ∨ Q s) (a ← m; b ← m'; mret (g a b)).
Proof.
  intros Hm Hm'. apply (adds_scoped_bind P Q); [by left|by right|done|]. intros a. by apply adds_scoped_map.
Qed.

Lemma adds_scoped_value value sensitive name_path :
  adds_scoped (secret_in sensitive value) (placeholderize_auth_value number_from fill self context value sensitive name_path).
Proof.
  revert sensitive name_path. induction value as [|b|x|s|values IH|object IH] using Value_nested_ind; intros sensitive name_path;
    cbn [placeholderize_auth_value secret_in]; [apply adds_scoped_ret..| | |].
  - destruct (sensitive && negb (bool_decide (s = []))) eqn:Hs; [|apply adds_scoped_ret].
    apply andb_true_iff in Hs as [-> Hs%negb_true_iff%bool_decide_eq_false].
    apply (adds_scoped_mono (eq s)); [by intros ? <-|]. apply adds_scoped_secret.
  - apply adds_scoped_map. generalize 0 as index. induction IH as [|v values Hv _ IH]; intros index; [apply adds_scoped_ret|].
    by apply adds_scoped_two.
  - apply adds_scoped_map. induction IH as [|[key v] object Hv _ IH]; [apply adds_scoped_ret|].
    eapply adds_scoped_mono; [|apply adds_scoped_two; [|exact IH]].
    + intros s [Hs|Hs]; [left; exact Hs|by right].
    + destruct (fixed_child number_from self key v) as [v'|]; [apply adds_scoped_ret|]. by eapply adds_scoped_mono; [|apply Hv].
Qed.

Lemma json_bindings from_slice to_vec_pretty label contents n input n' :
  json_materialize number_from fill self context from_slice to_vec_pretty label contents n = (Ret input, n') →
  ∃ value, from_slice contents = Some value ∧ ∀ key b, mi_secrets input !! key = Some b → scoped (secret_in false value) b.
Proof.
  unfold json_materialize. destruct (from_slice contents) as [value|]; [|done]. intros Hrun. exists value. split; [done|].
  destruct (placeholderize_auth_value _ _ _ _ _ _ _ _) as [[out|e| |] [n1 m]] eqn:Hvalue; [|done..].
  destruct (to_vec_pretty out); [|done]. injection Hrun as <- _. intros key b Hb.
  destruct (adds_scoped_value value false (mt_prefix self) _ _ _ _ _ Hvalue key b Hb) as [Hnone|]; [|done].
  by rewrite lookup_empty in Hnone.
Qed.
End json_bindings.

(** ** The credential files that a manifest asks for *)

(** A plugin whose credentials are mediated and come from the host asks for its file. *)
Inductive mediated_file (spec : AgentSpec) : HostInputFile → MediatedJsonAuthTransform → Prop :=
| mediated_claude c : claude (plugins spec) = Some c → claude_auth c = AuthMediated →
    default SourceHostAuth (claude_auth_source c) = SourceHostAuth →
    mediated_file spec (claude_auth_file (TransformPlugin CLAUDE_AUTH_TRANSFORM)) CLAUDE_AUTH_TRANSFORM
| mediated_codex c : codex (plugins spec) = Some c → codex_auth c = AuthMediated →
    default SourceHostAuth (codex_auth_source c) = SourceHostAuth →
    mediated_file spec (codex_auth_file (TransformPlugin CODEX_AUTH_TRANSFORM)) CODEX_AUTH_TRANSFORM.

Lemma requirements_files spec : files (host_input_requirements spec) = files (plugins_host_input_requirements (plugins spec)).
Proof.
  unfold host_input_requirements. generalize (plugins_host_input_requirements (plugins spec)).
  induction (secrets spec) as [|secret secrets IH]; intros requirements; [done|]. cbn [foldl]. by rewrite IH.
Qed.

Lemma required_file_mediated spec file t :
  file ∈ files (host_input_requirements spec) → hf_transform file = TransformPlugin t → mediated_file spec file t.
Proof.
  rewrite requirements_files. unfold plugins_host_input_requirements, with_plugin.
  set (claude_part := match claude (plugins spec) with Some c => claude_requirements c requirements_default | None => requirements_default end).
  set (codex_part := match codex (plugins spec) with Some c => codex_requirements c claude_part | None => claude_part end).
  intros Hin Ht. assert (file ∈ files codex_part) as Hin'.
  { unfold git_requirements, github_requirements in Hin. by repeat (case_match; cbn [files copy_custom_env allow_mediated_secret_hosts] in Hin). }
  assert (file ∈ files claude_part ∨ mediated_file spec file t) as [Hin2|]; [|clear Hin Hin'|done].
  - unfold codex_part in Hin'. destruct (codex (plugins spec)) as [c|] eqn:Hc; [|by left]. unfold codex_requirements in Hin'.
    destruct (codex_auth c) eqn:Ha; [destruct (default SourceHostAuth (codex_auth_source c)) eqn:Hd|]; cbn [files add_file copy_custom_env allow_mediated_secret_hosts] in Hin';
      [|by left|]; (apply elem_of_app in Hin' as [?|Hf]; [by left|]); apply list_elem_of_singleton in Hf as ->; [|done].
    cbn in Ht. simplify_eq. right. by eapply mediated_codex.
  - unfold claude_part in Hin2. destruct (claude (plugins spec)) as [c|] eqn:Hc; [|by apply elem_of_nil in Hin2]. unfold claude_requirements in Hin2.
    destruct (claude_auth c) eqn:Ha; [destruct (default SourceHostAuth (claude_auth_source c)) eqn:Hd|]; cbn [files add_file copy_custom_env allow_mediated_secret_hosts requirements_default app] in Hin2;
      [|by apply elem_of_nil in Hin2|]; apply list_elem_of_singleton in Hin2 as ->; [|done].
    cbn in Ht. simplify_eq. by eapply mediated_claude.
Qed.

(** ** Where the secrets of the network come from *)
Section collected.
Context {JsonNumber : Type} (number_from : Z → JsonNumber).
Context (fill : nat → option bytes).
Context (from_slice : bytes → option (Value (JsonNumber := JsonNumber))).
Context (to_vec_pretty : Value (JsonNumber := JsonNumber) → option bytes).
Context (host : Host) (spec : AgentSpec).

Abbreviation resolve := (resolve_host_input_file_source host).

(** The binding is a secret of a credential file that a plugin mediates. *)
Definition from_file (b : SecretBinding) : Prop :=
  ∃ file t contents value, mediated_file spec file t ∧ read host (resolve (hf_source file)) = Some contents ∧
    from_slice contents = Some value ∧ scoped t (secret_in number_from t false value) b.

(** It is the value of a variable of the environment file beside the manifest. *)
Definition from_env (manifest_path : str) (b : SecretBinding) : Prop :=
  ∃ dir contents line a hosts, path_parent host manifest_path = Some dir ∧
    read host (path_join host dir (bytes_of ".env")) = Some contents ∧
    line ∈ lines (from_utf8_lossy contents) ∧ parse_custom_env_assignment line = Some a ∧
    sb_value b = Present (assigned_value a) ∧ sb_allowed_hosts b = list_to_set (lower_host <$> set_sorted hosts) ∧
    variable_hosts spec (ca_name a) hosts.

Definition all_from (P : SecretBinding → Prop) (secrets : SecretBindings) : Prop := map_Forall (λ _ b, P b) secrets.

Lemma all_from_extend P secrets more : all_from P secrets → all_from P more → all_from P (bindings_extend secrets more).
Proof. intros H1 H2. unfold all_from, bindings_extend. by apply map_Forall_union_2. Qed.

Lemma read_file_ret path n contents n' : read_file host path n = (Ret contents, n') → read host path = Some contents.
Proof. unfold read_file. destruct (read host path); [by intros [= -> _]|done]. Qed.

Lemma host_input_ret {A} (m : stm nat HostInputError A) n a n' : host_input m n = (Ret a, n') → m n = (Ret a, n').
Proof. unfold host_input. destruct (m n) as [[]]; by intros [= <- <-]. Qed.

Lemma collect_file_from file context acc n acc' n' :
  file ∈ files (host_input_requirements spec) → all_from from_file acc.2 →
  collect_host_input_file number_from fill from_slice to_vec_pretty host file context acc n = (Ret acc', n') →
  all_from from_file acc'.2.
Proof.
  intros Hin Hacc. unfold collect_host_input_file, materialize_host_input_file, mbind, stm_bind.
  destruct (try_exists host _) as [[]|]; [|done..].
  destruct (read_file host _ n) as [[contents|e| |] n1] eqn:Hread; [|done..]. apply read_file_ret in Hread.
  destruct (host_input _ n1) as [[input|e| |] n2] eqn:Hrun; [|done..]. apply host_input_ret in Hrun.
  intros [= <- _]. apply all_from_extend; [done|]. unfold file_materialize in Hrun.
  destruct (hf_transform file) as [|t] eqn:Ht; [injection Hrun as <- _; by apply map_Forall_empty|].
  apply json_bindings in Hrun as (value & Hvalue & Hall). intros key b Hb.
  exists file, t, contents, value. split_and!; [by apply required_file_mediated|done|done|by eapply Hall].
Qed.

Lemma collect_files_from requirements context acc n acc' n' :
  requirements ⊆ files (host_input_requirements spec) → all_from from_file acc.2 →
  collect_host_input_files number_from fill from_slice to_vec_pretty host requirements context acc n = (Ret acc', n') →
  all_from from_file acc'.2.
Proof.
  revert acc n. induction requirements as [|file requirements IH]; intros acc n Hsub Hacc; cbn [collect_host_input_files];
    [by intros [= <- _]|].
  unfold mbind, stm_bind. destruct (collect_host_input_file _ _ _ _ _ _ _ _ _) as [[acc1|e| |] n1] eqn:Hfile; [|done..].
  apply IH; [set_solver|]. eapply collect_file_from; [|done|exact Hfile]. set_solver.
Qed.

Lemma collected_from manifest_path existing_secrets n collected n' :
  valid_agent_spec spec →
  collect_runtime_secrets number_from fill from_slice to_vec_pretty host manifest_path spec existing_secrets n = (Ret collected, n') →
  all_from (λ b, from_env manifest_path b ∨ from_file b) (rs_live collected).
Proof.
  intros Hvalid. unfold collect_runtime_secrets. destruct (path_parent host manifest_path) as [dir|] eqn:Hdir; [|done].
  unfold collect_secret_host_input_files, mbind, stm_bind at 1.
  destruct (collect_host_input_files _ _ _ _ _ _ _ _ _) as [[[seeds live]|e| |] n1] eqn:Hfiles; [|done..].
  apply collect_files_from in Hfiles; [|by intros f [Hf _]%list_elem_of_In%filter_In; apply list_elem_of_In|by apply map_Forall_empty]. cbn [snd] in Hfiles.
  assert (all_from (λ b, from_env manifest_path b ∨ from_file b) live) as Hlive.
  { eapply map_Forall_impl; [exact Hfiles|]. by right. }
  unfold stm_bind. destruct (has_mediated_env_secret_inputs _); [|by intros [= <- _]].
  unfold materialize_required_custom_env, seed_custom_env, mbind, stm_bind.
  destruct (try_exists host _) as [[]|]; [|done..].
  destruct (read_file host _ n1) as [[contents|e| |] n2] eqn:Hread; [|done..]. apply read_file_ret in Hread.
  destruct (host_input _ n2) as [[input|e| |] n3] eqn:Hrun; [|done..]. apply host_input_ret in Hrun.
  intros [= <- _]. apply all_from_extend; [done|]. intros key b Hb. left.
  destruct (valid_env_bindings _ _ _ _ _ _ _ Hvalid Hrun key b Hb) as (line & a & hosts & ?). by exists dir, contents, line, a, hosts.
Qed.

(** C19: what the network of an instance is given of a valid manifest: every secret is either the value
    that the environment file beside the manifest assigns to a variable that the manifest declares, or that
    a plugin mediates, or a secret of the credential file of a plugin whose credentials come from the host;
    and it may be released to the hosts declared for this variable, or those of this plugin, and to no
    others. *)
Theorem valid_secrets_scoped (manifest_path : str) (existing_secrets : SecretBindings) (n : nat) (collected : RuntimeFiles) (n' : nat) :
  valid_agent_spec spec →
  collect_runtime_secrets number_from fill from_slice to_vec_pretty host manifest_path spec existing_secrets n = (Ret collected, n') →
  ∀ r, r ∈ bindings (runtime_secrets (rs_live collected)) →
  ∃ hosts : gset str, (∀ authority, secret_allows r authority = true ↔ ∃ h, h ∈ hosts ∧ authority = authority_new h) ∧
    ((∃ dir contents line a, path_parent host manifest_path = Some dir ∧
        read host (path_join host dir (bytes_of ".env")) = Some contents ∧
        line ∈ lines (from_utf8_lossy contents) ∧ parse_custom_env_assignment line = Some a ∧
        secret_value r = assigned_value a ∧ variable_hosts spec (ca_name a) hosts) ∨
     (∃ file t contents value, mediated_file spec file t ∧
        read host (resolve (hf_source file)) = Some contents ∧ from_slice contents = Some value ∧
        secret_in number_from t false value (secret_value r) ∧ hosts = list_to_set (mt_hosts t))).
Proof.
  intros Hvalid Hrun r (key & b & value & Hb & Hvalue & ->)%runtime_secrets_exact.
  destruct (collected_from _ _ _ _ _ Hvalid Hrun key b Hb) as [(dir & contents & line & a & hosts & Hdir & Hread & Hline & Hparse & Hv & Hhosts & Hscope)
    |(file & t & contents & json & Hfile & Hread & Hjson & Hhosts & s & Hv & Hs)].
  - exists hosts. split; [intros authority; by apply runtime_secret_scope|]. left. exists dir, contents, line, a.
    split_and!; try done. cbn. congruence.
  - exists (list_to_set (mt_hosts t)). split.
    + intros authority. apply runtime_secret_scope. rewrite Hhosts. apply set_eq. intros h.
      rewrite !elem_of_list_to_set, !list_elem_of_fmap. setoid_rewrite elem_of_set_sorted. by setoid_rewrite elem_of_list_to_set.
    + right. exists file, t, contents, json. split_and!; try done. cbn. congruence.
Qed.
End collected.
