(* ===== verification/ManifestExample.v ===== *)
(** * A manifest to try the theorems on, and what validation lets through

    A manifest with two ports, a secret and a repository, with two replicas. *)
From S2P Require Import Prelude Text Ordered Format Policy Secrets JsonAuth HostInput SecretFlow.
From S2P Require Import AgentDocument Manifest ManifestValid ManifestSecrets HostSecrets.
Local Open Scope Z_scope.

Definition no_plugins : Plugins := {|
  agent_host := false; docker := None; dotnet := None; git := None; go := None; mise := None; node := None; podman := None;
  browser := None; claude := None; codex := None; github := Some {| github_auth := AuthMediated; setup_git := true |};
  tailscale_serve := None; code_server := None |}.

Definition example_port (guest host : Z) : GuestPort := {| gp_guest := guest; gp_host := Some host; gp_protocol := Tcp |}.

Definition example_spec : AgentSpec := {|
  image_os := Archlinux;
  user := {| user_name := lit "agent"; user_options := LinuxOptions {| ul_uid := Some 1000; ul_gid := None; ul_group := None; ul_groups := [lit "wheel"] |} |};
  resources := {| cpus := 2; memory := lit "4G"; storage := lit "40GiB" |};
  network := {| net_mode := NetworkMediated; net_ipv6 := Ipv6Auto; net_ca := {| ca_source := CaAuto; ca_extra_env_vars := [lit "STUDIO_CA_BUNDLE"] |};
    net_ports := {[ lit "ssh" := example_port 22 4100; lit "code_server" := example_port 4090 4090 ]};
    net_allow := AllowHosts [lit "github.com"]; net_host_aliases := [] |};
  bootstrap := {| package_update := true; packages := [lit "git"]; shell := [];
    repos := [{| repo_name := None; repo_url := lit "https://github.com/me/project.git"; repo_path := None; repo_upstream := None |}];
    healthchecks := [HealthTcp (lit "ssh") (lit "localhost:22") (Some (lit "30s"))] |};
  secrets := [{| secret_env := lit "STUDIO_KEY"; secret_from_env := Some (lit "HOST_KEY"); secret_allow_hosts := [lit "dev.altinn.studio"] |}];
  plugins := no_plugins |}.

Lemma example_spec_valid : valid_agent_spec example_spec.
Proof. apply agent_spec_validate_exact. vm_compute. reflexivity. Qed.

#[local] Instance example_types : AgentTypes :=
  manifest_types (BackendState := unit) (TailscaleServeState := unit) (InstanceControl := unit) (SeedFile := unit).

Definition example_agent (replicas : Z) : AgentManifest := {|
  mf_api_version := AGENTDP_API_VERSION; mf_name := lit "demo";
  mf_spec := {| dep_phase := PhaseRunning; dep_replicas := replicas; dep_template := example_spec |} |}.

(** Ten replicas fit between the two ports, eleven do not. *)
Example ten_replicas : agent_manifest_validate (example_agent 10) = [].
Proof. vm_compute. reflexivity. Qed.

Example eleven_replicas :
  agent_manifest_validate (example_agent 11) =
  [lit "spec.network.ports.ssh.host assigns overlapping host port 4100 across configured replicas"].
Proof. vm_compute. reflexivity. Qed.

Lemma manifest_validate_exact_witness : valid_manifest (example_agent 10).
Proof. apply manifest_validate_exact; vm_compute; [discriminate|reflexivity]. Defined.

Lemma example_typed replicas : 0 <= replicas <= u16_max → typed_ports (example_agent replicas).
Proof.
  intros Hreplicas. split; [done|].
  assert (bool_decide (map_Forall (λ _ port, Forall (λ base, 0 <= base <= u16_max) (option_list (gp_host port)))
    (net_ports (network example_spec))) = true) as Hall%bool_decide_eq_true by (vm_compute; reflexivity).
  intros name port Hport base Hbase. specialize (Hall name port Hport). cbn beta in Hall. rewrite Hbase in Hall.
  by inversion Hall.
Qed.

Lemma valid_host_ports_assigned_witness :
  typed_ports (example_agent 2) ∧
  assign_port_mappings (example_agent 2) 1 = Ret (replica_mapping 1 <$> template_ports (example_agent 2)) ∧
  pm_host <$> (replica_mapping 1 <$> template_ports (example_agent 2)) !! lit "ssh" = Some (Some 4101).
Proof.
  split; [apply example_typed; split; discriminate|]. split; [|vm_compute; reflexivity].
  apply (valid_host_ports_assigned (example_agent 2)); [apply example_typed; split; discriminate|vm_compute; reflexivity|].
  split; [discriminate|reflexivity].
Defined.

Definition example_host_env : bytes := bytes_of "HOST_KEY=s3cret" ++ [10] ++ bytes_of "GH_TOKEN=abc" ++ [10].

(** With the credentials of Codex from the host *)
Definition codex_spec : AgentSpec := {|
  image_os := image_os example_spec; user := user example_spec; resources := resources example_spec;
  network := network example_spec; bootstrap := bootstrap example_spec; secrets := secrets example_spec;
  plugins := {| agent_host := false; docker := None; dotnet := None; git := None; go := None; mise := None; node := None; podman := None;
    browser := None; claude := None; codex := Some {| codex_yolo := false; codex_version := lit "latest"; codex_session := SessionNone; codex_auth := AuthMediated; codex_auth_source := None |};
    github := github no_plugins; tailscale_serve := None; code_server := None |} |}.

Lemma codex_spec_valid : valid_agent_spec codex_spec.
Proof. apply agent_spec_validate_exact. vm_compute. reflexivity. Qed.

(** A host whose home is [/home/me], with the manifest and its environment file in [/agents] *)
Definition example_host : Host := {|
  var_os name := if bool_decide (name = bytes_of "HOME") then Some (bytes_of "/home/me") else None;
  path_join base rest := base ++ [47] ++ rest;
  path_parent path := if bool_decide (path = bytes_of "/agents/demo.yaml") then Some (bytes_of "/agents") else None;
  target_windows := false;
  try_exists path := Some (bool_decide (path ∈ [bytes_of "/agents/.env"; bytes_of "/home/me/.codex/auth.json"]));
  read path := if bool_decide (path = bytes_of "/agents/.env") then Some example_host_env else Some (bytes_of "{}");
|}.

Abbreviation example_collect :=
  (collect_runtime_secrets id example_fill example_read (Some ∘ value_text) example_host (bytes_of "/agents/demo.yaml") codex_spec ∅ 0%nat).

Lemma valid_secrets_scoped_witness :
  ∃ collected n', example_collect = (Ret collected, n') ∧
  length (Policy.bindings (runtime_secrets (rs_live collected))) = 4%nat ∧
  ∀ r, r ∈ Policy.bindings (runtime_secrets (rs_live collected)) →
  ∃ hosts : gset str, (∀ authority, secret_allows r authority = true ↔ ∃ h, h ∈ hosts ∧ authority = authority_new h) ∧
    ((∃ dir contents line a, path_parent example_host (bytes_of "/agents/demo.yaml") = Some dir ∧
        read example_host (path_join example_host dir (bytes_of ".env")) = Some contents ∧
        line ∈ lines (from_utf8_lossy contents) ∧ parse_custom_env_assignment line = Some a ∧
        secret_value r = assigned_value a ∧ variable_hosts codex_spec (ca_name a) hosts) ∨
     (∃ file t contents value, mediated_file codex_spec file t ∧
        read example_host (resolve_host_input_file_source example_host (hf_source file)) = Some contents ∧ example_read contents = Some value ∧
        secret_in id t false value (secret_value r) ∧ hosts = list_to_set (mt_hosts t))).
Proof.
  assert (match example_collect with
    | (Ret collected, _) => (length (Policy.bindings (runtime_secrets (rs_live collected))) =? 4)%nat | _ => false end = true) as Hok
    by (vm_compute; reflexivity).
  destruct example_collect as [[collected|e| |] n'] eqn:Hrun; [|discriminate Hok..].
  exists collected, n'. split; [reflexivity|]. split; [by apply Nat.eqb_eq|].
  apply (valid_secrets_scoped id example_fill example_read (Some ∘ value_text) example_host codex_spec (bytes_of "/agents/demo.yaml") ∅ 0
    collected n' codex_spec_valid Hrun).
Defined.

(** ** What validation lets through

    The path of a repository must not leave the directory of the code; its name, which is
    the path when there is none, may. *)
Theorem repository_name_escapes :
  let repo := {| repo_name := Some (lit ".."); repo_url := lit "https://github.com/me/project.git"; repo_path := None; repo_upstream := None |} in
  repo_validate repo 0 = [] ∧ checkout_path repo = lit ".." ∧
  repo_validate {| repo_name := None; repo_url := repo_url repo; repo_path := Some (checkout_path repo); repo_upstream := None |} 0 =
    [lit "bootstrap.repos[0].path must not contain '..'"].
Proof. cbv zeta. split_and!; vm_compute; reflexivity. Qed.

(** The message on a duplicate names the declaration before it, not the first. *)
Theorem duplicate_path_names_previous :
  let repo := {| repo_name := Some (lit "code"); repo_url := lit "https://github.com/me/code.git"; repo_path := None; repo_upstream := None |} in
  validate_unique_repo_paths [repo; repo; repo] =
  [lit "bootstrap.repos[1] resolves to duplicate checkout path `code` first declared by bootstrap.repos[0]";
   lit "bootstrap.repos[2] resolves to duplicate checkout path `code` first declared by bootstrap.repos[1]"].
Proof. vm_compute. reflexivity. Qed.
