(* ===== verification/Io.v ===== *)
(** * Nonblocking streams of the operating system

    A connected socket, as the code sees it: what the peer will send and the
    answers the system will give are lists fixed in advance, arbitrary in the
    theorems.  A call takes the next answer.  When a list is used up the socket
    would block for ever, so a finite list is what a run has seen of it. *)
From S2P Require Import Prelude Fields.

(** [std::io::Error], up to the kinds the program distinguishes *)
Inductive io_error := WouldBlock | WriteZero | OsError (code : Z).

#[export] Instance io_error_eq_dec : EqDecision io_error.
Proof. solve_decision. Defined.

(** [Arrived []] is the end of the stream: [read] returns [Ok(0)]. *)
Inductive read_answer := Arrived (bs : bytes) | ReadFails (e : io_error).
(** [Accepts n]: at most [n] bytes are taken; none for an [Ok(0)] *)
Inductive write_answer := Accepts (n : nat) | WriteFails (e : io_error).

Record Stream := { reads : list read_answer; writes : list write_answer; sent : bytes }.
#[export] Instance Stream_eta : Eta Stream := λ s, {| reads := reads s; writes := writes s; sent := sent s |}.

(** [stream.read(&mut buffer)] with a buffer of [len > 0] bytes: what [Ok(n)] put at its start.
    What does not fit stays for the next call. *)
Definition stream_read (len : nat) (s : Stream) : outcome io_error bytes * Stream :=
  match reads s with
  | [] => (Fail WouldBlock, s)
  | ReadFails e :: rest => (Fail e, s <| reads := rest |>)
  | Arrived bs :: rest =>
    if (length bs <=? len)%nat then (Ret bs, s <| reads := rest |>)
    else (Ret (take len bs), s <| reads := Arrived (drop len bs) :: rest |>)
  end.

(** [stream.write(buffer)]: the number of bytes taken *)
Definition stream_write (buffer : bytes) (s : Stream) : outcome io_error nat * Stream :=
  match writes s with
  | [] => (Fail WouldBlock, s)
  | WriteFails e :: rest => (Fail e, s <| writes := rest |>)
  | Accepts n :: rest =>
    let n := n `min` length buffer in
    (Ret n, s <| writes := rest |> <| sent := sent s ++ take n buffer |>)
  end%nat.

(** The bytes still to come *)
Definition arriving (s : Stream) : bytes :=
  reads s ≫= λ a, match a with Arrived bs => bs | ReadFails _ => [] end.

Lemma stream_read_spec len s r s' :
  (0 < len)%nat → stream_read len s = (r, s') →
  writes s' = writes s ∧ sent s' = sent s ∧
  match r with
  | Ret bs => arriving s = bs ++ arriving s' ∧ (length bs ≤ len)%nat
  | Fail _ => arriving s = arriving s'
  | _ => False
  end.
Proof.
  unfold stream_read, arriving. intros Hlen Hread.
  destruct (reads s) as [|[bs|e] rest] eqn:Hs; [|destruct (Nat.leb_spec (length bs) len)|]; simplify_eq/=;
    rewrite ?Hs; split_and!; try done.
  - by rewrite app_assoc, take_drop.
  - rewrite length_take. lia.
Qed.

Lemma stream_write_spec buffer s r s' :
  stream_write buffer s = (r, s') →
  reads s' = reads s ∧
  match r with
  | Ret n => sent s' = sent s ++ take n buffer ∧ (n ≤ length buffer)%nat
  | Fail _ => sent s' = sent s
  | _ => False
  end.
Proof.
  unfold stream_write. intros Hwrite.
  destruct (writes s) as [|[n|e] rest]; simplify_eq/=; split_and!; try done. lia.
Qed.

(** ** Datagram sockets: a call takes one datagram, cut to the buffer, or sends one *)
Inductive datagram_answer := Datagram (bs : bytes) (peer : Z) | RecvFails (e : io_error).
Inductive send_answer := Sends (n : nat) | SendFails (e : io_error).
Record DatagramSocket := { recvs : list datagram_answer; sends : list send_answer; sent_to : list (option Z * bytes) }.
#[export] Instance DatagramSocket_eta : Eta DatagramSocket := λ s,
  {| recvs := recvs s; sends := sends s; sent_to := sent_to s |}.

Definition datagram_recv_from (len : nat) (s : DatagramSocket) : outcome io_error (bytes * Z) * DatagramSocket :=
  match recvs s with
  | [] => (Fail WouldBlock, s)
  | RecvFails e :: rest => (Fail e, s <| recvs := rest |>)
  | Datagram bs peer :: rest => (Ret (take len bs, peer), s <| recvs := rest |>)
  end.

(** [send] and [send_to]: the number of bytes sent; what goes out is recorded *)
Definition datagram_send (target : option Z) (bs : bytes) (s : DatagramSocket) : outcome io_error nat * DatagramSocket :=
  match sends s with
  | [] => (Fail WouldBlock, s)
  | SendFails e :: rest => (Fail e, s <| sends := rest |>)
  | Sends n :: rest =>
    let n := n `min` length bs in
    (Ret n, s <| sends := rest |> <| sent_to := sent_to s ++ [(target, take n bs)] |>)
  end%nat.
