(* ===== verification/FrameStream.v ===== *)
(** * Ethernet frames over the stream socket of QEMU
      (src/backends/agentdp-qemu/src/net/stream.rs)

    QEMU's [-netdev stream] carries each frame behind its length, four bytes
    big-endian.  The socket does not block: [try_read_frame_into] and
    [try_write_frame] keep what they have done so far and are called again. *)
From S2P Require Import Prelude Fields Text Io.
Local Open Scope Z_scope.

Definition FRAME_LENGTH_BYTES : nat := 4.
Definition MAX_ETHERNET_FRAME_BYTES : Z := 65535.

Inductive Error :=
| ReadError (e : io_error)
| WriteError (e : io_error)
| OversizedFrame (length maximum : Z) (length_prefix : str).

Inductive GuestFrameRead := FrameReady | ReadBlocked | ReadClosed.
Inductive GuestFrameWrite := Flushed | WriteBlocked.

#[export] Instance GuestFrameRead_eq_dec : EqDecision GuestFrameRead.
Proof. solve_decision. Defined.
#[export] Instance GuestFrameWrite_eq_dec : EqDecision GuestFrameWrite.
Proof. solve_decision. Defined.

(** [format!("{byte:02x}")] *)
Definition hex_nibble (n : Z) : Z := if n <? 10 then 48 + n else 87 + n.
Definition hex_byte (b : Z) : str := [hex_nibble (Z.shiftr b 4); hex_nibble (Z.land b 15)].

Definition hex_prefix (bytes : bytes) (max_len : nat) : str :=
  let prefix_len := (length bytes `min` max_len)%nat in
  intercalate [32] (hex_byte <$> take prefix_len bytes) ++
  (if (max_len <? length bytes)%nat then bytes_of " ..." else []).

Definition checked_incoming_frame_len (length_prefix : bytes) : outcome Error nat :=
  let length := be_value length_prefix in
  if MAX_ETHERNET_FRAME_BYTES <? length
  then Fail (OversizedFrame length MAX_ETHERNET_FRAME_BYTES (hex_prefix length_prefix FRAME_LENGTH_BYTES))
  else Ret (Z.to_nat length).

Definition checked_outgoing_frame_len (frame : bytes) : outcome Error Z :=
  if u32_max <? zlen frame
  then Fail (OversizedFrame u32_max MAX_ETHERNET_FRAME_BYTES (bytes_of "<outgoing frame too large>"))
  else
    let length := zlen frame in
    if MAX_ETHERNET_FRAME_BYTES <? length
    then Fail (OversizedFrame length MAX_ETHERNET_FRAME_BYTES (hex_prefix (be_bytes 4 length) FRAME_LENGTH_BYTES))
    else Ret length.

Record FrameStream := {
  stream : Stream;
  read_prefix : bytes;
  read_prefix_len : nat;
  read_payload : bytes;
  read_payload_len : nat;
  pending_write : bytes;
  pending_write_offset : nat;
}.
#[export] Instance FrameStream_eta : Eta FrameStream := λ s,
  {| stream := stream s; read_prefix := read_prefix s; read_prefix_len := read_prefix_len s;
     read_payload := read_payload s; read_payload_len := read_payload_len s;
     pending_write := pending_write s; pending_write_offset := pending_write_offset s |}.

(** [FrameStream::connect], once the socket is open *)
Definition frame_stream_connect (stream : Stream) : FrameStream :=
  {| stream := stream; read_prefix := replicate FRAME_LENGTH_BYTES 0; read_prefix_len := 0;
     read_payload := []; read_payload_len := 0; pending_write := []; pending_write_offset := 0 |}.

(** ** Reading *)

(** The loop [while filled < buffer.len() { match self.stream.read(&mut buffer[filled..]) { .. } }], which
    is written once for the prefix and once for the payload: the state is the buffer, how much of it is
    filled and the socket.  [Some r] is a [return Ok(r)] from inside the loop.  Each round reads at least
    one byte, so the number of missing bytes is fuel enough. *)
Fixpoint fill_loop (fuel : nat) : stm (bytes * nat * Stream) Error (option GuestFrameRead) :=
  st ← stm_get;
  let '(buffer, filled, _) := st in
  if (filled <? length buffer)%nat then
    match fuel with
    | O => stm_lift Timeout
    | S fuel =>
      answer ← stm_try (stm_zoom snd (λ socket st, (fst st, socket)) (stream_read (length buffer - filled)));
      match answer with
      | inl [] => mret (Some ReadClosed)
      | inl bs =>
        buffer ← stm_lift (write_slice buffer filled bs);
        stm_modify (λ st, (buffer, filled + length bs, snd st)%nat);;
        fill_loop fuel
      | inr WouldBlock => mret (Some ReadBlocked)
      | inr e => stm_fail (ReadError e)
      end
    end
  else mret None.

Definition fill : stm (bytes * nat * Stream) Error (option GuestFrameRead) := λ st,
  fill_loop (length (fst (fst st)) - snd (fst st)) st.

Definition fill_prefix : stm FrameStream Error (option GuestFrameRead) :=
  stm_zoom (λ s, (read_prefix s, read_prefix_len s, stream s))
    (λ '(buffer, filled, socket) s, s <| read_prefix := buffer |> <| read_prefix_len := filled |> <| stream := socket |>)
    fill.

Definition fill_payload : stm FrameStream Error (option GuestFrameRead) :=
  stm_zoom (λ s, (read_payload s, read_payload_len s, stream s))
    (λ '(buffer, filled, socket) s, s <| read_payload := buffer |> <| read_payload_len := filled |> <| stream := socket |>)
    fill.

(** [if self.read_payload.is_empty() { .. }] *)
Definition start_payload : stm FrameStream Error unit :=
  s ← stm_get;
  match read_payload s with
  | [] =>
    frame_len ← stm_lift (checked_incoming_frame_len (read_prefix s));
    stm_modify (λ s, s <| read_payload := replicate frame_len 0 |> <| read_payload_len := 0%nat |>)
  | _ => mret tt
  end.

(** The result comes with what the call put into the caller's [frame], which it leaves alone unless
    it returns [Frame]. *)
Definition try_read_frame_into (frame : bytes) : stm FrameStream Error (GuestFrameRead * bytes) :=
  early ← fill_prefix;
  match early with
  | Some r => mret (r, frame)
  | None =>
    start_payload;;
    early ← fill_payload;
    match early with
    | Some r => mret (r, frame)
    | None =>
      s ← stm_get;
      stm_modify (λ s, s <| read_prefix := replicate FRAME_LENGTH_BYTES 0 |> <| read_prefix_len := 0%nat |>
                         <| read_payload := [] |> <| read_payload_len := 0%nat |>);;
      mret (FrameReady, read_payload s)
    end
  end.

(** ** Writing *)
Definition socket_write (buffer : bytes) : stm FrameStream io_error nat :=
  stm_zoom stream (λ socket s, s <| stream := socket |>) (stream_write buffer).

Fixpoint flush_loop (fuel : nat) : stm FrameStream Error GuestFrameWrite :=
  s ← stm_get;
  if (pending_write_offset s <? length (pending_write s))%nat then
    match fuel with
    | O => stm_lift Timeout
    | S fuel =>
      answer ← stm_try (socket_write (drop (pending_write_offset s) (pending_write s)));
      match answer with
      | inl O => stm_fail (WriteError WriteZero)
      | inl written => stm_modify (λ s, s <| pending_write_offset ::= λ n, (n + written)%nat |>);; flush_loop fuel
      | inr WouldBlock => mret WriteBlocked
      | inr e => stm_fail (WriteError e)
      end
    end
  else
    stm_modify (λ s, s <| pending_write := [] |> <| pending_write_offset := 0%nat |>);;
    mret Flushed.

(** At most one round for each byte that is left *)
Definition flush_pending_write : stm FrameStream Error GuestFrameWrite := λ s,
  flush_loop (length (pending_write s) - pending_write_offset s) s.

Definition queue_write (bs : bytes) : stm FrameStream Error unit :=
  stm_modify (λ s, s <| pending_write ::= λ p, p ++ bs |>).

(** The second [write] of a call, for the frame itself *)
Definition write_payload (frame : bytes) : stm FrameStream Error GuestFrameWrite :=
  answer ← stm_try (socket_write frame);
  match answer with
  | inl written =>
    if (written =? length frame)%nat then mret Flushed
    else queue_write (drop written frame);; flush_pending_write
  | inr WouldBlock => queue_write frame;; mret WriteBlocked
  | inr e => stm_fail (WriteError e)
  end.

Definition try_write_frame (frame : bytes) : stm FrameStream Error GuestFrameWrite :=
  s ← stm_get;
  match pending_write s with
  | [] =>
    length ← stm_lift (checked_outgoing_frame_len frame);
    let prefix := be_bytes 4 length in
    answer ← stm_try (socket_write prefix);
    match answer with
    | inl written =>
      if (written =? FRAME_LENGTH_BYTES)%nat then write_payload frame
      else queue_write (drop written prefix ++ frame);; flush_pending_write
    | inr WouldBlock => queue_write (prefix ++ frame);; mret WriteBlocked
    | inr e => stm_fail (WriteError e)
    end
  | _ => flush_pending_write
  end.

(** ** What the socket carries *)
Definition frame_bytes (frame : bytes) : bytes := be_bytes 4 (zlen frame) ++ frame.
Definition stream_of (frames : list bytes) : bytes := frames ≫= frame_bytes.

(** Nothing at the front of [bs] is a whole frame. *)
Definition incomplete (bs : bytes) : Prop :=
  (4 ≤ length bs)%nat → zlen bs < 4 + be_value (take 4 bs).

(** What has been read of the frame in progress *)
Definition held (s : FrameStream) : bytes := take (read_prefix_len s) (read_prefix s) ++ take (read_payload_len s) (read_payload s).

Definition payload_ok (s : FrameStream) : Prop :=
  match read_payload s with
  | [] => read_payload_len s = 0%nat
  | payload =>
    read_prefix_len s = 4%nat ∧ be_value (read_prefix s) = zlen payload ∧
    zlen payload <= MAX_ETHERNET_FRAME_BYTES ∧ (read_payload_len s < length payload)%nat
  end.

(** The reading half between two calls *)
Record read_ok (s : FrameStream) : Prop := {
  ro_prefix : length (read_prefix s) = 4%nat;
  ro_prefix_len : (read_prefix_len s ≤ 4)%nat;
  ro_payload : payload_ok s;
  ro_bytes : are_bytes (held s ++ arriving (stream s));
}.

Lemma write_slice_fill {E} (buffer : bytes) filled bs :
  (filled + length bs ≤ length buffer)%nat →
  ∃ buffer', @write_slice E Z buffer filled bs = Ret buffer' ∧ length buffer' = length buffer ∧
    take (filled + length bs) buffer' = take filled buffer ++ bs.
Proof.
  intros Hfit. exists (take filled buffer ++ bs ++ drop (filled + length bs) buffer).
  rewrite write_slice_ok by done. split_and!; [done|..].
  - rewrite !length_app, length_take, length_drop. lia.
  - rewrite app_assoc. rewrite take_app_length'; [done|]. rewrite length_app, length_take. lia.
Qed.

(** What a run of the loop did: the bytes [c] went from the socket to the buffer. *)
Definition filled_by (st st' : bytes * nat * Stream) (c : bytes) : Prop :=
  length (fst (fst st')) = length (fst (fst st)) ∧ (snd (fst st') ≤ length (fst (fst st')))%nat ∧
  take (snd (fst st')) (fst (fst st')) = take (snd (fst st)) (fst (fst st)) ++ c ∧
  arriving (snd st) = c ++ arriving (snd st') ∧
  writes (snd st') = writes (snd st) ∧ sent (snd st') = sent (snd st).

Lemma fill_loop_spec fuel buffer filled socket r st' :
  (filled ≤ length buffer)%nat → (length buffer - filled ≤ fuel)%nat →
  fill_loop fuel (buffer, filled, socket) = (r, st') →
  ∃ c, filled_by (buffer, filled, socket) st' c ∧
  match r with
  | Ret None => snd (fst st') = length (fst (fst st'))
  | Ret (Some FrameReady) => False
  | Ret (Some _) | Fail (ReadError _) => (snd (fst st') < length (fst (fst st')))%nat
  | _ => False
  end.
Proof.
  revert buffer filled socket. induction fuel as [|fuel IH]; intros buffer filled socket Hle Hfuel;
    cbn [fill_loop]; unfold mbind, stm_bind, stm_get;
    (destruct (Nat.ltb_spec filled (length buffer)) as [Hlt|Hge]; [|intros [= <- <-]; exists []; unfold filled_by; simpl;
       rewrite ?app_nil_r; split_and!; try done; lia]); [lia|].
  unfold stm_try, stm_zoom. cbn [snd fst].
  destruct (stream_read (length buffer - filled) socket) as [answer socket'] eqn:Hread.
  apply stream_read_spec in Hread as (Hw & Hs & Hread); [|lia].
  assert (Hstop : ∀ socket', writes socket' = writes socket → sent socket' = sent socket → arriving socket = arriving socket' →
    filled_by (buffer, filled, socket) (buffer, filled, socket') []).
  { intros. unfold filled_by. simpl. rewrite app_nil_r. split_and!; auto; lia. }
  destruct answer as [[|b bs]|e| |]; try done.
  - destruct Hread as [Harr _]. intros [= <- <-]. exists []. split; [by apply Hstop|done].
  - destruct Hread as [Harr Hlen].
    destruct (@write_slice_fill Error buffer filled (b :: bs)) as (buffer' & Hslice & Hlen' & Htake); [lia|].
    unfold stm_lift, stm_modify. rewrite Hslice. cbn [snd fst]. intros Hloop.
    apply IH in Hloop as (c & (H1 & H2 & H3 & H4 & H5 & H6) & Hr); [|simpl in *; lia..].
    exists ((b :: bs) ++ c). split; [|done]. unfold filled_by. cbn [snd fst] in *.
    rewrite H3, Htake, Harr, H4, <-!app_assoc. split_and!; congruence || done.
  - destruct e; intros [= <- <-]; exists []; (split; [by apply Hstop|done]).
Qed.

(** A list of bytes is the encoding of the integer it is read as. *)
Lemma be_bytes_be_value bs : are_bytes bs → be_bytes (length bs) (be_value bs) = bs.
Proof.
  induction bs as [|b bs IH] using rev_ind; [done|]. unfold are_bytes. rewrite Forall_app, Forall_singleton.
  intros [Hbs Hb]. rewrite be_value_app, length_app, Nat.add_1_r by done. unfold be_bytes in *. cbn [le_bytes].
  rewrite reverse_cons, land_255, Z.shiftr_div_pow2 by lia. change (2 ^ 8) with 256. unfold is_byte in Hb.
  rewrite Z.div_add_l, (Z.div_small b), Z.add_0_r, Z.add_comm, Z.mod_add, Z.mod_small, IH by (done || lia). done.
Qed.

Lemma be_value_nonneg bs : are_bytes bs → 0 <= be_value bs.
Proof.
  induction bs as [|b bs IH] using rev_ind; [done|]. unfold are_bytes. rewrite Forall_app, Forall_singleton.
  intros [Hbs Hb]. rewrite be_value_app by done. specialize (IH Hbs). unfold is_byte in Hb. lia.
Qed.

Definition frame_read (s s' : FrameStream) (c : bytes) : Prop :=
  arriving (stream s) = c ++ arriving (stream s') ∧
  sent (stream s') = sent (stream s) ∧ writes (stream s') = writes (stream s) ∧
  pending_write s' = pending_write s ∧ pending_write_offset s' = pending_write_offset s.

Lemma fill_prefix_spec s r s' :
  read_ok s → fill_prefix s = (r, s') →
  ∃ c, frame_read s s' c ∧
  match r with
  | Ret None => length (read_prefix s') = 4%nat ∧ read_prefix_len s' = 4%nat ∧ held s' = held s ++ c ∧ payload_ok s'
      ∧ (c ≠ [] → read_payload s' = [])
  | Ret (Some FrameReady) => False
  | Ret (Some _) | Fail (ReadError _) => held s' = held s ++ c ∧ read_ok s' ∧ incomplete (held s')
  | _ => False
  end.
Proof.
  intros [Hlen Hplen Hpay Hbytes]. unfold fill_prefix, stm_zoom, fill.
  destruct (fill_loop _ _) as [r0 [[prefix n] socket]] eqn:Hloop. cbn [fst snd] in *. intros [= <- <-].
  apply fill_loop_spec in Hloop as (c & (H1 & H2 & H3 & H4 & H5 & H6) & Hr); [|lia..]. cbn [fst snd] in *.
  exists c. split; [by unfold frame_read; simpl; split_and!|].
  assert (Hheld : read_payload s = [] ∨ (read_payload s ≠ [] ∧ read_prefix_len s = 4%nat ∧ c = [])).
  { unfold payload_ok in Hpay. destruct (read_payload s) eqn:Hp; [by left|right]. destruct Hpay as (Hpl & _). split; [done|].
    split; [done|]. apply (f_equal length) in H3. rewrite length_app, !length_take in H3.
    assert (length c = 0)%nat by lia. by apply nil_length_inv. }
  assert (Hh : take n prefix ++ take (read_payload_len s) (read_payload s) = held s ++ c).
  { unfold held. rewrite H3. destruct Hheld as [->|(_ & _ & ->)]; rewrite ?take_nil, ?app_nil_r; done. }
  assert (Hstop : (n < length prefix)%nat →
    held s ++ c = held s ++ c ∧
    read_ok (s <| read_prefix := prefix |> <| read_prefix_len := n |> <| stream := socket |>) ∧
    incomplete (held (s <| read_prefix := prefix |> <| read_prefix_len := n |> <| stream := socket |>))).
  { intros Hn. assert (read_payload s = []) as Hnil.
    { destruct Hheld as [|(_ & Hfull & ->)]; [done|]. exfalso. rewrite app_nil_r in H3.
      apply (f_equal length) in H3. rewrite !length_take in H3. lia. }
    split; [done|]. split.
    - split; [simpl; congruence|simpl; lia|unfold payload_ok in *; simpl; rewrite Hnil in *; done|].
      simpl. unfold held in *. simpl. rewrite Hh, <-app_assoc, <-H4. done.
    - unfold incomplete, held. simpl. rewrite Hnil, take_nil, app_nil_r, length_take. lia. }
  destruct r0 as [[[]|]|[]| |]; try done; simpl; try (unfold held at 1; simpl; rewrite Hh; by apply Hstop).
  split_and!; [congruence|congruence|unfold held at 1; simpl; by rewrite Hh| |].
  - unfold payload_ok in *. simpl. destruct (read_payload s) eqn:Hp; [done|]. destruct Hpay as (Hpl & Hv & Hrest).
    assert (prefix = read_prefix s) as -> by
      (rewrite <-(firstn_all prefix), <-Hr, H3; destruct Hheld as [|(_ & _ & ->)]; [congruence|];
       rewrite app_nil_r, Hpl, <-Hlen; apply firstn_all).
    split_and!; [congruence|done|lia|tauto].
  - intros Hc. by destruct Hheld as [|(_ & _ & ?)].
Qed.

Lemma frame_read_trans s s1 s2 c c' : frame_read s s1 c → frame_read s1 s2 c' → frame_read s s2 (c ++ c').
Proof. intros (H1 & H2 & H3 & H4 & H5) (I1 & I2 & I3 & I4 & I5). unfold frame_read. rewrite H1, I1, <-app_assoc. split_and!; congruence. Qed.

(** The prefix is there and the payload has its buffer. *)
Record payload_started (s : FrameStream) : Prop := {
  ps_prefix : length (read_prefix s) = 4%nat;
  ps_prefix_len : read_prefix_len s = 4%nat;
  ps_value : be_value (read_prefix s) = zlen (read_payload s);
  ps_small : zlen (read_payload s) <= MAX_ETHERNET_FRAME_BYTES;
  ps_filled : (read_payload_len s ≤ length (read_payload s))%nat;
  ps_bytes : are_bytes (held s ++ arriving (stream s));
}.

Lemma start_payload_spec s r s' :
  length (read_prefix s) = 4%nat → read_prefix_len s = 4%nat → payload_ok s → are_bytes (held s ++ arriving (stream s)) →
  start_payload s = (r, s') →
  match r with
  | Ret _ => payload_started s' ∧ held s' = held s ∧ frame_read s s' []
  | Fail e => s' = s ∧ e = OversizedFrame (be_value (held s)) MAX_ETHERNET_FRAME_BYTES (hex_prefix (held s) 4) ∧
      length (held s) = 4%nat ∧ MAX_ETHERNET_FRAME_BYTES < be_value (held s)
  | _ => False
  end.
Proof.
  intros Hlen Hplen Hpay Hbytes. unfold start_payload, mbind, stm_bind, stm_get, mret, stm_ret, stm_lift, stm_modify.
  assert (take 4 (read_prefix s) = read_prefix s) as Htake by (rewrite <-Hlen; apply firstn_all).
  destruct (read_payload s) as [|b p] eqn:Hp.
  - assert (held s = read_prefix s) as Hheld by (unfold held; by rewrite Hp, take_nil, app_nil_r, Hplen, Htake).
    unfold checked_incoming_frame_len. rewrite Hheld in *.
    assert (are_bytes (read_prefix s)) as Hb by (by apply Forall_app in Hbytes as [? _]).
    apply be_value_nonneg in Hb. destruct (Z.ltb_spec MAX_ETHERNET_FRAME_BYTES (be_value (read_prefix s))) as [Hbig|Hsmall];
      intros [= <- <-]; [done|].
    assert (zlen (replicate (Z.to_nat (be_value (read_prefix s))) 0) = be_value (read_prefix s)) as Hz
      by (unfold zlen; rewrite length_replicate; lia).
    assert (∀ l : list Z, take 0 l = []) as Ht0 by (by intros []).
    split; [|split; [by unfold held; simpl; rewrite Ht0, app_nil_r, Hplen, Htake|by unfold frame_read; simpl]].
    split; simpl; [done|done|by rewrite Hz|by rewrite Hz|lia|].
    unfold held. simpl. by rewrite Ht0, app_nil_r, Hplen, Htake.
  - intros [= <- <-]. unfold payload_ok in Hpay. rewrite Hp in Hpay. destruct Hpay as (_ & Hv & Hs & Hl).
    split; [|split; [done|by unfold frame_read]]. split; rewrite ?Hp; try done. lia.
Qed.

Lemma fill_payload_spec s r s' :
  payload_started s → fill_payload s = (r, s') →
  ∃ c, frame_read s s' c ∧ held s' = held s ++ c ∧
  match r with
  | Ret None => payload_started s' ∧ held s' = frame_bytes (read_payload s')
  | Ret (Some FrameReady) => False
  | Ret (Some _) | Fail (ReadError _) => read_ok s' ∧ incomplete (held s')
  | _ => False
  end.
Proof.
  intros [Hlen Hplen Hv Hsmall Hfill Hbytes]. unfold fill_payload, stm_zoom, fill.
  destruct (fill_loop _ _) as [r0 [[payload n] socket]] eqn:Hloop. cbn [fst snd] in *. intros [= <- <-].
  apply fill_loop_spec in Hloop as (c & (H1 & H2 & H3 & H4 & H5 & H6) & Hr); [|lia..]. cbn [fst snd] in *.
  exists c. split; [by unfold frame_read; simpl; split_and!|].
  assert (take 4 (read_prefix s) = read_prefix s) as Htake by (rewrite <-Hlen; apply firstn_all).
  assert (Hh : take (read_prefix_len s) (read_prefix s) ++ take n payload = held s ++ c)
    by (unfold held; by rewrite H3, app_assoc).
  assert (are_bytes ((held s ++ c) ++ arriving socket)) as Hb by (by rewrite <-app_assoc, <-H4).
  split; [by unfold held at 1|].
  assert (Hstop : (n < length payload)%nat →
    read_ok (s <| read_payload := payload |> <| read_payload_len := n |> <| stream := socket |>) ∧
    incomplete (held (s <| read_payload := payload |> <| read_payload_len := n |> <| stream := socket |>))).
  { intros Hn. split.
    - split; simpl; [done|lia| |unfold held; simpl; by rewrite Hh].
      unfold payload_ok. simpl. destruct payload; [simpl in Hn; lia|]. unfold zlen in *. rewrite <-H1 in *. split_and!; done.
    - unfold incomplete, held. simpl. intros _. rewrite Hplen, Htake, take_app_length' by done. unfold zlen in *.
      rewrite length_app, length_take, Hlen, Hv. lia. }
  destruct r0 as [[[]|]|[]| |]; try done; simpl; [by apply Hstop..| |by apply Hstop].
  assert (take n payload = payload) as Hall by (rewrite Hr; apply firstn_all).
  split.
  - split; simpl; unfold zlen in *; rewrite ?H1; try done; [lia|]. unfold held. simpl. by rewrite Hh.
  - transitivity (read_prefix s ++ payload); [unfold held; simpl; by rewrite Hplen, Htake, Hall|].
    change (read_prefix s ++ payload = be_bytes 4 (zlen payload) ++ payload). f_equal.
    replace (zlen payload) with (be_value (read_prefix s)) by (unfold zlen in *; congruence). rewrite <-Hlen.
    symmetry. apply be_bytes_be_value. unfold held in Hbytes. rewrite Hplen, Htake in Hbytes.
    rewrite <-app_assoc in Hbytes. by apply Forall_app in Hbytes as [? _].
Qed.

(** One call *)
Lemma read_frame_exact s frame r s' :
  read_ok s → try_read_frame_into frame s = (r, s') →
  ∃ c, frame_read s s' c ∧ read_ok s' ∧
  match r with
  | Ret (FrameReady, f) => held s ++ c = frame_bytes f ∧ zlen f <= MAX_ETHERNET_FRAME_BYTES ∧ held s' = []
  | Ret (_, f) => f = frame ∧ held s' = held s ++ c ∧ incomplete (held s')
  | Fail (ReadError _) => held s' = held s ++ c ∧ incomplete (held s')
  | Fail (OversizedFrame length maximum prefix) =>
      held s' = held s ++ c ∧ length = be_value (held s') ∧ maximum = MAX_ETHERNET_FRAME_BYTES ∧
      prefix = hex_prefix (held s') 4 ∧ MAX_ETHERNET_FRAME_BYTES < length
  | _ => False
  end.
Proof.
  intros Hok. unfold try_read_frame_into, mbind, stm_bind, mret, stm_ret, stm_get, stm_modify.
  destruct (fill_prefix s) as [r1 s1] eqn:Hprefix. apply fill_prefix_spec in Hprefix as (c & Hread & Hr1); [|done].
  destruct r1 as [[early|]|e1| |]; [| | |done|done].
  { intros [= <- <-]. exists c. destruct early; [done|..]; destruct Hr1 as (? & ? & ?); done. }
  2:{ intros [= <- <-]. exists c. destruct e1; [|done..]. by destruct Hr1 as (? & ? & ?). }
  destruct Hr1 as (Hlen & Hplen & Hheld & Hpay & _).
  assert (are_bytes (held s1 ++ arriving (stream s1))) as Hb.
  { rewrite Hheld, <-app_assoc. destruct Hread as (<- & _). apply Hok. }
  destruct (start_payload s1) as [r2 s2] eqn:Hstart. apply start_payload_spec in Hstart; [|done..].
  destruct r2 as [[]|e2| |]; [| |done|done].
  2:{ destruct Hstart as (-> & -> & Hlen4 & Hbig). intros [= <- <-]. exists c. split; [done|]. split.
      - split; [done|lia|done|done].
      - split; [done|]. split_and!; done. }
  destruct Hstart as (Hstarted & Hheld2 & Hread2). pose proof (frame_read_trans _ _ _ _ _ Hread Hread2) as Hread02.
  rewrite app_nil_r in Hread02.
  destruct (fill_payload s2) as [r3 s3] eqn:Hpl. apply fill_payload_spec in Hpl as (c' & Hread3 & Hheld3 & Hr3); [|done].
  pose proof (frame_read_trans _ _ _ _ _ Hread02 Hread3) as Hread03.
  assert (held s3 = held s ++ c ++ c') as Hheld03 by (by rewrite Hheld3, Hheld2, Hheld, app_assoc).
  destruct r3 as [[early|]|e3| |]; [| | |done|done].
  - intros [= <- <-]. exists (c ++ c'). destruct early; [done|..]; destruct Hr3 as (? & ?); done.
  - destruct Hr3 as (Hst & Hframe). intros [= <- <-]. exists (c ++ c'). split; [done|]. destruct Hst as [S1 S2 S3 S4 S5 S6]. split.
    + split; simpl; [done|lia|done|]. unfold held. simpl. by apply Forall_app in S6 as [_ ?].
    + split_and!; [by rewrite <-Hframe, Hheld03|done|done].
  - intros [= <- <-]. exists (c ++ c'). destruct e3; [|done..]. by destruct Hr3 as (? & ?).
Qed.

(** ** Sequences of frames *)
Definition small (frame : bytes) : Prop := zlen frame <= MAX_ETHERNET_FRAME_BYTES.

Lemma frame_length_value f rest : small f → be_value (take 4 (frame_bytes f ++ rest)) = zlen f.
Proof.
  intros Hf. unfold frame_bytes. rewrite <-app_assoc, take_app_length' by (by rewrite length_be_bytes).
  apply be_value_be_bytes. unfold small, MAX_ETHERNET_FRAME_BYTES, zlen in *. simpl. lia.
Qed.

Lemma whole_frame_complete f rest : small f → ¬ incomplete (frame_bytes f ++ rest).
Proof.
  intros Hf Hinc. specialize (Hinc ltac:(unfold frame_bytes; rewrite !length_app, length_be_bytes; lia)).
  rewrite frame_length_value in Hinc by done. unfold frame_bytes, zlen in Hinc. rewrite !length_app, length_be_bytes in Hinc. lia.
Qed.

Lemma frame_bytes_inj f g x y : small f → small g → frame_bytes f ++ x = frame_bytes g ++ y → f = g ∧ x = y.
Proof.
  intros Hf Hg Heq. assert (zlen f = zlen g) as Hlen.
  { rewrite <-(frame_length_value f x), <-(frame_length_value g y) by done. by rewrite Heq. }
  unfold frame_bytes in Heq. rewrite Hlen, <-!app_assoc in Heq. apply app_inv_head in Heq.
  apply app_inj_1 in Heq; [done|]. unfold zlen in Hlen. lia.
Qed.

(** A stream decodes in one way only. *)
Lemma stream_of_prefix fs gs x y :
  Forall small fs → Forall small gs → incomplete y → stream_of gs ++ x = stream_of fs ++ y →
  ∃ hs, fs = gs ++ hs ∧ x = stream_of hs ++ y.
Proof.
  intros Hfs Hgs Hy. revert fs Hfs. induction Hgs as [|g gs Hg _ IH]; intros fs Hfs; [by exists fs|].
  destruct Hfs as [|f fs Hf Hfs]; unfold stream_of; rewrite !bind_cons, <-app_assoc.
  - intros Heq. change ((([] : list bytes) ≫= frame_bytes) ++ y) with y in Heq. destruct (whole_frame_complete g (stream_of gs ++ x) Hg). unfold stream_of. by rewrite Heq.
  - rewrite <-app_assoc. intros [-> Heq]%frame_bytes_inj; [|done..]. apply IH in Heq as (hs & -> & ->); [|done].
    by exists hs.
Qed.

Lemma stream_of_app fs gs : stream_of (fs ++ gs) = stream_of fs ++ stream_of gs.
Proof. apply bind_app. Qed.
Lemma stream_of_one f : stream_of [f] = frame_bytes f.
Proof. unfold stream_of. by rewrite bind_cons, app_nil_r. Qed.

(** The calls a reader makes, with any buffers, and the frames they returned *)
Inductive reading (s : FrameStream) : list bytes → FrameStream → Prop :=
| reading_start : reading s [] s
| reading_frame fs s1 frame f s2 :
    reading s fs s1 → try_read_frame_into frame s1 = (Ret (FrameReady, f), s2) → reading s (fs ++ [f]) s2
| reading_wait fs s1 frame r f s2 :
    reading s fs s1 → r ≠ FrameReady → try_read_frame_into frame s1 = (Ret (r, f), s2) → reading s fs s2.

Lemma reading_exact s fs s' :
  reading s fs s' → read_ok s →
  read_ok s' ∧ Forall small fs ∧ ∃ c, frame_read s s' c ∧ held s ++ c = stream_of fs ++ held s'.
Proof.
  induction 1 as [|fs s1 frame f s2 _ IH Hcall|fs s1 frame r f s2 _ IH Hr Hcall]; intros Hok.
  - split; [done|]. split; [constructor|]. exists []. split; [by unfold frame_read|by rewrite app_nil_r].
  - destruct (IH Hok) as (Hok1 & Hsmall & c & Hread & Hc).
    apply read_frame_exact in Hcall as (c' & Hread' & Hok2 & Hf & Hlen & Hnil); [|done].
    split; [done|]. split; [apply Forall_app; by split; [|apply Forall_singleton]|].
    exists (c ++ c'). split; [by eapply frame_read_trans|].
    rewrite app_assoc, Hc, stream_of_app, stream_of_one, Hnil, app_nil_r, <-app_assoc, Hf. done.
  - destruct (IH Hok) as (Hok1 & Hsmall & c & Hread & Hc).
    apply read_frame_exact in Hcall as (c' & Hread' & Hok2 & Hres); [|done].
    split; [done|]. split; [done|]. exists (c ++ c'). split; [by eapply frame_read_trans|].
    assert (held s2 = held s1 ++ c') as -> by (destruct r; [done|by destruct Hres as (_ & ? & _)..]).
    by rewrite !app_assoc, Hc.
Qed.

(** ** The writing half *)
Definition unsent (s : FrameStream) : bytes := drop (pending_write_offset s) (pending_write s).

Definition write_ok (s : FrameStream) : Prop :=
  (pending_write s = [] ∧ pending_write_offset s = 0%nat) ∨ unsent s ≠ [].

Definition frame_written (s s' : FrameStream) (c : bytes) : Prop :=
  sent (stream s') = sent (stream s) ++ c ∧ reads (stream s') = reads (stream s) ∧
  read_prefix s' = read_prefix s ∧ read_prefix_len s' = read_prefix_len s ∧
  read_payload s' = read_payload s ∧ read_payload_len s' = read_payload_len s.

(** What a call that had [todo] to write did *)
Definition write_result (s : FrameStream) (todo : bytes) (r : outcome Error GuestFrameWrite) (s' : FrameStream) : Prop :=
  ∃ c, frame_written s s' c ∧
  match r with
  | Ret Flushed => c = todo ∧ pending_write s' = [] ∧ pending_write_offset s' = 0%nat
  | Ret WriteBlocked => todo = c ++ unsent s' ∧ unsent s' ≠ []
  | Fail (WriteError _) => ∃ lost, todo = c ++ lost
  | _ => False
  end.

Lemma write_result_trans s s1 c todo r s2 :
  frame_written s s1 c → write_result s1 todo r s2 → write_result s (c ++ todo) r s2.
Proof.
  intros (H1 & H2 & H3 & H4 & H5 & H6) (c' & (I1 & I2 & I3 & I4 & I5 & I6) & Hr). exists (c ++ c'). split.
  - unfold frame_written. rewrite I1, H1, <-app_assoc. split_and!; congruence.
  - destruct r as [[]|[]| |]; try done.
    + destruct Hr as (-> & ? & ?). done.
    + destruct Hr as (-> & ?). by rewrite <-app_assoc.
    + destruct Hr as (lost & ->). exists lost. by rewrite app_assoc.
Qed.

Lemma socket_write_spec buffer s r s' :
  socket_write buffer s = (r, s') →
  pending_write s' = pending_write s ∧ pending_write_offset s' = pending_write_offset s ∧
  match r with
  | Ret n => frame_written s s' (take n buffer) ∧ (n ≤ length buffer)%nat
  | Fail _ => frame_written s s' []
  | _ => False
  end.
Proof.
  unfold socket_write, stm_zoom. destruct (stream_write buffer (stream s)) as [r0 socket] eqn:Hw. intros [= <- <-].
  apply stream_write_spec in Hw as (Hreads & Hr). split; [done|]. split; [done|].
  destruct r0; try done; unfold frame_written; simpl; rewrite ?app_nil_r; destruct_and?; split_and!; done.
Qed.

Lemma flush_loop_spec fuel s r s' :
  (pending_write_offset s ≤ length (pending_write s))%nat → (length (unsent s) ≤ fuel)%nat →
  flush_loop fuel s = (r, s') → write_result s (unsent s) r s'.
Proof.
  revert s. induction fuel as [|fuel IH]; intros s Hle Hfuel; cbn [flush_loop]; unfold mbind, stm_bind, stm_get;
    unfold unsent in Hfuel; rewrite length_drop in Hfuel;
    (destruct (Nat.ltb_spec (pending_write_offset s) (length (pending_write s))) as [Hlt|Hge];
     [|intros [= <- <-]; exists []; unfold unsent; rewrite drop_ge by done;
       unfold frame_written; simpl; rewrite app_nil_r; by split_and!]); [lia|].
  unfold stm_try, stm_modify, mret, stm_ret, stm_fail.
  fold (unsent s). destruct (socket_write (unsent s) s) as [answer s1] eqn:Hw.
  apply socket_write_spec in Hw as (Hp & Ho & Hw).
  assert (unsent s1 = unsent s) as Hu by (unfold unsent; congruence).
  assert (unsent s ≠ []) as Hne.
  { intros Hnil. apply (f_equal length) in Hnil. unfold unsent in Hnil. rewrite length_drop in Hnil. simpl in Hnil. lia. }
  destruct answer as [n|e| |]; [| |done|done].
  - destruct Hw as [Hw Hn]. destruct n as [|n].
    + intros [= <- <-]. exists (take 0 (unsent s)). split; [done|]. by exists (unsent s).
    + intros Hloop. unfold unsent in Hn. rewrite length_drop in Hn.
      set (s2 := s1 <| pending_write_offset ::= λ n0, (n0 + S n)%nat |>) in *.
      assert (unsent s2 = drop (S n) (unsent s)) as Hu2.
      { unfold unsent, s2. simpl. by rewrite Hp, Ho, drop_drop. }
      apply IH in Hloop; [|unfold s2; simpl; rewrite Hp, Ho; lia|rewrite Hu2; unfold unsent; rewrite !length_drop; lia].
      rewrite <-(take_drop (S n) (unsent s)), <-Hu2. by apply (write_result_trans s s2).
  - destruct e; intros [= <- <-]; exists []; (split; [done|]); [rewrite Hu; done|by exists (unsent s)..].
Qed.

Lemma flush_pending_write_spec s r s' :
  (pending_write_offset s ≤ length (pending_write s))%nat →
  flush_pending_write s = (r, s') → write_result s (unsent s) r s'.
Proof. intros Hle. apply flush_loop_spec; [done|]. unfold unsent. rewrite length_drop. lia. Qed.

(** The frame a call works on: the one handed over, or the rest of the one in progress. *)
Definition to_write (frame : bytes) (s : FrameStream) : bytes :=
  match pending_write s with [] => frame_bytes frame | _ => unsent s end.

Lemma unsent_queued bs s s1 :
  pending_write s = [] → pending_write_offset s = 0%nat →
  s1 = s <| pending_write ::= λ p, p ++ bs |> → unsent s1 = bs ∧ (pending_write_offset s1 ≤ length (pending_write s1))%nat.
Proof. intros Hp Ho ->. unfold unsent. simpl. rewrite Hp, Ho. split; [done|lia]. Qed.

Lemma write_payload_spec frame s r s' :
  pending_write s = [] → pending_write_offset s = 0%nat → frame ≠ [] →
  write_payload frame s = (r, s') → write_result s frame r s'.
Proof.
  intros Hp Ho Hne. unfold write_payload, queue_write, mbind, stm_bind, stm_try, stm_modify, mret, stm_ret, stm_fail.
  destruct (socket_write frame s) as [answer s1] eqn:Hw. apply socket_write_spec in Hw as (Hp1 & Ho1 & Hw).
  rewrite Hp in Hp1. rewrite Ho in Ho1. destruct answer as [n|e| |]; [| |done|done].
  - destruct Hw as [Hw Hn]. destruct (Nat.eqb_spec n (length frame)) as [->|Hlt].
    + intros [= <- <-]. exists frame. rewrite firstn_all in Hw. by split.
    + set (s2 := s1 <| pending_write ::= λ p, p ++ drop n frame |>).
      destruct (unsent_queued (drop n frame) s1 s2 Hp1 Ho1 eq_refl) as [Hu Hle].
      intros Hflush. apply flush_pending_write_spec in Hflush; [|done]. rewrite Hu in Hflush.
      rewrite <-(take_drop n frame). by apply (write_result_trans s s2).
  - destruct e; intros [= <- <-]; exists []; [|split; [done|by exists frame]..].
    set (s2 := s1 <| pending_write ::= λ p, p ++ frame |>).
    destruct (unsent_queued frame s1 s2 Hp1 Ho1 eq_refl) as [Hu Hle]. split; [done|]. by rewrite Hu.
Qed.

(** One call.  A frame of no bytes is excluded: were the system to answer [WouldBlock] to a write of
    nothing, the call would forget that it has sent the length. *)
Lemma write_frame_exact frame s r s' :
  write_ok s → frame ≠ [] → small frame → try_write_frame frame s = (r, s') → write_result s (to_write frame s) r s'.
Proof.
  intros Hok Hne Hsmall. unfold try_write_frame, queue_write, to_write, mbind, stm_bind, stm_get, stm_lift, stm_try, stm_modify, mret, stm_ret, stm_fail.
  destruct (pending_write s) as [|b p] eqn:Hp.
  2:{ intros Hf. assert (unsent s ≠ []) as Hu by (destruct Hok as [[? _]|?]; congruence).
      apply flush_pending_write_spec in Hf; [done|]. destruct (decide (pending_write_offset s ≤ length (pending_write s))%nat); [done|].
      destruct Hu. unfold unsent. apply drop_ge. lia. }
  assert (pending_write_offset s = 0%nat) as Ho.
  { destruct Hok as [[_ ?]|Hu]; [done|]. destruct Hu. unfold unsent. by rewrite Hp, drop_nil. }
  assert (zlen frame <= u32_max) as Hu32 by (unfold small, MAX_ETHERNET_FRAME_BYTES, u32_max in *; lia).
  unfold checked_outgoing_frame_len. rewrite (proj2 (Z.ltb_ge _ _) Hu32), (proj2 (Z.ltb_ge _ _) Hsmall).
  destruct (socket_write (be_bytes 4 (zlen frame)) s) as [answer s1] eqn:Hw.
  apply socket_write_spec in Hw as (Hp1 & Ho1 & Hw). rewrite Hp in Hp1. rewrite Ho in Ho1.
  destruct answer as [n|e| |]; [| |done|done].
  - destruct Hw as [Hw Hn]. destruct (Nat.eqb_spec n FRAME_LENGTH_BYTES) as [->|Hlt].
    + intros Hpay. apply write_payload_spec in Hpay; [|done..]. unfold FRAME_LENGTH_BYTES in Hw.
      rewrite take_ge in Hw by (by rewrite length_be_bytes). by apply (write_result_trans s s1).
    + set (s2 := s1 <| pending_write ::= λ p, p ++ drop n (be_bytes 4 (zlen frame)) ++ frame |>).
      destruct (unsent_queued (drop n (be_bytes 4 (zlen frame)) ++ frame) s1 s2 Hp1 Ho1 eq_refl) as [Hu Hle].
      intros Hflush. apply flush_pending_write_spec in Hflush; [|done]. rewrite Hu in Hflush.
      unfold frame_bytes. rewrite <-(take_drop n (be_bytes 4 (zlen frame))), <-app_assoc. by apply (write_result_trans s s2).
  - destruct e; intros [= <- <-]; exists []; [|split; [done|by exists (frame_bytes frame)]..].
    set (s2 := s1 <| pending_write ::= λ p, p ++ be_bytes 4 (zlen frame) ++ frame |>).
    destruct (unsent_queued (be_bytes 4 (zlen frame) ++ frame) s1 s2 Hp1 Ho1 eq_refl) as [Hu Hle].
    split; [done|]. change (frame_bytes frame = [] ++ unsent s2 ∧ unsent s2 ≠ []). rewrite Hu. split; [done|].
    destruct frame; [done|]. by destruct (be_bytes _ _).
Qed.

(** The calls of a writer that hands the same frame over again after [Blocked]: the frames that were
    flushed, and the one in progress *)
Inductive writing (s : FrameStream) : list bytes → option bytes → FrameStream → Prop :=
| writing_start : writing s [] None s
| writing_flush fs p f s1 s2 :
    writing s fs p s1 → (p = None ∨ p = Some f) → f ≠ [] → small f →
    try_write_frame f s1 = (Ret Flushed, s2) → writing s (fs ++ [f]) None s2
| writing_block fs p f s1 s2 :
    writing s fs p s1 → (p = None ∨ p = Some f) → f ≠ [] → small f →
    try_write_frame f s1 = (Ret WriteBlocked, s2) → writing s fs (Some f) s2.

Definition in_progress (p : option bytes) : bytes := match p with Some f => frame_bytes f | None => [] end.

Definition write_state (s0 s : FrameStream) (fs : list bytes) (p : option bytes) : Prop :=
  match p with
  | None => sent (stream s) = sent (stream s0) ++ stream_of fs ∧ pending_write s = [] ∧ pending_write_offset s = 0%nat
  | Some f => small f ∧ unsent s ≠ [] ∧
      ∃ part, sent (stream s) = sent (stream s0) ++ stream_of fs ++ part ∧ frame_bytes f = part ++ unsent s
  end.

Lemma write_state_call s0 s fs p f r s' :
  write_state s0 s fs p → (p = None ∨ p = Some f) → f ≠ [] → small f → try_write_frame f s = (r, s') →
  ∃ c part, sent (stream s') = sent (stream s0) ++ stream_of fs ++ part ++ c ∧ frame_bytes f = part ++ to_write f s ∧
    match r with
    | Ret Flushed => c = to_write f s ∧ pending_write s' = [] ∧ pending_write_offset s' = 0%nat
    | Ret WriteBlocked => to_write f s = c ++ unsent s' ∧ unsent s' ≠ []
    | Fail (WriteError _) => ∃ lost, to_write f s = c ++ lost
    | _ => False
    end.
Proof.
  intros Hstate Hp Hne Hf Hcall. apply write_frame_exact in Hcall as (c & (Hs & _) & Hr); [|..|done|done].
  - exists c. destruct p as [g|].
    + destruct Hp as [|[= ->]]; [done|]. destruct Hstate as (_ & Hu & part & Hsent & Hpart). exists part.
      rewrite Hs, Hsent, <-!app_assoc. split; [done|]. split; [|done]. rewrite Hpart. f_equal. unfold to_write.
      destruct (pending_write s) eqn:Hpend; [destruct Hu; unfold unsent; by rewrite Hpend, drop_nil|done].
    + destruct Hstate as (Hsent & Hnil & _). exists []. rewrite Hs, Hsent, <-app_assoc. split; [done|]. split; [|done].
      unfold to_write. by rewrite Hnil.
  - destruct p as [g|]; [right; apply Hstate|left; by destruct Hstate].
Qed.

Lemma writing_exact s fs p s' :
  writing s fs p s' → pending_write s = [] → pending_write_offset s = 0%nat →
  write_state s s' fs p ∧ Forall small fs.
Proof.
  induction 1 as [|fs p f s1 s2 _ IH Hq Hne Hf Hrun|fs p f s1 s2 _ IH Hq Hne Hf Hrun]; intros Hp Ho.
  - split; [|constructor]. split; [by rewrite app_nil_r|done].
  - destruct (IH Hp Ho) as [Hst Hall]. eapply write_state_call in Hrun as (c & part & Hs & Hpart & -> & ? & ?); [|done..].
    split; [|apply Forall_app; by split; [|apply Forall_singleton]]. split; [|done].
    by rewrite stream_of_app, stream_of_one, Hs, Hpart.
  - destruct (IH Hp Ho) as [Hst Hall]. eapply write_state_call in Hrun as (c & part & Hs & Hpart & Hc & Hu); [|done..].
    split; [|done]. split; [done|]. split; [done|]. exists (part ++ c). split; [done|]. by rewrite Hpart, Hc, app_assoc.
Qed.

(** What has been sent of a frame in progress is no whole frame. *)
Lemma part_incomplete f part rest : small f → rest ≠ [] → frame_bytes f = part ++ rest → incomplete part.
Proof.
  intros Hf Hrest Heq. intros Hlen. pose proof (frame_length_value f [] Hf) as Hv. rewrite app_nil_r, Heq, take_app_le in Hv by done.
  rewrite Hv. apply (f_equal length) in Heq. unfold frame_bytes in Heq. rewrite !length_app, length_be_bytes in Heq.
  unfold zlen. destruct rest; [done|]. simpl in Heq. lia.
Qed.

Lemma sent_bytes socket s fs p :
  sent socket = [] → write_state (frame_stream_connect socket) s fs p → are_bytes (stream_of fs ++ in_progress p) →
  ∃ part, sent (stream s) = stream_of fs ++ part ∧ incomplete part ∧ are_bytes (stream_of fs ++ part).
Proof.
  intros Hsent Hst Hb. destruct p as [f|]; cbn [write_state frame_stream_connect stream] in Hst.
  - destruct Hst as (Hf & Hu & part & Hs & Hpart). exists part. rewrite Hs, Hsent. split; [done|].
    split; [by eapply part_incomplete|]. cbn [in_progress] in Hb. rewrite Hpart, app_assoc in Hb. by apply Forall_app in Hb as [? _].
  - destruct Hst as (Hs & _). exists []. rewrite Hs, Hsent, !app_nil_r. cbn [in_progress] in Hb. rewrite app_nil_r in Hb.
    split; [done|]. split; [unfold incomplete; simpl; lia|done].
Qed.

(** C14: The frames one end of the link handed over are the frames the other end gets, whole, in order
    and once each, however the socket cuts and delays the bytes and however often either end is told to
    wait: at any time the reader has a prefix of them, and all of them once it has taken every byte that
    was sent and found that there is no more. *)
Theorem frames_delivered (socket : Stream) sender fs p reader gs reader' :
  sent socket = [] → are_bytes (stream_of fs ++ in_progress p) →
  writing (frame_stream_connect socket) fs p sender →
  (** the socket delivers what was sent *)
  arriving reader = sent (stream sender) →
  reading (frame_stream_connect reader) gs reader' →
  gs `prefix_of` fs ∧
  (arriving (stream reader') = [] → incomplete (held reader') → gs = fs).
Proof.
  intros Hsent Hbytes Hwriting Harr Hreading. apply writing_exact in Hwriting as (Hout & Hfs); [|done..].
  destruct (sent_bytes _ _ _ _ Hsent Hout Hbytes) as (part & Hpart & Hinc & Hb).
  rewrite <-Harr in Hpart. apply reading_exact in Hreading as (Hok & Hgs & c & (Hc & _) & Hheld).
  2:{ split; simpl; [done|lia|done|]. unfold held. simpl. by rewrite Hpart. }
  change (held (frame_stream_connect reader)) with (@nil Z) in Hheld. rewrite app_nil_l in Hheld.
  change (stream (frame_stream_connect reader)) with reader in Hc. rewrite Hheld, Hpart, <-app_assoc in Hc.
  destruct (stream_of_prefix fs gs (held reader' ++ arriving (stream reader')) part) as (hs & -> & Hx); [done..|].
  split; [by exists hs|]. intros Hnone Hinc'. rewrite Hnone, app_nil_r in Hx.
  destruct hs as [|h hs]; [by rewrite app_nil_r|]. exfalso. apply Forall_app in Hfs as [_ [Hh _]%Forall_cons].
  apply (whole_frame_complete h (stream_of hs ++ part) Hh). unfold stream_of in Hx. rewrite bind_cons, <-app_assoc in Hx.
  fold (stream_of hs) in Hx. by rewrite <-Hx.
Qed.

(** A frame of three bytes over a socket that takes two bytes, blocks, and takes the rest *)
Definition example_socket : Stream :=
  {| reads := []; writes := [Accepts 2; WriteFails WouldBlock; Accepts 1; Accepts 9]; sent := [] |}.
Definition example_reader : Stream :=
  {| reads := [Arrived [0; 0; 0]; ReadFails WouldBlock; Arrived [3; 7]; Arrived [8; 9]]; writes := []; sent := [] |}.
Definition after {E A} (m : stm FrameStream E A) (s : FrameStream) : FrameStream := snd (m s).
Definition sender_blocked : FrameStream := Eval vm_compute in after (try_write_frame [7; 8; 9]) (frame_stream_connect example_socket).
Definition example_sender : FrameStream := Eval vm_compute in after (try_write_frame [7; 8; 9]) sender_blocked.
Definition reader_blocked : FrameStream := Eval vm_compute in after (try_read_frame_into []) (frame_stream_connect example_reader).
Definition reader_served : FrameStream := Eval vm_compute in after (try_read_frame_into []) reader_blocked.
Definition example_received : FrameStream := Eval vm_compute in after (try_read_frame_into []) reader_served.

Lemma frames_delivered_witness :
  sent (stream example_sender) = [0; 0; 0; 3; 7; 8; 9] ∧ [[7; 8; 9]] `prefix_of` [[7; 8; 9]].
Proof.
  split; [reflexivity|].
  apply (frames_delivered example_socket example_sender [[7; 8; 9]] None example_reader [[7; 8; 9]] example_received).
  - reflexivity.
  - apply (bool_decide_unpack _). by vm_compute.
  - eapply (writing_flush _ [] (Some [7; 8; 9]) [7; 8; 9] sender_blocked); [|by right|done|by vm_compute|vm_compute; reflexivity].
    eapply (writing_block _ [] None [7; 8; 9]); [constructor|by left|done|by vm_compute|vm_compute; reflexivity].
  - reflexivity.
  - eapply (reading_wait _ [[7; 8; 9]] reader_served [] ReadBlocked []); [|done|vm_compute; reflexivity].
    eapply (reading_frame _ [] reader_blocked []); [|vm_compute; reflexivity].
    eapply (reading_wait _ [] _ [] ReadBlocked []); [constructor|done|vm_compute; reflexivity].
Defined.
