(* ===== verification/IoSlot.v ===== *)
(** * Readiness of a registered socket
      (src/libs/agentdp-network/src/readiness.rs and the slots of reactor/registered.rs)

    The reactor reports that a socket has become readable or writable once
    (edge-triggered); the report is latched in the slot of the socket until an
    attempt finds that it would block.  Whoever asks the slot must neither miss
    readiness that is there nor spin on readiness that is not. *)
From S2P Require Import Prelude Fields.
Local Open Scope Z_scope.

Inductive ReactorInterest := Disabled | Readable | Writable | ReadWrite.
#[export] Instance ReactorInterest_eq_dec : EqDecision ReactorInterest.
Proof. solve_decision. Defined.

Definition interest_reads (i : ReactorInterest) : bool := match i with Readable | ReadWrite => true | _ => false end.
Definition interest_writes (i : ReactorInterest) : bool := match i with Writable | ReadWrite => true | _ => false end.

(** [IoReadiness], a [u8] *)
Definition READ : Z := Z.shiftl 1 0.
Definition WRITE : Z := Z.shiftl 1 1.
Definition readable (r : Z) : bool := negb (Z.land r READ =? 0).
Definition writable (r : Z) : bool := negb (Z.land r WRITE =? 0).
Definition mark (readable writable : bool) (r : Z) : Z :=
  let r := if readable then Z.lor r READ else r in
  if writable then Z.lor r WRITE else r.
Definition not_u8 (b : Z) : Z := Z.lxor b 255.
Definition clear_read (r : Z) : Z := Z.land r (not_u8 READ).
Definition clear_write (r : Z) : Z := Z.land r (not_u8 WRITE).

Record IoSlotState := {
  readiness : Z;
  registered_interest : ReactorInterest;
  read_probe : bool;
  write_probe : bool;
}.
#[export] Instance IoSlotState_eta : Eta IoSlotState := λ s,
  {| readiness := readiness s; registered_interest := registered_interest s; read_probe := read_probe s; write_probe := write_probe s |}.

Definition slot_new (interest : ReactorInterest) : IoSlotState :=
  {| readiness := 0; registered_interest := interest; read_probe := false; write_probe := false |}.
Definition registered (interest : ReactorInterest) : IoSlotState :=
  {| readiness := 0; registered_interest := interest; read_probe := false; write_probe := interest_writes interest |}.
Definition registered_with_read_probe (interest : ReactorInterest) : IoSlotState :=
  {| readiness := 0; registered_interest := interest; read_probe := interest_reads interest; write_probe := interest_writes interest |}.

Definition watches_write (s : IoSlotState) : bool := interest_writes (registered_interest s).
Definition watches_read (s : IoSlotState) : bool := interest_reads (registered_interest s).
Definition can_read (s : IoSlotState) : bool :=
  interest_reads (registered_interest s) && (readable (readiness s) || read_probe s).
Definition can_write (s : IoSlotState) : bool :=
  interest_writes (registered_interest s) && (writable (readiness s) || write_probe s).

Definition mark_reactor_ready (r w : bool) (s : IoSlotState) : IoSlotState := s <| readiness ::= mark r w |>.
Definition clear_read_after_would_block (s : IoSlotState) : IoSlotState :=
  s <| readiness ::= clear_read |> <| read_probe := false |>.
Definition clear_write_after_would_block (s : IoSlotState) : IoSlotState :=
  s <| readiness ::= clear_write |> <| write_probe := false |>.
Definition clear_for_drop_or_reset (s : IoSlotState) : IoSlotState :=
  {| readiness := 0; registered_interest := Disabled; read_probe := false; write_probe := false |}.

Definition set_registered_interest_after_reregister (interest : ReactorInterest) (s : IoSlotState) : IoSlotState :=
  let previous_readable := interest_reads (registered_interest s) in
  let next_readable := interest_reads interest in
  let previous_writable := interest_writes (registered_interest s) in
  let next_writable := interest_writes interest in
  let s := s <| registered_interest := interest |> in
  let s := if negb next_readable then s <| read_probe := false |>
           else if negb previous_readable then s <| read_probe := true |> else s in
  if negb next_writable then s <| write_probe := false |>
  else if negb previous_writable then s <| write_probe := true |> else s.

(** [RegisteredTcpStream::reregister] and [RegisteredUdpSocket::reregister], with the answer of the reactor *)
Definition reregister {E} (reactor : outcome E unit) (interest : ReactorInterest) : stm IoSlotState E unit :=
  s ← stm_get;
  if bool_decide (interest = registered_interest s) then mret tt
  else stm_lift reactor;; stm_modify (set_registered_interest_after_reregister interest).

(** [RegisteredGuestSource::enable_write] and [disable_write] *)
Definition enable_write {E} (reactor : outcome E unit) : stm IoSlotState E unit :=
  s ← stm_get;
  if bool_decide (registered_interest s = ReadWrite) then mret tt
  else stm_lift reactor;; stm_modify (set_registered_interest_after_reregister ReadWrite).
Definition disable_write {E} (reactor : outcome E unit) : stm IoSlotState E unit :=
  s ← stm_get;
  if bool_decide (registered_interest s = Readable) then mret tt
  else stm_lift reactor;; stm_modify (set_registered_interest_after_reregister Readable).

(** ** The slot between its owner and the system

    [ready] is what an attempt would find, in each direction; [event] is a
    report the system has queued and the reactor has not yet delivered. *)
Record Side := { ready : bool; event : bool }.
Record World := { slot : IoSlotState; reading : Side; writing : Side }.

(** Which half of the slot a side goes with *)
Definition watched (d : bool) (i : ReactorInterest) : bool := if d then interest_reads i else interest_writes i.
Definition can (d : bool) (s : IoSlotState) : bool := if d then can_read s else can_write s.
Definition side (d : bool) (w : World) : Side := if d then reading w else writing w.
Definition set_side (d : bool) (x : Side) (w : World) : World :=
  if d then {| slot := slot w; reading := x; writing := writing w |}
  else {| slot := slot w; reading := reading w; writing := x |}.
Definition set_slot (s : IoSlotState) (w : World) : World := {| slot := s; reading := reading w; writing := writing w |}.
Definition clear_after_would_block (d : bool) (s : IoSlotState) : IoSlotState :=
  if d then clear_read_after_would_block s else clear_write_after_would_block s.

(** What the system may do to a side when the interest of the slot changes: it
    keeps the reports of a direction it goes on watching, and need not make one
    for readiness that was there before it began to watch. *)
Definition after_reregister (watched_before watched_now : bool) (x x' : Side) : Prop :=
  ready x' = ready x ∧ (watched_before = true → watched_now = true → event x = true → event x' = true).

Inductive world_step : World → World → Prop :=
| step_becomes_ready w d :
    (** data or room arrives; the system queues a report if it watches the direction *)
    world_step w (set_side d {| ready := true; event := event (side d w) || watched d (registered_interest (slot w)) |} w)
| step_poll w :
    (** the reactor delivers what is queued *)
    world_step w {| slot := mark_reactor_ready (event (reading w)) (event (writing w)) (slot w);
                    reading := {| ready := ready (reading w); event := false |};
                    writing := {| ready := ready (writing w); event := false |} |}
| step_attempt_succeeds w d still :
    (** a read or write that succeeds, after which there may be more or not *)
    can d (slot w) = true → ready (side d w) = true →
    world_step w (set_side d {| ready := still; event := event (side d w) |} w)
| step_attempt_would_block w d :
    can d (slot w) = true → ready (side d w) = false →
    world_step w (set_slot (clear_after_would_block d (slot w)) w)
| step_reregister w (reactor : outcome unit unit) interest s reading' writing' :
    reregister reactor interest (slot w) = (Ret tt, s) →
    after_reregister (watches_read (slot w)) (watches_read s) (reading w) reading' →
    after_reregister (watches_write (slot w)) (watches_write s) (writing w) writing' →
    world_step w {| slot := s; reading := reading'; writing := writing' |}.

(** Registration: a slot without a read probe relies on the system to report what is readable then. *)
Inductive world_start : World → Prop :=
| start_registered interest rx wx :
    (interest_reads interest = true → ready rx = true → event rx = true) →
    world_start {| slot := registered interest; reading := rx; writing := wx |}
| start_read_probe interest rx wx :
    world_start {| slot := registered_with_read_probe interest; reading := rx; writing := wx |}.

(** ** The latch *)
Lemma land_bit x n : 0 <= n → negb (Z.land x (Z.shiftl 1 n) =? 0) = Z.testbit x n.
Proof.
  intros Hn. rewrite Z.shiftl_1_l.
  assert (Z.land x (2 ^ n) = if Z.testbit x n then 2 ^ n else 0) as ->.
  { apply Z.bits_inj'. intros i Hi. rewrite Z.land_spec, Z.pow2_bits_eqb by done.
    destruct (Z.eqb_spec n i) as [->|Hne].
    - destruct (Z.testbit x i); by rewrite ?Z.pow2_bits_true, ?Z.bits_0 by done.
    - rewrite andb_false_r. destruct (Z.testbit x n); [by rewrite Z.pow2_bits_false|by rewrite Z.bits_0]. }
  destruct (Z.testbit x n); [|done]. apply negb_true_iff, Z.eqb_neq. pose proof (Z.pow_pos_nonneg 2 n). lia.
Qed.

Lemma readable_bit x : readable x = Z.testbit x 0.
Proof. by apply (land_bit x 0). Qed.
Lemma writable_bit x : writable x = Z.testbit x 1.
Proof. by apply (land_bit x 1). Qed.

(** [readable] or [writable] *)
Definition latched (d : bool) (x : Z) : bool := if d then readable x else writable x.

Lemma latched_mark d r w x : latched d (mark r w x) = latched d x || (if d then r else w).
Proof.
  unfold latched, mark. destruct d; rewrite ?readable_bit, ?writable_bit; destruct r, w; rewrite ?Z.lor_spec;
    simpl; rewrite ?orb_false_r, ?orb_true_r; done.
Qed.

Lemma latched_clear d x :
  latched d (if d then clear_read x else clear_write x) = false ∧
  latched (negb d) (if d then clear_read x else clear_write x) = latched (negb d) x.
Proof.
  unfold latched, clear_read, clear_write. destruct d; simpl; rewrite ?readable_bit, ?writable_bit, !Z.land_spec;
    simpl; by rewrite andb_false_r, andb_true_r.
Qed.

Lemma can_unfold d s :
  can d s = watched d (registered_interest s) && (latched d (readiness s) || (if d then read_probe s else write_probe s)).
Proof. by destruct d. Qed.

(** ** Neither missed nor spun on *)
Definition noticed (d : bool) (w : World) : Prop :=
  watched d (registered_interest (slot w)) = true → ready (side d w) = true →
  can d (slot w) = true ∨ event (side d w) = true.

Lemma reregister_slot (reactor : outcome unit unit) interest s s' :
  reregister reactor interest s = (Ret tt, s') →
  s' = s ∨ s' = set_registered_interest_after_reregister interest s.
Proof.
  unfold reregister, mbind, stm_bind, stm_get, stm_lift, stm_modify, mret, stm_ret.
  case_bool_decide; [intros [= <-]; by left|]. destruct reactor; intros [=]; by right.
Qed.

(** A direction that was not watched before is probed; one that was keeps what is known of it. *)
Lemma can_after_reregister d interest s :
  watched d interest = true →
  can d (set_registered_interest_after_reregister interest s) =
    negb (watched d (registered_interest s)) || can d s.
Proof.
  destruct s as [r i rp wp]. unfold set_registered_interest_after_reregister.
  destruct d, interest; intros Hw; try discriminate Hw; destruct i; unfold can, can_read, can_write; simpl;
    rewrite ?orb_true_r, ?orb_false_r; done.
Qed.

Lemma interest_after_reregister interest s :
  registered_interest (set_registered_interest_after_reregister interest s) = interest.
Proof. unfold set_registered_interest_after_reregister. by destruct interest, (registered_interest s). Qed.

Lemma can_mark d r w s :
  can d (mark_reactor_ready r w s) = can d s || (watched d (registered_interest s) && (if d then r else w)).
Proof.
  rewrite !can_unfold. unfold mark_reactor_ready. simpl. rewrite latched_mark.
  destruct (watched d _); simpl; [|done]. destruct d, (latched _ _), r, w; simpl; rewrite ?orb_true_r, ?orb_false_r; done.
Qed.

Lemma can_clear d s :
  can d (clear_after_would_block d s) = false ∧ can (negb d) (clear_after_would_block d s) = can (negb d) s.
Proof.
  rewrite !can_unfold. destruct (latched_clear d (readiness s)) as [H1 H2].
  destruct d; simpl in *; rewrite H1, H2; simpl; rewrite ?andb_false_r; done.
Qed.

Lemma side_set_side d e x w : side d (set_side e x w) = if Bool.eqb d e then x else side d w.
Proof. by destruct d, e. Qed.
Lemma slot_set_side e x w : slot (set_side e x w) = slot w.
Proof. by destruct e. Qed.

Lemma noticed_step d w w' : world_step w w' → noticed d w → noticed d w'.
Proof.
  unfold noticed. destruct 1 as [w e|w|w e still Hcan Hready|w e Hcan Hready|w reactor interest s r' w' Hre Hr Hw]; intros IH.
  - rewrite slot_set_side, side_set_side. destruct (Bool.eqb_spec d e) as [->|]; [|done]. simpl. intros ->. rewrite orb_true_r. by right.
  - simpl. rewrite can_mark. intros Hi Hrdy. rewrite Hi. left.
    destruct (IH Hi) as [->|Hev]; [by destruct d|done|]. destruct d; simpl in *; by rewrite Hev, orb_true_r.
  - rewrite slot_set_side, side_set_side. destruct (Bool.eqb_spec d e) as [->|]; [|done]. simpl. by left.
  - assert (∀ s, side d (set_slot s w) = side d w) as Hside by (by destruct d). rewrite Hside. simpl.
    assert (registered_interest (clear_after_would_block e (slot w)) = registered_interest (slot w)) as -> by (by destruct e).
    intros Hi Hrdy. destruct (decide (d = e)) as [->|Hne]; [congruence|].
    assert (d = negb e) as -> by (by destruct d, e). rewrite (proj2 (can_clear e (slot w))). auto.
  - assert (side d {| slot := s; reading := r'; writing := w' |} = if d then r' else w') as -> by (by destruct d).
    assert (after_reregister (watched d (registered_interest (slot w))) (watched d (registered_interest s)) (side d w) (if d then r' else w'))
      as [Hrdy Hev] by (by destruct d).
    rewrite Hrdy. simpl. intros Hi Hr'. destruct (reregister_slot _ _ _ _ Hre) as [->| ->].
    + destruct (IH Hi Hr'); auto.
    + rewrite interest_after_reregister in Hi, Hev. rewrite can_after_reregister by done.
      destruct (watched d (registered_interest (slot w))); [simpl|by left]. destruct (IH eq_refl Hr'); auto.
Qed.

(** C15: However the system, the reactor and the owner of a slot interleave, readiness that is there is
    never lost: while a direction is watched and an attempt would succeed, the slot allows one or the
    reactor still has a report to deliver. *)
Theorem no_lost_wakeup w w' d :
  world_start w → rtc world_step w w' →
  watched d (registered_interest (slot w')) = true → ready (side d w') = true →
  can d (slot w') = true ∨ event (side d w') = true.
Proof.
  intros Hstart Hsteps. enough (noticed d w') by done. revert Hsteps. apply (rtc_ind_r (noticed d)).
  - unfold noticed. destruct Hstart as [interest rx wx Hrx|interest rx wx]; destruct d; simpl; intros Hi Hr; auto;
      left; unfold can_read, can_write; simpl; by rewrite Hi.
  - intros x y _ Hstep IH. by eapply noticed_step.
Qed.

(** Nor does the owner spin: after an attempt that would block, a slot allows another one only when a
    report is delivered or when the direction is watched anew. *)
Lemma woken_by d w w' :
  world_step w w' → can d (slot w) = false → can d (slot w') = true →
  (event (side d w) = true ∧ event (side d w') = false) ∨
  (watched d (registered_interest (slot w)) = false ∧ watched d (registered_interest (slot w')) = true).
Proof.
  destruct 1 as [w e|w|w e still Hcan Hready|w e Hcan Hready|w reactor interest s r' w' Hre Hr Hw]; intros Hno Hyes.
  - rewrite slot_set_side in Hyes. congruence.
  - left. simpl in Hyes. rewrite can_mark, Hno in Hyes. apply andb_true_iff in Hyes as [_ Hev]. by destruct d.
  - rewrite slot_set_side in Hyes. congruence.
  - simpl in Hyes. destruct (decide (d = e)) as [->|Hne]; [by rewrite (proj1 (can_clear e _)) in Hyes|].
    assert (d = negb e) as -> by (by destruct d, e). rewrite (proj2 (can_clear e _)) in Hyes. congruence.
  - right. simpl in *. destruct (reregister_slot _ _ _ _ Hre) as [->| ->]; [congruence|].
    rewrite interest_after_reregister. assert (watched d interest = true) as Hi.
    { rewrite can_unfold, interest_after_reregister in Hyes. by apply andb_true_iff in Hyes as [? _]. }
    rewrite can_after_reregister, Hno, orb_false_r in Hyes by done. split; [by apply negb_true_iff|done].
Qed.

Lemma blocked_attempt_clears d w :
  can d (slot (set_slot (clear_after_would_block d (slot w)) w)) = false.
Proof. apply can_clear. Qed.

(** Data arrives while reading is not watched; the report is lost, the probe finds the data. *)
Definition example_idle : World :=
  {| slot := registered Writable; reading := {| ready := false; event := false |}; writing := {| ready := false; event := false |} |}.
Definition example_arrived : World := set_side true {| ready := true; event := false |} example_idle.
Definition example_watched : World :=
  {| slot := snd (@reregister unit (Ret tt) ReadWrite (slot example_arrived));
     reading := reading example_arrived; writing := writing example_arrived |}.

Lemma no_lost_wakeup_witness :
  event (side true example_watched) = false ∧
  (can true (slot example_watched) = true ∨ event (side true example_watched) = true).
Proof.
  split; [reflexivity|]. apply (no_lost_wakeup example_idle).
  - apply start_registered. discriminate.
  - apply (rtc_l _ _ example_arrived); [exact (step_becomes_ready example_idle true)|].
    apply rtc_once. eapply (step_reregister _ (Ret tt) ReadWrite); [reflexivity|by split|by split].
  - reflexivity.
  - reflexivity.
Defined.
