(* ===== verification/Limits.v ===== *)
(** * The limits of an instance network (NetworkLimits in src/libs/agentdp-network/src/network.rs)

    Times are in milliseconds. *)
From S2P Require Import Prelude Text Format.
Local Open Scope Z_scope.

Record NetworkLimits := {
  command_inbox_capacity : nat;
  reactor_event_capacity : nat;
  component_output_batch_capacity : nat;
  component_event_batch_capacity : nat;
  frame_device_queue_capacity : nat;
  frame_buffer_capacity : nat;
  max_pooled_frame_capacity : nat;
  frame_buffer_pool_capacity : nat;
  small_byte_capacity : nat;
  medium_byte_capacity : nat;
  tcp_byte_capacity : nat;
  small_byte_pool_capacity : nat;
  medium_byte_pool_capacity : nat;
  tcp_byte_pool_capacity : nat;
  tcp_socket_buffer_capacity : nat;
  udp_datagram_buffer_capacity : nat;
  ingress_udp_datagram_buffer_capacity : nat;
  client_hello_limit : nat;
  tls_relay_buffer_capacity : nat;
  transport_connect_retry_delay : Z;
  status_publish_interval : Z;
  idle_poll_delay : Z;
  udp_proxy_timeout : Z;
  drive_event_budget : nat;
  drive_step_budget : nat;
  drive_byte_budget : nat;
  tcp_proxy_limit : nat;
  ingress_tcp_connection_limit : nat;
  ingress_udp_peer_limit : nat;
  udp_proxy_limit : nat;
  timer_queue_capacity : nat;
  telemetry_event_capacity : nat;
}.

(** The sizes of the default are powers of two; [Z.to_nat] keeps the large ones unevaluated. *)
Definition default_local : NetworkLimits := {|
  command_inbox_capacity := Z.to_nat 1024;
  reactor_event_capacity := 256;
  component_output_batch_capacity := 256;
  component_event_batch_capacity := 256;
  frame_device_queue_capacity := 512;
  frame_buffer_capacity := Z.to_nat 1514;
  max_pooled_frame_capacity := Z.to_nat 65535;
  frame_buffer_pool_capacity := 512;
  small_byte_capacity := Z.to_nat (2 * 1024);
  medium_byte_capacity := Z.to_nat (16 * 1024);
  tcp_byte_capacity := Z.to_nat (64 * 1024);
  small_byte_pool_capacity := Z.to_nat 1024;
  medium_byte_pool_capacity := 512;
  tcp_byte_pool_capacity := 512;
  tcp_socket_buffer_capacity := Z.to_nat (64 * 1024);
  udp_datagram_buffer_capacity := Z.to_nat 65536;
  ingress_udp_datagram_buffer_capacity := Z.to_nat 65536;
  client_hello_limit := Z.to_nat 16384;
  tls_relay_buffer_capacity := Z.to_nat 16384;
  transport_connect_retry_delay := 10;
  status_publish_interval := 10000;
  idle_poll_delay := 1000;
  udp_proxy_timeout := 30000;
  drive_event_budget := 256;
  drive_step_budget := Z.to_nat 8192;
  drive_byte_budget := Z.to_nat (64 * 1024 * 1024);
  tcp_proxy_limit := 512;
  ingress_tcp_connection_limit := 128;
  ingress_udp_peer_limit := 128;
  udp_proxy_limit := 128;
  timer_queue_capacity := Z.to_nat 1024;
  telemetry_event_capacity := 16;
|}.

(** The loop over the capacities a whole item of which must fit into the byte budget *)
Definition budget_fits (budget : nat) (name : str) (capacity : nat) : outcome str unit :=
  if (budget <? capacity)%nat
  then Fail (bytes_of "drive_byte_budget " ++ to_string (Z.of_nat budget) ++ bytes_of " must be at least " ++ name ++ bytes_of " " ++ to_string (Z.of_nat capacity))
  else Ret tt.

Definition validate_for_event_loop (l : NetworkLimits) : outcome str unit :=
  if (frame_buffer_pool_capacity l <? 3)%nat then
    Fail (bytes_of "frame_buffer_pool_capacity must be at least three so guest input and its gateway response retain progress capacity")
  else if (drive_event_budget l =? 0)%nat then Fail (bytes_of "drive_event_budget must be greater than zero")
  else if (drive_step_budget l =? 0)%nat then Fail (bytes_of "drive_step_budget must be greater than zero")
  else if (drive_byte_budget l =? 0)%nat then Fail (bytes_of "drive_byte_budget must be greater than zero")
  else
    budget_fits (drive_byte_budget l) (bytes_of "frame_buffer_capacity") (frame_buffer_capacity l);;
    budget_fits (drive_byte_budget l) (bytes_of "udp_datagram_buffer_capacity") (udp_datagram_buffer_capacity l);;
    budget_fits (drive_byte_budget l) (bytes_of "ingress_udp_datagram_buffer_capacity") (ingress_udp_datagram_buffer_capacity l);;
    Ret tt.

Record limits_ok (l : NetworkLimits) : Prop := {
  lo_frames : (3 ≤ frame_buffer_pool_capacity l)%nat;
  lo_events : (0 < drive_event_budget l)%nat;
  lo_steps : (0 < drive_step_budget l)%nat;
  lo_bytes : (0 < drive_byte_budget l)%nat;
  lo_frame : (frame_buffer_capacity l ≤ drive_byte_budget l)%nat;
  lo_udp : (udp_datagram_buffer_capacity l ≤ drive_byte_budget l)%nat;
  lo_ingress_udp : (ingress_udp_datagram_buffer_capacity l ≤ drive_byte_budget l)%nat;
}.

Lemma validate_for_event_loop_ok l : validate_for_event_loop l = Ret tt → limits_ok l.
Proof.
  unfold validate_for_event_loop, budget_fits, mbind, outcome_bind. intros H.
  repeat match type of H with context [if ?b then _ else _] => destruct b eqn:?; try discriminate H end.
  rewrite ?Nat.ltb_ge, ?Nat.eqb_neq in *. split; lia.
Qed.
