(* ===== verification/Buffers.v ===== *)
(** * Buffer pools and write queues
      (src/libs/agentdp-network/src/buffers/pool.rs and write_queue.rs)

    An instance network allocates its buffers once.  A buffer is taken out of a
    pool, filled, and goes back when it is dropped; what a pool cannot give is
    not allocated, the caller waits.  The model passes the pool explicitly and
    calls [recycle] where Rust drops a buffer.  The counters of the simulation
    are left out. *)
From S2P Require Import Prelude Fields Limits.
Local Open Scope nat_scope.

Definition GUEST_PROGRESS_FRAME_RESERVE : nat := 2.
Definition GATEWAY_RESPONSE_FRAME_RESERVE : nat := 1.

(** [Vec<u8>]: its bytes and its capacity *)
Record Vec := { vec_bytes : bytes; capacity : nat }.
#[export] Instance Vec_eta : Eta Vec := λ v, {| vec_bytes := vec_bytes v; capacity := capacity v |}.
Definition with_capacity (n : nat) : Vec := {| vec_bytes := []; capacity := n |}.
Definition vec_clear (v : Vec) : Vec := v <| vec_bytes := [] |>.

Inductive PoolKind := KindFrame | KindByte.
Record PoolExhausted := { kind : PoolKind; requested : nat }.

(** The last element of a [Vec] used as a stack is the head of the list. *)
Record ByteBuckets := { bucket_small : list Vec; bucket_medium : list Vec; bucket_tcp : list Vec }.
#[export] Instance ByteBuckets_eta : Eta ByteBuckets := λ b,
  {| bucket_small := bucket_small b; bucket_medium := bucket_medium b; bucket_tcp := bucket_tcp b |}.

Inductive ByteClass := Small | Medium | TcpClass | Oversized.
#[export] Instance ByteClass_eq_dec : EqDecision ByteClass.
Proof. solve_decision. Defined.

Record ByteBuf := { buf_bytes : Vec; class : ByteClass }.
#[export] Instance ByteBuf_eta : Eta ByteBuf := λ b, {| buf_bytes := buf_bytes b; class := class b |}.
Definition FrameBuf := Vec.

Record BufferPool := { frame_pool : list Vec; byte_pool : ByteBuckets }.
#[export] Instance BufferPool_eta : Eta BufferPool := λ p, {| frame_pool := frame_pool p; byte_pool := byte_pool p |}.

Definition pool_new : BufferPool :=
  {| frame_pool := []; byte_pool := {| bucket_small := []; bucket_medium := []; bucket_tcp := [] |} |}.

Section pool.
Context (limits : NetworkLimits).

(** ** Frames *)
Definition frame_try_take (capacity_ reserve : nat) : stm BufferPool PoolExhausted FrameBuf := λ p,
  let capacity_ := capacity_ `max` frame_buffer_capacity limits in
  let exhausted := {| kind := KindFrame; requested := capacity_ |} in
  if max_pooled_frame_capacity limits <? capacity_ then (Fail exhausted, p)
  else if length (frame_pool p) <=? reserve then (Fail exhausted, p)
  else match frame_pool p with
       | [] => (Fail exhausted, p)
       | v :: rest =>
         if capacity v <? capacity_ then (Fail exhausted, p)
         else (Ret v, p <| frame_pool := rest |>)
       end.

Definition frame_recycle (v : Vec) (p : BufferPool) : BufferPool :=
  if max_pooled_frame_capacity limits <? capacity v then p
  else
    let v := vec_clear v in
    if length (frame_pool p) <? frame_buffer_pool_capacity limits then p <| frame_pool ::= cons v |> else p.

(** [while frames.len() < count { frames.push(..) }] *)
Definition grow_to (count cap : nat) (l : list Vec) : list Vec :=
  replicate (count - length l) (with_capacity cap) ++ l.

Definition frame_prewarm (count cap : nat) (p : BufferPool) : BufferPool := p <| frame_pool ::= grow_to count cap |>.

Definition try_output_frame : stm BufferPool PoolExhausted FrameBuf :=
  frame_try_take (frame_buffer_capacity limits) GUEST_PROGRESS_FRAME_RESERVE.
Definition try_guest_frame : stm BufferPool PoolExhausted FrameBuf :=
  frame_try_take (frame_buffer_capacity limits) GATEWAY_RESPONSE_FRAME_RESERVE.
Definition try_output_frame_with_capacity (cap : nat) : stm BufferPool PoolExhausted FrameBuf :=
  frame_try_take cap GUEST_PROGRESS_FRAME_RESERVE.
Definition try_gateway_response_frame_with_capacity (cap : nat) : stm BufferPool PoolExhausted FrameBuf :=
  frame_try_take cap 0.

(** ** Bytes, in three sizes *)
Definition for_capacity (cap : nat) : ByteClass :=
  if cap <=? small_byte_capacity limits then Small
  else if cap <=? medium_byte_capacity limits then Medium
  else if cap <=? tcp_byte_capacity limits then TcpClass
  else Oversized.

Definition class_capacity (c : ByteClass) : nat :=
  match c with
  | Small => small_byte_capacity limits | Medium => medium_byte_capacity limits
  | TcpClass => tcp_byte_capacity limits | Oversized => 0
  end.
Definition max_pooled (c : ByteClass) : nat :=
  match c with
  | Small => small_byte_pool_capacity limits | Medium => medium_byte_pool_capacity limits
  | TcpClass => tcp_byte_pool_capacity limits | Oversized => 0
  end.
Definition can_pool (c : ByteClass) (cap : nat) : bool :=
  match c with
  | Small => cap <=? small_byte_capacity limits | Medium => cap <=? medium_byte_capacity limits
  | TcpClass => cap <=? tcp_byte_capacity limits | Oversized => false
  end.

(** [bucket_mut], as a getter and a setter; there is none for [Oversized]. *)
Definition bucket (c : ByteClass) (b : ByteBuckets) : option (list Vec) :=
  match c with
  | Small => Some (bucket_small b) | Medium => Some (bucket_medium b) | TcpClass => Some (bucket_tcp b)
  | Oversized => None
  end.
Definition set_bucket (c : ByteClass) (l : list Vec) (b : ByteBuckets) : ByteBuckets :=
  match c with
  | Small => b <| bucket_small := l |> | Medium => b <| bucket_medium := l |> | TcpClass => b <| bucket_tcp := l |>
  | Oversized => b
  end.
Definition bucket_mut {E} (c : ByteClass) (b : ByteBuckets) : outcome E (list Vec) :=
  match bucket c b with Some l => Ret l | None => Panic end.

Definition buckets_take (c : ByteClass) (b : ByteBuckets) : option Vec * ByteBuckets :=
  match bucket c b with
  | Some (v :: rest) => (Some v, set_bucket c rest b)
  | _ => (None, b)
  end.

Definition buckets_recycle {E} (c : ByteClass) (v : Vec) (b : ByteBuckets) : outcome E ByteBuckets :=
  l ← bucket_mut c b;
  Ret (if length l <? max_pooled c then set_bucket c (v :: l) b else b).

Definition buckets_prewarm (c : ByteClass) (count : nat) (b : ByteBuckets) : outcome unit ByteBuckets :=
  l ← bucket_mut c b;
  Ret (set_bucket c (grow_to count (class_capacity c) l) b).

Definition byte_try_take (cap : nat) : stm BufferPool PoolExhausted ByteBuf := λ p,
  let c := for_capacity cap in
  let exhausted := {| kind := KindByte; requested := cap |} in
  match buckets_take c (byte_pool p) with
  | (None, b) => (Fail exhausted, p <| byte_pool := b |>)
  | (Some v, b) =>
    if capacity v <? cap then
      match buckets_recycle c v b with
      | Ret b => (Fail exhausted, p <| byte_pool := b |>)
      | Fail e => (Fail e, p) | Panic => (Panic, p) | Timeout => (Timeout, p)
      end
    else (Ret {| buf_bytes := v; class := c |}, p <| byte_pool := b |>)
  end.

(** [Drop for ByteBuf] *)
Definition byte_recycle {E} (buf : ByteBuf) (p : BufferPool) : outcome E BufferPool :=
  let v := if can_pool (class buf) (capacity (buf_bytes buf)) then vec_clear (buf_bytes buf)
           else with_capacity (class_capacity (class buf)) in
  b ← buckets_recycle (class buf) v (byte_pool p);
  Ret (p <| byte_pool := b |>).

Definition try_byte_with_capacity (cap : nat) : stm BufferPool PoolExhausted ByteBuf := byte_try_take cap.
Definition try_tcp_byte : stm BufferPool PoolExhausted ByteBuf := byte_try_take (tcp_byte_capacity limits).

Definition prewarm_instance_network (p : BufferPool) : outcome unit BufferPool :=
  let p := frame_prewarm (frame_buffer_pool_capacity limits) (max_pooled_frame_capacity limits) p in
  b ← buckets_prewarm Small (small_byte_pool_capacity limits) (byte_pool p);
  b ← buckets_prewarm Medium (medium_byte_pool_capacity limits) b;
  b ← buckets_prewarm TcpClass (tcp_byte_pool_capacity limits) b;
  Ret (p <| byte_pool := b |>).
End pool.

(** The bytes of a buffer *)
Definition as_slice (b : ByteBuf) : bytes := vec_bytes (buf_bytes b).
Definition buf_len (b : ByteBuf) : nat := length (as_slice b).
(** [extend_from_slice], [resize], [truncate]; [grown] is the capacity the allocator gives a vector that
    must grow *)
Definition vec_put (grown : nat → nat → nat) (bs : bytes) (v : Vec) : Vec :=
  {| vec_bytes := bs; capacity := if length bs <=? capacity v then capacity v else grown (capacity v) (length bs) |}.
Definition set_bytes (grown : nat → nat → nat) (bs : bytes) (b : ByteBuf) : ByteBuf := b <| buf_bytes ::= vec_put grown bs |>.

(** ** Who holds the frames

    A frame is taken for guest-bound output, for a frame read from the guest, or
    for the gateway's response to one. *)
Inductive purpose := ForOutput | ForGuest | ForResponse.
#[export] Instance purpose_eq_dec : EqDecision purpose.
Proof. solve_decision. Defined.

Record FrameWorld := { fw_pool : BufferPool; fw_out : list (purpose * Vec) }.

Section frame_world.
Context (limits : NetworkLimits).

Inductive frame_step : FrameWorld → FrameWorld → Prop :=
| take_output w cap v p :
    try_output_frame_with_capacity limits cap (fw_pool w) = (Ret v, p) →
    frame_step w {| fw_pool := p; fw_out := (ForOutput, v) :: fw_out w |}
| take_guest w v p :
    try_guest_frame limits (fw_pool w) = (Ret v, p) →
    frame_step w {| fw_pool := p; fw_out := (ForGuest, v) :: fw_out w |}
| take_response w cap v p :
    try_gateway_response_frame_with_capacity limits cap (fw_pool w) = (Ret v, p) →
    frame_step w {| fw_pool := p; fw_out := (ForResponse, v) :: fw_out w |}
| use_frame w h v bs rest :
    (** a holder writes no more than the frame has room for *)
    fw_out w ≡ₚ (h, v) :: rest → length bs ≤ capacity v →
    frame_step w {| fw_pool := fw_pool w; fw_out := (h, v <| vec_bytes := bs |>) :: rest |}
| drop_frame w h v rest :
    fw_out w ≡ₚ (h, v) :: rest →
    frame_step w {| fw_pool := frame_recycle limits v (fw_pool w); fw_out := rest |}.

Definition frame_start : FrameWorld :=
  {| fw_pool := frame_prewarm (frame_buffer_pool_capacity limits) (max_pooled_frame_capacity limits) pool_new; fw_out := [] |}.

Definition held_for (h : purpose) (w : FrameWorld) : nat := length (filter (λ x, x.1 = h) (fw_out w)).

Record frames_ok (w : FrameWorld) : Prop := {
  fo_pooled : Forall (λ v, capacity v = max_pooled_frame_capacity limits) (frame_pool (fw_pool w));
  fo_out : Forall (λ x, capacity x.2 = max_pooled_frame_capacity limits) (fw_out w);
  fo_total : length (frame_pool (fw_pool w)) + length (fw_out w) = frame_buffer_pool_capacity limits;
  fo_output : held_for ForOutput w + 2 ≤ frame_buffer_pool_capacity limits;
  fo_guest : held_for ForOutput w + held_for ForGuest w + 1 ≤ frame_buffer_pool_capacity limits;
}.

Lemma frame_try_take_spec cap reserve p v p' :
  frame_try_take limits cap reserve p = (Ret v, p') →
  frame_pool p = v :: frame_pool p' ∧ byte_pool p' = byte_pool p ∧ reserve < length (frame_pool p).
Proof.
  unfold frame_try_take. destruct (_ <? _); [done|]. destruct (Nat.leb_spec (length (frame_pool p)) reserve); [done|].
  destruct (frame_pool p) as [|u rest]; [done|]. destruct (_ <? _); [done|]. intros [= <- <-]. done.
Qed.

Lemma frame_try_take_ok cap reserve p :
  cap ≤ max_pooled_frame_capacity limits → frame_buffer_capacity limits ≤ max_pooled_frame_capacity limits →
  Forall (λ v, capacity v = max_pooled_frame_capacity limits) (frame_pool p) → reserve < length (frame_pool p) →
  ∃ v p', frame_try_take limits cap reserve p = (Ret v, p').
Proof.
  intros Hcap Hbuf Hall Hlen. unfold frame_try_take.
  rewrite (proj2 (Nat.ltb_ge _ _)) by lia. rewrite (proj2 (Nat.leb_gt _ _)) by lia.
  destruct Hall as [|u rest Hu _]; [simpl in Hlen; lia|]. rewrite (proj2 (Nat.ltb_ge _ _)) by lia. eauto.
Qed.

Lemma held_for_cons h k v p out :
  held_for h {| fw_pool := p; fw_out := (k, v) :: out |} = (if decide (k = h) then 1 else 0) + length (filter (λ x, x.1 = h) out).
Proof.
  unfold held_for. simpl. destruct (decide (k = h)) as [->|Hne].
  - by rewrite filter_cons_True.
  - by rewrite filter_cons_False.
Qed.

Lemma held_for_permutation h w p out : fw_out w ≡ₚ out → held_for h w = held_for h {| fw_pool := p; fw_out := out |}.
Proof. unfold held_for. simpl. by intros ->. Qed.

Lemma frames_ok_step w w' : frame_step w w' → frames_ok w → frames_ok w'.
Proof.
  assert (Htake : ∀ w h v p, frame_pool (fw_pool w) = v :: frame_pool p → frames_ok w →
    (h = ForOutput → 3 ≤ length (frame_pool (fw_pool w))) → (h = ForGuest → 2 ≤ length (frame_pool (fw_pool w))) →
    frames_ok {| fw_pool := p; fw_out := (h, v) :: fw_out w |}).
  { intros [p0 out] h v p Hpool [H1 H2 H3 H4 H5] Ho Hg. cbn [fw_pool fw_out] in *. rewrite Hpool in *.
    apply Forall_cons in H1 as [Hv H1]. simpl in H3, Ho, Hg.
    pose proof (length_filter (λ x : purpose * Vec, x.1 = ForOutput) out) as Hfo.
    assert (held_for ForOutput {| fw_pool := p0; fw_out := out |} + held_for ForGuest {| fw_pool := p0; fw_out := out |} ≤ length out) as Hsum.
    { unfold held_for. simpl. clear. induction out as [|[h v] out IH]; [done|].
      rewrite !filter_cons. destruct h; repeat case_decide; simpl in *; try done; lia. }
    unfold held_for in Hsum, H4, H5. simpl in Hsum, H4, H5.
    split; simpl; [done|by constructor|lia| |]; rewrite !held_for_cons; destruct h; repeat case_decide; try done;
      try (specialize (Ho eq_refl)); try (specialize (Hg eq_refl)); lia. }
  destruct 1 as [w cap v p Ht|w v p Ht|w cap v p Ht|w h v bs rest Hout Hlen|w h v rest Hout]; intros Hok.
  - apply frame_try_take_spec in Ht as (Hp & _ & Hr). by apply Htake.
  - apply frame_try_take_spec in Ht as (Hp & _ & Hr). by apply Htake.
  - apply frame_try_take_spec in Ht as (Hp & _ & Hr). by apply Htake.
  - destruct Hok as [H1 H2 H3 H4 H5]. rewrite Hout in H2, H3. apply Forall_cons in H2 as [Hv H2]. simpl in H3.
    rewrite (held_for_permutation _ w (fw_pool w) _ Hout), held_for_cons in H4, H5.
    rewrite (held_for_permutation ForGuest w (fw_pool w) _ Hout), held_for_cons in H5.
    split; simpl; [done|by constructor|done|by rewrite held_for_cons|by rewrite !held_for_cons].
  - destruct Hok as [H1 H2 H3 H4 H5]. rewrite Hout in H2, H3. apply Forall_cons in H2 as [Hv H2]. simpl in H3, Hv.
    rewrite (held_for_permutation _ w (fw_pool w) _ Hout), held_for_cons in H4, H5.
    rewrite (held_for_permutation ForGuest w (fw_pool w) _ Hout), held_for_cons in H5.
    unfold frame_recycle. rewrite (proj2 (Nat.ltb_ge _ _)) by lia. rewrite (proj2 (Nat.ltb_lt _ _)) by lia.
    split; simpl; [by constructor|done|lia|unfold held_for; simpl; lia|unfold held_for; simpl; lia].
Qed.
End frame_world.

Section progress.
Context (limits : NetworkLimits) (Hlimits : validate_for_event_loop limits = Ret tt)
  (Hbuf : frame_buffer_capacity limits ≤ max_pooled_frame_capacity limits).

Lemma frames_ok_start : frames_ok limits (frame_start limits).
Proof.
  apply validate_for_event_loop_ok in Hlimits as [Hn _ _ _ _ _ _]. unfold frame_start, frame_prewarm, grow_to, pool_new.
  split; simpl; rewrite ?app_nil_r, ?Nat.sub_0_r, ?length_replicate.
  - by apply Forall_replicate.
  - constructor.
  - lia.
  - unfold held_for. simpl. lia.
  - unfold held_for. simpl. lia.
Qed.

Lemma frames_ok_reachable w : rtc (frame_step limits) (frame_start limits) w → frames_ok limits w.
Proof.
  apply (rtc_ind_r (frames_ok limits)); [apply frames_ok_start|].
  intros w1 w2 _ Hstep Hok. by eapply frames_ok_step.
Qed.

Lemma held_for_sum w : held_for ForOutput w + held_for ForGuest w + held_for ForResponse w = length (fw_out w).
Proof.
  unfold held_for. induction (fw_out w) as [|[h v] out IH]; [done|].
  rewrite !filter_cons. destruct h; repeat case_decide; simpl in *; try done; lia.
Qed.

Lemma held_for_all h w : Forall (λ x, x.1 = h) (fw_out w) → held_for h w = length (fw_out w).
Proof.
  unfold held_for. induction 1 as [|x l Hx _ IH]; [done|]. rewrite filter_cons_True by done. simpl. by rewrite IH.
Qed.

Lemma held_for_none h w : Forall (λ x, x.1 ≠ h) (fw_out w) → held_for h w = 0.
Proof. unfold held_for. induction 1 as [|x l Hx _ IH]; [done|]. by rewrite filter_cons_False. Qed.

(** A take gives a frame when more than [reserve] are not out, and changes nothing otherwise. *)
Definition granted (take : stm BufferPool PoolExhausted FrameBuf) (reserve cap : nat) (w : FrameWorld) : Prop :=
  if decide (length (fw_out w) + reserve < frame_buffer_pool_capacity limits) then ∃ v p, take (fw_pool w) = (Ret v, p)
  else take (fw_pool w) = (Fail {| kind := KindFrame; requested := cap `max` frame_buffer_capacity limits |}, fw_pool w).

Lemma frame_try_take_granted w cap reserve :
  frames_ok limits w → cap ≤ max_pooled_frame_capacity limits → granted (frame_try_take limits cap reserve) reserve cap w.
Proof.
  intros [H1 H2 H3 H4 H5] Hcap. unfold granted. case_decide as Hroom; [apply frame_try_take_ok; auto with lia|].
  unfold frame_try_take. rewrite (proj2 (Nat.ltb_ge _ _)) by lia. by rewrite (proj2 (Nat.leb_le _ _)) by lia.
Qed.

End progress.

(** The reserve serves one frame of the guest at a time: while the response to one waits to be written,
    the next cannot be read until a frame is given back, although the response goes to the guest too. *)
Definition three_frames : NetworkLimits := {|
  command_inbox_capacity := 1; reactor_event_capacity := 1; component_output_batch_capacity := 1;
  component_event_batch_capacity := 1; frame_device_queue_capacity := 4; frame_buffer_capacity := 8;
  max_pooled_frame_capacity := 16; frame_buffer_pool_capacity := 3; small_byte_capacity := 1; medium_byte_capacity := 2;
  tcp_byte_capacity := 4; small_byte_pool_capacity := 1; medium_byte_pool_capacity := 1; tcp_byte_pool_capacity := 1;
  tcp_socket_buffer_capacity := 1; udp_datagram_buffer_capacity := 1; ingress_udp_datagram_buffer_capacity := 1;
  client_hello_limit := 1; tls_relay_buffer_capacity := 1; transport_connect_retry_delay := 1; status_publish_interval := 1;
  idle_poll_delay := 1; udp_proxy_timeout := 1; drive_event_budget := 4; drive_step_budget := 4; drive_byte_budget := 64;
  tcp_proxy_limit := 1; ingress_tcp_connection_limit := 1; ingress_udp_peer_limit := 1; udp_proxy_limit := 1;
  timer_queue_capacity := 1; telemetry_event_capacity := 1 |}%Z.

Definition frame16 : Vec := with_capacity 16.
Definition pool_of (n : nat) : BufferPool := frame_prewarm n 16 pool_new.
Definition output_held : FrameWorld := {| fw_pool := pool_of 2; fw_out := [(ForOutput, frame16)] |}.
Definition response_held : FrameWorld := {| fw_pool := pool_of 1; fw_out := [(ForResponse, frame16); (ForOutput, frame16)] |}.

Lemma output_held_reachable : rtc (frame_step three_frames) (frame_start three_frames) output_held.
Proof. apply rtc_once, (take_output _ (frame_start three_frames) 8 frame16 (pool_of 2)). reflexivity. Qed.

Lemma response_uses_reserve :
  rtc (frame_step three_frames) (frame_start three_frames) response_held ∧
  try_guest_frame three_frames (fw_pool response_held) = (Fail {| kind := KindFrame; requested := 8 |}, fw_pool response_held).
Proof.
  split; [|reflexivity]. etrans; [apply output_held_reachable|].
  eapply rtc_l; [apply (take_guest _ output_held frame16 (pool_of 1)); reflexivity|].
  eapply rtc_l; [apply (take_response _ _ 8 frame16 (pool_of 0)); reflexivity|].
  apply rtc_once. refine (drop_frame three_frames {| fw_pool := pool_of 0; fw_out := [(ForResponse, frame16); (ForGuest, frame16); (ForOutput, frame16)] |}
    ForGuest frame16 [(ForResponse, frame16); (ForOutput, frame16)] _).
  apply perm_swap.
Qed.


(** ** The byte buffers *)
Record ByteWorld := { bw_pool : BufferPool; bw_out : list ByteBuf }.

Section byte_world.
Context (limits : NetworkLimits).

Inductive byte_step : ByteWorld → ByteWorld → Prop :=
| take_bytes w cap b p :
    byte_try_take limits cap (bw_pool w) = (Ret b, p) → byte_step w {| bw_pool := p; bw_out := b :: bw_out w |}
| use_bytes w b v rest :
    (** a holder may let the vector grow, and never shrinks it *)
    bw_out w ≡ₚ b :: rest → capacity (buf_bytes b) ≤ capacity v →
    byte_step w {| bw_pool := bw_pool w; bw_out := b <| buf_bytes := v |> :: rest |}
| drop_bytes w b rest p :
    bw_out w ≡ₚ b :: rest → @byte_recycle limits unit b (bw_pool w) = Ret p →
    byte_step w {| bw_pool := p; bw_out := rest |}.

Definition out_of (c : ByteClass) (l : list ByteBuf) : nat := length (filter (λ b, class b = c) l).

Definition class_ok (p : BufferPool) (out : list ByteBuf) (c : ByteClass) : Prop :=
  match bucket c (byte_pool p) with
  | Some l => length l + out_of c out = max_pooled limits c ∧ Forall (λ v, capacity v = class_capacity limits c) l
  | None => out_of c out = 0
  end.

Record bytes_ok (w : ByteWorld) : Prop := {
  bo_class : ∀ c, class_ok (bw_pool w) (bw_out w) c;
  bo_out : Forall (λ b, class_capacity limits (class b) ≤ capacity (buf_bytes b)) (bw_out w);
}.

Lemma bucket_set_bucket c c' l b :
  bucket c (set_bucket c' l b) = if decide (c = c') then (match bucket c b with Some _ => Some l | None => None end) else bucket c b.
Proof. by destruct c, c'. Qed.

Lemma out_of_cons c b l : out_of c (b :: l) = (if decide (class b = c) then 1 else 0) + out_of c l.
Proof.
  unfold out_of. destruct (decide (class b = c)); [by rewrite filter_cons_True|by rewrite filter_cons_False].
Qed.

Lemma out_of_permutation c l l' : l ≡ₚ l' → out_of c l = out_of c l'.
Proof. unfold out_of. by intros ->. Qed.

Lemma class_ok_permutation p l l' c : l ≡ₚ l' → class_ok p l c → class_ok p l' c.
Proof. intros Hp. unfold class_ok. by rewrite (out_of_permutation c _ _ Hp). Qed.

Lemma for_capacity_bound cap : for_capacity limits cap ≠ Oversized → cap ≤ class_capacity limits (for_capacity limits cap).
Proof.
  unfold for_capacity. destruct (Nat.leb_spec cap (small_byte_capacity limits)); [done|].
  destruct (Nat.leb_spec cap (medium_byte_capacity limits)); [done|].
  destruct (Nat.leb_spec cap (tcp_byte_capacity limits)); [done|]. by intros [].
Qed.

Lemma bucket_none c b : bucket c b = None → c = Oversized.
Proof. by destruct c. Qed.

(** With every buffer at its size, a take fails only when all buffers of the class are out. *)
Lemma byte_take_exact w cap :
  bytes_ok w →
  if decide (for_capacity limits cap ≠ Oversized ∧ out_of (for_capacity limits cap) (bw_out w) < max_pooled limits (for_capacity limits cap))
  then ∃ b p, byte_try_take limits cap (bw_pool w) = (Ret b, p) ∧ class b = for_capacity limits cap ∧
    cap ≤ capacity (buf_bytes b) ∧ bytes_ok {| bw_pool := p; bw_out := b :: bw_out w |}
  else byte_try_take limits cap (bw_pool w) = (Fail {| kind := KindByte; requested := cap |}, bw_pool w).
Proof.
  intros [Hclass Hout]. unfold byte_try_take, buckets_take. set (c := for_capacity limits cap).
  pose proof (Hclass c) as Hc. unfold class_ok in Hc.
  assert (∀ p : BufferPool, p <| byte_pool := byte_pool p |> = p) as Heta by (by intros []).
  destruct (bucket c (byte_pool (bw_pool w))) as [l|] eqn:Hb.
  2:{ rewrite decide_False by (intros [Hno _]; apply Hno; by apply (bucket_none _ (byte_pool (bw_pool w)))). by rewrite Heta. }
  destruct Hc as [Hlen Hcap]. destruct l as [|v l].
  { rewrite decide_False by (simpl in Hlen; lia). by rewrite Heta. }
  rewrite decide_True by (simpl in Hlen; split; [by intros Ho; rewrite Ho in Hb|lia]).
  apply Forall_cons in Hcap as [Hv Hcap]. assert (cap ≤ class_capacity limits c) as Hle.
  { apply for_capacity_bound. fold c. intros Ho. by rewrite Ho in Hb. }
  rewrite (proj2 (Nat.ltb_ge _ _)) by lia. eexists _, _. split; [done|]. split; [done|]. simpl. split; [lia|].
  split; simpl; [|constructor; [simpl; lia|done]].
  intros d. specialize (Hclass d). unfold class_ok in *. simpl. rewrite bucket_set_bucket, out_of_cons. simpl.
  destruct (decide (d = c)) as [->|Hne].
  - rewrite Hb, decide_True by done. simpl in Hlen. split; [lia|done].
  - rewrite decide_False by congruence. done.
Qed.

Lemma byte_recycle_ok w b rest :
  bytes_ok w → bw_out w ≡ₚ b :: rest →
  ∃ p, @byte_recycle limits unit b (bw_pool w) = Ret p ∧ bytes_ok {| bw_pool := p; bw_out := rest |}.
Proof.
  intros [Hclass Hout] Hperm. rewrite Hperm in Hout. apply Forall_cons in Hout as [Hb Hout].
  pose proof (class_ok_permutation _ _ _ (class b) Hperm (Hclass (class b))) as Hc. unfold class_ok in Hc. rewrite out_of_cons, decide_True in Hc by done.
  unfold byte_recycle, buckets_recycle, bucket_mut, mbind, outcome_bind. destruct (bucket (class b) (byte_pool (bw_pool w))) as [l|] eqn:Hl; [|lia].
  destruct Hc as [Hlen Hcap]. rewrite (proj2 (Nat.ltb_lt _ _)) by lia. eexists. split; [done|].
  split; simpl; [|done]. intros d. pose proof (class_ok_permutation _ _ _ d Hperm (Hclass d)) as Hd. unfold class_ok in *. simpl.
  rewrite out_of_cons in Hd. rewrite bucket_set_bucket. destruct (decide (d = class b)) as [->|Hne].
  - rewrite Hl in *. rewrite decide_True in Hd by done. destruct Hd as [Hd _]. split; [simpl; lia|]. constructor; [|done].
    destruct (can_pool limits (class b) (capacity (buf_bytes b))) eqn:Hcan; [simpl|done].
    destruct (class b); simpl in *; try apply Nat.leb_le in Hcan; lia || done.
  - rewrite decide_False in Hd by congruence. done.
Qed.

Lemma bytes_ok_step w w' : byte_step w w' → bytes_ok w → bytes_ok w'.
Proof.
  destruct 1 as [w cap b p Ht|w b v rest Hperm Hgrow|w b rest p Hperm Hr]; intros Hok.
  - pose proof (byte_take_exact w cap Hok) as Hex. case_decide; [|congruence].
    destruct Hex as (b' & p' & Heq & _ & _ & Hok'). congruence.
  - destruct Hok as [Hclass Hout]. rewrite Hperm in Hout. apply Forall_cons in Hout as [Hb Hout]. split; simpl.
    + intros c. apply (class_ok_permutation _ _ _ c Hperm) in Hclass. unfold class_ok in *. by rewrite out_of_cons in *.
    + constructor; [simpl in *; lia|done].
  - destruct (byte_recycle_ok w b rest Hok Hperm) as (p' & Heq & Hok'). congruence.
Qed.

Definition byte_start (p : BufferPool) : ByteWorld := {| bw_pool := p; bw_out := [] |}.

Lemma bytes_ok_start p : prewarm_instance_network limits pool_new = Ret p → bytes_ok (byte_start p).
Proof.
  unfold prewarm_instance_network, buckets_prewarm, grow_to. simpl. intros [= <-]. split; simpl; [|constructor].
  intros c. unfold class_ok. destruct c; simpl; rewrite ?app_nil_r, ?Nat.sub_0_r, ?length_replicate;
    (split; [unfold out_of; simpl; lia|]) || done; by apply Forall_replicate.
Qed.

Lemma bytes_ok_reachable p w : prewarm_instance_network limits pool_new = Ret p → rtc byte_step (byte_start p) w → bytes_ok w.
Proof.
  intros Hp. apply (rtc_ind_r bytes_ok); [by apply bytes_ok_start|]. intros w1 w2 _ Hstep Hok. by eapply bytes_ok_step.
Qed.

(** C18: The byte buffers are never lost nor shrunk, whatever their holders do with them: a request is
    granted, with room for it, exactly when it is of a size the pool has and a buffer of that size is not
    out; giving a buffer back never panics. *)
Theorem byte_pool_exact p w cap :
  prewarm_instance_network limits pool_new = Ret p → rtc byte_step (byte_start p) w →
  let c := for_capacity limits cap in
  (if decide (c ≠ Oversized ∧ out_of c (bw_out w) < max_pooled limits c)
   then ∃ b p', byte_try_take limits cap (bw_pool w) = (Ret b, p') ∧ class b = c ∧ cap ≤ capacity (buf_bytes b)
   else byte_try_take limits cap (bw_pool w) = (Fail {| kind := KindByte; requested := cap |}, bw_pool w)) ∧
  ∀ b rest, bw_out w ≡ₚ b :: rest → ∃ p', @byte_recycle limits unit b (bw_pool w) = Ret p'.
Proof.
  intros Hp Hrun%(bytes_ok_reachable p w Hp) c. split.
  - pose proof (byte_take_exact w cap Hrun) as Hex. fold c in Hex. case_decide; [|done].
    destruct Hex as (b & p' & H1 & H2 & H3 & _). by exists b, p'.
  - intros b rest Hperm. destruct (byte_recycle_ok w b rest Hrun Hperm) as (p' & Heq & _). by exists p'.
Qed.
End byte_world.

Lemma byte_pool_exact_witness :
  ∃ p, prewarm_instance_network three_frames pool_new = Ret p ∧
  (∃ b p', byte_try_take three_frames 2 p = (Ret b, p') ∧ class b = Medium ∧ 2 ≤ capacity (buf_bytes b)).
Proof.
  eexists. split; [reflexivity|].
  refine (proj1 (byte_pool_exact three_frames _ (byte_start _) 2 eq_refl (rtc_refl _ _))).
Defined.

(** ** Write queues *)
Record PendingWrite := { pw_bytes : ByteBuf; offset : nat }.
#[export] Instance PendingWrite_eta : Eta PendingWrite := λ w, {| pw_bytes := pw_bytes w; offset := offset w |}.
Record WriteQueue := { first : option PendingWrite; rest : list PendingWrite }.

Definition pending_is_empty (w : PendingWrite) : bool := buf_len (pw_bytes w) <=? offset w.
Definition remaining (w : PendingWrite) : option bytes :=
  if pending_is_empty w then None else Some (drop (offset w) (as_slice (pw_bytes w))).
Definition remaining_len (w : PendingWrite) : nat := buf_len (pw_bytes w) - offset w.

Definition queue_new : WriteQueue := {| first := None; rest := [] |}.

(** The buffer of an empty write is dropped: it is returned with the queue. *)
Definition queue_push (b : ByteBuf) (q : WriteQueue) : option ByteBuf * WriteQueue :=
  if buf_len b =? 0 then (Some b, q)
  else
    let write := {| pw_bytes := b; offset := 0 |} in
    (None, match first q with
           | None => {| first := Some write; rest := rest q |}
           | Some _ => {| first := first q; rest := rest q ++ [write] |}
           end).

Definition queue_push_front (write : PendingWrite) (q : WriteQueue) : option ByteBuf * WriteQueue :=
  if pending_is_empty write then (Some (pw_bytes write), q)
  else (None, match first q with
              | Some old => {| first := Some write; rest := old :: rest q |}
              | None => {| first := Some write; rest := rest q |}
              end).

(** [self.first = self.rest.pop_front()] *)
Definition next_first (q : WriteQueue) : WriteQueue :=
  match rest q with
  | [] => {| first := None; rest := [] |}
  | w :: rest => {| first := Some w; rest := rest |}
  end.

Definition queue_pop_front (q : WriteQueue) : option PendingWrite * WriteQueue :=
  match first q with
  | None => (None, q)
  | Some write => (Some write, next_first q)
  end.

Definition front_slice (q : WriteQueue) : option bytes := first q ≫= remaining.

(** The flag, and the buffer that was finished and dropped *)
Definition advance_front (len : nat) (q : WriteQueue) : bool * option ByteBuf * WriteQueue :=
  match first q with
  | None => (true, None, q)
  | Some write =>
    let write := write <| offset ::= λ o, o + len |> in
    if buf_len (pw_bytes write) <=? offset write then (true, Some (pw_bytes write), next_first q)
    else (false, None, {| first := Some write; rest := rest q |})
  end.

Definition queue_is_empty (q : WriteQueue) : bool := match first q with None => true | Some _ => false end.
Definition entries (q : WriteQueue) : list PendingWrite := option_list (first q) ++ rest q.
Definition pending_bytes (q : WriteQueue) : nat := sum_list (remaining_len <$> entries q).

(** [PendingWrite::into_remaining]: the copy goes into a new buffer and the old one is dropped *)
Definition into_remaining (limits : NetworkLimits) (grown : nat → nat → nat) (w : PendingWrite) : stm BufferPool PoolExhausted ByteBuf := λ p,
  if offset w =? 0 then (Ret (pw_bytes w), p)
  else
    let remaining := drop (offset w) (as_slice (pw_bytes w)) in
    match try_byte_with_capacity limits (length remaining) p with
    | (Ret b, p) =>
      match byte_recycle limits (pw_bytes w) p with
      | Ret p => (Ret (set_bytes grown remaining b), p)
      | Fail e => (Fail e, p) | Panic => (Panic, p) | Timeout => (Timeout, p)
      end
    | (Fail e, p) =>
      match byte_recycle limits (pw_bytes w) p with
      | Ret p => (Fail e, p)
      | Fail e => (Fail e, p) | Panic => (Panic, p) | Timeout => (Timeout, p)
      end
    | (Panic, p) => (Panic, p)
    | (Timeout, p) => (Timeout, p)
    end.

(** The queue is the stream of the bytes that remain. *)
Definition write_bytes (w : PendingWrite) : bytes := drop (offset w) (as_slice (pw_bytes w)).
Definition queue_bytes (q : WriteQueue) : bytes := entries q ≫= write_bytes.

Record queue_ok (q : WriteQueue) : Prop := {
  qo_entries : Forall (λ w, offset w < buf_len (pw_bytes w)) (entries q);
  qo_first : first q = None → rest q = [];
}.

Lemma queue_new_ok : queue_ok queue_new ∧ queue_bytes queue_new = [].
Proof. by split; [split; [constructor|]|]. Qed.

Lemma queue_push_ok b q d q' :
  queue_ok q → queue_push b q = (d, q') → queue_ok q' ∧ queue_bytes q' = queue_bytes q ++ as_slice b.
Proof.
  intros [Hent Hfirst]. unfold queue_push. destruct (Nat.eqb_spec (buf_len b) 0) as [Hz|Hz]; intros [= <- <-].
  { split; [done|]. unfold buf_len in Hz. apply nil_length_inv in Hz. by rewrite Hz, app_nil_r. }
  unfold queue_bytes, entries in *. destruct (first q) as [w|] eqn:Hw; simpl in *.
  - split; [|by rewrite bind_app, app_assoc; simpl; unfold write_bytes at 3; rewrite app_nil_r].
    split; simpl; [|done]. unfold entries. simpl. apply Forall_cons in Hent as [? ?]. constructor; [done|].
    apply Forall_app. split; [done|]. constructor; [simpl; lia|done].
  - rewrite (Hfirst eq_refl). simpl. rewrite app_nil_r. split; [|done]. split; simpl; [|done]. constructor; [simpl; lia|constructor].
Qed.

Lemma next_first_ok q : queue_ok q → queue_ok (next_first q) ∧ entries (next_first q) = rest q.
Proof.
  intros [Hent Hfirst]. unfold next_first, entries in *. destruct (rest q) as [|w l] eqn:Hr; simpl.
  - split; [|done]. split; [constructor|done].
  - split; [|done]. split; [|done]. simpl. by apply Forall_app in Hent as [_ ?].
Qed.

Lemma queue_pop_front_ok q w q' :
  queue_ok q → queue_pop_front q = (w, q') →
  queue_ok q' ∧ match w with
  | Some w => queue_bytes q = write_bytes w ++ queue_bytes q' ∧ offset w < buf_len (pw_bytes w)
  | None => q' = q ∧ queue_bytes q = []
  end.
Proof.
  intros Hok. unfold queue_pop_front. destruct (first q) as [x|] eqn:Hx; intros [= <- <-].
  - destruct (next_first_ok q Hok) as [Hok' He]. split; [done|]. destruct Hok as [Hent _]. unfold queue_bytes.
    rewrite He. unfold entries in *. rewrite Hx in *. simpl in *. by apply Forall_cons in Hent as [? _].
  - split; [done|]. split; [done|]. unfold queue_bytes, entries. by rewrite Hx, (qo_first _ Hok Hx).
Qed.

Lemma front_slice_ok q :
  queue_ok q →
  match front_slice q with
  | Some bs => bs ≠ [] ∧ ∃ more, queue_bytes q = bs ++ more
  | None => queue_bytes q = [] ∧ queue_is_empty q = true
  end.
Proof.
  intros [Hent Hfirst]. unfold front_slice, queue_bytes, queue_is_empty, entries in *. destruct (first q) as [w|] eqn:Hw; simpl in *.
  - apply Forall_cons in Hent as [Hlt _]. unfold remaining, pending_is_empty. rewrite (proj2 (Nat.leb_gt _ _)) by lia.
    split; [|by eexists]. intros Hnil%(f_equal length). rewrite length_drop in Hnil. unfold buf_len in Hlt. simpl in Hnil. lia.
  - by rewrite (Hfirst eq_refl).
Qed.

(** Advancing by no more than the front has removes exactly that many bytes. *)
Lemma advance_front_ok n q bs fl d q' :
  queue_ok q → front_slice q = Some bs → n ≤ length bs → advance_front n q = (fl, d, q') →
  queue_ok q' ∧ queue_bytes q = take n bs ++ queue_bytes q'.
Proof.
  intros Hok Hfront Hn. pose proof Hok as [Hent Hfirst]. unfold front_slice in Hfront. unfold advance_front.
  destruct (first q) as [w|] eqn:Hw; [|done]. simpl in Hfront. unfold remaining, pending_is_empty in Hfront.
  destruct (Nat.leb_spec (buf_len (pw_bytes w)) (offset w)); [done|]. injection Hfront as <-. rewrite length_drop in Hn.
  unfold entries in Hent. rewrite Hw in Hent. simpl in Hent. apply Forall_cons in Hent as [_ Hent].
  assert (queue_bytes q = write_bytes w ++ (rest q ≫= write_bytes)) as Hq by (unfold queue_bytes, entries; by rewrite Hw).
  simpl. unfold buf_len in *. destruct (Nat.leb_spec (length (as_slice (pw_bytes w))) (offset w + n)) as [Hdone|Hmore]; intros [= <- <- <-].
  - destruct (next_first_ok q Hok) as [Hok' He]. split; [done|]. rewrite Hq. unfold queue_bytes at 1. rewrite He. f_equal.
    unfold write_bytes. rewrite take_ge; [done|]. rewrite length_drop. lia.
  - split; [split; [|done]; unfold entries; simpl; constructor; [simpl; unfold buf_len; lia|done]|].
    rewrite Hq. unfold queue_bytes, entries, write_bytes at 3. simpl. rewrite <-drop_drop, app_assoc, take_drop. done.
Qed.

Lemma pending_bytes_ok q : queue_ok q → pending_bytes q = length (queue_bytes q).
Proof.
  intros _. unfold pending_bytes, queue_bytes. induction (entries q) as [|w l IH]; [done|].
  rewrite fmap_cons, bind_cons, length_app, <-IH. simpl. unfold remaining_len, write_bytes, buf_len. by rewrite length_drop.
Qed.
