(* ===== verification/Drive.v ===== *)
(** * Bounded turns of the network event loop (src/libs/agentdp-network/src/drive.rs)

    Every operation of the dataplane goes through a turn: it spends from a
    budget of events, steps and bytes, and records what changed, what is waited
    for and whether the budget stopped it.  The operations here take what they
    read and write explicitly: the slot of a socket, the pool, a queue, the
    socket itself. *)
From S2P Require Import Prelude Fields Io IoSlot Limits Buffers.
Local Open Scope nat_scope.

Record DriveProgress := {
  p_bytes_read : Z;
  p_bytes_written : Z;
  p_guest_bytes_enqueued : Z;
  p_guest_bytes_dequeued : Z;
  p_events_emitted : Z;
  p_state_changes : Z;
}.
#[export] Instance DriveProgress_eta : Eta DriveProgress := λ p,
  {| p_bytes_read := p_bytes_read p; p_bytes_written := p_bytes_written p; p_guest_bytes_enqueued := p_guest_bytes_enqueued p;
     p_guest_bytes_dequeued := p_guest_bytes_dequeued p; p_events_emitted := p_events_emitted p; p_state_changes := p_state_changes p |}.

Definition progress_new : DriveProgress :=
  {| p_bytes_read := 0; p_bytes_written := 0; p_guest_bytes_enqueued := 0; p_guest_bytes_dequeued := 0;
     p_events_emitted := 0; p_state_changes := 0 |}.

Definition progress_made (p : DriveProgress) : bool :=
  (0 <? p_bytes_read p)%Z || (0 <? p_bytes_written p)%Z || (0 <? p_guest_bytes_enqueued p)%Z ||
  (0 <? p_guest_bytes_dequeued p)%Z || (0 <? p_events_emitted p)%Z || (0 <? p_state_changes p)%Z.

(** [DriveWait], a [u16] *)
Definition NONE : Z := 0.
Definition REACTOR_READ : Z := Z.shiftl 1 0.
Definition REACTOR_WRITE : Z := Z.shiftl 1 1.
Definition REACTOR_READ_WRITE : Z := Z.lor REACTOR_READ REACTOR_WRITE.
Definition GUEST_RECV : Z := Z.shiftl 1 2.
Definition GUEST_SEND_CAPACITY : Z := Z.shiftl 1 3.
Definition LOCAL_BUFFER_CAPACITY : Z := Z.shiftl 1 4.
Definition CONNECTION_SLOT : Z := Z.shiftl 1 5.
Definition wait_contains (self wait : Z) : bool := negb (Z.land self wait =? 0)%Z.
Definition wait_merge (other self : Z) : Z := Z.lor self other.

Record DriveReport := {
  progress : DriveProgress;
  wait : Z;
  local_buffer_continuation : bool;
  budget_exhausted : bool;
}.
#[export] Instance DriveReport_eta : Eta DriveReport := λ r,
  {| progress := progress r; wait := wait r; local_buffer_continuation := local_buffer_continuation r; budget_exhausted := budget_exhausted r |}.
Definition report_new : DriveReport :=
  {| progress := progress_new; wait := NONE; local_buffer_continuation := false; budget_exhausted := false |}.
Definition blocked_on (w : Z) (r : DriveReport) : bool := wait_contains (wait r) w.
Definition made_progress (r : DriveReport) : bool := progress_made (progress r).

Record DriveBudget := { events : nat; steps : nat; budget_bytes : nat }.
#[export] Instance DriveBudget_eta : Eta DriveBudget := λ b,
  {| events := events b; steps := steps b; budget_bytes := budget_bytes b |}.

Definition budget_event_loop (l : NetworkLimits) : DriveBudget :=
  {| events := drive_event_budget l; steps := drive_step_budget l; budget_bytes := drive_byte_budget l |}.

Definition can_continue (b : DriveBudget) : bool := (0 <? events b) && (0 <? steps b) && (0 <? budget_bytes b).

(** [DriveTurn], which borrows both *)
Record DriveTurn := { budget : DriveBudget; report : DriveReport }.
#[export] Instance DriveTurn_eta : Eta DriveTurn := λ d, {| budget := budget d; report := report d |}.
Definition turn_start (l : NetworkLimits) : DriveTurn := {| budget := budget_event_loop l; report := report_new |}.

(** ** The report *)
Definition add_saturating (n : nat) (z : Z) : Z := saturating_add64 z (Z.of_nat n).
Definition bytes_read (n : nat) (d : DriveTurn) : DriveTurn := d <| report; progress; p_bytes_read ::= add_saturating n |>.
Definition bytes_written (n : nat) (d : DriveTurn) : DriveTurn := d <| report; progress; p_bytes_written ::= add_saturating n |>.
Definition guest_bytes_enqueued (n : nat) (d : DriveTurn) : DriveTurn := d <| report; progress; p_guest_bytes_enqueued ::= add_saturating n |>.
Definition guest_bytes_dequeued (n : nat) (d : DriveTurn) : DriveTurn := d <| report; progress; p_guest_bytes_dequeued ::= add_saturating n |>.
Definition event_emitted (d : DriveTurn) : DriveTurn := d <| report; progress; p_events_emitted ::= add_saturating 1 |>.
Definition state_changed (d : DriveTurn) : DriveTurn := d <| report; progress; p_state_changes ::= add_saturating 1 |>.
Definition mark_budget_exhausted (d : DriveTurn) : DriveTurn := d <| report; budget_exhausted := true |>.
Definition block_on (w : Z) (d : DriveTurn) : DriveTurn := d <| report; wait ::= wait_merge w |>.
Definition wait_for_local_buffer_capacity_with_continuation (d : DriveTurn) : DriveTurn :=
  (block_on LOCAL_BUFFER_CAPACITY d) <| report; local_buffer_continuation := true |>.
Definition remaining_bytes (d : DriveTurn) : nat := budget_bytes (budget d).
Definition exhausted (d : DriveTurn) : bool := budget_exhausted (report d).

(** ** The budget: each check answers, and marks the report where it refuses *)
Definition or_exhausted (ok : bool) (d d' : DriveTurn) : bool * DriveTurn :=
  if ok then (true, d') else (false, mark_budget_exhausted d).

Definition can_continue_or_exhausted (d : DriveTurn) : bool * DriveTurn := or_exhausted (can_continue (budget d)) d d.
Definition step_or_exhausted (d : DriveTurn) : bool * DriveTurn :=
  or_exhausted (can_continue (budget d)) d (d <| budget; steps ::= pred |>).
Definition event_step_or_exhausted (d : DriveTurn) : bool * DriveTurn :=
  or_exhausted ((0 <? events (budget d)) && (0 <? steps (budget d))) d (d <| budget; steps ::= pred |>).
Definition can_emit_event_or_exhausted (d : DriveTurn) : bool * DriveTurn :=
  or_exhausted ((0 <? events (budget d)) && (0 <? budget_bytes (budget d))) d d.
Definition event_or_exhausted (n : nat) (d : DriveTurn) : bool * DriveTurn :=
  or_exhausted (negb (events (budget d) =? 0) && negb (budget_bytes (budget d) =? 0)) d
    (d <| budget; events ::= pred |> <| budget; budget_bytes ::= λ b, b - n `max` 1 |>).
Definition event_only_or_exhausted (d : DriveTurn) : bool * DriveTurn :=
  or_exhausted (0 <? events (budget d)) d (d <| budget; events ::= pred |>).

(** [consume_bytes_or_exhausted] *)
Definition spend_bytes (n : nat) (d : DriveTurn) : DriveTurn :=
  let d := d <| budget; budget_bytes ::= λ b, b - n `max` 1 |> in
  if can_continue (budget d) then d else mark_budget_exhausted d.

Definition emit_event (d : DriveTurn) : bool * DriveTurn :=
  let (ok, d) := event_step_or_exhausted d in
  if negb ok then (false, d) else
  let (ok, d) := event_only_or_exhausted d in
  if negb ok then (false, d) else (true, event_emitted d).

(** [push_event]: [Err(event)] gives the event back *)
Definition push_event {T} (event : T) (events : list T) (d : DriveTurn) : outcome T unit * list T * DriveTurn :=
  let (ok, d) := emit_event d in
  if negb ok then (Fail event, events, d) else (Ret tt, events ++ [event], d).

Definition can_prepare_whole_item_operation (len : nat) (d : DriveTurn) : bool * DriveTurn :=
  let (ok, d) := can_continue_or_exhausted d in
  if negb ok then (false, d)
  else if remaining_bytes d <? len then (false, mark_budget_exhausted d)
  else (true, d).

Definition start_whole_item_operation (len : nat) (d : DriveTurn) : bool * DriveTurn :=
  if remaining_bytes d <? len then (false, mark_budget_exhausted d) else step_or_exhausted d.

(** ** State changes and outputs *)
Section changes.
Context {S E T : Type}.

Definition apply_state_change (apply : S → T * S) (d : DriveTurn) (s : S) : option T * DriveTurn * S :=
  let (ok, d) := step_or_exhausted d in
  if negb ok then (None, d, s) else let (v, s) := apply s in (Some v, state_changed d, s).

Inductive DriveApply := Applied (v : T) | Deferred | Failed (e : E).

Definition try_apply_state_change (apply : stm S E T) (d : DriveTurn) (s : S) : outcome unit DriveApply * DriveTurn * S :=
  let (ok, d) := step_or_exhausted d in
  if negb ok then (Ret Deferred, d, s)
  else match apply s with
       | (Ret v, s) => (Ret (Applied v), state_changed d, s)
       | (Fail e, s) => (Ret (Failed e), d, s)
       | (Panic, s) => (Panic, d, s)
       | (Timeout, s) => (Timeout, d, s)
       end.

(** [Err(item)] gives the item back; the queue has a fixed capacity. *)
Definition push_component_output (item : T) (capacity_ : nat) (queue : list T) (d : DriveTurn) : outcome T unit * list T * DriveTurn :=
  if capacity_ <=? length queue then (Fail item, queue, block_on LOCAL_BUFFER_CAPACITY d)
  else
    let (ok, d) := step_or_exhausted d in
    if negb ok then (Fail item, queue, d) else (Ret tt, queue ++ [item], state_changed d).

Definition push_component_output_after_progress (item : T) (capacity_ : nat) (queue : list T) (d : DriveTurn)
    : outcome T unit * list T * DriveTurn :=
  if capacity_ <=? length queue then (Fail item, queue, block_on LOCAL_BUFFER_CAPACITY d)
  else (Ret tt, queue ++ [item], state_changed d).
End changes.
Arguments DriveApply : clear implicits.

(** ** Protocol and transport operations

    The closure sees a state of its own. *)
Definition protocol_chunk (available : nat) (d : DriveTurn) : option nat * DriveTurn :=
  let (ok, d) := step_or_exhausted d in
  if negb ok then (None, d)
  else
    let chunk := available `min` remaining_bytes d in
    if chunk =? 0 then (None, mark_budget_exhausted d) else (Some chunk, d).

Inductive DriveProtocolOp T := OpProgress (n : nat) (v : T) | OpNoProgress (v : T).
Arguments OpProgress {T} _ _.
Arguments OpNoProgress {T} _.
Inductive DriveProtocolPoll T := ProtocolComplete (v : T) | ProtocolBudget.
Arguments ProtocolComplete {T} _.
Arguments ProtocolBudget {T}.
Inductive DriveTransportOp T := TransportProgress (n : nat) (v : T) | TransportWouldBlock (v : T) | TransportNoProgress (v : T).
Arguments TransportProgress {T} _ _.
Arguments TransportWouldBlock {T} _.
Arguments TransportNoProgress {T} _.
Inductive DriveTransportPoll T := TransportComplete (v : T) | TransportPending | TransportBudget.
Arguments TransportComplete {T} _.
Arguments TransportPending {T}.
Arguments TransportBudget {T}.

Definition drive_protocol_op {S E T} (available : nat) (operation : nat → stm S E (DriveProtocolOp T))
    : stm (DriveTurn * S) E (DriveProtocolPoll T) := λ '(d, s),
  match protocol_chunk available d with
  | (None, d) => (Ret ProtocolBudget, (d, s))
  | (Some chunk, d) =>
    match operation chunk s with
    | (Ret (OpProgress n v), s) =>
      (Ret (ProtocolComplete v), (if 0 <? n then state_changed (spend_bytes n d) else d, s))
    | (Ret (OpNoProgress v), s) => (Ret (ProtocolComplete v), (d, s))
    | (Fail e, s) => (Fail e, (d, s)) | (Panic, s) => (Panic, (d, s)) | (Timeout, s) => (Timeout, (d, s))
    end
  end.

(** [drive_transport_op] for the direction [reads], whose slot is cleared when the operation would block *)
Definition drive_transport_op {S E T} (reads : bool) (available : nat) (op : nat → stm S E (DriveTransportOp T))
    : stm (DriveTurn * IoSlotState * S) E (DriveTransportPoll T) := λ '(d, io, s),
  match protocol_chunk available d with
  | (None, d) => (Ret TransportBudget, (d, io, s))
  | (Some chunk, d) =>
    match op chunk s with
    | (Ret (TransportProgress n v), s) =>
      (Ret (TransportComplete v), ((if reads then bytes_read n else bytes_written n) (spend_bytes n d), io, s))
    | (Ret (TransportWouldBlock v), s) =>
      (Ret (TransportComplete v),
       (block_on (if reads then REACTOR_READ else REACTOR_WRITE) d, clear_after_would_block reads io, s))
    | (Ret (TransportNoProgress v), s) => (Ret (TransportComplete v), (d, io, s))
    | (Fail e, s) => (Fail e, (d, io, s)) | (Panic, s) => (Panic, (d, io, s)) | (Timeout, s) => (Timeout, (d, io, s))
    end
  end.

Definition transport_ready {S E T} (reads : bool) (available : nat) (op : nat → stm S E (DriveTransportOp T))
    : stm (DriveTurn * IoSlotState * S) E (DriveTransportPoll T) := λ '(d, io, s),
  if negb (can reads io) then
    (Ret TransportPending, (block_on (if reads then REACTOR_READ else REACTOR_WRITE) d, io, s))
  else drive_transport_op reads available op (d, io, s).
Definition transport_read_ready {S E T} := @transport_ready S E T true.
Definition transport_write_ready {S E T} := @transport_ready S E T false.

(** ** Streams

    [Link] is what the operations on a connected socket borrow: the turn, the
    slot of the socket, the buffers, the queue of what is to be written, and the
    socket. *)
Record Link := {
  drive : DriveTurn;
  io : IoSlotState;
  buffers : BufferPool;
  queue : WriteQueue;
  socket : Stream;
}.
#[export] Instance Link_eta : Eta Link := λ l,
  {| drive := drive l; io := io l; buffers := buffers l; queue := queue l; socket := socket l |}.

Definition on_drive {E A} (f : DriveTurn → A * DriveTurn) : stm Link E A := λ l,
  let (a, d) := f (drive l) in (Ret a, l <| drive := d |>).
Definition note {E} (f : DriveTurn → DriveTurn) : stm Link E unit := stm_modify (λ l, l <| drive ::= f |>).
Definition on_buffers {E A} (m : stm BufferPool E A) : stm Link E A := stm_zoom buffers (λ p l, l <| buffers := p |>) m.
Definition on_socket {E A} (m : stm Stream E A) : stm Link E A := stm_zoom socket (λ s l, l <| socket := s |>) m.

Inductive DriveStreamRead := ReadBytes (b : ByteBuf) | ReadClosed | ReadNotReady | ReadWouldBlock | ReadBlocked.
Inductive DriveStreamWriteBlock := BlockBudget | BlockReactorWrite.
Inductive DriveStreamWrite := Drained | Pending (blocked_on : DriveStreamWriteBlock).
#[export] Instance DriveStreamWriteBlock_eq_dec : EqDecision DriveStreamWriteBlock.
Proof. solve_decision. Defined.
#[export] Instance DriveStreamWrite_eq_dec : EqDecision DriveStreamWrite.
Proof. solve_decision. Defined.

Section streams.
Context (limits : NetworkLimits) (grown : nat → nat → nat).

(** The end of the scope of a buffer *)
Definition drop_buffer {E} (b : ByteBuf) : stm Link E unit := λ l,
  match byte_recycle limits b (buffers l) with
  | Ret p => (Ret tt, l <| buffers := p |>)
  | Fail e => (Fail e, l) | Panic => (Panic, l) | Timeout => (Timeout, l)
  end.

Definition drop_option {E} (b : option ByteBuf) : stm Link E unit :=
  match b with Some b => drop_buffer b | None => mret tt end.

Definition read_stream_unchecked : stm Link io_error DriveStreamRead :=
  l ← stm_get;
  if remaining_bytes (drive l) =? 0 then note mark_budget_exhausted;; mret ReadBlocked
  else
    taken ← stm_try (on_buffers (try_tcp_byte limits));
    match taken with
    | inr _ => note wait_for_local_buffer_capacity_with_continuation;; mret ReadBlocked
    | inl bytes =>
      ok ← on_drive step_or_exhausted;
      if negb ok then drop_buffer bytes;; mret ReadBlocked
      else
        l ← stm_get;
        let len := tcp_byte_capacity limits `min` remaining_bytes (drive l) in
        answer ← stm_try (on_socket (stream_read len));
        match answer with
        | inl [] => drop_buffer bytes;; mret ReadClosed
        | inl data =>
          note (spend_bytes (length data));;
          note (bytes_read (length data));;
          mret (ReadBytes (set_bytes grown data bytes))
        | inr WouldBlock => note (block_on REACTOR_READ);; drop_buffer bytes;; mret ReadWouldBlock
        | inr e => drop_buffer bytes;; stm_fail e
        end
    end.

Definition read_stream_ready : stm Link io_error DriveStreamRead :=
  l ← stm_get;
  if negb (can_read (io l)) then note (block_on REACTOR_READ);; mret ReadNotReady
  else
    read ← read_stream_unchecked;
    match read with
    | ReadWouldBlock => stm_modify (λ l, l <| io ::= clear_read_after_would_block |>);; mret ReadWouldBlock
    | read => mret read
    end.

(** The loop of [write_stream_queue_unchecked]: why it stopped, [None] when the queue ran out.  Each
    round takes a step of the budget, so the steps are fuel enough. *)
Fixpoint write_loop (fuel : nat) : stm Link io_error (option DriveStreamWriteBlock) :=
  l ← stm_get;
  match front_slice (queue l) with
  | None => mret None
  | Some remaining =>
    let write_len := length remaining `min` remaining_bytes (drive l) in
    if write_len =? 0 then note mark_budget_exhausted;; mret (Some BlockBudget)
    else
      ok ← on_drive step_or_exhausted;
      if negb ok then mret (Some BlockBudget)
      else
        match fuel with
        | O => stm_lift Timeout
        | S fuel =>
          answer ← stm_try (on_socket (stream_write (take write_len remaining)));
          match answer with
          | inl O => stm_fail WriteZero
          | inl written =>
            note (spend_bytes written);;
            note (bytes_written written);;
            l ← stm_get;
            let '(_, dropped, q) := advance_front written (queue l) in
            stm_modify (λ l, l <| queue := q |>);;
            drop_option dropped;;
            l ← stm_get;
            if negb (can_continue (budget (drive l))) then mret (Some BlockBudget) else write_loop fuel
          | inr WouldBlock => mret (Some BlockReactorWrite)
          | inr e => stm_fail e
          end
        end
  end.

Definition write_stream_queue_unchecked : stm Link io_error DriveStreamWrite :=
  l ← stm_get;
  blocked_on ← write_loop (steps (budget (drive l)));
  l ← stm_get;
  if queue_is_empty (queue l) then mret Drained
  else
    let blocked_on := default BlockReactorWrite blocked_on in
    (if decide (blocked_on = BlockReactorWrite) then note (block_on REACTOR_WRITE) else mret tt);;
    mret (Pending blocked_on).

Definition write_stream_queue_ready : stm Link io_error DriveStreamWrite :=
  l ← stm_get;
  if queue_is_empty (queue l) then mret Drained
  else if negb (can_write (io l)) then note (block_on REACTOR_WRITE);; mret (Pending BlockReactorWrite)
  else
    write ← write_stream_queue_unchecked;
    (if decide (write = Pending BlockReactorWrite)
     then stm_modify (λ l, l <| io ::= clear_write_after_would_block |>) else mret tt);;
    mret write.
End streams.

(** ** Frames of the guest *)
Inductive DriveGuestFrameWrite := FrameFlushed | FrameWouldBlock | FrameBudget.
Inductive DriveGuestFrameRead := GuestFrame (f : FrameBuf) | GuestClosed | GuestWouldBlock | GuestBlocked.
Inductive DriveGuestFrameReadStatus := StatusFrame | StatusBlocked | StatusClosed.

(** [true] is a reservation *)
Definition enqueue_guest_frame (queued_frames queue_capacity frame_len : nat) (d : DriveTurn) : bool * DriveTurn :=
  if queue_capacity <=? queued_frames then (false, block_on GUEST_SEND_CAPACITY d)
  else
    let (ok, d) := start_whole_item_operation frame_len d in
    if negb ok then (false, d) else (true, guest_bytes_enqueued frame_len (spend_bytes frame_len d)).

Definition push_guest_frame (guest_frames : list FrameBuf) (capacity_ : nat) (frame : FrameBuf) (d : DriveTurn)
    : outcome FrameBuf unit * list FrameBuf * DriveTurn :=
  let (reserved, d) := enqueue_guest_frame (length guest_frames) capacity_ (length (vec_bytes frame)) d in
  if reserved then (Ret tt, guest_frames ++ [frame], d) else (Fail frame, guest_frames, d).

(** [write] is the closure that hands the frame to the session: whether it was flushed. *)
Definition write_guest_frame {S E} (frame_len : nat) (write : stm S E bool)
    : stm (DriveTurn * S) E DriveGuestFrameWrite := λ '(d, s),
  let (emit, d) := can_emit_event_or_exhausted d in
  if negb emit then (Ret FrameBudget, (d, s)) else
  let (start, d) := start_whole_item_operation frame_len d in
  if negb start then (Ret FrameBudget, (d, s)) else
  match write s with
  | (Ret true, s) =>
    let (ok, d) := event_or_exhausted frame_len d in
    if negb ok then (Ret FrameBudget, (d, s)) else (Ret FrameFlushed, (guest_bytes_dequeued frame_len d, s))
  | (Ret false, s) => (Ret FrameWouldBlock, (block_on GUEST_SEND_CAPACITY d, s))
  | (Fail e, s) => (Fail e, (d, s)) | (Panic, s) => (Panic, (d, s)) | (Timeout, s) => (Timeout, (d, s))
  end.

(** [read] is the closure that lets the session fill the frame: it returns the frame with its status.
    A frame that is not returned to the caller goes back to the pool. *)
Definition read_guest_frame {S E} (limits : NetworkLimits) (read : FrameBuf → stm S E (DriveGuestFrameReadStatus * FrameBuf))
    : stm (DriveTurn * BufferPool * S) E DriveGuestFrameRead := λ '(d, p, s),
  let (emit, d) := can_emit_event_or_exhausted d in
  if negb emit then (Ret GuestBlocked, (d, p, s)) else
  let (start, d) := start_whole_item_operation (frame_buffer_capacity limits) d in
  if negb start then (Ret GuestBlocked, (d, p, s)) else
  match try_guest_frame limits p with
  | (Ret frame, p) =>
    match read frame s with
    | (Ret (StatusFrame, frame), s) =>
      let len := length (vec_bytes frame) in
      let (ok, d) := event_or_exhausted len d in
      if negb ok then (Ret GuestBlocked, (d, frame_recycle limits frame p, s))
      else (Ret (GuestFrame frame), (event_emitted (bytes_read len d), p, s))
    | (Ret (StatusBlocked, frame), s) =>
      (Ret GuestWouldBlock, (block_on GUEST_RECV d, frame_recycle limits frame p, s))
    | (Ret (StatusClosed, frame), s) =>
      let (ok, d) := event_or_exhausted 0 d in
      if negb ok then (Ret GuestBlocked, (d, frame_recycle limits frame p, s))
      else (Ret GuestClosed, (event_emitted d, frame_recycle limits frame p, s))
    | (Fail e, s) => (Fail e, (d, frame_recycle limits frame p, s))
    | (Panic, s) => (Panic, (d, p, s)) | (Timeout, s) => (Timeout, (d, p, s))
    end
  | (Fail _, p) => (Ret GuestBlocked, (wait_for_local_buffer_capacity_with_continuation d, p, s))
  | (Panic, p) => (Panic, (d, p, s))
  | (Timeout, p) => (Timeout, (d, p, s))
  end.

(** ** Output of a protocol engine, cut to what the turn and the pool allow *)
Inductive DriveProtocolOutput := OutputBytes | OutputEmpty.

Section outputs.
Context (limits : NetworkLimits) (grown : nat → nat → nat).

(** The output buffer is part of the state: the bytes and the read offset *)
Definition take_protocol_output (max_len : nat)
    : stm (DriveTurn * BufferPool * ByteBuf) unit (DriveProtocolPoll (option ByteBuf + PoolExhausted)) := λ '(d, p, output),
  if buf_len output =? 0 then (Ret (ProtocolComplete (inl None)), (d, p, output))
  else match protocol_chunk (buf_len output `min` max_len) d with
       | (None, d) => (Ret ProtocolBudget, (d, p, output))
       | (Some len, d) =>
         match try_byte_with_capacity limits len p with
         | (Ret bytes, p) =>
           (Ret (ProtocolComplete (inl (Some (set_bytes grown (take len (as_slice output)) bytes)))),
            (state_changed (spend_bytes len d), p, set_bytes grown (drop len (as_slice output)) output))
         | (Fail error, p) => (Ret (ProtocolComplete (inr error)), (block_on LOCAL_BUFFER_CAPACITY d, p, output))
         | (Panic, p) => (Panic, (d, p, output)) | (Timeout, p) => (Timeout, (d, p, output))
         end
       end.

Record OutputState := { out_queue : WriteQueue; output : ByteBuf; output_offset : nat }.

Definition reset_output (s : OutputState) : OutputState :=
  {| out_queue := out_queue s; output := set_bytes grown [] (output s); output_offset := 0 |}.

Definition queue_protocol_output (max_len : nat)
    : stm (DriveTurn * BufferPool * OutputState) unit (DriveProtocolPoll (DriveProtocolOutput + PoolExhausted)) := λ '(d, p, s),
  if buf_len (output s) <=? output_offset s then (Ret (ProtocolComplete (inl OutputEmpty)), (d, p, reset_output s))
  else match protocol_chunk ((buf_len (output s) - output_offset s) `min` max_len) d with
       | (None, d) => (Ret ProtocolBudget, (d, p, s))
       | (Some len, d) =>
         match try_byte_with_capacity limits len p with
         | (Ret bytes, p) =>
           let end_ := output_offset s + len in
           let (dropped, q) := queue_push (set_bytes grown (take len (drop (output_offset s) (as_slice (output s)))) bytes) (out_queue s) in
           match match dropped with Some b => byte_recycle limits b p | None => Ret p end with
           | Ret p =>
             let s := {| out_queue := q; output := output s; output_offset := end_ |} in
             let s := if buf_len (output s) <=? output_offset s then reset_output s else s in
             (Ret (ProtocolComplete (inl OutputBytes)), (state_changed (spend_bytes len d), p, s))
           | Fail e => (Fail e, (d, p, s)) | Panic => (Panic, (d, p, s)) | Timeout => (Timeout, (d, p, s))
           end
         | (Fail error, p) => (Ret (ProtocolComplete (inr error)), (block_on LOCAL_BUFFER_CAPACITY d, p, s))
         | (Panic, p) => (Panic, (d, p, s)) | (Timeout, p) => (Timeout, (d, p, s))
         end
       end.
End outputs.

(** ** Datagrams: a whole datagram or nothing *)
Inductive DriveDatagramRecv := RecvBytes (b : ByteBuf) (peer : Z) | RecvNotReady | RecvWouldBlock | RecvBlocked | RecvBudget.
Inductive DriveDatagramSend := SendSent | SendNotReady | SendWouldBlock | SendBudget.

Record UdpLink := { udp_drive : DriveTurn; udp_io : IoSlotState; udp_buffers : BufferPool; udp_socket : DatagramSocket }.
#[export] Instance UdpLink_eta : Eta UdpLink := λ l,
  {| udp_drive := udp_drive l; udp_io := udp_io l; udp_buffers := udp_buffers l; udp_socket := udp_socket l |}.

Section datagrams.
Context (limits : NetworkLimits) (grown : nat → nat → nat).

Definition udp_on_drive {E A} (f : DriveTurn → A * DriveTurn) : stm UdpLink E A := λ l,
  let (a, d) := f (udp_drive l) in (Ret a, l <| udp_drive := d |>).
Definition udp_note {E} (f : DriveTurn → DriveTurn) : stm UdpLink E unit := stm_modify (λ l, l <| udp_drive ::= f |>).
Definition udp_drop {E} (b : ByteBuf) : stm UdpLink E unit := λ l,
  match byte_recycle limits b (udp_buffers l) with
  | Ret p => (Ret tt, l <| udp_buffers := p |>)
  | Fail e => (Fail e, l) | Panic => (Panic, l) | Timeout => (Timeout, l)
  end.

(** [recv_datagram_from_unchecked]; [recv_datagram_unchecked] is the same without the peer *)
Definition recv_datagram_from_unchecked (capacity_ : nat) : stm UdpLink io_error DriveDatagramRecv :=
  ok ← udp_on_drive (start_whole_item_operation capacity_);
  if negb ok then mret RecvBudget
  else
    taken ← stm_try (stm_zoom udp_buffers (λ p l, l <| udp_buffers := p |>) (try_byte_with_capacity limits capacity_));
    match taken with
    | inr _ => udp_note wait_for_local_buffer_capacity_with_continuation;; mret RecvBlocked
    | inl bytes =>
      answer ← stm_try (stm_zoom udp_socket (λ s l, l <| udp_socket := s |>) (datagram_recv_from capacity_));
      match answer with
      | inl (data, peer) =>
        udp_note (spend_bytes (length data));;
        udp_note (bytes_read (length data));;
        mret (RecvBytes (set_bytes grown data bytes) peer)
      | inr WouldBlock => udp_note (block_on REACTOR_READ);; udp_drop bytes;; mret RecvWouldBlock
      | inr e => udp_drop bytes;; stm_fail e
      end
    end.

Definition recv_datagram_from_ready (capacity_ : nat) : stm UdpLink io_error DriveDatagramRecv :=
  l ← stm_get;
  if negb (can_read (udp_io l)) then udp_note (block_on REACTOR_READ);; mret RecvNotReady
  else
    recv ← recv_datagram_from_unchecked capacity_;
    match recv with
    | RecvWouldBlock => stm_modify (λ l, l <| udp_io ::= clear_read_after_would_block |>);; mret RecvWouldBlock
    | recv => mret recv
    end.

(** [send_datagram_unchecked] ([None]) and [send_datagram_to_unchecked] *)
Definition send_datagram_unchecked (target : option Z) (data : bytes) : stm UdpLink io_error DriveDatagramSend :=
  ok ← udp_on_drive (start_whole_item_operation (length data));
  if negb ok then mret SendBudget
  else
    answer ← stm_try (stm_zoom udp_socket (λ s l, l <| udp_socket := s |>) (datagram_send target data));
    match answer with
    | inl n =>
      if n =? length data then
        udp_note (spend_bytes n);;
        udp_note (bytes_written n);;
        mret SendSent
      else stm_fail WriteZero
    | inr WouldBlock => udp_note (block_on REACTOR_WRITE);; mret SendWouldBlock
    | inr e => stm_fail e
    end.

Definition send_datagram_ready (target : option Z) (data : bytes) : stm UdpLink io_error DriveDatagramSend :=
  l ← stm_get;
  if negb (can_write (udp_io l)) then udp_note (block_on REACTOR_WRITE);; mret SendNotReady
  else
    send ← send_datagram_unchecked target data;
    match send with
    | SendWouldBlock => stm_modify (λ l, l <| udp_io ::= clear_write_after_would_block |>);; mret SendWouldBlock
    | send => mret send
    end.
End datagrams.

(** ** The TCP sockets of the gateway

    smoltcp keeps the guest's connections; what the code uses of them is a class. *)
Class GuestTcpSocket (S : Type) := {
  can_recv : S → bool;
  (** [recv_slice] into a buffer of that many bytes *)
  recv_slice : nat → S → option bytes * S;
  can_send : S → bool;
  send_slice : bytes → S → option nat * S;
}.

Inductive DriveSmoltcpTcpRecv := TcpBytes (b : ByteBuf) | TcpEmpty | TcpBlocked.

Section guest_tcp.
Context {Sock : Type} `{GuestTcpSocket Sock} (limits : NetworkLimits) (grown : nat → nat → nat).

Definition recv_smoltcp_tcp : stm (DriveTurn * BufferPool * Sock) unit DriveSmoltcpTcpRecv := λ '(d, p, s),
  if negb (can_recv s) then (Ret TcpEmpty, (d, p, s))
  else
    let (ok, d) := can_continue_or_exhausted d in
    if negb ok then (Ret TcpBlocked, (d, p, s))
    else match try_tcp_byte limits p with
         | (Ret bytes, p) =>
           let finish (r : DriveSmoltcpTcpRecv) (d : DriveTurn) (s : Sock) :=
             match @byte_recycle limits unit bytes p with
             | Ret p => (Ret r, (d, p, s))
             | Fail e => (Fail e, (d, p, s)) | Panic => (Panic, (d, p, s)) | Timeout => (Timeout, (d, p, s))
             end in
           let (ok, d) := step_or_exhausted d in
           if negb ok then finish TcpBlocked d s
           else match recv_slice (tcp_byte_capacity limits `min` remaining_bytes d) s with
                | (None, s) | (Some [], s) => finish TcpEmpty d s
                | (Some data, s) =>
                  (Ret (TcpBytes (set_bytes grown data bytes)),
                   (guest_bytes_dequeued (length data) (spend_bytes (length data) d), p, s))
                end
         | (Fail _, p) => (Ret TcpBlocked, (wait_for_local_buffer_capacity_with_continuation d, p, s))
         | (Panic, p) => (Panic, (d, p, s)) | (Timeout, p) => (Timeout, (d, p, s))
         end.

Record GuestSend := { gs_drive : DriveTurn; gs_buffers : BufferPool; gs_queue : WriteQueue; gs_socket : Sock }.

(** The loop of [send_smoltcp_tcp_queue]; the steps of the budget are fuel enough *)
Fixpoint send_loop (fuel : nat) (g : GuestSend) : outcome unit unit * GuestSend :=
  let '{| gs_drive := d; gs_buffers := p; gs_queue := q; gs_socket := s |} := g in
  if negb (can_send s) then (Ret tt, g)
  else match front_slice q with
       | None => (Ret tt, g)
       | Some remaining =>
         let write_len := length remaining `min` remaining_bytes d in
         if write_len =? 0 then (Ret tt, {| gs_drive := mark_budget_exhausted d; gs_buffers := p; gs_queue := q; gs_socket := s |})
         else
           let (ok, d) := step_or_exhausted d in
           if negb ok then (Ret tt, {| gs_drive := d; gs_buffers := p; gs_queue := q; gs_socket := s |})
           else match fuel with
                | O => (Timeout, g)
                | S fuel =>
                  match send_slice (take write_len remaining) s with
                  | (None, s) | (Some O, s) => (Ret tt, {| gs_drive := d; gs_buffers := p; gs_queue := q; gs_socket := s |})
                  | (Some written, s) =>
                    let d := guest_bytes_enqueued written (spend_bytes written d) in
                    let '(_, dropped, q) := advance_front written q in
                    match match dropped with Some b => @byte_recycle limits unit b p | None => Ret p end with
                    | Ret p =>
                      let g := {| gs_drive := d; gs_buffers := p; gs_queue := q; gs_socket := s |} in
                      if negb (can_continue (budget d)) then (Ret tt, g) else send_loop fuel g
                    | Fail e => (Fail e, g) | Panic => (Panic, g) | Timeout => (Timeout, g)
                    end
                  end
                end
       end.

Definition send_smoltcp_tcp_queue (g : GuestSend) : outcome unit unit * GuestSend :=
  match send_loop (steps (budget (gs_drive g))) g with
  | (Ret _, {| gs_drive := d; gs_buffers := p; gs_queue := q; gs_socket := s |}) =>
    let d := if negb (queue_is_empty q) then
               if negb (exhausted d) then block_on GUEST_SEND_CAPACITY d else d
             else if negb (can_send s) then block_on GUEST_SEND_CAPACITY d else d in
    (Ret tt, {| gs_drive := d; gs_buffers := p; gs_queue := q; gs_socket := s |})
  | r => r
  end.
End guest_tcp.
