(* ===== verification/DriveCorrect.v ===== *)
(** * Operations of a turn lose nothing and say why they stop

    What the operations of [Drive] do, on every path: the bytes that leave a
    queue are the bytes the socket has sent, a frame is handed over once, and
    whenever an operation stops short the report or the slot holds the reason. *)
From S2P Require Import Prelude Fields Io IoSlot Limits Buffers Drive.
Local Open Scope nat_scope.

Ltac stm_unfold :=
  unfold on_drive, note, on_buffers, on_socket, udp_on_drive, udp_note;
  unfold mbind, stm_bind, stm_get, stm_lift, stm_try, stm_zoom, stm_modify, stm_fail, mret, stm_ret;
  cbv beta iota.

(** ** The budget *)
Lemma or_exhausted_spec ok d d' b d'' :
  or_exhausted ok d d' = (b, d'') → b = ok ∧ d'' = if ok then d' else mark_budget_exhausted d.
Proof. unfold or_exhausted. by destruct ok; intros [= <- <-]. Qed.

Lemma exhausted_mark d : exhausted (mark_budget_exhausted d) = true.
Proof. done. Qed.

Lemma exhausted_spend n d : exhausted d = true → exhausted (spend_bytes n d) = true.
Proof. unfold spend_bytes. by destruct (can_continue _). Qed.

Lemma spend_exhausts n d :
  can_continue (budget (spend_bytes n d)) = false → exhausted (spend_bytes n d) = true.
Proof.
  unfold spend_bytes. set (d1 := d <| budget; budget_bytes ::= λ b, b - n `max` 1 |>).
  by destruct (can_continue (budget d1)) eqn:Hc; [rewrite Hc|].
Qed.

Lemma bytes_written_keeps n d :
  exhausted (bytes_written n d) = exhausted d ∧ budget (bytes_written n d) = budget d ∧ wait (report (bytes_written n d)) = wait (report d).
Proof. done. Qed.

Lemma spend_keeps n d :
  steps (budget (spend_bytes n d)) = steps (budget d) ∧ events (budget (spend_bytes n d)) = events (budget d) ∧
  wait (report (spend_bytes n d)) = wait (report d).
Proof. unfold spend_bytes. by destruct (can_continue _). Qed.

Lemma step_spec b d d' :
  step_or_exhausted d = (b, d') →
  if b then can_continue (budget d) = true ∧ d' = d <| budget; steps ::= pred |> else d' = mark_budget_exhausted d.
Proof. intros [-> ->]%or_exhausted_spec. by destruct (can_continue (budget d)). Qed.

Lemma can_continue_spec b : can_continue b = true ↔ 0 < events b ∧ 0 < steps b ∧ 0 < budget_bytes b.
Proof. unfold can_continue. rewrite !andb_true_iff, !Nat.ltb_lt. tauto. Qed.

Lemma blocked_on_block w d : wait_contains w w = true → blocked_on w (report (block_on w d)) = true.
Proof.
  unfold blocked_on, wait_contains, block_on, wait_merge. simpl. rewrite !negb_true_iff, !Z.eqb_neq. intros Hw Hz.
  apply Hw. apply Z.bits_inj'. intros i Hi. rewrite Z.bits_0, Z.land_spec. apply (f_equal (λ z, Z.testbit z i)) in Hz.
  rewrite Z.land_spec, Z.lor_spec, Z.bits_0 in Hz. by destruct (Z.testbit w i), (Z.testbit (wait (report d)) i).
Qed.

(** ** Buffers *)
Definition pooled (b : ByteBuf) : Prop := class b ≠ Oversized.
Definition queue_pooled (q : WriteQueue) : Prop := Forall (λ w, pooled (pw_bytes w)) (entries q).

Lemma drop_buffer_spec {E} limits b l :
  pooled b → ∃ p, @drop_buffer limits E b l = (Ret tt, l <| buffers := p |>).
Proof.
  intros Hb. unfold drop_buffer, byte_recycle, buckets_recycle, bucket_mut, bucket. unfold pooled in Hb.
  destruct (class b); try done; simpl; by eexists.
Qed.

Lemma advance_front_pooled n q fl d q' :
  queue_pooled q → advance_front n q = (fl, d, q') → queue_pooled q' ∧ match d with Some b => pooled b | None => True end.
Proof.
  unfold queue_pooled, advance_front, entries, next_first. destruct (first q) as [w|] eqn:Hf;
    [|intros ? [= <- <- <-]; by rewrite Hf]. simpl.
  intros [Hw Hq]%Forall_cons. destruct (_ <=? _); intros [= <- <- <-]; simpl; [|split; [apply Forall_cons; by split|done]].
  split; [|done]. by destruct (rest q).
Qed.

Lemma byte_try_take_pooled limits cap p b p' : byte_try_take limits cap p = (Ret b, p') → pooled b.
Proof.
  unfold byte_try_take, buckets_take. destruct (bucket _ (byte_pool p)) as [[|v rest]|] eqn:Hb; [done| |done].
  destruct (_ <? _).
  - by destruct (buckets_recycle _ _ _ _).
  - intros [= <- _]. unfold pooled. simpl. intros Ho. by rewrite Ho in Hb.
Qed.

Lemma byte_try_take_ends limits cap p : ∃ r p', byte_try_take limits cap p = (r, p') ∧ match r with Ret _ | Fail _ => True | _ => False end.
Proof.
  unfold byte_try_take, buckets_take. destruct (bucket (for_capacity limits cap) (byte_pool p)) as [[|v rest]|] eqn:Hb;
    [by eexists _, _| |by eexists _, _]. destruct (_ <? _); [|by eexists _, _].
  unfold buckets_recycle, bucket_mut, mbind, outcome_bind. rewrite bucket_set_bucket, decide_True, Hb by done. by eexists _, _.
Qed.

(** ** Writing a queue *)
Section write.
Context (limits : NetworkLimits).

(** What a call leaves of the rest of the link *)
Definition same_reads (l l' : Link) : Prop := reads (socket l') = reads (socket l).

Definition wrote (l l' : Link) : Prop :=
  ∃ c, sent (socket l') = sent (socket l) ++ c ∧ queue_bytes (queue l) = c ++ queue_bytes (queue l') ∧
    queue_ok (queue l') ∧ queue_pooled (queue l') ∧ same_reads l l' ∧ io l' = io l.

Lemma wrote_refl l : queue_ok (queue l) → queue_pooled (queue l) → wrote l l.
Proof. intros. exists []. by rewrite app_nil_r. Qed.

Lemma wrote_trans l1 l2 l3 : wrote l1 l2 → wrote l2 l3 → wrote l1 l3.
Proof.
  intros (c1 & S1 & Q1 & _ & _ & R1 & I1) (c2 & S2 & Q2 & O2 & P2 & R2 & I2). exists (c1 ++ c2).
  rewrite S2, S1, Q1, Q2, <-!app_assoc. split_and!; try done; [unfold same_reads in *|]; congruence.
Qed.

(** A change of the turn alone *)
Lemma wrote_drive l l1 d : wrote l l1 → wrote l (l1 <| drive := d |>).
Proof. intros (c & ? & ? & ? & ? & ? & ?). by exists c. Qed.

Lemma write_loop_spec fuel l r l' :
  queue_ok (queue l) → queue_pooled (queue l) → steps (budget (drive l)) ≤ fuel →
  write_loop limits fuel l = (r, l') →
  wrote l l' ∧
  match r with
  | Ret None => queue_bytes (queue l') = []
  | Ret (Some BlockBudget) => exhausted (drive l') = true
  | Ret (Some BlockReactorWrite) => queue_bytes (queue l') ≠ []
  | Fail _ => True
  | _ => False
  end.
Proof.
  revert l. induction fuel as [|fuel IH]; intros l Hok Hpool Hfuel; cbn [write_loop]; unfold mbind, stm_bind, stm_get;
    pose proof (front_slice_ok (queue l) Hok) as Hfront; destruct (front_slice (queue l)) as [bs|] eqn:Hbs;
    try (intros [= <- <-]; split; [by apply wrote_refl|apply Hfront]);
    (destruct (Nat.eqb_spec (length bs `min` remaining_bytes (drive l)) 0) as [Hz|Hz];
     [intros [= <- <-]; split; [by apply (wrote_drive l l), wrote_refl|done]|]);
    unfold on_drive; destruct (step_or_exhausted (drive l)) as [ok d] eqn:Hstep; apply step_spec in Hstep.
  - destruct ok; [|intros [= <- <-]; split; [by apply (wrote_drive l l), wrote_refl|by rewrite Hstep]].
    destruct Hstep as [(_ & Hs & _)%can_continue_spec _]. lia.
  - destruct ok; [|intros [= <- <-]; split; [by apply (wrote_drive l l), wrote_refl|by rewrite Hstep]].
    destruct Hstep as [Hcan ->]. destruct Hfront as [Hne Hmore].
    unfold stm_try, on_socket, stm_zoom, note, stm_modify, stm_fail, mret, stm_ret.
    set (n := length bs `min` remaining_bytes (drive l)) in *.
    set (d1 := (drive l) <| budget; steps ::= pred |>) in *.
    cbn [negb]. cbv beta iota. change (socket (modify drive (λ _, d1) l)) with (socket l).
    destruct (stream_write (take n bs) (socket l)) as [answer s1] eqn:Hwrite.
    apply stream_write_spec in Hwrite as (Hreads & Hw).
    destruct answer as [k|e| |]; [| |done|done].
    2:{ assert (wrote l (l <| drive := d1 |> <| socket := s1 |>)) as Hsame.
        { exists []. rewrite app_nil_r. by split_and!. }
        destruct e; intros [= <- <-]; (split; [done|]); try done. simpl. destruct Hmore as [more ->]. by destruct bs. }
    destruct Hw as [Hsent Hk]. destruct k as [|k].
    { intros [= <- <-]. split; [|done]. exists []. simpl in Hsent. rewrite app_nil_r in *. by split_and!. }
    assert (S k ≤ length bs) as Hkbs by (rewrite length_take in Hk; lia).
    assert (take (S k) (take n bs) = take (S k) bs) as Htake by (rewrite take_take; f_equal; rewrite length_take in Hk; lia).
    destruct (advance_front (S k) (queue l)) as [[fl dropped] q] eqn:Hadv.
    destruct (advance_front_ok _ _ _ _ _ _ Hok Hbs Hkbs Hadv) as [Hok' Hq].
    destruct (advance_front_pooled _ _ _ _ _ Hpool Hadv) as [Hpool' Hd].
    set (d2 := bytes_written (S k) (spend_bytes (S k) d1)).
    set (l1 := {| drive := d2; io := io l; buffers := buffers l; queue := q; socket := s1 |}).
    assert (∃ p, @drop_option limits io_error dropped l1 = (Ret tt, l1 <| buffers := p |>)) as [p Hdrop].
    { destruct dropped as [b|]; [by apply drop_buffer_spec|by exists (buffers l1)]. }
    assert (wrote l (l1 <| buffers := p |>)) as Hwrote.
    { exists (take (S k) bs). rewrite Htake in Hsent. by split_and!. }
    match goal with |- context [advance_front (S k) ?x] => change x with (queue l) end. rewrite Hadv. cbv beta iota.
    match goal with |- context [drop_option limits dropped ?x] => change x with l1 end. rewrite Hdrop. cbv beta iota.
    change (budget (drive (modify buffers (λ _, p) l1))) with (budget d2).
    destruct (can_continue (budget d2)) eqn:Hc2; cbn [negb].
    + intros Hloop. apply IH in Hloop as [Hw2 Hr]; [|done..|].
      * split; [by eapply wrote_trans|done].
      * change (steps (budget d2) ≤ fuel). unfold d2, bytes_written. destruct (spend_keeps (S k) d1) as (Hst & _). simpl in *. lia.
    + intros [= <- <-]. split; [done|]. by apply (spend_exhausts (S k) d1).
Qed.

Lemma queue_is_empty_spec q : queue_ok q → queue_is_empty q = true ↔ queue_bytes q = [].
Proof.
  intros Hok. pose proof (front_slice_ok q Hok) as Hf. unfold front_slice, queue_is_empty, queue_bytes, entries in *.
  destruct Hok as [Hent Hfirst]. destruct (first q) as [w|] eqn:Hw; simpl in *.
  - split; [done|]. intros [Hnil _]%app_nil. exfalso. unfold entries in Hent. rewrite Hw in Hent. apply Forall_cons in Hent as [Hlt _].
    unfold write_bytes in Hnil. apply (f_equal length) in Hnil. rewrite length_drop in Hnil. unfold buf_len in Hlt. simpl in Hnil. lia.
  - by rewrite (Hfirst eq_refl).
Qed.

Lemma write_unchecked_spec l r l' :
  queue_ok (queue l) → queue_pooled (queue l) → write_stream_queue_unchecked limits l = (r, l') →
  wrote l l' ∧
  match r with
  | Ret Drained => queue_bytes (queue l') = []
  | Ret (Pending BlockBudget) => queue_bytes (queue l') ≠ [] ∧ exhausted (drive l') = true
  | Ret (Pending BlockReactorWrite) => queue_bytes (queue l') ≠ [] ∧ blocked_on REACTOR_WRITE (report (drive l')) = true
  | Fail _ => True
  | _ => False
  end.
Proof.
  intros Hok Hpool. unfold write_stream_queue_unchecked. stm_unfold.
  destruct (write_loop limits (steps (budget (drive l))) l) as [r1 l1] eqn:Hloop.
  apply write_loop_spec in Hloop as [Hw Hr]; [|done..]. destruct Hw as (c & Hs & Hq & Hok1 & Hrest).
  assert (wrote l l1) as Hw by (by exists c).
  destruct r1 as [b|e| |]; [|intros [= <- <-]; done|done|done]. cbv beta iota.
  destruct (queue_is_empty (queue l1)) eqn:He.
  { intros [= <- <-]. split; [done|]. by apply queue_is_empty_spec. }
  assert (queue_bytes (queue l1) ≠ []) as Hne by (rewrite <-queue_is_empty_spec by done; congruence).
  destruct b as [[]|]; cbn [default]; [rewrite decide_False by done|rewrite decide_True by done|by destruct Hne]; intros [= <- <-].
  - done.
  - split; [by apply wrote_drive|]. split; [done|]. by apply blocked_on_block.
Qed.

(** C17: Writing a queue to a socket that does not block: the bytes that leave the queue are the bytes
    sent, in order, none lost and none twice; and a write that stops short has its reason on record:
    the budget is exhausted, or the socket is waited for and its slot no longer allows a write. *)
Theorem stream_written_exactly l r l' :
  queue_ok (queue l) → queue_pooled (queue l) → write_stream_queue_ready limits l = (r, l') →
  ∃ c, sent (socket l') = sent (socket l) ++ c ∧ queue_bytes (queue l) = c ++ queue_bytes (queue l') ∧
    reads (socket l') = reads (socket l) ∧
    match r with
    | Ret Drained => queue_bytes (queue l') = []
    | Ret (Pending BlockBudget) => queue_bytes (queue l') ≠ [] ∧ exhausted (drive l') = true ∧ io l' = io l
    | Ret (Pending BlockReactorWrite) => queue_bytes (queue l') ≠ [] ∧ can_write (io l') = false ∧
        blocked_on REACTOR_WRITE (report (drive l')) = true
    | Fail _ => io l' = io l
    | Panic | Timeout => False
    end.
Proof.
  intros Hok Hpool. unfold write_stream_queue_ready. stm_unfold.
  destruct (queue_is_empty (queue l)) eqn:He.
  { intros [= <- <-]. exists []. rewrite app_nil_r. split_and!; try done. by apply queue_is_empty_spec. }
  destruct (can_write (io l)) eqn:Hcan; cbn [negb].
  2:{ intros [= <- <-]. exists []. rewrite app_nil_r. split_and!; try done; [|by apply blocked_on_block].
      simpl. rewrite <-queue_is_empty_spec by done. congruence. }
  destruct (write_stream_queue_unchecked limits l) as [r1 l1] eqn:Hun.
  apply write_unchecked_spec in Hun as [(c & Hs & Hq & Hok1 & Hp1 & Hr1 & Hio) Hr]; [|done..].
  destruct r1 as [w|e| |]; [|by intros [= <- <-]; exists c|done|done]. cbv beta iota.
  destruct w as [|[]]; [rewrite decide_False by done|rewrite decide_False by done|rewrite decide_True by done];
    intros [= <- <-]; exists c; split_and!; try done; try apply Hr.
  simpl. apply (can_clear false).
Qed.
End write.

(** ** Reading a socket *)
Section read.
Context (limits : NetworkLimits) (grown : nat → nat → nat) (Hcap : 0 < tcp_byte_capacity limits).

Definition read_kept (l l' : Link) : Prop :=
  sent (socket l') = sent (socket l) ∧ writes (socket l') = writes (socket l) ∧ queue l' = queue l.

Lemma read_unchecked_spec l r l' :
  read_stream_unchecked limits grown l = (r, l') →
  read_kept l l' ∧ io l' = io l ∧
  match r with
  | Ret (ReadBytes b) => arriving (socket l) = as_slice b ++ arriving (socket l') ∧ as_slice b ≠ [] ∧ pooled b
  | Ret ReadBlocked => socket l' = socket l ∧ (exhausted (drive l') = true ∨
      local_buffer_continuation (report (drive l')) = true ∧ blocked_on LOCAL_BUFFER_CAPACITY (report (drive l')) = true)
  | Ret ReadWouldBlock => arriving (socket l') = arriving (socket l) ∧ blocked_on REACTOR_READ (report (drive l')) = true
  | Ret ReadClosed | Fail _ => arriving (socket l') = arriving (socket l)
  | _ => False
  end.
Proof.
  unfold read_stream_unchecked. stm_unfold.
  destruct (Nat.eqb_spec (remaining_bytes (drive l)) 0) as [Hz|Hz].
  { intros [= <- <-]. split; [done|]. split; [done|]. split; [done|]. by left. }
  unfold try_tcp_byte. destruct (byte_try_take_ends limits (tcp_byte_capacity limits) (buffers l)) as (taken & p & Htake & Hends).
  cbv beta iota. rewrite Htake. destruct taken as [b|x| |]; try done; cbv beta iota.
  2:{ intros [= <- <-]. split; [done|]. split; [done|]. split; [done|]. right. split; [done|].
      by apply (blocked_on_block LOCAL_BUFFER_CAPACITY). }
  apply byte_try_take_pooled in Htake. change (drive (l <| buffers := p |>)) with (drive l).
  destruct (step_or_exhausted (drive l)) as [ok d] eqn:Hstep. apply step_spec in Hstep.
  assert (Hdrop : ∀ l1, ∃ p1, @drop_buffer limits io_error b l1 = (Ret tt, l1 <| buffers := p1 |>)) by (intros; by apply drop_buffer_spec).
  destruct ok; cbn [negb]; cbv beta iota.
  2:{ destruct (Hdrop (l <| buffers := p |> <| drive := d |>)) as [p1 Hp1]. rewrite Hp1. intros [= <- <-]. rewrite Hstep.
      split; [done|]. split; [done|]. split; [done|]. by left. }
  destruct Hstep as [Hcan ->]. set (d1 := (drive l) <| budget; steps ::= pred |>).
  set (l1 := l <| buffers := p |> <| drive := d1 |>). change (socket l1) with (socket l).
  destruct (stream_read _ (socket l)) as [answer s1] eqn:Hread.
  apply stream_read_spec in Hread as (Hw & Hs & Hr); [|unfold remaining_bytes in *; simpl; lia].
  destruct answer as [[|x data]|e| |]; try done.
  - destruct (Hdrop (l1 <| socket := s1 |>)) as [p1 Hp1]. rewrite Hp1. intros [= <- <-]. split; [done|]. split; [done|]. by destruct Hr.
  - intros [= <- <-]. split; [done|]. split; [done|]. by destruct Hr.
  - destruct e as [| |code]; cbv beta iota;
      match goal with |- context [drop_buffer limits b ?x] => destruct (Hdrop x) as [p1 Hp1] end; rewrite Hp1;
      intros [= <- <-]; (split; [done|]); (split; [done|]); try done.
    split; [done|]. by apply (blocked_on_block REACTOR_READ).
Qed.

(** Reading a socket that does not block: every byte taken off the socket is handed to the caller,
    in order, and a read that hands over nothing has taken nothing and has its reason on record. *)
Theorem stream_read_exactly l r l' :
  read_stream_ready limits grown l = (r, l') →
  sent (socket l') = sent (socket l) ∧ queue l' = queue l ∧
  arriving (socket l) = (match r with Ret (ReadBytes b) => as_slice b | _ => [] end) ++ arriving (socket l') ∧
  match r with
  | Ret (ReadBytes b) => as_slice b ≠ [] ∧ io l' = io l
  | Ret (ReadNotReady | ReadWouldBlock) => can_read (io l') = false ∧ blocked_on REACTOR_READ (report (drive l')) = true
  | Ret ReadBlocked => socket l' = socket l ∧ io l' = io l ∧ (exhausted (drive l') = true ∨
      local_buffer_continuation (report (drive l')) = true)
  | Ret ReadClosed | Fail _ => io l' = io l
  | Panic | Timeout => False
  end.
Proof.
  unfold read_stream_ready. stm_unfold. destruct (can_read (io l)) eqn:Hcan; cbn [negb].
  2:{ intros [= <- <-]. split_and!; try done. by apply blocked_on_block. }
  destruct (read_stream_unchecked limits grown l) as [r1 l1] eqn:Hun.
  apply read_unchecked_spec in Hun as ((Hs & Hw & Hq) & Hio & Hr).
  destruct r1 as [[]|e| |]; try done; intros [= <- <-]; cbn [app]; split_and!; try done; try (destruct_and?; done).
  - apply (can_clear true).
  - by destruct Hr as [-> _].
  - destruct Hr as [_ [?|[? _]]]; auto.
Qed.
End read.

(** ** Frames of the guest *)
Lemma event_spec n b d d' :
  event_or_exhausted n d = (b, d') → 0 < events (budget d) → 0 < budget_bytes (budget d) →
  b = true ∧ steps (budget d') = steps (budget d).
Proof.
  unfold event_or_exhausted. intros [-> ->]%or_exhausted_spec He Hb.
  by destruct (events (budget d)), (budget_bytes (budget d)); try lia.
Qed.

Lemma can_emit_spec b d d' :
  can_emit_event_or_exhausted d = (b, d') →
  if b then d' = d ∧ 0 < events (budget d) ∧ 0 < budget_bytes (budget d) else d' = mark_budget_exhausted d.
Proof.
  unfold can_emit_event_or_exhausted. intros [-> ->]%or_exhausted_spec. destruct (_ && _) eqn:Hc; [|done].
  apply andb_true_iff in Hc as [?%Nat.ltb_lt ?%Nat.ltb_lt]. done.
Qed.

Lemma start_whole_item_spec n b d d' :
  start_whole_item_operation n d = (b, d') →
  if b then n ≤ remaining_bytes d ∧ d' = d <| budget; steps ::= pred |> else d' = mark_budget_exhausted d.
Proof.
  unfold start_whole_item_operation. destruct (Nat.ltb_spec (remaining_bytes d) n); [by intros [= <- <-]|].
  intros Hs%step_spec. destruct b; [|done]. by destruct Hs.
Qed.

(** A frame handed to the session within a turn is accounted for: the budget refuses before the
    session is asked, never after it took the frame, so that no frame is handed over twice. *)
Lemma write_guest_frame_spec {S E} len (write : stm S E bool) d s r d' s' :
  write_guest_frame len write (d, s) = (r, (d', s')) →
  match r with
  | Ret FrameFlushed => write s = (Ret true, s')
  | Ret FrameWouldBlock => write s = (Ret false, s') ∧ blocked_on GUEST_SEND_CAPACITY (report d') = true
  | Ret FrameBudget => s' = s ∧ exhausted d' = true
  | Fail e => write s = (Fail e, s')
  | Panic => write s = (Panic, s')
  | Timeout => write s = (Timeout, s')
  end.
Proof.
  unfold write_guest_frame. destruct (can_emit_event_or_exhausted d) as [emit d1] eqn:He. apply can_emit_spec in He.
  destruct emit; cbn [negb]; [|intros [= <- <- <-]; by rewrite He]. destruct He as (-> & Hev & Hby).
  destruct (start_whole_item_operation len d) as [start d1] eqn:Hst. apply start_whole_item_spec in Hst.
  destruct start; cbn [negb]; [|intros [= <- <- <-]; by rewrite Hst]. destruct Hst as [_ ->].
  destruct (write s) as [[[]|e| |] s1] eqn:Hw; try (by intros [= <- <- <-]).
  - destruct (event_or_exhausted len _) as [ok d2] eqn:Hok. apply event_spec in Hok as [-> _]; [|done..]. cbn [negb].
    by intros [= <- <- <-].
  - intros [= <- <- <-]. split; [done|]. by apply blocked_on_block.
Qed.

(** A frame the session has delivered is never dropped for want of budget: the turn refuses before
    it asks the session, or hands the frame over. *)
Lemma read_guest_frame_spec {S E} limits (read : FrameBuf → stm S E (DriveGuestFrameReadStatus * FrameBuf)) d p s r d' p' s' :
  read_guest_frame limits read (d, p, s) = (r, (d', p', s')) →
  match r with
  | Ret (GuestFrame f) => ∃ frame, read frame s = (Ret (StatusFrame, f), s')
  | Ret GuestClosed => ∃ frame f, read frame s = (Ret (StatusClosed, f), s')
  | Ret GuestWouldBlock => ∃ frame f, read frame s = (Ret (StatusBlocked, f), s') ∧ blocked_on GUEST_RECV (report d') = true
  | Ret GuestBlocked => s' = s ∧ (exhausted d' = true ∨ local_buffer_continuation (report d') = true)
  | Fail e => ∃ frame, read frame s = (Fail e, s')
  | Panic => ∃ frame, read frame s = (Panic, s')
  | Timeout => ∃ frame, read frame s = (Timeout, s')
  end.
Proof.
  unfold read_guest_frame. destruct (can_emit_event_or_exhausted d) as [emit d1] eqn:He. apply can_emit_spec in He.
  destruct emit; cbn [negb]; [|intros [= <- <- <- <-]; rewrite He; split; [done|by left]]. destruct He as (-> & Hev & Hby).
  destruct (start_whole_item_operation _ d) as [start d1] eqn:Hst. apply start_whole_item_spec in Hst.
  destruct start; cbn [negb]; [|intros [= <- <- <- <-]; rewrite Hst; split; [done|by left]]. destruct Hst as [_ ->].
  destruct (try_guest_frame limits p) as [[frame|x| |] p1] eqn:Htake.
  2:{ intros [= <- <- <- <-]. split; [done|by right]. }
  2,3: exfalso; unfold try_guest_frame, frame_try_take in Htake; repeat (destruct (_ <? _); [done|]); destruct (_ <=? _); [done|];
    destruct (frame_pool p); [done|]; by destruct (_ <? _).
  destruct (read frame s) as [[[[] f]|e| |] s1] eqn:Hr; try (intros [= <- <- <- <-]; by exists frame).
  - destruct (event_or_exhausted _ _) as [ok d2] eqn:Hok. apply event_spec in Hok as [-> _]; [|done..]. cbn [negb].
    intros [= <- <- <- <-]. by exists frame.
  - intros [= <- <- <- <-]. exists frame, f. split; [done|]. by apply blocked_on_block.
  - destruct (event_or_exhausted _ _) as [ok d2] eqn:Hok. apply event_spec in Hok as [-> _]; [|done..]. cbn [negb].
    intros [= <- <- <- <-]. by exists frame, f.
Qed.

(** ** Examples: a queue of two buffers to a socket that takes three bytes and blocks *)
Definition byte_buf (bs : bytes) : ByteBuf := {| buf_bytes := {| vec_bytes := bs; capacity := 4 |}; class := TcpClass |}.
Definition example_queue : WriteQueue := snd (queue_push (byte_buf [3; 4; 5]%Z) (snd (queue_push (byte_buf [1; 2]%Z) queue_new))).
Definition example_link : Link := {|
  drive := turn_start three_frames; io := mark_reactor_ready true true (registered ReadWrite);
  buffers := match prewarm_instance_network three_frames pool_new with Ret p => p | _ => pool_new end;
  queue := example_queue;
  socket := {| reads := [Arrived [6; 7; 8; 9; 10]%Z]; writes := [Accepts 3; Accepts 1; WriteFails WouldBlock]; sent := [] |} |}.
Definition example_written : Link := Eval vm_compute in snd (write_stream_queue_ready three_frames example_link).
Definition example_read : Link := Eval vm_compute in snd (read_stream_ready three_frames (λ _ n, n) example_link).

Lemma example_queue_ok : queue_ok (queue example_link) ∧ queue_pooled (queue example_link).
Proof. split; [split; [by repeat constructor|done]|by repeat constructor]. Qed.

Lemma stream_written_exactly_witness :
  queue_bytes (queue example_link) = [1; 2; 3; 4; 5]%Z ∧ sent (socket example_written) = [1; 2; 3]%Z ∧
  ∃ c, sent (socket example_written) = [] ++ c ∧ queue_bytes (queue example_link) = c ++ queue_bytes (queue example_written) ∧
    reads (socket example_written) = reads (socket example_link) ∧
    queue_bytes (queue example_written) ≠ [] ∧ can_write (io example_written) = false ∧
    blocked_on REACTOR_WRITE (report (drive example_written)) = true.
Proof.
  split; [reflexivity|]. split; [reflexivity|].
  apply (stream_written_exactly three_frames example_link (Ret (Pending BlockReactorWrite)) example_written);
    [apply example_queue_ok|apply example_queue_ok|vm_compute; reflexivity].
Defined.

Lemma stream_read_exactly_witness :
  0 < tcp_byte_capacity three_frames ∧
  [6; 7; 8; 9; 10]%Z = [6; 7; 8; 9]%Z ++ arriving (socket example_read) ∧ [6; 7; 8; 9]%Z ≠ [] .
Proof.
  assert (0 < tcp_byte_capacity three_frames) as Hcap by (vm_compute; lia). split; [done|].
  destruct (stream_read_exactly three_frames (λ _ n, n) Hcap example_link (Ret (ReadBytes (byte_buf [6; 7; 8; 9]%Z))) example_read) as (_ & _ & H1 & H2 & _);
    [vm_compute; reflexivity|]. split; [exact H1|exact H2].
Defined.
