(* ===== verification/GuestLink.v ===== *)
(** * The link to the guest
      (src/libs/agentdp-network/src/guest.rs, gateway/device.rs, [send_guest_frames] of event_loop.rs
      and the session of src/backends/agentdp-qemu/src/net.rs)

    Frames for the guest wait in a bounded queue and are handed to the session
    of the transport one by one, within the budget of a turn; a frame that the
    session could not finish stays at the head and is handed over again.  The
    session is an interface: its law says what it does with a frame, the QEMU
    stream of [FrameStream] has it, and what reaches the guest is proved against
    the law. *)
From S2P Require Import Prelude Fields Text Io IoSlot FrameStream Limits Buffers Drive DriveCorrect.
Local Open Scope nat_scope.

Inductive FrameRead := ReadFrame | ReadIsBlocked | ReadIsClosed.
Inductive FrameWrite := WriteFlushed | WriteIsBlocked.

(** [GuestFrameSession]; [read_frame_into] returns what it put into the frame. *)
Class GuestFrameSession (S E : Type) := {
  read_frame_into : bytes → stm S E (FrameRead * bytes);
  write_frame : bytes → stm S E FrameWrite;
}.

(** What a session promises.  [session_view s delivered part received] says that the session has carried
    the frames [delivered] to the guest and, if [part] is a frame, some of that one, and that it has
    returned the frames [received]. *)
Class GuestSessionLaws (S E : Type) `{GuestFrameSession S E} := {
  session_view : S → list bytes → option bytes → list bytes → Prop;
  session_takes : bytes → Prop;
  write_frame_law s delivered part received frame r s' :
    session_view s delivered part received → part = None ∨ part = Some frame → session_takes frame →
    write_frame frame s = (r, s') →
    match r with
    | Ret WriteFlushed => session_view s' (delivered ++ [frame]) None received
    | Ret WriteIsBlocked => session_view s' delivered (Some frame) received
    | Fail _ => True
    | Panic | Timeout => False
    end;
  read_frame_law s delivered part received buffer r s' :
    session_view s delivered part received → read_frame_into buffer s = (r, s') →
    match r with
    | Ret (ReadFrame, frame) => session_view s' delivered part (received ++ [frame])
    | Ret _ => session_view s' delivered part received
    | Fail _ => True
    | Panic | Timeout => False
    end;
}.

(** ** The QEMU stream is a session *)
Inductive TransportError := Operation (operation : str) (error : FrameStream.Error).

#[export] Instance qemu_session : GuestFrameSession FrameStream TransportError := {|
  read_frame_into frame s :=
    match try_read_frame_into frame s with
    | (r, s) => (map_err (Operation (bytes_of "read QEMU stream frame"))
        ((λ '(read, frame), (match read with FrameReady => ReadFrame | FrameStream.ReadBlocked => ReadIsBlocked
                                         | FrameStream.ReadClosed => ReadIsClosed end, frame)) <$> r), s)
    end;
  write_frame frame s :=
    match try_write_frame frame s with
    | (r, s) => (map_err (Operation (bytes_of "write QEMU stream frame"))
        ((λ write, match write with Flushed => WriteFlushed | WriteBlocked => WriteIsBlocked end) <$> r), s)
    end;
|}.

(** The view is relative to the stream [s0] as it was at the start. *)
Definition qemu_view (s0 : FrameStream) (s : FrameStream) (delivered : list bytes) (part : option bytes) (received : list bytes) : Prop :=
  write_state s0 s delivered part ∧ read_ok s ∧
  arriving (stream s0) = stream_of received ++ held s ++ arriving (stream s).

Lemma write_state_ok s0 s fs p : write_state s0 s fs p → write_ok s.
Proof. destruct p; simpl; [intros (_ & Hu & _); by right|intros (_ & ? & ?); by left]. Qed.

Lemma frame_written_read_ok s s' c : frame_written s s' c → read_ok s → read_ok s' ∧ held s' = held s ∧ arriving (stream s') = arriving (stream s).
Proof.
  intros (_ & Hr & H1 & H2 & H3 & H4) [O1 O2 O3 O4].
  assert (held s' = held s) as Hh by (unfold held; congruence).
  assert (arriving (stream s') = arriving (stream s)) as Ha by (unfold arriving; congruence).
  split; [|done]. split; try congruence. unfold payload_ok in *. by rewrite H1, H2, H3, H4.
Qed.

Lemma frame_read_write_state s0 s s' c fs p : frame_read s s' c → write_state s0 s fs p → write_state s0 s' fs p.
Proof.
  intros (_ & Hs & _ & Hp & Ho). destruct p as [f|]; simpl; unfold unsent; rewrite Hs, Hp, Ho; done.
Qed.

#[export] Program Instance qemu_session_laws (s0 : FrameStream) : GuestSessionLaws FrameStream TransportError := {|
  session_view := qemu_view s0;
  session_takes frame := frame ≠ [] ∧ small frame;
|}.
Next Obligation.
  intros s0 s delivered part received frame r s' (Hview & Hread & Harr) Hpart [Hne Hsmall]. unfold write_frame, qemu_session.
  destruct (try_write_frame frame s) as [r0 s1] eqn:Hw. intros [= <- <-].
  pose proof (write_frame_exact _ _ _ _ (write_state_ok _ _ _ _ Hview) Hne Hsmall Hw) as (w & Hwritten & _).
  destruct (frame_written_read_ok _ _ _ Hwritten Hread) as (Hread' & Hheld & Harr').
  assert (arriving (stream s0) = stream_of received ++ held s1 ++ arriving (stream s1)) as Hgot by (by rewrite Hheld, Harr').
  eapply write_state_call in Hw as (c & p & Hs & Hframe & Hr); [|done..].
  destruct r0 as [[]|[]| |]; try done; simpl; (split; [|done]).
  - destruct Hr as (-> & Hp & Ho). split; [|done]. by rewrite stream_of_app, stream_of_one, Hs, Hframe.
  - destruct Hr as (Hc & Hu). split; [done|]. split; [done|]. exists (p ++ c). split; [done|].
    by rewrite Hframe, Hc, app_assoc.
Qed.
Next Obligation.
  intros s0 s delivered part received frame r s' (Hview & Hread & Harr). unfold read_frame_into, qemu_session.
  destruct (try_read_frame_into frame s) as [r0 s1] eqn:Hw. intros [= <- <-].
  apply read_frame_exact in Hw as (c & Hrd & Hread' & Hr); [|done].
  pose proof (frame_read_write_state _ _ _ _ _ _ Hrd Hview) as Hview'. destruct Hrd as (Hc & _).
  destruct r0 as [[read f]|[]| |]; try done. simpl. destruct read; simpl; (split; [done|]; split; [done|]).
  - destruct Hr as (Hf & _ & Hheld'). by rewrite Hheld', Harr, Hc, stream_of_app, stream_of_one, <-Hf, app_nil_l, <-!app_assoc.
  - destruct Hr as (_ & Hheld' & _). by rewrite Hheld', Harr, Hc, <-!app_assoc.
  - destruct Hr as (_ & Hheld' & _). by rewrite Hheld', Harr, Hc, <-!app_assoc.
Qed.

(** ** [GuestIo] *)
Section guest_io.
Context {S E : Type} `{GuestFrameSession S E} (limits : NetworkLimits).

Record GuestIo := {
  session : S;
  generation : Z;
  outbound : list FrameBuf;
  outbound_capacity : nat;
  guest_slot : IoSlotState;
}.

(** What the operations share: the turn and the pool *)
Record Guest := { guest_io : GuestIo; guest_drive : DriveTurn; guest_pool : BufferPool }.

Inductive GuestEvent :=
| EventFrame (generation : Z) (frame : FrameBuf)
| EventDisconnected (generation : Z) (result : outcome E unit).
Inductive GuestFrameEnqueue := Queued | EnqueueBlocked (frame : FrameBuf).

(** [GuestIo::register], once the reactor has accepted the source *)
Definition guest_register (s : S) (gen : Z) : GuestIo :=
  {| session := s; generation := gen; outbound := []; outbound_capacity := frame_device_queue_capacity limits;
     guest_slot := registered Readable |}.

Definition set_io (g : Guest) (s : S) (out : list FrameBuf) (slot : IoSlotState) (d : DriveTurn) (p : BufferPool) : Guest :=
  {| guest_io := {| session := s; generation := generation (guest_io g); outbound := out;
                    outbound_capacity := outbound_capacity (guest_io g); guest_slot := slot |};
     guest_drive := d; guest_pool := p |}.

(** [enqueue]; [reactor] is the answer of the reactor, should the interest have to change.  The frame is
    in the queue when the reactor refuses. *)
Definition enqueue (reactor : outcome E unit) (frame : FrameBuf) (g : Guest) : outcome E GuestFrameEnqueue * Guest :=
  let io := guest_io g in
  let (reserved, d) := enqueue_guest_frame (length (outbound io)) (outbound_capacity io) (length (vec_bytes frame)) (guest_drive g) in
  if negb reserved then (Ret (EnqueueBlocked frame), set_io g (session io) (outbound io) (guest_slot io) d (guest_pool g))
  else
    let (r, slot) := enable_write reactor (guest_slot io) in
    ((λ _, Queued) <$> r, set_io g (session io) (outbound io ++ [frame]) slot d (guest_pool g)).

(** The closure that hands the frame to the session *)
Definition hand_over (frame : bytes) : stm S E bool := λ s,
  let (r, s) := write_frame frame s in
  ((λ w, match w with WriteFlushed => true | WriteIsBlocked => false end) <$> r, s).

(** The loop of [flush_outbound]: each round but the last takes a frame off the queue. *)
Fixpoint flush_outbound_loop (fuel : nat) (g : Guest) : outcome E unit * Guest :=
  let io := guest_io g in
  if negb (can_write (guest_slot io)) then (Ret tt, g)
  else match outbound io with
       | [] => (Ret tt, g)
       | frame :: rest =>
         match fuel with
         | O => (Timeout, g)
         | Datatypes.S fuel =>
           let (r, ds) := write_guest_frame (length (vec_bytes frame)) (hand_over (vec_bytes frame)) (guest_drive g, session io) in
           let (d, s) := ds in
           match r with
           | Ret FrameFlushed =>
             flush_outbound_loop fuel (set_io g s rest (guest_slot io) d (frame_recycle limits frame (guest_pool g)))
           | Ret FrameWouldBlock =>
             (Ret tt, set_io g s (outbound io) (clear_write_after_would_block (guest_slot io)) d (guest_pool g))
           | Ret FrameBudget => (Ret tt, set_io g s (outbound io) (guest_slot io) d (guest_pool g))
           | Fail e => (Fail e, set_io g s (outbound io) (guest_slot io) d (guest_pool g))
           | Panic => (Panic, g)
           | Timeout => (Timeout, g)
           end
         end
       end.

Definition flush_outbound (reactor : outcome E unit) (g : Guest) : outcome E unit * Guest :=
  match flush_outbound_loop (Datatypes.S (length (outbound (guest_io g)))) g with
  | (Ret _, g) =>
    let io := guest_io g in
    match outbound io with
    | [] =>
      if watches_write (guest_slot io) then
        match try_apply_state_change (disable_write reactor) (guest_drive g) (guest_slot io) with
        | (Ret (Applied _), d, slot) => (Ret tt, set_io g (session io) [] slot d (guest_pool g))
        | (Ret (Failed e), d, slot) => (Fail e, set_io g (session io) [] slot d (guest_pool g))
        | (Ret Deferred, d, slot) => (Ret tt, set_io g (session io) [] slot d (guest_pool g))
        | (Fail _, d, slot) | (Panic, d, slot) => (Panic, g)
        | (Timeout, d, slot) => (Timeout, g)
        end
      else (Ret tt, g)
    | _ =>
      if negb (can_write (guest_slot io))
      then (Ret tt, set_io g (session io) (outbound io) (guest_slot io) (block_on GUEST_SEND_CAPACITY (guest_drive g)) (guest_pool g))
      else (Ret tt, g)
    end
  | r => r
  end.

(** [drain_ready_reads]: what is read is appended to [events].  Every round takes a step. *)
Definition fill_frame (frame : FrameBuf) : stm S E (DriveGuestFrameReadStatus * FrameBuf) := λ s,
  let (r, s) := read_frame_into (vec_bytes frame) s in
  ((λ '(read, bs), (match read with ReadFrame => StatusFrame | ReadIsBlocked => StatusBlocked | ReadIsClosed => StatusClosed end,
                    frame <| vec_bytes := bs |>)) <$> r, s).

Fixpoint drain_loop (fuel : nat) (events : list GuestEvent) (g : Guest) : outcome E unit * list GuestEvent * Guest :=
  let io := guest_io g in
  if negb (can_read (guest_slot io)) then (Ret tt, events, g)
  else
    match fuel with
    | O => (Timeout, events, g)
    | Datatypes.S fuel =>
      let (r, dps) := read_guest_frame limits fill_frame (guest_drive g, guest_pool g, session io) in
      let '(d, p, s) := dps in
      match r with
      | Ret (GuestFrame frame) =>
        drain_loop fuel (events ++ [EventFrame (generation io) frame]) (set_io g s (outbound io) (guest_slot io) d p)
      | Ret GuestWouldBlock => (Ret tt, events, set_io g s (outbound io) (clear_read_after_would_block (guest_slot io)) d p)
      | Ret GuestBlocked => (Ret tt, events, set_io g s (outbound io) (guest_slot io) d p)
      | Ret GuestClosed =>
        (Ret tt, events ++ [EventDisconnected (generation io) (Ret tt)],
         set_io g s (outbound io) (clear_read_after_would_block (guest_slot io)) d p)
      | Fail e => (Fail e, events, set_io g s (outbound io) (guest_slot io) d p)
      | Panic => (Panic, events, g)
      | Timeout => (Timeout, events, g)
      end
    end.

Definition drain_ready_reads (events : list GuestEvent) (g : Guest) : outcome E unit * list GuestEvent * Guest :=
  drain_loop (Datatypes.S (steps (budget (guest_drive g)))) events g.

(** [drive_ready]: the flags of the readiness reported for the guest *)
Definition mark_guest_ready (ready : list (bool * bool)) (g : Guest) : Guest :=
  let io := guest_io g in
  set_io g (session io) (outbound io) (foldl (λ slot rw, mark_reactor_ready rw.1 rw.2 slot) (guest_slot io) ready) (guest_drive g) (guest_pool g).

Definition guest_drive_ready (reactor : outcome E unit) (ready : list (bool * bool)) (events : list GuestEvent) (g : Guest)
    : outcome E unit * list GuestEvent * Guest :=
  match ready with
  | [] => (Ret tt, events, g)
  | _ =>
    match flush_outbound reactor (mark_guest_ready ready g) with
    | (Ret _, g) => drain_ready_reads events g
    | (r, g) => (r, events, g)
    end
  end.

(** [send_guest_frames] of the event loop, with a guest connected: the frames that are left, and the
    error that makes the loop disconnect *)
Fixpoint send_guest_frames (reactor : outcome E unit) (frames : list FrameBuf) (g : Guest)
    : outcome unit (list FrameBuf * option E) * Guest :=
  match frames with
  | [] => (Ret ([], None), g)
  | frame :: rest =>
    match enqueue reactor frame g with
    | (Ret Queued, g) => send_guest_frames reactor rest g
    | (Ret (EnqueueBlocked frame), g) => (Ret (frame :: rest, None), g)
    | (Fail e, g) => (Ret (rest, Some e), g)
    | (Panic, g) => (Panic, g)
    | (Timeout, g) => (Timeout, g)
    end
  end.
End guest_io.
