(* ===== verification/GuestExact.v ===== *)
(** * What crosses the link to the guest

    Whatever the session does with its frames one by one, and however turns,
    budgets and readiness cut the work up, the frames accepted for the guest
    reach the session in order and once each, and the events are the frames the
    session returned. *)
From S2P Require Import Prelude Fields Text Io IoSlot FrameStream Limits Buffers Drive DriveCorrect GuestLink.
Local Open Scope nat_scope.

(** A step that only the turn or the queue sees may answer with a value or an error. *)
Definition settles {E A} (r : outcome E A) : Prop := match r with Ret _ | Fail _ => True | _ => False end.

(** The frames of a list of events *)
Definition event_frames {E} (events : list (GuestEvent (E:=E))) : list bytes :=
  omap (λ e, match e with EventFrame _ f => Some (vec_bytes f) | EventDisconnected _ _ => None end) events.

Lemma enable_write_spec {E} (reactor : outcome E unit) slot r slot' :
  settles reactor → enable_write reactor slot = (r, slot') →
  settles r ∧ (r = Ret tt → watches_write slot' = true).
Proof.
  unfold enable_write, mbind, stm_bind, stm_get, mret, stm_ret, stm_lift, stm_modify. intros Hr.
  case_bool_decide as Hd; [intros [= <- <-]; split; [done|]; by unfold watches_write; rewrite Hd|].
  destruct reactor as [[]|e| |]; try done; intros [= <- <-]; (split; [done|]); [|done]. intros _.
  unfold watches_write, set_registered_interest_after_reregister. simpl. by repeat case_match.
Qed.

Lemma disable_write_settles {E} (reactor : outcome E unit) slot r slot' :
  settles reactor → disable_write reactor slot = (r, slot') → settles r.
Proof.
  unfold disable_write, mbind, stm_bind, stm_get, mret, stm_ret, stm_lift, stm_modify. intros Hr.
  case_bool_decide as Hd; [by intros [= <- <-]|]. destruct reactor as [[]|e| |]; try done; by intros [= <- <-].
Qed.

Section exact.
Context {S E : Type} `{GuestSessionLaws S E} (limits : NetworkLimits).
Implicit Types g : (@Guest S).

(** The session has carried [delivered], the queue holds the rest of [accepted], and only the head of
    the queue may be on its way. *)
Record link_ok (g : @Guest S) (accepted received : list bytes) : Prop := {
  lo_out : ∃ delivered part, session_view (session (guest_io g)) delivered part received ∧
    accepted = delivered ++ (vec_bytes <$> outbound (guest_io g)) ∧
    (part = None ∨ part = vec_bytes <$> head (outbound (guest_io g)));
  lo_takes : Forall (λ f, session_takes (vec_bytes f)) (outbound (guest_io g));
  lo_bound : length (outbound (guest_io g)) ≤ outbound_capacity (guest_io g);
}.

(** What leaves the session and the queue alone *)
Lemma link_ok_same g g' accepted received :
  session (guest_io g') = session (guest_io g) → outbound (guest_io g') = outbound (guest_io g) →
  outbound_capacity (guest_io g') = outbound_capacity (guest_io g) →
  link_ok g accepted received → link_ok g' accepted received.
Proof. intros Hs Ho Hc [H1 H2 H3]. split; rewrite ?Hs, ?Ho, ?Hc; done. Qed.

Lemma enqueue_guest_frame_spec queued cap len d b d' :
  enqueue_guest_frame queued cap len d = (b, d') →
  if b then queued < cap else blocked_on GUEST_SEND_CAPACITY (report d') = true ∨ exhausted d' = true.
Proof.
  unfold enqueue_guest_frame. destruct (Nat.leb_spec cap queued).
  { intros [= <- <-]. left. by apply blocked_on_block. }
  destruct (start_whole_item_operation len d) as [ok d1] eqn:Hs. apply start_whole_item_spec in Hs.
  destruct ok; intros [= <- <-]; [done|]. right. by rewrite Hs.
Qed.

Lemma enqueue_ok (reactor : outcome E unit) frame (g : @Guest S) r g' accepted received :
  settles reactor → session_takes (vec_bytes frame) → link_ok g accepted received →
  enqueue reactor frame g = (r, g') →
  match r with
  | Ret Queued => link_ok g' (accepted ++ [vec_bytes frame]) received ∧ watches_write (guest_slot (guest_io g')) = true
  | Ret (EnqueueBlocked f) => f = frame ∧ link_ok g' accepted received ∧
      (blocked_on GUEST_SEND_CAPACITY (report (guest_drive g')) = true ∨ exhausted (guest_drive g') = true)
  | Fail _ => True
  | _ => False
  end.
Proof.
  intros Hre Htake Hok. unfold enqueue.
  destruct (enqueue_guest_frame _ _ _ _) as [b d] eqn:Hd. apply enqueue_guest_frame_spec in Hd. destruct b; simpl.
  2:{ intros [= <- <-]. split; [done|]. split; [|done]. by apply (link_ok_same g). }
  destruct (enable_write reactor (guest_slot (guest_io g))) as [r1 slot] eqn:Hen. apply enable_write_spec in Hen as [Hset Hw]; [|done].
  intros [= <- <-]. destruct r1 as [[]|e| |]; try done. simpl. split; [|by apply Hw]. destruct Hok as [(dl & part & Hv & Hacc & Hpart) Ht Hb].
  split; simpl; [|by apply Forall_app; split; [|apply Forall_singleton]|rewrite length_app; simpl; lia].
  exists dl, part. split; [done|]. split; [by rewrite fmap_app, Hacc, app_assoc|].
  destruct Hpart as [->| ->]; [by left|]. destruct (outbound (guest_io g)); [by left|by right].
Qed.

(** Handing the head over *)
Lemma hand_over_spec s delivered part received frame r s' :
  session_view s delivered part received → part = None ∨ part = Some frame → session_takes frame →
  hand_over frame s = (r, s') →
  match r with
  | Ret true => session_view s' (delivered ++ [frame]) None received
  | Ret false => session_view s' delivered (Some frame) received
  | Fail _ => True
  | _ => False
  end.
Proof.
  intros Hv Hp Ht. unfold hand_over. destruct (write_frame frame s) as [r0 s1] eqn:Hw. intros [= <- <-].
  pose proof (write_frame_law _ _ _ _ _ _ _ Hv Hp Ht Hw) as Hlaw. destruct r0 as [[]|e| |]; done.
Qed.

(** Why the loop stopped *)
Definition flush_reason (g : @Guest S) : Prop :=
  outbound (guest_io g) = [] ∨ can_write (guest_slot (guest_io g)) = false ∨ exhausted (guest_drive g) = true.

Lemma flush_loop_ok fuel g r g' accepted received :
  link_ok g accepted received → length (outbound (guest_io g)) < fuel →
  flush_outbound_loop limits fuel g = (r, g') →
  match r with
  | Ret _ => link_ok g' accepted received ∧ flush_reason g'
  | Fail _ => True
  | _ => False
  end.
Proof.
  revert g. induction fuel as [|fuel IH]; intros g Hok Hf; [lia|]. cbn [flush_outbound_loop].
  destruct (can_write (guest_slot (guest_io g))) eqn:Hcan; cbn [negb]; [|intros [= <- <-]; split; [done|by right; left]].
  destruct (outbound (guest_io g)) as [|frame rest] eqn:Hout; [intros [= <- <-]; split; [done|by left]|].
  destruct (write_guest_frame _ _ _) as [r0 [d s]] eqn:Hw. apply write_guest_frame_spec in Hw.
  pose proof Hok as [(dl & part & Hv & Hacc & Hpart) Ht Hb]. rewrite Hout in Hacc, Hpart, Ht, Hb.
  apply Forall_cons in Ht as [Ht1 Ht]. simpl in Hpart, Hf, Hb.
  pose proof (λ r s', hand_over_spec (session (guest_io g)) dl part received (vec_bytes frame) r s' Hv Hpart Ht1) as Hgive.
  destruct r0 as [[]|e| |].
  - apply Hgive in Hw. simpl in Hw. intros Hloop. apply IH in Hloop; [done| |simpl; lia].
    split; simpl; [|done|lia]. exists (dl ++ [vec_bytes frame]), None. split; [done|]. split; [|by left].
    by rewrite Hacc, <-app_assoc.
  - destruct Hw as [Hw _]. apply Hgive in Hw. simpl in Hw. intros [= <- <-]. split; [|right; left; apply (can_clear false)].
    split; simpl; rewrite ?Hout; [|by constructor|simpl; lia]. exists dl, (Some (vec_bytes frame)). split; [done|]. split; [done|by right].
  - destruct Hw as [-> Hex]. intros [= <- <-]. split; [|by right; right]. apply (link_ok_same g); simpl; by rewrite ?Hout.
  - by intros [= <- <-].
  - by apply Hgive in Hw.
  - by apply Hgive in Hw.
Qed.

Lemma try_apply_state_change_spec {St T} (apply : stm St E T) d (s : St) r d' s' :
  (∀ r s', apply s = (r, s') → settles r) → try_apply_state_change apply d s = (r, d', s') →
  match r with
  | Ret Deferred => s' = s ∧ exhausted d' = true
  | Ret (Applied v) => apply s = (Ret v, s')
  | Ret (Failed e) => apply s = (Fail e, s')
  | _ => False
  end.
Proof.
  intros Hset. unfold try_apply_state_change. destruct (step_or_exhausted d) as [ok d1] eqn:Hs. apply step_spec in Hs.
  destruct ok; cbn [negb]; [|intros [= <- <- <-]; split; [done|by rewrite Hs]].
  destruct (apply s) as [[v|e| |] s1] eqn:Ha; try (by intros [= <- <- <-]); by specialize (Hset _ _ eq_refl).
Qed.

(** The frames that are left wait for room or for the next turn. *)
Definition flushed_or_waiting (g : @Guest S) : Prop :=
  outbound (guest_io g) = [] ∨ blocked_on GUEST_SEND_CAPACITY (report (guest_drive g)) = true ∨ exhausted (guest_drive g) = true.

Lemma flush_outbound_ok (reactor : outcome E unit) g r g' accepted received :
  settles reactor → link_ok g accepted received → flush_outbound limits reactor g = (r, g') →
  match r with
  | Ret _ => link_ok g' accepted received ∧ flushed_or_waiting g'
  | Fail _ => True
  | _ => False
  end.
Proof.
  intros Hre Hok. unfold flush_outbound.
  destruct (flush_outbound_loop limits _ g) as [r1 g1] eqn:Hloop. apply (flush_loop_ok _ _ _ _ accepted received) in Hloop; [|done|lia].
  destruct r1 as [[]|e| |]; try done; [|by intros [= <- <-]]. destruct Hloop as [Hok1 Hreason].
  destruct (outbound (guest_io g1)) as [|f rest] eqn:Hout.
  - destruct (watches_write _) eqn:Hw; [|intros [= <- <-]; split; [done|by left]].
    destruct (try_apply_state_change _ _ _) as [[r2 d] slot] eqn:Happ.
    apply try_apply_state_change_spec in Happ; [|intros ??; by apply disable_write_settles].
    destruct r2 as [[]| | |]; try done; intros [= <- <-]; try done; (split; [|by left]); apply (link_ok_same g1); simpl; by rewrite ?Hout.
  - destruct (can_write (guest_slot (guest_io g1))) eqn:Hcan; cbn [negb]; intros [= <- <-].
    + split; [done|]. right; right. destruct Hreason as [?|[?|?]]; congruence.
    + split; [apply (link_ok_same g1); simpl; by rewrite ?Hout|]. right; left. by apply blocked_on_block.
Qed.

(** ** Reading *)
Lemma event_frames_app (l l' : list (GuestEvent (E:=E))) : event_frames (l ++ l') = event_frames l ++ event_frames l'.
Proof. apply omap_app. Qed.

Lemma fill_frame_spec s delivered part received frame r s' :
  session_view s delivered part received → fill_frame frame s = (r, s') →
  match r with
  | Ret (StatusFrame, f) => session_view s' delivered part (received ++ [vec_bytes f])
  | Ret _ => session_view s' delivered part received
  | Fail _ => True
  | _ => False
  end.
Proof.
  intros Hv. unfold fill_frame. destruct (read_frame_into _ s) as [r0 s1] eqn:Hr. intros [= <- <-].
  pose proof (read_frame_law _ _ _ _ _ _ _ Hv Hr) as Hlaw. destruct r0 as [[[] f]|e| |]; done.
Qed.

Lemma read_frame_steps {St} (read : FrameBuf → stm St E (DriveGuestFrameReadStatus * FrameBuf)) d p s f d' p' s' :
  read_guest_frame limits read (d, p, s) = (Ret (GuestFrame f), (d', p', s')) → steps (budget d') < steps (budget d).
Proof.
  unfold read_guest_frame. destruct (can_emit_event_or_exhausted d) as [emit d1] eqn:He. apply can_emit_spec in He.
  destruct emit; cbn [negb]; [|done]. destruct He as (-> & Hev & Hby).
  unfold start_whole_item_operation. destruct (_ <? _); [done|].
  destruct (step_or_exhausted d) as [ok d1] eqn:Hst. apply step_spec in Hst. destruct ok; cbn [negb]; [|done].
  destruct Hst as [(_ & Hpos & _)%can_continue_spec ->].
  destruct (try_guest_frame limits p) as [[frame|x| |] p1]; try done.
  destruct (read frame s) as [[[[] g]|e| |] s1]; try done.
  - destruct (event_or_exhausted _ _) as [ok d2] eqn:Hok. apply event_spec in Hok as [-> Hsteps]; [|done..]. cbn [negb].
    intros [= <- <- <- <-]. simpl in *. lia.
  - by destruct (event_or_exhausted _ _) as [[] d2].
Qed.

Lemma drain_loop_ok fuel g events r events' g' accepted received :
  link_ok g accepted received → steps (budget (guest_drive g)) < fuel →
  drain_loop limits fuel events g = (r, events', g') →
  match r with
  | Ret _ => ∃ more, link_ok g' accepted (received ++ event_frames more) ∧ events' = events ++ more ∧
      (can_read (guest_slot (guest_io g')) = false ∨ exhausted (guest_drive g') = true ∨
       local_buffer_continuation (report (guest_drive g')) = true)
  | Fail _ => True
  | _ => False
  end.
Proof.
  revert g events received. induction fuel as [|fuel IH]; intros g events received Hok Hf; [lia|]. cbn [drain_loop].
  destruct (can_read (guest_slot (guest_io g))) eqn:Hcan; cbn [negb].
  2:{ intros [= <- <- <-]. exists []. rewrite !app_nil_r. split; [done|]. split; [done|by left]. }
  destruct (read_guest_frame _ _ _) as [r0 [[d p] s]] eqn:Hr.
  assert (Hsteps : ∀ f, r0 = Ret (GuestFrame f) → steps (budget d) < steps (budget (guest_drive g))).
  { intros f ->. by eapply read_frame_steps. }
  apply read_guest_frame_spec in Hr.
  pose proof Hok as [(dl & part & Hv & Hacc & Hpart) Ht Hb].
  pose proof (λ frame r s', fill_frame_spec (session (guest_io g)) dl part received frame r s' Hv) as Hgive.
  assert (Hkeep : ∀ s received' slot, session_view s dl part received' → link_ok (set_io g s (outbound (guest_io g)) slot d p) accepted received').
  { intros s1 rc slot Hv1. split; simpl; [|done|done]. by exists dl, part. }
  destruct r0 as [[f| | |]|e| |].
  - destruct Hr as [frame Hr]. apply Hgive in Hr. simpl in Hr. intros Hloop.
    apply (IH _ _ (received ++ [vec_bytes f])) in Hloop; [|by apply Hkeep|simpl; specialize (Hsteps f eq_refl); lia].
    destruct r as [[]|e| |]; try done. destruct Hloop as (more & Hok' & -> & Hwhy).
    exists (EventFrame (generation (guest_io g)) f :: more). rewrite <-!app_assoc in *. done.
  - destruct Hr as (frame & f & Hr). apply Hgive in Hr. intros [= <- <- <-].
    exists [EventDisconnected (generation (guest_io g)) (Ret tt)]. simpl. rewrite app_nil_r. split; [by apply Hkeep|].
    split; [done|]. left. apply (can_clear true).
  - destruct Hr as (frame & f & Hr & _). apply Hgive in Hr. intros [= <- <- <-]. exists []. rewrite !app_nil_r.
    split; [by apply Hkeep|]. split; [done|]. left. apply (can_clear true).
  - destruct Hr as [-> Hwhy]. intros [= <- <- <-]. exists []. rewrite !app_nil_r. split; [by apply Hkeep|]. split; [done|by right].
  - by intros [= <- <- <-].
  - destruct Hr as [frame Hr]. by apply Hgive in Hr.
  - destruct Hr as [frame Hr]. by apply Hgive in Hr.
Qed.

Lemma drain_ready_reads_ok g events r events' g' accepted received :
  link_ok g accepted received → drain_ready_reads limits events g = (r, events', g') →
  match r with
  | Ret _ => ∃ more, link_ok g' accepted (received ++ event_frames more) ∧ events' = events ++ more ∧
      (can_read (guest_slot (guest_io g')) = false ∨ exhausted (guest_drive g') = true ∨
       local_buffer_continuation (report (guest_drive g')) = true)
  | Fail _ => True
  | _ => False
  end.
Proof. intros Hok. apply drain_loop_ok; [done|lia]. Qed.

Lemma link_ok_marked ready g accepted received : link_ok g accepted received → link_ok (mark_guest_ready ready g) accepted received.
Proof. by apply link_ok_same. Qed.

(** Nothing is left behind without a reason on record. *)
Definition drained_or_waiting (g : @Guest S) : Prop :=
  can_read (guest_slot (guest_io g)) = false ∨ exhausted (guest_drive g) = true ∨
  local_buffer_continuation (report (guest_drive g)) = true.

Lemma guest_drive_ready_ok (reactor : outcome E unit) ready events g r events' g' accepted received :
  settles reactor → link_ok g accepted received → guest_drive_ready limits reactor ready events g = (r, events', g') →
  match r with
  | Ret _ => ∃ more, link_ok g' accepted (received ++ event_frames more) ∧ events' = events ++ more ∧
      (ready ≠ [] → drained_or_waiting g')
  | Fail _ => True
  | _ => False
  end.
Proof.
  intros Hre Hok. unfold guest_drive_ready. destruct ready as [|x ready].
  { intros [= <- <- <-]. exists []. by rewrite !app_nil_r. }
  destruct (flush_outbound limits reactor _) as [r1 g1] eqn:Hflush.
  apply (flush_outbound_ok _ _ _ _ accepted received) in Hflush; [|done|by apply link_ok_marked].
  destruct r1 as [[]|e| |]; try done; [|by intros [= <- <- <-]]. destruct Hflush as [Hok1 _].
  intros Hdrain. apply (drain_ready_reads_ok _ _ _ _ _ accepted received) in Hdrain; [|done].
  destruct r as [[]|e| |]; try done. destruct Hdrain as (more & ? & ? & ?). by exists more.
Qed.

(** [send_guest_frames]: the frames that are not queued are given back, in order. *)
Lemma send_guest_frames_ok (reactor : outcome E unit) frames g r g' accepted received :
  settles reactor → Forall (λ f, session_takes (vec_bytes f)) frames → link_ok g accepted received →
  send_guest_frames reactor frames g = (r, g') →
  match r with
  | Ret (kept, None) => ∃ queued, frames = queued ++ kept ∧ link_ok g' (accepted ++ (vec_bytes <$> queued)) received ∧
      (kept = [] ∨ blocked_on GUEST_SEND_CAPACITY (report (guest_drive g')) = true ∨ exhausted (guest_drive g') = true)
  | Ret (_, Some _) => True
  | _ => False
  end.
Proof.
  intros Hre. revert g accepted. induction frames as [|f frames IH]; intros g accepted Hall Hok; simpl.
  { intros [= <- <-]. exists []. split; [done|]. rewrite app_nil_r. split; [done|by left]. }
  apply Forall_cons in Hall as [Hf Hall]. destruct (enqueue reactor f g) as [r1 g1] eqn:Hq.
  apply (enqueue_ok _ _ _ _ _ _ _ Hre Hf Hok) in Hq. destruct r1 as [[|f']|e| |]; try done.
  - destruct Hq as [Hok1 _]. intros Hs. apply (IH _ _ Hall Hok1) in Hs. destruct r as [[kept [e|]]| | |]; try done.
    destruct Hs as (queued & -> & Hok2 & Hwhy). exists (f :: queued). split; [done|]. rewrite fmap_cons. split; [|done].
    by rewrite cons_middle, app_assoc.
  - destruct Hq as (-> & Hok1 & Hwhy). intros [= <- <-]. exists []. split; [done|]. rewrite app_nil_r. split; [done|by right].
  - by intros [= <- <-].
Qed.

(** ** Any use of the link, until an operation fails and the event loop disconnects *)
Record LinkWorld := { lw_guest : @Guest S; lw_accepted : list bytes; lw_events : list (GuestEvent (E:=E)) }.

Inductive link_step : LinkWorld → LinkWorld → Prop :=
| step_enqueue w (reactor : outcome E unit) frame g :
    settles reactor → session_takes (vec_bytes frame) → enqueue reactor frame (lw_guest w) = (Ret Queued, g) →
    link_step w {| lw_guest := g; lw_accepted := lw_accepted w ++ [vec_bytes frame]; lw_events := lw_events w |}
| step_refused w (reactor : outcome E unit) frame g :
    settles reactor → session_takes (vec_bytes frame) → enqueue reactor frame (lw_guest w) = (Ret (EnqueueBlocked frame), g) →
    link_step w {| lw_guest := g; lw_accepted := lw_accepted w; lw_events := lw_events w |}
| step_flush w (reactor : outcome E unit) g :
    settles reactor → flush_outbound limits reactor (lw_guest w) = (Ret tt, g) →
    link_step w {| lw_guest := g; lw_accepted := lw_accepted w; lw_events := lw_events w |}
| step_ready w (reactor : outcome E unit) ready events g :
    settles reactor → guest_drive_ready limits reactor ready (lw_events w) (lw_guest w) = (Ret tt, events, g) →
    link_step w {| lw_guest := g; lw_accepted := lw_accepted w; lw_events := events |}
| step_turn w d p :
    (** another turn; in between, the pool is used by others *)
    link_step w {| lw_guest := {| guest_io := guest_io (lw_guest w); guest_drive := d; guest_pool := p |};
                   lw_accepted := lw_accepted w; lw_events := lw_events w |}.

Definition link_start (s : S) (gen : Z) (d : DriveTurn) (p : BufferPool) : LinkWorld :=
  {| lw_guest := {| guest_io := guest_register limits s gen; guest_drive := d; guest_pool := p |}; lw_accepted := []; lw_events := [] |}.

Definition world_ok (w : LinkWorld) : Prop := link_ok (lw_guest w) (lw_accepted w) (event_frames (lw_events w)).

Lemma world_ok_step w w' : link_step w w' → world_ok w → world_ok w'.
Proof.
  unfold world_ok.
  destruct 1 as [w re f g Hre Ht Hq|w re f g Hre Ht Hq|w re g Hre Hq|w re ready ev g Hre Hq|w d p]; simpl; intros Hok.
  - by apply (enqueue_ok _ _ _ _ _ _ _ Hre Ht Hok) in Hq as [? _].
  - by apply (enqueue_ok _ _ _ _ _ _ _ Hre Ht Hok) in Hq as (_ & ? & _).
  - by apply (flush_outbound_ok _ _ _ _ _ _ Hre Hok) in Hq as [? _].
  - apply (guest_drive_ready_ok _ _ _ _ _ _ _ _ _ Hre Hok) in Hq as (more & Hok' & -> & _). by rewrite event_frames_app.
  - by apply (link_ok_same (lw_guest w)).
Qed.

Lemma world_ok_reachable s gen d p w : session_view s [] None [] → rtc link_step (link_start s gen d p) w → world_ok w.
Proof.
  intros Hs. apply (rtc_ind_r world_ok).
  - split; simpl; [by exists [], None; auto|constructor|lia].
  - intros w1 w2 _ Hstep Hok. by eapply world_ok_step.
Qed.

(** C13: However turns, budgets, readiness and refusals cut up the use of the link, the frames the queue
    accepted are the frames the session has carried to the guest followed by those still queued, in order
    and once each, the queue never outgrows its bound, and the events are the frames the session read.
    A turn of the link ends, and leaves readable frames behind only with a reason on record. *)
Theorem guest_link_exact s gen d p w :
  session_view s [] None [] → rtc link_step (link_start s gen d p) w →
  (∃ delivered part, session_view (session (guest_io (lw_guest w))) delivered part (event_frames (lw_events w)) ∧
     lw_accepted w = delivered ++ (vec_bytes <$> outbound (guest_io (lw_guest w)))) ∧
  length (outbound (guest_io (lw_guest w))) ≤ outbound_capacity (guest_io (lw_guest w)) ∧
  ∀ (reactor : outcome E unit) ready r events g, settles reactor → ready ≠ [] →
    guest_drive_ready limits reactor ready (lw_events w) (lw_guest w) = (r, events, g) →
    settles r ∧ (r = Ret tt → drained_or_waiting g).
Proof.
  intros Hs Hrun%(world_ok_reachable s gen d p w Hs). pose proof Hrun as [(dl & part & Hv & Hacc & _) _ Hb].
  split; [by exists dl, part|]. split; [done|]. intros reactor ready r events g Hre Hne Hq.
  apply (guest_drive_ready_ok _ _ _ _ _ _ _ _ _ Hre Hrun) in Hq. destruct r as [[]|e| |]; try done.
  destruct Hq as (more & _ & _ & Hwhy). split; [done|]. intros _. by apply Hwhy.
Qed.
End exact.

(** Two frames for the guest over a stream that first takes five bytes, and a frame from it *)
Definition link_socket : Stream :=
  {| reads := [Arrived [0; 0; 0]; ReadFails WouldBlock; Arrived [1; 9]];
     writes := [Accepts 4; Accepts 1; WriteFails WouldBlock; Accepts 9; Accepts 9; Accepts 9]; sent := [] |}%Z.
Definition link_stream : FrameStream := frame_stream_connect link_socket.
Definition link_pool : BufferPool := pool_of 3.
Definition frame_of (bs : bytes) : FrameBuf := frame16 <| vec_bytes := bs |>.
Definition link_turn : DriveTurn := turn_start three_frames.
Definition link_begin : LinkWorld (S:=FrameStream) (E:=TransportError) := link_start three_frames link_stream 1 link_turn link_pool.
Definition one_queued : Guest (S:=FrameStream) := Eval vm_compute in
  snd (enqueue (E:=TransportError) (Ret tt) (frame_of [7; 7]%Z) (lw_guest link_begin)).
Definition queued_guest : Guest (S:=FrameStream) := Eval vm_compute in
  snd (enqueue (E:=TransportError) (Ret tt) (frame_of [8; 8]%Z) one_queued).
Definition fresh_turn (g : Guest (S:=FrameStream)) : Guest (S:=FrameStream) :=
  {| guest_io := guest_io g; guest_drive := link_turn; guest_pool := link_pool |}.
Definition first_ready : outcome TransportError unit * list (GuestEvent (E:=TransportError)) * Guest (S:=FrameStream) := Eval vm_compute in
  guest_drive_ready three_frames (Ret tt) [(true, true)] [] (fresh_turn queued_guest).
Definition second_ready : outcome TransportError unit * list (GuestEvent (E:=TransportError)) * Guest (S:=FrameStream) := Eval vm_compute in
  guest_drive_ready three_frames (Ret tt) [(true, true)] (snd (fst first_ready)) (fresh_turn (snd first_ready)).
Definition served_world : LinkWorld (S:=FrameStream) (E:=TransportError) :=
  {| lw_guest := snd second_ready; lw_accepted := [[7; 7]; [8; 8]]%Z; lw_events := snd (fst second_ready) |}.

Lemma guest_link_exact_witness :
  sent (stream (session (guest_io (lw_guest served_world)))) = [0; 0; 0; 2; 7; 7; 0; 0; 0; 2; 8; 8]%Z ∧
  ∃ delivered part, qemu_view link_stream (session (guest_io (lw_guest served_world))) delivered part [[9]]%Z ∧
    [[7; 7]; [8; 8]]%Z = delivered ++ [].
Proof.
  split; [reflexivity|].
  refine (proj1 (guest_link_exact (H0:=qemu_session_laws link_stream) three_frames link_stream 1 link_turn link_pool served_world _ _)).
  - split; [by split_and!|]. split; [|reflexivity]. split; [reflexivity|apply Nat.le_0_l|reflexivity|]. apply (bool_decide_unpack _). by vm_compute.
  - assert (Hsmall : ∀ n, small [n; n]) by (intros n; vm_compute; discriminate).
    eapply rtc_l; [apply (step_enqueue three_frames link_begin (Ret tt) (frame_of [7; 7]%Z) one_queued); [done|split; [done|apply Hsmall]|vm_compute; reflexivity]|].
    eapply rtc_l; [apply (step_enqueue three_frames _ (Ret tt) (frame_of [8; 8]%Z) queued_guest); [done|split; [done|apply Hsmall]|vm_compute; reflexivity]|].
    eapply rtc_l; [apply (step_turn three_frames _ link_turn link_pool)|].
    eapply rtc_l; [apply (step_ready three_frames _ (Ret tt) [(true, true)] (snd (fst first_ready)) (snd first_ready)); [done|vm_compute; reflexivity]|].
    eapply rtc_l; [apply (step_turn three_frames _ link_turn link_pool)|].
    eapply rtc_l; [apply (step_ready three_frames _ (Ret tt) [(true, true)] (snd (fst second_ready)) (snd second_ready)); [done|vm_compute; reflexivity]|].
    apply rtc_refl.
Defined.
