(* ===== verification/Device.v ===== *)
(** * The device under the gateway's TCP/IP stack (src/libs/agentdp-network/src/gateway/device.rs)

    Frames from the guest wait in [rx] until the stack polls the device, frames
    for the guest wait in [tx].  The stack is handed tokens: a received frame
    with a buffer for the response, or a buffer to transmit; it consumes a token
    or drops it.  The two operations of the stack are the only way in and out of
    [rx] and into [tx]. *)
From S2P Require Import Prelude Fields Limits Buffers.
Local Open Scope nat_scope.

Definition ETHERNET_HEADER_LEN : nat := 14.

Record FrameDevice := {
  mtu : nat;
  queue_capacity : nat;
  rx : list FrameBuf;
  tx : list FrameBuf;
  rx_budget : Z;
}.
#[export] Instance FrameDevice_eta : Eta FrameDevice := λ d,
  {| mtu := mtu d; queue_capacity := queue_capacity d; rx := rx d; tx := tx d; rx_budget := rx_budget d |}.

Definition device_new (mtu queue_capacity : nat) : FrameDevice :=
  {| mtu := mtu; queue_capacity := queue_capacity; rx := []; tx := []; rx_budget := usize_max |}.

Definition can_receive_frame (d : FrameDevice) : bool := length (rx d) <? queue_capacity d.
Definition receive_frame (frame : FrameBuf) (d : FrameDevice) : bool * FrameDevice :=
  if queue_capacity d <=? length (rx d) then (false, d) else (true, d <| rx ::= λ l, l ++ [frame] |>).

Definition pop_transmitted_frame (d : FrameDevice) : option FrameBuf * FrameDevice :=
  match tx d with [] => (None, d) | f :: rest => (Some f, d <| tx := rest |>) end.
Definition next_transmitted_frame_len (d : FrameDevice) : option nat := length ∘ vec_bytes <$> head (tx d).
Definition allow_one_receive (d : FrameDevice) : FrameDevice := d <| rx_budget := 1%Z |>.

Section device.
Context (limits : NetworkLimits).

(** [receive]: the frame and the buffer of the response.  The pool is asked before the frame leaves
    the queue. *)
Definition receive : FrameDevice * BufferPool → option (FrameBuf * FrameBuf) * (FrameDevice * BufferPool) := λ '(d, p),
  if queue_capacity d <=? length (tx d) then (None, (d, p))
  else if (rx_budget d =? 0)%Z then (None, (d, p))
  else match rx d with
       | [] => (None, (d, p))
       | frame :: rest =>
         match try_gateway_response_frame_with_capacity limits (mtu d + ETHERNET_HEADER_LEN) p with
         | (Ret tx_frame, p) => (Some (frame, tx_frame), (d <| rx := rest |> <| rx_budget ::= λ b, Z.max 0 (b - 1) |>, p))
         | (_, p) => (None, (d, p))
         end
       end.

Definition transmit : FrameDevice * BufferPool → option FrameBuf * (FrameDevice * BufferPool) := λ '(d, p),
  if queue_capacity d <=? length (tx d) then (None, (d, p))
  else match try_output_frame_with_capacity limits (mtu d + ETHERNET_HEADER_LEN) p with
       | (Ret frame, p) => (Some frame, (d, p))
       | (_, p) => (None, (d, p))
       end.

(** [TxToken::consume]: the stack fills [len] zeroed bytes; [f] may only change those. *)
Definition consume (grown : nat → nat → nat) (frame : FrameBuf) (len : nat) (f : bytes → bytes) (d : FrameDevice) : FrameDevice :=
  d <| tx ::= λ l, l ++ [vec_put grown (f (replicate len 0%Z)) frame] |>.

(** What becomes of a pair of tokens: the received frame is dropped once it has been looked at, the
    buffer is consumed or dropped *)
Definition respond (grown : nat → nat → nat) (tokens : FrameBuf * FrameBuf) (answer : option (nat * (bytes → bytes)))
    : FrameDevice * BufferPool → FrameDevice * BufferPool := λ '(d, p),
  let p := frame_recycle limits tokens.1 p in
  match answer with
  | Some (len, f) => (consume grown tokens.2 len f d, p)
  | None => (d, frame_recycle limits tokens.2 p)
  end.
End device.

(** ** The stack and the gateway use the device. *)
Section use.
Context (limits : NetworkLimits) (grown : nat → nat → nat).

(** [dw_in] are the frames the device took from the guest, [dw_seen] those the stack looked at,
    [dw_made] those it wrote and [dw_out] those that left. *)
Record DeviceWorld := {
  dw_device : FrameDevice;
  dw_pool : BufferPool;
  dw_in : list bytes; dw_seen : list bytes;
  dw_made : list bytes; dw_out : list bytes;
}.

(** How the pool moves between the operations is the business of others. *)
Inductive device_step : DeviceWorld → DeviceWorld → Prop :=
| step_receive_frame w frame d :
    receive_frame frame (dw_device w) = (true, d) →
    device_step w {| dw_device := d; dw_pool := dw_pool w; dw_in := dw_in w ++ [vec_bytes frame]; dw_seen := dw_seen w;
                     dw_made := dw_made w; dw_out := dw_out w |}
| step_receive w tokens d p len f d' p' :
    receive limits (dw_device w, dw_pool w) = (Some tokens, (d, p)) →
    respond limits grown tokens (Some (len, f)) (d, p) = (d', p') →
    device_step w {| dw_device := d'; dw_pool := p'; dw_in := dw_in w; dw_seen := dw_seen w ++ [vec_bytes tokens.1];
                     dw_made := dw_made w ++ [f (replicate len 0%Z)]; dw_out := dw_out w |}
| step_receive_silent w tokens d p d' p' :
    receive limits (dw_device w, dw_pool w) = (Some tokens, (d, p)) →
    respond limits grown tokens None (d, p) = (d', p') →
    device_step w {| dw_device := d'; dw_pool := p'; dw_in := dw_in w; dw_seen := dw_seen w ++ [vec_bytes tokens.1];
                     dw_made := dw_made w; dw_out := dw_out w |}
| step_receive_none w d p :
    receive limits (dw_device w, dw_pool w) = (None, (d, p)) →
    device_step w {| dw_device := d; dw_pool := p; dw_in := dw_in w; dw_seen := dw_seen w; dw_made := dw_made w; dw_out := dw_out w |}
| step_transmit w frame d p len f :
    transmit limits (dw_device w, dw_pool w) = (Some frame, (d, p)) →
    device_step w {| dw_device := consume grown frame len f d; dw_pool := p; dw_in := dw_in w; dw_seen := dw_seen w;
                     dw_made := dw_made w ++ [f (replicate len 0%Z)]; dw_out := dw_out w |}
| step_pop w frame d :
    pop_transmitted_frame (dw_device w) = (Some frame, d) →
    device_step w {| dw_device := d; dw_pool := dw_pool w; dw_in := dw_in w; dw_seen := dw_seen w;
                     dw_made := dw_made w; dw_out := dw_out w ++ [vec_bytes frame] |}
| step_allow w :
    device_step w {| dw_device := allow_one_receive (dw_device w); dw_pool := dw_pool w; dw_in := dw_in w; dw_seen := dw_seen w;
                     dw_made := dw_made w; dw_out := dw_out w |}
| step_pool w p :
    device_step w {| dw_device := dw_device w; dw_pool := p; dw_in := dw_in w; dw_seen := dw_seen w;
                     dw_made := dw_made w; dw_out := dw_out w |}.

Definition device_start (mtu capacity_ : nat) (p : BufferPool) : DeviceWorld :=
  {| dw_device := device_new mtu capacity_; dw_pool := p; dw_in := []; dw_seen := []; dw_made := []; dw_out := [] |}.

Record device_ok (capacity_ : nat) (w : DeviceWorld) : Prop := {
  do_rx : dw_in w = dw_seen w ++ (vec_bytes <$> rx (dw_device w));
  do_tx : dw_made w = dw_out w ++ (vec_bytes <$> tx (dw_device w));
  do_capacity : queue_capacity (dw_device w) = capacity_;
  do_rx_bound : length (rx (dw_device w)) ≤ capacity_;
  do_tx_bound : length (tx (dw_device w)) ≤ capacity_;
}.

Lemma receive_spec d p r d' p' :
  receive limits (d, p) = (r, (d', p')) →
  match r with
  | Some (frame, _) => rx d = frame :: rx d' ∧ tx d' = tx d ∧ queue_capacity d' = queue_capacity d ∧
      length (tx d) < queue_capacity d ∧ rx_budget d ≠ 0%Z ∧ rx_budget d' = Z.max 0 (rx_budget d - 1)
  | None => d' = d
  end.
Proof.
  unfold receive. destruct (Nat.leb_spec (queue_capacity d) (length (tx d))); [by intros [= <- <- <-]|].
  destruct (Z.eqb_spec (rx_budget d) 0); [by intros [= <- <- <-]|]. destruct (rx d) as [|f rest] eqn:Hrx; [by intros [= <- <- <-]|].
  destruct (try_gateway_response_frame_with_capacity _ _ _) as [[v|e| |] p1]; by intros [= <- <- <-].
Qed.

Lemma transmit_spec d p r d' p' :
  transmit limits (d, p) = (r, (d', p')) → d' = d ∧ (r ≠ None → length (tx d) < queue_capacity d).
Proof.
  unfold transmit. destruct (Nat.leb_spec (queue_capacity d) (length (tx d))); [by intros [= <- <- <-]|].
  destruct (try_output_frame_with_capacity _ _ _) as [[v|e| |] p1]; by intros [= <- <- <-].
Qed.

Lemma device_ok_step capacity_ w w' : device_step w w' → device_ok capacity_ w → device_ok capacity_ w'.
Proof.
  destruct 1 as [w f d Hr|w [f t] d p len g d' p' Hr Ha|w [f t] d p d' p' Hr Ha|w d p Hr|w f d p len g Hr|w f d Hr|w|w p];
    intros [H1 H2 H3 H4 H5].
  - unfold receive_frame in Hr. destruct (Nat.leb_spec (queue_capacity (dw_device w)) (length (rx (dw_device w)))); [done|].
    injection Hr as <-. split; simpl; try done; [by rewrite fmap_app, H1, app_assoc|rewrite length_app; simpl; lia].
  - apply receive_spec in Hr as (Hrx & Htx & Hc & Hlt & _). unfold respond, consume in Ha. injection Ha as <- <-. simpl.
    rewrite Hrx in *. split; simpl in *; rewrite ?Htx; [by rewrite H1, <-app_assoc|by rewrite fmap_app, H2, app_assoc|congruence|lia|].
    rewrite length_app. simpl. lia.
  - apply receive_spec in Hr as (Hrx & Htx & Hc & Hlt & _). unfold respond in Ha. injection Ha as <- <-. simpl.
    rewrite Hrx in *. split; simpl in *; rewrite ?Htx; [by rewrite H1, <-app_assoc|done|congruence|lia|done].
  - apply receive_spec in Hr as ->. done.
  - apply transmit_spec in Hr as [-> Hlt]. specialize (Hlt ltac:(done)).
    split; simpl; try done; [by rewrite fmap_app, H2, app_assoc|rewrite length_app; simpl; lia].
  - unfold pop_transmitted_frame in Hr. destruct (tx (dw_device w)) as [|t rest] eqn:Htx; [done|]. injection Hr as <- <-.
    split; simpl in *; try done; [by rewrite H2, <-app_assoc|lia].
  - done.
  - done.
Qed.

Lemma device_ok_reachable mtu_ capacity_ p w : rtc device_step (device_start mtu_ capacity_ p) w → device_ok capacity_ w.
Proof.
  apply (rtc_ind_r (device_ok capacity_)); [|intros w1 w2 _ Hstep Hok; by eapply device_ok_step].
  by split; simpl; try lia.
Qed.

(** The device neither loses, repeats nor reorders frames in either direction, and neither queue
    grows past its bound, whatever the stack does with its tokens and however empty the pool runs: the
    frames taken from the guest are those the stack has seen and those still queued, the frames the stack
    wrote are those that left and those still queued. *)
Theorem device_exact mtu_ capacity_ p w :
  rtc device_step (device_start mtu_ capacity_ p) w →
  dw_in w = dw_seen w ++ (vec_bytes <$> rx (dw_device w)) ∧
  dw_made w = dw_out w ++ (vec_bytes <$> tx (dw_device w)) ∧
  length (rx (dw_device w)) ≤ capacity_ ∧ length (tx (dw_device w)) ≤ capacity_.
Proof.
  intros [H1 H2 _ H4 H5]%device_ok_reachable. done.
Qed.

(** After [allow_one_receive] a poll sees at most one frame. *)
Lemma one_receive d p tokens d' p' : 
  receive limits (allow_one_receive d, p) = (Some tokens, (d', p')) → ∀ p, receive limits (d', p) = (None, (d', p)).
Proof.
  intros Hr p1. destruct tokens as [f t]. apply receive_spec in Hr as (_ & _ & _ & _ & _ & Hb). simpl in Hb.
  unfold receive. destruct (_ <=? _); [done|]. by rewrite Hb.
Qed.
End use.

(** A frame of the guest is answered and the answer leaves. *)
Definition example_frame : FrameBuf := frame16 <| vec_bytes := [1; 2]%Z |>.
Definition received_device : FrameDevice := Eval vm_compute in snd (receive_frame example_frame (device_new 1 4)).
Definition device_tokens : option (FrameBuf * FrameBuf) * (FrameDevice * BufferPool) := Eval vm_compute in
  receive three_frames (received_device, pool_of 3).
Definition device_answered : FrameDevice * BufferPool := Eval vm_compute in
  match device_tokens with
  | (Some tokens, dp) => respond three_frames (λ _ n, n) tokens (Some (2, fmap (Z.add 3))) dp
  | (None, dp) => dp
  end.
Definition answered_tokens : FrameBuf * FrameBuf := Eval vm_compute in default (example_frame, example_frame) (fst device_tokens).
Definition example_popped : option FrameBuf * FrameDevice := Eval vm_compute in pop_transmitted_frame (fst device_answered).

Lemma device_exact_witness :
  [[3; 3]]%Z = [[3; 3]]%Z ++ (vec_bytes <$> tx (snd example_popped)).
Proof.
  refine (proj1 (proj2 (device_exact three_frames (λ _ n, n) 1 4 (pool_of 3)
    {| dw_device := snd example_popped; dw_pool := snd device_answered; dw_in := [[1; 2]]%Z; dw_seen := [[1; 2]]%Z;
       dw_made := [[3; 3]]%Z; dw_out := [[3; 3]]%Z |} _))).
  eapply rtc_l; [apply (step_receive_frame _ _ _ example_frame received_device); reflexivity|].
  eapply rtc_l; [eapply (step_receive _ _ _ answered_tokens (fst (snd device_tokens)) (snd (snd device_tokens)) 2 (fmap (Z.add 3))
    (fst device_answered) (snd device_answered)); reflexivity|].
  eapply rtc_l; [apply (step_pop _ _ _ (frame16 <| vec_bytes := [3; 3]%Z |>) (snd example_popped)); reflexivity|].
  apply rtc_refl.
Defined.
