(* ===== verification/Gateway.v ===== *)
(** * The gateway: what a frame of the guest becomes
      (src/libs/agentdp-network/src/gateway/mod.rs, packet.rs, application/classify.rs)

    A frame of the guest is a UDP datagram, the first segment of a TCP
    connection, or something for the TCP/IP stack.  The gateway forwards a
    datagram only to a destination the policy allows, and lets a connection in
    only if the destination may be reached.

    smoltcp reads and writes the frames and is the stack; the proxies of TCP
    connections are a component of their own: all three are interfaces here. *)
From S2P Require Import Prelude Fields Text Io Policy Raw HttpHead FixedTable Dns Attribution Limits Buffers Drive Device.
Local Open Scope nat_scope.

Record SocketAddr := { ip : IpAddr; port : Z }.
#[export] Instance SocketAddr_eq_dec : EqDecision SocketAddr.
Proof. solve_decision. Defined.

(** ** The wire, as smoltcp reads and writes it: [new_checked] of each layer and the accessors *)
Class Wire := {
  ethernet_ipv4 : bytes → option bytes;
  (** protocol, source, destination, payload *)
  ipv4_packet : bytes → option (Z * IpAddr * IpAddr * bytes);
  (** source port, destination port, payload *)
  udp_packet : bytes → option (Z * Z * bytes);
  (** source port, destination port, SYN, ACK *)
  tcp_packet : bytes → option (Z * Z * bool * bool);
  (** source MAC, destination MAC, source, destination, payload: the bytes of the frame *)
  udp_frame_bytes : bytes → bytes → SocketAddr → SocketAddr → bytes → bytes;
}.
Definition PROTOCOL_TCP : Z := 6.
Definition PROTOCOL_UDP : Z := 17.
Definition IPV4_HEADER_LEN : nat := 20.
Definition UDP_HEADER_LEN : nat := 8.

(** ** The stack: [Interface::poll], which tells whether a socket changed, and [poll_delay] *)
Class Stack (St : Type) := {
  iface_poll : Z → St * FrameDevice * BufferPool → bool * (St * FrameDevice * BufferPool);
  poll_delay : Z → St → option Z;
}.

(** ** The proxies of TCP connections, as the gateway uses them *)
Class TcpProxies (P St : Type) := {
  has_connection : SocketAddr → SocketAddr → P → bool;
  listen : SocketAddr → SocketAddr → P * St → P * St;
}.

(** ** Classification *)
Inductive ApplicationProtocol := ProtocolDns | Http1 | Http2 | Grpc | WebSocket | Quic | Http3 | ProtocolRaw | NeedMoreBytes.
#[export] Instance ApplicationProtocol_eq_dec : EqDecision ApplicationProtocol.
Proof. solve_decision. Defined.

Definition has_dns_question (payload : bytes) : outcome unit bool :=
  match dns_question_parts payload with
  | Ret _ => Ret true | Fail _ => Ret false | Panic => Panic | Timeout => Timeout
  end.
Definition looks_like_quic_initial (bs : bytes) : bool :=
  match bs with [] => false | first :: _ => (Z.land first 192 =? 192)%Z end.
Definition looks_like_http3_candidate (bs : bytes) : bool := looks_like_quic_initial bs.
Definition looks_like_h2c (bs : bytes) : bool :=
  starts_with bs (bytes_of "PRI * HTTP/2.0" ++ crlfcrlf ++ bytes_of "SM" ++ crlfcrlf).

Definition classify_udp_datagram (bs : bytes) : outcome unit ApplicationProtocol :=
  dns ← has_dns_question bs;
  Ret (if dns : bool then ProtocolDns
       else if looks_like_http3_candidate bs then Http3
       else if looks_like_quic_initial bs then Quic
       else ProtocolRaw).

Definition classify_plain_tcp (bs : bytes) : ApplicationProtocol :=
  if looks_like_h2c bs then Http2
  else if negb (bool_decide (LF ∈ bs)) then NeedMoreBytes
  else if is_websocket_upgrade_request bs then WebSocket
  else if is_grpc_request bs then Grpc
  else if looks_like_http1 bs then Http1
  else ProtocolRaw.

(** ** Packets *)
Section packets.
Context `{Wire} (limits : NetworkLimits) (grown : nat → nat → nat).

Record TcpSyn := { syn_src : SocketAddr; syn_dst : SocketAddr }.
Record UdpDatagram := { dg_src : SocketAddr; dg_dst : SocketAddr; dg_payload : ByteBuf }.

Definition syn_from_frame (frame : bytes) : option TcpSyn :=
  packet ← ethernet_ipv4 frame;
  '(protocol, src, dst, payload) ← ipv4_packet packet;
  if negb (protocol =? PROTOCOL_TCP)%Z then None
  else
    '(src_port, dst_port, syn, ack) ← tcp_packet payload;
    if negb syn || ack then None
    else Some {| syn_src := {| ip := src; port := src_port |}; syn_dst := {| ip := dst; port := dst_port |} |}.

(** The datagram in a frame, before its payload is copied to a buffer *)
Definition udp_parts (frame : bytes) : option (SocketAddr * SocketAddr * bytes) :=
  packet ← ethernet_ipv4 frame;
  '(protocol, src, dst, payload) ← ipv4_packet packet;
  if negb (protocol =? PROTOCOL_UDP)%Z then None
  else
    '(src_port, dst_port, data) ← udp_packet payload;
    Some ({| ip := src; port := src_port |}, {| ip := dst; port := dst_port |}, data).

(** [UdpDatagram::from_frame]: there is no datagram either when the pool has no buffer for it. *)
Definition datagram_from_frame (frame : bytes) (p : BufferPool) : option UdpDatagram * BufferPool :=
  match udp_parts frame with
  | None => (None, p)
  | Some (src, dst, data) =>
    match try_byte_with_capacity limits (length data) p with
    | (Ret payload, p) => (Some {| dg_src := src; dg_dst := dst; dg_payload := set_bytes grown data payload |}, p)
    | (_, p) => (None, p)
    end
  end.

Definition udp_frame (src dst : SocketAddr) (payload : bytes) (source_mac destination_mac : bytes) (p : BufferPool)
    : option FrameBuf * BufferPool :=
  match ip src, ip dst with
  | V4 _ _ _ _, V4 _ _ _ _ =>
    let frame_len := ETHERNET_HEADER_LEN + IPV4_HEADER_LEN + (UDP_HEADER_LEN + length payload) in
    match try_output_frame_with_capacity limits frame_len p with
    | (Ret frame, p) => (Some (vec_put grown (udp_frame_bytes source_mac destination_mac src dst payload) frame), p)
    | (_, p) => (None, p)
    end
  | _, _ => match try_output_frame limits p with (Ret frame, p) => (Some frame, p) | (_, p) => (None, p) end
  end.
End packets.

Definition LOCALHOST : IpAddr := V4 127 0 0 1.
Definition resolve_gateway_destination (dst : SocketAddr) (gateway : IpAddr) : SocketAddr :=
  if bool_decide (ip dst = gateway) then {| ip := LOCALHOST; port := port dst |} else dst.

(** ** What the gateway holds and what it puts out *)
Record UdpProxyKey := { guest_src : SocketAddr; guest_dst : SocketAddr; host_dst : SocketAddr }.
Record EgressUdpSend := { es_proxy : UdpProxyKey; es_bytes : ByteBuf; es_is_dns : bool }.
Abbreviation IngressSend := (IngressUdpSend (SocketAddr:=SocketAddr) (ByteBuf:=ByteBuf)).

(** [GatewayConfig]; of the interception of TLS only what the gateway asks it here *)
Record GatewayConfig := {
  policy : NetworkPolicy;
  mac_gateway : bytes;
  mac_guest : bytes;
  gateway : IpAddr;
  guest : IpAddr;
  dns_upstream : SocketAddr;
  tls_intercepts_port : Z → bool;
  gateway_idle_poll_delay : Z;
}.
#[export] Instance GatewayConfig_eta : Eta GatewayConfig := λ c,
  {| policy := policy c; mac_gateway := mac_gateway c; mac_guest := mac_guest c; gateway := gateway c; guest := guest c;
     dns_upstream := dns_upstream c; tls_intercepts_port := tls_intercepts_port c; gateway_idle_poll_delay := gateway_idle_poll_delay c |}.

Section gateway.
Context {St P T : Type} `{Wire} `{!Stack St} `{!TcpProxies P St} `{!BoundedMap T Z SocketAddr}.
Context (limits : NetworkLimits) (grown : nat → nat → nat).

(** The gateway with what its operations borrow: the queues of outputs, the turn, the pool, the proxies
    and the peers of the host ports *)
Record Gateway := {
  config : GatewayConfig;
  iface : St;
  device : FrameDevice;
  dns : DnsAttribution;
  tcp : P;
  udp : UdpPeers T;
  egress_udp_sends : list EgressUdpSend;
  ingress_udp_sends : list IngressSend;
  guest_frames : list FrameBuf;
  gw_drive : DriveTurn;
  gw_buffers : BufferPool;
}.
#[export] Instance Gateway_eta : Eta Gateway := λ g,
  {| config := config g; iface := iface g; device := device g; dns := dns g; tcp := tcp g; udp := udp g;
     egress_udp_sends := egress_udp_sends g; ingress_udp_sends := ingress_udp_sends g; guest_frames := guest_frames g;
     gw_drive := gw_drive g; gw_buffers := gw_buffers g |}.

(** The queues were made with this capacity. *)
Definition batch : nat := component_output_batch_capacity limits.

Definition on_turn {A} (f : DriveTurn → A * DriveTurn) : stm Gateway unit A := λ g,
  let (a, d) := f (gw_drive g) in (Ret a, g <| gw_drive := d |>).
Definition mark_turn (f : DriveTurn → DriveTurn) : stm Gateway unit unit := stm_modify (λ g, g <| gw_drive ::= f |>).
Definition on_pool {A} (f : BufferPool → A * BufferPool) : stm Gateway unit A := λ g,
  let (a, p) := f (gw_buffers g) in (Ret a, g <| gw_buffers := p |>).
(** The end of the scope of a buffer or a frame *)
Definition release (b : ByteBuf) : stm Gateway unit unit := λ g,
  match byte_recycle limits b (gw_buffers g) with
  | Ret p => (Ret tt, g <| gw_buffers := p |>) | Fail e => (Fail e, g) | Panic => (Panic, g) | Timeout => (Timeout, g)
  end.
Definition release_frame (f : FrameBuf) : stm Gateway unit unit := stm_modify (λ g, g <| gw_buffers ::= frame_recycle limits f |>).

(** ** Polling the stack *)

(** [drain_transmitted_frames]: the number of frames moved; each round moves one *)
Fixpoint drain_frames (fuel : nat) (count : nat) : stm Gateway unit nat :=
  g ← stm_get;
  match next_transmitted_frame_len (device g) with
  | None => mret count
  | Some frame_len =>
    reserved ← on_turn (enqueue_guest_frame (length (guest_frames g)) batch frame_len);
    if negb reserved then mret count
    else match fuel with
         | O => stm_lift Timeout
         | S fuel =>
           match pop_transmitted_frame (device g) with
           | (None, _) => mret count
           | (Some frame, device') =>
             stm_modify (λ g, g <| device := device' |> <| guest_frames ::= λ l, l ++ [frame] |>);;
             drain_frames fuel (S count)
           end
         end
  end.

Definition drain_transmitted_frames : stm Gateway unit unit :=
  g ← stm_get;
  count ← drain_frames (length (tx (device g))) 0;
  g ← stm_get;
  (match tx (device g) with [] => mret tt | _ => mark_turn (block_on GUEST_SEND_CAPACITY) end);;
  (if 0 <? count then mark_turn state_changed else mret tt).

Definition has_poll_work (now : Z) (g : Gateway) : bool :=
  match rx (device g), tx (device g) with
  | [], [] => match poll_delay now (iface g) with Some delay => (delay =? 0)%Z | None => false end
  | _, _ => true
  end.

Definition poll (now : Z) : stm Gateway unit unit :=
  drain_transmitted_frames;;
  g ← stm_get;
  if negb (has_poll_work now g) then mret tt
  else
    let delay_before := poll_delay now (iface g) in
    let received_before := length (rx (device g)) in
    let transmitted_before := length (tx (device g)) in
    ok ← on_turn step_or_exhausted;
    if negb ok then mret tt
    else
      changed ← (λ g,
        let '(changed, (st, dev, p)) := iface_poll now (iface g, allow_one_receive (device g), gw_buffers g) in
        (Ret changed, g <| iface := st |> <| device := dev |> <| gw_buffers := p |>));
      g ← stm_get;
      (if (changed : bool) || negb (bool_decide (poll_delay now (iface g) = delay_before)) ||
          (length (rx (device g)) <? received_before) || (transmitted_before <? length (tx (device g)))
       then mark_turn state_changed else mret tt);;
      drain_transmitted_frames.

(** ** UDP from the guest *)
Definition is_dns_udp (c : GatewayConfig) (dst : SocketAddr) : bool :=
  bool_decide (ip dst = gateway c) && (port dst =? 53)%Z.

Definition udp_host_destination (dst : SocketAddr) (c : GatewayConfig) : SocketAddr :=
  if is_dns_udp c dst then dns_upstream c else resolve_gateway_destination dst (gateway c).

(** [None] stands for each of the errors, which the caller does not tell apart. *)
Definition prepare_udp_payload (pol : NetworkPolicy) (protocol : ApplicationProtocol) (payload : bytes)
    : stm Gateway unit (option ByteBuf) :=
  if (bool_decide (protocol = Quic) || bool_decide (protocol = Http3)) && negb (bool_decide (Policy.bindings (secrets pol) = []))
  then mret None
  else
    taken ← on_pool (try_byte_with_capacity limits (length payload));
    match taken with
    | Ret output =>
      if bool_decide (protocol = ProtocolDns) then mret (Some (set_bytes grown payload output))
      else match process payload [] with
           | Ret processed => mret (Some (set_bytes grown processed output))
           | Fail _ => release output;; mret None
           | Panic => stm_lift Panic
           | Timeout => stm_lift Timeout
           end
    | Fail _ => mret None
    | Panic => stm_lift Panic
    | Timeout => stm_lift Timeout
    end.

Definition push_egress_udp (send : EgressUdpSend) : stm Gateway unit bool := λ g,
  match push_component_output send batch (egress_udp_sends g) (gw_drive g) with
  | (Ret _, q, d) => (Ret true, g <| egress_udp_sends := q |> <| gw_drive := d |>)
  | (_, q, d) => (Ret false, g <| egress_udp_sends := q |> <| gw_drive := d |>)
  end.

Definition attribution_allows (now : Z) (address : IpAddr) : stm Gateway unit bool := λ g,
  let (ok, t) := has_allowed_authority_for_ip address (egress (policy (config g))) now (dns g) in
  (Ret ok, g <| dns := t |>).

Definition record_dns_query (payload : bytes) : stm Gateway unit unit := λ g,
  match record_query payload (dns g) with
  | Ret t => (Ret tt, g <| dns := t |>) | Fail e => (Fail e, g) | Panic => (Panic, g) | Timeout => (Timeout, g)
  end.

(** [handle_guest_udp]: [false] when the frame has to be offered again *)
Definition handle_guest_udp (now : Z) (src dst : SocketAddr) (payload : bytes) : stm Gateway unit bool :=
  protocol ← stm_lift (classify_udp_datagram payload);
  g ← stm_get;
  let is_dns := is_dns_udp (config g) dst || bool_decide (protocol = ProtocolDns) in
  prepared ← prepare_udp_payload (policy (config g)) protocol payload;
  match prepared with
  | None => mret true
  | Some bs =>
    let host := udp_host_destination dst (config g) in
    match check_destination (egress (policy (config g))) (ip host) with
    | Ret _ =>
      allowed ← (if is_dns then mret true else attribution_allows now (ip host));
      if negb allowed then release bs;; mret true
      else
        let send := {| es_proxy := {| guest_src := src; guest_dst := dst; host_dst := host |}; es_bytes := bs; es_is_dns := is_dns |} in
        pushed ← push_egress_udp send;
        if negb pushed then release bs;; mret false
        else (if is_dns then record_dns_query payload else mret tt);; mret true
    | _ => release bs;; mret true
    end
  end.

(** ** A frame of the guest *)
Inductive GuestFrameIngest := IngestQueued | IngestBlocked (frame : FrameBuf).

Definition allows_tcp_syn (now : Z) (syn : TcpSyn) : stm Gateway unit bool :=
  g ← stm_get;
  let dst := syn_dst syn in
  if is_dns_udp (config g) dst then mret true
  else match check_destination (egress (policy (config g))) (ip dst) with
       | Ret _ => if tls_intercepts_port (config g) (port dst) then mret true else attribution_allows now (ip dst)
       | _ => mret false
       end.

(** Room in the queue of the device, made by polling if need be *)
Definition device_has_room (now : Z) : stm Gateway unit bool :=
  g ← stm_get;
  (if can_receive_frame (device g) then mret tt else poll now);;
  g ← stm_get;
  if can_receive_frame (device g) then mret true
  else mark_turn (block_on LOCAL_BUFFER_CAPACITY);; mret false.

Definition ingest_for_stack (now : Z) (frame : FrameBuf) : stm Gateway unit GuestFrameIngest :=
  room ← device_has_room now;
  if negb room then mret (IngestBlocked frame)
  else
    stm_modify (λ g, g <| device := snd (receive_frame frame (device g)) |>);;
    poll now;;
    mret IngestQueued.

Definition ingest_tcp (now : Z) (frame : FrameBuf) : stm Gateway unit GuestFrameIngest :=
  match syn_from_frame (vec_bytes frame) with
  | None => ingest_for_stack now frame
  | Some syn =>
    allowed ← allows_tcp_syn now syn;
    g ← stm_get;
    if negb (allowed && negb (has_connection (syn_src syn) (syn_dst syn) (tcp g))) then ingest_for_stack now frame
    else
      room ← device_has_room now;
      if negb room then mret (IngestBlocked frame)
      else
        stm_modify (λ g, let (proxies, st) := listen (syn_src syn) (syn_dst syn) (tcp g, iface g) in
          g <| tcp := proxies |> <| iface := st |>);;
        ingest_for_stack now frame
  end.

Definition ingest_guest_frame (now : Z) (frame : FrameBuf) : stm Gateway unit GuestFrameIngest :=
  datagram ← on_pool (datagram_from_frame limits grown (vec_bytes frame));
  match datagram with
  | None => ingest_tcp now frame
  | Some d =>
    g ← stm_get;
    match host_port_response ip port (dg_dst d) (gateway (config g)) (dg_payload d) (udp g) with
    | Ret send =>
      pushed ← (λ g, match push_component_output send batch (ingress_udp_sends g) (gw_drive g) with
                     | (Ret _, q, t) => (Ret true, g <| ingress_udp_sends := q |> <| gw_drive := t |>)
                     | (_, q, t) => (Ret false, g <| ingress_udp_sends := q |> <| gw_drive := t |>)
                     end);
      if negb pushed then release (send_bytes send);; mret (IngestBlocked frame)
      else release_frame frame;; mret IngestQueued
    | Fail payload =>
      done ← handle_guest_udp now (dg_src d) (dg_dst d) (as_slice payload);
      release payload;;
      if negb done then mret (IngestBlocked frame) else release_frame frame;; mret IngestQueued
    | Panic => stm_lift Panic
    | Timeout => stm_lift Timeout
    end
  end.

(** ** UDP for the guest *)
Inductive UdpFrameWrite := WriteQueued | WriteBlockedFrame | WriteDropped.

Definition push_frame (frame : FrameBuf) : stm Gateway unit bool := λ g,
  match push_guest_frame (guest_frames g) batch frame (gw_drive g) with
  | (Ret _, q, d) => (Ret true, g <| guest_frames := q |> <| gw_drive := d |>)
  | (_, q, d) => (Ret false, g <| guest_frames := q |> <| gw_drive := d |>)
  end.

(** [write_udp_response]; the caller keeps [bs] when the frame is blocked *)
Definition write_udp_response (now : Z) (proxy : UdpProxyKey) (bs : bytes) (is_dns : bool) : stm Gateway unit UdpFrameWrite :=
  g ← stm_get;
  made ← on_pool (udp_frame limits grown (guest_dst proxy) (guest_src proxy) bs (mac_gateway (config g)) (mac_guest (config g)));
  match made with
  | None => mark_turn (block_on LOCAL_BUFFER_CAPACITY);; mret WriteBlockedFrame
  | Some frame =>
    pushed ← push_frame frame;
    if negb pushed then release_frame frame;; mret WriteBlockedFrame
    else
      (if is_dns then (λ g, match record_response bs now (dns g) with
                            | Ret t => (Ret tt, g <| dns := t |>) | Fail e => (Fail e, g) | Panic => (Panic, g) | Timeout => (Timeout, g)
                            end)
       else mret tt);;
      poll now;;
      mret WriteQueued
  end.

Definition ingest_ingress_udp_datagram (now : Z) (host_port : Z) (peer : SocketAddr) (bs : bytes) : stm Gateway unit UdpFrameWrite :=
  g ← stm_get;
  if negb (can_open_host_port host_port (udp g)) then mret WriteDropped
  else
    made ← on_pool (udp_frame limits grown {| ip := gateway (config g); port := host_port |} {| ip := guest (config g); port := host_port |}
      bs (mac_gateway (config g)) (mac_guest (config g)));
    match made with
    | None => mark_turn (block_on LOCAL_BUFFER_CAPACITY);; mret WriteBlockedFrame
    | Some frame =>
      pushed ← push_frame frame;
      if negb pushed then release_frame frame;; mret WriteBlockedFrame
      else
        g ← stm_get;
        let (opened, u) := open_host_port host_port peer (udp g) in
        if negb opened then mret WriteDropped
        else stm_modify (λ g, g <| udp := u |>);; poll now;; mret WriteQueued
    end.

(** ** What else changes the gateway *)
Definition record_dns_resolution (now : Z) (host : str) (addresses : list IpAddr) (ttl : Z) (g : Gateway) : Gateway :=
  g <| dns ::= record host addresses ttl now |>.

Definition update_runtime_secrets (next : RuntimeSecrets) (g : Gateway) : option (gset Authority) * Gateway :=
  let old := secrets (policy (config g)) in
  if bool_decide (Policy.bindings old = Policy.bindings next) then (None, g)
  else (Some (changed_authorities old next),
        g <| config; policy := {| egress := egress (policy (config g)); secrets := next |} |>).
End gateway.
