(* ===== verification/GatewayPolicy.v ===== *)
(** * Which datagrams leave the guest

    Over any history of frames, answers and resolutions: a datagram is handed to
    the egress side only if its destination is allowed, it carries no unresolved
    placeholder, and it is a DNS query or goes to an address that an answer has
    attributed to an allowed host. *)
From S2P Require Import Prelude Fields Text Io Policy Raw HttpHead FixedTable Dns Attribution Limits Buffers Drive DriveCorrect Device Gateway.
Local Open Scope nat_scope.

(** The payload of a datagram is part of the frame. *)
Class WireLaws `{Wire} := {
  udp_parts_bytes frame src dst data : are_bytes frame → udp_parts frame = Some (src, dst, data) → are_bytes data;
}.

(** [let x = call()] on a hypothesis about a run of the monad *)
Ltac stm_run H := unfold mbind, stm_bind, stm_get, stm_modify, stm_lift, mret, stm_ret in H; cbv beta iota in H.

Lemma retain_live_inv history t now : attribution_inv history t → attribution_inv history (retain_live now t).
Proof.
  intros (Hp & Hr & Hnp & Hnr & Hlp & Hlr). unfold retain_live, set_records. split_and!; cbn; try done.
  - intros r [_ Hin]%list_elem_of_filter. by apply Hr.
  - eapply sublist_NoDup; [exact Hnr|apply fmap_sublist, sublist_filter].
  - pose proof (length_filter (λ r, (now < ar_expires r)%Z) (at_records t)). lia.
Qed.

Lemma has_dns_question_total payload : are_bytes payload → ∃ b, has_dns_question payload = Ret b.
Proof.
  intros Hb. unfold has_dns_question. pose proof (parts_safe payload Hb) as Hs.
  destruct (dns_question_parts payload); simpl in Hs; try done; by eexists.
Qed.

Lemma has_dns_question_yes payload : has_dns_question payload = Ret true ↔ ∃ parts, dns_question_parts payload = Ret parts.
Proof. unfold has_dns_question. destruct (dns_question_parts payload); naive_solver. Qed.

(** ** One datagram *)
Section policy.
Context {St P T : Type} `{Wire} `{!Stack St} `{!TcpProxies P St} `{!BoundedMap T Z SocketAddr}.
Context (limits : NetworkLimits) (grown : nat → nat → nat).
Implicit Types g : @Gateway St P T.

Definition resolved_udp (payload : bytes) : Prop := ¬ occurs SECRET_PLACEHOLDER_PREFIX payload.

(** What may be sent without a look at the attribution of addresses *)
Record content_allowed (c : GatewayConfig) (send : EgressUdpSend) : Prop := {
  ca_destination : check_destination (egress (policy c)) (ip (host_dst (es_proxy send))) = Ret tt;
  ca_host : host_dst (es_proxy send) = udp_host_destination (guest_dst (es_proxy send)) c;
  ca_dns : es_is_dns send = true ↔
    is_dns_udp c (guest_dst (es_proxy send)) = true ∨ has_dns_question (as_slice (es_bytes send)) = Ret true;
  ca_placeholder : has_dns_question (as_slice (es_bytes send)) = Ret true ∨ resolved_udp (as_slice (es_bytes send));
  ca_quic : has_dns_question (as_slice (es_bytes send)) = Ret true ∨
    Policy.bindings (secrets (policy c)) = [] ∨ looks_like_quic_initial (as_slice (es_bytes send)) = false;
}.

Definition attributed (now : Z) (t : DnsAttribution) (c : GatewayConfig) (address : IpAddr) : Prop :=
  restricts_authorities (egress (policy c)) = false ∨
  ∃ r, r ∈ at_records t ∧ (now < ar_expires r)%Z ∧ ar_address r = address ∧
    allows_authority (egress (policy c)) (authority_new (ar_host r)) = true.

(** The rest of the gateway that a datagram does not touch *)
Definition udp_kept g g' : Prop := config g' = config g ∧ ingress_udp_sends g' = ingress_udp_sends g ∧ tcp g' = tcp g.

Lemma release_buffer b g : pooled b → ∃ p, release limits b g = (Ret tt, g <| gw_buffers := p |>).
Proof.
  intros Hb. unfold release, byte_recycle, buckets_recycle, bucket_mut, bucket. unfold pooled in Hb.
  destruct (class b); try done; simpl; by eexists.
Qed.

Lemma set_bytes_pooled bs b : pooled b → pooled (set_bytes grown bs b).
Proof. done. Qed.

Lemma as_slice_set_bytes bs b : as_slice (set_bytes grown bs b) = bs.
Proof. done. Qed.

Lemma prepare_spec pol protocol payload g r g' :
  are_bytes payload → prepare_udp_payload limits grown pol protocol payload g = (r, g') →
  ∃ o p, r = Ret o ∧ g' = g <| gw_buffers := p |> ∧
    match o with
    | None => True
    | Some b => pooled b ∧ as_slice b = payload ∧ (protocol = ProtocolDns ∨ resolved_udp payload) ∧
        ((protocol = Quic ∨ protocol = Http3) → Policy.bindings (secrets pol) = [])
    end.
Proof.
  intros Hbytes. unfold prepare_udp_payload.
  destruct (_ && _) eqn:Hquic.
  { intros [= <- <-]. exists None, (gw_buffers g). by destruct g. }
  assert ((protocol = Quic ∨ protocol = Http3) → Policy.bindings (secrets pol) = []) as Hq.
  { intros Hp. apply andb_false_iff in Hquic as [[H1 H2]%orb_false_iff|Hs%negb_false_iff%bool_decide_eq_true]; [|done].
    apply bool_decide_eq_false in H1, H2. naive_solver. }
  unfold on_pool, mbind, stm_bind, mret, stm_ret, stm_lift.
  destruct (byte_try_take_ends limits (length payload) (gw_buffers g)) as (taken & p & Htake & Hends).
  unfold try_byte_with_capacity. rewrite Htake. destruct taken as [b|e| |]; try done.
  2:{ intros [= <- <-]. by exists None, p. }
  apply byte_try_take_pooled in Htake.
  destruct (bool_decide_reflect (protocol = ProtocolDns)) as [Hdns|Hdns].
  { intros [= <- <-]. exists (Some (set_bytes grown payload b)), p. split; [done|]. split; [done|]. split_and!; auto. }
  pose proof (reject_safe payload) as Hrej. unfold process, mbind, outcome_bind.
  destruct (reject_unresolved_secret_placeholders payload) as [[]|e| |] eqn:Hr; simpl in Hrej; try done.
  - intros [= <- <-]. exists (Some (set_bytes grown payload b)), p. split; [done|]. split; [done|]. split_and!; auto.
  - destruct (release_buffer b (g <| gw_buffers := p |>)) as [p' ->]; [done|]. intros [= <- <-]. by exists None, p'.
Qed.

Lemma push_egress_spec send g r g' :
  push_egress_udp limits send g = (r, g') →
  ∃ ok, r = Ret ok ∧ udp_kept g g' ∧ dns g' = dns g ∧ gw_buffers g' = gw_buffers g ∧ udp g' = udp g ∧
    egress_udp_sends g' = egress_udp_sends g ++ (if ok then [send] else []).
Proof.
  unfold push_egress_udp, push_component_output. destruct (_ <=? _).
  { intros [= <- <-]. exists false. rewrite app_nil_r. by split_and!. }
  destruct (step_or_exhausted (gw_drive g)) as [[] d]; intros [= <- <-]; [exists true|exists false; rewrite app_nil_r]; by split_and!.
Qed.

Lemma attribution_allows_spec now address g r g' :
  attribution_allows now address g = (r, g') →
  ∃ ok, r = Ret ok ∧ g' = g <| dns := dns g' |> ∧ (dns g' = dns g ∨ dns g' = retain_live now (dns g)) ∧
    (ok = true ↔ attributed now (dns g) (config g) address).
Proof.
  unfold attribution_allows, has_allowed_authority_for_ip, attributed.
  destruct (restricts_authorities _) eqn:Hres; cbn [negb].
  2:{ intros [= <- <-]. exists true. split; [done|]. split; [done|]. split; [by left|]. split; [by left|done]. }
  intros [= <- <-]. eexists. split; [done|]. split; [done|]. split; [by right|].
  rewrite existsb_exists. unfold hosts_of, retain_live. cbn. split.
  - intros (h & Hin & Hok). apply list_elem_of_In, list_elem_of_fmap in Hin as (rec & -> & [Ha [Hl Hin]%list_elem_of_filter]%list_elem_of_filter).
    right. by exists rec.
  - intros [?|(rec & Hin & Hl & Ha & Hok)]; [done|]. exists (ar_host rec). split; [|done]. apply list_elem_of_In, list_elem_of_fmap.
    exists rec. split; [done|]. apply list_elem_of_filter. split; [done|]. by apply list_elem_of_filter.
Qed.

(** What a frame or a datagram did: at most one send, which was allowed, and what it changed of the
    attribution. *)
Definition forwards (now : Z) (src dst : SocketAddr) (payload : bytes) g g' (send : EgressUdpSend) : Prop :=
  guest_src (es_proxy send) = src ∧ guest_dst (es_proxy send) = dst ∧ as_slice (es_bytes send) = payload ∧
  content_allowed (config g) send ∧
  (if es_is_dns send then record_query payload (dns g) = Ret (dns g')
   else (dns g' = dns g ∨ dns g' = retain_live now (dns g)) ∧ attributed now (dns g) (config g) (ip (host_dst (es_proxy send)))).

Definition datagram_result (now : Z) (src dst : SocketAddr) (payload : bytes) g g' : Prop :=
  udp_kept g g' ∧ udp g' = udp g ∧
  ((egress_udp_sends g' = egress_udp_sends g ∧ (dns g' = dns g ∨ dns g' = retain_live now (dns g))) ∨
   ∃ send, egress_udp_sends g' = egress_udp_sends g ++ [send] ∧ forwards now src dst payload g g' send).

Lemma datagram_nothing now src dst payload g g' :
  udp_kept g g' → udp g' = udp g → egress_udp_sends g' = egress_udp_sends g →
  (dns g' = dns g ∨ dns g' = retain_live now (dns g)) → datagram_result now src dst payload g g'.
Proof. intros. split; [done|]. split; [done|]. by left. Qed.

Lemma record_query_total payload t : are_bytes payload → ∃ t', record_query payload t = Ret t'.
Proof.
  intros Hb. unfold record_query. pose proof (question_safe payload Hb) as Hs.
  destruct (dns_question payload) as [q|[]| |]; try done; [|by eexists].
  case_bool_decide; [by eexists|]. destruct (_ <? _); by eexists.
Qed.

Lemma classify_spec payload :
  are_bytes payload →
  ∃ protocol, classify_udp_datagram payload = Ret protocol ∧
    (protocol = ProtocolDns ↔ has_dns_question payload = Ret true) ∧
    (protocol = ProtocolDns ∨ protocol = Http3 ∨ looks_like_quic_initial payload = false).
Proof.
  intros [b Hb]%has_dns_question_total. unfold classify_udp_datagram, mbind, outcome_bind. rewrite Hb.
  eexists. split; [done|]. unfold looks_like_http3_candidate.
  destruct b; [|destruct (looks_like_quic_initial payload)]; split; naive_solver.
Qed.

Lemma handle_guest_udp_spec now src dst payload g r g' :
  are_bytes payload → handle_guest_udp limits grown now src dst payload g = (r, g') →
  ∃ finished, r = Ret finished ∧ datagram_result now src dst payload g g' ∧
    (finished = false → egress_udp_sends g' = egress_udp_sends g).
Proof.
  intros Hb. unfold handle_guest_udp. destruct (classify_spec payload Hb) as (protocol & Hclass & Hdns & Hquic).
  unfold mbind at 1, stm_bind at 1, stm_lift at 1. rewrite Hclass. unfold mbind at 1, stm_bind at 1, stm_get at 1. cbv zeta.
  set (is_dns := is_dns_udp (config g) dst || bool_decide (protocol = ProtocolDns)).
  unfold mbind at 1, stm_bind at 1.
  destruct (prepare_udp_payload limits grown (policy (config g)) protocol payload g) as [r1 g1] eqn:Hprep.
  apply prepare_spec in Hprep as (o & p & -> & -> & Ho); [|done]. destruct o as [bs|].
  2:{ intros [= <- <-]. exists true. split; [done|]. split; [|done]. by apply datagram_nothing; auto. }
  destruct Ho as (Hpool & Hbs & Hplace & Hq).
  set (host := udp_host_destination dst (config g)).
  assert (Hdrop : ∀ b g2, config g2 = config g → tcp g2 = tcp g → ingress_udp_sends g2 = ingress_udp_sends g → udp g2 = udp g →
    egress_udp_sends g2 = egress_udp_sends g → (dns g2 = dns g ∨ dns g2 = retain_live now (dns g)) →
    (release limits bs;; mret b) g2 = (r, g') →
    ∃ finished, r = Ret finished ∧ datagram_result now src dst payload g g' ∧ (finished = false → egress_udp_sends g' = egress_udp_sends g)).
  { intros b g2 H1 Htcp H2 H3 H4 H5. unfold mbind, stm_bind. destruct (release_buffer bs g2) as [p2 ->]; [done|].
    intros [= <- <-]. exists b. split; [done|]. split; [|by intros]. by apply datagram_nothing. }
  destruct (check_destination _ _) as [[]|e| |] eqn:Hcheck; [|by apply Hdrop; auto..].
  unfold mbind at 1, stm_bind at 1.
  assert (∃ ok g2, (if is_dns then mret true else attribution_allows now (ip host)) (g <| gw_buffers := p |>) = (Ret ok, g2) ∧
    config g2 = config g ∧ tcp g2 = tcp g ∧ ingress_udp_sends g2 = ingress_udp_sends g ∧ udp g2 = udp g ∧ egress_udp_sends g2 = egress_udp_sends g ∧
    (dns g2 = dns g ∨ dns g2 = retain_live now (dns g)) ∧ (is_dns = true → dns g2 = dns g ∧ ok = true) ∧
    (ok = true → is_dns = true ∨ attributed now (dns g) (config g) (ip host))) as (ok & g2 & -> & G1 & Gtcp & G2 & G3 & G4 & G5 & G6 & G7).
  { destruct is_dns; [exists true; eexists; split; [done|]; split_and!; auto|].
    destruct (attribution_allows now (ip host) (g <| gw_buffers := p |>)) as [r2 g2] eqn:Hal.
    apply attribution_allows_spec in Hal as (ok & -> & Hg2 & Hd & Hok). exists ok, g2. split; [done|].
    rewrite Hg2. split_and!; try done. intros ->. right. by apply Hok. }
  destruct ok; cbn [negb]; [|by apply Hdrop].
  unfold mbind at 1, stm_bind at 1. set (send := {| es_proxy := _; es_bytes := bs; es_is_dns := is_dns |}).
  destruct (push_egress_udp limits send g2) as [r3 g3] eqn:Hpush.
  apply push_egress_spec in Hpush as (pushed & -> & (P1 & P2 & Ptcp) & P3 & P4 & P5 & P6).
  destruct pushed; cbn [negb]; [|rewrite app_nil_r in P6; apply Hdrop; try congruence; rewrite P3; done].
  assert (content_allowed (config g) send) as Hcontent.
  { split; simpl; rewrite ?Hbs; [done|done|..].
    - unfold is_dns. rewrite orb_true_iff, bool_decide_eq_true. by rewrite Hdns.
    - destruct Hplace as [?%Hdns|?]; auto.
    - destruct Hquic as [?%Hdns|[?|?]]; auto. }
  assert (Hsend : ∀ g4, config g4 = config g3 → tcp g4 = tcp g3 → ingress_udp_sends g4 = ingress_udp_sends g3 → udp g4 = udp g3 →
    egress_udp_sends g4 = egress_udp_sends g3 → (if is_dns then record_query payload (dns g) = Ret (dns g4) else dns g4 = dns g3) →
    datagram_result now src dst payload g g4).
  { intros g4 Q1 Qtcp Q2 Q3 Q4 Q5. split; [split_and!; congruence|]. split; [congruence|]. right. exists send. split; [congruence|].
    split; [done|]. split; [done|]. split; [done|]. split; [done|]. simpl. destruct is_dns; [done|].
    rewrite Q5, P3. split; [done|]. destruct G7 as [?|?]; done. }
  unfold mbind, stm_bind. destruct is_dns.
  - unfold record_dns_query. destruct (G6 eq_refl) as [Hd2 _]. rewrite P3, Hd2.
    destruct (record_query_total payload (dns g) Hb) as [t Ht]. rewrite Ht. intros [= <- <-].
    exists true. split; [done|]. split; [|done]. by apply Hsend.
  - intros [= <- <-]. exists true. split; [done|]. split; [|done]. by apply Hsend.
Qed.

(** The resolver of the host is checked like any destination: while the policy blocks it, no question
    that the guest sends to the gateway's resolver over UDP is ever answered. *)
Lemma blocked_resolver_drops_queries now src dst payload g r g' :
  are_bytes payload → is_dns_udp (config g) dst = true →
  check_destination (egress (policy (config g))) (ip (dns_upstream (config g))) ≠ Ret tt →
  handle_guest_udp limits grown now src dst payload g = (r, g') → egress_udp_sends g' = egress_udp_sends g.
Proof.
  intros Hb Hdns Hcheck Hrun. apply handle_guest_udp_spec in Hrun as (_ & _ & (_ & _ & Hres) & _); [|done].
  destruct Hres as [[? _]|(send & _ & _ & Hdst & _ & [Hc Hh _ _ _] & _)]; [done|].
  rewrite Hdst in Hh. unfold udp_host_destination in Hh. rewrite Hdns in Hh. by rewrite Hh in Hc.
Qed.
End policy.

(** ** What leaves the attribution and the sends alone *)
Create HintDb keeps.
Section kept.
Context {St P T : Type} `{Wire} `{!Stack St} `{!TcpProxies P St} `{!BoundedMap T Z SocketAddr}.
Context (limits : NetworkLimits) (grown : nat → nat → nat).
Implicit Types g : @Gateway St P T.

Definition stack_kept g g' : Prop :=
  config g' = config g ∧ dns g' = dns g ∧ egress_udp_sends g' = egress_udp_sends g ∧ tcp g' = tcp g.

#[local] Instance stack_kept_preorder : PreOrder stack_kept.
Proof. split; [done|]. intros g1 g2 g3 (? & ? & ? & ?) (? & ? & ? & ?). split_and!; congruence. Qed.

Definition keeps {A} (m : stm (@Gateway St P T) unit A) : Prop := ∀ g, stack_kept g (snd (m g)).

Lemma keeps_ret {A} (a : A) : keeps (mret a).
Proof. by intros g. Qed.
Lemma keeps_get : keeps stm_get.
Proof. by intros g. Qed.
Lemma keeps_lift {A} (o : outcome unit A) : keeps (stm_lift o).
Proof. by intros g. Qed.
Lemma keeps_bind {A B} (m : stm (@Gateway St P T) unit A) (f : A → stm (@Gateway St P T) unit B) :
  keeps m → (∀ a, keeps (f a)) → keeps (m ≫= f).
Proof.
  intros Hm Hf g. unfold mbind, stm_bind. specialize (Hm g). destruct (m g) as [[a|e| |] g1]; try done.
  etrans; [exact Hm|apply Hf].
Qed.
Lemma keeps_modify (f : @Gateway St P T → @Gateway St P T) : (∀ g, stack_kept g (f g)) → keeps (stm_modify f).
Proof. intros Hf g. apply Hf. Qed.
Lemma keeps_on_turn {A} (f : DriveTurn → A * DriveTurn) : keeps (on_turn f).
Proof. intros g. unfold on_turn. by destruct (f (gw_drive g)). Qed.
Lemma keeps_on_pool {A} (f : BufferPool → A * BufferPool) : keeps (on_pool f).
Proof. intros g. unfold on_pool. by destruct (f (gw_buffers g)). Qed.
Lemma keeps_mark (f : DriveTurn → DriveTurn) : keeps (mark_turn f).
Proof. by intros g. Qed.
Lemma keeps_release_frame f : keeps (release_frame limits f).
Proof. by intros g. Qed.
Lemma keeps_release b : keeps (release limits b).
Proof. intros g. unfold release. by destruct (byte_recycle limits b (gw_buffers g)). Qed.
Lemma keeps_push_frame frame : keeps (push_frame limits frame).
Proof. intros g. unfold push_frame. by destruct (push_guest_frame _ _ _ _) as [[[] ?] ?]. Qed.

#[local] Hint Resolve keeps_ret keeps_get keeps_lift keeps_bind keeps_modify keeps_on_turn keeps_on_pool keeps_mark
  keeps_release_frame keeps_release keeps_push_frame : keeps.
Ltac keeps_auto := repeat first [progress eauto with keeps | apply keeps_bind; [|intros] | case_match | done].

Lemma keeps_drain_frames fuel count : keeps (drain_frames limits fuel count).
Proof.
  revert count. induction fuel as [|fuel IH]; intros count; simpl; keeps_auto; apply keeps_modify; by intros.
Qed.
#[local] Hint Resolve keeps_drain_frames : keeps.

Lemma keeps_drain : keeps (drain_transmitted_frames limits).
Proof. unfold drain_transmitted_frames. keeps_auto. Qed.
#[local] Hint Resolve keeps_drain : keeps.

Lemma keeps_poll now : keeps (poll limits now).
Proof.
  unfold poll. cbv zeta. apply keeps_bind; [auto with keeps|intros _]. apply keeps_bind; [auto with keeps|intros g0].
  case_match; [auto with keeps|]. apply keeps_bind; [auto with keeps|intros ok]. case_match; [auto with keeps|].
  apply keeps_bind; [|intros changed; keeps_auto].
  intros g. by destruct (iface_poll _ _) as [? [[? ?] ?]].
Qed.
#[local] Hint Resolve keeps_poll : keeps.

Lemma keeps_device_has_room now : keeps (device_has_room limits now).
Proof. unfold device_has_room. keeps_auto. Qed.
#[local] Hint Resolve keeps_device_has_room : keeps.

Lemma keeps_ingest_for_stack now frame : keeps (ingest_for_stack limits now frame).
Proof. unfold ingest_for_stack. keeps_auto; apply keeps_modify; by intros. Qed.

Lemma allows_tcp_syn_spec now syn g r g' :
  allows_tcp_syn now syn g = (r, g') →
  config g' = config g ∧ egress_udp_sends g' = egress_udp_sends g ∧ tcp g' = tcp g ∧
  (dns g' = dns g ∨ dns g' = retain_live now (dns g)) ∧
  ∃ ok, r = Ret ok ∧ (ok = true ↔ is_dns_udp (config g) (syn_dst syn) = true ∨
    check_destination (egress (policy (config g))) (ip (syn_dst syn)) = Ret tt ∧
    (tls_intercepts_port (config g) (port (syn_dst syn)) = true ∨ attributed now (dns g) (config g) (ip (syn_dst syn)))).
Proof.
  unfold allows_tcp_syn. unfold mbind at 1, stm_bind at 1, stm_get at 1. cbv zeta.
  destruct (is_dns_udp _ _) eqn:Hdns.
  { intros [= <- <-]. split_and!; auto. exists true. naive_solver. }
  destruct (check_destination _ _) as [[]|e| |] eqn:Hcheck; [|intros [= <- <-]; split_and!; auto; exists false; naive_solver..].
  destruct (tls_intercepts_port _ _) eqn:Htls.
  { intros [= <- <-]. split_and!; auto. exists true. naive_solver. }
  intros (ok & -> & Hg & Hd & Hok)%attribution_allows_spec. rewrite Hg. split_and!; try done.
  exists ok. split; [done|]. naive_solver.
Qed.

(** ** A frame *)

(** A connection to this destination may be opened. *)
Definition admitted (now : Z) (t : DnsAttribution) (c : GatewayConfig) (dst : SocketAddr) : Prop :=
  is_dns_udp c dst = true ∨
  check_destination (egress (policy c)) (ip dst) = Ret tt ∧
    (tls_intercepts_port c (port dst) = true ∨ attributed now t c (ip dst)).

Definition frame_result (now : Z) (frame : bytes) g g' : Prop :=
  config g' = config g ∧
  (tcp g' = tcp g ∨ ∃ syn, syn_from_frame frame = Some syn ∧ admitted now (dns g) (config g) (syn_dst syn)) ∧
  ((egress_udp_sends g' = egress_udp_sends g ∧ (dns g' = dns g ∨ dns g' = retain_live now (dns g))) ∨
   ∃ src dst payload send, egress_udp_sends g' = egress_udp_sends g ++ [send] ∧ tcp g' = tcp g ∧ are_bytes payload ∧
     forwards now src dst payload g g' send).

(** [m] ends like the stack *)
Lemma keeps_run {A} (m : stm (@Gateway St P T) unit A) g r g' : keeps m → m g = (r, g') → stack_kept g g'.
Proof. intros Hm Hrun. specialize (Hm g). by rewrite Hrun in Hm. Qed.

Lemma frame_result_kept now frame g g1 g' : frame_result now frame g g1 → stack_kept g1 g' → frame_result now frame g g'.
Proof.
  intros (H1 & H2 & H3) (K1 & K2 & K3 & K4). split; [congruence|]. rewrite K2, K3, K4.
  split; [done|]. destruct H3 as [?|(src & dst & payload & send & ? & ? & ? & F)]; [by left|right].
  exists src, dst, payload, send. split; [done|]. split; [done|]. split; [done|]. unfold forwards in *. by rewrite K2.
Qed.

Lemma keeps_result now frame g g' : stack_kept g g' → frame_result now frame g g'.
Proof. intros (? & ? & ? & ?). split; [done|]. split; [by left|]. left. split; [done|]. by left. Qed.

Lemma ingest_tcp_spec now frame g r g' :
  ingest_tcp limits now frame g = (r, g') → frame_result now (vec_bytes frame) g g'.
Proof.
  unfold ingest_tcp. destruct (syn_from_frame (vec_bytes frame)) as [syn|] eqn:Hsyn.
  2:{ intros Hrun%keeps_run; [by apply keeps_result|apply keeps_ingest_for_stack]. }
  unfold mbind at 1, stm_bind at 1. destruct (allows_tcp_syn now syn g) as [r1 g1] eqn:Hallow.
  apply allows_tcp_syn_spec in Hallow as (A1 & A2 & A3 & A4 & ok & -> & Hok).
  assert (frame_result now (vec_bytes frame) g g1) as H1 by (split; [done|]; split; [by left|]; by left).
  unfold mbind at 1, stm_bind at 1, stm_get at 1.
  destruct (negb _) eqn:Hnew.
  { intros Hrun%keeps_run; [by eapply frame_result_kept|apply keeps_ingest_for_stack]. }
  apply negb_false_iff, andb_true_iff in Hnew as [-> _].
  unfold mbind at 1, stm_bind at 1. destruct (device_has_room limits now g1) as [r2 g2] eqn:Hroom.
  apply keeps_run in Hroom; [|apply keeps_device_has_room]. pose proof (frame_result_kept _ _ _ _ _ H1 Hroom) as H2.
  destruct r2 as [room|[]| |]; [|by intros [= <- <-]..]. destruct room; cbn [negb]; [|by intros [= <- <-]].
  unfold mbind at 1, stm_bind at 1, stm_modify at 1. destruct (listen _ _ _) as [proxies st].
  intros (K1 & K2 & K3 & K4)%keeps_run; [|apply keeps_ingest_for_stack].
  destruct Hroom as (R1 & R2 & R3 & R4). simpl in *.
  split; [congruence|]. split; [right; exists syn; split; [done|]; by apply Hok|].
  left. split; [congruence|]. rewrite K2, R2. done.
Qed.

Lemma host_port_response_fail (dst : SocketAddr) gw (payload buf : ByteBuf) (u : UdpPeers T) :
  host_port_response ip port dst gw payload u = Fail buf → buf = payload.
Proof. unfold host_port_response. repeat case_match; congruence. Qed.

Lemma ingest_guest_frame_spec now frame g r g' :
  (∀ src dst data, udp_parts (vec_bytes frame) = Some (src, dst, data) → are_bytes data) →
  ingest_guest_frame limits grown now frame g = (r, g') → frame_result now (vec_bytes frame) g g'.
Proof.
  intros Hbytes. unfold ingest_guest_frame. unfold mbind at 1, stm_bind at 1, on_pool at 1, datagram_from_frame.
  destruct (udp_parts (vec_bytes frame)) as [[[src dst] data]|] eqn:Hparts.
  2:{ intros (H1 & H2 & H3)%ingest_tcp_spec. by split_and!. }
  destruct (try_byte_with_capacity limits (length data) (gw_buffers g)) as [taken p].
  destruct taken as [payload|e| |]; [|intros (H1 & H2 & H3)%ingest_tcp_spec; by split_and!..].
  unfold mbind at 1, stm_bind at 1, stm_get at 1.
  destruct (host_port_response _ _ _ _ _ _) as [send|buf| |] eqn:Hport; [| |by intros [= <- <-]; apply keeps_result..].
  - intros Hrun%keeps_run; [by apply keeps_result|]. clear.
    apply keeps_bind.
    { intros g. by destruct (push_component_output _ _ _ _) as [[[[]|?| |] ?] ?]. }
    intros pushed. destruct (negb pushed); (apply keeps_bind; [|intros; apply keeps_ret]);
      [apply keeps_release|apply keeps_release_frame].
  - apply host_port_response_fail in Hport as ->. cbn [dg_src dg_dst dg_payload].
    unfold mbind at 1, stm_bind at 1. set (g1 := g <| gw_buffers := p |>).
    destruct (handle_guest_udp limits grown now src dst _ g1) as [r1 g2] eqn:Hudp.
    rewrite as_slice_set_bytes in Hudp.
    apply handle_guest_udp_spec in Hudp as (finished & -> & ((U1 & U2 & U3) & U4 & U5) & _); [|by eapply Hbytes].
    intros Hrun%keeps_run.
    2:{ apply keeps_bind; [apply keeps_release|intros _]. destruct finished; cbn [negb]; [|apply keeps_ret].
        apply keeps_bind; [apply keeps_release_frame|intros; apply keeps_ret]. }
    eapply frame_result_kept; [|exact Hrun]. split; [done|]. split; [by left|].
    destruct U5 as [?|(send & ? & ?)]; [by left|right]. exists src, dst, data, send. split_and!; try done. by eapply Hbytes.
Qed.
End kept.

(** ** Histories of the gateway *)
#[local] Instance outcome_eq_dec {E A} `{EqDecision E} `{EqDecision A} : EqDecision (outcome E A).
Proof. solve_decision. Defined.
#[export] Instance UdpFrameWrite_eq_dec : EqDecision UdpFrameWrite.
Proof. solve_decision. Defined.

Inductive gw_entry :=
| Sent (now : Z) (c : GatewayConfig) (send : EgressUdpSend)
| Opened (now : Z) (c : GatewayConfig) (dst : SocketAddr)
| Answered (now : Z) (payload : bytes)
| ResolvedBy (now : Z) (host : str) (addresses : list IpAddr) (ttl : Z).

(** What the entries mean to the attribution of addresses *)
Definition attribution_events (e : gw_entry) : list event :=
  match e with
  | Sent _ _ send => if es_is_dns send then [Query (as_slice (es_bytes send))] else []
  | Opened _ _ _ => []
  | Answered now payload => [Response payload now]
  | ResolvedBy now host addresses ttl => [Resolved host addresses ttl now]
  end.
Definition history_of (log : list gw_entry) : list event := log ≫= attribution_events.

(** A host that may be reached has been attributed to the address by what came before, and still is. *)
Definition known_address (before : list gw_entry) (now : Z) (c : GatewayConfig) (address : IpAddr) : Prop :=
  restricts_authorities (egress (policy c)) = false ∨
  ∃ host expires, (now < expires)%Z ∧ justified (history_of before) address host expires ∧
    allows_authority (egress (policy c)) (authority_new host) = true.

Definition entry_justified (before : list gw_entry) (e : gw_entry) : Prop :=
  match e with
  | Sent now c send => content_allowed c send ∧ (es_is_dns send = true ∨ known_address before now c (ip (host_dst (es_proxy send))))
  | Opened now c dst => is_dns_udp c dst = true ∨
      check_destination (egress (policy c)) (ip dst) = Ret tt ∧
      (tls_intercepts_port c (port dst) = true ∨ known_address before now c (ip dst))
  | _ => True
  end.

Lemma history_snoc log e : history_of (log ++ [e]) = history_of log ++ attribution_events e.
Proof. unfold history_of. rewrite bind_app. cbn. by rewrite app_nil_r. Qed.

Section world.
Context {St P T : Type} `{WireLaws} `{!Stack St} `{!TcpProxies P St} `{!BoundedMap T Z SocketAddr}.
Context (limits : NetworkLimits) (grown : nat → nat → nat).
Implicit Types g : @Gateway St P T.

Record GwWorld := { gw : @Gateway St P T; log : list gw_entry }.

(** The connections a frame opened *)
Definition opened_by (now : Z) (frame : bytes) g g' (entries : list gw_entry) : Prop :=
  (tcp g' = tcp g ∧ entries = []) ∨
  (tcp g' ≠ tcp g ∧ ∃ syn, syn_from_frame frame = Some syn ∧ entries = [Opened now (config g) (syn_dst syn)]).

Definition sent_by (now : Z) g g' : list gw_entry :=
  Sent now (config g) <$> drop (length (egress_udp_sends g)) (egress_udp_sends g').

Inductive gw_step : GwWorld → GwWorld → Prop :=
| step_frame now frame g r g' log opened :
    are_bytes (vec_bytes frame) → ingest_guest_frame limits grown now frame g = (r, g') →
    opened_by now (vec_bytes frame) g g' opened →
    gw_step {| gw := g; log := log |} {| gw := g'; log := log ++ opened ++ sent_by now g g' |}
| step_answer now proxy bs is_dns g r g' log :
    are_bytes bs → write_udp_response limits grown now proxy bs is_dns g = (r, g') →
    gw_step {| gw := g; log := log |}
      {| gw := g'; log := log ++ (if is_dns && bool_decide (r = Ret WriteQueued) then [Answered now bs] else []) |}
| step_datagram now host_port peer bs g r g' log :
    ingest_ingress_udp_datagram limits grown now host_port peer bs g = (r, g') →
    gw_step {| gw := g; log := log |} {| gw := g'; log := log |}
| step_resolution now host addresses ttl g log :
    gw_step {| gw := g; log := log |}
      {| gw := record_dns_resolution now host addresses ttl g; log := log ++ [ResolvedBy now host addresses ttl] |}
| step_secrets next g log :
    gw_step {| gw := g; log := log |} {| gw := snd (update_runtime_secrets next g); log := log |}
| step_poll now g r g' log :
    poll limits now g = (r, g') → gw_step {| gw := g; log := log |} {| gw := g'; log := log |}
| step_rest g g' taken log :
    (** the other components work: sends are taken from the queue, proxies and the stack move on *)
    config g' = config g → dns g' = dns g → egress_udp_sends g = taken ++ egress_udp_sends g' →
    gw_step {| gw := g; log := log |} {| gw := g'; log := log |}.

Record gw_ok (w : GwWorld) : Prop := {
  ok_dns : attribution_inv (history_of (log w)) (dns (gw w));
  ok_log : ∀ before e after, log w = before ++ e :: after → entry_justified before e;
  ok_queue : ∀ send, send ∈ egress_udp_sends (gw w) → ∃ now c, Sent now c send ∈ log w;
}.

Lemma drain_frames_total fuel count g :
  length (tx (device g)) ≤ fuel → ∃ n g', drain_frames limits fuel count g = (Ret n, g').
Proof.
  revert count g. induction fuel as [|fuel IH]; intros count g Hlen; simpl; unfold mbind at 1, stm_bind at 1, stm_get at 1.
  { unfold next_transmitted_frame_len. destruct (tx (device g)); [|simpl in Hlen; lia]. simpl. by do 2 eexists. }
  destruct (next_transmitted_frame_len (device g)) as [n|] eqn:Hnext; [|by do 2 eexists].
  unfold mbind at 1, stm_bind at 1, on_turn at 1. destruct (enqueue_guest_frame _ _ _ _) as [[] d]; cbn [negb]; [|by do 2 eexists].
  unfold pop_transmitted_frame, next_transmitted_frame_len in *.
  destruct (tx (device g)) as [|frame rest] eqn:Htx; [done|].
  unfold mbind, stm_bind, stm_modify. apply IH. simpl in *. lia.
Qed.

Lemma drain_total g : ∃ g', drain_transmitted_frames limits g = (Ret tt, g').
Proof.
  unfold drain_transmitted_frames. unfold mbind, stm_bind, stm_get.
  destruct (drain_frames_total (length (tx (device g))) 0 g) as (n & g1 & ->); [done|].
  destruct (tx (device g1)), (0 <? n); by eexists.
Qed.

(** Polling ends, with the frames it could move moved. *)
Lemma poll_total now g : ∃ g', poll limits now g = (Ret tt, g').
Proof.
  unfold poll. unfold mbind at 1, stm_bind at 1. destruct (drain_total g) as [g1 ->].
  unfold mbind at 1, stm_bind at 1, stm_get at 1. destruct (has_poll_work now g1); cbn [negb]; [|by eexists]. cbv zeta.
  unfold mbind at 1, stm_bind at 1, on_turn at 1. destruct (step_or_exhausted _) as [[] d]; cbn [negb]; [|by eexists].
  unfold mbind, stm_bind, stm_get. destruct (iface_poll _ _) as [changed [[st dev] p]].
  destruct (_ || _); apply drain_total.
Qed.

(** Nothing is recorded of an answer that was not queued. *)
Lemma write_udp_response_spec now proxy bs is_dns g r g' :
  are_bytes bs → write_udp_response limits grown now proxy bs is_dns g = (r, g') →
  config g' = config g ∧ egress_udp_sends g' = egress_udp_sends g ∧
  if is_dns && bool_decide (r = Ret WriteQueued) then record_response bs now (dns g) = Ret (dns g') else dns g' = dns g.
Proof.
  intros Hb. unfold write_udp_response. unfold mbind at 1, stm_bind at 1, stm_get at 1.
  unfold mbind at 1, stm_bind at 1, on_pool at 1. destruct (udp_frame _ _ _ _ _ _ _ _) as [made p].
  set (g1 := g <| gw_buffers := p |>).
  destruct made as [frame|]; [|intros [= <- <-]; by rewrite bool_decide_eq_false_2, andb_false_r].
  unfold mbind at 1, stm_bind at 1. destruct (push_frame limits frame g1) as [r2 g2] eqn:Hpush.
  assert (∃ b, r2 = Ret b) as [b ->].
  { unfold push_frame in Hpush. destruct (push_guest_frame _ _ _ _) as [[[] ?] ?]; injection Hpush as <- <-; by eexists. }
  apply keeps_run in Hpush as (K1 & K2 & K3 & _); [|apply keeps_push_frame].
  destruct b; cbn [negb].
  2:{ intros [= <- <-]. rewrite bool_decide_eq_false_2, andb_false_r by done. done. }
  assert (∀ t, ∃ t', record_response bs now t = Ret t') as Hrec.
  { intros t. unfold record_response. pose proof (question_safe bs Hb) as Hs.
    destruct (dns_question bs) as [q|[]| |]; [|by eexists|done..].
    destruct (remove_pending _ _) as [[q' pending]|]; [|by eexists].
    destruct (address_records_ret bs Hb) as [rec ->]. by eexists. }
  unfold mbind, stm_bind. destruct is_dns; cbn [andb].
  - destruct (Hrec (dns g2)) as [t Ht]. rewrite Ht.
    destruct (poll_total now (g2 <| dns := t |>)) as [g3 Hpoll]. rewrite Hpoll.
    apply keeps_run in Hpoll as (P1 & P2 & P3 & _); [|apply keeps_poll].
    intros [= <- <-]. rewrite bool_decide_eq_true_2 by done. simpl in *. split_and!; [congruence..|].
    rewrite K2 in Ht. simpl in Ht. congruence.
  - unfold mret, stm_ret. destruct (poll_total now g2) as [g3 Hpoll]. rewrite Hpoll.
    apply keeps_run in Hpoll as (P1 & P2 & P3 & _); [|apply keeps_poll].
    intros [= <- <-]. simpl in *. split_and!; congruence.
Qed.

Lemma ingest_datagram_kept now host_port peer bs g r g' :
  ingest_ingress_udp_datagram limits grown now host_port peer bs g = (r, g') → stack_kept g g'.
Proof.
  apply keeps_run. unfold ingest_ingress_udp_datagram. apply keeps_bind; [apply keeps_get|intros g0].
  destruct (negb _); [apply keeps_ret|]. apply keeps_bind; [apply keeps_on_pool|intros [frame|]].
  2:{ apply keeps_bind; [apply keeps_mark|intros _; apply keeps_ret]. }
  apply keeps_bind; [apply keeps_push_frame|intros pushed]. destruct (negb _).
  { apply keeps_bind; [apply keeps_release_frame|intros _; apply keeps_ret]. }
  apply keeps_bind; [apply keeps_get|intros g1]. destruct (open_host_port _ _ _) as [opened u].
  destruct (negb _); [apply keeps_ret|].
  apply keeps_bind; [by apply keeps_modify|intros _]. apply keeps_bind; [apply keeps_poll|intros _; apply keeps_ret].
Qed.

Lemma attributed_known lg now t c address :
  attribution_inv (history_of lg) t → attributed now t c address → known_address lg now c address.
Proof.
  intros (_ & Hr & _) [?|(rec & Hin & Hlive & <- & Hallow)]; [by left|right].
  exists (ar_host rec), (ar_expires rec). split; [done|]. split; [by apply Hr|done].
Qed.

Definition log_ok (lg : list gw_entry) : Prop := ∀ before e after, lg = before ++ e :: after → entry_justified before e.

Lemma log_ok_snoc lg e : log_ok lg → entry_justified lg e → log_ok (lg ++ [e]).
Proof.
  intros Hlog He before e' after Heq. destruct after as [|x after _] using rev_ind.
  - by apply app_inj_tail in Heq as [-> ->].
  - rewrite app_comm_cons, (assoc_L (++)) in Heq. apply app_inj_tail in Heq as [-> _]. by eapply Hlog.
Qed.

Lemma opened_by_ok now frame g g' opened lg :
  frame_result now frame g g' → opened_by now frame g g' opened → attribution_inv (history_of lg) (dns g) → log_ok lg →
  log_ok (lg ++ opened) ∧ history_of (lg ++ opened) = history_of lg ∧ (tcp g' = tcp g → opened = []).
Proof.
  intros (_ & Ht & _) [[_ ->]|(Hnew & syn & Hsyn & ->)] Hinv Hlog; [by rewrite app_nil_r|].
  split; [|by rewrite history_snoc, app_nil_r]. apply log_ok_snoc; [done|].
  destruct Ht as [?|(syn' & Hsyn' & Had)]; [done|]. assert (syn' = syn) as -> by congruence.
  destruct Had as [?|[? [?|?]]]; [by left|by right; split; auto|right; split; [done|right]]. by eapply attributed_known.
Qed.

Lemma frame_step_ok now frame g g' opened lg :
  frame_result now frame g g' → opened_by now frame g g' opened → gw_ok {| gw := g; log := lg |} →
  gw_ok {| gw := g'; log := lg ++ opened ++ sent_by now g g' |}.
Proof.
  intros Hres Hopen [Hdns Hlog Hqueue]. simpl in *.
  destruct (opened_by_ok _ _ _ _ _ _ Hres Hopen Hdns Hlog) as (Hlog1 & Hhist & Hnone).
  destruct Hres as (Hc & _ & [[Hsends Hd]|(src & dst & payload & send & Hsends & Htcp & Hbytes & F)]); unfold sent_by; rewrite Hsends.
  - rewrite drop_all, app_nil_r. split; simpl; [|done|].
    + rewrite Hhist. destruct Hd as [->| ->]; [done|by apply retain_live_inv].
    + rewrite Hsends. intros x (n & c & Hin)%Hqueue. exists n, c. set_solver.
  - rewrite (Hnone Htcp), drop_app_length. simpl. destruct F as (F1 & F2 & F3 & F4 & F5). split; simpl.
    + rewrite history_snoc. simpl. rewrite F3. destruct (es_is_dns send).
      * destruct (attribution_step _ _ (Query payload) Hdns Hbytes) as (t & Ht & Hinv & _). simpl in Ht. rewrite F5 in Ht. by injection Ht as <-.
      * rewrite app_nil_r. destruct F5 as [[->| ->] _]; [done|by apply retain_live_inv].
    + apply log_ok_snoc; [done|]. simpl. split; [done|]. destruct (es_is_dns send); [by left|right].
      destruct F5 as [_ ?]. by eapply attributed_known.
    + rewrite Hsends. intros x [(n & c & Hin)%Hqueue| ->%list_elem_of_singleton]%elem_of_app; [exists n, c|exists now, (config g)]; set_solver.
Qed.

Lemma gw_ok_step w w' : gw_step w w' → gw_ok w → gw_ok w'.
Proof.
  intros [now frame g r g' lg opened Hbytes Hrun Hopen|now proxy bs is_dns g r g' lg Hbytes Hrun|now host_port peer bs g r g' lg Hrun
    |now host addresses ttl g lg|next g lg|now g r g' lg Hrun|g g' taken lg Hc Hd Hs] Hok.
  - eapply frame_step_ok; [|done|done]. eapply ingest_guest_frame_spec; [|exact Hrun].
    intros src dst data. by apply udp_parts_bytes.
  - apply write_udp_response_spec in Hrun as (_ & Hs & Hd); [|done]. destruct Hok as [Hdns Hlog Hqueue]. simpl in *.
    destruct (_ && _).
    + destruct (attribution_step _ _ (Response bs now) Hdns Hbytes) as (t & Ht & Hinv & _). simpl in Ht. rewrite Hd in Ht. injection Ht as <-.
      split; simpl; [by rewrite history_snoc|by apply log_ok_snoc|].
      rewrite Hs. intros x (n & c & Hin)%Hqueue. exists n, c. set_solver.
    + rewrite app_nil_r. split; simpl; [by rewrite Hd|done|by rewrite Hs].
  - apply ingest_datagram_kept in Hrun as (K1 & K2 & K3 & _). destruct Hok. simpl in *. split; simpl; [by rewrite K2|done|by rewrite K3].
  - destruct Hok as [Hdns Hlog Hqueue]. simpl in *.
    destruct (attribution_step _ _ (Resolved host addresses ttl now) Hdns (Forall_nil_2 _)) as (t & Ht & Hinv & _). simpl in Ht. injection Ht as <-.
    split; simpl; [by rewrite history_snoc|by apply log_ok_snoc|].
    intros x (n & c & Hin)%Hqueue. exists n, c. set_solver.
  - unfold update_runtime_secrets. destruct (bool_decide _); destruct Hok; by split.
  - apply keeps_run in Hrun as (K1 & K2 & K3 & _); [|apply keeps_poll]. destruct Hok. simpl in *. split; simpl; [by rewrite K2|done|by rewrite K3].
  - destruct Hok. simpl in *. split; simpl; [by rewrite Hd|done|]. intros x Hx. apply ok_queue0. rewrite Hs. set_solver.
Qed.

Lemma gw_ok_reachable w0 w : gw_ok w0 → rtc gw_step w0 w → gw_ok w.
Proof. intros Hinit Hrun. induction Hrun as [|w1 w2 w3 Hstep _ IH]; [done|]. apply IH. by eapply gw_ok_step. Qed.

(** C2: nothing leaves the guest around the policy.  After any history of frames, answers, resolutions
    and new secrets, with the stack, the proxies and the rest of the network doing what they like:
    every datagram that was queued for the egress side had an allowed destination, carried no
    unresolved placeholder unless it is a DNS question, was no QUIC while secrets are bound, and was a
    DNS query or went to an address that, at that time, an unexpired answer to a question sent before
    (or a resolution) attributed to an allowed host; and a connection was opened only to a destination
    that may be reached, where the same attribution holds or its TLS is intercepted. *)
Theorem egress_justified g0 capacity_ w :
  dns g0 = dns_attribution_new capacity_ → egress_udp_sends g0 = [] →
  rtc gw_step {| gw := g0; log := [] |} w →
  (∀ before e after, log w = before ++ e :: after → entry_justified before e) ∧
  (∀ send, send ∈ egress_udp_sends (gw w) → ∃ now c before after,
    log w = before ++ Sent now c send :: after ∧ content_allowed c send ∧
    (es_is_dns send = true ∨ known_address before now c (ip (host_dst (es_proxy send))))).
Proof.
  intros Hdns Hsends Hrun. apply gw_ok_reachable in Hrun as [_ Hlog Hqueue].
  - split; [done|]. intros send (now & c & (before & after & Heq)%list_elem_of_split)%Hqueue.
    exists now, c, before, after. split; [done|]. exact (Hlog _ _ _ Heq).
  - split; simpl; [|intros [|] ? ?; discriminate|rewrite Hsends; by intros ? ?%elem_of_nil].
    rewrite Hdns. split_and!; simpl; try (by intros ? ?%elem_of_nil); try constructor; lia.
Qed.
End world.

(** ** An example: a question, its answer, and a datagram to the address in it *)
Module Example.
#[local] Instance wire : Wire := {
  ethernet_ipv4 := Some;
  ipv4_packet f := match f with
    | protocol :: a :: b :: c :: d :: payload => Some (protocol, V4 192 168 0 2, V4 a b c d, payload) | _ => None end;
  udp_packet f := match f with s :: d :: payload => Some (s, d, payload) | _ => None end;
  tcp_packet f := match f with s :: d :: _ => Some (s, d, true, false) | _ => None end;
  udp_frame_bytes _ _ src dst payload := port src :: port dst :: payload;
}.
#[local] Instance wire_laws : WireLaws.
Proof.
  constructor. intros frame src dst data Hb. unfold udp_parts. simpl.
  destruct frame as [|? [|? [|? [|? [|? rest]]]]]; simpl; try done.
  destruct (negb _); [done|]. destruct rest as [|? [|? rest]]; simpl; try done. intros [= <- <- <-].
  unfold are_bytes in Hb. rewrite !Forall_cons in Hb. tauto.
Qed.
#[local] Instance stack : Stack unit := { iface_poll _ s := (false, s); poll_delay _ _ := None }.
#[local] Instance proxies : TcpProxies unit unit := { has_connection _ _ _ := false; listen _ _ s := s }.

Definition limits : NetworkLimits := Eval vm_compute in {|
  command_inbox_capacity := 1; reactor_event_capacity := 1; component_output_batch_capacity := 4;
  component_event_batch_capacity := 4; frame_device_queue_capacity := 4; frame_buffer_capacity := 64;
  max_pooled_frame_capacity := 128; frame_buffer_pool_capacity := 3; small_byte_capacity := 64; medium_byte_capacity := 128;
  tcp_byte_capacity := 128; small_byte_pool_capacity := 4; medium_byte_pool_capacity := 1; tcp_byte_pool_capacity := 1;
  tcp_socket_buffer_capacity := 1; udp_datagram_buffer_capacity := 1; ingress_udp_datagram_buffer_capacity := 1;
  client_hello_limit := 1; tls_relay_buffer_capacity := 1; transport_connect_retry_delay := 1; status_publish_interval := 1;
  idle_poll_delay := 1; udp_proxy_timeout := 1; drive_event_budget := 16; drive_step_budget := 16; drive_byte_budget := 128;
  tcp_proxy_limit := 1; ingress_tcp_connection_limit := 1; ingress_udp_peer_limit := 1; udp_proxy_limit := 1;
  timer_queue_capacity := 1; telemetry_event_capacity := 1 |}%Z.
Definition pool : BufferPool := Eval vm_compute in
  match prewarm_instance_network limits pool_new with Ret p => p | _ => pool_new end.
Definition example_config : GatewayConfig := {|
  policy := {| egress := with_allowed_authority (bytes_of "a") allow_all; secrets := secrets_new |};
  mac_gateway := []; mac_guest := []; gateway := V4 192 168 0 1; guest := V4 192 168 0 2;
  dns_upstream := {| ip := V4 9 9 9 9; port := 53 |}; tls_intercepts_port := (λ p, p =? 443)%Z; gateway_idle_poll_delay := 1000 |}%Z.
Definition start : @Gateway unit unit (FixedTable Z SocketAddr) := {|
  config := example_config; iface := tt; device := device_new 64 4; dns := dns_attribution_new 4; tcp := tt;
  udp := udp_peers_new 1; egress_udp_sends := []; ingress_udp_sends := []; guest_frames := [];
  gw_drive := turn_start limits; gw_buffers := pool |}.

Definition frame_of (dst : list Z) (port_ : Z) (payload : bytes) : FrameBuf :=
  (Buffers.with_capacity 64) <| vec_bytes := [PROTOCOL_UDP] ++ dst ++ [9; port_]%Z ++ payload |>.
Definition queried := ingest_guest_frame limits (λ _ n, n) 100 (frame_of [192; 168; 0; 1]%Z 53 example_answer) start.
Definition answered := write_udp_response limits (λ _ n, n) 101
  {| guest_src := {| ip := V4 192 168 0 2; port := 9 |}; guest_dst := {| ip := V4 192 168 0 1; port := 53 |};
     host_dst := {| ip := V4 9 9 9 9; port := 53 |} |} example_answer true (snd queried).
Definition reached := ingest_guest_frame limits (λ _ n, n) 105 (frame_of [10; 0; 0; 1]%Z 77 [1; 2; 3]%Z) (snd answered).
Definition expired := ingest_guest_frame limits (λ _ n, n) 110 (frame_of [10; 0; 0; 1]%Z 77 [1; 2; 3]%Z) (snd answered).

Definition log1 : list gw_entry := [] ++ [] ++ sent_by 100 start (snd queried).
Definition log2 : list gw_entry := log1 ++ (if true && bool_decide (fst answered = Ret WriteQueued) then [Answered 101 example_answer] else []).
Definition log3 : list gw_entry := log2 ++ [] ++ sent_by 105 (snd answered) (snd reached).
Definition final : @GwWorld unit unit (FixedTable Z SocketAddr) := {| gw := snd reached; log := log3 |}.

(** After its time to live the address is not reached. *)
Lemma expired_address_refused : egress_udp_sends (snd expired) = egress_udp_sends (snd answered).
Proof. vm_compute. reflexivity. Qed.

Lemma egress_justified_witness :
  length (egress_udp_sends (gw final)) = 2 ∧
  ∀ send, send ∈ egress_udp_sends (gw final) → ∃ now c before after,
    log final = before ++ Sent now c send :: after ∧ content_allowed c send ∧
    (es_is_dns send = true ∨ known_address before now c (ip (host_dst (es_proxy send)))).
Proof.
  split; [by vm_compute|].
  assert (Hframe : ∀ dst p payload, are_bytes ([PROTOCOL_UDP] ++ dst ++ [9; p]%Z ++ payload) →
    are_bytes (vec_bytes (frame_of dst p payload))) by done.
  assert (Hstep : ∀ now frame (g : @Gateway unit unit (FixedTable Z SocketAddr)) lg,
    are_bytes (vec_bytes frame) → let run := ingest_guest_frame limits (λ _ n, n) now frame g in
    gw_step limits (λ _ n, n) {| gw := g; log := lg |} {| gw := snd run; log := lg ++ [] ++ sent_by now g (snd run) |}).
  { intros now frame g lg Hb. eapply (step_frame _ _ now frame g _ _ lg []); [done|apply surjective_pairing|].
    left. split; [by destruct (tcp _), (tcp _)|done]. }
  refine (proj2 (egress_justified limits (λ _ n, n) start 4 final eq_refl eq_refl _)). unfold final.
  apply (rtc_l _ _ {| gw := snd queried; log := log1 |}).
  { apply Hstep, Hframe, (bool_decide_unpack (Forall _ _)). by vm_compute. }
  apply (rtc_l _ _ {| gw := snd answered; log := log2 |}).
  { refine (step_answer _ _ 101 _ example_answer true (snd queried) (fst answered) (snd answered) log1 _ (surjective_pairing _)).
    apply (bool_decide_unpack (Forall _ _)). by vm_compute. }
  apply rtc_once, Hstep, Hframe, (bool_decide_unpack (Forall _ _)). by vm_compute.
Defined.
End Example.
