(* ===== verification/TlsHello.v ===== *)
(** * The name in a ClientHello (src/libs/agentdp-network/src/tls/sni.rs)

    A TLS connection of the guest is routed by the server name its first message
    asks for.  [extract_sni] reads that name out of the first record;
    [encode_hello] writes the message of the TLS specification, and the two
    agree on every message, whatever extensions it carries and whatever follows. *)
From S2P Require Import Prelude Text Policy Dns.
Local Open Scope Z_scope.

(** [l.get(a..a + n)?] *)
Definition get_slice (l : bytes) (a n : nat) : partial bytes :=
  match slice (E:=unit) l a (a + n)%nat with Ret s => Ret s | _ => none end.

(** [while pos + 3 <= list.len()]: each round moves at least three bytes on. *)
Fixpoint name_loop (fuel : nat) (list_ : bytes) (pos : nat) : partial str :=
  if (pos + 3 <=? length list_)%nat then
    match fuel with
    | O => Timeout
    | S fuel =>
      name_type ← index list_ pos;
      name_len ← read_u16 list_ (pos + 1);
      let pos := (pos + 3)%nat in
      if name_type =? 0 then
        name ← get_slice list_ pos (Z.to_nat name_len);
        some (utf8_decode name)
      else name_loop fuel list_ (pos + Z.to_nat name_len)%nat
    end
  else none.

Definition parse_sni_extension (data : bytes) : partial str :=
  if (length data <? 2)%nat then none
  else
    list_len ← read_u16 data 0;
    list_ ← get_slice data 2 (Z.to_nat list_len);
    name_loop (length list_) list_ 0.

(** [while pos + 4 <= end && pos + 4 <= hello.len()]: each round moves at least four bytes on. *)
Fixpoint extension_loop (fuel : nat) (hello : bytes) (pos end_ : nat) : partial str :=
  if (pos + 4 <=? end_)%nat && (pos + 4 <=? length hello)%nat then
    match fuel with
    | O => Timeout
    | S fuel =>
      extension_type ← read_u16 hello pos;
      extension_data_len ← read_u16 hello (pos + 2);
      let pos := (pos + 4)%nat in
      if extension_type =? 0 then
        data ← get_slice hello pos (Z.to_nat extension_data_len);
        parse_sni_extension data
      else extension_loop fuel hello (pos + Z.to_nat extension_data_len)%nat end_
    end
  else none.

(** [u16::from_be_bytes([*hello.get(pos)?, *hello.get(pos + 1)?])] *)
Definition get_u16 (l : bytes) (pos : nat) : partial Z :=
  hi ← some (l !! pos); lo ← some (l !! (pos + 1)%nat); Ret (u16_be hi lo).

(** The body of the message, from its version on *)
Definition hello_sni (hello : bytes) : partial str :=
  if (length hello <? 34)%nat then none
  else
    session_len ← some (hello !! 34%nat);
    let pos := (35 + Z.to_nat session_len)%nat in
    suites_len ← get_u16 hello pos;
    let pos := (pos + (2 + Z.to_nat suites_len))%nat in
    compression_len ← some (hello !! pos);
    let pos := (pos + (1 + Z.to_nat compression_len))%nat in
    extensions_total_len ← get_u16 hello pos;
    let pos := (pos + 2)%nat in
    extension_loop (length hello) hello pos (pos + Z.to_nat extensions_total_len)%nat.

Definition extract_sni (data : bytes) : partial str :=
  if (length data <? 5)%nat then none
  else
    first ← index data 0;
    if negb (first =? 22) then none
    else
      record_len ← read_u16 data 3;
      record ← get_slice data 5 (Z.to_nat record_len);
      if negb (bool_decide (head record = Some 1)) || (length record <? 4)%nat then none
      else
        b1 ← index record 1; b2 ← index record 2; b3 ← index record 3;
        let handshake_len := Z.lor (Z.lor (Z.shiftl b1 16) (Z.shiftl b2 8)) b3 in
        hello ← get_slice record 4 (Z.to_nat handshake_len);
        hello_sni hello.

(** ** The messages, as the TLS specification writes them *)
Record Extension := { ext_type : Z; ext_data : bytes }.
Record ServerName := { sn_type : Z; sn_name : bytes }.
Record ClientHello := {
  ch_version : bytes; ch_random : bytes; ch_session : bytes; ch_suites : bytes; ch_compression : bytes;
  ch_extensions : list Extension;
}.

Definition encode_extension (e : Extension) : bytes :=
  be_bytes 2 (ext_type e) ++ be_bytes 2 (zlen (ext_data e)) ++ ext_data e.
Definition encode_name (n : ServerName) : bytes := [sn_type n] ++ be_bytes 2 (zlen (sn_name n)) ++ sn_name n.
Definition encode_names (ns : list ServerName) : bytes :=
  be_bytes 2 (zlen (ns ≫= encode_name)) ++ (ns ≫= encode_name).
Definition hello_head (h : ClientHello) : bytes :=
  ch_version h ++ ch_random h ++ [zlen (ch_session h)] ++ ch_session h ++
  be_bytes 2 (zlen (ch_suites h)) ++ ch_suites h ++ [zlen (ch_compression h)] ++ ch_compression h.
Definition encode_body (h : ClientHello) : bytes :=
  hello_head h ++ be_bytes 2 (zlen (ch_extensions h ≫= encode_extension)) ++ (ch_extensions h ≫= encode_extension).
Definition encode_handshake (h : ClientHello) : bytes := [1] ++ be_bytes 3 (zlen (encode_body h)) ++ encode_body h.
(** The record: its type, two bytes of version, the length and the message *)
Definition encode_hello (v1 v2 : Z) (h : ClientHello) : bytes :=
  [22; v1; v2] ++ be_bytes 2 (zlen (encode_handshake h)) ++ encode_handshake h.

Record extension_ok (e : Extension) : Prop := {
  eo_type : 0 <= ext_type e < 65536; eo_len : zlen (ext_data e) < 65536;
}.
Record name_ok (n : ServerName) : Prop := { no_type : 0 <= sn_type n < 256; no_len : zlen (sn_name n) < 65536 }.
(** The lengths fit into their fields; the handshake message is one record. *)
Record hello_ok (h : ClientHello) : Prop := {
  ho_version : length (ch_version h) = 2%nat;
  ho_random : length (ch_random h) = 32%nat;
  ho_session : zlen (ch_session h) < 256;
  ho_suites : zlen (ch_suites h) < 65536;
  ho_compression : zlen (ch_compression h) < 256;
  ho_extensions : Forall extension_ok (ch_extensions h);
  ho_record : zlen (encode_handshake h) < 65536;
}.

(** What the server takes for the name: the first extension of type 0, and in it the first name of type 0 *)
Definition reference_sni (h : ClientHello) : partial str :=
  match list_find (λ e, ext_type e = 0) (ch_extensions h) with
  | Some (_, e) => parse_sni_extension (ext_data e)
  | None => none
  end.

(** ** Reading what was written *)
Lemma be2_parts v : 0 <= v < 65536 → ∃ hi lo, be_bytes 2 v = [hi; lo] ∧ u16_be hi lo = v.
Proof.
  intros Hv. pose proof (be_value_be_bytes 2 v ltac:(simpl; lia)) as Hval. pose proof (length_be_bytes 2 v) as Hlen.
  destruct (be_bytes 2 v) as [|hi [|lo [|]]]; try done. exists hi, lo. split; [done|].
  rewrite <-Hval. unfold be_value, u16_be. simpl. by rewrite Z.lor_0_l.
Qed.

Lemma read_u16_be {E} pre post v : 0 <= v < 65536 → read_u16 (E:=E) (pre ++ be_bytes 2 v ++ post) (length pre) = Ret v.
Proof. intros (hi & lo & -> & <-)%be2_parts. apply read_u16_at. Qed.

Lemma get_u16_be pre post v : 0 <= v < 65536 → get_u16 (pre ++ be_bytes 2 v ++ post) (length pre) = Ret v.
Proof.
  intros (hi & lo & -> & <-)%be2_parts. unfold get_u16. cbn [app].
  rewrite (list_lookup_middle pre (lo :: post) hi (length pre)) by done. simpl. rewrite lookup_app_r by lia.
  by replace (length pre + 1 - length pre)%nat with 1%nat by lia.
Qed.

Lemma index_mid {E} pre (x : Z) post : index (E:=E) (pre ++ [x] ++ post) (length pre) = Ret x.
Proof. unfold index. rewrite lookup_app_r by lia. by rewrite Nat.sub_diag. Qed.

Lemma get_slice_mid pre mid post : get_slice (pre ++ mid ++ post) (length pre) (length mid) = Ret mid.
Proof. unfold get_slice. by rewrite slice_app_at. Qed.

Lemma zlen_nat (l : bytes) : Z.to_nat (zlen l) = length l.
Proof. unfold zlen. lia. Qed.

Lemma encode_extension_length e : length (encode_extension e) = (4 + length (ext_data e))%nat.
Proof. unfold encode_extension. rewrite !length_app, !length_be_bytes. lia. Qed.
Lemma encode_name_length n : length (encode_name n) = (3 + length (sn_name n))%nat.
Proof. unfold encode_name. rewrite !length_app, length_be_bytes. simpl. lia. Qed.

Lemma encode_extension_app e rest :
  encode_extension e ++ rest = be_bytes 2 (ext_type e) ++ be_bytes 2 (zlen (ext_data e)) ++ ext_data e ++ rest.
Proof. unfold encode_extension. by rewrite <-!app_assoc. Qed.
Lemma encode_name_app n rest : encode_name n ++ rest = [sn_type n] ++ be_bytes 2 (zlen (sn_name n)) ++ sn_name n ++ rest.
Proof. unfold encode_name. by rewrite <-!app_assoc. Qed.

Definition reference_name (ns : list ServerName) : partial str :=
  match list_find (λ n, sn_type n = 0) ns with Some (_, n) => some (utf8_decode (sn_name n)) | None => none end.

Lemma list_find_cons_false {A} (P : A → Prop) `{∀ x, Decision (P x)} x l :
  ¬ P x → list_find P (x :: l) = prod_map S id <$> list_find P l.
Proof. intros Hx. simpl. by rewrite decide_False. Qed.

Lemma name_loop_spec fuel pre ns :
  Forall name_ok ns → (length (ns ≫= encode_name) ≤ fuel)%nat →
  name_loop fuel (pre ++ (ns ≫= encode_name)) (length pre) = reference_name ns.
Proof.
  intros Hok. revert fuel pre. induction Hok as [|n ns [Htype Hlen] _ IH]; intros fuel pre Hfuel.
  { cbn [mbind list_bind]. rewrite app_nil_r. destruct fuel; simpl; rewrite (proj2 (Nat.leb_gt _ _)) by lia; done. }
  rewrite bind_cons in *. rewrite length_app, encode_name_length in Hfuel. destruct fuel as [|fuel]; [lia|]. cbn [name_loop].
  rewrite (proj2 (Nat.leb_le _ _)) by (rewrite !length_app, encode_name_length; lia).
  rewrite encode_name_app, index_mid. cbn [mbind outcome_bind].
  rewrite (assoc_L (++) pre [sn_type n]).
  replace (length pre + 1)%nat with (length (pre ++ [sn_type n])) by (rewrite length_app; done).
  rewrite read_u16_be by (unfold zlen in *; lia). cbn [mbind outcome_bind]. rewrite zlen_nat.
  rewrite (assoc_L (++) (pre ++ _) (be_bytes 2 _)). set (pre1 := (pre ++ [sn_type n]) ++ be_bytes 2 _).
  replace (length pre + 3)%nat with (length pre1) by (unfold pre1; rewrite !length_app, length_be_bytes; simpl; lia).
  unfold reference_name. destruct (Z.eqb_spec (sn_type n) 0) as [H0|H0].
  - rewrite get_slice_mid. simpl. by rewrite decide_True.
  - rewrite (list_find_cons_false (λ n, sn_type n = 0)) by done. rewrite (assoc_L (++)), <-length_app, IH by lia.
    unfold reference_name. by destruct (list_find _ ns) as [[? ?]|].
Qed.

Lemma parse_sni_extension_spec ns :
  Forall name_ok ns → zlen (ns ≫= encode_name) < 65536 → parse_sni_extension (encode_names ns) = reference_name ns.
Proof.
  intros Hok Hlen. unfold parse_sni_extension, encode_names. set (names := ns ≫= encode_name) in *.
  pose proof (read_u16_be (E:=unit) [] names (zlen names) ltac:(unfold zlen in *; lia)) as Hlen16.
  pose proof (get_slice_mid (be_bytes 2 (zlen names)) names []) as Hslice. rewrite app_nil_r, length_be_bytes in Hslice.
  change ([] ++ ?l) with l in Hlen16. cbn [length] in Hlen16. rewrite length_app, length_be_bytes. cbn [Nat.ltb Nat.leb plus].
  rewrite Hlen16. cbn [mbind outcome_bind]. rewrite zlen_nat, Hslice. cbn [mbind outcome_bind].
  exact (name_loop_spec (length names) [] ns Hok (Nat.le_refl _)).
Qed.

Lemma extension_loop_spec fuel pre es :
  Forall extension_ok es → (length (es ≫= encode_extension) ≤ fuel)%nat →
  extension_loop fuel (pre ++ (es ≫= encode_extension)) (length pre) (length pre + length (es ≫= encode_extension)) =
    match list_find (λ e, ext_type e = 0) es with Some (_, e) => parse_sni_extension (ext_data e) | None => none end.
Proof.
  intros Hok. revert fuel pre. induction Hok as [|e es [Htype Hlen] _ IH]; intros fuel pre Hfuel.
  { cbn [mbind list_bind length]. rewrite app_nil_r. destruct fuel; simpl; rewrite (proj2 (Nat.leb_gt _ _)) by lia; done. }
  rewrite bind_cons in *. rewrite length_app, encode_extension_length in Hfuel. destruct fuel as [|fuel]; [lia|]. cbn [extension_loop].
  rewrite !(proj2 (Nat.leb_le _ _)) by (rewrite !length_app, encode_extension_length; lia). cbn [andb].
  rewrite encode_extension_app, read_u16_be by done. cbn [mbind outcome_bind].
  rewrite (assoc_L (++) pre (be_bytes 2 (ext_type e))).
  replace (length pre + 2)%nat with (length (pre ++ be_bytes 2 (ext_type e))) by (rewrite length_app, length_be_bytes; done).
  rewrite read_u16_be by (unfold zlen in *; lia). cbn [mbind outcome_bind]. rewrite zlen_nat.
  rewrite (assoc_L (++) (pre ++ _)).
  set (pre1 := (pre ++ be_bytes 2 (ext_type e)) ++ be_bytes 2 (zlen (ext_data e))).
  replace (length pre + 4)%nat with (length pre1) by (unfold pre1; rewrite !length_app, !length_be_bytes; simpl; lia).
  destruct (Z.eqb_spec (ext_type e) 0) as [H0|H0].
  - rewrite get_slice_mid. simpl. by rewrite decide_True.
  - rewrite (list_find_cons_false (λ e, ext_type e = 0)) by done. rewrite (assoc_L (++)), <-length_app.
    replace (length pre + length _)%nat with (length (pre1 ++ ext_data e) + length (es ≫= encode_extension))%nat
      by (unfold pre1; rewrite !length_app, !length_be_bytes; lia).
    rewrite IH by lia. by destruct (list_find _ es) as [[? ?]|].
Qed.

Lemma head_len h : hello_ok h →
  length (hello_head h) = (39 + length (ch_session h) + length (ch_suites h) + length (ch_compression h) - 1)%nat.
Proof. intros [Hv Hr _ _ _ _ _]. unfold hello_head. rewrite !length_app, length_be_bytes, Hv, Hr. simpl. lia. Qed.

Lemma lookup_mid {A} (pre : list A) x post : (pre ++ [x] ++ post) !! length pre = Some x.
Proof. rewrite lookup_app_r by lia. by rewrite Nat.sub_diag. Qed.

Lemma hello_sni_spec h : hello_ok h → hello_sni (encode_body h) = reference_sni h.
Proof.
  intros Hok. pose proof (head_len h Hok) as Hhead. destruct Hok as [Hv Hr Hsession Hsuites Hcompression Hexts Hrec].
  assert (Hext : zlen (ch_extensions h ≫= encode_extension) < 65536).
  { unfold encode_handshake, encode_body, zlen in *. rewrite !length_app, length_be_bytes in Hrec. simpl in Hrec. lia. }
  unfold hello_sni, encode_body. set (exts := ch_extensions h ≫= encode_extension) in *.
  rewrite (proj2 (Nat.ltb_ge _ _)) by (rewrite length_app; lia).
  set (p0 := ch_version h ++ ch_random h). assert (Hp0 : length p0 = 34%nat) by (unfold p0; rewrite length_app; lia).
  assert (Hbody : hello_head h ++ be_bytes 2 (zlen exts) ++ exts =
    p0 ++ [zlen (ch_session h)] ++ ch_session h ++ be_bytes 2 (zlen (ch_suites h)) ++ ch_suites h ++
      [zlen (ch_compression h)] ++ ch_compression h ++ be_bytes 2 (zlen exts) ++ exts).
  { unfold hello_head, p0. by rewrite <-!app_assoc. }
  rewrite Hbody. rewrite <-Hp0 at 1. rewrite lookup_mid. cbn [some mbind outcome_bind]. rewrite zlen_nat.
  rewrite (assoc_L (++) p0), (assoc_L (++) (p0 ++ _)). set (p1 := (p0 ++ _) ++ ch_session h).
  replace (35 + length (ch_session h))%nat with (length p1) by (unfold p1; rewrite !length_app, Hp0; simpl; lia).
  rewrite get_u16_be by (unfold zlen in *; lia). cbn [some mbind outcome_bind]. rewrite zlen_nat.
  rewrite (assoc_L (++) p1), (assoc_L (++) (p1 ++ _)). set (p2 := (p1 ++ _) ++ ch_suites h).
  replace (length p1 + (2 + length (ch_suites h)))%nat with (length p2) by (unfold p2; rewrite !length_app, length_be_bytes; lia).
  rewrite lookup_mid. cbn [some mbind outcome_bind]. rewrite zlen_nat.
  rewrite (assoc_L (++) p2), (assoc_L (++) (p2 ++ _)). set (p3 := (p2 ++ _) ++ ch_compression h).
  replace (length p2 + (1 + length (ch_compression h)))%nat with (length p3) by (unfold p3; rewrite !length_app; simpl; lia).
  rewrite get_u16_be by (unfold zlen in *; lia). cbn [some mbind outcome_bind]. rewrite zlen_nat.
  rewrite (assoc_L (++) p3). set (p4 := p3 ++ be_bytes 2 (zlen exts)).
  replace (length p3 + 2)%nat with (length p4) by (unfold p4; rewrite length_app, length_be_bytes; lia).
  apply extension_loop_spec; [done|]. rewrite length_app. fold exts. lia.
Qed.

Lemma read_u16_head {E} (a b c : Z) v rest : 0 <= v < 65536 → read_u16 (E:=E) (a :: b :: c :: be_bytes 2 v ++ rest) 3 = Ret v.
Proof. exact (read_u16_be [a; b; c] rest v). Qed.

Lemma be3_parts v : 0 <= v < 16777216 →
  ∃ b1 b2 b3, be_bytes 3 v = [b1; b2; b3] ∧ Z.lor (Z.lor (Z.shiftl b1 16) (Z.shiftl b2 8)) b3 = v.
Proof.
  intros Hv. pose proof (be_value_be_bytes 3 v ltac:(simpl; lia)) as Hval. pose proof (length_be_bytes 3 v) as Hlen.
  destruct (be_bytes 3 v) as [|b1 [|b2 [|b3 [|]]]]; try done. exists b1, b2, b3. split; [done|].
  rewrite <-Hval. unfold be_value. cbn [foldl]. rewrite Z.lor_0_l, Z.shiftl_lor, Z.shiftl_shiftl by lia. done.
Qed.

Lemma length_body h : hello_ok h → zlen (encode_handshake h) = zlen (encode_body h) + 4 ∧ zlen (encode_body h) < 65536.
Proof.
  intros [_ _ _ _ _ _ Hrec]. assert (zlen (encode_handshake h) = zlen (encode_body h) + 4) as Heq; [|lia].
  unfold encode_handshake, zlen. rewrite !length_app, length_be_bytes. cbn [length]. lia.
Qed.

Lemma extract_sni_encoded v1 v2 h rest : hello_ok h → extract_sni (encode_hello v1 v2 h ++ rest) = reference_sni h.
Proof.
  intros Hok. destruct (length_body h Hok) as [Hbody Hsmall]. pose proof (ho_record h Hok) as Hrec.
  unfold extract_sni, encode_hello. rewrite <-!app_assoc.
  rewrite (proj2 (Nat.ltb_ge _ _)) by (rewrite !length_app, length_be_bytes; simpl; lia).
  cbn [app]. unfold index at 1. cbn [lookup list_lookup mbind outcome_bind]. cbn [Z.eqb Pos.eqb negb].
  rewrite read_u16_head by (unfold zlen in *; lia). cbn [mbind outcome_bind]. rewrite zlen_nat.
  pose proof (get_slice_mid ([22; v1; v2] ++ be_bytes 2 (zlen (encode_handshake h))) (encode_handshake h) rest) as Hslice.
  rewrite length_app, length_be_bytes in Hslice. rewrite <-!app_assoc in Hslice. cbn [app length plus] in Hslice.
  rewrite Hslice. cbn [mbind outcome_bind]. rewrite bool_decide_eq_true_2 by done. cbn [negb orb].
  rewrite (proj2 (Nat.ltb_ge _ _)) by (unfold zlen in *; lia).
  unfold encode_handshake. destruct (be3_parts (zlen (encode_body h))) as (b1 & b2 & b3 & Hbe & Hval); [unfold zlen in *; lia|].
  rewrite Hbe. cbn [app]. unfold index. cbn [lookup list_lookup mbind outcome_bind]. rewrite Hval, zlen_nat.
  pose proof (get_slice_mid [1; b1; b2; b3] (encode_body h) []) as Hslice2. rewrite app_nil_r in Hslice2. cbn [app length] in Hslice2.
  rewrite Hslice2. cbn [mbind outcome_bind]. by apply hello_sni_spec.
Qed.

(** ** Every input *)
Lemma get_slice_ok l a n : (∃ s, get_slice l a n = Ret s) ∨ get_slice l a n = none.
Proof. unfold get_slice, slice. destruct (_ && _); [left; by eexists|by right]. Qed.

Lemma index_ok {E} (l : bytes) i : (i < length l)%nat → ∃ v, index (E:=E) l i = Ret v.
Proof. intros Hi. unfold index. destruct (lookup_lt_is_Some_2 l i) as [v ->]; [done|]. by eexists. Qed.

Lemma read_u16_ok {E} l i : (i + 2 ≤ length l)%nat → ∃ v, read_u16 (E:=E) l i = Ret v.
Proof.
  intros Hi. unfold read_u16. destruct (index_ok (E:=E) l i) as [hi ->]; [lia|]. cbn [mbind outcome_bind].
  destruct (index_ok (E:=E) l (i + 1)) as [lo ->]; [lia|]. by eexists.
Qed.

(** A function to [Option] that ended *)
Definition ends {A} (o : partial A) : Prop := match o with Ret _ | Fail _ => True | _ => False end.
Lemma ends_some {A} (o : option A) : ends (some o).
Proof. by destruct o. Qed.
Lemma ends_bind {A B} (m : partial A) (f : A → partial B) : ends m → (∀ a, ends (f a)) → ends (m ≫= f).
Proof. destruct m; simpl; auto. Qed.
Lemma ends_slice l a n : ends (get_slice l a n).
Proof. destruct (get_slice_ok l a n) as [[s ->]| ->]; done. Qed.
Lemma ends_get_u16 l i : ends (get_u16 l i).
Proof. unfold get_u16. destruct (l !! i); [|done]. by destruct (l !! _). Qed.
Create HintDb ends.
#[export] Hint Resolve ends_some ends_bind ends_slice ends_get_u16 : ends.

Lemma name_loop_ends fuel l pos : (length l ≤ fuel + pos)%nat → ends (name_loop fuel l pos).
Proof.
  revert pos. induction fuel as [|fuel IH]; intros pos Hfuel; simpl; (destruct (Nat.leb_spec (pos + 3) (length l)); [|done]); [lia|].
  destruct (index_ok (E:=unit) l pos) as [t ->]; [lia|]. cbn [mbind outcome_bind].
  destruct (read_u16_ok (E:=unit) l (pos + 1)) as [n ->]; [lia|]. cbn [mbind outcome_bind].
  destruct (t =? 0); [auto with ends|]. apply IH. lia.
Qed.

Lemma parse_sni_extension_ends data : ends (parse_sni_extension data).
Proof.
  unfold parse_sni_extension. destruct (Nat.ltb_spec (length data) 2); [done|].
  destruct (read_u16_ok (E:=unit) data 0) as [n ->]; [lia|]. cbn [mbind outcome_bind].
  apply ends_bind; [auto with ends|]. intros l. apply name_loop_ends. lia.
Qed.

Lemma extension_loop_ends fuel hello pos end_ : (length hello ≤ fuel + pos)%nat → ends (extension_loop fuel hello pos end_).
Proof.
  revert pos. induction fuel as [|fuel IH]; intros pos Hfuel; simpl;
    (destruct (_ && _) eqn:Hb; [|done]); apply andb_true_iff in Hb as [_ Hb%Nat.leb_le]; [lia|].
  destruct (read_u16_ok (E:=unit) hello pos) as [t ->]; [lia|]. cbn [mbind outcome_bind].
  destruct (read_u16_ok (E:=unit) hello (pos + 2)) as [n ->]; [lia|]. cbn [mbind outcome_bind].
  destruct (t =? 0); [|apply IH; lia]. apply ends_bind; [auto with ends|]. intros d. apply parse_sni_extension_ends.
Qed.

Lemma hello_sni_ends hello : ends (hello_sni hello).
Proof.
  unfold hello_sni. destruct (_ <? _)%nat; [done|]. repeat (apply ends_bind; [auto with ends|intros ?]).
  apply extension_loop_ends. lia.
Qed.

Lemma extract_sni_ends data : ends (extract_sni data).
Proof.
  unfold extract_sni. destruct (Nat.ltb_spec (length data) 5); [done|].
  destruct (index_ok (E:=unit) data 0) as [t ->]; [lia|]. cbn [mbind outcome_bind].
  destruct (negb _); [done|]. destruct (read_u16_ok (E:=unit) data 3) as [n ->]; [lia|]. cbn [mbind outcome_bind].
  apply ends_bind; [auto with ends|]. intros record. destruct (_ || _) eqn:Hr; [done|].
  apply orb_false_iff in Hr as [_ Hlen%Nat.ltb_ge].
  destruct (index_ok (E:=unit) record 1) as [b1 ->]; [lia|]. destruct (index_ok (E:=unit) record 2) as [b2 ->]; [lia|].
  destruct (index_ok (E:=unit) record 3) as [b3 ->]; [lia|]. cbn [mbind outcome_bind].
  apply ends_bind; [auto with ends|]. apply hello_sni_ends.
Qed.

Lemma index_same {E} (l l' : bytes) i : l !! i = l' !! i → index (E:=E) l i = index l' i.
Proof. unfold index. by intros ->. Qed.
Lemma read_u16_same {E} (l l' : bytes) i : l !! i = l' !! i → l !! (i + 1)%nat = l' !! (i + 1)%nat → read_u16 (E:=E) l i = read_u16 l' i.
Proof. intros. unfold read_u16. by rewrite !(index_same l l'). Qed.

Lemma get_slice_app l more a n s : get_slice l a n = Ret s → get_slice (l ++ more) a n = Ret s.
Proof.
  unfold get_slice, slice. destruct ((a <=? a + n)%nat && (a + n <=? length l)%nat) eqn:Hb; [|done].
  apply andb_true_iff in Hb as [-> Hb%Nat.leb_le]. rewrite (proj2 (Nat.leb_le _ _)) by (rewrite length_app; lia). cbn [andb].
  by rewrite drop_app_le, take_app_le by (rewrite ?length_drop; lia).
Qed.

Lemma get_slice_short l a n : (length l < a + n)%nat → get_slice l a n = none.
Proof. intros Hl. unfold get_slice, slice. by rewrite (proj2 (Nat.leb_gt (a + n) _)), andb_false_r. Qed.

(** Only the first record counts: what is read of a message stays read whatever follows. *)
Lemma extract_sni_mono data more host : extract_sni data = Ret host → extract_sni (data ++ more) = Ret host.
Proof.
  unfold extract_sni. destruct (Nat.ltb_spec (length data) 5) as [|H5]; [done|].
  rewrite (proj2 (Nat.ltb_ge _ _)) by (rewrite length_app; lia).
  rewrite !(index_same (data ++ more) data), !(read_u16_same (data ++ more) data) by (intros; rewrite lookup_app_l by lia; done).
  destruct (index (E:=unit) data 0) as [t|[]| |]; try done. cbn [mbind outcome_bind]. destruct (negb _); [done|].
  destruct (read_u16 (E:=unit) data 3) as [z|[]| |]; try done. cbn [mbind outcome_bind].
  destruct (get_slice data 5 (Z.to_nat z)) as [record|[]| |] eqn:Hrec; try done.
  by rewrite (get_slice_app _ more _ _ _ Hrec).
Qed.

(** Nothing is read of a message that is not there yet: the record has to be complete. *)
Lemma extract_sni_incomplete v1 v2 h n :
  hello_ok h → (n < length (encode_hello v1 v2 h))%nat → extract_sni (take n (encode_hello v1 v2 h)) = none.
Proof.
  intros Hok Hn. pose proof (ho_record h Hok) as Hrec. unfold extract_sni.
  destruct (Nat.ltb_spec (length (take n (encode_hello v1 v2 h))) 5) as [|H5]; [done|].
  rewrite length_take in H5. set (data := take n _).
  rewrite (index_same data (encode_hello v1 v2 h)), (read_u16_same data (encode_hello v1 v2 h)) by (intros; unfold data; rewrite lookup_take_lt by lia; done).
  unfold encode_hello at 1. cbn [app]. unfold index at 1. cbn [lookup list_lookup mbind outcome_bind Z.eqb Pos.eqb negb].
  unfold encode_hello at 1. cbn [app]. rewrite read_u16_head by (unfold zlen in *; lia). cbn [mbind outcome_bind]. rewrite zlen_nat.
  rewrite get_slice_short; [done|]. unfold data. rewrite length_take.
  unfold encode_hello in *. rewrite !length_app, length_be_bytes in *. simpl in *. lia.
Qed.

(** ** Theorem *)

(** C33: the name a connection is routed by is the name the guest asked for: of every ClientHello of the
    TLS specification, whatever its extensions, the first host name of the server-name extension is
    read as soon as its record is there and not before, whatever follows the record; and no input at
    all makes the reader panic or run on. *)
Theorem server_name_read v1 v2 h before names after rest data :
  hello_ok h → ch_extensions h = before ++ {| ext_type := 0; ext_data := encode_names names |} :: after →
  Forall (λ e, ext_type e ≠ 0) before → Forall name_ok names →
  (∀ n, (n < length (encode_hello v1 v2 h))%nat → extract_sni (take n (encode_hello v1 v2 h)) = none) ∧
  extract_sni (encode_hello v1 v2 h ++ rest) = reference_name names ∧
  ends (extract_sni data).
Proof.
  intros Hok Hexts Hbefore Hnames. split_and!; [by intros; apply extract_sni_incomplete| |apply extract_sni_ends].
  rewrite extract_sni_encoded by done. unfold reference_sni. rewrite Hexts.
  assert (Hfind : list_find (λ e, ext_type e = 0) (before ++ {| ext_type := 0; ext_data := encode_names names |} :: after) =
    Some (length before, {| ext_type := 0; ext_data := encode_names names |})).
  { apply list_find_Some. split_and!; [by rewrite list_lookup_middle|done|].
    intros j y Hj Hlt. rewrite lookup_app_l in Hj by lia. rewrite Forall_lookup in Hbefore. by eapply Hbefore. }
  rewrite Hfind. apply parse_sni_extension_spec; [done|].
  pose proof (ho_extensions h Hok) as Hall. rewrite Hexts in Hall. apply Forall_app in Hall as [_ [[_ Hlen] _]%Forall_cons].
  cbn [ext_data] in Hlen. unfold encode_names, zlen in *. rewrite length_app, length_be_bytes in Hlen. lia.
Qed.

(** A ClientHello with an extension before the name, and a name of an unknown type before the host name *)
Definition example_names : list ServerName := [{| sn_type := 7; sn_name := [1; 2; 3] |}; {| sn_type := 0; sn_name := bytes_of "allowed.test" |}].
Definition example_hello : ClientHello := {|
  ch_version := [3; 3]; ch_random := replicate 32 0; ch_session := [9; 9]; ch_suites := [19; 1]; ch_compression := [0];
  ch_extensions := [{| ext_type := 43; ext_data := [2; 3; 4] |}] ++ {| ext_type := 0; ext_data := encode_names example_names |} :: [] |}.

Lemma server_name_read_witness :
  extract_sni (encode_hello 3 1 example_hello ++ [23; 3; 3]) = Ret (bytes_of "allowed.test") ∧
  extract_sni (take 30 (encode_hello 3 1 example_hello)) = none.
Proof.
  assert (Hok : hello_ok example_hello) by (split; try (by vm_compute); repeat constructor; vm_compute; done).
  destruct (server_name_read 3 1 example_hello [{| ext_type := 43; ext_data := [2; 3; 4] |}] example_names [] [23; 3; 3] [] Hok)
    as (Hprefix & Hread & _); [done|by repeat constructor|repeat constructor; vm_compute; done|].
  split; [rewrite Hread; by vm_compute|]. apply Hprefix. by vm_compute; lia.
Defined.
