(* ===== verification/TlsRoute.v ===== *)
(** * Routes of TCP connections and of TLS
      (tcp_egress_route of src/libs/agentdp-network/src/gateway/mod.rs, src/tls/intercept.rs,
      TlsEgressPolicy of network.rs, the ClientHello states of src/egress/tcp/tls.rs)

    A connection to an intercepted port waits for the ClientHello of the guest;
    the name in it decides whether the connection is dropped, tunnelled or
    intercepted with a certificate for that name.  rustls and the certificates
    are an interface. *)
From S2P Require Import Prelude Fields Text Io Policy Raw HttpHead Http1 FixedTable Dns Attribution TlsHello Limits Buffers Drive Device Gateway.
Local Open Scope nat_scope.

(** ** Certificates: the crypto library of the repository, over rustls *)
Class TlsCrypto := {
  CertificateAuthority : Type;
  TlsClientConfig : Type;
  TlsServerConfig : Type;
  load : str → str → outcome str CertificateAuthority;
  with_platform_roots : list str → outcome str TlsClientConfig;
  (** a certificate for the host, valid until the time *)
  server_config_for_host : str → Z → CertificateAuthority → outcome str TlsServerConfig;
}.

(** Seconds *)
Definition CERT_VALIDITY : Z := 24 * 3600.
Definition CERT_REFRESH_MARGIN : Z := 5 * 60.

Inductive BlockReason := AuthorityNotAllowed | TlsInterceptUnavailable.
Inductive ApplicationPolicy := PolicyRaw | PolicyHttp1 (secrets : RuntimeSecrets) | PolicyBlock (reason : BlockReason).

Record TlsInterceptConfig := {
  ca_cert_pem : str;
  ca_key_pem : str;
  upstream_root_ca_pems : list str;
  intercepted_ports : list Z;
  config_bypass_hosts : list str;
}.
Definition is_enabled (c : TlsInterceptConfig) : bool := negb (bool_decide (ca_cert_pem c = [])) && negb (bool_decide (ca_key_pem c = [])).
Definition config_intercepts_port (p : Z) (c : TlsInterceptConfig) : bool := bool_decide (p ∈ intercepted_ports c).

(** [normalize_host] of both files *)
Definition normalize_host (host : str) : str := to_ascii_lowercase <$> trim_end_matches 46 host.

(** [upsert_authority_value] and [authority_value] *)
Fixpoint upsert_authority_value {T} (entries : list (Authority * T)) (authority : Authority) (value : T) : list (Authority * T) :=
  match entries with
  | [] => [(authority, value)]
  | (candidate, old) :: entries =>
    if bool_decide (candidate = authority) then (candidate, value) :: entries
    else (candidate, old) :: upsert_authority_value entries authority value
  end.
Definition authority_value {T} (entries : list (Authority * T)) (authority : Authority) : option T :=
  find_map (λ '(candidate, value), if bool_decide (candidate = authority) then Some value else None) entries.

Section crypto.
Context `{TlsCrypto}.

Record TlsEgressPolicy := {
  tls_dst : SocketAddr;
  client_config : TlsClientConfig;
  certificate_authority : CertificateAuthority;
  tls_egress : EgressPolicy;
  tls_secrets : RuntimeSecrets;
  bypass_hosts : list str;
  server_configs : list (Authority * TlsServerConfig);
  decisions : list (Authority * ApplicationPolicy);
}.
Definition decision_for (p : TlsEgressPolicy) (a : Authority) : option ApplicationPolicy := authority_value (decisions p) a.
Definition server_config_for (p : TlsEgressPolicy) (a : Authority) : option TlsServerConfig := authority_value (server_configs p) a.

(** ** Certificates of the intercepting side *)
Record CachedServerCert := { expires_at : Z; server_config : TlsServerConfig }.
Record TlsInterceptState := {
  ca : CertificateAuthority;
  state_client_config : TlsClientConfig;
  state_bypass_hosts : list str;
  certs : list (Authority * CachedServerCert);
}.
Record TlsIntercept := { ti_config : TlsInterceptConfig; ti_state : option TlsInterceptState }.

Definition tls_intercept_new (c : TlsInterceptConfig) : TlsIntercept := {| ti_config := c; ti_state := None |}.
Definition intercepts_port (p : Z) (t : TlsIntercept) : bool := is_enabled (ti_config t) && config_intercepts_port p (ti_config t).

(** [wall] is the time of the system, from which the validity of a certificate counts. *)
Definition generate_server_cert (wall : Z) (host : str) (ca : CertificateAuthority) : outcome str CachedServerCert :=
  let not_after := (wall + CERT_VALIDITY)%Z in
  config ← server_config_for_host host not_after ca;
  Ret {| expires_at := not_after; server_config := config |}.

Definition intercept_state_new (c : TlsInterceptConfig) : outcome str TlsInterceptState :=
  ca ← load (ca_cert_pem c) (ca_key_pem c);
  client_config ← with_platform_roots (upstream_root_ca_pems c);
  Ret {| ca := ca; state_client_config := client_config; state_bypass_hosts := normalize_host <$> config_bypass_hosts c; certs := [] |}.

Definition existing_cert (authority : Authority) (s : TlsInterceptState) : option nat :=
  position (λ '(candidate, _), bool_decide (candidate = authority)) (certs s).

(** [TlsInterceptState::server_config_for]; [now] is the clock of the network *)
Definition state_server_config_for (now wall : Z) (authority : Authority) (s : TlsInterceptState)
    : outcome str TlsServerConfig * TlsInterceptState :=
  let existing := existing_cert authority s in
  let generate :=
    match generate_server_cert wall (authority_str authority) (ca s) with
    | Ret cert =>
      let certs' := match existing with
                    | Some i => <[i := (authority, cert)]> (certs s)
                    | None => certs s ++ [(authority, cert)]
                    end in
      (Ret (server_config cert), {| ca := ca s; state_client_config := state_client_config s;
                                    state_bypass_hosts := state_bypass_hosts s; certs := certs' |})
    | Fail e => (Fail e, s) | Panic => (Panic, s) | Timeout => (Timeout, s)
    end in
  match existing ≫= λ i, certs s !! i with
  | Some (_, cert) =>
    if (CERT_REFRESH_MARGIN <? expires_at cert - now)%Z then (Ret (server_config cert), s) else generate
  | None => generate
  end.

(** [TlsIntercept::state] *)
Definition intercept_state (t : TlsIntercept) : outcome str TlsInterceptState :=
  match ti_state t with Some s => Ret s | None => intercept_state_new (ti_config t) end.

(** The loop over the authorities of the address *)
Fixpoint policy_loop (now wall : Z) (policy : NetworkPolicy) (authorities : list Authority) (s : TlsInterceptState)
    (configs : list (Authority * TlsServerConfig)) (decided : list (Authority * ApplicationPolicy))
    : outcome str (list (Authority * TlsServerConfig) * list (Authority * ApplicationPolicy)) * TlsInterceptState :=
  match authorities with
  | [] => (Ret (configs, decided), s)
  | authority :: authorities =>
    if restricts_authorities (egress policy) && negb (allows_authority (egress policy) authority)
    then policy_loop now wall policy authorities s configs decided
    else match state_server_config_for now wall authority s with
         | (Ret config, s) =>
           policy_loop now wall policy authorities s (upsert_authority_value configs authority config)
             (upsert_authority_value decided authority (PolicyHttp1 (secrets policy)))
         | (Fail e, s) => (Fail e, s) | (Panic, s) => (Panic, s) | (Timeout, s) => (Timeout, s)
         end
  end.

Definition tls_egress_policy (now wall : Z) (dst : SocketAddr) (authorities : list Authority) (policy : NetworkPolicy) (t : TlsIntercept)
    : outcome str TlsEgressPolicy * TlsIntercept :=
  match intercept_state t with
  | Ret s =>
    match policy_loop now wall policy authorities s [] [] with
    | (Ret (configs, decided), s) =>
      (Ret {| tls_dst := dst; client_config := state_client_config s; certificate_authority := ca s; tls_egress := egress policy;
              tls_secrets := secrets policy; bypass_hosts := state_bypass_hosts s; server_configs := configs; decisions := decided |},
       {| ti_config := ti_config t; ti_state := Some s |})
    | (Fail e, s) => (Fail e, {| ti_config := ti_config t; ti_state := Some s |})
    | (Panic, s) => (Panic, {| ti_config := ti_config t; ti_state := Some s |})
    | (Timeout, s) => (Timeout, {| ti_config := ti_config t; ti_state := Some s |})
    end
  | Fail e => (Fail e, t) | Panic => (Panic, t) | Timeout => (Timeout, t)
  end.

(** ** The route of a connection *)
Record TcpEgressPolicy := { decision : ApplicationPolicy; reject_secret_placeholders : bool }.
Inductive TcpEgressRoute := RoutePlain (p : TcpEgressPolicy) | RouteDns (upstream : SocketAddr) | RouteTls (p : TlsEgressPolicy).

Definition plain_route (d : ApplicationPolicy) (c : GatewayConfig) : TcpEgressRoute :=
  RoutePlain {| decision := d; reject_secret_placeholders := negb (bool_decide (Policy.bindings (secrets (policy c)) = [])) |}.

Definition tcp_egress_route (now wall : Z) (dst : SocketAddr) (c : GatewayConfig) :
    stm (DnsAttribution * option TlsIntercept) unit TcpEgressRoute := λ '(dns, tls),
  if is_dns_udp c dst then (Ret (RouteDns (dns_upstream c)), (dns, tls))
  else match tls with
       | Some t =>
         if intercepts_port (port dst) t then
           let upstream := resolve_gateway_destination dst (gateway c) in
           let (hosts, dns) := hosts_for_ip (ip dst) now dns in
           match tls_egress_policy now wall upstream (authority_new <$> hosts) (policy c) t with
           | (Ret p, t) => (Ret (RouteTls p), (dns, Some t))
           | (Fail _, t) => (Ret (plain_route (PolicyBlock TlsInterceptUnavailable) c), (dns, Some t))
           | (Panic, t) => (Panic, (dns, Some t))
           | (Timeout, t) => (Timeout, (dns, Some t))
           end
         else (Ret (plain_route PolicyRaw c), (dns, tls))
       | None => (Ret (plain_route PolicyRaw c), (dns, tls))
       end.

(** ** The decision on a server name *)
Inductive TlsRoute := TlsDrop (reason : BlockReason) | TlsBypass.
Record InterceptedTls := { it_authority : Authority; it_secrets : RuntimeSecrets; it_server_config : TlsServerConfig }.

Definition suffix_matches (suffix host : str) : bool := bool_decide (host = suffix) || ends_with host (46%Z :: suffix).
Definition should_bypass_tls (patterns : list str) (host : str) : bool :=
  let host := normalize_host host in
  existsb (λ pattern, bool_decide (pattern = host) ||
    match strip_prefix (bytes_of "*.") pattern with Some suffix => suffix_matches suffix host | None => false end) patterns.

(** [TlsEgressPolicy::server_config_for_sni] *)
Definition server_config_for_sni (wall : Z) (p : TlsEgressPolicy) (a : Authority) : outcome str TlsServerConfig :=
  match server_config_for p a with
  | Some config => Ret config
  | None => cert ← generate_server_cert wall (authority_str a) (certificate_authority p); Ret (server_config cert)
  end.

(** The end of [tls_route]: a name that may be reached *)
Definition intercept_route (wall : Z) (p : TlsEgressPolicy) (authority : Authority) (secrets : RuntimeSecrets)
    : outcome InterceptedTls TlsRoute :=
  if should_bypass_tls (bypass_hosts p) (authority_str authority) then Ret TlsBypass
  else match server_config_for_sni wall p authority with
       | Ret config => Fail {| it_authority := authority; it_secrets := secrets; it_server_config := config |}
       | Fail _ => Ret (TlsDrop TlsInterceptUnavailable)
       | Panic => Panic
       | Timeout => Timeout
       end.

Definition tls_route (wall : Z) (p : TlsEgressPolicy) (host : str) : outcome InterceptedTls TlsRoute :=
  let authority := authority_new host in
  match decision_for p authority with
  | Some PolicyRaw => Ret TlsBypass
  | Some (PolicyBlock reason) => Ret (TlsDrop reason)
  | Some (PolicyHttp1 secrets) => intercept_route wall p authority secrets
  | None => if restricts_authorities (tls_egress p) && negb (allows_authority (tls_egress p) authority)
            then Ret (TlsDrop AuthorityNotAllowed) else intercept_route wall p authority (tls_secrets p)
  end.

(** ** What a policy holds *)

(** The certificate is one the authority issued for the name, valid until the time. *)
Definition issued (ca : CertificateAuthority) (a : Authority) (until : Z) (config : TlsServerConfig) : Prop :=
  server_config_for_host (authority_str a) until ca = Ret config.

Definition cache_ok (s : TlsInterceptState) : Prop :=
  Forall (λ '(a, cert), issued (ca s) a (expires_at cert) (server_config cert)) (certs s).

(** The state of a configuration: its authority, its bypass patterns, certificates of that authority *)
Definition state_ok (c : TlsInterceptConfig) (s : TlsInterceptState) : Prop :=
  cache_ok s ∧ load (ca_cert_pem c) (ca_key_pem c) = Ret (ca s) ∧ state_bypass_hosts s = normalize_host <$> config_bypass_hosts c.
Definition intercept_ok (c : TlsInterceptConfig) (t : TlsIntercept) : Prop :=
  ti_config t = c ∧ match ti_state t with Some s => state_ok c s | None => True end.

(** Not about to expire: past the margin, or just issued *)
Definition fresh (now wall until : Z) : Prop := (now + CERT_REFRESH_MARGIN < until ∨ until = wall + CERT_VALIDITY)%Z.

Definition allowed_by (e : EgressPolicy) (a : Authority) : Prop := restricts_authorities e = false ∨ allows_authority e a = true.

Lemma allowed_by_check e a : allowed_by e a ↔ restricts_authorities e && negb (allows_authority e a) = false.
Proof. unfold allowed_by. rewrite andb_false_iff, negb_false_iff. done. Qed.

Record policy_ok (c : TlsInterceptConfig) (now wall : Z) (pol : NetworkPolicy) (p : TlsEgressPolicy) : Prop := {
  po_ca : load (ca_cert_pem c) (ca_key_pem c) = Ret (certificate_authority p);
  po_bypass : bypass_hosts p = normalize_host <$> config_bypass_hosts c;
  po_egress : tls_egress p = egress pol;
  po_secrets : tls_secrets p = secrets pol;
  po_decisions : ∀ a d, decision_for p a = Some d → d = PolicyHttp1 (secrets pol) ∧ allowed_by (egress pol) a;
  po_configs : ∀ a config, server_config_for p a = Some config → ∃ until, issued (certificate_authority p) a until config ∧ fresh now wall until;
}.

Lemma state_server_config_for_spec now wall a s r s' :
  cache_ok s → state_server_config_for now wall a s = (r, s') →
  cache_ok s' ∧ ca s' = ca s ∧ state_client_config s' = state_client_config s ∧ state_bypass_hosts s' = state_bypass_hosts s ∧
  match r with Ret config => ∃ until, issued (ca s) a until config ∧ fresh now wall until | _ => True end.
Proof.
  intros Hok. unfold state_server_config_for.
  set (generate := match generate_server_cert _ _ _ with Ret _ => _ | _ => _ end).
  assert (Hgen : ∀ r s', generate = (r, s') → cache_ok s' ∧ ca s' = ca s ∧ state_client_config s' = state_client_config s ∧
    state_bypass_hosts s' = state_bypass_hosts s ∧
    match r with Ret config => ∃ until, issued (ca s) a until config ∧ fresh now wall until | _ => True end).
  { intros r0 s0. unfold generate, generate_server_cert.
    destruct (server_config_for_host (authority_str a) (wall + CERT_VALIDITY)%Z (ca s)) as [config|e| |] eqn:Hgen; simpl;
      intros [= <- <-]; [|split_and!; done..].
    split; [|split_and!; try done; exists (wall + CERT_VALIDITY)%Z; split; [done|by right]].
    unfold cache_ok in *. simpl. destruct (existing_cert a s) as [i|].
    - apply Forall_insert; [done|]. done.
    - apply Forall_app. split; [done|]. by constructor. }
  destruct (existing_cert a s) as [i|] eqn:Hex; simpl; [|apply Hgen].
  destruct (certs s !! i) as [[a' cert]|] eqn:Hi; simpl; [|apply Hgen].
  destruct (Z.ltb_spec CERT_REFRESH_MARGIN (expires_at cert - now)); [|apply Hgen].
  intros [= <- <-]. split_and!; try done. exists (expires_at cert). split; [|left; lia].
  apply position_spec in Hex as (x & Hx & Heq & _). rewrite Hi in Hx. injection Hx as <-. apply bool_decide_eq_true in Heq as ->.
  unfold cache_ok in Hok. rewrite Forall_lookup in Hok. exact (Hok i (a, cert) Hi).
Qed.

Lemma authority_value_upsert {T} entries a b (v : T) :
  authority_value (upsert_authority_value entries a v) b = if bool_decide (a = b) then Some v else authority_value entries b.
Proof.
  unfold authority_value. induction entries as [|[c w] entries IH]; simpl; [by destruct (bool_decide (a = b))|].
  destruct (bool_decide_reflect (c = a)) as [->|Hca]; simpl.
  - by destruct (bool_decide_reflect (a = b)).
  - rewrite IH. destruct (bool_decide_reflect (c = b)) as [->|]; [|done]. by rewrite bool_decide_eq_false_2.
Qed.

Lemma policy_loop_spec now wall pol authorities s configs decided r s' :
  cache_ok s → policy_loop now wall pol authorities s configs decided = (r, s') →
  (∀ a d, authority_value decided a = Some d → d = PolicyHttp1 (secrets pol) ∧ allowed_by (egress pol) a) →
  (∀ a config, authority_value configs a = Some config → ∃ until, issued (ca s) a until config ∧ fresh now wall until) →
  cache_ok s' ∧ ca s' = ca s ∧ state_bypass_hosts s' = state_bypass_hosts s ∧
  match r with
  | Ret (configs', decided') =>
    (∀ a d, authority_value decided' a = Some d → d = PolicyHttp1 (secrets pol) ∧ allowed_by (egress pol) a) ∧
    (∀ a config, authority_value configs' a = Some config → ∃ until, issued (ca s) a until config ∧ fresh now wall until)
  | _ => True
  end.
Proof.
  revert s configs decided. induction authorities as [|a authorities IH]; intros s configs decided Hok; simpl.
  { intros [= <- <-] ? ?. by split_and!. }
  destruct (restricts_authorities _ && _) eqn:Hallow; [by apply IH|]. apply allowed_by_check in Hallow.
  destruct (state_server_config_for now wall a s) as [r1 s1] eqn:Hcert.
  apply state_server_config_for_spec in Hcert as (Hok1 & Hca & _ & Hby & Hissued); [|done].
  destruct r1 as [config|e| |]; [|by intros [= <- <-]..].
  intros Hrun Hd Hc. rewrite <-Hca, <-Hby. eapply IH; [exact Hok1|exact Hrun|..].
  - intros b d. rewrite authority_value_upsert. destruct (bool_decide_reflect (a = b)) as [<-|]; [|by apply Hd].
    intros [= <-]. done.
  - intros b cfg. rewrite authority_value_upsert, Hca. destruct (bool_decide_reflect (a = b)) as [<-|]; [|by apply Hc].
    intros [= <-]. done.
Qed.

Lemma intercept_state_ok c t s : intercept_ok c t → intercept_state t = Ret s → state_ok c s.
Proof.
  unfold intercept_ok, intercept_state. intros [Hc Hs]. destruct (ti_state t); [by intros [= <-]|]. rewrite Hc.
  unfold intercept_state_new. destruct (load _ _) eqn:Hload; try done. simpl. destruct (with_platform_roots _); try done. simpl.
  intros [= <-]. split_and!; simpl; try done. by constructor.
Qed.

Lemma tls_egress_policy_spec c now wall dst authorities pol t r t' :
  intercept_ok c t → tls_egress_policy now wall dst authorities pol t = (r, t') →
  intercept_ok c t' ∧ match r with Ret p => policy_ok c now wall pol p ∧ tls_dst p = dst | _ => True end.
Proof.
  intros Hok. unfold tls_egress_policy. destruct (intercept_state t) as [s|e| |] eqn:Hs; [|by intros [= <- <-]..].
  eapply intercept_state_ok in Hs as (Hcache & Hload & Hby); [|exact Hok]. destruct Hok as [Hc _].
  destruct (policy_loop now wall pol authorities s [] []) as [r1 s1] eqn:Hloop.
  apply policy_loop_spec in Hloop as (Hok1 & Hca & Hby1 & Hres); [|done..].
  assert (Hs1 : intercept_ok c {| ti_config := ti_config t; ti_state := Some s1 |}).
  { split; [done|]. split_and!; simpl; congruence. }
  destruct r1 as [[configs decided]|e| |]; intros [= <- <-]; [|by split..].
  split; [done|]. split; [|done]. destruct Hres as [Hd Hcf]. split; simpl; try done; [congruence..|by rewrite Hca].
Qed.

(** The intercepting side over the connections of the guest *)
Inductive intercept_step : TlsIntercept → TlsIntercept → Prop :=
| step_policy now wall dst authorities pol t r t' :
    tls_egress_policy now wall dst authorities pol t = (r, t') → intercept_step t t'.

Lemma intercept_reachable c t : rtc intercept_step (tls_intercept_new c) t → intercept_ok c t.
Proof.
  apply (rtc_ind_r (intercept_ok c)); [done|]. intros t1 t2 _ [now wall dst authorities pol t3 r t4 Hrun] Hok.
  by eapply tls_egress_policy_spec in Hrun as [? _].
Qed.

(** A pattern of the configuration covers the name: it is the name, or *.suffix with the name the
    suffix or below it. *)
Definition covers (pattern host : str) : Prop :=
  pattern = host ∨ ∃ suffix, pattern = bytes_of "*." ++ suffix ∧ (host = suffix ∨ ∃ label, host = label ++ 46%Z :: suffix).
Definition bypassed (c : TlsInterceptConfig) (host : str) : Prop :=
  ∃ pattern, pattern ∈ config_bypass_hosts c ∧ covers (normalize_host pattern) (normalize_host host).

Lemma suffix_matches_spec suffix host : suffix_matches suffix host = true ↔ host = suffix ∨ ∃ label, host = label ++ 46%Z :: suffix.
Proof.
  unfold suffix_matches, ends_with. rewrite orb_true_iff, andb_true_iff, !bool_decide_eq_true, Nat.leb_le. apply or_iff_compat_l. split.
  - intros [Hlen Hd]. exists (take (length host - length (46%Z :: suffix)) host). rewrite <-Hd at 2. by rewrite take_drop.
  - intros (label & ->). rewrite length_app. split; [lia|].
    replace (length label + _ - _) with (length label) by lia. by rewrite drop_app_length.
Qed.

Lemma strip_prefix_app prefix (s rest : str) : strip_prefix prefix s = Some rest ↔ s = prefix ++ rest.
Proof.
  revert s. induction prefix as [|x prefix IH]; intros s; cbn [Text.strip_prefix app]; [naive_solver|].
  destruct s as [|y s]; [naive_solver|]. destruct (Z.eqb_spec x y) as [->|Hne]; [rewrite IH|]; naive_solver.
Qed.

Lemma should_bypass_tls_spec patterns host :
  should_bypass_tls patterns host = true ↔ ∃ pattern, pattern ∈ patterns ∧ covers pattern (normalize_host host).
Proof.
  unfold should_bypass_tls. rewrite existsb_exists. setoid_rewrite <-list_elem_of_In.
  split; intros (pattern & Hin & Hm); exists pattern; split; try done; revert Hm; rewrite orb_true_iff, bool_decide_eq_true.
  - intros [->|Hm]; [by left|]. destruct (strip_prefix _ pattern) as [suffix|] eqn:Hs; [|done].
    right. exists suffix. split; [by apply strip_prefix_app|]. by apply suffix_matches_spec.
  - intros [->|(suffix & Hs & Hm)]; [by left|]. right. apply strip_prefix_app in Hs as ->. by apply suffix_matches_spec.
Qed.

Lemma bypassed_policy c now wall pol p host :
  policy_ok c now wall pol p → should_bypass_tls (bypass_hosts p) host = true ↔ bypassed c host.
Proof.
  intros [_ Hby _ _ _ _]. rewrite should_bypass_tls_spec, Hby. unfold bypassed. setoid_rewrite list_elem_of_fmap. naive_solver.
Qed.

(** The authority issues no certificate for the name. *)
Definition not_issued (root : CertificateAuthority) (a : Authority) (later : Z) : Prop :=
  ∀ config, server_config_for_host (authority_str a) (later + CERT_VALIDITY)%Z root ≠ Ret config.

(** What the routes of a name promise *)
Definition route_ok (c : TlsInterceptConfig) (pol : NetworkPolicy) (now wall later : Z) (host : str) (r : outcome InterceptedTls TlsRoute) : Prop :=
  let a := authority_new host in
  match r with
  | Ret (TlsDrop AuthorityNotAllowed) => ¬ allowed_by (egress pol) a
  | Ret (TlsDrop TlsInterceptUnavailable) | Panic | Timeout => allowed_by (egress pol) a ∧ ¬ bypassed c (authority_str a) ∧
      ∃ root, load (ca_cert_pem c) (ca_key_pem c) = Ret root ∧ not_issued root a later
  | Ret TlsBypass => allowed_by (egress pol) a ∧ bypassed c (authority_str a)
  | Fail i => allowed_by (egress pol) a ∧ ¬ bypassed c (authority_str a) ∧ it_authority i = a ∧ it_secrets i = secrets pol ∧
      ∃ root until, load (ca_cert_pem c) (ca_key_pem c) = Ret root ∧ issued root a until (it_server_config i) ∧
        (fresh now wall until ∨ until = later + CERT_VALIDITY)%Z
  end.

Lemma intercept_route_spec c now wall later pol p host :
  policy_ok c now wall pol p → allowed_by (egress pol) (authority_new host) →
  route_ok c pol now wall later host (intercept_route later p (authority_new host) (secrets pol)).
Proof.
  intros Hok Hallow. pose proof Hok as [Hload _ _ _ _ Hconf]. unfold intercept_route.
  pose proof (bypassed_policy c now wall pol p (authority_str (authority_new host)) Hok) as Hby.
  destruct (should_bypass_tls _ _) eqn:Hb; [by split; [|apply Hby]|].
  assert (Hno : ¬ bypassed c (authority_str (authority_new host))) by (intros H2; apply Hby in H2; done).
  unfold server_config_for_sni. destruct (server_config_for p _) as [config|] eqn:Hcfg.
  { split_and!; try done. apply Hconf in Hcfg as (until & ? & ?). eauto 6. }
  unfold generate_server_cert. destruct (server_config_for_host _ _ _) as [config|e| |] eqn:Hgen; simpl.
  2-4: split_and!; [done..|]; exists (certificate_authority p); split; [done|]; intros config; by rewrite Hgen.
  split_and!; try done. exists (certificate_authority p), (later + CERT_VALIDITY)%Z. split_and!; [done..|by right].
Qed.

Lemma tls_route_spec c now wall later pol p host :
  policy_ok c now wall pol p → route_ok c pol now wall later host (tls_route later p host).
Proof.
  intros Hok. pose proof Hok as [_ _ He Hsec Hdec _]. unfold tls_route. cbv zeta.
  destruct (decision_for p _) as [d|] eqn:Hd.
  - apply Hdec in Hd as [-> Hallow]. by apply intercept_route_spec.
  - rewrite He, Hsec. destruct (restricts_authorities _ && _) eqn:Hr.
    + intros Hallow%allowed_by_check. congruence.
    + by apply intercept_route_spec; [|apply allowed_by_check].
Qed.

(** C3: whatever connections came before, a connection to an intercepted port is routed by the name it asks
    for and by the policy it was accepted under.  A name that the policy does not allow is refused as
    such, and no other is.  An allowed name passes untouched exactly when the configuration lists it to
    bypass; any other is intercepted for that name, with the secrets of the policy and a certificate that
    the configured authority issued for that very name and that is not about to expire, or is refused
    for want of a certificate, when that authority does not issue one. *)
Theorem tls_route_scoped c t now wall dst authorities pol p t' later host :
  rtc intercept_step (tls_intercept_new c) t →
  tls_egress_policy now wall dst authorities pol t = (Ret p, t') →
  route_ok c pol now wall later host (tls_route later p host).
Proof.
  intros Hreach Hrun. eapply tls_egress_policy_spec in Hrun as (_ & Hok & _); [|by apply intercept_reachable].
  by apply tls_route_spec.
Qed.
End crypto.

(** ** A run: two connections, the second with the certificate of the first in the cache *)
Module RouteExample.
#[local] Instance crypto : TlsCrypto := {
  CertificateAuthority := str; TlsClientConfig := unit; TlsServerConfig := str * str * Z;
  load cert key := if bool_decide (key = bytes_of "key") then Ret cert else Fail (bytes_of "bad key");
  with_platform_roots _ := Ret tt;
  server_config_for_host host until ca := Ret (host, ca, until);
}.
Definition config : TlsInterceptConfig := {|
  ca_cert_pem := bytes_of "root"; ca_key_pem := bytes_of "key"; upstream_root_ca_pems := []; intercepted_ports := [443%Z];
  config_bypass_hosts := [bytes_of "*.Tunnel.test"] |}.
Definition network_policy : NetworkPolicy := {|
  egress := with_allowed_authority (bytes_of "allowed.test") (with_allowed_authority (bytes_of "a.tunnel.test") allow_all);
  secrets := secrets_new |}.
Definition server : SocketAddr := {| ip := V4 1 2 3 4; port := 443 |}.
Definition connect (now : Z) := tls_egress_policy now 1000 server [authority_new (bytes_of "allowed.test")] network_policy.
Definition warm : TlsIntercept := (connect 10 (tls_intercept_new config)).2.
Definition accepted : outcome str TlsEgressPolicy := (connect 20 warm).1.

Lemma tls_route_scoped_witness : ∃ p, accepted = Ret p ∧
  (∃ i, tls_route 1200 p (bytes_of "Allowed.Test.") = Fail i ∧ it_server_config i = (bytes_of "allowed.test", bytes_of "root", 87400%Z)) ∧
  tls_route 1200 p (bytes_of "a.tunnel.test") = Ret TlsBypass ∧ bypassed config (bytes_of "a.tunnel.test") ∧
  ¬ allowed_by (egress network_policy) (authority_new (bytes_of "b.tunnel.test")).
Proof.
  assert (Hreach : rtc intercept_step (tls_intercept_new config) warm).
  { apply rtc_once. exact (step_policy 10 1000 server _ network_policy (tls_intercept_new config) _ warm (surjective_pairing _)). }
  destruct accepted as [p|e| |] eqn:Hacc; [|by vm_compute in Hacc..]. exists p. split; [done|].
  assert (Hrun : connect 20 warm = (Ret p, (connect 20 warm).2)) by (rewrite <-Hacc; apply surjective_pairing).
  pose proof (fun host => tls_route_scoped config warm 20 1000 server _ network_policy p _ 1200 host Hreach Hrun) as Hroute.
  pose proof (Hroute (bytes_of "a.tunnel.test")) as Hbypass. pose proof (Hroute (bytes_of "b.tunnel.test")) as Hdrop.
  vm_compute in Hacc. injection Hacc as <-. split_and!.
  - eexists. split; by vm_compute.
  - by vm_compute.
  - by destruct Hbypass.
  - exact Hdrop.
Defined.
End RouteExample.
