(* ===== verification/HttpTotal.v ===== *)
(** * Every call of the HTTP filter returns

    No input makes a call of the filter panic or run on: with secrets whose
    strings are strings and whose values leave room for the length of a rewritten
    body, a call gives a result or an error, after any calls before it. *)
From S2P Require Import Prelude Text Policy Raw HttpHead Http1 HttpStream HttpSecrecy.
Local Open Scope Z_scope.

(** ** Lengths *)

(** A body grows at most as if it were made of one placeholder after the other, for each secret in turn. *)
Definition placeholder_len (s : RuntimeSecret) : Z := zlen (utf8_encode (placeholder s)).
Definition value_len (s : RuntimeSecret) : Z := Z.max (placeholder_len s) (zlen (utf8_encode (secret_value s))).
Definition product (f : RuntimeSecret → Z) (ss : list RuntimeSecret) : Z := foldr (λ s acc, f s * acc) 1 ss.
(** A rewritten body has a length that its decimal text of 39 digits can hold. *)
Definition room (ss : RuntimeSecrets) : Prop :=
  MAX_BUFFERED_HTTP_REQUEST * product value_len (bindings ss) < 10 ^ 39 * product placeholder_len (bindings ss).

Lemma placeholder_pos s : wf_secret s → 0 < placeholder_len s.
Proof.
  intros [Hne _]. unfold placeholder_len, zlen. apply utf8_encode_nonempty in Hne. destruct (utf8_encode _); [done|]. simpl. lia.
Qed.
Lemma product_pos ss : Forall wf_secret ss → 0 < product placeholder_len ss ∧ 0 < product value_len ss.
Proof.
  induction 1 as [|s ss Hs _ [IH1 IH2]]; [done|]. apply placeholder_pos in Hs.
  assert (0 < value_len s) by (unfold value_len; lia). split; by apply Z.mul_pos_pos.
Qed.

Lemma decimal_loop_ends fuel value digits :
  0 <= value → value < 10 ^ Z.of_nat fuel → (0 < fuel)%nat → ∃ ds, decimal_loop fuel value digits = Ret ds.
Proof.
  revert value digits. induction fuel as [|fuel IH]; intros value digits Hpos Hlt Hfuel; [lia|]. cbn [decimal_loop].
  destruct (Z.eqb_spec (value / 10) 0) as [Hz|Hz]; [by eexists|].
  assert (Hdiv : value / 10 < 10 ^ Z.of_nat fuel).
  { apply Z.div_lt_upper_bound; [lia|]. rewrite Nat2Z.inj_succ, Z.pow_succ_r in Hlt by lia. lia. }
  apply IH; [by apply Z.div_pos|done|]. destruct fuel; [|lia]. simpl in Hdiv. pose proof (Z.div_pos value 10). lia.
Qed.

Lemma extend_decimal_safe output value : 0 <= value < 10 ^ 39 → safe (λ _, True) (extend_decimal output value).
Proof.
  intros [Hpos Hlt]. unfold extend_decimal. destruct (decimal_loop_ends 39 value []) as [ds ->]; [done|exact Hlt|lia|done].
Qed.

Lemma content_length_safe first lines body_len scratch :
  0 <= body_len < 10 ^ 39 → safe (λ _, True) (content_length_loop first lines body_len scratch).
Proof.
  intros Hlen. revert first scratch. induction lines as [|line lines IH]; intros first scratch; [done|]. cbn [content_length_loop].
  eapply (safe_bind (λ _, True)); [|intros ? _; apply IH]. destruct (content_length_line line); [by apply extend_decimal_safe|done].
Qed.

(** A part of the length for each piece but one *)
Lemma intercalate_length sep ps : ps ≠ [] →
  zlen (intercalate sep ps) = zlen (concat ps) + (Z.of_nat (length ps) - 1) * zlen sep.
Proof.
  unfold zlen. induction ps as [|p ps IH]; [done|]. intros _. destruct ps as [|q ps]; [cbn; rewrite app_nil_r; lia|].
  rewrite intercalate_cons by done. rewrite !length_app. change (concat (p :: q :: ps)) with (p ++ concat (q :: ps)).
  rewrite length_app. specialize (IH ltac:(done)). simpl length in *. nia.
Qed.

Lemma replaced_length needle h value r :
  needle ≠ [] → replace_bytes (E:=Error) h needle value = Ret r → zlen r * zlen needle <= zlen h * Z.max (zlen needle) (zlen value).
Proof.
  intros Hn Hr. destruct (replace_bytes_pieces needle h Hn) as (ps & Hps & Hh & _ & Hrun). rewrite Hrun in Hr. injection Hr as <-.
  pose proof (intercalate_length needle ps Hps) as H1. rewrite <-Hh in H1. rewrite H1, (intercalate_length value ps Hps).
  assert (0 <= zlen needle) by (unfold zlen; lia). assert (0 <= zlen value) by (unfold zlen; lia).
  assert (0 < Z.of_nat (length ps)) by (destruct ps; [done|simpl; lia]).
  assert (0 <= zlen (concat ps)) by (unfold zlen; lia).
  set (m := Z.max _ _). assert (zlen needle <= m ∧ zlen value <= m) as [? ?] by (unfold m; lia).
  set (k := Z.of_nat (length ps) - 1). assert (0 <= k) by (unfold k; lia).
  rewrite !Z.mul_add_distr_r. apply Z.add_le_mono; [by apply Z.mul_le_mono_nonneg_l|].
  replace (k * zlen value * zlen needle) with (k * zlen needle * zlen value) by ring. apply Z.mul_le_mono_nonneg_l; [|done].
  by apply Z.mul_nonneg_nonneg.
Qed.

Lemma substitute_body_length authority bs payload output r :
  Forall wf_secret bs → substitute_body_loop authority bs payload output = Ret r →
  zlen (default payload r) * product placeholder_len bs <= zlen (default payload output) * product value_len bs.
Proof.
  intros Hbs. revert output r. induction Hbs as [|s bs Hs Hbs IH]; intros output r; cbn [substitute_body_loop].
  { intros [= <-]. simpl. lia. }
  pose proof (placeholder_pos s Hs) as Hpos. pose proof (product_pos bs Hbs) as [Hp1 Hp2]. cbn [product foldr].
  fold (product placeholder_len bs) (product value_len bs).
  set (P := product placeholder_len bs) in *. set (V := product value_len bs) in *.
  (* what is left of the loop, on a text that grew by this secret's factor *)
  assert (Hstep : ∀ x r, zlen (default payload x) * placeholder_len s <= zlen (default payload output) * value_len s →
    substitute_body_loop authority bs payload x = Ret r →
    zlen (default payload r) * (placeholder_len s * P) <= zlen (default payload output) * (value_len s * V)).
  { intros x r0 Hx Hrun%IH. transitivity (zlen (default payload x) * placeholder_len s * V).
    - replace (zlen (default payload r0) * (placeholder_len s * P)) with (placeholder_len s * (zlen (default payload r0) * P)) by ring.
      replace (zlen (default payload x) * placeholder_len s * V) with (placeholder_len s * (zlen (default payload x) * V)) by ring.
      apply Z.mul_le_mono_nonneg_l; [lia|done].
    - rewrite (Z.mul_assoc _ (value_len s)). apply Z.mul_le_mono_nonneg_r; [lia|done]. }
  assert (Hsame : ∀ r, substitute_body_loop authority bs payload output = Ret r →
    zlen (default payload r) * (placeholder_len s * P) <= zlen (default payload output) * (value_len s * V)).
  { intros r0. apply Hstep. apply Z.mul_le_mono_nonneg_l; [unfold zlen; lia|unfold value_len; lia]. }
  destruct (negb (secret_allows s authority)); [apply Hsame|]. rewrite contains_window_ok by done. cbn [mbind outcome_bind].
  destruct (negb _); [apply Hsame|].
  destruct (replace_bytes (E:=Error) _ _ _) as [x|e| |] eqn:Hrep; cbn [mbind outcome_bind]; try done. apply Hstep.
  apply replaced_length in Hrep; [done|]. apply utf8_encode_nonempty. by destruct Hs.
Qed.

(** ** Substitution in one request *)
Section substitution.
Context (host : str) (ss : RuntimeSecrets) (Hwf : wf_secrets ss) (Hroom : room ss).

Lemma ensure_loop_safe authority bs payload : Forall wf_secret bs → safe (λ _, True) (ensure_loop host authority bs payload).
Proof.
  intros Hbs. induction Hbs as [|s bs Hs _ IH]; [done|]. cbn [ensure_loop]. destruct (negb _); [|done].
  rewrite contains_window_ok by done. cbn [mbind outcome_bind]. by destruct (bool_decide _).
Qed.

Definition any {S A} (_ : A) (_ : S) : Prop := True.

Lemma map_err_safe {S E F A} (P : A → S → Prop) (g : E → F) (m : stm S E A) s : stm_safe P m s → stm_safe P (stm_map_err g m) s.
Proof. unfold stm_safe, stm_map_err. by destruct (m s) as [[a|e| |] s']. Qed.

Lemma ensure_and_pass_safe input scratch : stm_safe any (ensure_and_pass ss host input) scratch.
Proof.
  eapply (stm_safe_bind any); [|done]. apply map_err_safe. eapply stm_safe_mono; [apply stm_safe_lift, ensure_loop_safe, Hwf|done].
Qed.

Lemma update_content_length_safe headers len scratch : 0 <= len < 10 ^ 39 → stm_safe any (update_content_length headers len) scratch.
Proof.
  intros Hlen. unfold update_content_length. destruct (utf8_decode headers) as [text|]; [|done].
  eapply stm_safe_bind; [by apply stm_safe_lift, content_length_safe|]. intros. done.
Qed.

(** The body of a request that is buffered whole *)
Definition short_body (input : bytes) : Prop :=
  match header_boundary input with Some boundary => zlen (drop (boundary + 4) input) <= MAX_BUFFERED_HTTP_REQUEST | None => True end.

Lemma request_safe input scratch :
  are_bytes input → short_body input → stm_safe any (substitute_http_request_for_host_into ss host input) scratch.
Proof.
  intros Hb Hshort. unfold substitute_http_request_for_host_into, short_body in *.
  destruct (header_boundary input) as [boundary|]; [|apply ensure_and_pass_safe]. cbv zeta.
  eapply stm_safe_bind; [by apply map_err_safe, header_bytes_safe, Forall_take|]. intros new_headers s1 _.
  set (body := drop (boundary + 4) input) in *. assert (Hbody : are_bytes body) by by apply Forall_drop.
  destruct (substitute_body_bytes_for_host ss host body) as [new_body|e| |] eqn:Hrun;
    [|done|by pose proof (substitute_body_safe host ss Hwf body Hbody) as Hs; rewrite Hrun in Hs..].
  eapply (stm_safe_bind (λ b _, b = new_body)); [done|]. intros ? s2 ->.
  assert (Hlen : 0 <= zlen (default body new_body) < 10 ^ 39).
  { split; [unfold zlen; lia|]. pose proof (product_pos _ Hwf) as [Hp Hv].
    apply (Z.mul_lt_mono_pos_r (product placeholder_len (bindings ss))); [done|]. eapply Z.le_lt_trans; [|exact Hroom].
    etrans; [by apply (substitute_body_length _ _ _ _ _ Hwf Hrun)|]. simpl. apply Z.mul_le_mono_nonneg_r; [lia|done]. }
  assert (Hrest : stm_safe any (headers ← (if (length (default body new_body) =? length input - (boundary + 4))%nat
      then mret (default (take (boundary + 4) input) new_headers)
      else update_content_length (default (take (boundary + 4) input) new_headers) (zlen (default body new_body)));
    mret (headers ++ default body new_body)) s2).
  { eapply (stm_safe_bind any); [|done]. destruct (_ =? _)%nat; [done|by apply update_content_length_safe]. }
  by destruct new_headers, new_body.
Qed.

Lemma headers_safe input scratch : are_bytes input → stm_safe any (substitute_http_headers_for_host_into ss host input) scratch.
Proof.
  intros Hb. unfold substitute_http_headers_for_host_into. destruct (header_boundary input); [|apply ensure_and_pass_safe].
  eapply stm_safe_bind; [by apply map_err_safe, header_bytes_safe, Forall_take|]. done.
Qed.

Lemma process_safe input output : safe (λ _, True) (process input output).
Proof. unfold process. eapply safe_bind; [apply reject_safe|done]. Qed.

Lemma substitute_http_safe input mode scratch :
  are_bytes input → (mode = Substitute → short_body input) → stm_safe any (substitute_http_for_host_into ss host input mode) scratch.
Proof.
  intros Hb Hs. destruct mode; cbn [substitute_http_for_host_into].
  - by apply request_safe, Hs.
  - by apply headers_safe.
  - apply map_err_safe. eapply stm_safe_mono; [apply stm_safe_lift, process_safe|done].
Qed.

(** ** The filter *)

(** A body of fixed length that is being read has something left. *)
Definition fixed_positive (t : Http1ResponseTracker) : Prop := ∀ n, rstate t = RespFixed n → 0 < n.

(** What holds between the calls, and while requests are flushed *)
Record total_inv (f : Http1Filter) : Prop := {
  ti_secrets : fsecrets f = ss; ti_host : fhost f = host; ti_bytes : are_bytes (pending f);
  ti_upgrade : upgrade_pending f = true → body f = Headers;
  ti_fixed : ∀ n, body f = Fixed n → 0 < n;
  ti_tracker : fixed_positive (response_tracker f);
}.
Definition inv_of {A} (_ : A) (s : Http1Filter * bytes) : Prop := total_inv s.1.

Lemma safe_get {A} (P : A → Http1Filter * bytes → Prop) (k : Http1Filter → filter_stm A) s :
  stm_safe P (k s.1) s → stm_safe P (f ← get_filter; k f) s.
Proof. done. Qed.

Lemma safe_modify {A} (P : A → Http1Filter * bytes → Prop) (g : Http1Filter → Http1Filter) (k : unit → filter_stm A) f out :
  stm_safe P (k tt) (g f, out) → stm_safe P (modify_filter g ≫= k) (f, out).
Proof. done. Qed.

Lemma safe_append {A} (P : A → Http1Filter * bytes → Prop) b (k : unit → filter_stm A) f out :
  stm_safe P (k tt) (f, copy b out) → stm_safe P (append_output b ≫= k) (f, out).
Proof. done. Qed.

(** A substitution changes the scratch buffers only. *)
Lemma substitute_into_safe {A} (P : A → Http1Filter * bytes → Prop) input mode (k : unit → filter_stm A) f out :
  total_inv f → are_bytes input → (mode = Substitute → short_body input) →
  (∀ h out', stm_safe P (k tt) (set_header_rewrite h f, out')) → stm_safe P (substitute_into input mode ≫= k) (f, out).
Proof.
  intros [Hs Hh _ _ _ _] Hb Hshort Hk. unfold stm_safe, mbind, stm_bind, substitute_into. cbn [fst snd]. rewrite Hs, Hh.
  pose proof (substitute_http_safe input mode (header_rewrite f) Hb Hshort) as Hsafe. unfold stm_safe in Hsafe.
  destruct (substitute_http_for_host_into _ _ _ _ _) as [[b|e| |] h]; try done. apply Hk.
Qed.

Lemma total_set_rewrite h f : total_inv f → total_inv (set_header_rewrite h f).
Proof. by intros []. Qed.
Lemma total_set_pending p f : are_bytes p → total_inv f → total_inv (set_pending p f).
Proof. by intros ? []. Qed.
Lemma total_expect r f : total_inv f → total_inv (set_response_tracker (expect_response_for r (response_tracker f)) f).
Proof. by intros []. Qed.

Lemma short_prefix input i n : header_boundary input = Some i → Z.of_nat n <= MAX_BUFFERED_HTTP_REQUEST → short_body (take (i + 4 + n) input).
Proof.
  intros Hb Hn. unfold short_body. destruct (header_boundary (take (i + 4 + n) input)) as [j|] eqn:Hj; [|done].
  pose proof (boundary_app _ (drop (i + 4 + n) input) _ Hj) as Hj'. rewrite take_drop, Hb in Hj'. injection Hj' as <-.
  unfold zlen. rewrite length_drop, length_take. lia.
Qed.

(** A request can be flushed when the filter is not in a body and waits for no upgrade. *)
Definition ready (f : Http1Filter) : Prop := total_inv f ∧ body f = Headers ∧ upgrade_pending f = false.

Lemma ready_expect r f : ready f → ready (set_response_tracker (expect_response_for r (response_tracker f)) f).
Proof. intros ([] & ? & ?). by split; [|split]. Qed.
Lemma ready_rewrite h f : ready f → ready (set_header_rewrite h f).
Proof. intros ([] & ? & ?). by split; [|split]. Qed.
Lemma ready_pending p f : are_bytes p → ready f → ready (set_pending p f).
Proof. intros ? ([] & ? & ?). by split; [|split]. Qed.
Lemma ready_body b f : ready f → (∀ n, b = Fixed n → 0 < n) → total_inv (set_body b f).
Proof. intros ([] & ? & Hup) Hb. split; simpl; try done. intros Hup'. congruence. Qed.
Lemma ready_bytes f : ready f → are_bytes (pending f).
Proof. by intros ([] & _). Qed.

Lemma ready_drain n f : ready f → ready (set_pending (drop n (pending f)) f).
Proof. intros Hf. apply ready_pending; [by apply Forall_drop, ready_bytes|done]. Qed.

Lemma header_mode_short m input : header_mode m = Substitute → short_body input.
Proof. by destruct m. Qed.

Lemma stream_fixed_safe length_ offset m f out :
  ready f → stm_safe inv_of (stream_fixed_request_body length_ offset m) (f, out).
Proof.
  intros Hf. unfold stream_fixed_request_body. apply safe_get. cbn [fst].
  apply substitute_into_safe; [apply Hf|by apply Forall_take, ready_bytes|apply header_mode_short|]. intros h out'.
  set (f1 := set_header_rewrite h f). assert (Hf1 : ready f1) by by apply ready_rewrite.
  apply safe_append, safe_modify. set (f2 := set_pending _ f1). assert (Hf2 : ready f2) by (by apply ready_pending; [apply Forall_drop, ready_bytes|]).
  destruct (Z.ltb_spec (Z.of_nat (take_len length_ (length (pending f) - offset))) length_); [|by destruct Hf2]. apply safe_modify.
  apply ready_body; [done|]. intros n [= <-]. lia.
Qed.

Lemma chunked_safe offset f out : ready f → stm_safe inv_of (flush_chunked_body offset) (f, out).
Proof.
  intros Hf. unfold flush_chunked_body. apply safe_get. cbn [fst]. unfold stm_safe, mbind, stm_bind.
  pose proof (consume_bounds (drop offset (pending f)) chunked_parser_default) as Hc.
  destruct (consume _ _) as [[[n c]|e| |] parser]; try done.
  change (stm_safe (A:=bool) inv_of (append_output (List.firstn n (drop offset (pending f))) ≫= λ _, drain_pending (offset + n) ≫= λ _,
    if c : bool then mret true else modify_filter (set_body (Chunked parser)) ≫= λ _, mret false) (f, out)).
  apply safe_append, safe_modify. set (f2 := set_pending _ f). assert (Hf2 : ready f2) by (by apply ready_pending; [apply Forall_drop, ready_bytes|]).
  destruct c; [by destruct Hf2|]. apply safe_modify. by apply ready_body.
Qed.

Lemma flush_request_safe i f out :
  ready f → header_boundary (pending f) = Some i → stm_safe inv_of (flush_request i) (f, out).
Proof.
  intros Hf Hb. unfold flush_request. apply safe_get. cbn [fst]. cbv zeta.
  destruct (is_github_workflow_dispatch_request _ _); [done|].
  set (headers := take (i + 4) (pending f)). assert (Hheaders : are_bytes headers) by by apply Forall_take, ready_bytes.
  assert (Hshort : short_body headers).
  { unfold headers. rewrite <-(Nat.add_0_r (i + 4)). by apply short_prefix. }
  unfold expect_response, drain_pending.
  set (f1 := set_response_tracker (expect_response_for (response_request headers) (response_tracker f)) f). assert (Hf1 : ready f1) by by apply ready_expect.
  destruct (request_body headers) as [|length_| |] eqn:Hrb.
  - apply safe_modify. apply substitute_into_safe; [apply Hf1|done|done|]. intros h out'. apply safe_modify.
    by apply (ready_drain _ (set_header_rewrite h f1)), ready_rewrite.
  - destruct (Z.leb_spec length_ MAX_BUFFERED_HTTP_REQUEST) as [Hle|]; [|by apply safe_modify, stream_fixed_safe].
    destruct (is_expect_continue headers); [by apply safe_modify, stream_fixed_safe|]. destruct (_ <? _)%nat; [by destruct Hf|].
    apply safe_modify. apply substitute_into_safe; [apply Hf1|by apply Forall_take, ready_bytes| |].
    + intros _. apply short_prefix; [done|]. apply request_fixed_nonneg in Hrb. lia.
    + intros h out'. apply safe_modify.
      by apply (ready_drain _ (set_header_rewrite h f1)), ready_rewrite.
  - apply safe_modify. apply substitute_into_safe; [apply Hf1|done|done|]. intros h out'. by apply chunked_safe, ready_rewrite.
  - apply safe_modify. apply substitute_into_safe; [apply Hf1|done|done|]. intros h out'. apply safe_modify, safe_modify.
    assert (Hf2 : ready (set_pending (drop (i + 4) (pending f1)) (set_header_rewrite h f1)))
      by by apply (ready_drain _ (set_header_rewrite h f1)), ready_rewrite.
    destruct Hf2 as ([] & Hbody & _). by split.
Qed.

Lemma flush_loop_safe fuel f out :
  ready f → (length (pending f) ≤ fuel)%nat → stm_safe inv_of (flush_loop fuel) (f, out).
Proof.
  revert f out. induction fuel as [|fuel IH]; intros f out Hf Hfuel; cbn [flush_loop]; apply safe_get; cbn [fst];
    destruct (header_boundary (pending f)) as [i|] eqn:Hb; try by destruct Hf.
  { apply boundary_bound in Hb. lia. }
  pose proof (flush_request_safe i f out Hf Hb) as Hreq. destruct Hf as (Hinv & Hbody & Hup).
  unfold stm_safe, mbind, stm_bind in *. destruct (flush_request i (f, out)) as [[[]|e| |] [f1 out1]] eqn:Hrun; try done.
  apply flush_request_shrinks in Hrun as (Hb1 & Hu1 & Hlen); [|done..]. apply IH; [done|lia].
Qed.

Lemma flush_safe f out : ready f → stm_safe inv_of flush_pending_requests (f, out).
Proof. intros Hf. unfold flush_pending_requests. apply safe_get. by apply flush_loop_safe. Qed.

Lemma ensure_limit_safe f out : total_inv f → stm_safe inv_of ensure_limit (f, out).
Proof.
  intros Hf. unfold ensure_limit. apply safe_get. unfold stm_safe, stm_lift, ensure_pending_limit. by repeat case_match; simplify_eq.
Qed.

Lemma flush_and_limit_safe f out : ready f → stm_safe inv_of (flush_pending_requests ≫= λ _, ensure_limit) (f, out).
Proof.
  intros Hf. eapply stm_safe_bind; [by apply flush_safe|]. intros [] [f1 out1] Hf1. by apply ensure_limit_safe.
Qed.

Lemma raw_safe input f out : total_inv f → stm_safe inv_of (raw_process input) (f, out).
Proof.
  intros Hf. unfold stm_safe, raw_process. cbn [fst snd]. pose proof (process_safe input out) as Hp.
  by destruct (process input out).
Qed.

(** *** What the guest sends *)
Lemma push_loop_safe fuel input f out :
  total_inv f → upgrade_pending f = false → are_bytes input → (length input ≤ fuel)%nat →
  stm_safe inv_of (push_loop fuel input) (f, out).
Proof.
  revert input f out. induction fuel as [|fuel IH]; intros [|b input] f out Hf Hup Hb Hfuel; try done; [simpl in Hfuel; lia|].
  cbn [push_loop]. apply safe_get. cbn [fst]. set (all := b :: input) in *. destruct (body f) as [|n|parser|] eqn:Hbody.
  - apply safe_modify. apply flush_and_limit_safe. destruct Hf. split; [|done]. split; try done. simpl. by apply Forall_app.
  - pose proof (ti_fixed f Hf n Hbody) as Hn. cbv zeta. apply safe_append, safe_modify.
    set (k := take_len n (length all)). assert (Hk : (0 < k ≤ length all)%nat ∧ Z.of_nat k <= n) by (unfold k, take_len; simpl length; lia).
    apply IH; [|done|by apply Forall_drop|rewrite length_drop; lia]. destruct Hf. split; simpl; try done; [intros; congruence|].
    intros m. destruct (Z.eqb_spec (n - Z.of_nat k) 0); [done|]. intros [= <-]. lia.
  - pose proof (consume_bounds all parser) as Hc. destruct (consume all parser) as [[[k c]|e| |] parser']; try done.
    destruct Hc as (Hk & _ & Hpos). apply safe_append, safe_modify.
    assert (Hf2 : total_inv (set_body (if c : bool then Headers else Chunked parser') f)).
    { destruct Hf. split; simpl; try done; [intros; congruence|]. by destruct c. }
    destruct (Nat.eqb_spec k 0); [done|]. apply IH; [done|done|by apply Forall_drop|rewrite length_drop; specialize (Hpos ltac:(done)); lia].
  - by apply raw_safe.
Qed.

Lemma push_safe input f : total_inv f → are_bytes input →
  match push input f with (Ret _, f', _) => total_inv f' | (Fail _, _, _) => True | _ => False end.
Proof.
  intros Hf Hb. unfold push, with_output. assert (Hcall : stm_safe inv_of (push_call input) (f, [])).
  { unfold push_call. apply safe_get. cbn [fst]. destruct (upgrade_pending f) eqn:Hup.
    - apply safe_modify. assert (Hf1 : total_inv (set_pending (pending f ++ input) f)) by (apply total_set_pending; [apply Forall_app; split; [apply Hf|done]|done]).
      eapply stm_safe_bind; [by apply ensure_limit_safe|]. by intros.
    - eapply stm_safe_bind; [by apply push_loop_safe|]. by intros. }
  unfold stm_safe in Hcall. by destruct (push_call input (f, [])) as [[[]|e| |] [f' out]].
Qed.

(** *** What the server sends *)
Lemma observe_server_safe input f : total_inv f →
  match observe_server_plaintext input f with (Ret _, f', _) => total_inv f' | (Fail _, _, _) => True | _ => False end.
Proof.
  intros Hf. unfold observe_server_plaintext, with_output. assert (Hcall : stm_safe inv_of (server_plaintext_call input) (f, [])).
  { unfold server_plaintext_call. apply safe_get. cbn [fst]. destruct (upgrade_pending f) eqn:Hup; [|done]. cbn [negb]. cbv zeta.
    pose proof (ti_upgrade f Hf Hup) as Hbody. apply safe_modify.
    set (f1 := set_server_pending (server_pending f ++ input) f). assert (Hf1 : total_inv f1) by by destruct Hf.
    assert (Hready : ready (set_server_pending [] (set_upgrade_pending false f1))) by (destruct Hf1; by split).
    destruct (_ <? _); [by apply safe_modify; destruct Hready|]. destruct (header_boundary _); [|done]. apply safe_modify.
    eapply (stm_safe_bind inv_of); [|by intros]. destruct (is_switching_protocols_response _).
    - apply safe_modify. set (f2 := set_body RawBody _). assert (Hf2 : total_inv f2) by by apply ready_body.
      eapply stm_safe_bind; [by apply raw_safe|]. intros [] [f3 out3] Hf3. unfold inv_of in Hf3. cbn [fst] in Hf3.
      change (total_inv (set_pending [] f3)). by apply total_set_pending; [constructor|].
    - by apply flush_and_limit_safe. }
  unfold stm_safe in Hcall. by destruct (server_plaintext_call input (f, [])) as [[[]|e| |] [f' out]].
Qed.

(** *** How the responses are followed *)
Lemma response_body_returns request headers :
  match response_body request headers with Ret _ | Fail _ => True | _ => False end.
Proof.
  unfold response_body. assert (Hs : match response_status headers with Ret _ | Fail _ => True | _ => False end).
  { unfold response_status. by repeat case_match; simplify_eq. }
  destruct (response_status headers); try done. cbn [mbind outcome_bind]. by repeat case_match.
Qed.

Lemma flush_responses_safe fuel t : rstate t = RespHeaders → (length (rpending t) ≤ fuel)%nat →
  stm_safe (λ _ t', fixed_positive t') (flush_responses_loop fuel) t.
Proof.
  unfold stm_safe. destruct t as [p rs st]. cbn [rstate rpending]. intros ->. revert p rs. induction fuel as [|fuel IH]; intros p rs Hfuel.
  { rewrite flush_none; [done|]. destruct p; [done|simpl in Hfuel; lia]. }
  destruct (header_boundary p) as [i|] eqn:Hb; [|by rewrite flush_none].
  rewrite (flush_responses_unfold _ _ _ _ Hb). pose proof (boundary_bound _ _ Hb).
  pose proof (response_body_returns (match rs with [] => Other | r :: _ => r end) (take (i + 4) p)) as Hret.
  destruct (response_body _ _) as [[bd c]|e| |]; try done. cbv zeta.
  assert (Hlen : (length (drop (i + 4) p) ≤ fuel)%nat) by (rewrite length_drop; lia).
  destruct bd as [|len| | |]; try done.
  - by apply IH.
  - destruct (Z.ltb_spec (Z.of_nat (take_len len (length (drop (i + 4) p)))) len).
    + intros n [= <-]. lia.
    + apply IH. rewrite length_drop. lia.
  - pose proof (consume_bounds (drop (i + 4) p) chunked_parser_default) as Hc.
    destruct (consume _ _) as [[[k []]|e| |] parser]; try done. apply IH. rewrite length_drop. lia.
Qed.

Lemma observe_loop_safe fuel input t :
  fixed_positive t → (length input ≤ fuel)%nat → stm_safe (λ _ t', fixed_positive t') (observe_loop fuel input) t.
Proof.
  unfold stm_safe. revert input t. induction fuel as [|fuel IH]; intros [|b input] t Ht Hfuel; try done; [simpl in Hfuel; lia|].
  set (all := b :: input) in *. assert (Hall : (0 < length all)%nat) by (simpl; lia). cbn [observe_loop].
  change (match all with [] => (Ret tt, t) | _ => ?x end) with x. destruct (rstate t) as [|n|parser| |] eqn:Hst; try done.
  - unfold mbind, stm_bind, flush_pending_responses. set (t1 := set_rpending _ t).
    pose proof (flush_responses_safe (length (rpending t1)) t1 Hst ltac:(done)) as Hf. unfold stm_safe in Hf.
    destruct (flush_responses_loop _ _) as [[[]|e| |] t2]; try done. unfold stm_get, stm_lift, ensure_response_pending_limit.
    by repeat case_match; simplify_eq.
  - pose proof (Ht n Hst) as Hn. cbv zeta. assert (Hk : (0 < take_len n (length all))%nat ∧ Z.of_nat (take_len n (length all)) <= n) by (clear -Hn Hall; unfold take_len; lia).
    apply IH; [|rewrite length_drop; lia]. intros m. cbn [rstate set_rstate]. destruct (Z.eqb_spec (n - Z.of_nat (take_len n (length all))) 0) as [Hz|Hz]; [done|].
    intros Hm. assert (n - Z.of_nat (take_len n (length all)) = m) by congruence. lia.
  - pose proof (consume_bounds all parser) as Hc. destruct (consume all parser) as [[[k c]|e| |] parser']; try done.
    destruct Hc as (Hk & _ & Hpos). specialize (Hpos ltac:(done)). cbv zeta. destruct (Nat.eqb_spec k 0); [lia|].
    apply IH; [|rewrite length_drop; lia]. intros m. by destruct c.
Qed.

(** ** Every call *)

(** A call gives a result or an error. *)
Definition call_returns {E A} (r : outcome E A) : Prop := match r with Ret _ | Fail _ => True | _ => False end.

(** What the guest sends is bytes; what the server sends is only read. *)
Definition byte_event (e : HttpSecrecy.event) : Prop := match e with FromGuest input => are_bytes input | _ => True end.

Lemma event_safe e f : total_inv f → byte_event e →
  match filter_event e f with (Ret _, f', _) => total_inv f' | (Fail _, _, _) => True | _ => False end.
Proof.
  intros Hf He. destruct e as [input|input|input]; cbn [filter_event]; [by apply push_safe|by apply observe_server_safe|].
  unfold observe_response, observe. pose proof (observe_loop_safe (length input) input (response_tracker f) (ti_tracker f Hf) ltac:(done)) as Ho.
  unfold stm_safe in Ho. destruct (observe_loop _ _ _) as [[a|e| |] t]; try done. by destruct Hf.
Qed.

Lemma trace_returns es f : total_inv f → Forall byte_event es → Forall (λ r, call_returns r.1) (filter_trace es f).
Proof.
  intros Hf Hes. revert f Hf. induction Hes as [|e es He _ IH]; intros f Hf; [constructor|]. cbn [filter_trace].
  pose proof (event_safe e f Hf He) as Hsafe. destruct (filter_event e f) as [[[a|er| |] f'] out]; try done; (constructor; [done|]); [by apply IH|constructor].
Qed.
End substitution.

(** The filter of a connection *)
Lemma total_new ss host : total_inv host ss (http1_filter_new ss host).
Proof. split; try done. constructor. Qed.

(** C30: every call of a connection's filter returns: with secrets whose values
    leave room for the length of a rewritten body, neither what the guest sends
    nor what the server sends, in whatever segments, makes a call panic or loop -
    each gives a result or an error - so the loop of the proxy is never held up. *)
Theorem filter_calls_return (ss : RuntimeSecrets) (host : str) (events : list HttpSecrecy.event) :
  wf_secrets ss → room ss → Forall byte_event events →
  Forall (λ r, call_returns r.1) (filter_trace events (http1_filter_new ss host)).
Proof. intros Hwf Hroom Hes. by apply (trace_returns host ss), Hes; [..|apply total_new]. Qed.

(** A request in two segments, a response and an answer that is none: three calls
    give a result, the last one an error. *)
Lemma filter_calls_return_witness :
  let host := bytes_of "api.example.com" in
  let head := bytes_of "POST / HTTP/1.1" ++ crlf ++ bytes_of "Host: api.example.com" ++ crlf ++
              bytes_of "Content-Length: 20" ++ crlfcrlf in
  let events := [FromGuest head; FromGuest (bytes_of "AGENTDP_SECRET_TOKEN");
                 ServerResponse (bytes_of "HTTP/1.1 204 No Content" ++ crlfcrlf);
                 ServerResponse (bytes_of "what" ++ crlfcrlf)] in
  let trace := filter_trace events (http1_filter_new example_secrets host) in
  length trace = 4%nat ∧ Forall (λ r, call_returns r.1) trace.
Proof.
  intros host head events trace. split; [vm_compute; reflexivity|]. apply (filter_calls_return example_secrets host events).
  - constructor; [|constructor]. split_and!; [done|..]; apply (bool_decide_unpack (Forall _ _)); by vm_compute.
  - vm_compute. reflexivity.
  - do 2 (constructor; [apply (bool_decide_unpack (Forall _ _)); by vm_compute|]). by repeat constructor.
Defined.
