(* ===== verification/TlsSession.v ===== *)
(** * Sessions of TLS, and the side of the guest
      (GuestTlsSide and feed_guest_tls of src/libs/agentdp-network/src/egress/tcp/tls.rs)

    A TLS session is an interface: what agentdp-crypto makes of rustls.  Its
    plaintext and ciphertext pass through buffers of the network, a bounded part
    at a time. *)
From S2P Require Import Prelude Fields Io Limits Buffers Drive DriveCorrect.
Local Open Scope nat_scope.

(** [io::Error] of a session or a socket, up to the kinds the proxy tells apart *)
Inductive tls_error := UnexpectedEof | BrokenPipe | ClosedByPeer | TlsError (code : Z).

Inductive TlsCiphertextRead := CiphertextRead (n : nat) | CiphertextBlocked | CiphertextClosed.
Inductive TlsCiphertextDrain := DrainProgress (bs : bytes) | DrainBlocked | DrainEmpty.
Inductive TlsPlaintextRead := PlaintextRead (bs : bytes) | PlaintextBlocked | PlaintextClosed.
Inductive TlsPlaintextWrite := PlaintextAccepted (n : nat) | BlockedByPendingCiphertext.

(** ** The session with the guest ([TlsServerSession])

    [plaintext_given] is not in the code: all that [read_plaintext_some] ever gave. *)
Class GuestTls (G : Type) := {
  plaintext_given : G → bytes;
  is_handshaking : G → bool;
  wants_write : G → bool;
  accept_ciphertext_bounded : bytes → stm G tls_error TlsCiphertextRead;
  (** at most so many bytes are drained *)
  drain_ciphertext : nat → stm G tls_error TlsCiphertextDrain;
  read_plaintext_some : nat → stm G tls_error TlsPlaintextRead;
  write_plaintext_some : bytes → stm G tls_error TlsPlaintextWrite;
  queue_close_notify : G → G;
}.

Definition read_out (o : outcome tls_error TlsPlaintextRead) : bytes :=
  match o with Ret (PlaintextRead bs) => bs | _ => [] end.

(** What a session does with lengths, that its calls return, and that only reading gives plaintext *)
Definition returns {E A} (o : outcome E A) : Prop := match o with Ret _ | Fail _ => True | _ => False end.
Class GuestTlsLaws (G : Type) `{GuestTls G} := {
  accept_returns bs g : returns (fst (accept_ciphertext_bounded bs g));
  accept_progress bs g n g' : bs ≠ [] → accept_ciphertext_bounded bs g = (Ret (CiphertextRead n), g') → 0 < n ∧ n ≤ length bs;
  drain_returns n g : returns (fst (drain_ciphertext n g));
  read_returns n g : returns (fst (read_plaintext_some n g));
  read_len n g bs g' : read_plaintext_some n g = (Ret (PlaintextRead bs), g') → 0 < length bs ∧ length bs ≤ n;
  read_bytes n g bs g' : read_plaintext_some n g = (Ret (PlaintextRead bs), g') → are_bytes bs;
  write_returns bs g : returns (fst (write_plaintext_some bs g));
  write_len bs g n g' : write_plaintext_some bs g = (Ret (PlaintextAccepted n), g') → n ≤ length bs;
  accept_given bs g : plaintext_given (accept_ciphertext_bounded bs g).2 = plaintext_given g;
  drain_given n g : plaintext_given (drain_ciphertext n g).2 = plaintext_given g;
  read_given n g : plaintext_given (read_plaintext_some n g).2 = plaintext_given g ++ read_out (read_plaintext_some n g).1;
  write_given bs g : plaintext_given (write_plaintext_some bs g).2 = plaintext_given g;
  notify_given g : plaintext_given (queue_close_notify g) = plaintext_given g;
}.

(** ** Spent turns

    Once a turn refuses an operation on bytes it refuses all that follow: nothing gives budget back. *)
Definition spent (d : DriveTurn) : bool := negb (can_continue (budget d)).
Definition budget_le (d' d : DriveTurn) : Prop :=
  events (budget d') ≤ events (budget d) ∧ steps (budget d') ≤ steps (budget d) ∧ budget_bytes (budget d') ≤ budget_bytes (budget d).
#[export] Instance budget_le_preorder : PreOrder budget_le.
Proof. split; [by intros d; split_and!|]. intros d1 d2 d3 (? & ? & ?) (? & ? & ?). split_and!; lia. Qed.

Lemma spent_le d d' : budget_le d' d → spent d = true → spent d' = true.
Proof.
  unfold spent. intros (He & Hs & Hb). rewrite !negb_true_iff. intros Hc.
  destruct (can_continue (budget d')) eqn:Hc'; [|done]. apply can_continue_spec in Hc' as (? & ? & ?).
  assert (can_continue (budget d) = true) by (apply can_continue_spec; lia). congruence.
Qed.

Lemma step_budget_le b d d' : step_or_exhausted d = (b, d') → budget_le d' d ∧ (b = false → spent d' = true).
Proof.
  unfold step_or_exhausted, or_exhausted, spent. destruct (can_continue (budget d)) eqn:Hc; intros [= <- <-].
  - split; [|done]. split_and!; simpl; lia.
  - split; [by split_and!|]. intros _. simpl. by rewrite Hc.
Qed.

Lemma spend_budget_le n d : budget_le (spend_bytes n d) d.
Proof. unfold spend_bytes. destruct (can_continue _); split_and!; simpl; lia. Qed.

Lemma chunk_spec available d r d' :
  protocol_chunk available d = (r, d') →
  budget_le d' d ∧ match r with
  | Some chunk => 0 < chunk ∧ chunk ≤ available ∧ spent d = false
  | None => available = 0 ∨ spent d' = true
  end.
Proof.
  unfold protocol_chunk. destruct (step_or_exhausted d) as [ok d1] eqn:Hstep.
  pose proof (step_budget_le _ _ _ Hstep) as [Hle Hspent]. destruct ok; cbn [negb].
  - destruct (Nat.eqb_spec (available `min` remaining_bytes d1) 0) as [Hz|Hz]; intros [= <- <-].
    + split; [done|]. destruct (Nat.eq_dec available 0); [by left|right].
      unfold step_or_exhausted, or_exhausted in Hstep. destruct (can_continue (budget d)) eqn:Hc; [|done]. injection Hstep as <-.
      apply can_continue_spec in Hc. unfold remaining_bytes in Hz. simpl in Hz. lia.
    + split; [done|]. split; [lia|]. split; [lia|]. unfold step_or_exhausted, or_exhausted in Hstep. unfold spent.
      by destruct (can_continue (budget d)).
  - intros [= <- <-]. split; [done|]. right. by apply Hspent.
Qed.

Lemma state_changed_le d : budget_le (state_changed d) d.
Proof. by split_and!. Qed.
Lemma block_on_le w d : budget_le (block_on w d) d.
Proof. by split_and!. Qed.

(** One operation of a session within the turn *)
Lemma protocol_op_spec {S E T} available (op : nat → stm S E (DriveProtocolOp T)) d s r d' s' :
  drive_protocol_op available op (d, s) = (r, (d', s')) →
  budget_le d' d ∧
  ((r = Ret ProtocolBudget ∧ s' = s ∧ (available = 0 ∨ spent d' = true)) ∨
   ∃ chunk, 0 < chunk ∧ chunk ≤ available ∧ spent d = false ∧
     match op chunk s with
     | (Ret (OpProgress _ v), s1) | (Ret (OpNoProgress v), s1) => r = Ret (ProtocolComplete v) ∧ s' = s1
     | (Fail e, s1) => r = Fail e ∧ s' = s1
     | (Panic, s1) => r = Panic ∧ s' = s1
     | (Timeout, s1) => r = Timeout ∧ s' = s1
     end).
Proof.
  unfold drive_protocol_op. destruct (protocol_chunk available d) as [chunk d1] eqn:Hchunk.
  apply chunk_spec in Hchunk as [Hle Hc]. destruct chunk as [chunk|].
  - destruct Hc as (H0 & H1 & H2). destruct (op chunk s) as [[[n v|v]|e| |] s1] eqn:Hop; intros [= <- <- <-].
    1: split; [destruct (0 <? n); [|done]; etrans; [apply state_changed_le|]; etrans; [apply spend_budget_le|done]|].
    all: try (split; [done|]); right; exists chunk; rewrite Hop; by split_and!.
  - intros [= <- <- <-]. split; [done|]. by left.
Qed.

(** ** Towards the guest *)
Inductive GuestTlsOutputWait := WaitLocalBuffer | WaitProtocolOutput.
Definition record_wait (w : GuestTlsOutputWait) (d : DriveTurn) : DriveTurn :=
  match w with
  | WaitLocalBuffer => block_on LOCAL_BUFFER_CAPACITY d
  | WaitProtocolOutput => wait_for_local_buffer_capacity_with_continuation d
  end.

Definition GUEST_TLS_FEED_CHUNK_BYTES : nat := Z.to_nat 4096.

Section guest.
Context {G : Type} `{GuestTls G} (limits : NetworkLimits) (grown : nat → nat → nat).

(** [GuestTlsSide], with the turn and the pool its operations borrow *)
Record GuestTlsSide := { side_turn : DriveTurn; side_pool : BufferPool; connection : G; side_output : ByteBuf }.
#[export] Instance GuestTlsSide_eta : Eta GuestTlsSide := λ s,
  {| side_turn := side_turn s; side_pool := side_pool s; connection := connection s; side_output := side_output s |}.

Inductive FlushTls := FlushBytes (b : ByteBuf) | FlushBlocked | FlushBudget | FlushEmpty.

(** [BoundedVecWriter]: a vector is not grown. *)
Definition vec_room (b : ByteBuf) : nat := capacity (buf_bytes b) - buf_len b.

(** The closure of [flush_ciphertext] *)
Definition drain_step (limit : nat) : stm (G * ByteBuf) tls_error (DriveProtocolOp unit) := λ '(g, out),
  match drain_ciphertext (limit `min` vec_room out) g with
  | (Ret (DrainProgress bs), g) => (Ret (OpProgress (length bs) tt), (g, set_bytes grown (as_slice out ++ bs) out))
  | (Ret _, g) => (Ret (OpNoProgress tt), (g, out))
  | (Fail e, g) => (Fail e, (g, out)) | (Panic, g) => (Panic, (g, out)) | (Timeout, g) => (Timeout, (g, out))
  end.

(** The output buffer is cut to what the turn and the pool allow. *)
Definition take_ciphertext : stm GuestTlsSide tls_error FlushTls := λ s,
  match take_protocol_output limits grown (tcp_byte_capacity limits) (side_turn s, side_pool s, side_output s) with
  | (r, (d, p, out)) =>
    let s := {| side_turn := d; side_pool := p; connection := connection s; side_output := out |} in
    match r with
    | Ret ProtocolBudget => (Ret FlushBudget, s)
    | Ret (ProtocolComplete (inl (Some bs))) => (Ret (FlushBytes bs), s)
    | Ret (ProtocolComplete (inl None)) => (Ret FlushEmpty, s)
    | Ret (ProtocolComplete (inr _)) => (Ret FlushBlocked, s)
    | Fail _ | Panic => (Panic, s)
    | Timeout => (Timeout, s)
    end
  end.

Definition flush_ciphertext : stm GuestTlsSide tls_error FlushTls := λ s,
  if (buf_len (side_output s) =? 0) && wants_write (connection s) then
    match drive_protocol_op (tcp_byte_capacity limits) drain_step (side_turn s, (connection s, side_output s)) with
    | (r, (d, (g, out))) =>
      let s := {| side_turn := d; side_pool := side_pool s; connection := g; side_output := out |} in
      match r with
      | Ret (ProtocolComplete _) => take_ciphertext s
      | Ret ProtocolBudget => (Ret FlushBudget, s)
      | Fail e => (Fail e, s) | Panic => (Panic, s) | Timeout => (Timeout, s)
      end
    end
  else take_ciphertext s.

(** What a poll of a TLS proxy gives; [PollError] and [PollClosed] are its terminal events. *)
Inductive TlsProxyPoll (Bypassed : Type) :=
| PollBytes (b : ByteBuf)
| PollError (e : tls_error + bytes)
| PollClosed
| PollPending
| PollBypass (b : Bypassed).
#[global] Arguments PollBytes {Bypassed} _.
#[global] Arguments PollError {Bypassed} _.
#[global] Arguments PollClosed {Bypassed}.
#[global] Arguments PollPending {Bypassed}.
#[global] Arguments PollBypass {Bypassed} _.

Definition poll_ciphertext_output {B} (w : GuestTlsOutputWait) : stm GuestTlsSide Empty_set (option (TlsProxyPoll B)) := λ s,
  match flush_ciphertext s with
  | (Ret (FlushBytes bs), s) => (Ret (Some (PollBytes bs)), s)
  | (Ret FlushBlocked, s) => (Ret (Some PollPending), s <| side_turn ::= record_wait w |>)
  | (Ret FlushBudget, s) => (Ret (Some PollPending), s)
  | (Ret FlushEmpty, s) => (Ret None, s)
  | (Fail e, s) => (Ret (Some (PollError (inl e))), s)
  | (Panic, s) => (Panic, s)
  | (Timeout, s) => (Timeout, s)
  end.

(** [GuestTlsSide::write_plaintext] *)
Definition side_write_plaintext (bs : bytes) : stm (G * ByteBuf) tls_error TlsPlaintextWrite := λ '(g, out),
  if wants_write g || negb (buf_len out =? 0) then (Ret BlockedByPendingCiphertext, (g, out))
  else let (r, g) := write_plaintext_some bs g in (r, (g, out)).

(** ** From the guest *)

(** [feed_guest_tls]: each round takes at least one byte *)
Fixpoint feed_guest_tls (fuel : nat) (bs : bytes) : stm G tls_error unit := λ g,
  match bs with
  | [] => (Ret tt, g)
  | _ =>
    match fuel with
    | O => (Timeout, g)
    | S fuel =>
      match accept_ciphertext_bounded bs g with
      | (Ret (CiphertextRead n), g) => feed_guest_tls fuel (drop n bs) g
      | (Ret _, g) => (Fail UnexpectedEof, g)
      | (Fail e, g) => (Fail e, g) | (Panic, g) => (Panic, g) | (Timeout, g) => (Timeout, g)
      end
    end
  end.

Definition feed_guest_tls_step (bs : bytes) : stm (DriveTurn * G) tls_error (DriveProtocolPoll nat) :=
  drive_protocol_op (length bs `min` GUEST_TLS_FEED_CHUNK_BYTES)
    (λ feed_len, feed_guest_tls feed_len (take feed_len bs);; mret (OpProgress feed_len feed_len)).
End guest.
Arguments FlushTls : clear implicits.
