(* ===== verification/TlsRelay.v ===== *)
(** * The relay of an intercepted TLS connection
      (TlsHttp1Proxy of src/libs/agentdp-network/src/egress/tcp/tls.rs)

    Between the guest's session and the server's: plaintext of the guest goes
    through the HTTP filter of its host, the filter's output is cut into buffers
    and written to the server's session; plaintext of the server is shown to the
    filter and goes back to the guest.  The server's side is an interface. *)
From S2P Require Import Prelude Fields Text Policy Gateway Io Raw HttpHead Http1 IoSlot Limits Buffers Drive DriveCorrect TlsSession.
Local Open Scope nat_scope.

(** ** The session with the server ([TlsUpstream]) *)
Inductive TlsPlaintextDrive := DrivePlaintext (bs : bytes) | DriveEof | DriveBlocked | DriveBudget.

Class Upstream (U : Type) := {
  (** the plaintext it has accepted, and the plaintext it gave *)
  up_accepted : U → bytes;
  up_given : U → bytes;
  (** the server and the name it is verified by *)
  up_peer : U → SocketAddr * str;
  up_write_finished : U → bool;
  up_io : U → IoSlotState;
  up_wants_write : U → bool;
  up_has_reactor_write_work : U → bool;
  up_mark_reactor_ready : bool → bool → U → U;
  up_mark_connect_ready : U → U;
  up_write_pending_plaintext : stm (DriveTurn * BufferPool * WriteQueue * U) tls_error unit;
  up_finish_write : stm (DriveTurn * U) tls_error unit;
  up_read_plaintext : nat → bool → stm (DriveTurn * U) tls_error TlsPlaintextDrive;
  up_park_read : bool → stm U tls_error unit;
}.

Inductive RelayStep := StepProgress | StepBlocked | StepBudget | StepProgressBlocked | StepProgressClosed | StepClosed.
Inductive QueueStep := QueueProgress | QueueEmpty | QueueBlocked | QueueBudget | QueueProgressBlocked.
#[export] Instance DriveProgress_eq_dec : EqDecision DriveProgress.
Proof. solve_decision. Defined.
Definition queue_made_progress (q : QueueStep) : bool := match q with QueueProgress | QueueProgressBlocked => true | _ => false end.
Definition queue_blocked (q : QueueStep) : bool := match q with QueueBlocked | QueueProgressBlocked => true | _ => false end.

#[export] Instance OutputState_eta : Eta OutputState := λ s,
  {| out_queue := out_queue s; output := output s; output_offset := output_offset s |}.

Section relay.
Context {G U : Type} `{GuestTls G} `{Upstream U} (limits : NetworkLimits) (grown : nat → nat → nat).

(** [TlsHttp1Proxy]; [upstream] groups [server_pending], [substitute_buf] and [server_output_offset].
    [server_buf] is the buffer of what the server sent. *)
Record TlsHttp1Proxy := {
  guest_tls : G;
  server_tls : U;
  filter : Http1Filter;
  tls_out : ByteBuf;
  server_buf : option ByteBuf;
  server_buf_pending_offset : nat;
  server_buf_pending_len : nat;
  plaintext_buf : ByteBuf;
  upstream : OutputState;
  server_read_pending : bool;
  guest_tls_closed : bool;
  guest_close_notify_queued : bool;
}.
#[export] Instance TlsHttp1Proxy_eta : Eta TlsHttp1Proxy := λ p,
  {| guest_tls := guest_tls p; server_tls := server_tls p; filter := filter p; tls_out := tls_out p; server_buf := server_buf p;
     server_buf_pending_offset := server_buf_pending_offset p; server_buf_pending_len := server_buf_pending_len p;
     plaintext_buf := plaintext_buf p; upstream := upstream p; server_read_pending := server_read_pending p;
     guest_tls_closed := guest_tls_closed p; guest_close_notify_queued := guest_close_notify_queued p |}.

(** What a call borrows besides: the turn, the pool and the ciphertext of the guest that waits *)
Record Relay := { turn : DriveTurn; pool : BufferPool; pending : WriteQueue; proxy : TlsHttp1Proxy }.
#[export] Instance Relay_eta : Eta Relay := λ r, {| turn := turn r; pool := pool r; pending := pending r; proxy := proxy r |}.

Abbreviation Poll := (TlsProxyPoll Empty_set).

(** ** What is left to do ([has_local_work], [has_reactor_write_work]) *)
Definition relay_has_local_work (guest_can_send guest_write_finished pending_empty : bool) (p : TlsHttp1Proxy) : bool :=
  let guest_tls_output := wants_write (guest_tls p) || negb (buf_len (tls_out p) =? 0) in
  let guest_plaintext_output := server_buf_pending_offset p <? server_buf_pending_len p in
  let upstream_finish := (guest_write_finished || guest_tls_closed p) && pending_empty && negb (up_write_finished (server_tls p)) in
  let upstream_needs_write := negb (queue_is_empty (out_queue (upstream p))) || upstream_finish in
  let io := up_io (server_tls p) in
  (guest_can_send && (guest_tls_output || guest_plaintext_output || server_read_pending p || guest_close_notify_queued p))
  || negb (buf_len (output (upstream p)) =? 0)
  || (upstream_needs_write && (negb (watches_write io) || can_write io)).

Definition relay_has_reactor_write_work (guest_write_finished pending_empty : bool) (p : TlsHttp1Proxy) : bool :=
  negb (queue_is_empty (out_queue (upstream p))) || up_wants_write (server_tls p)
  || ((guest_write_finished || guest_tls_closed p) && pending_empty && negb (up_write_finished (server_tls p))).

(** ** Output for the server *)

(** [queue_server_plaintext]: every round but the last queues a byte *)
Fixpoint queue_loop (fuel : nat) (made : bool) (s : DriveTurn * BufferPool * OutputState)
    : outcome unit QueueStep * (DriveTurn * BufferPool * OutputState) :=
  match queue_protocol_output limits grown (tls_relay_buffer_capacity limits) s with
  | (Ret ProtocolBudget, s) => (Ret (if made then QueueProgress else QueueBudget), s)
  | (Ret (ProtocolComplete (inl OutputBytes)), s) =>
    match fuel with O => (Timeout, s) | S fuel => queue_loop fuel true s end
  | (Ret (ProtocolComplete (inl OutputEmpty)), s) => (Ret (if made then QueueProgress else QueueEmpty), s)
  | (Ret (ProtocolComplete (inr _)), s) => (Ret (if made then QueueProgressBlocked else QueueBlocked), s)
  | (Fail e, s) => (Fail e, s) | (Panic, s) => (Panic, s) | (Timeout, s) => (Timeout, s)
  end.

Definition queue_server_plaintext {E} : stm Relay E QueueStep := λ r,
  let out := upstream (proxy r) in
  match queue_loop (buf_len (output out)) false (turn r, pool r, out) with
  | (o, (d, p, out)) =>
    let r := r <| turn := d |> <| pool := p |> <| proxy; upstream := out |> in
    match o with Ret q => (Ret q, r) | Fail _ | Panic => (Panic, r) | Timeout => (Timeout, r) end
  end.

(** ** Plaintext of the guest *)

(** One call of the filter on [output], which it clears first *)
Definition filter_call (m : Http1Filter → outcome HttpError bool * Http1Filter * bytes) : stm Relay tls_error bool := λ r,
  let '(o, f, out) := m (filter (proxy r)) in
  let r := r <| proxy; filter := f |> <| proxy; upstream; output ::= set_bytes grown out |> in
  match o with Ret b => (Ret b, r) | Fail _ => (Fail (TlsError 0), r) | Panic => (Panic, r) | Timeout => (Timeout, r) end.

(** The closure that reads from the session: the bytes stay in the plaintext buffer *)
Definition read_guest_step (limit : nat) : stm (G * ByteBuf) tls_error (DriveProtocolOp TlsPlaintextRead) := λ '(g, buffer),
  match read_plaintext_some limit g with
  | (Ret (PlaintextRead bs), g) =>
    (Ret (OpProgress (length bs) (PlaintextRead bs)), (g, set_bytes grown (bs ++ replicate (limit - length bs) 0%Z) buffer))
  | (Ret v, g) => (Ret (OpNoProgress v), (g, set_bytes grown (replicate limit 0%Z) buffer))
  | (Fail e, g) => (Fail e, (g, buffer)) | (Panic, g) => (Panic, (g, buffer)) | (Timeout, g) => (Timeout, (g, buffer))
  end.

Definition read_guest_plaintext : stm Relay tls_error (DriveProtocolPoll TlsPlaintextRead) := λ r,
  match drive_protocol_op (tls_relay_buffer_capacity limits) read_guest_step (turn r, (guest_tls (proxy r), plaintext_buf (proxy r))) with
  | (o, (d, (g, buffer))) => (o, r <| turn := d |> <| proxy; guest_tls := g |> <| proxy; plaintext_buf := buffer |>)
  end.

(** [forward_plaintext_to_server]: every round but the last spends a step of the turn *)
Fixpoint forward_loop (fuel : nat) (made : bool) : stm Relay tls_error RelayStep :=
  read ← read_guest_plaintext;
  match read with
  | ProtocolBudget => mret (if made then StepProgress else StepBlocked)
  | ProtocolComplete PlaintextBlocked => mret (if made then StepProgress else StepBlocked)
  | ProtocolComplete PlaintextClosed => mret (if made then StepProgressClosed else StepClosed)
  | ProtocolComplete (PlaintextRead bs) =>
    has_output ← filter_call (push bs);
    let next := match fuel with O => stm_lift Timeout | S fuel => forward_loop fuel true end in
    if has_output : bool then
      step ← queue_server_plaintext;
      match step with
      | QueueProgress | QueueEmpty => next
      | QueueBudget => mret StepProgress
      | QueueBlocked => mret StepBlocked
      | QueueProgressBlocked => mret StepProgressBlocked
      end
    else next
  end.

Definition forward_plaintext_to_server : stm Relay tls_error RelayStep :=
  step ← queue_server_plaintext;
  match step with
  | QueueProgress | QueueEmpty => r ← stm_get; forward_loop (steps (budget (turn r))) false
  | QueueBudget => mret StepBudget
  | QueueBlocked => mret StepBlocked
  | QueueProgressBlocked => mret StepProgressBlocked
  end.

(** ** The two sides as the methods use them *)
Definition on_turn (f : DriveTurn → DriveTurn) {E} : stm Relay E unit := stm_modify (λ r, r <| turn ::= f |>).
Definition guest_output (w : GuestTlsOutputWait) : stm Relay Empty_set (option Poll) := λ r,
  match poll_ciphertext_output limits grown w
          {| side_turn := turn r; side_pool := pool r; connection := guest_tls (proxy r); side_output := tls_out (proxy r) |} with
  | (o, s) => (o, r <| turn := side_turn s |> <| pool := side_pool s |> <| proxy; guest_tls := connection s |> <| proxy; tls_out := side_output s |>)
  end.

Definition write_pending_server_plaintext : stm Relay tls_error unit := λ r,
  match up_write_pending_plaintext (turn r, pool r, out_queue (upstream (proxy r)), server_tls (proxy r)) with
  | (o, (d, p, q, u)) =>
    let out := upstream (proxy r) in
    let r := r <| turn := d |> <| pool := p |> <| proxy; server_tls := u |>
               <| proxy; upstream := {| out_queue := q; output := output out; output_offset := output_offset out |} |> in
    match o with
    | Ret _ => (Ret tt, if queue_is_empty q then r else r <| turn ::= block_on REACTOR_WRITE |>)
    | Fail e => (Fail e, r) | Panic => (Panic, r) | Timeout => (Timeout, r)
    end
  end.

Definition flush_server_plaintext : stm Relay tls_error bool :=
  write_pending_server_plaintext;;
  queue ← queue_server_plaintext;
  (if queue_made_progress queue then write_pending_server_plaintext else mret tt);;
  mret (queue_blocked queue).

Definition finish_server_write_if_needed (guest_write_finished pending_empty : bool) : stm Relay tls_error unit := λ r,
  let out := upstream (proxy r) in
  if negb guest_write_finished || negb pending_empty then (Ret tt, r)
  else if (output_offset out <? buf_len (output out)) || negb (queue_is_empty (out_queue out)) || up_write_finished (server_tls (proxy r))
  then (Ret tt, r)
  else match up_finish_write (turn r, server_tls (proxy r)) with
       | (o, (d, u)) => (o, r <| turn := d |> <| proxy; server_tls := u |>)
       end.

(** ** Plaintext of the server, for the guest *)
Definition write_guest_step (pending_bytes : bytes) (len : nat) : stm (G * ByteBuf) tls_error (DriveProtocolOp TlsPlaintextWrite) := λ s,
  match take len pending_bytes with
  | [] => (Ret (OpNoProgress (PlaintextAccepted 0)), s)
  | bs =>
    match side_write_plaintext bs s with
    | (Ret (PlaintextAccepted n), s) => (Ret (OpProgress n (PlaintextAccepted n)), s)
    | (Ret BlockedByPendingCiphertext, s) => (Ret (OpNoProgress BlockedByPendingCiphertext), s)
    | (Fail e, s) => (Fail e, s) | (Panic, s) => (Panic, s) | (Timeout, s) => (Timeout, s)
    end
  end.

Definition write_guest_plaintext (bs : bytes) : stm Relay tls_error (DriveProtocolPoll TlsPlaintextWrite) := λ r,
  match drive_protocol_op (length bs) (write_guest_step bs) (turn r, (guest_tls (proxy r), tls_out (proxy r))) with
  | (o, (d, (g, out))) => (o, r <| turn := d |> <| proxy; guest_tls := g |> <| proxy; tls_out := out |>)
  end.

Definition set_server_pending (offset_ len : nat) : stm Relay Empty_set unit :=
  stm_modify (λ r, r <| proxy; server_buf_pending_offset := offset_ |> <| proxy; server_buf_pending_len := len |>).

(** [drive.apply_state_change] *)
Definition state_change {E} (f : TlsHttp1Proxy → TlsHttp1Proxy) : stm Relay E unit := λ r,
  let '(_, d, p) := apply_state_change (λ p, (tt, f p)) (turn r) (proxy r) in (Ret tt, r <| turn := d |> <| proxy := p |>).

Definition error_text (s : bytes) : Poll := PollError (inr s).

(** [write_pending_guest_plaintext]: every round but the last spends a step of the turn *)
Fixpoint guest_plaintext_loop (fuel : nat) (made : bool) : stm Relay Empty_set (option Poll) :=
  r ← stm_get;
  match server_buf (proxy r) with
  | None => mret (Some (error_text (bytes_of "server plaintext pending without read buffer")))
  | Some buf =>
    let start := server_buf_pending_offset (proxy r) in
    let bs := take (server_buf_pending_len (proxy r) - start) (drop start (as_slice buf)) in
    written ← stm_try (write_guest_plaintext bs);
    match written with
    | inr e => mret (Some (PollError (inl e)))
    | inl ProtocolBudget => mret (Some PollPending)
    | inl (ProtocolComplete (PlaintextAccepted 0)) =>
      state_change (λ p, p <| server_buf_pending_offset := 0 |> <| server_buf_pending_len := 0 |>);;
      mret (Some PollPending)
    | inl (ProtocolComplete (PlaintextAccepted n)) =>
      set_server_pending (start + n) (server_buf_pending_len (proxy r));;
      poll ← guest_output WaitProtocolOutput;
      match poll with
      | Some poll => mret (Some poll)
      | None => match fuel with O => stm_lift Timeout | S fuel => guest_plaintext_loop fuel true end
      end
    | inl (ProtocolComplete BlockedByPendingCiphertext) =>
      poll ← guest_output WaitProtocolOutput;
      match poll with
      | Some poll => mret (Some poll)
      | None =>
        if negb made then
          mret (Some (error_text (bytes_of "guest TLS plaintext blocked by pending ciphertext, but no ciphertext was available")))
        else mret (Some PollPending)
      end
    end
  end.

Definition write_pending_guest_plaintext : stm Relay Empty_set (option Poll) :=
  r ← stm_get;
  if server_buf_pending_len (proxy r) <=? server_buf_pending_offset (proxy r) then set_server_pending 0 0;; mret None
  else guest_plaintext_loop (steps (budget (turn r))) false.

(** ** Ciphertext of the guest *)
Definition drop_write (w : PendingWrite) : stm Relay Empty_set unit := λ r,
  match byte_recycle limits (pw_bytes w) (pool r) with
  | Ret p => (Ret tt, r <| pool := p |>) | Fail e => (Fail e, r) | Panic => (Panic, r) | Timeout => (Timeout, r)
  end.
(** A write of which something is left goes back to the front, an empty one is dropped. *)
Definition put_back (w : PendingWrite) : stm Relay Empty_set unit := λ r,
  let (dropped, q) := queue_push_front w (pending r) in
  let r := r <| pending := q |> in
  match dropped with None => (Ret tt, r) | Some _ => drop_write w r end.

Definition feed_step (bs : bytes) : stm Relay tls_error (DriveProtocolPoll nat) := λ r,
  match feed_guest_tls_step bs (turn r, guest_tls (proxy r)) with
  | (o, (d, g)) => (o, r <| turn := d |> <| proxy; guest_tls := g |>)
  end.

Definition local_wait : stm Relay Empty_set unit := on_turn wait_for_local_buffer_capacity_with_continuation.

(** The loop of [feed_pending_guest_tls]: [inl] for the write when all of its part is fed, [inr] for a return *)
Fixpoint feed_loop (fuel : nat) (w : PendingWrite) (feed_limit : nat) : stm Relay Empty_set (PendingWrite + Poll) :=
  if feed_limit <=? offset w then mret (inl w)
  else match fuel with
       | O => stm_lift Timeout
       | S fuel =>
         feed ← stm_try (feed_step (take (feed_limit - offset w) (drop (offset w) (as_slice (pw_bytes w)))));
         match feed with
         | inr e => drop_write w;; mret (inr (PollError (inl e)))
         | inl ProtocolBudget => put_back w;; mret (inr PollPending)
         | inl (ProtocolComplete n) =>
           let w := w <| offset ::= λ o, o + n |> in
           step ← stm_try forward_plaintext_to_server;
           match step with
           | inr e => drop_write w;; mret (inr (PollError (inl e)))
           | inl StepProgress => feed_loop fuel w feed_limit
           | inl (StepBudget | StepBlocked) => put_back w;; mret (inr PollPending)
           | inl StepProgressBlocked => put_back w;; local_wait;; mret (inr PollPending)
           | inl (StepProgressClosed | StepClosed) =>
             state_change (λ p, p <| guest_tls_closed := true |>);; drop_write w;; mret (inr PollPending)
           end
         end
       end.

Definition feed_pending_guest_tls (can_emit_guest_tls : bool) : stm Relay Empty_set Poll :=
  r ← stm_get;
  let (popped, q) := queue_pop_front (pending r) in
  match popped with
  | None => on_turn (block_on GUEST_RECV);; mret PollPending
  | Some w =>
    stm_modify (λ r, r <| pending := q |>);;
    let feed_limit := (offset w + tls_relay_buffer_capacity limits) `min` buf_len (pw_bytes w) in
    fed ← feed_loop (buf_len (pw_bytes w)) w feed_limit;
    match fed with
    | inr poll => mret poll
    | inl w =>
      put_back w;;
      poll ← (if can_emit_guest_tls then guest_output WaitLocalBuffer else mret None);
      mret (default PollPending poll)
    end
  end.

(** ** What the server sends *)
Definition close_guest_tls_after_upstream_eof : stm Relay Empty_set Poll :=
  poll ← guest_output WaitLocalBuffer;
  match poll with
  | Some poll => mret poll
  | None =>
    r ← stm_get;
    (if guest_close_notify_queued (proxy r) then mret tt
     else stm_modify (λ r, r <| proxy; guest_tls ::= queue_close_notify |> <| proxy; guest_close_notify_queued := true |>));;
    poll ← guest_output WaitLocalBuffer;
    mret (default PollClosed poll)
  end.

Definition handle_upstream_eof : stm Relay Empty_set Poll :=
  r ← stm_get;
  match response_eof (filter (proxy r)) with
  | EofComplete | EofTunnel => close_guest_tls_after_upstream_eof
  | EofIncomplete => mret (error_text (bytes_of "upstream closed before complete HTTP response"))
  end.

Definition observe_response_call (bs : bytes) : stm Relay tls_error unit := λ r,
  let (o, f) := observe_response bs (filter (proxy r)) in
  let r := r <| proxy; filter := f |> in
  match o with Ret _ => (Ret tt, r) | Fail _ => (Fail (TlsError 0), r) | Panic => (Panic, r) | Timeout => (Timeout, r) end.

(** The plaintext that was read: the filter sees it before the guest does *)
Definition handle_server_plaintext (bs : bytes) : stm Relay Empty_set Poll :=
  stm_modify (λ r, r <| proxy; server_read_pending := true |>
    <| proxy; server_buf ::= fmap (set_bytes grown (bs ++ replicate (tls_relay_buffer_capacity limits - length bs) 0%Z)) |>);;
  seen ← stm_try (observe_response_call bs);
  match seen with
  | inr e => mret (PollError (inl e))
  | inl _ =>
    released ← stm_try (filter_call (observe_server_plaintext bs));
    match released with
    | inr e => mret (PollError (inl e))
    | inl released =>
      (if released : bool then (_ ← queue_server_plaintext; mret tt) else mret tt);;
      set_server_pending 0 (length bs);;
      poll ← write_pending_guest_plaintext;
      mret (default PollPending poll)
    end
  end.

(** There is a buffer to read into. *)
Definition ensure_server_buf : stm Relay Empty_set bool := λ r,
  match server_buf (proxy r) with
  | Some _ => (Ret true, r)
  | None =>
    match try_byte_with_capacity limits (tls_relay_buffer_capacity limits) (pool r) with
    | (Ret b, p) => (Ret true, r <| pool := p |>
        <| proxy; server_buf := Some (set_bytes grown (replicate (tls_relay_buffer_capacity limits) 0%Z) b) |>)
    | (Fail _, p) => (Ret false, r <| pool := p |>)
    | (Panic, p) => (Panic, r <| pool := p |>)
    | (Timeout, p) => (Timeout, r <| pool := p |>)
    end
  end.

Definition read_upstream : stm Relay tls_error TlsPlaintextDrive := λ r,
  match up_read_plaintext (tls_relay_buffer_capacity limits) (negb (queue_is_empty (out_queue (upstream (proxy r))))) (turn r, server_tls (proxy r)) with
  | (o, (d, u)) => (o, r <| turn := d |> <| proxy; server_tls := u |>)
  end.

Definition read_server_tls : stm Relay Empty_set Poll :=
  step ← queue_server_plaintext;
  match step with
  | QueueBudget => mret PollPending
  | QueueBlocked | QueueProgressBlocked => local_wait;; mret PollPending
  | QueueProgress | QueueEmpty =>
    poll ← write_pending_guest_plaintext;
    match poll with
    | Some poll => mret poll
    | None =>
      ok ← ensure_server_buf;
      if negb ok then local_wait;; mret PollPending
      else
        r ← stm_get;
        let before_read := progress (report (turn r)) in
        read ← stm_try read_upstream;
        match read with
        | inl DriveEof => handle_upstream_eof
        | inl (DrivePlaintext bs) => handle_server_plaintext bs
        | inl DriveBlocked =>
          stm_modify (λ r, r <| proxy; server_read_pending := false |>);;
          r ← stm_get;
          (if bool_decide (progress (report (turn r)) = before_read) then on_turn (block_on REACTOR_READ) else mret tt);;
          mret PollPending
        | inl DriveBudget => mret PollPending
        | inr UnexpectedEof => handle_upstream_eof
        | inr e => mret (PollError (inl e))
        end
    end
  end.

(** ** A turn *)
Record TcpProxyPermit := { READ_UPSTREAM : bool; WRITE_UPSTREAM : bool }.

Definition when_some (c : bool) (m : stm Relay Empty_set (option Poll)) (rest : stm Relay Empty_set Poll) : stm Relay Empty_set Poll :=
  poll ← (if c then m else mret None);
  match poll with Some poll => mret poll | None => rest end.

Definition flushed (rest : stm Relay Empty_set Poll) : stm Relay Empty_set Poll :=
  blocked ← stm_try flush_server_plaintext;
  match blocked with
  | inl true => local_wait;; mret PollPending
  | inl false => rest
  | inr e => mret (PollError (inl e))
  end.

Definition drive_read (permit : TcpProxyPermit) : stm Relay Empty_set Poll :=
  if READ_UPSTREAM permit then read_server_tls
  else
    parked ← stm_try (λ r, let (o, u) := up_park_read (negb (queue_is_empty (out_queue (upstream (proxy r))))) (server_tls (proxy r)) in
                           (o, r <| proxy; server_tls := u |>));
    match parked with
    | inr e => mret (PollError (inl e))
    | inl _ =>
      r ← stm_get;
      (if server_read_pending (proxy r) then on_turn (block_on GUEST_SEND_CAPACITY) else mret tt);;
      mret PollPending
    end.

Definition drive_idle (guest_write_finished : bool) (permit : TcpProxyPermit) : stm Relay Empty_set Poll :=
  written ← stm_try write_pending_server_plaintext;
  match written with
  | inr e => mret (PollError (inl e))
  | inl _ =>
    r ← stm_get;
    finished ← stm_try (finish_server_write_if_needed (guest_write_finished || guest_tls_closed (proxy r)) (queue_is_empty (pending r)));
    match finished with
    | inr e => mret (PollError (inl e))
    | inl _ => drive_read permit
    end
  end.

Definition drive_feed (permit : TcpProxyPermit) : stm Relay Empty_set Poll :=
  poll ← feed_pending_guest_tls (READ_UPSTREAM permit);
  match poll with
  | PollPending =>
    r ← stm_get;
    (if negb (READ_UPSTREAM permit) && (wants_write (guest_tls (proxy r)) || negb (buf_len (tls_out (proxy r)) =? 0))
     then on_turn (block_on GUEST_SEND_CAPACITY) else mret tt);;
    mret PollPending
  | poll => mret poll
  end.

(** [TlsHttp1Proxy::drive] *)
Definition relay_drive (close_requested guest_write_finished : bool) (permit : TcpProxyPermit) : stm Relay Empty_set Poll :=
  when_some (READ_UPSTREAM permit) (guest_output WaitProtocolOutput)
  (when_some (READ_UPSTREAM permit) write_pending_guest_plaintext
  (if close_requested then mret PollClosed
   else flushed (
     r ← stm_get;
     if WRITE_UPSTREAM permit && negb (queue_is_empty (pending r)) then drive_feed permit
     else flushed (drive_idle guest_write_finished permit)))).
End relay.
