(* ===== verification/TlsRelayLaws.v ===== *)
(** * What a step of the relay keeps

    The bytes that go to a server come out of the filter and nowhere else: a
    call of the relay appends to what it holds for the server exactly what the
    filter's calls of that time gave, and those were made with what the sessions
    gave.  The bookkeeping is one triple, [holds_spec]: calls that leave the filter
    alone are [quiet], and the rest of the relay is composed of those, of the
    output queue and of the calls of the filter.  Between a read and the call of
    the filter on what was read the plaintext is due; [holds_by] keeps that debt. *)
From S2P Require Import Prelude Fields Text Policy Gateway Io Raw HttpHead Http1 HttpStream HttpSecrecy HttpTotal IoSlot Limits Buffers Drive DriveCorrect TlsSession TlsRelay.
Local Open Scope nat_scope.

(** ** The server's session, up to what the relay relies on *)
Definition same_upstream {U} `{Upstream U} (u u' : U) : Prop :=
  up_accepted u' = up_accepted u ∧ up_given u' = up_given u ∧ up_peer u' = up_peer u.
Definition drive_out (o : outcome tls_error TlsPlaintextDrive) : bytes := match o with Ret (DrivePlaintext bs) => bs | _ => [] end.
Class UpstreamLaws (U : Type) `{Upstream U} := {
  up_write_returns d p q u : queue_ok q → queue_pooled q → returns (fst (up_write_pending_plaintext (d, p, q, u)));
  (** What is taken from the queue is accepted, in order; a failed call accepted a part of it. *)
  up_write_exact d p q u o d' p' q' u' :
    queue_ok q → queue_pooled q → up_write_pending_plaintext (d, p, q, u) = (o, (d', p', q', u')) →
    up_peer u' = up_peer u ∧ up_given u' = up_given u ∧ queue_pooled q' ∧
    match o with
    | Ret _ => up_accepted u' ++ queue_bytes q' = up_accepted u ++ queue_bytes q ∧ queue_ok q' ∧ budget_le d' d
    | _ => up_accepted u' `prefix_of` up_accepted u ++ queue_bytes q
    end;
  up_finish_returns d u : returns (fst (up_finish_write (d, u)));
  up_finish_exact d u o d' u' : up_finish_write (d, u) = (o, (d', u')) → same_upstream u u' ∧ budget_le d' d;
  up_read_returns n q d u : returns (fst (up_read_plaintext n q (d, u)));
  up_read_exact n q d u o d' u' : up_read_plaintext n q (d, u) = (o, (d', u')) →
    up_accepted u' = up_accepted u ∧ up_given u' = up_given u ++ drive_out o ∧ up_peer u' = up_peer u ∧ budget_le d' d;
  up_park_returns q u : returns (fst (up_park_read q u));
  up_park_exact q u o u' : up_park_read q u = (o, u') → same_upstream u u';
  up_ready_exact r w u : same_upstream u (up_mark_reactor_ready r w u);
  up_connect_exact u : same_upstream u (up_mark_connect_ready u);
}.

(** ** The calls of the filter *)

(** What the calls of the filter gave up to the first that failed, and how they ended *)
Fixpoint run_filter (es : list HttpSecrecy.event) (f : Http1Filter) : bytes * outcome HttpError Http1Filter :=
  match es with
  | [] => ([], Ret f)
  | e :: es =>
    match filter_event e f with
    | (Ret _, f, out) => let (outs, x) := run_filter es f in (out ++ outs, x)
    | (Fail e, _, out) => (out, Fail e)
    | (Panic, _, out) => (out, Panic)
    | (Timeout, _, out) => (out, Timeout)
    end
  end.

Lemma run_filter_app es1 es2 f f1 out1 :
  run_filter es1 f = (out1, Ret f1) → run_filter (es1 ++ es2) f = (out1 ++ (run_filter es2 f1).1, (run_filter es2 f1).2).
Proof.
  revert f out1. induction es1 as [|e es1 IH]; intros f out1; simpl; [intros [= <- <-]; by destruct (run_filter es2 _)|].
  destruct (filter_event e f) as [[[b|err| |] f2] out]; [|done..].
  destruct (run_filter es1 f2) as [outs x] eqn:Hrun. intros [= <- ->]. rewrite (IH _ _ Hrun). by rewrite app_assoc.
Qed.

Lemma run_filter_trace es f : (run_filter es f).1 = mjoin ((filter_trace es f).*2).
Proof.
  revert f. induction es as [|e es IH]; intros f; [done|]. simpl. destruct (filter_event e f) as [[[b|err| |] f1] out]; simpl;
    [|by rewrite app_nil_r..]. rewrite <-IH. by destruct (run_filter es f1).
Qed.

Lemma push_false b f f' out : push b f = (Ret false, f', out) → out = [].
Proof.
  unfold push, push_call, with_output, has_output, ensure_limit. run_filter. destruct (upgrade_pending f); cbn.
  - destruct (ensure_pending_limit _) as [[]|e| |]; by intros [= <- <-].
  - destruct (push_loop _ _ _) as [[[]|e| |] [f1 out1]]; cbn; [|done..].
    intros [= Hb <- <-]. simpl in *. by destruct (bool_decide_reflect (out1 = [])).
Qed.

(** ** What the calls of the filter were made with *)
Definition guest_bytes (es : list HttpSecrecy.event) : bytes := mjoin ((λ e, match e with FromGuest bs => bs | _ => [] end) <$> es).
Definition response_bytes (es : list HttpSecrecy.event) : bytes := mjoin ((λ e, match e with ServerResponse bs => bs | _ => [] end) <$> es).
Definition plaintext_bytes (es : list HttpSecrecy.event) : bytes := mjoin ((λ e, match e with ServerPlaintext bs => bs | _ => [] end) <$> es).

Lemma guest_bytes_app es1 es2 : guest_bytes (es1 ++ es2) = guest_bytes es1 ++ guest_bytes es2.
Proof. unfold guest_bytes. by rewrite fmap_app, join_app. Qed.
Lemma response_bytes_app es1 es2 : response_bytes (es1 ++ es2) = response_bytes es1 ++ response_bytes es2.
Proof. unfold response_bytes. by rewrite fmap_app, join_app. Qed.
Lemma plaintext_bytes_app es1 es2 : plaintext_bytes (es1 ++ es2) = plaintext_bytes es1 ++ plaintext_bytes es2.
Proof. unfold plaintext_bytes. by rewrite fmap_app, join_app. Qed.

(** Plaintext that was read and that the filter has not seen yet: of the guest, and of the server, which
    the filter sees as a response and then as plaintext that follows what it holds back *)
Record debt := Debt { due_guest : bytes; due_response : bytes; due_plaintext : bytes }.
Definition paid : debt := Debt [] [] [].

(** ** Triples *)
Definition hung {E A} (o : outcome E A) : Prop := match o with Panic | Timeout => True | _ => False end.

Section triples.
Context {G U : Type} `{GuestTls G} `{Upstream U}.
Abbreviation Relay := (@Relay G U).
Abbreviation TlsHttp1Proxy := (@TlsHttp1Proxy G U).

(** What is queued for the server but not cut into buffers yet *)
Definition unsent (o : OutputState) : bytes := drop (output_offset o) (as_slice (output o)).
(** All that the server was given or will be *)
Definition outgoing (p : TlsHttp1Proxy) : bytes :=
  up_accepted (server_tls p) ++ queue_bytes (out_queue (upstream p)) ++ unsent (upstream p).
Definition clear (o : OutputState) : Prop := as_slice (output o) = [] ∧ output_offset o = 0.
(** The filter may be called, unless the turn is spent. *)
Definition settled (r : Relay) : Prop := clear (upstream (proxy r)) ∨ spent (turn r) = true.

Record queue_inv (q : WriteQueue) : Prop := { qi_ok : queue_ok q; qi_pooled : queue_pooled q }.
Definition relay_inv (r : Relay) : Prop := queue_inv (pending r) ∧ queue_inv (out_queue (upstream (proxy r))).

(** What is the same about the proxy: the server, and where its buffers come from *)
Definition same_kind (r r' : Relay) : Prop :=
  up_peer (server_tls (proxy r')) = up_peer (server_tls (proxy r)) ∧
  class (output (upstream (proxy r'))) = class (output (upstream (proxy r))) ∧
  class (plaintext_buf (proxy r')) = class (plaintext_buf (proxy r)) ∧
  class (tls_out (proxy r')) = class (tls_out (proxy r)) ∧
  (queue_pooled (out_queue (upstream (proxy r))) → queue_pooled (out_queue (upstream (proxy r')))).
#[export] Instance same_kind_preorder : PreOrder same_kind.
Proof.
  split; [by intros r; split_and!|].
  intros r1 r2 r3 (? & ? & ? & ? & ?) (? & ? & ? & ? & ?). split_and!; [congruence..|auto].
Qed.

Inductive verdict := Goes | Ended | Stuck.
(** What the guest said, and the server *)
Definition given (r : Relay) : bytes := plaintext_given (guest_tls (proxy r)).
Definition said (r : Relay) : bytes := up_given (server_tls (proxy r)).

(** The calls were made with what was due and with what was read since, in order, but for what is due now;
    when the time ended, the server's last plaintext may not have followed what the filter held back. *)
Definition seen (v : verdict) (d d' : debt) (es : list HttpSecrecy.event) (r r' : Relay) : Prop :=
  ∃ dg du, given r' = given r ++ dg ∧ said r' = said r ++ du ∧
    guest_bytes es ++ due_guest d' = due_guest d ++ dg ∧ response_bytes es ++ due_response d' = due_response d ++ du ∧
    match v with
    | Goes => plaintext_bytes es ++ due_plaintext d' = due_plaintext d ++ du
    | _ => plaintext_bytes es `prefix_of` due_plaintext d ++ du
    end.

(** The calls of the filter between two states, and how the time between them ended *)
Definition relayed_by (v : verdict) (d d' : debt) (r r' : Relay) : Prop :=
  same_kind r r' ∧ ∃ es, Forall byte_event es ∧ seen v d d' es r r' ∧ match v with
  | Goes => run_filter es (filter (proxy r)) = ((run_filter es (filter (proxy r))).1, Ret (filter (proxy r'))) ∧
            outgoing (proxy r') = outgoing (proxy r) ++ (run_filter es (filter (proxy r))).1
  | Ended => up_accepted (server_tls (proxy r')) `prefix_of` outgoing (proxy r) ++ (run_filter es (filter (proxy r))).1
  | Stuck => up_accepted (server_tls (proxy r')) `prefix_of` outgoing (proxy r) ++ (run_filter es (filter (proxy r))).1 ∧
             hung (run_filter es (filter (proxy r))).2
  end.
Definition relayed (v : verdict) : Relay → Relay → Prop := relayed_by v paid paid.

Lemma seen_trans v d1 d2 d3 es1 es2 r1 r2 r3 :
  seen Goes d1 d2 es1 r1 r2 → seen v d2 d3 es2 r2 r3 → seen v d1 d3 (es1 ++ es2) r1 r3.
Proof.
  intros (dg1 & du1 & Hg1 & Hu1 & Hgs1 & Hrs1 & Hps1) (dg2 & du2 & Hg2 & Hu2 & Hgs2 & Hrs2 & Hps2).
  exists (dg1 ++ dg2), (du1 ++ du2). rewrite Hg2, Hg1, Hu2, Hu1, guest_bytes_app, response_bytes_app, plaintext_bytes_app.
  rewrite <-!app_assoc. do 2 (split; [done|]). rewrite Hgs2, Hrs2, !(app_assoc _ _ dg2), !(app_assoc _ _ du2), <-Hgs1, <-Hrs1, <-Hps1.
  rewrite <-!app_assoc. split; [done|]. split; [done|]. destruct v; [by rewrite Hps2|by apply prefix_app..].
Qed.

Lemma relayed_trans v d1 d2 d3 r1 r2 r3 : relayed_by Goes d1 d2 r1 r2 → relayed_by v d2 d3 r2 r3 → relayed_by v d1 d3 r1 r3.
Proof.
  intros (Hp1 & es1 & Hb1 & Hs1 & Hrun & Hout) (Hp2 & es2 & Hb2 & Hs2 & Hv). split; [by etrans|]. exists (es1 ++ es2).
  split; [by apply Forall_app|]. split; [by eapply seen_trans|]. rewrite (run_filter_app _ _ _ _ _ Hrun). simpl.
  rewrite app_assoc, <-Hout. destruct v; [|done..]. destruct Hv as [Hrun2 Hout2]. split; [by rewrite Hrun2|done].
Qed.

(** Plaintext was read, and that is all. *)
Lemma relayed_read dg du r r' : same_kind r r' → filter (proxy r') = filter (proxy r) → outgoing (proxy r') = outgoing (proxy r) →
  given r' = given r ++ dg → said r' = said r ++ du → relayed_by Goes paid (Debt dg du du) r r'.
Proof.
  intros Hp Hf Ho Hg Hu. split; [done|]. exists []. split; [constructor|]. split; [by exists dg, du|]. simpl. by rewrite Hf, Ho, app_nil_r.
Qed.

Lemma relayed_nil r r' : same_kind r r' → filter (proxy r') = filter (proxy r) → outgoing (proxy r') = outgoing (proxy r) →
  given r' = given r → said r' = said r → relayed Goes r r'.
Proof. intros Hp Hf Ho Hg Hu. apply relayed_read; try done; by rewrite app_nil_r. Qed.

Lemma relayed_ended r r' : same_kind r r' ∧ up_accepted (server_tls (proxy r')) `prefix_of` outgoing (proxy r) ∧
  given r' = given r ∧ said r' = said r → relayed Ended r r'.
Proof.
  intros (Hp & Ha & Hg & Hu). split; [done|]. exists []. split; [constructor|]. split; [exists [], []; by rewrite !app_nil_r|].
  simpl. by rewrite app_nil_r.
Qed.

Lemma relayed_goes_ended d r r' : relayed_by Goes d paid r r' → relayed_by Ended d paid r r'.
Proof.
  intros (Hp & es & Hb & (dg & du & Hg & Hu & Hgs & Hrs & Hps) & _ & Ho). split; [done|]. exists es. split; [done|]. split.
  - exists dg, du. split_and!; try done. simpl in Hps. by rewrite app_nil_r in Hps; rewrite Hps.
  - rewrite <-Ho. unfold outgoing. by apply prefix_app_r.
Qed.

(** A call of the filter on what is due *)
Record pays (e : HttpSecrecy.event) (d d' : debt) : Prop := {
  py_guest : guest_bytes [e] = due_guest d ∧ due_guest d' = [];
  py_response : response_bytes [e] = due_response d ∧ due_response d' = [];
  py_plaintext : plaintext_bytes [e] ++ due_plaintext d' = due_plaintext d;
}.
Lemma pays_seen e d d' r r' : pays e d d' → given r' = given r → said r' = said r → seen Goes d d' [e] r r' ∧ ∀ v, v ≠ Goes → seen v d paid [e] r r'.
Proof.
  intros [[Hg Hg'] [Hr Hr'] Hp] Hgiven Hsaid. split; [|intros v Hv]; exists [], []; rewrite Hgiven, Hsaid, ?Hg', ?Hr', Hg, Hr, !app_nil_r;
    split_and!; try done. destruct v; [done|rewrite <-Hp; by apply prefix_app_r..].
Qed.

(** [go a] says whether a value lets the connection go on; the debts are those before and after. *)
Definition holds_by {E A} (go : A → bool) (d : debt) (P : Relay → Prop) (m : stm Relay E A) (d' : A → debt) (Q : A → Relay → Prop) : Prop :=
  ∀ r, relay_inv r → P r →
  match m r with
  | (Ret a, r') =>
    if go a then relay_inv r' ∧ budget_le (turn r') (turn r) ∧ relayed_by Goes d (d' a) r r' ∧ Q a r' else relayed_by Ended d paid r r'
  | (Fail _, r') => relayed_by Ended d paid r r'
  | (_, r') => relayed_by Stuck d paid r r'
  end.
Definition holds_spec {E A} (go : A → bool) (P : Relay → Prop) (m : stm Relay E A) (Q : A → Relay → Prop) : Prop :=
  holds_by go paid P m (λ _, paid) Q.
Definition always {A} (_ : A) : bool := true.
Definition anything {A} (_ : A) (_ : Relay) : Prop := True.

(** The connection is over, nothing more reaches the server or is read. *)
Definition over {E A} (go : A → bool) (m : stm Relay E A) : Prop :=
  ∀ r, server_tls (proxy (m r).2) = server_tls (proxy r) ∧ guest_tls (proxy (m r).2) = guest_tls (proxy r) ∧ same_kind r (m r).2 ∧
    match (m r).1 with Ret a => go a = false | Fail _ => True | _ => False end.

Lemma spec_ret {E A} (go : A → bool) (a : A) P Q : (∀ r, P r → Q a r) → holds_spec (E:=E) go P (mret a) Q.
Proof.
  intros HQ r Hinv HP. simpl. assert (relayed Goes r r) by by apply relayed_nil.
  destruct (go a); [|by apply relayed_goes_ended]. split_and!; try done. by apply HQ.
Qed.

(** What one call leaves due, the next is given. *)
Lemma by_bind {E A B} (go1 : A → bool) (go2 : B → bool) d P (m : stm Relay E A) d1 (k : A → stm Relay E B) d2 Q R :
  holds_by go1 d P m d1 Q → (∀ a, go1 a = true → holds_by go2 (d1 a) (Q a) (k a) d2 R) → (∀ a, go1 a = false → over go2 (k a)) →
  holds_by go2 d P (m ≫= k) d2 R.
Proof.
  intros Hm Hk Hover r Hinv HP. specialize (Hm r Hinv HP). unfold mbind, stm_bind.
  destruct (m r) as [[a|e| |] r1]; [|done..]. destruct (go1 a) eqn:Hgo.
  - destruct Hm as (Hinv1 & Hle & Hrel & HQ). specialize (Hk a Hgo r1 Hinv1 HQ).
    destruct (k a r1) as [[b|e| |] r2]; [|by eapply relayed_trans..].
    destruct (go2 b); [|by eapply relayed_trans]. destruct Hk as (? & ? & ? & ?).
    split_and!; try done; [by etrans|by eapply relayed_trans].
  - specialize (Hover a Hgo r1) as (Hsame & Hguest & Hkind & Hres). destruct (k a r1) as [o r2]. simpl in *.
    assert (relayed_by Ended d paid r r2).
    { destruct Hm as (Hp & es & Hb & Hseen & Hes). split; [by etrans|]. exists es. split; [done|].
      unfold seen, given, said in *. by rewrite Hsame, Hguest. }
    destruct o as [b|e| |]; try done. by rewrite Hres.
Qed.

Lemma spec_bind {E A B} (go1 : A → bool) (go2 : B → bool) P (m : stm Relay E A) (k : A → stm Relay E B) Q R :
  holds_spec go1 P m Q → (∀ a, go1 a = true → holds_spec go2 (Q a) (k a) R) → (∀ a, go1 a = false → over go2 (k a)) →
  holds_spec go2 P (m ≫= k) R.
Proof. apply by_bind. Qed.

(** The usual case: nothing is decided in between. *)
Lemma spec_seq {E A B} (go : B → bool) P (m : stm Relay E A) (k : A → stm Relay E B) Q R :
  holds_spec always P m Q → (∀ a, holds_spec go (Q a) (k a) R) → holds_spec go P (m ≫= k) R.
Proof. intros Hm Hk. eapply spec_bind; [exact Hm|by intros|done]. Qed.

Lemma by_conseq {E A} (go : A → bool) d d' (P P' : Relay → Prop) (m : stm Relay E A) (Q Q' : A → Relay → Prop) :
  holds_by go d P' m d' Q' → (∀ r, P r → P' r) → (∀ a r, Q' a r → Q a r) → holds_by go d P m d' Q.
Proof.
  intros Hm HP HQ r Hinv Hr. specialize (Hm r Hinv (HP r Hr)). destruct (m r) as [[a|e| |] r']; [|done..].
  destruct (go a); [|done]. destruct Hm as (? & ? & ? & ?). split_and!; auto.
Qed.
Lemma spec_conseq {E A} (go : A → bool) (P P' : Relay → Prop) (m : stm Relay E A) (Q Q' : A → Relay → Prop) :
  holds_spec go P' m Q' → (∀ r, P r → P' r) → (∀ a r, Q' a r → Q a r) → holds_spec go P m Q.
Proof. apply by_conseq. Qed.

(** What a precondition says of the values is a hypothesis. *)
Lemma by_pure {E A} (go : A → bool) d d' (φ : Prop) (P : Relay → Prop) (m : stm Relay E A) Q :
  (∀ r, relay_inv r → P r → φ) → (φ → holds_by go d P m d' Q) → holds_by go d P m d' Q.
Proof. intros Hφ Hm r Hinv HP. by apply Hm; [eapply Hφ|..]. Qed.
Lemma spec_pure {E A} (go : A → bool) (φ : Prop) (P : Relay → Prop) (m : stm Relay E A) Q :
  (∀ r, relay_inv r → P r → φ) → (φ → holds_spec go P m Q) → holds_spec go P m Q.
Proof. apply by_pure. Qed.

Lemma spec_get {E A} (go : A → bool) P (k : Relay → stm Relay E A) Q :
  (∀ r0, holds_spec go (λ r, P r ∧ r = r0) (k r0) Q) → holds_spec go P (r ← stm_get; k r) Q.
Proof. intros Hk r Hinv HP. by apply (Hk r). Qed.

Definition try_goes {A F} (o : A + F) : bool := match o with inl _ => true | inr _ => false end.
Lemma by_try {E F A} d d' (P : Relay → Prop) (m : stm Relay F A) Q :
  holds_by always d P m d' Q →
  holds_by (E:=E) try_goes d P (stm_try m) (λ o, match o with inl a => d' a | inr _ => paid end) (λ o r, match o with inl a => Q a r | inr _ => True end).
Proof.
  intros Hm r Hinv HP. specialize (Hm r Hinv HP). unfold stm_try. by destruct (m r) as [[a|e| |] r'].
Qed.
Lemma spec_try {E F A} (P : Relay → Prop) (m : stm Relay F A) Q :
  holds_spec always P m Q → holds_spec (E:=E) try_goes P (stm_try m) (λ o r, match o with inl a => Q a r | inr _ => True end).
Proof. intros Hm r Hinv HP. pose proof (by_try (E:=E) _ _ _ _ _ Hm r Hinv HP) as Ht. by destruct (stm_try m r) as [[[]|e| |] r']. Qed.

Lemma over_ret {E A} (go : A → bool) (a : A) : go a = false → over (E:=E) go (mret a).
Proof. by intros Ha r. Qed.

(** ** Calls that leave the filter and its output alone *)
Record frame (r r' : Relay) : Prop := {
  fr_kind : same_kind r r';
  fr_filter : filter (proxy r') = filter (proxy r);
  fr_output : output (upstream (proxy r')) = output (upstream (proxy r));
  fr_offset : output_offset (upstream (proxy r')) = output_offset (upstream (proxy r));
  fr_outgoing : outgoing (proxy r') = outgoing (proxy r);
  fr_given : given r' = given r;
  fr_said : said r' = said r;
  fr_budget : budget_le (turn r') (turn r);
  fr_inv : relay_inv r → relay_inv r';
}.
#[export] Instance frame_preorder : PreOrder frame.
Proof.
  split; [by intros r; split|]. intros r1 r2 r3 [] []. split; try congruence; [by etrans..|auto].
Qed.

Definition kept {E A} (x : outcome E A * Relay) (r : Relay) : Prop :=
  match x with
  | (Ret _, r') => frame r r'
  | (Fail _, r') => same_kind r r' ∧ up_accepted (server_tls (proxy r')) `prefix_of` outgoing (proxy r) ∧
      given r' = given r ∧ said r' = said r
  | _ => False
  end.
Definition quiet {E A} (m : stm Relay E A) : Prop := ∀ r, relay_inv r → kept (m r) r.

Lemma kept_bind {E A B} (m : stm Relay E A) (k : A → stm Relay E B) r :
  relay_inv r → kept (m r) r → (∀ a r', m r = (Ret a, r') → frame r r' → relay_inv r' → kept (k a r') r') →
  kept ((m ≫= k) r) r.
Proof.
  intros Hinv Hm Hk. unfold mbind, stm_bind. destruct (m r) as [[a|e| |] r1] eqn:Hrun; try done. simpl in Hm.
  specialize (Hk a r1 eq_refl Hm (fr_inv _ _ Hm Hinv)). unfold kept in *. destruct (k a r1) as [[b|e| |] r2]; try done; [by etrans|].
  destruct Hk as (Hp & Hk & Hg & Hu). split; [etrans; [exact (fr_kind _ _ Hm)|done]|].
  by rewrite <-(fr_outgoing _ _ Hm), Hg, Hu, (fr_given _ _ Hm), (fr_said _ _ Hm).
Qed.

Definition stable (P : Relay → Prop) : Prop := ∀ r r', frame r r' → P r → P r'.

Lemma settled_stable : stable settled.
Proof.
  intros r r' [_ _ Ho Hoff _ _ _ Hle _] [Hc|Hs]; [left|right; by eapply spent_le].
  unfold clear in *. by rewrite Ho, Hoff.
Qed.
Lemma clear_stable : stable (λ r, clear (upstream (proxy r))).
Proof. intros r r' [_ _ Ho Hoff _ _ _ _ _]. unfold clear. by rewrite Ho, Hoff. Qed.
Lemma true_stable : stable (λ _, True).
Proof. by intros r r'. Qed.

Lemma frame_relayed r r' : frame r r' → relayed Goes r r'.
Proof. intros []. by apply relayed_nil. Qed.

(** A change of what the filter does not see, whatever is due *)
Lemma by_modify {E} d P (f : Relay → Relay) :
  stable P → (∀ r, relay_inv r → frame r (f r)) → holds_by (E:=E) always d P (stm_modify f) (λ _, d) (λ _, P).
Proof.
  intros Hst Hf r Hinv HP. pose proof (Hf r Hinv) as Hframe. simpl. pose proof Hframe as []. split_and!; try done; [by auto| |by eapply Hst].
  split; [done|]. exists []. split; [constructor|]. split; [exists [], []; by rewrite !app_nil_r|]. simpl. by rewrite app_nil_r, fr_filter0.
Qed.

Lemma spec_quiet {E A} (go : A → bool) P (m : stm Relay E A) :
  stable P → quiet m → holds_spec go P m (λ _, P).
Proof.
  intros Hst Hm r Hinv HP. specialize (Hm r Hinv). unfold kept in Hm. destruct (m r) as [[a|e| |] r']; try done; [|by apply relayed_ended].
  pose proof (frame_relayed _ _ Hm). destruct (go a); [|by apply relayed_goes_ended].
  pose proof (fr_inv _ _ Hm Hinv). pose proof (fr_budget _ _ Hm). split_and!; try done. by eapply Hst.
Qed.

Lemma quiet_ret {E A} (a : A) : quiet (E:=E) (mret a).
Proof. by intros r Hinv. Qed.
Lemma quiet_get {E} : quiet (E:=E) stm_get.
Proof. by intros r Hinv. Qed.
Lemma quiet_bind {E A B} (m : stm Relay E A) (k : A → stm Relay E B) :
  quiet m → (∀ a, quiet (k a)) → quiet (m ≫= k).
Proof. intros Hm Hk r Hinv. apply kept_bind; [done|by apply Hm|]. intros. by apply Hk. Qed.
Lemma quiet_modify {E} (f : Relay → Relay) : (∀ r, relay_inv r → frame r (f r)) → quiet (E:=E) (stm_modify f).
Proof. intros Hf r Hinv. by apply Hf. Qed.
(** An error that is caught: the state is kept there too. *)
Definition calm {E A} (m : stm Relay E A) : Prop := ∀ r, relay_inv r →
  match m r with (Ret _, r') | (Fail _, r') => frame r r' | _ => False end.
Lemma quiet_try {E F A} (m : stm Relay F A) : calm m → quiet (E:=E) (stm_try m).
Proof. intros Hm r Hinv. specialize (Hm r Hinv). unfold stm_try, kept. by destruct (m r) as [[a|e| |] r']. Qed.

(** A triple from what a call does by itself *)
Lemma spec_frame {E A} (go : A → bool) (P : Relay → Prop) (m : stm Relay E A) (Q : A → Relay → Prop) :
  (∀ r, relay_inv r → P r →
    match m r with (Ret a, r') => frame r r' ∧ Q a r' | (Fail _, r') => frame r r' | _ => False end) → holds_spec go P m Q.
Proof.
  intros Hm r Hinv HP. specialize (Hm r Hinv HP). destruct (m r) as [[a|e| |] r']; try done.
  - destruct Hm as [Hf HQ]. pose proof (frame_relayed _ _ Hf). destruct (go a); [|by apply relayed_goes_ended].
    pose proof (fr_inv _ _ Hf Hinv). pose proof (fr_budget _ _ Hf). by split_and!.
  - by apply relayed_goes_ended, frame_relayed.
Qed.

(** Budget only goes down. *)
Lemma by_steps {E A} n (go : A → bool) d d' (P : Relay → Prop) (m : stm Relay E A) (Q : A → Relay → Prop) :
  holds_by go d P m d' Q → holds_by go d (λ r, P r ∧ steps (budget (turn r)) ≤ n) m d' (λ a r, Q a r ∧ steps (budget (turn r)) ≤ n).
Proof.
  intros Hm r Hinv [HP Hn]. specialize (Hm r Hinv HP). destruct (m r) as [[a|e| |] r']; try done. destruct (go a); [|done].
  destruct Hm as (? & Hle & ? & ?). split_and!; try done. destruct Hle as (_ & Hs & _). lia.
Qed.
End triples.
