(* ===== verification/TlsRelaySteps.v ===== *)
(** * The calls of the relay, one by one

    Each call of [TlsRelay] as a triple: what it leaves alone, what it queues for
    the server, and that it returns. *)
From S2P Require Import Prelude Fields Text Policy Gateway Io Raw HttpHead Http1 HttpStream HttpSecrecy HttpTotal IoSlot Limits Buffers Drive DriveCorrect TlsSession TlsRelay TlsRelayLaws.
Local Open Scope nat_scope.

(** ** Queues *)
Lemma queue_inv_push b q d q' :
  queue_inv q → pooled b → queue_push b q = (d, q') →
  queue_inv q' ∧ queue_bytes q' = queue_bytes q ++ as_slice b ∧ (as_slice b ≠ [] → d = None).
Proof.
  intros [Hok Hpool] Hb Hpush. pose proof (queue_push_ok _ _ _ _ Hok Hpush) as [Hok' Hbytes].
  unfold queue_push in Hpush. unfold buf_len in Hpush. destruct (Nat.eqb_spec (length (as_slice b)) 0) as [Hz|Hz].
  - injection Hpush as <- <-. split_and!; try done. by apply nil_length_inv in Hz.
  - injection Hpush as <- <-. split_and!; try done. split; [done|]. unfold queue_pooled, entries in *.
    destruct (first q) eqn:Hf; simpl in *.
    + rewrite app_comm_cons, Forall_app. split; [done|]. by constructor.
    + constructor; [done|]. by rewrite (qo_first _ Hok Hf).
Qed.

Lemma queue_inv_pop w q q' :
  queue_inv q → queue_pop_front q = (w, q') →
  queue_inv q' ∧ match w with Some w => pooled (pw_bytes w) ∧ offset w < buf_len (pw_bytes w) | None => True end.
Proof.
  intros [Hok Hpool] Hpop. pose proof (queue_pop_front_ok _ _ _ Hok Hpop) as [Hok' Hw].
  unfold queue_pop_front in Hpop. unfold queue_pooled, entries in Hpool.
  destruct (first q) as [x|] eqn:Hf; injection Hpop as <- <-;
    [|split; [|done]; split; [done|]; unfold queue_pooled, entries; by rewrite Hf].
  apply Forall_cons in Hpool as [Hx Hrest]. split; [|by destruct Hw]. split; [done|].
  unfold queue_pooled. by rewrite (proj2 (next_first_ok q Hok)).
Qed.

Lemma queue_inv_push_front w q d q' :
  queue_inv q → pooled (pw_bytes w) → queue_push_front w q = (d, q') →
  queue_inv q' ∧ match d with Some b => b = pw_bytes w | None => True end.
Proof.
  intros [[Hent Hfirst] Hpool] Hw. unfold queue_push_front, pending_is_empty. destruct (Nat.leb_spec (buf_len (pw_bytes w)) (offset w));
    intros [= <- <-]; [by repeat split|]. split; [|done].
  unfold queue_pooled, entries in *. destruct (first q) as [x|] eqn:Hf; simpl in *.
  - repeat split; simpl; try done; unfold queue_pooled, entries; simpl; by constructor.
  - rewrite (Hfirst eq_refl) in *. repeat split; simpl; try done; unfold queue_pooled, entries; simpl; by constructor.
Qed.

Lemma byte_recycle_pooled {E} limits b p : pooled b → ∃ p', @byte_recycle limits E b p = Ret p'.
Proof.
  intros Hb. unfold byte_recycle, buckets_recycle, bucket_mut, bucket. unfold pooled in Hb.
  destruct (class b); try done; simpl; by eexists.
Qed.

(** An operation of a session that is done has taken a step. *)
Lemma protocol_op_steps {S E T} available (op : nat → stm S E (DriveProtocolOp T)) d s v d' s' :
  drive_protocol_op available op (d, s) = (Ret (ProtocolComplete v), (d', s')) →
  steps (budget d') < steps (budget d) ∧ spent d = false.
Proof.
  unfold drive_protocol_op, protocol_chunk, step_or_exhausted, or_exhausted, spent.
  destruct (can_continue (budget d)) eqn:Hc; cbn [negb]; [|done].
  apply can_continue_spec in Hc as (He & Hs & Hb). destruct (_ =? 0); [done|].
  destruct (op _ s) as [[[n x|x]|e| |] s1]; try done.
  - intros [= _ <- _]. split; [|done]. destruct (0 <? n); [|simpl; lia]. unfold state_changed, spend_bytes. simpl.
    destruct (can_continue _); simpl; lia.
  - intros [= _ <- _]. simpl. split; [lia|done].
Qed.

Section steps.
Context {G U : Type} `{GuestTlsLaws G} `{UpstreamLaws U} (limits : NetworkLimits) (grown : nat → nat → nat).
(** A relay has buffers ([validate_for_event_loop]). *)
Context (Hrelay : 0 < tls_relay_buffer_capacity limits).
Abbreviation Relay := (@TlsRelay.Relay G U).
Abbreviation TlsHttp1Proxy := (@TlsRelay.TlsHttp1Proxy G U).
Abbreviation Poll := (TlsProxyPoll Empty_set).

(** ** Output for the server *)
Lemma queue_protocol_output_spec d p s o d' p' s' :
  queue_inv (out_queue s) →
  queue_protocol_output limits grown (tls_relay_buffer_capacity limits) (d, p, s) = (o, (d', p', s')) →
  queue_inv (out_queue s') ∧ class (output s') = class (output s) ∧ budget_le d' d ∧
  queue_bytes (out_queue s') ++ unsent s' = queue_bytes (out_queue s) ++ unsent s ∧
  match o with
  | Ret ProtocolBudget => spent d' = true
  | Ret (ProtocolComplete (inl OutputEmpty)) => clear s'
  | Ret (ProtocolComplete (inl OutputBytes)) => length (unsent s') < length (unsent s)
  | Ret (ProtocolComplete (inr _)) => True
  | _ => False
  end.
Proof.
  intros Hq. unfold queue_protocol_output.
  assert (Hreset : ∀ o, buf_len (output o) ≤ output_offset o → unsent o = [] ∧ unsent (reset_output grown o) = [] ∧ clear (reset_output grown o)).
  { intros o0 Hle. split_and!; [|done..]. unfold unsent. by apply drop_ge. }
  destruct (Nat.leb_spec (buf_len (output s)) (output_offset s)) as [Hle|Hlt].
  { intros [= <- <- <- <-]. destruct (Hreset s Hle) as (-> & -> & ?). by split_and!. }
  destruct (protocol_chunk _ d) as [len d1] eqn:Hchunk. apply chunk_spec in Hchunk as [Hle Hchunk]. destruct len as [len|].
  2: { intros [= <- <- <- <-]. split_and!; try done. destruct Hchunk as [Hz|]; [|done].
       unfold tls_relay_buffer_capacity in *. lia. }
  destruct Hchunk as (Hpos & Hlen & _). unfold try_byte_with_capacity.
  destruct (byte_try_take_ends limits len p) as (r1 & p1 & Hrun & Hends). rewrite Hrun.
  destruct r1 as [b|e| |]; [|by intros [= <- <- <- <-]; split_and!|done..].
  pose proof (byte_try_take_pooled _ _ _ _ _ Hrun) as Hpooled.
  set (chunk := take len (drop (output_offset s) (as_slice (output s)))).
  destruct (queue_push (set_bytes grown chunk b) (out_queue s)) as [dropped q] eqn:Hpush.
  apply queue_inv_push in Hpush as (Hq' & Hbytes & Hnone); [|done|done].
  assert (Hchunk : length chunk = len).
  { unfold chunk, buf_len in *. rewrite length_take, length_drop. lia. }
  assert (Hslice : as_slice (set_bytes grown chunk b) = chunk) by done. rewrite Hslice in *.
  rewrite Hnone by (intros Hnil; rewrite Hnil in Hchunk; simpl in Hchunk; lia).
  set (s1 := {| out_queue := q; output := output s; output_offset := output_offset s + len |}).
  assert (Hun : unsent s = chunk ++ unsent s1).
  { unfold unsent, s1, chunk. simpl. by rewrite <-drop_drop, take_drop. }
  cbn [output output_offset]. intros [= <- <- <- <-].
  set (s2 := if _ <=? _ then _ else s1). assert (Hs2 : out_queue s2 = q ∧ class (output s2) = class (output s) ∧ unsent s2 = unsent s1).
  { unfold s2. destruct (Nat.leb_spec (buf_len (output s)) (output_offset s + len)) as [Hge|]; [|done].
    split; [done|]. split; [done|]. by destruct (Hreset s1 Hge) as (-> & -> & _). }
  destruct Hs2 as (-> & -> & ->). split_and!; try done.
  - etrans; [apply state_changed_le|]. etrans; [apply spend_budget_le|done].
  - by rewrite Hbytes, Hun, <-!app_assoc.
  - rewrite Hun, length_app. lia.
Qed.

Lemma queue_loop_spec fuel made d p s o d' p' s' :
  queue_inv (out_queue s) → length (unsent s) ≤ fuel → queue_loop limits grown fuel made (d, p, s) = (o, (d', p', s')) →
  queue_inv (out_queue s') ∧ class (output s') = class (output s) ∧ budget_le d' d ∧
  queue_bytes (out_queue s') ++ unsent s' = queue_bytes (out_queue s) ++ unsent s ∧
  match o with
  | Ret (QueueProgress | QueueEmpty | QueueBudget) => clear s' ∨ spent d' = true
  | Ret _ => True
  | _ => False
  end.
Proof.
  revert made d p s. induction fuel as [|fuel IH]; intros made d p s Hq Hfuel; cbn [queue_loop];
    destruct (queue_protocol_output _ _ _ _) as [r1 [[d1 p1] s1]] eqn:Hrun;
    apply queue_protocol_output_spec in Hrun as (Hq1 & Hc1 & Hle1 & Hbytes1 & Hr1); try done;
    destruct r1 as [[[[]|]|]|e| |]; try done.
  all: try by intros [= <- <- <- <-]; split_and!; try done; destruct made; auto.
  - simpl in *. lia.
  - intros Hrun. apply IH in Hrun as (? & ? & ? & Hb & ?); [|done|lia]. split_and!; try done; [congruence|by etrans|by rewrite Hb].
Qed.

(** A queue that has been tried in this turn: it is empty now, or nothing more is queued. *)
Lemma queue_loop_settled fuel d p s o d' p' s' :
  clear s ∨ spent d = true → queue_loop limits grown fuel false (d, p, s) = (o, (d', p', s')) →
  match o with Ret (QueueProgress | QueueEmpty) => clear s' | _ => True end.
Proof.
  intros Hs. assert (Hone : match queue_protocol_output limits grown (tls_relay_buffer_capacity limits) (d, p, s) with
    | (Ret (ProtocolComplete (inl OutputEmpty)), (_, _, s1)) => clear s1 | (Ret ProtocolBudget, _) => True | _ => False end).
  { unfold queue_protocol_output. destruct (Nat.leb_spec (buf_len (output s)) (output_offset s)) as [|Hlt]; [done|].
    destruct Hs as [[Hnil _]|Hspent]; [unfold buf_len in Hlt; rewrite Hnil in Hlt; simpl in Hlt; lia|].
    unfold protocol_chunk, step_or_exhausted, or_exhausted. unfold spent in Hspent. by destruct (can_continue (budget d)). }
  destruct fuel as [|fuel]; cbn [queue_loop]; destruct (queue_protocol_output _ _ _ _) as [[[[[]|]|]|e| |] [[d1 p1] s1]]; try done;
    by intros [= <- _ _ <-].
Qed.

Definition after_queue (q : QueueStep) (r : Relay) : Prop :=
  match q with QueueProgress | QueueEmpty | QueueBudget => settled r | _ => True end.

Lemma queue_server_plaintext_spec {E} : holds_spec (E:=E) always (λ _, True) (queue_server_plaintext limits grown) after_queue.
Proof.
  intros r [Hpend Hout] _. unfold queue_server_plaintext.
  destruct (queue_loop _ _ _ _ _) as [o [[d p] s]] eqn:Hrun.
  apply queue_loop_spec in Hrun as (Hq & Hclass & Hle & Hbytes & Hres); [|done|unfold unsent, buf_len; rewrite length_drop; lia].
  destruct o as [q|e| |]; [|done..]. simpl. split; [by split|]. split; [done|]. split.
  - apply relayed_nil; [by split_and!; [..|intros _; apply Hq]|done| |done..]. unfold outgoing. simpl. by rewrite <-Hbytes.
  - by destruct q.
Qed.

Definition is_clear (r : Relay) : Prop := clear (upstream (proxy r)).
Lemma queue_again_spec {E} : holds_spec (E:=E) always settled (queue_server_plaintext limits grown)
  (λ q r, match q with QueueProgress | QueueEmpty => is_clear r | _ => True end).
Proof.
  intros r Hinv Hset. pose proof (queue_server_plaintext_spec (E:=E) r Hinv I) as Hq. unfold queue_server_plaintext in *.
  destruct (queue_loop _ _ _ _ _) as [o [[d p] s]] eqn:Hrun. apply queue_loop_settled in Hrun; [|done].
  destruct o as [q|e| |]; try done. destruct Hq as (? & ? & ? & _). by split_and!.
Qed.

(** ** The filter *)

Lemma filter_call_by e m d d' :
  (∀ f, m f = filter_event e f) → byte_event e → pays e d d' →
  holds_by always d is_clear (filter_call grown m) (λ _, d')
    (λ b r, output_offset (upstream (proxy r)) = 0 ∧ ((∀ f f' out, m f = (Ret false, f', out) → out = []) → b = false → is_clear r)).
Proof.
  intros Hm He Hpays r Hinv [Hout Hoff]. assert (Hbe : Forall byte_event [e]) by by repeat constructor. unfold filter_call. destruct (m (filter (proxy r))) as [[o f] out] eqn:Hrun.
  assert (Hun : unsent (upstream (proxy r)) = []) by (unfold unsent; by rewrite Hout, drop_nil).
  set (r' := (r <| proxy; filter := f |> <| proxy; upstream; output ::= _ |>)).
  assert (Hnew : outgoing (proxy r') = outgoing (proxy r) ++ out).
  { unfold outgoing. rewrite Hun, app_nil_r, <-!app_assoc. unfold r', unsent. simpl. by rewrite Hoff, drop_0. }
  assert (Hprefix : up_accepted (server_tls (proxy r')) `prefix_of` outgoing (proxy r) ++ out).
  { rewrite <-Hnew. by apply prefix_app_r. }
  destruct (pays_seen _ _ _ r r' Hpays eq_refl eq_refl) as [Hgoes Hends]. rewrite Hm in Hrun. destruct o as [b|e'| |].
  - split; [done|]. split; [done|]. split.
    + split; [done|]. exists [e]. split; [done|]. split; [done|]. simpl. by rewrite Hrun, app_nil_r.
    + split; [done|]. intros Hfalse ->. split; [|done]. simpl. by eapply Hfalse; rewrite Hm.
  - split; [done|]. exists [e]. split; [done|]. split; [by apply Hends|]. simpl. by rewrite Hrun.
  - split; [done|]. exists [e]. split; [done|]. split; [by apply Hends|]. simpl. by rewrite Hrun.
  - split; [done|]. exists [e]. split; [done|]. split; [by apply Hends|]. simpl. by rewrite Hrun.
Qed.

Lemma observe_response_by bs :
  holds_by always (Debt [] bs bs) is_clear (observe_response_call bs) (λ _, Debt [] [] bs) (λ _, is_clear).
Proof.
  intros r Hinv Hc. unfold observe_response_call. destruct (observe_response bs (filter (proxy r))) as [o f] eqn:Hrun.
  set (r' := (r <| proxy; filter := f |>)). change (outgoing (proxy r')) with (outgoing (proxy r)).
  assert (Hprefix : up_accepted (server_tls (proxy r')) `prefix_of` outgoing (proxy r) ++ []).
  { rewrite app_nil_r. by apply prefix_app_r. }
  assert (Hbe : Forall byte_event [ServerResponse bs]) by by repeat constructor.
  assert (Hpays : pays (ServerResponse bs) (Debt [] bs bs) (Debt [] [] bs)) by (split; [done|split; [apply app_nil_r|done]|done]).
  destruct (pays_seen _ _ _ r r' Hpays eq_refl eq_refl) as [Hgoes Hends]. destruct o as [b|e| |].
  - split; [done|]. split; [done|]. split; [|done]. split; [done|]. exists [ServerResponse bs]. split; [done|]. split; [done|].
    simpl. rewrite Hrun. simpl. by rewrite app_nil_r.
  - split; [done|]. exists [ServerResponse bs]. split; [done|]. split; [by apply Hends|]. simpl. by rewrite Hrun.
  - split; [done|]. exists [ServerResponse bs]. split; [done|]. split; [by apply Hends|]. simpl. by rewrite Hrun.
  - split; [done|]. exists [ServerResponse bs]. split; [done|]. split; [by apply Hends|]. simpl. by rewrite Hrun.
Qed.

(** ** Plaintext of the guest *)
Lemma read_guest_by n :
  holds_by always paid (λ r, settled r ∧ steps (budget (turn r)) ≤ n) (read_guest_plaintext limits grown)
    (λ o, match o with ProtocolComplete (PlaintextRead bs) => Debt bs [] [] | _ => paid end)
    (λ o r, match o with
      | ProtocolComplete v => (match v with PlaintextRead bs => are_bytes bs | _ => True end) ∧ steps (budget (turn r)) < n ∧ is_clear r
      | ProtocolBudget => True
      end).
Proof.
  intros r Hinv [Hset Hn]. unfold read_guest_plaintext.
  destruct (drive_protocol_op _ _ _) as [o [d [g b]]] eqn:Hrun.
  pose proof (protocol_op_spec _ _ _ _ _ _ _ Hrun) as [Hle Hop].
  set (r' := (r <| turn := d |> <| proxy; guest_tls := g |> <| proxy; plaintext_buf := b |>)).
  (* how the operation ended, what it read, and that the buffer is the same *)
  set (dg := match o with Ret (ProtocolComplete (PlaintextRead bs)) => bs | _ => [] end).
  assert (Hread : class b = class (plaintext_buf (proxy r)) ∧ returns o ∧ are_bytes dg ∧ plaintext_given g = plaintext_given (guest_tls (proxy r)) ++ dg).
  { destruct Hop as [(-> & [= -> ->] & _)|(chunk & _ & _ & _ & Hop)]; [split_and!; [done..|constructor|by rewrite app_nil_r]|].
    unfold read_guest_step in Hop. pose proof (read_returns chunk (guest_tls (proxy r))) as Hr.
    pose proof (read_given chunk (guest_tls (proxy r))) as Hg.
    destruct (read_plaintext_some chunk _) as [[[bs| |]|e| |] g1] eqn:Hread; simpl in Hr, Hg; destruct Hop as [-> [= -> ->]]; try done;
      (split_and!; [done..| |done]); [by eapply read_bytes|constructor..]. }
  destruct Hread as (Hclass & Hret & Hbytes & Hgiven).
  assert (Hrel : relayed_by Goes paid (Debt dg [] []) r r').
  { apply relayed_read; [by split_and!|done..|by rewrite app_nil_r]. }
  destruct o as [[v|]|e| |]; try done; [|by apply relayed_goes_ended].
  apply protocol_op_steps in Hrun as [Hs Hnot]. cbv beta iota. split; [done|]. split; [done|]. split; [by destruct v|].
  split; [by destruct v|]. split; [simpl; lia|]. destruct Hset as [Hc|Hc]; [done|congruence].
Qed.

Lemma forward_loop_spec fuel made :
  holds_spec always (λ r, settled r ∧ steps (budget (turn r)) ≤ fuel) (forward_loop limits grown fuel made) (λ step _, step ≠ StepBudget).
Proof.
  assert (Hmade : ∀ a b, a ≠ StepBudget → b ≠ StepBudget → holds_spec (E:=TlsSession.tls_error) (G:=G) (U:=U) always (λ _, True) (mret (if made : bool then a else b)) (λ step _, step ≠ StepBudget))
    by (intros a b Ha Hb; apply spec_ret; by destruct made).
  revert made Hmade. induction fuel as [|fuel IH]; intros made Hmade; cbn [forward_loop].
  - eapply by_bind; [apply (read_guest_by 0)| |done]. intros [v|] _; [|eapply spec_conseq; [by apply Hmade|done..]].
    intros r Hinv (_ & Hlt & _). lia.
  - eapply by_bind; [apply (read_guest_by (S fuel))| |done]. intros [v|] _; [|eapply spec_conseq; [by apply Hmade|done..]].
    destruct v as [bs| |]; [|eapply spec_conseq; [by apply Hmade|done..]..].
    apply (by_pure _ _ _ (are_bytes bs)); [by intros r _ [? _]|]. intros Hbytes.
    eapply (by_bind always); [|intros b _|done].
    { eapply by_conseq; [apply (by_steps fuel), (filter_call_by (FromGuest bs) _ _ paid); [done|done|]| |by intros].
      - split; [split; [apply app_nil_r|done]|done..].
      - intros r (_ & Hs & Hc). split; [done|lia]. }
    specialize (IH true ltac:(intros; by apply spec_ret)). destruct b; cbv beta.
    + eapply spec_seq.
      { eapply spec_conseq; [apply (by_steps fuel), queue_server_plaintext_spec| |by intros]. by intros r [_ ?]. }
      intros [| | | |]; cbv beta; try (by apply spec_ret); (eapply spec_conseq; [apply IH|by intros r [? ?]|done]).
    + eapply spec_conseq; [apply IH| |done]. intros r [[_ Hc] ?]. split; [|done]. left. apply Hc; [|done].
      intros f f' out. apply push_false.
Qed.

Lemma forward_spec : holds_spec always (λ _, True) (forward_plaintext_to_server limits grown) anything.
Proof.
  unfold forward_plaintext_to_server. eapply spec_seq; [apply queue_server_plaintext_spec|].
  intros [| | | |]; try (by apply spec_ret); apply spec_get; intros r0;
    (eapply spec_conseq; [apply forward_loop_spec|by intros r [Hs ->]|done]).
Qed.

(** With nothing to cut into buffers, reading is not put off. *)
Lemma queue_clear_spec {E} : holds_spec (E:=E) always is_clear (queue_server_plaintext limits grown) (λ q r, q = QueueEmpty ∧ settled r).
Proof.
  intros r Hinv Hc. pose proof (queue_server_plaintext_spec (E:=E) r Hinv I) as Hq.
  assert (Hempty : ∃ r', queue_server_plaintext (E:=E) limits grown r = (Ret QueueEmpty, r')).
  { unfold queue_server_plaintext. destruct Hc as [Hc _]. unfold buf_len. rewrite Hc. simpl. unfold queue_protocol_output, buf_len. rewrite Hc. simpl.
    by eexists. }
  destruct Hempty as [r' Hrun]. rewrite Hrun in *. destruct Hq as (? & ? & ? & ?). by split_and!.
Qed.

Lemma forward_clear_spec : holds_spec always is_clear (forward_plaintext_to_server limits grown) (λ step _, step ≠ StepBudget).
Proof.
  unfold forward_plaintext_to_server. eapply spec_seq; [apply queue_clear_spec|]. intros q.
  apply (spec_pure _ (q = QueueEmpty)); [by intros r _ [? _]|]. intros ->. apply spec_get. intros r0.
  eapply spec_conseq; [apply forward_loop_spec|by intros r [[_ ?] ->]|done].
Qed.

(** ** The side of the guest *)
Lemma side_write_returns bs s : returns (fst (side_write_plaintext (G:=G) bs s)).
Proof.
  destruct s as [g out]. unfold side_write_plaintext. destruct (_ || _); [done|].
  pose proof (write_returns bs g). by destruct (write_plaintext_some bs g).
Qed.
Lemma side_write_given bs s : plaintext_given (side_write_plaintext (G:=G) bs s).2.1 = plaintext_given s.1.
Proof.
  destruct s as [g out]. unfold side_write_plaintext. destruct (_ || _); [done|].
  pose proof (write_given bs g). by destruct (write_plaintext_some bs g).
Qed.

Lemma flush_ciphertext_kept s :
  returns (fst (flush_ciphertext (G:=G) limits grown s)) ∧ budget_le (side_turn (flush_ciphertext limits grown s).2) (side_turn s).
Proof.
  assert (Htake : ∀ s : @GuestTlsSide G, returns (fst (take_ciphertext limits grown s)) ∧
    budget_le (side_turn (take_ciphertext limits grown s).2) (side_turn s)).
  { clear s. intros s. unfold take_ciphertext, take_protocol_output. destruct (_ =? 0); [done|].
    destruct (protocol_chunk _ _) as [len d] eqn:Hchunk. apply chunk_spec in Hchunk as [Hle _].
    destruct len as [len|]; [|done]. unfold try_byte_with_capacity.
    destruct (byte_try_take_ends limits len (side_pool s)) as (r & p & -> & Hends).
    destruct r; try done. simpl. split; [done|]. etrans; [apply state_changed_le|]. etrans; [apply spend_budget_le|done]. }
  unfold flush_ciphertext. destruct (_ && _); [|apply Htake].
  destruct (drive_protocol_op _ _ _) as [o [d [g out]]] eqn:Hrun.
  apply protocol_op_spec in Hrun as [Hle Hop]. set (s1 := Build_GuestTlsSide _ _ _ _).
  specialize (Htake s1) as [? ?].
  destruct Hop as [(-> & _)|(chunk & _ & _ & _ & Hop)]; [done|]. unfold drain_step in Hop.
  pose proof (drain_returns (chunk `min` vec_room (side_output s)) (connection s)) as Hr.
  destruct (drain_ciphertext _ _) as [[[]|e| |] g1]; simpl in Hr; destruct Hop as [-> _]; try done;
    (split; [done|]; by etrans).
Qed.

(** Ciphertext for the guest keeps its buffer. *)
Lemma flush_class s : class (side_output (flush_ciphertext (G:=G) limits grown s).2) = class (side_output s).
Proof.
  assert (Htake : ∀ s : @GuestTlsSide G, class (side_output (take_ciphertext limits grown s).2) = class (side_output s)).
  { clear s. intros s. unfold take_ciphertext, take_protocol_output. destruct (_ =? 0); [done|].
    destruct (protocol_chunk _ _) as [[len|] d]; [|done]. destruct (try_byte_with_capacity _ _ _) as [[]?]; done. }
  unfold flush_ciphertext. destruct (_ && _); [|apply Htake].
  destruct (drive_protocol_op _ _ _) as [o [d [g out]]] eqn:Hrun. apply protocol_op_spec in Hrun as [_ Hop].
  assert (Hclass : class out = class (side_output s)).
  { destruct Hop as [(_ & [= _ ->] & _)|(chunk & _ & _ & _ & Hop)]; [done|]. unfold drain_step in Hop.
    destruct (drain_ciphertext _ _) as [[[]|e| |] g1]; by destruct Hop as [_ [= _ ->]]. }
  destruct o as [[v|]|e| |]; try done. by rewrite Htake.
Qed.

(** Nothing is read from the guest. *)
Lemma flush_given s : plaintext_given (connection (flush_ciphertext (G:=G) limits grown s).2) = plaintext_given (connection s).
Proof.
  assert (Htake : ∀ s : @GuestTlsSide G, connection (take_ciphertext limits grown s).2 = connection s).
  { clear s. intros s. unfold take_ciphertext. destruct (take_protocol_output _ _ _ _) as [o [[d p] out]].
    by destruct o as [[[[]|]|]|e| |]. }
  unfold flush_ciphertext. destruct (_ && _); [|by rewrite Htake].
  destruct (drive_protocol_op _ _ _) as [o [d [g out]]] eqn:Hrun. apply protocol_op_spec in Hrun as [_ Hop].
  assert (Hg : plaintext_given g = plaintext_given (connection s)).
  { destruct Hop as [(_ & [= -> _] & _)|(chunk & _ & _ & _ & Hop)]; [done|]. unfold drain_step in Hop.
    pose proof (drain_given (chunk `min` vec_room (side_output s)) (connection s)) as Hd.
    destruct (drain_ciphertext _ _) as [[[]|e| |] g1]; by destruct Hop as [_ [= -> _]]. }
  destruct o as [[v|]|e| |]; try done. by rewrite Htake.
Qed.

Lemma quiet_guest_output w : quiet (guest_output limits grown w).
Proof.
  intros r Hinv. unfold guest_output, poll_ciphertext_output. set (s := Build_GuestTlsSide _ _ _ _).
  pose proof (flush_ciphertext_kept s) as [Hret Hle]. pose proof (flush_class s) as Hclass. pose proof (flush_given s) as Hgiven.
  destruct (flush_ciphertext limits grown s) as [[[]|e| |] s1]; simpl in *; try done; split; try done;
    by destruct w.
Qed.

Lemma calm_write_guest bs : calm (write_guest_plaintext bs).
Proof.
  intros r Hinv. unfold write_guest_plaintext. destruct (drive_protocol_op _ _ _) as [o [d [g out]]] eqn:Hrun.
  apply protocol_op_spec in Hrun as [Hle Hop].
  assert (Hout : out = tls_out (proxy r)).
  { destruct Hop as [(_ & [= _ ->] & _)|(chunk & _ & _ & _ & Hop)]; [done|]. unfold write_guest_step, side_write_plaintext in Hop.
    destruct (take chunk bs) as [|x l]; [by destruct Hop as [_ [= _ ->]]|].
    destruct (_ || _); [by destruct Hop as [_ [= _ ->]]|].
    destruct (write_plaintext_some _ _) as [[[]|e| |] g1]; by destruct Hop as [_ [= _ ->]]. }
  rewrite Hout in *.
  assert (Hgiven : plaintext_given g = plaintext_given (guest_tls (proxy r))).
  { destruct Hop as [(_ & [= ->] & _)|(chunk & _ & _ & _ & Hop)]; [done|]. unfold write_guest_step in Hop.
    destruct (take chunk bs) as [|x l]; [by destruct Hop as [_ [= ->]]|].
    pose proof (side_write_given (x :: l) (guest_tls (proxy r), tls_out (proxy r))) as Hw.
    destruct (side_write_plaintext _ _) as [[[]|e| |] [g1 out1]]; by destruct Hop as [_ [= -> _]]. }
  assert (Hframe : frame r (r <| turn := d |> <| proxy; guest_tls := g |> <| proxy; tls_out := tls_out (proxy r) |>)) by by split.
  destruct Hop as [(-> & _)|(chunk & _ & _ & _ & Hop)]; [done|]. unfold write_guest_step in Hop.
  destruct (take chunk bs) as [|b l]; [by destruct Hop as [-> _]|].
  pose proof (side_write_returns (b :: l) (guest_tls (proxy r), tls_out (proxy r))) as Hr.
  destruct (side_write_plaintext _ _) as [[[]|e| |] s1]; simpl in Hr; by destruct Hop as [-> _].
Qed.

Lemma write_guest_steps bs (r : Relay) v r' : write_guest_plaintext bs r = (Ret (ProtocolComplete v), r') →
  steps (budget (turn r')) < steps (budget (turn r)).
Proof.
  unfold write_guest_plaintext. destruct (drive_protocol_op _ _ _) as [o [d [g out]]] eqn:Hrun.
  intros [= -> <-]. by apply protocol_op_steps in Hrun as [? _].
Qed.

Lemma quiet_set_pending offset_ len : quiet (set_server_pending (G:=G) (U:=U) offset_ len).
Proof. by apply quiet_modify. Qed.

(** A change of the proxy that leaves the server's side alone *)
Lemma quiet_state_change {E} (f : TlsHttp1Proxy → TlsHttp1Proxy) :
  (∀ p, server_tls (f p) = server_tls p ∧ guest_tls (f p) = guest_tls p ∧ filter (f p) = filter p ∧ upstream (f p) = upstream p ∧
    plaintext_buf (f p) = plaintext_buf p ∧ tls_out (f p) = tls_out p) → quiet (E:=E) (state_change f).
Proof.
  intros Hf r Hinv. unfold state_change, apply_state_change.
  destruct (step_or_exhausted (turn r)) as [ok d] eqn:Hstep. apply step_budget_le in Hstep as [Hle _].
  destruct ok; [|by split]. destruct (Hf (proxy r)) as (Hs & Hg & Hfl & Hu & Hp & Ho).
  assert (Hout : outgoing (f (proxy r)) = outgoing (proxy r)) by (unfold outgoing; by rewrite Hs, Hu).
  split; simpl; rewrite ?Hu, ?Hs; try done; [unfold same_kind; simpl; by rewrite Hs, Hu, Hp, Ho|unfold given; simpl; by rewrite Hg|unfold said; simpl; by rewrite Hs|]. intros [? ?]. split; [done|]. simpl. by rewrite Hu.
Qed.

Lemma quiet_on_turn {E} f : (∀ d, budget_le (f d) d) → quiet (on_turn (G:=G) (U:=U) f (E:=E)).
Proof. intros Hf. apply quiet_modify. intros r Hinv. split; try done. apply Hf. Qed.

Lemma try_ret {E F A} (m : stm Relay F A) r a r' : (stm_try m : stm Relay E (A + F)) r = (Ret (inl a), r') → m r = (Ret a, r').
Proof. unfold stm_try. destruct (m r) as [[?|?| |] ?]; congruence. Qed.

Lemma guest_plaintext_loop_kept fuel made (r : Relay) :
  relay_inv r → steps (budget (turn r)) ≤ fuel → kept (guest_plaintext_loop limits grown fuel made r) r.
Proof.
  revert made r. induction fuel as [|fuel IH]; intros made r Hinv Hfuel; cbn [guest_plaintext_loop];
    (apply kept_bind; [done|by apply quiet_get|]; intros r0 r1 [= <- <-] _ _;
     destruct (server_buf (proxy r)) as [buf|]; [|by apply quiet_ret];
     apply kept_bind; [done|apply quiet_try; [apply calm_write_guest|done]|];
     intros [[[[|n]|]|]|e] r2 Hv Hframe Hinv2; try apply try_ret, write_guest_steps in Hv; try lia;
     try by apply quiet_ret).
  - apply quiet_bind; [by apply quiet_state_change|intros _; apply quiet_ret|done].
  - apply kept_bind; [done|by apply quiet_set_pending|]. intros _ r3 _ [_ _ _ _ _ _ _ (_ & Hs3 & _) _] Hinv3.
    apply kept_bind; [done|by apply quiet_guest_output|]. intros [poll|] r4 _ [_ _ _ _ _ _ _ (_ & Hs4 & _) _] Hinv4; [by apply quiet_ret|].
    apply IH; [done|lia].
  - apply kept_bind; [done|by apply quiet_guest_output|]. intros [poll|] r4 _ _ Hinv4; [by apply quiet_ret|].
    destruct (negb made); by apply quiet_ret.
Qed.

Lemma quiet_write_pending_guest : quiet (write_pending_guest_plaintext limits grown).
Proof.
  intros r Hinv. unfold write_pending_guest_plaintext. apply kept_bind; [done|by apply quiet_get|]. intros r0 r1 [= <- <-] _ _.
  destruct (_ <=? _); [|by apply guest_plaintext_loop_kept].
  apply quiet_bind; [apply quiet_set_pending|intros _; apply quiet_ret|done].
Qed.

(** ** Ciphertext of the guest *)
Lemma quiet_drop_write w : pooled (pw_bytes w) → quiet (drop_write (G:=G) (U:=U) limits w).
Proof.
  intros Hw r Hinv. unfold drop_write. destruct (byte_recycle_pooled (E:=Empty_set) limits _ (pool r) Hw) as [p ->]. by split.
Qed.

Lemma quiet_put_back w : pooled (pw_bytes w) → quiet (put_back (G:=G) (U:=U) limits w).
Proof.
  intros Hw r Hinv. unfold put_back. destruct (queue_push_front w (pending r)) as [dropped q] eqn:Hpush.
  apply queue_inv_push_front in Hpush as [Hq _]; [|apply Hinv|done].
  set (r1 := (r <| pending := q |>)). assert (Hframe : frame r r1) by (split; try done; intros [? ?]; by split).
  destruct dropped; [|done]. pose proof (quiet_drop_write w Hw r1 (fr_inv _ _ Hframe Hinv)) as Hd.
  unfold kept in *. destruct (drop_write limits w r1) as [[]?]; try done. by etrans.
Qed.

Lemma feed_guest_returns fuel bs g : length bs ≤ fuel → returns (fst (feed_guest_tls (G:=G) fuel bs g)).
Proof.
  clear Hrelay. revert bs g. induction fuel as [|fuel IH]; intros [|b bs] g Hlen; simpl in Hlen; try done; [lia|]. cbn [feed_guest_tls].
  pose proof (accept_returns (b :: bs) g) as Hr.
  destruct (accept_ciphertext_bounded (b :: bs) g) as [[[n| |]|e| |] g1] eqn:Ha; simpl in Hr; try done.
  apply accept_progress in Ha as [Hpos Hn]; [|done]. apply IH. rewrite length_drop. simpl in *. lia.
Qed.

Lemma feed_given fuel bs g : plaintext_given (feed_guest_tls (G:=G) fuel bs g).2 = plaintext_given g.
Proof.
  clear Hrelay. revert bs g. induction fuel as [|fuel IH]; intros [|b bs] g; try done. cbn [feed_guest_tls].
  pose proof (accept_given (b :: bs) g) as Hg.
  destruct (accept_ciphertext_bounded (b :: bs) g) as [[[n| |]|e| |] g1]; simpl in Hg; try done. by rewrite IH.
Qed.

Lemma feed_step_given bs d g : plaintext_given (feed_guest_tls_step (G:=G) bs (d, g)).2.2 = plaintext_given g.
Proof.
  unfold feed_guest_tls_step. destruct (drive_protocol_op _ _ _) as [o [d' g']] eqn:Hrun. apply protocol_op_spec in Hrun as [_ Hop].
  destruct Hop as [(_ & -> & _)|(chunk & _ & _ & _ & Hop)]; [done|]. unfold mbind, stm_bind in Hop.
  pose proof (feed_given chunk (take chunk bs) g) as Hg. simpl.
  destruct (feed_guest_tls chunk (take chunk bs) g) as [[[]|e| |] g1]; simpl in Hop; by destruct Hop as [_ ->].
Qed.

Lemma feed_step_spec bs (r : Relay) :
  match feed_step bs r with
  | (Ret v, r') => frame r r' ∧ match v with ProtocolComplete n => 0 < n ∧ n ≤ length bs | ProtocolBudget => True end
  | (Fail _, r') => frame r r'
  | _ => False
  end.
Proof.
  pose proof (feed_step_given bs (turn r) (guest_tls (proxy r))) as Hgiven.
  unfold feed_step, feed_guest_tls_step in *. destruct (drive_protocol_op _ _ _) as [o [d g]] eqn:Hrun.
  apply protocol_op_spec in Hrun as [Hle Hop].
  assert (Hframe : frame r (r <| turn := d |> <| proxy; guest_tls := g |>)) by by split.
  destruct Hop as [(-> & _)|(chunk & Hpos & Hlen & _ & Hop)]; [done|]. unfold mbind, stm_bind in Hop.
  pose proof (feed_guest_returns chunk (take chunk bs) (guest_tls (proxy r)) ltac:(rewrite length_take; lia)) as Hr.
  destruct (feed_guest_tls chunk (take chunk bs) _) as [[[]|e| |] g1]; simpl in Hr; try done; simpl in Hop; destruct Hop as [-> _]; [|done].
  split; [done|]. lia.
Qed.

Lemma local_wait_le d : budget_le (wait_for_local_buffer_capacity_with_continuation d) d.
Proof. by split_and!. Qed.

Definition poll_goes (p : Poll) : bool := match p with PollError _ => false | _ => true end.
Definition fed_goes (x : PendingWrite + Poll) : bool := match x with inl _ => true | inr p => poll_goes p end.

Lemma over_drop {A} (go : A → bool) w a : pooled (pw_bytes w) → go a = false → over go (drop_write (G:=G) (U:=U) limits w;; mret a).
Proof.
  intros Hw Ha r. unfold mbind, stm_bind, drop_write.
  by destruct (byte_recycle_pooled (E:=Empty_set) limits _ (pool r) Hw) as [p ->].
Qed.

(** After a quiet call, the rest *)
Lemma spec_then {E A B} (go : B → bool) (m : stm Relay E A) (k : A → stm Relay E B) P R :
  stable P → quiet m → (∀ a, holds_spec go P (k a) R) → holds_spec go P (m ≫= k) R.
Proof. intros HP Hm Hk. eapply spec_seq; [by apply spec_quiet|done]. Qed.

Lemma feed_loop_spec fuel w feed_limit :
  pooled (pw_bytes w) → feed_limit ≤ buf_len (pw_bytes w) → feed_limit - offset w ≤ fuel →
  holds_spec fed_goes (λ _, True) (feed_loop limits grown fuel w feed_limit)
    (λ x _, match x with inl w => pooled (pw_bytes w) | inr _ => True end).
Proof.
  revert w. induction fuel as [|fuel IH]; intros w Hw Hlimit Hfuel; cbn [feed_loop];
    (destruct (Nat.leb_spec feed_limit (offset w)) as [Hge|Hlt]; [by apply spec_ret|]); [lia|].
  set (bs := take _ _). assert (Hbs : length bs ≤ feed_limit - offset w) by (unfold bs; rewrite length_take; lia).
  eapply (spec_bind try_goes); [apply (spec_try (λ _, True) (feed_step bs)
      (λ v _, match v with ProtocolComplete n => 0 < n ∧ n ≤ length bs | ProtocolBudget => True end))| |].
  { apply spec_frame. intros r _ _. pose proof (feed_step_spec bs r) as Hs. by destruct (feed_step bs r) as [[v|e| |] r']. }
  2: { intros [v|e] Hgo; [done|]. by apply over_drop. }
  intros [[n|]|e] Hgo; [| |done].
  2: { apply spec_then; [done|by apply quiet_put_back|]. intros _. by apply spec_ret. }
  eapply (spec_pure _ (0 < n ∧ n ≤ length bs)); [by intros ? ? ?|]. intros [Hpos Hn].
  set (w' := (w <| offset ::= _ |>)). assert (Hsame : pw_bytes w' = pw_bytes w ∧ offset w' = offset w + n) by done.
  destruct Hsame as [Hsame Hoff]. clearbody w'. assert (Hw' : pooled (pw_bytes w')) by by rewrite Hsame.
  eapply (spec_bind try_goes).
  { eapply spec_conseq; [apply (spec_try (λ _, True)), forward_spec|done|by intros]. }
  2: { intros [v|e] Hgo2; [done|]. by apply over_drop. }
  intros [step|e] Hgo2; [|done].
  eapply (spec_conseq _ _ (λ _, True)); [|done|by intros ? ? H'; exact H'].
  assert (Hback : ∀ p, poll_goes p = true →
    holds_spec fed_goes (λ _, True) (put_back (G:=G) (U:=U) limits w';; mret (inr p)) (λ x _, match x with inl w => pooled (pw_bytes w) | inr _ => True end)).
  { intros p _. apply spec_then; [done|by apply quiet_put_back|]. intros _. by apply spec_ret. }
  destruct step; try by apply Hback.
  - apply IH; [done|by rewrite Hsame|lia].
  - apply spec_then; [done|by apply quiet_put_back|]. intros _.
    apply spec_then; [done|apply quiet_on_turn, local_wait_le|]. intros _. by apply spec_ret.
  - apply spec_then; [done|by apply quiet_state_change|]. intros _.
    apply spec_then; [done|by apply quiet_drop_write|]. intros _. by apply spec_ret.
  - apply spec_then; [done|by apply quiet_state_change|]. intros _.
    apply spec_then; [done|by apply quiet_drop_write|]. intros _. by apply spec_ret.
Qed.

Lemma feed_pending_spec can_emit : holds_spec poll_goes (λ _, True) (feed_pending_guest_tls limits grown can_emit) anything.
Proof.
  apply spec_get. intros r0. destruct (queue_pop_front (pending r0)) as [popped q] eqn:Hpop.
  destruct popped as [w|].
  2: { apply (spec_conseq _ _ (λ _, True) _ _ anything); [|done..].
       apply spec_then; [done|by apply quiet_on_turn|]. intros _. by apply spec_ret. }
  apply (spec_pure _ (queue_inv q ∧ pooled (pw_bytes w))).
  { intros r Hinv [_ ->]. apply queue_inv_pop in Hpop as [? [? _]]; [done|apply Hinv]. }
  intros [Hq Hw]. apply (spec_conseq _ _ (λ _, True) _ _ anything); [|done..].
  apply spec_then; [done|apply quiet_modify; intros r _; split; try done; intros [? ?]; by split|]. intros _.
  eapply (spec_bind fed_goes); [apply feed_loop_spec; [done|lia|lia]| |].
  2: { intros [?|p] Hgo; [done|]. by apply over_ret. }
  intros [w'|p] Hgo; [|by apply spec_ret]. apply (spec_pure _ (pooled (pw_bytes w'))); [done|]. intros Hw'.
  apply (spec_conseq _ _ (λ _, True) _ _ anything); [|done..].
  apply spec_then; [done|by apply quiet_put_back|]. intros _.
  apply spec_then; [done| |intros p; by apply spec_ret].
  destruct can_emit; [apply quiet_guest_output|apply quiet_ret].
Qed.

(** ** What the server sends *)
Lemma quiet_close_guest : quiet (close_guest_tls_after_upstream_eof (G:=G) (U:=U) limits grown).
Proof.
  unfold close_guest_tls_after_upstream_eof. apply quiet_bind; [apply quiet_guest_output|]. intros [p|]; [apply quiet_ret|].
  apply quiet_bind; [apply quiet_get|]. intros r. apply quiet_bind.
  { destruct (guest_close_notify_queued _); [apply quiet_ret|]. apply quiet_modify. intros r1 _. split; try done.
    unfold given. simpl. apply notify_given. }
  intros _. apply quiet_bind; [apply quiet_guest_output|]. intros p. apply quiet_ret.
Qed.

Lemma quiet_upstream_eof : quiet (handle_upstream_eof (G:=G) (U:=U) limits grown).
Proof.
  unfold handle_upstream_eof. apply quiet_bind; [apply quiet_get|]. intros r.
  destruct (response_eof _); [apply quiet_close_guest|apply quiet_ret|apply quiet_close_guest].
Qed.

Lemma server_plaintext_by bs : holds_by poll_goes (Debt [] bs bs) is_clear (handle_server_plaintext limits grown bs) (λ _, paid) anything.
Proof.
  unfold handle_server_plaintext. eapply (by_bind always); [apply by_modify; [apply clear_stable|done]| |done]. intros [] _.
  eapply (by_bind try_goes); [apply by_try, observe_response_by| |].
  2: { intros [?|e] Hgo; [done|]. by apply over_ret. }
  intros [[]|e] Hgo; [|done]. eapply (by_bind try_goes).
  { apply by_try, (filter_call_by (ServerPlaintext bs) _ _ paid); [done|done|]. split; [done|done|]. unfold plaintext_bytes. simpl. by rewrite !app_nil_r. }
  2: { intros [?|e] Hgo2; [done|]. by apply over_ret. }
  intros [released|e] Hgo2; [|done]. apply (spec_conseq _ _ (λ _, True) _ _ anything); [|done..].
  eapply (spec_seq _ _ _ _ anything).
  { destruct released; [|by apply spec_ret]. eapply spec_seq; [apply queue_server_plaintext_spec|]. intros q. by apply spec_ret. }
  intros []. apply spec_then; [done|by apply quiet_set_pending|]. intros _.
  apply spec_then; [done|apply quiet_write_pending_guest|]. intros p. by apply spec_ret.
Qed.

Lemma quiet_server_buf : quiet (ensure_server_buf (G:=G) (U:=U) limits grown).
Proof.
  intros r Hinv. unfold ensure_server_buf. destruct (server_buf (proxy r)); [done|]. unfold try_byte_with_capacity.
  destruct (byte_try_take_ends limits (tls_relay_buffer_capacity limits) (pool r)) as (o & p & -> & Hends).
  by destruct o.
Qed.

Definition drive_due (o : TlsPlaintextDrive + TlsSession.tls_error) : debt :=
  match o with inl (DrivePlaintext bs) => Debt [] bs bs | _ => paid end.
Lemma read_upstream_by :
  holds_by (E:=Empty_set) always paid is_clear (stm_try (read_upstream limits)) drive_due (λ _, is_clear).
Proof.
  intros r Hinv Hset. unfold stm_try, read_upstream. set (n := tls_relay_buffer_capacity limits). set (q := negb _).
  pose proof (up_read_returns n q (turn r) (server_tls (proxy r))) as Hret.
  destruct (up_read_plaintext n q _) as [o [d u]] eqn:Hrun.
  apply up_read_exact in Hrun as (Hacc & Hgiven & Hpeer & Hle).
  set (r' := (r <| turn := d |> <| proxy; server_tls := u |>)).
  assert (Hrel : relayed_by Goes paid (Debt [] (drive_out o) (drive_out o)) r r').
  { apply relayed_read; [by split_and!|done| |by rewrite app_nil_r|done]. unfold outgoing. simpl. by rewrite Hacc. }
  assert (Hinv' : relay_inv r') by done. destruct o as [[bs| | |]|e| |]; try done; by split_and!.
Qed.

Lemma read_server_spec : holds_spec poll_goes settled (read_server_tls (G:=G) (U:=U) limits grown) anything.
Proof.
  assert (Hwait : ∀ P, stable P → holds_spec poll_goes P (local_wait (G:=G) (U:=U);; mret PollPending) anything).
  { intros P HP. apply spec_then; [done|apply quiet_on_turn, local_wait_le|]. intros _. by apply spec_ret. }
  unfold read_server_tls. eapply spec_seq; [apply queue_again_spec|].
  assert (Hread : holds_spec poll_goes is_clear
    (poll ← write_pending_guest_plaintext limits grown;
     match poll with
     | Some poll => mret poll
     | None =>
       ok ← ensure_server_buf limits grown;
       if negb ok then local_wait;; mret PollPending
       else
         r ← stm_get;
         let before_read := progress (report (turn r)) in
         read ← stm_try (read_upstream limits);
         match read with
         | inl DriveEof => handle_upstream_eof limits grown
         | inl (DrivePlaintext bs) => handle_server_plaintext limits grown bs
         | inl DriveBlocked =>
           stm_modify (λ r, r <| proxy; server_read_pending := false |>);;
           r ← stm_get;
           (if bool_decide (progress (report (turn r)) = before_read) then on_turn (block_on REACTOR_READ) else mret tt);;
           mret PollPending
         | inl DriveBudget => mret PollPending
         | inr UnexpectedEof => handle_upstream_eof limits grown
         | inr e => mret (PollError (inl e))
         end
     end) anything).
  { apply spec_then; [apply clear_stable|apply quiet_write_pending_guest|]. intros [p|]; [by apply spec_ret|].
    apply spec_then; [apply clear_stable|apply quiet_server_buf|]. intros ok. destruct ok; cbn [negb]; [|apply Hwait, clear_stable].
    apply spec_get. intros r0. cbv zeta. eapply (by_bind always); [| |done].
    { eapply by_conseq; [apply read_upstream_by|by intros ? [? _]|by intros ? ? Hq; exact Hq]. }
    assert (Heof : holds_spec poll_goes is_clear (handle_upstream_eof (G:=G) (U:=U) limits grown) anything)
      by (eapply spec_conseq; [apply (spec_quiet _ (λ _, True)); [done|apply quiet_upstream_eof]|done..]).
    intros [[bs| | |]|e] _; [apply server_plaintext_by|exact Heof| |by apply spec_ret|destruct e; [exact Heof|by apply spec_ret..]].
    apply spec_then; [apply clear_stable|by apply quiet_modify|]. intros _. apply spec_get. intros r1.
    apply (spec_conseq _ _ (λ _, True) _ _ anything); [|done..].
    apply spec_then; [done| |intros _; by apply spec_ret]. case_bool_decide; [apply quiet_on_turn, block_on_le|apply quiet_ret]. }
  intros [| | | |]; [exact Hread..| | |]; [by apply Hwait|by apply spec_ret|by apply Hwait].
Qed.
End steps.
