(* ===== verification/TlsRelayCorrect.v ===== *)
(** * What an intercepted server learns

    Over any turns of the relay, what the server's session is given is what the
    HTTP filter of its host put out on the plaintext of the guest and of the
    server, in order; and so the secrets that are not declared for that host do
    not influence one byte of it. *)
From S2P Require Import Prelude Fields Text Policy Gateway Io Raw HttpHead Http1 HttpStream HttpSecrecy HttpTotal IoSlot Limits Buffers Drive DriveCorrect TlsSession TlsRelay TlsRelayLaws TlsRelaySteps.
Local Open Scope nat_scope.

Section relay.
Context {G U : Type} `{GuestTlsLaws G} `{UpstreamLaws U} (limits : NetworkLimits) (grown : nat → nat → nat).
Context (Hrelay : 0 < tls_relay_buffer_capacity limits).
Abbreviation Relay := (@TlsRelay.Relay G U).
Abbreviation TlsHttp1Proxy := (@TlsRelay.TlsHttp1Proxy G U).
Abbreviation Poll := (TlsProxyPoll Empty_set).

(** ** Writing to the server *)
Lemma quiet_write_server : quiet (write_pending_server_plaintext (G:=G) (U:=U)).
Proof.
  intros r [Hpend [Hok Hpool]]. unfold write_pending_server_plaintext. set (q := out_queue _) in *.
  pose proof (up_write_returns (turn r) (pool r) q (server_tls (proxy r)) Hok Hpool) as Hret.
  destruct (up_write_pending_plaintext _) as [o [[[d p] q'] u]] eqn:Hrun.
  apply up_write_exact in Hrun as (Hpeer & Hgiven & Hpool' & Hrun); [|done..]. destruct o as [[]|e| |]; try done.
  - destruct Hrun as (Hacc & Hok' & Hle). simpl.
    assert (Hframe : ∀ r', proxy r' = (proxy r) <| server_tls := u |> <| upstream; out_queue := q' |> → budget_le (turn r') (turn r) →
      pending r' = pending r → frame r r').
    { intros r' Hp Hb Hpq. split; unfold given, said; rewrite ?Hp; try done.
      - unfold same_kind. rewrite Hp. by split_and!.
      - unfold outgoing. simpl. change (unsent _) with (unsent (upstream (proxy r))). by rewrite !app_assoc, Hacc.
      - intros _. unfold relay_inv. rewrite Hp, Hpq. simpl. split; [done|]. by split. }
    destruct (queue_is_empty q'); by apply Hframe.
  - simpl. split; [by split_and!|]. split; [|done]. etrans; [exact Hrun|]. unfold outgoing. rewrite app_assoc. by apply prefix_app_r.
Qed.

Lemma flush_server_spec :
  holds_spec always (λ _, True) (flush_server_plaintext (G:=G) (U:=U) limits grown) (λ blocked r, blocked = false → settled r).
Proof.
  unfold flush_server_plaintext. apply spec_then; [done|apply quiet_write_server|]. intros _.
  eapply spec_seq; [by apply queue_server_plaintext_spec|]. intros q.
  apply (spec_conseq _ _ (λ r, queue_blocked q = false → settled r) _ _ (λ blocked r, blocked = false → settled r)); [|by destruct q|done].
  apply spec_then; [by intros r r' Hf Hs Hq; eapply settled_stable; [exact Hf|apply Hs]| |intros _; by apply spec_ret].
  destruct (queue_made_progress q); [apply quiet_write_server|apply quiet_ret].
Qed.

Lemma flushed_spec rest : holds_spec poll_goes settled rest anything → holds_spec poll_goes (λ _, True) (flushed (G:=G) (U:=U) limits grown rest) anything.
Proof.
  intros Hrest. unfold flushed. eapply (spec_bind try_goes); [apply (spec_try (λ _, True)), flush_server_spec| |].
  2: { intros [?|e] Hgo; [done|]. by apply over_ret. }
  intros [blocked|e] Hgo; [|done]. destruct blocked.
  - apply (spec_conseq _ _ (λ _, True) _ _ anything); [|done..].
    apply spec_then; [done|apply quiet_on_turn, local_wait_le|]. intros _. by apply spec_ret.
  - eapply spec_conseq; [exact Hrest|by intros r Hs; apply Hs|done].
Qed.

Lemma calm_finish w e : calm (finish_server_write_if_needed (G:=G) (U:=U) w e).
Proof.
  intros r Hinv. unfold finish_server_write_if_needed. destruct (_ || _); [done|]. destruct (_ || _ || _); [done|].
  pose proof (up_finish_returns (turn r) (server_tls (proxy r))) as Hret.
  destruct (up_finish_write _) as [o [d u]] eqn:Hrun. apply up_finish_exact in Hrun as [(Hacc & Hgiven & Hpeer) Hle].
  assert (Hframe : frame r (r <| turn := d |> <| proxy; server_tls := u |>)).
  { split; try done. unfold outgoing. simpl. by rewrite Hacc. }
  by destruct o.
Qed.

Lemma drive_read_spec permit : holds_spec poll_goes settled (drive_read (G:=G) (U:=U) limits grown permit) anything.
Proof.
  unfold drive_read. destruct (READ_UPSTREAM permit); [by apply read_server_spec|].
  apply spec_then; [apply settled_stable| |].
  { apply quiet_try. intros r Hinv. set (q := negb _). pose proof (up_park_returns q (server_tls (proxy r))) as Hret.
    destruct (up_park_read q _) as [o u] eqn:Hrun. apply up_park_exact in Hrun as (Hrun & Hgiven & Hpeer).
    assert (Hframe : frame r (r <| proxy; server_tls := u |>)) by (split; try done; unfold outgoing; simpl; by rewrite Hrun).
    by destruct o. }
  intros [[]|e]; [|by apply spec_ret]. apply spec_get. intros r0. apply (spec_conseq _ _ (λ _, True) _ _ anything); [|done..].
  apply spec_then; [done| |intros _; by apply spec_ret].
  destruct (server_read_pending _); [by apply quiet_on_turn|apply quiet_ret].
Qed.

Lemma drive_idle_spec w permit : holds_spec poll_goes settled (drive_idle (G:=G) (U:=U) limits grown w permit) anything.
Proof.
  unfold drive_idle. eapply (spec_bind try_goes); [apply (spec_try settled); apply spec_quiet; [apply settled_stable|apply quiet_write_server]| |].
  2: { intros [?|e] Hgo; [done|]. by apply over_ret. }
  intros [[]|e] Hgo; [|done]. apply spec_get. intros r0. apply (spec_conseq _ _ settled _ _ anything); [|by intros r [? _]|done].
  apply spec_then; [apply settled_stable|apply quiet_try, calm_finish|]. intros [[]|e]; [apply drive_read_spec|by apply spec_ret].
Qed.

Lemma drive_feed_spec permit : holds_spec poll_goes (λ _, True) (drive_feed (G:=G) (U:=U) limits grown permit) anything.
Proof.
  unfold drive_feed. eapply (spec_bind poll_goes); [by apply feed_pending_spec| |].
  2: { by intros [] Hp. }
  intros p Hp. destruct p; try by apply spec_ret. apply spec_get. intros r0. apply (spec_conseq _ _ (λ _, True) _ _ anything); [|done..].
  apply spec_then; [done| |intros _; by apply spec_ret]. case_match; [by apply quiet_on_turn|apply quiet_ret].
Qed.

Lemma when_some_spec c m rest : quiet m → holds_spec poll_goes (λ _, True) rest anything →
  holds_spec poll_goes (λ _, True) (when_some (G:=G) (U:=U) c m rest) anything.
Proof.
  intros Hm Hrest. unfold when_some. apply spec_then; [done|destruct c; [done|apply quiet_ret]|].
  intros [p|]; [by apply spec_ret|done].
Qed.

Lemma relay_drive_spec c w permit : holds_spec poll_goes (λ _, True) (relay_drive (G:=G) (U:=U) limits grown c w permit) anything.
Proof.
  apply when_some_spec; [by apply quiet_guest_output|]. apply when_some_spec; [by apply quiet_write_pending_guest|].
  destruct c; [by apply spec_ret|]. apply flushed_spec. apply spec_get. intros r0.
  apply (spec_conseq _ _ (λ _, True) _ _ anything); [|done..].
  destruct (_ && _); [apply drive_feed_spec|]. apply flushed_spec, drive_idle_spec.
Qed.
End relay.
