(* ===== verification/TlsProxy.v ===== *)
(** * An intercepted connection from its ClientHello on
      (TlsTcpProxy of src/libs/agentdp-network/src/egress/tcp/tls.rs)

    The proxy of a connection to an intercepted port: it collects the
    ClientHello, routes the connection by the name in it, completes the TLS
    handshake with the guest, connects to the server under that name and relays.
    Sessions are interfaces ([GuestTls], [Upstream]); the runtime of a turn is
    the time of the system and what a connection attempt gives. *)
From S2P Require Import Prelude Fields Text Policy Dns Attribution Gateway Io Raw HttpHead Http1 IoSlot Limits Buffers Drive TlsHello TlsRoute TlsSession TlsRelay.
Local Open Scope nat_scope.

Inductive TlsDrive := DriveReady | DrivePending.

(** How sessions begin *)
Class TlsSessions (G U : Type) `{TlsCrypto} := {
  accept_session : TlsServerConfig → outcome tls_error G;
  up_handshake : stm (DriveTurn * U) tls_error TlsDrive;
}.

Section proxy.
Context {G U : Type} `{GuestTls G} `{Upstream U} `{TlsSessions G U} (limits : NetworkLimits) (grown : nat → nat → nat).

(** The fields of [ConnectingServer]; [cs_upstream] groups [server_pending], [substitute_buf] and
    [server_output_offset] *)
Record Connecting := {
  cs_guest_tls : G;
  cs_filter : Http1Filter;
  cs_tls_out : ByteBuf;
  cs_plaintext_buf : ByteBuf;
  cs_upstream : OutputState;
  cs_server_tls : U;
}.
#[export] Instance Connecting_eta : Eta Connecting := λ c,
  {| cs_guest_tls := cs_guest_tls c; cs_filter := cs_filter c; cs_tls_out := cs_tls_out c;
     cs_plaintext_buf := cs_plaintext_buf c; cs_upstream := cs_upstream c; cs_server_tls := cs_server_tls c |}.

Inductive TlsTcpProxyState :=
| WaitingClientHelloBuffer (policy : TlsEgressPolicy)
| ReadingClientHello (policy : TlsEgressPolicy) (initial : ByteBuf)
| GuestTlsHandshake (policy : TlsEgressPolicy) (intercept : InterceptedTls) (guest : G) (out : ByteBuf)
| ConnectingServer (c : Connecting)
| OpenIntercept (p : @TlsHttp1Proxy G U)
| Closing.

Record TlsTcpProxy := {
  requested_dst : SocketAddr;
  upstream_dst : SocketAddr;
  tp_authority : option str;
  tp_pending : WriteQueue;
  guest_write_finished : bool;
  close_requested : bool;
  tp_state : TlsTcpProxyState;
}.
#[export] Instance TlsTcpProxy_eta : Eta TlsTcpProxy := λ p,
  {| requested_dst := requested_dst p; upstream_dst := upstream_dst p; tp_authority := tp_authority p; tp_pending := tp_pending p;
     guest_write_finished := guest_write_finished p; close_requested := close_requested p; tp_state := tp_state p |}.

(** [TlsTcpProxy::new], [write], [finish_guest_write] and [close] *)
Definition tls_tcp_proxy_new (dst : SocketAddr) (policy : TlsEgressPolicy) : TlsTcpProxy :=
  {| requested_dst := dst; upstream_dst := tls_dst policy; tp_authority := None; tp_pending := queue_new;
     guest_write_finished := false; close_requested := false; tp_state := WaitingClientHelloBuffer policy |}.
(** The buffer of an empty write is dropped. *)
Definition proxy_write (bs : ByteBuf) (p : TlsTcpProxy) : option ByteBuf * TlsTcpProxy :=
  let (dropped, q) := queue_push bs (tp_pending p) in (dropped, p <| tp_pending := q |>).
Definition finish_guest_write (p : TlsTcpProxy) : TlsTcpProxy := p <| guest_write_finished := true |>.
Definition proxy_close (p : TlsTcpProxy) : TlsTcpProxy := p <| close_requested := true |>.

(** [has_local_work], [has_reactor_write_work], [mark_reactor_ready], [io] and [phase] *)
Definition proxy_has_local_work (guest_can_send : bool) (p : TlsTcpProxy) : bool :=
  let waiting := negb (queue_is_empty (tp_pending p)) in
  match tp_state p with
  | WaitingClientHelloBuffer _ => close_requested p || guest_write_finished p || waiting
  | ReadingClientHello _ initial => close_requested p || guest_write_finished p || negb (buf_len initial =? 0) || waiting
  | GuestTlsHandshake _ _ guest out => close_requested p || waiting || (guest_can_send && (wants_write guest || negb (buf_len out =? 0)))
  | ConnectingServer c => close_requested p || (guest_can_send && (wants_write (cs_guest_tls c) || negb (buf_len (cs_tls_out c) =? 0)))
  | OpenIntercept r => relay_has_local_work guest_can_send (guest_write_finished p) (queue_is_empty (tp_pending p)) r
  | Closing => true
  end.
Definition proxy_has_reactor_write_work (p : TlsTcpProxy) : bool :=
  match tp_state p with
  | ConnectingServer c => up_has_reactor_write_work (cs_server_tls c)
  | OpenIntercept r => relay_has_reactor_write_work (guest_write_finished p) (queue_is_empty (tp_pending p)) r
  | _ => false
  end.
Definition server_ready (readable writable : bool) (u : U) : U :=
  let u := up_mark_reactor_ready readable writable u in
  if readable || writable then up_mark_connect_ready u else u.
Definition proxy_mark_reactor_ready (readable writable : bool) (p : TlsTcpProxy) : TlsTcpProxy :=
  match tp_state p with
  | ConnectingServer c => p <| tp_state := ConnectingServer (c <| cs_server_tls ::= server_ready readable writable |>) |>
  | OpenIntercept r => p <| tp_state := OpenIntercept (r <| server_tls ::= server_ready readable writable |>) |>
  | _ => p
  end.
Definition proxy_io (p : TlsTcpProxy) : IoSlotState :=
  match tp_state p with
  | ConnectingServer c => up_io (cs_server_tls c) | OpenIntercept r => up_io (server_tls r) | _ => slot_new Disabled
  end.
Definition phase (p : TlsTcpProxy) : bytes :=
  match tp_state p with
  | WaitingClientHelloBuffer _ | ReadingClientHello _ _ => bytes_of "client-hello"
  | GuestTlsHandshake _ _ _ _ => bytes_of "guest-tls-handshake"
  | ConnectingServer _ => bytes_of "upstream-tls-handshake"
  | OpenIntercept _ => bytes_of "relay"
  | Closing => bytes_of "closing"
  end.

(** What a turn borrows, and its runtime *)
Record Conn := { c_turn : DriveTurn; c_pool : BufferPool; c_proxy : TlsTcpProxy }.
#[export] Instance Conn_eta : Eta Conn := λ c, {| c_turn := c_turn c; c_pool := c_pool c; c_proxy := c_proxy c |}.
Record Runtime := { wall : Z; connect : SocketAddr → str → TlsClientConfig → outcome tls_error U }.

(** The bytes so far, where they go and the writes behind them *)
Record Bypass := { by_dst : SocketAddr; by_bytes : ByteBuf; by_pending : WriteQueue }.
Abbreviation Poll := (TlsProxyPoll Bypass).
Abbreviation M := (stm Conn Empty_set).

Definition set_state (s : TlsTcpProxyState) : M unit := stm_modify (λ c, c <| c_proxy; tp_state := s |>).
Definition on_drive_turn (f : DriveTurn → DriveTurn) : M unit := stm_modify (λ c, c <| c_turn ::= f |>).
Definition conn_error (text : bytes) : Poll := PollError (inr text).

(** The end of the scope of a buffer *)
Definition drop_buf (b : ByteBuf) : M unit := λ c,
  match byte_recycle limits b (c_pool c) with
  | Ret p => (Ret tt, c <| c_pool := p |>) | Fail e => (Fail e, c) | Panic => (Panic, c) | Timeout => (Timeout, c)
  end.
Definition take_buf (cap : nat) : M (option ByteBuf) := λ c,
  match try_byte_with_capacity limits cap (c_pool c) with
  | (Ret b, p) => (Ret (Some b), c <| c_pool := p |>)
  | (Fail _, p) => (Ret None, c <| c_pool := p |>)
  | (Panic, p) => (Panic, c <| c_pool := p |>) | (Timeout, p) => (Timeout, c <| c_pool := p |>)
  end.
(** A write that goes back to the front of the queue *)
Definition push_back (w : PendingWrite) : M unit := λ c,
  let (dropped, q) := queue_push_front w (tp_pending (c_proxy c)) in
  let c := c <| c_proxy; tp_pending := q |> in
  match dropped with None => (Ret tt, c) | Some b => drop_buf b c end.

(** [self.pending.pop_front()] *)
Definition pop_write : M (option PendingWrite) := λ c,
  let (w, q) := queue_pop_front (tp_pending (c_proxy c)) in (Ret w, c <| c_proxy; tp_pending := q |>).

(** ** The guest's session within a turn *)
Definition conn_feed (guest : G) (bs : bytes) : stm Conn tls_error (G * DriveProtocolPoll nat) := λ c,
  match feed_guest_tls_step bs (c_turn c, guest) with
  | (Ret v, (d, g)) => (Ret (g, v), c <| c_turn := d |>)
  | (Fail e, (d, _)) => (Fail e, c <| c_turn := d |>)
  | (Panic, (d, _)) => (Panic, c <| c_turn := d |>) | (Timeout, (d, _)) => (Timeout, c <| c_turn := d |>)
  end.
Definition conn_output (w : GuestTlsOutputWait) (guest : G) (out : ByteBuf) : M (G * ByteBuf * option Poll) := λ c,
  match poll_ciphertext_output limits grown w
          {| side_turn := c_turn c; side_pool := c_pool c; connection := guest; side_output := out |} with
  | (o, s) =>
    let c := c <| c_turn := side_turn s |> <| c_pool := side_pool s |> in
    match o with
    | Ret poll => (Ret (connection s, side_output s, poll), c)
    | Fail e => (Fail e, c) | Panic => (Panic, c) | Timeout => (Timeout, c)
    end
  end.
Definition is_event (p : Poll) : bool := match p with PollError _ | PollClosed => true | _ => false end.

(** ** The ClientHello *)

(** The arm of an intercepted name *)
Definition start_guest_tls_handshake (policy : TlsEgressPolicy) (intercept : InterceptedTls) (initial : ByteBuf) : M Poll :=
  tls_out ← take_buf (tls_relay_buffer_capacity limits);
  match tls_out with
  | None =>
    set_state (ReadingClientHello policy initial);;
    on_drive_turn (block_on LOCAL_BUFFER_CAPACITY);;
    mret PollPending
  | Some tls_out =>
    match accept_session (it_server_config intercept) with
    | Ret guest =>
      feed ← stm_try (conn_feed guest (as_slice initial));
      match feed with
      | inl (guest, ProtocolComplete feed_len) =>
        let initial := set_bytes grown (drop feed_len (as_slice initial)) initial in
        (if buf_len initial =? 0 then mret tt else push_back {| pw_bytes := initial; offset := 0 |});;
        '(guest, tls_out, poll) ← conn_output WaitLocalBuffer guest tls_out;
        (if buf_len initial =? 0 then drop_buf initial else mret tt);;
        match poll with
        | Some poll =>
          if is_event poll then drop_buf tls_out;; mret poll
          else set_state (GuestTlsHandshake policy intercept guest tls_out);; mret poll
        | None => set_state (GuestTlsHandshake policy intercept guest tls_out);; mret PollPending
        end
      | inl (_, ProtocolBudget) =>
        set_state (ReadingClientHello policy initial);;
        drop_buf tls_out;;
        mret PollPending
      | inr e => drop_buf initial;; drop_buf tls_out;; mret (PollError (inl e))
      end
    | Fail e => drop_buf tls_out;; drop_buf initial;; mret (PollError (inl e))
    | Panic => stm_lift Panic
    | Timeout => stm_lift Timeout
    end
  end.

Definition reason_text (r : BlockReason) : bytes :=
  match r with AuthorityNotAllowed => bytes_of "AuthorityNotAllowed" | TlsInterceptUnavailable => bytes_of "TlsInterceptUnavailable" end.

Definition route_client_hello (rt : Runtime) (policy : TlsEgressPolicy) (initial : ByteBuf) (host : str) : M Poll :=
  let host := normalize_host host in
  stm_modify (λ c, c <| c_proxy; tp_authority := Some host |>);;
  match tls_route (wall rt) policy host with
  | Ret (TlsDrop reason) =>
    drop_buf initial;;
    mret (conn_error (bytes_of "egress blocked by TLS policy: " ++ reason_text reason ++ bytes_of "; host: " ++ utf8_encode host))
  | Ret TlsBypass =>
    c ← stm_get;
    stm_modify (λ c, c <| c_proxy; tp_pending := queue_new |>);;
    mret (PollBypass {| by_dst := tls_dst policy; by_bytes := initial; by_pending := tp_pending (c_proxy c) |})
  | Fail intercept => start_guest_tls_handshake policy intercept initial
  | Panic => stm_lift Panic
  | Timeout => stm_lift Timeout
  end.

(** The next write of the guest joins the bytes so far; [None] when there is none. *)
Definition extend_initial (initial : ByteBuf) : M (option ByteBuf) :=
  write ← pop_write;
  match write with
  | Some w =>
    drop_buf (pw_bytes w);;
    mret (Some (set_bytes grown (as_slice initial ++ write_bytes w) initial))
  | None => mret None
  end.

Definition wait_for_hello (policy : TlsEgressPolicy) (initial : ByteBuf) : M Poll :=
  set_state (ReadingClientHello policy initial);;
  on_drive_turn (block_on GUEST_RECV);;
  mret PollPending.

(** The loop of [poll_client_hello]: each round but the last takes a write. *)
Fixpoint client_hello_loop (fuel : nat) (rt : Runtime) (policy : TlsEgressPolicy) (initial : ByteBuf) : M Poll :=
  begun ← (if buf_len initial =? 0 then extend_initial initial else mret (Some initial));
  match begun with
  | None => wait_for_hello policy initial
  | Some initial =>
    if match head (as_slice initial) with Some byte => negb (byte =? 22)%Z | None => false end
    then drop_buf initial;; mret (conn_error (bytes_of "not a TLS ClientHello"))
    else if client_hello_limit limits <=? buf_len initial
    then drop_buf initial;; mret (conn_error (bytes_of "TLS ClientHello too large or missing SNI"))
    else match extract_sni (as_slice initial) with
         | Ret host => route_client_hello rt policy initial host
         | Fail _ =>
           extended ← extend_initial initial;
           match extended with
           | None => wait_for_hello policy initial
           | Some initial =>
             match fuel with O => stm_lift Timeout | S fuel => client_hello_loop fuel rt policy initial end
           end
         | Panic => stm_lift Panic
         | Timeout => stm_lift Timeout
         end
  end.

Definition poll_client_hello (rt : Runtime) : M Poll :=
  c ← stm_get;
  if close_requested (c_proxy c) then mret PollClosed
  else match tp_state (c_proxy c) with
       | ReadingClientHello policy initial => 
         set_state Closing;;
         client_hello_loop (length (entries (tp_pending (c_proxy c)))) rt policy initial
       | _ => set_state Closing;; on_drive_turn (block_on GUEST_RECV);; mret PollPending
       end.

Definition poll_client_hello_buffer (rt : Runtime) : M Poll :=
  c ← stm_get;
  match tp_state (c_proxy c) with
  | WaitingClientHelloBuffer policy =>
    set_state Closing;;
    initial ← take_buf (client_hello_limit limits `min` Z.to_nat 4096);
    match initial with
    | Some initial => set_state (ReadingClientHello policy initial);; poll_client_hello rt
    | None =>
      set_state (WaitingClientHelloBuffer policy);;
      on_drive_turn (block_on LOCAL_BUFFER_CAPACITY);;
      mret PollPending
    end
  | _ => set_state Closing;; on_drive_turn (block_on GUEST_RECV);; mret PollPending
  end.

(** ** The handshake with the guest *)
Definition restore_guest_tls_handshake (policy : TlsEgressPolicy) (intercept : InterceptedTls) (guest : G) (out : ByteBuf) : M unit :=
  set_state (GuestTlsHandshake policy intercept guest out).

(** [forward_plaintext_to_server] before there is a server: the relay of the call has none. *)
Definition forward_before_connect (filter_ : Http1Filter) (plaintext substitute : ByteBuf) (guest : G) (out : ByteBuf)
    : M ((RelayStep + tls_error) * @TlsHttp1Proxy G unit) := λ c,
  let p := {| guest_tls := guest; server_tls := tt; filter := filter_; tls_out := out; server_buf := None;
              server_buf_pending_offset := 0; server_buf_pending_len := 0; plaintext_buf := plaintext;
              upstream := {| out_queue := queue_new; output := substitute; output_offset := 0 |};
              server_read_pending := false; guest_tls_closed := false; guest_close_notify_queued := false |} in
  match forward_plaintext_to_server limits grown
          {| turn := c_turn c; pool := c_pool c; pending := tp_pending (c_proxy c); proxy := p |} with
  | (o, r) =>
    let c := c <| c_turn := turn r |> <| c_pool := pool r |> in
    match o with
    | Ret step => (Ret (inl step, proxy r), c)
    | Fail e => (Ret (inr e, proxy r), c) | Panic => (Panic, c) | Timeout => (Timeout, c)
    end
  end.

(** The end of the scope of the buffers of a relay that is not opened *)
Fixpoint drop_writes (l : list PendingWrite) : M unit :=
  match l with [] => mret tt | w :: l => drop_buf (pw_bytes w);; drop_writes l end.
Definition drop_relay (r : @TlsHttp1Proxy G unit) : M unit :=
  drop_writes (entries (out_queue (upstream r)));; drop_buf (output (upstream r));; drop_buf (plaintext_buf r).

(** [open_intercept] *)
Definition open_intercept (p : TlsTcpProxy) : TlsTcpProxy :=
  match tp_state p with
  | ConnectingServer c =>
    p <| tp_state := OpenIntercept {| guest_tls := cs_guest_tls c; server_tls := cs_server_tls c; filter := cs_filter c;
                                     tls_out := cs_tls_out c; server_buf := None; server_buf_pending_offset := 0;
                                     server_buf_pending_len := 0; plaintext_buf := cs_plaintext_buf c; upstream := cs_upstream c;
                                     server_read_pending := false; guest_tls_closed := false; guest_close_notify_queued := false |} |>
  | _ => p <| tp_state := Closing |>
  end.

Definition lift_poll (p : TlsProxyPoll Empty_set) : Poll :=
  match p with
  | PollBytes b => PollBytes b | PollError e => PollError e | PollClosed => PollClosed | PollPending => PollPending
  | PollBypass b => match b with end
  end.

(** [drive] on a connection whose ClientHello was read and whose handshake with the guest is done *)
Definition drive_connected (permit : TcpProxyPermit) : M Poll := λ c,
  let p := c_proxy c in
  match tp_state p with
  | ConnectingServer cs =>
    if (wants_write (cs_guest_tls cs) || negb (buf_len (cs_tls_out cs) =? 0)) && READ_UPSTREAM permit then
      match conn_output WaitLocalBuffer (cs_guest_tls cs) (cs_tls_out cs) c with
      | (Ret (guest, out, poll), c) =>
        (Ret (default PollPending poll), c <| c_proxy; tp_state := ConnectingServer (cs <| cs_guest_tls := guest |> <| cs_tls_out := out |>) |>)
      | (Fail e, c) => (Fail e, c) | (Panic, c) => (Panic, c) | (Timeout, c) => (Timeout, c)
      end
    else if close_requested p then (Ret PollClosed, c)
    else match up_handshake (c_turn c, cs_server_tls cs) with
         | (o, (d, u)) =>
           let p := p <| tp_state := ConnectingServer (cs <| cs_server_tls := u |>) |> in
           match o with
           | Ret DriveReady =>
             let '(_, d, p) := apply_state_change (λ p, (tt, open_intercept p)) d p in
             (Ret PollPending, c <| c_turn := d |> <| c_proxy := p |>)
           | Ret DrivePending => (Ret PollPending, c <| c_turn := d |> <| c_proxy := p |>)
           | Fail e => (Ret (PollError (inl e)), c <| c_turn := d |> <| c_proxy := p |>)
           | Panic => (Panic, c) | Timeout => (Timeout, c)
           end
         end
  | OpenIntercept relay =>
    match relay_drive limits grown (close_requested p) (guest_write_finished p) permit
            {| turn := c_turn c; pool := c_pool c; pending := tp_pending p; proxy := relay |} with
    | (o, r) =>
      let c := {| c_turn := turn r; c_pool := pool r;
                  c_proxy := p <| tp_pending := pending r |> <| tp_state := OpenIntercept (proxy r) |> |} in
      match o with
      | Ret poll => (Ret (lift_poll poll), c)
      | Fail e => (Fail e, c) | Panic => (Panic, c) | Timeout => (Timeout, c)
      end
    end
  | _ => (Ret PollClosed, c)
  end.

Definition connect_intercept_after_guest_handshake (rt : Runtime) (permit : TcpProxyPermit)
    (policy : TlsEgressPolicy) (intercept : InterceptedTls) (guest : G) (out : ByteBuf) : M Poll :=
  let no_buffer := restore_guest_tls_handshake policy intercept guest out;; on_drive_turn (block_on LOCAL_BUFFER_CAPACITY);; mret PollPending in
  plaintext ← take_buf (tls_relay_buffer_capacity limits);
  match plaintext with
  | None => no_buffer
  | Some plaintext =>
    let plaintext := set_bytes grown (replicate (tls_relay_buffer_capacity limits) 0%Z) plaintext in
    substitute ← take_buf (tls_relay_buffer_capacity limits);
    match substitute with
    | None => drop_buf plaintext;; no_buffer
    | Some substitute =>
      let filter_ := http1_filter_new (it_secrets intercept) (authority_str (it_authority intercept)) in
      '(forwarded, r) ← forward_before_connect filter_ plaintext substitute guest out;
      let connected : M Poll :=
        match connect rt (tls_dst policy) (authority_str (it_authority intercept)) (client_config policy) with
        | Ret u =>
          set_state (ConnectingServer {| cs_guest_tls := guest_tls r; cs_filter := filter r; cs_tls_out := tls_out r;
            cs_plaintext_buf := plaintext_buf r; cs_upstream := upstream r; cs_server_tls := u |});;
          drive_connected permit
        | Fail e => drop_relay r;; drop_buf (tls_out r);; mret (PollError (inl e))
        | Panic => stm_lift Panic
        | Timeout => stm_lift Timeout
        end in
      match forwarded with
      | inl (StepProgress | StepBlocked | StepProgressBlocked) => connected
      | inl StepBudget =>
        restore_guest_tls_handshake policy intercept (guest_tls r) (tls_out r);; drop_relay r;; mret PollPending
      | inl (StepProgressClosed | StepClosed) => stm_modify (λ c, c <| c_proxy ::= finish_guest_write |>);; connected
      | inr e => drop_relay r;; drop_buf (tls_out r);; mret (PollError (inl e))
      end
    end
  end.

(** The writes of the guest while the handshake lasts: [inl] when it is done, [inr] for a return.  A
    round feeds at least a byte of what is queued. *)
Fixpoint handshake_loop (fuel : nat) (policy : TlsEgressPolicy) (intercept : InterceptedTls) (write : option PendingWrite)
    (guest : G) (out : ByteBuf) : M ((G * ByteBuf) + Poll) :=
  let rest (guest : G) (out : ByteBuf) (w : option PendingWrite) :=
    match fuel with O => stm_lift Timeout | S fuel => handshake_loop fuel policy intercept w guest out end in
  match write with
  | None =>
    if negb (is_handshaking guest) then mret (inl (guest, out))
    else
      popped ← pop_write;
      match popped with
      | None =>
        restore_guest_tls_handshake policy intercept guest out;;
        on_drive_turn (block_on GUEST_RECV);;
        mret (inr PollPending)
      | Some w => rest guest out (Some w)
      end
  | Some w =>
    if (offset w <? buf_len (pw_bytes w)) && is_handshaking guest then
      feed ← stm_try (conn_feed guest (write_bytes w));
      match feed with
      | inr e => drop_buf out;; drop_buf (pw_bytes w);; mret (inr (PollError (inl e)))
      | inl (guest, ProtocolBudget) =>
        push_back w;;
        restore_guest_tls_handshake policy intercept guest out;;
        mret (inr PollPending)
      | inl (guest, ProtocolComplete n) =>
        let w := w <| offset ::= λ o, o + n |> in
        '(guest, out, poll) ← conn_output WaitLocalBuffer guest out;
        match poll with
        | Some poll =>
          push_back w;;
          (if is_event poll then drop_buf out else restore_guest_tls_handshake policy intercept guest out);;
          mret (inr poll)
        | None => rest guest out (Some w)
        end
      end
    else push_back w;; rest guest out None
  end.

(** [poll_guest_tls_handshake] *)
Definition poll_guest_tls_handshake (rt : Runtime) (permit : TcpProxyPermit) : M Poll :=
  c ← stm_get;
  if close_requested (c_proxy c) then mret PollClosed
  else match tp_state (c_proxy c) with
       | GuestTlsHandshake policy intercept guest out =>
         set_state Closing;;
         '(guest, out, poll) ← (if wants_write guest || negb (buf_len out =? 0) then conn_output WaitLocalBuffer guest out
                                else mret (guest, out, None));
         match poll with
         | Some poll =>
           (if is_event poll then drop_buf out else restore_guest_tls_handshake policy intercept guest out);;
           mret poll
         | None =>
           done ← handshake_loop (3 * pending_bytes (tp_pending (c_proxy c)) + 1) policy intercept None guest out;
           match done with
           | inl (guest, out) => connect_intercept_after_guest_handshake rt permit policy intercept guest out
           | inr poll => mret poll
           end
         end
       | _ => set_state Closing;; on_drive_turn (block_on GUEST_RECV);; mret PollPending
       end.

(** [TlsTcpProxy::drive] *)
Definition tls_proxy_drive (rt : Runtime) (permit : TcpProxyPermit) : M Poll :=
  c ← stm_get;
  let p := c_proxy c in
  let finished := guest_write_finished p && queue_is_empty (tp_pending p) in
  match tp_state p with
  | WaitingClientHelloBuffer _ => if finished then mret PollClosed else poll_client_hello_buffer rt
  | ReadingClientHello _ _ => if finished then mret PollClosed else poll_client_hello rt
  | GuestTlsHandshake _ _ _ _ => if finished then mret PollClosed else poll_guest_tls_handshake rt permit
  | ConnectingServer _ | OpenIntercept _ | Closing => drive_connected permit
  end.
End proxy.
