(* ===== verification/TlsProxyCorrect.v ===== *)
(** * Intercepted connections from end to end

    From the first byte of the guest to the bytes the server is given: a server
    is connected to only under an allowed name that the guest's ClientHello asks
    for, and the values of secrets not declared for that name influence nothing
    it receives. *)
From S2P Require Import Prelude Fields Text Policy Dns Attribution Gateway Io Raw HttpHead Http1 HttpStream HttpSecrecy HttpTotal IoSlot Limits Buffers Drive DriveCorrect TlsHello TlsRoute TlsSession TlsRelay TlsRelayLaws TlsRelaySteps TlsRelayCorrect TlsProxy.
Local Open Scope nat_scope.

(** ** A relay without a server, for the calls made before there is one *)
#[export] Instance no_upstream : Upstream unit := {
  up_accepted _ := []; up_given _ := []; up_peer _ := ({| ip := V4 0%Z 0%Z 0%Z 0%Z; port := 0%Z |}, []); up_write_finished _ := true;
  up_io _ := slot_new Disabled; up_wants_write _ := false; up_has_reactor_write_work _ := false;
  up_mark_reactor_ready _ _ u := u; up_mark_connect_ready u := u;
  up_write_pending_plaintext s := (Ret tt, s); up_finish_write s := (Ret tt, s);
  up_read_plaintext _ _ s := (Ret DriveBlocked, s); up_park_read _ s := (Ret tt, s);
}.
#[export] Instance no_upstream_laws : UpstreamLaws unit.
Proof.
  split; try done.
  - intros d p q u o d' p' q' u' Hok Hpool [= <- <- <- <- <-]. by split_and!.
  - intros d u o d' u' [= <- <- <-]. by split_and!.
  - intros n q d u o d' u' [= <- <- <-]. by split_and!.
Qed.

(** The crypto library and the sessions return. *)
Class TlsSessionsLaws (G U : Type) `{TlsSessions G U} `{Upstream U} `{GuestTls G} := {
  issue_returns host until ca : returns (server_config_for_host host until ca);
  session_returns config : returns (accept_session (G:=G) (U:=U) config);
  session_fresh config g : accept_session (G:=G) (U:=U) config = Ret g → plaintext_given g = [];
  handshake_returns d u : returns (fst (up_handshake (G:=G) (d, u)));
  handshake_exact d u o d' u' : up_handshake (G:=G) (d, u) = (o, (d', u')) → same_upstream u u';
}.

(** ** Pools of empty buffers *)
Section pools.
Context (limits : NetworkLimits).
Definition pool_clean (p : BufferPool) : Prop := ∀ c l, bucket c (byte_pool p) = Some l → Forall (λ v, vec_bytes v = []) l.

Lemma clean_set c l p : Forall (λ v, vec_bytes v = []) l → pool_clean p → pool_clean (p <| byte_pool := set_bucket c l (byte_pool p) |>).
Proof.
  intros Hl Hp c' l'. simpl. rewrite bucket_set_bucket. destruct (decide _); [|apply Hp].
  destruct (bucket c' (byte_pool p)); [by intros [= <-]|done].
Qed.

Lemma recycle_clean {E} b p p' : pool_clean p → byte_recycle (E:=E) limits b p = Ret p' → pool_clean p'.
Proof.
  intros Hp. unfold byte_recycle, buckets_recycle, bucket_mut, mbind, outcome_bind.
  destruct (bucket (class b) (byte_pool p)) as [l|] eqn:Hl; [|done]. intros [= <-]. destruct (_ <? _); [|by destruct p].
  apply clean_set; [|done]. constructor; [by destruct (can_pool _ _ _)|by eapply Hp].
Qed.

Lemma take_clean cap p r p' : pool_clean p → byte_try_take limits cap p = (r, p') →
  pool_clean p' ∧ match r with Ret b => as_slice b = [] | _ => True end.
Proof.
  intros Hp. unfold byte_try_take, buckets_take. destruct (bucket _ (byte_pool p)) as [[|v rest]|] eqn:Hb.
  1,3: by intros [= <- <-]; destruct p.
  pose proof (Hp _ _ Hb) as Hall. apply Forall_cons in Hall as [Hv Hrest]. destruct (_ <? _).
  - unfold buckets_recycle, bucket_mut, mbind, outcome_bind. rewrite bucket_set_bucket, decide_True, Hb by done.
    intros [= <- <-]. split; [|done]. pose proof (clean_set (for_capacity limits cap) rest p Hrest Hp) as H1.
    destruct (_ <? _); [|done]. by apply (clean_set _ (v :: rest) _ ltac:(by constructor) H1).
  - intros [= <- <-]. split; [by apply clean_set|done].
Qed.
End pools.

Section proxy.
Context {G U : Type} `{GuestTlsLaws G} `{UpstreamLaws U} `{!TlsCrypto} `{!TlsSessions G U} `{!TlsSessionsLaws G U}.
Context (limits : NetworkLimits) (grown : nat → nat → nat) (Hrelay : 0 < tls_relay_buffer_capacity limits).
(** The policy the connection was accepted under *)
Context (tls : TlsInterceptConfig) (now wall_ : Z) (pol : NetworkPolicy) (policy : TlsEgressPolicy) (Hpolicy : policy_ok tls now wall_ pol policy).
Abbreviation Conn := (@Conn G U _).
Abbreviation TlsTcpProxy := (@TlsTcpProxy G U _).
Abbreviation Runtime := (@Runtime U _).
Abbreviation M := (stm Conn Empty_set).
Abbreviation Poll := (TlsProxyPoll Bypass).

(** ** What a connection holds, after the guest sent the bytes *)
Section received.
Context (received : bytes).

(** The guest asked for the name, and the policy allows it. *)
Definition asked (host : str) : Prop := ∃ hello, hello `prefix_of` received ∧ extract_sni hello = Ret host.
Definition name_of (host : str) : Authority := authority_new (normalize_host host).
Definition intercepted (i : InterceptedTls) : Prop :=
  ∃ host later, asked host ∧ route_ok tls pol now wall_ later (normalize_host host) (Fail i).

(** A filter of the host of the connection, after some calls *)
Definition filter_of (a : Authority) : Http1Filter := http1_filter_new (secrets pol) (authority_str a).
(** The calls were made with what the sessions gave, in order; what the server said last may not have
    followed what the filter holds back, when the connection is over. *)
Definition accounted (goes : bool) (g : G) (u : U) (es : list HttpSecrecy.event) : Prop :=
  guest_bytes es = plaintext_given g ∧ response_bytes es = up_given u ∧
  if goes then plaintext_bytes es = up_given u else plaintext_bytes es `prefix_of` up_given u.
(** What waits to be given to the server *)
Definition waiting (out : OutputState) : bytes := queue_bytes (out_queue out) ++ unsent out.

Definition serves (i : InterceptedTls) (g : G) (u : U) (f : Http1Filter) (out : OutputState) : Prop :=
  intercepted i ∧ up_peer u = (tls_dst policy, authority_str (it_authority i)) ∧
  ∃ es, Forall byte_event es ∧ accounted true g u es ∧ run_filter es (filter_of (it_authority i)) = (up_accepted u ++ waiting out, Ret f).

(** The sessions of a connection: what the server was given, and what waits for it, is what a filter of
    its name put out on what the sessions gave; a part of it when the connection is over. *)
Definition learned (goes : bool) (g : G) (u : U) (out : OutputState) : Prop :=
  ∃ i es, Forall byte_event es ∧ intercepted i ∧ up_peer u = (tls_dst policy, authority_str (it_authority i)) ∧ accounted goes g u es ∧
    if goes then up_accepted u ++ waiting out = (run_filter es (filter_of (it_authority i))).1
    else up_accepted u `prefix_of` (run_filter es (filter_of (it_authority i))).1.

Definition state_inv (q : WriteQueue) (s : @TlsTcpProxyState G U _) : Prop :=
  match s with
  | WaitingClientHelloBuffer p => p = policy ∧ queue_bytes q = received
  | ReadingClientHello p initial => p = policy ∧ pooled initial ∧ as_slice initial ++ queue_bytes q = received
  | GuestTlsHandshake p i g out => p = policy ∧ pooled out ∧ intercepted i ∧ plaintext_given g = []
  | ConnectingServer c => queue_inv (out_queue (cs_upstream c)) ∧ ∃ i, serves i (cs_guest_tls c) (cs_server_tls c) (cs_filter c) (cs_upstream c)
  | OpenIntercept p => queue_inv (out_queue (upstream p)) ∧ ∃ i, serves i (guest_tls p) (server_tls p) (filter p) (upstream p)
  | Closing => True
  end.
Definition proxy_inv (p : TlsTcpProxy) : Prop := queue_inv (tp_pending p) ∧ state_inv (tp_pending p) (tp_state p).

(** The sessions of a connection that has a server, and what is to be written to it *)
Definition sessions_of (p : TlsTcpProxy) : option (G * U * OutputState) :=
  match tp_state p with
  | ConnectingServer c => Some (cs_guest_tls c, cs_server_tls c, cs_upstream c)
  | OpenIntercept r => Some (guest_tls r, server_tls r, upstream r)
  | _ => None
  end.
Definition proxy_learned (goes : bool) (p : TlsTcpProxy) : Prop :=
  ∀ g u out, sessions_of p = Some (g, u, out) → learned goes g u out.

(** A connection that passes untouched is one the configuration lists, and none of its bytes is lost. *)
Definition bypass_ok (b : Bypass) : Prop :=
  (∃ host, asked host ∧ allowed_by (egress pol) (name_of host) ∧ bypassed tls (authority_str (name_of host))) ∧
  by_dst b = tls_dst policy ∧ as_slice (by_bytes b) ++ queue_bytes (by_pending b) = received.

Definition goes_on (p : Poll) : bool := match p with PollBytes _ | PollPending => true | _ => false end.
Definition turn_ok (poll : Poll) (p : TlsTcpProxy) : Prop :=
  proxy_learned (goes_on poll) p ∧ (if goes_on poll then proxy_inv p else True) ∧
  match poll with PollBypass b => bypass_ok b | _ => True end.
End received.

(** The filter itself did not return. *)
Definition filter_hung : Prop := ∃ a es, Forall byte_event es ∧ hung (run_filter es (filter_of a)).2.

(** ** What a call leaves *)
Definition wp {A} (m : M A) (Q : A → Conn → Prop) (c : Conn) : Prop :=
  match m c with (Ret a, c') => Q a c' | (Fail e, _) => False | (Panic, _) | (Timeout, _) => filter_hung end.

Lemma wp_conseq {A} (m : M A) (Q Q' : A → Conn → Prop) c : wp m Q c → (∀ a c', Q a c' → Q' a c') → wp m Q' c.
Proof. unfold wp. destruct (m c) as [[a|[]| |] c']; auto. Qed.

(** On the proxy alone, whatever the turn, with a pool of empty buffers *)
Definition wpp {A} (m : M A) (Q : A → TlsTcpProxy → Prop) (p : TlsTcpProxy) : Prop :=
  ∀ c, c_proxy c = p → pool_clean (c_pool c) → wp m (λ a c', Q a (c_proxy c') ∧ pool_clean (c_pool c')) c.

Lemma wpp_ret {A} (a : A) (Q : A → TlsTcpProxy → Prop) p : Q a p → wpp (mret a) Q p.
Proof. by intros HQ c <-. Qed.
Lemma wpp_bind {A B} (m : M A) (k : A → M B) Q p : wpp m (λ a p', wpp (k a) Q p') p → wpp (m ≫= k) Q p.
Proof.
  intros Hm c Hc Hp. specialize (Hm c Hc Hp). unfold wp, mbind, stm_bind in *. destruct (m c) as [[a|[]| |] c']; try done.
  destruct Hm as [Hk Hp']. exact (Hk c' eq_refl Hp').
Qed.
Lemma wpp_mono {A} (m : M A) (Q Q' : A → TlsTcpProxy → Prop) p : wpp m Q p → (∀ a p', Q a p' → Q' a p') → wpp m Q' p.
Proof. intros Hm HQ c Hc Hp. eapply wp_conseq; [by apply Hm|]. intros a c' [??]. split; [by apply HQ|done]. Qed.
Lemma wpp_get {A} (k : Conn → M A) Q p : (∀ c, c_proxy c = p → wpp (k c) Q p) → wpp (c ← stm_get; k c) Q p.
Proof. intros Hk c Hc. by apply (Hk c Hc c). Qed.
Lemma wpp_modify {B} (f : TlsTcpProxy → TlsTcpProxy) (m : M unit) (k : unit → M B) Q p :
  (∀ c, m c = (Ret tt, (m c).2) ∧ c_proxy (m c).2 = f (c_proxy c) ∧ c_pool (m c).2 = c_pool c) → wpp (k tt) Q (f p) → wpp (m ≫= k) Q p.
Proof.
  intros Hm Hk c <- Hp. destruct (Hm c) as (Hrun & Hf & Hpool). unfold wp, mbind, stm_bind. rewrite Hrun. apply Hk; [done|].
  by rewrite Hpool.
Qed.
Lemma wpp_set_state {B} st (k : unit → M B) Q p : wpp (k tt) Q (p <| tp_state := st |>) → wpp (set_state st ≫= k) Q p.
Proof. by apply wpp_modify. Qed.

(** Calls on the turn and the pool: the proxy is as before. *)
Definition keeps {A} (m : M A) (R : A → Prop) : Prop :=
  ∀ c, pool_clean (c_pool c) → wp m (λ a c', c_proxy c' = c_proxy c ∧ pool_clean (c_pool c') ∧ R a) c.

Lemma wpp_keeps {A B} (m : M A) (R : A → Prop) (k : A → M B) Q p :
  keeps m R → (∀ a, R a → wpp (k a) Q p) → wpp (m ≫= k) Q p.
Proof.
  intros Hm Hk. apply wpp_bind. intros c <- Hp. eapply wp_conseq; [by apply Hm|]. intros a c' (-> & ? & ?). split; [by apply Hk|done].
Qed.

Lemma keeps_mret {A} (a : A) (R : A → Prop) : R a → keeps (mret a) R.
Proof. by intros ? c. Qed.
Lemma keeps_drop b : pooled b → keeps (drop_buf limits b) (λ _, True).
Proof.
  intros Hb c Hp. unfold wp, drop_buf. destruct (byte_recycle_pooled (E:=Empty_set) limits b (c_pool c) Hb) as [p Hrun]. rewrite Hrun.
  split_and!; try done. by eapply recycle_clean.
Qed.
Lemma keeps_take cap : keeps (take_buf limits cap) (λ o, match o with Some b => pooled b ∧ as_slice b = [] | None => True end).
Proof.
  intros c Hp. unfold wp, take_buf, try_byte_with_capacity. destruct (byte_try_take_ends limits cap (c_pool c)) as (r & p & Hrun & Hends).
  rewrite Hrun. pose proof (take_clean _ _ _ _ _ Hp Hrun) as [Hp' Hr].
  destruct r; try done. split_and!; try done. by eapply byte_try_take_pooled.
Qed.
Lemma keeps_turn f : keeps (on_drive_turn f) (λ _, True).
Proof. done. Qed.
Lemma keeps_feed guest bs : keeps (stm_try (conn_feed guest bs))
  (λ r, match r with
        | inl (g, fed) => plaintext_given g = plaintext_given guest ∧ match fed with ProtocolComplete n => 0 < n ∧ n ≤ length bs | _ => True end
        | inr _ => True
        end).
Proof.
  intros c Hp. pose proof (feed_step_given bs (c_turn c) guest) as Hgiven. unfold wp, stm_try, conn_feed, feed_guest_tls_step in *. destruct (drive_protocol_op _ _ _) as [o [d g]] eqn:Hrun.
  apply protocol_op_spec in Hrun as [_ Hop].
  destruct Hop as [(-> & _)|(chunk & Hpos & Hlen & _ & Hop)]; [done|]. unfold mbind, stm_bind in Hop.
  pose proof (feed_guest_returns chunk (take chunk bs) guest ltac:(rewrite length_take; lia)) as Hr.
  destruct (feed_guest_tls chunk (take chunk bs) _) as [[[]|e| |] g1]; simpl in Hr; try done; simpl in Hop; destruct Hop as [-> _]; [|done].
  split_and!; [done..|lia|lia].
Qed.

Lemma flush_clean s : pool_clean (side_pool s) → pool_clean (side_pool (flush_ciphertext (G:=G) limits grown s).2).
Proof.
  assert (Htake : ∀ s : @GuestTlsSide G, pool_clean (side_pool s) → pool_clean (side_pool (take_ciphertext limits grown s).2)).
  { clear s. intros s Hp. unfold take_ciphertext, take_protocol_output. destruct (_ =? 0); [done|].
    destruct (protocol_chunk _ _) as [[len|] d]; [|done]. unfold try_byte_with_capacity.
    destruct (byte_try_take limits len (side_pool s)) as [r p] eqn:Hrun. apply (take_clean _ _ _ _ _ Hp) in Hrun as [Hp' _].
    by destruct r. }
  unfold flush_ciphertext. destruct (_ && _); [|apply Htake]. intros Hp.
  destruct (drive_protocol_op _ _ _) as [o [d [g out]]]. destruct o as [[v|]|e| |]; try done. by apply Htake.
Qed.

Lemma keeps_output w guest out : pooled out → keeps (conn_output limits grown w guest out)
  (λ '(g, out', poll), pooled out' ∧ plaintext_given g = plaintext_given guest ∧ match poll with Some (PollBypass _) => False | _ => True end).
Proof.
  intros Hout c Hp. unfold wp, conn_output, poll_ciphertext_output. set (s := Build_GuestTlsSide _ _ _ _).
  pose proof (flush_ciphertext_kept limits grown s) as [Hret _]. pose proof (flush_class limits grown s) as Hclass. pose proof (flush_clean s Hp) as Hclean. pose proof (flush_given limits grown s) as Hgiven.
  assert (Hpo : pooled (side_output (flush_ciphertext limits grown s).2)) by (unfold pooled; by rewrite Hclass).
  destruct (flush_ciphertext limits grown s) as [[[]|e| |] s1]; try done; by split_and!.
Qed.

(** What a call leaves, when nothing is asked of the pool after it, or before it either *)
Definition wppc {A} (m : M A) (Q : A → TlsTcpProxy → Prop) (p : TlsTcpProxy) : Prop :=
  ∀ c, c_proxy c = p → pool_clean (c_pool c) → wp m (λ a c', Q a (c_proxy c')) c.
Definition wppf {A} (m : M A) (Q : A → TlsTcpProxy → Prop) (p : TlsTcpProxy) : Prop :=
  ∀ c, c_proxy c = p → wp m (λ a c', Q a (c_proxy c')) c.

Lemma wpp_wppc {A} (m : M A) Q p : wpp m Q p → wppc m Q p.
Proof. intros Hm c Hc Hp. eapply wp_conseq; [by apply Hm|]. by intros a c' [? _]. Qed.
Lemma wppf_wppc {A} (m : M A) Q p : wppf m Q p → wppc m Q p.
Proof. intros Hm c Hc _. by apply Hm. Qed.
Lemma wppc_bind {A B} (m : M A) (k : A → M B) Q p : wpp m (λ a p', wppc (k a) Q p') p → wppc (m ≫= k) Q p.
Proof.
  intros Hm c Hc Hp. specialize (Hm c Hc Hp). unfold wp, mbind, stm_bind in *. destruct (m c) as [[a|[]| |] c']; try done.
  destruct Hm as [Hk Hp']. exact (Hk c' eq_refl Hp').
Qed.
Lemma wppc_keeps {A B} (m : M A) (R : A → Prop) (k : A → M B) Q p :
  keeps m R → (∀ a, R a → wppc (k a) Q p) → wppc (m ≫= k) Q p.
Proof.
  intros Hm Hk. apply wppc_bind. intros c <- Hp. eapply wp_conseq; [by apply Hm|]. intros a c' (-> & ? & ?). split; [by apply Hk|done].
Qed.
Lemma wppc_get {A} (k : Conn → M A) Q p : (∀ c, c_proxy c = p → wppc (k c) Q p) → wppc (c ← stm_get; k c) Q p.
Proof. intros Hk c Hc. by apply (Hk c Hc c). Qed.
Lemma wppc_set_state {B} st (k : unit → M B) Q p : wppc (k tt) Q (p <| tp_state := st |>) → wppc (set_state st ≫= k) Q p.
Proof. intros Hk c <- Hp. exact (Hk (c <| c_proxy; tp_state := st |>) eq_refl Hp). Qed.

Lemma wppf_ret {A} (a : A) (Q : A → TlsTcpProxy → Prop) p : Q a p → wppf (mret a) Q p.
Proof. by intros HQ c <-. Qed.
Lemma wppf_bind {A B} (m : M A) (k : A → M B) Q p : wppf m (λ a p', wppf (k a) Q p') p → wppf (m ≫= k) Q p.
Proof.
  intros Hm c Hc. specialize (Hm c Hc). unfold wp, mbind, stm_bind in *. destruct (m c) as [[a|[]| |] c']; try done.
  exact (Hm c' eq_refl).
Qed.
Lemma wppf_modify {B} (f : TlsTcpProxy → TlsTcpProxy) (m : M unit) (k : unit → M B) Q p :
  (∀ c, m c = (Ret tt, (m c).2) ∧ c_proxy (m c).2 = f (c_proxy c)) → wppf (k tt) Q (f p) → wppf (m ≫= k) Q p.
Proof.
  intros Hm Hk c <-. destruct (Hm c) as (Hrun & Hf). unfold wp, mbind, stm_bind. rewrite Hrun. by apply Hk.
Qed.
Lemma wppf_drop {B} b (k : unit → M B) Q p : pooled b → wppf (k tt) Q p → wppf (drop_buf limits b ≫= k) Q p.
Proof.
  intros Hb Hk c Hc. unfold wp, mbind, stm_bind, drop_buf.
  destruct (byte_recycle_pooled (E:=Empty_set) limits b (c_pool c) Hb) as [pl ->]. by apply Hk.
Qed.
Lemma wppf_drop_writes {B} l (k : unit → M B) Q p :
  Forall (λ w, pooled (pw_bytes w)) l → wppf (k tt) Q p → wppf (drop_writes limits l ≫= k) Q p.
Proof.
  intros Hl Hk. apply wppf_bind. induction Hl as [|w l Hw _ IH]; [by apply wppf_ret|]. by apply wppf_drop.
Qed.

(** ** Calls on the queue of the guest's bytes *)
Lemma wpp_pop {B} (k : option PendingWrite → M B) Q p :
  queue_inv (tp_pending p) →
  (∀ w q, queue_inv q →
    match w with
    | Some w => queue_bytes (tp_pending p) = write_bytes w ++ queue_bytes q ∧ pooled (pw_bytes w) ∧ write_bytes w ≠ [] ∧
        length (entries (tp_pending p)) = S (length (entries q))
    | None => queue_bytes (tp_pending p) = [] ∧ queue_bytes q = []
    end → wpp (k w) Q (p <| tp_pending := q |>)) → wpp (pop_write ≫= k) Q p.
Proof.
  intros Hq Hk c <- Hp. unfold wp, mbind, stm_bind, pop_write. destruct (queue_pop_front _) as [w q] eqn:Hpop.
  pose proof (queue_inv_pop _ _ _ Hq Hpop) as [Hq' Hw]. pose proof (queue_pop_front_ok _ _ _ (qi_ok _ Hq) Hpop) as [_ Hbytes].
  apply (Hk w q); [done| |done|done]. destruct w as [w|]; [|by destruct Hbytes as [-> ?]]. destruct Hw as [Hw Hoff]. destruct Hbytes as [Hbytes _]. split_and!; try done.
  - unfold write_bytes. intros Hnil. apply (f_equal length) in Hnil. rewrite length_drop in Hnil. unfold buf_len in Hoff. simpl in Hnil. lia.
  - unfold queue_pop_front in Hpop. unfold entries at 1. destruct (first _); [|done]. injection Hpop as _ <-.
    by rewrite (proj2 (next_first_ok _ (qi_ok _ Hq))).
Qed.

Lemma wpp_push_back {B} w (k : unit → M B) Q p :
  queue_inv (tp_pending p) → pooled (pw_bytes w) →
  (∀ q, queue_inv q → queue_bytes q = write_bytes w ++ queue_bytes (tp_pending p) → wpp (k tt) Q (p <| tp_pending := q |>)) →
  wpp (push_back limits w ≫= k) Q p.
Proof.
  intros Hq Hw Hk c <- Hp. unfold wp, mbind, stm_bind, push_back. destruct (queue_push_front w _) as [dropped q] eqn:Hpush.
  pose proof (queue_inv_push_front _ _ _ _ Hq Hw Hpush) as [Hq' Hd].
  assert (Hbytes : queue_bytes q = write_bytes w ++ queue_bytes (tp_pending (c_proxy c))).
  { unfold queue_push_front, pending_is_empty in Hpush. destruct (Nat.leb_spec (buf_len (pw_bytes w)) (offset w)).
    - injection Hpush as _ <-. unfold write_bytes. by rewrite drop_ge.
    - injection Hpush as _ <-. unfold queue_bytes, entries. destruct (first _) as [x|] eqn:Hf; simpl; [done|].
      by rewrite (qo_first _ (qi_ok _ Hq) Hf). }
  destruct dropped as [b|]; [|by apply (Hk q)]. subst b.
  set (c1 := (c <| c_proxy; tp_pending := q |>)).
  destruct (byte_recycle_pooled (E:=Empty_set) limits _ (c_pool c1) Hw) as [p Hrun]. unfold drop_buf. rewrite Hrun.
  apply (Hk q); [done|done|done|]. by eapply (recycle_clean limits _ (c_pool c)).
Qed.

(** ** The ClientHello *)
Section hello.
Context (received : bytes).

Lemma turn_ok_ended poll p : sessions_of p = None → goes_on poll = false → (∀ b, poll ≠ PollBypass b) → turn_ok received poll p.
Proof. intros Hs Hg Hb. split; [intros g u out; by rewrite Hs|]. rewrite Hg. split; [done|]. by destruct poll; try by destruct (Hb b). Qed.

Lemma turn_ok_none poll p : sessions_of p = None → (∀ b, poll ≠ PollBypass b) → proxy_inv received p → turn_ok received poll p.
Proof. intros Hs Hb Hp. split; [intros g u out; by rewrite Hs|]. split; [by destruct (goes_on poll)|]. by destruct poll; try by destruct (Hb b). Qed.

Lemma wpp_drop {B} b (k : unit → M B) Q p : pooled b → wpp (k tt) Q p → wpp (drop_buf limits b ≫= k) Q p.
Proof. intros Hb Hk. eapply wpp_keeps; [by apply keeps_drop|]. by intros []. Qed.

(** A return with an error, on a connection that has no server *)
Lemma wpp_error b p (e : TlsSession.tls_error + bytes) : pooled b → sessions_of p = None → wpp (drop_buf limits b;; mret (PollError e)) (turn_ok received) p.
Proof. intros Hb Hs. apply wpp_drop; [done|]. apply wpp_ret. by apply turn_ok_ended. Qed.

Lemma start_handshake_ok i initial p :
  queue_inv (tp_pending p) → pooled initial → as_slice initial ++ queue_bytes (tp_pending p) = received → intercepted received i →
  sessions_of p = None → wpp (start_guest_tls_handshake limits grown policy i initial) (turn_ok received) p.
Proof.
  intros Hq Hin Hbytes Hi Hs. unfold start_guest_tls_handshake. eapply wpp_keeps; [apply keeps_take|]. intros [out|] Hout; [destruct Hout as [Hout _]|].
  2: { apply wpp_set_state. eapply wpp_keeps; [apply keeps_turn|]. intros _ _. apply wpp_ret. by apply turn_ok_none. }
  pose proof (session_returns (it_server_config i)) as Hacc. pose proof (session_fresh (it_server_config i)) as Hfresh.
  destruct (accept_session (it_server_config i)) as [guest|e| |]; try done. specialize (Hfresh guest eq_refl).
  2: { apply wpp_drop; [done|]. by apply wpp_error. }
  eapply wpp_keeps; [apply keeps_feed|]. intros [[g [n|]]|e] Hfeed.
  2: { apply wpp_set_state, wpp_drop; [done|]. apply wpp_ret. by apply turn_ok_none. }
  2: { apply wpp_drop; [done|]. by apply wpp_error. }
  set (initial' := set_bytes grown _ initial). assert (Hin' : pooled initial') by done.
  assert (Hrest : ∀ q, queue_inv q → wpp ('(guest, tls_out, poll) ← conn_output limits grown WaitLocalBuffer g out;
      (if buf_len initial' =? 0 then drop_buf limits initial' else mret tt);;
      match poll with
      | Some poll =>
        if is_event poll then drop_buf limits tls_out;; mret poll
        else set_state (GuestTlsHandshake policy i guest tls_out);; mret poll
      | None => set_state (GuestTlsHandshake policy i guest tls_out);; mret PollPending
      end) (turn_ok received) (p <| tp_pending := q |>)).
  { intros q Hq'. eapply wpp_keeps; [by apply keeps_output|]. intros [[g' out'] poll] (Hout' & Hg' & Hpoll).
    assert (Hnone : plaintext_given g' = []) by (destruct Hfeed as [Hg _]; by rewrite Hg', Hg).
    eapply (wpp_keeps _ (λ _, True)); [destruct (_ =? 0); [by apply keeps_drop|by apply keeps_mret]|]. intros _ _.
    destruct poll as [poll|]; [destruct (is_event poll) eqn:Hev|].
    - apply wpp_drop; [done|]. apply wpp_ret. apply turn_ok_ended; [done|by destruct poll|by intros b ->].
    - apply wpp_set_state, wpp_ret. apply turn_ok_none; [done|by intros b ->|done].
    - apply wpp_set_state, wpp_ret. by apply turn_ok_none. }
  destruct (buf_len initial' =? 0).
  - eapply wpp_keeps; [by apply (keeps_mret tt (λ _, True))|]. intros _ _. specialize (Hrest (tp_pending p) Hq). by destruct p.
  - apply wpp_push_back; [done|done|]. intros q Hq' _. by apply Hrest.
Qed.

Lemma tls_route_returns later host : match tls_route later policy host with Panic | Timeout => False | _ => True end.
Proof.
  assert (Hint : ∀ a ss, match intercept_route later policy a ss with Panic | Timeout => False | _ => True end).
  { intros a ss. unfold intercept_route, server_config_for_sni, generate_server_cert. destruct (should_bypass_tls _ _); [done|].
    destruct (server_config_for _ _); [done|].
    pose proof (issue_returns (G:=G) (U:=U) (authority_str a) (later + CERT_VALIDITY)%Z (certificate_authority policy)) as Hr.
    by destruct (server_config_for_host _ _ _). }
  unfold tls_route. destruct (decision_for _ _) as [[]|]; try done; [apply Hint|]. destruct (_ && _); [done|apply Hint].
Qed.

Lemma route_hello_ok rt host initial p :
  queue_inv (tp_pending p) → pooled initial → as_slice initial ++ queue_bytes (tp_pending p) = received →
  extract_sni (as_slice initial) = Ret host → sessions_of p = None →
  wpp (route_client_hello limits grown rt policy initial host) (turn_ok received) p.
Proof.
  intros Hq Hin Hbytes Hsni Hs. unfold route_client_hello.
  assert (Hasked : asked received host) by (exists (as_slice initial); split; [rewrite <-Hbytes; by apply prefix_app_r|done]).
  apply (wpp_modify (λ p, p <| tp_authority := Some (normalize_host host) |>)); [done|].
  set (p1 := (p <| tp_authority := _ |>)).
  pose proof (tls_route_spec tls now wall_ (wall rt) pol policy (normalize_host host) Hpolicy) as Hroute.
  pose proof (tls_route_returns (wall rt) (normalize_host host)) as Hret.
  destruct (tls_route (wall rt) policy (normalize_host host)) as [[reason|]|i| |]; try done.
  - by apply wpp_error.
  - apply wpp_get. intros c Hc. apply (wpp_modify (λ p, p <| tp_pending := queue_new |>)); [done|]. apply wpp_ret.
    split; [intros g u out Hu; change (sessions_of p = Some (g, u, out)) in Hu; congruence|]. split; [done|].
    destruct Hroute as [Hallow Hby]. split; [by exists host|]. split; [done|]. simpl. by rewrite Hc.
  - apply start_handshake_ok; try done. by exists host, (wall rt).
Qed.

Lemma extend_initial_ok {B} initial (k : option ByteBuf → M B) Q p :
  queue_inv (tp_pending p) → pooled initial →
  (∀ o q, queue_inv q →
    match o with
    | Some initial' => pooled initial' ∧ as_slice initial' ++ queue_bytes q = as_slice initial ++ queue_bytes (tp_pending p) ∧
        length (entries (tp_pending p)) = S (length (entries q))
    | None => queue_bytes (tp_pending p) = [] ∧ queue_bytes q = []
    end → wpp (k o) Q (p <| tp_pending := q |>)) → wpp (extend_initial limits grown initial ≫= k) Q p.
Proof.
  intros Hq Hin Hk. unfold extend_initial. apply wpp_bind, wpp_pop; [done|].
  intros [w|] q Hq' Hw.
  - destruct Hw as (Hbytes & Hw & _ & Hlen). apply wpp_drop; [done|]. apply wpp_ret. apply Hk; [done|].
    split_and!; try done. change (as_slice (set_bytes _ _ _)) with (as_slice initial ++ write_bytes w). by rewrite Hbytes, app_assoc.
  - apply wpp_ret. by apply Hk.
Qed.

Lemma wait_for_hello_ok initial p :
  queue_inv (tp_pending p) → pooled initial → as_slice initial ++ queue_bytes (tp_pending p) = received →
  wpp (wait_for_hello policy initial) (turn_ok received) p.
Proof.
  intros Hq Hin Hbytes. unfold wait_for_hello. apply wpp_set_state. eapply wpp_keeps; [apply keeps_turn|]. intros _ _.
  apply wpp_ret. by apply turn_ok_none.
Qed.

(** One round on the bytes so far, given the next *)
Lemma hello_round_ok rt initial p (next : ByteBuf → M Poll) :
  queue_inv (tp_pending p) → pooled initial → as_slice initial ++ queue_bytes (tp_pending p) = received → sessions_of p = None →
  (∀ initial' q, queue_inv q → pooled initial' → as_slice initial' ++ queue_bytes q = received →
    length (entries (tp_pending p)) = S (length (entries q)) → wpp (next initial') (turn_ok received) (p <| tp_pending := q |>)) →
  wpp (if match head (as_slice initial) with Some byte => negb (byte =? 22)%Z | None => false end
       then drop_buf limits initial;; mret (conn_error (bytes_of "not a TLS ClientHello"))
       else if client_hello_limit limits <=? buf_len initial
       then drop_buf limits initial;; mret (conn_error (bytes_of "TLS ClientHello too large or missing SNI"))
       else match extract_sni (as_slice initial) with
            | Ret host => route_client_hello limits grown rt policy initial host
            | Fail _ =>
              extended ← extend_initial limits grown initial;
              match extended with None => wait_for_hello policy initial | Some initial => next initial end
            | Panic => stm_lift Panic
            | Timeout => stm_lift Timeout
            end) (turn_ok received) p.
Proof.
  intros Hq Hin Hbytes Hs Hnext. case_match; [by apply wpp_error|]. destruct (_ <=? _); [by apply wpp_error|].
  pose proof (extract_sni_ends (as_slice initial)) as Hends. destruct (extract_sni (as_slice initial)) as [host|[]| |] eqn:Hsni; try done.
  - by apply route_hello_ok.
  - apply extend_initial_ok; [done|done|]. intros [initial'|] q Hq' Ho.
    + destruct Ho as (Hin' & Hb & Hlen). apply Hnext; [done|done|by rewrite Hb|done].
    + destruct Ho as [Hb Hb']. apply wait_for_hello_ok; [done|done|]. simpl. by rewrite Hb', <-Hbytes, Hb.
Qed.

Lemma hello_loop_ok fuel rt initial p :
  queue_inv (tp_pending p) → pooled initial → as_slice initial ++ queue_bytes (tp_pending p) = received →
  length (entries (tp_pending p)) ≤ fuel → sessions_of p = None →
  wpp (client_hello_loop limits grown fuel rt policy initial) (turn_ok received) p.
Proof.
  revert initial p. induction fuel as [|fuel IH]; intros initial p Hq Hin Hbytes Hfuel Hs; cbn [client_hello_loop].
  - assert (Hround : ∀ initial p, queue_inv (tp_pending p) → pooled initial → as_slice initial ++ queue_bytes (tp_pending p) = received →
      length (entries (tp_pending p)) ≤ 0 → sessions_of p = None → _) by
      (intros initial0 p0 Hq0 Hin0 Hb0 Hf0 Hs0; refine (hello_round_ok rt initial0 p0 (λ _, stm_lift Timeout) Hq0 Hin0 Hb0 Hs0 _); intros; lia).
    destruct (_ =? 0).
    + apply extend_initial_ok; [done|done|]. intros [initial'|] q Hq' Ho; [lia|].
      destruct Ho as [Hb Hb']. apply wait_for_hello_ok; [done|done|]. simpl. by rewrite Hb', <-Hbytes, Hb.
    + eapply wpp_keeps; [by apply (keeps_mret _ (λ o, o = Some initial))|]. intros _ ->. by apply Hround.
  - assert (Hround : ∀ initial p, queue_inv (tp_pending p) → pooled initial → as_slice initial ++ queue_bytes (tp_pending p) = received →
      length (entries (tp_pending p)) ≤ S fuel → sessions_of p = None → _) by
      (intros initial0 p0 Hq0 Hin0 Hb0 Hf0 Hs0; refine (hello_round_ok rt initial0 p0 (client_hello_loop limits grown fuel rt policy) Hq0 Hin0 Hb0 Hs0 _);
       intros; apply IH; [done|done|done|simpl; lia|done]).
    destruct (_ =? 0).
    + apply extend_initial_ok; [done|done|]. intros [initial'|] q Hq' Ho.
      * destruct Ho as (Hin' & Hb & Hlen). apply Hround; [done|done|simpl; by rewrite Hb|simpl; lia|done].
      * destruct Ho as [Hb Hb']. apply wait_for_hello_ok; [done|done|]. simpl. by rewrite Hb', <-Hbytes, Hb.
    + eapply wpp_keeps; [by apply (keeps_mret _ (λ o, o = Some initial))|]. intros _ ->. by apply Hround.
Qed.

Lemma poll_hello_ok rt p initial :
  proxy_inv received p → tp_state p = ReadingClientHello policy initial → wpp (poll_client_hello limits grown rt) (turn_ok received) p.
Proof.
  intros [Hq Hst] Hstate. rewrite Hstate in Hst. destruct Hst as (_ & Hin & Hbytes).
  unfold poll_client_hello. apply wpp_get. intros c ->. destruct (close_requested p).
  { apply wpp_ret. apply turn_ok_ended; [|done..]. unfold sessions_of. by rewrite Hstate. }
  rewrite Hstate. apply wpp_set_state. by apply hello_loop_ok.
Qed.

Lemma poll_hello_buffer_ok rt p :
  proxy_inv received p → tp_state p = WaitingClientHelloBuffer policy → wpp (poll_client_hello_buffer limits grown rt) (turn_ok received) p.
Proof.
  intros [Hq Hst] Hstate. rewrite Hstate in Hst. destruct Hst as (_ & Hbytes).
  unfold poll_client_hello_buffer. apply wpp_get. intros c ->. rewrite Hstate. apply wpp_set_state.
  eapply wpp_keeps; [apply keeps_take|]. intros [initial|] Hin; apply wpp_set_state.
  - destruct Hin as [Hin Hempty]. eapply (poll_hello_ok rt _ initial); [|done]. split; [done|]. split_and!; try done. by rewrite Hempty.
  - eapply wpp_keeps; [apply keeps_turn|]. intros _ _. apply wpp_ret. by apply turn_ok_none.
Qed.

(** ** The handshake with the guest *)

(** What the loop still has to feed; a write at hand that is to be fed comes first. *)
Definition to_feed (w : option PendingWrite) (q : WriteQueue) : nat :=
  length (match w with Some w => write_bytes w | None => [] end) + length (queue_bytes q).
Definition rounds (w : option PendingWrite) (g : G) (q : WriteQueue) : nat :=
  match w with
  | None => 3 * to_feed w q + 1
  | Some x => if (offset x <? buf_len (pw_bytes x)) && is_handshaking g then 3 * to_feed w q else 3 * to_feed w q + 2
  end.

Definition handshake_result (r : (G * ByteBuf) + Poll) (p : TlsTcpProxy) : Prop :=
  match r with
  | inl (g, out) => pooled out ∧ queue_inv (tp_pending p) ∧ sessions_of p = None ∧ plaintext_given g = []
  | inr poll => turn_ok received poll p
  end.

Lemma write_bytes_length w : length (write_bytes w) = buf_len (pw_bytes w) - offset w.
Proof. unfold write_bytes. by rewrite length_drop. Qed.

(** The two ways a round ends with a poll *)
Lemma handshake_return i w g out poll p :
  queue_inv (tp_pending p) → pooled out → pooled (pw_bytes w) → intercepted received i → sessions_of p = None →
  plaintext_given g = [] → (∀ b, poll ≠ PollBypass b) → is_event poll = false →
  wpp (push_back limits w;; restore_guest_tls_handshake policy i g out;; mret (inr poll)) handshake_result p.
Proof.
  intros Hq Hout Hw Hi Hs Hg Hb Hev. apply wpp_push_back; [done|done|]. intros q Hq' _. apply wpp_set_state, wpp_ret.
  by apply turn_ok_none.
Qed.

Definition handshake_pre (i : InterceptedTls) (w : option PendingWrite) (g : G) (out : ByteBuf) (p : TlsTcpProxy) : Prop :=
  queue_inv (tp_pending p) ∧ pooled out ∧ match w with Some w => pooled (pw_bytes w) | None => True end ∧
  intercepted received i ∧ sessions_of p = None ∧ plaintext_given g = [].

(** One round, given the rest of the loop *)
Definition handshake_round (i : InterceptedTls) (rest : G → ByteBuf → option PendingWrite → M ((G * ByteBuf) + Poll))
    (w : option PendingWrite) (guest : G) (out : ByteBuf) : M ((G * ByteBuf) + Poll) :=
  match w with
  | None =>
    if negb (is_handshaking guest) then mret (inl (guest, out))
    else
      popped ← pop_write;
      match popped with
      | None =>
        restore_guest_tls_handshake policy i guest out;;
        on_drive_turn (block_on GUEST_RECV);;
        mret (inr PollPending)
      | Some w => rest guest out (Some w)
      end
  | Some w =>
    if (offset w <? buf_len (pw_bytes w)) && is_handshaking guest then
      feed ← stm_try (conn_feed guest (write_bytes w));
      match feed with
      | inr e => drop_buf limits out;; drop_buf limits (pw_bytes w);; mret (inr (PollError (inl e)))
      | inl (guest, ProtocolBudget) =>
        push_back limits w;;
        restore_guest_tls_handshake policy i guest out;;
        mret (inr PollPending)
      | inl (guest, ProtocolComplete n) =>
        let w := w <| offset ::= λ o, o + n |> in
        '(guest, out, poll) ← conn_output limits grown WaitLocalBuffer guest out;
        match poll with
        | Some poll =>
          push_back limits w;;
          (if is_event poll then drop_buf limits out else restore_guest_tls_handshake policy i guest out);;
          mret (inr poll)
        | None => rest guest out (Some w)
        end
      end
    else push_back limits w;; rest guest out None
  end.

Lemma handshake_round_ok i rest w g out p :
  handshake_pre i w g out p →
  (∀ w' g' out' p', handshake_pre i w' g' out' p' → rounds w' g' (tp_pending p') < rounds w g (tp_pending p) →
    wpp (rest g' out' w') handshake_result p') →
  wpp (handshake_round i rest w g out) handshake_result p.
Proof.
  intros (Hq & Hout & Hw & Hi & Hs & Hg0) Hrest. destruct w as [w|]; cbn [handshake_round].
  - destruct ((offset w <? buf_len (pw_bytes w)) && is_handshaking g) eqn:Hgo.
    + assert (Hround : rounds (Some w) g (tp_pending p) = 3 * to_feed (Some w) (tp_pending p)) by (simpl; by rewrite Hgo).
      eapply wpp_keeps; [apply keeps_feed|]. intros [[g1 [n|]]|e] Hfeed.
      * destruct Hfeed as [Hg1 [Hn Hlen]]. set (w' := (w <| offset ::= _ |>)).
        eapply wpp_keeps; [by apply keeps_output|]. intros [[g2 out2] poll] (Hout2 & Hg2 & Hpoll).
        assert (Hnone : plaintext_given g2 = []) by by rewrite Hg2, Hg1. destruct poll as [poll|].
        -- destruct (is_event poll) eqn:Hev; [|apply handshake_return; try done; by intros b ->].
           apply wpp_push_back; [done|done|]. intros q Hq' _. apply wpp_drop; [done|]. apply wpp_ret.
           apply turn_ok_ended; [done|by destruct poll|by intros b ->].
        -- apply Hrest; [done|]. rewrite Hround. rewrite write_bytes_length in Hlen.
           assert (Hfeed : to_feed (Some w') (tp_pending p) + n = to_feed (Some w) (tp_pending p)).
           { unfold to_feed. rewrite !write_bytes_length. unfold w'. simpl. lia. }
           unfold rounds. destruct ((offset w' <? _) && _); lia.
      * destruct Hfeed as [Hg1 _]. apply handshake_return; try done. by rewrite Hg1.
      * apply wpp_drop; [done|]. apply wpp_drop; [done|]. apply wpp_ret. by apply turn_ok_ended.
    + apply wpp_push_back; [done|done|]. intros q Hq' Hbytes. apply Hrest; [by split_and!|].
      unfold rounds. rewrite Hgo. unfold to_feed. simpl tp_pending. rewrite Hbytes, length_app. simpl. lia.
  - destruct (is_handshaking g) eqn:Hg; cbn [negb]; [|by apply wpp_ret; split_and!].
    apply wpp_pop; [done|]. intros [w|] q Hq' Hp.
    + destruct Hp as (Hbytes & Hw' & Hne & _). apply Hrest; [by split_and!|].
      assert (Hlt : offset w < buf_len (pw_bytes w)).
      { rewrite <-(Nat.ltb_lt). destruct (Nat.ltb_spec (offset w) (buf_len (pw_bytes w))); [done|]. destruct Hne.
        unfold write_bytes. by apply drop_ge. }
      unfold rounds. rewrite (proj2 (Nat.ltb_lt _ _) Hlt), Hg. cbn [andb]. unfold to_feed. simpl tp_pending.
      rewrite Hbytes, length_app. simpl. lia.
    + apply wpp_set_state. eapply wpp_keeps; [apply keeps_turn|]. intros _ _. apply wpp_ret. by apply turn_ok_none.
Qed.

Lemma handshake_loop_ok fuel i w g out p :
  handshake_pre i w g out p → rounds w g (tp_pending p) ≤ fuel →
  wpp (handshake_loop limits grown fuel policy i w g out) handshake_result p.
Proof.
  revert w g out p. induction fuel as [|fuel IH]; intros w g out p Hpre Hfuel.
  - change (wpp (handshake_round i (λ _ _ _, stm_lift Timeout) w g out) handshake_result p).
    apply handshake_round_ok; [done|]. intros. lia.
  - change (wpp (handshake_round i (λ g out w, handshake_loop limits grown fuel policy i w g out) w g out) handshake_result p).
    apply handshake_round_ok; [done|]. intros. apply IH; [done|lia].
Qed.
End hello.

(** ** The server *)
Section server.
Context (received : bytes).

Lemma serves_learned goes i g u f out : serves received i g u f out → learned received goes g u out.
Proof.
  intros (Hi & Hpeer & es & Hes & (Hg & Hr & Hp) & Hrun). exists i, es. rewrite Hrun. split_and!; try done.
  - split_and!; try done. destruct goes; [done|by rewrite Hp].
  - destruct goes; [done|]. by apply prefix_app_r.
Qed.

Lemma same_serves i g g' u u' f out : plaintext_given g' = plaintext_given g → same_upstream u u' →
  serves received i g u f out → serves received i g' u' f out.
Proof.
  intros Hg (Ha & Hu & Hp) (Hi & Hpeer & es & Hes & (Hgs & Hrs & Hps) & Hrun). split; [done|]. split; [by rewrite Hp|]. exists es.
  rewrite Ha. split; [done|]. split; [|done]. split_and!; congruence.
Qed.

(** A turn that leaves a server *)
Lemma turn_ok_serving poll i g u f out p :
  sessions_of p = Some (g, u, out) → serves received i g u f out → (∀ b, poll ≠ PollBypass b) → (goes_on poll = true → proxy_inv received p) →
  turn_ok received poll p.
Proof.
  intros Hu Hs Hb Hinv. split; [|split].
  - intros g' u' out' Hu'. rewrite Hu in Hu'. injection Hu' as <- <- <-. by eapply serves_learned.
  - by destruct (goes_on poll); auto.
  - destruct poll; try done. by destruct (Hb b).
Qed.

Lemma connecting_ok permit cs i p :
  queue_inv (tp_pending p) → tp_state p = ConnectingServer cs → queue_inv (out_queue (cs_upstream cs)) →
  serves received i (cs_guest_tls cs) (cs_server_tls cs) (cs_filter cs) (cs_upstream cs) → wppf (drive_connected limits grown permit) (turn_ok received) p.
Proof.
  intros Hq Hstate Hout Hs c Hc. unfold wp, drive_connected. rewrite Hc, Hstate. destruct (_ && _).
  { unfold conn_output, poll_ciphertext_output. set (s := Build_GuestTlsSide _ _ _ _).
    pose proof (flush_ciphertext_kept limits grown s) as [Hret _]. pose proof (flush_given limits grown s) as Hgiven.
    assert (Hok : ∀ poll guest out c', plaintext_given guest = plaintext_given (cs_guest_tls cs) → (∀ b, poll ≠ PollBypass b) → c_proxy c' = p →
      turn_ok received poll (c_proxy (c' <| c_proxy; tp_state := ConnectingServer (cs <| cs_guest_tls := guest |> <| cs_tls_out := out |>) |>))).
    { intros poll guest out c' Hg Hb Hc'. apply (same_serves _ _ guest _ (cs_server_tls cs)) in Hs; [|done..].
      eapply turn_ok_serving; [done|exact Hs|done|]. intros _. split; simpl; rewrite ?Hc'; simpl; [done|]. split; [done|]. by exists i. }
    destruct (flush_ciphertext limits grown s) as [[[]|e| |] s1]; try done; by apply Hok. }
  destruct (close_requested p).
  { eapply turn_ok_serving; [by unfold sessions_of; rewrite Hc, Hstate|exact Hs|done|done]. }
  pose proof (handshake_returns (G:=G) (c_turn c) (cs_server_tls cs)) as Hret.
  destruct (up_handshake _) as [o [d u]] eqn:Hrun. apply handshake_exact in Hrun.
  apply (same_serves _ _ _ _ _ _ _ eq_refl Hrun) in Hs.
  assert (Hinv : proxy_inv received (p <| tp_state := ConnectingServer (cs <| cs_server_tls := u |>) |>)).
  { split; simpl; [done|]. split; [done|]. by exists i. }
  destruct o as [[]|e| |]; try done.
  - unfold apply_state_change. destruct (step_or_exhausted d) as [ok d']. destruct ok; cbn [negb]; simpl.
    + eapply turn_ok_serving; [done|exact Hs|done|]. intros _. split; simpl; [done|]. split; [done|]. by exists i.
    + by eapply turn_ok_serving; [done|exact Hs|done|].
  - by eapply turn_ok_serving; [done|exact Hs|done|].
  - by eapply turn_ok_serving; [done|exact Hs|done|].
Qed.

(** A filter of the host, after more calls *)
Lemma hung_filter a es f out es' : Forall byte_event es → Forall byte_event es' → run_filter es (filter_of a) = (out, Ret f) → hung (run_filter es' f).2 → filter_hung.
Proof. intros Hes Hes' Hrun Hh. exists a, (es ++ es'). split; [by apply Forall_app|]. by rewrite (run_filter_app _ _ _ _ _ Hrun). Qed.

(** More calls, with what the sessions gave in the meantime *)
Lemma accounted_seen v es es' (r r' : TlsRelay.Relay) :
  accounted true (guest_tls (proxy r)) (server_tls (proxy r)) es → seen v paid paid es' r r' →
  accounted (match v with Goes => true | _ => false end) (guest_tls (proxy r')) (server_tls (proxy r')) (es ++ es').
Proof.
  intros (Hg & Hr & Hp) (dg & du & Hgiven & Hsaid & Hgs & Hrs & Hps). unfold given, said in *. simpl in *. rewrite app_nil_r in Hgs, Hrs.
  unfold accounted. rewrite guest_bytes_app, response_bytes_app, plaintext_bytes_app, Hgiven, Hsaid, Hg, Hr, Hp, Hgs, Hrs. split_and!; try done.
  destruct v; [by rewrite <-Hps, app_nil_r|by apply prefix_app..].
Qed.

Lemma relaying_ok permit r i p :
  queue_inv (tp_pending p) → tp_state p = OpenIntercept r → queue_inv (out_queue (upstream r)) →
  serves received i (guest_tls r) (server_tls r) (filter r) (upstream r) → wppf (drive_connected limits grown permit) (turn_ok received) p.
Proof.
  intros Hq Hstate Hout (Hi & Hpeer & es & Hes & Hacc & Hrun) c Hc. unfold wp, drive_connected. rewrite Hc, Hstate.
  set (r0 := {| turn := c_turn c; pool := c_pool c; pending := tp_pending p; proxy := r |}).
  pose proof (relay_drive_spec limits grown Hrelay (close_requested p) (guest_write_finished p) permit r0 (conj Hq Hout) I) as Hdrive.
  destruct (relay_drive _ _ _ _ _ r0) as [[poll|[]| |] r1].
  - destruct (poll_goes poll) eqn:Hgoes.
    + destruct Hdrive as ([Hq1 Hout1] & _ & (Hkind & es' & Hes' & Hseen & Hrun' & Hout') & _). simpl in Hrun', Hout', Hkind.
      assert (Hs : serves received i (guest_tls (proxy r1)) (server_tls (proxy r1)) (filter (proxy r1)) (upstream (proxy r1))).
      { split; [done|]. split; [by rewrite (proj1 Hkind)|]. exists (es ++ es'). split; [by apply Forall_app|].
        split; [exact (accounted_seen _ _ _ r0 _ Hacc Hseen)|].
        rewrite (run_filter_app _ _ _ _ _ Hrun), Hrun'. simpl. f_equal. unfold outgoing in Hout'. unfold waiting. by rewrite Hout'. }
      eapply turn_ok_serving; [done|exact Hs|by destruct poll as [| | | |[]]|].
      intros _. split; [done|]. split; [done|]. by exists i.
    + destruct Hdrive as (Hkind & es' & Hes' & Hseen & Hp). simpl in Hp. assert (Hno : goes_on (lift_poll poll) = false) by by destruct poll.
      split; [|split; [by rewrite Hno|by destruct poll]]. rewrite Hno. intros g u out [= <- <- <-]. exists i, (es ++ es').
      split; [by apply Forall_app|]. split; [done|]. split; [by rewrite (proj1 Hkind)|].
      split; [exact (accounted_seen _ _ _ r0 _ Hacc Hseen)|]. by rewrite (run_filter_app _ _ _ _ _ Hrun).
  - destruct Hdrive as (_ & es' & Hes' & _ & _ & Hh). by eapply (hung_filter _ es).
  - destruct Hdrive as (_ & es' & Hes' & _ & _ & Hh). by eapply (hung_filter _ es).
Qed.

Lemma drive_connected_ok permit p :
  proxy_inv received p → match tp_state p with ConnectingServer _ | OpenIntercept _ | Closing => True | _ => False end →
  wppf (drive_connected limits grown permit) (turn_ok received) p.
Proof.
  intros [Hq Hst] Hstate. destruct (tp_state p) as [| | |cs|r|] eqn:Hp; try done.
  - destruct Hst as [Hout [i Hs]]. by eapply connecting_ok.
  - destruct Hst as [Hout [i Hs]]. by eapply relaying_ok.
  - intros c Hc. unfold wp, drive_connected. rewrite Hc, Hp. apply turn_ok_ended; [by unfold sessions_of; rewrite Hc, Hp|done|done].
Qed.

(** ** Connecting *)
Record kept_buffers (r : @TlsHttp1Proxy G unit) : Prop := {
  kb_out : pooled (tls_out r); kb_plain : pooled (plaintext_buf r); kb_output : pooled (output (upstream r));
  kb_queue : queue_pooled (out_queue (upstream r));
}.

(** What was said before there is a server went through the filter, which holds or queues its output. *)
Definition forwarded (a : Authority) (step : RelayStep) (r : @TlsHttp1Proxy G unit) : Prop :=
  step ≠ StepBudget ∧ queue_inv (out_queue (upstream r)) ∧
  ∃ es, Forall byte_event es ∧ guest_bytes es = plaintext_given (guest_tls r) ∧ response_bytes es = [] ∧ plaintext_bytes es = [] ∧
    run_filter es (filter_of a) = (waiting (upstream r), Ret (filter r)).

Lemma forward_ok a plaintext substitute guest out p :
  queue_inv (tp_pending p) → pooled plaintext → pooled substitute → as_slice substitute = [] → pooled out → plaintext_given guest = [] →
  ∀ c, c_proxy c = p → wp (forward_before_connect limits grown (filter_of a) plaintext substitute guest out)
    (λ '(res, r) c', c_proxy c' = p ∧ kept_buffers r ∧ match res with inl step => forwarded a step r | inr _ => True end) c.
Proof.
  intros Hq Hpl Hsub Hempty Hout Hg c Hc. unfold wp, forward_before_connect. rewrite Hc. set (r0 := Build_Relay _ _ _ _).
  assert (Hinv : relay_inv r0).
  { split; [done|]. split; [apply queue_new_ok|]. by constructor. }
  pose proof (forward_clear_spec limits grown Hrelay r0 Hinv ltac:(by split)) as Hf.
  assert (Hkept : ∀ r1, same_kind r0 r1 → kept_buffers (proxy r1)).
  { intros r1 (_ & Ho & Hp & Ht & Hqu). split; unfold pooled; rewrite ?Ho, ?Hp, ?Ht; try done. apply Hqu. by constructor. }
  assert (Hnew : outgoing (proxy r0) = []) by (unfold outgoing, unsent; simpl; by rewrite Hempty).
  destruct (forward_plaintext_to_server _ _ r0) as [[step|e| |] r1]; simpl.
  - destruct Hf as ([_ Hq1] & _ & (Hkind & es & Hes & (dg & du & Hgiven & Hsaid & Hgs & Hrs & Hps) & Hrun & Ho) & Hstep).
    split; [done|]. split; [by apply Hkept|]. split; [done|]. split; [done|].
    exists es. split; [done|]. unfold given, said in *. simpl in *. rewrite Hg in Hgiven. subst du. rewrite app_nil_r in Hgs, Hrs, Hps.
    split; [by rewrite Hgs, Hgiven|]. split; [done|]. split; [done|].
    rewrite Hnew in Ho. simpl in Ho. unfold outgoing in Ho. simpl in Ho. unfold waiting. by rewrite Ho, Hrun.
  - destruct Hf as (Hkind & _). split; [done|]. split; [by apply Hkept|done].
  - destruct Hf as (_ & es & Hes & _ & _ & Hh). by exists a, es.
  - destruct Hf as (_ & es & Hes & _ & _ & Hh). by exists a, es.
Qed.

Lemma drop_relay_ok {B} r (k : unit → M B) Q p : kept_buffers r → wppf (k tt) Q p → wppf (drop_relay limits r ≫= k) Q p.
Proof.
  intros [Ho Hp Hs Hq] Hk. apply wppf_bind. unfold drop_relay. apply wppf_drop_writes; [done|]. apply wppf_drop; [done|].
  intros c Hc. unfold wp, drop_buf. destruct (byte_recycle_pooled (E:=Empty_set) limits _ (c_pool c) Hp) as [pl ->].
  by subst p.
Qed.

Lemma connect_ok rt permit i guest out p :
  (∀ dst name config u, connect rt dst name config = Ret u → up_accepted u = [] ∧ up_given u = [] ∧ up_peer u = (dst, name)) →
  (∀ dst name config, returns (connect rt dst name config)) →
  handshake_pre received i None guest out p →
  wppc (connect_intercept_after_guest_handshake limits grown rt permit policy i guest out) (turn_ok received) p.
Proof.
  intros Hconnect Hreturns (Hq & Hout & _ & Hi & Hs & Hg). unfold connect_intercept_after_guest_handshake. cbv zeta.
  assert (Hwait : wpp (restore_guest_tls_handshake policy i guest out;; on_drive_turn (block_on LOCAL_BUFFER_CAPACITY);; mret PollPending) (turn_ok received) p).
  { apply wpp_set_state. eapply wpp_keeps; [apply keeps_turn|]. intros _ _. apply wpp_ret. by apply turn_ok_none. }
  eapply wppc_keeps; [apply keeps_take|]. intros [plaintext|] Hpl; [|by apply wpp_wppc]. destruct Hpl as [Hpl _].
  set (plaintext' := set_bytes grown _ plaintext). assert (Hpl' : pooled plaintext') by done.
  eapply wppc_keeps; [apply keeps_take|]. intros [substitute|] Hsub; [|by apply wpp_wppc, wpp_drop]. destruct Hsub as [Hsub Hempty].
  (* what the server is told comes out of a filter of the name the guest asked for *)
  assert (Hsecrets : http1_filter_new (it_secrets i) (authority_str (it_authority i)) = filter_of (it_authority i)).
  { destruct Hi as (host & later & _ & _ & _ & _ & -> & _). done. }
  rewrite Hsecrets. apply wppf_wppc, wppf_bind. intros c Hc.
  eapply wp_conseq; [by apply forward_ok|]. intros [res r] c' (-> & Hkept & Hres).
  assert (Hconnected : ∀ p, queue_inv (tp_pending p) → sessions_of p = None → (∃ step, forwarded (it_authority i) step r) →
    wppf (match connect rt (tls_dst policy) (authority_str (it_authority i)) (client_config policy) with
          | Ret u =>
            set_state (ConnectingServer {| cs_guest_tls := guest_tls r; cs_filter := filter r; cs_tls_out := tls_out r;
              cs_plaintext_buf := plaintext_buf r; cs_upstream := upstream r; cs_server_tls := u |});;
            drive_connected limits grown permit
          | Fail e => drop_relay limits r;; drop_buf limits (tls_out r);; mret (PollError (inl e))
          | Panic => stm_lift Panic
          | Timeout => stm_lift Timeout
          end) (turn_ok received) p).
  { intros p' Hq' Hs' (step & _ & Hout' & es & Hes & Hgs & Hrs & Hps & Hrun). specialize (Hreturns (tls_dst policy) (authority_str (it_authority i)) (client_config policy)).
    destruct (connect rt _ _ _) as [u|e| |] eqn:Hcon; try done.
    - apply Hconnect in Hcon as (Ha & Hu & Hp).
      apply (wppf_modify (λ p, p <| tp_state := ConnectingServer {| cs_guest_tls := guest_tls r; cs_filter := filter r; cs_tls_out := tls_out r;
        cs_plaintext_buf := plaintext_buf r; cs_upstream := upstream r; cs_server_tls := u |} |>)); [done|].
      apply drive_connected_ok; [|done]. split; [done|]. split; [done|]. exists i. split; [done|]. split; [done|]. exists es. split; [done|].
      split; [split_and!; simpl; by rewrite ?Hu|]. rewrite Hrun. simpl. by rewrite Ha.
    - apply drop_relay_ok; [done|]. apply wppf_drop; [by destruct Hkept|]. apply wppf_ret. by apply turn_ok_ended. }
  destruct res as [step|e].
  2: { apply drop_relay_ok; [done|]. apply wppf_drop; [by destruct Hkept|]. apply wppf_ret. by apply turn_ok_ended. }
  assert (Hsome : ∃ step, forwarded (it_authority i) step r) by by exists step.
  destruct step; try by apply Hconnected.
  - by destruct Hres as [[]].
  - apply (wppf_modify finish_guest_write); [done|]. by apply Hconnected.
  - apply (wppf_modify finish_guest_write); [done|]. by apply Hconnected.
Qed.

(** What a turn is run with: fresh sessions have accepted nothing and are of the server asked for. *)
Record runtime_ok (rt : Runtime) : Prop := {
  ro_fresh dst name config u : connect rt dst name config = Ret u → up_accepted u = [] ∧ up_given u = [] ∧ up_peer u = (dst, name);
  ro_returns dst name config : returns (connect rt dst name config);
}.

Lemma poll_handshake_ok rt permit i g out p :
  runtime_ok rt → proxy_inv received p → tp_state p = GuestTlsHandshake policy i g out →
  wppc (poll_guest_tls_handshake limits grown rt permit) (turn_ok received) p.
Proof.
  intros [Hfresh Hret] [Hq Hst] Hstate. rewrite Hstate in Hst. destruct Hst as (_ & Hout & Hi & Hg).
  unfold poll_guest_tls_handshake. apply wppc_get. intros c ->. destruct (close_requested p).
  { apply wpp_wppc, wpp_ret. apply turn_ok_ended; [|done..]. unfold sessions_of. by rewrite Hstate. }
  rewrite Hstate. apply wppc_set_state. set (p1 := (p <| tp_state := Closing |>)).
  eapply (wppc_keeps _ (λ '(g', out', poll), pooled out' ∧ plaintext_given g' = plaintext_given g ∧ match poll with Some (PollBypass _) => False | _ => True end)).
  { destruct (_ || _); [by apply keeps_output|by apply keeps_mret]. }
  intros [[g1 out1] poll] (Hout1 & Hg1 & Hpoll). rewrite Hg in Hg1. destruct poll as [poll|].
  - apply wpp_wppc. destruct (is_event poll) eqn:Hev.
    + apply wpp_drop; [done|]. apply wpp_ret. apply turn_ok_ended; [done|by destruct poll|by intros b ->].
    + apply wpp_set_state, wpp_ret. apply turn_ok_none; [done|by intros b ->|done].
  - apply wppc_bind. eapply wpp_mono; [apply handshake_loop_ok; [by split_and!|]|].
    + unfold rounds, to_feed. rewrite pending_bytes_ok by apply Hq. simpl. lia.
    + intros [[g2 out2]|poll] p2 Hres.
      * destruct Hres as (Hout2 & Hq2 & Hs2 & Hg2). apply connect_ok; [done|done|]. by split_and!.
      * by apply wpp_wppc, wpp_ret.
Qed.

(** A turn of a connection *)
Lemma tls_proxy_drive_ok rt permit p :
  runtime_ok rt → proxy_inv received p → wppc (tls_proxy_drive limits grown rt permit) (turn_ok received) p.
Proof.
  intros Hrt Hinv. pose proof Hinv as [Hq Hst]. unfold tls_proxy_drive. apply wppc_get. intros c ->. cbv zeta.
  destruct (tp_state p) as [pol'|pol' initial|pol' i g out|cs|r|] eqn:Hstate; simpl in Hst.
  1,2,3: destruct Hst as [-> Hst]; destruct (_ && _);
    [apply wpp_wppc, wpp_ret, turn_ok_ended; [unfold sessions_of; by rewrite Hstate|done|done]|].
  - by apply wpp_wppc, poll_hello_buffer_ok.
  - by eapply wpp_wppc, poll_hello_ok.
  - by eapply poll_handshake_ok.
  - apply wppf_wppc, drive_connected_ok; [done|by rewrite Hstate].
  - apply wppf_wppc, drive_connected_ok; [done|by rewrite Hstate].
  - apply wppf_wppc, drive_connected_ok; [done|by rewrite Hstate].
Qed.
End server.
End proxy.
