(* ===== verification/TlsUpstream.v ===== *)
(** * The session with a server
      (src/libs/agentdp-network/src/egress/tcp/tls_upstream.rs)

    A TLS session over a registered socket: the handshake, plaintext out of the
    queue of the relay, plaintext for the guest, and the end of writing.  The
    session of agentdp-crypto is an interface, the answers of the reactor and of
    the socket are lists fixed in advance.  [Upstream], the interface the relay
    is proved against, is implemented here. *)
From S2P Require Import Prelude Fields Text Policy Gateway Io Raw HttpHead Http1 HttpStream HttpSecrecy HttpTotal IoSlot Limits Buffers Drive DriveCorrect TlsRoute TlsSession TlsRelay TlsRelayLaws TlsRelaySteps TlsProxy TlsProxyCorrect.
Local Open Scope nat_scope.

(** ** The session ([TlsClientSession]); its ciphertext goes through the socket *)
Class ClientTls (C : Type) := {
  c_is_handshaking : C → bool;
  c_wants_write : C → bool;
  c_read_ciphertext_bounded : nat → stm (C * Stream) tls_error TlsCiphertextRead;
  c_drain_ciphertext_to : nat → stm (C * Stream) tls_error TlsCiphertextDrain;
  c_read_plaintext_some : nat → stm C tls_error TlsPlaintextRead;
  c_write_plaintext_some : bytes → stm C tls_error TlsPlaintextWrite;
  c_queue_close_notify : C → C;
}.
Class ClientTlsLaws (C : Type) `{ClientTls C} := {
  c_read_ciphertext_returns n s : returns (fst (c_read_ciphertext_bounded n s));
  c_drain_returns n s : returns (fst (c_drain_ciphertext_to n s));
  c_read_returns n c : returns (fst (c_read_plaintext_some n c));
  c_write_returns bs c : returns (fst (c_write_plaintext_some bs c));
  c_write_len bs c n c' : c_write_plaintext_some bs c = (Ret (PlaintextAccepted n), c') → n ≤ length bs;
}.

Inductive TlsConnectState := Connecting_ | ConnectReady.
Inductive TlsWriteState := WriteOpen (application_ciphertext_pending : bool) | CloseNotifyPending | WriteFinished.

Definition TLS_HANDSHAKE_READ_CHUNK_BYTES : nat := Z.to_nat (16 * 1024).

(** [is_closed_write_error] *)
Definition is_closed_write_error (e : tls_error) : bool := match e with BrokenPipe | ClosedByPeer => true | _ => false end.
Definition is_benign_shutdown_write_error (e : tls_error) (application_ciphertext_pending : bool) : bool :=
  is_closed_write_error e && negb application_ciphertext_pending.

Section upstream.
Context {C : Type} `{ClientTls C} (limits : NetworkLimits).

(** The last three fields are not in the code: the plaintext that was accepted and the plaintext that was
    given, and the server and the name of the session.  [us_reactor] answers the changes of interest still to come, all of them well when it
    is used up; [us_error] is the error that waits on the socket. *)
Record TlsUpstream := {
  us_stream : Stream;
  us_io : IoSlotState;
  us_connection : C;
  us_connect : TlsConnectState;
  us_write : TlsWriteState;
  us_reactor : list (option tls_error);
  us_error : option tls_error;
  us_accepted : bytes;
  us_given : bytes;
  us_peer : SocketAddr * str;
}.
#[export] Instance TlsUpstream_eta : Eta TlsUpstream := λ u,
  {| us_stream := us_stream u; us_io := us_io u; us_connection := us_connection u; us_connect := us_connect u; us_write := us_write u;
     us_reactor := us_reactor u; us_error := us_error u; us_accepted := us_accepted u; us_given := us_given u; us_peer := us_peer u |}.
Definition UpstreamTurn : Type := DriveTurn * TlsUpstream.
Abbreviation M := (stm UpstreamTurn tls_error).

(** [TlsUpstream::connect]: what the connector, the crypto library and the reactor answer *)
Definition upstream_connect (socket : outcome tls_error Stream) (session : outcome tls_error C) (registered : outcome tls_error unit)
    (reactor : list (option tls_error)) (error : option tls_error) (dst : SocketAddr) (server_name : str) : outcome tls_error TlsUpstream :=
  stream ← socket;
  connection ← session;
  _ ← registered;
  Ret {| us_stream := stream; us_io := registered_with_read_probe ReadWrite; us_connection := connection; us_connect := Connecting_;
         us_write := WriteOpen false; us_reactor := reactor; us_error := error; us_accepted := []; us_given := []; us_peer := (dst, server_name) |}.

Definition write_open (u : TlsUpstream) : bool := match us_write u with WriteOpen _ => true | _ => false end.
Definition us_write_finished (u : TlsUpstream) : bool := negb (write_open u).
Definition mark_connect_ready (u : TlsUpstream) : TlsUpstream := u <| us_connect := ConnectReady |>.
Definition us_mark_reactor_ready (readable writable : bool) (u : TlsUpstream) : TlsUpstream :=
  u <| us_io ::= IoSlot.mark_reactor_ready readable writable |>.
Definition transport_wants_write (u : TlsUpstream) : bool :=
  match us_write u with WriteOpen _ => c_wants_write (us_connection u) | CloseNotifyPending => true | WriteFinished => false end.
Definition application_ciphertext_pending (u : TlsUpstream) : bool :=
  match us_write u with WriteOpen pending => pending | _ => false end.
Definition set_application_ciphertext_pending (pending : bool) (u : TlsUpstream) : TlsUpstream :=
  if write_open u then u <| us_write := WriteOpen pending |> else u.
Definition us_has_reactor_write_work (u : TlsUpstream) : bool :=
  match us_connect u with Connecting_ => true | ConnectReady => transport_wants_write u end.

Definition get_upstream : M TlsUpstream := λ s, (Ret s.2, s).
Definition set_upstream (f : TlsUpstream → TlsUpstream) : M unit := stm_modify (λ '(d, u), (d, f u)).
Definition wait_on (w : Z) : M unit := stm_modify (λ '(d, u), (block_on w d, u)).
Definition wait_read_write : M unit := wait_on REACTOR_READ;; wait_on REACTOR_WRITE.

(** ** The interest of the socket *)
Definition reregister_interest (interest : ReactorInterest) : stm TlsUpstream tls_error unit := λ u,
  let answer := match us_reactor u with Some e :: _ => Fail e | _ => Ret tt end in
  let (o, io) := IoSlot.reregister answer interest (us_io u) in
  (o, u <| us_reactor ::= tl |> <| us_io := io |>).
Definition on_upstream {A} (m : stm TlsUpstream tls_error A) : M A := stm_zoom snd (λ u s, (s.1, u)) m.
Definition update_interest (plaintext_write_pending : bool) : M unit :=
  u ← get_upstream;
  on_upstream (reregister_interest (if transport_wants_write u || plaintext_write_pending then ReadWrite else Readable)).
Definition ensure_read_interest (plaintext_write_pending : bool) : M unit :=
  u ← get_upstream;
  if negb (watches_read (us_io u)) then update_interest plaintext_write_pending else mret tt.
Definition park_read (plaintext_write_pending : bool) : stm TlsUpstream tls_error unit :=
  u ← stm_get;
  reregister_interest (if transport_wants_write u || plaintext_write_pending then Writable else Disabled).

(** ** Ciphertext *)
Definition on_transport {T} (reads : bool) (available : nat) (op : nat → stm (C * Stream) tls_error (DriveTransportOp T)) : M (DriveTransportPoll T) :=
  λ '(d, u),
  match transport_ready reads available op (d, us_io u, (us_connection u, us_stream u)) with
  | (o, (d, io, (c, s))) => (o, (d, u <| us_io := io |> <| us_connection := c |> <| us_stream := s |>))
  end.

Definition drain_op (limit : nat) : stm (C * Stream) tls_error (DriveTransportOp TlsCiphertextDrain) :=
  drain ← c_drain_ciphertext_to limit;
  mret (match drain with
        | DrainProgress bs => TransportProgress (length bs) drain
        | DrainBlocked => TransportWouldBlock drain
        | DrainEmpty => TransportNoProgress drain
        end).
(** The callers ask for [usize::MAX] bytes: for what the turn has left. *)
Definition drain_ciphertext_ready : M (DriveTransportPoll TlsCiphertextDrain) := λ s, on_transport false (remaining_bytes s.1) drain_op s.

Definition read_op (limit : nat) : stm (C * Stream) tls_error (DriveTransportOp TlsCiphertextRead) :=
  read ← c_read_ciphertext_bounded limit;
  mret (match read with
        | CiphertextRead n => TransportProgress n read
        | CiphertextBlocked => TransportWouldBlock read
        | CiphertextClosed => TransportNoProgress read
        end).
Definition read_ciphertext_ready (plaintext_write_pending : bool) (available : nat) : M (DriveTransportPoll TlsCiphertextRead) :=
  ensure_read_interest plaintext_write_pending;;
  on_transport true available read_op.

(** The state of writing after ciphertext was queued or drained *)
Definition note_written (u : TlsUpstream) : TlsUpstream :=
  if write_open u then set_application_ciphertext_pending (c_wants_write (us_connection u)) u
  else u <| us_write := if c_wants_write (us_connection u) then CloseNotifyPending else WriteFinished |>.

Definition flush_tls : M (DriveTransportPoll bool) :=
  drain ← drain_ciphertext_ready;
  let flushed (b : bool) : M (DriveTransportPoll bool) := set_upstream note_written;; update_interest false;; mret (TransportComplete b) in
  match drain with
  | TransportComplete (DrainProgress bs) => flushed (0 <? length bs)
  | TransportComplete DrainBlocked | TransportPending => mret TransportPending
  | TransportComplete DrainEmpty => flushed false
  | TransportBudget => mret TransportBudget
  end.

Definition wait_if_wants_write : M unit :=
  u ← get_upstream; if transport_wants_write u then wait_on REACTOR_WRITE else mret tt.

Definition flush_pending_ciphertext : M unit :=
  u ← get_upstream;
  if negb (transport_wants_write u) then set_upstream (set_application_ciphertext_pending false)
  else
    flushed ← stm_try flush_tls;
    match flushed with
    | inl (TransportComplete _) => wait_if_wants_write
    | inl _ => mret tt
    | inr e =>
      u ← get_upstream;
      if us_write_finished u && is_closed_write_error e
      then set_upstream (λ u, u <| us_write := WriteFinished |>);; update_interest false
      else stm_fail e
    end.

(** ** The handshake: a round that is followed by another has spent a step of the turn *)

(** Whether there was progress, and whether writing would block; [None] for the end of the budget *)
Definition handshake_write : M (option (bool * bool)) :=
  u ← get_upstream;
  if c_wants_write (us_connection u) then
    drain ← drain_ciphertext_ready;
    u ← get_upstream;
    match drain with
    | TransportComplete (DrainProgress bs) => mret (Some (0 <? length bs, false))
    | TransportComplete DrainBlocked | TransportPending => mret (Some (false, c_wants_write (us_connection u)))
    | TransportComplete DrainEmpty => mret (Some (false, false))
    | TransportBudget => mret None
    end
  else mret (Some (false, false)).

(** Whether there was progress, and whether reading would block *)
Definition handshake_read : M (option (bool * bool)) :=
  u ← get_upstream;
  if c_is_handshaking (us_connection u) then
    read ← read_ciphertext_ready false TLS_HANDSHAKE_READ_CHUNK_BYTES;
    match read with
    | TransportComplete (CiphertextRead _) => mret (Some (true, false))
    | TransportComplete CiphertextBlocked | TransportPending => mret (Some (false, true))
    | TransportComplete CiphertextClosed => stm_fail UnexpectedEof
    | TransportBudget => mret None
    end
  else mret (Some (false, false)).

Fixpoint handshake_rounds (fuel : nat) : M TlsDrive :=
  u ← get_upstream;
  if negb (c_is_handshaking (us_connection u) || c_wants_write (us_connection u)) then update_interest false;; mret DriveReady
  else
    written ← handshake_write;
    match written with
    | None => mret DrivePending
    | Some (wrote, blocked_write) =>
      read ← handshake_read;
      match read with
      | None => mret DrivePending
      | Some (got, blocked_read) =>
        if wrote || got then match fuel with O => stm_lift Timeout | S fuel => handshake_rounds fuel end
        else
          update_interest false;;
          match blocked_read, blocked_write with
          | true, true | false, false => wait_read_write
          | true, false => wait_on REACTOR_READ
          | false, true => wait_on REACTOR_WRITE
          end;;
          mret DrivePending
      end
    end.

Definition drive_handshake : M TlsDrive := λ '(d, u),
  match us_connect u with
  | Connecting_ => (wait_read_write;; mret DrivePending) (d, u)
  | ConnectReady =>
    match us_error u with
    | Some e => (Fail e, (d, u <| us_error := None |>))
    | None => handshake_rounds (steps (budget d)) (d, u)
    end
  end.

(** ** Plaintext for the server *)
Definition Writing : Type := DriveTurn * BufferPool * WriteQueue * TlsUpstream.
Definition in_turn {A} (m : M A) : stm Writing tls_error A :=
  stm_zoom (λ '(d, _, _, u), (d, u)) (λ '(d, u) '(_, p, q, _), (d, p, q, u)) m.

(** The closure that writes to the session; what it accepts is recorded *)
Definition write_step (bs : bytes) (write_len : nat) : stm TlsUpstream tls_error (DriveProtocolOp TlsPlaintextWrite) := λ u,
  match c_write_plaintext_some (take write_len bs) (us_connection u) with
  | (o, c) =>
    let u := u <| us_connection := c |> in
    match o with
    | Ret (PlaintextAccepted n) => (Ret (OpProgress n (PlaintextAccepted n)), u <| us_accepted ::= λ a, a ++ take n bs |>)
    | Ret BlockedByPendingCiphertext => (Ret (OpNoProgress BlockedByPendingCiphertext), u)
    | Fail e => (Fail e, u) | Panic => (Panic, u) | Timeout => (Timeout, u)
    end
  end.

(** Whether the ciphertext that waits lets plaintext be written *)
Definition flushed_first : M bool :=
  u ← get_upstream;
  if c_wants_write (us_connection u) then
    flushed ← flush_tls;
    u ← get_upstream;
    match flushed with
    | TransportComplete flushed => mret (negb (negb flushed && c_wants_write (us_connection u)) && negb (c_wants_write (us_connection u)))
    | TransportPending | TransportBudget => mret false
    end
  else mret true.

Definition advance_queue (n : nat) : stm Writing tls_error bool := λ '(d, p, q, u),
  let '(advanced, dropped, q) := advance_front n q in
  match dropped with
  | None => (Ret advanced, (d, p, q, u))
  | Some b =>
    match byte_recycle limits b p with
    | Ret p => (Ret advanced, (d, p, q, u))
    | Fail e => (Fail e, (d, p, q, u)) | Panic => (Panic, (d, p, q, u)) | Timeout => (Timeout, (d, p, q, u))
    end
  end.

Definition front : stm Writing tls_error (option bytes) := λ s, (Ret (front_slice s.1.2), s).

(** Each round but the last spends a step of the turn. *)
Fixpoint plaintext_loop (fuel : nat) : stm Writing tls_error unit :=
  bytes ← front;
  match bytes with
  | None => mret tt
  | Some bs =>
    ready ← in_turn flushed_first;
    if negb ready then mret tt
    else
      written ← in_turn (drive_protocol_op (length bs) (write_step bs));
      match written with
      | ProtocolComplete (PlaintextAccepted n) =>
        in_turn (set_upstream (λ u, set_application_ciphertext_pending (c_wants_write (us_connection u)) u));;
        advanced ← advance_queue n;
        if negb advanced then mret tt
        else match fuel with O => stm_lift Timeout | S fuel => plaintext_loop fuel end
      | ProtocolComplete BlockedByPendingCiphertext | ProtocolBudget => mret tt
      end
  end.

Definition write_pending_plaintext : stm Writing tls_error unit := λ s,
  let '(d, p, q, u) := s in
  if us_write_finished u then
    if negb (queue_is_empty q) then (Fail BrokenPipe, s) else in_turn flush_pending_ciphertext s
  else if queue_is_empty q then
    if c_wants_write (us_connection u) then in_turn flush_pending_ciphertext s
    else in_turn (set_upstream (set_application_ciphertext_pending false)) s
  else
    (plaintext_loop (steps (budget d));;
     s ← stm_get;
     let plaintext_pending := negb (queue_is_empty s.1.2) in
     in_turn (u ← get_upstream;
              (if c_wants_write (us_connection u) || plaintext_pending then wait_on REACTOR_WRITE else mret tt);;
              update_interest plaintext_pending)) s.

(** ** The end of writing *)
Definition close_write : M unit :=
  set_upstream (λ u, u <| us_connection ::= c_queue_close_notify |>);;
  set_upstream (λ u, u <| us_write := if c_wants_write (us_connection u) then CloseNotifyPending else WriteFinished |>);;
  flushed ← stm_try flush_tls;
  match flushed with
  | inl (TransportComplete _) =>
    set_upstream (λ u, u <| us_write := if c_wants_write (us_connection u) then CloseNotifyPending else WriteFinished |>);;
    u ← get_upstream;
    match us_write u with CloseNotifyPending => wait_on REACTOR_WRITE | _ => mret tt end
  | inl _ => mret tt
  | inr e =>
    if is_closed_write_error e then set_upstream (λ u, u <| us_write := WriteFinished |>);; update_interest false else stm_fail e
  end.

Definition finish_write : M unit :=
  u ← get_upstream;
  if us_write_finished u then mret tt
  else if c_wants_write (us_connection u) then
    flushed ← stm_try flush_tls;
    match flushed with
    | inl (TransportComplete _) =>
      wait_if_wants_write;;
      u ← get_upstream;
      if c_wants_write (us_connection u) then mret tt else close_write
    | inl _ => mret tt
    | inr e =>
      u ← get_upstream;
      if is_benign_shutdown_write_error e (application_ciphertext_pending u)
      then set_upstream (λ u, u <| us_write := WriteFinished |>);; update_interest false
      else stm_fail e
    end
  else close_write.

(** ** Plaintext for the guest *)
Definition read_session (n : nat) : M TlsPlaintextRead := λ '(d, u),
  let (o, c) := c_read_plaintext_some n (us_connection u) in (o, (d, u <| us_connection := c |>)).

Definition read_state (r : TlsPlaintextRead) : TlsPlaintextDrive :=
  match r with PlaintextRead bs => DrivePlaintext bs | PlaintextClosed => DriveEof | PlaintextBlocked => DriveBlocked end.

Definition refresh_interest (plaintext_write_pending : bool) : M unit :=
  set_upstream (λ u, set_application_ciphertext_pending (c_wants_write (us_connection u)) u);; update_interest plaintext_write_pending.

Definition us_read_plaintext (len : nat) (plaintext_write_pending : bool) : M TlsPlaintextDrive :=
  first ← read_session len;
  if match first with PlaintextBlocked => negb (len =? 0) | _ => false end then
    got ← read_ciphertext_ready plaintext_write_pending len;
    match got with
    | TransportComplete (CiphertextRead _) =>
      again ← read_session len;
      refresh_interest plaintext_write_pending;; mret (read_state again)
    | TransportComplete CiphertextBlocked | TransportPending => refresh_interest plaintext_write_pending;; mret DriveBlocked
    | TransportComplete CiphertextClosed => refresh_interest plaintext_write_pending;; mret DriveEof
    | TransportBudget => mret DriveBudget
    end
  else mret (read_state first).

(** What the caller is given is recorded. *)
Definition recorded (m : M TlsPlaintextDrive) : M TlsPlaintextDrive :=
  read ← m;
  set_upstream (λ u, match read with DrivePlaintext bs => u <| us_given ::= λ g, g ++ bs |> | _ => u end);;
  mret read.
End upstream.
Arguments TlsUpstream : clear implicits.

(** ** What every call keeps: what was accepted and given, and the server *)
Section kept.
Context {C : Type} `{ClientTlsLaws C} (limits : NetworkLimits).
Abbreviation M := (stm (UpstreamTurn (C:=C)) tls_error).

Definition same_session (u u' : TlsUpstream C) : Prop :=
  us_accepted u' = us_accepted u ∧ us_given u' = us_given u ∧ us_peer u' = us_peer u.
Definition session_kept (s s' : UpstreamTurn (C:=C)) : Prop := same_session s.2 s'.2 ∧ budget_le s'.1 s.1.
#[export] Instance session_kept_preorder : PreOrder session_kept.
Proof.
  split; [by intros s|]. intros s1 s2 s3 [(Ha & Hg & Hp) Hb] [(Ha' & Hg' & Hp') Hb']. split; [split_and!; congruence|by etrans].
Qed.

(** The call returns; a result satisfies [Q], of a turn that had [n] steps *)
Definition keeps_session {A} (m : M A) (Q : A → nat → UpstreamTurn (C:=C) → Prop) : Prop := ∀ s,
  match m s with
  | (Ret a, s') => session_kept s s' ∧ Q a (steps (budget s.1)) s'
  | (Fail _, s') => session_kept s s'
  | _ => False
  end.
Definition whatever {A} (_ : A) (_ : nat) (_ : UpstreamTurn (C:=C)) : Prop := True.
Definition fine {A} (m : M A) : Prop := keeps_session m whatever.

Lemma fine_of {A} (m : M A) Q : keeps_session m Q → fine m.
Proof. intros Hm s. specialize (Hm s). destruct (m s) as [[a|e| |] s']; try done. by split; [apply Hm|]. Qed.
Lemma fine_ret {A} (a : A) : fine (mret a).
Proof. intros s. by split; [|]. Qed.
Lemma fine_fail {A} e : fine (A:=A) (stm_fail e).
Proof. intros s. done. Qed.
Lemma fine_get : fine get_upstream.
Proof. intros s. by split. Qed.
Lemma fine_set f : (∀ u, same_session u (f u)) → fine (set_upstream f).
Proof. intros Hf [d u]. split; [|done]. split; [apply Hf|done]. Qed.
Lemma fine_wait w : fine (wait_on w).
Proof. intros [d u]. by split. Qed.
Lemma session_bind {A B} (m : M A) (k : A → M B) (Q : B → nat → UpstreamTurn (C:=C) → Prop) (R : A → nat → UpstreamTurn (C:=C) → Prop) :
  keeps_session m R → (∀ a n s, R a n s → steps (budget s.1) ≤ n →
    match k a s with (Ret b, s') => session_kept s s' ∧ Q b n s' | (Fail _, s') => session_kept s s' | _ => False end) →
  keeps_session (m ≫= k) Q.
Proof.
  intros Hm Hk s. specialize (Hm s). unfold mbind, stm_bind. destruct (m s) as [[a|e| |] s1]; try done. destruct Hm as [Hs1 HR].
  specialize (Hk a _ s1 HR (proj1 (proj2 (proj2 Hs1)))). destruct (k a s1) as [[b|e| |] s2]; try done; [|by etrans].
  destruct Hk as [Hs2 HQ]. split; [by etrans|done].
Qed.
Lemma fine_bind {A B} (m : M A) (k : A → M B) : fine m → (∀ a, fine (k a)) → fine (m ≫= k).
Proof. intros Hm Hk. eapply session_bind; [exact Hm|]. intros a n s _ _. apply (Hk a s). Qed.
Lemma fine_try {A} (m : M A) : fine m → fine (stm_try m).
Proof. intros Hm s. specialize (Hm s). unfold stm_try. destruct (m s) as [[a|e| |] s']; try done. Qed.

Lemma same_note u : same_session u (note_written u).
Proof. unfold note_written, set_application_ciphertext_pending. by repeat case_match. Qed.
Lemma same_pending b u : same_session u (set_application_ciphertext_pending b u).
Proof. unfold set_application_ciphertext_pending. by case_match. Qed.

Create HintDb upstream.
#[local] Hint Resolve fine_ret fine_fail fine_get fine_set fine_wait fine_bind fine_try same_note same_pending : upstream.
(** Goes through a call, however it branches. *)
Ltac fine :=
  repeat (intros; cbv zeta; first
    [ by eauto 2 with upstream
    | apply fine_bind
    | apply fine_set; by intros
    | apply fine_try
    | case_match ]).

Lemma reregister_same i (u : TlsUpstream C) :
  match reregister_interest i u with (Ret _, u') | (Fail _, u') => same_session u u' | _ => False end.
Proof.
  unfold reregister_interest, IoSlot.reregister, mbind, stm_bind, stm_get. destruct (bool_decide _); [done|].
  by destruct (us_reactor u) as [|[e|] l].
Qed.
Lemma fine_reregister i : fine (on_upstream (reregister_interest i)).
Proof.
  intros [d u]. unfold on_upstream, stm_zoom. simpl. pose proof (reregister_same i u) as Hr.
  by destruct (reregister_interest i u) as [[a|e| |] u'].
Qed.
#[local] Hint Resolve fine_reregister : upstream.
Lemma fine_update b : fine (update_interest b).
Proof. unfold update_interest. fine. Qed.
#[local] Hint Resolve fine_update : upstream.
Lemma fine_ensure b : fine (ensure_read_interest b).
Proof. unfold ensure_read_interest. fine. Qed.
#[local] Hint Resolve fine_ensure : upstream.

(** An operation of the transport that is done has spent a step. *)
Definition spends {T} (o : DriveTransportPoll T) (n : nat) (s : UpstreamTurn (C:=C)) : Prop :=
  match o with TransportComplete _ => steps (budget s.1) < n | _ => True end.

Lemma chunk_steps available d chunk d' : protocol_chunk available d = (Some chunk, d') → steps (budget d') < steps (budget d).
Proof.
  unfold protocol_chunk, step_or_exhausted, or_exhausted. destruct (can_continue (budget d)) eqn:Hc; [|done]. cbn [negb].
  apply can_continue_spec in Hc as (_ & Hs & _). destruct (_ =? 0); [done|]. intros [= _ <-]. simpl. lia.
Qed.

Lemma spend_le (reads : bool) n d : budget_le ((if reads then bytes_read n else bytes_written n) (spend_bytes n d)) d.
Proof. etrans; [|apply spend_budget_le]. by destruct reads; split_and!; apply Nat.le_refl. Qed.

Lemma transport_session {T} reads available (op : nat → stm (C * Stream) tls_error (DriveTransportOp T)) :
  (∀ n s, returns (fst (op n s))) → keeps_session (on_transport reads available op) spends.
Proof.
  intros Hop [d u]. unfold on_transport, transport_ready. destruct (negb (can reads (us_io u))); [by split|].
  unfold drive_transport_op. destruct (protocol_chunk available d) as [[chunk|] d1] eqn:Hchunk;
    pose proof (proj1 (chunk_spec _ _ _ _ Hchunk)) as Hle; [|by split].
  apply chunk_steps in Hchunk. specialize (Hop chunk (us_connection u, us_stream u)).
  destruct (op chunk _) as [[[n v|v|v]|e| |] [c st]]; try done.
  - pose proof (spend_le reads n d1) as Hle2. split; [split; [done|by etrans]|]. destruct Hle2 as (_ & Hst & _). simpl in *. lia.
Qed.

Lemma drain_session : keeps_session (drain_ciphertext_ready (C:=C)) spends.
Proof.
  intros s. apply (transport_session false (remaining_bytes s.1) drain_op). intros n s'. unfold drain_op, mbind, stm_bind.
  pose proof (c_drain_returns n s') as Hr. by destruct (c_drain_ciphertext_to n s') as [[[]|e| |] s''].
Qed.
Lemma read_session_op available : keeps_session (on_transport true available read_op) spends.
Proof.
  apply transport_session. intros n s'. unfold read_op, mbind, stm_bind.
  pose proof (c_read_ciphertext_returns n s') as Hr. by destruct (c_read_ciphertext_bounded n s') as [[[]|e| |] s''].
Qed.
Lemma read_ready_session b available : keeps_session (read_ciphertext_ready b available) spends.
Proof.
  eapply session_bind; [apply fine_ensure|]. intros _ n s _ Hn. pose proof (read_session_op available s) as Hr.
  destruct (on_transport _ _ _ s) as [[o|e| |] s']; try done. destruct Hr as [Hk Hs]. split; [done|].
  unfold spends in *. destruct o; try done. lia.
Qed.
Lemma fine_drain : fine (drain_ciphertext_ready (C:=C)).
Proof. eapply fine_of, drain_session. Qed.
Lemma fine_read_ready b available : fine (read_ciphertext_ready b available).
Proof. eapply fine_of, read_ready_session. Qed.
#[local] Hint Resolve fine_drain fine_read_ready : upstream.

Lemma fine_flush : fine (flush_tls (C:=C)).
Proof. unfold flush_tls. fine. Qed.
#[local] Hint Resolve fine_flush : upstream.
Lemma fine_wait_if : fine (wait_if_wants_write (C:=C)).
Proof. unfold wait_if_wants_write. fine. Qed.
#[local] Hint Resolve fine_wait_if : upstream.
Lemma fine_flush_pending : fine (flush_pending_ciphertext (C:=C)).
Proof. unfold flush_pending_ciphertext. fine. Qed.
Lemma fine_close : fine (close_write (C:=C)).
Proof. unfold close_write. fine. Qed.
#[local] Hint Resolve fine_close : upstream.
Lemma fine_finish : fine (finish_write (C:=C)).
Proof. unfold finish_write. fine. Qed.
Lemma fine_read_session n : fine (read_session n).
Proof.
  intros [d u]. unfold read_session. pose proof (c_read_returns n (us_connection u)) as Hr.
  by destruct (c_read_plaintext_some n _) as [[v|e| |] c].
Qed.
#[local] Hint Resolve fine_read_session : upstream.
Lemma fine_read_plaintext n b : fine (us_read_plaintext n b).
Proof. unfold us_read_plaintext, refresh_interest. fine. Qed.
Lemma recorded_ok (m : M TlsPlaintextDrive) s : fine m →
  match recorded m s with
  | (o, s') => returns o ∧ us_accepted s'.2 = us_accepted s.2 ∧ us_given s'.2 = us_given s.2 ++ drive_out o ∧ us_peer s'.2 = us_peer s.2 ∧
      budget_le s'.1 s.1
  end.
Proof.
  intros Hm. specialize (Hm s). unfold recorded, mbind, stm_bind. destruct (m s) as [[read|e| |] [d u]]; try done.
  - destruct Hm as [[(Ha & Hg & Hp) Hb] _]. simpl in *. rewrite <-Hg. destruct read; split_and!; simpl; try done; by rewrite app_nil_r.
  - destruct Hm as [(Ha & Hg & Hp) Hb]. simpl in *. by rewrite app_nil_r.
Qed.
Lemma fine_flushed_first : fine (flushed_first (C:=C)).
Proof. unfold flushed_first. fine. Qed.

(** ** The handshake ends *)
Definition spent_a_step (o : option (bool * bool)) (n : nat) (s : UpstreamTurn (C:=C)) : Prop :=
  match o with Some (true, _) => steps (budget s.1) < n | _ => True end.

Lemma handshake_write_session : keeps_session (handshake_write (C:=C)) spent_a_step.
Proof.
  unfold handshake_write. intros s. unfold mbind at 1, stm_bind at 1, get_upstream at 1. destruct (c_wants_write _); [|by split].
  eapply session_bind; [apply drain_session|]. intros o n s' Ho _. unfold mbind, stm_bind, get_upstream.
  destruct o as [[bs| |]| |]; try (by split). split; [done|]. unfold spent_a_step. by destruct (0 <? length bs).
Qed.

Lemma handshake_read_session : keeps_session (handshake_read (C:=C)) spent_a_step.
Proof.
  unfold handshake_read. intros s. unfold mbind at 1, stm_bind at 1, get_upstream at 1. destruct (c_is_handshaking _); [|by split].
  eapply session_bind; [apply read_ready_session|]. intros o n s' Ho _. by destruct o as [[k| |]| |].
Qed.

Lemma handshake_rounds_ok fuel (s : UpstreamTurn (C:=C)) : steps (budget s.1) ≤ fuel →
  match handshake_rounds fuel s with (Ret _, s') | (Fail _, s') => session_kept s s' | _ => False end.
Proof.
  assert (Hall : ∀ (m : M TlsDrive) s, fine m → match m s with (Ret _, s') | (Fail _, s') => session_kept s s' | _ => False end).
  { intros m s0 Hm. specialize (Hm s0). destruct (m s0) as [[a|e| |] s']; try done. by destruct Hm. }
  revert s. induction fuel as [|fuel IH]; intros s Hfuel; cbn [handshake_rounds]; unfold mbind at 1, stm_bind at 1, get_upstream at 1;
    (destruct (negb _); [apply Hall; fine|]); unfold mbind at 1, stm_bind at 1;
    pose proof (handshake_write_session s) as Hw; destruct (handshake_write s) as [[o|e| |] s1]; try done; destruct Hw as [Hk1 Hs1];
    (destruct o as [[wrote blocked]|]; [|done]); unfold mbind at 1, stm_bind at 1;
    pose proof (handshake_read_session s1) as Hr; destruct (handshake_read s1) as [[o|e| |] s2]; try done; try exact (transitivity Hk1 Hr);
    destruct Hr as [Hk2 Hs2]; (destruct o as [[got blocked']|]; [|exact (transitivity Hk1 Hk2)]);
    pose proof (transitivity Hk1 Hk2) as Hk;
    assert (Hle1 : steps (budget s1.1) ≤ steps (budget s.1)) by apply Hk1;
    assert (Hle2 : steps (budget s2.1) ≤ steps (budget s1.1)) by apply Hk2.
  all: destruct (wrote || got) eqn:Hgo.
  1: { unfold spent_a_step in *. destruct wrote, got; try done; lia. }
  2: { assert (Hlt : steps (budget s2.1) ≤ fuel) by (unfold spent_a_step in *; destruct wrote, got; try done; lia).
       specialize (IH s2 Hlt). destruct (handshake_rounds fuel s2) as [[a|e| |] s3]; try done; exact (transitivity Hk IH). }
  all: match goal with |- match ?m ?x with _ => _ end => pose proof (Hall m x) as Hf; destruct (m x) as [[a|e| |] s3] end;
    unfold wait_read_write in Hf; (lapply Hf; [clear Hf; intros Hf|fine]); try done; exact (transitivity Hk Hf).
Qed.

Lemma drive_handshake_ok (s : UpstreamTurn (C:=C)) :
  match drive_handshake s with (Ret _, s') | (Fail _, s') => session_kept s s' | _ => False end.
Proof.
  destruct s as [d u]. unfold drive_handshake. destruct (us_connect u).
  - by split.
  - destruct (us_error u); [done|]. by apply handshake_rounds_ok.
Qed.

(** ** What is taken from the queue is accepted *)
Abbreviation Writing := (Writing (C:=C)).
Record wrote (s s' : Writing) : Prop := {
  wr_peer : us_peer s'.2 = us_peer s.2;
  wr_given : us_given s'.2 = us_given s.2;
  wr_bytes : us_accepted s'.2 ++ queue_bytes s'.1.2 = us_accepted s.2 ++ queue_bytes s.1.2;
  wr_budget : budget_le s'.1.1.1 s.1.1.1;
  wr_ok : queue_ok s.1.2 → queue_ok s'.1.2;
  wr_pooled : queue_pooled s.1.2 → queue_pooled s'.1.2;
}.
#[export] Instance wrote_preorder : PreOrder wrote.
Proof. split; [by intros s; split|]. intros s1 s2 s3 [] []. split; try congruence; [by etrans|auto..]. Qed.

Definition writes_ok {A} (m : stm Writing tls_error A) (s : Writing) : Prop :=
  match m s with (Ret _, s') | (Fail _, s') => wrote s s' | _ => False end.

Lemma in_turn_ok {A} (m : M A) s : fine m →
  match in_turn m s with (Ret _, s') => wrote s s' ∧ s'.1.2 = s.1.2 | (Fail _, s') => wrote s s' | _ => False end.
Proof.
  intros Hm. destruct s as [[[d p] q] u]. unfold in_turn, stm_zoom. specialize (Hm (d, u)).
  assert (Hkept : ∀ d' u', session_kept (d, u) (d', u') → wrote (d, p, q, u) (d', p, q, u')).
  { intros d' u' [(Ha & Hg & Hp) Hb]. split; simpl in *; try done. by rewrite Ha. }
  destruct (m (d, u)) as [[a|e| |] [d' u']]; try done; [destruct Hm as [Hm _]; split; [|done]|]; by apply Hkept.
Qed.

Lemma in_turn_writes {A} (m : M A) s : fine m → writes_ok (in_turn m) s.
Proof. intros Hm. pose proof (in_turn_ok m s Hm) as Hk. unfold writes_ok. destruct (in_turn m s) as [[a|e| |] s']; try done. apply Hk. Qed.

Lemma writes_bind {A B} (m : stm Writing tls_error A) (k : A → stm Writing tls_error B) s :
  writes_ok m s → (∀ a s', m s = (Ret a, s') → wrote s s' → writes_ok (k a) s') → writes_ok (m ≫= k) s.
Proof.
  unfold writes_ok, mbind, stm_bind. intros Hm Hk. destruct (m s) as [[a|e| |] s1] eqn:Hrun; try done.
  specialize (Hk a s1 eq_refl Hm). destruct (k a s1) as [[b|e| |] s2]; try done; by etrans.
Qed.

Lemma writes_ret {A} (a : A) s : writes_ok (mret a) s.
Proof. exact (reflexivity s). Qed.

(** One write: what the session accepts is then advanced over. *)
Lemma write_round d p q u bs (rest : bool → stm Writing tls_error unit) :
  queue_ok q → queue_pooled q → front_slice q = Some bs →
  (∀ b s', wrote (d, p, q, u) s' → steps (budget s'.1.1.1) < steps (budget d) → writes_ok (rest b) s') →
  writes_ok
    (written ← in_turn (drive_protocol_op (length bs) (write_step bs));
     match written with
     | ProtocolComplete (PlaintextAccepted n) =>
       in_turn (set_upstream (λ u, set_application_ciphertext_pending (c_wants_write (us_connection u)) u));;
       advanced ← advance_queue limits n;
       rest advanced
     | ProtocolComplete BlockedByPendingCiphertext | ProtocolBudget => mret tt
     end) (d, p, q, u).
Proof.
  intros Hok Hpool Hfront Hrest. unfold writes_ok. unfold mbind at 1, stm_bind at 1, in_turn at 1, stm_zoom at 1.
  destruct (drive_protocol_op _ _ _) as [o [d1 u1]] eqn:Hrun. pose proof (protocol_op_spec _ _ _ _ _ _ _ Hrun) as [Hle Hop].
  assert (Hsame : ∀ u1, same_session u u1 → wrote (d, p, q, u) (d1, p, q, u1)).
  { intros u' (Ha & Hg & Hp). split; simpl; try done. by rewrite Ha. }
  destruct Hop as [(-> & -> & _)|(chunk & Hpos & Hlen & _ & Hop)]; [by apply Hsame|].
  assert (Hsteps : ∀ v, o = Ret (ProtocolComplete v) → steps (budget d1) < steps (budget d)).
  { intros v ->. unfold drive_protocol_op in Hrun. destruct (protocol_chunk (length bs) d) as [[ch|] d2] eqn:Hchunk; [|done].
    apply chunk_steps in Hchunk. destruct (write_step bs ch u) as [[[n w|w]|e| |] u2]; try done; injection Hrun as _ <- _; [|done].
    destruct (0 <? n); [|done]. pose proof (spend_budget_le n d2) as (_ & Hs & _). simpl in *. lia. }
  unfold write_step in Hop. pose proof (c_write_returns (take chunk bs) (us_connection u)) as Hret.
  destruct (c_write_plaintext_some (take chunk bs) (us_connection u)) as [[[n|]|e| |] c] eqn:Hwrite; try done; destruct Hop as [-> ->]; [|by apply Hsame..].
  apply c_write_len in Hwrite. rewrite length_take in Hwrite. set (u1 := (_ <| us_accepted ::= _ |>)).
  specialize (Hsteps _ eq_refl). unfold mbind at 1, stm_bind at 1, in_turn at 1, stm_zoom at 1, set_upstream at 1, stm_modify at 1. cbv beta iota zeta.
  set (u2 := set_application_ciphertext_pending _ u1). pose proof (same_pending (c_wants_write (us_connection u1)) u1) as (Ha2 & Hg2 & Hp2). fold u2 in Ha2, Hg2, Hp2.
  unfold mbind, stm_bind, advance_queue. destruct (advance_front n q) as [[fl dropped] q'] eqn:Hadv.
  pose proof (advance_front_pooled _ _ _ _ _ Hpool Hadv) as [Hpool' Hdropped].
  assert (Hn : n ≤ length bs) by lia. pose proof (advance_front_ok _ _ _ _ _ _ Hok Hfront Hn Hadv) as [Hok' Hbytes].
  assert (Hwrote : ∀ p', wrote (d, p, q, u) (d1, p', q', u2)).
  { intros p'. split; simpl; try done.
    rewrite Ha2. unfold u1. simpl. by rewrite Hbytes, <-app_assoc. }
  assert (Hdone : ∀ p', writes_ok (rest fl) (d1, p', q', u2) → match rest fl (d1, p', q', u2) with
    (Ret _, s') | (Fail _, s') => wrote (d, p, q, u) s' | _ => False end).
  { intros p' Hr. unfold writes_ok in Hr. destruct (rest fl _) as [[a|e| |] s']; try done; exact (transitivity (Hwrote p') Hr). }
  destruct dropped as [b|]; [|by apply Hdone, Hrest].
  destruct (byte_recycle_pooled (E:=tls_error) limits b p Hdropped) as [p' ->]. by apply Hdone, Hrest.
Qed.

Lemma plaintext_loop_ok fuel s :
  queue_ok s.1.2 → queue_pooled s.1.2 → steps (budget s.1.1.1) ≤ fuel → writes_ok (plaintext_loop limits fuel) s.
Proof.
  revert s. induction fuel as [|fuel IH]; intros [[[d p] q] u] Hok Hpool Hfuel; cbn [plaintext_loop];
    unfold writes_ok; unfold mbind at 1, stm_bind at 1, front at 1; change (front_slice (d, p, q, u).1.2) with (front_slice q);
    (destruct (front_slice q) as [bs|] eqn:Hfront; [|apply (writes_ret tt)]).
  all: match goal with |- match ?m ?s with _ => _ end => change (writes_ok m s) end.
  all: apply writes_bind; [apply in_turn_writes, fine_flushed_first|].
  all: intros ready [[[d1 p1] q1] u1] Hrun Hw1; pose proof (in_turn_ok flushed_first (d, p, q, u) fine_flushed_first) as Hk;
    rewrite Hrun in Hk; destruct Hk as [_ Hq]; simpl in Hq; subst q1; (destruct ready; cbn [negb]; [|apply writes_ret]).
  all: assert (Hs1 : steps (budget d1) ≤ steps (budget d)) by apply (wr_budget _ _ Hw1); simpl in Hfuel.
  all: apply (write_round d1 p1 q u1 bs (λ b, if negb b then mret tt else _)); [done..|]; intros [] s' Hw Hlt; try apply writes_ret; simpl in *.
  - lia.
  - apply IH; [by apply (wr_ok _ _ Hw)|by apply (wr_pooled _ _ Hw)|lia].
Qed.

Lemma write_pending_ok s : queue_ok s.1.2 → queue_pooled s.1.2 → writes_ok (write_pending_plaintext limits) s.
Proof.
  intros Hok Hpool. destruct s as [[[d p] q] u]. simpl in *. unfold writes_ok, write_pending_plaintext. destruct (us_write_finished u).
  { destruct (negb _); [done|]. apply in_turn_writes, fine_flush_pending. }
  destruct (queue_is_empty q).
  { destruct (c_wants_write _); apply in_turn_writes; [apply fine_flush_pending|apply fine_set; intros; apply same_pending]. }
  match goal with |- match ?m ?s with _ => _ end => change (writes_ok m s) end.
  apply writes_bind; [by apply plaintext_loop_ok|]. intros [] s1 _ _. apply writes_bind; [done|]. intros s2 s3 _ _.
  apply in_turn_writes. fine.
Qed.
End kept.

(** ** The interface of the relay *)
Section implements.
Context {C : Type} `{ClientTlsLaws C} (limits : NetworkLimits).

Definition upstream_tls : Upstream (TlsUpstream C) := {|
  up_accepted := us_accepted; up_given := us_given; up_peer := us_peer; up_write_finished := us_write_finished; up_io := us_io;
  up_wants_write u := c_wants_write (us_connection u); up_has_reactor_write_work := us_has_reactor_write_work;
  up_mark_reactor_ready := us_mark_reactor_ready; up_mark_connect_ready := mark_connect_ready;
  up_write_pending_plaintext := write_pending_plaintext limits; up_finish_write := finish_write;
  up_read_plaintext n q := recorded (us_read_plaintext n q); up_park_read := park_read;
|}.

Lemma fine_session {A} (m : stm (UpstreamTurn (C:=C)) tls_error A) s o s' : fine m → m s = (o, s') → returns o ∧ session_kept s s'.
Proof. intros Hm Hrun. specialize (Hm s). rewrite Hrun in Hm. destruct o; try done. by destruct Hm. Qed.

Lemma upstream_tls_laws : @UpstreamLaws (TlsUpstream C) upstream_tls.
Proof.
  assert (Hcall : ∀ A (m : stm (UpstreamTurn (C:=C)) tls_error A) s o s', fine m → m s = (o, s') → same_session s.2 s'.2 ∧ budget_le s'.1 s.1).
  { intros A m s o s' Hm Hrun. by eapply fine_session in Hrun as [_ ?]. }
  assert (Hreturns : ∀ A (m : stm (UpstreamTurn (C:=C)) tls_error A) s, fine m → returns (fst (m s))).
  { intros A m s Hm. destruct (m s) as [o s'] eqn:Hrun. by eapply fine_session in Hrun as [? _]. }
  split; cbn [up_write_pending_plaintext up_finish_write up_read_plaintext up_park_read up_accepted up_given up_peer upstream_tls].
  - intros d p q u Hok Hpool. pose proof (write_pending_ok limits (d, p, q, u) Hok Hpool) as Hw. unfold writes_ok in Hw.
    by destruct (write_pending_plaintext limits (d, p, q, u)) as [[a|e| |] s'].
  - intros d p q u o d' p' q' u' Hok Hpool Hrun. pose proof (write_pending_ok limits (d, p, q, u) Hok Hpool) as Hw. unfold writes_ok in Hw.
    rewrite Hrun in Hw. destruct o as [a|e| |]; try done; destruct Hw as [Hp Hg Hb Hle Ho Hq]; cbn [fst snd] in *; (split; [done|]; split; [done|]; split; [by apply Hq|]).
    + split; [done|]. split; [by apply Ho|done].
    + rewrite <-Hb. by apply prefix_app_r.
  - intros d u. apply Hreturns, fine_finish.
  - intros d u o d' u' Hrun. exact (Hcall _ _ _ _ _ fine_finish Hrun).
  - intros n q d u. pose proof (recorded_ok _ (d, u) (fine_read_plaintext n q)) as Hr.
    destruct (recorded _ _) as [o s']. by destruct Hr as [Hr _].
  - intros n q d u o d' u' Hrun. pose proof (recorded_ok _ (d, u) (fine_read_plaintext n q)) as Hr. rewrite Hrun in Hr. apply Hr.
  - intros q u. unfold park_read, mbind, stm_bind, stm_get. pose proof (reregister_same (if transport_wants_write u || q then Writable else Disabled) u) as Hr.
    by destruct (reregister_interest _ u) as [[a|e| |] u'].
  - intros q u o u' Hrun. unfold park_read, mbind, stm_bind, stm_get in Hrun.
    pose proof (reregister_same (if transport_wants_write u || q then Writable else Disabled) u) as Hr. rewrite Hrun in Hr. by destruct o.
  - done.
  - done.
Qed.

(** The sessions of a connection: the guest's is accepted by the crypto library, the server's is this one. *)
Context {G : Type} `{GuestTls G} `{!TlsCrypto}.
Definition upstream_sessions (accept : TlsServerConfig → outcome tls_error G) : TlsSessions G (TlsUpstream C) := {|
  accept_session := accept; up_handshake := drive_handshake;
|}.

Lemma upstream_sessions_laws accept :
  (∀ host until ca, returns (server_config_for_host host until ca)) → (∀ config, returns (accept config)) →
  (∀ config g, accept config = Ret g → plaintext_given g = []) →
  @TlsSessionsLaws G (TlsUpstream C) _ (upstream_sessions accept) upstream_tls _.
Proof.
  intros Hissue Haccept Hfresh. split; cbn [accept_session up_handshake upstream_sessions]; [done..| |].
  - intros d u. pose proof (drive_handshake_ok (d, u)) as Hd. by destruct (drive_handshake (d, u)) as [[a|e| |] s'].
  - intros d u o d' u' Hrun. pose proof (drive_handshake_ok (d, u)) as Hd. rewrite Hrun in Hd. destruct o; try done; apply Hd.
Qed.

(** The network of a turn: what its connector, the crypto library and the reactor answer *)
Record Network := {
  nw_wall : Z;
  nw_socket : SocketAddr → outcome tls_error Stream;
  nw_session : TlsClientConfig → str → outcome tls_error C;
  nw_registered : outcome tls_error unit;
  nw_reactor : list (option tls_error);
  nw_error : option tls_error;
}.
Record network_ok (n : Network) : Prop := {
  no_socket dst : returns (nw_socket n dst);
  no_session config name : returns (nw_session n config name);
  no_registered : returns (nw_registered n);
}.
Definition network_runtime (n : Network) : Runtime := {|
  wall := nw_wall n;
  connect dst name config :=
    upstream_connect (nw_socket n dst) (nw_session n config name) (nw_registered n) (nw_reactor n) (nw_error n) dst name;
|}.

Lemma network_runtime_ok n : network_ok n → @runtime_ok (TlsUpstream C) upstream_tls _ (network_runtime n).
Proof.
  intros [Hs Hc Hr]. split.
  - intros dst name config u. simpl. unfold upstream_connect. destruct (nw_socket n dst); [|done..]. cbn [mbind outcome_bind].
    destruct (nw_session n config name); [|done..]. cbn [mbind outcome_bind]. destruct (nw_registered n); [|done..].
    by intros [= <-].
  - intros dst name config. simpl. specialize (Hs dst). specialize (Hc config name). unfold upstream_connect.
    destruct (nw_socket n dst); try done. cbn [mbind outcome_bind]. destruct (nw_session n config name); try done. cbn [mbind outcome_bind].
    by destruct (nw_registered n).
Qed.
End implements.
Arguments Network : clear implicits.
