(* ===== verification/CryptoSession.v ===== *)
(** * TLS sessions over rustls
      (src/libs/agentdp-crypto/src/tls.rs)

    The two sessions of the program wrap a connection of rustls, which is an
    interface here: what it offers to be written, what it makes of what it is
    given, its plaintext.  The wrappers bound every call and tell a peer that
    would block from one that has closed; [GuestTls] and [ClientTls], the
    interfaces of the proxy, are implemented by them. *)
From S2P Require Import Prelude Fields Text Policy Gateway Io Limits Buffers Drive TlsSession TlsUpstream.
Local Open Scope nat_scope.

(** [io::Error] of a connection or a stream *)
Inductive session_error := SessionWouldBlock | SessionFailed (e : tls_error).

(** ** A connection of rustls

    [read_tls] and [write_tls] make one call of their reader or writer. *)
Class Rustls (C : Type) := {
  r_is_handshaking : C → bool;
  r_wants_write : C → bool;
  r_send_close_notify : C → C;
  (** [read_tls]: how much there is room for, or the error when there is none; and what was read *)
  r_room : C → outcome session_error nat;
  r_received : bytes → C → C;
  (** whether the peer has closed *)
  r_process_new_packets : stm C session_error bool;
  (** [write_tls]: what is offered to the writer; and how much it took *)
  r_offered : C → bytes;
  r_taken : nat → C → C;
  r_reader_read : nat → stm C session_error bytes;
  r_writer_write : bytes → stm C session_error nat;
}.
Class RustlsLaws (C : Type) `{Rustls C} := {
  r_room_returns c : returns (r_room c);
  r_process_returns c : returns (fst (r_process_new_packets c));
  r_read_returns n c : returns (fst (r_reader_read n c));
  r_read_len n c bs c' : r_reader_read n c = (Ret bs, c') → length bs ≤ n;
  r_read_bytes n c bs c' : r_reader_read n c = (Ret bs, c') → are_bytes bs;
  r_write_returns bs c : returns (fst (r_writer_write bs c));
  r_write_len bs c n c' : r_writer_write bs c = (Ret n, c') → n ≤ length bs;
}.

Section session.
Context {C : Type} `{Rustls C}.

(** [TlsClientSession] and [TlsServerSession].  [given] is not in the code: the plaintext that was read. *)
Record TlsSession := { inner : C; peer_has_closed : bool; given : bytes }.
#[export] Instance TlsSession_eta : Eta TlsSession := λ s,
  {| inner := inner s; peer_has_closed := peer_has_closed s; given := given s |}.

Definition session_new (c : C) : TlsSession := {| inner := c; peer_has_closed := false; given := [] |}.
Definition queue_close_notify_ (s : TlsSession) : TlsSession := s <| inner ::= r_send_close_notify |>.

(** ** Reading ciphertext: [read] is the reader, cut to the limit *)
Definition read_tls {S} (read : nat → stm S session_error bytes) : stm (TlsSession * S) session_error bytes := λ '(t, s),
  match r_room (inner t) with
  | Ret room =>
    match read room s with
    | (Ret bs, s) => (Ret bs, (t <| inner ::= r_received bs |>, s))
    | (Fail e, s) => (Fail e, (t, s)) | (Panic, s) => (Panic, (t, s)) | (Timeout, s) => (Timeout, (t, s))
    end
  | Fail e => (Fail e, (t, s)) | Panic => (Panic, (t, s)) | Timeout => (Timeout, (t, s))
  end.

(** [process_new_packets], whose errors are [io::Error::other] *)
Definition process_packets : stm TlsSession tls_error unit := λ t,
  match r_process_new_packets (inner t) with
  | (Ret closed, c) => (Ret tt, t <| inner := c |> <| peer_has_closed := peer_has_closed t || closed |>)
  | (Fail (SessionFailed (TlsError e)), c) => (Fail (TlsError e), t <| inner := c |>)
  | (Fail _, c) => (Fail (TlsError 0), t <| inner := c |>)
  | (Panic, c) => (Panic, t <| inner := c |>) | (Timeout, c) => (Timeout, t <| inner := c |>)
  end.

Definition read_and_process {S} (read : nat → stm S session_error bytes) : stm (TlsSession * S) tls_error TlsCiphertextRead := λ s,
  match read_tls read s with
  | (Ret [], s) => (Ret CiphertextClosed, s)
  | (Ret bs, (t, s)) =>
    match process_packets t with
    | (Ret _, t) => (Ret (CiphertextRead (length bs)), (t, s))
    | (Fail e, t) => (Fail e, (t, s)) | (Panic, t) => (Panic, (t, s)) | (Timeout, t) => (Timeout, (t, s))
    end
  | (Fail SessionWouldBlock, s) => (Ret CiphertextBlocked, s)
  | (Fail (SessionFailed e), s) => (Fail e, s)
  | (Panic, s) => (Panic, s) | (Timeout, s) => (Timeout, s)
  end.

(** [std::io::ErrorKind] of an error of the operating system: the numbers are those of Linux. *)
Definition error_kind (e : io_error) : session_error :=
  match e with
  | WouldBlock => SessionWouldBlock
  | WriteZero => SessionFailed (TlsError 0)
  | OsError 32 => SessionFailed BrokenPipe
  | OsError 104 | OsError 107 => SessionFailed ClosedByPeer
  | OsError code => SessionFailed (TlsError code)
  end%Z.
Definition on_stream {A} (call : Stream → outcome io_error A * Stream) : stm Stream session_error A := λ s,
  match call s with
  | (Ret a, s) => (Ret a, s) | (Fail e, s) => (Fail (error_kind e), s) | (Panic, s) => (Panic, s) | (Timeout, s) => (Timeout, s)
  end.

(** [read_ciphertext_bounded] *)
Definition read_ciphertext_bounded (limit : nat) : stm (TlsSession * Stream) tls_error TlsCiphertextRead :=
  if limit =? 0 then mret CiphertextBlocked
  else read_and_process (λ room, on_stream (stream_read (limit `min` room))).

(** [accept_ciphertext_bounded]: the reader is the slice *)
Definition accept_ciphertext (bs : bytes) : stm TlsSession tls_error TlsCiphertextRead := λ t,
  match bs with
  | [] => (Ret CiphertextBlocked, t)
  | _ => let (o, ts) := read_and_process (λ room rest, (Ret (take room rest), drop room rest)) (t, bs) in (o, fst ts)
  end.

(** ** Writing ciphertext *)

(** [BoundedWrite::write], with what remains of the limit *)
Definition bounded_write {S} (write : bytes → stm S session_error nat) (bs : bytes) : stm (nat * S) session_error nat := λ '(remaining, s),
  if remaining =? 0 then (Ret 0, (remaining, s))
  else match write (take (length bs `min` remaining) bs) s with
       | (Ret n, s) => (Ret n, (remaining - n, s))
       | (Fail e, s) => (Fail e, (remaining, s)) | (Panic, s) => (Panic, (remaining, s)) | (Timeout, s) => (Timeout, (remaining, s))
       end.

(** [write_tls] *)
Definition write_tls {S} (write : bytes → stm S session_error nat) : stm (TlsSession * S) session_error nat := λ '(t, s),
  match write (r_offered (inner t)) s with
  | (Ret n, s) => (Ret n, (t <| inner ::= r_taken n |>, s))
  | (Fail e, s) => (Fail e, (t, s)) | (Panic, s) => (Panic, (t, s)) | (Timeout, s) => (Timeout, (t, s))
  end.

Definition drained (bs : bytes) : TlsCiphertextDrain := match bs with [] => DrainBlocked | _ => DrainProgress bs end.

(** The loop of [drain_ciphertext_to], with the bytes it has drained: a round that is followed by another
    takes some of the limit. *)
Fixpoint drain_loop {S} (write : bytes → stm S session_error nat) (fuel : nat) (done : bytes)
    : stm (TlsSession * (nat * S)) tls_error TlsCiphertextDrain := λ ts,
  if r_wants_write (inner (fst ts)) then
    let offered := r_offered (inner (fst ts)) in
    match write_tls (bounded_write write) ts with
    | (Ret 0, ts) => (Ret (drained done), ts)
    | (Ret n, ts) => match fuel with O => (Timeout, ts) | S fuel => drain_loop write fuel (done ++ take n offered) ts end
    | (Fail SessionWouldBlock, ts) => (Ret (drained done), ts)
    | (Fail (SessionFailed e), ts) => (Fail e, ts)
    | (Panic, ts) => (Panic, ts) | (Timeout, ts) => (Timeout, ts)
    end
  else (Ret (DrainProgress done), ts).

Definition drain_ciphertext_to {S} (write : bytes → stm S session_error nat) (limit : nat) : stm (TlsSession * S) tls_error TlsCiphertextDrain := λ '(t, s),
  if negb (r_wants_write (inner t)) then (Ret DrainEmpty, (t, s))
  else if limit =? 0 then (Ret DrainBlocked, (t, s))
  else let '(o, (t, (_, s))) := drain_loop write limit [] (t, (limit, s)) in (o, (t, s)).

(** ** Plaintext *)
Definition write_plaintext (bs : bytes) : stm TlsSession tls_error TlsPlaintextWrite := λ t,
  if r_wants_write (inner t) then (Ret BlockedByPendingCiphertext, t)
  else
    let (o, c) := r_writer_write bs (inner t) in
    let t := t <| inner := c |> in
    match o with
    | Ret n => if (n =? 0) && negb (length bs =? 0) then (Fail (TlsError 0), t) else (Ret (PlaintextAccepted n), t)
    | Fail SessionWouldBlock => (Ret BlockedByPendingCiphertext, t)
    | Fail (SessionFailed e) => (Fail e, t)
    | Panic => (Panic, t) | Timeout => (Timeout, t)
    end.

Definition read_plaintext (len : nat) : stm TlsSession tls_error TlsPlaintextRead := λ t,
  if len =? 0 then (Ret PlaintextBlocked, t)
  else
    let (o, c) := r_reader_read len (inner t) in
    let t := t <| inner := c |> in
    match o with
    | Ret [] => (Ret PlaintextClosed, t)
    | Ret bs => (Ret (PlaintextRead bs), t <| given ::= λ g, g ++ bs |>)
    | Fail SessionWouldBlock => (Ret PlaintextBlocked, t)
    | Fail (SessionFailed e) => (Fail e, t)
    | Panic => (Panic, t) | Timeout => (Timeout, t)
    end.

(** ** The interfaces of the proxy *)

(** The guest's ciphertext is drained into a vector, which takes what it is given. *)
#[export] Instance guest_session : GuestTls TlsSession := {
  plaintext_given := given;
  is_handshaking t := r_is_handshaking (inner t); wants_write t := r_wants_write (inner t);
  accept_ciphertext_bounded := accept_ciphertext;
  drain_ciphertext limit t :=
    let '(o, (t, _)) := drain_ciphertext_to (λ bs (u : unit), (Ret (length bs), u)) limit (t, tt) in (o, t);
  read_plaintext_some := read_plaintext; write_plaintext_some := write_plaintext; queue_close_notify := queue_close_notify_;
}.
#[export] Instance client_session : ClientTls TlsSession := {
  c_is_handshaking t := r_is_handshaking (inner t); c_wants_write t := r_wants_write (inner t);
  c_read_ciphertext_bounded := read_ciphertext_bounded;
  c_drain_ciphertext_to := drain_ciphertext_to (λ bs, on_stream (stream_write bs));
  c_read_plaintext_some := read_plaintext; c_write_plaintext_some := write_plaintext; c_queue_close_notify := queue_close_notify_;
}.
End session.
Arguments TlsSession : clear implicits.

(** ** Their laws *)
Section laws.
Context {C : Type} `{RustlsLaws C}.

Lemma read_and_process_returns {S} (read : nat → stm S session_error bytes) s :
  (∀ n s, returns (fst (read n s))) → returns (fst (read_and_process (C:=C) read s)).
Proof.
  intros Hread. destruct s as [t s]. unfold read_and_process, read_tls. pose proof (r_room_returns (inner t)) as Hroom.
  destruct (r_room (inner t)) as [room|[]| |]; try done. specialize (Hread room s).
  destruct (read room s) as [[[|b bs]|[]| |] s']; try done. cbv beta iota. set (t' := t <| inner ::= _ |>).
  unfold process_packets. pose proof (r_process_returns (inner t')) as Hp.
  by destruct (r_process_new_packets (inner t')) as [[closed|[|[]]| |] c].
Qed.

Lemma accept_ciphertext_len bs t n t' : accept_ciphertext (C:=C) bs t = (Ret (CiphertextRead n), t') → 0 < n ∧ n ≤ length bs.
Proof.
  unfold accept_ciphertext. destruct bs as [|b bs]; [done|]. unfold read_and_process, read_tls.
  destruct (r_room (inner t)) as [room|[]| |]; try done. destruct (take room (b :: bs)) as [|x xs] eqn:Ht; [done|]. cbv beta iota.
  destruct (process_packets _) as [[[]|e| |] t1]; try done. intros [= <- _]. apply (f_equal length) in Ht.
  rewrite length_take in Ht. change (length (x :: xs)) with (S (length xs)) in *. lia.
Qed.

(** A drain ends: what it takes of the limit, it never gives back. *)
Lemma drain_loop_returns {S} (write : bytes → stm S session_error nat) fuel acc t remaining s :
  (∀ bs s, match write bs s with (Ret n, _) => n ≤ length bs | (Fail _, _) => True | _ => False end) → remaining ≤ fuel →
  returns (fst (drain_loop (C:=C) write fuel acc (t, (remaining, s)))).
Proof.
  intros Hwrite. revert acc t remaining s.
  induction fuel as [|fuel IH]; intros acc t remaining s Hfuel; cbn [drain_loop fst];
    (destruct (r_wants_write (inner t)); [|done]); unfold write_tls, bounded_write.
  { replace remaining with 0 by lia. by destruct acc. }
  destruct (Nat.eqb_spec remaining 0) as [->|Hr]; [by destruct acc|].
  set (chunk := take _ _). pose proof (Hwrite chunk s) as Hw.
  destruct (write chunk s) as [[[|n]|[]| |] s']; try done.
  assert (Datatypes.S n ≤ remaining). { unfold chunk in Hw. rewrite length_take in Hw. lia. }
  cbv beta iota. apply IH. lia.
Qed.

Lemma drain_returns_ {S} (write : bytes → stm S session_error nat) limit ts :
  (∀ bs s, match write bs s with (Ret n, _) => n ≤ length bs | (Fail _, _) => True | _ => False end) →
  returns (fst (drain_ciphertext_to (C:=C) write limit ts)).
Proof.
  intros Hwrite. destruct ts as [t s]. unfold drain_ciphertext_to. destruct (negb _); [done|]. destruct (limit =? 0); [done|].
  pose proof (drain_loop_returns write limit [] t limit s Hwrite ltac:(lia)) as Hr.
  by destruct (drain_loop write limit [] (t, (limit, s))) as [o [t' [r s']]].
Qed.

Lemma read_plaintext_spec len t :
  match read_plaintext (C:=C) len t with
  | (Ret (PlaintextRead bs), _) => 0 < length bs ∧ length bs ≤ len ∧ are_bytes bs
  | (Ret _, _) | (Fail _, _) => True
  | _ => False
  end.
Proof.
  unfold read_plaintext. destruct (len =? 0); [done|]. pose proof (r_read_returns len (inner t)) as Hr.
  destruct (r_reader_read len (inner t)) as [[[|b bs]|[]| |] c] eqn:Hread; try done.
  split; [simpl; lia|]. split; [by eapply r_read_len|by eapply r_read_bytes].
Qed.

Lemma write_plaintext_spec bs t :
  match write_plaintext (C:=C) bs t with
  | (Ret (PlaintextAccepted n), _) => n ≤ length bs
  | (Ret _, _) | (Fail _, _) => True
  | _ => False
  end.
Proof.
  unfold write_plaintext. destruct (r_wants_write (inner t)); [done|]. pose proof (r_write_returns bs (inner t)) as Hr.
  destruct (r_writer_write bs (inner t)) as [[n|[]| |] c] eqn:Hwrite; try done. destruct (_ && _); [done|]. by eapply r_write_len.
Qed.

(** Only reading plaintext gives any. *)
Lemma process_given (t : TlsSession C) : given (process_packets t).2 = given t.
Proof. unfold process_packets. by destruct (r_process_new_packets (inner t)) as [[closed|[|[]]| |] c]. Qed.

Lemma read_and_process_given {S} (read : nat → stm S session_error bytes) s :
  given (read_and_process (C:=C) read s).2.1 = given s.1.
Proof.
  destruct s as [t s]. unfold read_and_process, read_tls. destruct (r_room (inner t)) as [room|[]| |]; try done.
  destruct (read room s) as [[[|b bs]|[]| |] s']; try done. cbv beta iota. set (t' := t <| inner ::= _ |>).
  pose proof (process_given t') as Hg. by destruct (process_packets t') as [[[]|e| |] t1].
Qed.

Lemma drain_loop_given {S} (write : bytes → stm S session_error nat) fuel acc ts :
  given (drain_loop (C:=C) write fuel acc ts).2.1 = given ts.1.
Proof.
  revert acc ts. induction fuel as [|fuel IH]; intros acc ts; cbn [drain_loop]; (destruct (r_wants_write _); [|done]);
    (assert (Hw : given (write_tls (bounded_write write) ts).2.1 = given ts.1)
      by (destruct ts as [t s]; unfold write_tls; by destruct (bounded_write _ _ _) as [[]?]));
    destruct (write_tls _ ts) as [[[|n]|[]| |] ts']; try done.
  by rewrite IH.
Qed.

Lemma drain_given_ {S} (write : bytes → stm S session_error nat) limit ts :
  given (drain_ciphertext_to (C:=C) write limit ts).2.1 = given ts.1.
Proof.
  destruct ts as [t s]. unfold drain_ciphertext_to. destruct (negb _); [done|]. destruct (limit =? 0); [done|].
  pose proof (drain_loop_given write limit [] (t, (limit, s))) as Hg. by destruct (drain_loop write limit [] _) as [o [t' [r s']]].
Qed.

Lemma read_plaintext_given len (t : TlsSession C) : given (read_plaintext len t).2 = given t ++ read_out (read_plaintext len t).1.
Proof.
  unfold read_plaintext. destruct (len =? 0); [by rewrite app_nil_r|].
  by destruct (r_reader_read len (inner t)) as [[[|b bs]|[]| |] c]; simpl; rewrite ?app_nil_r.
Qed.

#[export] Instance guest_session_laws : GuestTlsLaws (TlsSession C).
Proof.
  split.
  - intros bs t. simpl. unfold accept_ciphertext. destruct bs as [|b bs]; [done|].
    pose proof (read_and_process_returns (λ room (rest : bytes), (Ret (take room rest), drop room rest)) (t, b :: bs) ltac:(done)) as Hr.
    by destruct (read_and_process _ (t, b :: bs)) as [o [t' rest]].
  - intros bs t n t' _. apply accept_ciphertext_len.
  - intros n t. cbn [drain_ciphertext guest_session]. pose proof (drain_returns_ (λ bs (u : unit), (Ret (length bs), u)) n (t, tt) ltac:(intros; simpl; lia)) as Hr.
    destruct (drain_ciphertext_to (λ bs (u : unit), (Ret (length bs), u)) n (t, tt)) as [o [t' u]]. exact Hr.
  - intros n t. simpl. pose proof (read_plaintext_spec n t) as Hr. by destruct (read_plaintext n t) as [[v|e| |] t'].
  - intros n t bs t' Hrun. simpl in Hrun. pose proof (read_plaintext_spec n t) as Hr. rewrite Hrun in Hr. by destruct Hr as (? & ? & _).
  - intros n t bs t' Hrun. simpl in Hrun. pose proof (read_plaintext_spec n t) as Hr. rewrite Hrun in Hr. by destruct Hr as (_ & _ & ?).
  - intros bs t. simpl. pose proof (write_plaintext_spec bs t) as Hr. by destruct (write_plaintext bs t) as [[v|e| |] t'].
  - intros bs t n t' Hrun. simpl in Hrun. pose proof (write_plaintext_spec bs t) as Hr. by rewrite Hrun in Hr.
  - intros bs t. cbn [accept_ciphertext_bounded guest_session plaintext_given]. unfold accept_ciphertext. destruct bs as [|b bs]; [done|].
    pose proof (read_and_process_given (λ room (rest : bytes), (Ret (take room rest), drop room rest)) (t, b :: bs)) as Hg.
    by destruct (read_and_process _ (t, b :: bs)) as [o [t' rest]].
  - intros n t. cbn [drain_ciphertext guest_session plaintext_given].
    pose proof (drain_given_ (λ bs (u : unit), (Ret (length bs), u)) n (t, tt)) as Hg.
    by destruct (drain_ciphertext_to (λ bs (u : unit), (Ret (length bs), u)) n (t, tt)) as [o [t' u]].
  - intros n t. apply read_plaintext_given.
  - intros bs t. simpl. unfold write_plaintext. destruct (r_wants_write _); [done|].
    destruct (r_writer_write bs (inner t)) as [[n|[]| |] c]; try done. by destruct (_ && _).
  - done.
Qed.

#[export] Instance client_session_laws : ClientTlsLaws (TlsSession C).
Proof.
  split.
  - intros n s. cbn [c_read_ciphertext_bounded client_session]. unfold read_ciphertext_bounded. destruct (n =? 0); [by destruct s|]. apply read_and_process_returns.
    intros room st. unfold on_stream, stream_read. destruct (reads st) as [|[bs|e] rest]; [done| |done]. by destruct (length bs <=? n `min` room).
  - intros n s. cbn [c_drain_ciphertext_to client_session]. apply drain_returns_. intros bs st. unfold on_stream. destruct (stream_write bs st) as [o st'] eqn:Hw.
    apply stream_write_spec in Hw as [_ Hw]. destruct o; try done. apply Hw.
  - intros n t. simpl. pose proof (read_plaintext_spec n t) as Hr. by destruct (read_plaintext n t) as [[v|e| |] t'].
  - intros bs t. simpl. pose proof (write_plaintext_spec bs t) as Hr. by destruct (write_plaintext bs t) as [[v|e| |] t'].
  - intros bs t n t' Hrun. simpl in Hrun. pose proof (write_plaintext_spec bs t) as Hr. by rewrite Hrun in Hr.
Qed.
End laws.
