(* ===== verification/TlsEndToEnd.v ===== *)
(** * What servers and tunnels of intercepted connections get

    A connection over its whole history: bytes of the guest, closes, readiness of
    the server's socket and turns in any order. *)
From S2P Require Import Prelude SecretFlow Fields Text Policy Dns Attribution Gateway Io Raw HttpHead Http1 HttpStream HttpSecrecy HttpTotal IoSlot Limits Buffers Drive DriveCorrect TlsHello TlsRoute TlsSession TlsRelay TlsRelayLaws TlsRelaySteps TlsRelayCorrect TlsProxy TlsProxyCorrect TlsUpstream CryptoSession.
Local Open Scope nat_scope.

(** A name that is normalized already is kept. *)
Lemma authority_normalized h : authority_new (authority_str (authority_new h)) = authority_new h.
Proof.
  unfold authority_new at 2. cbn [authority_str]. unfold normalized_host. etrans; [apply authority_lower|].
  unfold authority_new, normalized_host, trim_end_matches. rewrite reverse_involutive. do 3 f_equal.
  induction (reverse h) as [|c l IH]; [done|]. cbn [trim_start_char]. destruct (c =? 46)%Z eqn:Hc; [done|]. cbn [trim_start_char]. by rewrite Hc.
Qed.

Section history.
Context {G U : Type} `{GuestTlsLaws G} `{UpstreamLaws U} `{!TlsCrypto} `{!TlsSessions G U} `{!TlsSessionsLaws G U}.
Context (limits : NetworkLimits) (grown : nat → nat → nat) (Hrelay : 0 < tls_relay_buffer_capacity limits).
Abbreviation TlsTcpProxy := (@TlsTcpProxy G U _).

(** A connection with the bytes the guest has sent on it *)
Inductive proxy_step : bytes * TlsTcpProxy → bytes * TlsTcpProxy → Prop :=
| step_write received p b d p' :
    pooled b → proxy_write b p = (d, p') → proxy_step (received, p) (received ++ as_slice b, p')
| step_finish received p : proxy_step (received, p) (received, finish_guest_write p)
| step_close received p : proxy_step (received, p) (received, proxy_close p)
| step_ready received p readable writable : proxy_step (received, p) (received, proxy_mark_reactor_ready readable writable p)
| step_turn received p rt permit d pool poll c :
    runtime_ok rt → pool_clean pool →
    tls_proxy_drive limits grown rt permit {| c_turn := d; c_pool := pool; c_proxy := p |} = (Ret poll, c) → goes_on poll = true →
    proxy_step (received, p) (received, c_proxy c).

Context (tls : TlsInterceptConfig) (now wall_ : Z) (pol : NetworkPolicy) (policy : TlsEgressPolicy).

Lemma intercepted_mono received more i : intercepted tls now wall_ pol received i → intercepted tls now wall_ pol (received ++ more) i.
Proof.
  intros (host & later & (hello & Hp & Hsni) & Hr). exists host, later. split; [|done]. exists hello. split; [by apply prefix_app_r|done].
Qed.

Lemma serves_mono received more i (g : G) (u : U) f out :
  serves tls now wall_ pol policy received i g u f out → serves tls now wall_ pol policy (received ++ more) i g u f out.
Proof. intros (Hi & Hrest). split; [by apply intercepted_mono|done]. Qed.

Lemma write_inv received (p : TlsTcpProxy) b d p' :
  pooled b → proxy_write b p = (d, p') → proxy_inv tls now wall_ pol policy received p →
  proxy_inv tls now wall_ pol policy (received ++ as_slice b) p'.
Proof.
  intros Hb. unfold proxy_write. destruct (queue_push b (tp_pending p)) as [d' q] eqn:Hpush. intros [= <- <-] [Hq Hst].
  apply queue_inv_push in Hpush as (Hq' & Hbytes & _); [|done|done]. split; [done|]. simpl.
  destruct (tp_state p) as [pol'|pol' initial|pol' i g out|cs|r|]; simpl in *; try done.
  - destruct Hst as [-> <-]. by rewrite Hbytes.
  - destruct Hst as (-> & Hin & <-). by rewrite Hbytes, app_assoc.
  - destruct Hst as (-> & Hout & Hi & Hg). split_and!; try done. by apply intercepted_mono.
  - destruct Hst as [Hout [i Hs]]. split; [done|]. exists i. by apply serves_mono.
  - destruct Hst as [Hout [i Hs]]. split; [done|]. exists i. by apply serves_mono.
Qed.

Lemma server_ready_same (u : U) readable writable : same_upstream u (server_ready readable writable u).
Proof.
  unfold server_ready. pose proof (up_ready_exact readable writable u) as (Ha & Hg & Hp). destruct (readable || writable); [|done].
  pose proof (up_connect_exact (up_mark_reactor_ready readable writable u)) as (Ha' & Hg' & Hp'). split_and!; congruence.
Qed.

Lemma ready_inv received (p : TlsTcpProxy) readable writable :
  proxy_inv tls now wall_ pol policy received p → proxy_inv tls now wall_ pol policy received (proxy_mark_reactor_ready readable writable p).
Proof.
  intros [Hq Hst]. unfold proxy_mark_reactor_ready. destruct (tp_state p) as [pol'|pol' initial|pol' i g out|cs|r|] eqn:Hp;
    try (by split; [|rewrite Hp]).
  - destruct Hst as [Hout [i Hs]]. split; [done|]. split; [done|]. exists i. eapply same_serves; [done|apply server_ready_same|exact Hs].
  - destruct Hst as [Hout [i Hs]]. split; [done|]. split; [done|]. exists i. eapply same_serves; [done|apply server_ready_same|exact Hs].
Qed.

Lemma proxy_reachable dst (w : bytes * TlsTcpProxy) :
  policy_ok tls now wall_ pol policy → rtc proxy_step ([], tls_tcp_proxy_new dst policy) w →
  proxy_inv tls now wall_ pol policy w.1 w.2.
Proof.
  intros Hpolicy. apply (rtc_ind_r (λ w, proxy_inv tls now wall_ pol policy w.1 w.2)).
  { split; [split; [apply queue_new_ok|by constructor]|]. done. }
  intros w1 w2 _ Hstep Hinv. destruct Hstep as [received p b d p' Hb Hw|received p|received p|received p readable writable|received p rt permit d pool poll c Hrt Hpool Hrun Hgo];
    simpl in *; [by eapply write_inv|done|done|by apply ready_inv|].
  pose proof (tls_proxy_drive_ok limits grown Hrelay tls now wall_ pol policy Hpolicy received rt permit p Hrt Hinv
    {| c_turn := d; c_pool := pool; c_proxy := p |} eq_refl Hpool) as Hok.
  unfold wp in Hok. rewrite Hrun in Hok. destruct Hok as (_ & Hok & _). by rewrite Hgo in Hok.
Qed.

(** The server is one the guest asked for and may reach.  What it was given, with what waits for it, is what
    a filter of its name puts out when it is called with the plaintext of the guest and of the server,
    and the same whatever the values of the secrets that the name may not receive. *)
Definition server_scoped (received : bytes) (dst : SocketAddr) (goes : bool) (g : G) (u : U) (out : OutputState) : Prop :=
  ∃ host, asked received host ∧ allowed_by (egress pol) (name_of host) ∧ up_peer u = (dst, authority_str (name_of host)) ∧
    ∃ es, accounted goes g u es ∧ ∀ secrets', same_for (name_of host) (secrets pol) secrets' →
      let put_out := mjoin ((filter_trace es (http1_filter_new secrets' (authority_str (name_of host)))).*2) in
      if goes then up_accepted u ++ waiting out = put_out else up_accepted u `prefix_of` put_out.

Lemma learned_scoped received goes g u out :
  learned tls now wall_ pol policy received goes g u out → server_scoped received (tls_dst policy) goes g u out.
Proof.
  intros (i & es & _ & (host & later & Hasked & Hallow & _ & Ha & _) & Hpeer & Hacc & Hp). exists host. unfold name_of in *.
  rewrite Ha in Hpeer, Hp. split_and!; try done. exists es. split; [done|]. intros ss' Hsame.
  erewrite filter_trace_same; [by rewrite <-run_filter_trace|]. by rewrite authority_normalized.
Qed.
End history.

(** The calls of a filter come back. *)
Lemma run_filter_returns host ss es f : wf_secrets ss → room ss → total_inv host ss f → Forall byte_event es → ¬ hung (run_filter es f).2.
Proof.
  intros Hwf Hroom Hf Hes. revert f Hf. induction Hes as [|e es He _ IH]; intros f Hf; [by intros []|]. cbn [run_filter].
  pose proof (event_safe host ss Hwf Hroom e f Hf He) as Hsafe.
  destruct (filter_event e f) as [[[b|err| |] f1] out]; try done; [|by intros []].
  specialize (IH f1 Hsafe). by destruct (run_filter es f1).
Qed.

(** The next turn of a connection, whatever its sessions *)
Lemma connection_scoped {G U : Type} `{GuestTlsLaws G} `{UpstreamLaws U} `{!TlsCrypto} `{!TlsSessions G U} `{!TlsSessionsLaws G U}
    limits grown tls t now wall dst authorities pol policy t' requested received p rt permit turn pool :
  0 < tls_relay_buffer_capacity limits → wf_secrets (secrets pol) → room (secrets pol) →
  rtc intercept_step (tls_intercept_new tls) t → tls_egress_policy now wall dst authorities pol t = (Ret policy, t') →
  rtc (proxy_step (G:=G) (U:=U) limits grown) ([], tls_tcp_proxy_new requested policy) (received, p) →
  runtime_ok rt → pool_clean pool →
  match tls_proxy_drive limits grown rt permit {| c_turn := turn; c_pool := pool; c_proxy := p |} with
  | (Ret poll, c) =>
    (∀ g u out, sessions_of (c_proxy c) = Some (g, u, out) → server_scoped pol received dst (goes_on poll) g u out) ∧
    (∀ b, poll = PollBypass b → bypass_ok tls pol policy received b)
  | _ => False
  end.
Proof.
  intros Hrelay Hwf Hroom Hreach Hrun Hhist Hrt Hpool.
  eapply tls_egress_policy_spec in Hrun as (_ & Hpolicy & Hdst); [|by apply intercept_reachable].
  pose proof (proxy_reachable limits grown Hrelay tls now wall pol policy requested _ Hpolicy Hhist) as Hinv.
  pose proof (tls_proxy_drive_ok limits grown Hrelay tls now wall pol policy Hpolicy received rt permit p Hrt Hinv
    {| c_turn := turn; c_pool := pool; c_proxy := p |} eq_refl Hpool) as Hok.
  unfold wp in Hok. assert (Hhang : ¬ filter_hung pol).
  { intros (a & es & Hes & Hh). by eapply (run_filter_returns (authority_str a)), Hh; [done..|apply total_new|]. }
  destruct (tls_proxy_drive _ _ _ _ _) as [[poll|[]| |] c]; try done.
  destruct Hok as (Hl & _ & Hb). split.
  - intros g u out Hu. rewrite <-Hdst. by eapply learned_scoped, Hl.
  - by intros b ->.
Qed.

(** ** With the sessions of the program *)
Section stack.
(** rustls, as the server of the guest and as the client of a server *)
Context {A B : Type} `{RustlsLaws A} `{RustlsLaws B} `{!TlsCrypto} (limits : NetworkLimits) (grown : nat → nat → nat).
Context (new_connection : TlsServerConfig → outcome tls_error A).
Definition accept (config : TlsServerConfig) : outcome tls_error (TlsSession A) := session_new <$> new_connection config.
(** The crypto library returns. *)
Context (Hissue : ∀ host until ca, returns (server_config_for_host host until ca)) (Hnew : ∀ config, returns (new_connection config)).
#[local] Instance server_of_program : Upstream (TlsUpstream (TlsSession B)) := upstream_tls limits.
#[local] Instance server_of_program_laws : UpstreamLaws (TlsUpstream (TlsSession B)) := upstream_tls_laws limits.
#[local] Instance sessions_of_program : TlsSessions (TlsSession A) (TlsUpstream (TlsSession B)) := upstream_sessions accept.

(** C1: over any history of an intercepted connection, accepted under the policy of the moment, its next
    turn ends; a server it holds is the connection's destination under a name that the guest's
    ClientHello asks for and the policy allows; all the plaintext that the guest's session gave and all that
    the server's gave went through the HTTP filter of that name, in order and once, and what the server's
    session was given, with what waits for it, is exactly what the filter put out, a part of it when the
    connection is over, the same whatever the values of the secrets that are not for that name; and a
    connection that passes untouched is one that the configuration lists, with every byte of the guest in
    order. *)
Theorem intercepted_connection_scoped tls t now wall dst authorities pol policy t' requested received (p : TlsTcpProxy (G:=TlsSession A) (U:=TlsUpstream (TlsSession B)))
    network permit turn pool :
  0 < tls_relay_buffer_capacity limits → wf_secrets (secrets pol) → room (secrets pol) →
  rtc intercept_step (tls_intercept_new tls) t → tls_egress_policy now wall dst authorities pol t = (Ret policy, t') →
  rtc (proxy_step limits grown) ([], tls_tcp_proxy_new requested policy) (received, p) →
  network_ok network → pool_clean pool →
  match tls_proxy_drive limits grown (network_runtime network) permit {| c_turn := turn; c_pool := pool; c_proxy := p |} with
  | (Ret poll, c) =>
    (∀ g u out, sessions_of (c_proxy c) = Some (g, u, out) → server_scoped pol received dst (goes_on poll) g u out) ∧
    (∀ b, poll = PollBypass b → bypass_ok tls pol policy received b)
  | _ => False
  end.
Proof.
  intros Hrelay Hwf Hroom Hreach Hrun Hhist Hnetwork Hpool.
  assert (Haccept : ∀ config, returns (accept config)).
  { intros config. pose proof (Hnew config) as Hc. unfold accept. by destruct (new_connection config). }
  assert (Hfresh : ∀ config g, accept config = Ret g → plaintext_given g = []).
  { intros config g. unfold accept. destruct (new_connection config); [|done..]. by intros [= <-]. }
  pose proof (upstream_sessions_laws limits accept Hissue Haccept Hfresh) as Hlaws.
  eapply connection_scoped; try done. by apply network_runtime_ok.
Qed.
End stack.

(** ** A run: the ClientHello, the handshake, a request with a placeholder in it *)
Module EndToEndExample.
#[local] Existing Instance RouteExample.crypto.

(** A connection whose handshake is the ClientHello and whose ciphertext is the plaintext *)
Record Connection := { handshaking : bool; plaintext : bytes }.
#[local] Instance guest : Rustls Connection := {
  r_is_handshaking := handshaking; r_wants_write _ := false; r_send_close_notify c := c;
  r_room _ := Ret 4096;
  r_received bs c := {| handshaking := false; plaintext := if handshaking c then [] else plaintext c ++ bs |};
  r_process_new_packets c := (Ret false, c);
  r_offered _ := []; r_taken _ c := c;
  r_reader_read n c :=
    match take n (plaintext c) with
    | [] => (Fail SessionWouldBlock, c)
    | bs => (Ret ((λ b, b `mod` 256)%Z <$> bs), {| handshaking := handshaking c; plaintext := drop n (plaintext c) |})
    end;
  r_writer_write bs c := (Ret (length bs), c);
}.
#[local] Instance guest_laws : RustlsLaws Connection.
Proof.
  split; simpl; try done.
  - intros n c. by destruct (take n (plaintext c)).
  - intros n c bs c'. destruct (take n (plaintext c)) as [|b l] eqn:Ht; [done|]. intros [= <- _].
    apply (f_equal length) in Ht. rewrite length_take in Ht. change (length ((λ b, b `mod` 256)%Z <$> b :: l) ≤ n).
    rewrite length_fmap, <-Ht. lia.
  - intros n c bs c'. destruct (take n (plaintext c)) as [|b l]; [done|]. intros [= <- _].
    change (Forall is_byte ((λ b, b `mod` 256)%Z <$> b :: l)). apply Forall_fmap, Forall_true. intros x. by apply Z.mod_pos_bound.
  - by intros bs c n c' [= <- _].
Qed.

(** A connection to the server: what it accepts waits to be drained into the socket *)
#[local] Instance client : Rustls bytes := {
  r_is_handshaking _ := false; r_wants_write waiting := negb (bool_decide (waiting = [])); r_send_close_notify waiting := waiting;
  r_room _ := Ret 4096; r_received _ waiting := waiting; r_process_new_packets waiting := (Ret false, waiting);
  r_offered waiting := waiting; r_taken := drop;
  r_reader_read _ waiting := (Fail SessionWouldBlock, waiting);
  r_writer_write bs waiting := (Ret (length bs), waiting ++ bs);
}.
#[local] Instance client_laws : RustlsLaws bytes.
Proof. split; try done. by intros bs c n c' [= <- _]. Qed.
Definition new_connection (_ : TlsServerConfig) : outcome tls_error Connection := Ret {| handshaking := true; plaintext := [] |}.

Definition limits : NetworkLimits := {|
  command_inbox_capacity := 4; reactor_event_capacity := 4; component_output_batch_capacity := 4; component_event_batch_capacity := 4;
  frame_device_queue_capacity := 4; frame_buffer_capacity := 64; max_pooled_frame_capacity := 64; frame_buffer_pool_capacity := 3;
  small_byte_capacity := 64; medium_byte_capacity := 256; tcp_byte_capacity := 512; small_byte_pool_capacity := 4;
  medium_byte_pool_capacity := 8; tcp_byte_pool_capacity := 4; tcp_socket_buffer_capacity := 512; udp_datagram_buffer_capacity := 512;
  ingress_udp_datagram_buffer_capacity := 512; client_hello_limit := 400; tls_relay_buffer_capacity := 200;
  transport_connect_retry_delay := 10; status_publish_interval := 1000; idle_poll_delay := 100; udp_proxy_timeout := 3000;
  drive_event_budget := 8; drive_step_budget := 64; drive_byte_budget := 4096; tcp_proxy_limit := 4; ingress_tcp_connection_limit := 4;
  ingress_udp_peer_limit := 4; udp_proxy_limit := 4; timer_queue_capacity := 4; telemetry_event_capacity := 4 |}.
Definition buffers : BufferPool := match prewarm_instance_network limits pool_new with Ret p => p | _ => pool_new end.
Definition buffer (bs : bytes) : ByteBuf := {| buf_bytes := {| vec_bytes := bs; capacity := 256 |}; class := Medium |}.

Definition network_policy : NetworkPolicy := {|
  egress := with_allowed_authority (bytes_of "allowed.test") allow_all;
  secrets := secrets_insert (runtime_secret_new (bytes_of "AGENTDP_SECRET_TOKEN") (bytes_of "s3cret") [bytes_of "allowed.test"]) secrets_new |}.
Definition hello : bytes := encode_hello 3 1 example_hello.
Definition request (token : bytes) : bytes :=
  bytes_of "GET / HTTP/1.1" ++ crlf ++ bytes_of "Host: allowed.test" ++ crlf ++ bytes_of "X: " ++ token ++ crlfcrlf.

Definition network : Network (TlsSession bytes) _ := {|
  nw_wall := 1000; nw_socket _ := Ret {| reads := []; writes := [Accepts 400]; Io.sent := [] |};
  nw_session _ _ := Ret (session_new []); nw_registered := Ret tt; nw_reactor := []; nw_error := None |}.
Definition permit : TcpProxyPermit := {| READ_UPSTREAM := true; WRITE_UPSTREAM := true |}.
Definition grown (cap len : nat) : nat := len.
#[local] Instance server_side : Upstream (TlsUpstream (TlsSession bytes)) := upstream_tls limits.
#[local] Instance server_side_laws : UpstreamLaws (TlsUpstream (TlsSession bytes)) := upstream_tls_laws limits.
#[local] Instance sessions : TlsSessions (TlsSession Connection) (TlsUpstream (TlsSession bytes)) := upstream_sessions (accept new_connection).
Abbreviation Proxy := (TlsTcpProxy (G:=TlsSession Connection) (U:=TlsUpstream (TlsSession bytes))).
Definition a_turn (p : Proxy) :=
  tls_proxy_drive limits grown (network_runtime network) permit {| c_turn := turn_start limits; c_pool := buffers; c_proxy := p |}.
Definition turned (p : Proxy) : Proxy := c_proxy (a_turn p).2.
Definition write bs (p : Proxy) : Proxy := (proxy_write (buffer bs) p).2.
Definition readied (p : Proxy) : Proxy := proxy_mark_reactor_ready true true p.

Lemma buffers_clean : pool_clean buffers.
Proof. intros [] l; intros [= <-]; repeat constructor. Qed.
Lemma network_returns : network_ok network.
Proof. by split. Qed.

Abbreviation step := (proxy_step (G:=TlsSession Connection) (U:=TlsUpstream (TlsSession bytes)) limits grown).
Definition goes (p : Proxy) : Prop := match (a_turn p).1 with Ret poll => goes_on poll | _ => false end = true.
Lemma turned_step received p : goes p → step (received, p) (received, turned p).
Proof.
  unfold goes, turned. destruct (a_turn p) as [[poll|e| |] c] eqn:Hrun; try done. intros Hgo.
  eapply step_turn; [exact (network_runtime_ok limits network network_returns)|exact buffers_clean|exact Hrun|exact Hgo].
Qed.
Lemma sent_step received bs p : step (received, p) (received ++ bs, write bs p).
Proof.
  apply (step_write limits grown received p (buffer bs) (proxy_write (buffer bs) p).1); [done|]. apply surjective_pairing.
Qed.
Lemma readied_step received p : step (received, p) (received, readied p).
Proof. apply step_ready. Qed.

Definition accepted := tls_egress_policy 10 1000 RouteExample.server [] network_policy (tls_intercept_new RouteExample.config).
Section run.
Context (policy : TlsEgressPolicy).
Definition greeted : Proxy := write hello (tls_tcp_proxy_new RouteExample.server policy).
Definition handshaken : Proxy := turned greeted.
Definition connecting : Proxy := turned handshaken.
Definition connected : Proxy := readied connecting.
Definition opened : Proxy := turned connected.
Definition requested : Proxy := write (request (bytes_of "AGENTDP_SECRET_TOKEN")) opened.
Definition relaying : Proxy := turned requested.
End run.
Definition received : bytes := hello ++ request (bytes_of "AGENTDP_SECRET_TOKEN").

Lemma run_goes policy : accepted.1 = Ret policy →
  goes (greeted policy) ∧ goes (handshaken policy) ∧ goes (connected policy) ∧ goes (requested policy).
Proof. intros Hacc. vm_compute in Hacc. injection Hacc as <-. repeat split; vm_compute; reflexivity. Qed.

Lemma run_history policy : accepted.1 = Ret policy →
  rtc step ([], tls_tcp_proxy_new RouteExample.server policy) (received, relaying policy).
Proof.
  intros (Hgo1 & Hgo2 & Hgo4 & Hgo6)%run_goes.
  refine (rtc_l _ _ (hello, greeted policy) _ (sent_step [] hello _) _).
  refine (rtc_l _ _ (hello, handshaken policy) _ (turned_step hello _ Hgo1) _).
  refine (rtc_l _ _ (hello, connecting policy) _ (turned_step hello _ Hgo2) _).
  refine (rtc_l _ _ (hello, connected policy) _ (readied_step hello _) _).
  refine (rtc_l _ _ (hello, opened policy) _ (turned_step hello _ Hgo4) _).
  refine (rtc_l _ _ (received, requested policy) _ (sent_step hello _ _) _).
  exact (rtc_once _ _ (turned_step received _ Hgo6)).
Qed.

Lemma run_served policy : accepted.1 = Ret policy →
  ∃ g u out, sessions_of (turned (relaying policy)) = Some (g, u, out) ∧ (a_turn (relaying policy)).1 = Ret PollPending ∧
    Io.sent (us_stream u) = request (bytes_of "s3cret") ∧ plaintext_given g = request (bytes_of "AGENTDP_SECRET_TOKEN").
Proof.
  intros Hacc. vm_compute in Hacc. injection Hacc as <-. do 3 eexists. split; [vm_compute; reflexivity|]. split_and!; vm_compute; reflexivity.
Qed.

(** The guest's session gives the request with the placeholder, the server's is given the one with the value,
    and it goes out on the socket. *)
Lemma intercepted_connection_scoped_witness : ∃ policy g u out,
  accepted.1 = Ret policy ∧ sessions_of (turned (relaying policy)) = Some (g, u, out) ∧
  plaintext_given g = request (bytes_of "AGENTDP_SECRET_TOKEN") ∧ Io.sent (us_stream u) = request (bytes_of "s3cret") ∧
  server_scoped network_policy received RouteExample.server true g u out.
Proof.
  assert (Haccepted : ∃ policy, accepted.1 = Ret policy) by (vm_compute; eexists; reflexivity).
  destruct Haccepted as [policy Hacc]. destruct (run_served policy Hacc) as (g & u & out & Hu & Hpoll & Hsent & Hgiven).
  exists policy, g, u, out. split; [exact Hacc|]. split; [exact Hu|]. split; [exact Hgiven|]. split; [exact Hsent|].
  assert (Hpol : accepted = (Ret policy, accepted.2)) by (rewrite <-Hacc; apply surjective_pairing).
  pose proof (run_history policy Hacc) as Hhist. revert Hu Hpoll Hhist. generalize (relaying policy) as p. intros p Hu Hpoll Hhist.
  assert (Hwf : wf_secrets (secrets network_policy)).
  { constructor; [|constructor]. split_and!; [done|..]; apply (bool_decide_unpack (Forall _ _)); by vm_compute. }
  pose proof (intercepted_connection_scoped limits grown new_connection (λ _ _ _, I) (λ _, I) RouteExample.config _ 10 1000 RouteExample.server []
    network_policy policy _ RouteExample.server _ p network permit (turn_start limits) buffers ltac:(vm_compute; lia) Hwf ltac:(by vm_compute)
    (rtc_refl _ _) Hpol Hhist network_returns buffers_clean) as Hscoped.
  change (tls_proxy_drive _ _ _ _ _) with (a_turn p) in Hscoped. rewrite (surjective_pairing (a_turn p)), Hpoll in Hscoped.
  destruct Hscoped as [Hscoped _]. exact (Hscoped g u out Hu).
Defined.
End EndToEndExample.
